(* ===== verification/_CoqProject ===== *)
-Q . S2P
Prelude.v
Text.v
Base64.v
WsFrame.v
WsConnection.v
Resp.v
CivilTime.v
HttpDate.v
Cron.v
Grants.v
Flags.v
Merge.v
F64.v
Decimal.v
Json.v
JsonText.v
Jobs.v
Queue.v
Worker.v
WorkerProofs.v
Cache.v
RateLimit.v
Breaker.v
Url.v
Router.v
Checksum.v
Bits.v
Huffman.v
Lz77.v
Deflate.v
DeflateRoundTrip.v
InflateSafety.v
Gzip.v
Dialect.v
Builder.v
ViewExpr.v
ViewTemplate.v
ViewTemplateProofs.v
ViewRender.v
ViewRenderProofs.v
Cbor.v
CborProofs.v
Ledger.v
LedgerProofs.v
LedgerTheorems.v
Ber.v
BerProofs.v
Ldap.v
LdapProofs.v
MySqlProtocol.v
MySqlConnection.v
MySqlProofs.v
MySqlAnswers.v
MySqlValues.v
MySqlSafety.v
MySqlTheorems.v
Qr.v
QrField.v
QrSymbol.v
QrCodewords.v
QrTheorems.v
Headers.v
Cookie.v
Response.v
Server.v
ServerProofs.v
ServerRequests.v
ServerTheorems.v
OAuth.v
OAuthStores.v
OAuthServer.v
OAuthProofs.v
OAuthHistory.v
OAuthFreshness.v
OAuthAnswers.v
OAuthTheorems.v
Sealing.v
Session.v
SessionProofs.v
SessionTheorems.v
