(* ===== verification/Prelude.v ===== *)
(** * Verification of the rustlavel framework

    rustlavel is a web framework in Rust: a workspace of small crates under
    [src/framework/crates/], each with its own data model, most of them written
    without third-party code. This library models the crates whose behaviour is
    a function of their inputs and their state (codecs, parsers, calendars,
    stores, state machines) and proves what makes them correct. Definitions are
    executable and follow the source function by function; names are the
    source's where Rocq allows.

    ** Conventions

    - A byte is a [Z] in [0, 256), a string is the list of its UTF-8 bytes, an
      integer of width [w] is a [Z] with [wrap w] where the source wraps or
      truncates. [f64] is [F64.v]'s: sign, mantissa and exponent of IEEE 754,
      rounding to nearest even. [usize] positions and lengths are [nat].
    - [Result] is [result], and [?] is [let?]; [Option]'s [?] is [let!].
    - A [HashMap] is a [gmap], a [BTreeMap] whose order is visible is a sorted
      association list, a [Mutex] around a state is the state: each locked
      section is one function from state to state.
    - The clock is an argument. What other parts supply (a job handler, a flag
      resolver, the events of a socket) is an argument too, and theorems hold
      for every choice.
    - A loop that is not structural takes fuel: the callers pass a bound on its
      turns computed from the input (bits left, bytes left, chunks), and the
      theorems show it is never reached ([Stuck] is not a result of [inflate],
      [recv] and the database conversations always end, the JSON parser's fuel is the length of its input).

    ** The parts

    [Prelude.v] (this file): results, bytes, machine integers, endianness,
    chunks, sorting, bit operations, the [bytes] and [len] hint databases.
    [Text.v]: what the sources use of [str]: UTF-8, trimming, splitting, decimal
    printing and parsing.

    - [Base64.v] (rustlavel-core [base64.rs]): encoder and decoder.
    - [WsFrame.v] (rustlavel-ws [frame.rs]): frames, masking, close payloads.
      Encoding and decoding are inverse, only canonical frames are accepted, a
      prefix is never misread.
    - [WsConnection.v] (rustlavel-ws [connection.rs]): [recv] as a function of
      the events of the socket, with fragmentation, control frames, the
      fail-fast UTF-8 check and the closing handshake. Any fragmentation of a
      message interleaved with pings is reassembled; a cancelled [recv] resumes;
      buffers stay within the limits.
    - [Resp.v] (rustlavel-cache [redis/resp.rs]): the Redis protocol's values.
    - [CivilTime.v] (rustlavel-queue [time.rs]), [HttpDate.v] (rustlavel-http
      [date.rs]): two copies of the proleptic Gregorian calendar, proved exact
      and equal, and the HTTP date format.
    - [Cron.v] (rustlavel-queue [cron.rs]): parser and [next_after]; the result
      is the first matching minute, and the four-year window is too short once
      a century.
    - [Grants.v] (rustlavel-rbac [grants.rs]), [Flags.v] (rustlavel-flags):
      permission rules; feature flags over any lawful store, refined to a
      precedence rule over the history of operator commands.
    - [Merge.v] (rustlavel-cli [merge.rs]): the Myers difference and three-way
      merge: every line of the three files is accounted for.
    - [F64.v], [Decimal.v], [Json.v], [JsonText.v] (rustlavel-core [json.rs]):
      values, the parser and both printers. Parsing gives back what was printed,
      every double to the last bit ([Rounding]: the shortest text lies closer to
      its double than to any other), infinities and NaN as null;
      results satisfy the invariants of [String] and [BTreeMap] on any input,
      errors point into it, and the compact text is safe inside a script tag.
    - [Jobs.v], [Queue.v], [Worker.v], [WorkerProofs.v] (rustlavel-queue
      [job.rs], [chain.rs], [queue.rs], [memory.rs], [progress.rs],
      [worker.rs]): jobs, chains, the [Queue] trait as the class
      [LawfulQueue], the in-memory driver as an instance, and the worker over
      any lawful driver. A worker drains its queue within the attempts left,
      and a pool of workers loses no job and runs none twice.
    - [Cache.v], [RateLimit.v] (rustlavel-cache [store.rs], [memory.rs],
      [rate_limit.rs]): the sharded store with lazy eviction refines a map with
      deadlines; over any store that keeps the [Cache] trait's promises the rate
      limiter counts exactly, in windows that attempts do not extend.
    - [Breaker.v] (rustlavel-client [breaker.rs]): the circuit breaker's state
      machine, its sliding window, and what stale permits can do.
    - [Url.v], [Router.v] (rustlavel-http [url.rs], [router.rs], [method.rs]):
      percent-encoding, path normalisation, route matching, groups, named URLs.
      What a request is routed to is stated apart from the code: which segments
      fit a path, which methods a route serves, which of two routes is preferred.
    - [Checksum.v], [Bits.v], [Huffman.v], [Lz77.v], [Deflate.v],
      [DeflateRoundTrip.v], [InflateSafety.v], [Gzip.v] (rustlavel-http
      [compression/]): CRC-32 and Adler-32, bit streams, canonical Huffman codes
      with length limiting, the hash-chain match finder, DEFLATE in both
      directions, gzip and zlib. Inflating what was compressed gives it back;
      inflating anything else ends within its limits with an error of the
      format; only streams whose checksums match are accepted.
    - [Dialect.v], [Builder.v] (rustlavel-db [dialect.rs], [value.rs],
      [builder.rs]): the four SQL dialects, bound values and the query builder.
      Every statement is spelled from fixed words, valid quoted identifiers,
      amounts and slots in order, whatever strings and values are supplied.
    - [ViewExpr.v], [ViewTemplate.v],
      [ViewTemplateProofs.v], [ViewRender.v], [ViewRenderProofs.v]
      (rustlavel-view): the template language from bytes to page. Parsing always
      ends, the precedence ladder reads back what it is shown, a page is template
      markup and escaped values only, and rendering ends unless sections yield
      one another in a circle, in which case it never does.
    - [Cbor.v], [CborProofs.v] (rustlavel-webauthn [cbor.rs]): the strict decoder
      and the canonical encoder of authenticator messages. Encoded values decode
      to themselves, and what is accepted is in range, bounded in depth and no
      larger than the message.
    - [Ledger.v], [LedgerProofs.v], [LedgerTheorems.v] (rustlavel-ledger): the
      book as its five tables, statements and transactions as functions on it,
      and the transactions of any callers and ledgers as a step relation, racing
      sweeps, lots of other units and expiries whose transfer was refused
      included. Balances add up to nothing, entries are the sides of transfers,
      nobody overspends what is not reserved; the audit of an account finds
      something only after a refused expiry was committed, and the audit of a unit
      when a sweep carried credits into another. Both are shown to happen.
    - [Ber.v], [BerProofs.v], [Ldap.v], [LdapProofs.v] (rustlavel-ldap [ber.rs],
      [protocol.rs]): the encoding with one spelling for everything, framing, and
      the protocol over it. A directory reads back the filter that was built, the
      client reads back what a directory writes, and escaped values stay values.
    - [MySqlProtocol.v], [MySqlConnection.v] with [MySqlProofs.v],
      [MySqlAnswers.v], [MySqlValues.v], [MySqlSafety.v], [MySqlTheorems.v]
      (rustlavel-db [mysql/], the stream of [tls.rs]): the driver's packets and
      the connection as a state and error monad over the outcomes of reads and
      writes. Statements read their own answers however the bytes arrive, values
      are carried exactly, every conversation with any server ends, and the
      password leaves outside TLS only as a salted digest; bytes buffered before
      the upgrade to TLS are trusted after it.
    - [Qr.v] with [QrField.v], [QrSymbol.v], [QrCodewords.v], [QrTheorems.v] (rustlavel-auth [qr.rs]): the encoder of
      enrolment codes. A reader written from the standard finds the data in the
      modules of the symbol, every block corrects as many errors as the code
      promises, the mask is the best of the eight, the drawing is the symbol.
    - [Headers.v], [Cookie.v], [Response.v], [Server.v] with [ServerProofs.v],
      [ServerRequests.v], [ServerTheorems.v] (rustlavel-http
      [headers.rs], [status.rs], [cookie.rs], [response.rs], [server.rs]): the
      wire of the web server, over the outcomes of reads and writes. Pipelined
      requests are answered in order however they are cut, clients read back
      what was answered, any bytes are survived within the limits and no request
      states its length twice; a length that cannot be read and a URL in a query
      mislead it.

    - [OAuth.v], [OAuthStores.v], [OAuthServer.v] with [OAuthProofs.v],
      [OAuthHistory.v], [OAuthFreshness.v], [OAuthAnswers.v], [OAuthTheorems.v] (rustlavel-oauth [scope.rs], [url.rs], [error.rs],
      [token.rs], [pkce.rs]; rustlavel-oauth-provider): the authorization server.
      Its endpoints are programs over the operations of the stores, its histories
      interleave any requests under any failures of the stores. Tokens follow from
      consent and only to the client whose stored secret was presented, codes and
      refresh tokens are spent once, nothing is redirected astray, reuse ends a
      session, except when it overtakes the first exchange, whatever is revoked
      in between.
      The single-use theorems assume that SHA-256 does not collide and random
      values do not repeat ([ideal]).

    - [Sealing.v], [Session.v] with [SessionProofs.v], [SessionTheorems.v]
      (rustlavel-auth [key.rs], [encryption.rs], [signed_url.rs], [session.rs],
      [store.rs], [middleware.rs], [csrf.rs], [guard.rs]): encrypted payloads,
      signed links, and sessions as programs whose store operations interleave,
      with handlers in a state monad over the session. A planted id is never signed
      in, a session comes back as its handler left it, forms need their token, a
      link verifies as it was signed or the MAC has collided; a request in flight
      undoes any logout that overtakes it.

    ** How they meet

    The interfaces are classes: [Cache] and [LawfulCache] under the rate
    limiter, [FlagStore] and [LawfulFlagStore] under the flag registry,
    [LawfulQueue] and [ReliableQueue] under the worker. Clients are proved against the class and
    implementations discharge it. [Gzip] rests on [Deflate] and [Checksum],
    [Deflate] on [Huffman], [Lz77] and [Bits], the queue's stored jobs on the
    JSON values, [HttpDate] on [CivilTime], the MySQL driver on the builder's
    values, the templates on the JSON values; the
    renderer takes the engine's loader, the translator and the route table as
    arguments.

    ** Bounds

    Sizes that only memory bounds ([usize] lengths) are unbounded; counters the
    source keeps in [u32] or [u64] wrap, and a theorem that needs them not to
    says so as a hypothesis. The decoder's limits are the source's constants.

    ** Not modelled

    Socket, file and database input and output, asynchronous scheduling below
    the granularity of a locked section, TLS and cryptographic primitives,
    procedural macros, and rendering of error pages and charts. Left out for
    want of room rather than of a model: validation rules, the schema builder,
    conditional requests and byte ranges, sign-in through other providers, the
    other database drivers, and the stores of the authorization server and of
    sessions outside the process. *)

From Stdlib Require Export ZArith Lia.
From stdpp Require Export base list gmap strings numbers.

#[export] Set Default Goal Selector "!".
#[export] Set Warnings "-register-all,-clear-no-such-hyp".
#[global] Open Scope Z_scope.

(** ** Results

    Rust's [Result<T, E>]. The [let?] notation is the [?] operator: an error
    leaves the function at once. *)

Inductive result (E A : Type) : Type :=
  | Ok (a : A)
  | Err (e : E).
Arguments Ok {E A} a.
Arguments Err {E A} e.

Lemma Ok_inj {E A} (a b : A) : @Ok E A a = Ok b -> a = b.
Proof. by intros [= ->]. Qed.

Declare Scope rust_scope.
Delimit Scope rust_scope with rust.

Notation "'let?' x ':=' e 'in' k" :=
  (match e with Ok x => k | Err err => Err err end)
  (at level 10, x pattern, e at level 100, k at level 200,
   format "'let?'  x  ':='  e  'in' '//' k") : rust_scope.
Notation "'let!' x ':=' e 'in' k" :=
  (match e with Some x => k | None => None end)
  (at level 10, x pattern, e at level 100, k at level 200,
   format "'let!'  x  ':='  e  'in' '//' k") : rust_scope.
#[global] Open Scope rust_scope.

#[export] Instance result_eq_dec {E A} `{!EqDecision E, !EqDecision A} :
  EqDecision (result E A).
Proof. solve_decision. Defined.

(** ** Bytes and text

    A [u8] is a [Z] in [0, 256); a [Vec<u8>], a [&[u8]] and the bytes of a
    [&str] are a [list Z]. [lit] turns a Rocq string literal into its bytes. *)

Definition is_byte (b : Z) : bool := (0 <=? b) && (b <? 256).
Definition bytes (l : list Z) : Prop := Forall (fun b => 0 <= b < 256) l.

Definition lit (s : string) : list Z :=
  map (fun a => Z.of_nat (Ascii.nat_of_ascii a)) (String.list_ascii_of_string s).

Lemma is_byte_spec b : is_byte b = true <-> 0 <= b < 256.
Proof. unfold is_byte. lia. Qed.

#[export] Instance bytes_dec l : Decision (bytes l).
Proof. unfold bytes. apply Forall_dec. intros x. apply and_dec; apply _. Defined.

Lemma bytes_app l1 l2 : bytes (l1 ++ l2) <-> bytes l1 /\ bytes l2.
Proof. apply Forall_app. Qed.

Lemma bytes_cons b l : bytes (b :: l) <-> 0 <= b < 256 /\ bytes l.
Proof. apply Forall_cons_iff. Qed.

Lemma bytes_nil : bytes [].
Proof. apply Forall_nil_2. Qed.

Lemma bytes_take n l : bytes l -> bytes (take n l).
Proof. apply Forall_take. Qed.

Lemma bytes_drop n l : bytes l -> bytes (drop n l).
Proof. apply Forall_drop. Qed.

(** ** Machine integers

    Arithmetic that wraps or truncates in the source is written with [wrap]. *)

Definition wrap (w z : Z) : Z := z mod 2 ^ w.
Abbreviation u8 := (wrap 8).
Abbreviation u16 := (wrap 16).
Abbreviation u32 := (wrap 32).
Abbreviation u64 := (wrap 64).

Lemma wrap_range w z : 0 <= w -> 0 <= wrap w z < 2 ^ w.
Proof. intros. apply Z.mod_pos_bound. lia. Qed.

Lemma wrap_small w z : 0 <= z < 2 ^ w -> wrap w z = z.
Proof. apply Z.mod_small. Qed.

(** ** Big- and little-endian integers ([to_be_bytes], [from_le_bytes], ...) *)

Fixpoint to_le_bytes (n : nat) (z : Z) : list Z :=
  match n with
  | O => []
  | S n => u8 z :: to_le_bytes n (Z.shiftr z 8)
  end.

Fixpoint from_le_bytes (l : list Z) : Z :=
  match l with
  | [] => 0
  | b :: l => b + 256 * from_le_bytes l
  end.

Definition to_be_bytes (n : nat) (z : Z) : list Z := rev (to_le_bytes n z).
Definition from_be_bytes (l : list Z) : Z := from_le_bytes (rev l).

Lemma to_le_bytes_length n z : length (to_le_bytes n z) = n.
Proof. revert z; induction n; intros; simpl; auto. Qed.

Lemma to_le_bytes_bytes n z : bytes (to_le_bytes n z).
Proof.
  revert z; induction n as [|n IH]; intros z; simpl; [apply bytes_nil|].
  apply bytes_cons; split; [|apply IH]. by apply (wrap_range 8).
Qed.

Lemma from_to_le_bytes n z :
  0 <= z < 256 ^ Z.of_nat n -> from_le_bytes (to_le_bytes n z) = z.
Proof.
  revert z; induction n as [|n IH]; intros z Hz; [simpl in *; lia|].
  cbn [to_le_bytes from_le_bytes]. rewrite Nat2Z.inj_succ, Z.pow_succ_r in Hz by lia.
  rewrite Z.shiftr_div_pow2 by lia. change (2 ^ 8) with 256.
  rewrite IH; unfold wrap; change (2 ^ 8) with 256.
  - pose proof (Z.div_mod z 256). lia.
  - split; [apply Z.div_pos; lia|]. apply Z.div_lt_upper_bound; lia.
Qed.

Lemma to_from_le_bytes l : bytes l -> to_le_bytes (length l) (from_le_bytes l) = l.
Proof.
  induction l as [|b l IH]; intros Hb; [done|].
  apply bytes_cons in Hb as [Hb Hl]. cbn [length to_le_bytes from_le_bytes].
  rewrite Z.shiftr_div_pow2 by lia. unfold wrap. change (2 ^ 8) with 256.
  rewrite (Z.mul_comm 256), Z.mod_add, Z.div_add by lia.
  rewrite Z.mod_small, Z.div_small, Z.add_0_l by lia. by rewrite IH.
Qed.

Lemma from_le_bytes_bound l : bytes l -> 0 <= from_le_bytes l < 256 ^ Z.of_nat (length l).
Proof.
  induction l as [|b l IH]; intros Hb; [simpl; lia|].
  apply bytes_cons in Hb as [Hb Hl]. specialize (IH Hl).
  cbn [length from_le_bytes]. rewrite Nat2Z.inj_succ, Z.pow_succ_r by lia. lia.
Qed.

Lemma to_be_bytes_length n z : length (to_be_bytes n z) = n.
Proof. unfold to_be_bytes. by rewrite length_rev, to_le_bytes_length. Qed.

Lemma to_be_bytes_bytes n z : bytes (to_be_bytes n z).
Proof. apply Forall_rev, to_le_bytes_bytes. Qed.

Lemma from_to_be_bytes n z :
  0 <= z < 256 ^ Z.of_nat n -> from_be_bytes (to_be_bytes n z) = z.
Proof. unfold from_be_bytes, to_be_bytes. rewrite rev_involutive. apply from_to_le_bytes. Qed.

Lemma to_from_be_bytes l : bytes l -> to_be_bytes (length l) (from_be_bytes l) = l.
Proof.
  intros Hl. unfold from_be_bytes, to_be_bytes. rewrite <- (length_rev l).
  rewrite to_from_le_bytes by by apply Forall_rev. apply rev_involutive.
Qed.

Lemma from_be_bytes_bound l : bytes l -> 0 <= from_be_bytes l < 256 ^ Z.of_nat (length l).
Proof.
  intros Hl. unfold from_be_bytes. rewrite <- (length_rev l).
  by apply from_le_bytes_bound, Forall_rev.
Qed.

(** ** Automation

    The [bytes] database proves that what is put together from bytes is bytes;
    the [len] database computes the length of what is put together from lists. *)

Lemma bytes_app_2 l1 l2 : bytes l1 -> bytes l2 -> bytes (l1 ++ l2).
Proof. rewrite bytes_app. auto. Qed.

Lemma bytes_cons_2 b l : 0 <= b < 256 -> bytes l -> bytes (b :: l).
Proof. rewrite bytes_cons. auto. Qed.

Lemma u8_byte z : 0 <= u8 z < 256.
Proof. by apply (wrap_range 8). Qed.

Create HintDb bytes discriminated.
#[export] Hint Resolve bytes_nil bytes_app_2 bytes_cons_2 bytes_take bytes_drop
  to_le_bytes_bytes to_be_bytes_bytes u8_byte : bytes.
#[export] Hint Extern 5 (_ <= _ < _) => lia : bytes.
Ltac solve_bytes := solve [auto 10 with bytes].

Create Rewrite HintDb len.
#[export] Hint Rewrite @length_app @length_take @length_drop @length_rev @length_map @repeat_length
  to_le_bytes_length to_be_bytes_length : len.
Ltac solve_len := autorewrite with len in *; cbn [length] in *; lia.

(** ** Slices and chunks *)

Section chunks.
Context {A : Type}.

(** [slice::chunks]: consecutive runs of [n], the last possibly shorter. The
    fuel is the length of the list, since every chunk takes an element. *)
Fixpoint chunks_aux (fuel n : nat) (l : list A) : list (list A) :=
  match fuel, l with
  | S fuel, _ :: _ => take n l :: chunks_aux fuel n (drop n l)
  | _, _ => []
  end.
Definition chunks (n : nat) (l : list A) : list (list A) := chunks_aux (length l) n l.

Lemma chunks_aux_fuel f1 f2 n l :
  (0 < n)%nat -> (length l <= f1)%nat -> (length l <= f2)%nat ->
  chunks_aux f1 n l = chunks_aux f2 n l.
Proof.
  intros Hn. revert f2 l; induction f1 as [|f1 IH]; intros f2 l H1 H2.
  - destruct l; [|simpl in *; lia]. by destruct f2.
  - destruct l as [|x l]; [by destruct f2|].
    destruct f2 as [|f2]; [simpl in *; lia|]. cbn [chunks_aux]. f_equal.
    apply IH; rewrite length_drop; simpl in *; lia.
Qed.

Lemma chunks_nil n : chunks n [] = [].
Proof. done. Qed.

Lemma chunks_cons n l :
  (0 < n)%nat -> l <> [] -> chunks n l = take n l :: chunks n (drop n l).
Proof.
  intros Hn Hl. destruct l as [|x l]; [done|]. unfold chunks at 1.
  cbn [length chunks_aux]. f_equal.
  apply chunks_aux_fuel; [done|rewrite length_drop; simpl; lia|done].
Qed.

Lemma chunks_short n l : (0 < n)%nat -> l <> [] -> (length l <= n)%nat -> chunks n l = [l].
Proof.
  intros Hn Hl Hlen. rewrite chunks_cons by done.
  by rewrite take_ge, drop_ge, chunks_nil by lia.
Qed.
End chunks.

(** ** Sorting

    The standard library's stable sort by key, as insertion into a sorted list;
    equal keys keep their order. *)
Section stable_sort.
Context {A : Type} (le : A -> A -> bool).

Fixpoint insert_stable (x : A) (l : list A) : list A :=
  match l with
  | [] => [x]
  | y :: l => if le x y then x :: y :: l else y :: insert_stable x l
  end.

Fixpoint stable_sort (l : list A) : list A :=
  match l with [] => [] | x :: l => insert_stable x (stable_sort l) end.

Hypothesis le_total : forall x y, le x y = true \/ le y x = true.
Hypothesis le_trans : forall x y z, le x y = true -> le y z = true -> le x z = true.

Lemma insert_stable_perm x l : Permutation (insert_stable x l) (x :: l).
Proof.
  induction l as [|y l IH]; cbn [insert_stable]; [done|]. case_match; [done|].
  rewrite IH. apply perm_swap.
Qed.

Lemma stable_sort_perm l : Permutation (stable_sort l) l.
Proof. induction l as [|x l IH]; cbn [stable_sort]; [done|]. by rewrite insert_stable_perm, IH. Qed.

(** Every element is before what follows it. *)
Inductive ordered : list A -> Prop :=
  | ordered_nil : ordered []
  | ordered_cons x l : Forall (fun y => le x y = true) l -> ordered l -> ordered (x :: l).

Lemma insert_stable_ordered x l : ordered l -> ordered (insert_stable x l).
Proof.
  induction 1 as [|y l Hy Hl IH]; cbn [insert_stable].
  { constructor; [apply Forall_nil_2|constructor]. }
  destruct (le x y) eqn:E.
  - constructor; [|by constructor]. apply Forall_cons_2; [done|].
    eapply Forall_impl; [|exact Hy]. intros z Hz. by eapply le_trans.
  - constructor; [|done].
    apply (Permutation_Forall (Permutation_sym (insert_stable_perm x l))).
    apply Forall_cons_2; [|done]. destruct (le_total x y); congruence.
Qed.

Lemma stable_sort_ordered l : ordered (stable_sort l).
Proof. induction l as [|x l IH]; cbn [stable_sort]; [constructor|by apply insert_stable_ordered]. Qed.
End stable_sort.

(** Strong induction on the length of a list. *)
Lemma list_length_ind {A} (P : list A -> Prop) :
  (forall l, (forall l', (length l' < length l)%nat -> P l') -> P l) -> forall l, P l.
Proof.
  intros H l. remember (length l) as n eqn:Hn. revert l Hn.
  induction n as [n IH] using lt_wf_ind. intros l ->. apply H.
  intros l' Hl'. by eapply IH.
Qed.

(** ** Bitwise lemmas *)

Lemma land_ones_mod z n : 0 <= n -> Z.land z (2 ^ n - 1) = z mod 2 ^ n.
Proof. intros. rewrite <- Z.land_ones by done. f_equal. rewrite Z.ones_equiv. lia. Qed.

(** Or-ing bits into a hole of zeros is addition. *)
Lemma lor_add_low a v n : 0 <= n -> 0 <= v < 2 ^ n -> Z.lor (2 ^ n * a) v = 2 ^ n * a + v.
Proof.
  intros Hn Hv. rewrite Z.add_nocarry_lxor; [symmetry; apply Z.lxor_lor|];
  rewrite Z.mul_comm, <- Z.shiftl_mul_pow2 by done;
  apply Z.bits_inj'; intros i Hi; rewrite Z.land_spec, Z.bits_0, Z.shiftl_spec by done;
  (destruct (decide (i < n)); [rewrite Z.testbit_neg_r by lia; done|]);
  (replace v with (v mod 2 ^ n) by (apply Z.mod_small; lia));
  rewrite Z.mod_pow2_bits_high by lia; apply andb_false_r.
Qed.

(** A boolean property of every small integer, checked by evaluation. *)
Lemma forall_below (n : nat) (P : Z -> bool) :
  forallb (fun i => P (Z.of_nat i)) (seq 0 n) = true ->
  forall z, 0 <= z < Z.of_nat n -> P z = true.
Proof.
  intros H z Hz. rewrite forallb_forall in H. rewrite <- (Z2Nat.id z) by lia.
  apply H, in_seq. lia.
Qed.

(** Testing one bit with a mask. *)
Lemma land_pow2_zero n v : 0 <= n -> (Z.land v (2 ^ n) =? 0) = negb (Z.testbit v n).
Proof.
  intros Hn. destruct (Z.testbit v n) eqn:E; cbn [negb].
  - apply Z.eqb_neq. intros H. apply (f_equal (fun z => Z.testbit z n)) in H.
    rewrite Z.land_spec, E, Z.pow2_bits_true, Z.bits_0 in H by done. done.
  - apply Z.eqb_eq, Z.bits_inj'. intros i Hi. rewrite Z.land_spec, Z.bits_0.
    destruct (decide (i = n)) as [->|Hne]; [by rewrite E|].
    rewrite Z.pow2_bits_false by done. apply andb_false_r.
Qed.

Lemma testbit_top n v : 0 <= n -> 0 <= v < 2 ^ (n + 1) -> Z.testbit v n = (2 ^ n <=? v).
Proof.
  intros Hn Hv. rewrite Z.pow_add_r in Hv by lia. apply Z.b2z_inj. rewrite Z.testbit_spec' by done.
  destruct (Z.leb_spec (2 ^ n) v); cbn [Z.b2z].
  - replace (v / 2 ^ n) with 1; [done|]. apply Z.div_unique with (v - 2 ^ n); lia.
  - by rewrite Z.div_small by lia.
Qed.

(** Bitwise operations stay within a width. *)
Lemma lxor_range n a b : 0 <= n -> 0 <= a < 2 ^ n -> 0 <= b < 2 ^ n -> 0 <= Z.lxor a b < 2 ^ n.
Proof.
  intros Hn Ha Hb. assert (0 <= Z.lxor a b) by (apply Z.lxor_nonneg; lia).
  split; [done|]. destruct (decide (Z.lxor a b = 0)) as [->|]; [lia|].
  apply Z.log2_lt_pow2; [lia|]. eapply Z.le_lt_trans; [apply Z.log2_lxor; lia|].
  destruct (decide (n = 0)) as [->|]; [assert (a = 0) by lia; assert (b = 0) by lia; subst; done|].
  apply Z.max_lub_lt; [destruct (decide (a = 0)) as [->|]|destruct (decide (b = 0)) as [->|]];
    try (simpl; lia); apply Z.log2_lt_pow2; lia.
Qed.

Lemma lor_range n a b : 0 <= n -> 0 <= a < 2 ^ n -> 0 <= b < 2 ^ n -> 0 <= Z.lor a b < 2 ^ n.
Proof.
  intros Hn Ha Hb. assert (0 <= Z.lor a b) by (apply Z.lor_nonneg; lia).
  split; [done|]. destruct (decide (Z.lor a b = 0)) as [->|]; [lia|].
  apply Z.log2_lt_pow2; [lia|]. rewrite Z.log2_lor by lia.
  destruct (decide (n = 0)) as [->|]; [assert (a = 0) by lia; assert (b = 0) by lia; subst; done|].
  apply Z.max_lub_lt; [destruct (decide (a = 0)) as [->|]|destruct (decide (b = 0)) as [->|]];
    try (simpl; lia); apply Z.log2_lt_pow2; lia.
Qed.
