(* ===== verification/Text.v ===== *)
(** * Text

    What the components use of Rust's [str], [char] and integer formatting:
    UTF-8 validation as [str::from_utf8] performs it, decimal printing and
    parsing, prefixes and suffixes, splitting and trimming. A [&str] is the
    list of its UTF-8 bytes. *)

From S2P Require Import Prelude.

(** ** UTF-8 *)

(** The leading character of a byte string: its width, or why there is none.
    [Incomplete] is the case [Utf8Error::error_len] reports as [None]: the
    bytes end inside a character that is well formed so far. *)
Inductive utf8_head :=
  | Char (width : nat)
  | Incomplete
  | Invalid.

Definition in_range (lo hi b : Z) : bool := (lo <=? b) && (b <=? hi).
Definition is_cont (b : Z) : bool := in_range 128 191 b.

(** The bytes a leading byte allows in second place. *)
Definition second_ok (b0 b1 : Z) : bool :=
  if b0 =? 224 then in_range 160 191 b1
  else if b0 =? 237 then in_range 128 159 b1
  else if b0 =? 240 then in_range 144 191 b1
  else if b0 =? 244 then in_range 128 143 b1
  else is_cont b1.

(** How many continuation bytes a leading byte announces, if it is one. *)
Definition announced (b0 : Z) : option nat :=
  if in_range 0 127 b0 then Some 0%nat
  else if in_range 194 223 b0 then Some 1%nat
  else if in_range 224 239 b0 then Some 2%nat
  else if in_range 240 244 b0 then Some 3%nat
  else None.

Definition utf8_first (l : list Z) : utf8_head :=
  match l with
  | [] => Incomplete
  | b0 :: r =>
      match announced b0, r with
      | None, _ => Invalid
      | Some O, _ => Char 1
      | Some _, [] => Incomplete
      | Some n, b1 :: r =>
          if negb (second_ok b0 b1) then Invalid else
          match n, r with
          | 1%nat, _ => Char 2
          | _, [] => Incomplete
          | 2%nat, b2 :: _ => if is_cont b2 then Char 3 else Invalid
          | _, b2 :: [] => if is_cont b2 then Incomplete else Invalid
          | _, b2 :: b3 :: _ =>
              if negb (is_cont b2) then Invalid else if is_cont b3 then Char 4 else Invalid
          end
      end
  end.

(** [str::from_utf8]: how many leading bytes are whole characters
    ([valid_up_to]) and what stopped the scan: nothing, an unfinished character
    ([error_len() == None]) or a wrong byte. Fuel: the number of bytes. *)
Inductive utf8_end :=
  | AllValid
  | Unfinished
  | Wrong.

Fixpoint utf8_scan_aux (fuel : nat) (l : list Z) (upto : nat) : nat * utf8_end :=
  match fuel, l with
  | _, [] => (upto, AllValid)
  | O, _ => (upto, Wrong)
  | S fuel, _ =>
      match utf8_first l with
      | Char w => utf8_scan_aux fuel (drop w l) (upto + w)
      | Incomplete => (upto, Unfinished)
      | Invalid => (upto, Wrong)
      end
  end.
Definition utf8_scan (l : list Z) : nat * utf8_end := utf8_scan_aux (length l) l 0.

Definition utf8_valid (l : list Z) : bool :=
  match (utf8_scan l).2 with AllValid => true | _ => false end.

(** [String::from_utf8_lossy]: every wrong piece becomes U+FFFD. A piece is the
    longest start of a character that the bytes spell. *)
Definition utf8_wrong_len (l : list Z) : nat :=
  match l with
  | b0 :: b1 :: r =>
      match announced b0 with
      | Some (S _) =>
          if second_ok b0 b1 then
            match r with b2 :: _ => if is_cont b2 then 3 else 2 | [] => 2 end%nat
          else 1%nat
      | _ => 1%nat
      end
  | _ => 1%nat
  end.

Fixpoint utf8_lossy_aux (fuel : nat) (l : list Z) : list Z :=
  match fuel, l with
  | _, [] => []
  | O, _ => l
  | S fuel, _ =>
      match utf8_first l with
      | Char w => take w l ++ utf8_lossy_aux fuel (drop w l)
      | Incomplete => [239; 191; 189]
      | Invalid => [239; 191; 189] ++ utf8_lossy_aux fuel (drop (utf8_wrong_len l) l)
      end
  end.
Definition utf8_lossy (l : list Z) : list Z := utf8_lossy_aux (length l) l.

(** [str::is_char_boundary]. *)
Definition is_char_boundary (l : list Z) (i : nat) : bool :=
  if (i =? 0)%nat then true
  else match l !! i with
       | None => (i =? length l)%nat
       | Some b => negb (is_cont b)
       end.

(** ** Decimal integers *)

Fixpoint dec_aux (fuel : nat) (n : Z) (acc : list Z) : list Z :=
  match fuel with
  | O => acc
  | S fuel =>
      let acc := (48 + n mod 10) :: acc in
      if n / 10 =? 0 then acc else dec_aux fuel (n / 10) acc
  end.

(** [to_string] of an unsigned integer; a number has at most as many decimal
    digits as binary ones. *)
Definition dec_nat (n : Z) : list Z := dec_aux (S (Z.to_nat (Z.log2 n))) n [].

(** [to_string] of a signed integer. *)
Definition dec (n : Z) : list Z :=
  if n <? 0 then lit "-" ++ dec_nat (- n) else dec_nat n.

Definition is_digit (b : Z) : bool := in_range 48 57 b.

Fixpoint digits (l : list Z) (acc : Z) : option Z :=
  match l with
  | [] => Some acc
  | b :: l => if is_digit b then digits l (acc * 10 + (b - 48)) else None
  end.

(** [str::parse] for integers: an optional sign (a minus only for signed
    types), at least one digit, digits only, and the result within the type. *)
Definition parse_int (signed : bool) (lo hi : Z) (l : list Z) : option Z :=
  let check (o : option Z) :=
    match o with
    | Some n => if (lo <=? n) && (n <=? hi) then Some n else None
    | None => None
    end in
  match l with
  | [] => None
  | b :: r =>
      if b =? 43 then match r with [] => None | _ => check (digits r 0) end
      else if (b =? 45) && signed then
        match r with [] => None | _ => check (option_map Z.opp (digits r 0)) end
      else check (digits l 0)
  end.

Definition i64_min : Z := - 2 ^ 63.
Definition i64_max : Z := 2 ^ 63 - 1.
Definition u32_max : Z := 2 ^ 32 - 1.
Definition usize_max : Z := 2 ^ 64 - 1.

Definition parse_i64 : list Z -> option Z := parse_int true i64_min i64_max.
Definition parse_u32 : list Z -> option Z := parse_int false 0 u32_max.

(** [{:x}] of an unsigned integer. *)
Definition hex_digit_lower (d : Z) : Z := if d <? 10 then 48 + d else 87 + d.
Fixpoint hex_aux (fuel : nat) (n : Z) (acc : list Z) : list Z :=
  match fuel with
  | O => acc
  | S fuel =>
      let acc := hex_digit_lower (n mod 16) :: acc in
      if n / 16 =? 0 then acc else hex_aux fuel (n / 16) acc
  end.
Definition hex_lower (n : Z) : list Z := hex_aux (S (Z.to_nat (Z.log2 n))) n [].

(** ** Searching and splitting *)

(** [to_ascii_lowercase]. *)
Definition lower (b : Z) : Z := if (65 <=? b) && (b <=? 90) then b + 32 else b.
Definition lowercase (s : list Z) : list Z := map lower s.

Fixpoint starts_with (l p : list Z) {struct p} : bool :=
  match p, l with
  | [], _ => true
  | x :: p, y :: l => (x =? y) && starts_with l p
  | _ :: _, [] => false
  end.

(** [str::contains] of a text. *)
Fixpoint occurs (p l : list Z) : bool :=
  starts_with l p || match l with [] => false | _ :: l => occurs p l end.

Definition strip_prefix (l p : list Z) : option (list Z) :=
  if starts_with l p then Some (drop (length p) l) else None.

Definition ends_with (l p : list Z) : bool := starts_with (rev l) (rev p).

Definition strip_suffix (l p : list Z) : option (list Z) :=
  if ends_with l p then Some (take (length l - length p) l) else None.

(** [str::split] on one ASCII character: always at least one piece. *)
Fixpoint split_on (c : Z) (l : list Z) : list (list Z) :=
  match l with
  | [] => [[]]
  | b :: l =>
      if b =? c then [] :: split_on c l
      else match split_on c l with
           | [] => [[b]]
           | piece :: rest => (b :: piece) :: rest
           end
  end.

(** [str::split_once] on one ASCII character. *)
Fixpoint split_once (c : Z) (l : list Z) : option (list Z * list Z) :=
  match l with
  | [] => None
  | b :: l =>
      if b =? c then Some ([], l)
      else match split_once c l with
           | Some (x, y) => Some (b :: x, y)
           | None => None
           end
  end.

(** [[T]::join] on strings. *)
Fixpoint join (sep : list Z) (l : list (list Z)) : list Z :=
  match l with
  | [] => []
  | [x] => x
  | x :: l => x ++ sep ++ join sep l
  end.

(** ** White space

    The characters [char::is_whitespace] accepts, as their UTF-8 encodings. *)
Definition white_space : list (list Z) :=
  [[9]; [10]; [11]; [12]; [13]; [32];
   [194; 133]; [194; 160]; [225; 154; 128];
   [226; 128; 128]; [226; 128; 129]; [226; 128; 130]; [226; 128; 131]; [226; 128; 132];
   [226; 128; 133]; [226; 128; 134]; [226; 128; 135]; [226; 128; 136]; [226; 128; 137];
   [226; 128; 138]; [226; 128; 168]; [226; 128; 169]; [226; 128; 175];
   [226; 129; 159]; [227; 128; 128]].

(** The width of the white space a string starts with, if it does. *)
Definition leading_space (l : list Z) : option nat :=
  match List.find (starts_with l) white_space with
  | Some w => Some (length w)
  | None => None
  end.
Definition trailing_space (l : list Z) : option nat :=
  match List.find (ends_with l) white_space with
  | Some w => Some (length w)
  | None => None
  end.

Fixpoint trim_start_aux (fuel : nat) (l : list Z) : list Z :=
  match fuel with
  | O => l
  | S fuel => match leading_space l with
              | Some w => trim_start_aux fuel (drop w l)
              | None => l
              end
  end.
Fixpoint trim_end_aux (fuel : nat) (l : list Z) : list Z :=
  match fuel with
  | O => l
  | S fuel => match trailing_space l with
              | Some w => trim_end_aux fuel (take (length l - w) l)
              | None => l
              end
  end.

(** [str::trim]. *)
Definition trim (l : list Z) : list Z :=
  let l := trim_start_aux (length l) l in trim_end_aux (length l) l.

(** [str::split_whitespace]: the non-empty runs between white space. *)
Fixpoint split_whitespace_aux (fuel : nat) (l word : list Z) : list (list Z) :=
  let flush := match word with [] => [] | _ => [rev word] end in
  match fuel with
  | O => flush
  | S fuel =>
      match l with
      | [] => flush
      | b :: r =>
          match leading_space l with
          | Some w => flush ++ split_whitespace_aux fuel (drop w l) []
          | None => split_whitespace_aux fuel r (b :: word)
          end
      end
  end.
Definition split_whitespace (l : list Z) : list (list Z) :=
  split_whitespace_aux (S (length l)) l [].

(** ** Lemmas: decimal integers *)

Lemma digits_dec_aux fuel n acc :
  0 <= n < 2 ^ Z.of_nat fuel -> fuel <> O -> digits (dec_aux fuel n acc) 0 = digits acc n.
Proof.
  revert n acc; induction fuel as [|fuel IH]; intros n acc Hn Hf; [done|].
  cbn [dec_aux]. pose proof (Z.mod_pos_bound n 10). rewrite Nat2Z.inj_succ, Z.pow_succ_r in Hn by lia.
  assert (Hd : forall k, digits ((48 + n mod 10) :: acc) k = digits acc (k * 10 + n mod 10)).
  { intros k. cbn [digits]. unfold is_digit, in_range.
    rewrite (proj2 (andb_true_iff _ _)) by lia. f_equal. lia. }
  destruct (Z.eqb_spec (n / 10) 0) as [H0|H0].
  - rewrite Hd. f_equal. pose proof (Z.div_mod n 10). lia.
  - rewrite IH, Hd.
    + f_equal. pose proof (Z.div_mod n 10). lia.
    + split; [apply Z.div_pos; lia|]. apply Z.div_lt_upper_bound; lia.
    + intros ->. simpl in Hn. apply H0. apply Z.div_small. lia.
Qed.

Lemma digits_dec_nat n : 0 <= n -> digits (dec_nat n) 0 = Some n.
Proof.
  intros Hn. unfold dec_nat. rewrite digits_dec_aux; [done| |done].
  split; [done|]. rewrite Nat2Z.inj_succ, Z2Nat.id by apply Z.log2_nonneg.
  destruct (decide (n = 0)) as [->|]; [done|]. apply Z.log2_spec. lia.
Qed.

Lemma dec_aux_digits fuel n acc :
  Forall (fun b => 48 <= b <= 57) acc -> Forall (fun b => 48 <= b <= 57) (dec_aux fuel n acc).
Proof.
  revert n acc; induction fuel as [|fuel IH]; intros n acc Hacc; [done|]. cbn [dec_aux].
  assert (Hh : Forall (fun b => 48 <= b <= 57) ((48 + n mod 10) :: acc)).
  { constructor; [|done]. pose proof (Z.mod_pos_bound n 10). lia. }
  case_match; [done|]. by apply IH.
Qed.

Lemma dec_nat_digits n : Forall (fun b => 48 <= b <= 57) (dec_nat n).
Proof. by apply dec_aux_digits. Qed.

Lemma dec_aux_nonempty fuel n acc : acc <> [] -> dec_aux fuel n acc <> [].
Proof.
  revert n acc; induction fuel as [|fuel IH]; intros n acc Hacc; [done|]. cbn [dec_aux].
  case_match; [done|]. by apply IH.
Qed.

Lemma dec_nat_nonempty n : dec_nat n <> [].
Proof. unfold dec_nat. cbn [dec_aux]. case_match; [done|]. by apply dec_aux_nonempty. Qed.

(** A signed number read back from its own digits. *)
Lemma parse_int_dec signed lo hi n :
  lo <= n <= hi -> (signed = false -> 0 <= n) -> parse_int signed lo hi (dec n) = Some n.
Proof.
  intros Hn Hs. unfold dec. destruct (Z.ltb_spec n 0).
  - destruct signed; [|specialize (Hs eq_refl); lia].
    change (lit "-" ++ dec_nat (- n)) with (45 :: dec_nat (- n)).
    cbn [parse_int Z.eqb Pos.eqb andb].
    pose proof (dec_nat_nonempty (- n)). destruct (dec_nat (- n)) eqn:E; [done|].
    rewrite <- E, digits_dec_nat by lia. cbn [option_map].
    rewrite Z.opp_involutive, (proj2 (andb_true_iff _ _)) by lia. done.
  - pose proof (dec_nat_nonempty n). pose proof (dec_nat_digits n) as Hd.
    pose proof (digits_dec_nat n ltac:(lia)) as Hr.
    destruct (dec_nat n) as [|b r]; [done|]. apply Forall_cons_iff in Hd as [Hb _].
    unfold parse_int. rewrite (proj2 (Z.eqb_neq b 43)), (proj2 (Z.eqb_neq b 45)) by lia.
    cbn [andb]. rewrite Hr, (proj2 (andb_true_iff _ _)) by lia. done.
Qed.

Lemma parse_i64_dec n : i64_min <= n <= i64_max -> parse_i64 (dec n) = Some n.
Proof. intros Hn. unfold parse_i64. apply parse_int_dec; [exact Hn|discriminate]. Qed.

Lemma dec_nonneg n : 0 <= n -> dec n = dec_nat n.
Proof. intros. unfold dec. destruct (Z.ltb_spec n 0); [lia|done]. Qed.

(** The digits and the sign are ASCII, and none of them is white space. *)
Definition visible (b : Z) : Prop := 33 <= b <= 126.

Lemma dec_inj m n : 0 <= m -> 0 <= n -> dec m = dec n -> m = n.
Proof.
  intros Hm Hn H. rewrite !dec_nonneg in H by done. apply (f_equal (fun l => digits l 0)) in H.
  rewrite !digits_dec_nat in H by done. congruence.
Qed.

Lemma dec_visible n : Forall visible (dec n).
Proof.
  assert (H : forall n, Forall visible (dec_nat n)).
  { intros m. eapply Forall_impl; [|apply dec_nat_digits]. unfold visible. simpl. lia. }
  unfold dec. case_match; [|done]. apply Forall_app. split; [|done].
  constructor; [vm_compute; split; congruence|constructor].
Qed.

Lemma dec_nonempty n : dec n <> [].
Proof. unfold dec. case_match; [done|]. apply dec_nat_nonempty. Qed.

(** ** Lemmas: white space *)

Lemma find_starts_none l b ws :
  (forall w, In w ws -> exists c w', w = c :: w' /\ c <> b) ->
  List.find (starts_with (b :: l)) ws = None.
Proof.
  intros H. induction ws as [|w ws IH]; [done|]. cbn [List.find].
  destruct (H w) as (c & w' & -> & Hc); [by left|]. cbn [starts_with].
  rewrite (proj2 (Z.eqb_neq c b)) by done. apply IH. intros w Hw. apply H. by right.
Qed.

Lemma leading_space_visible b l : visible b -> leading_space (b :: l) = None.
Proof.
  intros Hb. unfold leading_space. rewrite find_starts_none; [done|].
  intros w Hw. cbn in Hw. unfold visible in Hb.
  repeat match goal with H : _ \/ _ |- _ => destruct H as [<-|H] end; try done;
    eexists _, _; (split; [reflexivity|lia]).
Qed.

Lemma find_ends_none l b ws :
  (forall w, In w ws -> exists c w', rev w = c :: w' /\ c <> b) ->
  List.find (ends_with (l ++ [b])) ws = None.
Proof.
  intros H. induction ws as [|w ws IH]; [done|]. cbn [List.find].
  destruct (H w) as (c & w' & Hw & Hc); [by left|]. unfold ends_with at 1.
  rewrite rev_app_distr, Hw. cbn [rev app starts_with].
  rewrite (proj2 (Z.eqb_neq c b)) by done. apply IH. intros w1 Hw1. apply H. by right.
Qed.

Lemma trailing_space_visible l b : visible b -> trailing_space (l ++ [b]) = None.
Proof.
  intros Hb. unfold trailing_space. rewrite find_ends_none; [done|].
  intros w Hw. cbn in Hw. unfold visible in Hb.
  repeat match goal with H : _ \/ _ |- _ => destruct H as [<-|H] end; try done;
    eexists _, _; (split; [reflexivity|lia]).
Qed.

Lemma trim_visible l : Forall visible l -> trim l = l.
Proof.
  intros Hl. unfold trim.
  assert (Hs : forall f, trim_start_aux f l = l).
  { intros [|f]; [done|]. cbn [trim_start_aux]. destruct l as [|b l]; [done|].
    apply Forall_cons_iff in Hl as [Hb _]. by rewrite leading_space_visible. }
  rewrite Hs. generalize (length l) at 1. intros [|f]; [done|]. cbn [trim_end_aux].
  destruct (rev l) as [|b r] eqn:E.
  { apply (f_equal (@rev Z)) in E. rewrite rev_involutive in E. by subst. }
  apply (f_equal (@rev Z)) in E. rewrite rev_involutive in E. cbn [rev] in E. subst l.
  rewrite trailing_space_visible; [done|]. apply Forall_app in Hl as [_ Hb].
  by apply Forall_cons_iff in Hb as [Hb _].
Qed.

Lemma trim_visible_ends l b x y c :
  l = b :: x -> l = y ++ [c] -> visible b -> visible c -> trim l = l.
Proof.
  intros E1 E2 Hb Hc. unfold trim.
  assert (Hs : trim_start_aux (length l) l = l).
  { rewrite E1. cbn [length trim_start_aux]. by rewrite leading_space_visible. }
  rewrite Hs. rewrite E2 at 2. rewrite E2 at 1. rewrite length_app, Nat.add_comm.
  cbn [length Nat.add trim_end_aux]. rewrite trailing_space_visible by done. by rewrite <- E2.
Qed.

(** Visible words joined by spaces have nothing to trim. *)
Lemma trim_join words :
  words <> [] -> Forall (fun w => Forall visible w /\ w <> []) words ->
  trim (join [32] words) = join [32] words.
Proof.
  intros Hne Hw.
  assert (Hlast : exists y c, join [32] words = y ++ [c] /\ visible c).
  { clear - Hne Hw. induction words as [|w words IH]; [done|].
    apply Forall_cons_iff in Hw as [[Hv Hw0] Hw]. destruct words as [|w' words].
    - cbn [join]. destruct (exists_last Hw0) as (y & c & ->). exists y, c. split; [done|].
      apply Forall_app in Hv as [_ Hc]. by apply Forall_cons_iff in Hc as [Hc _].
    - destruct IH as (y & c & E & Hc); [done|done|]. exists (w ++ [32] ++ y), c.
      split; [|done]. change (join [32] (w :: w' :: words)) with (w ++ [32] ++ join [32] (w' :: words)).
      by rewrite E, <- !app_assoc. }
  destruct Hlast as (y & c & E2 & Hc). destruct words as [|w words]; [done|].
  apply Forall_cons_iff in Hw as [[Hv Hw0] _]. destruct w as [|b w]; [done|].
  apply Forall_cons_iff in Hv as [Hb _].
  assert (E1 : exists x, join [32] ((b :: w) :: words) = b :: x) by (destruct words; eexists; done).
  destruct E1 as [x E1]. by eapply trim_visible_ends.
Qed.

Lemma split_whitespace_word fuel w rest acc :
  Forall visible w -> (length w <= fuel)%nat ->
  split_whitespace_aux fuel (w ++ rest) acc =
  split_whitespace_aux (fuel - length w) rest (rev w ++ acc).
Proof.
  revert fuel acc. induction w as [|b w IH]; intros fuel acc Hw Hf.
  - cbn [app rev length]. by rewrite Nat.sub_0_r.
  - apply Forall_cons_iff in Hw as [Hb Hw]. destruct fuel as [|fuel]; [simpl in Hf; lia|].
    cbn [app]. cbn [split_whitespace_aux]. rewrite leading_space_visible by done.
    rewrite IH by (done || simpl in Hf; lia). cbn [rev length]. by rewrite <- app_assoc.
Qed.

Lemma split_whitespace_aux_join words : forall fuel w,
  Forall visible w -> w <> [] -> Forall (fun w => Forall visible w /\ w <> []) words ->
  (length (join [32%Z] (w :: words)) < fuel)%nat ->
  split_whitespace_aux fuel (join [32] (w :: words)) [] = w :: words.
Proof.
  induction words as [|w' words IH]; intros fuel w Hw Hne Hws Hf.
  - cbn [join] in *. rewrite <- (app_nil_r w) at 1. rewrite split_whitespace_word by (done || lia).
    rewrite app_nil_r. destruct (rev w) as [|b r] eqn:E.
    { apply (f_equal (@rev Z)) in E. rewrite rev_involutive in E. by subst. }
    destruct (fuel - length w)%nat eqn:Ef; [lia|]. cbn [split_whitespace_aux].
    by rewrite <- E, rev_involutive.
  - change (join [32] (w :: w' :: words)) with (w ++ [32] ++ join [32] (w' :: words)) in *.
    rewrite !length_app in Hf. cbn [length] in Hf.
    rewrite split_whitespace_word by (done || lia). rewrite app_nil_r.
    destruct (fuel - length w)%nat as [|f] eqn:Ef; [lia|].
    cbn [app split_whitespace_aux].
    change (leading_space (32 :: join [32] (w' :: words))) with (Some 1%nat).
    destruct (rev w) as [|b r] eqn:E.
    { apply (f_equal (@rev Z)) in E. rewrite rev_involutive in E. by subst. }
    rewrite <- E, rev_involutive. cbn [app drop]. f_equal.
    apply Forall_cons_iff in Hws as [[Hv' Hne'] Hws]. rewrite drop_0. apply IH; auto. lia.
Qed.

Lemma split_whitespace_join words :
  Forall (fun w => Forall visible w /\ w <> []) words ->
  split_whitespace (join [32] words) = words.
Proof.
  intros H. destruct words as [|w words]; [done|]. apply Forall_cons_iff in H as [[Hv Hne] H].
  unfold split_whitespace. by apply split_whitespace_aux_join; auto.
Qed.

Lemma split_on_none c l : Forall (fun b => b <> c) l -> split_on c l = [l].
Proof.
  induction 1 as [|b l Hb Hl IH]; [done|]. cbn [split_on]. rewrite IH.
  by rewrite (proj2 (Z.eqb_neq b c)).
Qed.

Lemma split_on_app c a b : Forall (fun x => x <> c) a -> split_on c (a ++ c :: b) = a :: split_on c b.
Proof.
  induction 1 as [|x a Hx Ha IH]; cbn [app split_on]; [by rewrite Z.eqb_refl|].
  rewrite IH. by rewrite (proj2 (Z.eqb_neq x c)).
Qed.

Lemma starts_with_spec l p : starts_with l p = true <-> exists r, l = p ++ r.
Proof.
  revert l; induction p as [|x p IH]; intros l; cbn [starts_with].
  - split; [by exists l|done].
  - destruct l as [|y l]; [split; [done|by intros []]|].
    rewrite andb_true_iff, IH, Z.eqb_eq. split.
    + intros [-> [r ->]]. by exists r.
    + intros [r [= -> ->]]. eauto.
Qed.

Lemma strip_prefix_spec l p r : strip_prefix l p = Some r <-> l = p ++ r.
Proof.
  unfold strip_prefix. destruct (starts_with l p) eqn:E.
  - apply starts_with_spec in E as [r' ->]. rewrite drop_app_length. split.
    + by intros [= ->].
    + intros H. by apply app_inv_head in H as ->.
  - split; [done|]. intros ->. by rewrite (proj2 (starts_with_spec _ _)) in E by eauto.
Qed.

Lemma ends_with_spec l p : ends_with l p = true <-> exists r, l = r ++ p.
Proof.
  unfold ends_with. rewrite starts_with_spec. split; intros [r H].
  - exists (rev r). rewrite <- (rev_involutive l), H, rev_app_distr, rev_involutive. done.
  - exists (rev r). by rewrite H, rev_app_distr.
Qed.

Lemma strip_suffix_spec l p r : strip_suffix l p = Some r <-> l = r ++ p.
Proof.
  unfold strip_suffix. destruct (ends_with l p) eqn:E.
  - apply ends_with_spec in E as [r' ->]. rewrite length_app, Nat.add_sub, take_app_length. split.
    + by intros [= ->].
    + intros H. by apply app_inv_tail in H as ->.
  - split; [done|]. intros ->. by rewrite (proj2 (ends_with_spec _ _)) in E by eauto.
Qed.

Lemma split_once_none c l : Forall (fun b => b <> c) l -> split_once c l = None.
Proof.
  induction 1 as [|b l Hb Hl IH]; [done|]. cbn [split_once].
  by rewrite (proj2 (Z.eqb_neq b c)), IH.
Qed.

Lemma split_once_app c a b :
  Forall (fun x => x <> c) a -> split_once c (a ++ c :: b) = Some (a, b).
Proof.
  induction 1 as [|x a Hx Ha IH]; cbn [app split_once]; [by rewrite Z.eqb_refl|].
  by rewrite (proj2 (Z.eqb_neq x c)), IH.
Qed.

Lemma join_cons sep w words :
  words <> [] -> join sep (w :: words) = w ++ sep ++ join sep words.
Proof. by destruct words. Qed.

Lemma split_on_join c words :
  words <> [] -> Forall (Forall (fun b => b <> c)) words -> split_on c (join [c] words) = words.
Proof.
  intros Hne Hw. induction Hw as [|w words Hw Hws IH]; [done|].
  destruct words as [|w' words]; [by apply split_on_none|].
  rewrite join_cons by done. cbn [app]. by rewrite split_on_app, IH.
Qed.


(** ** Lemmas: UTF-8 *)

Ltac utf8_cases :=
  repeat match goal with
  | |- context [match ?x with _ => _ end] => destruct x eqn:?
  | H : context [match ?x with _ => _ end] |- _ => destruct x eqn:?
  end.

Lemma second_ok_cont b0 b1 : second_ok b0 b1 = true -> is_cont b1 = true.
Proof.
  unfold second_ok, is_cont, in_range.
  destruct (b0 =? 224), (b0 =? 237), (b0 =? 240), (b0 =? 244); lia.
Qed.

(** The shape of a well-formed leading character. *)
Lemma utf8_first_char l w :
  utf8_first l = Char w ->
  exists b0 cs r, l = (b0 :: cs) ++ r /\ length cs = pred w /\ (0 < w <= 4)%nat /\
    Forall (fun b => is_cont b = true) cs /\ forall r', utf8_first ((b0 :: cs) ++ r') = Char w.
Proof.
  unfold utf8_first. intros H. destruct l as [|b0 l]; [done|]. exists b0.
  destruct (announced b0) as [[|[|[|n]]]|] eqn:Hn; [| | | |done].
  - injection H as <-. exists [], l. repeat split; auto with lia; try (by constructor).
    intros r'. cbn [app]. by rewrite Hn.
  - destruct l as [|b1 l]; [done|]. destruct (second_ok b0 b1) eqn:H1; [|done].
    injection H as <-. exists [b1], l. repeat split; auto with lia.
    + repeat constructor. by eapply second_ok_cont.
    + intros r'. cbn [app]. by rewrite Hn, H1.
  - destruct l as [|b1 [|b2 l]]; [done| |].
    { destruct (second_ok b0 b1); done. }
    destruct (second_ok b0 b1) eqn:H1; [|done]. cbn [negb] in H.
    destruct (is_cont b2) eqn:H2; [|done]. injection H as <-.
    exists [b1; b2], l. repeat split; auto with lia.
    + repeat constructor; [by eapply second_ok_cont|done].
    + intros r'. cbn [app]. by rewrite Hn, H1, H2.
  - destruct l as [|b1 [|b2 [|b3 l]]]; [done| | |].
    { destruct (second_ok b0 b1); done. }
    { destruct (second_ok b0 b1), n, (is_cont b2); done. }
    destruct (second_ok b0 b1) eqn:H1; [|done]. cbn [negb] in H.
    destruct (is_cont b2) eqn:H2; [|by destruct n].
    destruct (is_cont b3) eqn:H3; [|by destruct n].
    assert (w = 4%nat) as -> by (destruct n; by injection H).
    exists [b1; b2; b3], l. repeat split; auto with lia.
    + repeat constructor; [by eapply second_ok_cont|done|done].
    + intros r'. cbn [app]. rewrite Hn, H1, H2, H3. by destruct n.
Qed.

Lemma utf8_first_width l w : utf8_first l = Char w -> (0 < w <= length l)%nat.
Proof.
  intros (b0 & cs & r & -> & Hc & Hw & _)%utf8_first_char.
  rewrite length_app. simpl. lia.
Qed.

Lemma utf8_scan_aux_fuel f1 f2 l k :
  (length l <= f1)%nat -> (length l <= f2)%nat -> utf8_scan_aux f1 l k = utf8_scan_aux f2 l k.
Proof.
  revert f2 l k; induction f1 as [|f1 IH]; intros f2 l k H1 H2.
  - destruct l; [by destruct f2|simpl in *; lia].
  - destruct l as [|b l]; [by destruct f2|]. destruct f2 as [|f2]; [simpl in *; lia|].
    cbn [utf8_scan_aux]. destruct (utf8_first (b :: l)) as [w| |] eqn:E; [|done|done].
    apply utf8_first_width in E. apply IH; rewrite length_drop; simpl in *; lia.
Qed.

Lemma utf8_scan_aux_offset f l k :
  utf8_scan_aux f l k = ((k + (utf8_scan_aux f l 0).1)%nat, (utf8_scan_aux f l 0).2).
Proof.
  revert l k; induction f as [|f IH]; intros l k; destruct l as [|b l];
    cbn [utf8_scan_aux fst snd]; try (f_equal; lia).
  destruct (utf8_first (b :: l)) as [w| |]; try (cbn; f_equal; lia).
  rewrite IH, (IH _ (0 + w)%nat). cbn. f_equal. lia.
Qed.

(** The scan, character by character. *)
Lemma utf8_scan_eq l :
  utf8_scan l = match l with
                | [] => (O, AllValid)
                | _ => match utf8_first l with
                       | Char w => ((w + (utf8_scan (drop w l)).1)%nat, (utf8_scan (drop w l)).2)
                       | Incomplete => (O, Unfinished)
                       | Invalid => (O, Wrong)
                       end
                end.
Proof.
  destruct l as [|b l]; [done|]. unfold utf8_scan at 1. cbn [length utf8_scan_aux].
  destruct (utf8_first (b :: l)) as [w| |] eqn:E; [|done|done].
  apply utf8_first_width in E. rewrite utf8_scan_aux_offset. unfold utf8_scan.
  rewrite (utf8_scan_aux_fuel (length l) (length (drop w (b :: l)))); [done| |done].
  rewrite length_drop. simpl. lia.
Qed.

Lemma utf8_valid_char l w : utf8_first l = Char w -> utf8_valid l = utf8_valid (drop w l).
Proof.
  intros H. unfold utf8_valid. rewrite utf8_scan_eq. destruct l; [done|]. by rewrite H.
Qed.

Lemma utf8_valid_inv l :
  utf8_valid l = true -> l = [] \/ exists w, utf8_first l = Char w /\ utf8_valid (drop w l) = true.
Proof.
  unfold utf8_valid. rewrite utf8_scan_eq. destruct l as [|b l]; [by left|]. right.
  destruct (utf8_first (b :: l)) as [w| |]; [|done|done]. by exists w.
Qed.

Lemma utf8_lossy_valid l : utf8_valid l = true -> utf8_lossy l = l.
Proof.
  intros Hl. unfold utf8_lossy.
  assert (H : forall f l, (length l <= f)%nat -> utf8_valid l = true -> utf8_lossy_aux f l = l).
  { clear. induction f as [|f IH]; intros l Hf Hv; [by destruct l|].
    apply utf8_valid_inv in Hv as [->|(w & Hw & Hv)]; [done|].
    destruct l as [|b l]; [done|]. cbn [utf8_lossy_aux]. rewrite Hw.
    pose proof (utf8_first_width _ _ Hw). rewrite IH; [apply take_drop| |done].
    rewrite length_drop. lia. }
  by apply H.
Qed.

Lemma utf8_first_app l r w : utf8_first l = Char w -> utf8_first (l ++ r) = Char w.
Proof.
  intros (b0 & cs & r' & -> & _ & _ & _ & H)%utf8_first_char. rewrite <- app_assoc. apply H.
Qed.

Lemma utf8_valid_app a b : utf8_valid a = true -> utf8_valid (a ++ b) = utf8_valid b.
Proof.
  induction a as [a IH] using list_length_ind.
  intros [->|(w & Hw & Hv)]%utf8_valid_inv; [done|].
  pose proof (utf8_first_width _ _ Hw).
  rewrite (utf8_valid_char (a ++ b) w) by by apply utf8_first_app.
  rewrite drop_app_le by lia. apply IH; [rewrite length_drop; lia|done].
Qed.

Lemma utf8_valid_ascii l : Forall (fun b => 0 <= b <= 127) l -> utf8_valid l = true.
Proof.
  induction 1 as [|b l Hb Hl IH]; [done|]. rewrite (utf8_valid_char _ 1); [done|].
  unfold utf8_first, announced, in_range. by rewrite (proj2 (andb_true_iff _ _)) by lia.
Qed.

(** Cutting valid text at a character boundary leaves valid text. *)
Lemma utf8_valid_take l i :
  utf8_valid l = true -> is_char_boundary l i = true -> utf8_valid (take i l) = true.
Proof.
  revert i. induction l as [l IH] using list_length_ind. intros i.
  intros [->|(w & Hw & Hv)]%utf8_valid_inv Hi; [by rewrite take_nil|].
  pose proof (utf8_first_width _ _ Hw) as Hlen.
  destruct (decide (i = 0%nat)) as [->|Hi0]; [done|].
  destruct (decide (i < w)%nat) as [Hlt|Hge].
  - exfalso. apply utf8_first_char in Hw as (b0 & cs & r & -> & Hcs & _ & Hcont & _).
    unfold is_char_boundary in Hi. rewrite (proj2 (Nat.eqb_neq i 0)) in Hi by done.
    destruct i as [|i]; [done|]. cbn [app] in Hi.
    change ((b0 :: cs ++ r) !! S i) with ((cs ++ r) !! i) in Hi.
    rewrite lookup_app_l in Hi by lia.
    destruct (cs !! i) as [c|] eqn:Ec; [|apply lookup_ge_None in Ec; lia].
    rewrite Forall_lookup in Hcont. rewrite (Hcont _ _ Ec) in Hi. done.
  - replace (take i l) with (take w l ++ take (i - w) (drop w l)).
    2: { rewrite take_drop_commute, <- (take_drop w (take i l)), take_take. f_equal; [f_equal; lia|].
         f_equal. f_equal. lia. }
    apply utf8_first_char in Hw as (b0 & cs & r & -> & Hcs & Hw4 & _ & Hf).
    assert (Hl : length (b0 :: cs) = w) by (simpl; lia).
    rewrite take_app_le, take_ge, drop_app_ge in * by lia. rewrite Hl, Nat.sub_diag, drop_0 in *.
    rewrite (utf8_valid_char _ w) by apply Hf.
    rewrite drop_app_ge, Hl, Nat.sub_diag, drop_0 by lia.
    apply IH; [rewrite length_app in *; lia|done|].
    revert Hi. unfold is_char_boundary.
    rewrite (proj2 (Nat.eqb_neq i 0)), lookup_app_r, Hl, length_app, Hl by lia.
    destruct (Nat.eqb_spec (i - w) 0); [done|]. case_match; [done|].
    rewrite !Nat.eqb_eq. lia.
Qed.

(** ** Lemmas: UTF-8 in pieces *)

(** The scan of valid text followed by more is the scan of what follows. *)
Lemma utf8_scan_app a b :
  utf8_valid a = true -> utf8_scan (a ++ b) = ((length a + (utf8_scan b).1)%nat, (utf8_scan b).2).
Proof.
  induction a as [a IH] using list_length_ind. intros [->|(w & Hw & Hv)]%utf8_valid_inv.
  { cbn [app length]. by destruct (utf8_scan b). }
  pose proof (utf8_first_width _ _ Hw) as Hlen.
  rewrite utf8_scan_eq, (utf8_first_app _ b _ Hw).
  destruct a as [|c a]; [done|]. cbn [app].
  change (c :: a ++ b) with ((c :: a) ++ b). rewrite drop_app_le by lia.
  rewrite IH by (rewrite ?length_drop; first [lia|done]). cbn [fst snd].
  rewrite length_drop. f_equal. lia.
Qed.

(** What the scan has accepted is valid text, all of it when nothing stopped it. *)
Lemma utf8_scan_accepted l :
  ((utf8_scan l).1 <= length l)%nat /\ utf8_valid (take (utf8_scan l).1 l) = true /\
  ((utf8_scan l).2 = AllValid -> (utf8_scan l).1 = length l).
Proof.
  induction l as [l IH] using list_length_ind.
  destruct l as [|b l']; [done|]. rewrite utf8_scan_eq. set (l := b :: l') in *.
  destruct (utf8_first l) as [w| |] eqn:Hw; cbn [fst snd];
    [|by repeat split; (lia || done)..].
  pose proof (utf8_first_width _ _ Hw) as Hlen.
  destruct (IH (drop w l) ltac:(rewrite length_drop; lia)) as (H1 & H2 & H3).
  rewrite length_drop in *. repeat split; [lia| |intros ?; rewrite H3 by done; lia].
  pose proof Hw as (b0 & cs & r & Hl & Hcs & _ & _ & Hr)%utf8_first_char.
  assert (Hk : length (b0 :: cs) = w) by (simpl; lia).
  rewrite Hl in *. rewrite drop_app_ge, Hk, Nat.sub_diag, drop_0 in * by lia.
  rewrite take_app, Hk, take_ge by (rewrite Hk; lia).
  replace (w + (utf8_scan r).1 - w)%nat with (utf8_scan r).1 by lia.
  rewrite (utf8_valid_char _ w) by apply Hr.
  by rewrite drop_app_ge, Hk, Nat.sub_diag, drop_0 by lia.
Qed.

Lemma utf8_first_invalid l r : utf8_first l = Invalid -> utf8_first (l ++ r) = Invalid.
Proof.
  unfold utf8_first. destruct l as [|b0 l]; [done|]. cbn [app].
  destruct (announced b0) as [[|[|[|n]]]|]; [done| | | |done].
  - destruct l as [|b1 l]; [done|]. cbn [app]. by destruct (second_ok b0 b1).
  - destruct l as [|b1 [|b2 l]]; [done| |]; cbn [app];
      destruct (second_ok b0 b1); try done; by destruct r.
  - destruct l as [|b1 [|b2 [|b3 l]]]; cbn [app]; [done| | |].
    + by destruct (second_ok b0 b1), n.
    + destruct (second_ok b0 b1), n, (is_cont b2), r as [|b3 r]; done.
    + by destruct (second_ok b0 b1), n, (is_cont b2), (is_cont b3).
Qed.

Definition any_second (b0 : Z) : Z :=
  if b0 =? 224 then 160 else if b0 =? 240 then 144 else 128.

Lemma any_second_ok b0 : second_ok b0 (any_second b0) = true.
Proof.
  unfold second_ok, any_second, is_cont, in_range.
  destruct (Z.eqb_spec b0 224), (Z.eqb_spec b0 237), (Z.eqb_spec b0 240), (Z.eqb_spec b0 244);
    simplify_eq; lia || done.
Qed.

(** An unfinished character can be finished. *)
Lemma utf8_first_completes l :
  utf8_first l = Incomplete -> exists ext, utf8_first (l ++ ext) = Char (length (l ++ ext)).
Proof.
  unfold utf8_first. destruct l as [|b0 l]; [by exists [0]|].
  destruct (announced b0) as [[|[|[|n]]]|] eqn:Hn; [done| | | |done].
  - destruct l as [|b1 l]; [|by destruct (second_ok b0 b1)]. intros _.
    exists [any_second b0]. cbn [app]. by rewrite Hn, any_second_ok.
  - destruct l as [|b1 [|b2 l]]; intros H.
    + exists [any_second b0; 128]. cbn [app]. by rewrite Hn, any_second_ok.
    + destruct (second_ok b0 b1) eqn:H1; [|done]. exists [128]. cbn [app]. by rewrite Hn, H1.
    + by destruct (second_ok b0 b1), (is_cont b2).
  - destruct l as [|b1 [|b2 [|b3 l]]]; intros H.
    + exists [any_second b0; 128; 128]. cbn [app]. rewrite Hn, any_second_ok. by destruct n.
    + destruct (second_ok b0 b1) eqn:H1; [|done]. exists [128; 128]. cbn [app].
      rewrite Hn, H1. by destruct n.
    + destruct (second_ok b0 b1) eqn:H1; [|done]. destruct (is_cont b2) eqn:H2; [|by destruct n].
      exists [128]. cbn [app]. rewrite Hn, H1, H2. by destruct n.
    + by destruct (second_ok b0 b1), n, (is_cont b2), (is_cont b3).
Qed.

Lemma utf8_first_incomplete l : utf8_first l = Incomplete -> (length l <= 3)%nat.
Proof.
  unfold utf8_first. destruct l as [|b0 [|b1 [|b2 [|b3 l]]]]; cbn [length]; try lia.
  destruct (announced b0) as [[|[|[|n]]]|]; try done; destruct (second_ok b0 b1), (is_cont b2);
    try done; try (by destruct n); destruct (is_cont b3); by destruct n.
Qed.

(** A wrong byte cannot be mended by what follows. *)
Lemma utf8_wrong_final l ext : (utf8_scan l).2 = Wrong -> utf8_valid (l ++ ext) = false.
Proof.
  induction l as [l IH] using list_length_ind. destruct l as [|b l']; [done|].
  rewrite utf8_scan_eq. set (l := b :: l') in *.
  destruct (utf8_first l) as [w| |] eqn:Hw; cbn [fst snd]; [|done|]; intros H.
  - pose proof (utf8_first_width _ _ Hw) as Hlen.
    rewrite (utf8_valid_char _ w) by by apply utf8_first_app.
    rewrite drop_app_le by lia. apply IH; [rewrite length_drop; lia|done].
  - unfold utf8_valid. rewrite utf8_scan_eq. by rewrite (utf8_first_invalid _ ext Hw).
Qed.

(** Without one, the text can be completed, and only a character's worth of it
    is unfinished. *)
Lemma utf8_completable l :
  (utf8_scan l).2 <> Wrong ->
  (exists ext, utf8_valid (l ++ ext) = true) /\ (length l - (utf8_scan l).1 <= 3)%nat.
Proof.
  induction l as [l IH] using list_length_ind. destruct l as [|b l'].
  { split; [by exists []|simpl; lia]. }
  rewrite utf8_scan_eq. set (l := b :: l') in *.
  destruct (utf8_first l) as [w| |] eqn:Hw; cbn [fst snd]; [| |done]; intros H.
  - pose proof (utf8_first_width _ _ Hw) as Hlen.
    destruct (IH (drop w l) ltac:(rewrite length_drop; lia) H) as [[ext He] Hl].
    rewrite length_drop in Hl. split; [|lia]. exists ext.
    rewrite (utf8_valid_char _ w) by by apply utf8_first_app. by rewrite drop_app_le by lia.
  - split; [|apply utf8_first_incomplete in Hw; lia].
    destruct (utf8_first_completes l Hw) as [ext He]. exists ext.
    by rewrite (utf8_valid_char _ _ He), drop_all.
Qed.
