(* ===== verification/Base64.v ===== *)
(** * Base64 ([rustlavel-core/src/base64.rs])

    The encoder in both alphabets, the permissive decoder, and the proof that
    the decoder inverts the encoder whichever alphabet and padding was used. *)

From S2P Require Import Prelude.

Module Base64.

Definition STANDARD : list Z :=
  lit "ABCDEFGHIJKLMNOPQRSTUVWXYZabcdefghijklmnopqrstuvwxyz0123456789+/".
Definition URL_SAFE : list Z :=
  lit "ABCDEFGHIJKLMNOPQRSTUVWXYZabcdefghijklmnopqrstuvwxyz0123456789-_".

(** The character an alphabet gives for a 6-bit index. *)
Definition alphabet_at (alphabet : list Z) (i : Z) : Z :=
  default 0 (alphabet !! Z.to_nat i).

(** The body of the loop over [input.chunks(3)]: two characters always, the
    third and fourth when the chunk has the bytes for them, padding otherwise. *)
Definition encode_chunk (alphabet : list Z) (pad : bool) (chunk : list Z) : list Z :=
  let b0 := default 0 (chunk !! 0%nat) in
  let b1 := default 0 (chunk !! 1%nat) in
  let b2 := default 0 (chunk !! 2%nat) in
  let bits := Z.lor (Z.lor (Z.shiftl b0 16) (Z.shiftl b1 8)) b2 in
  [alphabet_at alphabet (Z.land (Z.shiftr bits 18) 63);
   alphabet_at alphabet (Z.land (Z.shiftr bits 12) 63)] ++
  match (1 <? length chunk)%nat, pad with
  | true, _ => [alphabet_at alphabet (Z.land (Z.shiftr bits 6) 63)]
  | false, true => lit "="
  | false, false => []
  end ++
  match (2 <? length chunk)%nat, pad with
  | true, _ => [alphabet_at alphabet (Z.land bits 63)]
  | false, true => lit "="
  | false, false => []
  end.

Definition encode_with (input alphabet : list Z) (pad : bool) : list Z :=
  concat (map (encode_chunk alphabet pad) (chunks 3 input)).

Definition encode (input : list Z) : list Z := encode_with input STANDARD true.
Definition encode_url (input : list Z) : list Z := encode_with input URL_SAFE false.

(** What one input byte means to the decoder: a 6-bit value, a byte to skip,
    or a byte outside both alphabets. *)
Inductive symbol :=
  | Value (v : Z)
  | Skip
  | Reject.

Definition symbol_of (byte : Z) : symbol :=
  if (65 <=? byte) && (byte <=? 90) then Value (byte - 65)
  else if (97 <=? byte) && (byte <=? 122) then Value (byte - 97 + 26)
  else if (48 <=? byte) && (byte <=? 57) then Value (byte - 48 + 52)
  else if (byte =? 43) || (byte =? 45) then Value 62
  else if (byte =? 47) || (byte =? 95) then Value 63
  else if (byte =? 61) || (byte =? 10) || (byte =? 13) then Skip
  else Reject.

(** The decoding loop; [buffer] and [bits] are the source's two [u32]s. The
    shift drops what leaves the 32-bit buffer. *)
Fixpoint decode_loop (input : list Z) (buffer bits : Z) (out : list Z) : option (list Z) :=
  match input with
  | [] => Some out
  | byte :: input =>
      match symbol_of byte with
      | Reject => None
      | Skip => decode_loop input buffer bits out
      | Value value =>
          let buffer := Z.lor (u32 (Z.shiftl buffer 6)) value in
          let bits := bits + 6 in
          if 8 <=? bits
          then decode_loop input buffer (bits - 8) (out ++ [u8 (Z.shiftr buffer (bits - 8))])
          else decode_loop input buffer bits out
      end
  end.

Definition decode (input : list Z) : option (list Z) := decode_loop input 0 0 [].

(** ** Correctness *)

(** An alphabet the decoder reads back: index [i] is spelled by a character
    whose value is [i]. *)
Definition readable (alphabet : list Z) : Prop :=
  forall i, 0 <= i < 64 -> symbol_of (alphabet_at alphabet i) = Value i.

Definition readable_upto (alphabet : list Z) : bool :=
  forallb (fun i => match symbol_of (alphabet_at alphabet (Z.of_nat i)) with
                    | Value v => v =? Z.of_nat i
                    | _ => false end) (seq 0 64).

Lemma readable_upto_sound alphabet : readable_upto alphabet = true -> readable alphabet.
Proof.
  intros H i Hi.
  assert (H' := forall_below 64 (fun i =>
    match symbol_of (alphabet_at alphabet i) with Value v => v =? i | _ => false end) H i Hi).
  cbv beta in H'. destruct (symbol_of _); try done. f_equal. lia.
Qed.

Lemma readable_STANDARD : readable STANDARD.
Proof. by apply readable_upto_sound. Qed.

Lemma readable_URL_SAFE : readable URL_SAFE.
Proof. by apply readable_upto_sound. Qed.

(** One value read when [bits] bits [p] are pending. Only the pending bits of
    the 32-bit buffer matter: whatever was shifted above them never comes out. *)
Lemma decode_step c rest buffer bits p v out :
  symbol_of c = Value v -> 0 <= v < 64 -> 0 <= buffer ->
  bits = 0 \/ bits = 2 \/ bits = 4 \/ bits = 6 ->
  buffer mod 2 ^ bits = p ->
  exists buffer', 0 <= buffer' /\
    if 8 <=? bits + 6
    then buffer' mod 2 ^ (bits - 2) = (p * 64 + v) mod 2 ^ (bits - 2) /\
         decode_loop (c :: rest) buffer bits out =
         decode_loop rest buffer' (bits - 2) (out ++ [(p * 64 + v) / 2 ^ (bits - 2)])
    else buffer' mod 2 ^ (bits + 6) = p * 64 + v /\
         decode_loop (c :: rest) buffer bits out = decode_loop rest buffer' (bits + 6) out.
Proof.
  intros Hc Hv Hbuf Hbits Hp.
  set (b' := 64 * (buffer mod 2 ^ 26) + v).
  assert (Hb' : Z.lor (u32 (Z.shiftl buffer 6)) v = b').
  { unfold wrap. rewrite Z.shiftl_mul_pow2 by lia.
    replace (buffer * 2 ^ 6) with (2 ^ 6 * buffer) by lia.
    replace (2 ^ 32) with (2 ^ 6 * 2 ^ 26) by lia.
    rewrite Z.mul_mod_distr_l by lia. by apply lor_add_low. }
  exists b'. split; [subst b'; pose proof (Z.mod_pos_bound buffer (2 ^ 26)); lia|].
  cbn [decode_loop]. rewrite Hc, Hb'. replace (bits + 6 - 8) with (bits - 2) by lia.
  clear Hb' Hc.
  destruct Hbits as [->|[->|[->| ->]]]; cbn -[Z.pow Z.modulo Z.div Z.mul Z.add decode_loop app];
    (split; [|try done; f_equal; f_equal; f_equal; unfold wrap;
              rewrite Z.shiftr_div_pow2 by lia]);
    subst b'; revert Hp; repeat rewrite Z.mod_1_r; intros Hp;
    cbn [Z.pow Z.pow_pos Pos.iter Z.mul Pos.mul] in *; Z.div_mod_to_equations; lia.
Qed.

(** The 24-bit group of three bytes, and the four 6-bit indices cut from it. *)
Lemma group_bits b0 b1 b2 :
  0 <= b0 < 256 -> 0 <= b1 < 256 -> 0 <= b2 < 256 ->
  Z.lor (Z.lor (Z.shiftl b0 16) (Z.shiftl b1 8)) b2 = b0 * 65536 + b1 * 256 + b2.
Proof.
  intros. rewrite !Z.shiftl_mul_pow2 by lia.
  replace (b0 * 2 ^ 16) with (2 ^ 16 * b0) by lia.
  rewrite (lor_add_low b0 (b1 * 2 ^ 8) 16) by lia.
  replace (2 ^ 16 * b0 + b1 * 2 ^ 8) with (2 ^ 8 * (256 * b0 + b1)) by lia.
  rewrite lor_add_low by lia. lia.
Qed.

Lemma sextet z n : 0 <= n -> Z.land (Z.shiftr z n) 63 = z / 2 ^ n mod 64.
Proof. intros. change 63 with (2 ^ 6 - 1). by rewrite land_ones_mod, Z.shiftr_div_pow2. Qed.

(** Drive [decode_step] over the next character of a concrete chunk. *)
Ltac sextet_step a i :=
  match goal with
  | |- context [decode_loop (alphabet_at _ ?v :: ?rest) ?buffer ?bits ?out] =>
      let b := fresh "buffer" in let Hb := fresh "Hb" in
      let Hm := fresh "Hm" in let Hs := fresh "Hs" in
      destruct (decode_step (alphabet_at a v) rest buffer bits (buffer mod 2 ^ bits) v out)
        as (b & Hb & Hm & Hs);
      [ apply i; apply Z.mod_pos_bound; lia
      | apply Z.mod_pos_bound; lia | done | lia | done | ];
      rewrite Hs; clear Hs; cbn [Z.add Z.sub Z.opp Z.pos_sub Pos.add Pos.succ Z.pred_double] in *
  end.

Section roundtrip.
Context (alphabet : list Z) (Hread : readable alphabet) (pad : bool).

Lemma decode_padding rest buffer bits out :
  decode_loop (lit "=" ++ rest) buffer bits out = decode_loop rest buffer bits out.
Proof. done. Qed.

Lemma decode_chunk3 b0 b1 b2 rest buffer out :
  bytes [b0; b1; b2] -> 0 <= buffer ->
  exists buffer', 0 <= buffer' /\
    decode_loop (encode_chunk alphabet pad [b0; b1; b2] ++ rest) buffer 0 out =
    decode_loop rest buffer' 0 (out ++ [b0; b1; b2]).
Proof.
  intros Hb Hbuf. rewrite !bytes_cons in Hb. destruct Hb as (H0 & H1 & H2 & _).
  unfold encode_chunk. cbn -[Z.lor Z.shiftl Z.shiftr Z.land decode_loop alphabet_at].
  rewrite group_bits by done. change (Z.land (b0 * 65536 + b1 * 256 + b2) 63)
    with (Z.land (Z.shiftr (b0 * 65536 + b1 * 256 + b2) 0) 63).
  rewrite !sextet by lia.
  sextet_step alphabet Hread. sextet_step alphabet Hread.
  sextet_step alphabet Hread. sextet_step alphabet Hread.
  exists buffer3. split; [done|]. rewrite <- !app_assoc. cbn [app].
  rewrite Hm, Hm0, Hm1. f_equal. f_equal. rewrite Z.mod_1_r.
  f_equal; [|f_equal; [|f_equal]]; cbn [Z.pow Z.pow_pos Pos.iter Z.mul Pos.mul] in *;
    Z.div_mod_to_equations; lia.
Qed.

Lemma decode_chunk_last chunk buffer out :
  chunk <> [] -> (length chunk < 3)%nat -> bytes chunk -> 0 <= buffer ->
  decode_loop (encode_chunk alphabet pad chunk) buffer 0 out = Some (out ++ chunk).
Proof.
  intros Hne Hlen Hb Hbuf.
  destruct chunk as [|b0 [|b1 [|]]]; [done| | |simpl in Hlen; lia];
    rewrite !bytes_cons in Hb; unfold encode_chunk;
    cbn -[Z.lor Z.shiftl Z.shiftr Z.land decode_loop alphabet_at lit];
    rewrite group_bits by (lia || tauto); rewrite !sextet by lia.
  - destruct Hb as (H0 & _). sextet_step alphabet Hread. sextet_step alphabet Hread.
    rewrite Hm. destruct pad; cbn [app decode_loop symbol_of lit]; cbn; f_equal; f_equal;
      f_equal; rewrite Z.mod_1_r; cbn [Z.pow Z.pow_pos Pos.iter Z.mul Pos.mul];
      Z.div_mod_to_equations; lia.
  - destruct Hb as (H0 & H1 & _). sextet_step alphabet Hread. sextet_step alphabet Hread.
    sextet_step alphabet Hread.
    rewrite Hm0, Hm. rewrite <- app_assoc.
    destruct pad; cbn; f_equal; f_equal;
      (f_equal; [|f_equal]); rewrite Z.mod_1_r;
      cbn [Z.pow Z.pow_pos Pos.iter Z.mul Pos.mul]; Z.div_mod_to_equations; lia.
Qed.

Lemma decode_encode_loop input buffer out :
  bytes input -> 0 <= buffer ->
  decode_loop (encode_with input alphabet pad) buffer 0 out = Some (out ++ input).
Proof.
  revert buffer out. induction input as [input IH] using list_length_ind.
  intros buffer out Hb Hbuf. unfold encode_with.
  destruct (decide (input = [])) as [->|Hne]; [by rewrite app_nil_r|].
  rewrite chunks_cons by (lia || done). cbn [map concat].
  destruct (decide (length input < 3)%nat) as [Hlt|Hge].
  - rewrite take_ge, drop_ge by lia. rewrite chunks_nil. cbn [map concat]. rewrite app_nil_r.
    by apply decode_chunk_last.
  - destruct input as [|b0 [|b1 [|b2 input]]]; try (simpl in Hge; lia).
    change (take 3 (b0 :: b1 :: b2 :: input)) with [b0; b1; b2].
    change (drop 3 (b0 :: b1 :: b2 :: input)) with input. rewrite !bytes_cons in Hb. destruct Hb as (H0 & H1 & H2 & Hb).
    destruct (decode_chunk3 b0 b1 b2 (concat (map (encode_chunk alphabet pad) (chunks 3 input)))
      buffer out) as (buffer' & Hbuf' & ->); [solve_bytes|done|].
    fold (encode_with input alphabet pad). rewrite IH by (simpl; lia || done).
    by rewrite <- app_assoc.
Qed.
End roundtrip.

Lemma decode_loop_none input buffer bits out :
  decode_loop input buffer bits out = None <-> Exists (fun c => symbol_of c = Reject) input.
Proof.
  revert buffer bits out.
  induction input as [|c input IH]; intros buffer bits out; cbn [decode_loop].
  - split; [done|]. by intros ?%Exists_nil.
  - rewrite Exists_cons. destruct (symbol_of c) eqn:Hc; [|rewrite IH|]; [|naive_solver..].
    case_match; rewrite IH; naive_solver.
Qed.

Lemma decode_loop_bytes input buffer bits out out' :
  bytes out -> decode_loop input buffer bits out = Some out' -> bytes out'.
Proof.
  revert buffer bits out.
  induction input as [|c input IH]; intros buffer bits out Hout; cbn [decode_loop].
  - by intros [= <-].
  - destruct (symbol_of c); [|by apply IH|done]. case_match; apply IH; [|done].
    apply bytes_app; split; [done|]. apply bytes_cons; split; [|apply bytes_nil].
    by apply (wrap_range 8).
Qed.

(** The decoder is strict about characters: it fails exactly when some
    byte lies outside both alphabets, the padding and the line breaks, and what
    it returns otherwise is always a sequence of bytes. *)
Theorem decode_rejects input :
  (decode input = None <-> Exists (fun c => symbol_of c = Reject) input) /\
  (forall out, decode input = Some out -> bytes out).
Proof.
  split; [apply decode_loop_none|]. intros out. apply decode_loop_bytes, bytes_nil.
Qed.

(** Decoding inverts encoding: whatever the bytes, both the padded
    standard form and the unpadded URL-safe form decode back to them. *)
Theorem decode_encode input :
  bytes input -> decode (encode input) = Some input /\ decode (encode_url input) = Some input.
Proof.
  intros Hb. unfold decode, encode, encode_url.
  rewrite !decode_encode_loop by (done || apply readable_STANDARD || apply readable_URL_SAFE).
  done.
Qed.

Lemma decode_encode_witness :
  decode (encode (lit "rustlavel")) = Some (lit "rustlavel") /\
  decode (encode_url (lit "rustlavel")) = Some (lit "rustlavel").
Proof. apply decode_encode. by apply (bool_decide_unpack _). Defined.

End Base64.
