(* ===== verification/WsFrame.v ===== *)
(** * WebSocket framing ([rustlavel-ws/src/frame.rs], [message.rs], [error.rs])

    RFC 6455 frames as the server writes and reads them: opcodes, close codes
    and close payloads, the frame encoder, the incremental frame decoder, and
    the messages built from them. The theorems say that decoding inverts
    encoding, that a decoded frame is the only one its bytes can mean, that the
    decoder asks for more exactly on an incomplete frame, and that its answer
    never changes when more bytes arrive. *)

From S2P Require Import Prelude Text.

Module WsFrame.

(** ** Errors ([error.rs]) *)

Inductive WsError :=
  | Protocol (message : list Z)
  | TooLarge (size limit : Z)
  | InvalidUtf8
  | Idle
  | Full
  | Closed
  | Io (text : list Z).

(** ** Data *)

Inductive Role := Server | Client.

Inductive OpCode := Continuation | Text | Binary | Close | Ping | Pong.

#[export] Instance Role_eq_dec : EqDecision Role.
Proof. solve_decision. Defined.
#[export] Instance OpCode_eq_dec : EqDecision OpCode.
Proof. solve_decision. Defined.

Definition opcode_bits (o : OpCode) : Z :=
  match o with
  | Continuation => 0 | Text => 1 | Binary => 2 | Close => 8 | Ping => 9 | Pong => 10
  end.

Definition from_bits (bits : Z) : result WsError OpCode :=
  if bits =? 0 then Ok Continuation
  else if bits =? 1 then Ok Text
  else if bits =? 2 then Ok Binary
  else if bits =? 8 then Ok Close
  else if bits =? 9 then Ok Ping
  else if bits =? 10 then Ok Pong
  else Err (Protocol (lit "opcode 0x" ++ hex_lower bits ++ lit " is reserved")).

Definition is_control (o : OpCode) : bool :=
  match o with Close | Ping | Pong => true | _ => false end.

(** A close code is the [u16] it wraps. *)
Definition NORMAL : Z := 1000.
Definition GOING_AWAY : Z := 1001.
Definition PROTOCOL_ERROR : Z := 1002.
Definition NO_STATUS : Z := 1005.
Definition ABNORMAL : Z := 1006.
Definition INVALID_PAYLOAD : Z := 1007.
Definition POLICY : Z := 1008.
Definition TOO_LARGE : Z := 1009.

Definition is_sendable (code : Z) : bool :=
  if (code =? 1004) || (code =? 1005) || (code =? 1006) || (code =? 1015) then false
  else if (1000 <=? code) && (code <=? 1014) then true
  else if (3000 <=? code) && (code <=? 4999) then true
  else false.

(** [WsError::close_code]. *)
Definition close_code (e : WsError) : Z :=
  match e with
  | Protocol _ => PROTOCOL_ERROR
  | TooLarge _ _ => TOO_LARGE
  | InvalidUtf8 => INVALID_PAYLOAD
  | Idle => GOING_AWAY
  | Full => POLICY
  | Closed | Io _ => ABNORMAL
  end.

(** [Display] of an error: the reason a failing socket reports. *)
Definition error_text (e : WsError) : list Z :=
  match e with
  | Protocol message => lit "websocket protocol error: " ++ message
  | TooLarge size limit =>
      lit "message of " ++ dec size ++ lit " bytes exceeds the " ++ dec limit ++ lit " byte limit"
  | InvalidUtf8 => lit "text frame payload was not valid UTF-8"
  | Idle => lit "peer stopped answering pings"
  | Full => lit "peer is not reading fast enough"
  | Closed => lit "the connection is closed"
  | Io text => lit "websocket i/o failed: " ++ text
  end.

(** ** Close frames *)

Record CloseFrame := { cf_code : Z; cf_reason : list Z }.

Definition parse_close (payload : list Z) : result WsError (option CloseFrame) :=
  match payload with
  | [] => Ok None
  | [_] => Err (Protocol (lit "close payload must be empty or at least two bytes"))
  | b0 :: b1 :: reason =>
      let code := from_be_bytes [b0; b1] in
      if negb (is_sendable code) then
        Err (Protocol (lit "close code " ++ dec code ++ lit " must not be sent on the wire"))
      else if utf8_valid reason then Ok (Some {| cf_code := code; cf_reason := reason |})
      else Err InvalidUtf8
  end.

(** The [while] loop that walks back to a character boundary. *)
Fixpoint boundary_at_or_below (reason : list Z) (e : nat) : nat :=
  match e with
  | O => O
  | S e' => if is_char_boundary reason e then e else boundary_at_or_below reason e'
  end.

Definition to_payload (c : CloseFrame) : list Z :=
  let e := boundary_at_or_below (cf_reason c) (Nat.min (length (cf_reason c)) 123) in
  to_be_bytes 2 (cf_code c) ++ take e (cf_reason c).

(** ** Frames *)

Record Mask := { m0 : Z; m1 : Z; m2 : Z; m3 : Z }.

Record Frame := {
  fin : bool;
  opcode : OpCode;
  mask : option Mask;
  payload : list Z;
}.

Definition server (o : OpCode) (p : list Z) : Frame :=
  {| fin := true; opcode := o; mask := None; payload := p |}.
Definition client (o : OpCode) (p : list Z) (m : Mask) : Frame :=
  {| fin := true; opcode := o; mask := Some m; payload := p |}.

Definition mask_bytes (m : Mask) : list Z := [m0 m; m1 m; m2 m; m3 m].

(** [mask[index % 4]]. *)
Definition mask_at (m : Mask) (index : nat) : Z := default 0 (mask_bytes m !! (index mod 4)%nat).

Definition apply_mask (p : list Z) (m : Mask) : list Z :=
  imap (fun index byte => Z.lxor byte (mask_at m index)) p.

Definition encode (f : Frame) : list Z :=
  let masked := match mask f with Some _ => 128 | None => 0 end in
  let len := Z.of_nat (length (payload f)) in
  [Z.lor (if fin f then 128 else 0) (opcode_bits (opcode f))] ++
  (if len <? 126 then [Z.lor masked (u8 len)]
   else if len <=? 65535 then Z.lor masked 126 :: to_be_bytes 2 (u16 len)
   else Z.lor masked 127 :: to_be_bytes 8 (u64 len)) ++
  match mask f with
  | Some m => mask_bytes m ++ apply_mask (payload f) m
  | None => payload f
  end.

(** The payload length and the position just after it; [None] when the length
    field itself has not arrived yet. *)
Definition decode_length (bs : list Z) (second max_payload : Z)
    : result WsError (option (Z * nat)) :=
  let short := Z.land second 127 in
  if short =? 126 then
    if (length bs <? 4)%nat then Ok None else
    let value := from_be_bytes (take 2 (drop 2 bs)) in
    if value <? 126 then
      Err (Protocol (lit "16-bit length used for a payload that fits in 7 bits"))
    else Ok (Some (value, 4%nat))
  else if short =? 127 then
    if (length bs <? 10)%nat then Ok None else
    let value := from_be_bytes (take 8 (drop 2 bs)) in
    if negb (Z.land value (Z.shiftl 1 63) =? 0) then
      Err (Protocol (lit "64-bit length has its high bit set"))
    else if value <=? 65535 then
      Err (Protocol (lit "64-bit length used for a payload that fits in 16 bits"))
    else if value <=? usize_max then Ok (Some (value, 10%nat))
    else Err (TooLarge usize_max max_payload)
  else Ok (Some (short, 2%nat)).

(** The checks a header must pass once its length is known. *)
Definition check_header (role : Role) (max_payload : Z) (is_fin : bool) (o : OpCode)
    (masked : bool) (len : Z) : result WsError unit :=
  if max_payload <? len then Err (TooLarge len max_payload)
  else if is_control o && (125 <? len) then
    Err (Protocol (lit "a control frame payload must be 125 bytes or fewer"))
  else if is_control o && negb is_fin then
    Err (Protocol (lit "a control frame must not be fragmented"))
  else match role, masked with
       | Server, false => Err (Protocol (lit "a frame from a client must be masked"))
       | Client, true => Err (Protocol (lit "a frame from a server must not be masked"))
       | _, _ => Ok tt
       end.

(** The mask and the payload after the header: [None] when they have not all
    arrived. *)
Definition decode_body (bs : list Z) (is_fin : bool) (o : OpCode) (masked : bool)
    (len : Z) (cursor : nat) : option (Frame * nat) :=
  let n := Z.to_nat len in
  if masked then
    match drop cursor bs with
    | a :: b :: c :: d :: rest =>
        let m := {| m0 := a; m1 := b; m2 := c; m3 := d |} in
        if (length bs <? cursor + 4 + n)%nat then None
        else Some ({| fin := is_fin; opcode := o; mask := Some m;
                      payload := apply_mask (take n rest) m |}, (cursor + 4 + n)%nat)
    | _ => None
    end
  else if (length bs <? cursor + n)%nat then None
  else Some ({| fin := is_fin; opcode := o; mask := None;
                payload := take n (drop cursor bs) |}, (cursor + n)%nat).

Definition decode (bs : list Z) (role : Role) (max_payload : Z)
    : result WsError (option (Frame * nat)) :=
  match bs with
  | first :: second :: _ =>
      let is_fin := negb (Z.land first 128 =? 0) in
      if negb (Z.land first 112 =? 0) then
        Err (Protocol (lit "a reserved bit is set but no extension was negotiated"))
      else
      let? o := from_bits (Z.land first 15) in
      let masked := negb (Z.land second 128 =? 0) in
      let? found := decode_length bs second max_payload in
      match found with
      | None => Ok None
      | Some (len, cursor) =>
          let? _ := check_header role max_payload is_fin o masked len in
          Ok (decode_body bs is_fin o masked len cursor)
      end
  | _ => Ok None
  end.

(** ** Messages ([message.rs]) *)

Inductive Message :=
  | MText (body : list Z)
  | MBinary (b : list Z)
  | MPing (b : list Z)
  | MPong (b : list Z)
  | MClose (c : option CloseFrame).

Definition as_bytes (m : Message) : list Z :=
  match m with
  | MText b | MBinary b | MPing b | MPong b => b
  | MClose _ => []
  end.

Definition is_data (m : Message) : bool :=
  match m with MText _ | MBinary _ => true | _ => false end.

Definition into_frame (m : Message) : Frame :=
  match m with
  | MText b => server Text b
  | MBinary b => server Binary b
  | MPing b => server Ping b
  | MPong b => server Pong b
  | MClose c => server Close (match c with Some c => to_payload c | None => [] end)
  end.

(** [{:?}] of an opcode. *)
Definition opcode_name (o : OpCode) : list Z :=
  match o with
  | Continuation => lit "Continuation" | Text => lit "Text" | Binary => lit "Binary"
  | Close => lit "Close" | Ping => lit "Ping" | Pong => lit "Pong"
  end.

Definition from_data (o : OpCode) (p : list Z) : result WsError Message :=
  match o with
  | Text => if utf8_valid p then Ok (MText p) else Err InvalidUtf8
  | Binary => Ok (MBinary p)
  | other => Err (Protocol (opcode_name other ++ lit " is not a data frame"))
  end.

(** ** Masking *)

Lemma apply_mask_length p m : length (apply_mask p m) = length p.
Proof. apply length_imap. Qed.

Lemma apply_mask_involutive p m : apply_mask (apply_mask p m) m = p.
Proof.
  apply list_eq. intros i. unfold apply_mask. rewrite !list_lookup_imap.
  destruct (p !! i) as [b|]; [|done]. simpl. f_equal.
  by rewrite Z.lxor_assoc, Z.lxor_nilpotent, Z.lxor_0_r.
Qed.

(** ** Header bytes *)

Definition bool_byte (b : bool) : Z := if b then 128 else 0.

Lemma first_byte is_fin o :
  let b := Z.lor (bool_byte is_fin) (opcode_bits o) in
  negb (Z.land b 128 =? 0) = is_fin /\ Z.land b 112 = 0 /\ from_bits (Z.land b 15) = Ok o.
Proof. by destruct is_fin, o. Qed.

Lemma first_byte_inv b o :
  0 <= b < 256 -> Z.land b 112 = 0 -> from_bits (Z.land b 15) = Ok o ->
  b = Z.lor (bool_byte (negb (Z.land b 128 =? 0))) (opcode_bits o).
Proof.
  intros Hb H1 H2.
  assert (H := forall_below 256 (fun b =>
    match from_bits (Z.land b 15) with
    | Ok o => negb (Z.land b 112 =? 0) ||
              (b =? Z.lor (bool_byte (negb (Z.land b 128 =? 0))) (opcode_bits o))
    | Err _ => true end) ltac:(by vm_compute) b Hb).
  cbv beta in H. rewrite H2, H1 in H. lia.
Qed.

Lemma second_byte masked v :
  0 <= v < 128 ->
  let b := Z.lor (bool_byte masked) v in
  Z.land b 127 = v /\ negb (Z.land b 128 =? 0) = masked.
Proof.
  intros Hv.
  assert (H := forall_below 128 (fun v =>
    (Z.land (Z.lor (bool_byte masked) v) 127 =? v) &&
    eqb (negb (Z.land (Z.lor (bool_byte masked) v) 128 =? 0)) masked)
    ltac:(by destruct masked; vm_compute) v Hv).
  cbv beta in H. apply andb_true_iff in H as [H1 H2].
  split; [lia|]. by apply eqb_prop.
Qed.

Lemma second_byte_inv b :
  0 <= b < 256 ->
  b = Z.lor (bool_byte (negb (Z.land b 128 =? 0))) (Z.land b 127) /\ 0 <= Z.land b 127 < 128.
Proof.
  intros Hb.
  assert (H := forall_below 256 (fun b =>
    (b =? Z.lor (bool_byte (negb (Z.land b 128 =? 0))) (Z.land b 127)) &&
    (0 <=? Z.land b 127) && (Z.land b 127 <? 128)) ltac:(by vm_compute) b Hb).
  cbv beta in H. lia.
Qed.

(** ** The length field *)

(** The second byte and the extended length, as [encode] writes them. *)
Definition length_field (masked : bool) (len : Z) : list Z :=
  if len <? 126 then [Z.lor (bool_byte masked) (u8 len)]
  else if len <=? 65535 then Z.lor (bool_byte masked) 126 :: to_be_bytes 2 (u16 len)
  else Z.lor (bool_byte masked) 127 :: to_be_bytes 8 (u64 len).

Definition body (f : Frame) : list Z :=
  match mask f with
  | Some m => mask_bytes m ++ apply_mask (payload f) m
  | None => payload f
  end.

Definition is_masked (f : Frame) : bool := match mask f with Some _ => true | None => false end.

Lemma encode_eq f :
  encode f = Z.lor (bool_byte (fin f)) (opcode_bits (opcode f)) ::
             length_field (is_masked f) (Z.of_nat (length (payload f))) ++ body f.
Proof. unfold encode, length_field, is_masked, body. by destruct (mask f), (fin f). Qed.

Lemma high_bit_clear v : 0 <= v < 2 ^ 64 -> (Z.land v (Z.shiftl 1 63) =? 0) = (v <? 2 ^ 63).
Proof.
  intros Hv. rewrite Z.shiftl_mul_pow2, Z.mul_1_l, land_pow2_zero, testbit_top by lia. lia.
Qed.

Lemma decode_length_field first masked len rest max :
  0 <= len < 2 ^ 63 ->
  exists second tl,
    length_field masked len = second :: tl /\
    negb (Z.land second 128 =? 0) = masked /\
    decode_length (first :: length_field masked len ++ rest) second max =
      Ok (Some (len, S (length (length_field masked len)))).
Proof.
  intros Hlen. unfold length_field. destruct (Z.ltb_spec len 126) as [H|H];
    [|destruct (Z.leb_spec len 65535) as [H'|H']].
  - eexists _, _; split; [done|]. rewrite wrap_small by lia.
    destruct (second_byte masked len ltac:(lia)) as [H1 H2]. split; [done|].
    unfold decode_length. rewrite H1, (proj2 (Z.eqb_neq len 126)), (proj2 (Z.eqb_neq len 127)) by lia.
    done.
  - eexists _, _; split; [done|]. destruct (second_byte masked 126 ltac:(lia)) as [H1 H2].
    split; [done|]. unfold decode_length. rewrite H1. cbn [Z.eqb Pos.eqb].
    rewrite wrap_small by lia. cbn [app length drop]. rewrite drop_0, length_app, to_be_bytes_length.
    destruct (Nat.ltb_spec (S (S (2 + length rest))) 4); [lia|].
    rewrite take_app_le, take_ge by (rewrite to_be_bytes_length; lia).
    rewrite from_to_be_bytes by lia. destruct (Z.ltb_spec len 126); [lia|done].
  - eexists _, _; split; [done|]. destruct (second_byte masked 127 ltac:(lia)) as [H1 H2].
    split; [done|]. unfold decode_length. rewrite H1. cbn [Z.eqb Pos.eqb].
    rewrite wrap_small by lia. cbn [app length drop]. rewrite drop_0, length_app, to_be_bytes_length.
    destruct (Nat.ltb_spec (S (S (8 + length rest))) 10); [lia|].
    rewrite take_app_le, take_ge by (rewrite to_be_bytes_length; lia).
    rewrite from_to_be_bytes by lia.
    rewrite high_bit_clear by lia. destruct (Z.ltb_spec len (2 ^ 63)); [|lia]. cbn [negb].
    destruct (Z.leb_spec len 65535); [lia|]. unfold usize_max.
    destruct (Z.leb_spec len (2 ^ 64 - 1)); [done|lia].
Qed.

(** ** Round trip *)

(** A frame a peer may send to a reader in this role, under a size limit: its
    bytes are bytes, a client masks and a server does not, control frames are
    short and whole. *)
Definition sendable (role : Role) (max : Z) (f : Frame) : Prop :=
  (bytes (payload f) /\ match mask f with Some m => bytes (mask_bytes m) | None => True end) /\
  is_masked f = (match role with Server => true | Client => false end) /\
  Z.of_nat (length (payload f)) <= max /\
  Z.of_nat (length (payload f)) < 2 ^ 63 /\
  (is_control (opcode f) = true -> fin f = true /\ Z.of_nat (length (payload f)) <= 125).

Lemma check_header_ok role max f :
  sendable role max f ->
  check_header role max (fin f) (opcode f) (is_masked f) (Z.of_nat (length (payload f))) = Ok tt.
Proof.
  intros (_ & Hm & Hmax & _ & Hc). unfold check_header.
  destruct (Z.ltb_spec max (Z.of_nat (length (payload f)))); [lia|].
  destruct (is_control (opcode f)).
  - destruct (Hc eq_refl) as [-> Hl].
    destruct (Z.ltb_spec 125 (Z.of_nat (length (payload f)))); [lia|].
    rewrite Hm. by destruct role.
  - rewrite Hm. by destruct role.
Qed.

Lemma check_header_inv role max is_fin o masked len :
  check_header role max is_fin o masked len = Ok tt ->
  len <= max /\ masked = (match role with Server => true | Client => false end) /\
  (is_control o = true -> is_fin = true /\ len <= 125).
Proof.
  unfold check_header. destruct (Z.ltb_spec max len); [done|].
  destruct (is_control o), (Z.ltb_spec 125 len), is_fin, role, masked; cbn [andb negb];
    intros ?; simplify_eq; repeat split; auto with lia.
Qed.

Lemma decode_body_encoded f pre rest :
  decode_body (pre ++ body f ++ rest) (fin f) (opcode f) (is_masked f)
    (Z.of_nat (length (payload f))) (length pre) =
  Some (f, (length pre + length (body f))%nat).
Proof.
  unfold decode_body, is_masked, body. rewrite Nat2Z.id. destruct f as [fn o [m|] p]; cbn [fin opcode mask payload].
  - rewrite drop_app_ge, Nat.sub_diag, drop_0 by lia. destruct m as [a b c d].
    cbn [mask_bytes m0 m1 m2 m3 app]. rewrite !length_app. cbn [length].
    rewrite apply_mask_length, length_app, apply_mask_length.
    match goal with |- context [(?x <? ?y)%nat] => destruct (Nat.ltb_spec x y); [lia|] end.
    rewrite take_app_le, take_ge by (rewrite apply_mask_length; lia).
    rewrite apply_mask_involutive. do 2 f_equal. lia.
  - rewrite !length_app.
    match goal with |- context [(?x <? ?y)%nat] => destruct (Nat.ltb_spec x y); [lia|] end.
    rewrite drop_app_ge, Nat.sub_diag, drop_0, take_app_le, take_ge by lia. done.
Qed.

Lemma decode_encode_rest f role max rest :
  sendable role max f -> decode (encode f ++ rest) role max = Ok (Some (f, length (encode f))).
Proof.
  intros Hs. pose proof Hs as (_ & _ & _ & Hlen & _).
  set (masked := is_masked f). set (len := Z.of_nat (length (payload f))).
  set (b0 := Z.lor (bool_byte (fin f)) (opcode_bits (opcode f))).
  destruct (decode_length_field b0 masked len (body f ++ rest) max ltac:(lia))
    as (second & tl & Hf & Hm & Hd).
  destruct (first_byte (fin f) (opcode f)) as (Hfin & Hrsv & Hop). fold b0 in Hfin, Hrsv, Hop.
  assert (He : encode f = (b0 :: length_field masked len) ++ body f) by apply encode_eq.
  rewrite He, <- app_assoc. rewrite Hf in Hd |- *. cbn [app]. cbn [app] in Hd.
  unfold decode. rewrite Hfin, Hrsv. cbn [negb Z.eqb]. rewrite Hop, Hm, Hd.
  rewrite check_header_ok by done.
  change (b0 :: second :: tl ++ body f ++ rest) with ((b0 :: second :: tl) ++ body f ++ rest).
  pose proof (decode_body_encoded f (b0 :: second :: tl) rest) as Hb. fold masked len in Hb.
  cbn [length] in Hb |- *. rewrite Hb. by rewrite length_app.
Qed.

Lemma apply_mask_bytes p m : bytes p -> bytes (mask_bytes m) -> bytes (apply_mask p m).
Proof.
  intros Hp Hm. apply Forall_lookup. intros i b. unfold apply_mask. rewrite list_lookup_imap.
  destruct (p !! i) as [c|] eqn:Ec; [|done]. intros [= <-].
  eapply Forall_lookup in Hp; [|done]. apply (lxor_range 8); [lia|done|].
  unfold mask_at. destruct (mask_bytes m !! _) as [k|] eqn:Ek; [|simpl; lia].
  eapply Forall_lookup in Hm; [|done]. done.
Qed.

Lemma encode_bytes f role max : sendable role max f -> bytes (encode f).
Proof.
  intros ((Hp & Hm) & _). rewrite encode_eq. apply bytes_cons. split.
  { apply (lor_range 8); [lia| |]; destruct (fin f), (opcode f); simpl; lia. }
  apply bytes_app. split.
  - clear Hm. unfold length_field. assert (Hmb : 0 <= bool_byte (is_masked f) < 2 ^ 8)
      by (destruct (is_masked f); simpl; lia).
    case_match; [|case_match]; apply bytes_cons; (split; [apply (lor_range 8)|]); try lia;
      auto using bytes_nil, to_be_bytes_bytes. apply (wrap_range 8). lia.
  - unfold body. destruct (mask f); [|done]. auto using apply_mask_bytes with bytes.
Qed.

(** ** Reading from a growing buffer *)

Lemma take_drop_prefix {A} n k (l more : list A) :
  (k + n <= length l)%nat -> take n (drop k (l ++ more)) = take n (drop k l).
Proof. intros H. rewrite drop_app_le by lia. apply take_app_le. rewrite length_drop. lia. Qed.

Lemma decode_length_mono bs second max more r :
  decode_length bs second max = r -> r <> Ok None -> decode_length (bs ++ more) second max = r.
Proof.
  intros Hr Hne. unfold decode_length in *. rewrite length_app.
  destruct (Z.land second 127 =? 126); [|destruct (Z.land second 127 =? 127)]; [| |done].
  - destruct (Nat.ltb_spec (length bs) 4); [congruence|].
    destruct (Nat.ltb_spec (length bs + length more) 4); [lia|].
    by rewrite take_drop_prefix by lia.
  - destruct (Nat.ltb_spec (length bs) 10); [congruence|].
    destruct (Nat.ltb_spec (length bs + length more) 10); [lia|].
    by rewrite take_drop_prefix by lia.
Qed.

Lemma decode_body_mono bs is_fin o masked len cursor more f n :
  decode_body bs is_fin o masked len cursor = Some (f, n) ->
  decode_body (bs ++ more) is_fin o masked len cursor = Some (f, n).
Proof.
  unfold decode_body. rewrite length_app. destruct masked.
  - destruct (drop cursor bs) as [|a [|b [|c [|d rest]]]] eqn:E; try done.
    assert (Hc : length (drop cursor bs) = S (S (S (S (length rest))))) by by rewrite E.
    rewrite length_drop in Hc.
    rewrite drop_app_le, E by lia. cbn [app].
    destruct (Nat.ltb_spec (length bs) (cursor + 4 + Z.to_nat len)); [done|].
    destruct (Nat.ltb_spec (length bs + length more) (cursor + 4 + Z.to_nat len)); [lia|].
    by rewrite take_app_le by lia.
  - destruct (Nat.ltb_spec (length bs) (cursor + Z.to_nat len)); [done|].
    destruct (Nat.ltb_spec (length bs + length more) (cursor + Z.to_nat len)); [lia|].
    by rewrite take_drop_prefix by lia.
Qed.

Lemma decode_mono bs role max more r :
  decode bs role max = r -> r <> Ok None -> decode (bs ++ more) role max = r.
Proof.
  intros <- Hne. destruct bs as [|first [|second bs]]; try done.
  cbn [app]. unfold decode in *.
  destruct (negb (Z.land first 112 =? 0)); [done|].
  destruct (from_bits (Z.land first 15)) as [o|]; [|done].
  destruct (decode_length (first :: second :: bs) second max) as [[[len cursor]|]|] eqn:El;
    try done; apply (decode_length_mono _ _ _ more) in El; try done; cbn [app] in El; rewrite El;
    try done.
  destruct (check_header _ _ _ _ _ _); [|done].
  destruct (decode_body (first :: second :: bs) _ _ _ _ _) as [[f n]|] eqn:Eb; [|done].
  apply (decode_body_mono _ _ _ _ _ _ more) in Eb. cbn [app] in Eb. by rewrite Eb.
Qed.

(** What a successful decode has established about the bytes it read. *)
Lemma decode_length_canonical first second bs max len cursor :
  bytes (first :: second :: bs) ->
  decode_length (first :: second :: bs) second max = Ok (Some (len, cursor)) ->
  0 <= len < 2 ^ 63 /\ (cursor <= S (S (length bs)))%nat /\
  length_field (negb (Z.land second 128 =? 0)) len =
    take (pred cursor) (second :: bs) /\ (2 <= cursor)%nat.
Proof.
  intros Hb. rewrite !bytes_cons in Hb. destruct Hb as (_ & Hs & Hb).
  destruct (second_byte_inv second Hs) as [Hsec Hlow]. unfold decode_length, length_field.
  cbn [length drop]. rewrite drop_0.
  destruct (Z.eqb_spec (Z.land second 127) 126) as [E|E];
    [|destruct (Z.eqb_spec (Z.land second 127) 127) as [E'|E']].
  - destruct (Nat.ltb_spec (S (S (length bs))) 4); [done|].
    pose proof (from_be_bytes_bound _ (bytes_take 2 _ Hb)) as Hv.
    pose proof (to_from_be_bytes _ (bytes_take 2 _ Hb)) as Ht.
    rewrite length_take, Nat.min_l in Hv, Ht by lia.
    set (v := from_be_bytes (take 2 bs)) in *. change (256 ^ Z.of_nat 2) with 65536 in Hv.
    destruct (Z.ltb_spec v 126); [done|]. intros [= <- <-].
    destruct (Z.ltb_spec v 126); [lia|]. destruct (Z.leb_spec v 65535); [|lia].
    rewrite wrap_small, Ht by lia. repeat split; try lia. rewrite E in Hsec. cbn [pred firstn]. by rewrite <- Hsec.
  - destruct (Nat.ltb_spec (S (S (length bs))) 10); [done|].
    pose proof (from_be_bytes_bound _ (bytes_take 8 _ Hb)) as Hv.
    pose proof (to_from_be_bytes _ (bytes_take 8 _ Hb)) as Ht.
    rewrite length_take, Nat.min_l in Hv, Ht by lia.
    set (v := from_be_bytes (take 8 bs)) in *. change (256 ^ Z.of_nat 8) with (2 ^ 64) in Hv.
    rewrite high_bit_clear by lia. destruct (Z.ltb_spec v (2 ^ 63)); [|done]. cbn [negb].
    destruct (Z.leb_spec v 65535); [done|]. destruct (Z.leb_spec v usize_max); [|done].
    intros [= <- <-]. destruct (Z.ltb_spec v 126); [lia|]. destruct (Z.leb_spec v 65535); [lia|].
    rewrite wrap_small, Ht by lia. repeat split; try lia. rewrite E' in Hsec. cbn [pred firstn]. by rewrite <- Hsec.
  - intros [= <- <-]. destruct (Z.ltb_spec (Z.land second 127) 126); [|lia].
    rewrite wrap_small by lia. repeat split; try lia. cbn [pred firstn]. by rewrite take_0, <- Hsec.
Qed.

Lemma decode_body_inv bs is_fin o masked len cursor f n :
  0 <= len ->
  decode_body bs is_fin o masked len cursor = Some (f, n) ->
  fin f = is_fin /\ opcode f = o /\ is_masked f = masked /\
  Z.of_nat (length (payload f)) = len /\ (cursor <= n <= length bs)%nat /\
  body f = take (n - cursor) (drop cursor bs).
Proof.
  intros Hlen. unfold decode_body, is_masked, body. destruct masked.
  - destruct (drop cursor bs) as [|a [|b [|c [|d rest]]]] eqn:E; try done.
    assert (Hc : length (drop cursor bs) = S (S (S (S (length rest))))) by by rewrite E.
    rewrite length_drop in Hc.
    destruct (Nat.ltb_spec (length bs) (cursor + 4 + Z.to_nat len)); [done|].
    intros [= <- <-]. cbn [fin opcode mask payload].
    rewrite apply_mask_length, length_take, apply_mask_involutive.
    repeat split; try lia.
    replace (cursor + 4 + Z.to_nat len - cursor)%nat with (S (S (S (S (Z.to_nat len))))) by lia.
    done.
  - destruct (Nat.ltb_spec (length bs) (cursor + Z.to_nat len)); [done|].
    intros [= <- <-]. cbn [fin opcode mask payload]. rewrite length_take, length_drop.
    repeat split; try lia. f_equal. lia.
Qed.

Lemma decode_canonical bs role max f n :
  bytes bs -> decode bs role max = Ok (Some (f, n)) ->
  (n <= length bs)%nat /\ encode f = take n bs /\
  is_masked f = (match role with Server => true | Client => false end) /\
  Z.of_nat (length (payload f)) <= max /\
  (is_control (opcode f) = true -> fin f = true /\ Z.of_nat (length (payload f)) <= 125).
Proof.
  intros Hb. destruct bs as [|first [|second bs]]; try done. unfold decode.
  destruct (Z.eqb_spec (Z.land first 112) 0) as [Hrsv|]; [cbn [negb]|done].
  destruct (from_bits (Z.land first 15)) as [o|] eqn:Hop; [|done].
  destruct (decode_length (first :: second :: bs) second max) as [[[len cursor]|]|] eqn:El; try done.
  destruct (check_header _ _ _ _ _ _) as [[]|] eqn:Ec; [|done].
  destruct (decode_body (first :: second :: bs) _ _ _ _ _) as [[f' n']|] eqn:Eb; [|done].
  intros [= -> ->]. apply check_header_inv in Ec as (Hmax & Hmask & Hctl).
  apply decode_length_canonical in El as (Hlen & Hcur & Hlf & Hc2); [|done].
  apply decode_body_inv in Eb as (Hf & Ho & Hm & Hl & Hn & Hbody); [|lia].
  apply bytes_cons in Hb as [Hfirst _].
  rewrite Hl, Ho, Hf, Hm. repeat split; try tauto; try lia.
  rewrite encode_eq, Hf, Ho, Hm, Hl, <- (first_byte_inv first o) by done.
  rewrite Hlf, Hbody. destruct cursor as [|[|cursor]]; [lia..|].
  destruct n as [|n]; [lia|]. cbn [pred firstn skipn]. f_equal.
  rewrite <- (take_drop (S cursor) (take n (second :: bs))), take_take, Nat.min_l by lia.
  f_equal. change (drop cursor bs) with (drop (S cursor) (second :: bs)).
  rewrite take_drop_commute. do 2 f_equal. lia.
Qed.

(** A strict prefix of a frame is never an answer. *)
Lemma decode_prefix role max f k :
  sendable role max f -> (k < length (encode f))%nat ->
  decode (take k (encode f)) role max = Ok None.
Proof.
  intros Hs Hk.
  pose proof (decode_encode_rest f role max [] Hs) as Hfull. rewrite app_nil_r in Hfull.
  destruct (decode (take k (encode f)) role max) as [[[g n]|]|e] eqn:E; [|done|].
  all: pose proof (decode_mono _ _ _ (drop k (encode f)) _ E) as Hm;
    rewrite take_drop, Hfull in Hm; specialize (Hm ltac:(done)); try done.
  assert (n = length (encode f)) as -> by congruence.
  apply decode_canonical in E as [Hn _]; [|by eapply bytes_take, encode_bytes].
  rewrite length_take in Hn. lia.
Qed.

(** A frame takes at least two bytes. *)
Lemma decode_used bs role max f n : decode bs role max = Ok (Some (f, n)) -> (2 <= n)%nat.
Proof.
  destruct bs as [|first [|second bs]]; try done. unfold decode.
  destruct (negb (Z.land first 112 =? 0)); [done|].
  destruct (from_bits (Z.land first 15)) as [o|]; [|done].
  destruct (decode_length (first :: second :: bs) second max) as [[[len cursor]|]|] eqn:El; try done.
  assert (2 <= cursor)%nat by (unfold decode_length in El; repeat case_match; simplify_eq; lia).
  destruct (check_header _ _ _ _ _ _); [|done]. unfold decode_body.
  intros H'. repeat case_match; simplify_eq; lia.
Qed.

(** A frame that decodes is within the size limit. *)
Lemma decode_size bs role max f n :
  decode bs role max = Ok (Some (f, n)) -> Z.of_nat (length (payload f)) <= max.
Proof.
  destruct bs as [|first [|second bs]]; try done. unfold decode.
  destruct (negb (Z.land first 112 =? 0)); [done|].
  destruct (from_bits (Z.land first 15)) as [o|]; [|done].
  destruct (decode_length (first :: second :: bs) second max) as [[[len cursor]|]|] eqn:El; try done.
  assert (0 <= len).
  { unfold decode_length in El. assert (0 <= Z.land second 127) by (apply Z.land_nonneg; lia).
    destruct (_ =? 126); [|destruct (_ =? 127)].
    - generalize dependent (from_be_bytes (take 2 (drop 2 (first :: second :: bs)))). intros v El.
      destruct (_ <? 4)%nat; [done|]. destruct (Z.ltb_spec v 126); [done|]. injection El as <- _. lia.
    - generalize dependent (from_be_bytes (take 8 (drop 2 (first :: second :: bs)))). intros v El.
      destruct (_ <? 10)%nat; [done|]. destruct (negb _); [done|].
      destruct (Z.leb_spec v 65535); [done|].
      destruct (_ <=? usize_max); [|done]. injection El as <- _. lia.
    - by simplify_eq. }
  destruct (check_header _ _ _ _ _ _) as [[]|] eqn:Ec; [|done].
  apply check_header_inv in Ec as (Hmax & _). intros [= Hb].
  apply decode_body_inv in Hb as (_ & _ & _ & -> & _); done.
Qed.

(** Decoding inverts encoding: a sendable frame, followed by whatever
    else is in the buffer, is read back exactly, mask and fragmentation bit
    included, and exactly its own bytes are consumed. *)
Theorem decode_encode_frame f role max rest :
  sendable role max f -> decode (encode f ++ rest) role max = Ok (Some (f, length (encode f))).
Proof. apply decode_encode_rest. Qed.

Lemma decode_encode_frame_witness :
  let f := client Text (lit "Hello") {| m0 := 55; m1 := 250; m2 := 33; m3 := 61 |} in
  decode (encode f ++ [129]) Server 1024 = Ok (Some (f, 11%nat)).
Proof.
  intros f. apply (decode_encode_frame f Server 1024 [129]).
  split; [split; by apply (bool_decide_unpack _)|]. repeat split; vm_compute; congruence.
Defined.

(** A frame that decodes is the only reading of its bytes: re-encoding it
    gives exactly the consumed prefix (non-minimal lengths, reserved bits and
    reserved opcodes never get through), it respects the size limit, its
    masking matches the direction, and control frames are whole and short. *)
Theorem decode_only_canonical bs role max f n :
  bytes bs -> decode bs role max = Ok (Some (f, n)) ->
  (n <= length bs)%nat /\ encode f = take n bs /\
  is_masked f = (match role with Server => true | Client => false end) /\
  Z.of_nat (length (payload f)) <= max /\
  (is_control (opcode f) = true -> fin f = true /\ Z.of_nat (length (payload f)) <= 125).
Proof. apply decode_canonical. Qed.

Lemma decode_only_canonical_witness :
  exists f, decode [129; 5; 72; 101; 108; 108; 111; 0] Client 1024 = Ok (Some (f, 7%nat)) /\
    encode f = [129; 5; 72; 101; 108; 108; 111].
Proof.
  eexists. split; [reflexivity|].
  refine (proj1 (proj2 (decode_only_canonical [129; 5; 72; 101; 108; 108; 111; 0] Client 1024
    _ 7%nat _ _))); [by apply (bool_decide_unpack _)|reflexivity].
Defined.

(** Reading from a growing buffer is sound: an answer, frame or error,
    never changes when more bytes arrive, and a strict prefix of a sendable
    frame is always answered with a request for more. *)
Theorem decode_streaming role max :
  (forall bs more, decode bs role max <> Ok None ->
     decode (bs ++ more) role max = decode bs role max) /\
  (forall f k, sendable role max f -> (k < length (encode f))%nat ->
     decode (take k (encode f)) role max = Ok None).
Proof.
  split; [intros bs more Hne; by eapply decode_mono|]. apply decode_prefix.
Qed.

Lemma decode_streaming_witness :
  decode (take 6 (encode (server Text (lit "Hello")))) Client 1024 = Ok None.
Proof.
  apply (proj2 (decode_streaming Client 1024)); [|vm_compute; lia].
  split; [split; [by apply (bool_decide_unpack _)|done]|]. repeat split; vm_compute; congruence.
Defined.

(** ** Close payloads *)

Lemma boundary_at_or_below_le reason e : (boundary_at_or_below reason e <= e)%nat.
Proof. induction e as [|e IH]; [done|]. cbn [boundary_at_or_below]. case_match; lia. Qed.

Lemma boundary_at_or_below_ok reason e :
  is_char_boundary reason (boundary_at_or_below reason e) = true.
Proof. induction e as [|e IH]; [done|]. cbn [boundary_at_or_below]. by case_match. Qed.

Lemma boundary_at_length reason : boundary_at_or_below reason (length reason) = length reason.
Proof.
  destruct (length reason) as [|e] eqn:E; [done|]. cbn [boundary_at_or_below].
  unfold is_char_boundary. cbn [Nat.eqb]. rewrite (lookup_ge_None_2 reason (S e)) by lia.
  by rewrite E, Nat.eqb_refl.
Qed.

(** A close payload always fits a control frame, and parsing it gives back
    the code with the reason cut, if at all, at a character boundary: the whole
    reason when it has at most 123 bytes, a valid UTF-8 prefix otherwise. *)
Theorem close_payload_roundtrip c :
  is_sendable (cf_code c) = true -> utf8_valid (cf_reason c) = true ->
  exists e, (e <= 123)%nat /\ (length (to_payload c) <= 125)%nat /\
    ((length (cf_reason c) <= 123)%nat -> e = length (cf_reason c)) /\
    parse_close (to_payload c) =
      Ok (Some {| cf_code := cf_code c; cf_reason := take e (cf_reason c) |}).
Proof.
  intros Hs Hu. set (lim := Nat.min (length (cf_reason c)) 123).
  exists (boundary_at_or_below (cf_reason c) lim).
  pose proof (boundary_at_or_below_le (cf_reason c) lim) as Hle.
  assert (lim <= 123)%nat by (unfold lim; lia).
  split; [lia|]. unfold to_payload. fold lim. split; [|split].
  - rewrite length_app, to_be_bytes_length, length_take. lia.
  - intros Hshort. unfold lim. rewrite Nat.min_l by done. apply boundary_at_length.
  - assert (Hc : 0 <= cf_code c < 65536)
      by (unfold is_sendable in Hs; repeat case_match; lia || done).
    assert (Hr := from_to_be_bytes 2 (cf_code c) Hc).
    destruct (to_be_bytes 2 (cf_code c)) as [|b0 [|b1 [|]]] eqn:E;
      try (apply (f_equal length) in E; by rewrite to_be_bytes_length in E).
    cbn [app parse_close]. rewrite Hr, Hs. cbn [negb].
    by rewrite (utf8_valid_take _ _ Hu (boundary_at_or_below_ok _ _)).
Qed.

Lemma close_payload_roundtrip_witness :
  parse_close (to_payload {| cf_code := 1000; cf_reason := lit "bye" |}) =
  Ok (Some {| cf_code := 1000; cf_reason := lit "bye" |}).
Proof.
  destruct (close_payload_roundtrip {| cf_code := 1000; cf_reason := lit "bye" |}
    eq_refl eq_refl) as (e & _ & _ & He & ->).
  rewrite He; [reflexivity|vm_compute; lia].
Defined.

End WsFrame.
