(* ===== verification/WsConnection.v ===== *)
(** * WebSocket connections ([rustlavel-ws/src/connection.rs])

    One open socket: the read buffer, the reassembly of fragmented messages,
    the answers to pings and closes, the idle timer, and the task that writes
    the outgoing queue. What the operating system does is the list of events
    the reader will see: each [read] returns a chunk (an empty one is the end of
    the stream) or an error, or the timer around it fires first. An operation
    that needs an event when none is left is [Pending], with the state it has
    reached. The outgoing queue keeps everything accepted, and [q_life] says how
    many more messages it accepts before the writer task closes it. *)

From S2P Require Import Prelude Text WsFrame.

Module WsConnection.
Import WsFrame.

(** ** Data *)

Record WebSocketConfig := {
  max_message_size : Z;
  max_frame_size : Z;
  idle_timeout : option Z;
  close_timeout : Z;
  send_queue : Z;
}.

Definition default_config : WebSocketConfig := {|
  max_message_size := Z.shiftl 1 20;
  max_frame_size := Z.shiftl 1 20;
  idle_timeout := Some 60;
  close_timeout := 5;
  send_queue := 64;
|}.

(** What one [read], or the timer around it, reports. *)
Inductive ReadEvent :=
  | Chunk (bs : list Z)
  | ReadError (text : list Z)
  | Elapsed.

(** The sending half of the queue, as its owner sees it. [None] for [q_life]
    is a writer that never goes away. *)
Record Sender := { q_log : list Message; q_life : option nat }.

Record WebSocket := {
  reader : list ReadEvent;
  buffer : list Z;
  outgoing : Sender;
  config : WebSocketConfig;
  partial : option (OpCode * list Z * nat);
  awaiting_pong : bool;
  closed : bool;
  close_frame : option CloseFrame;
  received : Z;
}.

Definition set_input (r : list ReadEvent) (b : list Z) (ws : WebSocket) : WebSocket :=
  {| reader := r; buffer := b; outgoing := outgoing ws; config := config ws;
     partial := partial ws; awaiting_pong := awaiting_pong ws; closed := closed ws;
     close_frame := close_frame ws; received := received ws |}.
Definition set_outgoing (q : Sender) (ws : WebSocket) : WebSocket :=
  {| reader := reader ws; buffer := buffer ws; outgoing := q; config := config ws;
     partial := partial ws; awaiting_pong := awaiting_pong ws; closed := closed ws;
     close_frame := close_frame ws; received := received ws |}.
Definition set_partial (p : option (OpCode * list Z * nat)) (ws : WebSocket) : WebSocket :=
  {| reader := reader ws; buffer := buffer ws; outgoing := outgoing ws; config := config ws;
     partial := p; awaiting_pong := awaiting_pong ws; closed := closed ws;
     close_frame := close_frame ws; received := received ws |}.
Definition set_awaiting_pong (a : bool) (ws : WebSocket) : WebSocket :=
  {| reader := reader ws; buffer := buffer ws; outgoing := outgoing ws; config := config ws;
     partial := partial ws; awaiting_pong := a; closed := closed ws;
     close_frame := close_frame ws; received := received ws |}.
Definition set_received (n : Z) (ws : WebSocket) : WebSocket :=
  {| reader := reader ws; buffer := buffer ws; outgoing := outgoing ws; config := config ws;
     partial := partial ws; awaiting_pong := awaiting_pong ws; closed := closed ws;
     close_frame := close_frame ws; received := n |}.

(** How an asynchronous operation ends: with a value, waiting for the peer, or
    because the timer wrapped around it fired. [OutOfFuel] is the bound of the
    model's loops; [recv_total] shows it is never met. *)
Inductive poll (A : Type) :=
  | Ready (a : A)
  | Pending
  | TimedOut
  | OutOfFuel.
Arguments Ready {A} a.
Arguments Pending {A}.
Arguments TimedOut {A}.
Arguments OutOfFuel {A}.

(** ** The queue *)

(** [Sender::send]: [None] is the error of a closed queue. *)
Definition queue_send (m : Message) (q : Sender) : option Sender :=
  match q_life q with
  | Some O => None
  | Some (S n) => Some {| q_log := q_log q ++ [m]; q_life := Some n |}
  | None => Some {| q_log := q_log q ++ [m]; q_life := None |}
  end.

(** [let _ = self.outgoing.send(..).await]: the outcome is dropped. *)
Definition queue_send_ignored (m : Message) (ws : WebSocket) : WebSocket :=
  match queue_send m (outgoing ws) with
  | Some q => set_outgoing q ws
  | None => ws
  end.

(** [WebSocket::new], once the writer task is running. *)
Definition new (events : list ReadEvent) (buffered : list Z) (life : option nat)
    (cfg : WebSocketConfig) : WebSocket :=
  {| reader := events; buffer := buffered; outgoing := {| q_log := []; q_life := life |};
     config := cfg; partial := None; awaiting_pong := false; closed := false;
     close_frame := None; received := 0 |}.

(** [WebSocket::send]. *)
Definition send (m : Message) (ws : WebSocket) : WebSocket * result WsError unit :=
  if closed ws then (ws, Err Closed)
  else match queue_send m (outgoing ws) with
       | Some q => (set_outgoing q ws, Ok tt)
       | None => (ws, Err Closed)
       end.

(** ** Closing *)

Definition mark_closed (close : option CloseFrame) (ws : WebSocket) : WebSocket :=
  {| reader := reader ws; buffer := buffer ws; outgoing := outgoing ws; config := config ws;
     partial := partial ws; awaiting_pong := awaiting_pong ws; closed := true;
     close_frame := match close_frame ws with Some c => Some c | None => close end;
     received := received ws |}.

Definition fail (error : WsError) (ws : WebSocket) : WebSocket :=
  let close := {| cf_code := close_code error; cf_reason := error_text error |} in
  mark_closed (Some close) (queue_send_ignored (MClose (Some close)) ws).

(** ** Reading frames *)

(** The text received so far could still become valid UTF-8; the second
    component is [checked] afterwards. *)
Definition text_so_far_is_valid (bs : list Z) (checked : nat) : bool * nat :=
  match utf8_scan (drop checked bs) with
  | (_, AllValid) => (true, length bs)
  | (valid_up_to, Unfinished) => (true, (checked + valid_up_to)%nat)
  | (_, Wrong) => (false, checked)
  end.

(** The loop of [read_frame] over the buffer and the events left; [timed] when
    a timer is wrapped around it. *)
Fixpoint read_loop (timed : bool) (max : Z) (events : list ReadEvent) (buf : list Z)
    : list ReadEvent * list Z * poll (result WsError (option Frame)) :=
  match decode buf Server max with
  | Err e => (events, buf, Ready (Err e))
  | Ok (Some (frame, used)) => (events, drop used buf, Ready (Ok (Some frame)))
  | Ok None =>
      match events with
      | [] => ([], buf, Pending)
      | Chunk [] :: events => (events, buf, Ready (Ok None))
      | Chunk chunk :: events => read_loop timed max events (buf ++ chunk)
      | ReadError text :: events => (events, buf, Ready (Err (Io text)))
      | Elapsed :: events =>
          if timed then (events, buf, TimedOut) else read_loop timed max events buf
      end
  end.

Definition read_frame (timed : bool) (ws : WebSocket)
    : WebSocket * poll (result WsError (option Frame)) :=
  let '(events, buf, out) := read_loop timed (max_frame_size (config ws)) (reader ws) (buffer ws) in
  (set_input events buf ws, out).

(** The loop of [next_frame]: the second silent period in a row ends it, so two
    rounds are enough. *)
Fixpoint next_loop (fuel : nat) (ws : WebSocket)
    : WebSocket * poll (result WsError (option Frame)) :=
  match fuel with
  | O => (ws, OutOfFuel)
  | S fuel =>
      match read_frame true ws with
      | (ws, TimedOut) =>
          if awaiting_pong ws then (ws, Ready (Err Idle))
          else
            let ws := set_awaiting_pong true ws in
            match queue_send (MPing []) (outgoing ws) with
            | None => (ws, Ready (Ok None))
            | Some q => next_loop fuel (set_outgoing q ws)
            end
      | done => done
      end
  end.

Definition next_frame (ws : WebSocket) : WebSocket * poll (result WsError (option Frame)) :=
  match idle_timeout (config ws) with
  | None => read_frame false ws
  | Some _ => next_loop 2 ws
  end.

(** ** Receiving *)

Definition deliver (o : OpCode) (p : list Z) (ws : WebSocket) : WebSocket * option Message :=
  match from_data o p with
  | Ok message => (set_received (u64 (received ws + 1)) ws, Some message)
  | Err error => (fail error ws, None)
  end.

(** A return from the body of [recv]'s loop, or another round. *)
Inductive flow :=
  | Return (m : option Message)
  | Again.

Definition returning (r : WebSocket * option Message) : WebSocket * flow := (r.1, Return r.2).

Definition on_data (frame : Frame) (ws : WebSocket) : WebSocket * flow :=
  match partial ws with
  | Some _ =>
      (fail (Protocol
        (lit "a new data frame arrived while a fragmented message was still open")) ws, Return None)
  | None =>
      if fin frame then returning (deliver (opcode frame) (payload frame) ws)
      else
        let '(valid, checked) :=
          if decide (opcode frame = Text) then text_so_far_is_valid (payload frame) 0
          else (true, 0%nat) in
        if valid then (set_partial (Some (opcode frame, payload frame, checked)) ws, Again)
        else (fail InvalidUtf8 ws, Return None)
  end.

Definition on_continuation (frame : Frame) (ws : WebSocket) : WebSocket * flow :=
  match partial ws with
  | None =>
      (fail (Protocol (lit "a continuation frame arrived with no message to continue")) ws,
       Return None)
  | Some (o, assembled, checked) =>
      let ws := set_partial None ws in
      let total := Z.of_nat (length assembled) + Z.of_nat (length (payload frame)) in
      if max_message_size (config ws) <? total then
        (fail (TooLarge total (max_message_size (config ws))) ws, Return None)
      else
        let assembled := assembled ++ payload frame in
        if fin frame then returning (deliver o assembled ws)
        else
          let '(valid, checked) :=
            if decide (o = Text) then text_so_far_is_valid assembled checked
            else (true, checked) in
          if valid then (set_partial (Some (o, assembled, checked)) ws, Again)
          else (fail InvalidUtf8 ws, Return None)
  end.

Definition on_close (frame : Frame) (ws : WebSocket) : WebSocket :=
  match parse_close (payload frame) with
  | Err error => fail error ws
  | Ok peer =>
      let echo := default {| cf_code := NORMAL; cf_reason := [] |} peer in
      let ws := queue_send_ignored (MClose (Some echo)) ws in
      mark_closed (match peer with
                   | Some c => Some c
                   | None => Some {| cf_code := NO_STATUS; cf_reason := [] |}
                   end) ws
  end.

Definition abnormal : CloseFrame := {| cf_code := ABNORMAL; cf_reason := [] |}.

Definition on_ping (frame : Frame) (ws : WebSocket) : WebSocket * flow :=
  match queue_send (MPong (payload frame)) (outgoing ws) with
  | Some q => (set_outgoing q ws, Again)
  | None => (mark_closed (Some abnormal) ws, Return None)
  end.

(** The body of the loop of [recv] on one frame. *)
Definition on_frame (frame : Frame) (ws : WebSocket) : WebSocket * flow :=
  let ws := set_awaiting_pong false ws in
  match opcode frame with
  | Ping => on_ping frame ws
  | Pong => (ws, Again)
  | Close => (on_close frame ws, Return None)
  | Text | Binary => on_data frame ws
  | Continuation => on_continuation frame ws
  end.

Fixpoint recv_loop (fuel : nat) (ws : WebSocket) : WebSocket * poll (option Message) :=
  match fuel with
  | O => (ws, OutOfFuel)
  | S fuel =>
      if closed ws then (ws, Ready None)
      else
        match next_frame ws with
        | (ws, Ready (Ok (Some frame))) =>
            match on_frame frame ws with
            | (ws, Return m) => (ws, Ready m)
            | (ws, Again) => recv_loop fuel ws
            end
        | (ws, Ready (Ok None)) => (mark_closed (Some abnormal) ws, Ready None)
        | (ws, Ready (Err error)) => (fail error ws, Ready None)
        | (ws, Pending) => (ws, Pending)
        | (ws, TimedOut) => (ws, TimedOut)
        | (ws, OutOfFuel) => (ws, OutOfFuel)
        end
  end.

(** The bytes the peer has sent that are not framed yet. *)
Definition event_bytes (e : ReadEvent) : list Z :=
  match e with Chunk bs => bs | _ => [] end.
Definition stream (events : list ReadEvent) : list Z := concat (map event_bytes events).
Definition unread (ws : WebSocket) : list Z := buffer ws ++ stream (reader ws).

(** Every round but the last takes a frame off the unread bytes. *)
Definition recv (ws : WebSocket) : WebSocket * poll (option Message) :=
  recv_loop (S (length (unread ws))) ws.

(** ** Closing politely *)

Fixpoint drain_loop (fuel : nat) (ws : WebSocket) : WebSocket * poll (option CloseFrame) :=
  match fuel with
  | O => (ws, OutOfFuel)
  | S fuel =>
      match read_frame true ws with
      | (ws, Ready (Ok (Some frame))) =>
          if decide (opcode frame = Close) then
            (ws, Ready (match parse_close (payload frame) with Ok peer => peer | Err _ => None end))
          else drain_loop fuel ws
      | (ws, Ready _) => (ws, Ready None)
      | (ws, Pending) => (ws, Pending)
      | (ws, TimedOut) => (ws, TimedOut)
      | (ws, OutOfFuel) => (ws, OutOfFuel)
      end
  end.
Definition drain_until_close (ws : WebSocket) : WebSocket * poll (option CloseFrame) :=
  drain_loop (S (length (unread ws))) ws.

Definition close (code : Z) (reason : list Z) (ws : WebSocket) : WebSocket * poll unit :=
  if closed ws then (ws, Ready tt)
  else
    let close := {| cf_code := code; cf_reason := reason |} in
    match queue_send (MClose (Some close)) (outgoing ws) with
    | None => (mark_closed (Some close) ws, Ready tt)
    | Some q =>
        let finish (peer : option CloseFrame) ws :=
          (mark_closed (match peer with Some c => Some c | None => Some close end) ws, Ready tt) in
        match drain_until_close (set_outgoing q ws) with
        | (ws, Ready peer) => finish peer ws
        | (ws, TimedOut) => finish None ws
        | (ws, Pending) => (ws, Pending)
        | (ws, OutOfFuel) => (ws, OutOfFuel)
        end
    end.

(** ** The writer task *)

(** One [write_all] and [flush]: all of it, or an error after some bytes. *)
Inductive WriteEvent :=
  | Written
  | Broken (sent : nat).

Definition is_close (m : Message) : bool := match m with MClose _ => true | _ => false end.

(** The bytes [write_loop] puts on the wire, and what is left on the queue it
    then closes. An exhausted event list is a write still in progress. *)
Fixpoint write_loop (queue : list Message) (writes : list WriteEvent) : list Z * list Message :=
  match queue, writes with
  | [], _ => ([], [])
  | queue, [] => ([], queue)
  | message :: queue, Broken sent :: _ => (take sent (encode (into_frame message)), queue)
  | message :: queue, Written :: writes =>
      let bs := encode (into_frame message) in
      if is_close message then (bs, queue)
      else let '(wire, rest) := write_loop queue writes in (bs ++ wire, rest)
  end.

(** ** Checking text as it arrives *)

Lemma text_check bs k :
  (k <= length bs)%nat -> utf8_valid (take k bs) = true ->
  text_so_far_is_valid bs k =
    match (utf8_scan bs).2 with
    | AllValid => (true, length bs)
    | Unfinished => (true, (utf8_scan bs).1)
    | Wrong => (false, k)
    end.
Proof.
  intros Hk Hv. unfold text_so_far_is_valid.
  assert (H := utf8_scan_app (take k bs) (drop k bs) Hv).
  rewrite take_drop, length_take, Nat.min_l in H by done. rewrite H. cbn [fst snd].
  by destruct (utf8_scan (drop k bs)) as [n []].
Qed.

(** The [checked] count of an open text message: everything before it is valid. *)
Definition checked_ok (o : OpCode) (bs : list Z) (k : nat) : Prop :=
  o = Text -> (k <= length bs)%nat /\ utf8_valid (take k bs) = true.

Lemma checked_ok_app o bs k more : checked_ok o bs k -> checked_ok o (bs ++ more) k.
Proof.
  intros H Ho. destruct (H Ho) as [Hk Hv]. rewrite length_app, take_app_le by done.
  split; [lia|done].
Qed.

(** One check, as the loop makes it: it refuses only hopeless text. *)
Lemma check_step o bs k :
  checked_ok o bs k ->
  let r := if decide (o = Text) then text_so_far_is_valid bs k else (true, k) in
  (r.1 = false -> o = Text /\ forall ext, utf8_valid (bs ++ ext) = false) /\ checked_ok o bs r.2.
Proof.
  intros Hk. destruct (decide (o = Text)) as [Ho|Hn]; [|done]. destruct (Hk Ho) as [Hle Hv].
  rewrite text_check by done.
  destruct (utf8_scan_accepted bs) as (H1 & H2 & H3).
  destruct (utf8_scan bs).2 eqn:E; cbn [fst snd].
  - split; [done|]. intros _. split; [done|]. by rewrite <- H3.
  - split; [done|]. by intros _.
  - split; [|done]. intros _. split; [done|]. intros ext. by apply utf8_wrong_final.
Qed.

(** The check of unfinished text refuses exactly the text that no further
    fragment can make valid. It accepts otherwise, never moves back, leaves at
    most three bytes to look at again, and everything it has passed is valid:
    the precondition of the next check. *)
Theorem fail_fast_exact bs checked :
  (checked <= length bs)%nat -> utf8_valid (take checked bs) = true ->
  let '(valid, checked') := text_so_far_is_valid bs checked in
  (valid = true <-> exists ext, utf8_valid (bs ++ ext) = true) /\
  (valid = true ->
     (checked <= checked' <= length bs)%nat /\ (length bs - checked' <= 3)%nat /\
     utf8_valid (take checked' bs) = true).
Proof.
  intros Hk Hv. rewrite text_check by done.
  assert (H := utf8_scan_app (take checked bs) (drop checked bs) Hv).
  rewrite take_drop, length_take, Nat.min_l in H by done.
  destruct (utf8_scan_accepted bs) as (H1 & H2 & H3).
  destruct (utf8_scan bs) as [n e] eqn:E. cbn [fst snd] in *. destruct e.
  - assert (n = length bs) as -> by auto. rewrite take_ge in H2 by done.
    split; [|intros _; repeat split; [lia..|by rewrite take_ge]].
    split; [|done]. intros _. exists []. by rewrite app_nil_r.
  - destruct (utf8_completable bs) as [He Hl]; [by rewrite E|]. rewrite E in Hl. cbn [fst] in Hl.
    injection H as H _. split; [done|]. intros _. repeat split; [lia..|done].
  - split; [|done]. split; [done|]. intros [ext He].
    rewrite (utf8_wrong_final bs ext) in He; [done|by rewrite E].
Qed.

Lemma fail_fast_exact_witness :
  let '(valid, checked') := text_so_far_is_valid [72; 226; 130] 1 in
  valid = true /\ checked' = 1%nat.
Proof.
  assert (H := fail_fast_exact [72; 226; 130] 1 ltac:(cbn; lia) eq_refl).
  destruct (text_so_far_is_valid [72; 226; 130] 1) as [v k] eqn:E.
  vm_compute in E. injection E as <- <-. split; [|reflexivity].
  apply (proj1 H). exists [172]. reflexivity.
Defined.

(** ** Reading frames from any chunking of the stream *)

(** A reader that delivers bytes: no end of stream, error or silence. *)
Definition delivering (events : list ReadEvent) : Prop :=
  Forall (fun e => match e with Chunk (_ :: _) => True | _ => False end) events.

Lemma read_loop_stream timed max events buf f rest :
  sendable Server max f -> delivering events -> buf ++ stream events = encode f ++ rest ->
  exists events' buf',
    read_loop timed max events buf = (events', buf', Ready (Ok (Some f))) /\
    buf' ++ stream events' = rest /\ delivering events'.
Proof.
  intros Hf. revert buf. induction events as [|e events IH]; intros buf Hd Hs.
  - cbn [stream map concat] in Hs. rewrite app_nil_r in Hs. subst buf.
    exists [], rest. cbn [read_loop]. rewrite decode_encode_rest by done.
    rewrite drop_app_ge, Nat.sub_diag, drop_0 by lia.
    split; [done|]. split; [apply app_nil_r|done].
  - destruct (decide (length (encode f) <= length buf)%nat) as [Hle|Hlt].
    + assert (exists more, buf = encode f ++ more) as [more ->].
      { exists (drop (length (encode f)) buf).
        rewrite <- (take_drop (length (encode f)) buf) at 1. f_equal.
        apply (f_equal (take (length (encode f)))) in Hs.
        rewrite !take_app_le in Hs by lia. by rewrite Hs, take_ge by lia. }
      exists (e :: events), more. cbn [read_loop]. rewrite decode_encode_rest by done.
      rewrite drop_app_ge, Nat.sub_diag, drop_0 by lia.
      rewrite <- app_assoc in Hs. apply app_inv_head in Hs. done.
    + assert (Hb : buf = take (length buf) (encode f)).
      { apply (f_equal (take (length buf))) in Hs.
        rewrite !take_app_le, (take_ge buf) in Hs by lia. done. }
      cbn [read_loop]. rewrite Hb, decode_prefix, <- Hb by (done || lia).
      unfold delivering in Hd. rewrite Forall_cons_iff in Hd. destruct Hd as [He Hd].
      destruct e as [[|b bs]| |]; try done. apply IH; [done|].
      rewrite <- app_assoc. done.
Qed.

Lemma next_loop_read fuel ws ws' r :
  read_frame true ws = (ws', Ready r) -> next_loop (S fuel) ws = (ws', Ready r).
Proof. intros H. cbn [next_loop]. by rewrite H. Qed.

Lemma next_frame_stream ws f rest :
  sendable Server (max_frame_size (config ws)) f -> delivering (reader ws) ->
  unread ws = encode f ++ rest ->
  exists events buf,
    next_frame ws = (set_input events buf ws, Ready (Ok (Some f))) /\
    buf ++ stream events = rest /\ delivering events.
Proof.
  intros Hf Hd Hs.
  assert (H : forall timed, exists events buf,
    read_frame timed ws = (set_input events buf ws, Ready (Ok (Some f))) /\
    buf ++ stream events = rest /\ delivering events).
  { intros timed. destruct (read_loop_stream timed _ _ _ f rest Hf Hd Hs)
      as (events & buf & E & H). exists events, buf. unfold read_frame. by rewrite E. }
  unfold next_frame. destruct (idle_timeout (config ws)).
  - destruct (H true) as (events & buf & E & Hr). exists events, buf.
    split; [by apply next_loop_read|done].
  - apply H.
Qed.

(** ** The connection as a machine on frames

    Successive frames, handled until one of them ends the call; what is left. *)

Fixpoint on_frames (fs : list Frame) (ws : WebSocket) : WebSocket * flow * list Frame :=
  match fs with
  | [] => (ws, Again, [])
  | f :: fs =>
      match on_frame f ws with
      | (ws, Again) => on_frames fs ws
      | (ws, Return m) => (ws, Return m, fs)
      end
  end.

Lemma queue_send_ignored_input events buf m ws :
  queue_send_ignored m (set_input events buf ws) = set_input events buf (queue_send_ignored m ws).
Proof. unfold queue_send_ignored. cbn [outgoing set_input]. by destruct (queue_send m (outgoing ws)). Qed.

Lemma fail_input e events buf ws :
  fail e (set_input events buf ws) = set_input events buf (fail e ws).
Proof. unfold fail. rewrite queue_send_ignored_input. done. Qed.

Lemma deliver_input o p events buf ws :
  deliver o p (set_input events buf ws) =
    (set_input events buf (deliver o p ws).1, (deliver o p ws).2).
Proof. unfold deliver. destruct (from_data o p); [done|]. by rewrite fail_input. Qed.

(** What a frame does does not depend on the bytes still to come. *)
Lemma on_frame_input f events buf ws :
  on_frame f (set_input events buf ws) =
    (set_input events buf (on_frame f ws).1, (on_frame f ws).2).
Proof.
  unfold on_frame. change (set_awaiting_pong false (set_input events buf ws))
    with (set_input events buf (set_awaiting_pong false ws)).
  set (ws' := set_awaiting_pong false ws). clearbody ws'. clear ws. rename ws' into ws.
  destruct (opcode f) eqn:Ho.
  - unfold on_continuation. cbn [partial set_input].
    destruct (partial ws) as [[[o acc] k]|]; [|by rewrite fail_input].
    change (set_partial None (set_input events buf ws))
      with (set_input events buf (set_partial None ws)).
    cbn [config set_input]. case_match; [by rewrite fail_input|].
    case_match; [unfold returning; by rewrite deliver_input|].
    destruct (if decide _ then _ else _) as [[] ?]; [done|by rewrite fail_input].
  - unfold on_data. cbn [partial set_input]. case_match; [by rewrite fail_input|].
    case_match; [unfold returning; by rewrite deliver_input|].
    destruct (if decide _ then _ else _) as [[] ?]; [done|by rewrite fail_input].
  - unfold on_data. cbn [partial set_input]. case_match; [by rewrite fail_input|].
    case_match; [unfold returning; by rewrite deliver_input|].
    destruct (if decide _ then _ else _) as [[] ?]; [done|by rewrite fail_input].
  - unfold on_close. case_match; [by rewrite queue_send_ignored_input|by rewrite fail_input].
  - unfold on_ping. cbn [outgoing set_input]. by case_match.
  - done.
Qed.

Lemma on_frames_input fs events buf ws :
  on_frames fs (set_input events buf ws) =
    (set_input events buf (on_frames fs ws).1.1, (on_frames fs ws).1.2, (on_frames fs ws).2).
Proof.
  revert ws. induction fs as [|f fs IH]; intros ws; [done|]. cbn [on_frames].
  rewrite on_frame_input. destruct (on_frame f ws) as [ws' []]; [done|]. apply IH.
Qed.

(** A frame that lets the loop go on leaves the socket open. *)
Lemma on_frame_again f ws ws' :
  on_frame f ws = (ws', Again) -> closed ws' = closed ws /\ config ws' = config ws.
Proof.
  unfold on_frame, on_data, on_continuation, on_ping, returning.
  intros H. repeat (case_match; simplify_eq; try done).
Qed.

Definition wire (fs : list Frame) : list Z := concat (map encode fs).

Lemma wire_cons f fs rest : wire (f :: fs) ++ rest = encode f ++ wire fs ++ rest.
Proof. unfold wire. cbn [map concat]. by rewrite app_assoc. Qed.

Lemma encode_nonempty f : (0 < length (encode f))%nat.
Proof. rewrite encode_eq. simpl. lia. Qed.

(** Receiving from any chunking of a run of frames is the machine on frames;
    what the frames leave over stays to be read. *)
Lemma recv_loop_frames fs : forall fuel ws ws1 m left rest,
  (length (unread ws) < fuel)%nat -> closed ws = false ->
  Forall (sendable Server (max_frame_size (config ws))) fs ->
  delivering (reader ws) -> unread ws = wire fs ++ rest ->
  on_frames fs ws = (ws1, Return m, left) ->
  exists events buf,
    recv_loop fuel ws = (set_input events buf ws1, Ready m) /\
    buf ++ stream events = wire left ++ rest /\ delivering events.
Proof.
  induction fs as [|f fs IH]; intros fuel ws ws1 m rem rest Hfuel Hopen Hfs Hd Hs Hrun; [done|].
  rewrite Forall_cons_iff in Hfs. destruct Hfs as [Hf Hfs]. rewrite wire_cons in Hs.
  destruct (next_frame_stream ws f _ Hf Hd Hs) as (events & buf & Hnext & Hb & Hd').
  destruct fuel as [|fuel]; [lia|]. cbn [recv_loop]. rewrite Hopen, Hnext, on_frame_input.
  cbn [on_frames] in Hrun. destruct (on_frame f ws) as [ws' [m'|]] eqn:Ef; cbn [fst snd].
  - injection Hrun as -> -> ->. by exists events, buf.
  - destruct (on_frame_again _ _ _ Ef) as [Hc Hcfg].
    assert (Hrun' : on_frames fs (set_input events buf ws') =
                    (set_input events buf ws1, Return m, rem)).
    { rewrite on_frames_input, Hrun. done. }
    eapply IH in Hrun' as (ev & b & Hr & Hb' & Hd''); cbn [closed set_input config reader unread buffer].
    + exists ev, b. split; [rewrite Hr; done|done].
    + change (length (buf ++ stream events) < fuel)%nat. rewrite Hb.
      rewrite Hs, length_app in Hfuel. pose proof (encode_nonempty f). lia.
    + by rewrite Hc.
    + by rewrite Hcfg.
    + done.
    + done.
Qed.

(** ** Messages as frames

    What a run of frames spells, with pings and pongs anywhere between the
    fragments: the first data frame carries the opcode, the others continue it,
    and the last, which ends the run, carries the [fin] bit. *)

Fixpoint continues (fs : list Frame) : option (list Z) :=
  match fs with
  | [] => None
  | f :: fs =>
      match opcode f with
      | Ping | Pong => continues fs
      | Continuation =>
          if fin f then match fs with [] => Some (payload f) | _ => None end
          else let! p := continues fs in Some (payload f ++ p)
      | _ => None
      end
  end.

Fixpoint spells (fs : list Frame) : option (OpCode * list Z) :=
  match fs with
  | [] => None
  | f :: fs =>
      match opcode f with
      | Ping | Pong => spells fs
      | Text | Binary =>
          if fin f then match fs with [] => Some (opcode f, payload f) | _ => None end
          else let! p := continues fs in Some (opcode f, payload f ++ p)
      | _ => None
      end
  end.

(** The pongs a run of frames asks for. *)
Definition pong_of (f : Frame) : list Message :=
  match opcode f with Ping => [MPong (payload f)] | _ => [] end.
Definition pongs (fs : list Frame) : list Message := concat (map pong_of fs).

Definition say (ms : list Message) (ws : WebSocket) : WebSocket :=
  set_outgoing {| q_log := q_log (outgoing ws) ++ ms; q_life := None |} ws.

(** The socket after a delivered message. *)
Definition delivered (fs : list Frame) (ws : WebSocket) : WebSocket :=
  set_received (u64 (received ws + 1)) (set_partial None (set_awaiting_pong false (say (pongs fs) ws))).

(** The socket after it refused text that is not UTF-8. *)
Definition refused (ws ws' : WebSocket) : Prop :=
  closed ws' = true /\
  (close_frame ws = None ->
     close_frame ws' = Some {| cf_code := INVALID_PAYLOAD; cf_reason := error_text InvalidUtf8 |}).

Definition outcome (o : OpCode) (p : list Z) (fs : list Frame) (ws : WebSocket)
    (r : WebSocket * flow * list Frame) : Prop :=
  match from_data o p with
  | Ok m => r = (delivered fs ws, Return (Some m), [])
  | Err _ => exists ws' left, r = (ws', Return None, left) /\ refused ws ws'
  end.

Lemma refused_fail ws : refused ws (fail InvalidUtf8 ws).
Proof.
  split; [done|]. unfold fail, queue_send_ignored, mark_closed.
  destruct (queue_send _ _); cbn [close_frame set_outgoing]; by intros ->.
Qed.

Lemma refused_say ws ws1 ws' :
  close_frame ws1 = close_frame ws -> refused ws1 ws' -> refused ws ws'.
Proof. intros H [H1 H2]. split; [done|]. by rewrite <- H. Qed.

(** The socket after a frame of a message that is not its last. *)
Definition after (f : Frame) (part : option (OpCode * list Z * nat)) (ws : WebSocket) : WebSocket :=
  set_partial part (set_awaiting_pong false (say (pong_of f) ws)).

Lemma delivered_after f fs part ws : delivered fs (after f part ws) = delivered (f :: fs) ws.
Proof.
  unfold delivered, after, say, pongs, set_received, set_partial, set_awaiting_pong, set_outgoing.
  cbn. by rewrite <- app_assoc.
Qed.

(** With a live writer and no pong to send, [say] is no change. *)
Lemma say_nil ws : q_life (outgoing ws) = None -> say [] ws = ws.
Proof.
  destruct ws as [r b [lg life] c p a cl cf rc]. cbn. intros ->. unfold say, set_outgoing. cbn.
  by rewrite app_nil_r.
Qed.

Lemma after_data f part ws :
  q_life (outgoing ws) = None -> opcode f <> Ping ->
  after f part ws = set_partial part (set_awaiting_pong false ws).
Proof.
  intros Hq Ho. unfold after, pong_of. destruct (opcode f); try done; by rewrite say_nil.
Qed.

Lemma outcome_after o p f fs part ws r :
  outcome o p fs (after f part ws) r -> outcome o p (f :: fs) ws r.
Proof.
  unfold outcome. rewrite delivered_after. case_match; [done|].
  intros (ws' & rem & -> & Hr). exists ws', rem. split; [done|]. by eapply refused_say.
Qed.

Lemma control_step f ws :
  q_life (outgoing ws) = None -> opcode f = Ping \/ opcode f = Pong ->
  on_frame f ws = (after f (partial ws) ws, Again).
Proof.
  intros Hq Ho. destruct ws as [r b [lg life] c p a cl cf rc]. cbn in Hq. subst life.
  unfold on_frame, after, pong_of. destruct Ho as [-> | ->]; [done|].
  unfold say, set_outgoing, set_partial. cbn. by rewrite app_nil_r.
Qed.

(** The last frame of a message: its text is delivered or refused. *)
Lemma outcome_deliver o p f ws r :
  o = Text \/ o = Binary -> q_life (outgoing ws) = None -> opcode f <> Ping ->
  deliver o p (set_partial None (set_awaiting_pong false ws)) = r ->
  outcome o p [f] ws (returning r, []).
Proof.
  intros Ho Hq Hf <-. unfold outcome, deliver, returning, delivered.
  replace (pongs [f]) with (@nil Message).
  2: { unfold pongs, pong_of. cbn. by destruct (opcode f). }
  rewrite say_nil by done. destruct (from_data o p) as [m|e] eqn:E; [done|].
  assert (e = InvalidUtf8) as ->.
  { destruct Ho as [-> | ->]; cbn in E; [|done]. destruct (utf8_valid p); by simplify_eq. }
  eexists _, _. split; [done|]. eapply refused_say, refused_fail. done.
Qed.

(** A frame whose text is hopeless: the whole message is refused. *)
Lemma outcome_hopeless o p acc fs ws ws1 rem :
  o = Text -> (forall ext, utf8_valid (acc ++ ext) = false) ->
  close_frame ws1 = close_frame ws ->
  outcome o (acc ++ p) fs ws (fail InvalidUtf8 ws1, Return None, rem).
Proof.
  intros -> H Hc. unfold outcome. cbn [from_data]. rewrite H.
  eexists _, _. split; [done|]. eapply refused_say, refused_fail. done.
Qed.

Lemma on_frames_continues fs : forall ws o acc k p,
  o = Text \/ o = Binary -> partial ws = Some (o, acc, k) -> q_life (outgoing ws) = None ->
  continues fs = Some p -> checked_ok o acc k ->
  Z.of_nat (length (acc ++ p)) <= max_message_size (config ws) ->
  outcome o (acc ++ p) fs ws (on_frames fs ws).
Proof.
  induction fs as [|f fs IH]; intros ws o acc k p Ho Hp Hq Hc Hk Hmax; [done|].
  cbn [continues] in Hc. destruct (opcode f) eqn:Hf; try done.
  2-3: cbn [on_frames]; rewrite control_step by auto; eapply outcome_after, IH; eauto.
  assert (Hn : opcode f <> Ping) by by rewrite Hf.
  cbn [on_frames]. unfold on_frame. rewrite Hf. unfold on_continuation.
  cbn [partial set_awaiting_pong config set_partial]. rewrite Hp.
  destruct (Z.ltb_spec (max_message_size (config ws))
    (Z.of_nat (length acc) + Z.of_nat (length (payload f)))) as [Hbig|_].
  { exfalso. destruct (fin f); [destruct fs; [|done]; injection Hc as <-|
      destruct (continues fs); [|done]; injection Hc as <-]; rewrite !length_app in Hmax; lia. }
  destruct (fin f) eqn:Hfin.
  { destruct fs; [|done]. injection Hc as <-. by eapply outcome_deliver. }
  destruct (continues fs) as [q|] eqn:Hq'; [|done]. injection Hc as <-.
  rewrite app_assoc in Hmax |- *. apply (checked_ok_app _ _ _ (payload f)) in Hk.
  destruct (check_step _ _ _ Hk) as [Hbad Hk'].
  destruct (if decide _ then _ else _) as [[] k']; cbn [fst snd] in *.
  - rewrite <- (after_data f) by done. eapply outcome_after, IH; try done.
  - destruct (Hbad eq_refl) as [Ht Hh]. by eapply outcome_hopeless.
Qed.

Lemma on_frames_spells fs : forall ws o p,
  partial ws = None -> q_life (outgoing ws) = None -> spells fs = Some (o, p) ->
  Z.of_nat (length p) <= max_message_size (config ws) ->
  outcome o p fs ws (on_frames fs ws).
Proof.
  induction fs as [|f fs IH]; intros ws o p Hp Hq Hs Hmax; [done|].
  cbn [spells] in Hs. destruct (decide (opcode f = Ping \/ opcode f = Pong)) as [Hctl|Hn].
  { assert (Hs' : spells fs = Some (o, p)) by by destruct Hctl as [Hf|Hf]; rewrite Hf in Hs.
    cbn [on_frames]. rewrite control_step by done. eapply outcome_after, IH; done. }
  assert (Hd : (opcode f = Text \/ opcode f = Binary) /\
    (if fin f then match fs with [] => Some (opcode f, payload f) | _ => None end
     else let! p := continues fs in Some (opcode f, payload f ++ p)) = Some (o, p))
    by (destruct (opcode f); naive_solver).
  clear Hs. destruct Hd as [Ho Hs].
  assert (Hrun : on_frame f ws = on_data f (set_awaiting_pong false ws))
    by (unfold on_frame; by destruct Ho as [-> | ->]).
  cbn [on_frames]. rewrite Hrun. unfold on_data. cbn [partial set_awaiting_pong]. rewrite Hp.
  assert (Hnp : opcode f <> Ping) by tauto.
  destruct (fin f) eqn:Hfin.
  { destruct fs; [|done]. injection Hs as <- <-. eapply outcome_deliver; try done.
    f_equal. destruct ws; cbn in *. by subst. }
  destruct (continues fs) as [q|] eqn:Hc; [|done]. injection Hs as <- <-.
  destruct (check_step (opcode f) (payload f) 0) as [Hbad Hk]; [split; [lia|done]|].
  destruct (if decide _ then _ else _) as [[] k']; cbn [fst snd] in *.
  - rewrite <- (after_data f) by done. eapply outcome_after, on_frames_continues; done.
  - destruct (Hbad eq_refl) as [Ht Hh]. by eapply outcome_hopeless.
Qed.

(** C35. However a message is fragmented, whatever pings and pongs come between
    the fragments and however the network cuts the bytes, [recv] on an open
    socket returns the whole message, having answered every ping in order with
    its own payload, and leaves the following bytes unread; text that is not
    UTF-8 closes the socket with status 1007 instead. *)
Theorem recv_reassembles ws fs o p rest :
  closed ws = false -> partial ws = None -> q_life (outgoing ws) = None ->
  delivering (reader ws) -> Forall (sendable Server (max_frame_size (config ws))) fs ->
  unread ws = wire fs ++ rest -> spells fs = Some (o, p) ->
  Z.of_nat (length p) <= max_message_size (config ws) ->
  match from_data o p with
  | Ok m => exists events buf,
      recv ws = (set_input events buf (delivered fs ws), Ready (Some m)) /\
      buf ++ stream events = rest
  | Err _ => exists ws', recv ws = (ws', Ready None) /\ refused ws ws'
  end.
Proof.
  intros Hopen Hp Hq Hd Hfs Hu Hs Hmax.
  pose proof (on_frames_spells fs ws o p Hp Hq Hs Hmax) as Hout. unfold outcome in Hout.
  destruct (from_data o p) as [m|e].
  - destruct (recv_loop_frames fs (S (length (unread ws))) ws (delivered fs ws) (Some m) [] rest)
      as (ev & buf & Hr & Hb & _); try done; [lia|]. by exists ev, buf.
  - destruct Hout as (ws' & rem & Hrun & Href).
    destruct (recv_loop_frames fs (S (length (unread ws))) ws ws' None rem rest)
      as (ev & buf & Hr & Hb & _); try done; [lia|]. by eexists.
Qed.

(** A text in two fragments around a ping, the bytes cut in the middle of the
    ping and of a character. *)
Definition example_key : Mask := {| m0 := 1; m1 := 2; m2 := 3; m3 := 4 |}.
Definition example_frames : list Frame :=
  [ {| fin := false; opcode := Text; mask := Some example_key; payload := [72; 195] |};
    client Ping (lit "x") example_key;
    {| fin := true; opcode := Continuation; mask := Some example_key; payload := [169] |} ].
Definition example_socket : WebSocket :=
  new [Chunk (take 7 (drop 3 (wire example_frames))); Chunk (drop 10 (wire example_frames) ++ [7])]
    (take 3 (wire example_frames)) None default_config.

Lemma recv_reassembles_witness :
  exists ws, recv example_socket = (ws, Ready (Some (MText [72; 195; 169]))) /\
    q_log (outgoing ws) = [MPong (lit "x")] /\ received ws = 1.
Proof.
  assert (H := recv_reassembles example_socket example_frames Text [72; 195; 169] [7]
    eq_refl eq_refl eq_refl).
  cbn [from_data] in H. change (utf8_valid [72; 195; 169]) with true in H.
  destruct H as (ev & buf & -> & _).
  - by repeat constructor.
  - repeat constructor; first [by apply (bool_decide_unpack _)|vm_compute; congruence].
  - reflexivity.
  - reflexivity.
  - vm_compute. congruence.
  - eexists. split; [reflexivity|]. split; reflexivity.
Defined.

(** ** The close handshake *)

Lemma on_frames_controls fs : forall ws tail,
  q_life (outgoing ws) = None -> Forall (fun f => opcode f = Ping \/ opcode f = Pong) fs ->
  exists a, on_frames (fs ++ tail) ws = on_frames tail (set_awaiting_pong a (say (pongs fs) ws)).
Proof.
  induction fs as [|f fs IH]; intros ws tail Hq Hfs.
  - exists (awaiting_pong ws). cbn [app pongs map concat]. rewrite say_nil by done. by destruct ws.
  - rewrite Forall_cons_iff in Hfs. destruct Hfs as [Hf Hfs]. cbn [app on_frames].
    rewrite control_step by done.
    destruct (IH (after f (partial ws) ws) tail eq_refl Hfs) as [a ->]. exists a. f_equal.
    unfold after, say, set_awaiting_pong, set_outgoing, set_partial, pongs. cbn.
    by rewrite <- app_assoc.
Qed.

(** A close from the peer, after any pings and pongs and even in the middle
    of a fragmented message, is answered with one close frame that echoes its
    status (1000 when it gave none), the socket is closed, and the peer's
    status is the one it reports (1005 when it gave none). *)
Theorem recv_close_handshake ws fs f peer rest :
  closed ws = false -> close_frame ws = None -> q_life (outgoing ws) = None ->
  delivering (reader ws) -> Forall (sendable Server (max_frame_size (config ws))) (fs ++ [f]) ->
  unread ws = wire (fs ++ [f]) ++ rest ->
  Forall (fun f => opcode f = Ping \/ opcode f = Pong) fs ->
  opcode f = Close -> parse_close (payload f) = Ok peer ->
  exists ws', recv ws = (ws', Ready None) /\ closed ws' = true /\
    q_log (outgoing ws') = q_log (outgoing ws) ++ pongs fs ++
      [MClose (Some (default {| cf_code := NORMAL; cf_reason := [] |} peer))] /\
    close_frame ws' = Some (default {| cf_code := NO_STATUS; cf_reason := [] |} peer).
Proof.
  intros Hopen Hcf Hq Hd Hfs Hu Hctl Ho Hp.
  destruct (on_frames_controls fs ws [f] Hq Hctl) as [a Hrun].
  cbn [on_frames] in Hrun. unfold on_frame in Hrun. rewrite Ho in Hrun.
  destruct (recv_loop_frames _ (S (length (unread ws))) ws _ _ _ rest ltac:(lia) Hopen Hfs Hd Hu Hrun)
    as (ev & buf & Hr & _). eexists. split; [exact Hr|]. unfold on_close. rewrite Hp.
  split; [done|]. cbn. split; [by rewrite <- app_assoc|]. rewrite Hcf. by destruct peer.
Qed.

Lemma recv_close_handshake_witness :
  exists ws, recv (new [Chunk (wire [client Close (to_be_bytes 2 1001) example_key])] [] None
                     default_config) = (ws, Ready None) /\
    q_log (outgoing ws) = [MClose (Some {| cf_code := 1001; cf_reason := [] |})].
Proof.
  destruct (recv_close_handshake
    (new [Chunk (wire [client Close (to_be_bytes 2 1001) example_key])] [] None default_config)
    [] (client Close (to_be_bytes 2 1001) example_key)
    (Some {| cf_code := 1001; cf_reason := [] |}) []) as (ws & Hr & _ & Hl & _);
    try reflexivity.
  - by repeat constructor.
  - repeat constructor; first [by apply (bool_decide_unpack _)|vm_compute; congruence].
  - by constructor.
  - by exists ws.
Defined.

(** ** Every call ends, and a waiting call can be resumed *)

(** The bytes a read uses up: a frame takes at least two. *)
Definition used_by (r : poll (result WsError (option Frame))) : nat :=
  match r with Ready (Ok (Some _)) => 2 | _ => 0 end.

Lemma read_loop_progress timed max events buf :
  let '(ev, b, r) := read_loop timed max events buf in
  (length (b ++ stream ev) + used_by r <= length (buf ++ stream events))%nat /\
  r <> OutOfFuel /\ (timed = false -> r <> TimedOut) /\ (r = Pending -> ev = []).
Proof.
  revert buf. induction events as [|e events IH]; intros buf; cbn [read_loop];
    destruct (decode buf Server max) as [[[f n]|]|err] eqn:E.
  1, 4: pose proof (decode_used _ _ _ _ _ E); assert (2 <= length buf)%nat
    by (destruct buf as [|? [|]]; simpl; try done; lia);
    rewrite !length_app, length_drop; cbn [used_by]; repeat split; (lia || done).
  all: rewrite ?length_app; cbn [used_by]; try (repeat split; (lia || done)).
  unfold stream in *. cbn [map concat]. rewrite length_app.
  destruct e as [[|c bs]|t|]; cbn [event_bytes length].
  - cbn [used_by]. rewrite !length_app. repeat split; (lia || done).
  - specialize (IH (buf ++ c :: bs)). destruct (read_loop _ _ _ _) as [[ev b] r].
    rewrite !length_app in *. cbn [length] in *. destruct IH as (? & ? & ? & ?).
    repeat split; (lia || done).
  - cbn [used_by]. rewrite !length_app. repeat split; (lia || done).
  - destruct timed.
    + cbn [used_by]. rewrite !length_app. repeat split; (lia || done).
    + specialize (IH buf). destruct (read_loop _ _ _ _) as [[ev b] r].
      rewrite !length_app in *. destruct IH as (? & ? & ? & ?). repeat split; (lia || done).
Qed.

Lemma read_frame_progress timed ws :
  let '(ws', r) := read_frame timed ws in
  (length (unread ws') + used_by r <= length (unread ws))%nat /\
  r <> OutOfFuel /\ (timed = false -> r <> TimedOut) /\ (r = Pending -> reader ws' = []).
Proof.
  unfold read_frame. assert (H := read_loop_progress timed (max_frame_size (config ws)) (reader ws) (buffer ws)).
  by destruct (read_loop _ _ _ _) as [[ev b] r].
Qed.

Lemma next_loop_S fuel ws :
  next_loop (S fuel) ws =
    match read_frame true ws with
    | (ws, TimedOut) =>
        if awaiting_pong ws then (ws, Ready (Err Idle))
        else match queue_send (MPing []) (outgoing ws) with
             | None => (set_awaiting_pong true ws, Ready (Ok None))
             | Some q => next_loop fuel (set_outgoing q (set_awaiting_pong true ws))
             end
    | done => done
    end.
Proof. done. Qed.

Lemma next_loop_progress n ws :
  awaiting_pong ws = true \/ (0 < n)%nat ->
  let '(ws', r) := next_loop (S n) ws in
  (length (unread ws') + used_by r <= length (unread ws))%nat /\
  r <> OutOfFuel /\ r <> TimedOut /\ (r = Pending -> reader ws' = []).
Proof.
  revert ws. induction n as [|n IH]; intros ws Hn; rewrite next_loop_S;
    pose proof (read_frame_progress true ws) as H; destruct (read_frame true ws) as [ws1 r] eqn:Er;
    destruct H as (H1 & H2 & _ & H3); destruct r as [r| | |]; try (by repeat split);
    assert (Ha : awaiting_pong ws1 = awaiting_pong ws)
      by (unfold read_frame in Er; destruct (read_loop _ _ _ _) as [[? ?] ?]; by simplify_eq).
  - destruct Hn as [Hn|]; [|lia]. rewrite Ha, Hn. by repeat split.
  - destruct (awaiting_pong ws1); [by repeat split|].
    destruct (queue_send _ _) as [q|]; [|by repeat split].
    specialize (IH (set_outgoing q (set_awaiting_pong true ws1)) (or_introl eq_refl)).
    destruct (next_loop (S n) _) as [ws2 r2]. cbn [used_by] in H1.
    assert (Hu : unread (set_outgoing q (set_awaiting_pong true ws1)) = unread ws1) by done.
    rewrite Hu in IH. destruct IH as (? & ? & ? & ?). repeat split; (lia || done).
Qed.

Lemma next_frame_progress ws :
  let '(ws', r) := next_frame ws in
  (length (unread ws') + used_by r <= length (unread ws))%nat /\
  r <> OutOfFuel /\ r <> TimedOut /\ (r = Pending -> reader ws' = []).
Proof.
  unfold next_frame. destruct (idle_timeout (config ws)).
  - apply next_loop_progress. lia.
  - pose proof (read_frame_progress false ws) as H. destruct (read_frame false ws) as [ws1 r].
    destruct H as (? & ? & ? & ?). repeat split; auto.
Qed.

Lemma set_input_id ws : set_input (reader ws) (buffer ws) ws = ws.
Proof. by destruct ws. Qed.

Lemma on_frame_unread f ws :
  reader (on_frame f ws).1 = reader ws /\ buffer (on_frame f ws).1 = buffer ws.
Proof. rewrite <- (set_input_id ws) at 1 3. by rewrite on_frame_input. Qed.

Lemma recv_loop_S fuel ws :
  recv_loop (S fuel) ws =
    if closed ws then (ws, Ready None)
    else match next_frame ws with
         | (ws, Ready (Ok (Some frame))) =>
             match on_frame frame ws with
             | (ws, Return m) => (ws, Ready m)
             | (ws, Again) => recv_loop fuel ws
             end
         | (ws, Ready (Ok None)) => (mark_closed (Some abnormal) ws, Ready None)
         | (ws, Ready (Err error)) => (fail error ws, Ready None)
         | (ws, Pending) => (ws, Pending)
         | (ws, TimedOut) => (ws, TimedOut)
         | (ws, OutOfFuel) => (ws, OutOfFuel)
         end.
Proof. done. Qed.

(** A round that goes on has used up bytes. *)
Lemma round_shrinks ws ws1 f ws2 :
  next_frame ws = (ws1, Ready (Ok (Some f))) -> on_frame f ws1 = (ws2, Again) ->
  (length (unread ws2) < length (unread ws))%nat.
Proof.
  intros Hn Hf. pose proof (next_frame_progress ws) as H. rewrite Hn in H. cbn [used_by] in H.
  pose proof (on_frame_unread f ws1) as [H1 H2]. rewrite Hf in H1, H2. cbn [fst] in H1, H2.
  unfold unread in *. rewrite H1, H2. lia.
Qed.

Lemma recv_loop_fuel n m ws :
  (length (unread ws) < n)%nat -> (length (unread ws) < m)%nat -> recv_loop n ws = recv_loop m ws.
Proof.
  revert m ws. induction n as [|n IH]; intros m ws Hn Hm; [lia|]. destruct m as [|m]; [lia|].
  rewrite !recv_loop_S. destruct (closed ws); [done|].
  destruct (next_frame ws) as [ws1 [[[f|]|]| | |]] eqn:En; try done.
  destruct (on_frame f ws1) as [ws2 []] eqn:Ef; [done|].
  pose proof (round_shrinks _ _ _ _ En Ef). apply IH; lia.
Qed.

Lemma recv_loop_ends n ws :
  (length (unread ws) < n)%nat ->
  exists ws' r, recv_loop n ws = (ws', r) /\
    ((r = Pending /\ reader ws' = []) \/ exists m, r = Ready m).
Proof.
  revert ws. induction n as [|n IH]; intros ws Hn; [lia|]. rewrite recv_loop_S.
  destruct (closed ws); [by eauto 6|]. pose proof (next_frame_progress ws) as H.
  destruct (next_frame ws) as [ws1 [[[f|]|]| | |]] eqn:En; try (by eauto 6); try naive_solver.
  destruct (on_frame f ws1) as [ws2 []] eqn:Ef; [by eauto 6|].
  pose proof (round_shrinks _ _ _ _ En Ef). apply IH. lia.
Qed.

(** More events for the reader. *)
Definition feed (more : list ReadEvent) (ws : WebSocket) : WebSocket :=
  set_input (reader ws ++ more) (buffer ws) ws.

Lemma read_loop_feed timed max events buf more :
  let '(ev, b, r) := read_loop timed max events buf in
  read_loop timed max (events ++ more) buf =
    match r with
    | Pending => read_loop timed max (ev ++ more) b
    | _ => (ev ++ more, b, r)
    end.
Proof.
  revert buf. induction events as [|e events IH]; intros buf.
  - cbn [app read_loop]. destruct (decode buf Server max) as [[[f n]|]|err] eqn:E; [|done|];
      destruct more; cbn [read_loop]; by rewrite E.
  - cbn [app read_loop]. destruct (decode buf Server max) as [[[f n]|]|err] eqn:E; try done.
    destruct e as [[|c bs]|t|]; try done; [apply IH|]. destruct timed; [done|apply IH].
Qed.

Lemma read_frame_feed timed ws more :
  let '(ws', r) := read_frame timed ws in
  read_frame timed (feed more ws) =
    match r with
    | Pending => read_frame timed (feed more ws')
    | _ => (feed more ws', r)
    end.
Proof.
  unfold read_frame. cbn [reader buffer config feed set_input].
  assert (H := read_loop_feed timed (max_frame_size (config ws)) (reader ws) (buffer ws) more).
  destruct (read_loop _ _ (reader ws) _) as [[ev b] r] eqn:E. cbn [reader buffer set_input].
  rewrite H. by destruct r.
Qed.

Lemma read_frame_awaiting timed ws :
  awaiting_pong (read_frame timed ws).1 = awaiting_pong ws.
Proof. unfold read_frame. by destruct (read_loop _ _ _ _) as [[ev b] r]. Qed.

Lemma next_loop_awaiting n m ws :
  awaiting_pong ws = true -> next_loop (S n) ws = next_loop (S m) ws.
Proof.
  intros Ha. rewrite !next_loop_S. pose proof (read_frame_awaiting true ws) as H.
  destruct (read_frame true ws) as [ws1 []]; try done. cbn [fst] in H. by rewrite H, Ha.
Qed.

Lemma next_loop_keeps_awaiting n ws :
  awaiting_pong ws = true -> awaiting_pong (next_loop n ws).1 = true.
Proof.
  intros Ha. destruct n as [|n]; [done|]. rewrite next_loop_S.
  pose proof (read_frame_awaiting true ws) as H.
  destruct (read_frame true ws) as [ws1 []]; cbn [fst] in *; try (by rewrite H).
  by rewrite H, Ha; cbn [fst]; rewrite H.
Qed.

Lemma next_loop_feed n ws more :
  let '(ws', r) := next_loop (S n) ws in
  r <> OutOfFuel ->
  next_loop (S n) (feed more ws) =
    match r with
    | Pending => next_loop (S n) (feed more ws')
    | _ => (feed more ws', r)
    end.
Proof.
  revert ws. induction n as [|n IH]; intros ws; rewrite (next_loop_S _ ws), (next_loop_S _ (feed more ws));
    pose proof (read_frame_feed true ws more) as H; destruct (read_frame true ws) as [ws1 r] eqn:Er;
    destruct r as [r| | |]; rewrite H; try done.
  - cbn [awaiting_pong feed set_input outgoing]. destruct (awaiting_pong ws1); [done|].
    by destruct (queue_send _ _).
  - cbn [awaiting_pong feed set_input outgoing set_awaiting_pong].
    destruct (awaiting_pong ws1) eqn:Ha; [done|].
    destruct (queue_send _ _) as [q|]; [|done].
    set (ws2 := set_outgoing q (set_awaiting_pong true ws1)).
    change (set_outgoing q (set_awaiting_pong true (feed more ws1)))
      with (feed more ws2).
    specialize (IH ws2). pose proof (next_loop_keeps_awaiting (S n) ws2 eq_refl) as Hk.
    destruct (next_loop (S n) ws2) as [ws3 r3]. cbn [fst] in Hk. intros Hr. rewrite (IH Hr).
    destruct r3; try done. by apply next_loop_awaiting.
Qed.

(** Reading changes the input, the queue and the idle flag, nothing else. *)
Definition keeps (ws ws' : WebSocket) : Prop :=
  config ws' = config ws /\ closed ws' = closed ws /\ partial ws' = partial ws /\
  close_frame ws' = close_frame ws /\ received ws' = received ws.

Lemma read_frame_keeps timed ws : keeps ws (read_frame timed ws).1.
Proof. unfold read_frame. by destruct (read_loop _ _ _ _) as [[ev b] r]. Qed.

Lemma next_loop_keeps n ws : keeps ws (next_loop n ws).1.
Proof.
  revert ws. induction n as [|n IH]; intros ws; [done|].
  rewrite next_loop_S. pose proof (read_frame_keeps true ws) as Hw.
  destruct (read_frame true ws) as [ws1 []]; cbn [fst] in *; try done.
  destruct (awaiting_pong ws1); [done|]. destruct (queue_send _ _) as [q|]; [|done].
  destruct (IH (set_outgoing q (set_awaiting_pong true ws1))) as (? & ? & ? & ? & ?).
  unfold keeps in *. cbn in *. naive_solver congruence.
Qed.

Lemma next_frame_keeps ws : keeps ws (next_frame ws).1.
Proof.
  unfold next_frame. destruct (idle_timeout (config ws)); [apply next_loop_keeps|].
  apply read_frame_keeps.
Qed.

Lemma next_frame_feed ws more :
  let '(ws', r) := next_frame ws in
  next_frame (feed more ws) =
    match r with
    | Pending => next_frame (feed more ws')
    | _ => (feed more ws', r)
    end.
Proof.
  unfold next_frame. change (config (feed more ws)) with (config ws).
  pose proof (next_loop_progress 1 ws ltac:(lia)) as Hp.
  pose proof (next_loop_feed 1 ws more) as Hl. pose proof (read_frame_feed false ws more) as Hr.
  pose proof (next_loop_keeps 2 ws) as (Hc1 & _). pose proof (read_frame_keeps false ws) as (Hc2 & _).
  destruct (idle_timeout (config ws)) as [t|] eqn:Ei.
  - destruct (next_loop 2 ws) as [ws' r]. cbn [fst] in Hc1. rewrite Hl by apply Hp.
    change (config (feed more ws')) with (config ws'). by rewrite Hc1, Ei.
  - destruct (read_frame false ws) as [ws' r]. cbn [fst] in Hc2. rewrite Hr.
    change (config (feed more ws')) with (config ws'). by rewrite Hc2, Ei.
Qed.

Lemma fail_feed e ws more : fail e (feed more ws) = feed more (fail e ws).
Proof.
  unfold feed. rewrite fail_input. unfold fail, queue_send_ignored.
  by destruct (queue_send _ (outgoing ws)).
Qed.

Lemma on_frame_feed f ws more :
  on_frame f (feed more ws) = (feed more (on_frame f ws).1, (on_frame f ws).2).
Proof.
  unfold feed. rewrite on_frame_input. pose proof (on_frame_unread f ws) as [-> ->]. done.
Qed.

Lemma unread_feed ws more : length (unread (feed more ws)) = (length (unread ws) + length (stream more))%nat.
Proof. unfold unread, feed, stream. cbn. by rewrite map_app, concat_app, !length_app, Nat.add_assoc. Qed.

Lemma recv_loop_feed n m k ws more :
  (length (unread ws) < n)%nat -> (length (unread (feed more ws)) < m)%nat ->
  let '(ws', r) := recv_loop n ws in
  match r with
  | Pending => (length (unread (feed more ws')) < k)%nat ->
               recv_loop m (feed more ws) = recv_loop k (feed more ws')
  | _ => recv_loop m (feed more ws) = (feed more ws', r)
  end.
Proof.
  revert m ws. induction n as [|n IH]; intros m ws Hn Hm; [lia|]. destruct m as [|m]; [lia|].
  rewrite !recv_loop_S. change (closed (feed more ws)) with (closed ws).
  destruct (closed ws) eqn:Hcl; [done|].
  pose proof (next_frame_feed ws more) as Hf. pose proof (next_frame_progress ws) as Hp.
  destruct (next_frame ws) as [ws1 r] eqn:En. rewrite Hf.
  destruct r as [[[f|]|e]| | |]; try done.
  - rewrite on_frame_feed. destruct (on_frame f ws1) as [ws2 []] eqn:Ef; cbn [fst snd]; [done|].
    pose proof (round_shrinks _ _ _ _ En Ef). rewrite unread_feed in Hm.
    apply IH; rewrite ?unread_feed; lia.
  - by rewrite fail_feed.
  - intros Hk. assert (Hc : closed (feed more ws1) = false).
    { pose proof (next_frame_keeps ws) as (_ & Hk' & _). rewrite En in Hk'. by rewrite <- Hcl. }
    rewrite <- (recv_loop_fuel (S m) k); [|rewrite unread_feed in *; cbn [used_by] in Hp; lia|done].
    rewrite recv_loop_S, Hc. done.
Qed.

(** A call to [recv] always ends with an answer or waiting for the peer with
    every event used, and cancelling a waiting call loses nothing: calling again
    when more has arrived gives what one uninterrupted call would have given.
    An answer does not depend on what arrives later. *)
Theorem recv_resumable ws more :
  let '(ws', r) := recv ws in
  match r with
  | Ready m => recv (feed more ws) = (feed more ws', Ready m)
  | Pending => reader ws' = [] /\ recv (feed more ws) = recv (feed more ws')
  | TimedOut | OutOfFuel => False
  end.
Proof.
  unfold recv. destruct (recv_loop_ends (S (length (unread ws))) ws ltac:(lia)) as (ws' & r & E & Hr).
  pose proof (recv_loop_feed (S (length (unread ws))) (S (length (unread (feed more ws))))
    (S (length (unread (feed more ws')))) ws more ltac:(lia) ltac:(lia)) as H.
  rewrite E in *. destruct r; try naive_solver lia.
Qed.

(** ** Size limits *)

(** What a socket buffers of an unfinished message is within its limits. *)
Definition limit (cfg : WebSocketConfig) : Z := Z.max (max_frame_size cfg) (max_message_size cfg).
Definition bounded (ws : WebSocket) : Prop :=
  match partial ws with
  | Some (_, acc, _) => Z.of_nat (length acc) <= limit (config ws)
  | None => True
  end.

Definition small (cfg : WebSocketConfig) (m : option Message) : Prop :=
  match m with
  | Some m => is_data m = true /\ Z.of_nat (length (as_bytes m)) <= limit cfg
  | None => True
  end.

Lemma fail_keeps e ws : partial (fail e ws) = partial ws /\ config (fail e ws) = config ws.
Proof. unfold fail, queue_send_ignored. by destruct (queue_send _ _). Qed.

Lemma bounded_same ws ws' :
  partial ws' = partial ws -> config ws' = config ws -> bounded ws -> bounded ws'.
Proof. unfold bounded. by intros -> ->. Qed.

Lemma deliver_small o p ws :
  Z.of_nat (length p) <= limit (config ws) ->
  small (config ws) (deliver o p ws).2 /\ config (deliver o p ws).1 = config ws /\
  partial (deliver o p ws).1 = partial ws.
Proof.
  intros Hp. unfold deliver. destruct (from_data o p) as [m|e] eqn:E; cbn [fst snd].
  - split; [|done]. destruct o; cbn in E; try done; [destruct (utf8_valid p); [|done]|];
      injection E as <-; done.
  - destruct (fail_keeps e ws). done.
Qed.

Definition flow_small (cfg : WebSocketConfig) (r : flow) : Prop :=
  match r with Return m => small cfg m | Again => True end.

Lemma on_frame_small f ws :
  Z.of_nat (length (payload f)) <= max_frame_size (config ws) -> bounded ws ->
  let '(ws', r) := on_frame f ws in
  bounded ws' /\ config ws' = config ws /\ flow_small (config ws) r.
Proof.
  intros Hf Hb.
  assert (Hfail : forall e w, partial w = None \/ partial w = partial ws -> config w = config ws ->
    bounded (fail e w) /\ config (fail e w) = config ws /\ flow_small (config ws) (Return None)).
  { intros e w Hp Hc. destruct (fail_keeps e w) as [H1 H2]. unfold bounded. rewrite H1, H2, Hc.
    destruct Hp as [-> | ->]; done. }
  assert (Hdel : forall o p w, partial w = None -> config w = config ws ->
    Z.of_nat (length p) <= limit (config ws) ->
    let '(ws', r) := returning (deliver o p w) in
    bounded ws' /\ config ws' = config ws /\ flow_small (config ws) r).
  { intros o p w Hp Hc Hl. rewrite <- Hc in Hl |- *. destruct (deliver_small o p w Hl) as (H1 & H2 & H3).
    unfold returning, bounded. by rewrite H3, Hp. }
  assert (Hlim : max_frame_size (config ws) <= limit (config ws) /\
    max_message_size (config ws) <= limit (config ws)) by (unfold limit; lia).
  unfold on_frame. destruct (opcode f).
  - unfold on_continuation. cbn [partial set_awaiting_pong set_partial config].
    destruct (partial ws) as [[[o acc] k]|] eqn:Hp; [|by apply Hfail; auto].
    destruct (Z.ltb_spec (max_message_size (config ws))
      (Z.of_nat (length acc) + Z.of_nat (length (payload f)))); [by apply Hfail; auto|].
    assert (Z.of_nat (length (acc ++ payload f)) <= limit (config ws)) by (rewrite length_app; lia).
    destruct (fin f); [by apply Hdel|].
    destruct (if decide _ then _ else _) as [[] k']; [done|by apply Hfail; auto].
  - unfold on_data. cbn [partial set_awaiting_pong]. destruct (partial ws) eqn:Hp; [by apply Hfail; auto|].
    destruct (fin f); [apply Hdel; (done || lia)|].
    destruct (if decide _ then _ else _) as [[] k']; [|by apply Hfail; auto].
    split; [unfold bounded; cbn; lia|done].
  - unfold on_data. cbn [partial set_awaiting_pong]. destruct (partial ws) eqn:Hp; [by apply Hfail; auto|].
    destruct (fin f); [apply Hdel; (done || lia)|].
    destruct (if decide _ then _ else _) as [[] k']; [|by apply Hfail; auto].
    split; [unfold bounded; cbn; lia|done].
  - unfold on_close. destruct (parse_close (payload f)); [|by apply Hfail; auto].
    unfold queue_send_ignored, bounded in *. by destruct (queue_send _ _).
  - unfold on_ping. by destruct (queue_send _ _).
  - done.
Qed.

Lemma read_loop_size timed max events buf ev b f :
  read_loop timed max events buf = (ev, b, Ready (Ok (Some f))) -> Z.of_nat (length (payload f)) <= max.
Proof.
  revert buf. induction events as [|e events IH]; intros buf; cbn [read_loop];
    destruct (decode buf Server max) as [[[g n]|]|err] eqn:E; try done.
  1, 2: intros [= <- <- <-]; by eapply decode_size.
  destruct e as [[|c bs]|t|]; try done; [apply IH|]. destruct timed; [done|apply IH].
Qed.

Lemma next_frame_size ws ws' f :
  next_frame ws = (ws', Ready (Ok (Some f))) ->
  Z.of_nat (length (payload f)) <= max_frame_size (config ws).
Proof.
  assert (Hread : forall t ws ws', read_frame t ws = (ws', Ready (Ok (Some f))) ->
    Z.of_nat (length (payload f)) <= max_frame_size (config ws)).
  { intros t w w'. unfold read_frame. destruct (read_loop _ _ _ _) as [[ev b] r] eqn:E.
    intros [= <- ->]. by eapply read_loop_size. }
  unfold next_frame. destruct (idle_timeout (config ws)); [|apply Hread].
  generalize 2%nat as n. intros n. revert ws.
  induction n as [|n IH]; intros ws; [done|]. rewrite next_loop_S.
  pose proof (read_frame_keeps true ws) as (Hc & _).
  destruct (read_frame true ws) as [ws1 []] eqn:E; cbn [fst] in Hc; try done.
  { intros [= -> ->]. by eapply Hread. }
  destruct (awaiting_pong ws1); [done|]. destruct (queue_send _ _); [|done].
  intros H%IH. cbn in H. by rewrite Hc in H.
Qed.

Lemma recv_loop_small n ws :
  bounded ws ->
  let '(ws', r) := recv_loop n ws in
  bounded ws' /\ config ws' = config ws /\
  match r with Ready m => small (config ws) m | _ => True end.
Proof.
  revert ws. induction n as [|n IH]; intros ws Hb; [done|]. rewrite recv_loop_S.
  destruct (closed ws); [done|]. pose proof (next_frame_keeps ws) as (Hc & _ & Hp & _).
  destruct (next_frame ws) as [ws1 [[[f|]|e]| | |]] eqn:E; cbn [fst] in Hc, Hp;
    pose proof (bounded_same _ _ Hp Hc Hb) as Hb1; try done.
  - apply next_frame_size in E. rewrite <- Hc in E.
    pose proof (on_frame_small f ws1 E Hb1) as H.
    destruct (on_frame f ws1) as [ws2 [m|]]; destruct H as (H1 & H2 & H3).
    + by rewrite H2, <- Hc.
    + specialize (IH ws2 H1). destruct (recv_loop n ws2) as [ws3 r3].
      by rewrite H2, Hc in IH.
  - destruct (fail_keeps e ws1) as [H1 H2]. split; [by eapply bounded_same|]. by rewrite H2.
Qed.

(** Whatever the peer sends, what a socket buffers of an unfinished message
    and every message it delivers stay within the larger of the two size
    limits, and only text and binary messages come out. *)
Theorem recv_bounded ws :
  bounded ws ->
  let '(ws', r) := recv ws in
  bounded ws' /\ config ws' = config ws /\
  match r with Ready m => small (config ws) m | _ => True end.
Proof. apply recv_loop_small. Qed.

Lemma recv_bounded_witness :
  bounded example_socket /\ bounded (recv example_socket).1.
Proof.
  assert (Hb : bounded example_socket) by exact I. split; [exact Hb|].
  assert (H := recv_bounded example_socket Hb). destruct (recv example_socket). apply H.
Defined.

(** ** The wire *)

(** The messages up to the first close, that one included. *)
Fixpoint until_close (ms : list Message) : list Message :=
  match ms with
  | [] => []
  | m :: ms => if is_close m then [m] else m :: until_close ms
  end.

(** The writer puts whole frames on the wire in queue order, one after the
    other, and nothing after a close frame: whatever the writes do, what the
    peer sees is a prefix of the frames of the messages up to the first close,
    and all of them when no write fails. *)
Theorem wire_is_ordered queue writes :
  (exists rest, wire (map into_frame (until_close queue)) = (write_loop queue writes).1 ++ rest) /\
  ((length queue <= length writes)%nat -> Forall (fun w => w = Written) writes ->
     (write_loop queue writes).1 = wire (map into_frame (until_close queue))).
Proof.
  unfold wire. revert writes. induction queue as [|m queue IH]; intros writes.
  { destruct writes; (split; [by exists []|done]). }
  cbn [until_close]. destruct writes as [|w writes].
  { split; [by eexists|]. cbn. lia. }
  destruct w as [|k]; cbn [write_loop].
  - destruct (IH writes) as [[rest Hr] Hall]. destruct (is_close m) eqn:Hc; cbn [map concat fst].
    + rewrite app_nil_r. split; [by exists []; rewrite app_nil_r|done].
    + destruct (write_loop queue writes) as [wr left']. cbn [fst] in *. split.
      * exists rest. by rewrite Hr, app_assoc.
      * intros Hl Hw. rewrite Forall_cons_iff in Hw. cbn [length] in Hl.
        rewrite Hall; [done|lia|tauto].
  - split.
    + exists (drop k (encode (into_frame m)) ++
              if is_close m then [] else concat (map encode (map into_frame (until_close queue)))).
      cbn [fst]. rewrite app_assoc, take_drop.
      destruct (is_close m); cbn [map concat]; by rewrite ?app_nil_r.
    + intros _ Hw. rewrite Forall_cons_iff in Hw. by destruct Hw.
Qed.

Lemma wire_is_ordered_witness :
  (write_loop [MText (lit "a"); MClose None; MText (lit "b")] [Written; Written; Written]).1 =
  [129; 1; 97; 136; 0].
Proof.
  rewrite (proj2 (wire_is_ordered _ _)); [reflexivity|cbn; lia|by repeat constructor].
Defined.

End WsConnection.
