(* ===== verification/Resp.v ===== *)
(** * The Redis protocol ([rustlavel-cache/src/redis/resp.rs])

    RESP2 values, their encoding, the command encoder and the incremental
    decoder, with the proofs that a reply is read back exactly, that a partial
    reply is recognised as such, and that a command can never be misread. *)

From S2P Require Import Prelude Text.

Module Resp.

Definition MAX_BULK : Z := 512 * 1024 * 1024.
Definition MAX_DEPTH : nat := 32.

Inductive Value :=
  | Simple (s : list Z)
  | Error (s : list Z)
  | Integer (n : Z)
  | Bulk (b : list Z)
  | Nil
  | Array (items : list Value).

(** The only error constructor the module builds is [Error::Protocol]; an error
    reply turned into a Rust error is [Error::msg]. [UnknownType] is the
    protocol error whose message names an unknown type byte. *)
Inductive RespError :=
  | ProtocolError (message : list Z)
  | UnknownType (tag : Z)
  | Msg (message : list Z).

Definition protocol (message : list Z) : RespError := ProtocolError (lit "RESP: " ++ message).

(** ** Accessors *)

Definition as_str (v : Value) : option (list Z) :=
  match v with
  | Simple s => Some s
  | Bulk b => if utf8_valid b then Some b else None
  | _ => None
  end.

Definition as_bytes (v : Value) : option (list Z) :=
  match v with
  | Simple s => Some s
  | Bulk b => Some b
  | _ => None
  end.

Definition as_i64 (v : Value) : option Z :=
  match v with
  | Integer n => Some n
  | Simple s => parse_i64 (trim s)
  | Bulk b => if utf8_valid b then parse_i64 (trim b) else None
  | _ => None
  end.

Definition is_nil (v : Value) : bool := match v with Nil => true | _ => false end.

Definition into_result (v : Value) : result RespError Value :=
  match v with
  | Error message => Err (Msg (lit "redis: " ++ message))
  | other => Ok other
  end.

(** ** Encoding *)

Definition crlf : list Z := [13; 10].

Definition len_line (tag : Z) (n : nat) : list Z := tag :: dec (Z.of_nat n) ++ crlf.

Fixpoint encode (v : Value) : list Z :=
  match v with
  | Simple s => 43 :: s ++ crlf
  | Error s => 45 :: s ++ crlf
  | Integer n => 58 :: dec n ++ crlf
  | Bulk b => len_line 36 (length b) ++ b ++ crlf
  | Nil => lit "$-1" ++ crlf
  | Array items => len_line 42 (length items) ++ concat (map encode items)
  end.

Definition encode_command (args : list (list Z)) : list Z :=
  len_line 42 (length args) ++
  concat (map (fun arg => len_line 36 (length arg) ++ arg ++ crlf) args).

(** ** Decoding *)

(** [read_line]: the bytes before the first CRLF, and what follows it. The
    source returns the index just past the CRLF; here the decoder is handed the
    rest of the input instead of an index into it. *)
Fixpoint read_line (input : list Z) : option (list Z * list Z) :=
  match input with
  | a :: ((b :: rest) as tl) =>
      if (a =? 13) && (b =? 10) then Some ([], rest)
      else match read_line tl with
           | Some (line, rest) => Some (a :: line, rest)
           | None => None
           end
  | _ => None
  end.

Definition to_text (line : list Z) : result RespError (list Z) :=
  if utf8_valid line then Ok line
  else Err (protocol (lit "a status or error reply was not valid UTF-8")).

(** [String::from_utf8_lossy] only shapes the message, so the message carries
    the bytes themselves. *)
Definition parse_int (line : list Z) : result RespError Z :=
  match (if utf8_valid line then parse_i64 (trim line) else None) with
  | Some n => Ok n
  | None => Err (protocol (lit "`" ++ line ++ lit "` is not a RESP integer"))
  end.

(** The [for _ in 0..count] loop of an array: decode [count] items, stopping at
    the first that is incomplete. *)
Fixpoint decode_items (decode_one : list Z -> result RespError (option (Value * list Z)))
    (count : nat) (input : list Z) : result RespError (option (list Value * list Z)) :=
  match count with
  | O => Ok (Some ([], input))
  | S count =>
      let? item := decode_one input in
      match item with
      | None => Ok None
      | Some (v, rest) =>
          let? items := decode_items decode_one count rest in
          match items with
          | None => Ok None
          | Some (vs, rest) => Ok (Some (v :: vs, rest))
          end
      end
  end.

(** [decode_at], on the input from [from] on. [fuel] is the nesting still
    allowed, so [depth > MAX_DEPTH] is fuel running out. *)
Fixpoint decode_at (fuel : nat) (input : list Z) : result RespError (option (Value * list Z)) :=
  match fuel with
  | O => Err (protocol (lit "reply nests deeper than this client will follow"))
  | S fuel =>
  match input with
  | [] => Ok None
  | tag :: input =>
  match read_line input with
  | None => Ok None
  | Some (line, rest) =>
      if tag =? 43 then let? t := to_text line in Ok (Some (Simple t, rest))
      else if tag =? 45 then let? t := to_text line in Ok (Some (Error t, rest))
      else if tag =? 58 then let? n := parse_int line in Ok (Some (Integer n, rest))
      else if tag =? 36 then
        let? len := parse_int line in
        if len <? 0 then Ok (Some (Nil, rest))
        else if MAX_BULK <? len then
          Err (protocol (lit "bulk reply of " ++ dec len ++ lit " bytes is implausible"))
        else let len := Z.to_nat len in
        if (length rest <? len + 2)%nat then Ok None
        else Ok (Some (Bulk (take len rest), drop (len + 2) rest))
      else if tag =? 42 then
        let? count := parse_int line in
        if count <? 0 then Ok (Some (Nil, rest))
        else if MAX_BULK <? count then
          Err (protocol (lit "array reply of " ++ dec count ++ lit " items is implausible"))
        else
        let? items := decode_items (decode_at fuel) (Z.to_nat count) rest in
        match items with
        | None => Ok None
        | Some (vs, rest) => Ok (Some (Array vs, rest))
        end
      else Err (UnknownType tag)
  end
  end
  end.

(** [decode]: the value at the front of the input and how many bytes it took. *)
Definition decode (input : list Z) : result RespError (option (Value * nat)) :=
  let? r := decode_at (S MAX_DEPTH) input in
  match r with
  | None => Ok None
  | Some (v, rest) => Ok (Some (v, (length input - length rest)%nat))
  end.

(** ** Well-formed values *)

Fixpoint no_crlf (l : list Z) : bool :=
  match l with
  | a :: ((b :: _) as tl) => negb ((a =? 13) && (b =? 10)) && no_crlf tl
  | _ => true
  end.

(** What a server can send and this client accepts: text lines without a line
    break, 64-bit integers, and sizes within the plausibility limit. *)
Fixpoint wf (v : Value) : bool :=
  match v with
  | Simple s | Error s => utf8_valid s && no_crlf s
  | Integer n => (i64_min <=? n) && (n <=? i64_max)
  | Bulk b => Z.of_nat (length b) <=? MAX_BULK
  | Nil => true
  | Array items => (Z.of_nat (length items) <=? MAX_BULK) && forallb wf items
  end.

Fixpoint depth (v : Value) : nat :=
  match v with
  | Array items => S (list_max (map depth items))
  | _ => O
  end.

(** ** Lines *)

Lemma no_crlf_visible l : Forall visible l -> no_crlf l = true.
Proof.
  induction 1 as [|a l Ha Hl IH]; [done|]. destruct l as [|b l]; [done|].
  cbn [no_crlf] in *. rewrite IH. unfold visible in Ha.
  rewrite (proj2 (Z.eqb_neq a 13)) by lia. done.
Qed.

Lemma read_line_cons a b tl :
  read_line (a :: b :: tl) =
  if (a =? 13) && (b =? 10) then Some ([], tl)
  else match read_line (b :: tl) with
       | Some (line, rest) => Some (a :: line, rest)
       | None => None
       end.
Proof. done. Qed.

Lemma read_line_app l rest : no_crlf l = true -> read_line (l ++ crlf ++ rest) = Some (l, rest).
Proof.
  induction l as [|a l IH]; intros H; [done|]. cbn [app].
  destruct (l ++ crlf ++ rest) as [|b tl] eqn:E; [by destruct l|]. rewrite read_line_cons.
  assert (Hab : (a =? 13) && (b =? 10) = false).
  { destruct l as [|b' l]; [injection E as <- _; by destruct (a =? 13)|].
    injection E as -> _. cbn [no_crlf] in H. by destruct ((a =? 13) && (b =? 10)). }
  rewrite Hab. rewrite IH; [done|]. destruct l; [done|]. cbn [no_crlf] in H.
  by apply andb_true_iff in H as [_ H].
Qed.

Lemma read_line_mono input more line rest :
  read_line input = Some (line, rest) -> read_line (input ++ more) = Some (line, rest ++ more).
Proof.
  revert line. induction input as [|a tl IH]; intros line H; [done|].
  destruct tl as [|b tl]; [done|]. cbn [app] in *. rewrite read_line_cons in *.
  destruct ((a =? 13) && (b =? 10)); [by simplify_eq|].
  destruct (read_line (b :: tl)) as [[l r]|]; [|done].
  injection H as <- <-. by rewrite (IH l).
Qed.

Lemma parse_int_dec_line n : i64_min <= n <= i64_max -> parse_int (dec n) = Ok n.
Proof.
  intros Hn. unfold parse_int. rewrite utf8_valid_ascii.
  - by rewrite trim_visible, parse_i64_dec by (done || apply dec_visible).
  - eapply Forall_impl; [|apply dec_visible]. unfold visible. simpl. lia.
Qed.

Lemma len_line_read tag n rest :
  Z.of_nat n <= MAX_BULK ->
  exists line, len_line tag n ++ rest = tag :: line ++ crlf ++ rest /\
    read_line (line ++ crlf ++ rest) = Some (line, rest) /\ parse_int line = Ok (Z.of_nat n).
Proof.
  intros Hn. exists (dec (Z.of_nat n)). unfold len_line. rewrite <- app_comm_cons, <- app_assoc.
  split; [done|]. split.
  - apply read_line_app, no_crlf_visible, dec_visible.
  - apply parse_int_dec_line. unfold MAX_BULK, i64_min, i64_max in *. lia.
Qed.

(** ** Round trip *)

Lemma decode_items_app dec1 items rest :
  Forall (fun v => forall rest, dec1 (encode v ++ rest) = Ok (Some (v, rest))) items ->
  decode_items dec1 (length items) (concat (map encode items) ++ rest) = Ok (Some (items, rest)).
Proof.
  induction 1 as [|v items Hv _ IH]; [done|]. cbn [length decode_items map concat].
  by rewrite <- app_assoc, Hv, IH.
Qed.

Lemma decode_at_encode fuel v rest :
  wf v = true -> (depth v < fuel)%nat -> decode_at fuel (encode v ++ rest) = Ok (Some (v, rest)).
Proof.
  revert v rest. induction fuel as [|fuel IH]; intros v rest Hwf Hd; [lia|].
  destruct v as [s|s|n|b| |items]; cbn [wf] in Hwf.
  1,2: apply andb_true_iff in Hwf as [Hu Hc]; cbn [encode];
    rewrite <- app_comm_cons, <- app_assoc; cbn [decode_at];
    rewrite read_line_app by done; unfold to_text; cbn [Z.eqb Pos.eqb]; by rewrite Hu.
  - cbn [encode]. rewrite <- app_comm_cons, <- app_assoc. cbn [decode_at].
    rewrite read_line_app by (apply no_crlf_visible, dec_visible). cbn [Z.eqb Pos.eqb].
    by rewrite parse_int_dec_line by lia.
  - cbn [encode]. rewrite <- app_assoc.
    destruct (len_line_read 36 (length b) ((b ++ crlf) ++ rest) ltac:(lia)) as (line & -> & Hl & Hp).
    cbn [decode_at]. rewrite Hl. cbn [Z.eqb Pos.eqb]. rewrite Hp.
    destruct (Z.ltb_spec (Z.of_nat (length b)) 0); [lia|].
    destruct (Z.ltb_spec MAX_BULK (Z.of_nat (length b))); [lia|]. rewrite Nat2Z.id, !length_app.
    destruct (Nat.ltb_spec (length b + length crlf + length rest) (length b + 2)); [simpl in *; lia|].
    rewrite <- app_assoc, take_app_length, (app_assoc b crlf), drop_app_length'; [done|].
    by rewrite length_app.
  - done.
  - cbn [encode]. apply andb_true_iff in Hwf as [Hlen Hall]. rewrite <- app_assoc.
    destruct (len_line_read 42 (length items) (concat (map encode items) ++ rest) ltac:(lia))
      as (line & -> & Hl & Hp).
    cbn [decode_at]. rewrite Hl. cbn [Z.eqb Pos.eqb]. rewrite Hp.
    destruct (Z.ltb_spec (Z.of_nat (length items)) 0); [lia|].
    destruct (Z.ltb_spec MAX_BULK (Z.of_nat (length items))); [lia|]. rewrite Nat2Z.id.
    rewrite decode_items_app; [done|]. apply Forall_forall. intros v Hv r. apply IH.
    + rewrite forallb_forall in Hall. by apply Hall.
    + cbn [depth] in Hd. assert (depth v <= list_max (map depth items))%nat; [|lia].
      pose proof (proj1 (list_max_le (map depth items) _) (Nat.le_refl _)) as Hm.
      rewrite Forall_forall in Hm. apply Hm, in_map, Hv.
Qed.

(** ** Reading from a growing buffer *)

(** The same answer, with more bytes left over. *)
Definition app_rest {A} (more : list Z) (r : result RespError (option (A * list Z))) :=
  match r with
  | Ok (Some (v, rest)) => Ok (Some (v, rest ++ more))
  | other => other
  end.

Lemma decode_items_mono dec1 more n input :
  (forall i, dec1 i <> Ok None -> dec1 (i ++ more) = app_rest more (dec1 i)) ->
  decode_items dec1 n input <> Ok None ->
  decode_items dec1 n (input ++ more) = app_rest more (decode_items dec1 n input).
Proof.
  intros H1. revert input. induction n as [|n IH]; intros input Hne; [done|].
  cbn [decode_items] in *. destruct (dec1 input) as [[[v rest]|]|e] eqn:E; [|done|].
  - rewrite H1, E by by rewrite E. cbn [app_rest]. specialize (IH rest).
    destruct (decode_items dec1 n rest) as [[[vs r]|]|e']; [|done|];
      rewrite IH by done; done.
  - by rewrite H1, E by by rewrite E.
Qed.

Lemma decode_at_mono fuel input more :
  decode_at fuel input <> Ok None ->
  decode_at fuel (input ++ more) = app_rest more (decode_at fuel input).
Proof.
  revert input. induction fuel as [|fuel IH]; intros input Hne; [done|].
  destruct input as [|tag input]; [done|]. cbn [decode_at app] in *.
  destruct (read_line input) as [[line rest]|] eqn:El; [|done].
  rewrite (read_line_mono _ more _ _ El).
  destruct (tag =? 43); [by destruct (to_text line)|].
  destruct (tag =? 45); [by destruct (to_text line)|].
  destruct (tag =? 58); [by destruct (parse_int line)|].
  destruct (tag =? 36).
  { destruct (parse_int line) as [len|]; [|done]. destruct (len <? 0); [done|].
    destruct (MAX_BULK <? len); [done|]. rewrite length_app.
    destruct (Nat.ltb_spec (length rest) (Z.to_nat len + 2)); [done|].
    destruct (Nat.ltb_spec (length rest + length more) (Z.to_nat len + 2)); [lia|].
    cbn [app_rest]. by rewrite take_app_le, drop_app_le by lia. }
  destruct (tag =? 42); [|done].
  destruct (parse_int line) as [count|]; [|done]. destruct (count <? 0); [done|].
  destruct (MAX_BULK <? count); [done|].
  pose proof (decode_items_mono (decode_at fuel) more (Z.to_nat count) rest IH) as Hm.
  destruct (decode_items (decode_at fuel) (Z.to_nat count) rest) as [[[vs r]|]|e]; [|done|];
    rewrite Hm by done; done.
Qed.

(** A reply is read back exactly: any value a server can send, nested to
    the depth the client follows, decodes to itself whatever follows it, and
    exactly its own bytes are consumed. *)
Theorem decode_encode_value v rest :
  wf v = true -> (depth v <= MAX_DEPTH)%nat ->
  decode (encode v ++ rest) = Ok (Some (v, length (encode v))).
Proof.
  intros Hwf Hd. unfold decode. rewrite decode_at_encode by (done || lia).
  do 3 f_equal. rewrite length_app. lia.
Qed.

Lemma decode_encode_value_witness :
  let v := Array [Simple (lit "OK"); Bulk [13; 10; 255]; Integer (-7); Nil; Array [Error (lit "ERR")]] in
  decode (encode v ++ [36]) = Ok (Some (v, length (encode v))).
Proof. apply decode_encode_value; [reflexivity|vm_compute; lia]. Defined.

(** A reply that has not all arrived is never answered: every strict prefix
    of a value's bytes asks for more. *)
Theorem decode_partial_value v k :
  wf v = true -> (depth v <= MAX_DEPTH)%nat -> (k < length (encode v))%nat ->
  decode (take k (encode v)) = Ok None.
Proof.
  intros Hwf Hd Hk. unfold decode.
  pose proof (decode_at_encode (S MAX_DEPTH) v [] Hwf ltac:(lia)) as Hfull.
  rewrite app_nil_r, <- (take_drop k (encode v)) in Hfull.
  pose proof (decode_at_mono (S MAX_DEPTH) (take k (encode v)) (drop k (encode v))) as Hm.
  destruct (decode_at (S MAX_DEPTH) (take k (encode v))) as [[[w rest]|]|e]; [|done|];
    rewrite Hfull in Hm; specialize (Hm ltac:(done)); cbn [app_rest] in Hm; [|done].
  injection Hm as _ Hnil. symmetry in Hnil. apply app_eq_nil in Hnil as [_ Hnil].
  apply (f_equal length) in Hnil. rewrite length_drop in Hnil. simpl in Hnil. lia.
Qed.

Lemma decode_partial_value_witness : decode (take 5 (encode (Bulk (lit "hello")))) = Ok None.
Proof. apply decode_partial_value; [reflexivity|vm_compute; lia|vm_compute; lia]. Defined.

Lemma encode_command_value args : encode_command args = encode (Array (map Bulk args)).
Proof. unfold encode_command. cbn [encode]. by rewrite length_map, map_map. Qed.

(** No argument can be mistaken for another: a command decodes as the array
    of its arguments' bytes, so commands with different arguments never share
    an encoding, however strange the bytes are. *)
Theorem encode_command_unambiguous args args' :
  let plausible (l : list (list Z)) :=
    Z.of_nat (length l) <= MAX_BULK /\ Forall (fun a => Z.of_nat (length a) <= MAX_BULK) l in
  plausible args -> plausible args' ->
  decode (encode_command args) = Ok (Some (Array (map Bulk args), length (encode_command args))) /\
  (encode_command args = encode_command args' -> args = args').
Proof.
  intros plausible.
  assert (Hdec : forall l rest, plausible l ->
    decode_at (S MAX_DEPTH) (encode_command l ++ rest) = Ok (Some (Array (map Bulk l), rest))).
  { intros l rest [Hl Ha]. rewrite encode_command_value. apply decode_at_encode.
    - cbn [wf]. rewrite length_map. apply andb_true_iff. split; [lia|].
      apply forallb_forall. intros v (b & <- & Hb)%in_map_iff. cbn [wf].
      rewrite Forall_forall in Ha. specialize (Ha b Hb). lia.
    - cbn [depth]. rewrite map_map. cbn [depth].
      assert (list_max (map (fun _ : list Z => O) l) <= 0)%nat; [|unfold MAX_DEPTH; lia].
      apply list_max_le, Forall_forall. intros x (b & <- & _)%in_map_iff. done. }
  intros Hp Hp'. split.
  - unfold decode. rewrite <- (app_nil_r (encode_command args)), Hdec by done.
    by rewrite app_nil_r, Nat.sub_0_r.
  - intros Heq. pose proof (Hdec args [] Hp) as H1. rewrite Heq, Hdec in H1 by done.
    injection H1 as H1. symmetry. revert H1. generalize args'. clear.
    induction args as [|a args IH]; intros [|b args'] H; simplify_eq/=; [done|].
    f_equal. by apply IH.
Qed.

Lemma encode_command_unambiguous_witness :
  decode (encode_command [lit "SET"; [13; 10]]) =
  Ok (Some (Array [Bulk (lit "SET"); Bulk [13; 10]], length (encode_command [lit "SET"; [13; 10]]))).
Proof.
  apply (encode_command_unambiguous [lit "SET"; [13; 10]] [lit "SET"; [13; 10]]);
    (split; [vm_compute; congruence|repeat constructor; vm_compute; congruence]).
Defined.

End Resp.
