(* ===== verification/CivilTime.v ===== *)
(** * Civil time ([rustlavel-queue/src/time.rs])

    The conversions between day numbers and civil dates that the scheduler uses,
    against a direct specification of the Gregorian calendar (month lengths,
    leap years and the successor of a date). Every division in the source is either [div_euclid] or a division of non-negative
    operands, so [Z.div] and [Z.modulo] are the operations it performs. *)

From S2P Require Import Prelude Text.

(** ** The calendar, as a specification *)
Module Calendar.

Definition is_leap (y : Z) : bool := ((y mod 4 =? 0) && negb (y mod 100 =? 0)) || (y mod 400 =? 0).

Definition days_in_month (y m : Z) : Z :=
  if m =? 2 then (if is_leap y then 29 else 28)
  else if (m =? 4) || (m =? 6) || (m =? 9) || (m =? 11) then 30 else 31.

Definition valid (date : Z * Z * Z) : bool :=
  let '(y, m, d) := date in
  (1 <=? m) && (m <=? 12) && (1 <=? d) && (d <=? days_in_month y m).

Definition next_date (date : Z * Z * Z) : Z * Z * Z :=
  let '(y, m, d) := date in
  if d <? days_in_month y m then (y, m, d + 1)
  else if m <? 12 then (y, m + 1, 1)
  else (y + 1, 1, 1).

Lemma is_leap_iff y :
  is_leap y = true <-> (y mod 4 = 0 /\ y mod 100 <> 0) \/ y mod 400 = 0.
Proof.
  unfold is_leap. rewrite orb_true_iff, andb_true_iff, negb_true_iff, !Z.eqb_eq, Z.eqb_neq. done.
Qed.

End Calendar.

(** ** The scheduler's clock ([rustlavel-queue/src/time.rs]) *)
Module Time.

Definition SECONDS_PER_DAY : Z := 86400.

Record DateTime := {
  year : Z;
  month : Z;
  day : Z;
  hour : Z;
  minute : Z;
  second : Z;
  weekday : Z;
}.

Definition weekday_of (days : Z) : Z := (days + 4) mod 7.

Definition days_from_civil (y m d : Z) : Z :=
  let y := y - (if m <=? 2 then 1 else 0) in
  let era := y / 400 in
  let year_of_era := y - era * 400 in
  let day_of_year := (153 * (m + (if 2 <? m then -3 else 9)) + 2) / 5 + d - 1 in
  let day_of_era := year_of_era * 365 + year_of_era / 4 - year_of_era / 100 + day_of_year in
  era * 146097 + day_of_era - 719468.

Definition civil_from_days (days : Z) : Z * Z * Z :=
  let shifted := days + 719468 in
  let era := shifted / 146097 in
  let day_of_era := shifted - era * 146097 in
  let year_of_era :=
    (day_of_era - day_of_era / 1460 + day_of_era / 36524 - day_of_era / 146096) / 365 in
  let y := year_of_era + era * 400 in
  let day_of_year := day_of_era - (365 * year_of_era + year_of_era / 4 - year_of_era / 100) in
  let shifted_month := (5 * day_of_year + 2) / 153 in
  let d := day_of_year - (153 * shifted_month + 2) / 5 + 1 in
  let m := shifted_month + (if shifted_month <? 10 then 3 else -9) in
  (y + (if m <=? 2 then 1 else 0), m, d).

Definition from_unix (seconds : Z) : DateTime :=
  let days := seconds / SECONDS_PER_DAY in
  let time_of_day := seconds mod SECONDS_PER_DAY in
  let '(y, m, d) := civil_from_days days in
  {| year := y; month := m; day := d;
     hour := time_of_day / 3600;
     minute := time_of_day mod 3600 / 60;
     second := time_of_day mod 60;
     weekday := weekday_of days |}.

Definition to_unix (y m d h mi s : Z) : Z :=
  days_from_civil y m d * SECONDS_PER_DAY + h * 3600 + mi * 60 + s.

Definition start_of_day (seconds : Z) : Z := seconds - seconds mod SECONDS_PER_DAY.
Definition start_of_minute (seconds : Z) : Z := seconds - seconds mod 60.

(** *** Correctness *)

Import Calendar.

(** The year of a 400-year era, and the day within that year (counted from
    the first of March): a day 365 exists only before a leap day. *)
Lemma year_of_era_spec doe :
  0 <= doe < 146097 ->
  let yoe := (doe - doe / 1460 + doe / 36524 - doe / 146096) / 365 in
  let doy := doe - (365 * yoe + yoe / 4 - yoe / 100) in
  0 <= yoe < 400 /\ 0 <= doy <= 365 /\ (doy = 365 -> is_leap (yoe + 1) = true).
Proof.
  intros H yoe doy. rewrite is_leap_iff. subst doy yoe.
  assert (Hc : exists c, doe / 36524 = c /\ (c = 0 \/ c = 1 \/ c = 2 \/ c = 3 \/ c = 4))
    by (eexists; split; [reflexivity|]; Z.div_mod_to_equations; lia).
  destruct Hc as (c & Ec & Hc). rewrite Ec.
  set (yoe := (doe - doe / 1460 + c - doe / 146096) / 365).
  assert (H1 : 0 <= yoe < 400 /\ 0 <= doe - (365 * yoe + yoe / 4 - yoe / 100) <= 365)
    by (subst yoe; destruct Hc as [->|[->|[->|[->| ->]]]]; Z.div_mod_to_equations; lia).
  destruct H1 as [H1 H2]. split; [done|]. split; [done|]. intros Hd.
  assert (H3 : yoe mod 4 = 3)
    by (subst yoe; destruct Hc as [->|[->|[->|[->| ->]]]]; Z.div_mod_to_equations; lia).
  assert (H4 : yoe mod 100 = 99 -> yoe = 399)
    by (subst yoe; destruct Hc as [->|[->|[->|[->| ->]]]]; Z.div_mod_to_equations; lia).
  clearbody yoe. clear - H3 H4. Z.div_mod_to_equations; lia.
Qed.

Lemma is_leap_era y k : is_leap (y + k * 400) = is_leap y.
Proof.
  unfold is_leap.
  replace ((y + k * 400) mod 4) with (y mod 4) by (rewrite <- (Z.mod_add y (k * 100) 4) by lia; f_equal; lia).
  replace ((y + k * 400) mod 100) with (y mod 100) by (rewrite <- (Z.mod_add y (k * 4) 100) by lia; f_equal; lia).
  by rewrite Z.mod_add by lia.
Qed.
(** The month and the day within a March-based year. *)
Lemma month_of_year_spec doy :
  0 <= doy <= 365 ->
  let mp := (5 * doy + 2) / 153 in
  0 <= mp <= 11 /\ 1 <= doy - (153 * mp + 2) / 5 + 1 /\
  (153 * mp + 2) / 5 + (doy - (153 * mp + 2) / 5 + 1) - 1 = doy.
Proof. intros H mp. subst mp. Z.div_mod_to_equations. lia. Qed.

(** The day number of a March-based date, and the bounds a valid date keeps. *)
Definition march_doy (m d : Z) : Z := (153 * (if 2 <? m then m - 3 else m + 9) + 2) / 5 + d - 1.

Lemma valid_spec y m d :
  valid (y, m, d) = true <-> 1 <= m <= 12 /\ 1 <= d <= days_in_month y m.
Proof. unfold valid. lia. Qed.

Ltac cmp_cases :=
  repeat match goal with
  | |- context [Z.ltb ?a ?b] => destruct (Z.ltb_spec a b); try lia
  | |- context [Z.leb ?a ?b] => destruct (Z.leb_spec a b); try lia
  end.

Ltac month_cases m :=
  let H := fresh in
  assert (H : m = 1 \/ m = 2 \/ m = 3 \/ m = 4 \/ m = 5 \/ m = 6 \/ m = 7 \/ m = 8 \/ m = 9
    \/ m = 10 \/ m = 11 \/ m = 12) by lia;
  repeat destruct H as [->|H]; [..|subst m].

Lemma march_doy_range y m d :
  valid (y, m, d) = true ->
  0 <= march_doy m d <= 365 /\
  (march_doy m d = 365 -> m = 2 /\ d = 29 /\ is_leap y = true) /\
  (5 * march_doy m d + 2) / 153 = (if 2 <? m then m - 3 else m + 9).
Proof.
  intros [Hm Hd]%valid_spec. unfold march_doy, days_in_month in *.
  month_cases m; cbn [Z.ltb Z.compare Pos.compare Pos.compare_cont Z.eqb Pos.eqb orb] in *;
    try destruct (is_leap y); Z.div_mod_to_equations; lia.
Qed.

(** The year of an era is recovered from the day of that era. *)
Lemma year_of_era_inv yoe doy :
  0 <= yoe < 400 -> 0 <= doy <= 365 -> (doy = 365 -> is_leap (yoe + 1) = true) ->
  let doe := yoe * 365 + yoe / 4 - yoe / 100 + doy in
  0 <= doe < 146097 /\ (doe - doe / 1460 + doe / 36524 - doe / 146096) / 365 = yoe.
Proof.
  intros Hy Hd Hl doe. rewrite is_leap_iff in Hl. subst doe.
  assert (Hb : exists b, yoe / 100 = b /\ (b = 0 \/ b = 1 \/ b = 2 \/ b = 3))
    by (eexists; split; [reflexivity|]; Z.div_mod_to_equations; lia).
  destruct Hb as (b & Eb & Hb). rewrite Eb.
  destruct (Z.eq_dec doy 365) as [->|Hne].
  - specialize (Hl eq_refl). assert (H3 : yoe mod 4 = 3) by (clear - Hl; Z.div_mod_to_equations; lia).
    assert (H4 : yoe mod 100 <> 99 \/ yoe = 399) by (clear - Hl Hy; Z.div_mod_to_equations; lia).
    clear Hl. destruct Hb as [->|[->|[->| ->]]]; Z.div_mod_to_equations; lia.
  - clear Hl. destruct Hb as [->|[->|[->| ->]]]; Z.div_mod_to_equations; lia.
Qed.

(** March-based year: January and February belong to the year before. *)
Definition march_year (y m : Z) : Z := y - (if m <=? 2 then 1 else 0).

Lemma days_from_civil_march y m d :
  days_from_civil y m d =
  let y0 := march_year y m in
  let yoe := y0 mod 400 in
  y0 / 400 * 146097 + (yoe * 365 + yoe / 4 - yoe / 100 + march_doy m d) - 719468.
Proof.
  unfold days_from_civil, march_doy, march_year. cbv zeta.
  set (y0 := y - _). replace (y0 - y0 / 400 * 400) with (y0 mod 400)
    by (rewrite (Z.mul_comm _ 400), <- Z.mod_eq; lia).
  destruct (Z.ltb_spec 2 m); [replace (m + -3) with (m - 3) by lia|]; lia.
Qed.

Lemma leap_of_march_year y m d :
  valid (y, m, d) = true -> march_doy m d = 365 -> is_leap (march_year y m mod 400 + 1) = true.
Proof.
  intros Hv Hd. apply march_doy_range in Hv as (_ & H365 & _). destruct (H365 Hd) as (-> & -> & Hl).
  unfold march_year. cbn [Z.leb Z.compare Pos.compare Pos.compare_cont].
  rewrite <- (is_leap_era _ ((y - 1) / 400)), <- Hl. f_equal.
  pose proof (Z.div_mod (y - 1) 400). lia.
Qed.

Lemma civil_of_days_of_civil y m d :
  valid (y, m, d) = true -> civil_from_days (days_from_civil y m d) = (y, m, d).
Proof.
  intros Hv. rewrite days_from_civil_march. cbv zeta. unfold civil_from_days.
  pose proof (march_doy_range y m d Hv) as (Hr & _ & Hmp).
  pose proof (leap_of_march_year y m d Hv) as Hleap.
  pose proof (Z.mod_pos_bound (march_year y m) 400 ltac:(lia)) as Hyoe.
  destruct (year_of_era_inv _ _ Hyoe Hr Hleap) as [Hdoe Hinv].
  set (y0 := march_year y m) in *. set (yoe := y0 mod 400) in *. set (doy := march_doy m d) in *.
  set (doe := yoe * 365 + yoe / 4 - yoe / 100 + doy) in *. cbv zeta.
  replace (y0 / 400 * 146097 + doe - 719468 + 719468) with (doe + y0 / 400 * 146097) by lia.
  rewrite Z.div_add, (Z.div_small doe), Z.add_0_l by lia.
  replace (doe + y0 / 400 * 146097 - y0 / 400 * 146097) with doe by lia.
  rewrite Hinv. replace (doe - (365 * yoe + yoe / 4 - yoe / 100)) with doy by (subst doe; lia).
  rewrite Hmp. apply valid_spec in Hv as [Hm _].
  assert (Hy : yoe + y0 / 400 * 400 = y0)
    by (subst yoe; pose proof (Z.div_mod y0 400); lia). rewrite Hy.
  subst doy y0. unfold march_doy, march_year. clear - Hm.
  month_cases m; cmp_cases; (f_equal; [f_equal|]); Z.div_mod_to_equations; lia.
Qed.

Lemma day_within_month y0 doy mp m :
  0 <= doy <= 365 -> (doy = 365 -> is_leap (y0 + 1) = true) -> mp = (5 * doy + 2) / 153 ->
  m = mp + (if mp <? 10 then 3 else -9) ->
  doy - (153 * mp + 2) / 5 + 1 <= days_in_month (y0 + (if m <=? 2 then 1 else 0)) m.
Proof.
  intros Hd Hl Emp Em. assert (Hmp : 0 <= mp <= 11) by (subst mp; Z.div_mod_to_equations; lia).
  assert (Hc : mp = 0 \/ mp = 1 \/ mp = 2 \/ mp = 3 \/ mp = 4 \/ mp = 5 \/ mp = 6 \/ mp = 7
    \/ mp = 8 \/ mp = 9 \/ mp = 10 \/ mp = 11) by lia.
  unfold days_in_month. clear Hmp.
  repeat destruct Hc as [Hc|Hc]; rewrite Hc in *; clear Hc; vm_compute in Em; subst m;
    cbn [Z.eqb Pos.eqb orb Z.leb Z.compare Pos.compare Pos.compare_cont];
    try (clear Hl; Z.div_mod_to_equations; lia).
  destruct (is_leap (y0 + 1)); [clear Hl; Z.div_mod_to_equations; lia|].
  assert (doy <> 365) by (intros E; by specialize (Hl E)). clear Hl. Z.div_mod_to_equations; lia.
Qed.

Lemma civil_from_days_spec days :
  valid (civil_from_days days) = true /\
  (let '(y, m, d) := civil_from_days days in days_from_civil y m d) = days.
Proof.
  unfold civil_from_days. set (sh := days + 719468). set (era := sh / 146097).
  assert (Hdoe : 0 <= sh - era * 146097 < 146097)
    by (subst era; pose proof (Z.mod_pos_bound sh 146097); pose proof (Z.div_mod sh 146097); lia).
  set (doe := sh - era * 146097) in *. cbv zeta.
  destruct (year_of_era_spec doe Hdoe) as (Hyoe & Hdoy & Hleap).
  set (yoe := (doe - doe / 1460 + doe / 36524 - doe / 146096) / 365) in *.
  set (doy := doe - (365 * yoe + yoe / 4 - yoe / 100)) in *.
  destruct (month_of_year_spec doy Hdoy) as (Hmp & Hd1 & Hd2).
  set (mp := (5 * doy + 2) / 153) in *.
  set (m := mp + (if mp <? 10 then 3 else -9)).
  set (y := yoe + era * 400 + (if m <=? 2 then 1 else 0)).
  set (d := doy - (153 * mp + 2) / 5 + 1).
  assert (Hdoy' : march_doy m d = doy).
  { unfold march_doy. rewrite <- Hd2. subst d m. repeat f_equal.
    destruct (Z.ltb_spec mp 10); [destruct (Z.ltb_spec 2 (mp + 3))|destruct (Z.ltb_spec 2 (mp + -9))];
      lia. }
  split.
  - apply valid_spec. split; [subst m; destruct (Z.ltb_spec mp 10); lia|].
    split; [exact Hd1|]. apply day_within_month; [done| |done|done].
    intros E. replace (yoe + era * 400 + 1) with (yoe + 1 + era * 400) by lia.
    rewrite is_leap_era. by apply Hleap.
  - rewrite days_from_civil_march. cbv zeta. rewrite Hdoy'.
    replace (march_year y m) with (yoe + era * 400) by (unfold march_year; subst y; lia).
    rewrite Z.div_add, Z.mod_add, Z.div_small, Z.mod_small by lia.
    subst doy doe sh. lia.
Qed.

Lemma days_from_civil_linear y m d :
  days_from_civil y m d =
  let y0 := march_year y m in
  365 * y0 + y0 / 4 - y0 / 100 + y0 / 400 + march_doy m d - 719468.
Proof. rewrite days_from_civil_march. cbv zeta. Z.div_mod_to_equations. lia. Qed.

Lemma leap_gap y :
  y / 4 - y / 100 + y / 400 =
  (y - 1) / 4 - (y - 1) / 100 + (y - 1) / 400 + (if is_leap y then 1 else 0).
Proof.
  destruct (is_leap y) eqn:E; [|apply not_true_iff_false in E]; rewrite is_leap_iff in E;
    Z.div_mod_to_equations; lia.
Qed.

Lemma days_from_civil_next y m d :
  valid (y, m, d) = true ->
  (let '(y', m', d') := next_date (y, m, d) in days_from_civil y' m' d') =
  days_from_civil y m d + 1.
Proof.
  intros [Hm Hd]%valid_spec. unfold next_date. destruct (Z.ltb_spec d (days_in_month y m)).
  { rewrite !days_from_civil_linear. unfold march_doy. cbv zeta. lia. }
  assert (d = days_in_month y m) as -> by lia. clear Hd H.
  pose proof (leap_gap y) as Hgap.
  month_cases m; cbn [Z.ltb Z.compare Pos.compare Pos.compare_cont];
    rewrite !days_from_civil_linear; unfold march_doy, march_year, days_in_month; cbv zeta;
    cmp_cases; cbn [Z.eqb Pos.eqb orb]; rewrite ?Z.sub_0_r, ?Z.add_simpl_r in *;
    try (clear Hgap; Z.div_mod_to_equations; lia).
  change ((153 * (2 + 1 - 3) + 2) / 5) with 0. change ((153 * (2 + 9) + 2) / 5) with 337.
  destruct (is_leap y); lia.
Qed.

(** The calendar arithmetic is exact. Every day number stands for one valid
    date and every valid date for one day number, each conversion inverting the
    other; consecutive dates, leap days and year ends included, have consecutive
    numbers; and day 0 is the first of January 1970. *)
Theorem civil_days_exact :
  (forall days, valid (civil_from_days days) = true /\
     (let '(y, m, d) := civil_from_days days in days_from_civil y m d) = days) /\
  (forall y m d, valid (y, m, d) = true ->
     civil_from_days (days_from_civil y m d) = (y, m, d) /\
     (let '(y', m', d') := next_date (y, m, d) in days_from_civil y' m' d') =
       days_from_civil y m d + 1) /\
  civil_from_days 0 = (1970, 1, 1).
Proof.
  split; [apply civil_from_days_spec|]. split; [|reflexivity].
  intros y m d Hv. split; [by apply civil_of_days_of_civil|by apply days_from_civil_next].
Qed.

Lemma civil_days_exact_witness : civil_from_days (days_from_civil 2024 2 29) = (2024, 2, 29).
Proof. apply (proj1 (proj2 civil_days_exact)). reflexivity. Defined.

Lemma from_unix_spec t :
  let at_ := from_unix t in
  civil_from_days (t / SECONDS_PER_DAY) = (year at_, month at_, day at_) /\
  hour at_ = t mod SECONDS_PER_DAY / 3600 /\
  minute at_ = t mod SECONDS_PER_DAY mod 3600 / 60 /\
  second at_ = t mod SECONDS_PER_DAY mod 60 /\
  weekday at_ = weekday_of (t / SECONDS_PER_DAY).
Proof. unfold from_unix. by destruct (civil_from_days _) as [[y m] d]. Qed.

(** Splitting a timestamp loses nothing: the fields are a valid date, an
    hour, a minute, a second and a weekday in range, and putting them back
    together gives the timestamp, before 1970 as well as after. *)
Theorem unix_fields_roundtrip t :
  let at_ := from_unix t in
  valid (year at_, month at_, day at_) = true /\
  0 <= hour at_ < 24 /\ 0 <= minute at_ < 60 /\ 0 <= second at_ < 60 /\ 0 <= weekday at_ < 7 /\
  to_unix (year at_) (month at_) (day at_) (hour at_) (minute at_) (second at_) = t.
Proof.
  cbv zeta. destruct (from_unix_spec t) as (Hc & -> & -> & -> & ->).
  destruct (civil_from_days_spec (t / SECONDS_PER_DAY)) as [Hv Hd]. rewrite Hc in Hv, Hd.
  split; [done|]. unfold to_unix. rewrite Hd. unfold SECONDS_PER_DAY, weekday_of.
  Z.div_mod_to_equations. lia.
Qed.

End Time.
