(* ===== verification/HttpDate.v ===== *)
(** * HTTP dates ([rustlavel-http/src/date.rs])

    The IMF-fixdate the server writes in [Date], [Expires] and [Last-Modified],
    the lenient reader of the three historic formats, and the crate's own copy
    of the calendar arithmetic. *)

From S2P Require Import Prelude Text CivilTime.

Module HttpDate.

Definition civil_from_days (days : Z) : Z * Z * Z :=
  let z := days + 719468 in
  let era := z / 146097 in
  let day_of_era := z mod 146097 in
  let year_of_era :=
    (day_of_era - day_of_era / 1460 + day_of_era / 36524 - day_of_era / 146096) / 365 in
  let year := year_of_era + era * 400 in
  let day_of_year := day_of_era - (365 * year_of_era + year_of_era / 4 - year_of_era / 100) in
  let mp := (5 * day_of_year + 2) / 153 in
  let day := day_of_year - (153 * mp + 2) / 5 + 1 in
  let month := if mp <? 10 then mp + 3 else mp - 9 in
  (year + (if month <=? 2 then 1 else 0), month, day).

Definition days_from_civil (year month day : Z) : Z :=
  let year := if month <=? 2 then year - 1 else year in
  let era := year / 400 in
  let year_of_era := year mod 400 in
  let day_of_year := (153 * (if 2 <? month then month - 3 else month + 9) + 2) / 5 + day - 1 in
  let day_of_era := year_of_era * 365 + year_of_era / 4 - year_of_era / 100 + day_of_year in
  era * 146097 + day_of_era - 719468.

Definition DAYS : list (list Z) :=
  map lit ["Thu"; "Fri"; "Sat"; "Sun"; "Mon"; "Tue"; "Wed"]%string.
Definition MONTHS : list (list Z) :=
  map lit ["Jan"; "Feb"; "Mar"; "Apr"; "May"; "Jun"; "Jul"; "Aug"; "Sep"; "Oct"; "Nov"; "Dec"]%string.

(** [{:02}] of a non-negative number. *)
Definition pad2 (n : Z) : list Z := if n <? 10 then 48 :: dec n else dec n.

Definition nth_text (l : list (list Z)) (i : Z) : list Z := default [] (l !! Z.to_nat i).

Definition http_date (unix : Z) : list Z :=
  let days_since_epoch := unix / 86400 in
  let seconds_of_day := unix mod 86400 in
  let '(year, month, day) := civil_from_days days_since_epoch in
  nth_text DAYS (days_since_epoch mod 7) ++ lit ", " ++ pad2 day ++ lit " " ++
  nth_text MONTHS (month - 1) ++ lit " " ++ dec year ++ lit " " ++
  pad2 (seconds_of_day / 3600) ++ lit ":" ++ pad2 (seconds_of_day mod 3600 / 60) ++ lit ":" ++
  pad2 (seconds_of_day mod 60) ++ lit " GMT".


Definition month_number (name : list Z) : option Z :=
  let fix position (l : list (list Z)) (i : Z) :=
    match l with
    | [] => None
    | m :: l => if bool_decide (map lower m = map lower name) then Some i else position l (i + 1)
    end in
  position MONTHS 1.

(** The clock [h:m:s], and the checks on it and on the day. *)
Definition finish_parse (day month year : Z) (clock : list Z) : option Z :=
  match split_on 58 clock with
  | h :: m :: s :: more =>
      let! hour := parse_i64 h in
      let! minute := parse_i64 m in
      let! second := parse_i64 s in
      if negb (bool_decide (more = [])) || (23 <? hour) || (59 <? minute) || (60 <? second) then None
      else if (day =? 0) || (31 <? day) then None
      else Some (days_from_civil year month day * 86400 + hour * 3600 + minute * 60 + second)
  | [h; m] => let! _ := parse_i64 h in let! _ := parse_i64 m in None
  | _ => None
  end.

Definition parse_http_date (text : list Z) : option Z :=
  match split_whitespace (trim text) with
  | [weekday; day; month; year; clock; gmt] =>
      if bool_decide (gmt = lit "GMT") && ends_with weekday (lit ",") then
        let! d := parse_u32 day in
        let! m := month_number month in
        let! y := parse_i64 year in
        finish_parse d m y clock
      else None
  | [weekday; date; clock; gmt] =>
      if bool_decide (gmt = lit "GMT") && ends_with weekday (lit ",") then
        match split_on 45 date with
        | d :: m :: y :: more =>
            let! d := parse_u32 d in
            let! m := month_number m in
            let! y := parse_i64 y in
            if negb (bool_decide (more = [])) then None else
            let y := if y <? 100 then (if y <? 70 then 2000 + y else 1900 + y) else y in
            finish_parse d m y clock
        | _ => None
        end
      else None
  | [_; month; day; clock; year] =>
      let! d := parse_u32 day in
      let! m := month_number month in
      let! y := parse_i64 year in
      finish_parse d m y clock
  | _ => None
  end.

Definition parse_ymd (text : list Z) : option Z :=
  match split_on 45 (trim text) with
  | y :: m :: d :: more =>
      let! year := parse_i64 y in
      let! month := parse_u32 m in
      let! day := parse_u32 d in
      if negb (bool_decide (more = [])) || negb ((1 <=? month) && (month <=? 12))
         || negb ((1 <=? day) && (day <=? 31)) then None
      else Some (days_from_civil year month day * 86400)
  | _ => None
  end.

(** *** Correctness *)

Lemma civil_from_days_same days : civil_from_days days = Time.civil_from_days days.
Proof.
  unfold civil_from_days, Time.civil_from_days. cbv zeta.
  set (z := days + 719468). replace (z mod 146097) with (z - z / 146097 * 146097)
    by (rewrite Z.mod_eq by lia; lia).
  set (doe := z - z / 146097 * 146097).
  set (yoe := (doe - doe / 1460 + doe / 36524 - doe / 146096) / 365).
  set (doy := doe - (365 * yoe + yoe / 4 - yoe / 100)). set (mp := (5 * doy + 2) / 153).
  by destruct (mp <? 10).
Qed.

Lemma days_from_civil_same y m d : days_from_civil y m d = Time.days_from_civil y m d.
Proof.
  rewrite Time.days_from_civil_march. unfold days_from_civil, Time.march_year, Time.march_doy.
  cbv zeta. destruct (m <=? 2); rewrite ?Z.sub_0_r; lia.
Qed.

(** The HTTP crate and the queue crate carry separate copies of the calendar
    conversions; the two copies compute the same functions. *)
Theorem calendars_agree :
  (forall days, civil_from_days days = Time.civil_from_days days) /\
  (forall y m d, days_from_civil y m d = Time.days_from_civil y m d).
Proof. split; [apply civil_from_days_same|apply days_from_civil_same]. Qed.

Definition word_ok (w : list Z) : bool :=
  forallb (fun b => (33 <=? b) && (b <=? 126)) w && negb (bool_decide (w = [])).

Lemma word_ok_spec w : word_ok w = true -> Forall visible w /\ w <> [].
Proof.
  unfold word_ok. rewrite andb_true_iff, forallb_forall, negb_true_iff, bool_decide_eq_false.
  intros [H Hne]. split; [|done]. apply Forall_forall. intros b Hb. specialize (H b Hb).
  unfold visible. lia.
Qed.

(** A number below 100 as two digits: visible, free of separators, and parsed
    back. *)
Lemma pad2_spec n :
  0 <= n < 100 ->
  word_ok (pad2 n) = true /\ Forall (fun b => b <> 58) (pad2 n) /\
  parse_i64 (pad2 n) = Some n /\ parse_u32 (pad2 n) = Some n.
Proof.
  intros Hn.
  assert (H := forall_below 100 (fun n =>
    word_ok (pad2 n) && forallb (fun b => negb (b =? 58)) (pad2 n) &&
    bool_decide (parse_i64 (pad2 n) = Some n) && bool_decide (parse_u32 (pad2 n) = Some n))
    ltac:(by vm_compute) n Hn).
  cbv beta in H. rewrite !andb_true_iff, !bool_decide_eq_true in H.
  destruct H as (((H1 & H2) & H3) & H4). repeat split; try done.
  apply Forall_forall. intros b Hb. rewrite forallb_forall in H2. specialize (H2 b Hb). lia.
Qed.

Lemma month_name_spec m :
  1 <= m <= 12 -> word_ok (nth_text MONTHS (m - 1)) = true /\
  month_number (nth_text MONTHS (m - 1)) = Some m.
Proof.
  intros Hm.
  assert (H := forall_below 12 (fun i =>
    word_ok (nth_text MONTHS i) && bool_decide (month_number (nth_text MONTHS i) = Some (i + 1)))
    ltac:(by vm_compute) (m - 1) ltac:(lia)).
  cbv beta in H. rewrite andb_true_iff, bool_decide_eq_true in H. destruct H as [H1 H2].
  split; [done|]. rewrite H2. f_equal. lia.
Qed.

Lemma day_name_spec i :
  0 <= i < 7 -> word_ok (nth_text DAYS i ++ lit ",") = true /\
  ends_with (nth_text DAYS i ++ lit ",") (lit ",") = true.
Proof.
  intros Hi.
  assert (H := forall_below 7 (fun i =>
    word_ok (nth_text DAYS i ++ lit ",") && ends_with (nth_text DAYS i ++ lit ",") (lit ","))
    ltac:(by vm_compute) i Hi).
  cbv beta in H. by apply andb_true_iff in H.
Qed.

Lemma year_in_range days y m d :
  Time.civil_from_days days = (y, m, d) -> - 2 ^ 62 <= days <= 2 ^ 62 -> i64_min <= y <= i64_max.
Proof.
  intros Hc Hd. destruct (Time.civil_from_days_spec days) as [Hv Hn]. rewrite Hc in Hv, Hn.
  pose proof (Time.march_doy_range _ _ _ Hv) as (Hdoy & _).
  rewrite Time.days_from_civil_linear in Hn. cbv zeta in Hn. unfold Time.march_year in Hn.
  unfold i64_min, i64_max. destruct (m <=? 2); Z.div_mod_to_equations; lia.
Qed.

Lemma finish_parse_clock y m d h mi s :
  Calendar.valid (y, m, d) = true -> 0 <= h < 24 -> 0 <= mi < 60 -> 0 <= s < 60 ->
  finish_parse d m y (pad2 h ++ lit ":" ++ pad2 mi ++ lit ":" ++ pad2 s) =
  Some (days_from_civil y m d * 86400 + h * 3600 + mi * 60 + s).
Proof.
  intros [Hm Hd]%Time.valid_spec Hh Hmi Hs.
  destruct (pad2_spec h ltac:(lia)) as (_ & Hh1 & Hh2 & _).
  destruct (pad2_spec mi ltac:(lia)) as (_ & Hm1 & Hm2 & _).
  destruct (pad2_spec s ltac:(lia)) as (_ & Hs1 & Hs2 & _).
  unfold finish_parse.
  change (pad2 h ++ lit ":" ++ pad2 mi ++ lit ":" ++ pad2 s)
    with (pad2 h ++ 58 :: (pad2 mi ++ 58 :: pad2 s)).
  rewrite (split_on_app 58 (pad2 h)), (split_on_app 58 (pad2 mi)), split_on_none by done.
  rewrite Hh2, Hm2, Hs2.
  assert (d <= 31) by (unfold Calendar.days_in_month in Hd; repeat case_match; lia).
  rewrite (bool_decide_eq_true_2 ([] = [])) by done. cbn [negb orb].
  destruct (Z.ltb_spec 23 h); [lia|]. destruct (Z.ltb_spec 59 mi); [lia|].
  destruct (Z.ltb_spec 60 s); [lia|]. destruct (Z.eqb_spec d 0); [lia|].
  destruct (Z.ltb_spec 31 d); [lia|done].
Qed.

(** A date written into a header is read back as the same instant, for
    every 64-bit timestamp. *)
Theorem http_date_roundtrip t :
  i64_min <= t <= i64_max -> parse_http_date (http_date t) = Some t.
Proof.
  intros Ht. unfold http_date. rewrite civil_from_days_same.
  destruct (Time.civil_from_days (t / 86400)) as [[y m] d] eqn:Hc.
  destruct (Time.civil_from_days_spec (t / 86400)) as [Hv Hn]. rewrite Hc in Hv, Hn.
  set (sod := t mod 86400).
  assert (Hsod : 0 <= sod < 86400) by (apply Z.mod_pos_bound; lia).
  assert (Hh : 0 <= sod / 3600 < 24) by (Z.div_mod_to_equations; lia).
  assert (Hmi : 0 <= sod mod 3600 / 60 < 60) by (Z.div_mod_to_equations; lia).
  assert (Hs : 0 <= sod mod 60 < 60) by (apply Z.mod_pos_bound; lia).
  set (clock := pad2 (sod / 3600) ++ lit ":" ++ pad2 (sod mod 3600 / 60) ++ lit ":" ++ pad2 (sod mod 60)).
  set (wd := nth_text DAYS (t / 86400 mod 7) ++ lit ",").
  set (words := [wd; pad2 d; nth_text MONTHS (m - 1); dec y; clock; lit "GMT"]).
  match goal with |- parse_http_date ?x = _ => replace x with (join [32] words) end.
  2: { subst words wd clock. cbn [join]. change (lit ", ") with (lit "," ++ [32]).
       change (lit " GMT") with ([32] ++ lit "GMT"). change (lit " ") with [32].
       by rewrite <- !app_assoc. }
  pose proof Hv as [Hm Hd]%Time.valid_spec.
  assert (Hd31 : d <= 31) by (unfold Calendar.days_in_month in Hd; repeat case_match; lia).
  destruct (day_name_spec (t / 86400 mod 7) ltac:(apply Z.mod_pos_bound; lia)) as [Hwd1 Hwd2].
  destruct (month_name_spec m Hm) as [Hmn1 Hmn2].
  destruct (pad2_spec d ltac:(lia)) as (Hp1 & _ & _ & Hp2).
  destruct (pad2_spec (sod / 3600) ltac:(lia)) as (Hc1 & _).
  destruct (pad2_spec (sod mod 3600 / 60) ltac:(lia)) as (Hc2 & _).
  destruct (pad2_spec (sod mod 60) ltac:(lia)) as (Hc3 & _).
  assert (Hwords : Forall (fun w => Forall visible w /\ w <> []) words).
  { subst words. rewrite !Forall_cons_iff.
    split; [by apply word_ok_spec|]. split; [by apply word_ok_spec|].
    split; [by apply word_ok_spec|]. split; [split; [apply dec_visible|apply dec_nonempty]|].
    split; [|split; [by apply word_ok_spec|done]]. subst clock.
    apply word_ok_spec in Hc1 as [Hv1 Hne]. split; [|by destruct (pad2 (sod / 3600))].
    assert (Hcolon : Forall visible (lit ":")) by by apply (word_ok_spec (lit ":")).
    rewrite !Forall_app. repeat split; try done; by apply word_ok_spec. }
  unfold parse_http_date.
  rewrite trim_join, split_whitespace_join by done. subst words. cbn [andb].
  rewrite (bool_decide_eq_true_2 (lit "GMT" = lit "GMT")) by done. subst wd. rewrite Hwd2. cbn [andb].
  rewrite Hp2, Hmn2. unfold parse_i64 at 1. rewrite parse_int_dec; [|eapply year_in_range; [done|]|done].
  2: { unfold i64_min, i64_max in Ht. Z.div_mod_to_equations; lia. }
  subst clock. rewrite finish_parse_clock by done. rewrite days_from_civil_same, Hn. f_equal.
  subst sod. Z.div_mod_to_equations; lia.
Qed.

Lemma http_date_roundtrip_witness :
  parse_http_date (http_date 784111777) = Some 784111777 /\
  http_date 784111777 = lit "Sun, 06 Nov 1994 08:49:37 GMT".
Proof. split; [apply http_date_roundtrip; vm_compute; split; congruence|reflexivity]. Defined.

(** The checks on the clock are upper bounds only, and a day is not compared
    with its month: a negative hour and 31 February are accepted. *)
Lemma accepts_malformed_dates :
  parse_http_date (lit "Sun, 06 Nov 1994 -8:49:37 GMT") = Some 784054177 /\
  parse_http_date (lit "Thu, 31 Feb 1994 00:00:00 GMT") = Some 762652800.
Proof. split; reflexivity. Qed.

End HttpDate.
