(* ===== verification/Cron.v ===== *)
(** * Cron expressions ([rustlavel-queue/src/cron.rs])

    Parsing the five fields into bit masks, matching a moment, and the search
    for the next occurrence, which skips whole days and hours. The main theorem
    says that the search returns the first matching minute of its window and
    nothing else; a second one shows that the window is too short for the
    leap day around a century year. *)

From S2P Require Import Prelude Text CivilTime.

Module Cron.
Import Time.

(** A field is the [u64] mask it wraps. *)
Definition contains (bits value : Z) : bool :=
  (value <? 64) && negb (Z.land bits (Z.shiftl 1 value) =? 0).

Record Cron := {
  c_minute : Z;
  c_hour : Z;
  c_day_of_month : Z;
  c_month : Z;
  c_day_of_week : Z;
  dom_restricted : bool;
  dow_restricted : bool;
  expression : list Z;
}.

(** The messages of the source, as their cases. *)
Inductive CronError :=
  | FieldCount (n : nat)
  | InvalidField (part label : list Z) (min max : Z)
  | ZeroStep (part label : list Z)
  | BackwardRange (part label : list Z).

(** ** Parsing *)

(** The [while value <= high] loop; [value += step] is [u32] arithmetic. The
    masks have 64 bits, and fuel 64 covers every run (see [select_fuel]). *)
Fixpoint select (fuel : nat) (value high step bits : Z) : Z :=
  match fuel with
  | O => bits
  | S fuel =>
      if value <=? high
      then select fuel (u32 (value + step)) high step (Z.lor bits (Z.shiftl 1 value))
      else bits
  end.

Definition parse_num (part label : list Z) (min max : Z) (text : list Z) : result CronError Z :=
  match parse_u32 text with
  | Some n => Ok n
  | None => Err (InvalidField part label min max)
  end.

Definition parse_part (part : list Z) (min max : Z) (label : list Z) : result CronError Z :=
  let? (range_spec, step) :=
    match split_once 47 part with
    | Some (range_spec, step_spec) =>
        let? step := parse_num part label min max step_spec in
        if step =? 0 then Err (ZeroStep part label) else Ok (range_spec, step)
    | None => Ok (part, 1)
    end in
  let? (low, high) :=
    if bool_decide (range_spec = lit "*") then Ok (min, max)
    else match split_once 45 range_spec with
    | Some (start, end_) =>
        let? start := parse_num part label min max start in
        let? end_ := parse_num part label min max end_ in
        if end_ <? start then Err (BackwardRange part label) else Ok (start, end_)
    | None =>
        let? value := parse_num part label min max range_spec in
        if bool_decide (47 ∈ part) then Ok (value, max) else Ok (value, value)
    end in
  if (low <? min) || (max <? high) then Err (InvalidField part label min max)
  else Ok (select 64 low high step 0).

Fixpoint parse_parts (parts : list (list Z)) (min max : Z) (label : list Z) (bits : Z)
    : result CronError Z :=
  match parts with
  | [] => Ok bits
  | part :: parts =>
      let? b := parse_part part min max label in
      parse_parts parts min max label (Z.lor bits b)
  end.

Definition parse_field (spec : list Z) (min max : Z) (label : list Z) : result CronError Z :=
  match spec with
  | [] => Err (InvalidField spec label min max)
  | _ => parse_parts (split_on 44 spec) min max label 0
  end.

Definition parse_weekday_field (spec : list Z) : result CronError Z :=
  let? bits := parse_field spec 0 7 (lit "day of week") in
  Ok (if contains bits 7 then Z.lor (Z.ldiff bits (Z.shiftl 1 7)) 1 else bits).

Definition parse (text : list Z) : result CronError Cron :=
  match split_whitespace text with
  | [f0; f1; f2; f3; f4] =>
      let? minute := parse_field f0 0 59 (lit "minute") in
      let? hour := parse_field f1 0 23 (lit "hour") in
      let? dom := parse_field f2 1 31 (lit "day of month") in
      let? month := parse_field f3 1 12 (lit "month") in
      let? dow := parse_weekday_field f4 in
      Ok {| c_minute := minute; c_hour := hour; c_day_of_month := dom; c_month := month;
            c_day_of_week := dow;
            dom_restricted := negb (bool_decide (f2 = lit "*"));
            dow_restricted := negb (bool_decide (f4 = lit "*"));
            expression := join (lit " ") [f0; f1; f2; f3; f4] |}
  | fields => Err (FieldCount (length fields))
  end.

(** ** Matching *)

Definition date_matches (c : Cron) (at_ : DateTime) : bool :=
  if negb (contains (c_month c) (month at_)) then false
  else
    let by_day := contains (c_day_of_month c) (day at_) in
    let by_weekday := contains (c_day_of_week c) (weekday at_) in
    match dom_restricted c, dow_restricted c with
    | true, true => by_day || by_weekday
    | true, false => by_day
    | false, true => by_weekday
    | false, false => true
    end.

Definition matches (c : Cron) (at_ : DateTime) : bool :=
  date_matches c at_ && contains (c_hour c) (hour at_) && contains (c_minute c) (minute at_).

(** ** The next occurrence *)

Fixpoint next_loop (fuel : nat) (c : Cron) (candidate limit : Z) : option Z :=
  match fuel with
  | O => None
  | S fuel =>
      if candidate <? limit then
        let at_ := from_unix candidate in
        if negb (date_matches c at_) then
          next_loop fuel c (start_of_day candidate + SECONDS_PER_DAY) limit
        else if negb (contains (c_hour c) (hour at_)) then
          next_loop fuel c (start_of_day candidate + (hour at_ + 1) * 3600) limit
        else if contains (c_minute c) (minute at_) then Some candidate
        else next_loop fuel c (candidate + 60) limit
      else None
  end.

(** The search window: four years of 366 days. Every turn of the loop advances
    by at least a minute, so one turn per minute is fuel enough. The code adds in
    [i64], where the sums of this function stay in range for every moment up to
    [i64_max - window - 60 - SECONDS_PER_DAY]: that is before the year 292277026592;
    here the sums are taken in [Z]. *)
Definition window : Z := 4 * 366 * SECONDS_PER_DAY.

Definition next_after (c : Cron) (after : Z) : option Z :=
  let candidate := start_of_minute after + 60 in
  next_loop (S (Z.to_nat (window / 60))) c candidate (candidate + window).

(** ** The search is correct *)

Lemma same_day c t u :
  t / SECONDS_PER_DAY = u / SECONDS_PER_DAY ->
  date_matches c (from_unix t) = date_matches c (from_unix u).
Proof.
  intros H. unfold from_unix. rewrite H. destruct (civil_from_days _) as [[y m] d]. done.
Qed.

Lemma hour_from_unix t : hour (from_unix t) = t mod SECONDS_PER_DAY / 3600.
Proof. unfold from_unix. by destruct (civil_from_days _) as [[y m] d]. Qed.

Lemma matches_false_date c t : date_matches c (from_unix t) = false -> matches c (from_unix t) = false.
Proof. unfold matches. by intros ->. Qed.

Lemma matches_false_hour c t :
  contains (c_hour c) (hour (from_unix t)) = false -> matches c (from_unix t) = false.
Proof. unfold matches. intros ->. by rewrite andb_false_r. Qed.

(** [r] is the first aligned matching moment of [from, limit). *)
Definition first_match (c : Cron) (from limit : Z) (r : option Z) : Prop :=
  match r with
  | Some t =>
      from <= t < limit /\ t mod 60 = 0 /\ matches c (from_unix t) = true /\
      forall u, from <= u < t -> u mod 60 = 0 -> matches c (from_unix u) = false
  | None => forall u, from <= u < limit -> u mod 60 = 0 -> matches c (from_unix u) = false
  end.

(** Moving the start past moments that do not match keeps the answer. *)
Lemma first_match_skip c from next limit r :
  from <= next ->
  (forall u, from <= u < next -> u mod 60 = 0 -> matches c (from_unix u) = false) ->
  first_match c next limit r -> first_match c from limit r.
Proof.
  intros Hle Hskip. destruct r as [t|]; simpl.
  - intros (Ht & Ha & Hm & Hf). do 3 (split; [lia || done|]).
    intros u Hu Hua. destruct (decide (u < next)); [apply Hskip|apply Hf]; auto; lia.
  - intros Hf u Hu Hua. destruct (decide (u < next)); [apply Hskip|apply Hf]; auto; lia.
Qed.

Lemma next_loop_first fuel c candidate limit :
  candidate mod 60 = 0 -> limit - candidate < 60 * Z.of_nat fuel ->
  first_match c candidate limit (next_loop fuel c candidate limit).
Proof.
  revert candidate; induction fuel as [|fuel IH]; intros t Ha Hf; cbn [next_loop].
  { simpl. intros; lia. }
  destruct (Z.ltb_spec t limit) as [Hlt|]; [|simpl; intros; lia].
  assert (Hstep : forall next, t + 60 <= next -> next mod 60 = 0 ->
    (forall u, t <= u < next -> u mod 60 = 0 -> matches c (from_unix u) = false) ->
    first_match c t limit (next_loop fuel c next limit)).
  { intros next Hn Hna Hskip. apply (first_match_skip _ _ next); [lia|done|]. apply IH; lia. }
  destruct (date_matches c (from_unix t)) eqn:Hd; cbn [negb].
  2: { apply Hstep; unfold start_of_day, SECONDS_PER_DAY in *.
    1,2: Z.div_mod_to_equations; lia.
    intros u Hu _. apply matches_false_date. rewrite <- Hd. apply same_day.
    unfold SECONDS_PER_DAY. Z.div_mod_to_equations; lia. }
  destruct (contains (c_hour c) (hour (from_unix t))) eqn:Hh; cbn [negb].
  2: { rewrite hour_from_unix. apply Hstep; unfold start_of_day, SECONDS_PER_DAY in *.
    1,2: Z.div_mod_to_equations; lia.
    intros u Hu _. apply matches_false_hour. rewrite <- Hh. f_equal. rewrite !hour_from_unix.
    unfold SECONDS_PER_DAY. Z.div_mod_to_equations; lia. }
  destruct (contains (c_minute c) (minute (from_unix t))) eqn:Hm.
  { simpl. split; [lia|]. split; [done|]. split; [unfold matches; by rewrite Hd, Hh, Hm|]. intros; lia. }
  apply Hstep; [lia|Z.div_mod_to_equations; lia|]. intros u Hu Hua.
  assert (u = t) as -> by (Z.div_mod_to_equations; lia). unfold matches. rewrite Hm. apply andb_false_r.
Qed.

(** C37. The next occurrence is the first one. [next_after] returns the earliest
    minute strictly after the given moment that the expression matches, however
    many days and hours it skipped on the way; it answers [None] only when no
    minute of the next [4 * 366] days matches. Moments are integers, as large as
    they may be: the code's own are [i64], whose sums do not overflow but within
    the window of its end. *)
Theorem next_after_first c after :
  match next_after c after with
  | Some t =>
      after < t /\ t mod 60 = 0 /\ matches c (from_unix t) = true /\
      forall u, after < u < t -> u mod 60 = 0 -> matches c (from_unix u) = false
  | None =>
      forall u, after < u < start_of_minute after + 60 + window -> u mod 60 = 0 ->
        matches c (from_unix u) = false
  end.
Proof.
  unfold next_after. set (from := start_of_minute after + 60).
  assert (Hfrom : after < from <= after + 60 /\ from mod 60 = 0)
    by (subst from; unfold start_of_minute; Z.div_mod_to_equations; lia).
  pose proof (next_loop_first (S (Z.to_nat (window / 60))) c from (from + window)) as H.
  specialize (H ltac:(lia) ltac:(change (window / 60) with 2108160; change window with 126489600; lia)).
  assert (Hal : forall u, after < u -> u mod 60 = 0 -> from <= u)
    by (intros; Z.div_mod_to_equations; lia).
  destruct (next_loop _ _ _ _) as [t|]; simpl in H.
  - destruct H as (Ht & Ha & Hm & Hf). do 3 (split; [lia || done|]).
    intros u Hu Hua. apply Hf; [|done]. split; [apply Hal; lia|lia].
  - intros u Hu Hua. apply H; [|done]. split; [apply Hal; lia|lia].
Qed.

(** ** The masks mean what the expression says *)

Lemma contains_spec bits v : 0 <= v < 64 -> contains bits v = Z.testbit bits v.
Proof.
  intros Hv. unfold contains. rewrite Z.shiftl_1_l, land_pow2_zero, negb_involutive by lia.
  by rewrite (proj2 (Z.ltb_lt v 64)) by lia.
Qed.

Lemma select_spec fuel value high step bits v :
  0 <= value -> high < 64 -> 1 <= step -> step < 2 ^ 32 - 64 -> 0 <= v ->
  high - value < Z.of_nat fuel ->
  Z.testbit (select fuel value high step bits) v =
  Z.testbit bits v || ((value <=? v) && (v <=? high) && ((v - value) mod step =? 0)).
Proof.
  intros Hval Hh Hs Hov Hv. revert value bits Hval; induction fuel as [|fuel IH];
    intros value bits Hval Hf; cbn [select].
  { destruct (Z.leb_spec value v), (Z.leb_spec v high); [lia|..]; by rewrite orb_false_r. }
  destruct (Z.leb_spec value high) as [Hle|].
  2: { destruct (Z.leb_spec value v), (Z.leb_spec v high); [lia|..]; by rewrite orb_false_r. }
  rewrite wrap_small by lia. rewrite IH by lia. rewrite Z.lor_spec, Z.shiftl_1_l.
  rewrite Z.pow2_bits_eqb by lia. rewrite <- orb_assoc. f_equal.
  replace ((v - (value + step)) mod step) with ((v - value) mod step)
    by (rewrite <- (Z.mod_add (v - (value + step)) 1 step) by lia; f_equal; lia).
  destruct (Z.eqb_spec value v) as [->|Hne]; cbn [orb].
  - rewrite Z.sub_diag, Z.mod_0_l, Z.leb_refl by lia. symmetry. apply andb_true_iff.
    split; [|done]. apply andb_true_iff. lia.
  - destruct (Z.leb_spec value v) as [Hlt|]; cbn [andb].
    2: { rewrite (proj2 (Z.leb_gt (value + step) v)) by lia. done. }
    destruct (Z.leb_spec (value + step) v); cbn [andb]; [done|].
    rewrite Z.mod_small by lia. rewrite (proj2 (Z.eqb_neq (v - value) 0)) by lia.
    by rewrite andb_false_r.
Qed.

(** Fuel 64 never runs out, for any step: the values either climb to [high] or,
    when the [u32] addition wraps, fall to 0. *)
Lemma select_fuel fuel value high step bits :
  0 <= value <= high -> high < 64 -> 1 <= step < 2 ^ 32 -> (64 <= fuel)%nat ->
  select fuel value high step bits = select 64 value high step bits.
Proof.
  intros Hv Hh Hs Hf.
  assert (H : forall f1 f2 value bits, 0 <= value < 2 ^ 32 ->
    (step < 64 -> high - value < Z.of_nat f1 /\ high - value < Z.of_nat f2) ->
    (64 <= step -> value <= high -> value < Z.of_nat f1 /\ value < Z.of_nat f2) ->
    select f1 value high step bits = select f2 value high step bits).
  { clear - Hh Hs. intros f1. induction f1 as [|f1 IH]; intros f2 value bits Hv H1 H2.
    - destruct f2; [done|]. cbn [select]. destruct (Z.leb_spec value high); [lia|done].
    - destruct f2 as [|f2]; cbn [select]; destruct (Z.leb_spec value high); try done; [lia|].
      apply IH; [by apply (wrap_range 32)|..]; intros; unfold wrap in *;
        (destruct (decide (value + step < 2 ^ 32));
          [rewrite Z.mod_small by lia
          |replace ((value + step) mod 2 ^ 32) with (value + step - 2 ^ 32)
             by (apply (Z.mod_unique_pos _ _ 1); lia)]);
        try rewrite Z.mod_small in * by lia; try lia. }
  apply H; lia.
Qed.

(** The grammar of a field, printed the way a crontab writes it. *)
Inductive Range := All | One (n : Z) | Between (a b : Z).
Definition Part : Type := Range * option Z.

Definition print_range (r : Range) : list Z :=
  match r with
  | All => lit "*"
  | One n => dec n
  | Between a b => dec a ++ lit "-" ++ dec b
  end.

Definition print_part (p : Part) : list Z :=
  match p.2 with
  | None => print_range p.1
  | Some step => print_range p.1 ++ lit "/" ++ dec step
  end.

Definition print_field (ps : list Part) : list Z := join (lit ",") (map print_part ps).

(** What a part selects: a bare [n/step] runs to the end of the field. *)
Definition part_bounds (min max : Z) (p : Part) : Z * Z :=
  match p with
  | (All, _) => (min, max)
  | (One n, None) => (n, n)
  | (One n, Some _) => (n, max)
  | (Between a b, _) => (a, b)
  end.

Definition part_selects (min max : Z) (p : Part) (v : Z) : bool :=
  let '(low, high) := part_bounds min max p in
  (low <=? v) && (v <=? high) && ((v - low) mod default 1 p.2 =? 0).

Definition part_ok (min max : Z) (p : Part) : bool :=
  let '(low, high) := part_bounds min max p in
  (min <=? low) && (low <=? high) && (high <=? max) &&
  (0 <? default 1 p.2) && (default 1 p.2 <? 2 ^ 32 - 64).

Lemma dec_digits_only n c : 0 <= n -> ~ (48 <= c <= 57) -> Forall (fun b => b <> c) (dec n).
Proof.
  intros Hn Hc. rewrite dec_nonneg by done. eapply Forall_impl; [|apply dec_nat_digits].
  simpl. lia.
Qed.

Lemma parse_num_dec part label min max n :
  0 <= n < 2 ^ 32 -> parse_num part label min max (dec n) = Ok n.
Proof.
  intros Hn. unfold parse_num, parse_u32. rewrite parse_int_dec; [done| |lia]. unfold u32_max. lia.
Qed.

Lemma dec_not_star n : 0 <= n -> dec n <> lit "*".
Proof.
  intros Hn E. pose proof (dec_nat_digits n) as H. rewrite <- dec_nonneg, E in H by done.
  change (lit "*") with [42] in H. inversion H; lia.
Qed.

Lemma print_range_no_slash min max r step :
  0 <= min -> part_ok min max (r, step) = true -> Forall (fun b => b <> 47) (print_range r).
Proof.
  intros Hmin Hok. unfold part_ok in Hok.
  destruct r, step; cbn in Hok; cbn [print_range]; rewrite ?Forall_app; split_and?;
    solve [apply dec_digits_only; lia | by apply (bool_decide_unpack _)].
Qed.

(** The range of a part is read back, whatever follows it. *)
Lemma parse_part_print min max label p :
  0 <= min -> max < 64 -> part_ok min max p = true ->
  parse_part (print_part p) min max label =
  Ok (select 64 (part_bounds min max p).1 (part_bounds min max p).2 (default 1 p.2) 0).
Proof.
  intros Hmin Hmax Hok. destruct p as [r step]. pose proof (print_range_no_slash _ _ _ _ Hmin Hok) as Hns.
  unfold parse_part, print_part. cbn [fst snd].
  assert (Hstep : match split_once 47 (match step with None => print_range r
      | Some step => print_range r ++ lit "/" ++ dec step end) with
    | Some (range_spec, step_spec) =>
        let? step0 := parse_num (print_part (r, step)) label min max step_spec in
        if step0 =? 0 then Err (ZeroStep (print_part (r, step)) label) else Ok (range_spec, step0)
    | None => Ok (print_part (r, step), 1)
    end = Ok (print_range r, default 1 step)).
  { unfold part_ok in Hok. destruct (part_bounds _ _ _) as [low high]. destruct step as [st|]; simpl in *.
    - rewrite split_once_app by done. rewrite parse_num_dec by lia.
      by rewrite (proj2 (Z.eqb_neq st 0)) by lia.
    - by rewrite split_once_none. }
  unfold print_part in Hstep. cbn [fst snd] in Hstep. rewrite Hstep.
  assert (Hslash : bool_decide (47 ∈ match step with None => print_range r
      | Some step => print_range r ++ lit "/" ++ dec step end) = bool_decide (is_Some step)).
  { apply bool_decide_ext. destruct step as [st|].
    - split; [by eexists|]. intros _. apply elem_of_app. right. apply elem_of_app. left. by left.
    - split; [|by intros []]. intros Hin. apply list_elem_of_In in Hin.
      rewrite Forall_forall in Hns. by apply Hns in Hin. }
  unfold part_ok in Hok. clear Hns Hstep.
  destruct r as [|n|a b]; cbn [print_range].
  - rewrite bool_decide_true by done. destruct step; rewrite !Z.ltb_irrefl; reflexivity.
  - assert (0 <= n < 2 ^ 32) by (destruct step; cbn in Hok; lia).
    rewrite bool_decide_false by (apply dec_not_star; lia).
    rewrite split_once_none by (apply dec_digits_only; lia).
    rewrite parse_num_dec by done. cbn [print_range] in Hslash. rewrite Hslash.
    destruct step; cbn in Hok; [rewrite bool_decide_true by done|rewrite bool_decide_false by by intros []];
      rewrite (proj2 (Z.ltb_ge n min)), (proj2 (Z.ltb_ge max _)) by lia; reflexivity.
  - assert (0 <= a <= b /\ b < 2 ^ 32 /\ min <= a /\ b <= max) as (Ha & Hb & Hr) by (destruct step; cbn in Hok; lia).
    rewrite bool_decide_false.
    2: { intros E. apply (f_equal length) in E. rewrite !length_app in E. simpl in E.
         pose proof (dec_nonempty a). destruct (dec a); simpl in *; [done|lia]. }
    change (lit "-") with [45%Z]. cbn [app].
    rewrite split_once_app by (apply dec_digits_only; lia).
    rewrite !parse_num_dec by lia. rewrite (proj2 (Z.ltb_ge b a)) by lia.
    rewrite (proj2 (Z.ltb_ge a min)), (proj2 (Z.ltb_ge max b)) by lia. by destruct step.
Qed.

Lemma part_selects_spec min max p v :
  0 <= min -> max < 64 -> part_ok min max p = true -> 0 <= v ->
  Z.testbit (select 64 (part_bounds min max p).1 (part_bounds min max p).2 (default 1 p.2) 0) v =
  part_selects min max p v.
Proof.
  intros Hmin Hmax Hok Hv. unfold part_selects, part_ok in *.
  destruct (part_bounds min max p) as [low high]. cbn [fst snd].
  rewrite select_spec, Z.bits_0 by lia. done.
Qed.

Lemma print_part_no_comma min max p :
  0 <= min -> part_ok min max p = true ->
  Forall (fun b => b <> 44) (print_part p) /\ Forall visible (print_part p) /\ print_part p <> [].
Proof.
  intros Hmin Hok. unfold part_ok in Hok.
  assert (Hd : forall n, 0 <= n -> Forall (fun b => b <> 44) (dec n)) by (intros; apply dec_digits_only; lia).
  assert (Hne : forall n x, dec n ++ x <> []) by (intros n x; pose proof (dec_nonempty n); by destruct (dec n)).
  destruct p as [[|n|a b] [st|]]; unfold print_part; cbn in Hok; cbn [fst snd print_range];
    rewrite <- ?app_assoc; (split; [|split]); rewrite ?Forall_app; split_and?;
    solve [apply Hd; lia | apply dec_visible | apply Hne | apply dec_nonempty | done
          | by apply (bool_decide_unpack _) | by repeat constructor].
Qed.

(** A field of the grammar is well formed, and what it selects. *)
Definition field_ok (min max : Z) (ps : list Part) : bool :=
  negb (bool_decide (ps = [])) && forallb (part_ok min max) ps.
Definition field_selects (min max : Z) (ps : list Part) (v : Z) : bool :=
  existsb (fun p => part_selects min max p v) ps.

Lemma parse_parts_print min max label ps bits v :
  0 <= min -> max < 64 -> forallb (part_ok min max) ps = true -> 0 <= v ->
  exists bits', parse_parts (map print_part ps) min max label bits = Ok bits' /\
    Z.testbit bits' v = Z.testbit bits v || field_selects min max ps v.
Proof.
  intros Hmin Hmax Hok Hv. revert bits; induction ps as [|p ps IH]; intros bits; cbn [map parse_parts].
  { exists bits. split; [done|]. cbn. by rewrite orb_false_r. }
  cbn [forallb] in Hok. apply andb_true_iff in Hok as [Hp Hps].
  rewrite parse_part_print by done.
  edestruct (IH Hps) as (bits' & -> & Hb). exists bits'. split; [done|].
  rewrite Hb, Z.lor_spec, part_selects_spec by done. cbn [field_selects existsb].
  by rewrite orb_assoc.
Qed.

Lemma print_field_words min max ps :
  0 <= min -> field_ok min max ps = true ->
  Forall (Forall (fun b => b <> 44)) (map print_part ps) /\
  Forall visible (print_field ps) /\ print_field ps <> [].
Proof.
  intros Hmin [Hne Hok]%andb_true_iff. rewrite forallb_forall in Hok.
  assert (Hp := fun p Hin => print_part_no_comma min max p Hmin (Hok p Hin)).
  split; [|split].
  - apply Forall_map, Forall_forall. intros p Hin. apply (Hp p Hin).
  - clear Hne. unfold print_field. induction ps as [|p ps IH]; [by constructor|]. cbn [map].
    destruct (decide (map print_part ps = [])) as [->|Hm]; [apply (Hp p); by left|].
    rewrite join_cons by done. rewrite !Forall_app. split; [apply (Hp p); by left|].
    split; [by apply (bool_decide_unpack _)|]. apply IH; intros; [apply Hok|apply Hp]; by right.
  - unfold print_field. destruct ps as [|p ps]; [done|]. cbn [map].
    destruct (Hp p) as (_ & _ & Hne'); [by left|].
    destruct (decide (map print_part ps = [])) as [->|Hm]; [done|].
    rewrite join_cons by done. by destruct (print_part p).
Qed.

Lemma parse_field_print min max label ps :
  0 <= min -> max < 64 -> field_ok min max ps = true ->
  exists bits, parse_field (print_field ps) min max label = Ok bits /\
    forall v, 0 <= v -> Z.testbit bits v = field_selects min max ps v.
Proof.
  intros Hmin Hmax Hf. destruct (print_field_words _ _ _ Hmin Hf) as (Hw & _ & Hne).
  apply andb_true_iff in Hf as [Hps Hok].
  assert (Hsplit : split_on 44 (print_field ps) = map print_part ps).
  { apply split_on_join; [|done]. by destruct ps. }
  unfold parse_field. destruct (print_field ps) eqn:E; [done|]. rewrite Hsplit.
  destruct (parse_parts_print min max label ps 0 0 Hmin Hmax Hok ltac:(lia)) as (bits & Hbits & _).
  exists bits. split; [done|]. intros v Hv.
  destruct (parse_parts_print min max label ps 0 v Hmin Hmax Hok Hv) as (bits' & Hbits' & Hv').
  rewrite Hbits in Hbits'. injection Hbits' as <-. by rewrite Hv', Z.bits_0.
Qed.

(** 7 is another name of Sunday. *)
Definition weekday_selects (ps : list Part) (v : Z) : bool :=
  field_selects 0 7 ps v || ((v =? 0) && field_selects 0 7 ps 7).

Lemma parse_weekday_print ps :
  field_ok 0 7 ps = true ->
  exists bits, parse_weekday_field (print_field ps) = Ok bits /\
    forall v, 0 <= v < 7 -> Z.testbit bits v = weekday_selects ps v.
Proof.
  intros Hf. destruct (parse_field_print 0 7 (lit "day of week") ps) as (bits & Hp & Hb); [lia..|done|].
  unfold parse_weekday_field. rewrite Hp, contains_spec by lia. rewrite (Hb 7) by lia.
  eexists. split; [done|]. intros v Hv. unfold weekday_selects. rewrite <- (Hb v) by lia.
  destruct (field_selects 0 7 ps 7).
  - rewrite Z.lor_spec, Z.ldiff_spec, Z.shiftl_1_l, Z.pow2_bits_false by lia.
    change 1 with (2 ^ 0). rewrite Z.pow2_bits_eqb by lia.
    rewrite !andb_true_r. by rewrite (Z.eqb_sym 0 v).
  - by rewrite andb_false_r, orb_false_r.
Qed.

(** An expression of the grammar: its five fields. *)
Record Spec := {
  s_minute : list Part; s_hour : list Part; s_dom : list Part; s_month : list Part; s_dow : list Part;
}.

Definition spec_ok (s : Spec) : bool :=
  field_ok 0 59 (s_minute s) && field_ok 0 23 (s_hour s) && field_ok 1 31 (s_dom s) &&
  field_ok 1 12 (s_month s) && field_ok 0 7 (s_dow s).

Definition print_spec (s : Spec) : list Z :=
  join [32] [print_field (s_minute s); print_field (s_hour s); print_field (s_dom s);
             print_field (s_month s); print_field (s_dow s)].

(** Cron's rule: the two day fields are alternatives when both are narrowed,
    and an unnarrowed one does not take part. *)
Definition spec_matches (s : Spec) (at_ : DateTime) : bool :=
  let star ps := bool_decide (print_field ps = lit "*") in
  let by_day := field_selects 1 31 (s_dom s) (day at_) in
  let by_weekday := weekday_selects (s_dow s) (weekday at_) in
  field_selects 0 59 (s_minute s) (minute at_) && field_selects 0 23 (s_hour s) (hour at_) &&
  field_selects 1 12 (s_month s) (month at_) &&
  (if star (s_dom s) then (if star (s_dow s) then true else by_weekday)
   else if star (s_dow s) then by_day else by_day || by_weekday).

Lemma from_unix_ranges t :
  0 <= minute (from_unix t) < 60 /\ 0 <= hour (from_unix t) < 24 /\
  1 <= day (from_unix t) <= 31 /\ 1 <= month (from_unix t) <= 12 /\ 0 <= weekday (from_unix t) < 7.
Proof.
  pose proof (proj1 (civil_from_days_spec (t / SECONDS_PER_DAY))) as Hv. unfold from_unix.
  destruct (civil_from_days _) as [[y m] d]. cbn [minute hour day month weekday].
  apply valid_spec in Hv. unfold Calendar.days_in_month, SECONDS_PER_DAY, weekday_of in *.
  assert (1 <= d <= 31) by (repeat case_match; lia).
  split_and!; try lia; Z.div_mod_to_equations; lia.
Qed.

(** An expression means what its text says. Every well-formed expression
    (lists of [*], numbers, ranges and steps in their field's bounds) is
    accepted, and the parsed value matches exactly the moments the fields
    select: the steps start at the low end, 7 is Sunday, and the two day fields
    are alternatives only when both are narrowed. *)
Theorem parse_matches s :
  spec_ok s = true ->
  exists c, parse (print_spec s) = Ok c /\ expression c = print_spec s /\
    forall t, matches c (from_unix t) = spec_matches s (from_unix t).
Proof.
  intros Hok. unfold spec_ok in Hok. rewrite !andb_true_iff in Hok.
  destruct Hok as ((((H0 & H1) & H2) & H3) & H4).
  assert (Hwords : Forall (fun w => Forall visible w /\ w <> [])
    [print_field (s_minute s); print_field (s_hour s); print_field (s_dom s);
     print_field (s_month s); print_field (s_dow s)]).
  { repeat (apply Forall_cons_2); [..|apply Forall_nil_2];
      eapply print_field_words; [|eassumption| |eassumption| |eassumption| |eassumption| |eassumption]; lia. }
  unfold parse, print_spec. rewrite split_whitespace_join by done. clear Hwords.
  destruct (parse_field_print 0 59 (lit "minute") _ ltac:(lia) ltac:(lia) H0) as (b0 & -> & Hb0).
  destruct (parse_field_print 0 23 (lit "hour") _ ltac:(lia) ltac:(lia) H1) as (b1 & -> & Hb1).
  destruct (parse_field_print 1 31 (lit "day of month") _ ltac:(lia) ltac:(lia) H2) as (b2 & -> & Hb2).
  destruct (parse_field_print 1 12 (lit "month") _ ltac:(lia) ltac:(lia) H3) as (b3 & -> & Hb3).
  destruct (parse_weekday_print _ H4) as (b4 & -> & Hb4).
  eexists. split; [reflexivity|]. split; [reflexivity|]. intros t.
  destruct (from_unix_ranges t) as (R0 & R1 & R2 & R3 & R4).
  unfold matches, date_matches, spec_matches.
  cbn [c_minute c_hour c_day_of_month c_month c_day_of_week dom_restricted dow_restricted].
  rewrite !contains_spec by lia. rewrite Hb0, Hb1, Hb2, Hb3, Hb4 by lia.
  do 2 case_bool_decide; cbn [negb];
    repeat match goal with
    | |- context [field_selects ?a ?b ?c ?d] => destruct (field_selects a b c d)
    | |- context [weekday_selects ?a ?b] => destruct (weekday_selects a b)
    end; reflexivity.
Qed.

(** Every quarter hour, from nine to five on working days. *)
Definition office_hours : Spec :=
  {| s_minute := [(All, Some 15)]; s_hour := [(Between 9 17, None)]; s_dom := [(All, None)];
     s_month := [(All, None)]; s_dow := [(Between 1 5, None)] |}.

Lemma parse_matches_witness :
  print_spec office_hours = lit "*/15 9-17 * * 1-5" /\
  exists c, parse (print_spec office_hours) = Ok c /\ expression c = print_spec office_hours /\
    forall t, matches c (from_unix t) = spec_matches office_hours (from_unix t).
Proof. split; [reflexivity|]. apply (parse_matches office_hours). reflexivity. Defined.

(** The window is too short around a century year. After 1 March 2096 the
    leap day of 2104 is the next 29 February, and it matches [0 0 29 2 *], but
    [next_after] answers [None], its answer for dates that never occur: 2100 is
    not a leap year, so eight years pass without one. *)
Theorem next_after_misses_century_leap_day :
  exists c, parse (lit "0 0 29 2 *") = Ok c /\
    next_after c (to_unix 2096 3 1 0 0 0) = None /\
    matches c (from_unix (to_unix 2104 2 29 0 0 0)) = true.
Proof. eexists. split; [reflexivity|]. split; vm_compute; reflexivity. Qed.

(** A step whose [u32] addition wraps selects values below its range. *)
Lemma wrapping_step :
  exists bits, parse_field (lit "30/4294967295") 0 59 (lit "minute") = Ok bits /\
    contains bits 29 = true.
Proof. eexists. split; [vm_compute; reflexivity|]. reflexivity. Qed.

End Cron.
