(* ===== verification/Grants.v ===== *)
(** * Role-based access control: grants ([rustlavel-rbac/src/grants.rs])

    Permission names, the wildcard rule, and the precedence of denies, super
    roles and grants. The [BTreeSet]s are lists in iteration order: the code only
    iterates over them and asks for membership. *)

From S2P Require Import Prelude Text.

Module Grants.

Definition permission_matches (stored wanted : list Z) : bool :=
  if bool_decide (stored = lit "*") || bool_decide (stored = wanted) then true
  else match strip_suffix stored (lit ".*") with
       | None => false
       | Some prefix =>
           (length prefix <? length wanted)%nat && starts_with wanted prefix &&
           bool_decide (wanted !! length prefix = Some 46)
       end.

Record Grants := {
  roles : list (list Z);
  granted : list (list Z);
  denied : list (list Z);
  is_super : bool;
}.

Definition denies (g : Grants) (permission : list Z) : bool :=
  existsb (fun stored => permission_matches stored permission) (denied g).

Definition allows (g : Grants) (permission : list Z) : bool :=
  if denies g permission then false
  else if is_super g then true
  else existsb (fun stored => permission_matches stored permission) (granted g).

Definition has_role (g : Grants) (role : list Z) : bool := bool_decide (role ∈ roles g).

Definition effective (g : Grants) : list (list Z) :=
  List.filter (fun stored => negb (denies g stored)) (granted g).

(** ** The rule as a specification *)

(** [covers stored wanted]: the star covers everything, a name covers itself,
    and [p.*] covers whatever lies below [p.]. *)
Definition covers (stored wanted : list Z) : Prop :=
  stored = lit "*" \/ stored = wanted \/
  exists prefix rest, stored = prefix ++ lit ".*" /\ wanted = prefix ++ lit "." ++ rest.

Lemma permission_matches_spec stored wanted :
  permission_matches stored wanted = true <-> covers stored wanted.
Proof.
  unfold permission_matches, covers.
  destruct (bool_decide_reflect (stored = lit "*")) as [->|Hs]; [by split; [left|]|].
  destruct (bool_decide_reflect (stored = wanted)) as [->|Hw]; [by split; [right; left|]|].
  cbn [orb]. split.
  - destruct (strip_suffix stored (lit ".*")) as [prefix|] eqn:Hp; [|done].
    rewrite !andb_true_iff. intros [[_ Hst] Hdot%bool_decide_eq_true].
    apply strip_suffix_spec in Hp. apply starts_with_spec in Hst as [w ->].
    right; right. rewrite lookup_app_r, Nat.sub_diag in Hdot by lia.
    destruct w as [|b w]; [done|]. cbn in Hdot. injection Hdot as ->.
    by exists prefix, w.
  - intros [?|[?|(prefix & rest & -> & ->)]]; [done..|].
    rewrite (proj2 (strip_suffix_spec _ _ prefix)) by done.
    rewrite !andb_true_iff. split; [split|].
    + apply Nat.ltb_lt. rewrite length_app. cbn. lia.
    + apply starts_with_spec. by eexists.
    + apply bool_decide_eq_true. by rewrite lookup_app_r, Nat.sub_diag by lia.
Qed.

Lemma covers_refl p : covers p p.
Proof. right; by left. Qed.

Lemma app_star_not_star p : p ++ lit ".*" <> lit "*".
Proof. destruct p as [|a [|b p]]; done. Qed.

Lemma covers_star p : covers p (lit "*") -> p = lit "*".
Proof.
  intros [H|[H|(prefix & rest & -> & H)]]; [done..|].
  destruct prefix as [|a [|b prefix]]; done.
Qed.

Lemma covers_trans a b c : covers a b -> covers b c -> covers a c.
Proof.
  intros Hab [->|[->|(p & r & -> & ->)]]; [left; by apply covers_star|done|].
  destruct Hab as [->|[->|(q & s & -> & Hq)]]; [by left|right; right; by exists p, r|].
  right; right. exists q.
  change (lit ".*") with ([46] ++ [42]) in Hq. change (lit ".") with [46] in Hq |- *.
  (* p ++ ".*" = q ++ "." ++ s : the dot after q lies within p ++ "." *)
  rewrite !app_assoc in Hq.
  destruct s as [|x s _] using rev_ind.
  { rewrite app_nil_r in Hq. by apply app_inj_2 in Hq as [_ ?]. }
  rewrite app_assoc in Hq. apply app_inj_2 in Hq as [Hq _]; [|done].
  exists (s ++ r). split; [done|]. rewrite !app_assoc, Hq. done.
Qed.

Lemma denies_spec g p : denies g p = true <-> exists d, In d (denied g) /\ covers d p.
Proof.
  unfold denies. rewrite existsb_exists. setoid_rewrite permission_matches_spec. done.
Qed.

Lemma granted_spec g p :
  existsb (fun stored => permission_matches stored p) (granted g) = true <->
  exists r, In r (granted g) /\ covers r p.
Proof. rewrite existsb_exists. setoid_rewrite permission_matches_spec. done. Qed.

Lemma effective_spec g r : In r (effective g) <-> In r (granted g) /\ denies g r = false.
Proof. unfold effective. rewrite filter_In, negb_true_iff. done. Qed.

(** A rule that is itself denied only covers what is denied too. *)
Lemma denied_rule_covers_denied g r p : denies g r = true -> covers r p -> denies g p = true.
Proof.
  rewrite !denies_spec. intros (d & Hd & Hdr) Hrp. exists d. eauto using covers_trans.
Qed.

(** The precedence rule: a permission is allowed exactly when no direct deny
    covers it and either a super role or some granted rule does. In particular a
    deny outranks a super role, and without a grant the answer is no. *)
Theorem allows_iff g p :
  allows g p = true <->
  (~ exists d, In d (denied g) /\ covers d p) /\
  (is_super g = true \/ exists r, In r (granted g) /\ covers r p).
Proof.
  unfold allows. rewrite <- denies_spec, <- granted_spec.
  destruct (denies g p), (is_super g), (existsb _ _); intuition congruence.
Qed.

(** The list an administrator is shown is the list that decides: for a user
    without a super role a permission is allowed exactly when it is not denied
    and one of the [effective] rules covers it, so dropping the denied rules
    loses nothing, and every listed rule is itself allowed. *)
Theorem effective_decides g p :
  is_super g = false ->
  (allows g p = true <->
     denies g p = false /\ exists r, In r (effective g) /\ covers r p) /\
  (In p (effective g) -> allows g p = true).
Proof.
  intros Hs. unfold allows. rewrite Hs. setoid_rewrite effective_spec. split.
  - destruct (denies g p) eqn:Hd; [intuition congruence|]. rewrite granted_spec. split.
    + intros (r & Hr & Hc). split; [done|]. exists r. split; [|done]. split; [done|].
      destruct (denies g r) eqn:Hdr; [|done].
      by rewrite (denied_rule_covers_denied g r p) in Hd.
    + intros (_ & r & [Hr _] & Hc). eauto.
  - intros [Hp ->]. apply granted_spec. eauto using covers_refl.
Qed.

Definition editor : Grants :=
  {| roles := [lit "editor"]; granted := [lit "posts.*"; lit "users.avatar.edit"; lit "users.view"];
     denied := [lit "users.avatar.*"]; is_super := false |}.

Lemma effective_decides_witness :
  effective editor = [lit "posts.*"; lit "users.view"] /\
  (In (lit "users.view") (effective editor) -> allows editor (lit "users.view") = true).
Proof. split; [reflexivity|]. apply (effective_decides editor). reflexivity. Defined.

End Grants.
