(* ===== verification/Flags.v ===== *)
(** * Feature flags ([rustlavel-flags]: [scope.rs], [rollout.rs], [store.rs], [flags.rs])

    Who a flag is asked about, the stable percentage rollout, the store of
    overrides as an interface with its in-memory implementation, the precedence
    chain of [Flags], and the per-request memo of [ScopedFlags]. Resolvers are
    application code: a function from the scope to an answer or an error. *)

From S2P Require Import Prelude Text.

(** ** Scopes ([scope.rs]) *)
Module Scope.

Inductive Scope := NoScope | User (id : list Z) | Tenant (id : list Z).

#[export] Instance Scope_eq_dec : EqDecision Scope.
Proof. solve_decision. Defined.

Definition user_id (id : Z) : Scope := User (dec id).

Definition id (s : Scope) : list Z :=
  match s with NoScope => [] | User i | Tenant i => i end.

Definition kind (s : Scope) : list Z :=
  match s with NoScope => lit "global" | User _ => lit "user" | Tenant _ => lit "tenant" end.

Definition is_none (s : Scope) : bool := match s with NoScope => true | _ => false end.

Definition key (s : Scope) : list Z :=
  match s with
  | NoScope => lit "global"
  | User i => lit "user:" ++ i
  | Tenant i => lit "tenant:" ++ i
  end.

Lemma key_inj s s' : key s = key s' -> s = s'.
Proof. destruct s, s'; intros H; try discriminate H; apply app_inv_head in H || clear H; congruence. Qed.

End Scope.

(** ** Rollouts ([rollout.rs]) *)
Module Rollout.
Import Scope.

Definition BUCKETS : Z := 100.
Definition OFFSET : Z := 14695981039346656037.
Definition PRIME : Z := 1099511628211.

Definition eat (h : Z) (bs : list Z) : Z :=
  fold_left (fun h b => u64 (Z.lxor h b * PRIME)) bs h.

Definition hash (flag : list Z) (s : Scope) : Z :=
  eat (eat (eat OFFSET flag) [31]) (key s).

Definition mix (h : Z) : Z :=
  let h := Z.lxor h (Z.shiftr h 30) in
  let h := u64 (h * 13787848793156543929) in
  let h := Z.lxor h (Z.shiftr h 27) in
  let h := u64 (h * 10723151780598845931) in
  Z.lxor h (Z.shiftr h 31).

Definition bucket (flag : list Z) (s : Scope) : Z := u8 (mix (hash flag s) mod BUCKETS).

Definition in_rollout (flag : list Z) (s : Scope) (percent : Z) : bool :=
  bucket flag s <? Z.min percent BUCKETS.

(** *** The finaliser loses nothing *)

Lemma testbit_above n z i : 0 <= z < 2 ^ n -> 0 <= n <= i -> Z.testbit z i = false.
Proof.
  intros Hz Hi. rewrite <- (Z.mod_small z (2 ^ n)) by done. by apply Z.mod_pow2_bits_high.
Qed.

Lemma xorshift_inj n k y z :
  0 <= n -> 0 < k -> 0 <= y < 2 ^ n -> 0 <= z < 2 ^ n ->
  Z.lxor y (Z.shiftr y k) = Z.lxor z (Z.shiftr z k) -> y = z.
Proof.
  intros Hn Hk Hy Hz Heq. apply Z.bits_inj'. intros i Hi.
  assert (H : forall m i, 0 <= i -> n - Z.of_nat m <= i -> Z.testbit y i = Z.testbit z i).
  { clear i Hi. induction m as [|m IH]; intros i Hi Hm.
    - by rewrite !(testbit_above n) by lia.
    - destruct (decide (n - Z.of_nat m <= i)); [by apply IH|].
      apply (f_equal (fun v => Z.testbit v i)) in Heq.
      rewrite !Z.lxor_spec, !Z.shiftr_spec, (IH (i + k)) in Heq by lia.
      destruct (Z.testbit y i), (Z.testbit z i), (Z.testbit z (i + k)); done. }
  apply (H (Z.to_nat n)); lia.
Qed.

Lemma xorshift_range n k z :
  0 <= n -> 0 <= k -> 0 <= z < 2 ^ n -> 0 <= Z.lxor z (Z.shiftr z k) < 2 ^ n.
Proof.
  intros Hn Hk Hz. apply lxor_range; [done..|]. rewrite Z.shiftr_div_pow2 by done.
  split; [apply Z.div_pos; lia|]. eapply Z.le_lt_trans; [|apply Hz].
  apply Z.div_le_upper_bound; [lia|]. pose proof (Z.pow_pos_nonneg 2 k). nia.
Qed.

Lemma mul_inj c inv y z :
  u64 (c * inv) = 1 -> 0 <= y < 2 ^ 64 -> 0 <= z < 2 ^ 64 -> u64 (y * c) = u64 (z * c) -> y = z.
Proof.
  intros Hinv Hy Hz H. unfold wrap in *.
  assert (E : forall x, 0 <= x < 2 ^ 64 -> ((x * c) mod 2 ^ 64 * inv) mod 2 ^ 64 = x).
  { intros x Hx. rewrite Z.mul_mod_idemp_l, <- Z.mul_assoc, <- Z.mul_mod_idemp_r, Hinv, Z.mul_1_r by lia.
    by apply Z.mod_small. }
  rewrite <- (E y), <- (E z), H by done. done.
Qed.

Lemma mix_inj y z : 0 <= y < 2 ^ 64 -> 0 <= z < 2 ^ 64 -> mix y = mix z -> y = z.
Proof.
  intros Hy Hz H. unfold mix in H.
  pose proof (xorshift_range 64 30 y ltac:(lia) ltac:(lia) Hy) as Ry.
  pose proof (xorshift_range 64 30 z ltac:(lia) ltac:(lia) Hz) as Rz.
  apply (xorshift_inj 64 31) in H; [|lia|lia|by apply (wrap_range 64)..].
  apply (mul_inj _ 3573116690164977347) in H;
    [|reflexivity|apply xorshift_range; [lia..|by apply (wrap_range 64)]..].
  apply (xorshift_inj 64 27) in H; [|lia|lia|by apply (wrap_range 64)..].
  apply (mul_inj _ 10871156337175269513) in H; [|reflexivity|done..].
  by apply (xorshift_inj 64 30) in H; [|lia..].
Qed.

Lemma eat_range h bs : 0 <= h < 2 ^ 64 -> 0 <= eat h bs < 2 ^ 64.
Proof.
  revert h; induction bs as [|b bs IH]; intros h Hh; [done|]. apply IH. by apply (wrap_range 64).
Qed.

Lemma eat_app h a b : eat (eat h a) b = eat h (a ++ b).
Proof. unfold eat. by rewrite fold_left_app. Qed.

Lemma bucket_range flag s : 0 <= bucket flag s < 100.
Proof.
  unfold bucket, BUCKETS. pose proof (Z.mod_pos_bound (mix (hash flag s)) 100 ltac:(lia)).
  rewrite wrap_small by lia. lia.
Qed.

(** Rollouts are exact at the ends and only ever grow: 0 percent is nobody,
    100 percent and more is everybody, a scope that is in stays in when the
    percentage is raised, and each percentage admits exactly the buckets below
    it. *)
Theorem rollout_monotone flag s :
  in_rollout flag s 0 = false /\
  (forall p, 100 <= p -> in_rollout flag s p = true) /\
  (forall p q, p <= q -> in_rollout flag s p = true -> in_rollout flag s q = true) /\
  (forall p, 0 <= p <= 100 -> in_rollout flag s p = true <-> bucket flag s < p).
Proof.
  pose proof (bucket_range flag s). unfold in_rollout, BUCKETS. split_and!; intros; lia.
Qed.

Lemma rollout_monotone_witness :
  in_rollout (lit "new-checkout") (User (lit "41")) 100 = true.
Proof. apply (proj1 (proj2 (rollout_monotone (lit "new-checkout") (User (lit "41"))))). lia. Defined.

(** Nothing is lost before the bucket is taken. The finaliser is injective on
    64-bit hashes, and the bytes hashed for two (flag, scope) pairs differ
    whenever the pairs do, as long as flag names hold no unit separator. *)
Theorem rollout_hash_faithful :
  (forall y z, 0 <= y < 2 ^ 64 -> 0 <= z < 2 ^ 64 -> mix y = mix z -> y = z) /\
  (forall flag s, hash flag s = eat OFFSET (flag ++ [31] ++ key s) /\ 0 <= hash flag s < 2 ^ 64) /\
  (forall flag s flag' s', 31 ∉ flag -> 31 ∉ flag' ->
     flag ++ [31] ++ key s = flag' ++ [31] ++ key s' -> flag = flag' /\ s = s').
Proof.
  split; [exact mix_inj|]. split.
  - intros flag s. unfold hash. rewrite !eat_app, app_assoc. split; [done|].
    by apply eat_range.
  - intros flag s flag' s' H1 H2 E. cbn [app] in E.
    assert (H : forall f, 31 ∉ f -> Forall (fun b => b <> 31) f)
      by (intros f Hf; apply Forall_forall; intros x Hx ->; by apply Hf, list_elem_of_In).
    apply (f_equal (split_once 31)) in E. rewrite !split_once_app in E by auto.
    injection E as -> E. split; [done|]. by apply key_inj.
Qed.

Lemma rollout_hash_faithful_witness :
  forall s', lit "new" ++ [31] ++ key (User (lit "1")) = lit "new" ++ [31] ++ key s' ->
  lit "new" = lit "new" /\ User (lit "1") = s'.
Proof.
  intros s'. apply (proj2 (proj2 rollout_hash_faithful)); by apply (bool_decide_unpack _).
Defined.

End Rollout.

(** ** The store of overrides ([store.rs]) *)
Module FlagStore.
Import Scope.

(** The trait: what [Flags] may ask of a store. Every call can fail. *)
Class FlagStore (S E : Type) := {
  get : S -> list Z -> Scope -> result E (option bool);
  set : S -> list Z -> Scope -> bool -> result E S;
  forget : S -> list Z -> Scope -> result E S;
  flush : S -> result E S;
}.

(** What its documentation promises: a write is what the next read of the same
    flag and scope returns, and no other flag or scope is touched. *)
Class LawfulFlagStore (S E : Type) `{FlagStore S E} := {
  get_set s s' f sc v f' sc' : set s f sc v = Ok s' ->
    get s' f' sc' = if decide (f = f' /\ sc = sc') then Ok (Some v) else get s f' sc';
  get_forget s s' f sc f' sc' : forget s f sc = Ok s' ->
    get s' f' sc' = if decide (f = f' /\ sc = sc') then Ok None else get s f' sc';
  get_flush s s' f sc : flush s = Ok s' -> get s' f sc = Ok None;
}.

(** The in-memory store: a map keyed by the flag and [Scope::key]. *)
Definition MemoryStore : Type := gmap (list Z * list Z) bool.

#[export] Instance MemoryStore_FlagStore {E} : FlagStore MemoryStore E := {|
  get := fun (s : MemoryStore) f sc => Ok (s !! (f, key sc));
  set := fun (s : MemoryStore) f sc v => Ok (<[(f, key sc) := v]> s);
  forget := fun (s : MemoryStore) f sc => Ok (base.delete (f, key sc) s);
  flush := fun _ => Ok ∅;
|}.

#[export] Instance MemoryStore_lawful {E} : LawfulFlagStore MemoryStore E.
Proof.
  split; cbn [get set forget flush MemoryStore_FlagStore]; unfold MemoryStore.
  - intros s s' f sc v f' sc' [= <-]. case_decide as Hd.
    + destruct Hd as [-> ->]. by rewrite lookup_insert_eq.
    + rewrite lookup_insert_ne; [done|]. intros [= -> Hk]. apply Hd. split; [done|]. by apply key_inj.
  - intros s s' f sc f' sc' [= <-]. case_decide as Hd.
    + destruct Hd as [-> ->]. by rewrite lookup_delete_eq.
    + rewrite lookup_delete_ne; [done|]. intros [= -> Hk]. apply Hd. split; [done|]. by apply key_inj.
  - intros s s' f sc [= <-]. by rewrite lookup_empty.
Qed.

End FlagStore.

(** ** The registry and its precedence chain ([flags.rs]) *)
Module Flags.
Import Scope FlagStore.

Section Flags.
Context {St E : Type} `{!FlagStore St E}.

Record Flags := {
  definitions : gmap (list Z) (Scope -> result E bool);
  store : St;
  forced_on : gset (list Z);
  forced_off : gset (list Z);
}.

Definition define (fl : Flags) (name : list Z) (resolver : Scope -> result E bool) : Flags :=
  {| definitions := <[name := resolver]> (definitions fl); store := store fl;
     forced_on := forced_on fl; forced_off := forced_off fl |}.

Definition rollout (fl : Flags) (name : list Z) (percent : Z) : Flags :=
  define fl name (fun scope => Ok (Rollout.in_rollout name scope percent)).

Definition force_on (fl : Flags) (names : list (list Z)) : Flags :=
  {| definitions := definitions fl; store := store fl;
     forced_on := forced_on fl ∪ list_to_set names; forced_off := forced_off fl |}.

Definition force_off (fl : Flags) (names : list (list Z)) : Flags :=
  {| definitions := definitions fl; store := store fl;
     forced_on := forced_on fl; forced_off := forced_off fl ∪ list_to_set names |}.

Definition is_defined (fl : Flags) (flag : list Z) : bool :=
  bool_decide (is_Some (definitions fl !! flag)).

Definition with_store (fl : Flags) (s : St) : Flags :=
  {| definitions := definitions fl; store := s;
     forced_on := forced_on fl; forced_off := forced_off fl |}.

Definition resolve (fl : Flags) (flag : list Z) (scope : Scope) : result E bool :=
  if bool_decide (flag ∈ forced_off fl) then Ok false else
  let? scoped := get (store fl) flag scope in
  let? global := if is_none scope then Ok scoped else get (store fl) flag NoScope in
  if bool_decide (scoped = Some false) || bool_decide (global = Some false) then Ok false
  else if bool_decide (scoped = Some true) || bool_decide (global = Some true) then Ok true
  else if bool_decide (flag ∈ forced_on fl) then Ok true
  else match definitions fl !! flag with
       | Some resolver => resolver scope
       | None => Ok false
       end.

Definition active (fl : Flags) (flag : list Z) (scope : Scope) : result E bool :=
  resolve fl flag scope.

Definition inactive (fl : Flags) (flag : list Z) (scope : Scope) : result E bool :=
  let? answer := active fl flag scope in Ok (negb answer).

Definition activate_for (fl : Flags) (flag : list Z) (scope : Scope) : result E Flags :=
  let? s := set (store fl) flag scope true in Ok (with_store fl s).

Definition deactivate_for (fl : Flags) (flag : list Z) (scope : Scope) : result E Flags :=
  let? s := set (store fl) flag scope false in Ok (with_store fl s).

Definition forget_for (fl : Flags) (flag : list Z) (scope : Scope) : result E Flags :=
  let? s := forget (store fl) flag scope in Ok (with_store fl s).

Definition activate (fl : Flags) (flag : list Z) : result E Flags := activate_for fl flag NoScope.
Definition deactivate (fl : Flags) (flag : list Z) : result E Flags := deactivate_for fl flag NoScope.
Definition forget_global (fl : Flags) (flag : list Z) : result E Flags := forget_for fl flag NoScope.

Definition purge (fl : Flags) : result E Flags :=
  let? s := flush (store fl) in Ok (with_store fl s).

(** *** A registry over a lawful store, driven by operators *)

(** What an operator can do to the overrides. *)
Inductive Op :=
  | Activate (flag : list Z)
  | ActivateFor (flag : list Z) (scope : Scope)
  | Deactivate (flag : list Z)
  | DeactivateFor (flag : list Z) (scope : Scope)
  | Forget (flag : list Z)
  | ForgetFor (flag : list Z) (scope : Scope)
  | Purge.

Definition apply_op (fl : Flags) (op : Op) : result E Flags :=
  match op with
  | Activate f => activate fl f
  | ActivateFor f sc => activate_for fl f sc
  | Deactivate f => deactivate fl f
  | DeactivateFor f sc => deactivate_for fl f sc
  | Forget f => forget_global fl f
  | ForgetFor f sc => forget_for fl f sc
  | Purge => purge fl
  end.

Fixpoint apply_ops (fl : Flags) (ops : list Op) : result E Flags :=
  match ops with
  | [] => Ok fl
  | op :: ops => let? fl := apply_op fl op in apply_ops fl ops
  end.

(** The abstract state: what one operation says about a flag and a scope, and
    the override in force after a history, its latest word. *)
Definition says (op : Op) (flag : list Z) (scope : Scope) : option (option bool) :=
  let at_ f sc v := if decide (f = flag /\ sc = scope) then Some v else None in
  match op with
  | Activate f => at_ f NoScope (Some true)
  | ActivateFor f sc => at_ f sc (Some true)
  | Deactivate f => at_ f NoScope (Some false)
  | DeactivateFor f sc => at_ f sc (Some false)
  | Forget f => at_ f NoScope None
  | ForgetFor f sc => at_ f sc None
  | Purge => Some None
  end.

Fixpoint override_after (before : option bool) (ops : list Op) (flag : list Z) (scope : Scope)
    : option bool :=
  match ops with
  | [] => before
  | op :: ops => override_after (default before (says op flag scope)) ops flag scope
  end.

(** The precedence the documentation lists, over the overrides in force. *)
Definition verdict (fl : Flags) (flag : list Z) (scope : Scope) (scoped global : option bool)
    : result E bool :=
  if bool_decide (flag ∈ forced_off fl) then Ok false
  else match scoped, global with
       | Some false, _ | _, Some false => Ok false
       | Some true, _ | _, Some true => Ok true
       | None, None =>
           if bool_decide (flag ∈ forced_on fl) then Ok true
           else default (fun _ => Ok false) (definitions fl !! flag) scope
       end.

Context `{!LawfulFlagStore St E}.

Lemma apply_op_store fl fl' op :
  apply_op fl op = Ok fl' ->
  definitions fl' = definitions fl /\ forced_on fl' = forced_on fl /\ forced_off fl' = forced_off fl /\
  forall flag scope, get (store fl') flag scope =
    match says op flag scope with Some v => Ok v | None => get (store fl) flag scope end.
Proof.
  destruct op; cbn [apply_op says];
    unfold activate, deactivate, forget_global, activate_for, deactivate_for, forget_for, purge;
    case_match eqn:Hs; intros [= <-]; cbn [with_store definitions store forced_on forced_off];
    (split_and!; [done..|]); intros f' sc'.
  1-4: rewrite (get_set _ _ _ _ _ _ _ Hs); by case_decide.
  1-2: rewrite (get_forget _ _ _ _ _ _ Hs); by case_decide.
  by rewrite (get_flush _ _ _ _ Hs).
Qed.

Lemma apply_ops_store fl fl' ops flag scope before :
  apply_ops fl ops = Ok fl' -> get (store fl) flag scope = Ok before ->
  definitions fl' = definitions fl /\ forced_on fl' = forced_on fl /\ forced_off fl' = forced_off fl /\
  get (store fl') flag scope = Ok (override_after before ops flag scope).
Proof.
  revert fl before; induction ops as [|op ops IH]; intros fl before; cbn [apply_ops override_after].
  { by intros [= ->]. }
  destruct (apply_op fl op) as [fl1|] eqn:Hop; [|done]. intros Hrun Hget.
  destruct (apply_op_store _ _ _ Hop) as (Ed & Eon & Eoff & Hst). rewrite <- Ed, <- Eon, <- Eoff.
  apply IH; [done|]. rewrite Hst. by destruct (says op flag scope).
Qed.

Lemma resolve_verdict fl flag scope scoped global :
  get (store fl) flag scope = Ok scoped -> get (store fl) flag NoScope = Ok global ->
  resolve fl flag scope = verdict fl flag scope scoped global.
Proof.
  intros Hs Hg. unfold resolve, verdict. case_bool_decide; [done|]. rewrite Hs.
  assert (Hg' : (if is_none scope then Ok scoped else get (store fl) flag NoScope) = Ok global).
  { destruct scope; cbn; [congruence|done..]. }
  rewrite Hg'. destruct scoped as [[]|], global as [[]|]; try done; cbn.
  case_bool_decide; [done|]. by destruct (definitions fl !! flag).
Qed.

(** C12. After any history of operator commands the answer to a check is the
    documented precedence applied to the latest word about the scope and the
    latest word about everybody: the incident switch first, then off before on
    among the overrides, then configuration, then the resolver. *)
Theorem resolve_after_history fl fl' ops flag scope scoped global :
  apply_ops fl ops = Ok fl' ->
  get (store fl) flag scope = Ok scoped -> get (store fl) flag NoScope = Ok global ->
  active fl' flag scope =
  verdict fl flag scope (override_after scoped ops flag scope) (override_after global ops flag NoScope).
Proof.
  intros Hrun Hs Hg.
  destruct (apply_ops_store _ _ _ _ _ _ Hrun Hs) as (Ed & Eon & Eoff & Hs').
  destruct (apply_ops_store _ _ _ _ _ _ Hrun Hg) as (_ & _ & _ & Hg').
  unfold active. rewrite (resolve_verdict _ _ _ _ _ Hs' Hg'). unfold verdict. by rewrite Ed, Eon, Eoff.
Qed.

(** ** The per-request view ([ScopedFlags]) *)

(** A view shares the registry; only the memo is its own. Operations return the
    answer and the view with what it remembers. *)
Record ScopedFlags := { view_scope : Scope; resolved : gmap (list Z) bool }.

Definition for_scope (scope : Scope) : ScopedFlags := {| view_scope := scope; resolved := ∅ |}.

Definition remember (v : ScopedFlags) (flag : list Z) (answer : bool) : ScopedFlags :=
  {| view_scope := view_scope v; resolved := <[flag := answer]> (resolved v) |}.

Definition scoped_active (fl : Flags) (v : ScopedFlags) (flag : list Z)
    : result E bool * ScopedFlags :=
  match resolved v !! flag with
  | Some answer => (Ok answer, v)
  | None =>
      match resolve fl flag (view_scope v) with
      | Ok answer => (Ok answer, remember v flag answer)
      | Err e => (Err e, v)
      end
  end.

Fixpoint values_loop (fl : Flags) (v : ScopedFlags) (names : list (list Z))
    (answers : gmap (list Z) bool) : result E (gmap (list Z) bool) * ScopedFlags :=
  match names with
  | [] => (Ok answers, v)
  | name :: names =>
      match scoped_active fl v name with
      | (Ok answer, v) => values_loop fl v names (<[name := answer]> answers)
      | (Err e, v) => (Err e, v)
      end
  end.
Definition values (fl : Flags) (v : ScopedFlags) (names : list (list Z)) := values_loop fl v names ∅.

Fixpoint any (fl : Flags) (v : ScopedFlags) (names : list (list Z)) : result E bool * ScopedFlags :=
  match names with
  | [] => (Ok false, v)
  | name :: names =>
      match scoped_active fl v name with
      | (Ok true, v) => (Ok true, v)
      | (Ok false, v) => any fl v names
      | (Err e, v) => (Err e, v)
      end
  end.

Definition refresh (v : ScopedFlags) : ScopedFlags :=
  {| view_scope := view_scope v; resolved := ∅ |}.

Definition resolved_count (v : ScopedFlags) : nat := size (resolved v).

(** What a view remembers is what the registry answers. *)
Definition memo_ok (fl : Flags) (v : ScopedFlags) : Prop :=
  forall flag answer, resolved v !! flag = Some answer -> resolve fl flag (view_scope v) = Ok answer.

Lemma scoped_active_spec fl v flag :
  memo_ok fl v ->
  (scoped_active fl v flag).1 = resolve fl flag (view_scope v) /\
  memo_ok fl (scoped_active fl v flag).2 /\
  view_scope (scoped_active fl v flag).2 = view_scope v /\
  resolved v ⊆ resolved (scoped_active fl v flag).2.
Proof.
  intros Hm. unfold scoped_active. destruct (resolved v !! flag) as [b|] eqn:Hb.
  { rewrite (Hm _ _ Hb). done. }
  destruct (resolve fl flag (view_scope v)) as [b|e] eqn:Hr; cbn; [|done]. split; [done|].
  split_and!; [|done|by apply insert_subseteq]. intros f a Ha. cbn in *.
  destruct (decide (flag = f)) as [->|]; [by simplify_map_eq|]. simplify_map_eq. by apply Hm.
Qed.

Lemma any_spec fl v names :
  memo_ok fl v ->
  memo_ok fl (any fl v names).2 /\
  match (any fl v names).1 with
  | Ok true => exists pre name post, names = pre ++ name :: post /\
      resolve fl name (view_scope v) = Ok true /\
      Forall (fun n => resolve fl n (view_scope v) = Ok false) pre
  | Ok false => Forall (fun n => resolve fl n (view_scope v) = Ok false) names
  | Err e => exists pre name post, names = pre ++ name :: post /\
      resolve fl name (view_scope v) = Err e /\
      Forall (fun n => resolve fl n (view_scope v) = Ok false) pre
  end.
Proof.
  revert v; induction names as [|name names IH]; intros v Hm; cbn [any].
  { split; [done|]. by constructor. }
  destruct (scoped_active_spec fl v name Hm) as (Ha & Hm' & Hsc & _).
  destruct (scoped_active fl v name) as [[[]|e] v']; cbn [fst snd] in *.
  - split; [done|]. by exists [], name, names.
  - destruct (IH v' Hm') as [Hm'' Hspec]. rewrite Hsc in Hspec. split; [done|].
    destruct (any fl v' names).1 as [[]|e].
    + destruct Hspec as (pre & n & post & -> & ? & ?). exists (name :: pre), n, post.
      split_and!; [done..|]. by constructor.
    + by constructor.
    + destruct Hspec as (pre & n & post & -> & ? & ?). exists (name :: pre), n, post.
      split_and!; [done..|]. by constructor.
  - split; [done|]. by exists [], name, names.
Qed.

Lemma values_loop_spec fl v names answers :
  memo_ok fl v ->
  memo_ok fl (values_loop fl v names answers).2 /\
  match (values_loop fl v names answers).1 with
  | Ok m => forall f,
      (f ∈ names -> exists b, m !! f = Some b /\ resolve fl f (view_scope v) = Ok b) /\
      (f ∉ names -> m !! f = answers !! f)
  | Err e => exists name, name ∈ names /\ resolve fl name (view_scope v) = Err e
  end.
Proof.
  revert v answers; induction names as [|name names IH]; intros v answers Hm; cbn [values_loop].
  { split; [done|]. intros f. split; [by intros ?%not_elem_of_nil|done]. }
  destruct (scoped_active_spec fl v name Hm) as (Ha & Hm' & Hsc & _).
  destruct (scoped_active fl v name) as [[b|e] v']; cbn [fst snd] in *.
  - destruct (IH v' (<[name := b]> answers) Hm') as [Hm'' Hspec]. rewrite Hsc in Hspec. split; [done|].
    destruct (values_loop fl v' names _).1 as [m|e].
    + intros f. destruct (Hspec f) as [Hin Hout]. rewrite elem_of_cons. split.
      * intros Hf. destruct (decide (f ∈ names)); [by apply Hin|].
        destruct Hf as [->|]; [|done]. exists b. rewrite Hout by done. by simplify_map_eq.
      * intros Hf. rewrite Hout by tauto. rewrite lookup_insert_ne; [done|]. naive_solver.
    + destruct Hspec as (n & ? & ?). exists n. split; [by right|done].
  - split; [done|]. exists name. split; [by left|done].
Qed.

(** A view never changes an answer. Over a registry that is not being
    written to, every check through a view, alone or in a batch, gives what the
    registry itself would, errors included, and leaves the view consistent; what
    is once remembered is never resolved again. *)
Theorem scoped_flags_agree fl v :
  memo_ok fl v ->
  (forall flag, (scoped_active fl v flag).1 = active fl flag (view_scope v) /\
     memo_ok fl (scoped_active fl v flag).2) /\
  (forall flag answer, resolved v !! flag = Some answer ->
     forall fl', scoped_active fl' v flag = (Ok answer, v)) /\
  (forall names m, (values fl v names).1 = Ok m -> forall flag answer,
     m !! flag = Some answer <-> flag ∈ names /\ active fl flag (view_scope v) = Ok answer) /\
  (forall names, (any fl v names).1 = Ok true ->
     exists flag, flag ∈ names /\ active fl flag (view_scope v) = Ok true) /\
  (forall names, (any fl v names).1 = Ok false ->
     forall flag, flag ∈ names -> active fl flag (view_scope v) = Ok false).
Proof.
  intros Hm. unfold active. split_and!.
  - intros flag. destruct (scoped_active_spec fl v flag Hm) as (? & ? & _). done.
  - intros flag answer Ha fl'. unfold scoped_active. by rewrite Ha.
  - intros names m Hv flag answer. pose proof (proj2 (values_loop_spec fl v names ∅ Hm)) as H.
    unfold values in Hv. rewrite Hv in H. destruct (H flag) as [Hin Hout].
    destruct (decide (flag ∈ names)) as [Hf|Hf].
    + destruct (Hin Hf) as (b & -> & ->). naive_solver.
    + rewrite (Hout Hf), lookup_empty. naive_solver.
  - intros names Hany. pose proof (proj2 (any_spec fl v names Hm)) as H. rewrite Hany in H.
    destruct H as (pre & flag & post & -> & Hr & _). exists flag. split; [|done].
    apply elem_of_app. right. by left.
  - intros names Hany flag Hf. pose proof (proj2 (any_spec fl v names Hm)) as H. rewrite Hany in H.
    rewrite Forall_forall in H. by apply H, list_elem_of_In.
Qed.

End Flags.
Arguments Flags : clear implicits.

(** A registry over the in-memory store, with one flag. *)
Definition sample : Flags MemoryStore unit :=
  {| definitions := {[ lit "beta" := fun sc => Ok (bool_decide (id sc = lit "41")) ]};
     store := ∅; forced_on := ∅; forced_off := ∅ |}.

Lemma resolve_after_history_witness :
  exists fl', apply_ops sample [ActivateFor (lit "beta") (User (lit "7")); Deactivate (lit "beta")] = Ok fl' /\
    active fl' (lit "beta") (User (lit "7")) = Ok false.
Proof.
  eexists. split; [reflexivity|].
  refine (eq_trans (resolve_after_history sample _
    [ActivateFor (lit "beta") (User (lit "7")); Deactivate (lit "beta")] _ _ None None
    eq_refl eq_refl eq_refl) _).
  vm_compute. reflexivity.
Defined.

Lemma scoped_flags_agree_witness :
  (scoped_active sample (for_scope (User (lit "41"))) (lit "beta")).1 =
  active sample (lit "beta") (User (lit "41")).
Proof.
  apply (proj1 (scoped_flags_agree sample (for_scope (User (lit "41")))
    ltac:(intros f a Ha; cbn in Ha; by rewrite lookup_empty in Ha)) (lit "beta")).
Defined.

End Flags.
