(* ===== verification/Merge.v ===== *)
(** * Three-way merge ([rustlavel-cli/src/merge.rs])

    The line merge the [upgrade] command runs over a project's files: aligning
    each side with the base by a longest common subsequence, walking the stable
    and the unstable regions, and git-style conflict markers. *)

From S2P Require Import Prelude Text.

Module Merge.

Record Merged := { text : list Z; conflicts : nat }.

(** A line with its newline. *)
Abbreviation line := (list Z).

(** [str::split_inclusive('\n')]. *)
Fixpoint split_inclusive (s : list Z) : list line :=
  match s with
  | [] => []
  | b :: s =>
      if b =? 10 then [b] :: split_inclusive s
      else match split_inclusive s with
           | [] => [[b]]
           | l :: ls => (b :: l) :: ls
           end
  end.

(** ** Aligning two sides *)

(** The shared head: [out[head] = Some(head)] while the lines agree. *)
Fixpoint head_loop (fuel : nat) (a b : list line) (head : nat) (out : list (option nat))
    : nat * list (option nat) :=
  match fuel with
  | O => (head, out)
  | S fuel =>
      if ((head <? length a) && (head <? length b))%nat && bool_decide (a !! head = b !! head)
      then head_loop fuel a b (S head) (<[head := Some head]> out)
      else (head, out)
  end.

(** The shared tail, not reaching into the head. *)
Fixpoint tail_loop (fuel : nat) (a b : list line) (head tail : nat) (out : list (option nat))
    : nat * list (option nat) :=
  match fuel with
  | O => (tail, out)
  | S fuel =>
      if ((tail <? length a - head) && (tail <? length b - head))%nat &&
         bool_decide (a !! (length a - 1 - tail)%nat = b !! (length b - 1 - tail)%nat)
      then tail_loop fuel a b head (S tail)
             (<[(length a - 1 - tail)%nat := Some (length b - 1 - tail)%nat]> out)
      else (tail, out)
  end.

(** The table of suffix lengths, row by row from the last: row [i] of the flat
    vector is [table[i * (m + 1) ..]]. *)
Fixpoint table_row (ai : line) (b_mid : list line) (below : list nat) : list nat :=
  match b_mid, below with
  | bj :: b_mid, d :: below =>
      let row := table_row ai b_mid below in
      (if bool_decide (ai = bj) then hd 0%nat below + 1 else Nat.max d (hd 0%nat row))%nat :: row
  | _, _ => [0%nat]
  end.

Fixpoint table (a_mid b_mid : list line) : list (list nat) :=
  match a_mid with
  | [] => [repeat 0%nat (S (length b_mid))]
  | ai :: a_mid =>
      let rows := table a_mid b_mid in
      table_row ai b_mid (hd [] rows) :: rows
  end.

Definition cell (t : list (list nat)) (i j : nat) : nat := default 0%nat (default [] (t !! i) !! j).

(** The walk through the table. Every turn moves [i] or [j], so [n + m] turns
    are enough. *)
Fixpoint walk (fuel : nat) (a_mid b_mid : list line) (t : list (list nat)) (head i j : nat)
    (out : list (option nat)) : list (option nat) :=
  match fuel with
  | O => out
  | S fuel =>
      match a_mid !! i, b_mid !! j with
      | Some x, Some y =>
          if bool_decide (x = y)
          then walk fuel a_mid b_mid t head (S i) (S j) (<[(head + i)%nat := Some (head + j)%nat]> out)
          else if (cell t i (S j) <=? cell t (S i) j)%nat
          then walk fuel a_mid b_mid t head (S i) j out
          else walk fuel a_mid b_mid t head i (S j) out
      | _, _ => out
      end
  end.

Definition BUDGET : Z := 4000000.

Definition slice {A} (l : list A) (from to : nat) : list A := take (to - from) (drop from l).

Definition align (a b : list line) : list (option nat) :=
  let out := repeat None (length a) in
  let '(head, out) := head_loop (S (length a)) a b 0 out in
  let '(tail, out) := tail_loop (S (length a)) a b head 0 out in
  let a_mid := slice a head (length a - tail) in
  let b_mid := slice b head (length b - tail) in
  if bool_decide (a_mid = []) || bool_decide (b_mid = []) then out
  else if BUDGET <? Z.of_nat (length a_mid) * Z.of_nat (length b_mid) then out
  else walk (length a_mid + length b_mid) a_mid b_mid (table a_mid b_mid) head 0 0 out.

(** ** Regions *)

Definition push (t : list Z) (lines : list line) : list Z := t ++ concat lines.

Definition ensure_newline (t : list Z) : list Z :=
  if negb (bool_decide (t = [])) && negb (ends_with t [10]) then t ++ [10] else t.

Definition conflict (t : list Z) (ours theirs : list line) (label_ours label_theirs : list Z) : list Z :=
  let t := ensure_newline t in
  let t := t ++ lit "<<<<<<< " ++ label_ours ++ [10] in
  let t := ensure_newline (push t ours) in
  let t := t ++ lit "=======" ++ [10] in
  let t := ensure_newline (push t theirs) in
  t ++ lit ">>>>>>> " ++ label_theirs ++ [10].

Section Loop.
Variables (b o t : list line) (in_ours in_theirs : list (option nat)).

(** The [for k in bi..b.len()] loop, [more] counting the base lines left. *)
Fixpoint next_stable_from (more k oi ti : nat) : nat * nat * nat :=
  match more with
  | O => (length b, length o, length t)
  | S more =>
      match in_ours !! k, in_theirs !! k with
      | Some (Some x), Some (Some y) =>
          if ((oi <=? x) && (ti <=? y))%nat then (k, x, y) else next_stable_from more (S k) oi ti
      | _, _ => next_stable_from more (S k) oi ti
      end
  end.

Definition next_stable (bi oi ti : nat) : nat * nat * nat :=
  next_stable_from (length b - bi) bi oi ti.

(** The loop's variables. *)
Record State := { bi : nat; oi : nat; ti : nat; out : list Z; seen : nat }.

(** The stable run: [while bi < b.len()]. *)
Fixpoint stable_run (fuel : nat) (s : State) : State :=
  match fuel with
  | O => s
  | S fuel =>
      match b !! bi s, in_ours !! bi s, in_theirs !! bi s with
      | Some l, Some (Some x), Some (Some y) =>
          if ((x =? oi s) && (y =? ti s))%nat
          then stable_run fuel {| bi := S (bi s); oi := S (oi s); ti := S (ti s);
                                  out := out s ++ l; seen := seen s |}
          else s
      | _, _, _ => s
      end
  end.

(** One unstable region, resolved as a whole. *)
Definition resolve (label_ours label_theirs : list Z) (s : State) (nb no nt : nat) : State :=
  let base_slice := slice b (bi s) nb in
  let ours_slice := slice o (oi s) no in
  let theirs_slice := slice t (ti s) nt in
  let '(txt, c) :=
    if bool_decide (ours_slice = base_slice) then (push (out s) theirs_slice, seen s)
    else if bool_decide (theirs_slice = base_slice) then (push (out s) ours_slice, seen s)
    else if bool_decide (ours_slice = theirs_slice) then (push (out s) ours_slice, seen s)
    else (conflict (out s) ours_slice theirs_slice label_ours label_theirs, S (seen s)) in
  {| bi := nb; oi := no; ti := nt; out := txt; seen := c |}.

(** The outer [loop]. Fuel [b.len() + 2] is enough: between two regions the
    stable run consumes a base line. *)
Fixpoint merge_loop (fuel : nat) (label_ours label_theirs : list Z) (s : State) : State :=
  match fuel with
  | O => s
  | S fuel =>
      let s := stable_run (length b) s in
      if ((length b <=? bi s) && (length o <=? oi s) && (length t <=? ti s))%nat then s
      else
        let '(nb, no, nt) := next_stable (bi s) (oi s) (ti s) in
        merge_loop fuel label_ours label_theirs (resolve label_ours label_theirs s nb no nt)
  end.
End Loop.

Definition start : State := {| bi := 0; oi := 0; ti := 0; out := []; seen := 0 |}.

Definition merge (base ours theirs label_ours label_theirs : list Z) : Merged :=
  let b := split_inclusive base in
  let o := split_inclusive ours in
  let t := split_inclusive theirs in
  let s := merge_loop b o t (align b o) (align b t) (length b + 2) label_ours label_theirs start in
  {| text := out s; conflicts := seen s |}.

(** [str::lines]: the lines without their ending, [\n] or [\r\n]. *)
Definition lines (s : list Z) : list line :=
  map (fun l => match strip_suffix l [10] with
                | None => l
                | Some l' => default l' (strip_suffix l' [13])
                end) (split_inclusive s).

Definition has_conflict_markers (s : list Z) : bool :=
  existsb (fun l => starts_with l (lit "<<<<<<< ") || bool_decide (l = lit "=======")
                    || starts_with l (lit ">>>>>>> ")) (lines s).

(** ** Alignment is sound *)

Lemma concat_split_inclusive s : concat (split_inclusive s) = s.
Proof.
  induction s as [|b s IH]; [done|]. cbn [split_inclusive]. case_match; cbn; [by rewrite IH|].
  destruct (split_inclusive s) as [|l ls]; cbn in *; by rewrite <- IH.
Qed.

Lemma lookup_slice {A} (l : list A) from to i x :
  slice l from to !! i = Some x -> l !! (from + i)%nat = Some x.
Proof.
  unfold slice. intros H. pose proof (lookup_lt_Some _ _ _ H) as Hlt.
  rewrite length_take in Hlt. rewrite lookup_take_lt in H by lia. by rewrite lookup_drop in H.
Qed.

Lemma slice_nil {A} (l : list A) i : slice l i i = [].
Proof. unfold slice. by rewrite Nat.sub_diag. Qed.

(** Appending a slice to what precedes it. *)
Lemma take_slice {A} (l : list A) i j : (i <= j)%nat -> take j l = take i l ++ slice l i j.
Proof.
  intros H. unfold slice. replace j with (i + (j - i))%nat at 1 by lia. by rewrite take_take_drop.
Qed.

(** [out] maps lines of [a] to equal lines of [b]. *)
Definition sound (a b : list line) (out : list (option nat)) : Prop :=
  length out = length a /\
  forall i j, out !! i = Some (Some j) -> exists x, a !! i = Some x /\ b !! j = Some x.

Lemma sound_insert a b out i j x :
  sound a b out -> a !! i = Some x -> b !! j = Some x -> sound a b (<[i := Some j]> out).
Proof.
  intros [Hlen Hs] Ha Hb. split; [by rewrite length_insert|]. intros i' j' H.
  destruct (decide (i = i')) as [<-|Hne].
  - rewrite list_lookup_insert_eq in H by (rewrite Hlen; by eapply lookup_lt_Some).
    injection H as <-. eauto.
  - rewrite list_lookup_insert_ne in H by done. by apply Hs.
Qed.

Lemma sound_repeat a b : sound a b (repeat None (length a)).
Proof.
  split; [apply repeat_length|]. intros i j H.
  apply list_elem_of_lookup_2, list_elem_of_In, repeat_spec in H. done.
Qed.

Lemma head_loop_sound fuel a b head out :
  sound a b out -> sound a b (head_loop fuel a b head out).2.
Proof.
  revert head out; induction fuel as [|fuel IH]; intros head out Hs; [done|]. cbn [head_loop].
  destruct (_ && _) eqn:E; [|done]. rewrite !andb_true_iff in E.
  destruct E as [[E1%Nat.ltb_lt E2] E3%bool_decide_eq_true]. apply IH.
  destruct (lookup_lt_is_Some_2 a head E1) as [x Hx]. eapply sound_insert; [done..|congruence].
Qed.

Lemma tail_loop_sound fuel a b head tail out :
  sound a b out -> sound a b (tail_loop fuel a b head tail out).2.
Proof.
  revert tail out; induction fuel as [|fuel IH]; intros tail out Hs; [done|]. cbn [tail_loop].
  destruct (_ && _) eqn:E; [|done]. rewrite !andb_true_iff in E.
  destruct E as [[E1%Nat.ltb_lt E2] E3%bool_decide_eq_true]. apply IH.
  destruct (lookup_lt_is_Some_2 a (length a - 1 - tail)%nat) as [x Hx]; [lia|].
  eapply sound_insert; [done..|congruence].
Qed.

Lemma walk_sound fuel a b t head na nb i j out :
  sound a b out ->
  sound a b (walk fuel (slice a head na) (slice b head nb) t head i j out).
Proof.
  revert i j out; induction fuel as [|fuel IH]; intros i j out Hs; [done|]. cbn [walk].
  destruct (slice a head na !! i) as [x|] eqn:Ha; [|done].
  destruct (slice b head nb !! j) as [y|] eqn:Hb; [|done].
  case_bool_decide as Hxy; [|case_match; by apply IH]. subst y.
  apply IH. eapply sound_insert; [done|by eapply lookup_slice..].
Qed.

Lemma align_sound a b : sound a b (align a b).
Proof.
  unfold align. pose proof (head_loop_sound (S (length a)) a b 0 _ (sound_repeat a b)) as Hh.
  destruct (head_loop _ _ _ _ _) as [head out1]. cbn [snd] in Hh.
  pose proof (tail_loop_sound (S (length a)) a b head 0 _ Hh) as Ht.
  destruct (tail_loop _ _ _ _ _ _) as [tail out2]. cbn [snd] in Ht.
  case_match; [done|]. case_match; [done|]. by apply walk_sound.
Qed.

Lemma head_loop_refl fuel a head out :
  (length a - head < fuel)%nat -> (head <= length a)%nat -> length out = length a ->
  (forall k, (k < head)%nat -> out !! k = Some (Some k)) ->
  let r := head_loop fuel a a head out in
  r.1 = length a /\ forall k, (k < length a)%nat -> r.2 !! k = Some (Some k).
Proof.
  revert head out; induction fuel as [|fuel IH]; intros head out Hf Hh Hlen Hk; [lia|].
  cbn [head_loop]. rewrite bool_decide_true, andb_true_r, andb_diag by done.
  destruct (Nat.ltb_spec head (length a)).
  - apply IH; [lia..|by rewrite length_insert|]. intros k Hlt.
    destruct (decide (head = k)) as [->|]; [by rewrite list_lookup_insert_eq by lia|].
    rewrite list_lookup_insert_ne by done. apply Hk. lia.
  - assert (head = length a) as -> by lia. done.
Qed.

Lemma align_refl a k : (k < length a)%nat -> align a a !! k = Some (Some k).
Proof.
  intros Hk. unfold align.
  destruct (head_loop_refl (S (length a)) a 0 (repeat None (length a))) as [Hh Hout];
    [lia..|apply repeat_length|lia|].
  destruct (head_loop _ _ _ _ _) as [head out1]. cbn [fst snd] in *. subst head.
  cbn [tail_loop]. rewrite Nat.sub_diag. cbn [Nat.ltb Nat.leb andb].
  rewrite bool_decide_true; [by apply Hout|]. unfold slice. by rewrite drop_ge, take_nil by done.
Qed.

(** ** The loop, by invariants

    Any property of the loop's variables that a stable line and a resolved
    region keep holds at the end, and the end is reached: both sides and the
    base have been consumed. *)

Section Invariant.
Variables (b o t : list line) (in_ours in_theirs : list (option nat)) (lo lt_ : list Z).
Hypothesis ours_sound : sound b o in_ours.
Hypothesis theirs_sound : sound b t in_theirs.

(** All three files hold the same line here, or all three are at their end. *)
Definition stable_at (x y z : nat) : Prop :=
  in_ours !! x = Some (Some y) /\ in_theirs !! x = Some (Some z).
Definition at_end (x y z : nat) : Prop := x = length b /\ y = length o /\ z = length t.
Definition in_bounds (x y z : nat) : Prop :=
  (x <= length b)%nat /\ (y <= length o)%nat /\ (z <= length t)%nat.

Variable P : State -> Prop.
Hypothesis P_stable : forall s l,
  P s -> in_bounds (bi s) (oi s) (ti s) -> stable_at (bi s) (oi s) (ti s) ->
  b !! bi s = Some l -> o !! oi s = Some l -> t !! ti s = Some l ->
  P {| bi := S (bi s); oi := S (oi s); ti := S (ti s); out := out s ++ l; seen := seen s |}.
Hypothesis P_region : forall s nb no nt,
  P s -> (bi s <= nb)%nat -> (oi s <= no)%nat -> (ti s <= nt)%nat -> in_bounds nb no nt ->
  stable_at nb no nt \/ at_end nb no nt ->
  P (resolve b o t lo lt_ s nb no nt).

Lemma stable_lines x y z :
  stable_at x y z -> exists l, b !! x = Some l /\ o !! y = Some l /\ t !! z = Some l.
Proof.
  intros [H1 H2]. destruct (proj2 ours_sound _ _ H1) as (l & ? & ?).
  destruct (proj2 theirs_sound _ _ H2) as (l' & ? & ?). exists l. split_and!; congruence.
Qed.

Lemma stable_bounds x y z :
  stable_at x y z -> (x < length b)%nat /\ (y < length o)%nat /\ (z < length t)%nat.
Proof.
  intros (l & ? & ? & ?)%stable_lines. split_and!; by eapply lookup_lt_Some.
Qed.

Lemma stable_dec x y z : {stable_at x y z} + {~ stable_at x y z}.
Proof. unfold stable_at. apply and_dec; solve_decision. Qed.

(** The stable run stops at a place that is not stable, having consumed a line
    wherever it started from a stable one. *)
Lemma stable_run_spec fuel s :
  P s -> in_bounds (bi s) (oi s) (ti s) -> (length b - bi s <= fuel)%nat ->
  let s' := stable_run b in_ours in_theirs fuel s in
  P s' /\ in_bounds (bi s') (oi s') (ti s') /\ ~ stable_at (bi s') (oi s') (ti s') /\
  (bi s <= bi s')%nat /\ (stable_at (bi s) (oi s) (ti s) -> (bi s < bi s')%nat).
Proof.
  revert s; induction fuel as [|fuel IH]; intros s HP Hb Hf.
  { assert (~ stable_at (bi s) (oi s) (ti s)) by (intros ?%stable_bounds; lia).
    cbn. split_and!; try done; apply Hb. }
  cbn [stable_run]. destruct (stable_dec (bi s) (oi s) (ti s)) as [Hs|Hs].
  - destruct (stable_lines _ _ _ Hs) as (l & Hl & Ho & Ht).
    pose proof (stable_bounds _ _ _ Hs) as (? & ? & ?).
    destruct Hs as [Hs1 Hs2]. rewrite Hl, Hs1, Hs2, !Nat.eqb_refl. cbn [andb].
    destruct (IH {| bi := S (bi s); oi := S (oi s); ti := S (ti s);
                    out := out s ++ l; seen := seen s |}) as (? & ? & ? & Hle & _).
    + by apply P_stable.
    + by repeat split.
    + cbn. lia.
    + cbn [bi] in Hle. split_and!; [done..|lia|lia].
  - assert (E : forall l x y, b !! bi s = Some l -> in_ours !! bi s = Some (Some x) ->
      in_theirs !! bi s = Some (Some y) -> ((x =? oi s) && (y =? ti s))%nat = false).
    { intros l x y _ H1 H2. apply not_true_iff_false. intros [->%Nat.eqb_eq ->%Nat.eqb_eq]%andb_true_iff.
      by apply Hs. }
    assert (Hr : match b !! bi s, in_ours !! bi s, in_theirs !! bi s with
      | Some l, Some (Some x), Some (Some y) =>
          if ((x =? oi s) && (y =? ti s))%nat
          then stable_run b in_ours in_theirs fuel {| bi := S (bi s); oi := S (oi s); ti := S (ti s);
                                  out := out s ++ l; seen := seen s |}
          else s
      | _, _, _ => s end = s).
    { repeat case_match; try done. by erewrite E in * by done. }
    rewrite Hr. split_and!; done || apply Hb || lia.
Qed.

Lemma next_stable_from_spec more k x y :
  (k + more = length b)%nat -> (x <= length o)%nat -> (y <= length t)%nat ->
  let '(nb, no, nt) := next_stable_from b o t in_ours in_theirs more k x y in
  (k <= nb)%nat /\ (x <= no)%nat /\ (y <= nt)%nat /\ in_bounds nb no nt /\
  (stable_at nb no nt \/ at_end nb no nt).
Proof.
  revert k; induction more as [|more IH]; intros k Hk Hx Hy; cbn [next_stable_from].
  { split_and!; try lia. all: (by right) || done. }
  assert (Hrec : let '(nb, no, nt) := next_stable_from b o t in_ours in_theirs more (S k) x y in
    (k <= nb)%nat /\ (x <= no)%nat /\ (y <= nt)%nat /\ in_bounds nb no nt /\
    (stable_at nb no nt \/ at_end nb no nt)).
  { specialize (IH (S k) ltac:(lia) Hx Hy). destruct (next_stable_from _ _ _ _ _ _ _ _ _) as [[nb no] nt].
    destruct IH as (? & ? & ? & ? & ?). split_and!; [lia|done..]. }
  destruct (in_ours !! k) as [[x'|]|] eqn:H1; try exact Hrec.
  destruct (in_theirs !! k) as [[y'|]|] eqn:H2; try exact Hrec.
  destruct (_ && _) eqn:E; [|exact Hrec]. rewrite andb_true_iff, !Nat.leb_le in E.
  assert (Hst : stable_at k x' y') by done. pose proof (stable_bounds _ _ _ Hst) as (? & ? & ?).
  split_and!; try lia. all: (by left) || (repeat split; lia).
Qed.

Lemma merge_loop_spec fuel s :
  P s -> in_bounds (bi s) (oi s) (ti s) ->
  (at_end (bi s) (oi s) (ti s) -> 1 <= fuel)%nat ->
  (stable_at (bi s) (oi s) (ti s) -> length b - bi s + 1 <= fuel)%nat ->
  (~ stable_at (bi s) (oi s) (ti s) -> ~ at_end (bi s) (oi s) (ti s) -> length b - bi s + 2 <= fuel)%nat ->
  let s' := merge_loop b o t in_ours in_theirs fuel lo lt_ s in
  P s' /\ at_end (bi s') (oi s') (ti s').
Proof.
  revert s; induction fuel as [|fuel IH]; intros s HP Hb F1 F2 F3.
  { exfalso. destruct (stable_dec (bi s) (oi s) (ti s)) as [Hs|Hs]; [specialize (F2 Hs); lia|].
    apply F3 in Hs; [lia|]. intros He. specialize (F1 He). lia. }
  cbn [merge_loop].
  destruct (stable_run_spec (length b) s HP Hb ltac:(lia)) as (HP' & Hb' & Hns & Hle & Hlt).
  set (s1 := stable_run b in_ours in_theirs (length b) s) in *.
  destruct (_ && _) eqn:E.
  { rewrite !andb_true_iff, !Nat.leb_le in E. destruct Hb' as (? & ? & ?).
    split; [done|]. unfold at_end. lia. }
  assert (Hne : ~ at_end (bi s1) (oi s1) (ti s1)).
  { intros (E1 & E2 & E3). rewrite E1, E2, E3, !Nat.leb_refl in E. done. }
  unfold next_stable. destruct Hb' as (B1 & B2 & B3).
  pose proof (next_stable_from_spec (length b - bi s1) (bi s1) (oi s1) (ti s1) ltac:(lia) B2 B3) as Hn.
  destruct (next_stable_from _ _ _ _ _ _ _ _ _) as [[nb no] nt].
  destruct Hn as (N1 & N2 & N3 & Nb & Nst).
  assert (Hfuel : (length b - bi s1 + 2 <= S fuel)%nat).
  { destruct (stable_dec (bi s) (oi s) (ti s)) as [Hs|Hs].
    - specialize (F2 Hs). specialize (Hlt Hs). lia.
    - assert (~ at_end (bi s) (oi s) (ti s)) as Hse; [|specialize (F3 Hs Hse); lia].
      intros (E1 & E2 & E3). apply Hne. assert (s1 = s) as ->; [|done].
      subst s1. destruct (length b) eqn:El; [done|]. cbn [stable_run].
      rewrite (lookup_ge_None_2 b) by lia. done. }
  assert (Hproj : bi (resolve b o t lo lt_ s1 nb no nt) = nb /\
    oi (resolve b o t lo lt_ s1 nb no nt) = no /\ ti (resolve b o t lo lt_ s1 nb no nt) = nt).
  { unfold resolve. repeat case_bool_decide; done. }
  destruct Hproj as (Q1 & Q2 & Q3).
  apply IH; rewrite ?Q1, ?Q2, ?Q3; [by apply P_region|done|lia| |].
  - intros Hst. pose proof (stable_bounds _ _ _ Hst). lia.
  - intros H1 H2. by destruct Nst.
Qed.

Lemma merge_loop_inv :
  P start -> let s' := merge_loop b o t in_ours in_theirs (length b + 2) lo lt_ start in
  P s' /\ at_end (bi s') (oi s') (ti s').
Proof.
  intros HP. apply merge_loop_spec; [done|unfold in_bounds; cbn; lia|lia|cbn; lia|cbn; lia].
Qed.
End Invariant.

(** ** What the merge guarantees *)

Lemma concat_take_S (l : list line) i x :
  l !! i = Some x -> concat (take (S i) l) = concat (take i l) ++ x.
Proof. intros H. rewrite (take_S_r _ _ x H), concat_app. cbn. by rewrite app_nil_r. Qed.

Lemma push_slice (l : list line) i j :
  (i <= j)%nat -> push (concat (take i l)) (slice l i j) = concat (take j l).
Proof. intros H. unfold push. by rewrite (take_slice l i j H), concat_app. Qed.

Lemma concat_take_end (s : list Z) i :
  i = length (split_inclusive s) -> concat (take i (split_inclusive s)) = s.
Proof. intros ->. rewrite firstn_all. apply concat_split_inclusive. Qed.

Lemma align_refl_inv a i j : align a a !! i = Some (Some j) -> i = j.
Proof.
  intros H. pose proof (lookup_lt_Some _ _ _ H) as Hlt.
  rewrite (proj1 (align_sound a a)) in Hlt. rewrite align_refl in H by done. congruence.
Qed.

(** A side that did not move gives way to the one that did, and two sides
    that made the same change agree: with [ours] equal to the base the merge is
    exactly [theirs], with [theirs] equal to the base it is exactly [ours], with
    both equal it is that text, and none of these is ever a conflict. *)
Theorem merge_one_side base other lo lt :
  merge base base other lo lt = {| text := other; conflicts := 0 |} /\
  merge base other base lo lt = {| text := other; conflicts := 0 |} /\
  merge base other other lo lt = {| text := other; conflicts := 0 |}.
Proof.
  unfold merge. set (b := split_inclusive base). set (x := split_inclusive other).
  split_and!.
  - destruct (merge_loop_inv b b x (align b b) (align b x) lo lt (align_sound b b) (align_sound b x)
      (fun s => out s = concat (take (ti s) x) /\ seen s = 0%nat /\ oi s = bi s))
      as [(Hout & Hseen & _) (_ & _ & Hend)]; [| |done|].
    + intros s l (Hout & Hseen & Ho) _ _ _ _ Hl. cbn.
      rewrite (concat_take_S _ _ _ Hl), Hout. split_and!; [done..|lia].
    + intros s nb no nt (Hout & Hseen & Ho) _ _ Ht _ Hst.
      assert (no = nb) as ->.
      { destruct Hst as [[H _]|(-> & -> & _)]; [by apply align_refl_inv in H|done]. }
      unfold resolve. rewrite Ho, bool_decide_true by done. cbn. by rewrite Hout, push_slice.
    + rewrite Hout, Hseen. f_equal. by apply concat_take_end.
  - destruct (merge_loop_inv b x b (align b x) (align b b) lo lt (align_sound b x) (align_sound b b)
      (fun s => out s = concat (take (oi s) x) /\ seen s = 0%nat /\ ti s = bi s))
      as [(Hout & Hseen & _) (_ & Hend & _)]; [| |done|].
    + intros s l (Hout & Hseen & Ho) _ _ _ Hl _. cbn.
      rewrite (concat_take_S _ _ _ Hl), Hout. split_and!; [done..|lia].
    + intros s nb no nt (Hout & Hseen & Ho) _ Hle _ _ Hst.
      assert (nt = nb) as ->.
      { destruct Hst as [[_ H]|(-> & _ & ->)]; [by apply align_refl_inv in H|done]. }
      unfold resolve. rewrite Ho, (bool_decide_true (slice b _ _ = slice b _ _)) by done.
      case_bool_decide as E; cbn; rewrite Hout; [|by rewrite push_slice].
      rewrite <- E. by rewrite push_slice.
    + rewrite Hout, Hseen. f_equal. by apply concat_take_end.
  - destruct (merge_loop_inv b x x (align b x) (align b x) lo lt (align_sound b x) (align_sound b x)
      (fun s => out s = concat (take (oi s) x) /\ seen s = 0%nat /\ ti s = oi s))
      as [(Hout & Hseen & _) (_ & Hend & _)]; [| |done|].
    + intros s l (Hout & Hseen & Ho) _ _ _ Hl _. cbn.
      rewrite (concat_take_S _ _ _ Hl), Hout. split_and!; [done..|lia].
    + intros s nb no nt (Hout & Hseen & Ho) _ Hle _ _ Hst.
      assert (nt = no) as ->.
      { destruct Hst as [[H1 H2]|(_ & -> & ->)]; congruence. }
      unfold resolve. rewrite Ho. repeat case_bool_decide; cbn; rewrite ?Hout, ?push_slice; done.
    + rewrite Hout, Hseen. f_equal. by apply concat_take_end.
Qed.

(** A region of the three files, and what the merge makes of it. *)
Record Chunk := { c_base : list line; c_ours : list line; c_theirs : list line }.

Definition conflicting (c : Chunk) : bool :=
  negb (bool_decide (c_ours c = c_base c)) && negb (bool_decide (c_theirs c = c_base c)) &&
  negb (bool_decide (c_ours c = c_theirs c)).

Definition chunk_text (lo lt txt : list Z) (c : Chunk) : list Z :=
  if conflicting c then conflict txt (c_ours c) (c_theirs c) lo lt
  else if bool_decide (c_ours c = c_base c) then push txt (c_theirs c)
  else push txt (c_ours c).

Definition reads (lo lt : list Z) (cs : list Chunk) : list Z := fold_left (chunk_text lo lt) cs [].

Lemma concat_snoc {A} (ls : list (list A)) l : concat (ls ++ [l]) = concat ls ++ l.
Proof. rewrite concat_app. cbn. by rewrite app_nil_r. Qed.

Lemma reads_snoc lo lt cs c : reads lo lt (cs ++ [c]) = chunk_text lo lt (reads lo lt cs) c.
Proof. unfold reads. by rewrite fold_left_app. Qed.

Lemma conflicts_snoc cs c :
  length (List.filter conflicting (cs ++ [c])) =
  (length (List.filter conflicting cs) + if conflicting c then 1 else 0)%nat.
Proof. rewrite List.filter_app, length_app. cbn. by destruct (conflicting c). Qed.

(** The regions seen so far: what they cover and what they read. *)
Definition covered (b o t : list line) (lo lt : list Z) (s : State) (cs : list Chunk) : Prop :=
  concat (map c_base cs) = take (bi s) b /\ concat (map c_ours cs) = take (oi s) o /\
  concat (map c_theirs cs) = take (ti s) t /\ out s = reads lo lt cs /\
  seen s = length (List.filter conflicting cs).

Lemma covered_snoc b o t lo lt s s' cs c :
  covered b o t lo lt s cs ->
  take (bi s') b = take (bi s) b ++ c_base c -> take (oi s') o = take (oi s) o ++ c_ours c ->
  take (ti s') t = take (ti s) t ++ c_theirs c -> out s' = chunk_text lo lt (out s) c ->
  seen s' = (seen s + if conflicting c then 1 else 0)%nat ->
  covered b o t lo lt s' (cs ++ [c]).
Proof.
  intros (Hb & Ho & Ht & Hout & Hseen) Eb Eo Et Eout Eseen. unfold covered.
  rewrite !map_app. cbn [map]. rewrite !concat_snoc, reads_snoc, conflicts_snoc.
  rewrite Eb, Eo, Et, Eout, Eseen. split_and!; congruence.
Qed.

(** C28. The merge accounts for every line. The three files split into the same
    sequence of regions, nothing skipped or repeated; the result is those
    regions in order, each the version of the side that changed it, and between
    markers, counted once, exactly where both sides changed a region and
    disagree. *)
Theorem merge_accounts_for_every_line base ours theirs lo lt :
  exists cs : list Chunk,
    concat (map c_base cs) = split_inclusive base /\
    concat (map c_ours cs) = split_inclusive ours /\
    concat (map c_theirs cs) = split_inclusive theirs /\
    merge base ours theirs lo lt =
      {| text := reads lo lt cs; conflicts := length (List.filter conflicting cs) |}.
Proof.
  unfold merge. set (b := split_inclusive base). set (o := split_inclusive ours).
  set (t := split_inclusive theirs).
  destruct (merge_loop_inv b o t (align b o) (align b t) lo lt (align_sound b o) (align_sound b t)
    (fun s => exists cs, covered b o t lo lt s cs))
    as [(cs & Hb & Ho & Ht & Hout & Hseen) (Eb & Eo & Et)].
  - intros s l (cs & Hc) _ _ Lb Lo Lt.
    exists (cs ++ [{| c_base := [l]; c_ours := [l]; c_theirs := [l] |}]).
    apply (covered_snoc _ _ _ _ _ s); [done|..]; cbn [bi oi ti out seen c_base c_ours c_theirs];
      [by apply take_S_r..| |];
      unfold chunk_text, conflicting; cbn [c_base c_ours c_theirs]; rewrite bool_decide_true by done; cbn.
    + unfold push. cbn. by rewrite app_nil_r.
    + by rewrite Nat.add_0_r.
  - intros s nb no nt (cs & Hc) Lb Lo Lt _ _.
    exists (cs ++ [{| c_base := slice b (bi s) nb; c_ours := slice o (oi s) no;
                      c_theirs := slice t (ti s) nt |}]).
    unfold resolve. apply (covered_snoc _ _ _ _ _ s); [done|..];
      unfold chunk_text, conflicting; cbn [c_base c_ours c_theirs];
      repeat case_bool_decide; cbn; rewrite <- ?take_slice by done; done || lia || by f_equal.
  - by exists [].
  - exists cs. rewrite Hb, Ho, Ht, Eb, Eo, Et, !firstn_all, Hout, Hseen. done.
Qed.

(** ** Conflicts are always visible *)

Lemma split_inclusive_app x z :
  split_inclusive (x ++ 10 :: z) = split_inclusive (x ++ [10]) ++ split_inclusive z.
Proof.
  induction x as [|b x IH]; [done|]. cbn [app split_inclusive]. rewrite IH. case_match; [done|].
  destruct (split_inclusive (x ++ [10])) as [|l ls] eqn:E; [|done].
  pose proof (concat_split_inclusive (x ++ [10])) as Hc. rewrite E in Hc. by destruct x.
Qed.

Lemma split_inclusive_marker m y :
  Forall (fun b => b <> 10) m -> m <> [] ->
  exists r ls, split_inclusive (m ++ y) = (m ++ r) :: ls.
Proof.
  induction 1 as [|b m Hb Hm IH]; [done|]. intros _. cbn [app split_inclusive].
  rewrite (proj2 (Z.eqb_neq b 10)) by done.
  destruct m as [|c m]; cbn [app].
  - destruct (split_inclusive y) as [|l ls]; [by exists [], []|by exists l, ls].
  - destruct IH as (r & ls & IH); [done|]. cbn [app] in IH. rewrite IH. by exists r, ls.
Qed.

Lemma starts_with_strip (m l l' : list Z) (c d : Z) :
  starts_with l (m ++ [d]) = true -> d <> c -> strip_suffix l [c] = Some l' ->
  starts_with l' (m ++ [d]) = true.
Proof.
  intros [r ->]%starts_with_spec Hd H%strip_suffix_spec.
  destruct r as [|x r _] using rev_ind.
  - rewrite app_nil_r in H. apply app_inj_2 in H as [_ [= ?]]; done.
  - rewrite app_assoc in H. apply app_inj_2 in H as [<- _]; [|done]. apply starts_with_spec. by eexists.
Qed.

(** The marker that opens a conflict, at the start of a line. *)
Definition marked (txt : list Z) : Prop :=
  exists x y, txt = x ++ lit "<<<<<<< " ++ y /\ (x = [] \/ exists x', x = x' ++ [10]).

Lemma marked_app txt more : marked txt -> marked (txt ++ more).
Proof. intros (x & y & -> & H). exists x, (y ++ more). by rewrite <- !app_assoc. Qed.

Lemma marked_has_markers txt : marked txt -> has_conflict_markers txt = true.
Proof.
  intros (x & y & -> & Hx). unfold has_conflict_markers, lines. apply existsb_exists.
  destruct (split_inclusive_marker (lit "<<<<<<< ") y) as (r & ls & Hr);
    [by apply (bool_decide_unpack _)|done|].
  assert (Hin : In (lit "<<<<<<< " ++ r) (split_inclusive (x ++ lit "<<<<<<< " ++ y))).
  { destruct Hx as [->|[x' ->]]; cbn [app]; [rewrite Hr; by left|].
    rewrite <- app_assoc. cbn [app]. rewrite split_inclusive_app, Hr. apply in_app_iff. right. by left. }
  eexists. split; [apply in_map; exact Hin|]. apply orb_true_iff. left. apply orb_true_iff. left.
  assert (Hst : starts_with (lit "<<<<<<< " ++ r) (lit "<<<<<<<" ++ [32]) = true)
    by (apply starts_with_spec; by exists r).
  change (lit "<<<<<<< ") with (lit "<<<<<<<" ++ [32]).
  destruct (strip_suffix _ [10]) as [l|] eqn:E1; [|done].
  apply starts_with_strip with (c := 10) (l' := l) in Hst; [|lia|done].
  destruct (strip_suffix l [13]) as [l'|] eqn:E2; [|done].
  by apply starts_with_strip with (c := 13) (l' := l') in Hst.
Qed.

Lemma ensure_newline_app txt : exists n, ensure_newline txt = txt ++ n.
Proof. unfold ensure_newline. case_match; [by eexists|]. exists []. by rewrite app_nil_r. Qed.

Lemma ensure_newline_line txt : ensure_newline txt = [] \/ exists x, ensure_newline txt = x ++ [10].
Proof.
  unfold ensure_newline. case_bool_decide as E; cbn [negb andb]; [by left|].
  destruct (ends_with txt [10]) eqn:H; cbn [negb andb]; right; [by apply ends_with_spec in H|by eexists].
Qed.

Lemma conflict_marked txt ours theirs lo lt : marked (conflict txt ours theirs lo lt).
Proof.
  unfold conflict, push.
  destruct (ensure_newline_app ((ensure_newline txt ++ lit "<<<<<<< " ++ lo ++ [10]) ++ concat ours)) as [n1 ->].
  set (rest := concat theirs).
  destruct (ensure_newline_app (((((ensure_newline txt ++ lit "<<<<<<< " ++ lo ++ [10]) ++ concat ours) ++ n1)
    ++ lit "=======" ++ [10]) ++ rest)) as [n2 ->].
  do 6 apply marked_app.
  exists (ensure_newline txt), (lo ++ [10]). split; [done|]. apply ensure_newline_line.
Qed.

(** An undecided merge cannot pass unnoticed: whenever the result counts a
    conflict, [has_conflict_markers] finds it, whatever the texts, their line
    endings and the labels are. *)
Theorem conflicts_are_marked base ours theirs lo lt :
  conflicts (merge base ours theirs lo lt) <> 0%nat ->
  has_conflict_markers (text (merge base ours theirs lo lt)) = true.
Proof.
  unfold merge. set (b := split_inclusive base). set (o := split_inclusive ours).
  set (t := split_inclusive theirs). cbn [conflicts text].
  destruct (merge_loop_inv b o t (align b o) (align b t) lo lt (align_sound b o) (align_sound b t)
    (fun s => seen s <> 0%nat -> marked (out s))) as [H _].
  - intros s l H _ _ _ _ _ Hs. apply marked_app. by apply H.
  - intros s nb no nt H _ _ _ _ _. unfold resolve, push.
    repeat case_bool_decide; cbn; intros Hs; try (apply marked_app; by apply H). apply conflict_marked.
  - done.
  - intros Hc. apply marked_has_markers, H, Hc.
Qed.

Lemma conflicts_are_marked_witness :
  let m := merge (lit "a" ++ [10]) (lit "b" ++ [13; 10]) (lit "c") (lit "yours") (lit "theirs") in
  conflicts m = 1%nat /\ has_conflict_markers (text m) = true.
Proof. split; [reflexivity|]. apply conflicts_are_marked. vm_compute. discriminate. Defined.

End Merge.
