(* ===== verification/F64.v ===== *)
(** * Double-precision numbers

    Rust's [f64] as the binary64 instance of the IEEE 754 specification of the
    Standard Library, with the two casts the source uses: an integer [as f64]
    rounds to nearest even, and a float [as i64] or [as u64] truncates and
    saturates, with NaN going to 0. *)

From Stdlib Require Import SpecFloat.
From S2P Require Import Prelude.

Abbreviation f64 := spec_float.

#[export] Instance spec_float_eq_dec : EqDecision spec_float.
Proof. solve_decision. Defined.

(** [n as f64]. *)
Definition f64_of_Z (n : Z) : f64 := binary_normalize 53 1024 n 0 false.

(** The integer part, towards zero. *)
Definition f64_trunc (s : bool) (m : positive) (e : Z) : Z :=
  let a := if 0 <=? e then Zpos m * 2 ^ e else Zpos m / 2 ^ (- e) in
  if s then - a else a.

(** [x as iN] or [x as uN] for a type with the bounds [lo] and [hi]. *)
Definition f64_to_int (lo hi : Z) (x : f64) : Z :=
  match x with
  | S754_zero _ | S754_nan => 0
  | S754_infinity s => if s then lo else hi
  | S754_finite s m e => Z.max lo (Z.min hi (f64_trunc s m e))
  end.

Definition f64_mul (x y : f64) : f64 := SFmul 53 1024 x y.
Definition f64_div (x y : f64) : f64 := SFdiv 53 1024 x y.
Definition f64_ge (x y : f64) : bool := SFleb y x.

(** ** Integers below 2^53 survive the cast *)

Lemma digits2_pos_bounds m : 2 ^ (Zpos (digits2_pos m) - 1) <= Zpos m < 2 ^ Zpos (digits2_pos m).
Proof.
  assert (Hp : forall p, 2 ^ Zpos (Pos.succ p) = 2 * 2 ^ Zpos p /\ 2 ^ (Zpos (Pos.succ p) - 1) = 2 ^ Zpos p).
  { intros p. rewrite Pos2Z.inj_succ. split; [apply Z.pow_succ_r; lia|f_equal; lia]. }
  assert (Hq : forall p, 2 ^ Zpos p = 2 * 2 ^ (Zpos p - 1))
    by (intros p; rewrite <- Z.pow_succ_r by lia; f_equal; lia).
  induction m as [m IH|m IH|]; cbn [digits2_pos]; [| |by vm_compute];
    destruct (Hp (digits2_pos m)) as [-> ->]; specialize (Hq (digits2_pos m)); lia.
Qed.

Lemma digits2_pos_le m n : 0 <= n -> Zpos m < 2 ^ n -> Zpos (digits2_pos m) <= n.
Proof.
  intros Hn Hm. pose proof (digits2_pos_bounds m) as [H _].
  assert (Zpos (digits2_pos m) - 1 < n); [|lia].
  apply (Z.pow_lt_mono_r_iff 2); lia.
Qed.

Lemma iter_xO m k :
  Zpos (Pos.iter xO m k) = Zpos m * 2 ^ Zpos k /\
  Zpos (digits2_pos (Pos.iter xO m k)) = Zpos (digits2_pos m) + Zpos k.
Proof.
  induction k as [|k [IH1 IH2]] using Pos.peano_ind.
  { cbn. split; lia. }
  rewrite Pos.iter_succ, Pos2Z.inj_succ, Z.pow_succ_r by lia. cbn [digits2_pos].
  rewrite Pos2Z.inj_xO, Pos2Z.inj_succ. lia.
Qed.

Lemma shr_fexp_53 m e :
  Zpos (digits2_pos m) = 53 -> -1074 <= e ->
  shr_fexp 53 1024 (Zpos m) e loc_Exact = ({| shr_m := Zpos m; shr_r := false; shr_s := false |}, e).
Proof.
  intros Hd He. unfold shr_fexp, fexp, emin. cbn [Zdigits2]. rewrite Hd.
  replace (Z.max (53 + e - 53) (3 - 1024 - 53) - e) with 0 by lia. done.
Qed.

(** A positive integer below [2^53] is represented exactly. *)
Lemma binary_round_exact s m :
  Zpos m < 2 ^ 53 ->
  exists mz e, binary_round 53 1024 s m 0 = S754_finite s mz e /\ -52 <= e <= 0 /\
    Zpos mz = Zpos m * 2 ^ (- e).
Proof.
  intros Hm. pose proof (digits2_pos_le m 53 ltac:(lia) Hm) as Hd.
  assert (1 <= Zpos (digits2_pos m)) by lia.
  unfold binary_round. set (d := Zpos (digits2_pos m)) in *.
  assert (Hshl : exists mz, shl_align m 0 (fexp 53 1024 (d + 0)) = (mz, d - 53) /\
    Zpos mz = Zpos m * 2 ^ (53 - d) /\ Zpos (digits2_pos mz) = 53).
  { unfold shl_align, fexp, emin. replace (Z.max (d + 0 - 53) (3 - 1024 - 53) - 0) with (d - 53) by lia.
    replace (Z.max (d + 0 - 53) (3 - 1024 - 53)) with (d - 53) by lia.
    destruct (d - 53) as [|p|p] eqn:E; [|lia|].
    - exists m. replace (53 - d) with 0 by lia. split; [done|]. split; [lia|]. unfold d in *. lia.
    - exists (Pos.iter xO m p). destruct (iter_xO m p) as [H1 H2]. split; [done|].
      rewrite H1, H2. replace (53 - d) with (Zpos p) by lia. split; [done|]. fold d. lia. }
  destruct Hshl as (mz & -> & Hmz & Hdz). unfold binary_round_aux.
  rewrite shr_fexp_53 by lia. cbn [shr_m loc_of_shr_record round_nearest_even].
  rewrite shr_fexp_53 by lia. cbn [shr_m]. exists mz, (d - 53).
  destruct (Z.leb_spec (d - 53) (1024 - 53)); [|lia]. split; [done|]. split; [lia|].
  replace (- (d - 53)) with (53 - d) by lia. done.
Qed.

Lemma f64_trunc_exact s m mz e :
  e <= 0 -> Zpos mz = Zpos m * 2 ^ (- e) -> f64_trunc s mz e = if s then - Zpos m else Zpos m.
Proof.
  intros He Hmz. unfold f64_trunc. rewrite Hmz.
  destruct (Z.leb_spec 0 e).
  - replace e with 0 by lia. cbn. destruct s; lia.
  - rewrite Z.div_mul by lia. done.
Qed.

(** Casting to [f64] and back is the identity on integers below [2^53]. *)
Lemma f64_int_roundtrip lo hi n :
  - 2 ^ 53 < n < 2 ^ 53 -> lo <= n <= hi -> lo <= 0 <= hi -> f64_to_int lo hi (f64_of_Z n) = n.
Proof.
  intros Hn Hb H0. unfold f64_of_Z, binary_normalize. destruct n as [|m|m]; [done|..];
    [destruct (binary_round_exact false m) as (mz & e & -> & He & Hmz)
    |destruct (binary_round_exact true m) as (mz & e & -> & He & Hmz)]; [lia| |lia|].
  - cbn [f64_to_int]. rewrite (f64_trunc_exact _ m) by (done || lia). lia.
  - cbn [f64_to_int]. rewrite (f64_trunc_exact _ m) by (done || lia). lia.
Qed.
