(* ===== verification/Decimal.v ===== *)
(** * Decimal text of double-precision numbers

    [str::parse::<f64>] and [Display] for [f64], as the Standard Library of Rust
    documents them: parsing rounds the exact decimal value to the nearest double,
    ties to even; printing gives the shortest digits that parse back, never in
    scientific notation. Both are computed on exact integers, and what is printed
    is shown to be read back ([Rounding]). *)

From Stdlib Require Import SpecFloat.
From S2P Require Import Prelude Text F64.

Module Decimal.

(** ** Parsing *)

(** The double nearest to [m * 10^e]. The two guards keep the integers small:
    beyond them the value is above every double, or below half of the least
    positive one, since [10^e <= 2^(3 e)] for a negative [e]. *)
Definition round_decimal (s : bool) (m : positive) (e : Z) : f64 :=
  if 400 <? e then S754_infinity s
  else if Z.log2 (Zpos m) + 1 + 3 * e <=? -1075 then S754_zero s
  else if 0 <=? e then
    match Zpos m * 10 ^ e with
    | Zpos p => binary_round 53 1024 s p 0
    | _ => S754_zero s
    end
  else
    let '(q, e', l) := SFdiv_core_binary 53 1024 (Zpos m) 0 (10 ^ (- e)) 0 in
    binary_round_aux 53 1024 s q e' l.

(** The digits at the front. *)
Fixpoint take_digits (l : list Z) : list Z * list Z :=
  match l with
  | b :: r => if is_digit b then let '(ds, rest) := take_digits r in (b :: ds, rest) else ([], l)
  | [] => ([], [])
  end.

Definition digits_value (l : list Z) : Z := default 0 (digits l 0).

(** [e], a sign, at least one digit, and nothing more. *)
Definition parse_exponent (l : list Z) : option Z :=
  match l with
  | [] => Some 0
  | b :: r =>
      if (b =? 101) || (b =? 69) then
        let '(neg, r) :=
          match r with
          | c :: r' => if c =? 45 then (true, r') else if c =? 43 then (false, r') else (false, r)
          | [] => (false, [])
          end in
        let '(ds, rest) := take_digits r in
        match ds, rest with
        | _ :: _, [] => Some (if neg then - digits_value ds else digits_value ds)
        | _, _ => None
        end
      else None
  end.

(** The number after its sign: digits with at most one point among them and at
    least one digit, then an exponent. *)
Definition parse_unsigned (s : bool) (l : list Z) : option f64 :=
  let '(whole, r) := take_digits l in
  let '(frac, r) :=
    match r with
    | b :: r' => if b =? 46 then take_digits r' else ([], r)
    | [] => ([], [])
    end in
  if (length (whole ++ frac) =? 0)%nat then None
  else
    let! e := parse_exponent r in
    match digits_value (whole ++ frac) with
    | Zpos m => Some (round_decimal s m (e - Z.of_nat (length frac)))
    | _ => Some (S754_zero s)
    end.

(** [parse::<f64>] on text made of digits, signs, points and [e]: the names of
    infinity and of NaN cannot occur. *)
Definition parse_f64 (l : list Z) : option f64 :=
  match l with
  | b :: r => if b =? 45 then parse_unsigned true r else if b =? 43 then parse_unsigned false r
              else parse_unsigned false l
  | [] => None
  end.

(** ** Printing *)

(** [floor(2 * m * 2^e * 10^p)], to round at the last digit. *)
Definition scaled (m : positive) (e p : Z) : Z :=
  let num := 2 * Zpos m * (if 0 <=? e then 2 ^ e else 1) * (if 0 <=? p then 10 ^ p else 1) in
  let den := (if 0 <=? e then 1 else 2 ^ (- e)) * (if 0 <=? p then 1 else 10 ^ (- p)) in
  num / den.

(** The least [k] with [m * 2^e < 10^k], searched upwards. *)
Fixpoint magnitude (fuel : nat) (m : positive) (e k : Z) : Z :=
  match fuel with
  | O => k
  | S fuel =>
      let below := if 0 <=? e
        then (if 0 <=? k then Zpos m * 2 ^ e <? 10 ^ k else false)
        else (if 0 <=? k then Zpos m <? 10 ^ k * 2 ^ (- e) else Zpos m * 10 ^ (- k) <? 2 ^ (- e)) in
      if below then k else magnitude fuel m e (k + 1)
  end.

(** The first number of digits at which a neighbour of the value parses back,
    the nearer one first. *)
Fixpoint shortest (fuel : nat) (m : positive) (e k n : Z) : Z * Z :=
  let p := n - k in
  let twice := scaled m e p in
  let near := (twice + 1) / 2 in
  let other := if Z.even twice then near + 1 else near - 1 in
  let back q := match q with
                | Zpos d => bool_decide (round_decimal false d (- p) = S754_finite false m e)
                | _ => false
                end in
  match fuel with
  | O => (near, p)
  | S fuel =>
      if back near then (near, p) else if back other then (other, p)
      else shortest fuel m e k (n + 1)
  end.

(** The digits with the point [p] places from the right. *)
Definition place_point (ds : list Z) (p : Z) : list Z :=
  if p <=? 0 then ds ++ repeat 48 (Z.to_nat (- p))
  else
    let n := Z.of_nat (length ds) in
    if p <? n then take (Z.to_nat (n - p)) ds ++ [46] ++ drop (Z.to_nat (n - p)) ds
    else lit "0." ++ repeat 48 (Z.to_nat (p - n)) ++ ds.

Definition display_f64 (x : f64) : list Z :=
  match x with
  | S754_zero s => if s then lit "-0" else lit "0"
  | S754_infinity s => if s then lit "-inf" else lit "inf"
  | S754_nan => lit "NaN"
  | S754_finite s m e =>
      let k := magnitude 650 m e (-324) in
      let '(d, p) := shortest 17 m e k 1 in
      (if s then lit "-" else []) ++ place_point (dec_nat d) p
  end.

(** Doubles known from Rust's own documentation and tests. *)
Example decimal_runs :
  (parse_f64 (lit "0.1") = Some (S754_finite false 7205759403792794 (-56))) /\
  parse_f64 (lit "1e400") = Some (S754_infinity false) /\
  parse_f64 (lit "-2.5e-400") = Some (S754_zero true) /\
  parse_f64 (lit "1.") = parse_f64 (lit "1") /\ parse_f64 (lit "-") = None /\ parse_f64 (lit "1e") = None /\
  (display_f64 <$> parse_f64 (lit "0.1")) = Some (lit "0.1") /\
  (display_f64 <$> parse_f64 (lit "123456.789e3")) = Some (lit "123456789") /\
  (display_f64 <$> parse_f64 (lit "-1.5e-7")) = Some (lit "-0.00000015") /\
  (display_f64 <$> parse_f64 (lit "5e-324")) = Some (lit "0." ++ repeat 48 323 ++ lit "5") /\
  (display_f64 <$> parse_f64 (lit "9007199254740993")) = Some (lit "9007199254740992") /\
  (display_f64 <$> parse_f64 (lit "1e21")) = Some (lit "1000000000000000000000") /\
  (display_f64 <$> parse_f64 (lit "0.30000000000000004")) = Some (lit "0.30000000000000004").
Proof. split_and!; vm_compute; reflexivity. Qed.

End Decimal.

(** * Rounding

    What is printed is read back: the value a text stands for is rounded to the
    double it was printed for, because it lies closer to it than to any other. *)

Module Rounding.
Import Decimal.

(** ** Rounding to the nearest

    A value is [N / D]; a mantissa with its two extra bits locates it when it is
    its integer part, and the bits say which half of the unit holds the rest. *)

Definition located (N D : Z) (r : shr_record) : Prop :=
  0 < D /\ 0 <= shr_m r /\
  exists rem, 0 <= rem < D /\ 2 * N = D * (2 * shr_m r + Z.b2z (shr_r r)) + rem /\ shr_s r = negb (rem =? 0).

Lemma located_shr_1 N D r : located N D r -> located N (2 * D) (shr_1 r).
Proof.
  intros (HD & Hm & rem & Hr & HN & Hs). destruct r as [m r s]. cbn [shr_m shr_r shr_s] in *.
  assert (E : exists q b, shr_1 (Build_shr_record m r s) = Build_shr_record q b (orb r s) /\ 0 <= q /\ m = 2 * q + Z.b2z b).
  { destruct m as [|[p|p|]|]; cbn [shr_1]; [exists 0, false|exists (Zpos p), true|exists (Zpos p), false|exists 0, true|lia];
      (split; [done|]); cbn [Z.b2z]; lia. }
  destruct E as (q & b & -> & Hq & Hmq). split; [lia|]. cbn [shr_m shr_r shr_s]. split; [done|].
  exists (D * Z.b2z r + rem). assert (0 <= Z.b2z r <= 1) by (destruct r; cbn; lia). split; [nia|]. split; [nia|].
  rewrite Hs. destruct r; cbn [orb Z.b2z]; [|by rewrite Z.mul_0_r, Z.add_0_l].
  destruct (Z.eqb_spec (D * 1 + rem) 0); [lia|done].
Qed.

Lemma iter_pos_spec {A} (P : positive -> A -> Prop) (f : A -> A) x :
  P xH (f x) -> (forall p a, P p a -> P (Pos.succ p) (f a)) -> forall n, P n (SpecFloat.iter_pos f n x).
Proof.
  intros H1 Hs n.
  assert (Hi : forall n x, SpecFloat.iter_pos f n x = Pos.iter f x n).
  { clear. induction n as [n IH|n IH|]; intros x; cbn [SpecFloat.iter_pos Pos.iter]; [|by rewrite !IH|done].
    rewrite !IH. by rewrite !Pos.iter_swap. }
  rewrite Hi. induction n as [|n IH] using Pos.peano_ind; [done|]. rewrite Pos.iter_succ. by apply Hs.
Qed.

Lemma located_shr N D r e n :
  located N D r -> located N (D * 2 ^ Z.max n 0) (shr r e n).1 /\ (shr r e n).2 = e + Z.max n 0.
Proof.
  intros H. destruct n as [|p|p]; cbn [shr fst snd Z.max Z.compare]; [rewrite Z.pow_0_r, Z.mul_1_r; split; [done|lia]| |rewrite Z.pow_0_r, Z.mul_1_r; split; [done|lia]].
  split; [|done]. pattern p, (SpecFloat.iter_pos shr_1 p r). apply iter_pos_spec.
  - rewrite Z.mul_comm. by apply located_shr_1.
  - intros q a Ha. rewrite Z.max_l in * by lia. rewrite Pos2Z.inj_succ, Z.pow_succ_r by lia. replace (D * (2 * 2 ^ Zpos q)) with (2 * (D * 2 ^ Zpos q)) by lia.
    by apply located_shr_1.
Qed.

Lemma located_loc N D r : located N D r -> located N D (shr_record_of_loc (shr_m r) (loc_of_shr_record r)) /\
  shr_record_of_loc (shr_m r) (loc_of_shr_record r) = r.
Proof. intros H. destruct r as [m [] []]; done. Qed.

(** What is within half a unit of an integer rounds to it. *)
Lemma located_round N D r t : located N D r -> Z.abs (2 * N - 2 * t * D) < D ->
  round_nearest_even (shr_m r) (loc_of_shr_record r) = t.
Proof.
  intros (HD & Hm & rem & Hr & HN & Hs) Ht. destruct r as [m r s]. cbn [shr_m shr_r shr_s] in *.
  assert (H : (m = t /\ r = false) \/ (m = t - 1 /\ r = true /\ s = true)).
  { destruct r; cbn [Z.b2z] in HN; [right|left; split; [nia|done]]. assert (m = t - 1) as -> by nia. split_and!; [done..|].
    rewrite Hs. destruct (Z.eqb_spec rem 0); [nia|done]. }
  destruct H as [[-> ->]|(-> & -> & ->)]; [by destruct s|]. cbn. lia.
Qed.

Lemma located_exact m : 0 <= m -> located m 1 (Build_shr_record m false false).
Proof. intros H. split; [lia|]. split; [done|]. exists 0. cbn. split_and!; [lia|lia|lia|done]. Qed.

Lemma located_floor N D r : located N D r -> shr_m r = N / D.
Proof.
  intros (HD & Hm & rem & Hr & HN & Hs). assert (0 <= Z.b2z (shr_r r) <= 1) by (destruct (shr_r r); cbn; lia).
  apply (Z.div_unique_pos _ _ _ (N - D * shr_m r)); [|lia]. nia.
Qed.

(** ** Binary digits *)

Lemma Zdigits2_unique n d : 0 < d -> 2 ^ (d - 1) <= n < 2 ^ d -> Zdigits2 n = d.
Proof.
  intros Hd [H1 H2]. assert (0 < 2 ^ (d - 1)) by (apply Z.pow_pos_nonneg; lia).
  destruct n as [|p|p]; [lia| |lia]. cbn [Zdigits2]. pose proof (digits2_pos_bounds p) as [B1 B2].
  assert (d - 1 < Zpos (digits2_pos p)) by (apply (Z.pow_lt_mono_r_iff 2); lia).
  assert (Zpos (digits2_pos p) - 1 < d) by (apply (Z.pow_lt_mono_r_iff 2); lia). lia.
Qed.

Lemma Zdigits2_le n d : 0 <= d -> 0 <= n < 2 ^ d -> Zdigits2 n <= d.
Proof. intros Hd [H1 H2]. destruct n as [|p|p]; cbn [Zdigits2]; [lia|by apply digits2_pos_le|lia]. Qed.

Local Abbreviation fx := (fexp 53 1024).

Lemma fexp_eq z : fx z = Z.max (z - 53) (-1074).
Proof. done. Qed.

(** A double: at most 53 digits, as many as its exponent allows. *)
Definition double (m : positive) (e : Z) : Prop := fx (Zpos (digits2_pos m) + e) = e /\ e <= 971.

Lemma bounded_double m e : bounded 53 1024 m e = true <-> double m e.
Proof. unfold bounded, canonical_mantissa, double. rewrite andb_true_iff, Z.eqb_eq, Z.leb_le. done. Qed.

(** Rounding what lies closer to a double than to its neighbours gives the
    double. The value is [N / D * 2^e0]; below a power of two the neighbour is
    twice as close. *)
Section round_nearest.
Context (N D : Z) (m : positive) (e m0 e0 : Z) (l : location).
Hypothesis Hdouble : double m e.
Hypothesis He : e0 <= e.
Hypothesis Hloc : located N D (shr_record_of_loc m0 l).
Let k := e - e0.
Let d := Zpos (digits2_pos m).
(** The unit of the double. *)
Let U := 2 ^ k * D.
Hypothesis Hnear : Z.abs (2 * N - 2 * (Zpos m * U)) < U.
Hypothesis Hlow : Zpos m = 2 ^ 52 -> -1074 < e -> 4 * (Zpos m * U) < 4 * N + U.

Lemma round_facts : 0 < D /\ 0 <= k /\ 0 < U /\ 1 <= d /\ 2 ^ (d - 1) <= Zpos m < 2 ^ d /\ Z.max (d + e - 53) (-1074) = e /\ m0 = N / D /\ 0 <= m0.
Proof using Hdouble He Hloc Hnear Hlow.
  assert (HD : 0 < D) by apply Hloc. assert (Hk : 0 <= k) by (unfold k; lia).
  assert (0 < 2 ^ k) by (apply Z.pow_pos_nonneg; lia). pose proof (digits2_pos_bounds m) as B. fold d in B.
  split_and!; [done|done|unfold U; lia|unfold d; lia|lia|lia|apply Hdouble| |by destruct l as [|[]]; apply Hloc].
  rewrite <- (located_floor _ _ _ Hloc). by destruct l as [|[]].
Qed.

Lemma round_below : N < 2 ^ (d - 1) * U -> Zpos m = 2 ^ (d - 1).
Proof using Hdouble He Hloc Hnear Hlow.
  destruct round_facts as (HD & Hk & HU & Hd & Bd & _). intros HN.
  destruct (Z_le_gt_dec (2 ^ (d - 1) + 1) (Zpos m)); [|lia]. exfalso.
  assert ((2 ^ (d - 1) + 1) * U <= Zpos m * U) by (apply Z.mul_le_mono_nonneg_r; lia). lia.
Qed.

(** How far the mantissa is shifted: to the unit of the double, or to half of it
    just below a power of two. *)
Lemma round_shift : let n := Z.max (fx (Zdigits2 m0 + e0) - e0) 0 in
  n = k \/ (Zpos m = 2 ^ 52 /\ -1074 < e /\ n = k - 1 /\ 0 < k /\ N < Zpos m * U).
Proof using Hdouble He Hloc Hnear Hlow.
  destruct round_facts as (HD & Hk & HU & Hd & Bd & Hcan & Hm0 & Hm00). cbv zeta. rewrite fexp_eq.
  assert (Pd : forall x, 0 <= x -> 2 ^ (x + k) = 2 ^ x * 2 ^ k) by (intros x Hx; rewrite Z.pow_add_r; lia).
  assert (Hup : m0 < 2 ^ (d + k)).
  { rewrite Hm0, Pd by lia. apply Z.div_lt_upper_bound; [lia|]. replace (D * (2 ^ d * 2 ^ k)) with (2 ^ d * U) by (unfold U; lia).
    assert ((Zpos m + 1) * U <= 2 ^ d * U) by (apply Z.mul_le_mono_nonneg_r; lia). lia. }
  destruct (Z_le_gt_dec (2 ^ (d - 1 + k)) m0) as [Hge|Hlt].
  - left. rewrite (Zdigits2_unique m0 (d + k)); [unfold k in *; lia|lia|]. replace (d + k - 1) with (d - 1 + k) by lia. lia.
  - assert (HNlt : N < 2 ^ (d - 1) * U).
    { pose proof (Z.div_mod N D ltac:(lia)). pose proof (Z.mod_pos_bound N D HD).
      assert (D * (N / D + 1) <= D * 2 ^ (d - 1 + k)) by (apply Z.mul_le_mono_nonneg_l; lia).
      rewrite (Pd (d - 1)) in * by lia. unfold U. lia. }
    pose proof (round_below HNlt) as Hm. destruct (Z.eq_dec e (-1074)) as [Hsub|Hnorm].
    + left. pose proof (Zdigits2_le m0 (d + k) ltac:(lia) ltac:(lia)). unfold k in *. lia.
    + assert (Hd53 : d = 53) by lia. rewrite Hd53 in Hm. change (53 - 1) with 52 in Hm. specialize (Hlow Hm ltac:(lia)).
      rewrite (Zdigits2_unique m0 (52 + k)); [destruct (Z.eq_dec k 0); [left; unfold k in *; lia|right]|lia|].
      * rewrite Hd53 in HNlt. rewrite Hm at 2. split_and!; [done|lia|unfold k in *; lia|lia|exact HNlt].
      * split; [|rewrite Hd53 in Hlt; replace (52 + k) with (53 - 1 + k) by lia; lia].
        replace (52 + k - 1) with (51 + k) by lia. rewrite Pd by lia. rewrite Hm0. apply Z.div_le_lower_bound; [lia|].
        replace (D * (2 ^ 51 * 2 ^ k)) with (2 ^ 51 * U) by (unfold U; lia). rewrite Hm in Hlow. lia.
Qed.

Lemma round_nearest s : binary_round_aux 53 1024 s m0 e0 l = S754_finite s m e.
Proof using Hdouble He Hloc Hnear Hlow.
  destruct round_facts as (HD & Hk & HU & Hd & Bd & Hcan & _). pose proof round_shift as Hn. cbv zeta in Hn.
  assert (Hmax : e <= 1024 - 53) by apply Hdouble. clear Hdouble. unfold binary_round_aux, shr_fexp at 1.
  destruct (located_shr N D (shr_record_of_loc m0 l) e0 (fx (Zdigits2 m0 + e0) - e0) Hloc) as [Hl1 He1].
  destruct (shr (shr_record_of_loc m0 l) e0 _) as [r1 e1]. cbn [fst snd] in Hl1, He1. subst e1.
  destruct Hn as [Hn|(Hm & Hne & Hn & Hk1 & HN)]; rewrite Hn in *.
  - rewrite (located_round _ _ _ (Zpos m) Hl1) by (unfold U in *; lia). replace (e0 + k) with e by (unfold k; lia).
    unfold shr_fexp. cbn [Zdigits2]. fold d. rewrite fexp_eq, Hcan, Z.sub_diag.
    cbn [shr shr_record_of_loc shr_m]. by rewrite (proj2 (Z.leb_le _ _) Hmax).
  - assert (HU2 : U = 2 * (D * 2 ^ (k - 1))).
    { unfold U. replace k with (Z.succ (k - 1)) at 1 by lia. rewrite Z.pow_succ_r; lia. }
    specialize (Hlow Hm Hne). rewrite (located_round _ _ _ (2 * Zpos m) Hl1) by (rewrite HU2 in *; lia).
    replace (e0 + (k - 1)) with (e - 1) by (unfold k; lia).
    assert (Hz : Zdigits2 (2 * Zpos m) = 54) by (rewrite Hm; done).
    unfold shr_fexp. rewrite Hz, fexp_eq. replace (Z.max (54 + (e - 1) - 53) (-1074) - (e - 1)) with 1 by lia.
    change (2 * Zpos m) with (Zpos m~0). cbn [shr shr_record_of_loc SpecFloat.iter_pos shr_1 shr_m].
    replace (e - 1 + 1) with e by lia. by rewrite (proj2 (Z.leb_le _ _) Hmax).
Qed.
End round_nearest.

(** ** Rounding a quotient

    [A / B] is close to the double [m * 2^e]; in the unit of the least double. *)

Definition TINY : Z := 2 ^ 1074.
Definition unit_of (B e : Z) : Z := 2 ^ (e + 1074) * B.
Definition close (A B : Z) (m : positive) (e : Z) : Prop :=
  2 * Z.abs (A * TINY - Zpos m * unit_of B e) < unit_of B e /\
  (Zpos m = 2 ^ 52 -> -1074 < e -> 4 * (Zpos m * unit_of B e) < 4 * (A * TINY) + unit_of B e).

Lemma double_low m e : double m e -> -1074 <= e.
Proof. intros [H _]. rewrite fexp_eq in H. lia. Qed.

Lemma tiny_split z : -1074 <= z -> TINY = 2 ^ (1074 + z) * 2 ^ (- z) \/ 0 <= z.
Proof.
  intros Hz. destruct (Z_le_gt_dec 0 z); [by right|left]. rewrite <- Z.pow_add_r by lia. unfold TINY. f_equal. lia.
Qed.

Lemma round_close s A B m e m0 e0 l :
  double m e -> 0 < B -> close A B m e -> -1074 <= e0 <= 0 -> e0 <= e ->
  located (A * 2 ^ (- e0)) B (shr_record_of_loc m0 l) -> binary_round_aux 53 1024 s m0 e0 l = S754_finite s m e.
Proof.
  intros Hd HB [Hc Hlow] He0 He Hloc. set (w := 2 ^ (1074 + e0)). assert (Hw : 0 < w) by (apply Z.pow_pos_nonneg; lia).
  assert (HA : A * TINY = A * 2 ^ (- e0) * w).
  { replace TINY with (w * 2 ^ (- e0)); [lia|]. unfold w, TINY. rewrite <- Z.pow_add_r by lia. f_equal. lia. }
  assert (HU : unit_of B e = 2 ^ (e - e0) * B * w).
  { unfold unit_of, w. replace (e + 1074) with ((e - e0) + (1074 + e0)) by lia. rewrite Z.pow_add_r by lia. lia. }
  rewrite HA, HU in *. apply (round_nearest (A * 2 ^ (- e0)) B m e m0 e0 l Hd He Hloc).
  - apply (Z.mul_lt_mono_pos_r w); [done|]. rewrite <- (Z.abs_eq w) at 1 by lia. rewrite <- Z.abs_mul.
    match goal with |- Z.abs ?x < _ => replace x with (2 * (A * 2 ^ (- e0) * w - Zpos m * (2 ^ (e - e0) * B * w))) by ring end.
    rewrite Z.abs_mul. exact Hc.
  - intros Hm Hne. specialize (Hlow Hm Hne). apply (Z.mul_lt_mono_pos_r w); [done|].
    eapply Z.le_lt_trans; [|eapply Z.lt_le_trans; [exact Hlow|]]; apply Z.eq_le_incl; ring.
Qed.

(** The value has no more digits above the point than the double. *)
Lemma close_below A B m e : double m e -> 0 < B -> close A B m e ->
  A * TINY < 2 ^ (Zpos (digits2_pos m) + e + 1074) * B.
Proof.
  intros Hd HB [Hc _]. pose proof (double_low _ _ Hd). pose proof (digits2_pos_bounds m) as [_ H2]. set (d := Zpos (digits2_pos m)) in *.
  assert (0 < unit_of B e) by (unfold unit_of; apply Z.mul_pos_pos; [apply Z.pow_pos_nonneg; lia|done]).
  replace (d + e + 1074) with (d + (e + 1074)) by lia. rewrite Z.pow_add_r by (unfold d; lia).
  assert ((Zpos m + 1) * unit_of B e <= 2 ^ d * unit_of B e) by (apply Z.mul_le_mono_nonneg_r; lia).
  replace (2 ^ d * 2 ^ (e + 1074) * B) with (2 ^ d * unit_of B e) by (unfold unit_of; ring). lia.
Qed.

Lemma fexp_mono a b : a <= b -> fx a <= fx b.
Proof. rewrite !fexp_eq. lia. Qed.

Lemma round_integer s p m e : double m e -> close (Zpos p) 1 m e -> binary_round 53 1024 s p 0 = S754_finite s m e.
Proof.
  intros Hd Hc. pose proof (close_below _ _ _ _ Hd Z.lt_0_1 Hc) as Hb. pose proof (double_low _ _ Hd) as Hl. rewrite Z.mul_1_r in Hb.
  assert (Hcan : fx (Zpos (digits2_pos m) + e) = e) by apply Hd. set (d := Zpos (digits2_pos m)) in *.
  assert (Hdp : Zpos (digits2_pos p) <= d + e).
  { pose proof (digits2_pos_bounds p) as [Hp _]. set (dp := Zpos (digits2_pos p)) in *.
    assert (2 ^ (dp - 1 + 1074) < 2 ^ (d + e + 1074)).
    { rewrite Z.pow_add_r by (unfold dp; lia). fold TINY. assert (0 < TINY) by (by apply Z.pow_pos_nonneg). nia. }
    assert (dp - 1 + 1074 < d + e + 1074) by (apply (Z.pow_lt_mono_r_iff 2); [lia|unfold d; lia|done]). lia. }
  pose proof (fexp_mono _ _ Hdp) as Hf. rewrite Hcan in Hf.
  unfold binary_round. rewrite Z.add_0_r. set (f := fx (Zpos (digits2_pos p))) in *. assert (-1074 <= f) by (unfold f; rewrite fexp_eq; lia).
  unfold shl_align. rewrite Z.sub_0_r. destruct f as [|q|q] eqn:Ef.
  - apply (round_close s (Zpos p) 1 m e (Zpos p) 0 loc_Exact); try done; try lia. cbn. rewrite Z.mul_1_r. by apply located_exact.
  - apply (round_close s (Zpos p) 1 m e (Zpos p) 0 loc_Exact); try done; try lia. cbn. rewrite Z.mul_1_r. by apply located_exact.
  - apply (round_close s (Zpos p) 1 m e _ (Zneg q) loc_Exact); try done; try lia.
    rewrite (proj1 (iter_xO p q)). cbn [Z.opp]. apply located_exact. apply Z.mul_nonneg_nonneg; [lia|]. by apply Z.pow_nonneg.
Qed.

Lemma located_new B q r : 0 < B -> 0 <= q -> 0 <= r < B -> located (B * q + r) B (shr_record_of_loc q (new_location B r)).
Proof.
  intros HB Hq Hr.
  assert (H : forall b c : bool, forall rem, 0 <= rem < B -> 2 * r = B * Z.b2z b + rem -> c = negb (rem =? 0) ->
    located (B * q + r) B (Build_shr_record q b c)).
  { intros b c rem H1 H2 H3. split; [done|]. split; [done|]. exists rem. cbn. split_and!; [lia|lia|lia|done]. }
  assert (Hnz : forall rem, 0 < rem -> true = negb (rem =? 0)) by (intros rem Hrem; destruct (Z.eqb_spec rem 0); [lia|done]).
  unfold new_location. destruct (Z.eqb_spec r 0) as [->|Hr0].
  { destruct (Z.even B); (apply (H false false 0); [lia|cbn; lia|done]). }
  destruct (Z.even B) eqn:Ev; unfold new_location_even, new_location_odd; rewrite (proj2 (Z.eqb_neq r 0) Hr0).
  - destruct (Z.compare_spec (2 * r) B).
    + apply (H true false 0); [lia|cbn; lia|done].
    + apply (H false true (2 * r)); [lia|cbn; lia|apply Hnz; lia].
    + apply (H true true (2 * r - B)); [lia|cbn; lia|apply Hnz; lia].
  - assert (Hodd : 2 * r <> B) by (intros <-; by rewrite Z.even_mul in Ev).
    destruct (Z.compare_spec (2 * r + 1) B).
    + apply (H false true (2 * r)); [lia|cbn; lia|apply Hnz; lia].
    + apply (H false true (2 * r)); [lia|cbn; lia|apply Hnz; lia].
    + apply (H true true (2 * r - B)); [lia|cbn; lia|apply Hnz; lia].
Qed.

Lemma round_quotient s p B m e : double m e -> 0 < B -> close (Zpos p) B m e ->
  (let '(q, e', l) := SFdiv_core_binary 53 1024 (Zpos p) 0 B 0 in binary_round_aux 53 1024 s q e' l) = S754_finite s m e.
Proof.
  intros Hd HB Hc. pose proof (close_below _ _ _ _ Hd HB Hc) as Hb. pose proof (double_low _ _ Hd) as Hl.
  set (d := Zpos (digits2_pos m)) in *. unfold SFdiv_core_binary. rewrite !Z.add_0_r, !Z.sub_0_r.
  destruct B as [|b|b]; [lia| |lia]. cbn [Zdigits2]. set (dp := Zpos (digits2_pos p)). set (db := Zpos (digits2_pos b)).
  assert (Hdp : dp - db <= d + e).
  { pose proof (digits2_pos_bounds p) as [Hp _]. pose proof (digits2_pos_bounds b) as [_ Hb2]. fold dp in Hp. fold db in Hb2.
    assert (2 ^ (dp - 1 + 1074) < 2 ^ (d + e + 1074 + db)).
    { rewrite (Z.pow_add_r _ (dp - 1)), (Z.pow_add_r _ _ db) by (unfold d, dp, db; lia). fold TINY.
      assert (0 < TINY) by (by apply Z.pow_pos_nonneg). assert (0 < 2 ^ (d + e + 1074)) by (apply Z.pow_pos_nonneg; unfold d; lia). nia. }
    assert (dp - 1 + 1074 < d + e + 1074 + db) by (apply (Z.pow_lt_mono_r_iff 2); [lia|unfold d, db; lia|done]). lia. }
  pose proof (fexp_mono _ _ Hdp) as Hf. assert (Hcan : fx (d + e) = e) by apply Hd. rewrite Hcan in Hf.
  set (e' := Z.min (fx (dp - db)) 0). assert (He' : -1074 <= e' <= 0) by (unfold e'; rewrite fexp_eq; lia). rewrite Z.sub_0_l.
  set (m' := match - e' with Z0 => Zpos p | Zpos _ => Z.shiftl (Zpos p) (- e') | Zneg _ => 0 end).
  assert (Em : m' = Zpos p * 2 ^ (- e')).
  { unfold m'. destruct (- e') eqn:E; [by rewrite Z.pow_0_r, Z.mul_1_r| |lia]. rewrite <- E. apply Z.shiftl_mul_pow2. lia. }
  pose proof (Z_div_mod m' (Zpos b) ltac:(lia)) as Hdiv. destruct (Z.div_eucl m' (Zpos b)) as [q r]. destruct Hdiv as [Hq Hr].
  apply (round_close s (Zpos p) (Zpos b) m e); [done|done|done|done|lia|]. rewrite <- Em, Hq. apply located_new; [lia| |done].
  assert (0 <= m') by (rewrite Em; apply Z.mul_nonneg_nonneg; [lia|by apply Z.pow_nonneg]). nia.
Qed.

(** ** Printing is read back *)

Definition up (e : Z) : Z := 10 ^ Z.max e 0.
Definition down (e : Z) : Z := 10 ^ Z.max (- e) 0.

Lemma up_pos e : 0 < up e.
Proof. apply Z.pow_pos_nonneg; lia. Qed.
Lemma down_pos e : 0 < down e.
Proof. apply Z.pow_pos_nonneg; lia. Qed.
Lemma tiny_pos : 0 < TINY.
Proof. by apply Z.pow_pos_nonneg. Qed.
Lemma unit_pos B e : 0 < B -> -1074 <= e -> 0 < unit_of B e.
Proof. intros HB He. apply Z.mul_pos_pos; [apply Z.pow_pos_nonneg; lia|done]. Qed.

Lemma pow10_le n : 0 <= n -> 2 ^ (3 * n) <= 10 ^ n.
Proof. intros Hn. rewrite Z.pow_mul_r by lia. apply Z.pow_le_mono_l. lia. Qed.

(** The two guards of [round_decimal] are off where a double is close. *)
Lemma close_guard q e' m e : double m e -> close (Zpos q * up e') (down e') m e -> -1075 < Z.log2 (Zpos q) + 1 + 3 * e'.
Proof.
  intros Hd [Hc _]. pose proof (double_low _ _ Hd) as Hl. pose proof (unit_pos (down e') e (down_pos e') Hl) as HU. pose proof (Z.log2_nonneg (Zpos q)).
  destruct (Z_le_gt_dec 0 e') as [|Hneg]; [lia|].
  destruct (Z_le_gt_dec (Z.log2 (Zpos q) + 1 + 3 * e') (-1075)) as [Hle|]; [exfalso|lia].
  assert (Hdown : down e' < 2 * (Zpos q * TINY)).
  { assert (unit_of (down e') e < 2 * (Zpos q * up e' * TINY)) by (assert (unit_of (down e') e <= Zpos m * unit_of (down e') e) by nia; lia).
    unfold up in *. rewrite Z.max_r, Z.pow_0_r, Z.mul_1_r in * by lia. unfold unit_of in *.
    assert (1 * down e' <= 2 ^ (e + 1074) * down e').
    { apply Z.mul_le_mono_nonneg_r; [pose proof (down_pos e'); lia|]. assert (0 < 2 ^ (e + 1074)) by (apply Z.pow_pos_nonneg; lia). lia. }
    lia. }
  assert (Hq : Zpos q < 2 ^ (Z.log2 (Zpos q) + 1)) by (apply Z.log2_spec; lia).
  assert (H1 : 2 ^ (Z.log2 (Zpos q) + 1) * (2 * TINY) <= 2 ^ (3 * - e')).
  { unfold TINY. change (2 * 2 ^ 1074) with (2 ^ 1 * 2 ^ 1074). rewrite <- !Z.pow_add_r by lia. apply Z.pow_le_mono_r; lia. }
  pose proof (pow10_le (- e') ltac:(lia)) as H2. unfold down in Hdown. rewrite Z.max_l in Hdown by lia. pose proof tiny_pos. nia.
Qed.

Lemma round_decimal_close s q e' m e : double m e -> e' <= 400 -> close (Zpos q * up e') (down e') m e ->
  round_decimal s q e' = S754_finite s m e.
Proof.
  intros Hd He Hc. pose proof (close_guard _ _ _ _ Hd Hc) as Hg. unfold round_decimal.
  rewrite (proj2 (Z.ltb_ge 400 e') He), (proj2 (Z.leb_gt _ _) Hg). unfold up, down in Hc. destruct (Z.leb_spec 0 e').
  - rewrite Z.max_l, Z.max_r, Z.pow_0_r in Hc by lia. assert (0 < 10 ^ e') by (apply Z.pow_pos_nonneg; lia).
    destruct (Zpos q * 10 ^ e') as [|p|p] eqn:E; [lia| |lia]. by apply round_integer.
  - rewrite Z.max_r, Z.max_l, Z.pow_0_r, Z.mul_1_r in Hc by lia. apply round_quotient; [done| |done]. apply Z.pow_pos_nonneg; lia.
Qed.

(** The value of a double in the unit [10^-p], and [10^j] against it. *)
Definition value (m : positive) (e : Z) : Z := Zpos m * 2 ^ (e + 1074).
Definition reaches (m : positive) (e j : Z) : Prop := up j * TINY <= value m e * down j.

Lemma tiny_up e : -1074 <= e -> TINY * 2 ^ Z.max e 0 = 2 ^ (e + 1074) * 2 ^ Z.max (- e) 0.
Proof. intros He. unfold TINY. rewrite <- !Z.pow_add_r by lia. f_equal. lia. Qed.

Lemma pow_max b z : (if 0 <=? z then b ^ z else 1) = b ^ Z.max z 0.
Proof. destruct (Z.leb_spec 0 z); [by rewrite Z.max_l by lia|by rewrite Z.max_r by lia]. Qed.
Lemma pow_max_neg b z : (if 0 <=? z then 1 else b ^ (- z)) = b ^ Z.max (- z) 0.
Proof. destruct (Z.leb_spec 0 z); [rewrite Z.max_r by lia; done|by rewrite Z.max_l by lia]. Qed.

Lemma scaled_bounds m e p : -1074 <= e ->
  scaled m e p * (TINY * down p) <= 2 * (value m e * up p) < (scaled m e p + 1) * (TINY * down p).
Proof.
  intros He. unfold scaled. rewrite !pow_max, !pow_max_neg. fold (up p) (down p).
  set (num := 2 * Zpos m * 2 ^ Z.max e 0 * up p). set (den := 2 ^ Z.max (- e) 0 * down p).
  assert (Hp1 : 0 < 2 ^ Z.max (- e) 0) by (apply Z.pow_pos_nonneg; lia). pose proof (down_pos p) as Hp2. pose proof tiny_pos as Hp3.
  assert (Hden : 0 < den) by (unfold den; lia).
  pose proof (Z.div_mod num den ltac:(lia)) as H1. pose proof (Z.mod_pos_bound num den Hden) as H2. set (t := num / den) in *.
  assert (E : num * (TINY * down p) = 2 * (value m e * up p) * den).
  { unfold num, den, value. pose proof (tiny_up e He) as H. 
    transitivity (2 * Zpos m * up p * down p * (TINY * 2 ^ Z.max e 0)); [ring|]. rewrite H. ring. }
  assert (0 < TINY * down p) by lia.
  split.
  - apply (Z.mul_le_mono_pos_r _ _ den Hden). rewrite <- E. assert (t * den <= num) by lia. nia.
  - apply (Z.mul_lt_mono_pos_r den); [done|]. rewrite <- E. assert (num < (t + 1) * den) by lia. nia.
Qed.

Lemma up_down j k : 0 <= k -> up (j + k) * down j <= 10 ^ k * up j * down (j + k) /\ 10 ^ k * up j * down (j + k) <= up (j + k) * down j.
Proof.
  intros Hk. unfold up, down. rewrite <- !Z.pow_add_r by lia.
  replace (k + Z.max j 0 + Z.max (- (j + k)) 0) with (Z.max (j + k) 0 + Z.max (- j) 0) by lia. lia.
Qed.

(** With 17 digits the nearest decimal is close enough. *)
Lemma near_close m e p : double m e -> reaches m e (16 - p) ->
  close (((scaled m e p + 1) / 2) * down p) (up p) m e.
Proof.
  intros Hd Hr. pose proof (double_low _ _ Hd) as Hl. pose proof (scaled_bounds m e p Hl) as Hs. set (t := scaled m e p) in *.
  pose proof (Z.div_mod (t + 1) 2 ltac:(lia)) as H1. pose proof (Z.mod_pos_bound (t + 1) 2 ltac:(lia)) as H2. set (n := (t + 1) / 2) in *.
  pose proof (down_pos p) as Hdp. pose proof (up_pos p) as Hup. pose proof tiny_pos as HT. set (C := TINY * down p) in *.
  assert (HC : 0 < C) by (unfold C; lia). pose proof (unit_pos (up p) e Hup Hl) as HU. set (F := unit_of (up p) e) in *.
  assert (HV : value m e * up p = Zpos m * F) by (unfold value, F, unit_of; ring).
  assert (Hbig : 10 ^ 16 * C <= Zpos m * F).
  { unfold reaches in Hr. destruct (up_down (- p) 16 ltac:(lia)) as [E1 E2]. replace (- p + 16) with (16 - p) in * by lia.
    assert (Eu : up (- p) = down p) by (unfold up, down; f_equal; lia). assert (Ed : down (- p) = up p) by (unfold up, down; f_equal; lia).
    rewrite Eu, Ed in *. pose proof (down_pos (16 - p)). rewrite <- HV.
    apply (Z.mul_le_mono_pos_r _ _ (down (16 - p))); [done|].
    transitivity (up (16 - p) * TINY * up p); [|nia]. unfold C. nia. }
  assert (Hm : Zpos m < 2 ^ 53).
  { pose proof (digits2_pos_bounds m) as [_ B]. destruct Hd as [Hc _]. rewrite fexp_eq in Hc.
    apply (Z.lt_le_trans _ _ _ B). apply Z.pow_le_mono_r; lia. }
  assert (HA : n * down p * TINY = n * C) by (unfold C; ring). unfold close. fold F. rewrite HA.
  rewrite HV in Hs. assert (Hn : (2 * n - 1) * C <= 2 * (Zpos m * F) <= (2 * n + 1) * C).
  { assert ((2 * n - 1) * C <= t * C) by (apply Z.mul_le_mono_nonneg_r; lia). assert ((t + 1) * C <= (2 * n + 1) * C) by (apply Z.mul_le_mono_nonneg_r; lia). lia. }
  assert (HmF : Zpos m * F <= 2 ^ 53 * F) by (apply Z.mul_le_mono_nonneg_r; lia).
  split; [lia|]. intros Hpow _. rewrite Hpow in *. lia.
Qed.

Lemma value_pos m e : -1074 <= e -> 1 <= value m e.
Proof. intros He. unfold value. assert (0 < 2 ^ (e + 1074)) by (apply Z.pow_pos_nonneg; lia). nia. Qed.

(** [magnitude] stops one above a power of ten that the value reaches. *)
Lemma below_reaches m e k : -1074 <= e ->
  (if 0 <=? e
   then (if 0 <=? k then Zpos m * 2 ^ e <? 10 ^ k else false)
   else (if 0 <=? k then Zpos m <? 10 ^ k * 2 ^ (- e) else Zpos m * 10 ^ (- k) <? 2 ^ (- e))) = false -> reaches m e k.
Proof.
  intros He H. unfold reaches, up, down, value.
  assert (Hp : forall n, 0 <= n -> 0 < 10 ^ n) by (intros n Hn; by apply Z.pow_pos_nonneg).
  assert (Hu : 0 < 2 ^ (e + 1074)) by (apply Z.pow_pos_nonneg; lia).
  pose proof (tiny_up e He) as HT.
  destruct (Z.leb_spec 0 e) as [He0|He0], (Z.leb_spec 0 k) as [Hk|Hk]; try apply Z.ltb_ge in H.
  - rewrite (Z.max_l k), (Z.max_r (- k)), Z.pow_0_r by lia. rewrite (Z.max_l e), (Z.max_r (- e)), Z.pow_0_r in HT by lia.
    rewrite Z.mul_1_r in HT. rewrite <- HT. pose proof tiny_pos. nia.
  - rewrite (Z.max_r k), (Z.max_l (- k)), Z.pow_0_r by lia. rewrite (Z.max_l e), (Z.max_r (- e)), Z.pow_0_r in HT by lia.
    rewrite Z.mul_1_r in HT. pose proof (Hp (- k) ltac:(lia)). pose proof tiny_pos. rewrite <- HT. assert (0 < 2 ^ e) by (apply Z.pow_pos_nonneg; lia).
    assert (1 <= Zpos m * 2 ^ e) by nia. assert (1 <= Zpos m * 2 ^ e * 10 ^ (- k)) by nia.
    replace (Zpos m * (TINY * 2 ^ e) * 10 ^ (- k)) with (TINY * (Zpos m * 2 ^ e * 10 ^ (- k))) by ring. nia.
  - rewrite (Z.max_l k), (Z.max_r (- k)), Z.pow_0_r by lia. rewrite (Z.max_r e), (Z.max_l (- e)), Z.pow_0_r in HT by lia. nia.
  - rewrite (Z.max_r k), (Z.max_l (- k)), Z.pow_0_r by lia. rewrite (Z.max_r e), (Z.max_l (- e)), Z.pow_0_r in HT by lia. nia.
Qed.

Lemma magnitude_reaches fuel m e : -1074 <= e -> forall k, reaches m e (k - 1) ->
  let k' := magnitude fuel m e k in reaches m e (k' - 1) /\ k <= k' <= k + Z.of_nat fuel.
Proof.
  intros He. induction fuel as [|fuel IH]; intros k Hk; cbn [magnitude]; [split; [done|lia]|].
  match goal with |- context [if ?b then k else _] => destruct b eqn:E end; [split; [done|lia]|].
  apply below_reaches in E; [|done]. destruct (IH (k + 1)) as [H1 H2]; [by replace (k + 1 - 1) with k by lia|]. split; [done|lia].
Qed.

Lemma reaches_bottom m e : -1074 <= e -> reaches m e (-325).
Proof.
  intros He. unfold reaches, up, down. change (Z.max (-325) 0) with 0. change (Z.max (- -325) 0) with 325.
  pose proof (value_pos m e He). assert (TINY <= 10 ^ 325) by (by apply Z.leb_le; vm_compute). nia.
Qed.

(** What [shortest] returns is read back, at the latest at 17 digits. *)
Lemma shortest_back fuel m e k : double m e -> reaches m e (k - 1) -> k <= 326 -> forall n,
  1 <= n -> n + Z.of_nat fuel = 18 -> n <= 17 ->
  exists q p, shortest fuel m e k n = (Zpos q, p) /\ 1 - k <= p <= 17 - k /\ round_decimal false q (- p) = S754_finite false m e.
Proof.
  intros Hd Hr Hk. induction fuel as [|fuel IH]; intros n Hn1 Hn Hn2; [lia|]. cbn [shortest].
  set (p := n - k). set (twice := scaled m e p). set (near := (twice + 1) / 2).
  set (other := if Z.even twice then near + 1 else near - 1).
  assert (Hback : forall q, match q with Zpos d => bool_decide (round_decimal false d (- p) = S754_finite false m e) | _ => false end = true ->
    exists q' p', (q, p) = (Zpos q', p') /\ 1 - k <= p' <= 17 - k /\ round_decimal false q' (- p') = S754_finite false m e).
  { intros [|q|q]; try done. intros H%bool_decide_eq_true. exists q, p. split_and!; [done|lia|lia|done]. }
  match goal with |- context [if ?b then _ else _] => destruct b eqn:E1 end; [by apply Hback|].
  match goal with |- context [if ?b then _ else _] => destruct b eqn:E2 end; [by apply Hback|]. 
  destruct (Z.eq_dec n 17) as [->|]; [exfalso|apply IH; lia]. clear E2 Hback IH.
  assert (Hr' : reaches m e (16 - p)) by (by unfold p; replace (16 - (17 - k)) with (k - 1) by lia).
  pose proof (near_close m e p Hd Hr') as Hc. fold twice near in Hc.
  pose proof (double_low _ _ Hd) as Hl. pose proof (unit_pos (up p) e (up_pos p) Hl) as HU.
  assert (HmU : unit_of (up p) e <= Zpos m * unit_of (up p) e) by nia.
  destruct near as [|q|q] eqn:En.
  - destruct Hc as [Hc _]. lia.
  - apply bool_decide_eq_false in E1. apply E1. apply round_decimal_close; [done|unfold p; lia|].
    replace (up (- p)) with (down p) by done. replace (down (- p)) with (up p) by (unfold up, down; f_equal; lia). done.
  - destruct Hc as [Hc _]. pose proof (down_pos p). pose proof tiny_pos. assert (Zneg q * down p * TINY < 0) by nia. lia.
Qed.

(** ** The sign and the point *)

Lemma round_aux_sign s m0 e0 l m e : binary_round_aux 53 1024 false m0 e0 l = S754_finite false m e ->
  binary_round_aux 53 1024 s m0 e0 l = S754_finite s m e.
Proof.
  unfold binary_round_aux. destruct (shr_fexp _ _ m0 e0 l) as [mrs' e'].
  destruct (shr_fexp _ _ _ e' _) as [mrs'' e'']. destruct (shr_m mrs'') as [|p|p]; [discriminate| |discriminate].
  destruct (e'' <=? _); [|discriminate]. intros H. by injection H as <- <-.
Qed.

Lemma round_decimal_sign s q e' m e : round_decimal false q e' = S754_finite false m e -> round_decimal s q e' = S754_finite s m e.
Proof.
  unfold round_decimal. destruct (400 <? e'); [done|]. destruct (_ <=? -1075); [done|]. destruct (0 <=? e').
  - destruct (Zpos q * 10 ^ e') as [|p|p]; try done. unfold binary_round. destruct (shl_align _ _ _) as [mz ez]. apply round_aux_sign.
  - destruct (SFdiv_core_binary _ _ _ _ _ _) as [[q' e''] l]. apply round_aux_sign.
Qed.

Lemma round_decimal_shift s q j : 0 <= j <= 400 -> round_decimal s (q * Z.to_pos (10 ^ j)) 0 = round_decimal s q j.
Proof.
  intros Hj. assert (H10 : 0 < 10 ^ j) by (apply Z.pow_pos_nonneg; lia).
  assert (E : Zpos (q * Z.to_pos (10 ^ j)) = Zpos q * 10 ^ j) by (rewrite Pos2Z.inj_mul, Z2Pos.id; lia).
  unfold round_decimal. rewrite E. pose proof (Z.log2_nonneg (Zpos q * 10 ^ j)). pose proof (Z.log2_nonneg (Zpos q)).
  rewrite (proj2 (Z.ltb_ge 400 j)), (proj2 (Z.ltb_ge 400 0)) by lia. rewrite (proj2 (Z.leb_gt (Z.log2 (Zpos q * 10 ^ j) + 1 + 3 * 0) _)) by lia.
  rewrite (proj2 (Z.leb_gt (Z.log2 (Zpos q) + 1 + 3 * j) _)), (proj2 (Z.leb_le 0 j)) by lia. cbn [Z.leb Z.compare]. by rewrite Z.pow_0_r, Z.mul_1_r.
Qed.

Lemma take_digits_stop l c r : Forall (fun b => 48 <= b <= 57) l -> is_digit c = false -> take_digits (l ++ c :: r) = (l, c :: r).
Proof.
  intros Hl Hc. induction Hl as [|b l Hb Hl IH]; cbn [app take_digits]; [by rewrite Hc|]. unfold is_digit, in_range.
  rewrite (proj2 (andb_true_iff _ _)) by lia. by rewrite IH.
Qed.

Lemma take_digits_all l : Forall (fun b => 48 <= b <= 57) l -> take_digits l = (l, []).
Proof.
  induction 1 as [|b l Hb Hl IH]; [done|]. cbn [take_digits]. unfold is_digit, in_range.
  rewrite (proj2 (andb_true_iff _ _)) by lia. by rewrite IH.
Qed.

Lemma digits_app l1 l2 a : Forall (fun b => 48 <= b <= 57) l1 -> digits (l1 ++ l2) a = match digits l1 a with Some b => digits l2 b | None => None end.
Proof.
  intros Hl. revert a. induction Hl as [|b l Hb Hl IH]; intros a; [done|]. cbn [app digits]. unfold is_digit, in_range.
  rewrite (proj2 (andb_true_iff _ _)) by lia. apply IH.
Qed.

Lemma digits_zeros j a : digits (repeat 48 j) a = Some (a * 10 ^ Z.of_nat j).
Proof.
  revert a. induction j as [|j IH]; intros a; [cbn; f_equal; lia|]. cbn [repeat digits is_digit in_range Z.leb Z.compare Pos.compare Pos.compare_cont andb].
  rewrite IH, Nat2Z.inj_succ, Z.pow_succ_r by lia. f_equal. lia.
Qed.

Lemma zeros_digits j : Forall (fun b => 48 <= b <= 57) (repeat 48 j).
Proof. apply Forall_forall. intros x ->%repeat_spec. lia. Qed.

(** Digits with the point [p] places from the right, wherever it falls. *)
Lemma parse_placed s q p : -400 <= p -> parse_unsigned s (place_point (dec_nat (Zpos q)) p) = Some (round_decimal s q (- p)).
Proof.
  intros Hp. pose proof (dec_nat_digits (Zpos q)) as Hd. pose proof (dec_nat_nonempty (Zpos q)) as Hne.
  pose proof (digits_dec_nat (Zpos q) ltac:(lia)) as Hv. set (ds := dec_nat (Zpos q)) in *. clearbody ds.
  unfold place_point, parse_unsigned. destruct (Z.leb_spec p 0) as [H0|H0]; [|destruct (Z.ltb_spec p (Z.of_nat (length ds))) as [Hn|Hn]].
  - rewrite take_digits_all by (apply Forall_app; split; [done|apply zeros_digits]). rewrite app_nil_r.
    assert (Hlen : (length (ds ++ repeat 48%Z (Z.to_nat (- p))) =? 0)%nat = false) by (rewrite length_app; destruct ds; [done|by cbn]).
    rewrite Hlen. cbn [parse_exponent mbind option_bind length]. unfold digits_value.
    rewrite digits_app, Hv, digits_zeros by done. cbn [default id]. rewrite Z2Nat.id by lia.
    assert (E : Zpos q * 10 ^ (- p) = Zpos (q * Z.to_pos (10 ^ (- p)))).
    { assert (0 < 10 ^ (- p)) by (apply Z.pow_pos_nonneg; lia). rewrite Pos2Z.inj_mul, Z2Pos.id; lia. }
    rewrite E. f_equal. apply round_decimal_shift. lia.
  - cbn [app]. rewrite take_digits_stop by (try apply Forall_take; done). cbn [Z.eqb Pos.eqb].
    rewrite take_digits_all by (by apply Forall_drop). rewrite take_drop.
    destruct ds as [|b ds']; [done|]. cbn [length Nat.eqb parse_exponent mbind option_bind]. unfold digits_value. rewrite Hv. cbn [default id].
    do 2 f_equal. rewrite length_drop. cbn [length] in *. lia.
  - change (lit "0." ++ repeat 48 (Z.to_nat (p - Z.of_nat (length ds))) ++ ds) with ([48] ++ 46 :: (repeat 48 (Z.to_nat (p - Z.of_nat (length ds))) ++ ds)).
    rewrite take_digits_stop by (try done; repeat constructor; lia). cbn [Z.eqb Pos.eqb].
    rewrite take_digits_all by (apply Forall_app; split; [apply zeros_digits|done]).
    cbn [app length Nat.eqb parse_exponent mbind option_bind]. unfold digits_value. cbn [digits is_digit in_range Z.leb Z.compare Pos.compare Pos.compare_cont andb].
    rewrite digits_app by apply zeros_digits. rewrite digits_zeros. change ((0 * 10 + (48 - 48)) * 10 ^ _) with 0. rewrite Hv.
    cbn [default id]. do 2 f_equal. rewrite length_app, repeat_length. lia.
Qed.

Lemma place_point_head ds p : Forall (fun b => 48 <= b <= 57) ds -> ds <> [] ->
  exists b r, place_point ds p = b :: r /\ 48 <= b <= 57.
Proof.
  intros Hd Hne. destruct ds as [|b ds]; [done|]. apply Forall_cons_iff in Hd as [Hb _]. unfold place_point.
  destruct (Z.leb_spec p 0); [by eexists _, _|]. destruct (Z.ltb_spec p (Z.of_nat (length (b :: ds)))); [|by eexists _, _].
  destruct (Z.to_nat _) eqn:E; [lia|]. by eexists _, _.
Qed.

(** A double is read back from its decimal text. *)
Lemma display_read_back s m e : bounded 53 1024 m e = true -> parse_f64 (display_f64 (S754_finite s m e)) = Some (S754_finite s m e).
Proof.
  intros Hb. apply bounded_double in Hb. pose proof (double_low _ _ Hb) as Hl. cbn [display_f64].
  destruct (magnitude_reaches 650 m e Hl (-324)) as [Hr Hk]; [by apply reaches_bottom|]. set (k := magnitude 650 m e (-324)) in *. clearbody k.
  destruct (shortest_back 17 m e k Hb Hr ltac:(lia) 1) as (q & p & -> & Hp & Hq); [lia|done|lia|].
  pose proof (parse_placed s q p ltac:(lia)) as H. rewrite (round_decimal_sign s _ _ _ _ Hq) in H.
  destruct (place_point_head (dec_nat (Zpos q)) p (dec_nat_digits _) (dec_nat_nonempty _)) as (b & r & E & Hb'). rewrite E in *.
  destruct s; [done|]. change ([] ++ b :: r) with (b :: r). cbn [parse_f64]. rewrite (proj2 (Z.eqb_neq _ _)), (proj2 (Z.eqb_neq _ _)) by lia. done.
Qed.

(** An integral double is what its integer rounds to. *)
Lemma integral_rounds s m e z : bounded 53 1024 m e = true -> Zpos z * TINY = value m e -> binary_round 53 1024 s z 0 = S754_finite s m e.
Proof.
  intros Hb Hz. apply bounded_double in Hb. pose proof (double_low _ _ Hb). apply round_integer; [done|]. unfold close.
  rewrite Hz. pose proof (unit_pos 1 e Z.lt_0_1 ltac:(done)). unfold unit_of, value in *. rewrite Z.mul_1_r in *. split; [lia|]. intros _ _. lia.
Qed.

End Rounding.
