(* ===== verification/Json.v ===== *)
(** * JSON values ([rustlavel-core/src/json.rs])

    The value type the framework's packages exchange, its accessors, and the
    conversions from integers. An object is the list of its members in key
    order, the order its [BTreeMap] iterates in. *)

From S2P Require Import Prelude Text F64.

Module Json.

Inductive Json :=
  | Null
  | Bool (b : bool)
  | Number (n : f64)
  | String (s : list Z)
  | Array (items : list Json)
  | Object (members : list (list Z * Json)).

Definition as_str (v : Json) : option (list Z) := match v with String s => Some s | _ => None end.
Definition as_f64 (v : Json) : option f64 := match v with Number n => Some n | _ => None end.
Definition as_i64 (v : Json) : option Z := f64_to_int i64_min i64_max <$> as_f64 v.
Definition as_bool (v : Json) : option bool := match v with Bool b => Some b | _ => None end.
Definition as_array (v : Json) : option (list Json) := match v with Array l => Some l | _ => None end.
Definition as_object (v : Json) : option (list (list Z * Json)) :=
  match v with Object m => Some m | _ => None end.
Definition is_null (v : Json) : bool := match v with Null => true | _ => false end.

(** [Json::from] of an integer. *)
Definition from_int (n : Z) : Json := Number (f64_of_Z n).

(** [BTreeMap::get]. *)
Fixpoint member (key : list Z) (members : list (list Z * Json)) : option Json :=
  match members with
  | [] => None
  | (k, v) :: members => if bool_decide (k = key) then Some v else member key members
  end.

Definition parse_usize : list Z -> option Z := parse_int false 0 usize_max.

(** [Json::get]: a dotted path through objects and arrays. *)
Fixpoint get_segments (current : Json) (segments : list (list Z)) : option Json :=
  match segments with
  | [] => Some current
  | segment :: segments =>
      let! next :=
        match current with
        | Object m => member segment m
        | Array items => let! i := parse_usize segment in items !! Z.to_nat i
        | _ => None
        end in
      get_segments next segments
  end.
Definition get (v : Json) (path : list Z) : option Json := get_segments v (split_on 46 path).

Lemma as_i64_from_int n : - 2 ^ 53 < n < 2 ^ 53 -> as_i64 (from_int n) = Some n.
Proof.
  intros Hn. cbn. rewrite f64_int_roundtrip; [done|done|..]; unfold i64_min, i64_max; lia.
Qed.

End Json.
