(* ===== verification/JsonText.v ===== *)
(** * Reading and writing JSON ([rustlavel-core/src/json.rs])

    The printer, compact and indented, and the recursive-descent parser. A
    parser is the bytes from its position on; the position itself, which only
    errors need, is what is missing from the front of the input. *)

From Stdlib Require Import SpecFloat.
From S2P Require Import Prelude Text F64 Decimal Json.

Module JsonText.
Import Decimal Json.

(** ** Objects

    A [BTreeMap<String, Json>] in key order; strings compare bytewise. *)

Fixpoint key_lt (a b : list Z) : bool :=
  match a, b with
  | [], _ :: _ => true
  | x :: a, y :: b => (x <? y) || ((x =? y) && key_lt a b)
  | _, [] => false
  end.

Fixpoint insert_member (key : list Z) (v : Json) (members : list (list Z * Json)) : list (list Z * Json) :=
  match members with
  | [] => [(key, v)]
  | (k, w) :: rest =>
      if key_lt key k then (key, v) :: members
      else if bool_decide (key = k) then (key, v) :: rest
      else (k, w) :: insert_member key v rest
  end.

Definition object_of (pairs : list (list Z * Json)) : list (list Z * Json) :=
  fold_left (fun m p => insert_member p.1 p.2 m) pairs [].

(** ** Printing *)

Definition escape_byte (b : Z) : list Z :=
  if b =? 34 then [92; 34]
  else if b =? 92 then [92; 92]
  else if b =? 10 then lit "\n"
  else if b =? 13 then lit "\r"
  else if b =? 9 then lit "\t"
  else if b =? 8 then lit "\b"
  else if b =? 12 then lit "\f"
  else if b =? 60 then lit "\u003c"
  else if (0 <=? b) && (b <=? 31) then
    lit "\u00" ++ [hex_digit_lower (b / 16); hex_digit_lower (b mod 16)]
  else [b].

(** Clean runs are copied, the other bytes replaced. *)
Definition escape_into (s : list Z) : list Z := [34] ++ concat (map escape_byte s) ++ [34].

(** The digits of [push_integer], from the last one. *)
Fixpoint push_digits (fuel : nat) (magnitude : Z) (acc : list Z) : list Z :=
  match fuel with
  | O => acc
  | S fuel => if 0 <? magnitude then push_digits fuel (magnitude / 10) ((48 + magnitude mod 10) :: acc) else acc
  end.

Definition push_integer (value : Z) : list Z :=
  if value =? 0 then lit "0"
  else
    let ds := push_digits 20 (Z.abs value) [] in
    if value <? 0 then [45] ++ ds else ds.

Definition is_finite (n : f64) : bool :=
  match n with S754_zero _ | S754_finite _ _ _ => true | _ => false end.

(** [n.fract() == 0.0]. *)
Definition is_integral (n : f64) : bool :=
  match n with
  | S754_zero _ => true
  | S754_finite _ m e => (0 <=? e) || (Zpos m mod 2 ^ (- e) =? 0)
  | _ => false
  end.

(** [n.abs() < 1e15]. *)
Definition below_1e15 (n : f64) : bool :=
  match n with
  | S754_zero _ => true
  | S754_finite _ m e => if 0 <=? e then Zpos m * 2 ^ e <? 10 ^ 15 else Zpos m <? 10 ^ 15 * 2 ^ (- e)
  | _ => false
  end.

Definition write_number (n : f64) : list Z :=
  if is_finite n then
    if is_integral n && below_1e15 n then push_integer (f64_to_int i64_min i64_max n)
    else display_f64 n
  else lit "null".

Definition newline (indent : option nat) : list Z := match indent with Some _ => [10] | None => [] end.
Definition colon (indent : option nat) : list Z := match indent with Some _ => [58; 32] | None => [58] end.
Definition pad (indent : option nat) (depth : nat) : list Z :=
  match indent with Some width => repeat 32 (width * depth) | None => [] end.

(** [write]: items and members each on a line of their own when indented. *)
Fixpoint write (indent : option nat) (v : Json) (depth : nat) : list Z :=
  match v with
  | Null => lit "null"
  | Bool true => lit "true"
  | Bool false => lit "false"
  | Number n => write_number n
  | String s => escape_into s
  | Array [] => lit "[]"
  | Array items =>
      [91] ++
      join [44] (map (fun item => newline indent ++ pad indent (depth + 1) ++ write indent item (depth + 1)) items) ++
      newline indent ++ pad indent depth ++ [93]
  | Object [] => lit "{}"
  | Object members =>
      [123] ++
      join [44] (map (fun m => newline indent ++ pad indent (depth + 1) ++ escape_into m.1 ++ colon indent ++
                               write indent m.2 (depth + 1)) members) ++
      newline indent ++ pad indent depth ++ [125]
  end.

(** [Display]. *)
Definition to_string (v : Json) : list Z := write None v 0.
Definition to_string_pretty (v : Json) : list Z := write (Some 2%nat) v 0.

(** ** Parsing *)

(** [Error::Json], with the model's own [Stuck] for a loop out of fuel. *)
Inductive JsonError :=
  | Syntax (line column : nat) (message : list Z)
  | Stuck.

#[export] Instance JsonError_eq_dec : EqDecision JsonError.
Proof. solve_decision. Defined.

Section Parser.
Context (input : list Z).

(** [rposition(|b| *b == b'\n')]. *)
Fixpoint last_newline (l : list Z) (i : nat) (found : option nat) : option nat :=
  match l with
  | [] => found
  | b :: l => last_newline l (S i) (if b =? 10 then Some i else found)
  end.

Definition error {A} (rest : list Z) (message : list Z) : result JsonError A :=
  let pos := (length input - length rest)%nat in
  let consumed := take pos input in
  let line := (length (List.filter (Z.eqb 10) consumed) + 1)%nat in
  let column := (match last_newline consumed 0 None with Some i => pos - i - 1 | None => pos end + 1)%nat in
  Err (Syntax line column message).

Definition is_space (b : Z) : bool := (b =? 32) || (b =? 9) || (b =? 10) || (b =? 13).

Fixpoint skip_whitespace (l : list Z) : list Z :=
  match l with
  | b :: r => if is_space b then skip_whitespace r else l
  | [] => []
  end.

(** [peek() == Some(byte)] and a step past it. *)
Definition eat (byte : Z) (rest : list Z) : option (list Z) :=
  match rest with
  | b :: r => if b =? byte then Some r else None
  | [] => None
  end.

Definition expect (byte : Z) (rest : list Z) : result JsonError (list Z) :=
  match eat byte rest with
  | Some r => Ok r
  | None => error rest (lit "expected `" ++ [byte] ++ lit "`")
  end.

Definition literal (word : list Z) (v : Json) (rest : list Z) : result JsonError (Json * list Z) :=
  if starts_with rest word then Ok (v, drop (length word) rest)
  else error rest (lit "invalid literal").

Definition is_number_byte (b : Z) : bool :=
  is_digit b || (b =? 46) || (b =? 101) || (b =? 69) || (b =? 43) || (b =? 45).

Fixpoint take_number (l : list Z) : list Z * list Z :=
  match l with
  | b :: r => if is_number_byte b then let '(ds, rest) := take_number r in (b :: ds, rest) else ([], l)
  | [] => ([], [])
  end.

Definition number (rest : list Z) : result JsonError (Json * list Z) :=
  let '(text, after) := take_number rest in
  match parse_f64 text with
  | Some n => Ok (Number n, after)
  | None => error after (lit "invalid number")
  end.

(** [u32::from_str_radix(_, 16)]: an optional plus, then hexadecimal digits. *)
Definition hex_value (b : Z) : option Z :=
  if is_digit b then Some (b - 48)
  else if in_range 97 102 b then Some (b - 87)
  else if in_range 65 70 b then Some (b - 55)
  else None.

Fixpoint hex_digits (l : list Z) (acc : Z) : option Z :=
  match l with
  | [] => Some acc
  | b :: l => let! d := hex_value b in hex_digits l (16 * acc + d)
  end.

Definition from_str_radix16 (l : list Z) : option Z :=
  match l with
  | b :: r => if b =? 43 then match r with [] => None | _ => hex_digits r 0 end else hex_digits l 0
  | [] => None
  end.

Definition hex4 (rest : list Z) : result JsonError (Z * list Z) :=
  if (length rest <? 4)%nat then error rest (lit "truncated \u escape")
  else
    match (if utf8_valid (take 4 rest) then from_str_radix16 (take 4 rest) else None) with
    | Some n => Ok (n, drop 4 rest)
    | None => error rest (lit "invalid \u escape")
    end.

(** [char::from_u32] and the character's UTF-8 encoding. *)
Definition is_scalar (c : Z) : bool := in_range 0 55295 c || in_range 57344 1114111 c.

Definition encode_char (c : Z) : list Z :=
  if c <? 128 then [c]
  else if c <? 2048 then [192 + c / 64; 128 + c mod 64]
  else if c <? 65536 then [224 + c / 4096; 128 + c / 64 mod 64; 128 + c mod 64]
  else [240 + c / 262144; 128 + c / 4096 mod 64; 128 + c / 64 mod 64; 128 + c mod 64].

Definition from_u32 (c : Z) (rest : list Z) : result JsonError (list Z * list Z) :=
  if is_scalar c then Ok (encode_char c, rest) else error rest (lit "invalid code point").

Definition unicode_escape (rest : list Z) : result JsonError (list Z * list Z) :=
  let? (high, rest) := hex4 rest in
  if in_range 55296 56319 high then
    match (let! r := eat 92 rest in eat 117 r) with
    | Some r =>
        let? (low, rest) := hex4 r in
        if in_range 56320 57343 low then
          from_u32 (65536 + Z.shiftl (high - 55296) 10 + (low - 56320)) rest
        else error rest (lit "unpaired surrogate")
    | None => error rest (lit "unpaired surrogate")
    end
  else from_u32 high rest.

(** The bytes up to the next quote or backslash. *)
Fixpoint take_run (l : list Z) : list Z * list Z :=
  match l with
  | b :: r => if (b =? 34) || (b =? 92) then ([], l) else let '(run, rest) := take_run r in (b :: run, rest)
  | [] => ([], [])
  end.

(** The escapes of one letter. *)
Definition simple_escape (b : Z) : option Z :=
  if b =? 34 then Some 34
  else if b =? 92 then Some 92
  else if b =? 47 then Some 47
  else if b =? 110 then Some 10
  else if b =? 114 then Some 13
  else if b =? 116 then Some 9
  else if b =? 98 then Some 8
  else if b =? 102 then Some 12
  else None.

(** The loop of [string], after the opening quote; every round takes a byte. *)
Fixpoint string_loop (fuel : nat) (out rest : list Z) : result JsonError (list Z * list Z) :=
  match fuel with
  | O => Err Stuck
  | S fuel =>
      match rest with
      | [] => error rest (lit "unterminated string")
      | b :: r =>
          if b =? 34 then Ok (out, r)
          else if b =? 92 then
            match r with
            | [] => error r (lit "unterminated escape")
            | escape :: r =>
                match simple_escape escape with
                | Some c => string_loop fuel (out ++ [c]) r
                | None =>
                    if escape =? 117 then
                      let? (c, r) := unicode_escape r in string_loop fuel (out ++ c) r
                    else error r (lit "invalid escape sequence")
                end
            end
          else
            let '(chunk, r) := take_run rest in
            if utf8_valid chunk then string_loop fuel (out ++ chunk) r
            else error r (lit "invalid UTF-8 in string")
      end
  end.

Definition string (rest : list Z) : result JsonError (list Z * list Z) :=
  let? rest := expect 34 rest in string_loop (S (length rest)) [] rest.

(** [value], [array] and [object]. A value takes a byte before it asks for the
    values inside it. *)
Fixpoint value (fuel : nat) (rest : list Z) : result JsonError (Json * list Z) :=
  match fuel with
  | O => Err Stuck
  | S fuel =>
      match rest with
      | [] => error rest (lit "unexpected end of input")
      | b :: _ =>
          if b =? 110 then literal (lit "null") Null rest
          else if b =? 116 then literal (lit "true") (Bool true) rest
          else if b =? 102 then literal (lit "false") (Bool false) rest
          else if b =? 34 then let? (s, rest) := string rest in Ok (String s, rest)
          else if b =? 91 then
            let? rest := expect 91 rest in
            let rest := skip_whitespace rest in
            match eat 93 rest with
            | Some r => Ok (Array [], r)
            | None => items fuel [] rest
            end
          else if b =? 123 then
            let? rest := expect 123 rest in
            let rest := skip_whitespace rest in
            match eat 125 rest with
            | Some r => Ok (Object [], r)
            | None => members fuel [] rest
            end
          else if (b =? 45) || is_digit b then number rest
          else error rest (lit "unexpected character")
      end
  end
with items (fuel : nat) (acc : list Json) (rest : list Z) : result JsonError (Json * list Z) :=
  match fuel with
  | O => Err Stuck
  | S fuel =>
      let rest := skip_whitespace rest in
      let? (v, rest) := value fuel rest in
      let acc := acc ++ [v] in
      let rest := skip_whitespace rest in
      match eat 44 rest with
      | Some r => items fuel acc r
      | None =>
          match eat 93 rest with
          | Some r => Ok (Array acc, r)
          | None => error rest (lit "expected `,` or `]`")
          end
      end
  end
with members (fuel : nat) (map : list (list Z * Json)) (rest : list Z) : result JsonError (Json * list Z) :=
  match fuel with
  | O => Err Stuck
  | S fuel =>
      let rest := skip_whitespace rest in
      let? (key, rest) := string rest in
      let rest := skip_whitespace rest in
      let? rest := expect 58 rest in
      let rest := skip_whitespace rest in
      let? (v, rest) := value fuel rest in
      let map := insert_member key v map in
      let rest := skip_whitespace rest in
      match eat 44 rest with
      | Some r => members fuel map r
      | None =>
          match eat 125 rest with
          | Some r => Ok (Object map, r)
          | None => error rest (lit "expected `,` or `}`")
          end
      end
  end.

Definition parse : result JsonError Json :=
  let rest := skip_whitespace input in
  let? (v, rest) := value (S (2 * length rest)) rest in
  let rest := skip_whitespace rest in
  match rest with
  | [] => Ok v
  | _ => error rest (lit "unexpected trailing characters")
  end.
End Parser.

(** Text with white space, escapes, a repeated key and every kind of number, and
    the canonical form it is printed in; then three syntax errors. *)
Definition quoted (s : list Z) : list Z := [34] ++ s ++ [34].

Example json_runs :
  (let text := lit " {" ++ quoted (lit "b") ++ lit " : [1, 2.50,-0e3 ,1e2,null] , " ++
     quoted (lit "a\u0041\ud83d\ude00\n<") ++ lit ":true," ++ quoted (lit "b") ++ lit ":[]}" in
   to_string <$> (match parse text with Ok v => Some v | Err _ => None end)) =
   Some (lit "{" ++ quoted (lit "aA" ++ [240; 159; 152; 128] ++ lit "\n\u003c") ++ lit ":true," ++
         quoted (lit "b") ++ lit ":[]}") /\
  (to_string <$> (match parse (lit "[1, 2.50,-0e3 ,1e2,0.1]") with Ok v => Some v | Err _ => None end)) =
   Some (lit "[1,2.5,0,100,0.1]") /\
  to_string_pretty (Object [(lit "k", Array [Null; Number (f64_of_Z (-7))])]) =
    [123; 10; 32; 32] ++ quoted (lit "k") ++ lit ": [" ++ [10] ++ lit "    null," ++ [10] ++ lit "    -7" ++
    [10] ++ lit "  ]" ++ [10] ++ lit "}" /\
  parse (lit "[1," ++ [10] ++ lit "  x]") = Err (Syntax 2 3 (lit "unexpected character")) /\
  parse (lit "nul") = Err (Syntax 1 1 (lit "invalid literal")) /\
  parse (quoted (lit "\u12")) = Err (Syntax 1 4 (lit "truncated \u escape")).
Proof. split_and!; vm_compute; reflexivity. Qed.

(** The four digits of an escape may start with a plus. *)
Example plus_in_escape : parse (quoted (lit "\u+041")) = Ok (String (lit "A")).
Proof. vm_compute. reflexivity. Qed.

(** ** Induction over values *)

Lemma json_induction (P : Json -> Prop) :
  P Null -> (forall b, P (Bool b)) -> (forall n, P (Number n)) -> (forall s, P (String s)) ->
  (forall l, Forall P l -> P (Array l)) ->
  (forall m, Forall (fun p => P p.2) m -> P (Object m)) -> forall v, P v.
Proof.
  intros H1 H2 H3 H4 H5 H6. fix IH 1. intros [|b|n|s|l|m]; [done|apply H2|apply H3|apply H4|apply H5|apply H6].
  - induction l as [|x l IHl]; constructor; [apply IH|exact IHl].
  - induction m as [|x m IHm]; constructor; [apply IH|exact IHm].
Qed.

(** What the Rust types guarantee of a value: strings are UTF-8 and the keys of
    an object are in order without repetition. *)
Fixpoint keys_sorted (m : list (list Z * Json)) : bool :=
  match m with
  | (k, _) :: (((k', _) :: _) as m') => key_lt k k' && keys_sorted m'
  | _ => true
  end.

Fixpoint json_ok (v : Json) : bool :=
  match v with
  | Null | Bool _ | Number _ => true
  | String s => utf8_valid s
  | Array l => forallb json_ok l
  | Object m => keys_sorted m && forallb (fun p => utf8_valid p.1 && json_ok p.2) m
  end.

(** A number a 64-bit float can be: at most 53 binary digits, none of them left out. *)
Fixpoint doubles (v : Json) : bool :=
  match v with
  | Number n => valid_binary 53 1024 n
  | Array l => forallb doubles l
  | Object m => forallb (fun p => doubles p.2) m
  | _ => true
  end.

(** What is left of a number once it was printed: there is no text for infinity and
    NaN, which become [null], and zero has no sign. *)
Definition printed_number (n : f64) : Json :=
  match n with
  | S754_zero _ => Number (S754_zero false)
  | S754_finite _ _ _ => Number n
  | S754_infinity _ | S754_nan => Null
  end.

Fixpoint printed (v : Json) : Json :=
  match v with
  | Number n => printed_number n
  | Array l => Array (map printed l)
  | Object m => Object (map (fun p => (p.1, printed p.2)) m)
  | _ => v
  end.

(** The doubles that have a text of their own. *)
Definition plain_number (n : f64) : bool :=
  match n with S754_zero s => negb s | S754_finite _ m e => bounded 53 1024 m e | _ => false end.

Fixpoint plain (v : Json) : bool :=
  match v with
  | Number n => plain_number n
  | Array l => forallb plain l
  | Object m => forallb (fun p => plain p.2) m
  | _ => true
  end.

(** ** Numbers *)

Lemma dec_number n : Forall (fun b => is_number_byte b = true) (dec_nat n).
Proof.
  eapply Forall_impl; [|apply dec_nat_digits]. cbv beta. intros b Hb.
  unfold is_number_byte, is_digit, in_range. lia.
Qed.

Lemma zeros_number k : Forall (fun b => is_number_byte b = true) (repeat 48 k).
Proof. apply Forall_forall. by intros x ->%repeat_spec. Qed.

Definition number_head (l : list Z) : Prop :=
  exists b r, l = b :: r /\ ((b =? 45) || is_digit b = true).

Lemma digits_head l r :
  Forall (fun b => 48 <= b <= 57) l -> l <> [] -> number_head (l ++ r).
Proof.
  intros Hl Hne. destruct l as [|b l]; [done|]. exists b, (l ++ r). split; [done|].
  rewrite Forall_cons_iff in Hl. unfold is_digit, in_range. lia.
Qed.

Lemma place_point_number ds p :
  Forall (fun b => 48 <= b <= 57) ds -> ds <> [] ->
  Forall (fun b => is_number_byte b = true) (place_point ds p) /\ number_head (place_point ds p).
Proof.
  intros Hd Hne. assert (Hn : Forall (fun b => is_number_byte b = true) ds).
  { eapply Forall_impl; [|exact Hd]. cbv beta. intros b Hb. unfold is_number_byte, is_digit, in_range. lia. }
  unfold place_point. destruct (Z.leb_spec p 0).
  { split; [apply Forall_app; split; [done|apply zeros_number]|by apply digits_head]. }
  destruct (Z.ltb_spec p (Z.of_nat (length ds))).
  - split; [apply Forall_app; split; [by apply Forall_take|apply Forall_app; split; [by repeat constructor|by apply Forall_drop]]|].
    apply digits_head; [by apply Forall_take|]. destruct ds; [done|].
    destruct (Z.to_nat _) eqn:E; [lia|done].
  - split; [|by eexists _, _].
    apply Forall_app; split; [by repeat constructor|apply Forall_app; split; [apply zeros_number|done]].
Qed.

Lemma push_digits_dec f1 : forall f2 n acc,
  0 < n -> n < 10 ^ Z.of_nat f1 -> n < 2 ^ Z.of_nat f2 -> push_digits f1 n acc = dec_aux f2 n acc.
Proof.
  induction f1 as [|f1 IH]; intros f2 n acc Hn H1 H2; [cbn in H1; lia|].
  destruct f2 as [|f2]; [cbn in H2; lia|]. cbn [push_digits dec_aux].
  rewrite Nat2Z.inj_succ, Z.pow_succ_r in H1, H2 by lia.
  rewrite (proj2 (Z.ltb_lt _ _) Hn). destruct (Z.eqb_spec (n / 10) 0) as [E|E].
  - rewrite E. by destruct f1.
  - pose proof (Z.div_pos n 10 ltac:(lia) ltac:(lia)). apply IH; [lia| |].
    + apply Z.div_lt_upper_bound; lia.
    + apply Z.div_lt_upper_bound; lia.
Qed.

Lemma push_integer_dec z : Z.abs z < 10 ^ 20 -> push_integer z = dec z.
Proof.
  intros Hz. unfold push_integer, dec. destruct (Z.eqb_spec z 0) as [->|Hne]; [done|].
  assert (H : push_digits 20 (Z.abs z) [] = dec_nat (Z.abs z)).
  { unfold dec_nat. apply push_digits_dec; [lia|done|]. rewrite Nat2Z.inj_succ, Z2Nat.id by apply Z.log2_nonneg.
    apply Z.log2_spec. lia. }
  rewrite H. destruct (Z.ltb_spec z 0); [by rewrite Z.abs_neq by lia|by rewrite Z.abs_eq by lia].
Qed.

Lemma write_number_text n :
  is_finite n = true ->
  Forall (fun b => is_number_byte b = true) (write_number n) /\ number_head (write_number n).
Proof.
  intros Hf. unfold write_number. rewrite Hf.
  assert (Hdec : forall z, Forall (fun b => is_number_byte b = true) (dec_nat z) /\ number_head (dec_nat z)).
  { intros z. split; [apply dec_number|]. rewrite <- (app_nil_r (dec_nat z)).
    apply digits_head; [apply dec_nat_digits|apply dec_nat_nonempty]. }
  destruct (is_integral n && below_1e15 n).
  - rewrite push_integer_dec.
    + unfold dec. destruct (_ <? 0); [|apply Hdec]. split; [|by eexists _, _].
      apply Forall_app. split; [by repeat constructor|apply Hdec].
    + destruct n as [s|s| |s m e]; cbn [f64_to_int]; try done.
      unfold i64_min, i64_max. lia.
  - destruct n as [s|s| |s m e]; try done.
    + destruct s; (split; [by repeat constructor|by eexists _, _]).
    + cbn [display_f64]. destruct (shortest _ _ _ _ _) as [d p].
      destruct (place_point_number (dec_nat d) p (dec_nat_digits d) (dec_nat_nonempty d)) as [H1 H2].
      destruct s; [|done]. split; [|by eexists _, _]. apply Forall_app. split; [by repeat constructor|done].
Qed.

(** What may follow a number without being read as part of it. *)
Definition ends_number (rest : list Z) : Prop :=
  match rest with b :: _ => is_number_byte b = false | [] => True end.

Lemma take_number_all l rest :
  Forall (fun b => is_number_byte b = true) l -> ends_number rest -> take_number (l ++ rest) = (l, rest).
Proof.
  intros Hl Hr. induction Hl as [|b l Hb Hl IH]; cbn [app take_number].
  - destruct rest as [|b rest]; [done|]. cbn [take_number]. cbn in Hr. by rewrite Hr.
  - by rewrite Hb, IH.
Qed.

Lemma parse_unsigned_dec s p : parse_unsigned s (dec_nat (Zpos p)) = Some (binary_round 53 1024 s p 0).
Proof.
  unfold parse_unsigned. rewrite Rounding.take_digits_all by apply dec_nat_digits. rewrite app_nil_r.
  pose proof (dec_nat_nonempty (Zpos p)). destruct (dec_nat (Zpos p)) as [|b l] eqn:E; [done|].
  cbn [length Nat.eqb parse_exponent]. rewrite <- E. unfold digits_value. rewrite digits_dec_nat by lia.
  cbn [default id]. unfold round_decimal. cbn [Z.sub Z.ltb Z.compare Z.add Z.mul Z.opp].
  pose proof (Z.log2_nonneg (Zpos p)). rewrite (proj2 (Z.leb_gt _ _)) by lia. cbn [Z.leb Z.compare].
  by rewrite Z.mul_1_r.
Qed.

Lemma parse_dec z :
  z <> 0 -> parse_f64 (dec z) = Some (binary_round 53 1024 (z <? 0) (Z.to_pos (Z.abs z)) 0).
Proof.
  intros Hz. unfold dec. destruct (Z.ltb_spec z 0).
  - replace (- z) with (Zpos (Z.to_pos (Z.abs z))) by lia. apply parse_unsigned_dec.
  - replace z with (Zpos (Z.to_pos (Z.abs z))) at 1 by lia. rewrite <- parse_unsigned_dec.
    pose proof (dec_nat_digits (Zpos (Z.to_pos (Z.abs z)))) as Hd.
    pose proof (dec_nat_nonempty (Zpos (Z.to_pos (Z.abs z)))).
    destruct (dec_nat _) as [|b l]; [done|]. rewrite Forall_cons_iff in Hd. unfold parse_f64.
    rewrite (proj2 (Z.eqb_neq _ _)), (proj2 (Z.eqb_neq _ _)) by lia. done.
Qed.

(** The integer an integral double stands for. *)
Lemma integral_trunc s m e : -1074 <= e -> is_integral (S754_finite s m e) && below_1e15 (S754_finite s m e) = true ->
  exists p, f64_to_int i64_min i64_max (S754_finite s m e) = (if s then Zneg p else Zpos p) /\ Zpos p < 10 ^ 15 /\
    Zpos p * Rounding.TINY = Rounding.value m e.
Proof.
  intros He H. apply andb_true_iff in H as [Hi Hb]. cbn [is_integral below_1e15] in *. unfold Rounding.TINY, Rounding.value.
  assert (Ha : exists a, (if 0 <=? e then Zpos m * 2 ^ e else Zpos m / 2 ^ (- e)) = a /\ 0 < a < 10 ^ 15 /\ a * 2 ^ 1074 = Zpos m * 2 ^ (e + 1074)).
  { eexists. split; [reflexivity|]. destruct (Z.leb_spec 0 e) as [He0|He0]; cbn [orb] in Hi.
    - apply Z.ltb_lt in Hb. assert (0 < 2 ^ e) by (apply Z.pow_pos_nonneg; lia). rewrite Z.pow_add_r by lia. split; [nia|ring].
    - apply Z.eqb_eq in Hi. apply Z.ltb_lt in Hb. assert (H2 : 0 < 2 ^ (- e)) by (apply Z.pow_pos_nonneg; lia).
      pose proof (Z.div_mod (Zpos m) (2 ^ (- e)) ltac:(lia)) as Hd. rewrite Hi, Z.add_0_r in Hd. set (a := Zpos m / 2 ^ (- e)) in *.
      split; [nia|]. rewrite Hd at 1. replace 1074 with ((e + 1074) + - e) at 1 by lia. rewrite Z.pow_add_r by lia. ring. }
  destruct Ha as (a & Ea & Hlt & Hv). destruct a as [|p|p]; [lia| |lia]. exists p. split; [|split; [lia|done]].
  cbn [f64_to_int]. unfold f64_trunc. rewrite Ea. unfold i64_min, i64_max. destruct s; lia.
Qed.

(** A number is read back from its text. *)
Lemma number_reads n : plain_number n = true -> parse_f64 (write_number n) = Some n.
Proof.
  destruct n as [[]|s| |s m e]; try done. cbn [plain_number]. intros Hb. unfold write_number. cbn [is_finite].
  destruct (is_integral _ && below_1e15 _) eqn:E; [|by apply Rounding.display_read_back].
  pose proof (Rounding.double_low _ _ (proj1 (Rounding.bounded_double _ _) Hb)) as Hl.
  destruct (integral_trunc s m e Hl E) as (p & -> & Hp & Hv). rewrite push_integer_dec by (destruct s; lia).
  rewrite parse_dec by (by destruct s). f_equal. rewrite <- (Rounding.integral_rounds s m e p Hb Hv). by destruct s.
Qed.

Lemma write_number_printed n : write_number n = match printed_number n with Number n => write_number n | _ => lit "null" end.
Proof. by destruct n as [[]|s| |s m e]. Qed.

(** ** Strings *)

Definition clean (b : Z) : bool := bool_decide (escape_byte b = [b]).

Lemma hex_pair c :
  0 <= c < 256 ->
  from_str_radix16 [48; 48; hex_digit_lower (c / 16); hex_digit_lower (c mod 16)] = Some c /\
  utf8_valid [48; 48; hex_digit_lower (c / 16); hex_digit_lower (c mod 16)] = true.
Proof.
  intros Hc. assert (H := forall_below 256 (fun c =>
    match from_str_radix16 [48; 48; hex_digit_lower (c / 16); hex_digit_lower (c mod 16)] with
    | Some x => x =? c | None => false end &&
    utf8_valid [48; 48; hex_digit_lower (c / 16); hex_digit_lower (c mod 16)])
    ltac:(vm_compute; reflexivity) c ltac:(lia)).
  cbv beta in H. rewrite andb_true_iff in H. destruct H as [H1 H2]. split; [|done].
  destruct (from_str_radix16 _); [|done]. by apply Z.eqb_eq in H1 as ->.
Qed.

(** An escape is read back as the byte it stands for. *)
Lemma escaped_unicode c fuel input out rest :
  0 <= c < 128 ->
  string_loop input (S fuel) out
    (lit "\u00" ++ [hex_digit_lower (c / 16); hex_digit_lower (c mod 16)] ++ rest) =
  string_loop input fuel (out ++ [c]) rest.
Proof.
  intros Hc. destruct (hex_pair c ltac:(lia)) as [Hr Hu].
  change (lit "\u00" ++ [hex_digit_lower (c / 16); hex_digit_lower (c mod 16)] ++ rest) with
    (92 :: 117 :: [48; 48; hex_digit_lower (c / 16); hex_digit_lower (c mod 16)] ++ rest).
  cbn [string_loop Z.eqb Pos.eqb simple_escape]. unfold unicode_escape, hex4.
  rewrite (proj2 (Nat.ltb_ge _ _)) by (rewrite length_app; cbn; lia).
  rewrite take_app_le, take_ge by (cbn; lia). rewrite Hu, Hr.
  rewrite drop_app_ge by (cbn; lia). cbn [length Nat.sub]. rewrite drop_0.
  unfold in_range. rewrite (proj2 (Z.leb_gt 55296 c)) by lia. cbn [andb]. unfold from_u32, is_scalar, in_range.
  rewrite (proj2 (Z.leb_le 0 c)), (proj2 (Z.leb_le c 55295)) by lia. cbn [andb orb].
  unfold encode_char. by rewrite (proj2 (Z.ltb_lt c 128)) by lia.
Qed.

Lemma escaped_read b fuel input out rest :
  clean b = false ->
  0 <= b < 128 /\ string_loop input (S fuel) out (escape_byte b ++ rest) = string_loop input fuel (out ++ [b]) rest.
Proof.
  unfold clean. rewrite bool_decide_eq_false. unfold escape_byte.
  repeat match goal with
    | |- context [if ?x =? ?y then _ else _] => destruct (Z.eqb_spec x y) as [->|]; [intros _; split; [lia|]; try reflexivity|]
    end.
  destruct (Z.leb_spec 0 b), (Z.leb_spec b 31); cbn [andb]; try done.
  intros _. split; [lia|]. rewrite <- app_assoc. apply escaped_unicode. lia.
Qed.

Lemma clean_byte b : clean b = true -> escape_byte b = [b] /\ (b =? 34) = false /\ (b =? 92) = false.
Proof.
  unfold clean. rewrite bool_decide_eq_true. intros H. split; [done|].
  destruct (Z.eqb_spec b 34) as [->|]; [done|]. by destruct (Z.eqb_spec b 92) as [->|].
Qed.

(** The clean bytes at the front of a string. *)
Fixpoint clean_run (s : list Z) : list Z * list Z :=
  match s with
  | b :: r => if clean b then let '(run, rest) := clean_run r in (b :: run, rest) else ([], s)
  | [] => ([], [])
  end.

Lemma clean_run_spec s :
  let '(run, rest) := clean_run s in
  s = run ++ rest /\ Forall (fun b => clean b = true) run /\
  match rest with b :: _ => clean b = false | [] => True end.
Proof.
  induction s as [|b s IH]; [by split_and!|]. cbn [clean_run]. destruct (clean b) eqn:E.
  - destruct (clean_run s) as [run rest]. destruct IH as (-> & H1 & H2). split_and!; [done|by constructor|done].
  - split_and!; [done|constructor|done].
Qed.

Lemma escape_clean run : Forall (fun b => clean b = true) run -> concat (map escape_byte run) = run.
Proof.
  induction 1 as [|b run Hb H IH]; [done|]. cbn [map concat]. rewrite IH.
  by rewrite (proj1 (clean_byte b Hb)).
Qed.

Lemma take_run_clean run rest :
  Forall (fun b => clean b = true) run ->
  match rest with b :: _ => (b =? 34) || (b =? 92) = true | [] => True end ->
  take_run (run ++ rest) = (run, rest).
Proof.
  intros Hr Hrest. induction Hr as [|b run Hb H IH]; cbn [app take_run].
  - destruct rest as [|b rest]; [done|]. cbn [take_run]. by rewrite Hrest.
  - destruct (clean_byte b Hb) as (_ & -> & ->). cbn [orb]. by rewrite IH.
Qed.

Lemma escape_head b : clean b = false -> exists t, escape_byte b = 92 :: t.
Proof.
  unfold clean. rewrite bool_decide_eq_false. unfold escape_byte.
  repeat match goal with |- context [if ?x then _ else _] => destruct x; [by eexists|] end. done.
Qed.

Lemma ascii_boundary run b s :
  utf8_valid (run ++ b :: s) = true -> 0 <= b < 128 -> utf8_valid run = true /\ utf8_valid s = true.
Proof.
  intros Hv Hb. assert (Hrun : utf8_valid run = true).
  { rewrite <- (take_app_length run (b :: s)). apply utf8_valid_take; [done|].
    unfold is_char_boundary. destruct (_ =? 0)%nat; [done|]. rewrite lookup_app_r, Nat.sub_diag by done.
    cbn. unfold is_cont, in_range. lia. }
  split; [done|]. rewrite utf8_valid_app in Hv by done.
  rewrite (utf8_valid_char _ 1) in Hv; [done|]. unfold utf8_first, announced, in_range.
  by rewrite (proj2 (andb_true_iff _ _)) by lia.
Qed.

(** Reading an escaped string gives the string. *)
Lemma string_loop_escaped s : forall fuel input out rest,
  utf8_valid s = true -> (length (concat (map escape_byte s)) < fuel)%nat ->
  string_loop input fuel out (concat (map escape_byte s) ++ 34 :: rest) = Ok (out ++ s, rest).
Proof.
  induction s as [s IH] using list_length_ind. intros fuel input out rest Hv Hfuel.
  pose proof (clean_run_spec s) as H. destruct (clean_run s) as [run s'] eqn:Er.
  destruct H as (-> & Hrun & Hs'). rewrite map_app, concat_app, length_app in *.
  rewrite (escape_clean run Hrun) in *. destruct fuel as [|fuel]; [lia|].
  destruct run as [|b run].
  - cbn [app]. destruct s' as [|c s']; [cbn; by rewrite app_nil_r|]. cbn [map concat].
    destruct (ascii_boundary [] c s' Hv) as [_ Hv']; [apply (escaped_read c 0 [] [] [] Hs')|].
    rewrite <- app_assoc. rewrite (proj2 (escaped_read c fuel input out _ Hs')).
    rewrite IH; [by rewrite <- app_assoc|cbn; lia|done|].
    destruct (escape_head c Hs') as [t Ht]. cbn [map concat] in Hfuel. rewrite Ht in Hfuel.
    cbn [app length] in Hfuel. rewrite length_app in Hfuel. lia.
  - destruct (clean_byte b ltac:(by inversion Hrun)) as (_ & Hb1 & Hb2). rewrite <- app_assoc.
    cbn [app string_loop]. rewrite Hb1, Hb2.
    change (b :: run ++ concat (map escape_byte s') ++ 34 :: rest) with
      ((b :: run) ++ concat (map escape_byte s') ++ 34 :: rest).
    rewrite take_run_clean; [|done|].
    2: { destruct s' as [|c s']; [done|]. destruct (escape_head c Hs') as [t Ht]. cbn [map concat]. by rewrite Ht. }
    assert (Hvs : utf8_valid (b :: run) = true /\ utf8_valid s' = true).
    { destruct s' as [|c s']; [by rewrite app_nil_r in Hv|].
      destruct (ascii_boundary (b :: run) c s' Hv) as [H1 H2]; [apply (escaped_read c 0 [] [] [] Hs')|].
      split; [done|]. by rewrite utf8_valid_app in Hv. }
    destruct Hvs as [-> Hv']. rewrite IH; [by rewrite <- app_assoc|cbn; lia|done|].
    cbn [length] in Hfuel. lia.
Qed.

Lemma string_escaped input s rest :
  utf8_valid s = true -> string input (escape_into s ++ rest) = Ok (s, rest).
Proof.
  intros Hv. unfold string, escape_into, expect. cbn [app eat Z.eqb Pos.eqb].
  rewrite <- app_assoc. cbn [app]. rewrite string_loop_escaped; [done|done|rewrite length_app; lia].
Qed.

(** ** White space and separators *)

Lemma skip_spaces n l : skip_whitespace (repeat 32 n ++ l) = skip_whitespace l.
Proof. induction n as [|n IH]; [done|]. exact IH. Qed.

Lemma skip_break indent n l : skip_whitespace (newline indent ++ pad indent n ++ l) = skip_whitespace l.
Proof. destruct indent as [w|]; [|done]. cbn [newline pad app skip_whitespace]. apply skip_spaces. Qed.

(** Text that starts with something: not white space, not the end of a list. *)
Definition opens (l : list Z) : Prop :=
  exists b r, l = b :: r /\ is_space b = false /\ b <> 93 /\ b <> 125.

Lemma opens_app l r : opens l -> opens (l ++ r).
Proof. intros (b & t & -> & H). by exists b, (t ++ r). Qed.

Lemma opens_skip l : opens l -> skip_whitespace l = l.
Proof. intros (b & r & -> & H & _). cbn [skip_whitespace]. by rewrite H. Qed.

Lemma opens_eat l : opens l -> eat 93 l = None /\ eat 125 l = None.
Proof.
  intros (b & r & -> & _ & H1 & H2). cbn [eat].
  rewrite (proj2 (Z.eqb_neq _ _) H1), (proj2 (Z.eqb_neq _ _) H2). done.
Qed.

Lemma number_opens l : number_head l -> opens l.
Proof.
  intros (b & r & -> & H). exists b, r. split; [done|]. unfold is_digit, in_range, is_space in *. lia.
Qed.

Lemma write_opens indent v depth : plain v = true -> opens (write indent v depth).
Proof.
  intros Hn. destruct v as [|[]|n|s|[|x l]|[|x m]]; try by (eexists _, _; split_and!; [reflexivity|done..]).
  apply number_opens. cbn [plain] in Hn. cbn [write].
  apply write_number_text. by destruct n.
Qed.

Lemma join_cons_concat (x : list Z) l :
  join [44] (x :: l) = x ++ concat (map (fun t => 44 :: t) l).
Proof.
  revert x; induction l as [|y l IH]; intros x; [by rewrite app_nil_r|].
  change (join [44] (x :: y :: l)) with (x ++ [44] ++ join [44] (y :: l)). by rewrite IH.
Qed.

Lemma eat_eq b r : eat b (b :: r) = Some r.
Proof. cbn [eat]. by rewrite Z.eqb_refl. Qed.

(** After an item: a comma and the next one, or the end. *)
Lemma closing_skip indent depth c rest :
  is_space c = false -> skip_whitespace (newline indent ++ pad indent depth ++ c :: rest) = c :: rest.
Proof. intros Hc. rewrite skip_break. cbn [app skip_whitespace]. by rewrite Hc. Qed.

Lemma break_ends indent depth c rest :
  is_number_byte c = false -> ends_number (newline indent ++ pad indent depth ++ c :: rest).
Proof. intros Hc. by destruct indent. Qed.

(** ** Keys in order *)

Lemma key_lt_irrefl a : key_lt a a = false.
Proof. induction a as [|x a IH]; [done|]. cbn [key_lt]. rewrite Z.ltb_irrefl, Z.eqb_refl. exact IH. Qed.

Lemma key_lt_trans a : forall b c, key_lt a b = true -> key_lt b c = true -> key_lt a c = true.
Proof.
  induction a as [|x a IH]; intros [|y b] [|z c]; cbn [key_lt]; try done.
  rewrite !orb_true_iff, !andb_true_iff, !Z.ltb_lt, !Z.eqb_eq.
  intros [H1|[-> H1]] [H2|[-> H2]]; [left; lia|left; lia|left; lia|right; split; [done|by eapply IH]].
Qed.

Lemma key_lt_asym a b : key_lt a b = true -> key_lt b a = false /\ a <> b.
Proof.
  intros H. split.
  - destruct (key_lt b a) eqn:E; [|done]. pose proof (key_lt_trans _ _ _ H E) as Ha.
    by rewrite key_lt_irrefl in Ha.
  - intros ->. by rewrite key_lt_irrefl in H.
Qed.

Lemma keys_sorted_cons k v m :
  keys_sorted ((k, v) :: m) = true -> keys_sorted m = true /\ Forall (fun p => key_lt k p.1 = true) m.
Proof.
  revert k v; induction m as [|[k' v'] m IH]; intros k v H; [by split|].
  cbn [keys_sorted] in H. apply andb_true_iff in H as [Hk H]. split; [done|].
  apply Forall_cons_2; [done|]. destruct (IH k' v' H) as [_ Hm]. eapply Forall_impl; [|exact Hm].
  intros p. by apply key_lt_trans.
Qed.

Lemma keys_sorted_last m k v l :
  keys_sorted (m ++ (k, v) :: l) = true -> Forall (fun p => key_lt p.1 k = true) m.
Proof.
  induction m as [|[k' v'] m IH]; intros H; [constructor|]. cbn [app] in H.
  apply keys_sorted_cons in H as [Hm Hk]. apply Forall_cons_2; [|by apply IH].
  rewrite Forall_app in Hk. destruct Hk as [_ Hk]. by inversion Hk.
Qed.

(** A key greater than all others goes to the end. *)
Lemma insert_member_last k v m :
  Forall (fun p => key_lt p.1 k = true) m -> insert_member k v m = m ++ [(k, v)].
Proof.
  induction 1 as [|[k' v'] m Hk Hm IH]; [done|]. cbn [insert_member app fst] in *.
  destruct (key_lt_asym _ _ Hk) as [-> Hne]. rewrite bool_decide_false by done. by rewrite IH.
Qed.

Section RoundTrip.
Context (input : list Z) (indent : option nat).

(** A value is read back wherever its text stands. *)
Definition reads_back (v : Json) : Prop := forall depth rest fuel,
  ends_number rest -> (2 * length (write indent v depth) < fuel)%nat ->
  value input fuel (write indent v depth ++ rest) = Ok (v, rest).

Definition item_text (depth : nat) (v : Json) : list Z :=
  newline indent ++ pad indent depth ++ write indent v depth.
Definition member_text (depth : nat) (p : list Z * Json) : list Z :=
  newline indent ++ pad indent depth ++ escape_into p.1 ++ colon indent ++ write indent p.2 depth.

(** The texts after the first one. *)
Definition more (texts : list (list Z)) : list Z := concat (map (fun t => 44 :: t) texts).

Lemma more_ends texts depth c rest :
  is_number_byte c = false ->
  ends_number (more texts ++ newline indent ++ pad indent depth ++ c :: rest).
Proof. intros Hc. destruct texts as [|t texts]; [by apply break_ends|done]. Qed.

Lemma items_read l : forall x acc fuel depth rest start,
  Forall (fun v => reads_back v /\ plain v = true) (x :: l) ->
  skip_whitespace start = write indent x (S depth) ++ more (map (item_text (S depth)) l) ++
    newline indent ++ pad indent depth ++ 93 :: rest ->
  (2 * length (write indent x (S depth) ++ more (map (item_text (S depth)) l)) + 1 < fuel)%nat ->
  items input fuel acc start = Ok (Array (acc ++ x :: l), rest).
Proof.
  induction l as [|y l IH]; intros x acc fuel depth rest start Hl Hstart Hfuel;
    rewrite Forall_cons_iff in Hl; destruct Hl as [[Hx Hnx] Hl];
    (destruct fuel as [|fuel]; [lia|]); cbn [items]; rewrite Hstart;
    rewrite length_app in Hfuel;
    (rewrite Hx; [|by apply more_ends|lia]).
  - unfold more. cbn [map concat app]. rewrite closing_skip by done. by rewrite eat_eq.
  - rewrite Forall_cons_iff in Hl. destruct Hl as [Hy Hl].
    change (more (map (item_text (S depth)) (y :: l))) with
      (44 :: item_text (S depth) y ++ more (map (item_text (S depth)) l)) in *.
    cbn [app skip_whitespace is_space Z.eqb Pos.eqb orb]. rewrite eat_eq.
    rewrite (IH y (acc ++ [x]) fuel depth rest); [by rewrite <- app_assoc|by apply Forall_cons_2| |].
    + unfold item_text at 1. rewrite <- !app_assoc, skip_break. apply opens_skip, opens_app, write_opens, Hy.
    + cbn [length] in Hfuel. unfold item_text in Hfuel at 1. rewrite !length_app in *. lia.
Qed.

Lemma colon_skip depth v rest :
  plain v = true ->
  exists r, expect input 58 (skip_whitespace (colon indent ++ write indent v depth ++ rest)) = Ok r /\
    skip_whitespace r = write indent v depth ++ rest.
Proof.
  intros Hn. assert (H : skip_whitespace (write indent v depth ++ rest) = write indent v depth ++ rest)
    by (apply opens_skip, opens_app, write_opens, Hn).
  destruct indent as [w|]; eexists; (split; [reflexivity|]); [|done].
  cbn [app skip_whitespace is_space Z.eqb Pos.eqb orb]. done.
Qed.

Lemma members_parse l : forall k v m fuel depth rest start,
  keys_sorted (m ++ (k, v) :: l) = true ->
  Forall (fun p => utf8_valid p.1 = true /\ reads_back p.2 /\ plain p.2 = true) ((k, v) :: l) ->
  skip_whitespace start = escape_into k ++ colon indent ++ write indent v (S depth) ++
    more (map (member_text (S depth)) l) ++ newline indent ++ pad indent depth ++ 125 :: rest ->
  (2 * length (write indent v (S depth) ++ more (map (member_text (S depth)) l)) + 1 < fuel)%nat ->
  members input fuel m start = Ok (Object (m ++ (k, v) :: l), rest).
Proof.
  induction l as [|[k' v'] l IH]; intros k v m fuel depth rest start Hs Hl Hstart Hfuel;
    rewrite Forall_cons_iff in Hl; destruct Hl as [(Hk & Hv & Hnv) Hl]; cbn [fst snd] in *;
    (destruct fuel as [|fuel]; [lia|]); cbn [members]; rewrite Hstart;
    rewrite string_escaped by done; rewrite length_app in Hfuel;
    (match goal with |- context [colon indent ++ write indent v _ ++ ?t] =>
       destruct (colon_skip (S depth) v t Hnv) as (r & -> & ->) end);
    (rewrite Hv; [|by apply more_ends|lia]);
    rewrite insert_member_last by (by eapply keys_sorted_last).
  - unfold more. cbn [map concat app]. rewrite closing_skip by done. by rewrite eat_eq.
  - change (more (map (member_text (S depth)) ((k', v') :: l))) with
      (44 :: member_text (S depth) (k', v') ++ more (map (member_text (S depth)) l)) in *.
    cbn [app skip_whitespace is_space Z.eqb Pos.eqb orb]. rewrite eat_eq.
    rewrite (IH k' v' (m ++ [(k, v)]) fuel depth rest); [by rewrite <- app_assoc|by rewrite <- app_assoc|done| |].
    + unfold member_text at 1. cbn [fst snd]. rewrite <- !app_assoc, skip_break. apply opens_skip.
      by eexists _, _.
    + cbn [length] in Hfuel. unfold member_text in Hfuel at 1. cbn [fst snd] in Hfuel.
      rewrite !length_app in *. unfold escape_into in Hfuel. rewrite !length_app in Hfuel. cbn [length] in Hfuel. lia.
Qed.

Lemma write_array x l depth :
  write indent (Array (x :: l)) depth = 91 :: item_text (S depth) x ++ more (map (item_text (S depth)) l) ++
    newline indent ++ pad indent depth ++ [93].
Proof.
  cbn [write]. rewrite Nat.add_1_r. change (map _ (x :: l)) with (item_text (S depth) x :: map (item_text (S depth)) l).
  rewrite join_cons_concat. cbn [app]. by rewrite <- app_assoc.
Qed.

Lemma write_object x l depth :
  write indent (Object (x :: l)) depth = 123 :: member_text (S depth) x ++ more (map (member_text (S depth)) l) ++
    newline indent ++ pad indent depth ++ [125].
Proof.
  cbn [write]. rewrite Nat.add_1_r. change (map _ (x :: l)) with (member_text (S depth) x :: map (member_text (S depth)) l).
  rewrite join_cons_concat. cbn [app]. by rewrite <- app_assoc.
Qed.

Lemma array_read l :
  Forall (fun v => reads_back v /\ plain v = true) l -> reads_back (Array l).
Proof.
  intros Hl depth rest fuel _ Hfuel. destruct fuel as [|fuel]; [lia|].
  destruct l as [|x l]; [done|]. rewrite write_array in *. cbn [app length] in *.
  pose proof Hl as Hx. rewrite Forall_cons_iff in Hx. destruct Hx as [[_ Hnx] _].
  cbn [value Z.eqb Pos.eqb]. unfold expect. rewrite eat_eq.
  assert (Ho : opens (write indent x (S depth))) by by apply write_opens.
  assert (Hb : skip_whitespace ((item_text (S depth) x ++ more (map (item_text (S depth)) l) ++ newline indent ++
      pad indent depth ++ [93]) ++ rest) = write indent x (S depth) ++ more (map (item_text (S depth)) l) ++
      newline indent ++ pad indent depth ++ 93 :: rest).
  { unfold item_text at 1. rewrite <- !app_assoc, skip_break. by apply opens_skip, opens_app. }
  rewrite !Hb, (proj1 (opens_eat _ (opens_app _ _ Ho))).
  rewrite (items_read l x [] fuel depth rest); [done|done|by apply opens_skip, opens_app|].
  unfold item_text in Hfuel at 1. rewrite !length_app in *. cbn [length] in Hfuel. lia.
Qed.

Lemma object_read m :
  keys_sorted m = true ->
  Forall (fun p => utf8_valid p.1 = true /\ reads_back p.2 /\ plain p.2 = true) m ->
  reads_back (Object m).
Proof.
  intros Hs Hl depth rest fuel _ Hfuel. destruct fuel as [|fuel]; [lia|].
  destruct m as [|[k v] l]; [done|]. rewrite write_object in *. cbn [app length] in *.
  cbn [value Z.eqb Pos.eqb]. unfold expect. rewrite eat_eq.
  set (body := escape_into k ++ colon indent ++ write indent v (S depth) ++ more (map (member_text (S depth)) l) ++
    newline indent ++ pad indent depth ++ 125 :: rest).
  assert (Ho : opens body) by by eexists _, _.
  assert (Hb : skip_whitespace ((member_text (S depth) (k, v) ++ more (map (member_text (S depth)) l) ++
      newline indent ++ pad indent depth ++ [125]) ++ rest) = body).
  { unfold member_text at 1. cbn [fst snd]. rewrite <- !app_assoc, skip_break. by apply opens_skip. }
  rewrite !Hb, (proj2 (opens_eat _ Ho)).
  rewrite (members_parse l k v [] fuel depth rest); [done|done|done|by apply opens_skip|].
  unfold member_text in Hfuel at 1. cbn [fst snd] in Hfuel. rewrite !length_app in *. cbn [length] in Hfuel. lia.
Qed.

Lemma number_value b t fuel :
  ((b =? 45) || is_digit b = true) -> value input (S fuel) (b :: t) = number input (b :: t).
Proof.
  intros Hb. cbn [value]. rewrite Hb. unfold is_digit, in_range in Hb.
  by repeat (rewrite (proj2 (Z.eqb_neq b _)) by lia).
Qed.

Lemma value_read v : json_ok v = true -> plain v = true -> reads_back v.
Proof.
  induction v as [|b|n|s|l IH|m IH] using json_induction; intros Hok Hn.
  - by intros depth rest [|fuel] _ Hfuel; [cbn in Hfuel; lia|].
  - intros depth rest [|fuel] _ Hfuel; [lia|]. by destruct b.
  - intros depth rest [|fuel] Hend Hfuel; [lia|]. cbn [plain] in Hn.
    pose proof (number_reads n Hn) as Hp. assert (Hf : is_finite n = true) by (by destruct n).
    destruct (write_number_text n Hf) as [Hall (b & r & Eb & Hb)]. cbn [write].
    rewrite Eb. cbn [app]. rewrite number_value by done. unfold number.
    change (b :: r ++ rest) with ((b :: r) ++ rest). rewrite <- Eb, take_number_all by done. by rewrite Hp.
  - intros depth rest [|fuel] _ Hfuel; [lia|]. cbn [json_ok] in Hok. cbn [write].
    pose proof (string_escaped input s rest Hok) as Hs. unfold escape_into in *. cbn [app] in *.
    cbn [value Z.eqb Pos.eqb]. by rewrite Hs.
  - cbn [json_ok plain] in *. rewrite forallb_forall in Hok, Hn. rewrite Forall_forall in IH.
    apply array_read, Forall_forall. intros x Hx. split; [|by apply Hn]. apply IH; auto.
  - cbn [json_ok plain] in *. rewrite andb_true_iff, forallb_forall in Hok. rewrite forallb_forall in Hn.
    destruct Hok as [Hs Hok]. rewrite Forall_forall in IH. apply object_read, Forall_forall; [done|].
    intros x Hx. specialize (Hok x Hx). apply andb_true_iff in Hok as [H1 H2].
    split; [done|]. split; [apply IH; auto|by apply Hn].
Qed.

End RoundTrip.

Lemma parse_written indent v :
  json_ok v = true -> plain v = true -> parse (write indent v 0) = Ok v.
Proof.
  intros Hok Hn. unfold parse. rewrite (opens_skip _ (write_opens indent v 0 Hn)).
  pose proof (value_read (write indent v 0) indent v Hok Hn 0%nat [] (S (2 * length (write indent v 0))) I) as H.
  rewrite app_nil_r in H. rewrite H by lia. done.
Qed.

(** ** What is printed of a value *)

Lemma map_ext_Forall {A B} (f g : A -> B) l : Forall (fun x => f x = g x) l -> map f l = map g l.
Proof. induction 1 as [|x l Hx Hl IH]; cbn [map]; congruence. Qed.

Lemma write_printed indent v : forall depth, write indent v depth = write indent (printed v) depth.
Proof.
  induction v as [|b|n|s|l IH|m IH] using json_induction; intros depth; try done.
  - cbn [write printed]. rewrite write_number_printed. by destruct n as [[]|s| |s m e].
  - destruct l as [|x l]; [done|]. cbn [printed]. set (l' := x :: l) in *. cbn [write]. rewrite map_map.
    change (map printed l') with (printed x :: map printed l). cbv iota. subst l'. do 3 f_equal.
    apply (map_ext_Forall _ (fun v => newline indent ++ pad indent (depth + 1) ++ write indent (printed v) (depth + 1))).
    eapply Forall_impl; [|exact IH]. intros y Hy. cbv beta. by rewrite <- Hy.
  - destruct m as [|x m]; [done|]. cbn [printed]. set (m' := x :: m) in *. cbn [write]. rewrite map_map.
    change (map (fun p => (p.1, printed p.2)) m') with ((x.1, printed x.2) :: map (fun p => (p.1, printed p.2)) m). cbv iota. subst m'. do 3 f_equal.
    apply (map_ext_Forall _ (fun p => newline indent ++ pad indent (depth + 1) ++ escape_into p.1 ++ colon indent ++ write indent (printed p.2) (depth + 1))).
    eapply Forall_impl; [|exact IH]. intros y Hy. cbv beta. cbn [fst snd]. by rewrite <- Hy.
Qed.

Lemma forallb_Forall_imp {A} (f g : A -> bool) l : Forall (fun x => f x = true -> g x = true) l -> forallb f l = true -> forallb g l = true.
Proof. induction 1 as [|x l Hx Hl IH]; [done|]. cbn [forallb]. rewrite !andb_true_iff. intros [H1 H2]. auto. Qed.

Lemma forallb_map' {A B} (f : B -> bool) (g : A -> B) l : forallb f (map g l) = forallb (fun x => f (g x)) l.
Proof. induction l as [|x l IH]; [done|]. cbn [map forallb]. by rewrite IH. Qed.

Lemma keys_sorted_map f m : keys_sorted (map (fun p => (p.1, f p.2)) m) = keys_sorted m.
Proof. induction m as [|[k v] [|[k' v'] m] IH]; [done..|]. cbn [map keys_sorted fst snd] in *. by rewrite IH. Qed.

Lemma printed_ok v : json_ok v = true -> json_ok (printed v) = true.
Proof.
  induction v as [|b|n|s|l IH|m IH] using json_induction; try done.
  - by destruct n.
  - cbn [json_ok printed]. rewrite forallb_map'. by apply forallb_Forall_imp.
  - cbn [json_ok printed]. rewrite keys_sorted_map, forallb_map', !andb_true_iff. intros [H1 H2]. split; [done|]. revert H2.
    apply forallb_Forall_imp. eapply Forall_impl; [|exact IH]. intros p Hp. cbn [fst snd]. rewrite !andb_true_iff. intros [H3 H4]. auto.
Qed.

Lemma printed_plain v : doubles v = true -> plain (printed v) = true.
Proof.
  induction v as [|b|n|s|l IH|m IH] using json_induction; try done.
  - by destruct n.
  - cbn [doubles printed plain]. rewrite forallb_map'. by apply forallb_Forall_imp.
  - cbn [doubles printed plain]. rewrite forallb_map'. by apply forallb_Forall_imp.
Qed.

Lemma plain_printed v : plain v = true -> printed v = v.
Proof.
  induction v as [|b|n|s|l IH|m IH] using json_induction; try done.
  - by destruct n as [[]|s| |s m e].
  - cbn [plain printed]. intros H. f_equal. rewrite <- (map_id l) at 2. apply map_ext_Forall.
    rewrite forallb_forall in H. rewrite Forall_forall in *. auto.
  - cbn [plain printed]. intros H. f_equal. rewrite <- (map_id m) at 2. apply map_ext_Forall.
    rewrite forallb_forall in H. rewrite Forall_forall in *. intros [k w] Hx. cbn [fst snd]. f_equal. by apply (IH (k, w)), (H (k, w)).
Qed.

(** C19. Printing a value, compact or indented, and parsing the text gives back
    what was printed of it: every string with its escapes, every object with its
    keys in order, and every number, to the last bit. What is printed of a value is
    the value itself unless a number in it is infinite or NaN, which is printed as
    [null], or is negative zero, which is printed as zero. *)
Theorem json_roundtrip v :
  json_ok v = true -> doubles v = true ->
  parse (to_string v) = Ok (printed v) /\ parse (to_string_pretty v) = Ok (printed v) /\
  (plain v = true -> printed v = v).
Proof.
  intros Hok Hd. apply printed_ok in Hok. apply printed_plain in Hd. unfold to_string, to_string_pretty.
  rewrite (write_printed None v), (write_printed (Some 2%nat) v). split_and!; [by apply parse_written|by apply parse_written|apply plain_printed].
Qed.

Lemma json_roundtrip_witness :
  let tenth := S754_finite false 7205759403792794 (-56) in
  let v n := Object [(lit "id", Number (f64_of_Z 42)); (lit "tags", Array [String [34; 10; 60; 195; 169]; n; Bool true]); (lit "x", Number tenth)] in
  to_string (Number tenth) = lit "0.1" /\ parse (to_string (v (Number S754_nan))) = Ok (v Null) /\
  parse (to_string_pretty (v (Number (S754_finite true 1 (-1074))))) = Ok (v (Number (S754_finite true 1 (-1074)))).
Proof.
  intros tenth v. split; [vm_compute; reflexivity|]. split.
  - exact (proj1 (json_roundtrip (v (Number S754_nan)) ltac:(vm_compute; reflexivity) ltac:(vm_compute; reflexivity))).
  - exact (proj1 (proj2 (json_roundtrip (v (Number (S754_finite true 1 (-1074)))) ltac:(vm_compute; reflexivity) ltac:(vm_compute; reflexivity)))).
Defined.

(** ** What is parsed is well formed *)

Lemma in_range_iff lo hi b : in_range lo hi b = true <-> lo <= b <= hi.
Proof. unfold in_range. lia. Qed.

Lemma announced_multi b0 :
  (194 <= b0 <= 223 -> announced b0 = Some 1%nat) /\ (224 <= b0 <= 239 -> announced b0 = Some 2%nat) /\
  (240 <= b0 <= 244 -> announced b0 = Some 3%nat).
Proof.
  unfold announced, in_range.
  repeat split; intros Hb; repeat (destruct (_ <=? _) eqn:? at 1; cbn [andb]; try lia); try done.
Qed.

Lemma second_ok_range b0 b1 :
  128 <= b1 <= 191 -> (b0 = 224 -> 160 <= b1) -> (b0 = 237 -> b1 <= 159) ->
  (b0 = 240 -> 144 <= b1) -> (b0 = 244 -> b1 <= 143) -> second_ok b0 b1 = true.
Proof.
  intros H0 H1 H2 H3 H4. unfold second_ok, is_cont.
  repeat match goal with |- context [?x =? ?y] => destruct (Z.eqb_spec x y) end;
    apply in_range_iff; lia.
Qed.

(** The UTF-8 encoding of a character is UTF-8. *)
Lemma encode_char_valid c : is_scalar c = true -> utf8_valid (encode_char c) = true.
Proof.
  unfold is_scalar. rewrite orb_true_iff, !in_range_iff. intros Hc.
  assert (H : forall l, l <> [] -> utf8_first l = Char (length l) -> utf8_valid l = true).
  { intros l Hne Hl. rewrite (utf8_valid_char _ _ Hl), drop_ge by lia. done. }
  unfold encode_char.
  destruct (Z.ltb_spec c 128); [apply utf8_valid_ascii; repeat constructor; lia|].
  destruct (Z.ltb_spec c 2048); [|destruct (Z.ltb_spec c 65536)];
    (apply H; [done|]); cbn [length utf8_first].
  - rewrite (proj1 (announced_multi _)) by (Z.to_euclidean_division_equations; lia).
    rewrite second_ok_range by (Z.to_euclidean_division_equations; lia). done.
  - rewrite (proj1 (proj2 (announced_multi _))) by (Z.to_euclidean_division_equations; lia).
    rewrite second_ok_range by (Z.to_euclidean_division_equations; lia). unfold is_cont.
    by rewrite (proj2 (in_range_iff _ _ _)) by (Z.to_euclidean_division_equations; lia).
  - rewrite (proj2 (proj2 (announced_multi _))) by (Z.to_euclidean_division_equations; lia).
    rewrite second_ok_range by (Z.to_euclidean_division_equations; lia). unfold is_cont.
    rewrite !(proj2 (in_range_iff _ _ _)) by (Z.to_euclidean_division_equations; lia). done.
Qed.

Section Typed.
Context (input : list Z).

(** An error that points into the input. *)
Definition points_into (e : JsonError) : Prop :=
  match e with
  | Syntax line column _ =>
      (1 <= line <= 1 + length (List.filter (Z.eqb 10) input))%nat /\ (1 <= column <= 1 + length input)%nat
  | Stuck => False
  end.

(** A step of the parser from [n] bytes: a result with [P] and fewer bytes
    left, or an error that points into the input. *)
Definition parsed {A} (P : A -> Prop) (n : nat) (x : result JsonError (A * list Z)) : Prop :=
  match x with
  | Ok (a, rest) => P a /\ (length rest < n)%nat
  | Err e => points_into e
  end.

Lemma error_points {A} rest message e : @error input A rest message = Err e -> points_into e.
Proof.
  intros [= <-]. set (pos := (length input - length rest)%nat). cbn [points_into]. split.
  - rewrite <- (take_drop pos input) at 3. rewrite List.filter_app, length_app. lia.
  - case_match; lia.
Qed.

Lemma error_parsed {A} (P : A -> Prop) n rest message : parsed P n (error input rest message).
Proof. unfold parsed. destruct (error _ _ _) eqn:E; [done|]. by eapply error_points. Qed.

Lemma skip_whitespace_le l : (length (skip_whitespace l) <= length l)%nat.
Proof. induction l as [|b l IH]; [done|]. cbn [skip_whitespace]. destruct (is_space b); cbn; lia. Qed.

Lemma eat_shorter b l r : eat b l = Some r -> length l = S (length r).
Proof. destruct l as [|c l]; [done|]. cbn [eat]. by destruct (c =? b); [intros [= <-]|]. Qed.

Lemma expect_parsed b rest :
  match expect input b rest with
  | Ok r => length rest = S (length r)
  | Err e => points_into e
  end.
Proof.
  unfold expect. destruct (eat b rest) as [r|] eqn:E; [by eapply eat_shorter|].
  exact (@error_points (list Z) rest _ _ eq_refl).
Qed.

Lemma literal_parsed word v rest :
  word <> [] -> json_ok v = true -> parsed (fun v => json_ok v = true) (length rest) (literal input word v rest).
Proof.
  intros Hw Hv. unfold literal. destruct (starts_with rest word) eqn:E; [|apply error_parsed].
  apply starts_with_spec in E as [r ->]. split; [done|]. rewrite length_drop, length_app.
  destruct word; [done|cbn; lia].
Qed.

Lemma take_number_len l : let '(text, rest) := take_number l in (length l = length text + length rest)%nat.
Proof.
  induction l as [|b l IH]; [done|]. cbn [take_number]. destruct (is_number_byte b); [|done].
  destruct (take_number l) as [text rest]. cbn. lia.
Qed.

Lemma number_parsed rest : parsed (fun v => json_ok v = true) (length rest) (number input rest).
Proof.
  unfold number. pose proof (take_number_len rest) as H. destruct (take_number rest) as [text after].
  destruct (parse_f64 text) as [n|] eqn:E; [|apply error_parsed]. split; [done|].
  destruct text as [|b text]; [done|cbn in H; lia].
Qed.

Lemma hex4_parsed rest : parsed (fun _ : Z => True) (length rest) (hex4 input rest).
Proof.
  unfold hex4. destruct (Nat.ltb_spec (length rest) 4); [apply error_parsed|].
  destruct (utf8_valid _); [|apply error_parsed]. destruct (from_str_radix16 _); [|apply error_parsed].
  split; [done|]. rewrite length_drop. lia.
Qed.

Lemma from_u32_parsed c rest n :
  (length rest < n)%nat -> parsed (fun s => utf8_valid s = true) n (from_u32 input c rest).
Proof.
  intros Hn. unfold from_u32. destruct (is_scalar c) eqn:E; [|apply error_parsed].
  split; [by apply encode_char_valid|done].
Qed.

Lemma unicode_parsed rest : parsed (fun s => utf8_valid s = true) (length rest) (unicode_escape input rest).
Proof.
  unfold unicode_escape. pose proof (hex4_parsed rest) as H. destruct (hex4 input rest) as [[high r1]|e]; [|done].
  destruct H as [_ H]. destruct (in_range _ _ high); [|by apply from_u32_parsed].
  destruct (eat 92 r1) as [r2|] eqn:E2; [|apply error_parsed].
  destruct (eat 117 r2) as [r3|] eqn:E3; [|apply error_parsed].
  apply eat_shorter in E2, E3. pose proof (hex4_parsed r3) as H3.
  destruct (hex4 input r3) as [[low r4]|e]; [|done]. destruct H3 as [_ H3].
  destruct (in_range _ _ low); [|apply error_parsed]. apply from_u32_parsed. lia.
Qed.

Lemma take_run_len l : let '(run, rest) := take_run l in (length l = length run + length rest)%nat.
Proof.
  induction l as [|b l IH]; [done|]. cbn [take_run]. destruct (_ || _); [done|].
  destruct (take_run l) as [run rest]. cbn. lia.
Qed.

Lemma simple_escape_ascii b c : simple_escape b = Some c -> 0 <= c <= 127.
Proof. unfold simple_escape. repeat case_match; intros [= <-]; lia. Qed.

Lemma string_loop_parsed fuel : forall out rest n,
  utf8_valid out = true -> (length rest < fuel)%nat -> (length rest <= n)%nat -> 
  parsed (fun s => utf8_valid s = true) n (string_loop input fuel out rest).
Proof.
  induction fuel as [|fuel IH]; intros out rest n Hout Hfuel Hn; [lia|]. cbn [string_loop].
  destruct rest as [|b r]; [apply error_parsed|]. cbn [length] in *.
  destruct (b =? 34) eqn:E34; [split; [done|lia]|]. destruct (b =? 92) eqn:E92.
  - destruct r as [|escape r]; [apply error_parsed|]. cbn [length] in *.
    destruct (simple_escape escape) as [c|] eqn:Es.
    + apply simple_escape_ascii in Es. apply IH; [|lia|lia]. rewrite utf8_valid_app by done.
      apply utf8_valid_ascii, Forall_cons_2; [done|constructor].
    + destruct (escape =? 117); [|apply error_parsed]. pose proof (unicode_parsed r) as H.
      destruct (unicode_escape input r) as [[c r']|e]; [|done]. destruct H as [Hc Hr].
      apply IH; [by rewrite utf8_valid_app|lia|lia].
  - pose proof (take_run_len (b :: r)) as H. cbn [take_run] in *. rewrite E34, E92 in *. cbn [orb] in *.
    destruct (take_run r) as [run rest]. cbn [length] in H.
    destruct (utf8_valid (b :: run)) eqn:Ev; [|apply error_parsed].
    apply IH; [by rewrite utf8_valid_app|lia|lia].
Qed.

Lemma string_parsed rest : parsed (fun s => utf8_valid s = true) (length rest) (string input rest).
Proof.
  unfold string. pose proof (expect_parsed 34 rest) as H. destruct (expect input 34 rest) as [r|e]; [|done].
  apply string_loop_parsed; [done|lia|lia].
Qed.

(** ** Values *)

Lemma key_lt_total a : forall b, key_lt a b = false -> a <> b -> key_lt b a = true.
Proof.
  induction a as [|x a IH]; intros [|y b]; cbn [key_lt]; try done.
  rewrite orb_false_iff, andb_false_iff, Z.ltb_ge, Z.eqb_neq. intros [H1 H2] Hne.
  rewrite orb_true_iff, andb_true_iff, Z.ltb_lt, Z.eqb_eq.
  destruct (decide (x = y)) as [->|]; [|left; lia]. right. split; [done|].
  destruct H2 as [|H2]; [done|]. apply IH; [done|congruence].
Qed.

Lemma keys_sorted_intro k v m :
  keys_sorted m = true -> Forall (fun p => key_lt k p.1 = true) m -> keys_sorted ((k, v) :: m) = true.
Proof.
  intros Hs Hm. destruct m as [|[k' v'] m]; [done|]. rewrite Forall_cons_iff in Hm. destruct Hm as [Hk _].
  cbn [fst] in Hk. change (key_lt k k' && keys_sorted ((k', v') :: m) = true). by rewrite Hk, Hs.
Qed.

Lemma insert_member_below k v m k0 :
  Forall (fun p => key_lt k0 p.1 = true) m -> key_lt k0 k = true ->
  Forall (fun p => key_lt k0 p.1 = true) (insert_member k v m).
Proof.
  intros Hm Hk. induction Hm as [|[k' v'] m Hk' Hm IH]; cbn [insert_member].
  - by apply Forall_cons_2.
  - destruct (key_lt k k'); [by repeat apply Forall_cons_2|].
    destruct (bool_decide _); [by apply Forall_cons_2|by apply Forall_cons_2].
Qed.

(** Inserting keeps an object well formed. *)
Lemma insert_member_ok k v m :
  json_ok (Object m) = true -> utf8_valid k = true -> json_ok v = true ->
  json_ok (Object (insert_member k v m)) = true.
Proof.
  cbn [json_ok]. rewrite !andb_true_iff. intros [Hs Hm] Hk Hv. revert Hs Hm.
  induction m as [|[k' v'] m IH]; cbn [insert_member forallb]; intros Hs Hm.
  { cbn [keys_sorted forallb fst snd]. by rewrite Hk, Hv. }
  apply keys_sorted_cons in Hs as Hs'. destruct Hs' as [Hs' Hbelow].
  cbn [fst snd] in *. rewrite !andb_true_iff in Hm. destruct Hm as [[Hk' Hv'] Hm].
  destruct (IH Hs' Hm) as [IH1 IH2]. destruct (key_lt k k') eqn:E.
  - split; [|cbn [forallb fst snd]; by rewrite Hk, Hv, Hk', Hv', Hm].
    apply keys_sorted_intro; [done|]. apply Forall_cons_2; [done|].
    eapply Forall_impl; [|exact Hbelow]. intros p. by apply key_lt_trans.
  - destruct (bool_decide_reflect (k = k')) as [->|Hne].
    + split; [by apply keys_sorted_intro|]. cbn [forallb fst snd]. by rewrite Hk, Hv, Hm.
    + split; [|cbn [forallb fst snd]; by rewrite Hk', Hv', IH2]. apply keys_sorted_intro; [done|].
      apply insert_member_below; [done|]. by apply key_lt_total.
Qed.

(** What the three loops promise with this much fuel. *)
Definition fueled (fuel : nat) : Prop :=
  (forall rest n, (2 * length rest < fuel)%nat -> (length rest <= n)%nat ->
    parsed (fun v => json_ok v = true) n (value input fuel rest)) /\
  (forall acc rest n, json_ok (Array acc) = true -> (2 * length rest + 1 < fuel)%nat -> (length rest <= n)%nat ->
    parsed (fun v => json_ok v = true) n (items input fuel acc rest)) /\
  (forall m rest n, json_ok (Object m) = true -> (2 * length rest + 1 < fuel)%nat -> (length rest <= n)%nat ->
    parsed (fun v => json_ok v = true) n (members input fuel m rest)).

Lemma parsed_weaken {A} (P : A -> Prop) m n x : parsed P m x -> (m <= n)%nat -> parsed P n x.
Proof. destruct x as [[a r]|e]; [|done]. intros [H1 H2] Hmn. split; [done|lia]. Qed.

Lemma items_fueled fuel acc rest n :
  fueled fuel -> json_ok (Array acc) = true -> (2 * length rest + 1 < S fuel)%nat -> (length rest <= n)%nat ->
  parsed (fun v => json_ok v = true) n (items input (S fuel) acc rest).
Proof.
  intros (IHv & IHi & _) Hacc Hfuel Hn. cbn [items]. pose proof (skip_whitespace_le rest) as Hs.
  pose proof (IHv (skip_whitespace rest) (length rest) ltac:(lia) Hs) as Hv.
  destruct (value input fuel (skip_whitespace rest)) as [[v r]|e]; [|done]. destruct Hv as [Hv Hr].
  pose proof (skip_whitespace_le r) as Hs2.
  assert (Hacc' : json_ok (Array (acc ++ [v])) = true).
  { cbn [json_ok] in *. rewrite forallb_app, Hacc. cbn. by rewrite Hv. }
  destruct (eat 44 (skip_whitespace r)) as [r'|] eqn:E; [apply eat_shorter in E; apply IHi; (done || lia)|].
  destruct (eat 93 (skip_whitespace r)) as [r'|] eqn:E2; [|apply error_parsed].
  apply eat_shorter in E2. split; [done|lia].
Qed.

Lemma members_fueled fuel m rest n :
  fueled fuel -> json_ok (Object m) = true -> (2 * length rest + 1 < S fuel)%nat -> (length rest <= n)%nat ->
  parsed (fun v => json_ok v = true) n (members input (S fuel) m rest).
Proof.
  intros (IHv & _ & IHm) Hm Hfuel Hn. cbn [members]. pose proof (skip_whitespace_le rest) as Hs.
  pose proof (string_parsed (skip_whitespace rest)) as Hk.
  destruct (string input (skip_whitespace rest)) as [[k r]|e]; [|done]. destruct Hk as [Hk Hr].
  pose proof (skip_whitespace_le r) as Hs1. pose proof (expect_parsed 58 (skip_whitespace r)) as He.
  destruct (expect input 58 (skip_whitespace r)) as [r1|e]; [|done]. pose proof (skip_whitespace_le r1) as Hs2.
  pose proof (IHv (skip_whitespace r1) (length r1) ltac:(lia) Hs2) as Hv.
  destruct (value input fuel (skip_whitespace r1)) as [[v r2]|e]; [|done]. destruct Hv as [Hv Hr2].
  pose proof (insert_member_ok k v m Hm Hk Hv) as Hm'. pose proof (skip_whitespace_le r2) as Hs3.
  destruct (eat 44 (skip_whitespace r2)) as [r'|] eqn:E; [apply eat_shorter in E; apply IHm; (done || lia)|].
  destruct (eat 125 (skip_whitespace r2)) as [r'|] eqn:E2; [|apply error_parsed].
  apply eat_shorter in E2. split; [done|lia].
Qed.

Lemma value_fueled fuel rest n :
  fueled fuel -> (2 * length rest < S fuel)%nat -> (length rest <= n)%nat ->
  parsed (fun v => json_ok v = true) n (value input (S fuel) rest).
Proof.
  intros (_ & IHi & IHm) Hfuel Hn. cbn [value]. destruct rest as [|b r]; [apply error_parsed|].
  set (rest := b :: r) in *.
  destruct (b =? 110); [eapply parsed_weaken; [by apply literal_parsed|done]|].
  destruct (b =? 116); [eapply parsed_weaken; [by apply literal_parsed|done]|].
  destruct (b =? 102); [eapply parsed_weaken; [by apply literal_parsed|done]|].
  destruct (b =? 34).
  { pose proof (string_parsed rest) as H. destruct (string input rest) as [[s r']|e]; [|done].
    destruct H as [H1 H2]. split; [done|lia]. }
  destruct (b =? 91); [|destruct (b =? 123); [|destruct (_ || _); [|apply error_parsed]]].
  - pose proof (expect_parsed 91 rest) as H. destruct (expect input 91 rest) as [r1|e]; [|done].
    pose proof (skip_whitespace_le r1) as Hs.
    destruct (eat 93 (skip_whitespace r1)) as [r2|] eqn:E; [apply eat_shorter in E; split; [done|lia]|].
    apply IHi; (done || lia).
  - pose proof (expect_parsed 123 rest) as H. destruct (expect input 123 rest) as [r1|e]; [|done].
    pose proof (skip_whitespace_le r1) as Hs.
    destruct (eat 125 (skip_whitespace r1)) as [r2|] eqn:E; [apply eat_shorter in E; split; [done|lia]|].
    apply IHm; (done || lia).
  - eapply parsed_weaken; [apply number_parsed|done].
Qed.

Lemma all_fueled fuel : fueled fuel.
Proof.
  induction fuel as [|fuel IH]; [split_and!; intros; lia|].
  split_and!; intros; [by apply value_fueled|by apply items_fueled|by apply members_fueled].
Qed.

End Typed.

(** The parser is total and typed: on any bytes it returns a value whose
    strings are UTF-8 and whose objects have their keys in order without
    repetition, or an error whose line and column point into the input. *)
Theorem parse_typed input :
  match parse input with
  | Ok v => json_ok v = true
  | Err e => points_into input e
  end.
Proof.
  unfold parse. pose proof (skip_whitespace_le input) as Hs.
  destruct (all_fueled input (S (2 * length (skip_whitespace input)))) as (Hv & _ & _).
  specialize (Hv (skip_whitespace input) (length input) ltac:(lia) Hs).
  destruct (value input _ _) as [[v r]|e]; [|done]. destruct Hv as [Hv _].
  destruct (skip_whitespace r); [done|]. exact (@error_points input Json _ _ _ eq_refl).
Qed.

(** ** Embedding in a page *)

Definition embeddable (b : Z) : Prop := b <> 60 /\ ~ (0 <= b <= 31).

Lemma embeddable_text l : forallb (fun b => (32 <=? b) && negb (b =? 60)) l = true -> Forall embeddable l.
Proof.
  intros Hl. rewrite forallb_forall in Hl. apply Forall_forall. intros x Hx. specialize (Hl x Hx).
  unfold embeddable. lia.
Qed.

Lemma escape_byte_embeddable b : Forall embeddable (escape_byte b).
Proof.
  unfold escape_byte.
  repeat match goal with |- context [if ?x =? ?y then _ else _] =>
    destruct (Z.eqb_spec x y); [apply embeddable_text; reflexivity|] end.
  destruct (Z.leb_spec 0 b), (Z.leb_spec b 31); cbn [andb];
    try (repeat constructor; unfold embeddable; lia).
  apply Forall_app. split; [apply embeddable_text; reflexivity|]. unfold hex_digit_lower.
  repeat constructor; case_match; unfold embeddable; Z.to_euclidean_division_equations; lia.
Qed.

Lemma escape_embeddable s : Forall embeddable (escape_into s).
Proof.
  assert (H34 : Forall embeddable [34]) by by apply embeddable_text.
  unfold escape_into. apply Forall_app. split; [done|]. apply Forall_app. split; [|done].
  induction s as [|b s IH]; [constructor|]. cbn [map concat]. apply Forall_app.
  split; [apply escape_byte_embeddable|done].
Qed.

Lemma join_embeddable l : Forall (Forall embeddable) l -> Forall embeddable (join [44] l).
Proof.
  intros Hl. destruct l as [|x l]; [constructor|]. rewrite join_cons_concat.
  rewrite Forall_cons_iff in Hl. destruct Hl as [Hx Hl]. apply Forall_app. split; [done|].
  induction Hl as [|y l Hy Hl IH]; [constructor|]. cbn [map concat]. apply Forall_app. split; [|done].
  apply Forall_cons_2; [unfold embeddable; lia|done].
Qed.

Lemma number_embeddable n : Forall embeddable (write_number n).
Proof.
  destruct (is_finite n) eqn:E.
  - destruct (write_number_text n E) as [H _]. eapply Forall_impl; [|exact H]. cbv beta.
    unfold is_number_byte, is_digit, in_range, embeddable. intros b Hb. lia.
  - unfold write_number. rewrite E. by apply embeddable_text.
Qed.

(** Compact JSON can be written inside a script element: whatever the
    strings and keys contain, no byte of it is [<] and none is a control
    character, so it cannot close the element and stays on one line. *)
Theorem json_embeds_safely v : Forall (fun b => b <> 60 /\ ~ (0 <= b <= 31)) (to_string v).
Proof.
  change (Forall embeddable (write None v 0)). generalize 0%nat as depth.
  induction v as [|b|n|s|l IH|m IH] using json_induction; intros depth.
  - by apply embeddable_text.
  - destruct b; by apply embeddable_text.
  - apply number_embeddable.
  - apply escape_embeddable.
  - destruct l as [|x l]; [by apply embeddable_text|]. cbn [write].
    apply Forall_app. split; [by apply embeddable_text|]. apply Forall_app. split; [|by apply embeddable_text].
    apply join_embeddable, Forall_map. eapply Forall_impl; [|exact IH]. cbn [newline pad app]. auto.
  - destruct m as [|x m]; [by apply embeddable_text|]. cbn [write].
    apply Forall_app. split; [by apply embeddable_text|]. apply Forall_app. split; [|by apply embeddable_text].
    apply join_embeddable, Forall_map. eapply Forall_impl; [|exact IH]. cbn [newline pad colon app]. intros p Hp.
    apply Forall_app. split; [apply escape_embeddable|]. apply Forall_cons_2; [unfold embeddable; lia|apply Hp].
Qed.

End JsonText.
