(* ===== verification/Jobs.v ===== *)
(** * Queued jobs ([rustlavel-queue/src/job.rs], [chain.rs])

    The envelope a job is stored in, chains of jobs, and the JSON they travel
    in. A [Duration] is a number of nanoseconds. *)

From S2P Require Import Prelude Text F64 Json JsonText.

Module Jobs.
Import Json JsonText.

(** ** Durations *)

Definition Duration := Z.
Definition from_secs (s : Z) : Duration := s * 10 ^ 9.
Definition as_secs (d : Duration) : Z := d / 10 ^ 9.
Definition duration_max : Duration := (2 ^ 64 - 1) * 10 ^ 9 + 999999999.
Definition saturating_mul (d : Duration) (factor : Z) : Duration := Z.min (d * factor) duration_max.

(** ** Envelopes *)

Definition DEFAULT_QUEUE : list Z := lit "default".
Definition DEFAULT_TRIES : Z := 3.
Definition DEFAULT_RETRY_AFTER : Duration := from_secs 60.

Inductive QueuedJob := Queued {
  name : list Z;
  payload : Json;
  queue : list Z;
  max_tries : Z;
  retry_after : Duration;
  delay : Duration;
  chain : option (list Z);
  then_ : list QueuedJob;
}.

Definition new_job (name : list Z) (payload : Json) : QueuedJob :=
  {| name := name; payload := payload; queue := DEFAULT_QUEUE; max_tries := DEFAULT_TRIES;
     retry_after := DEFAULT_RETRY_AFTER; delay := 0; chain := None; then_ := [] |}.

Definition on_queue (j : QueuedJob) (q : list Z) : QueuedJob :=
  Queued (name j) (payload j) q (max_tries j) (retry_after j) (delay j) (chain j) (then_ j).
Definition with_delay (j : QueuedJob) (d : Duration) : QueuedJob :=
  Queued (name j) (payload j) (queue j) (max_tries j) (retry_after j) d (chain j) (then_ j).
Definition with_tries (j : QueuedJob) (tries : Z) : QueuedJob :=
  Queued (name j) (payload j) (queue j) (Z.max tries 1) (retry_after j) (delay j) (chain j) (then_ j).
Definition with_retry_after (j : QueuedJob) (d : Duration) : QueuedJob :=
  Queued (name j) (payload j) (queue j) (max_tries j) d (delay j) (chain j) (then_ j).
Definition with_chain (j : QueuedJob) (c : option (list Z)) (steps : list QueuedJob) : QueuedJob :=
  Queued (name j) (payload j) (queue j) (max_tries j) (retry_after j) (delay j) c steps.
Definition with_payload (j : QueuedJob) (p : Json) : QueuedJob :=
  Queued (name j) p (queue j) (max_tries j) (retry_after j) (delay j) (chain j) (then_ j).

(** The part of the [Job] trait that [to_queued] reads. *)
Record Job := {
  job_name : list Z;
  job_payload : Json;
  job_tries : Z;
  job_retry_after : Duration;
  job_queue : list Z;
}.

Definition to_queued (j : Job) : QueuedJob :=
  {| name := job_name j; payload := job_payload j; queue := job_queue j; max_tries := Z.max (job_tries j) 1;
     retry_after := job_retry_after j; delay := 0; chain := None; then_ := [] |}.

(** ** JSON *)

Definition object (pairs : list (list Z * Json)) : Json := Object (object_of pairs).

(** An [i64] from a [u64]: the cast wraps. *)
Definition to_i64 (z : Z) : Z := if z mod 2 ^ 64 <? 2 ^ 63 then z mod 2 ^ 64 else z mod 2 ^ 64 - 2 ^ 64.

Fixpoint to_json (j : QueuedJob) : Json :=
  object [(lit "name", String (name j)); (lit "payload", payload j); (lit "queue", String (queue j));
          (lit "max_tries", from_int (max_tries j));
          (lit "retry_after", from_int (to_i64 (as_secs (retry_after j))));
          (lit "delay", from_int (to_i64 (as_secs (delay j))));
          (lit "then", Array (map to_json (then_ j)))].

(** [filter_map]. *)
Definition filter_map {A B} (f : A -> option B) (l : list A) : list B :=
  flat_map (fun x => match f x with Some y => [y] | None => [] end) l.

(** The recursion follows the nesting of the JSON; each step is one member
    deeper. *)
Fixpoint from_json (fuel : nat) (json : Json) : option QueuedJob :=
  match fuel with
  | O => None
  | S fuel =>
      let! name_ := (let! v := get json (lit "name") in as_str v) in
      Some {|
        name := name_;
        payload := default Null (get json (lit "payload"));
        queue := default DEFAULT_QUEUE (let! v := get json (lit "queue") in as_str v);
        max_tries := u32 (Z.max (default DEFAULT_TRIES (let! v := get json (lit "max_tries") in as_i64 v)) 1);
        retry_after := from_secs (Z.max (default 60 (let! v := get json (lit "retry_after") in as_i64 v)) 0);
        delay := from_secs (Z.max (default 0 (let! v := get json (lit "delay") in as_i64 v)) 0);
        chain := None;
        then_ := match (let! v := get json (lit "then") in as_array v) with
                 | Some steps => filter_map (from_json fuel) steps
                 | None => []
                 end |}
  end.

(** How deep a value is nested. *)
Fixpoint json_depth (v : Json) : nat :=
  match v with
  | Array l => S (fold_right (fun x d => Nat.max (json_depth x) d) 0%nat l)
  | Object m => S (fold_right (fun p d => Nat.max (json_depth p.2) d) 0%nat m)
  | _ => 1
  end.

Definition job_from_json (json : Json) : option QueuedJob := from_json (json_depth json) json.

Definition stored_payload (j : QueuedJob) : Json :=
  if bool_decide (chain j = None) && (length (then_ j) =? 0)%nat then payload j
  else object [(lit "$payload", payload j);
               (lit "$chain", match chain j with Some c => String c | None => Null end);
               (lit "$then", Array (map to_json (then_ j)))].

Definition with_stored_payload (j : QueuedJob) (stored : Json) : QueuedJob :=
  match get stored (lit "$payload"), get stored (lit "$then") with
  | Some p, Some t =>
      Queued (name j) p (queue j) (max_tries j) (retry_after j) (delay j)
        (let! v := get stored (lit "$chain") in as_str v)
        (match as_array t with Some steps => filter_map job_from_json steps | None => [] end)
  | _, _ => with_payload j stored
  end.

(** ** Chains *)

Record Chain := { chain_id : list Z; steps : list QueuedJob }.

Definition chain_named (c : Chain) (id : list Z) : Chain := {| chain_id := id; steps := steps c |}.
Definition then_queued (c : Chain) (next : QueuedJob) : Chain :=
  {| chain_id := chain_id c; steps := steps c ++ [next] |}.

(** [steps.remove(0)] panics on an empty chain. *)
Definition into_queued (c : Chain) : option QueuedJob :=
  match steps c with
  | [] => None
  | first :: rest => Some (with_chain first (Some (chain_id c)) rest)
  end.

Definition next_in_chain (j : QueuedJob) : option QueuedJob :=
  match then_ j with
  | [] => None
  | next :: rest => Some (with_chain next (chain j) rest)
  end.

(** ** Reserved and failed jobs *)

Record ReservedJob := { r_id : list Z; r_job : QueuedJob; r_attempts : Z }.

Definition is_last_attempt (r : ReservedJob) : bool := max_tries (r_job r) <=? r_attempts r.

Record FailedJob := {
  f_id : list Z; f_name : list Z; f_queue : list Z; f_payload : Json; f_attempts : Z; f_error : list Z;
  failed_at : Z;
}.

Definition failed_to_json (f : FailedJob) : Json :=
  object [(lit "id", String (f_id f)); (lit "name", String (f_name f)); (lit "queue", String (f_queue f));
          (lit "payload", f_payload f); (lit "attempts", from_int (f_attempts f));
          (lit "error", String (f_error f)); (lit "failed_at", from_int (failed_at f))].

Example envelope_runs :
  let step := with_retry_after (with_tries (new_job (lit "b") Null) 5) (from_secs 7) in
  let j := with_chain (new_job (lit "a") (Bool true)) (Some (lit "c1")) [step] in
  with_stored_payload (new_job (lit "a") Null) (stored_payload j) = j /\
  (next_in_chain j) = Some (with_chain step (Some (lit "c1")) []).
Proof. split; vm_compute; reflexivity. Qed.

(** ** Envelopes survive storage *)

Lemma job_induction (P : QueuedJob -> Prop) :
  (forall j, Forall P (then_ j) -> P j) -> forall j, P j.
Proof.
  intros H. fix IH 1. intros [n p q m r d c t]. apply H. cbn [then_].
  induction t as [|x t IHt]; constructor; [apply IH|exact IHt].
Qed.

(** Whole seconds, as the JSON keeps them. *)
Definition whole (d : Duration) : Prop := exists s, d = from_secs s /\ 0 <= s < 2 ^ 53.

(** A step that JSON can represent. *)
Fixpoint step_ok (j : QueuedJob) : Prop :=
  1 <= max_tries j < 2 ^ 32 /\ whole (retry_after j) /\ whole (delay j) /\ chain j = None /\
  fold_right (fun s P => step_ok s /\ P) True (then_ j).

Lemma step_ok_all l : fold_right (fun s P => step_ok s /\ P) True l <-> Forall step_ok l.
Proof.
  induction l as [|x l IH]; cbn [fold_right]; [by split|]. by rewrite IH, Forall_cons_iff.
Qed.

Lemma whole_back d : whole d -> from_secs (Z.max (to_i64 (as_secs d)) 0) = d /\ - 2 ^ 53 < to_i64 (as_secs d) < 2 ^ 53.
Proof.
  intros (s & -> & Hs). unfold as_secs, from_secs. rewrite Z.div_mul by lia. unfold to_i64.
  rewrite Z.mod_small by lia. rewrite (proj2 (Z.ltb_lt _ _)) by lia. rewrite Z.max_l by lia. lia.
Qed.

Lemma to_json_eq j :
  to_json j = Object
    [(lit "delay", from_int (to_i64 (as_secs (delay j)))); (lit "max_tries", from_int (max_tries j));
     (lit "name", String (name j)); (lit "payload", payload j); (lit "queue", String (queue j));
     (lit "retry_after", from_int (to_i64 (as_secs (retry_after j)))); (lit "then", Array (map to_json (then_ j)))].
Proof. by destruct j. Qed.

Lemma depth_in l x : In x l -> (json_depth x <= fold_right (fun x d => Nat.max (json_depth x) d) 0 l)%nat.
Proof.
  induction l as [|y l IH]; [done|]. intros [->|Hx]; cbn [fold_right]; [lia|]. specialize (IH Hx). lia.
Qed.

Lemma step_depth j s : In s (then_ j) -> (json_depth (to_json s) + 2 <= json_depth (to_json j))%nat.
Proof.
  intros Hs. rewrite (to_json_eq j). pose proof (depth_in (map to_json (then_ j)) (to_json s) (in_map _ _ _ Hs)).
  cbn [json_depth fold_right snd]. lia.
Qed.

Lemma filter_map_all {A B} (f : B -> A) (g : A -> option B) l :
  Forall (fun x => g (f x) = Some x) l -> filter_map g (map f l) = l.
Proof. induction 1 as [|x l Hx Hl IH]; [done|]. cbn. rewrite Hx. cbn. by f_equal. Qed.

Lemma from_json_S fuel j :
  from_json (S fuel) (to_json j) = Some (Queued (name j) (payload j) (queue j)
    (u32 (Z.max (f64_to_int i64_min i64_max (f64_of_Z (max_tries j))) 1))
    (from_secs (Z.max (f64_to_int i64_min i64_max (f64_of_Z (to_i64 (as_secs (retry_after j))))) 0))
    (from_secs (Z.max (f64_to_int i64_min i64_max (f64_of_Z (to_i64 (as_secs (delay j))))) 0))
    None (filter_map (from_json fuel) (map to_json (then_ j)))).
Proof. rewrite to_json_eq. reflexivity. Qed.

Lemma f64_back n : - 2 ^ 53 < n < 2 ^ 53 -> f64_to_int i64_min i64_max (f64_of_Z n) = n.
Proof. intros Hn. apply f64_int_roundtrip; unfold i64_min, i64_max; lia. Qed.

Lemma from_to_json j : forall fuel,
  step_ok j -> (json_depth (to_json j) <= fuel)%nat -> from_json fuel (to_json j) = Some j.
Proof.
  induction j as [j IH] using job_induction. intros fuel Hj Hfuel.
  destruct fuel as [|fuel]; [rewrite to_json_eq in Hfuel; cbn in Hfuel; lia|].
  rewrite from_json_S. destruct j as [n p q m r d c t]. cbn [step_ok] in Hj.
  destruct Hj as (Hm & Hr & Hd & Hc & Ht). cbn [name payload queue max_tries retry_after delay chain then_] in *.
  apply step_ok_all in Ht. destruct (whole_back r Hr) as [Er Hr']. destruct (whole_back d Hd) as [Ed Hd'].
  rewrite !f64_back, Er, Ed, Z.max_l, wrap_small by lia. rewrite Hc. do 2 f_equal.
  apply filter_map_all. apply Forall_forall. intros s Hs. rewrite Forall_forall in IH, Ht.
  pose proof (step_depth (Queued n p q m r d c t) s Hs). apply IH; [done|by apply Ht|lia].
Qed.

(** A payload that is not taken for an envelope. *)
Definition plain_payload (p : Json) : Prop := get p (lit "$payload") = None \/ get p (lit "$then") = None.

(** A job, its chain and every remaining step survive storage: unfolding the
    stored payload onto the row's other columns gives the job back, for jobs
    whose steps use whole seconds and whose own payload is not shaped like an
    envelope. *)
Theorem stored_payload_roundtrip j row :
  Forall step_ok (then_ j) -> (chain j = None -> then_ j = [] -> plain_payload (payload j)) ->
  row = with_chain (with_payload j Null) None [] ->
  with_stored_payload row (stored_payload j) = j.
Proof.
  intros Ht Hp ->. destruct j as [n p q m r d c t]. unfold stored_payload.
  cbn [name payload queue max_tries retry_after delay chain then_ with_chain with_payload] in *.
  assert (Henv : with_stored_payload (Queued n Null q m r d None [])
    (object [(lit "$payload", p); (lit "$chain", match c with Some c => String c | None => Null end);
             (lit "$then", Array (map to_json t))]) = Queued n p q m r d c t).
  { transitivity (Queued n p q m r d c (filter_map job_from_json (map to_json t))); [by destruct c|].
    f_equal. apply filter_map_all. eapply Forall_impl; [|exact Ht]. intros s Hs. by apply from_to_json. }
  destruct (bool_decide_reflect (c = None)) as [->|Hc]; cbn [andb]; [|exact Henv].
  destruct t; cbn [length Nat.eqb]; [|exact Henv].
  specialize (Hp eq_refl eq_refl). unfold with_stored_payload. destruct Hp as [Hp|Hp]; rewrite Hp; [done|].
  by destruct (get p (lit "$payload")).
Qed.

Lemma stored_payload_roundtrip_witness :
  let step := with_delay (new_job (lit "encode") (Bool true)) (from_secs 5) in
  let j := with_chain (new_job (lit "cut") Null) (Some (lit "video-7")) [step; step] in
  with_stored_payload (with_chain (with_payload j Null) None []) (stored_payload j) = j.
Proof.
  intros step j. apply (stored_payload_roundtrip j); [|done|reflexivity].
  assert (Hs : step_ok step) by (cbn; split_and!; try lia; (by exists 60) || (by exists 5) || done).
  by repeat apply Forall_cons_2; [| |constructor].
Defined.

(** A payload with the two reserved members of its own is taken for an
    envelope, and most of it is lost. *)
Example reserved_keys_collide :
  let p := object [(lit "$payload", Bool true); (lit "$then", Null); (lit "amount", Number (f64_of_Z 5))] in
  let j := new_job (lit "refund") p in
  payload (with_stored_payload (with_payload j Null) (stored_payload j)) = Bool true.
Proof. vm_compute. reflexivity. Qed.

End Jobs.
