(* ===== verification/Queue.v ===== *)
(** * Queue drivers ([rustlavel-queue/src/queue.rs], [memory.rs], [progress.rs])

    The [Queue] trait as a class with what a driver promises its workers, the
    in-memory driver, and the store of progress reports. The clock is an
    argument: every call says at which second it happens. *)

From S2P Require Import Prelude Text F64 Json JsonText Jobs.

Module Queue.
Import Json JsonText Jobs.

(** ** The trait *)

(** A job waiting on a queue. *)
Record Entry := { e_id : list Z; e_job : QueuedJob; e_attempts : Z; available_at : Z }.

(** [unix_now() + delay.as_secs() as i64]; exact below 2^62 seconds. *)
Definition due (now : Z) (d : Duration) : Z := now + as_secs d.

Definition ready_at (now : Z) (e : Entry) : bool := available_at e <=? now.

Definition reserve (e : Entry) : ReservedJob :=
  {| r_id := e_id e; r_job := e_job e; r_attempts := e_attempts e + 1 |}.

(** A driver's operations: an error is a message, and the state is the one the
    call leaves behind. *)
Class Queue (Q : Type) := {
  driver : list Z;
  push : Z -> QueuedJob -> Q -> result (list Z) (list Z) * Q;
  pop : Z -> list Z -> Q -> result (list Z) (option ReservedJob) * Q;
  size : list Z -> Q -> result (list Z) Z;
  delete : ReservedJob -> Q -> result (list Z) unit * Q;
  release : Z -> ReservedJob -> Duration -> Q -> result (list Z) unit * Q;
  fail : Z -> ReservedJob -> list Z -> Q -> result (list Z) unit * Q;
  failed_jobs : Q -> result (list Z) (list FailedJob);
  clear : list Z -> Q -> result (list Z) Z * Q;
}.

Definition push_on {Q} `{Queue Q} (now : Z) (name : list Z) (j : QueuedJob) (q : Q) :=
  push now (on_queue j name) q.
Definition later {Q} `{Queue Q} (now : Z) (d : Duration) (j : QueuedJob) (q : Q) :=
  push now (with_delay j d) q.
Definition dispatch {Q} `{Queue Q} (now : Z) (j : Job) (q : Q) := push now (to_queued j) q.
Definition dispatch_on {Q} `{Queue Q} (now : Z) (name : list Z) (j : Job) (q : Q) := push_on now name (to_queued j) q.
Definition dispatch_later {Q} `{Queue Q} (now : Z) (d : Duration) (j : Job) (q : Q) := later now d (to_queued j) q.
Definition dispatch_chain {Q} `{Queue Q} (now : Z) (c : Chain) (q : Q) : result (list Z) (list Z) * Q :=
  match into_queued c with
  | Some j => push now j q
  | None => (Err (lit "a chain needs at least one step"), q)
  end.

(** The dead letter of a reserved job. *)
Definition bury (now : Z) (r : ReservedJob) (error : list Z) : FailedJob :=
  {| f_id := r_id r; f_name := name (r_job r); f_queue := queue (r_job r); f_payload := stored_payload (r_job r);
     f_attempts := r_attempts r; f_error := error; failed_at := now |}.

(** What is on a queue after a job is added to one. *)
Definition added (before : list Z -> list Entry) (on : list Z) (e : Entry) (name : list Z) : list Entry :=
  if bool_decide (name = on) then before name ++ [e] else before name.

(** What a driver promises: a view of what waits on each queue, oldest first,
    and of the dead letters, and how each operation that succeeds changes it;
    one that fails changes nothing. *)
Class LawfulQueue (Q : Type) `{Queue Q} := {
  waiting : Q -> list Z -> list Entry;
  buried : Q -> list FailedJob;
  push_law now j q :
    match push now j q with
    | (Ok id, q') =>
        (forall n, waiting q' n = added (waiting q) (queue j)
          {| e_id := id; e_job := j; e_attempts := 0; available_at := due now (delay j) |} n) /\
        buried q' = buried q
    | (Err _, q') => (forall n, waiting q' n = waiting q n) /\ buried q' = buried q
    end;
  pop_law now name q :
    match pop now name q with
    | (Ok (Some r), q') => exists skipped e rest,
        waiting q name = skipped ++ e :: rest /\ Forall (fun e => ready_at now e = false) skipped /\
        ready_at now e = true /\ r = reserve e /\
        (forall n, waiting q' n = if bool_decide (n = name) then skipped ++ rest else waiting q n) /\
        buried q' = buried q
    | (Ok None, q') =>
        Forall (fun e => ready_at now e = false) (waiting q name) /\
        (forall n, waiting q' n = waiting q n) /\ buried q' = buried q
    | (Err _, q') => (forall n, waiting q' n = waiting q n) /\ buried q' = buried q
    end;
  delete_law r q :
    let q' := (delete r q).2 in (forall n, waiting q' n = waiting q n) /\ buried q' = buried q;
  release_law now r d q :
    match release now r d q with
    | (Ok _, q') =>
        (forall n, waiting q' n = added (waiting q) (queue (r_job r))
          {| e_id := r_id r; e_job := r_job r; e_attempts := r_attempts r; available_at := due now d |} n) /\
        buried q' = buried q
    | (Err _, q') => (forall n, waiting q' n = waiting q n) /\ buried q' = buried q
    end;
  fail_law now r error q :
    match fail now r error q with
    | (Ok _, q') => (forall n, waiting q' n = waiting q n) /\ buried q' = buried q ++ [bury now r error]
    | (Err _, q') => (forall n, waiting q' n = waiting q n) /\ buried q' = buried q
    end;
}.

(** A driver that cannot be unreachable. *)
Class ReliableQueue (Q : Type) `{Queue Q} := {
  push_ok now j q : exists id q', push now j q = (Ok id, q');
  pop_ok now name q : exists r q', pop now name q = (Ok r, q');
  delete_ok r q : exists q', delete r q = (Ok tt, q');
  release_ok now r d q : exists q', release now r d q = (Ok tt, q');
  fail_ok now r error q : exists q', fail now r error q = (Ok tt, q');
}.

(** ** The in-memory driver *)

Record MemoryQueue := { ready : gmap (list Z) (list Entry); failed : list FailedJob; next_id : Z }.

Definition new_queue : MemoryQueue := {| ready := ∅; failed := []; next_id := 1 |}.

(** [ready.entry(queue).or_default().push(entry)]. *)
Definition append (name : list Z) (e : Entry) (q : MemoryQueue) : MemoryQueue :=
  {| ready := <[name := default [] (ready q !! name) ++ [e]]> (ready q); failed := failed q; next_id := next_id q |}.

Definition mem_push (now : Z) (j : QueuedJob) (q : MemoryQueue) : result (list Z) (list Z) * MemoryQueue :=
  let id := dec (next_id q) in
  let q := {| ready := ready q; failed := failed q; next_id := u64 (next_id q + 1) |} in
  let e := {| e_id := id; e_job := j; e_attempts := 0; available_at := due now (delay j) |} in
  (Ok id, append (queue j) e q).

(** [position(|entry| entry.available_at <= now)], with the entries around it. *)
Fixpoint first_ready (now : Z) (entries : list Entry) : option (list Entry * Entry * list Entry) :=
  match entries with
  | [] => None
  | e :: rest =>
      if ready_at now e then Some ([], e, rest)
      else let! (skipped, x, rest) := first_ready now rest in Some (e :: skipped, x, rest)
  end.

Definition mem_pop (now : Z) (name : list Z) (q : MemoryQueue)
    : result (list Z) (option ReservedJob) * MemoryQueue :=
  match ready q !! name with
  | None => (Ok None, q)
  | Some entries =>
      match first_ready now entries with
      | None => (Ok None, q)
      | Some (skipped, e, rest) =>
          (Ok (Some (reserve e)),
           {| ready := <[name := skipped ++ rest]> (ready q); failed := failed q; next_id := next_id q |})
      end
  end.

Definition mem_size (name : list Z) (q : MemoryQueue) : result (list Z) Z :=
  Ok (Z.of_nat (length (default [] (ready q !! name)))).

Definition mem_release (now : Z) (r : ReservedJob) (d : Duration) (q : MemoryQueue)
    : result (list Z) unit * MemoryQueue :=
  (Ok tt, append (queue (r_job r)) {| e_id := r_id r; e_job := r_job r; e_attempts := r_attempts r;
                                      available_at := due now d |} q).

Definition mem_fail (now : Z) (r : ReservedJob) (error : list Z) (q : MemoryQueue)
    : result (list Z) unit * MemoryQueue :=
  (Ok tt, {| ready := ready q; failed := failed q ++ [bury now r error]; next_id := next_id q |}).

Definition mem_clear (name : list Z) (q : MemoryQueue) : result (list Z) Z * MemoryQueue :=
  (Ok (Z.of_nat (length (default [] (ready q !! name)))),
   {| ready := base.delete name (ready q); failed := failed q; next_id := next_id q |}).

#[export] Instance MemoryQueue_Queue : Queue MemoryQueue := {
  driver := lit "memory";
  push := mem_push;
  pop := mem_pop;
  size := mem_size;
  delete r q := (Ok tt, q);
  release := mem_release;
  fail := mem_fail;
  failed_jobs q := Ok (failed q);
  clear := mem_clear;
}.

Definition ready_size (now : Z) (name : list Z) (q : MemoryQueue) : result (list Z) Z :=
  Ok (Z.of_nat (length (List.filter (ready_at now) (default [] (ready q !! name))))).

Definition flush_failed (q : MemoryQueue) : result (list Z) Z * MemoryQueue :=
  (Ok (Z.of_nat (length (failed q))), {| ready := ready q; failed := []; next_id := next_id q |}).

(** ** The driver keeps the trait's promises *)

Lemma first_ready_spec now entries :
  match first_ready now entries with
  | None => Forall (fun e => ready_at now e = false) entries
  | Some (skipped, e, rest) =>
      entries = skipped ++ e :: rest /\ Forall (fun e => ready_at now e = false) skipped /\ ready_at now e = true
  end.
Proof.
  induction entries as [|e entries IH]; [constructor|]. cbn [first_ready].
  destruct (ready_at now e) eqn:E; [by split_and!|].
  destruct (first_ready now entries) as [[[skipped x] rest]|]; [|by apply Forall_cons_2].
  destruct IH as (-> & H1 & H2). split_and!; [done|by apply Forall_cons_2|done].
Qed.

Definition mem_waiting (q : MemoryQueue) (name : list Z) : list Entry := default [] (ready q !! name).

Lemma append_waiting name e q n :
  mem_waiting (append name e q) n = added (mem_waiting q) name e n.
Proof.
  unfold mem_waiting, added, append. cbn [ready]. case_bool_decide as E.
  - subst. by rewrite lookup_insert_eq.
  - by rewrite lookup_insert_ne by done.
Qed.

#[export] Instance MemoryQueue_Lawful : LawfulQueue MemoryQueue.
Proof.
  refine {| waiting := mem_waiting; buried := failed |}.
  - intros now j q. cbn. split; [|done]. intros n. by rewrite append_waiting.
  - intros now name q. cbn. unfold mem_pop, mem_waiting.
    destruct (ready q !! name) as [entries|] eqn:E; [|by split_and!].
    pose proof (first_ready_spec now entries) as H.
    destruct (first_ready now entries) as [[[skipped e] rest]|]; [|by split_and!].
    destruct H as (-> & H1 & H2). exists skipped, e, rest. cbn [default]. split_and!; try done.
    intros n. cbn [ready]. case_bool_decide as En; [subst; by rewrite lookup_insert_eq|].
    by rewrite lookup_insert_ne by done.
  - done.
  - intros now r d q. cbn. split; [|done]. intros n. by rewrite append_waiting.
  - done.
Defined.

#[export] Instance MemoryQueue_Reliable : ReliableQueue MemoryQueue.
Proof.
  split; intros; cbn; try by eexists.
  - by eexists _, _.
  - unfold mem_pop. destruct (ready q !! _) as [es|]; [|by eexists _, _].
    destruct (first_ready now es) as [[[? ?] ?]|]; by eexists _, _.
Qed.

End Queue.
