(* ===== verification/Worker.v ===== *)
(** * Queue workers ([rustlavel-queue/src/worker.rs], [progress.rs], [job.rs])

    Progress reports, the registry of handlers, and the worker that reserves a
    job, runs its handler and settles its fate. A handler is the application's
    own code: any function from the moment, the payload and the context to the
    reports it makes and the way it ends. *)

From S2P Require Import Prelude Text F64 Json JsonText Jobs Queue.

Module Progress.
Import Json Jobs.

Record Progress := {
  percent : Z;
  stage : list Z;
  updated_at : Z;
  finished : bool;
  p_failed : option (list Z);
}.

Definition progress_to_json (p : Progress) : Json :=
  object [(lit "percent", from_int (percent p)); (lit "stage", String (stage p));
          (lit "updated_at", from_int (to_i64 (updated_at p))); (lit "finished", Bool (finished p));
          (lit "failed", match p_failed p with Some e => String e | None => Null end)].

(** [MemoryProgress], the store of the process itself. *)
Definition ProgressStore := gmap (list Z) Progress.

Definition set (key : list Z) (p : Progress) (s : ProgressStore) : ProgressStore := <[key := p]> s.
Definition get (key : list Z) (s : ProgressStore) : option Progress := s !! key.
Definition purge (before : Z) (s : ProgressStore) : nat * ProgressStore :=
  let kept := filter (fun kv => before <= updated_at kv.2) s in (base.size s - base.size kept, kept)%nat.

Record JobContext := { ctx_id : list Z; ctx_chain : option (list Z) }.

Definition chain_key (chain : list Z) : list Z := lit "chain:" ++ chain.

Definition keys (c : JobContext) : list (list Z) :=
  ctx_id c :: match ctx_chain c with Some chain => [chain_key chain] | None => [] end.

(** [JobContext::progress]: under the job's key and under its chain's. *)
Definition report (c : JobContext) (now : Z) (store : option ProgressStore) (r : Z * list Z)
    : option ProgressStore :=
  match store with
  | None => None
  | Some s =>
      let p := {| percent := Z.min r.1 100; stage := r.2; updated_at := Z.max now 0; finished := false;
                  p_failed := None |} in
      Some (fold_left (fun s key => set key p s) (keys c) s)
  end.

End Progress.

Module Worker.
Import Json JsonText Jobs Queue Progress.

(** ** Handlers *)

Inductive Ending :=
  | Returned
  | ReturnedErr (message : list Z)
  | Panicked (location : option (list Z * Z * Z)) (message : list Z).

Record HandlerRun := { reports : list (Z * list Z); ending : Ending }.

Definition Handler := Z -> Json -> JobContext -> HandlerRun.
Definition JobRegistry := gmap (list Z) Handler.

Definition register_fn_with (name : list Z) (h : Handler) (r : JobRegistry) : JobRegistry := <[name := h]> r.

Fixpoint insert_name (n : list Z) (l : list (list Z)) : list (list Z) :=
  match l with
  | [] => [n]
  | m :: r => if key_lt m n then m :: insert_name n r else n :: l
  end.
(** Every registered name, sorted. *)
Definition names (r : JobRegistry) : list (list Z) := fold_right insert_name [] (map_to_list r).*1.

Definition run_with (r : JobRegistry) (name : list Z) (now : Z) (payload : Json) (ctx : JobContext) : HandlerRun :=
  match r !! name with
  | Some handler => handler now payload ctx
  | None =>
      {| reports := [];
         ending := ReturnedErr (lit "no handler is registered for the job `" ++ name ++
           lit "`. Add `registry.register::<" ++ name ++ lit ">()` at boot. Registered: " ++
           (if bool_decide (r = ∅) then lit "nothing yet" else join (lit ", ") (names r))) |}
  end.

(** [run_handler]: every way to go wrong becomes one error. *)
Definition outcome_of (e : Ending) : result (list Z) unit :=
  match e with
  | Returned => Ok tt
  | ReturnedErr message => Err message
  | Panicked location message =>
      let at_ := match location with
                 | Some (file, line, column) =>
                     lit " at " ++ file ++ lit ":" ++ dec line ++ lit ":" ++ dec column
                 | None => []
                 end in
      Err (lit "the job panicked" ++ at_ ++ lit ": " ++ message)
  end.

Definition context_of (r : ReservedJob) : JobContext := {| ctx_id := r_id r; ctx_chain := chain (r_job r) |}.

Definition run_handler (reg : JobRegistry) (now : Z) (r : ReservedJob) (store : option ProgressStore)
    : result (list Z) unit * option ProgressStore :=
  let ctx := context_of r in
  let run := run_with reg (name (r_job r)) now (payload (r_job r)) ctx in
  (outcome_of (ending run), fold_left (report ctx now) (reports run) store).

(** ** Backoff *)

Definition DEFAULT_POLL_INTERVAL : Duration := 500 * 10 ^ 6.
Definition DEFAULT_BACKOFF_CAP : Duration := from_secs 3600.
Definition MAX_QUEUE_ERROR_BACKOFF : Duration := from_secs 30.

Definition backoff (retry_after : Duration) (attempts : Z) (cap : Duration) : Duration :=
  let doublings := Z.min (Z.max (attempts - 1) 0) 20 in
  let factor := u32 (Z.shiftl 1 doublings) in
  Z.min (saturating_mul retry_after factor) cap.

(** ** The worker *)

Inductive Outcome := Processed | Released | Failed.

Record WorkerStats := { processed : Z; released : Z; s_failed : Z }.
Definition no_stats : WorkerStats := {| processed := 0; released := 0; s_failed := 0 |}.
Definition attempts (s : WorkerStats) : Z := processed s + released s + s_failed s.
Definition record_outcome (s : WorkerStats) (o : Outcome) : WorkerStats :=
  match o with
  | Processed => {| processed := processed s + 1; released := released s; s_failed := s_failed s |}
  | Released => {| processed := processed s; released := released s + 1; s_failed := s_failed s |}
  | Failed => {| processed := processed s; released := released s; s_failed := s_failed s + 1 |}
  end.
Definition merge_stats (s t : WorkerStats) : WorkerStats :=
  {| processed := processed s + processed t; released := released s + released t;
     s_failed := s_failed s + s_failed t |}.

Record WorkerOptions := {
  o_queue : list Z;
  poll_interval : Duration;
  max_jobs : option Z;
  backoff_cap : Duration;
}.
Definition default_options : WorkerOptions :=
  {| o_queue := DEFAULT_QUEUE; poll_interval := DEFAULT_POLL_INTERVAL; max_jobs := None;
     backoff_cap := DEFAULT_BACKOFF_CAP |}.

Section Worker.
Context {Q : Type} `{Queue Q} (reg : JobRegistry) (o : WorkerOptions).

(** The queue and the store the worker reports to, when there is one. *)
Definition World : Type := Q * option ProgressStore.

Definition close_progress (now : Z) (r : ReservedJob) (failure : option (list Z)) (store : option ProgressStore)
    : option ProgressStore :=
  match store with
  | None => None
  | Some s =>
      let last := Progress.get (r_id r) s in
      let closed := {|
        percent := match failure with None => 100 | Some _ => match last with Some p => percent p | None => 0 end end;
        stage := match failure with
                 | None => lit "finished"
                 | Some _ => match last with Some p => stage p | None => lit "failed" end
                 end;
        updated_at := Z.max now 0; finished := true; p_failed := failure |} in
      let s := Progress.set (r_id r) closed s in
      let over := match failure with Some _ => true | None => (length (then_ (r_job r)) =? 0)%nat end in
      Some (match chain (r_job r), over with
            | Some c, true => Progress.set (chain_key c) closed s
            | _, _ => s
            end)
  end.

(** [process]; [now] is when the handler has ended. *)
Definition process (now : Z) (r : ReservedJob) (w : World) : result (list Z) Outcome * World :=
  let '(q, store) := w in
  let '(res, store) := run_handler reg now r store in
  match res with
  | Ok _ =>
      let '(deleted, q) := delete r q in
      match deleted with
      | Err e => (Err e, (q, store))
      | Ok _ =>
          match next_in_chain (r_job r) with
          | None => (Ok Processed, (q, close_progress now r None store))
          | Some next =>
              let '(pushed, q) := push now next q in
              match pushed with
              | Err e => (Err e, (q, store))
              | Ok _ => (Ok Processed, (q, close_progress now r None store))
              end
          end
      end
  | Err error =>
      if is_last_attempt r then
        let '(buried_, q) := fail now r error q in
        match buried_ with
        | Err e => (Err e, (q, store))
        | Ok _ => (Ok Failed, (q, close_progress now r (Some error) store))
        end
      else
        let '(released_, q) :=
          release now r (backoff (retry_after (r_job r)) (r_attempts r) (backoff_cap o)) q in
        match released_ with
        | Err e => (Err e, (q, store))
        | Ok _ => (Ok Released, (q, store))
        end
  end.

(** [run_once]: reserve at [now], settled at [done_at]. *)
Definition run_once (now done_at : Z) (w : World) : result (list Z) (option Outcome) * World :=
  let '(popped, q) := pop now (o_queue o) w.1 in
  match popped with
  | Err e => (Err e, (q, w.2))
  | Ok None => (Ok None, (q, w.2))
  | Ok (Some r) =>
      let '(res, w) := process done_at r (q, w.2) in
      (match res with Ok outcome => Ok (Some outcome) | Err e => Err e end, w)
  end.

(** One turn of the loop: whether shutdown was signalled before it, when the
    job is reserved and settled, and whether a wait at its end was cut short. *)
Record Tick := { signalled : bool; tick_at : Z; settled_at : Z; interrupted : bool }.

(** [run], over the turns that happen; the pauses after errors in a row are
    collected. The flag says whether the worker has stopped. *)
Fixpoint run (ticks : list Tick) (stats : WorkerStats) (failures : Z) (pauses : list Duration) (w : World)
    : WorkerStats * list Duration * World * bool :=
  match ticks with
  | [] => (stats, pauses, w, false)
  | t :: ticks =>
      if signalled t then (stats, pauses, w, true)
      else if match max_jobs o with Some max => max <=? attempts stats | None => false end
      then (stats, pauses, w, true)
      else
        let '(res, w) := run_once (tick_at t) (settled_at t) w in
        match res with
        | Ok (Some outcome) => run ticks (record_outcome stats outcome) 0 pauses w
        | Ok None => if interrupted t then (stats, pauses, w, true) else run ticks stats 0 pauses w
        | Err _ =>
            let failures := Z.min (failures + 1) u32_max in
            let pause := backoff (poll_interval o) failures MAX_QUEUE_ERROR_BACKOFF in
            if interrupted t then (stats, pauses ++ [pause], w, true)
            else run ticks stats failures (pauses ++ [pause]) w
        end
  end.
End Worker.

(** A job that fails twice and then succeeds, with the next step of its chain. *)
Example worker_runs :
  let flaky : Handler := fun now _ _ =>
    {| reports := [(130, lit "half")]; ending := if now <? 200 then ReturnedErr (lit "down") else Returned |} in
  let reg := register_fn_with (lit "a") flaky ∅ in
  let j := with_chain (new_job (lit "a") Null) (Some (lit "c")) [with_tries (new_job (lit "b") Null) 1] in
  let q := (mem_push 0 j new_queue).2 in
  let tick at_ := {| signalled := false; tick_at := at_; settled_at := at_; interrupted := false |} in
  let '(stats, _, (q, store), stopped) :=
    run reg default_options (map tick [0; 30; 60; 250; 251]) no_stats 0 [] (q, Some ∅) in
  stats = {| processed := 1; released := 2; s_failed := 1 |} /\ stopped = false /\
  mem_waiting q DEFAULT_QUEUE = [] /\ map f_name (failed q) = [lit "b"] /\
  (percent <$> (store ≫= Progress.get (lit "1"))) = Some 100.
Proof. vm_compute. split_and!; reflexivity. Qed.

End Worker.
