(* ===== verification/WorkerProofs.v ===== *)
(** * What workers guarantee ([rustlavel-queue/src/worker.rs], [memory.rs])

    A worker that keeps being run empties its queue: every job ends processed or
    dead-lettered after a bounded number of attempts, whatever its handler does.
    And however many workers share the in-memory queue, no job is lost, held
    twice or run again after it was settled. *)

From S2P Require Import Prelude Text F64 Json JsonText Jobs Queue Worker.

Module WorkerProofs.
Import Json Jobs Queue Progress Worker.Worker.

(** ** Attempts left *)

(** The attempts an entry can still cost, those of the later steps of its chain
    included. *)
Definition tries_of (j : QueuedJob) : nat := Z.to_nat (Z.max 1 (max_tries j)).
Definition steps_weight (steps : list QueuedJob) : nat := list_sum (map tries_of steps).
Definition weight (e : Entry) : nat :=
  Z.to_nat (Z.max 1 (max_tries (e_job e) - e_attempts e)) + steps_weight (then_ (e_job e)).
Definition total (l : list Entry) : nat := list_sum (map weight l).

Lemma list_sum_app (a b : list nat) : list_sum (a ++ b) = (list_sum a + list_sum b)%nat.
Proof. induction a as [|x a IH]; [done|]. change (list_sum ((x :: a) ++ b)) with (x + list_sum (a ++ b))%nat.
  change (list_sum (x :: a)) with (x + list_sum a)%nat. lia. Qed.

Lemma total_app a b : total (a ++ b) = (total a + total b)%nat.
Proof. unfold total. by rewrite map_app, list_sum_app. Qed.

Lemma total_one e : total [e] = weight e.
Proof. unfold total. cbn [map]. change (list_sum [weight e]) with (weight e + 0)%nat. lia. Qed.

Lemma weight_pos e : (1 <= weight e)%nat.
Proof. unfold weight. lia. Qed.

Lemma next_weight j next id t :
  next_in_chain j = Some next ->
  (weight {| e_id := id; e_job := next; e_attempts := 0; available_at := t |} <= steps_weight (then_ j))%nat.
Proof.
  unfold next_in_chain. destruct (then_ j) as [|s rest]; [done|]. intros [= <-]. unfold weight, with_chain.
  cbn [e_job e_attempts max_tries then_]. unfold steps_weight. cbn [map].
  change (list_sum (tries_of s :: map tries_of rest)) with (tries_of s + list_sum (map tries_of rest))%nat.
  unfold tries_of at 2. rewrite Z.sub_0_r. lia.
Qed.

Lemma backoff_le_cap r a cap : backoff r a cap <= cap.
Proof. unfold backoff. lia. Qed.

Lemma as_secs_mono d d' : d <= d' -> as_secs d <= as_secs d'.
Proof. intros H. unfold as_secs. apply Z.div_le_mono; lia. Qed.

Section Drain.
Context {Q : Type} `{LawfulQueue Q} `{!ReliableQueue Q}.
Context (reg : JobRegistry) (o : WorkerOptions) (D : Z).
Context (HD : as_secs (backoff_cap o) <= D) (HD0 : 0 <= D).

(** No step of the chain waits longer than [D]. *)
Definition patient (j : QueuedJob) : Prop := Forall (fun s => as_secs (delay s) <= D) (then_ j).

(** Everything on the worker's queue is due at [t]. *)
Definition all_due (t : Z) (q : Q) : Prop :=
  Forall (fun e => available_at e <= t /\ patient (e_job e)) (waiting q (o_queue o)).

Lemma added_due t before on e :
  Forall (fun e => available_at e <= t /\ patient (e_job e)) (before (o_queue o)) ->
  available_at e <= t -> patient (e_job e) ->
  Forall (fun e => available_at e <= t /\ patient (e_job e)) (added before on e (o_queue o)).
Proof.
  intros Hb He Hp. unfold added. case_bool_decide; [|done]. apply Forall_app. split; [done|].
  by apply Forall_cons_2; [|constructor].
Qed.

Lemma added_total (before : list Z -> list Entry) on e n :
  (total (added before on e n) <= total (before n) + weight e)%nat.
Proof. unfold added. case_bool_decide; [rewrite total_app, total_one; lia|lia]. Qed.

(** Settling a job that was reserved from entry [e]: at most one entry comes
    back, it has less to cost than [e], and it is due [D] later. *)
Lemma process_settles now e q store t :
  patient (e_job e) -> all_due t q -> t <= now + D ->
  match process reg o now (reserve e) (q, store) with
  | (Ok _, (q', _)) =>
      (total (waiting q' (o_queue o)) + 1 <= total (waiting q (o_queue o)) + weight e)%nat /\
      all_due (now + D) q'
  | (Err _, _) => False
  end.
Proof.
  intros Hp Hdue Ht. assert (Hdue' : all_due (now + D) q).
  { eapply Forall_impl; [|exact Hdue]. cbv beta. intros x [? ?]. split; [lia|done]. }
  unfold process. destruct (run_handler reg now (reserve e) store) as [[[]|error] store'].
  - destruct (delete_ok (reserve e) q) as [q1 E1]. pose proof (delete_law (reserve e) q) as L1.
    rewrite E1 in *. cbn [snd] in L1. destruct L1 as [L1 _].
    assert (Hdue1 : all_due (now + D) q1) by (unfold all_due; by rewrite L1). pose proof (weight_pos e).
    destruct (next_in_chain (r_job (reserve e))) as [next|] eqn:En; [|rewrite L1; split; [lia|done]].
    destruct (push_ok now next q1) as (id & q2 & E2). pose proof (push_law now next q1) as L2.
    rewrite E2 in *. destruct L2 as [L2 _]. cbn [reserve r_job] in En. rewrite L2. split.
    + pose proof (added_total (waiting q1) (queue next) {| e_id := id; e_job := next; e_attempts := 0;
        available_at := due now (delay next) |} (o_queue o)) as Ha.
      pose proof (next_weight (e_job e) next id (due now (delay next)) En). rewrite L1 in Ha.
      assert (steps_weight (then_ (e_job e)) + 1 <= weight e)%nat by (unfold weight; lia). lia.
    + unfold all_due. rewrite L2. unfold next_in_chain in En.
      unfold patient in Hp. destruct (then_ (e_job e)) as [|s rest]; [done|]. injection En as <-.
      rewrite Forall_cons_iff in Hp. destruct Hp as [Hs Hrest].
      apply added_due; [done| |done]. cbn [available_at delay with_chain]. unfold due. lia.
  - destruct (is_last_attempt (reserve e)) eqn:El.
    + destruct (fail_ok now (reserve e) error q) as [q1 E1]. pose proof (fail_law now (reserve e) error q) as L1.
      rewrite E1 in *. destruct L1 as [L1 _]. pose proof (weight_pos e). rewrite L1.
      split; [lia|]. unfold all_due. by rewrite L1.
    + pose proof (as_secs_mono _ _ (backoff_le_cap (retry_after (r_job (reserve e))) (r_attempts (reserve e))
        (backoff_cap o))) as Hcap. revert Hcap. generalize (backoff (retry_after (r_job (reserve e)))
        (r_attempts (reserve e)) (backoff_cap o)). intros d Hcap. destruct (release_ok now (reserve e) d q) as [q1 E1].
      pose proof (release_law now (reserve e) d q) as L1. rewrite E1 in *. destruct L1 as [L1 _].
      set (e' := {| e_id := _; e_job := _; e_attempts := _; available_at := _ |}) in *. rewrite L1. split.
      * pose proof (added_total (waiting q) (queue (r_job (reserve e))) e' (o_queue o)) as Ha.
        unfold is_last_attempt in El. cbn [reserve r_job r_attempts] in El. apply Z.leb_gt in El.
        assert (weight e' + 1 = weight e)%nat; [|lia].
        unfold weight, e'. cbn [e_job e_attempts reserve r_job r_attempts]. lia.
      * unfold all_due. rewrite L1. apply added_due; [done| |done]. unfold e'. cbn [available_at].
        unfold due. lia.
Qed.

(** One turn on a queue where everything is due: the cost goes down. *)
Lemma run_once_settles now done_at q store :
  all_due now q -> now <= done_at ->
  match run_once reg o now done_at (q, store) with
  | (Ok None, (q', _)) => waiting q (o_queue o) = [] /\ waiting q' (o_queue o) = []
  | (Ok (Some _), (q', _)) =>
      (total (waiting q' (o_queue o)) < total (waiting q (o_queue o)))%nat /\ all_due (done_at + D) q'
  | (Err _, _) => False
  end.
Proof.
  intros Hdue Hd. unfold run_once. cbn [fst snd]. destruct (pop_ok now (o_queue o) q) as (r & q1 & E1).
  pose proof (pop_law now (o_queue o) q) as L1. rewrite E1 in *. destruct r as [r|].
  - destruct L1 as (skipped & e & rest & Hw & _ & _ & -> & Hw' & _).
    assert (Hw1 : waiting q1 (o_queue o) = skipped ++ rest) by (by rewrite Hw', bool_decide_true).
    unfold all_due in Hdue. rewrite Hw, Forall_app, Forall_cons_iff in Hdue.
    destruct Hdue as (Hsk & [_ Hp] & Hrest).
    assert (Hdue1 : all_due now q1) by (unfold all_due; rewrite Hw1; by apply Forall_app).
    pose proof (process_settles done_at e q1 store now Hp Hdue1 ltac:(lia)) as Hs.
    destruct (process reg o done_at (reserve e) (q1, store)) as [[out|err] [q2 s2]]; [|done].
    destruct Hs as [Hs1 Hs2]. split; [|done]. rewrite Hw. rewrite Hw1 in Hs1.
    change (skipped ++ e :: rest) with (skipped ++ [e] ++ rest). rewrite !total_app in *. rewrite total_one. lia.
  - destruct L1 as (Hn & Hw' & _). assert (Hnil : waiting q (o_queue o) = []).
    { destruct (waiting q (o_queue o)) as [|e l] eqn:E; [done|]. unfold all_due in Hdue. rewrite E in Hdue.
      rewrite Forall_cons_iff in Hn, Hdue. unfold ready_at in Hn. lia. }
    split; [done|]. by rewrite Hw'.
Qed.

(** Turns without shutdown, each at least [D] after the one before. *)
Fixpoint spaced (t0 : Z) (ticks : list Tick) : Prop :=
  match ticks with
  | [] => True
  | t :: ticks => signalled t = false /\ interrupted t = false /\ t0 <= tick_at t <= settled_at t /\
                  spaced (settled_at t + D) ticks
  end.

Lemma all_due_later t t' q : all_due t q -> t <= t' -> all_due t' q.
Proof. intros Hd Ht. eapply Forall_impl; [|exact Hd]. cbv beta. intros x [? ?]. split; [lia|done]. Qed.

Lemma run_drains ticks : forall t0 stats failures pauses q store,
  max_jobs o = None -> spaced t0 ticks -> all_due t0 q ->
  let '(stats', _, (q', _), stopped) := run reg o ticks stats failures pauses (q, store) in
  stopped = false /\
  (total (waiting q' (o_queue o)) <= total (waiting q (o_queue o)) - length ticks)%nat /\
  attempts stats' + Z.of_nat (total (waiting q' (o_queue o))) <=
    attempts stats + Z.of_nat (total (waiting q (o_queue o))).
Proof.
  induction ticks as [|t ticks IH]; intros t0 stats failures pauses q store Hmax Hsp Hdue; cbn [run].
  { split; [done|]. cbn [length]. lia. }
  cbn [spaced] in Hsp. destruct Hsp as (Hs & Hi & Ht & Hsp). rewrite Hs, Hmax.
  pose proof (run_once_settles (tick_at t) (settled_at t) q store (all_due_later t0 (tick_at t) q Hdue ltac:(lia)) ltac:(lia)) as H1.
  destruct (run_once reg o (tick_at t) (settled_at t) (q, store)) as [[[out|]|err] [q1 store1]]; [| |done].
  - destruct H1 as [Hlt Hdue1].
    specialize (IH _ (record_outcome stats out) 0 pauses q1 store1 Hmax Hsp Hdue1).
    destruct (run reg o ticks _ 0 pauses (q1, store1)) as [[[stats' ps] [q' store']] stopped].
    destruct IH as (H1 & H2 & H3). split; [done|]. cbn [length]. split; [lia|].
    assert (attempts (record_outcome stats out) = attempts stats + 1)
      by (destruct out; unfold attempts; cbn; lia). lia.
  - rewrite Hi. destruct H1 as [Hnil Hnil1].
    assert (Hdue1 : all_due (settled_at t + D) q1) by (unfold all_due; rewrite Hnil1; constructor).
    specialize (IH _ stats 0 pauses q1 store1 Hmax Hsp Hdue1).
    destruct (run reg o ticks stats 0 pauses (q1, store1)) as [[[stats' ps] [q' store']] stopped].
    rewrite Hnil1 in IH. rewrite Hnil. change (total []) with 0%nat in *. cbn [length].
    destruct IH as (H1 & H2 & H3). split_and!; [done|lia|lia].
Qed.

Lemma total_nil l : total l = 0%nat -> l = [].
Proof.
  destruct l as [|e l]; [done|]. change (e :: l) with ([e] ++ l). rewrite total_app, total_one.
  pose proof (weight_pos e). lia.
Qed.

(** C32. A worker drains its queue, whatever the handlers do (return, fail, panic
    or are not registered) and whichever lawful driver holds the jobs: when the
    jobs are due and the turns are spaced by the longest backoff and chain delay,
    as many turns as there are attempts left empty the queue, no attempt is made
    beyond the tries of each job and of the steps of its chain, and the worker is
    still running. *)
Theorem worker_drains ticks t0 q store :
  max_jobs o = None -> spaced t0 ticks -> all_due t0 q ->
  (total (waiting q (o_queue o)) <= length ticks)%nat ->
  let '(stats, _, (q', _), stopped) := run reg o ticks no_stats 0 [] (q, store) in
  stopped = false /\ waiting q' (o_queue o) = [] /\
  attempts stats <= Z.of_nat (total (waiting q (o_queue o))).
Proof.
  intros Hmax Hsp Hdue Hlen. pose proof (run_drains ticks t0 no_stats 0 [] q store Hmax Hsp Hdue) as Hr.
  destruct (run reg o ticks no_stats 0 [] (q, store)) as [[[stats ps] [q' store']] stopped].
  destruct Hr as (H1 & H2 & H3). change (attempts no_stats) with 0 in H3. split_and!; [done| |lia].
  apply total_nil. lia.
Qed.

End Drain.

Lemma worker_drains_witness :
  let flaky : Handler := fun now _ _ =>
    {| reports := []; ending := if now <? 8000 then ReturnedErr (lit "down") else Returned |} in
  let reg := register_fn_with (lit "a") flaky ∅ in
  let j := with_chain (new_job (lit "a") Null) (Some (lit "c")) [with_tries (new_job (lit "b") Null) 1] in
  let q := (mem_push 0 j new_queue).2 in
  let tick at_ := {| signalled := false; tick_at := at_; settled_at := at_; interrupted := false |} in
  let '(stats, _, (q', _), stopped) :=
    run reg default_options (map tick [0; 4000; 8000; 12000]) no_stats 0 [] (q, Some ∅) in
  stopped = false /\ mem_waiting q' DEFAULT_QUEUE = [] /\ attempts stats <= 4.
Proof.
  cbv zeta.
  set (flaky := fun now (_ : Json) (_ : JobContext) =>
    {| reports := []; ending := if now <? 8000 then ReturnedErr (lit "down") else Returned |}).
  set (q := (mem_push 0 _ new_queue).2). set (ticks := map _ _).
  refine (worker_drains (register_fn_with (lit "a") flaky ∅) default_options 3600 _ _ ticks 0 q (Some ∅) _ _ _ _).
  - vm_compute. discriminate.
  - lia.
  - reflexivity.
  - unfold ticks. cbn. lia.
  - unfold all_due. change (waiting q (o_queue default_options)) with (mem_waiting q DEFAULT_QUEUE).
    unfold q, mem_waiting. cbn. apply Forall_cons_2; [|apply Forall_nil_2]. split; [vm_compute; discriminate|].
    apply Forall_cons_2; [vm_compute; discriminate|apply Forall_nil_2].
  - vm_compute. lia.
Defined.

(** ** Many workers on one in-memory queue *)

(** [u64::MAX], the last id the counter can give. *)
Definition u64_max : Z := 2 ^ 64 - 1.

(** The queue, the job each busy worker has in hand, the progress store, and the
    ids of the jobs that were processed or dead-lettered. Every operation of the
    queue is one step: the driver takes its lock for each. *)
Record Pool := {
  p_queue : MemoryQueue;
  held : gmap nat ReservedJob;
  p_store : option ProgressStore;
  settled : list (list Z);
}.

Definition new_pool (store : option ProgressStore) : Pool :=
  {| p_queue := new_queue; held := ∅; p_store := store; settled := [] |}.

Definition settle_ids (r : ReservedJob) (outcome : Outcome) (ids : list (list Z)) : list (list Z) :=
  match outcome with Released => ids | Processed | Failed => r_id r :: ids end.

Inductive pool_step (reg : JobRegistry) (p : Pool) : Pool -> Prop :=
  | pool_push now j id q :
      next_id (p_queue p) < u64_max -> push now j (p_queue p) = (Ok id, q) ->
      pool_step reg p {| p_queue := q; held := held p; p_store := p_store p; settled := settled p |}
  | pool_take w now name r q :
      held p !! w = None -> pop now name (p_queue p) = (Ok (Some r), q) ->
      pool_step reg p {| p_queue := q; held := <[w := r]> (held p); p_store := p_store p; settled := settled p |}
  | pool_settle w o now r outcome q store :
      held p !! w = Some r -> next_id (p_queue p) < u64_max ->
      process reg o now r (p_queue p, p_store p) = (Ok outcome, (q, store)) ->
      pool_step reg p {| p_queue := q; held := base.delete w (held p); p_store := store;
                         settled := settle_ids r outcome (settled p) |}.

Definition entry_ids (m : gmap (list Z) (list Entry)) : list (list Z) :=
  map_to_list m ≫= fun kv => map e_id kv.2.
Definition held_ids (m : gmap nat ReservedJob) : list (list Z) := map (fun kv => r_id kv.2) (map_to_list m).
Definition issued (q : MemoryQueue) : list (list Z) := map dec (seqZ 1 (next_id q - 1)).

Lemma entry_ids_insert m n l : entry_ids (<[n := l]> m) ≡ₚ map e_id l ++ entry_ids (base.delete n m).
Proof.
  unfold entry_ids. rewrite <- insert_delete_eq. rewrite map_to_list_insert by apply lookup_delete_eq. done.
Qed.

Lemma entry_ids_split m n : entry_ids m ≡ₚ map e_id (default [] (m !! n)) ++ entry_ids (base.delete n m).
Proof.
  destruct (m !! n) as [l|] eqn:E; cbn [default].
  - unfold entry_ids. rewrite <- (map_to_list_delete m n l E) at 1. done.
  - by rewrite delete_id.
Qed.

Lemma append_ids name e q : entry_ids (ready (append name e q)) ≡ₚ e_id e :: entry_ids (ready q).
Proof.
  unfold append. cbn [ready]. rewrite entry_ids_insert, (entry_ids_split (ready q) name).
  rewrite map_app. cbn [map]. rewrite <- Permutation_cons_append. done.
Qed.

Lemma pop_ids now name q r q' :
  pop now name q = (Ok (Some r), q') ->
  r_id r :: entry_ids (ready q') ≡ₚ entry_ids (ready q) /\ next_id q' = next_id q.
Proof.
  cbn. unfold mem_pop. destruct (ready q !! name) as [es|] eqn:E; [|done].
  pose proof (first_ready_spec now es) as Hs. destruct (first_ready now es) as [[[sk e] rest]|]; [|done].
  destruct Hs as (-> & _). intros [= <- <-]. cbn [ready next_id reserve r_id]. split; [|done].
  rewrite entry_ids_insert, (entry_ids_split (ready q) name), E.
  change (default [] (Some (sk ++ e :: rest))) with (sk ++ e :: rest). rewrite !map_app. cbn [map].
  rewrite <- !app_assoc. apply Permutation_middle.
Qed.

Lemma issued_next q : 1 <= next_id q ->
  map dec (seqZ 1 (next_id q + 1 - 1)) ≡ₚ dec (next_id q) :: issued q.
Proof.
  intros Hn. unfold issued. replace (next_id q + 1 - 1) with (next_id q - 1 + 1) by lia.
  rewrite seqZ_app, map_app by lia. replace (1 + (next_id q - 1)) with (next_id q) by lia.
  change (map dec (seqZ (next_id q) 1)) with [dec (next_id q)]. by rewrite <- Permutation_cons_append.
Qed.

Lemma push_ids now j q id q' :
  1 <= next_id q < u64_max -> push now j q = (Ok id, q') ->
  entry_ids (ready q') ≡ₚ id :: entry_ids (ready q) /\ issued q' ≡ₚ id :: issued q /\
  next_id q' = next_id q + 1.
Proof.
  intros Hn. cbn. unfold mem_push. intros [= <- <-].
  assert (Hu : u64 (next_id q + 1) = next_id q + 1) by (unfold wrap; apply Z.mod_small; unfold u64_max in *; lia).
  split_and!; [by rewrite append_ids| |done].
  unfold issued at 1. cbn [append next_id]. rewrite Hu. apply issued_next. lia.
Qed.

(** Every issued id is in exactly one place. *)
Definition accounted (p : Pool) : Prop :=
  1 <= next_id (p_queue p) <= u64_max /\
  entry_ids (ready (p_queue p)) ++ held_ids (held p) ++ settled p ≡ₚ issued (p_queue p).

Lemma process_ids reg o now r q store outcome q' store' :
  1 <= next_id q < u64_max -> process reg o now r (q, store) = (Ok outcome, (q', store')) ->
  1 <= next_id q' <= u64_max /\
  exists fresh, entry_ids (ready q') ++ settle_ids r outcome [] ≡ₚ r_id r :: fresh ++ entry_ids (ready q) /\
                issued q' ≡ₚ fresh ++ issued q.
Proof.
  intros Hn. unfold process. destruct (run_handler reg now r store) as [[[]|error] st].
  - cbn [delete MemoryQueue_Queue]. destruct (next_in_chain (r_job r)) as [next|].
    + destruct (push now next q) as [[id|] q1] eqn:Ep; [|done].
      intros [= <- <- _]. destruct (push_ids _ _ _ _ _ Hn Ep) as (H1 & H2 & H3). split; [lia|].
      exists [id]. split; [|done]. cbn [settle_ids]. rewrite H1. by rewrite <- Permutation_cons_append.
    + intros [= <- <- _]. split; [lia|]. exists []. split; [|done]. cbn [settle_ids].
      by rewrite <- Permutation_cons_append.
  - destruct (is_last_attempt r).
    + cbn. intros [= <- <- _]. split; [cbn; lia|]. exists []. split; [|done]. cbn [settle_ids ready].
      by rewrite <- Permutation_cons_append.
    + cbn. intros [= <- <- _]. split; [cbn; lia|]. exists []. split; [|done].
      cbn [settle_ids]. rewrite app_nil_r. by rewrite append_ids.
Qed.

Lemma settle_perm {A} (a s f e h t : list A) x :
  a ++ s ≡ₚ x :: f ++ e -> a ++ h ++ s ++ t ≡ₚ f ++ e ++ (x :: h) ++ t.
Proof.
  intros Hp. rewrite (app_assoc h), (Permutation_app_comm h s), <- app_assoc, app_assoc, Hp.
  cbn. rewrite <- !app_assoc. rewrite app_assoc, (app_assoc f e). apply Permutation_middle.
Qed.

Lemma pool_step_accounted reg p p' : accounted p -> pool_step reg p p' -> accounted p'.
Proof.
  intros [Hn Hp] Hstep. unfold accounted. destruct Hstep as [now j id q Hlt E|w now n r q Hw E|w o now r out q st Hw Hlt E];
    cbn [p_queue held settled].
  - destruct (push_ids now j (p_queue p) id q ltac:(lia) E) as (H1 & H2 & H3). split; [lia|].
    rewrite H1, H2. cbn. by rewrite Hp.
  - destruct (pop_ids now n _ r q E) as (H1 & H2). split; [lia|]. unfold issued in *. rewrite H2, <- Hp, <- H1.
    unfold held_ids. rewrite map_to_list_insert by done. cbn. by rewrite <- Permutation_middle.
  - destruct (process_ids reg o now r (p_queue p) (p_store p) out q st ltac:(lia) E) as (H1 & fresh & H2 & H3). split; [lia|].
    rewrite H3, <- Hp. unfold held_ids. rewrite <- (map_to_list_delete (held p) w r Hw). cbn [map].
    assert (Hs : settle_ids r out (settled p) = settle_ids r out [] ++ settled p) by (by destruct out).
    rewrite Hs. cbn [snd]. by apply settle_perm.
Qed.

Lemma issued_nodup q : NoDup (issued q).
Proof.
  unfold issued. apply NoDup_fmap_2_strong; [|apply NoDup_seqZ].
  intros m n Hm Hn. rewrite elem_of_seqZ in Hm, Hn. apply dec_inj; lia.
Qed.

(** C33. No job is lost, held twice or run again once settled. However many
    workers share the in-memory queue and however their steps interleave, every
    id the queue has issued is in exactly one place: waiting on one queue, in the
    hand of one worker, or settled. *)
Theorem pool_conserves_jobs reg store p :
  rtc (pool_step reg) (new_pool store) p ->
  let places := entry_ids (ready (p_queue p)) ++ held_ids (held p) ++ settled p in
  NoDup places /\ forall id, id ∈ places <-> exists n, id = dec n /\ 1 <= n < next_id (p_queue p).
Proof.
  intros Hr. cbv zeta. assert (Hacc : accounted p).
  { remember (new_pool store) as p0 eqn:E0. assert (H0 : accounted p0) by (subst; by split).
    clear E0. induction Hr as [|p0 p1 p2 H1 _ IH]; [done|]. apply IH. by eapply pool_step_accounted. }
  destruct Hacc as [Hn Hp]. split; [rewrite Hp; apply issued_nodup|]. intros id. rewrite Hp. unfold issued.
  rewrite list_elem_of_fmap. split; intros (n & -> & H2); exists n; rewrite elem_of_seqZ in *; (split; [done|lia]).
Qed.

Lemma pool_conserves_jobs_witness :
  let j := new_job (lit "a") Null in
  let p := {| p_queue := (pop 5 DEFAULT_QUEUE (push 0 j new_queue).2).2;
              held := <[7%nat := {| r_id := dec 1; r_job := j; r_attempts := 1 |}]> ∅;
              p_store := None; settled := [] |} in
  let places := entry_ids (ready (p_queue p)) ++ held_ids (held p) ++ settled p in
  NoDup places /\ forall id, id ∈ places <-> exists n, id = dec n /\ 1 <= n < next_id (p_queue p).
Proof.
  intros j p. refine (pool_conserves_jobs ∅ None p _).
  apply (rtc_l _ _ {| p_queue := (push 0 j new_queue).2; held := ∅; p_store := None; settled := [] |}).
  - refine (pool_push ∅ (new_pool None) 0 j (dec 1) _ _ _); [vm_compute; reflexivity|reflexivity].
  - apply rtc_once. refine (pool_take ∅ {| p_queue := (push 0 j new_queue).2; held := ∅; p_store := None;
      settled := [] |} 7 5 DEFAULT_QUEUE _ _ _ _); [reflexivity|vm_compute; reflexivity].
Defined.

End WorkerProofs.
