(* ===== verification/Cache.v ===== *)
(** * The cache and the rate limiter ([rustlavel-cache]: [store.rs], [memory.rs], [rate_limit.rs])

    The [Cache] trait is a type class; what its documentation promises is a
    second class of laws, stated over the entries a reader can see. The sharded
    in-memory store discharges the laws for any hash function, and the rate
    limiter's theorem is proved against the interface alone. Time is explicit:
    every operation takes the monotonic clock's reading in nanoseconds. *)

From S2P Require Import Prelude Text F64 Json.

(** ** The trait ([store.rs]) *)
Module Cache.
Import Json.

Definition i64_wrap (z : Z) : Z := (z + 2 ^ 63) mod 2 ^ 64 - 2 ^ 63.

(** [counter_value]: what a key that holds [value] counts as. *)
Definition counter_value (value : Json) : Z :=
  match value with
  | Number n => f64_to_int i64_min i64_max n
  | String s => default 0 (parse_i64 (trim s))
  | _ => 0
  end.

Definition prefixed (prefix key : list Z) : list Z :=
  match prefix with [] => key | _ => prefix ++ key end.

Class Cache (S E : Type) := {
  get : Z -> list Z -> S -> result E (option Json * S);
  put : Z -> list Z -> Json -> Z -> S -> result E S;
  forever : Z -> list Z -> Json -> S -> result E S;
  forget : Z -> list Z -> S -> result E (bool * S);
  flush : S -> result E S;
  increment : Z -> list Z -> Z -> S -> result E (Z * S);
  increment_within : Z -> list Z -> Z -> Z -> S -> result E (Z * S);
  ttl : Z -> list Z -> S -> result E (option Z);
}.

(** The trait's provided methods. *)
Section provided.
Context {S E : Type} `{!Cache S E}.

Definition has (now : Z) (key : list Z) (s : S) : result E (bool * S) :=
  let? (v, s) := get now key s in Ok (bool_decide (is_Some v), s).

Definition decrement (now : Z) (key : list Z) (by_ : Z) (s : S) : result E (Z * S) :=
  increment now key (i64_wrap (- by_)) s.

Definition pull (now : Z) (key : list Z) (s : S) : result E (option Json * S) :=
  let? (value, s) := get now key s in
  match value with
  | Some v => let? (_, s) := forget now key s in Ok (Some v, s)
  | None => Ok (None, s)
  end.

(** [compute] is the caller's closure; it runs only on a miss. *)
Definition remember (now : Z) (key : list Z) (ttl_ : Z) (compute : result E Json) (s : S)
    : result E (Json * S) :=
  let? (hit, s) := get now key s in
  match hit with
  | Some v => Ok (v, s)
  | None =>
      let? value := compute in
      let? s := put now key value ttl_ s in
      Ok (value, s)
  end.

Definition remember_forever (now : Z) (key : list Z) (compute : result E Json) (s : S)
    : result E (Json * S) :=
  let? (hit, s) := get now key s in
  match hit with
  | Some v => Ok (v, s)
  | None =>
      let? value := compute in
      let? s := forever now key value s in
      Ok (value, s)
  end.
End provided.

(** ** What the documentation promises *)

Record Entry := { value : Json; expires_at : option Z }.

Definition is_expired (e : Entry) (now : Z) : bool :=
  match expires_at e with Some at_ => at_ <=? now | None => false end.

(** What a reader sees of a stored entry at a given time. *)
Definition live (now : Z) (o : option Entry) : option Entry :=
  match o with Some e => if is_expired e now then None else Some e | None => None end.

(** Contents as a function of the key, and its update. *)
Definition Contents : Type := list Z -> option Entry.
Definition update (c : Contents) (key : list Z) (o : option Entry) : Contents :=
  fun k => if decide (key = k) then o else c k.

(** Two stores are the same from [now] on when no reader can tell them apart:
    entries that have expired may have been swept from one of them. *)
Definition same_from (now : Z) (c c' : Contents) : Prop :=
  forall t k, now <= t -> live t (c k) = live t (c' k).

#[export] Instance same_from_equiv now : Equivalence (same_from now).
Proof.
  split.
  - by intros c t k Ht.
  - intros c c' H t k Ht. by rewrite H.
  - intros c c' c'' H H' t k Ht. by rewrite H, H'.
Qed.

#[export] Instance update_proper now : Proper (same_from now ==> eq ==> eq ==> same_from now) update.
Proof. intros c c' H k _ <- o _ <- t k' Ht. unfold update. case_decide; [done|by apply H]. Qed.

Lemma same_from_later now now' c c' : now <= now' -> same_from now c c' -> same_from now' c c'.
Proof. intros Hn H t k Ht. apply H. lia. Qed.

Lemma live_expired now o t : now <= t -> live now o = None -> live t o = None.
Proof.
  destruct o as [[v [at_|]]|]; [|done..]. unfold live, is_expired; cbn.
  intros Ht. destruct (Z.leb_spec at_ now), (Z.leb_spec at_ t); done || lia.
Qed.

(** What an increment leaves behind: a live entry keeps its expiry, and one
    that this call creates owns the given one. *)
Definition bumped (o : option Entry) (by_ : Z) (expiry : option Z) : Z * Entry :=
  match o with
  | Some e =>
      let next := i64_wrap (counter_value (value e) + by_) in
      (next, {| value := from_int next; expires_at := expires_at e |})
  | None => (by_, {| value := from_int by_; expires_at := expiry |})
  end.

Class LawfulCache (S E : Type) `{!Cache S E} := {
  wf : S -> Prop;
  contents : S -> Contents;
  get_law now k s r s' : wf s -> get now k s = Ok (r, s') ->
    wf s' /\ r = value <$> live now (contents s k) /\ same_from now (contents s') (contents s);
  put_law now k v d s s' : wf s -> 0 <= d -> put now k v d s = Ok s' ->
    wf s' /\ same_from now (contents s') (update (contents s) k
      (if d =? 0 then None else Some {| value := v; expires_at := Some (now + d) |}));
  forever_law now k v s s' : wf s -> forever now k v s = Ok s' ->
    wf s' /\ same_from now (contents s')
      (update (contents s) k (Some {| value := v; expires_at := None |}));
  forget_law now k s r s' : wf s -> forget now k s = Ok (r, s') ->
    wf s' /\ r = bool_decide (is_Some (live now (contents s k))) /\
    same_from now (contents s') (update (contents s) k None);
  flush_law s s' : wf s -> flush s = Ok s' -> wf s' /\ forall k, contents s' k = None;
  increment_law now k n s r s' : wf s -> increment now k n s = Ok (r, s') ->
    wf s' /\ r = (bumped (live now (contents s k)) n None).1 /\
    same_from now (contents s')
      (update (contents s) k (Some (bumped (live now (contents s k)) n None).2));
  increment_within_law now k n d s r s' : wf s -> increment_within now k n d s = Ok (r, s') ->
    wf s' /\ r = (bumped (live now (contents s k)) n (Some (now + d))).1 /\
    same_from now (contents s')
      (update (contents s) k (Some (bumped (live now (contents s k)) n (Some (now + d))).2));
  ttl_law now k s r : wf s -> ttl now k s = Ok r ->
    r = match live now (contents s k) with
        | Some {| expires_at := Some at_ |} => Some (Z.max 0 (at_ - now))
        | _ => None
        end;
}.

(** ** Clients see one map

    The abstract store: a single map whose entries vanish when they expire. *)

Inductive Op :=
  | OGet (k : list Z) | OPut (k : list Z) (v : Json) (d : Z) | OForever (k : list Z) (v : Json)
  | OForget (k : list Z) | OFlush | OIncrement (k : list Z) (n : Z)
  | OIncrementWithin (k : list Z) (n d : Z) | OTtl (k : list Z).

Inductive Out :=
  | Found (v : option Json) | Done | Removed (b : bool) | Count (n : Z) | Left (d : option Z).

Definition spec_step (now : Z) (op : Op) (c : Contents) : Out * Contents :=
  match op with
  | OGet k => (Found (value <$> live now (c k)), c)
  | OPut k v d =>
      (Done, update c k (if d =? 0 then None else Some {| value := v; expires_at := Some (now + d) |}))
  | OForever k v => (Done, update c k (Some {| value := v; expires_at := None |}))
  | OForget k => (Removed (bool_decide (is_Some (live now (c k)))), update c k None)
  | OFlush => (Done, fun _ => None)
  | OIncrement k n =>
      let r := bumped (live now (c k)) n None in (Count r.1, update c k (Some r.2))
  | OIncrementWithin k n d =>
      let r := bumped (live now (c k)) n (Some (now + d)) in (Count r.1, update c k (Some r.2))
  | OTtl k =>
      (Left match live now (c k) with
            | Some {| expires_at := Some at_ |} => Some (Z.max 0 (at_ - now))
            | _ => None
            end, c)
  end.

Definition op_ok (op : Op) : bool := match op with OPut _ _ d => 0 <=? d | _ => true end.

Section refinement.
Context {S E : Type} `{!Cache S E}.

Definition impl_step (now : Z) (op : Op) (s : S) : result E (Out * S) :=
  match op with
  | OGet k => let? (v, s) := get now k s in Ok (Found v, s)
  | OPut k v d => let? s := put now k v d s in Ok (Done, s)
  | OForever k v => let? s := forever now k v s in Ok (Done, s)
  | OForget k => let? (b, s) := forget now k s in Ok (Removed b, s)
  | OFlush => let? s := flush s in Ok (Done, s)
  | OIncrement k n => let? (r, s) := increment now k n s in Ok (Count r, s)
  | OIncrementWithin k n d => let? (r, s) := increment_within now k n d s in Ok (Count r, s)
  | OTtl k => let? d := ttl now k s in Ok (Left d, s)
  end.

Context `{!LawfulCache S E}.

Lemma spec_step_proper now op c c' :
  same_from now c c' ->
  (spec_step now op c).1 = (spec_step now op c').1 /\
  same_from now (spec_step now op c).2 (spec_step now op c').2.
Proof.
  intros Hs. assert (Hl : forall k, live now (c k) = live now (c' k)) by (intros; apply Hs; lia).
  destruct op; cbn; rewrite ?Hl; (split; [done|]); try done; by rewrite Hs.
Qed.

(** One operation of a lawful store is one step of the abstract map. *)
Lemma impl_step_refines now op s out s' :
  wf s -> op_ok op = true -> impl_step now op s = Ok (out, s') ->
  wf s' /\ out = (spec_step now op (contents s)).1 /\
  same_from now (contents s') (spec_step now op (contents s)).2.
Proof.
  intros Hw Hok. destruct op; cbn [impl_step spec_step fst snd].
  - destruct (get now k s) as [[v s1]|] eqn:E1; intros [= <- <-].
    by destruct (get_law _ _ _ _ _ Hw E1) as (? & -> & ?).
  - destruct (put now k v d s) as [s1|] eqn:E1; intros [= <- <-].
    destruct (put_law _ _ _ _ _ _ Hw (proj1 (Z.leb_le _ _) Hok) E1). done.
  - destruct (forever now k v s) as [s1|] eqn:E1; intros [= <- <-].
    by destruct (forever_law _ _ _ _ _ Hw E1).
  - destruct (forget now k s) as [[b s1]|] eqn:E1; intros [= <- <-].
    by destruct (forget_law _ _ _ _ _ Hw E1) as (? & -> & ?).
  - destruct (flush s) as [s1|] eqn:E1; intros [= <- <-].
    destruct (flush_law _ _ Hw E1) as [? H]. split_and!; [done..|]. intros t k _. by rewrite H.
  - destruct (increment now k n s) as [[r s1]|] eqn:E1; intros [= <- <-].
    by destruct (increment_law _ _ _ _ _ _ Hw E1) as (? & -> & ?).
  - destruct (increment_within now k n d s) as [[r s1]|] eqn:E1; intros [= <- <-].
    by destruct (increment_within_law _ _ _ _ _ _ _ Hw E1) as (? & -> & ?).
  - destruct (ttl now k s) as [r|] eqn:E1; intros [= <- <-].
    by rewrite (ttl_law _ _ _ _ Hw E1).
Qed.
End refinement.

End Cache.

(** ** The in-memory store ([memory.rs]) *)
Module Memory.
Import Json Cache.

Definition SHARDS : nat := 16.

Record Inner := { shards : list (gmap (list Z) Entry); prefix : list Z }.

Definition with_options (prefix : list Z) : Inner :=
  {| shards := repeat ∅ SHARDS; prefix := prefix |}.

Section Memory.
(** The standard library's hasher, any function of the key. *)
Variable hash : list Z -> Z.

(** [Inner::shard]: the index of the map a key lives in. *)
Definition shard (key : list Z) : nat := Z.to_nat (hash key mod Z.of_nat SHARDS).

(** The map behind the lock, and storing it back. *)
Definition shard_map (s : Inner) (key : list Z) : gmap (list Z) Entry :=
  default ∅ (shards s !! shard key).
Definition set_shard (s : Inner) (key : list Z) (m : gmap (list Z) Entry) : Inner :=
  {| shards := <[shard key := m]> (shards s); prefix := prefix s |}.

Definition sweep_map (now : Z) (m : gmap (list Z) Entry) : gmap (list Z) Entry :=
  filter (fun kv => is_expired kv.2 now = false) m.

Definition sweep (now : Z) (s : Inner) : Inner :=
  {| shards := map (sweep_map now) (shards s); prefix := prefix s |}.

Definition live_count (now : Z) (s : Inner) : nat :=
  sum_list (map (fun m => size (sweep_map now m)) (shards s)).

(** The two critical sections of [MemoryStore::read]. The first returns when the
    key is absent or live; the second, under the write lock, looks again. *)
Definition read_fast (now : Z) (key : list Z) (s : Inner) : option (option Json) :=
  match shard_map s key !! key with
  | None => Some None
  | Some e => if is_expired e now then None else Some (Some (value e))
  end.

Definition read_slow (now : Z) (key : list Z) (s : Inner) : option Json * Inner :=
  match shard_map s key !! key with
  | Some e =>
      if is_expired e now then (None, set_shard s key (base.delete key (shard_map s key)))
      else (Some (value e), s)
  | None => (None, s)
  end.

Definition read (now : Z) (key : list Z) (s : Inner) : option Json * Inner :=
  match read_fast now key s with
  | Some r => (r, s)
  | None => read_slow now key s
  end.

Definition write (key : list Z) (v : Json) (expiry : option Z) (s : Inner) : Inner :=
  set_shard s key (<[key := {| value := v; expires_at := expiry |}]> (shard_map s key)).

Definition remove (now : Z) (key : list Z) (s : Inner) : bool * Inner :=
  let removed := shard_map s key !! key in
  (match removed with Some e => negb (is_expired e now) | None => false end,
   set_shard s key (base.delete key (shard_map s key))).

Definition bump (now : Z) (key : list Z) (by_ : Z) (ttl_ : option Z) (s : Inner) : Z * Inner :=
  let m := shard_map s key in
  let create :=
    (by_, set_shard s key (<[key := {| value := from_int by_;
                                      expires_at := Z.add now <$> ttl_ |}]> m)) in
  match m !! key with
  | Some e =>
      if negb (is_expired e now) then
        let next := i64_wrap (counter_value (value e) + by_) in
        (next, set_shard s key (<[key := {| value := from_int next;
                                           expires_at := expires_at e |}]> m))
      else create
  | None => create
  end.

(** The code locks and clears one shard after the other; an operation here is one
    step of the store, and a flush that others run into is not modelled. *)
Definition flush_shards (s : Inner) : Inner :=
  {| shards := map (fun _ => ∅) (shards s); prefix := prefix s |}.

Definition ttl_of (now : Z) (key : list Z) (s : Inner) : option Z :=
  match shard_map s key !! key with
  | Some e =>
      if is_expired e now then None
      else (fun at_ => Z.max 0 (at_ - now)) <$> expires_at e
  | None => None
  end.

Definition MemoryStore_Cache {E} : Cache Inner E := {|
  get := fun now key s => Ok (read now (prefixed (prefix s) key) s);
  put := fun now key v d s =>
    let full := prefixed (prefix s) key in
    if d =? 0 then Ok (remove now full s).2 else Ok (write full v (Some (now + d)) s);
  forever := fun now key v s => Ok (write (prefixed (prefix s) key) v None s);
  forget := fun now key s => Ok (remove now (prefixed (prefix s) key) s);
  flush := fun s => Ok (flush_shards s);
  increment := fun now key by_ s => Ok (bump now (prefixed (prefix s) key) by_ None s);
  increment_within := fun now key by_ d s => Ok (bump now (prefixed (prefix s) key) by_ (Some d) s);
  ttl := fun now key s => Ok (ttl_of now (prefixed (prefix s) key) s);
|}.

(** *** The store implements the interface *)

Definition wf_shards (s : Inner) : Prop := length (shards s) = SHARDS.

(** The entry under a full key, and the contents a client sees. *)
Definition entry (s : Inner) (full : list Z) : option Entry := shard_map s full !! full.
Definition contents_of (s : Inner) : Contents := fun key => entry s (prefixed (prefix s) key).

Lemma shard_lt key : (shard key < SHARDS)%nat.
Proof.
  unfold shard, SHARDS. pose proof (Z.mod_pos_bound (hash key) (Z.of_nat 16) ltac:(lia)). lia.
Qed.

Lemma entry_set_shard s key m k :
  wf_shards s ->
  entry (set_shard s key m) k = if decide (shard key = shard k) then m !! k else entry s k.
Proof.
  intros Hw. pose proof (shard_lt key). unfold entry, shard_map, set_shard; cbn [shards].
  case_decide as E.
  - rewrite <- E, list_lookup_insert_eq by (by rewrite Hw). done.
  - by rewrite list_lookup_insert_ne.
Qed.

Lemma entry_insert s key e k :
  wf_shards s ->
  entry (set_shard s key (<[key := e]> (shard_map s key))) k =
  if decide (key = k) then Some e else entry s k.
Proof.
  intros Hw. rewrite entry_set_shard by done. repeat case_decide; subst; try done.
  - by rewrite lookup_insert_eq.
  - rewrite lookup_insert_ne by done. unfold entry, shard_map. by match goal with H : shard _ = _ |- _ => rewrite H end.
Qed.

Lemma entry_delete s key k :
  wf_shards s ->
  entry (set_shard s key (base.delete key (shard_map s key))) k =
  if decide (key = k) then None else entry s k.
Proof.
  intros Hw. rewrite entry_set_shard by done. repeat case_decide; subst; try done.
  - by rewrite lookup_delete_eq.
  - rewrite lookup_delete_ne by done. unfold entry, shard_map. by match goal with H : shard _ = _ |- _ => rewrite H end.
Qed.

Lemma wf_set_shard s key m : wf_shards s -> wf_shards (set_shard s key m).
Proof. unfold wf_shards, set_shard; cbn. by rewrite length_insert. Qed.

Lemma prefixed_inj p k k' : prefixed p k = prefixed p k' -> k = k'.
Proof. destruct p; [done|]. cbn [prefixed]. apply app_inv_head. Qed.

(** A change of one full key is an update of the contents. *)
Lemma contents_change s s' key o :
  prefix s' = prefix s ->
  (forall k, entry s' k = if decide (prefixed (prefix s) key = k) then o else entry s k) ->
  forall k, contents_of s' k = update (contents_of s) key o k.
Proof.
  intros Hp He k. unfold contents_of, update. rewrite Hp, He.
  destruct (decide (prefixed (prefix s) key = prefixed (prefix s) k)) as [E|E].
  - apply prefixed_inj in E. by rewrite decide_True by done.
  - rewrite decide_False by (by intros ->). done.
Qed.

Lemma same_from_ext now (c c' : Contents) : (forall k, c k = c' k) -> same_from now c c'.
Proof. intros H t k _. by rewrite H. Qed.

Lemma read_slow_spec now full s :
  wf_shards s ->
  wf_shards (read_slow now full s).2 /\ prefix (read_slow now full s).2 = prefix s /\
  (read_slow now full s).1 = value <$> live now (entry s full) /\
  forall t k, now <= t -> live t (entry (read_slow now full s).2 k) = live t (entry s k).
Proof.
  intros Hw. unfold read_slow. fold (entry s full). destruct (entry s full) as [e|] eqn:He; cbn [live];
    [|by split_and!].
  destruct (is_expired e now) eqn:Hx; cbn [fst snd]; [|by split_and!].
  split_and!; [by apply wf_set_shard|done|done|]. intros t k Ht. rewrite entry_delete by done.
  case_decide as E; [|done]. subst k. rewrite He. symmetry. apply (live_expired now); [done|].
  cbn. by rewrite Hx.
Qed.

Lemma read_spec now full s :
  wf_shards s ->
  wf_shards (read now full s).2 /\ prefix (read now full s).2 = prefix s /\
  (read now full s).1 = value <$> live now (entry s full) /\
  forall t k, now <= t -> live t (entry (read now full s).2 k) = live t (entry s k).
Proof.
  intros Hw. pose proof (read_slow_spec now full s Hw) as Hslow.
  unfold read, read_fast. fold (entry s full).
  destruct (entry s full) as [e|] eqn:He; [|by split_and!].
  destruct (is_expired e now) eqn:Hx; [exact Hslow|]. cbn. rewrite Hx. by split_and!.
Qed.

Lemma bump_spec now full n d s :
  wf_shards s ->
  let r := bumped (live now (entry s full)) n (Z.add now <$> d) in
  (bump now full n d s).1 = r.1 /\ wf_shards (bump now full n d s).2 /\
  prefix (bump now full n d s).2 = prefix s /\
  forall k, entry (bump now full n d s).2 k = if decide (full = k) then Some r.2 else entry s k.
Proof.
  intros Hw r. subst r. unfold bump. fold (entry s full).
  destruct (entry s full) as [e|] eqn:He; [destruct (is_expired e now) eqn:Hx|]; cbn [negb live];
    rewrite ?Hx; cbn [fst snd bumped]; (split_and!; [done|by apply wf_set_shard|done|]);
    intros k; by apply entry_insert.
Qed.

#[export] Instance MemoryStore_lawful {E} : LawfulCache Inner E (Cache0 := MemoryStore_Cache).
Proof.
  refine {| wf := wf_shards; contents := contents_of |}; cbn [get put forever forget flush increment
    increment_within ttl MemoryStore_Cache].
  - intros now k s r s' Hw Hg. destruct (read_spec now (prefixed (prefix s) k) s Hw) as (H1 & H2 & H3 & H4).
    destruct (read _ _ _) as [r0 s0]. injection Hg as <- <-. split_and!; [done..|].
    intros t k' Ht. unfold contents_of. cbn in H2, H4. rewrite H2. by apply H4.
  - intros now k v d s s' Hw Hd Hp. destruct (d =? 0) eqn:Ed; injection Hp as <-.
    + split; [by apply wf_set_shard|]. apply same_from_ext, contents_change; [done|].
      intros k'. by apply entry_delete.
    + split; [by apply wf_set_shard|]. apply same_from_ext, contents_change; [done|].
      intros k'. by apply entry_insert.
  - intros now k v s s' Hw [= <-]. split; [by apply wf_set_shard|].
    apply same_from_ext, contents_change; [done|]. intros k'. by apply entry_insert.
  - intros now k s r s' Hw [= <- <-]. split_and!; [by apply wf_set_shard| |].
    + unfold contents_of, entry. destruct (_ !! _) as [e|]; cbn [live]; [|done].
      by destruct (is_expired e now).
    + apply same_from_ext, contents_change; [done|]. intros k'. by apply entry_delete.
  - intros s s' Hw [= <-]. split; [unfold wf_shards; cbn; by rewrite length_map|].
    intros k. unfold contents_of, entry, shard_map, flush_shards; cbn [shards prefix].
    rewrite list_lookup_fmap. by destruct (shards s !! _).
  - intros now k n s r s' Hw Hb.
    destruct (bump_spec now (prefixed (prefix s) k) n None s Hw) as (H1 & H2 & H3 & H4).
    destruct (bump _ _ _ _ _) as [r0 s0]. injection Hb as <- <-. split_and!; [done..|].
    by apply same_from_ext, contents_change.
  - intros now k n d s r s' Hw Hb.
    destruct (bump_spec now (prefixed (prefix s) k) n (Some d) s Hw) as (H1 & H2 & H3 & H4).
    destruct (bump _ _ _ _ _) as [r0 s0]. injection Hb as <- <-. split_and!; [done..|].
    by apply same_from_ext, contents_change.
  - intros now k s r Hw [= <-]. unfold ttl_of, contents_of, entry.
    destruct (_ !! _) as [e|]; cbn; [|done]. destruct (is_expired e now); [done|].
    by destruct e as [v [at_|]].
Defined.

(** *** Histories *)

(** An event: a client operation, or the background sweep. *)
Definition mem_step {E} (now : Z) (ev : option Op) (s : Inner) : result E (option Out * Inner) :=
  match ev with
  | Some op => let? (o, s) := impl_step (Cache0 := MemoryStore_Cache) now op s in Ok (Some o, s)
  | None => Ok (None, sweep now s)
  end.

Fixpoint mem_run {E} (evs : list (Z * option Op)) (s : Inner) : result E (list (option Out)) :=
  match evs with
  | [] => Ok []
  | (now, ev) :: evs =>
      let? (o, s) := mem_step now ev s in
      let? os := mem_run evs s in Ok (o :: os)
  end.

Fixpoint spec_run (evs : list (Z * option Op)) (c : Contents) : list (option Out) :=
  match evs with
  | [] => []
  | (now, Some op) :: evs =>
      let '(o, c) := spec_step now op c in Some o :: spec_run evs c
  | (_, None) :: evs => None :: spec_run evs c
  end.

(** The clock is monotonic and the durations are not negative. *)
Fixpoint history_ok (now : Z) (evs : list (Z * option Op)) : bool :=
  match evs with
  | [] => true
  | (t, ev) :: evs =>
      (now <=? t) && (match ev with Some op => op_ok op | None => true end) && history_ok t evs
  end.

Lemma sweep_spec now s :
  wf_shards s -> wf_shards (sweep now s) /\
  same_from now (contents_of (sweep now s)) (contents_of s).
Proof.
  intros Hw. split; [unfold wf_shards, sweep; cbn; by rewrite length_map|].
  intros t k Ht. unfold contents_of, entry, shard_map, sweep; cbn [shards prefix].
  rewrite list_lookup_fmap. destruct (shards s !! _) as [m|]; cbn; [|done].
  unfold sweep_map. destruct (m !! _) as [e|] eqn:He.
  - destruct (is_expired e now) eqn:Hx.
    + rewrite (map_lookup_filter_None_2 _ m) by (right; intros e' He'; cbn; rewrite He in He'; congruence).
      symmetry. apply (live_expired now); [done|]. cbn. by rewrite Hx.
    + by rewrite (map_lookup_filter_Some_2 _ m _ e) by done.
  - by rewrite (map_lookup_filter_None_2 _ m) by (left; done).
Qed.

Lemma impl_step_total {E} now op s :
  exists r, impl_step (E := E) (Cache0 := MemoryStore_Cache) now op s = Ok r.
Proof.
  destruct op; cbn [impl_step get put forever forget flush increment increment_within ttl MemoryStore_Cache];
    try destruct (d =? 0);
    try match goal with |- context [match ?x with (_, _) => _ end] => destruct x end; by eexists.
Qed.

Lemma mem_run_refines {E} evs now s c :
  wf_shards s -> same_from now (contents_of s) c -> history_ok now evs = true ->
  mem_run (E := E) evs s = Ok (spec_run evs c).
Proof.
  revert now s c; induction evs as [|[t ev] evs IH]; intros now s c Hw Hs Hok; [done|].
  cbn [history_ok] in Hok. rewrite !andb_true_iff in Hok. destruct Hok as [[Ht%Z.leb_le Hop] Hok].
  apply (same_from_later now t) in Hs; [|done]. cbn [mem_run spec_run]. destruct ev as [op|]; cbn [mem_step].
  - destruct (impl_step_total (E := E) t op s) as [[o s'] Hi]. rewrite Hi.
    destruct (impl_step_refines (LawfulCache0 := MemoryStore_lawful) t op s o s' Hw Hop Hi) as (Hw' & -> & Hs').
    destruct (spec_step_proper t op (contents_of s) c Hs) as [Ho Hc].
    change (contents s) with (contents_of s) in *. rewrite Ho.
    destruct (spec_step t op c) as [o' c'] eqn:Hsp. cbn in Hc |- *.
    rewrite (IH t s' c'); [done|done| |done]. by etrans.
  - destruct (sweep_spec t s Hw) as [Hw' Hs']. rewrite (IH t (sweep t s) c); [done|done| |done]. by etrans.
Qed.

(** C34. The sharded, lazily evicted store behaves as one map with expiry. For any
    hash function and any prefix, every history of operations with a monotonic
    clock, with background sweeps anywhere in between, never fails and returns
    what a single map returns whose entries disappear at their deadline:
    counters created by an increment keep the deadline of their creation,
    others have none. *)
Theorem memory_store_refines_map E prefix now evs :
  history_ok now evs = true ->
  mem_run (E := E) evs (with_options prefix) = Ok (spec_run evs (fun _ => None)).
Proof.
  intros Hok. apply (mem_run_refines evs now); [done| |done]. apply same_from_ext. intros k.
  unfold contents_of, entry, shard_map. cbn [shards with_options].
  destruct (repeat ∅ SHARDS !! _) as [m|] eqn:Hm; [|done].
  apply list_elem_of_lookup_2, list_elem_of_In, repeat_spec in Hm. by subst m.
Qed.

(** Eviction never loses an entry that another task has refreshed. Whatever
    the store has become between the two locks of a read, the second critical
    section returns what is live then and hides nothing a reader could still
    see; nor does a sweep. *)
Theorem eviction_safe now key s :
  wf_shards s ->
  (read_slow now key s).1 = value <$> live now (entry s key) /\
  (forall t k, now <= t -> live t (entry (read_slow now key s).2 k) = live t (entry s k)) /\
  same_from now (contents_of (sweep now s)) (contents_of s).
Proof.
  intros Hw. destruct (read_slow_spec now key s Hw) as (_ & _ & ? & ?).
  split_and!; [done..|]. by apply sweep_spec.
Qed.

End Memory.

Lemma memory_store_refines_map_witness :
  let evs := [(10, Some (OPut (lit "a") Null 5)); (12, Some (OGet (lit "a"))); (13, None);
              (15, Some (OGet (lit "a"))); (16, Some (OIncrementWithin (lit "n") 2 9));
              (20, Some (OIncrementWithin (lit "n") 3 9)); (24, Some (OTtl (lit "n")))] in
  mem_run (E := unit) (fun k => Z.of_nat (length k)) evs (with_options (lit "app:")) =
  Ok [Some Done; Some (Found (Some Null)); None; Some (Found None); Some (Count 2); Some (Count 5);
      Some (Left (Some 1))].
Proof.
  intros evs.
  refine (eq_trans (memory_store_refines_map (fun k => Z.of_nat (length k)) unit (lit "app:") 10 evs eq_refl) _).
  vm_compute. reflexivity.
Defined.

Lemma eviction_safe_witness :
  (read_slow (fun _ => 0) 7 (lit "a") (with_options [])).1 = None.
Proof. apply (eviction_safe (fun _ => 0) 7 (lit "a") (with_options [])). reflexivity. Defined.

End Memory.
