(* ===== verification/RateLimit.v ===== *)
(** * The rate limiter ([rustlavel-cache/src/rate_limit.rs])

    A fixed-window limiter over any cache: one counter per key and window, which
    expires a second after its window ends. The theorem is proved against the
    interface of [Cache], for any store that keeps the interface's laws. *)

From S2P Require Import Prelude Text F64 Json Cache.

Module RateLimit.
Import Json Cache.

Definition NAMESPACE : list Z := lit "rustlavel:throttle:".

Record RateLimit := {
  limit : Z;
  used : Z;
  remaining : Z;
  reset_after : Z;
  exceeded : bool;
}.

(** Durations are nanoseconds, the wall clock counts milliseconds. *)
Definition MILLI : Z := 1000000.
Definition SECOND : Z := 1000000000.

Definition retry_after_seconds (r : RateLimit) : Z := Z.max (reset_after r / SECOND) 1.
Definition reset_at (now_millis : Z) (r : RateLimit) : Z := now_millis / 1000 + reset_after r / SECOND.

Definition window_millis (window : Z) : Z := u64 (Z.max (window / MILLI) 1).

Definition counter (key : list Z) (slot : Z) : list Z := NAMESPACE ++ key ++ lit ":" ++ dec slot.

Section RateLimiter.
Context {S E : Type} `{!Cache S E}.

(** [now_millis] is the wall clock, [now] the store's monotonic clock. *)
Definition attempt (now_millis now : Z) (key : list Z) (lim window : Z) (s : S)
    : result E (RateLimit * S) :=
  let wm := window_millis window in
  let slot := now_millis / wm in
  let ttl_ := u64 (wm + 1000) * MILLI in
  let? (n, s) := increment_within now (counter key slot) 1 ttl_ s in
  let used := Z.max n 0 in
  let window_ends := u64 ((slot + 1) * wm) in
  Ok ({| limit := lim; used := used; remaining := Z.max 0 (lim - used);
         reset_after := Z.max 0 (window_ends - now_millis) * MILLI;
         exceeded := lim <? used |}, s).

Definition used_in (now_millis now : Z) (key : list Z) (window : Z) (s : S) : result E (Z * S) :=
  let slot := now_millis / window_millis window in
  let? (v, s) := get now (counter key slot) s in
  let n := match v with Some v => default 0 (as_i64 v) | None => 0 end in
  Ok (Z.max n 0, s).

Definition too_many (now_millis now : Z) (key : list Z) (lim window : Z) (s : S)
    : result E (bool * S) :=
  let? (n, s) := used_in now_millis now key window s in Ok (lim <=? n, s).

Definition clear (now_millis now : Z) (key : list Z) (window : Z) (s : S) : result E S :=
  let slot := now_millis / window_millis window in
  let? (_, s) := forget now (counter key slot) s in Ok s.

End RateLimiter.

(** ** Counters of different keys and windows are different keys *)

Lemma counter_inj key key' slot slot' :
  0 <= slot -> 0 <= slot' -> counter key slot = counter key' slot' -> key = key' /\ slot = slot'.
Proof.
  intros Hs Hs' H. unfold counter in H. apply app_inv_head in H.
  apply (f_equal (@rev Z)) in H. change (lit ":") with [58] in H. cbn [app] in H.
  rewrite !rev_app_distr in H. cbn [rev] in H. rewrite <- !app_assoc in H. cbn [app] in H.
  assert (Hd : forall n, 0 <= n -> Forall (fun b => b <> 58) (rev (dec n))).
  { intros n Hn. apply Forall_rev. rewrite dec_nonneg by done.
    eapply Forall_impl; [|apply dec_nat_digits]. cbn. lia. }
  apply (f_equal (split_once 58)) in H. rewrite !split_once_app in H by auto.
  injection H as Hslot Hkey.
  apply (f_equal (@rev Z)) in Hslot, Hkey. rewrite !rev_involutive in Hslot, Hkey.
  split; [done|]. by apply dec_inj.
Qed.

(** ** Counting *)

Section counting.
Context {S E : Type} `{!Cache S E, !LawfulCache S E}.

(** The store's clock, as a function of the wall clock: it does not go back, and
    while the wall clock advances it gains less than a second on it. *)
Variable clock : Z -> Z.
Hypothesis clock_mono : forall t t', t <= t' -> clock t <= clock t'.
Hypothesis clock_slack : forall t t', t <= t' -> clock t' - clock t < (t' - t) * MILLI + SECOND.

Variable window : Z.
Hypothesis window_bound : window / MILLI < 2 ^ 62.

Let W := Z.max (window / MILLI) 1.

Lemma window_millis_W : window_millis window = W.
Proof. unfold window_millis. unfold W. rewrite wrap_small; lia. Qed.

(** One attempt: a key, a limit and a wall-clock time. *)
Record Attempt := { a_key : list Z; a_limit : Z; a_time : Z }.

Fixpoint attempts (l : list Attempt) (s : S) : result E (list RateLimit) :=
  match l with
  | [] => Ok []
  | a :: l =>
      let? (r, s) := attempt (a_time a) (clock (a_time a)) (a_key a) (a_limit a) window s in
      let? rs := attempts l s in Ok (r :: rs)
  end.

(** How many attempts of [hist] share the key and the window of [a]. *)
Definition earlier (hist : list Attempt) (key : list Z) (slot : Z) : Z :=
  Z.of_nat (length (List.filter (fun b => bool_decide (a_key b = key) && (a_time b / W =? slot)) hist)).

(** What one attempt has to report after a history. *)
Definition expected (hist : list Attempt) (a : Attempt) : RateLimit :=
  let n := earlier hist (a_key a) (a_time a / W) + 1 in
  {| limit := a_limit a; used := n; remaining := Z.max 0 (a_limit a - n);
     reset_after := ((a_time a / W + 1) * W - a_time a) * MILLI;
     exceeded := a_limit a <? n |}.

Fixpoint all_expected (hist : list Attempt) (l : list Attempt) : list RateLimit :=
  match l with
  | [] => []
  | a :: l => expected hist a :: all_expected (hist ++ [a]) l
  end.

(** Times do not go back and stay in a range where nothing overflows. *)
Fixpoint times_ok (t : Z) (l : list Attempt) : bool :=
  match l with
  | [] => true
  | a :: l => (t <=? a_time a) && (a_time a <? 2 ^ 62) && times_ok (a_time a) l
  end.

(** The invariant: from time [t] on, the counters of the current and of later
    windows hold what the history says, and live as long as their window. *)
Definition counts (s : S) (hist : list Attempt) (t : Z) : Prop :=
  forall key slot, t / W <= slot ->
    let o := contents s (counter key slot) in
    (earlier hist key slot = 0 /\ forall u, clock t <= u -> live u o = None) \/
    (0 < earlier hist key slot /\ exists t0, 0 <= t0 <= t /\ t0 / W = slot /\
       forall u, clock t <= u -> live u o =
         live u (Some {| value := from_int (earlier hist key slot);
                         expires_at := Some (clock t0 + (W + 1000) * MILLI) |})).

Lemma earlier_snoc hist a key slot :
  earlier (hist ++ [a]) key slot =
  earlier hist key slot + (if bool_decide (a_key a = key) && (a_time a / W =? slot) then 1 else 0).
Proof.
  unfold earlier. rewrite List.filter_app, length_app. cbn [List.filter]. destruct (_ && _); cbn; lia.
Qed.

Lemma earlier_nonneg hist key slot : 0 <= earlier hist key slot.
Proof. unfold earlier. lia. Qed.

Lemma earlier_length hist key slot : earlier hist key slot <= Z.of_nat (length hist).
Proof.
  unfold earlier. induction hist as [|b hist IH]; [done|]. cbn [List.filter]. destruct (_ && _); cbn; lia.
Qed.

Lemma same_slot_close t t' : t / W = t' / W -> t' - t < W.
Proof.
  intros H. pose proof (Z.div_mod t W). pose proof (Z.div_mod t' W).
  pose proof (Z.mod_pos_bound t W). pose proof (Z.mod_pos_bound t' W). unfold W. nia.
Qed.

(** What the increment of one attempt finds and leaves. *)
Lemma bumped_counter s hist t a :
  counts s hist t -> 0 <= t <= a_time a -> Z.of_nat (length hist) < 2 ^ 53 - 1 ->
  let key := a_key a in let slot := a_time a / W in
  exists t0, 0 <= t0 <= a_time a /\ t0 / W = slot /\
    bumped (live (clock (a_time a)) (contents s (counter key slot))) 1
      (Some (clock (a_time a) + (W + 1000) * MILLI)) =
    (earlier hist key slot + 1,
     {| value := from_int (earlier hist key slot + 1);
        expires_at := Some (clock t0 + (W + 1000) * MILLI) |}).
Proof.
  intros Hc Ht Hlen key slot. subst key slot. set (t' := a_time a) in *.
  assert (HW : 0 < W) by (unfold W; lia).
  destruct (Hc (a_key a) (t' / W)) as [[H0 Hlive]|(Hpos & t0 & Ht0 & Hslot & Hlive)];
    [apply Z.div_le_mono; lia| |].
  - exists t'. split_and!; [lia..|]. rewrite (Hlive (clock t')) by (apply clock_mono; lia).
    cbn [bumped]. by rewrite H0.
  - exists t0. split_and!; [lia..|]. rewrite (Hlive (clock t')) by (apply clock_mono; lia).
    cbn [live is_expired expires_at].
    pose proof (clock_slack t0 t' ltac:(lia)) as Hsl. pose proof (same_slot_close t0 t' Hslot) as Hw.
    destruct (Z.leb_spec (clock t0 + (W + 1000) * MILLI) (clock t')).
    { exfalso. unfold MILLI, SECOND in *. lia. }
    pose proof (earlier_length hist (a_key a) (t' / W)).
    cbn [bumped value expires_at counter_value from_int].
    rewrite f64_int_roundtrip by (unfold i64_min, i64_max; lia).
    unfold i64_wrap. rewrite Z.mod_small by lia. rewrite Z.add_simpl_r. done.
Qed.

Lemma attempt_expected s hist t a r s' :
  wf s -> counts s hist t -> 0 <= t <= a_time a -> a_time a < 2 ^ 62 ->
  Z.of_nat (length hist) < 2 ^ 53 - 1 ->
  attempt (a_time a) (clock (a_time a)) (a_key a) (a_limit a) window s = Ok (r, s') ->
  r = expected hist a /\ wf s' /\ counts s' (hist ++ [a]) (a_time a).
Proof.
  intros Hw Hc Ht Hb Hlen. unfold attempt. rewrite window_millis_W.
  assert (HW : 0 < W < 2 ^ 62) by (unfold W; lia).
  rewrite (wrap_small 64 (W + 1000)) by lia.
  assert (Hends : 0 <= (a_time a / W + 1) * W < 2 ^ 64 /\ a_time a < (a_time a / W + 1) * W).
  { pose proof (Z.div_mod (a_time a) W). pose proof (Z.mod_pos_bound (a_time a) W).
    pose proof (Z.div_pos (a_time a) W). nia. }
  rewrite wrap_small by lia.
  destruct (increment_within _ _ _ _ s) as [[n s1]|] eqn:Hi; [|done]. intros [= <- <-].
  destruct (increment_within_law _ _ _ _ _ _ _ Hw Hi) as (Hw' & -> & Hs').
  destruct (bumped_counter s hist t a Hc Ht Hlen) as (t0 & Ht0 & Hslot & Hbump).
  rewrite Hbump in *. cbn [fst snd] in *.
  pose proof (earlier_nonneg hist (a_key a) (a_time a / W)).
  split; [|split; [done|]].
  - unfold expected. rewrite !(Z.max_l (_ + 1) 0), (Z.max_r 0 (_ - a_time a)) by lia. done.
  - intros key slot Hle. cbv zeta. rewrite earlier_snoc.
    destruct (bool_decide (a_key a = key) && (a_time a / W =? slot)) eqn:Eq.
    + apply andb_true_iff in Eq as [<-%bool_decide_eq_true <-%Z.eqb_eq]. right. split; [lia|].
      exists t0. split_and!; [lia..|]. intros u Hu. rewrite (Hs' u) by done.
      unfold update. by rewrite decide_True.
    + rewrite Z.add_0_r.
      assert (Hkeep : forall u, clock (a_time a) <= u ->
        live u (contents s1 (counter key slot)) = live u (contents s (counter key slot))).
      { intros u Hu. rewrite (Hs' u) by done. unfold update. rewrite decide_False; [done|].
        intros Heq. apply counter_inj in Heq as [Hk Hsl].
        - rewrite bool_decide_true, (proj2 (Z.eqb_eq _ _) Hsl) in Eq by done. done.
        - apply Z.div_pos; lia.
        - etrans; [|exact Hle]. apply Z.div_pos; lia. }
      assert (Hmono : t / W <= slot) by (etrans; [|exact Hle]; apply Z.div_le_mono; lia).
      destruct (Hc key slot Hmono) as [[H0 Hl]|(Hp & t1 & Ht1 & Hs1 & Hl)].
      * left. split; [done|]. intros u Hu. rewrite Hkeep by done. apply Hl.
        pose proof (clock_mono t (a_time a)). lia.
      * right. split; [done|]. exists t1. split_and!; [lia..|]. intros u Hu. rewrite Hkeep by done.
        apply Hl. pose proof (clock_mono t (a_time a)). lia.
Qed.

Lemma attempts_expected l s hist t rs :
  wf s -> counts s hist t -> 0 <= t -> times_ok t l = true ->
  Z.of_nat (length hist + length l) < 2 ^ 53 ->
  attempts l s = Ok rs -> rs = all_expected hist l.
Proof.
  revert s hist t rs; induction l as [|a l IH]; intros s hist t rs Hw Hc Ht Hok Hlen; cbn [attempts all_expected].
  { by intros [= <-]. }
  cbn [times_ok length] in *. rewrite !andb_true_iff, Z.leb_le, Z.ltb_lt in Hok.
  destruct Hok as [[Hta Hb] Hok].
  destruct (attempt _ _ _ _ _ s) as [[r s1]|] eqn:Ha; [|done].
  destruct (attempts l s1) as [rs'|] eqn:Hl; [|done]. intros [= <-].
  destruct (attempt_expected s hist t a r s1) as (-> & Hw' & Hc'); [done|done|lia|done|lia|done|].
  f_equal. apply (IH s1 _ (a_time a)); [done|done|lia|done| |done]. rewrite length_app. cbn. lia.
Qed.

End counting.

Lemma all_expected_lookup window l : forall hist i a, l !! i = Some a ->
  all_expected window hist l !! i = Some (expected window (hist ++ take i l) a).
Proof.
  induction l as [|b l IH]; [done|]. intros hist [|i] a; cbn [all_expected lookup list_lookup take].
  - intros [= <-]. by rewrite app_nil_r.
  - intros H. rewrite (IH _ _ _ H). by rewrite <- app_assoc.
Qed.

Lemma earlier_zero window hist key slot :
  (forall b, b ∈ hist -> a_key b = key -> a_time b / Z.max (window / MILLI) 1 < slot) -> earlier window hist key slot = 0.
Proof.
  intros H. unfold earlier.
  induction hist as [|b hist IH]; [done|]. cbn [List.filter]. destruct (bool_decide_reflect (a_key b = key)) as [Hk|].
  - pose proof (H b ltac:(left) Hk). rewrite (proj2 (Z.eqb_neq _ _)) by lia. cbn. apply IH. intros c Hc. apply H. by right.
  - cbn. apply IH. intros c Hc. apply H. by right.
Qed.

(** C38. The limiter counts exactly, in fixed windows. Take any store that keeps
    the cache's laws and holds no counter of the limiter yet, whose clock does not
    go back and gains less than a second on the wall clock, and any interleaving of
    attempts on any keys, with one window length, whose wall-clock times do not go
    back. Every attempt is told the number of attempts its key has made in the
    current window, itself included; it is refused exactly when that exceeds its
    limit, so no more than the limit are admitted per window; and it is told the
    exact end of the window. A refused attempt keeps nothing alive, although the
    comment on [attempt] says that hammering does: the first attempt of a key in a
    later window than all its earlier ones, refused or not, is told it is the
    first. *)
Theorem rate_limiter_counts {S E} `{!Cache S E, !LawfulCache S E} (clock : Z -> Z) (window t : Z)
    (l : list Attempt) (s : S) (rs : list RateLimit) :
  (forall t t', t <= t' -> clock t <= clock t') ->
  (forall t t', t <= t' -> clock t' - clock t < (t' - t) * MILLI + SECOND) ->
  window / MILLI < 2 ^ 62 -> wf s -> (forall key slot, contents s (counter key slot) = None) ->
  0 <= t -> times_ok t l = true -> Z.of_nat (length l) < 2 ^ 53 ->
  attempts clock window l s = Ok rs ->
  rs = all_expected window [] l /\
  forall i a, l !! i = Some a ->
    (forall b, b ∈ take i l -> a_key b = a_key a ->
      a_time b / Z.max (window / MILLI) 1 < a_time a / Z.max (window / MILLI) 1) ->
    exists r, rs !! i = Some r /\ used r = 1 /\ exceeded r = (a_limit a <? 1).
Proof.
  intros Hm Hsl Hwin Hw Hnone Ht Hok Hlen Hrun.
  assert (Hrs : rs = all_expected window [] l).
  { apply (attempts_expected clock Hm Hsl window Hwin l s [] t rs); try done.
    intros key slot _. left. split; [done|]. intros u _. by rewrite Hnone. }
  split; [exact Hrs|]. intros i a Hi Hearlier. rewrite Hrs, (all_expected_lookup _ _ _ _ _ Hi).
  eexists. split; [reflexivity|]. cbn [expected used exceeded app]. by rewrite earlier_zero.
Qed.

(** Two keys, a limit of one attempt per second, over the in-memory store. *)
Definition burst : list Attempt :=
  [{| a_key := lit "ann"; a_limit := 1; a_time := 5100 |};
   {| a_key := lit "bob"; a_limit := 1; a_time := 5200 |};
   {| a_key := lit "ann"; a_limit := 1; a_time := 5900 |};
   {| a_key := lit "ann"; a_limit := 1; a_time := 6000 |}].

Lemma rate_limiter_counts_witness :
  let store := Memory.with_options [] in
  exists rs,
    attempts (S := Memory.Inner) (E := unit) (Cache0 := Memory.MemoryStore_Cache (fun _ => 3))
      (fun t => t * MILLI) SECOND burst store = Ok rs /\
    rs = all_expected SECOND [] burst /\ map exceeded rs = [false; false; true; false] /\
    exists r, rs !! 3%nat = Some r /\ used r = 1 /\ exceeded r = false.
Proof.
  cbv zeta. eexists. split; [vm_compute; reflexivity|].
  match goal with |- ?rs = _ /\ _ => assert (H : rs = all_expected SECOND [] burst /\ forall i a, burst !! i = Some a ->
    (forall b, b ∈ take i burst -> a_key b = a_key a -> a_time b / Z.max (SECOND / MILLI) 1 < a_time a / Z.max (SECOND / MILLI) 1) ->
    exists r, rs !! i = Some r /\ used r = 1 /\ exceeded r = (a_limit a <? 1)) end.
  2: { split; [exact (proj1 H)|]. split; [reflexivity|]. apply (proj2 H 3%nat _ eq_refl).
       intros b Hb _. repeat (apply elem_of_cons in Hb as [->|Hb]; [vm_compute; reflexivity|]). by apply elem_of_nil in Hb. }
  apply (rate_limiter_counts (S := Memory.Inner) (E := unit) (Cache0 := Memory.MemoryStore_Cache (fun _ => 3))
    (LawfulCache0 := Memory.MemoryStore_lawful (fun _ => 3))
    (fun t => t * MILLI) SECOND 0 burst (Memory.with_options [])).
  - unfold MILLI. lia.
  - unfold MILLI, SECOND. lia.
  - vm_compute. reflexivity.
  - reflexivity.
  - intros k slot. reflexivity.
  - lia.
  - reflexivity.
  - reflexivity.
  - vm_compute. reflexivity.
Defined.

End RateLimit.
