(* ===== verification/Breaker.v ===== *)
(** * The circuit breaker ([rustlavel-client/src/breaker.rs])

    One circuit per host: closed with a sliding window of outcomes, open for a
    pause, half open with a few probes. The operations are those a client and
    its permits perform; time is the monotonic clock in nanoseconds. *)

From Stdlib Require Import SpecFloat.
From S2P Require Import Prelude Text F64.

Module Breaker.

Definition BUCKETS : Z := 10.

Inductive State := Closed | Open | HalfOpen.

#[export] Instance State_eq_dec : EqDecision State.
Proof. solve_decision. Defined.

Record Settings := {
  failure_rate_limit : f64;
  minimum_calls : Z;
  window : Z;
  reset_after : Z;
  probes : Z;
  is_failure : Z -> bool;
}.

(** The builder: each setter keeps its setting usable. *)
Definition new_settings : Settings :=
  {| failure_rate_limit := S754_finite false 4503599627370496 (-53);
     minimum_calls := 20; window := 60 * 1000000000; reset_after := 30 * 1000000000; probes := 3;
     is_failure := fun status => 500 <=? status |}.

(** [rate.clamp(0.0, 1.0)]. *)
Definition set_failure_rate (s : Settings) (rate : f64) : Settings :=
  let rate := if SFltb rate (f64_of_Z 0) then f64_of_Z 0
              else if SFltb (f64_of_Z 1) rate then f64_of_Z 1 else rate in
  {| failure_rate_limit := rate; minimum_calls := minimum_calls s; window := window s;
     reset_after := reset_after s; probes := probes s; is_failure := is_failure s |}.

Definition count_failure_when (s : Settings) (rule : Z -> bool) : Settings :=
  {| failure_rate_limit := failure_rate_limit s; minimum_calls := minimum_calls s; window := window s;
     reset_after := reset_after s; probes := probes s; is_failure := rule |}.

Definition set_minimum_calls (s : Settings) (calls : Z) : Settings :=
  {| failure_rate_limit := failure_rate_limit s; minimum_calls := Z.max calls 1; window := window s;
     reset_after := reset_after s; probes := probes s; is_failure := is_failure s |}.

Definition set_window (s : Settings) (w : Z) : Settings :=
  {| failure_rate_limit := failure_rate_limit s; minimum_calls := minimum_calls s;
     window := Z.max w (BUCKETS * 1000000);
     reset_after := reset_after s; probes := probes s; is_failure := is_failure s |}.

Definition set_reset_after (s : Settings) (pause : Z) : Settings :=
  {| failure_rate_limit := failure_rate_limit s; minimum_calls := minimum_calls s; window := window s;
     reset_after := pause; probes := probes s; is_failure := is_failure s |}.

Definition set_probes (s : Settings) (n : Z) : Settings :=
  {| failure_rate_limit := failure_rate_limit s; minimum_calls := minimum_calls s; window := window s;
     reset_after := reset_after s; probes := Z.max n 1; is_failure := is_failure s |}.

(** ** One host's circuit *)

(** A bucket: its number, its successes and its failures. *)
Record Bucket := { number : Z; successes : Z; failures_in : Z }.

Record Circuit := {
  buckets : list Bucket;
  origin : option Z;
  opened_at : option Z;
  half_open : bool;
  probes_left : Z;
  probe_successes : Z;
}.

Definition default_circuit : Circuit :=
  {| buckets := []; origin := None; opened_at := None; half_open := false; probes_left := 0;
     probe_successes := 0 |}.

(** [Circuit::state] also moves an open circuit whose pause is over to half
    open. *)
Definition state (c : Circuit) (st : Settings) (now : Z) : State * Circuit :=
  match opened_at c with
  | None => (Closed, c)
  | Some opened =>
      if half_open c then (HalfOpen, c)
      else if reset_after st <=? Z.max 0 (now - opened) then
        (HalfOpen, {| buckets := buckets c; origin := origin c; opened_at := opened_at c;
                      half_open := true; probes_left := probes st; probe_successes := 0 |})
      else (Open, c)
  end.

Definition open (c : Circuit) (now : Z) (st : Settings) : Circuit :=
  {| buckets := []; origin := origin c; opened_at := Some now; half_open := false;
     probes_left := probes st; probe_successes := 0 |}.

Definition close (c : Circuit) : Circuit :=
  {| buckets := []; origin := origin c; opened_at := None; half_open := false;
     probes_left := probes_left c; probe_successes := 0 |}.

(** The slice of the window, and the origin it is counted from. *)
Definition bucket_of (c : Circuit) (now : Z) (st : Settings) : Z * Z :=
  let org := default now (origin c) in
  let width := window st / BUCKETS in
  (u64 (Z.max 0 (now - org) / Z.max width 1), org).

Fixpoint drop_old (bucket : Z) (l : list Bucket) : list Bucket :=
  match l with
  | b :: l' => if number b + BUCKETS <=? bucket then drop_old bucket l' else l
  | [] => []
  end.

(** [buckets.back_mut()]: count in the newest bucket, or start one. *)
Fixpoint count_back (bucket : Z) (failed : bool) (l : list Bucket) : list Bucket :=
  let fresh := {| number := bucket; successes := if failed then 0 else 1;
                  failures_in := if failed then 1 else 0 |} in
  match l with
  | [] => [fresh]
  | [b] =>
      if number b =? bucket then
        [if failed
         then {| number := number b; successes := successes b; failures_in := u32 (failures_in b + 1) |}
         else {| number := number b; successes := u32 (successes b + 1); failures_in := failures_in b |}]
      else [b; fresh]
  | b :: l => b :: count_back bucket failed l
  end.

Definition count (c : Circuit) (now : Z) (st : Settings) (failed : bool) : Circuit :=
  let '(bucket, org) := bucket_of c now st in
  {| buckets := count_back bucket failed (drop_old bucket (buckets c));
     origin := Some org; opened_at := opened_at c; half_open := half_open c;
     probes_left := probes_left c; probe_successes := probe_successes c |}.

Definition sum_by (f : Bucket -> Z) (l : list Bucket) : Z :=
  fold_left (fun acc b => u32 (acc + f b)) l 0.

Definition total (c : Circuit) : Z := sum_by (fun b => u32 (successes b + failures_in b)) (buckets c).
Definition failures (c : Circuit) : Z := sum_by failures_in (buckets c).

Definition failure_rate (c : Circuit) : f64 :=
  if total c =? 0 then f64_of_Z 0
  else f64_div (f64_of_Z (failures c)) (f64_of_Z (total c)).

Definition should_open (c : Circuit) (st : Settings) : bool :=
  match opened_at c with
  | Some _ => false
  | None => (minimum_calls st <=? total c) && f64_ge (failure_rate c) (failure_rate_limit st)
  end.

(** ** The breaker: one circuit per host *)

Abbreviation Hosts := (gmap (list Z) Circuit).

Record Permit := { p_host : list Z; probe : bool }.

(** [Error::Unavailable], with what its text reports. *)
Inductive Refusal := OpenFor (seconds : Z) | BeingProbed.

Definition breaker_state (st : Settings) (now : Z) (host : list Z) (hosts : Hosts) : State * Hosts :=
  match hosts !! host with
  | Some c => let '(s, c) := state c st now in (s, <[host := c]> hosts)
  | None => (Closed, hosts)
  end.

Definition acquire (st : Settings) (now : Z) (host : list Z) (hosts : Hosts)
    : result Refusal Permit * Hosts :=
  let c := default default_circuit (hosts !! host) in
  let '(s, c) := state c st now in
  match s with
  | Closed => (Ok {| p_host := host; probe := false |}, <[host := c]> hosts)
  | Open =>
      let for_another := Z.max 0 (reset_after st - Z.max 0 (now - default now (opened_at c))) in
      (Err (OpenFor (Z.max (for_another / 1000000000) 1)), <[host := c]> hosts)
  | HalfOpen =>
      if 0 <? probes_left c then
        (Ok {| p_host := host; probe := true |},
         <[host := {| buckets := buckets c; origin := origin c; opened_at := opened_at c;
                      half_open := half_open c; probes_left := probes_left c - 1;
                      probe_successes := probe_successes c |}]> hosts)
      else (Err BeingProbed, <[host := c]> hosts)
  end.

(** [CircuitBreaker::record] on the circuit of the permit's host. *)
Definition record_circuit (st : Settings) (now : Z) (was_probe failed : bool) (c : Circuit) : Circuit :=
  let '(s, c) := state c st now in
  match s, was_probe with
  | HalfOpen, true =>
      if failed then open c now st
      else
        let n := u32 (probe_successes c + 1) in
        let c := {| buckets := buckets c; origin := origin c; opened_at := opened_at c;
                    half_open := half_open c; probes_left := probes_left c; probe_successes := n |} in
        if probes st <=? n then close c else c
  | _, true => c
  | _, false =>
      let c := count c now st failed in
      if should_open c st then open c now st else c
  end.

Definition record (st : Settings) (now : Z) (p : Permit) (failed : bool) (hosts : Hosts) : Hosts :=
  match hosts !! p_host p with
  | None => hosts
  | Some c => <[p_host p := record_circuit st now (probe p) failed c]> hosts
  end.

Definition success (st : Settings) (now : Z) (p : Permit) (hosts : Hosts) : Hosts :=
  record st now p false hosts.
Definition failure (st : Settings) (now : Z) (p : Permit) (hosts : Hosts) : Hosts :=
  record st now p true hosts.

Definition record_status (st : Settings) (now : Z) (p : Permit) (status : Z) (hosts : Hosts) : Hosts :=
  if is_failure st status then failure st now p hosts else success st now p hosts.

(** Dropping a permit that was never reported. *)
Definition drop_permit (p : Permit) (hosts : Hosts) : Hosts :=
  if negb (probe p) then hosts
  else match hosts !! p_host p with
       | None => hosts
       | Some c =>
           <[p_host p := {| buckets := buckets c; origin := origin c; opened_at := opened_at c;
                            half_open := half_open c; probes_left := u32 (probes_left c + 1);
                            probe_successes := probe_successes c |}]> hosts
       end.

Definition reset (hosts : Hosts) : Hosts := ∅.

(** ** Histories *)

(** What clients and permits do to a breaker. Any permit may be reported or
    dropped, however old it is. *)
Inductive Event :=
  | EAcquire (host : list Z)
  | EReport (p : Permit) (failed : bool)
  | EDrop (p : Permit)
  | EState (host : list Z).

(** The permit granted, if any, and the circuits afterwards. *)
Definition apply_event (st : Settings) (now : Z) (ev : Event) (hosts : Hosts) : option Permit * Hosts :=
  match ev with
  | EAcquire host =>
      let '(r, hosts) := acquire st now host hosts in
      (match r with Ok p => Some p | Err _ => None end, hosts)
  | EReport p failed => (None, record st now p failed hosts)
  | EDrop p => (None, drop_permit p hosts)
  | EState host => (None, (breaker_state st now host hosts).2)
  end.

Fixpoint run (st : Settings) (evs : list (Z * Event)) (hosts : Hosts) : list Permit * Hosts :=
  match evs with
  | [] => ([], hosts)
  | (now, ev) :: evs =>
      let '(granted, hosts) := apply_event st now ev hosts in
      let '(more, hosts) := run st evs hosts in
      (match granted with Some p => p :: more | None => more end, hosts)
  end.

(** *** An open circuit stays shut for its pause *)

Definition opened (t0 : Z) (hosts : Hosts) (host : list Z) : Prop :=
  exists c, hosts !! host = Some c /\ opened_at c = Some t0 /\ half_open c = false.

Lemma state_open st now t0 c :
  opened_at c = Some t0 -> half_open c = false -> t0 <= now < t0 + reset_after st ->
  state c st now = (Open, c).
Proof.
  intros Ho Hh Ht. unfold state. rewrite Ho, Hh. destruct (Z.leb_spec (reset_after st) (Z.max 0 (now - t0))); [lia|done].
Qed.

Lemma record_circuit_open st now t0 was_probe failed c :
  opened_at c = Some t0 -> half_open c = false -> t0 <= now < t0 + reset_after st ->
  opened_at (record_circuit st now was_probe failed c) = Some t0 /\
  half_open (record_circuit st now was_probe failed c) = false.
Proof.
  intros Ho Hh Ht. unfold record_circuit. rewrite (state_open st now t0) by done.
  destruct was_probe; [done|]. unfold should_open, count.
  destruct (bucket_of c now st) as [b org]. cbn. rewrite Ho. done.
Qed.

Lemma apply_event_open st now t0 ev hosts host :
  opened t0 hosts host -> t0 <= now < t0 + reset_after st ->
  opened t0 (apply_event st now ev hosts).2 host /\
  (forall p, (apply_event st now ev hosts).1 = Some p -> p_host p <> host).
Proof.
  intros (c & Hc & Ho & Hh) Ht. unfold opened.
  destruct ev as [h|p failed|p|h]; cbn [apply_event fst snd].
  - unfold acquire. destruct (decide (h = host)) as [->|Hne].
    + rewrite Hc. cbn [default from_option id]. rewrite (state_open st now t0) by done. cbn [fst snd].
      split; [|done]. exists c. by rewrite lookup_insert_eq.
    + destruct (state _ st now) as [[] c'].
      all: try (destruct (0 <? probes_left c')); cbn [fst snd]; (split; [exists c; by rewrite lookup_insert_ne|]);
        try done; by intros p [= <-].
  - split; [|done]. unfold record. destruct (hosts !! p_host p) as [c'|] eqn:E; [|by exists c].
    destruct (decide (p_host p = host)) as [Heq|Hne]; [|exists c; by rewrite lookup_insert_ne].
    rewrite Heq in *. assert (c' = c) as -> by congruence.
    exists (record_circuit st now (probe p) failed c). rewrite lookup_insert_eq.
    split; [done|]. by apply record_circuit_open.
  - split; [|done]. unfold drop_permit. destruct (probe p); cbn [negb]; [|by exists c].
    destruct (hosts !! p_host p) as [c'|] eqn:E; [|by exists c].
    destruct (decide (p_host p = host)) as [Heq|Hne]; [|exists c; by rewrite lookup_insert_ne].
    rewrite Heq in *. assert (c' = c) as -> by congruence. eexists. by rewrite lookup_insert_eq.
  - split; [|done]. unfold breaker_state. destruct (hosts !! h) as [c'|] eqn:E; [|by exists c].
    destruct (decide (h = host)) as [->|Hne].
    + assert (c' = c) as -> by congruence. rewrite (state_open st now t0) by done. cbn [fst snd].
      exists c. by rewrite lookup_insert_eq.
    + destruct (state c' st now) as [s' c'']. cbn [snd]. exists c. by rewrite lookup_insert_ne.
Qed.

Lemma run_open st t0 evs hosts host :
  opened t0 hosts host -> Forall (fun e => t0 <= e.1 < t0 + reset_after st) evs ->
  opened t0 (run st evs hosts).2 host /\ Forall (fun p => p_host p <> host) (run st evs hosts).1.
Proof.
  intros Ho Hev. revert hosts Ho; induction Hev as [|[now ev] evs Ht Hevs IH]; intros hosts Ho; [by split|].
  cbn [run]. destruct (apply_event_open st now t0 ev hosts host Ho Ht) as [Ho' Hp].
  destruct (apply_event st now ev hosts) as [granted hosts']. cbn [fst snd] in *.
  destruct (IH hosts' Ho') as [Ho'' Hps]. destruct (run st evs hosts') as [more hosts'']. cbn [fst snd] in *.
  split; [done|]. destruct granted as [p|]; [|done]. constructor; [by apply Hp|done].
Qed.

(** An open circuit is left alone. From the moment a circuit opens until its
    pause is over, no history of acquisitions, reports, dropped permits and
    state queries, on this host or others, lets a call to the host through, and
    the circuit is still open, since the same moment, at the end. *)
Theorem open_circuit_refuses st t0 evs hosts host :
  opened t0 hosts host -> Forall (fun e => t0 <= e.1 < t0 + reset_after st) evs ->
  Forall (fun p => p_host p <> host) (run st evs hosts).1 /\ opened t0 (run st evs hosts).2 host.
Proof. intros Ho Hev. destruct (run_open st t0 evs hosts host Ho Hev). done. Qed.

(** One call is enough evidence, and one probe closes. *)
Definition touchy : Settings := set_probes (set_minimum_calls new_settings 1) 1.
Definition call (host : list Z) : Permit := {| p_host := host; probe := false |}.
Definition a_probe (host : list Z) : Permit := {| p_host := host; probe := true |}.

Definition tripped : Hosts :=
  (run touchy [(0, EAcquire (lit "api")); (1, EReport (call (lit "api")) true)] ∅).2.

Lemma open_circuit_refuses_witness :
  opened 1 tripped (lit "api") /\
  Forall (fun p => p_host p <> lit "api")
    (run touchy [(2, EAcquire (lit "api")); (3, EReport (call (lit "api")) false);
                 (29 * 1000000000, EAcquire (lit "api"))] tripped).1.
Proof.
  assert (H : opened 1 tripped (lit "api")) by (eexists; split; [vm_compute; reflexivity|by split]).
  split; [exact H|]. apply (open_circuit_refuses touchy 1); [exact H|].
  by apply (bool_decide_unpack _).
Defined.

(** *** The sliding window is exact *)

Section window.
Variables (st : Settings) (org : Z).

(** The slice a time falls in, and an outcome with its time. *)
Definition slice_of (t : Z) : Z := Z.max 0 (t - org) / Z.max (window st / BUCKETS) 1.
Abbreviation Outcome := (Z * bool)%type.

(** The window at slice [cur]: the last ten slices. *)
Definition in_window (cur : Z) (e : Outcome) : bool := negb (slice_of e.1 + BUCKETS <=? cur).

(** Buckets as the outcomes they summarise. *)
Definition summary (h : list Outcome) : list Bucket :=
  fold_left (fun l e => count_back (slice_of e.1) e.2 l) h [].

Lemma summary_snoc h e : summary (h ++ [e]) = count_back (slice_of e.1) e.2 (summary h).
Proof. unfold summary. by rewrite fold_left_app. Qed.

Lemma count_back_nonempty b f l : count_back b f l <> [].
Proof. destruct l as [|x [|y l]]; cbn; [done|by destruct (_ =? _)|done]. Qed.

Lemma count_back_app b f l l' : l' <> [] -> count_back b f (l ++ l') = l ++ count_back b f l'.
Proof.
  intros Hl'. induction l as [|x l IH]; [done|]. cbn [app].
  destruct (l ++ l') as [|y r] eqn:E; [by destruct l, l'|].
  transitivity (x :: count_back b f (y :: r)); [done|]. by rewrite IH.
Qed.

Lemma count_back_numbers b f l x :
  In x (count_back b f l) -> number x = b \/ exists y, In y l /\ number y = number x.
Proof.
  induction l as [|y l IH]; [intros [<-|[]]; by left|].
  destruct l as [|z l].
  - cbn. destruct (Z.eqb_spec (number y) b) as [E|E].
    + intros [<-|[]]. left. by destruct f.
    + intros [<-|[<-|[]]]; [right; exists y; split; [by left|done]|by left].
  - change (count_back b f (y :: z :: l)) with (y :: count_back b f (z :: l)).
    intros [<-|Hin]; [right; exists y; split; [by left|done]|].
    destruct (IH Hin) as [?|(w & ? & ?)]; [by left|right; exists w; split; [by right|done]].
Qed.

Lemma summary_numbers h x : In x (summary h) -> exists e, In e h /\ number x = slice_of e.1.
Proof.
  revert x; induction h as [|e h IH] using rev_ind; intros x; [done|]. rewrite summary_snoc.
  intros [->|(y & Hy & <-)]%count_back_numbers.
  - exists e. split; [apply in_app_iff; right; by left|done].
  - destruct (IH y Hy) as (e' & ? & ?). exists e'. split; [apply in_app_iff; by left|done].
Qed.

(** A bucket that is not the newest one's is appended. *)
Lemma count_back_fresh b f l :
  (forall x, In x l -> number x <> b) -> count_back b f l = l ++ count_back b f [].
Proof.
  induction l as [|x l IH]; intros H; [done|]. destruct l as [|y l].
  - cbn. rewrite (proj2 (Z.eqb_neq _ _)) by (apply H; by left). done.
  - change (count_back b f (x :: y :: l)) with (x :: count_back b f (y :: l)).
    rewrite IH; [done|]. intros z Hz. apply H. by right.
Qed.

Lemma summary_app h h' :
  (forall e e', In e h -> In e' h' -> slice_of e.1 <> slice_of e'.1) ->
  summary (h ++ h') = summary h ++ summary h'.
Proof.
  induction h' as [|e h' IH] using rev_ind; intros H; [by rewrite !app_nil_r|].
  assert (IH' : summary (h ++ h') = summary h ++ summary h').
  { apply IH. intros x y Hx Hy. apply H; [done|]. apply in_app_iff. by left. }
  rewrite app_assoc, !summary_snoc, IH'. destruct h' as [|e' h'].
  - cbn [summary fold_left app]. rewrite app_nil_r. apply count_back_fresh.
    intros x (e0 & Hin & ->)%summary_numbers. apply H; [done|]. apply in_app_iff. right. by left.
  - apply count_back_app. destruct (exists_last (l := e' :: h')) as (h0 & e0 & ->); [done|].
    rewrite summary_snoc. apply count_back_nonempty.
Qed.

Lemma drop_old_app b l l' :
  (forall x, In x l -> number x + BUCKETS <= b) -> (forall x, In x l' -> b < number x + BUCKETS) ->
  drop_old b (l ++ l') = l'.
Proof.
  intros H H'. induction l as [|x l IH]; cbn [app drop_old].
  - destruct l' as [|y l']; [done|]. cbn. rewrite (proj2 (Z.leb_gt _ _)); [done|]. apply H'. by left.
  - rewrite (proj2 (Z.leb_le _ _)) by (apply H; by left). apply IH. intros; apply H; by right.
Qed.

(** Outcomes in the order they were recorded. *)
Definition in_order (h : list Outcome) : Prop :=
  forall i j e e', (i <= j)%nat -> h !! i = Some e -> h !! j = Some e' -> slice_of e.1 <= slice_of e'.1.

Lemma in_order_split b h :
  in_order h ->
  exists old new, h = old ++ new /\ new = List.filter (in_window b) h /\
    (forall e, In e old -> slice_of e.1 + BUCKETS <= b) /\ (forall e, In e new -> b < slice_of e.1 + BUCKETS).
Proof.
  induction h as [|e h IH]; intros Hs.
  { exists [], []. by split_and!. }
  destruct IH as (old & new & -> & Hnew & Hold & Hin).
  { intros i j x y Hij Hx Hy. apply (Hs (S i) (S j) x y); [lia|done..]. }
  cbn [List.filter]. unfold in_window at 1. destruct (Z.leb_spec (slice_of e.1 + BUCKETS) b) as [Hle|Hgt]; cbn [negb].
  - exists (e :: old), new. split_and!; [done..| |done]. intros x [<-|Hx]; [done|by apply Hold].
  - assert (old = []) as ->.
    { destruct old as [|o old]; [done|]. specialize (Hs 0%nat 1%nat e o ltac:(lia) eq_refl eq_refl).
      specialize (Hold o ltac:(by left)). lia. }
    exists [], (e :: new). cbn [app] in *. split_and!; [done|by rewrite <- Hnew|done|].
    intros x [<-|Hx]; [done|by apply Hin].
Qed.
Lemma drop_summary b h :
  in_order h -> drop_old b (summary h) = summary (List.filter (in_window b) h).
Proof.
  intros Hs. destruct (in_order_split b h Hs) as (old & new & -> & Hnew & Hold & Hin). rewrite <- Hnew.
  rewrite summary_app by (intros e e' He He'; specialize (Hold _ He); specialize (Hin _ He'); lia).
  apply drop_old_app; intros x (e & He & ->)%summary_numbers; [by apply Hold|by apply Hin].
Qed.

Lemma in_order_snoc h e : in_order (h ++ [e]) -> in_order h.
Proof.
  intros H i j x y Hij Hx Hy. apply (H i j); [done|by apply lookup_app_l_Some..].
Qed.

Lemma filter_filter_window b b' h :
  b <= b' -> List.filter (in_window b') (List.filter (in_window b) h) = List.filter (in_window b') h.
Proof.
  intros Hb. induction h as [|e h IH]; [done|]. cbn [List.filter].
  destruct (in_window b e) eqn:E; cbn [List.filter]; rewrite IH; [done|].
  destruct (in_window b' e) eqn:E'; [|done]. unfold in_window in *. lia.
Qed.

Lemma in_order_filter f h : in_order h -> in_order (List.filter f h).
Proof.
  induction h as [|e h IH]; intros Hs; [done|].
  assert (Hs' : in_order h) by (intros i j x y Hij Hx Hy; apply (Hs (S i) (S j) x y); [lia|done..]).
  cbn [List.filter]. destruct (f e); [|by apply IH]. specialize (IH Hs').
  intros [|i] [|j] x y Hij Hx Hy; cbn in *; simplify_eq; try lia.
  - apply list_elem_of_lookup_2, list_elem_of_In, filter_In in Hy as [Hy _].
    apply list_elem_of_In, list_elem_of_lookup in Hy as [k Hk]. apply (Hs 0%nat (S k)); [lia|done..].
  - apply (IH i j); [lia|done..].
Qed.

(** The counts of a list of buckets, unbounded. *)
Fixpoint plain (f : Bucket -> Z) (l : list Bucket) : Z :=
  match l with [] => 0 | b :: l => f b + plain f l end.
Definition nonneg (l : list Bucket) : Prop :=
  Forall (fun b => 0 <= successes b /\ 0 <= failures_in b) l.

Lemma sum_by_plain f l acc :
  Forall (fun b => 0 <= f b) l -> 0 <= acc -> acc + plain f l < 2 ^ 32 ->
  fold_left (fun acc b => u32 (acc + f b)) l acc = acc + plain f l.
Proof.
  intros Hl. revert acc; induction Hl as [|b l Hb Hl IH]; intros acc Ha Hlt; cbn [fold_left plain] in *; [lia|].
  assert (0 <= plain f l) by (clear - Hl; induction Hl; cbn [plain]; lia).
  rewrite (wrap_small 32) by lia. rewrite IH by lia. lia.
Qed.

Lemma count_back_plain b failed l :
  nonneg l -> plain successes l + plain failures_in l < 2 ^ 32 - 1 ->
  nonneg (count_back b failed l) /\
  plain successes (count_back b failed l) = plain successes l + (if failed then 0 else 1) /\
  plain failures_in (count_back b failed l) = plain failures_in l + (if failed then 1 else 0).
Proof.
  intros Hn. induction Hn as [|x l Hx Hl IH]; intros Hlt.
  { destruct failed; cbn; (split; [repeat constructor|]); done. }
  assert (Hp : 0 <= plain successes l /\ 0 <= plain failures_in l) by (clear - Hl; induction Hl; cbn [plain]; lia).
  destruct l as [|y l].
  - cbn [plain] in *. cbn [count_back].
    destruct (number x =? b), failed; cbn [plain successes failures_in]; rewrite ?(wrap_small 32) by lia;
      (split; [repeat (apply Forall_cons_2; [cbn [successes failures_in];
                 rewrite ?(wrap_small 32) by lia; lia|]); apply Forall_nil_2|]); lia.
  - change (count_back b failed (x :: y :: l)) with (x :: count_back b failed (y :: l)).
    cbn [plain] in Hlt, Hp |- *. destruct IH as (H1 & H2 & H3); [cbn [plain]; lia|].
    split; [by constructor|]. cbn [plain] in H2, H3. lia.
Qed.

Lemma summary_plain h :
  Z.of_nat (length h) < 2 ^ 32 ->
  nonneg (summary h) /\
  plain successes (summary h) + plain failures_in (summary h) = Z.of_nat (length h) /\
  plain failures_in (summary h) = Z.of_nat (length (List.filter snd h)).
Proof.
  induction h as [|e h IH] using rev_ind; intros Hlen; [split; [apply Forall_nil_2|done]|].
  rewrite length_app in Hlen. cbn in Hlen. destruct IH as (H1 & H2 & H3); [lia|].
  rewrite summary_snoc.
  destruct (count_back_plain (slice_of e.1) e.2 (summary h) H1 ltac:(lia)) as (N & S1 & S2).
  split; [done|]. rewrite List.filter_app, !length_app. cbn [List.filter length].
  destruct (e.2); cbn [length]; lia.
Qed.

Lemma plain_wrap l :
  nonneg l -> plain successes l + plain failures_in l < 2 ^ 32 ->
  plain (fun b => u32 (successes b + failures_in b)) l = plain successes l + plain failures_in l /\
  Forall (fun b => 0 <= u32 (successes b + failures_in b)) l /\ Forall (fun b => 0 <= failures_in b) l.
Proof.
  intros Hn. induction Hn as [|x l Hx Hl IH]; intros Hlt; [split_and!; [done|apply Forall_nil_2..]|].
  assert (0 <= plain successes l /\ 0 <= plain failures_in l) by (clear - Hl; induction Hl; cbn [plain]; lia).
  cbn [plain] in Hlt |- *. destruct IH as (H1 & H2 & H3); [lia|]. rewrite H1.
  rewrite (wrap_small 32) by lia. split; [lia|]. split; constructor; [|done| |done]; [|lia].
  rewrite (wrap_small 32); lia.
Qed.

(** Recording outcomes on a circuit whose window is empty. *)
Definition count_all (c : Circuit) (h : list Outcome) : Circuit :=
  fold_left (fun c e => count c e.1 st e.2) h c.

Lemma count_all_buckets c h e :
  origin c = Some org -> buckets c = [] -> in_order (h ++ [e]) ->
  Forall (fun e => slice_of e.1 < 2 ^ 64) (h ++ [e]) ->
  buckets (count_all c (h ++ [e])) = summary (List.filter (in_window (slice_of e.1)) (h ++ [e])) /\
  origin (count_all c (h ++ [e])) = Some org.
Proof.
  intros Ho Hb. assert (Hstep : forall c e, origin c = Some org -> slice_of e.1 < 2 ^ 64 ->
    buckets (count c e.1 st e.2) = count_back (slice_of e.1) e.2 (drop_old (slice_of e.1) (buckets c)) /\
    origin (count c e.1 st e.2) = Some org).
  { clear. intros c [t f] Ho Hs. unfold count, bucket_of. rewrite Ho. cbn [default from_option id].
    fold (slice_of t). cbn in *. rewrite (wrap_small 64); [done|]. split; [|done].
    apply Z.div_pos; lia. }
  assert (Hself : forall e, in_window (slice_of e.1) e = true)
    by (intros; unfold in_window, BUCKETS; lia).
  revert e; induction h as [|e0 h IH] using rev_ind; intros e Hs Hf.
  { cbn [app count_all fold_left List.filter]. rewrite Hself. apply Forall_cons_1 in Hf as [Hf _].
    destruct (Hstep c e Ho Hf) as [-> ->]. rewrite Hb. done. }
  apply Forall_app in Hf as [Hf He]. apply Forall_cons_1 in He as [He _].
  destruct (IH e0) as [Hbk Hor]; [by eapply in_order_snoc|done|].
  unfold count_all. rewrite fold_left_app. cbn [fold_left]. fold (count_all c (h ++ [e0])).
  destruct (Hstep (count_all c (h ++ [e0])) e Hor He) as [-> ->]. split; [|done].
  pose proof (in_order_snoc _ _ Hs) as Hs'.
  rewrite Hbk, drop_summary by (by apply in_order_filter).
  rewrite filter_filter_window.
  - rewrite (List.filter_app _ (h ++ [e0]) [e]). cbn [List.filter]. rewrite Hself, summary_snoc. done.
  - apply (Hs (length h) (length (h ++ [e0])) e0 e); [rewrite length_app; cbn; lia| |].
    + rewrite lookup_app_l by (rewrite length_app; cbn; lia). by rewrite list_lookup_middle.
    + by rewrite list_lookup_middle.
Qed.
End window.

(** The sliding window is exact. After any sequence of outcomes recorded in
    time order on a circuit with an empty window, [total] and [failures] are the
    numbers of calls and of failed calls among the outcomes that fall in the last
    ten slices, counted from the slice of the latest one; older evidence is
    dropped and none is counted twice. *)
Theorem window_exact st org c h e :
  origin c = Some org -> buckets c = [] -> in_order st org (h ++ [e]) ->
  Forall (fun e => slice_of st org e.1 < 2 ^ 64) (h ++ [e]) -> Z.of_nat (length (h ++ [e])) < 2 ^ 32 ->
  let recent := List.filter (in_window st org (slice_of st org e.1)) (h ++ [e]) in
  total (count_all st c (h ++ [e])) = Z.of_nat (length recent) /\
  failures (count_all st c (h ++ [e])) = Z.of_nat (length (List.filter snd recent)).
Proof.
  intros Ho Hb Hs Hf Hlen recent.
  destruct (count_all_buckets st org c h e Ho Hb Hs Hf) as [Hbk _]. fold recent in Hbk.
  assert (Hr : Z.of_nat (length recent) < 2 ^ 32).
  { subst recent. pose proof (List.filter_length_le (in_window st org (slice_of st org e.1)) (h ++ [e])). lia. }
  destruct (summary_plain st org recent Hr) as (N & S1 & S2).
  destruct (plain_wrap (summary st org recent) N ltac:(lia)) as (P1 & P2 & P3).
  unfold total, failures, sum_by. rewrite Hbk.
  assert (0 <= plain successes (summary st org recent)) by (clear - N; induction N; cbn [plain]; lia).
  rewrite !sum_by_plain by (done || lia). lia.
Qed.

Lemma window_exact_witness :
  let st := set_window new_settings (100 * 1000000) in
  let c := {| buckets := []; origin := Some 0; opened_at := None; half_open := false;
              probes_left := 0; probe_successes := 0 |} in
  let h := [(5, true); (20 * 1000000, false)] in
  let e := (105 * 1000000, true) in
  total (count_all st c (h ++ [e])) = 2 /\ failures (count_all st c (h ++ [e])) = 1.
Proof.
  intros st c h e.
  change 2 with (Z.of_nat (length (List.filter (in_window st 0 (slice_of st 0 e.1)) (h ++ [e])))).
  change 1 with (Z.of_nat (length (List.filter snd
    (List.filter (in_window st 0 (slice_of st 0 e.1)) (h ++ [e]))))) at 1.
  apply (window_exact st 0 c h e eq_refl eq_refl).
  - intros [|[|[|i]]] [|[|[|j]]] x y Hij Hx Hy; cbn in Hx, Hy; simplify_eq; vm_compute; congruence || lia.
  - by apply (bool_decide_unpack _).
  - reflexivity.
Defined.

(** *** Half open *)

(** Probes that succeeded one after the other. *)
Definition probe_all (st : Settings) (c : Circuit) (ts : list Z) : Circuit :=
  fold_left (fun c t => record_circuit st t true false c) ts c.

Lemma record_probe st t c t0 failed :
  opened_at c = Some t0 -> half_open c = true ->
  record_circuit st t true failed c =
  if failed then open c t st
  else
    let n := u32 (probe_successes c + 1) in
    let c' := {| buckets := buckets c; origin := origin c; opened_at := opened_at c;
                 half_open := half_open c; probes_left := probes_left c; probe_successes := n |} in
    if probes st <=? n then close c' else c'.
Proof. intros Ho Hh. unfold record_circuit, state. by rewrite Ho, Hh, ?Ho, ?Hh. Qed.

Lemma probe_all_below st c t0 ts :
  opened_at c = Some t0 -> half_open c = true -> probe_successes c = 0 -> probes st < 2 ^ 32 ->
  Z.of_nat (length ts) < probes st ->
  opened_at (probe_all st c ts) = Some t0 /\ half_open (probe_all st c ts) = true /\
  probe_successes (probe_all st c ts) = Z.of_nat (length ts).
Proof.
  intros Ho Hh Hp Hlt. induction ts as [|t ts IH] using rev_ind; intros Hlen; [done|].
  rewrite length_app in *. cbn [length] in *. destruct IH as (Ho' & Hh' & Hp'); [lia|].
  unfold probe_all. rewrite fold_left_app. cbn [fold_left]. fold (probe_all st c ts).
  rewrite (record_probe _ _ _ t0) by done. cbv zeta. rewrite Hp', (wrap_small 32) by lia.
  destruct (Z.leb_spec (probes st) (Z.of_nat (length ts) + 1)); [lia|].
  cbn [opened_at half_open probe_successes]. split_and!; [done..|lia].
Qed.

(** Half open is left in exactly two ways. Fewer successful probes than
    configured keep the circuit half open; the last one closes it with an empty
    window; and a failed probe at any point before reopens it from that moment,
    with all its probes and an empty window. *)
Theorem half_open_resolution st c t0 ts t :
  opened_at c = Some t0 -> half_open c = true -> probe_successes c = 0 -> probes st < 2 ^ 32 ->
  Z.of_nat (length ts) < probes st ->
  let c' := probe_all st c ts in
  (half_open c' = true /\ opened_at c' = Some t0) /\
  record_circuit st t true true c' = open c' t st /\
  (Z.of_nat (length ts) + 1 = probes st ->
     let closed := record_circuit st t true false c' in
     opened_at closed = None /\ half_open closed = false /\ buckets closed = []).
Proof.
  intros Ho Hh Hp Hlt Hlen. cbv zeta.
  destruct (probe_all_below st c t0 ts Ho Hh Hp Hlt Hlen) as (Ho' & Hh' & Hp').
  split; [done|]. rewrite !(record_probe _ _ _ t0) by done. split; [done|]. intros Hlast. cbv zeta.
  rewrite Hp', (wrap_small 32) by lia. by rewrite (proj2 (Z.leb_le _ _)) by lia.
Qed.

Lemma half_open_resolution_witness :
  let c := {| buckets := []; origin := Some 0; opened_at := Some 7; half_open := true;
              probes_left := 1; probe_successes := 0 |} in
  opened_at (record_circuit new_settings 12 true false (probe_all new_settings c [10; 11])) = None.
Proof.
  intros c. apply (half_open_resolution new_settings c 7 [10; 11] 12 eq_refl eq_refl eq_refl);
    reflexivity.
Defined.

(** *** Two ways a stale permit is believed *)

Definition two_probes : Settings := set_probes (set_minimum_calls new_settings 1) 2.
Definition SEC : Z := 1000000000.

(** Dropping a probe from an earlier half-open episode adds a permit to the
    current one, so with two probes configured three are in flight at once. *)
Theorem stale_probe_overfills :
  let api := lit "api" in
  let evs := [(0, EAcquire api); (1, EReport (call api) true);                (* opens *)
              (40 * SEC, EAcquire api); (40 * SEC, EAcquire api);             (* two probes *)
              (41 * SEC, EReport (a_probe api) true);                         (* one fails: opens *)
              (80 * SEC, EAcquire api); (80 * SEC, EAcquire api);             (* two new probes *)
              (81 * SEC, EDrop (a_probe api));                                (* the old one is dropped *)
              (82 * SEC, EAcquire api)] in
  (run two_probes evs ∅).1 =
  [call api; a_probe api; a_probe api; a_probe api; a_probe api; a_probe api] /\
  (run two_probes (take 7 evs) ∅).1 =
  [call api; a_probe api; a_probe api; a_probe api; a_probe api] /\
  probes two_probes = 2.
Proof. split_and!; vm_compute; reflexivity. Qed.

(** A call that started before the circuit opened and fails after it closed
    is counted, and can reopen the circuit that has just closed. *)
Theorem stale_outcome_reopens :
  let api := lit "api" in
  let evs := [(0, EAcquire api); (0, EAcquire api); (1, EReport (call api) true);
              (40 * SEC, EAcquire api); (41 * SEC, EReport (a_probe api) false)] in
  let hosts := (run touchy evs ∅).2 in
  (breaker_state touchy (42 * SEC) api hosts).1 = Closed /\
  (breaker_state touchy (44 * SEC) api
     (run touchy [(43 * SEC, EReport (call api) true)] hosts).2).1 = Open.
Proof. split; vm_compute; reflexivity. Qed.

End Breaker.
