(* ===== verification/Url.v ===== *)
(** * URL encoding ([rustlavel-http/src/url.rs])

    Percent encoding, query strings, and the normalisation of paths before files
    are served from disk. *)

From S2P Require Import Prelude Text.

Module Url.

Definition hex_digit (b : Z) : option Z :=
  if in_range 48 57 b then Some (b - 48)
  else if in_range 97 102 b then Some (b - 97 + 10)
  else if in_range 65 70 b then Some (b - 65 + 10)
  else None.

Definition hex_pair (high low : Z) : option Z :=
  let! h := hex_digit high in
  let! l := hex_digit low in
  Some (Z.lor (u8 (Z.shiftl h 4)) l).

(** The loop of [decode]: [i + 2 < bytes.len()] says that two bytes follow. *)
Fixpoint decode_loop (bs : list Z) : list Z :=
  match bs with
  | [] => []
  | b :: rest =>
      if b =? 37 then
        match rest with
        | high :: low :: rest' =>
            match hex_pair high low with
            | Some byte => byte :: decode_loop rest'
            | None => 37 :: decode_loop rest
            end
        | _ => b :: decode_loop rest
        end
      else if b =? 43 then 32 :: decode_loop rest
      else b :: decode_loop rest
  end.

Definition decode (input : list Z) : list Z :=
  if negb (bool_decide (37 ∈ input)) && negb (bool_decide (43 ∈ input)) then input
  else utf8_lossy (decode_loop input).

Definition unreserved (b : Z) : bool :=
  in_range 65 90 b || in_range 97 122 b || in_range 48 57 b ||
  (b =? 45) || (b =? 95) || (b =? 46) || (b =? 126).

(** One digit of [{:02X}]. *)
Definition hex_upper (d : Z) : Z := if d <? 10 then 48 + d else 55 + d.

Definition encode_byte (b : Z) : list Z :=
  if unreserved b then [b] else [37; hex_upper (b / 16); hex_upper (b mod 16)].

Definition encode (input : list Z) : list Z := concat (map encode_byte input).

Definition parse_query (query : list Z) : list (list Z * list Z) :=
  map (fun part => match split_once 61 part with
                   | Some (key, value) => (decode key, decode value)
                   | None => (decode part, [])
                   end)
      (List.filter (fun part => negb (bool_decide (part = []))) (split_on 38 query)).

Definition split_target (target : list Z) : list Z * list Z :=
  match split_once 63 target with
  | Some (path, query) => (path, query)
  | None => (target, [])
  end.

(** The loop of [normalize_path]; the stack is kept newest first. *)
Fixpoint normalize_loop (parts segments : list (list Z)) : option (list (list Z)) :=
  match parts with
  | [] => Some segments
  | s :: parts =>
      if bool_decide (s = []) || bool_decide (s = lit ".") then normalize_loop parts segments
      else if bool_decide (s = lit "..") then
        match segments with
        | [] => None
        | _ :: segments => normalize_loop parts segments
        end
      else if bool_decide (92 ∈ s) || bool_decide (0 ∈ s) then None
      else normalize_loop parts (s :: segments)
  end.

Definition normalize_path (path : list Z) : option (list Z) :=
  let! segments := normalize_loop (split_on 47 path) [] in
  Some (lit "/" ++ join (lit "/") (rev segments)).

(** ** Encoding round trips *)

(** The bytes [encode] writes. *)
Definition url_byte (b : Z) : Prop := unreserved b = true \/ b = 37.

Lemma hex_pair_upper b :
  0 <= b < 256 ->
  hex_pair (hex_upper (b / 16)) (hex_upper (b mod 16)) = Some b /\
  unreserved (hex_upper (b / 16)) = true /\ unreserved (hex_upper (b mod 16)) = true.
Proof.
  intros Hb.
  pose proof (forall_below 256 (fun b =>
    match hex_pair (hex_upper (b / 16)) (hex_upper (b mod 16)) with Some c => c =? b | None => false end &&
    unreserved (hex_upper (b / 16)) && unreserved (hex_upper (b mod 16)))
    ltac:(vm_compute; reflexivity) b Hb) as H.
  cbv beta in H. rewrite !andb_true_iff in H. destruct H as [[H1 H2] H3]. split; [|done].
  destruct (hex_pair _ _) as [c|]; [|done]. by apply Z.eqb_eq in H1 as ->.
Qed.

Lemma unreserved_plain b : unreserved b = true -> b <> 37 /\ b <> 43 /\ b <> 47 /\ b <> 38 /\ b <> 61.
Proof. unfold unreserved, in_range. lia. Qed.

Lemma encode_byte_bytes b : 0 <= b < 256 -> Forall url_byte (encode_byte b).
Proof.
  intros Hb. unfold encode_byte. destruct (unreserved b) eqn:E.
  - repeat constructor. done.
  - destruct (hex_pair_upper b Hb) as (_ & H1 & H2).
    repeat apply Forall_cons_2; [by right|by left..|apply Forall_nil_2].
Qed.

Lemma url_encode_bytes l : bytes l -> Forall url_byte (encode l).
Proof.
  induction 1 as [|b l Hb Hl IH]; [apply Forall_nil_2|].
  unfold encode. cbn. apply Forall_app. split; [by apply encode_byte_bytes|done].
Qed.

Lemma decode_loop_encode l rest : bytes l -> decode_loop (encode l ++ rest) = l ++ decode_loop rest.
Proof.
  induction 1 as [|b l Hb Hl IH]; [done|]. unfold encode. cbn [map concat]. fold (encode l).
  rewrite <- app_assoc. unfold encode_byte. destruct (unreserved b) eqn:E.
  - apply unreserved_plain in E as (? & ? & _). cbn [app decode_loop].
    by rewrite !(proj2 (Z.eqb_neq _ _)), IH by done.
  - destruct (hex_pair_upper b Hb) as (H1 & _). cbn [app decode_loop Z.eqb Pos.eqb].
    by rewrite H1, IH.
Qed.

Lemma decode_encode_valid l : bytes l -> utf8_valid l = true -> decode (encode l) = l.
Proof.
  intros Hl Hu. unfold decode. pose proof (decode_loop_encode l [] Hl) as Hd.
  rewrite !app_nil_r in Hd. destruct (_ && _) eqn:E; [|by rewrite Hd, utf8_lossy_valid].
  apply andb_true_iff in E as [Hp%negb_true_iff%bool_decide_eq_false _].
  (* nothing was escaped *)
  clear Hd Hu. induction Hl as [|b l Hb Hl IH]; [done|].
  unfold encode in *. cbn [map concat] in *. unfold encode_byte in *. destruct (unreserved b).
  - cbn [app] in *. rewrite IH; [done|]. intros Hin. apply Hp. by right.
  - exfalso. apply Hp. by left.
Qed.

(** Percent encoding is lossless. Decoding an encoded text gives the text
    back; and a query string built from encoded keys and values parses to
    exactly those pairs, in order, duplicates kept, whatever the texts contain. *)
Theorem encode_roundtrip (pairs : list (list Z * list Z)) :
  Forall (fun kv => bytes kv.1 /\ bytes kv.2 /\ utf8_valid kv.1 = true /\ utf8_valid kv.2 = true) pairs ->
  Forall (fun kv => decode (encode kv.1) = kv.1 /\ decode (encode kv.2) = kv.2) pairs /\
  parse_query (join (lit "&") (map (fun kv => encode kv.1 ++ lit "=" ++ encode kv.2) pairs)) = pairs.
Proof.
  intros Hp. split.
  { eapply Forall_impl; [|exact Hp]. intros [k v] (? & ? & ? & ?). cbn in *.
    split; by apply decode_encode_valid. }
  assert (Hsep : Forall (Forall (fun b => b <> 38)) (map (fun kv => encode kv.1 ++ lit "=" ++ encode kv.2) pairs)).
  { apply Forall_map. eapply Forall_impl; [|exact Hp]. intros [k v] (Hk & Hv & _). cbn [fst snd].
    assert (H : forall l, bytes l -> Forall (fun b => b <> 38) (encode l)).
    { intros l Hl. eapply Forall_impl; [|by apply url_encode_bytes].
      intros b [E%unreserved_plain| ->]; lia. }
    rewrite !Forall_app. split_and!; [by apply H|by apply (bool_decide_unpack _)|by apply H]. }
  unfold parse_query. destruct (decide (pairs = [])) as [->|Hne]; [done|].
  rewrite split_on_join by (done || by destruct pairs). clear Hsep Hne.
  induction Hp as [|[k v] pairs (Hk & Hv & Uk & Uv) Hp IH]; [done|]. cbn [fst snd] in *.
  change (lit "=") with [61] in *. cbn [map List.filter].
  rewrite bool_decide_false by (intros [_ ?]%app_nil; done). cbn [negb map]. rewrite IH. f_equal.
  cbn [app]. rewrite split_once_app, !decode_encode_valid; [done|done..|].
  eapply Forall_impl; [|by apply url_encode_bytes]. intros b [E%unreserved_plain| ->]; lia.
Qed.

Lemma encode_roundtrip_witness :
  parse_query (lit "q=a%2Bb%20%26&q=") = [(lit "q", lit "a+b &"); (lit "q", [])].
Proof.
  refine (proj2 (encode_roundtrip [(lit "q", lit "a+b &"); (lit "q", [])] _)).
  by apply (bool_decide_unpack _).
Defined.

(** ** Normalised paths stay below the root *)

(** A segment that names a file or a directory, and nothing else. *)
Definition safe_segment (s : list Z) : Prop :=
  s <> [] /\ s <> lit "." /\ s <> lit ".." /\
  (47 ∉ s) /\ (92 ∉ s) /\ (0 ∉ s).

Lemma split_on_no_sep c l : Forall (fun s => c ∉ s) (split_on c l).
Proof.
  induction l as [|b l IH]; cbn [split_on].
  { apply Forall_cons_2; [by apply not_elem_of_nil|apply Forall_nil_2]. }
  destruct (Z.eqb_spec b c) as [->|Hne].
  - apply Forall_cons_2; [by apply not_elem_of_nil|done].
  - destruct (split_on c l) as [|x ls]; [apply Forall_cons_2; [|apply Forall_nil_2]|].
    + rewrite elem_of_cons. intros [?|?%not_elem_of_nil]; congruence.
    + apply Forall_cons_iff in IH as [Hx Hls]. apply Forall_cons_2; [|done].
      rewrite elem_of_cons. intros [?|?]; [congruence|done].
Qed.

Lemma normalize_loop_safe parts segments r :
  Forall (fun s => 47 ∉ s) parts -> Forall safe_segment segments ->
  normalize_loop parts segments = Some r -> Forall safe_segment r.
Proof.
  revert segments; induction parts as [|s parts IH]; intros segments Hp Hs; cbn [normalize_loop].
  { by intros [= ->]. }
  apply Forall_cons_iff in Hp as [Hsl Hp].
  destruct (bool_decide_reflect (s = [])) as [|He]; cbn [orb]; [by apply IH|].
  destruct (bool_decide_reflect (s = lit ".")) as [|Hd]; cbn [orb]; [by apply IH|].
  destruct (bool_decide_reflect (s = lit "..")) as [|Hdd].
  { destruct segments as [|x segments]; [done|]. apply Forall_cons_iff in Hs as [_ Hs]. by apply IH. }
  destruct (bool_decide_reflect (92 ∈ s)) as [|Hb]; cbn [orb]; [done|].
  destruct (bool_decide_reflect (0 ∈ s)) as [|H0]; cbn [orb]; [done|].
  apply IH; [done|]. by apply Forall_cons_2.
Qed.

Lemma normalize_loop_fixed parts segments :
  Forall safe_segment parts -> normalize_loop parts segments = Some (rev parts ++ segments).
Proof.
  intros Hp. revert segments; induction Hp as [|s parts (H1 & H2 & H3 & H4 & H5 & H6) Hp IH]; intros segments; [done|].
  cbn [normalize_loop]. rewrite !bool_decide_false by done. cbn [orb]. rewrite IH. cbn [rev].
  by rewrite <- app_assoc.
Qed.

(** A normalised path cannot leave the root. Whatever the request, an accepted
    path is a slash followed by segments none of which is empty, [.] or [..] or
    holds a separator, a backslash or a NUL; and normalising it again changes
    nothing. *)
Theorem normalize_path_confined path q :
  normalize_path path = Some q ->
  (exists segments, q = lit "/" ++ join (lit "/") segments /\ Forall safe_segment segments) /\
  normalize_path q = Some q.
Proof.
  unfold normalize_path. destruct (normalize_loop (split_on 47 path) []) as [r|] eqn:E; [|done].
  intros Hq. assert (q = lit "/" ++ join (lit "/") (rev r)) as -> by congruence. clear Hq.
  assert (Hr : Forall safe_segment (rev r)).
  { apply Forall_rev. eapply normalize_loop_safe; [| |exact E]; [apply split_on_no_sep|apply Forall_nil_2]. }
  split; [by exists (rev r)|]. change (lit "/") with [47].
  assert (Hn : normalize_loop (split_on 47 ([47] ++ join [47] (rev r))) [] = Some r).
  { change ([47] ++ join [47] (rev r)) with ([] ++ 47 :: join [47] (rev r)).
    rewrite split_on_app by apply Forall_nil_2. cbn [normalize_loop]. rewrite bool_decide_true by done. cbn [orb].
    destruct (decide (rev r = [])) as [Hnil|Hnil].
    - rewrite Hnil. cbn. destruct r as [|x r]; [done|]. cbn in Hnil. by apply app_nil in Hnil as [_ ?].
    - rewrite split_on_join; [|done|].
      + rewrite normalize_loop_fixed by done. by rewrite rev_involutive, app_nil_r.
      + eapply Forall_impl; [|exact Hr]. intros s (_ & _ & _ & H & _).
        apply Forall_forall. intros x Hx ->. by apply H, list_elem_of_In. }
  by rewrite Hn.
Qed.

Lemma normalize_path_confined_witness :
  normalize_path (lit "/a/./b/../c") = Some (lit "/a/c") /\ normalize_path (lit "/a/c") = Some (lit "/a/c") /\
  normalize_path (lit "/a/../../etc") = None.
Proof.
  split; [reflexivity|]. split; [|reflexivity].
  apply (normalize_path_confined (lit "/a/./b/../c")). reflexivity.
Defined.

End Url.
