(* ===== verification/Router.v ===== *)
(** * Routing ([rustlavel-http/src/router.rs], [method.rs])

    Patterns and their segments, matching a path and filling one in, groups and
    versions, registration and the handles that annotate a route, resources, and
    the decision [dispatch] takes before it runs a pipeline. Handlers and
    middleware are values of arbitrary types. *)

From S2P Require Import Prelude Text HttpDate Url.

(** ** Methods ([method.rs]) *)
Module Method.

Inductive Method := Get | Head | Post | Put | Patch | Delete | Options.

#[export] Instance Method_eq_dec : EqDecision Method.
Proof. solve_decision. Defined.

Definition as_str (m : Method) : list Z :=
  match m with
  | Get => lit "GET" | Head => lit "HEAD" | Post => lit "POST" | Put => lit "PUT"
  | Patch => lit "PATCH" | Delete => lit "DELETE" | Options => lit "OPTIONS"
  end.

Definition parse (value : list Z) : option Method :=
  List.find (fun m => bool_decide (as_str m = value)) [Get; Head; Post; Put; Patch; Delete; Options].

Definition takes_body (m : Method) : bool :=
  match m with Post | Put | Patch => true | _ => false end.

(** The derived [Ord]: the order of declaration. *)
Definition rank (m : Method) : Z :=
  match m with Get => 0 | Head => 1 | Post => 2 | Put => 3 | Patch => 4 | Delete => 5 | Options => 6 end.

Lemma parse_as_str m : parse (as_str m) = Some m.
Proof. by destruct m. Qed.

Lemma rank_inj m m' : rank m = rank m' -> m = m'.
Proof. by destruct m, m'. Qed.

End Method.

Module Router.
Import Method.

Inductive Segment := Static (s : list Z) | Param (name : list Z) | Wildcard (name : list Z).

(** ** Paths and patterns *)

Definition split_path (path : list Z) : list (list Z) :=
  List.filter (fun part => negb (bool_decide (part = []))) (split_on 47 path).

Definition parse_segment (part : list Z) : Segment :=
  match (let! p := strip_prefix part (lit "{") in strip_suffix p (lit "}")) with
  | Some name =>
      match strip_suffix name (lit ":*") with
      | Some name => Wildcard name
      | None => Param name
      end
  | None => Static part
  end.

Definition parse_pattern (pattern : list Z) : list Segment := map parse_segment (split_path pattern).

(** [str::trim_start_matches], [trim_end_matches] and [trim_matches] of one
    character. *)
Fixpoint trim_start_matches (c : Z) (l : list Z) : list Z :=
  match l with b :: l' => if b =? c then trim_start_matches c l' else l | [] => [] end.
Definition trim_end_matches (c : Z) (l : list Z) : list Z := rev (trim_start_matches c (rev l)).
Definition trim_matches (c : Z) (l : list Z) : list Z := trim_end_matches c (trim_start_matches c l).

(** [replace("//", "/")]: from the left, matches do not overlap. *)
Fixpoint replace_double (l : list Z) : list Z :=
  match l with
  | 47 :: ((47 :: l') as _rest) => 47 :: replace_double l'
  | b :: l => b :: replace_double l
  | [] => []
  end.

Definition join_paths (prefix path : list Z) : list Z :=
  let joined := lit "/" ++ trim_matches 47 prefix ++ lit "/" ++ trim_matches 47 path in
  let cleaned := replace_double joined in
  if (1 <? length cleaned)%nat then trim_end_matches 47 cleaned else lit "/".

Definition resource_name (base : list Z) : list Z :=
  map (fun b => if b =? 47 then 46 else b) (trim_matches 47 base).

(** ** Matching and filling *)

Abbreviation Params := (gmap (list Z) (list Z)).

Fixpoint match_segments (segments : list Segment) (parts : list (list Z)) (params : Params)
    : option Params :=
  match segments with
  | [] => match parts with [] => Some params | _ => None end
  | Wildcard name :: _ => Some (<[name := Url.decode (join (lit "/") parts)]> params)
  | Static expected :: segments =>
      match parts with
      | part :: parts =>
          if bool_decide (part = expected) then match_segments segments parts params else None
      | [] => None
      end
  | Param name :: segments =>
      match parts with
      | value :: parts =>
          if bool_decide (value = []) then None
          else match_segments segments parts (<[name := Url.decode value]> params)
      | [] => None
      end
  end.

Fixpoint lookup_param (key : list Z) (params : list (list Z * list Z)) : option (list Z) :=
  match params with
  | [] => None
  | (k, v) :: params => if bool_decide (k = key) then Some v else lookup_param key params
  end.

Fixpoint fill_loop (segments : list Segment) (params : list (list Z * list Z)) (out : list Z)
    : option (list Z) :=
  match segments with
  | [] => Some out
  | segment :: segments =>
      let! piece :=
        match segment with
        | Static value => Some value
        | Param name => let! v := lookup_param name params in Some (Url.encode v)
        | Wildcard name => lookup_param name params
        end in
      fill_loop segments params (out ++ lit "/" ++ piece)
  end.

Definition fill (segments : list Segment) (params : list (list Z * list Z)) : option (list Z) :=
  let! out := fill_loop segments params [] in
  Some (match out with [] => lit "/" | _ => out end).

Section Router.
Context {H M : Type}.

(** ** Routes *)

Record Route := {
  method : Method;
  pattern : list Z;
  name : option (list Z);
  summary : option (list Z);
  tag : option (list Z);
  responses : list (Z * list Z);
  parameters : list (list Z * list Z);
  deprecated : bool;
  version : option (list Z);
  deprecated_at : option Z;
  sunset : option Z;
  segments : list Segment;
  handler : H;
  middleware : list M;
}.

Definition parameter_names (r : Route) : list (list Z) :=
  omap (fun s => match s with Param n | Wildcard n => Some n | Static _ => None end) (segments r).

Definition is_static (s : Segment) : bool := match s with Static _ => true | _ => false end.
Definition is_wildcard (s : Segment) : bool := match s with Wildcard _ => true | _ => false end.

Definition specificity (r : Route) : Z * Z :=
  (Z.of_nat (length (List.filter is_wildcard (segments r))),
   usize_max - Z.of_nat (length (List.filter is_static (segments r)))).

Definition match_path (r : Route) (path : list Z) : option Params :=
  match_segments (segments r) (split_path path) ∅.

(** ** The router *)

Record Router := {
  routes : list Route;
  scope_prefix : list Z;
  scope_version : option (list Z);
  scope_middleware : list M;
  global_middleware : list M;
  fallback : option H;
}.

Definition new : Router :=
  {| routes := []; scope_prefix := []; scope_version := None; scope_middleware := [];
     global_middleware := []; fallback := None |}.

Definition with_routes (r : Router) (l : list Route) : Router :=
  {| routes := l; scope_prefix := scope_prefix r; scope_version := scope_version r;
     scope_middleware := scope_middleware r; global_middleware := global_middleware r;
     fallback := fallback r |}.

Definition add_middleware (r : Router) (m : M) : Router :=
  if bool_decide (scope_prefix r = []) && bool_decide (length (scope_middleware r) = 0%nat) then
    {| routes := routes r; scope_prefix := scope_prefix r; scope_version := scope_version r;
       scope_middleware := scope_middleware r; global_middleware := global_middleware r ++ [m];
       fallback := fallback r |}
  else
    {| routes := routes r; scope_prefix := scope_prefix r; scope_version := scope_version r;
       scope_middleware := scope_middleware r ++ [m]; global_middleware := global_middleware r;
       fallback := fallback r |}.

(** [group] and [version] run the closure on a child router and take its
    routes. *)
Definition group (r : Router) (prefix : list Z) (define : Router -> Router) : Router :=
  let child := define {| routes := []; scope_prefix := join_paths (scope_prefix r) prefix;
                         scope_version := scope_version r; scope_middleware := scope_middleware r;
                         global_middleware := []; fallback := None |} in
  with_routes r (routes r ++ routes child).

Definition version_group (r : Router) (v : list Z) (define : Router -> Router) : Router :=
  let v := trim_start_matches 47 v in
  let child := define {| routes := []; scope_prefix := join_paths (scope_prefix r) (lit "/" ++ v);
                         scope_version := Some v; scope_middleware := scope_middleware r;
                         global_middleware := []; fallback := None |} in
  with_routes r (routes r ++ routes child).

Definition set_fallback (r : Router) (h : H) : Router :=
  {| routes := routes r; scope_prefix := scope_prefix r; scope_version := scope_version r;
     scope_middleware := scope_middleware r; global_middleware := global_middleware r;
     fallback := Some h |}.

(** Registering returns the router; the handle is the index of the last route. *)
Definition route (r : Router) (m : Method) (pat : list Z) (h : H) : Router :=
  let full := join_paths (scope_prefix r) pat in
  with_routes r (routes r ++
    [{| method := m; pattern := full; name := None; summary := None; tag := None; responses := [];
        parameters := []; deprecated := false; version := scope_version r; deprecated_at := None;
        sunset := None; segments := parse_pattern full; handler := h;
        middleware := scope_middleware r |}]).

Definition get (r : Router) := route r Get.
Definition post (r : Router) := route r Post.
Definition put (r : Router) := route r Put.
Definition patch (r : Router) := route r Patch.
Definition delete (r : Router) := route r Delete.

(** ** Handles *)

(** A handle changes the route it points to. *)
Definition at_handle (r : Router) (index : nat) (f : Route -> Route) : Router :=
  with_routes r (alter f index (routes r)).

Definition handle_name (r : Router) (index : nat) (n : list Z) : Router :=
  at_handle r index (fun x =>
    {| method := method x; pattern := pattern x; name := Some n; summary := summary x; tag
     := tag x; responses := responses x; parameters := parameters x; deprecated :=
     deprecated x; version := version x; deprecated_at := deprecated_at x; sunset :=
     sunset x; segments := segments x; handler := handler x; middleware := middleware x |}).

Definition describe (r : Router) (index : nat) (text : list Z) : Router :=
  at_handle r index (fun x =>
    {| method := method x; pattern := pattern x; name := name x; summary := Some text; tag
     := tag x; responses := responses x; parameters := parameters x; deprecated :=
     deprecated x; version := version x; deprecated_at := deprecated_at x; sunset :=
     sunset x; segments := segments x; handler := handler x; middleware := middleware x |}).

Definition set_tag (r : Router) (index : nat) (text : list Z) : Router :=
  at_handle r index (fun x =>
    {| method := method x; pattern := pattern x; name := name x; summary := summary x; tag
     := Some text; responses := responses x; parameters := parameters x; deprecated :=
     deprecated x; version := version x; deprecated_at := deprecated_at x; sunset :=
     sunset x; segments := segments x; handler := handler x; middleware := middleware x |}).

Definition responds (r : Router) (index : nat) (status : Z) (text : list Z) : Router :=
  at_handle r index (fun x =>
    {| method := method x; pattern := pattern x; name := name x; summary := summary x; tag
     := tag x; responses := responses x ++ [(status, text)]; parameters := parameters x;
     deprecated := deprecated x; version := version x; deprecated_at := deprecated_at x;
     sunset := sunset x; segments := segments x; handler := handler x; middleware :=
     middleware x |}).

Definition param (r : Router) (index : nat) (n text : list Z) : Router :=
  at_handle r index (fun x =>
    {| method := method x; pattern := pattern x; name := name x; summary := summary x; tag
     := tag x; responses := responses x; parameters := parameters x ++ [(n, text)];
     deprecated := deprecated x; version := version x; deprecated_at := deprecated_at x;
     sunset := sunset x; segments := segments x; handler := handler x; middleware :=
     middleware x |}).

Definition handle_middleware (r : Router) (index : nat) (m : M) : Router :=
  at_handle r index (fun x =>
    {| method := method x; pattern := pattern x; name := name x; summary := summary x; tag
     := tag x; responses := responses x; parameters := parameters x; deprecated :=
     deprecated x; version := version x; deprecated_at := deprecated_at x; sunset :=
     sunset x; segments := segments x; handler := handler x; middleware := middleware x
     ++ [m] |}).

Definition set_deprecated (r : Router) (index : nat) : Router :=
  at_handle r index (fun x =>
    {| method := method x; pattern := pattern x; name := name x; summary := summary x; tag
     := tag x; responses := responses x; parameters := parameters x; deprecated := true;
     version := version x; deprecated_at := deprecated_at x; sunset := sunset x;
     segments := segments x; handler := handler x; middleware := middleware x |}).

Definition mark_deprecated_at (r : Router) (index : nat) (when : Z) : Router :=
  at_handle r index (fun x =>
    {| method := method x; pattern := pattern x; name := name x; summary := summary x; tag
     := tag x; responses := responses x; parameters := parameters x; deprecated := true;
     version := version x; deprecated_at := Some when; sunset := sunset x; segments :=
     segments x; handler := handler x; middleware := middleware x |}).

Definition mark_sunset (r : Router) (index : nat) (when : Z) : Router :=
  at_handle r index (fun x =>
    {| method := method x; pattern := pattern x; name := name x; summary := summary x; tag
     := tag x; responses := responses x; parameters := parameters x; deprecated := true;
     version := version x; deprecated_at := deprecated_at x; sunset := Some when;
     segments := segments x; handler := handler x; middleware := middleware x |}).

(** A date that is not [YYYY-MM-DD] panics: [None]. *)
Definition handle_deprecated_at (r : Router) (index : nat) (date : list Z) : option Router :=
  let! when := HttpDate.parse_ymd date in Some (mark_deprecated_at r index when).
Definition handle_sunset (r : Router) (index : nat) (date : list Z) : option Router :=
  let! when := HttpDate.parse_ymd date in Some (mark_sunset r index when).

(** ** Resources *)

Definition resource_base (base : list Z) : list Z := trim_end_matches 47 base.

(** Register and name: the handle of the route just added. *)
Definition named (r : Router) (n : list Z) : Router := handle_name r (length (routes r) - 1) n.

Definition res_index (r : Router) (base : list Z) (h : H) : Router :=
  named (get r base h) (resource_name base ++ lit ".index").
Definition res_store (r : Router) (base : list Z) (h : H) : Router :=
  named (post r base h) (resource_name base ++ lit ".store").
Definition res_show (r : Router) (base : list Z) (h : H) : Router :=
  named (get r (base ++ lit "/{id}") h) (resource_name base ++ lit ".show").
Definition res_update (r : Router) (base : list Z) (h : H) : Router :=
  named (put r (base ++ lit "/{id}") h) (resource_name base ++ lit ".update").
Definition res_destroy (r : Router) (base : list Z) (h : H) : Router :=
  named (delete r (base ++ lit "/{id}") h) (resource_name base ++ lit ".destroy").

(** ** Lookup and dispatch *)

Definition more_specific (r r' : Route) : bool :=
  let '(w, s) := specificity r in
  let '(w', s') := specificity r' in
  (w <? w') || ((w =? w') && (s <=? s')).

Definition finalize (r : Router) : Router := with_routes r (stable_sort more_specific (routes r)).

Definition url_for (r : Router) (n : list Z) (params : list (list Z * list Z)) : option (list Z) :=
  let! x := List.find (fun x => bool_decide (name x = Some n)) (routes r) in
  fill (segments x) params.

Definition NamedRoutes : Type := list (list Z * list Segment).
Definition named_routes (r : Router) : NamedRoutes :=
  omap (fun x => n ← name x; Some (n, segments x)) (routes r).
Definition named_url_for (rs : NamedRoutes) (n : list Z) (params : list (list Z * list Z))
    : option (list Z) :=
  let! x := List.find (fun x => bool_decide (x.1 = n)) rs in fill x.2 params.

(** HEAD is served by the GET route. *)
Definition usable (x : Route) (m : Method) : bool :=
  bool_decide (method x = m) || (bool_decide (m = Head) && bool_decide (method x = Get)).

(** What [dispatch] decides to run, under which stack of middleware. *)
Inductive Decision :=
  | Run (x : Route) (params : Params) (stack : list M)
  | NotAllowed (allow : list Method) (stack : list M)
  | RunFallback (h : H) (stack : list M)
  | NotFound (stack : list M).

Definition method_le (m m' : Method) : bool := rank m <=? rank m'.
Fixpoint dedup (l : list Method) : list Method :=
  match l with
  | m :: ((m' :: _) as l') => if bool_decide (m = m') then dedup l' else m :: dedup l'
  | l => l
  end.

(** The loop over the routes, with [path_matched] and [allowed]. *)
Fixpoint dispatch_loop (l : list Route) (r : Router) (m : Method) (path : list Z)
    (path_matched : bool) (allowed : list Method) : Decision :=
  match l with
  | [] =>
      if path_matched then NotAllowed (dedup (stable_sort method_le allowed)) (global_middleware r)
      else match fallback r with
           | Some h => RunFallback h (global_middleware r)
           | None => NotFound (global_middleware r)
           end
  | x :: l =>
      match match_path x path with
      | None => dispatch_loop l r m path path_matched allowed
      | Some params =>
          if negb (usable x m) then dispatch_loop l r m path true (allowed ++ [method x])
          else Run x params (global_middleware r ++ middleware x)
      end
  end.

Definition dispatch (r : Router) (m : Method) (path : list Z) : Decision :=
  dispatch_loop (routes r) r m path false [].

Definition allow_header (allow : list Method) : list Z := join (lit ", ") (map as_str allow).

End Router.
Arguments Route : clear implicits.
Arguments Router : clear implicits.
Arguments Decision : clear implicits.

(** ** A URL built for a route leads back to it *)

(** A piece of a path: not empty and without a separator. *)
Definition piece (s : list Z) : Prop := s <> [] /\ 47 ∉ s.

Lemma piece_no_slash s : piece s -> Forall (fun b => b <> 47) s.
Proof. intros [_ H]. apply Forall_forall. intros x Hx ->. by apply H, list_elem_of_In. Qed.

Lemma split_on_rooted c l : split_on c (c :: l) = [] :: split_on c l.
Proof. apply (split_on_app c [] l). apply Forall_nil_2. Qed.

Lemma split_into_pieces ps :
  Forall piece ps -> split_on 47 (concat (map (cons 47) ps)) = [] :: ps.
Proof.
  induction 1 as [|p ps Hp Hps IH]; [done|]. cbn [map concat app].
  rewrite split_on_rooted. f_equal. destruct ps as [|p' ps].
  - cbn. rewrite app_nil_r. apply split_on_none. by apply piece_no_slash.
  - cbn [map concat app] in *. rewrite split_on_app by (by apply piece_no_slash).
    rewrite split_on_rooted in IH. by injection IH as ->.
Qed.

Lemma filter_pieces ps :
  Forall piece ps -> List.filter (fun part => negb (bool_decide (part = []))) ps = ps.
Proof.
  induction 1 as [|p ps [Hp _] Hps IH]; [done|]. cbn [List.filter].
  rewrite bool_decide_false by done. cbn [negb]. by rewrite IH.
Qed.

Lemma split_path_pieces ps : Forall piece ps -> split_path (concat (map (cons 47) ps)) = ps.
Proof.
  intros Hps. unfold split_path. rewrite split_into_pieces by done.
  cbn [List.filter]. rewrite bool_decide_true by done. by apply filter_pieces.
Qed.

(** The piece a segment is filled with. *)
Definition piece_of (params : list (list Z * list Z)) (s : Segment) : option (list Z) :=
  match s with
  | Static value => Some value
  | Param n => Url.encode <$> lookup_param n params
  | Wildcard n => lookup_param n params
  end.

Lemma fill_loop_pieces segs params ps out :
  Forall2 (fun s p => piece_of params s = Some p) segs ps ->
  fill_loop segs params out = Some (out ++ concat (map (cons 47) ps)).
Proof.
  intros H. revert out; induction H as [|s p segs ps Hp Hps IH]; intros out; cbn [fill_loop].
  { by rewrite app_nil_r. }
  assert (Hpc : match s with
    | Static value => Some value
    | Param n => let! v := lookup_param n params in Some (Url.encode v)
    | Wildcard n => lookup_param n params end = Some p).
  { destruct s as [v|n|n]; cbn in Hp; [done| |done]. by destruct (lookup_param n params). }
  rewrite Hpc, IH. cbn [map concat]. by rewrite <- !app_assoc.
Qed.

(** What a segment needs to be filled reversibly: literal text that is one piece
    of a path, or a parameter with a value that is not empty. A wildcard does
    not qualify, see [wildcard_not_reversible]. *)
Definition fillable (params : list (list Z * list Z)) (s : Segment) : bool :=
  match s with
  | Static v => negb (bool_decide (v = [])) && negb (bool_decide (47 ∈ v))
  | Param n =>
      match lookup_param n params with
      | Some v => negb (bool_decide (v = [])) && bool_decide (bytes v) && utf8_valid v
      | None => false
      end
  | Wildcard _ => false
  end.

Lemma encode_piece v : v <> [] -> bytes v -> piece (Url.encode v).
Proof.
  intros Hv Hb. split.
  - destruct v as [|b v]; [done|]. unfold Url.encode. cbn. unfold Url.encode_byte. by destruct (Url.unreserved b).
  - intros Hin. pose proof (Url.url_encode_bytes v Hb) as Hu. rewrite Forall_forall in Hu.
    apply list_elem_of_In, Hu in Hin as [E%Url.unreserved_plain|]; lia.
Qed.

Lemma fillable_piece params s :
  fillable params s = true ->
  exists p, piece_of params s = Some p /\ piece p /\
    forall segs ps (m : Params), match_segments (s :: segs) (p :: ps) m =
      match_segments segs ps (match s with
        | Param n => <[n := default [] (lookup_param n params)]> m | _ => m end).
Proof.
  destruct s as [v|n|n]; cbn [fillable piece_of]; [| |done].
  - rewrite andb_true_iff, !negb_true_iff, !bool_decide_eq_false. intros [Hv Hs].
    exists v. split_and!; [done..|]. intros segs ps m. cbn [match_segments]. by rewrite bool_decide_true.
  - destruct (lookup_param n params) as [v|] eqn:Hl; [|done].
    rewrite !andb_true_iff, negb_true_iff, bool_decide_eq_false, bool_decide_eq_true. intros [[Hv Hb] Hu].
    exists (Url.encode v). pose proof (encode_piece v Hv Hb) as Hp. split_and!; [done..|].
    intros segs ps m. cbn [match_segments default from_option id].
    rewrite bool_decide_false by apply Hp. by rewrite Url.decode_encode_valid.
Qed.

Lemma fill_match (segs : list Segment) (params : list (list Z * list Z)) (m : Params) :
  forallb (fillable params) segs = true ->
  exists ps m', Forall2 (fun s p => piece_of params s = Some p) segs ps /\ Forall piece ps /\
    match_segments segs ps m = Some m' /\
    forall n, m' !! n = if bool_decide (n ∈ omap (fun s => match s with Param n => Some n | _ => None end) segs)
                        then lookup_param n params else m !! n.
Proof.
  revert m; induction segs as [|s segs IH]; intros m Hf; cbn [forallb] in Hf.
  { exists [], m. split_and!; [done..|]. intros n. cbn. by rewrite bool_decide_false by apply not_elem_of_nil. }
  apply andb_true_iff in Hf as [Hs Hf]. destruct (fillable_piece params s Hs) as (p & Hp & Hpc & Hm).
  destruct (IH (match s with Param n => <[n := default [] (lookup_param n params)]> m | _ => m end) Hf)
    as (ps & m' & Hps & Hpcs & Hmm & Hlook).
  exists (p :: ps), m'. split_and!; [by constructor..|by rewrite Hm|].
  intros n. rewrite Hlook. destruct s as [v|n'|n']; cbn [omap list_omap]; [done| |done].
  cbn [fillable] in Hs. destruct (lookup_param n' params) as [v|] eqn:Hl; [|done]. cbn [default from_option id].
  destruct (decide (n ∈ omap (fun s => match s with Param n => Some n | _ => None end) segs)) as [Hin|Hin].
  - rewrite !bool_decide_true; [done|by right|done].
  - rewrite (bool_decide_false (n ∈ omap _ _)) by done.
    destruct (decide (n = n')) as [->|Hne].
    + rewrite bool_decide_true by (by left). rewrite lookup_insert_eq. done.
    + rewrite bool_decide_false by (rewrite elem_of_cons; tauto). by rewrite lookup_insert_ne.
Qed.

(** A link built for a named route leads back to that route with the same
    parameters. For every route without a wildcard and every choice of non-empty
    values, whatever characters they hold, the filled path matches the route and
    captures exactly the values put in. *)
Theorem url_for_match {H M} (r : Router H M) (x : Route H M) n params url :
  List.find (fun x => bool_decide (name x = Some n)) (routes r) = Some x ->
  forallb (fillable params) (segments x) = true -> url_for r n params = Some url ->
  exists m, match_path x url = Some m /\
    forall key, m !! key = if bool_decide (key ∈ parameter_names x) then lookup_param key params else None.
Proof.
  intros Hfind Hf. unfold url_for. rewrite Hfind. unfold fill, match_path, parameter_names.
  destruct (fill_match (segments x) params ∅ Hf) as (ps & m & Hps & Hpcs & Hm & Hlook).
  rewrite (fill_loop_pieces _ _ ps) by done. cbn [app]. intros [= <-].
  assert (Hsp : split_path (match concat (map (cons 47) ps) with [] => lit "/" | _ => concat (map (cons 47) ps) end) = ps).
  { destruct ps as [|p ps]; [done|]. cbn [map concat app].
    apply (split_path_pieces (p :: ps)). done. }
  exists m. split; [|].
  - rewrite <- Hm. f_equal. exact Hsp.
  - intros key. rewrite Hlook.
    assert (Hsame : omap (fun s => match s with Param n => Some n | _ => None end) (segments x) =
      omap (fun s => match s with Param n | Wildcard n => Some n | Static _ => None end) (segments x)).
    { clear -Hf. induction (segments x) as [|s l IH]; [done|]. cbn in Hf. apply andb_true_iff in Hf as [Hs Hf].
      destruct s; cbn; [by apply IH|by rewrite IH|done]. }
    rewrite Hsame. case_bool_decide; [done|]. apply lookup_empty.
Qed.

Definition demo : Router unit unit :=
  handle_name (get new (lit "/users/{id}/files/{name}") tt) 0 (lit "users.file").

Lemma url_for_match_witness :
  let params := [(lit "id", lit "7"); (lit "name", lit "a b/c+d")] in
  url_for demo (lit "users.file") params = Some (lit "/users/7/files/a%20b%2Fc%2Bd") /\
  exists (x : Route unit unit) m, match_path x (lit "/users/7/files/a%20b%2Fc%2Bd") = Some m /\
    m !! lit "name" = Some (lit "a b/c+d").
Proof.
  intros params. split; [reflexivity|].
  destruct (List.find (fun x => bool_decide (name x = Some (lit "users.file"))) (routes demo)) as [x|] eqn:E;
    [|discriminate E]. exists x.
  destruct (url_for_match demo x (lit "users.file") params (lit "/users/7/files/a%20b%2Fc%2Bd"))
    as (m & Hm & Hk); [exact E|injection E as <-; reflexivity|reflexivity|].
  exists m. split; [exact Hm|]. rewrite Hk. injection E as <-. reflexivity.
Defined.

(** A wildcard is filled in verbatim and decoded when it is matched. *)
Lemma wildcard_not_reversible :
  exists url m, fill [Wildcard (lit "path")] [(lit "path", lit "a+b")] = Some url /\
    match_segments [Wildcard (lit "path")] (split_path url) ∅ = Some m /\
    m !! lit "path" = Some (lit "a b").
Proof. do 2 eexists. split_and!; reflexivity. Qed.

(** ** Dispatch picks the most specific route *)

Section dispatch.
Context {H M : Type}.
Implicit Types (r : Router H M) (x y : Route H M).

(** Routes that could answer: the path matches, and the method fits. *)
Definition answers (path : list Z) (m : Method) (x : Route H M) : Prop :=
  is_Some (match_path x path) /\ usable x m = true.

Lemma more_specific_total x y : more_specific x y = true \/ more_specific y x = true.
Proof. unfold more_specific. destruct (specificity x), (specificity y). lia. Qed.

Lemma more_specific_trans x y z :
  more_specific x y = true -> more_specific y z = true -> more_specific x z = true.
Proof. unfold more_specific. destruct (specificity x), (specificity y), (specificity z). lia. Qed.

Lemma dedup_spec l : ordered method_le l ->
  ordered method_le (dedup l) /\ NoDup (dedup l) /\ forall m, m ∈ dedup l <-> m ∈ l.
Proof.
  induction 1 as [|m l Hm Hl IH]; [split_and!; [constructor|constructor|done]|].
  destruct l as [|m' l].
  { split_and!; [by constructor|apply NoDup_singleton|done]. }
  change (dedup (m :: m' :: l)) with (if bool_decide (m = m') then dedup (m' :: l) else m :: dedup (m' :: l)).
  destruct IH as (I1 & I2 & I3). case_bool_decide as E.
  - subst m'. split_and!; [done..|]. intros k. rewrite I3, !elem_of_cons. tauto.
  - assert (Hlt : Forall (fun k => method_le m k = true /\ k <> m) (dedup (m' :: l))).
    { pose proof (Forall_inv Hm) as Hmm'. inversion Hl as [|? ? Hm' Hl']; subst.
      rewrite Forall_forall in Hm, Hm'.
      apply Forall_forall. intros k Hk%list_elem_of_In%I3%list_elem_of_In. split; [by apply Hm|].
      intros ->. apply E, rank_inj. destruct Hk as [->|Hk]; [done|].
      specialize (Hm' m Hk). unfold method_le in *. lia. }
    split_and!.
    + constructor; [|done]. eapply Forall_impl; [|exact Hlt]. by intros k [? _].
    + constructor; [|done]. intros Hin. rewrite Forall_forall in Hlt.
      apply list_elem_of_In, Hlt in Hin as [_ ?]. done.
    + intros k. rewrite !elem_of_cons, I3, elem_of_cons. tauto.
Qed.

Lemma dispatch_loop_spec l r m path pm allowed :
  (pm = false -> allowed = []) ->
  match dispatch_loop l r m path pm allowed with
  | Run x params stack =>
      exists pre post, l = pre ++ x :: post /\ match_path x path = Some params /\ usable x m = true /\
        stack = global_middleware r ++ middleware x /\ Forall (fun y => ~ answers path m y) pre
  | NotAllowed allow stack =>
      Forall (fun y => ~ answers path m y) l /\ stack = global_middleware r /\
      allow = dedup (stable_sort method_le (allowed ++
        map method (List.filter (fun y => bool_decide (is_Some (match_path y path))) l))) /\
      (pm = true \/ exists y, In y l /\ is_Some (match_path y path))
  | RunFallback h stack =>
      Forall (fun y => match_path y path = None) l /\ pm = false /\ fallback r = Some h /\
      stack = global_middleware r
  | NotFound stack =>
      Forall (fun y => match_path y path = None) l /\ pm = false /\ fallback r = None /\
      stack = global_middleware r
  end.
Proof.
  revert pm allowed; induction l as [|x l IH]; intros pm allowed Hpm; cbn [dispatch_loop].
  { destruct pm.
    - split_and!; [apply Forall_nil_2|done| |by left]. cbn. by rewrite app_nil_r.
    - destruct (fallback r); split_and!; done || apply Forall_nil_2. }
  destruct (match_path x path) as [params|] eqn:Hx.
  - destruct (usable x m) eqn:Hu; cbn [negb].
    + exists [], l. split_and!; done || apply Forall_nil_2.
    + specialize (IH true (allowed ++ [method x]) ltac:(done)).
      destruct (dispatch_loop l r m path true (allowed ++ [method x])); [| |by destruct IH as (_ & ? & _)..].
      * destruct IH as (pre & post & -> & ? & ? & ? & Hpre). exists (x :: pre), post.
        split_and!; [done..|]. apply Forall_cons_2; [|done]. intros [_ ?]. congruence.
      * destruct IH as (Hl & -> & -> & _). split_and!; [|done| |].
        -- apply Forall_cons_2; [|done]. intros [_ ?]. congruence.
        -- cbn [List.filter]. rewrite bool_decide_true by (rewrite Hx; by eexists).
           cbn [map]. by rewrite <- app_assoc.
        -- right. exists x. split; [by left|]. rewrite Hx. by eexists.
  - specialize (IH pm allowed Hpm). destruct (dispatch_loop l r m path pm allowed).
    + destruct IH as (pre & post & -> & ? & ? & ? & Hpre). exists (x :: pre), post.
      split_and!; [done..|]. apply Forall_cons_2; [|done]. intros [[? ?] _]. congruence.
    + destruct IH as (Hl & -> & -> & Hor). split_and!; [|done| |].
      * apply Forall_cons_2; [|done]. intros [[? ?] _]. congruence.
      * cbn [List.filter]. rewrite bool_decide_false; [done|]. rewrite Hx. by intros [].
      * destruct Hor as [?|(y & ? & ?)]; [by left|right]. exists y. split; [by right|done].
    + destruct IH as (? & ? & ? & ?). split_and!; [by apply Forall_cons_2|done..].
    + destruct IH as (? & ? & ? & ?). split_and!; [by apply Forall_cons_2|done..].
Qed.

Lemma ordered_app_inv (l1 l2 : list (Route H M)) x :
  ordered more_specific (l1 ++ x :: l2) -> Forall (fun y => more_specific x y = true) l2.
Proof.
  induction l1 as [|y l1 IH]; cbn [app]; intros Ho; inversion Ho; subst; [done|by apply IH].
Qed.
End dispatch.

(** ** Groups compose *)

Lemma split_on_app_gen c a b : split_on c (a ++ c :: b) = split_on c a ++ split_on c b.
Proof.
  induction a as [|x a IH]; cbn [app split_on]; [by rewrite Z.eqb_refl|]. rewrite IH.
  destruct (x =? c); [done|]. destruct (split_on c a) as [|y l] eqn:E; [|done].
  by destruct a; cbn in E; repeat case_match.
Qed.

Lemma split_path_app a b : split_path (a ++ 47 :: b) = split_path a ++ split_path b.
Proof. unfold split_path. by rewrite split_on_app_gen, List.filter_app. Qed.

Lemma split_path_cons l : split_path (47 :: l) = split_path l.
Proof. apply (split_path_app [] l). Qed.

Lemma split_path_trim_start l : split_path (trim_start_matches 47 l) = split_path l.
Proof.
  induction l as [|b l IH]; cbn [trim_start_matches]; [done|].
  destruct (Z.eqb_spec b 47) as [->|]; [by rewrite split_path_cons|done].
Qed.

Lemma trim_start_suffix c l : exists k, l = repeat c k ++ trim_start_matches c l.
Proof.
  induction l as [|b l [k IH]]; cbn [trim_start_matches]; [by exists 0%nat|].
  destruct (Z.eqb_spec b c) as [->|]; [|by exists 0%nat]. exists (S k). cbn. by rewrite <- IH.
Qed.

Lemma split_path_slashes l k : split_path (l ++ repeat 47 k) = split_path l.
Proof.
  induction k as [|k IH]; [by rewrite app_nil_r|].
  replace (repeat 47 (S k)) with (repeat 47 k ++ [47]) by (by rewrite <- repeat_cons).
  rewrite app_assoc, split_path_app, IH. apply app_nil_r.
Qed.

Lemma split_path_trim_end l : split_path (trim_end_matches 47 l) = split_path l.
Proof.
  unfold trim_end_matches. destruct (trim_start_suffix 47 (rev l)) as [k Hk].
  rewrite <- (rev_involutive l) at 2. rewrite Hk at 2. rewrite rev_app_distr, rev_repeat.
  by rewrite split_path_slashes.
Qed.

Lemma split_path_trim l : split_path (trim_matches 47 l) = split_path l.
Proof. unfold trim_matches. by rewrite split_path_trim_end, split_path_trim_start. Qed.

Lemma split_on_replace_double l :
  exists h t t', split_on 47 l = h :: t /\ split_on 47 (replace_double l) = h :: t' /\
    List.filter (fun part => negb (bool_decide (part = []))) t =
    List.filter (fun part => negb (bool_decide (part = []))) t'.
Proof.
  induction l as [l IH] using list_length_ind. destruct l as [|b l]; [by exists [], [], []|].
  destruct (IH l) as (h & t & t' & H1 & H2 & H3); [cbn; lia|].
  destruct (decide (b = 47)) as [->|Hb].
  - assert (Hl : (exists l', l = 47 :: l') \/ replace_double (47 :: l) = 47 :: replace_double l).
    { destruct l as [|c l]; [by right|]. destruct (decide (c = 47)) as [->|Hc]; [left; by eexists|right].
      cbn [replace_double]. repeat case_match; try done; simplify_eq. }
    destruct Hl as [[l' ->]|E].
    + destruct (IH l') as (h' & u & u' & G1 & G2 & G3); [cbn; lia|].
      change (replace_double (47 :: 47 :: l')) with (47 :: replace_double l').
      rewrite !split_on_rooted, G1, G2. exists [], ([] :: h' :: u), (h' :: u'). split_and!; [done..|].
      cbn [List.filter]. rewrite bool_decide_true by done. cbn [negb]. by rewrite G3.
    + rewrite E, !split_on_rooted, H1, H2. exists [], (h :: t), (h :: t'). split_and!; [done..|].
      cbn [List.filter]. by rewrite H3.
  - assert (E : replace_double (b :: l) = b :: replace_double l).
    { cbn [replace_double]. repeat case_match; try done; simplify_eq. }
    rewrite E. cbn [split_on]. rewrite (proj2 (Z.eqb_neq b 47)), H1, H2 by done.
    exists (b :: h), t, t'. by split_and!.
Qed.

Lemma split_path_replace_double l : split_path (replace_double l) = split_path l.
Proof.
  unfold split_path. destruct (split_on_replace_double l) as (h & t & t' & -> & -> & H).
  cbn [List.filter]. by rewrite H.
Qed.

Lemma split_path_join p q : split_path (join_paths p q) = split_path p ++ split_path q.
Proof.
  unfold join_paths. change (lit "/") with [47]. cbn [app].
  set (joined := 47 :: trim_matches 47 p ++ 47 :: trim_matches 47 q).
  assert (Hj : split_path (replace_double joined) = split_path p ++ split_path q).
  { rewrite split_path_replace_double. subst joined.
    by rewrite split_path_cons, split_path_app, !split_path_trim. }
  destruct (Nat.ltb_spec 1 (length (replace_double joined))).
  - by rewrite split_path_trim_end.
  - rewrite <- Hj. assert (Hr : exists l, replace_double joined = 47 :: l).
    { subst joined. cbn [replace_double]. repeat case_match; by eexists. }
    destruct Hr as [l Hl]. rewrite Hl in *. destruct l; [done|cbn [length] in *; lia].
Qed.

(** Groups compose. A route registered inside a group (and so inside any
    nesting of groups) is appended to the parent's routes, and its pattern is
    the parent's prefix, the group's and its own in order, however the three
    spell their slashes; it carries the middleware and the version in force
    where it was registered. *)
Theorem group_composes {H M} (r : Router H M) prefix m pat h :
  exists x, routes (group r prefix (fun g => route g m pat h)) = routes r ++ [x] /\
    segments x = parse_pattern (scope_prefix r) ++ parse_pattern prefix ++ parse_pattern pat /\
    method x = m /\ handler x = h /\ middleware x = scope_middleware r /\ version x = scope_version r.
Proof.
  eexists. split; [reflexivity|]. cbn [segments method handler middleware version].
  split_and!; [|reflexivity..]. unfold parse_pattern. cbn [scope_prefix]. by rewrite !split_path_join, !map_app, app_assoc.
Qed.

(** ** What a router should decide

    Stated without the code's own matching and ordering: the parts of a path, the
    routes whose segments they fit, and which of those is to be preferred. *)

(** The parts of a path: what is between runs of slashes. *)
Inductive pieces : list Z -> list (list Z) -> Prop :=
  | pieces_end slashes : Forall (fun b => b = 47) slashes -> pieces slashes []
  | pieces_more slashes p rest ps : Forall (fun b => b = 47) slashes -> p <> [] -> 47 ∉ p ->
      (rest = [] \/ exists rest', rest = 47 :: rest') -> pieces rest ps -> pieces (slashes ++ p ++ rest) (p :: ps).

(** The parts a list of segments fits, with what each segment captures. *)
Inductive fits : list Segment -> list (list Z) -> list (list Z * list Z) -> Prop :=
  | fits_end : fits [] [] []
  | fits_static s segs parts caps : fits segs parts caps -> fits (Static s :: segs) (s :: parts) caps
  | fits_param n v segs parts caps : fits segs parts caps -> fits (Param n :: segs) (v :: parts) ((n, v) :: caps)
  | fits_wildcard n segs parts : fits (Wildcard n :: segs) parts [(n, join (lit "/") parts)].

Fixpoint wildcards (segs : list Segment) : nat :=
  match segs with [] => 0 | Wildcard _ :: segs => S (wildcards segs) | _ :: segs => wildcards segs end.
Fixpoint statics (segs : list Segment) : nat :=
  match segs with [] => 0 | Static _ :: segs => S (statics segs) | _ :: segs => statics segs end.

(** The value captured under a name: the last segment of the name counts. *)
Fixpoint captured (caps : list (list Z * list Z)) (key : list Z) : option (list Z) :=
  match caps with
  | [] => None
  | (n, v) :: caps =>
      match captured caps key with
      | Some value => Some value
      | None => if bool_decide (n = key) then Some (Url.decode v) else None
      end
  end.

Section specification.
Context {H M : Type}.
Implicit Types (r : Router H M) (x y : Route H M).

Definition matches (x : Route H M) (path : list Z) (caps : list (list Z * list Z)) : Prop :=
  exists ps, pieces path ps /\ fits (segments x) ps caps.

(** HEAD is served by the routes for GET. *)
Definition serves (x : Route H M) (m : Method) : Prop := method x = m \/ (m = Head /\ method x = Get).

(** Fewer wildcards first, then more literal segments, then the route that was
    registered first. *)
Definition preferred (i : nat) (x : Route H M) (j : nat) (y : Route H M) : Prop :=
  (wildcards (segments x) < wildcards (segments y))%nat \/
  wildcards (segments x) = wildcards (segments y) /\
    ((statics (segments y) < statics (segments x))%nat \/ statics (segments x) = statics (segments y) /\ (i <= j)%nat).

Lemma split_path_run slashes rest : Forall (fun b => b = 47) slashes -> split_path (slashes ++ rest) = split_path rest.
Proof. induction 1 as [|b l -> _ IH]; [done|]. cbn [app]. by rewrite split_path_cons. Qed.

Lemma pieces_split path ps : pieces path ps -> split_path path = ps /\ Forall (fun p => p <> []) ps.
Proof.
  induction 1 as [l Hl|l p rest ps Hl Hp Hs Hr _ [IH1 IH2]].
  - split; [|constructor]. rewrite <- (app_nil_r l). by rewrite split_path_run.
  - split; [|by constructor]. rewrite split_path_run by done.
    assert (Hone : split_path p = [p]).
    { unfold split_path. rewrite split_on_none by (by apply piece_no_slash). cbn [List.filter]. by rewrite bool_decide_false. }
    destruct Hr as [->|[rest' ->]].
    + rewrite app_nil_r, Hone. cbn in IH1. by rewrite <- IH1.
    + rewrite split_path_app, Hone. rewrite split_path_cons in IH1. by rewrite IH1.
Qed.

Lemma pieces_exist path : exists ps, pieces path ps.
Proof.
  induction path as [path IH] using list_length_ind.
  destruct path as [|b path]; [exists []; by constructor|]. destruct (decide (b = 47)) as [->|Hb].
  - destruct (IH path ltac:(cbn; lia)) as [ps Hps]. exists ps. inversion Hps as [l Hl|l p rest ps' Hl Hp Hs Hr Hrest]; subst.
    + constructor. by constructor.
    + change (47 :: l ++ p ++ rest) with ((47 :: l) ++ p ++ rest). constructor; try done. by constructor.
  - assert (Hcut : forall l, exists p rest, l = p ++ rest /\ (47 ∉ p) /\ (rest = [] \/ exists rest', rest = 47 :: rest')).
    { induction l as [|c l (p & rest & -> & Hp & Hr)]; [exists [], []; split_and!; [done|set_solver|by left]|].
      destruct (decide (c = 47)) as [->|Hc].
      - exists [], (47 :: p ++ rest). split_and!; [done|set_solver|]. right. by eexists.
      - exists (c :: p), rest. split_and!; [done|set_solver|done]. }
    destruct (Hcut path) as (p & rest & -> & Hp & Hr). destruct (IH rest) as [ps Hps]; [cbn; rewrite length_app; lia|].
    exists ((b :: p) :: ps). change (b :: p ++ rest) with ([] ++ (b :: p) ++ rest). constructor; try done. set_solver.
Qed.

Lemma pieces_iff path ps : pieces path ps <-> ps = split_path path.
Proof.
  split; [intros Hp; symmetry; by apply pieces_split|]. intros ->. destruct (pieces_exist path) as [ps Hps].
  by rewrite (proj1 (pieces_split _ _ Hps)).
Qed.

Lemma match_segments_fits segs : forall parts (m : Params), Forall (fun p => p <> []) parts ->
  match match_segments segs parts m with
  | Some m' => exists caps, fits segs parts caps /\ forall key, m' !! key = match captured caps key with Some v => Some v | None => m !! key end
  | None => forall caps, ~ fits segs parts caps
  end.
Proof.
  induction segs as [|s segs IH]; intros parts m Hp; cbn [match_segments].
  - destruct parts; [exists []; split; [constructor|done]|]. intros caps Hf. inversion Hf.
  - destruct s as [e|n|n].
    + destruct parts as [|p parts]; [intros caps Hf; inversion Hf|]. inversion Hp; subst. case_bool_decide as E.
      * subst p. specialize (IH parts m ltac:(done)). destruct (match_segments segs parts m).
        -- destruct IH as (caps & Hf & Hk). exists caps. split; [by constructor|done].
        -- intros caps Hf. inversion Hf; subst. by eapply IH.
      * intros caps Hf. inversion Hf; subst. done.
    + destruct parts as [|p parts]; [intros caps Hf; inversion Hf|]. inversion Hp; subst. rewrite bool_decide_false by done.
      specialize (IH parts (<[n := Url.decode p]> m) ltac:(done)). destruct (match_segments segs parts _).
      * destruct IH as (caps & Hf & Hk). exists ((n, p) :: caps). split; [by constructor|]. intros key. rewrite Hk. cbn [captured].
        destruct (captured caps key); [done|]. case_bool_decide as E; [subst; by rewrite lookup_insert_eq|by rewrite lookup_insert_ne].
      * intros caps Hf. inversion Hf; subst. by eapply IH.
    + exists [(n, join (lit "/") parts)]. split; [constructor|]. intros key. cbn [captured].
      case_bool_decide as E; [subst; by rewrite lookup_insert_eq|by rewrite lookup_insert_ne].
Qed.

Lemma match_path_matches x path :
  match match_path x path with
  | Some params => exists caps, matches x path caps /\ forall key, params !! key = captured caps key
  | None => forall caps, ~ matches x path caps
  end.
Proof.
  unfold match_path, matches. destruct (pieces_split path _ (proj2 (pieces_iff path _) eq_refl)) as [_ Hne].
  pose proof (match_segments_fits (segments x) (split_path path) ∅ Hne) as Hm.
  destruct (match_segments _ _ _) as [params|].
  - destruct Hm as (caps & Hf & Hk). exists caps. split; [exists (split_path path); split; [by apply pieces_iff|done]|].
    intros key. rewrite Hk, lookup_empty. by destruct (captured caps key).
  - intros caps (ps & Hps%pieces_iff & Hf). subst ps. by eapply Hm.
Qed.

Lemma match_path_some x path : is_Some (match_path x path) <-> exists caps, matches x path caps.
Proof.
  pose proof (match_path_matches x path) as Hm. destruct (match_path x path).
  - destruct Hm as (caps & Hm & _). split; [by exists caps|by eexists].
  - split; [by intros []|]. intros [caps Hc]. by destruct (Hm caps).
Qed.

Lemma usable_serves x m : usable x m = true <-> serves x m.
Proof. unfold usable, serves. rewrite orb_true_iff, andb_true_iff, !bool_decide_eq_true. tauto. Qed.

Lemma more_specific_iff x y : more_specific x y = true <->
  (wildcards (segments x) < wildcards (segments y))%nat \/
  wildcards (segments x) = wildcards (segments y) /\ (statics (segments y) <= statics (segments x))%nat.
Proof.
  assert (Hw : forall segs, length (List.filter is_wildcard segs) = wildcards segs).
  { induction segs as [|[]]; cbn; congruence. }
  assert (Hs : forall segs, length (List.filter is_static segs) = statics segs).
  { induction segs as [|[]]; cbn; congruence. }
  unfold more_specific, specificity. rewrite !Hw, !Hs. lia.
Qed.

(** The sort keeps the order of the routes that are equally specific. *)
Lemma stable_sort_class (l : list (Route H M)) x :
  let same y := more_specific x y && more_specific y x in
  List.filter same (stable_sort more_specific l) = List.filter same l.
Proof.
  intros same. induction l as [|y l IH]; [done|]. cbn [stable_sort].
  assert (Hi : forall s, List.filter same (insert_stable more_specific y s) = List.filter same (y :: s)).
  { induction s as [|z s IHs]; [done|]. cbn [insert_stable]. destruct (more_specific y z) eqn:E; [done|].
    cbn [List.filter] in *. rewrite IHs. destruct (same z) eqn:Ez, (same y) eqn:Ey; try done. exfalso.
    unfold same in Ez, Ey. apply andb_true_iff in Ez as [Ez _], Ey as [_ Ey].
    by rewrite (more_specific_trans y x z Ey Ez) in E. }
  rewrite Hi. cbn [List.filter]. by rewrite IH.
Qed.

Lemma filter_mid (f : Route H M -> bool) (l p q : list (Route H M)) x : List.filter f l = p ++ x :: q -> exists a b, l = a ++ x :: b /\ List.filter f a = p.
Proof.
  revert p. induction l as [|y l IH]; intros p; [by destruct p|]. cbn [List.filter]. destruct (f y) eqn:E.
  - destruct p as [|z p]; cbn [app].
    + intros [= -> _]. by exists [], l.
    + intros [= -> Hl]. destruct (IH p Hl) as (a & b & -> & Ha). exists (z :: a), b. split; [done|]. cbn [List.filter]. by rewrite E, Ha.
  - intros Hl. destruct (IH p Hl) as (a & b & -> & Ha). exists (y :: a), b. split; [done|]. cbn [List.filter]. by rewrite E.
Qed.

(** The first of the sorted routes with a property is the preferred one. *)
Lemma first_preferred (P : Route H M -> Prop) (l pre post : list (Route H M)) x :
  stable_sort more_specific l = pre ++ x :: post -> Forall (fun y => ~ P y) pre ->
  exists i, l !! i = Some x /\ forall j y, l !! j = Some y -> P y -> preferred i x j y.
Proof.
  intros Hl Hpre.
  assert (Hrefl : more_specific x x = true) by (by destruct (more_specific_total x x)).
  pose proof (stable_sort_class l x) as Hc. cbv zeta in Hc. rewrite Hl, List.filter_app in Hc. cbn [List.filter] in Hc. rewrite Hrefl in Hc.
  symmetry in Hc. apply filter_mid in Hc as (a & b & -> & Ha). exists (length a). split; [by apply list_lookup_middle|].
  intros j y Hj Hy.
  assert (Hbest : more_specific x y = true).
  { assert (Hin : In y (pre ++ x :: post)).
    { rewrite <- Hl. eapply Permutation_in; [symmetry; apply stable_sort_perm|]. apply list_elem_of_In. by eapply list_elem_of_lookup_2. }
    assert (Hord : ordered more_specific (pre ++ x :: post)).
    { rewrite <- Hl. apply stable_sort_ordered; [apply more_specific_total|apply more_specific_trans]. }
    apply ordered_app_inv in Hord. rewrite Forall_forall in Hord, Hpre.
    apply in_app_iff in Hin as [Hin|[<-|Hin]]; [by destruct (Hpre y Hin)|done|by apply Hord]. }
  assert (Hback : (j < length a)%nat -> more_specific y x = false).
  { intros Hlt. rewrite lookup_app_l in Hj by done. apply not_true_is_false. intros Hyx.
    assert (Hin : In y (List.filter (fun z => more_specific x z && more_specific z x) a)).
    { apply filter_In. split; [apply list_elem_of_In; by eapply list_elem_of_lookup_2|by rewrite Hbest, Hyx]. }
    rewrite Ha in Hin. apply filter_In in Hin as [Hin _]. rewrite Forall_forall in Hpre. by apply (Hpre y Hin). }
  unfold preferred. apply more_specific_iff in Hbest. destruct (decide (j < length a)%nat) as [Hlt|]; [|lia].
  specialize (Hback Hlt). apply not_true_iff_false in Hback. rewrite more_specific_iff in Hback. lia.
Qed.

Lemma strictly_sorted l : ordered method_le l -> NoDup l -> ordered (fun a b => rank a <? rank b) l.
Proof.
  induction 1 as [|m l Hm _ IH]; intros Hd; [constructor|]. inversion Hd as [|? ? Hn Hd']; subst. constructor; [|by apply IH].
  rewrite Forall_forall in Hm |- *. intros k Hk. specialize (Hm k Hk). unfold method_le in Hm.
  assert (k <> m) by (intros ->; by apply Hn, list_elem_of_In). assert (rank m <> rank k) by (intros E; by apply rank_inj in E). apply Z.ltb_lt. lia.
Qed.

(** C36. Routing is deterministic and complete. Once finalized, a request is run by
    a registered route whose segments fit the parts of its path and that serves its
    method (HEAD is served by the routes for GET), with each parameter the decoded
    part captured last under its name; of all such routes it is the one with the
    fewest wildcards, then the most literal segments, then the first registered;
    and the global middleware comes before the route's own. If only routes for
    other methods fit the path, the answer lists exactly the methods these were
    registered with, in the order the methods are declared (so not HEAD, although a
    route for GET serves it); if none fits, the fallback runs or nothing is found. *)
Theorem dispatch_correct r m path :
  match dispatch (finalize r) m path with
  | Run x params stack =>
      exists i caps, routes r !! i = Some x /\ matches x path caps /\ serves x m /\
        (forall key, params !! key = captured caps key) /\ stack = global_middleware r ++ middleware x /\
        forall j y caps', routes r !! j = Some y -> matches y path caps' -> serves y m -> preferred i x j y
  | NotAllowed allow stack =>
      stack = global_middleware r /\ allow <> [] /\ ordered (fun a b => rank a <? rank b) allow /\
      (forall k, k ∈ allow <-> exists y caps, y ∈ routes r /\ matches y path caps /\ method y = k) /\
      forall y caps, y ∈ routes r -> matches y path caps -> ~ serves y m
  | RunFallback h stack =>
      (forall y caps, y ∈ routes r -> ~ matches y path caps) /\ fallback r = Some h /\ stack = global_middleware r
  | NotFound stack =>
      (forall y caps, y ∈ routes r -> ~ matches y path caps) /\ fallback r = None /\ stack = global_middleware r
  end.
Proof.
  unfold dispatch. change (routes (finalize r)) with (stable_sort more_specific (routes r)).
  assert (Hin : forall y, y ∈ routes r <-> In y (stable_sort more_specific (routes r))).
  { intros y. by rewrite <- list_elem_of_In, stable_sort_perm. }
  assert (Hans : forall y caps, matches y path caps -> serves y m -> answers path m y).
  { intros y caps Hc Hs. split; [apply match_path_some; by exists caps|by apply usable_serves]. }
  assert (Hnone : forall y caps, match_path y path = None -> ~ matches y path caps).
  { intros y caps Hn. pose proof (match_path_matches y path) as Hm. rewrite Hn in Hm. apply Hm. }
  pose proof (dispatch_loop_spec (stable_sort more_specific (routes r)) (finalize r) m path false [] ltac:(done)) as Hd.
  destruct (dispatch_loop _ (finalize r) m path false []).
  - destruct Hd as (pre & post & El & Hx & Hu & -> & Hpre).
    destruct (first_preferred (answers path m) _ _ _ _ El Hpre) as (i & Hi & Hbest).
    pose proof (match_path_matches x path) as Hm. rewrite Hx in Hm. destruct Hm as (caps & Hc & Hk).
    exists i, caps. split_and!; [done|done|by apply usable_serves|done|done|]. intros j y caps' Hj Hy Hs. eapply Hbest; [done|]. by eapply Hans.
  - destruct Hd as (Hno & -> & -> & Hex). cbn [app]. rewrite Forall_forall in Hno.
    set (hits := List.filter _ _).
    destruct (dedup_spec (stable_sort method_le (map method hits))) as (Hord & Hnd & Hel).
    { apply stable_sort_ordered; unfold method_le; intros; lia. }
    assert (Hallow : forall k, k ∈ dedup (stable_sort method_le (map method hits)) <->
      exists y caps, y ∈ routes r /\ matches y path caps /\ method y = k).
    { intros k. rewrite Hel, stable_sort_perm, list_elem_of_In, in_map_iff. unfold hits. setoid_rewrite filter_In.
      setoid_rewrite bool_decide_eq_true. setoid_rewrite match_path_some. setoid_rewrite <- Hin. split.
      - intros (y & <- & Hy & caps & Hc). by exists y, caps.
      - intros (y & caps & Hy & Hc & <-). exists y. split; [done|]. split; [done|by exists caps]. }
    split_and!; [done| |by apply strictly_sorted|exact Hallow|].
    + destruct Hex as [?|(y & Hy & [caps Hc]%match_path_some)]; [done|]. intros Hnil. rewrite Hnil in Hallow.
      apply (not_elem_of_nil (method y)), Hallow. exists y, caps. by rewrite Hin.
    + intros y caps Hy Hc Hs. eapply (Hno y); [by apply Hin|]. by eapply Hans.
  - destruct Hd as (Hl & _ & ? & ->). rewrite Forall_forall in Hl. split_and!; [|done..].
    intros y caps Hy. apply Hnone, Hl. by apply Hin.
  - destruct Hd as (Hl & _ & ? & ->). rewrite Forall_forall in Hl. split_and!; [|done..].
    intros y caps Hy. apply Hnone, Hl. by apply Hin.
Qed.
End specification.

End Router.
