(* ===== verification/Checksum.v ===== *)
(** * Checksums ([rustlavel-http/src/compression/checksum.rs])

    The table-driven CRC-32 of gzip and the chunked Adler-32 of zlib, against the
    bit-by-bit and byte-by-byte definitions they optimise. *)

From S2P Require Import Prelude.

Module Checksum.

Definition CRC32_POLYNOMIAL : Z := 3988292384.

(** One step of the shift register. *)
Definition crc_bit (crc : Z) : Z :=
  if negb (Z.land crc 1 =? 0) then Z.lxor CRC32_POLYNOMIAL (Z.shiftr crc 1) else Z.shiftr crc 1.

Fixpoint crc_bits (n : nat) (crc : Z) : Z :=
  match n with O => crc | S n => crc_bits n (crc_bit crc) end.

Definition build_crc32_table : list Z := map (fun byte => crc_bits 8 (Z.of_nat byte)) (seq 0 256).

(** Computed once, like the [const] of the source. *)
Definition CRC32_TABLE : list Z := Eval vm_compute in build_crc32_table.

Definition crc_new : Z := 4294967295.

(** Indexing the table. *)
Definition crc_entry (i : Z) : Z := default 0 (CRC32_TABLE !! Z.to_nat i).

Definition crc_update_byte (crc byte : Z) : Z :=
  Z.lxor (crc_entry (Z.land (Z.lxor crc byte) 255)) (Z.shiftr crc 8).

Definition crc_update (crc : Z) (bs : list Z) : Z := fold_left crc_update_byte bs crc.

(** [!self.state] on a [u32]. *)
Definition crc_finish (crc : Z) : Z := Z.lxor crc 4294967295.

Definition crc32 (bs : list Z) : Z := crc_finish (crc_update crc_new bs).

Definition ADLER_MODULUS : Z := 65521.
Definition ADLER_CHUNK : nat := Z.to_nat 5552.

Record Adler32 := { a : Z; b : Z }.
Definition adler_new : Adler32 := {| a := 1; b := 0 |}.

(** The inner loop; [+=] is [u32] addition. *)
Definition adler_byte (s : Adler32) (byte : Z) : Adler32 :=
  let a' := u32 (a s + byte) in {| a := a'; b := u32 (b s + a') |}.

Definition adler_chunk (s : Adler32) (chunk : list Z) : Adler32 :=
  let s := fold_left adler_byte chunk s in
  {| a := a s mod ADLER_MODULUS; b := b s mod ADLER_MODULUS |}.

Definition adler_update (s : Adler32) (bs : list Z) : Adler32 :=
  fold_left adler_chunk (chunks ADLER_CHUNK bs) s.

Definition adler_finish (s : Adler32) : Z := Z.lor (u32 (Z.shiftl (b s) 16)) (a s).

Definition adler32 (bs : list Z) : Z := adler_finish (adler_update adler_new bs).

(** ** References *)

(** CRC-32 one bit at a time: every input bit enters the register at its low
    end, and the register is divided by the reflected polynomial. *)
Definition crc_feed_byte (crc byte : Z) : Z := crc_bits 8 (Z.lxor crc byte).
Definition crc32_bitwise (bs : list Z) : Z :=
  Z.lxor (fold_left crc_feed_byte bs 4294967295) 4294967295.

(** Adler-32 as the RFC defines it: both sums reduced after every byte. *)
Definition adler_sums (bs : list Z) : Z * Z :=
  fold_left (fun '(x, y) byte => let x := (x + byte) mod 65521 in (x, (y + x) mod 65521)) bs (1, 0).
Definition adler32_rfc (bs : list Z) : Z := let '(x, y) := adler_sums bs in y * 65536 + x.

(** ** CRC-32 *)

Lemma crc_bit_eq x :
  crc_bit x = if Z.testbit x 0 then Z.lxor CRC32_POLYNOMIAL (Z.shiftr x 1) else Z.shiftr x 1.
Proof.
  unfold crc_bit. pose proof (land_pow2_zero 0 x ltac:(lia)) as H. change (2 ^ 0) with 1 in H.
  by rewrite H, negb_involutive.
Qed.

(** The register is linear: a step distributes over exclusive or. *)
Lemma crc_bit_lxor x y : 0 <= x -> 0 <= y -> crc_bit (Z.lxor x y) = Z.lxor (crc_bit x) (crc_bit y).
Proof.
  intros Hx Hy. rewrite !crc_bit_eq, Z.lxor_spec, Z.shiftr_lxor.
  apply Z.bits_inj'. intros i Hi.
  destruct (Z.testbit x 0), (Z.testbit y 0); cbn [xorb]; rewrite !Z.lxor_spec;
    repeat match goal with |- context [Z.testbit ?a ?b] => destruct (Z.testbit a b) end; done.
Qed.

Lemma crc_bit_nonneg x : 0 <= x -> 0 <= crc_bit x.
Proof.
  intros Hx. unfold crc_bit. assert (0 <= Z.shiftr x 1) by (by apply Z.shiftr_nonneg).
  case_match; [|done]. apply Z.lxor_nonneg. unfold CRC32_POLYNOMIAL. lia.
Qed.

Lemma crc_bits_lxor n x y :
  0 <= x -> 0 <= y -> crc_bits n (Z.lxor x y) = Z.lxor (crc_bits n x) (crc_bits n y).
Proof.
  revert x y; induction n as [|n IH]; intros x y Hx Hy; [done|]. cbn [crc_bits].
  rewrite crc_bit_lxor by done. apply IH; by apply crc_bit_nonneg.
Qed.

(** A value whose low bits are zero is only shifted. *)
Lemma crc_bits_shift n x : 0 <= x -> crc_bits n (Z.shiftl x (Z.of_nat n)) = x.
Proof.
  revert x; induction n as [|n IH]; intros x Hx; [apply Z.shiftl_0_r|]. cbn [crc_bits].
  rewrite <- (IH x Hx) at 2. f_equal. rewrite crc_bit_eq, Z.shiftl_spec_low by lia.
  rewrite Z.shiftr_shiftl_l by lia. f_equal. lia.
Qed.

Lemma crc_table_entry i : 0 <= i < 256 -> crc_entry i = crc_bits 8 i.
Proof.
  intros Hi.
  pose proof (forall_below 256 (fun i => crc_entry i =? crc_bits 8 i)
    ltac:(vm_compute; reflexivity) i Hi) as H. by apply Z.eqb_eq in H.
Qed.

Lemma split_low8 x : 0 <= x -> x = Z.lxor (Z.land x 255) (Z.shiftl (Z.shiftr x 8) 8).
Proof.
  intros Hx. change 255 with (Z.ones 8). apply Z.bits_inj'. intros i Hi.
  rewrite Z.lxor_spec, Z.land_spec, Z.shiftl_spec, Z.testbit_ones_nonneg by lia.
  destruct (Z.ltb_spec i 8).
  - rewrite (Z.testbit_neg_r _ (i - 8)) by lia. by rewrite andb_true_r, xorb_false_r.
  - rewrite andb_false_r, Z.shiftr_spec by lia. rewrite xorb_false_l. f_equal. lia.
Qed.

Lemma crc_update_byte_bitwise crc byte :
  0 <= crc -> 0 <= byte < 256 -> crc_update_byte crc byte = crc_feed_byte crc byte.
Proof.
  intros Hc Hb. unfold crc_update_byte, crc_feed_byte.
  assert (Hx : 0 <= Z.lxor crc byte) by (apply Z.lxor_nonneg; lia).
  rewrite crc_table_entry.
  2: { change 255 with (Z.ones 8). rewrite Z.land_ones by lia. apply Z.mod_pos_bound. lia. }
  rewrite (split_low8 (Z.lxor crc byte)) at 2 by done.
  assert (Hl : 0 <= Z.land (Z.lxor crc byte) 255) by (apply Z.land_nonneg; lia).
  assert (Hs : 0 <= Z.shiftr (Z.lxor crc byte) 8) by (by apply Z.shiftr_nonneg).
  rewrite crc_bits_lxor, (crc_bits_shift 8) by (done || by apply Z.shiftl_nonneg).
  f_equal. rewrite Z.shiftr_lxor. rewrite (Z.shiftr_div_pow2 byte), (Z.div_small byte) by lia.
  by rewrite Z.lxor_0_r.
Qed.

Lemma crc_bits_nonneg n x : 0 <= x -> 0 <= crc_bits n x.
Proof. revert x; induction n as [|n IH]; intros x Hx; [done|]. by apply IH, crc_bit_nonneg. Qed.

Lemma crc_update_bitwise bs crc :
  bytes bs -> 0 <= crc -> crc_update crc bs = fold_left crc_feed_byte bs crc.
Proof.
  intros Hb. revert crc; induction Hb as [|x bs Hx Hb IH]; intros crc Hc; [done|].
  unfold crc_update. cbn [fold_left]. rewrite crc_update_byte_bitwise by done. apply IH.
  apply crc_bits_nonneg, Z.lxor_nonneg. lia.
Qed.

(** ** Adler-32 *)

(** The reference sums of some bytes, from given ones. *)
Definition rfc_step (st : Z * Z) (byte : Z) : Z * Z :=
  let x := (st.1 + byte) mod 65521 in (x, (st.2 + x) mod 65521).
Definition rfc_sums (st : Z * Z) (bs : list Z) : Z * Z := fold_left rfc_step bs st.

Lemma adler_sums_rfc bs : adler_sums bs = rfc_sums (1, 0) bs.
Proof.
  unfold adler_sums, rfc_sums, rfc_step. generalize (1, 0). induction bs as [|v bs IH]; intros [x y]; [done|].
  cbn [fold_left fst snd]. apply IH.
Qed.

(** The sums of one chunk stay below [2^32], the bound that sets the chunk
    length: after [n] bytes [a] has gained at most [255 n], and [b] at most the
    sum of the values of [a]. *)
Lemma adler_chunk_sums chunk : forall (n : nat) s,
  bytes chunk -> (n + length chunk <= ADLER_CHUNK)%nat ->
  0 <= a s <= 65520 + 255 * Z.of_nat n ->
  0 <= b s -> 2 * b s <= 2 * 65520 * (Z.of_nat n + 1) + 255 * (Z.of_nat n * (Z.of_nat n + 1)) ->
  let s' := fold_left adler_byte chunk s in
  (a s' mod 65521, b s' mod 65521) = rfc_sums (a s mod 65521, b s mod 65521) chunk.
Proof.
  induction chunk as [|v chunk IH]; intros n s Hb Hlen Ha Hb0 Hbb; [done|].
  apply bytes_cons in Hb as [Hv Hb]. cbn [fold_left length] in *.
  assert (Hn : Z.of_nat n <= 5551) by (unfold ADLER_CHUNK in Hlen; lia).
  assert (Hq : Z.of_nat n * (Z.of_nat n + 1) <= 5551 * 5552) by nia.
  assert (Hstep : adler_byte s v = {| a := a s + v; b := b s + (a s + v) |}).
  { unfold adler_byte. rewrite (wrap_small 32 (a s + v)), (wrap_small 32) by lia. done. }
  cbv zeta. rewrite Hstep. rewrite (IH (S n) {| a := a s + v; b := b s + (a s + v) |}); cbn [a b];
    [|done|lia|lia|lia|lia].
  unfold rfc_sums. cbn [fold_left]. f_equal. unfold rfc_step. cbn [fst snd].
  rewrite Z.add_mod_idemp_l by lia. f_equal. rewrite <- Z.add_mod_idemp_r, Z.add_mod_idemp_l; lia.
Qed.

Lemma rfc_sums_range bs st :
  0 <= st.1 < 65521 -> 0 <= st.2 < 65521 ->
  0 <= (rfc_sums st bs).1 < 65521 /\ 0 <= (rfc_sums st bs).2 < 65521.
Proof.
  revert st; induction bs as [|v bs IH]; intros st H1 H2; [done|].
  apply IH; unfold rfc_step; cbn [fst snd]; apply Z.mod_pos_bound; lia.
Qed.

Lemma adler_update_rfc bs s :
  bytes bs -> 0 <= a s < 65521 -> 0 <= b s < 65521 ->
  (a (adler_update s bs), b (adler_update s bs)) = rfc_sums (a s, b s) bs.
Proof.
  unfold adler_update. revert s; induction bs as [bs IH] using list_length_ind. intros s Hb Ha Hbb.
  destruct (decide (bs = [])) as [->|Hne]; [done|].
  rewrite chunks_cons by (done || unfold ADLER_CHUNK; lia). cbn [fold_left].
  pose proof (adler_chunk_sums (take ADLER_CHUNK bs) 0 s) as Hc. cbv zeta in Hc.
  rewrite (Z.mod_small (a s)), (Z.mod_small (b s)) in Hc by lia.
  specialize (Hc ltac:(solve_bytes) ltac:(solve_len) ltac:(lia) ltac:(lia) ltac:(lia)).
  assert (Hr := rfc_sums_range (take ADLER_CHUNK bs) (a s, b s) Ha Hbb). rewrite <- Hc in Hr.
  cbn [fst snd] in Hr. rewrite IH.
  - unfold adler_chunk. cbn [a b]. unfold ADLER_MODULUS. rewrite Hc.
    unfold rfc_sums. rewrite <- fold_left_app. by rewrite take_drop.
  - rewrite length_drop. destruct bs; [done|]. unfold ADLER_CHUNK. cbn. lia.
  - solve_bytes.
  - apply Hr.
  - apply Hr.
Qed.

Lemma adler32_eq bs : bytes bs -> adler32 bs = adler32_rfc bs.
Proof.
  intros Hb. unfold adler32, adler32_rfc. rewrite adler_sums_rfc.
  pose proof (adler_update_rfc bs adler_new Hb) as H. cbn [adler_new a b] in H.
  specialize (H ltac:(lia) ltac:(lia)).
  pose proof (rfc_sums_range bs (1, 0) ltac:(cbn; lia) ltac:(cbn; lia)) as Hr.
  rewrite <- H in Hr |- *. cbn [fst snd] in Hr. unfold adler_finish.
  change adler_new with {| a := 1; b := 0 |} in *. set (s := adler_update _ bs) in *.
  rewrite Z.shiftl_mul_pow2, (wrap_small 32) by lia. rewrite Z.mul_comm, lor_add_low by lia.
  change (2 ^ 16) with 65536. lia.
Qed.

(** Both checksums are 32-bit words. *)
Lemma crc_bits_range n : forall x, 0 <= x < 2 ^ 32 -> 0 <= crc_bits n x < 2 ^ 32.
Proof.
  induction n as [|n IH]; intros x Hx; [done|]. cbn [crc_bits]. apply IH. unfold crc_bit.
  assert (Hs : 0 <= Z.shiftr x 1 < 2 ^ 32).
  { rewrite Z.shiftr_div_pow2 by lia. split; [apply Z.div_pos; lia|]. apply Z.div_lt_upper_bound; lia. }
  destruct (negb _); [|done]. apply lxor_range; [lia|unfold CRC32_POLYNOMIAL; lia|done].
Qed.

Lemma crc32_range bs : bytes bs -> 0 <= crc32 bs < 2 ^ 32.
Proof.
  intros Hb. unfold crc32, crc_finish. apply lxor_range; [lia| |lia].
  rewrite crc_update_bitwise by (done || (unfold crc_new; lia)).
  assert (H : forall bs c, bytes bs -> 0 <= c < 2 ^ 32 -> 0 <= fold_left crc_feed_byte bs c < 2 ^ 32).
  { clear. intros bs c Hb. revert c. induction Hb as [|x bs Hx Hb IH]; intros c Hc; [done|].
    cbn [fold_left]. apply IH, crc_bits_range, lxor_range; lia. }
  apply H; [done|unfold crc_new; lia].
Qed.

Lemma adler32_range bs : bytes bs -> 0 <= adler32 bs < 2 ^ 32.
Proof.
  intros Hb. rewrite adler32_eq by done. unfold adler32_rfc. rewrite adler_sums_rfc.
  pose proof (rfc_sums_range bs (1, 0) ltac:(cbn; lia) ltac:(cbn; lia)) as H.
  destruct (rfc_sums (1, 0) bs) as [x y]. cbn [fst snd] in H. lia.
Qed.

(** C39. The optimised checksums are the standard ones. On every byte string the
    table-driven CRC-32 equals the bit-by-bit division by the polynomial, and the
    Adler-32 that reduces its sums once per 5552 bytes equals the one that
    reduces them at every byte: no intermediate sum overflows 32 bits. *)
Theorem checksums_exact bs :
  bytes bs -> crc32 bs = crc32_bitwise bs /\ adler32 bs = adler32_rfc bs.
Proof.
  intros Hb. split; [|by apply adler32_eq].
  unfold crc32, crc32_bitwise, crc_finish. by rewrite crc_update_bitwise.
Qed.

(** The catalogues' check values. *)
Lemma checksums_exact_witness :
  crc32 (lit "123456789") = crc32_bitwise (lit "123456789") /\
  crc32_bitwise (lit "123456789") = 3421780262 /\ adler32 (lit "Wikipedia") = 300286872.
Proof.
  split; [|split; vm_compute; reflexivity].
  apply (checksums_exact (lit "123456789")). by apply (bool_decide_unpack _).
Defined.

End Checksum.
