(* ===== verification/Bits.v ===== *)
(** * Bit streams ([rustlavel-http/src/compression/deflate.rs], readers and writers)

    The least-significant-bit-first reader and writer of the DEFLATE codec, and
    what they mean: a writer stands for the list of bits written so far, a
    reader for the list of bits still to come. The codec above is proved
    against these two views only, through [reads]. *)

From S2P Require Import Prelude.

Module Bits.

(** ** Errors

    [Stuck] is the model's own: a loop that ran out of fuel or an index out of
    range, where the code would loop or panic. It is never met. *)

Inductive InflateError :=
  | Truncated
  | InvalidBlockType
  | InvalidCode
  | InvalidCodeLengths
  | DistanceTooFar
  | LengthMismatch
  | OutputTooLarge
  | InvalidHeader
  | ChecksumMismatch
  | TrailingData
  | Stuck.

#[export] Instance InflateError_eq_dec : EqDecision InflateError.
Proof. solve_decision. Defined.

(** ** Reading *)

Record BitReader := { data : list Z; pos : nat; bits : Z; count : nat }.

Definition reader (input : list Z) : BitReader :=
  {| data := input; pos := 0; bits := 0; count := 0 |}.

(** The refill loop; each round adds a byte, so [n] rounds are enough. *)
Fixpoint refill (fuel n : nat) (r : BitReader) : result InflateError BitReader :=
  if (n <=? count r)%nat then Ok r
  else match fuel with
       | O => Err Stuck
       | S fuel =>
           match data r !! pos r with
           | None => Err Truncated
           | Some byte =>
               refill fuel n {| data := data r; pos := S (pos r);
                                bits := Z.lor (bits r) (Z.shiftl byte (Z.of_nat (count r)));
                                count := count r + 8 |}
           end
       end.

Definition read (n : nat) (r : BitReader) : result InflateError (Z * BitReader) :=
  let? r := refill n n r in
  let value := Z.land (bits r) (Z.shiftl 1 (Z.of_nat n) - 1) in
  Ok (value, {| data := data r; pos := pos r; bits := Z.shiftr (bits r) (Z.of_nat n);
                count := count r - n |}).

Definition read_bit (r : BitReader) : result InflateError (Z * BitReader) := read 1 r.

Definition align_to_byte (r : BitReader) : BitReader :=
  {| data := data r; pos := pos r; bits := 0; count := 0 |}.

Definition take_bytes (n : nat) (r : BitReader) : result InflateError (list Z * BitReader) :=
  let e := (pos r + n)%nat in
  if (e <=? length (data r))%nat then
    Ok (take n (drop (pos r) (data r)),
        {| data := data r; pos := e; bits := bits r; count := count r |})
  else Err Truncated.

Definition position (r : BitReader) : nat := pos r.

(** ** Writing *)

Record BitWriter := { out : list Z; wbits : Z; wcount : nat }.

Definition writer : BitWriter := {| out := []; wbits := 0; wcount := 0 |}.

(** The flush loop; each round takes eight bits. *)
Fixpoint flush (fuel : nat) (w : BitWriter) : BitWriter :=
  match fuel with
  | O => w
  | S fuel =>
      if (8 <=? wcount w)%nat then
        flush fuel {| out := out w ++ [u8 (wbits w)]; wbits := Z.shiftr (wbits w) 8;
                      wcount := wcount w - 8 |}
      else w
  end.

Definition write (value : Z) (n : nat) (w : BitWriter) : BitWriter :=
  flush (S (wcount w + n)) {| out := out w;
    wbits := Z.lor (wbits w) (Z.shiftl value (Z.of_nat (wcount w))); wcount := wcount w + n |}.

Definition align_writer (w : BitWriter) : BitWriter :=
  if (0 <? wcount w)%nat then {| out := out w ++ [u8 (wbits w)]; wbits := 0; wcount := 0 |} else w.

Definition write_bytes (bs : list Z) (w : BitWriter) : BitWriter :=
  {| out := out w ++ bs; wbits := wbits w; wcount := wcount w |}.

Definition finish (w : BitWriter) : list Z := out (align_writer w).

(** ** Bits of an integer *)

Definition bits_of (n : nat) (v : Z) : list bool :=
  map (fun i => Z.testbit v (Z.of_nat i)) (seq 0 n).

Definition bytes_bits (l : list Z) : list bool := concat (map (bits_of 8) l).

Lemma bits_of_length n v : length (bits_of n v) = n.
Proof. unfold bits_of. by rewrite length_map, length_seq. Qed.

Lemma bytes_bits_length l : length (bytes_bits l) = (8 * length l)%nat.
Proof.
  unfold bytes_bits. induction l as [|b l IH]; [done|]. cbn [map concat length].
  rewrite length_app, IH, bits_of_length. lia.
Qed.

Lemma bytes_bits_app l1 l2 : bytes_bits (l1 ++ l2) = bytes_bits l1 ++ bytes_bits l2.
Proof. unfold bytes_bits. by rewrite map_app, concat_app. Qed.

Lemma bytes_bits_one b : bytes_bits [b] = bits_of 8 b.
Proof. apply app_nil_r. Qed.

Lemma bits_of_lookup n v i : (i < n)%nat -> bits_of n v !! i = Some (Z.testbit v (Z.of_nat i)).
Proof.
  intros Hi. unfold bits_of. rewrite list_lookup_fmap, lookup_seq_lt by done. done.
Qed.

Lemma bits_of_ext n v v' :
  (forall i, 0 <= i < Z.of_nat n -> Z.testbit v i = Z.testbit v' i) -> bits_of n v = bits_of n v'.
Proof.
  intros H. unfold bits_of. apply map_ext_in. intros i Hi. apply in_seq in Hi. apply H. lia.
Qed.

Lemma bits_of_split a b v : bits_of (a + b) v = bits_of a v ++ bits_of b (Z.shiftr v (Z.of_nat a)).
Proof.
  unfold bits_of. rewrite seq_app, map_app. f_equal. cbn [Nat.add].
  rewrite <- (Nat.add_0_r a) at 1. rewrite <- fmap_add_seq. rewrite map_map.
  apply map_ext. intros i. rewrite Z.shiftr_spec by lia. f_equal. lia.
Qed.

Lemma bits_of_inj n v v' :
  0 <= v < 2 ^ Z.of_nat n -> 0 <= v' < 2 ^ Z.of_nat n -> bits_of n v = bits_of n v' -> v = v'.
Proof.
  intros Hv Hv' H. apply Z.bits_inj'. intros i Hi.
  destruct (decide (i < Z.of_nat n)) as [Hlt|Hge].
  - apply (f_equal (fun l => l !! Z.to_nat i)) in H. rewrite !bits_of_lookup in H by lia.
    injection H as H. by rewrite Z2Nat.id in H by lia.
  - rewrite <- (Z.mod_small v (2 ^ Z.of_nat n)), <- (Z.mod_small v' (2 ^ Z.of_nat n)) by done.
    by rewrite !Z.mod_pow2_bits_high by lia.
Qed.

(** Or-ing a value in above the bits already there appends its bits. *)
Lemma bits_of_lor c n v x :
  0 <= v < 2 ^ Z.of_nat c ->
  bits_of (c + n) (Z.lor v (Z.shiftl x (Z.of_nat c))) = bits_of c v ++ bits_of n x.
Proof.
  intros Hv. rewrite bits_of_split. f_equal.
  - apply bits_of_ext. intros i Hi. rewrite Z.lor_spec, Z.shiftl_spec_low by lia.
    apply orb_false_r.
  - f_equal. rewrite Z.shiftr_lor, Z.shiftr_shiftl_l by lia.
    rewrite Z.sub_diag, Z.shiftl_0_r, Z.shiftr_div_pow2, Z.div_small by lia. apply Z.lor_0_l.
Qed.

Lemma lor_shift_range c n v x :
  0 <= v < 2 ^ Z.of_nat c -> 0 <= x < 2 ^ Z.of_nat n ->
  0 <= Z.lor v (Z.shiftl x (Z.of_nat c)) < 2 ^ Z.of_nat (c + n).
Proof.
  intros Hv Hx. rewrite Nat2Z.inj_add. apply lor_range; [lia| |].
  - rewrite Z.pow_add_r by lia. nia.
  - rewrite Z.shiftl_mul_pow2, Z.pow_add_r by lia. nia.
Qed.

Lemma shiftr_range k n v :
  0 <= v < 2 ^ Z.of_nat n -> (k <= n)%nat -> 0 <= Z.shiftr v (Z.of_nat k) < 2 ^ Z.of_nat (n - k).
Proof.
  intros Hv Hk. rewrite Z.shiftr_div_pow2 by lia. split; [apply Z.div_pos; lia|].
  apply Z.div_lt_upper_bound; [lia|]. rewrite <- Z.pow_add_r by lia.
  replace (Z.of_nat k + Z.of_nat (n - k)) with (Z.of_nat n) by lia. lia.
Qed.

(** ** The view of a reader *)

Definition wf (r : BitReader) : Prop :=
  (count r < 8)%nat /\ 0 <= bits r < 2 ^ Z.of_nat (count r) /\ bytes (data r) /\
  (pos r <= length (data r))%nat.

Definition rest_bits (r : BitReader) : list bool :=
  bits_of (count r) (bits r) ++ bytes_bits (drop (pos r) (data r)).

Lemma refill_spec fuel n r :
  (n <= count r + fuel)%nat -> 0 <= bits r < 2 ^ Z.of_nat (count r) -> bytes (data r) ->
  (pos r <= length (data r))%nat ->
  if (n <=? length (rest_bits r))%nat then
    exists r', refill fuel n r = Ok r' /\ rest_bits r' = rest_bits r /\ data r' = data r /\
      0 <= bits r' < 2 ^ Z.of_nat (count r') /\ (n <= count r')%nat /\
      (count r' < Nat.max (n + 8) (S (count r)))%nat /\ (pos r' <= length (data r))%nat
  else refill fuel n r = Err Truncated.
Proof.
  revert r. induction fuel as [|fuel IH]; intros r Hf Hb Hd Hp.
  - assert (Hlen : (count r <= length (rest_bits r))%nat)
      by (unfold rest_bits; rewrite length_app, bits_of_length; lia).
    destruct (Nat.leb_spec n (length (rest_bits r))); [|lia]. exists r. cbn [refill].
    rewrite (proj2 (Nat.leb_le _ _)) by lia. repeat split; (done || lia).
  - cbn [refill]. destruct (Nat.leb_spec n (count r)) as [Hle|Hgt].
    { assert (Hlen : (count r <= length (rest_bits r))%nat)
        by (unfold rest_bits; rewrite length_app, bits_of_length; lia).
      destruct (Nat.leb_spec n (length (rest_bits r))); [|lia]. exists r. repeat split; (done || lia). }
    destruct (data r !! pos r) as [b|] eqn:Eb.
    + assert (Hbyte : 0 <= b < 2 ^ Z.of_nat 8) by (eapply Forall_lookup_1 in Hd; done).
      specialize (IH {| data := data r; pos := S (pos r);
        bits := Z.lor (bits r) (Z.shiftl b (Z.of_nat (count r))); count := count r + 8 |}).
      cbn [count bits data pos] in IH. unfold rest_bits at 1 3 in IH. cbn [count bits data pos] in IH.
      rewrite bits_of_lor, <- app_assoc in IH by done.
      replace (bits_of 8 b ++ bytes_bits (drop (S (pos r)) (data r)))
        with (bytes_bits (drop (pos r) (data r))) in IH by by rewrite (drop_S _ b) by done.
      fold (rest_bits r) in IH.
      apply lookup_lt_Some in Eb.
      specialize (IH ltac:(lia) (lor_shift_range _ _ _ _ Hb Hbyte) Hd ltac:(lia)).
      destruct (n <=? length (rest_bits r))%nat; [|done].
      destruct IH as (r' & -> & Hr & Hdr & Hb' & Hn & Hc & Hp'). exists r'. repeat split; (done || lia).
    + apply lookup_ge_None in Eb. unfold rest_bits.
      rewrite drop_ge, app_nil_r, bits_of_length by done.
      by rewrite (proj2 (Nat.leb_gt _ _)) by lia.
Qed.

(** Reading takes the next bits, or reports that there are not enough. *)
Lemma read_bits_spec n r :
  wf r ->
  if (n <=? length (rest_bits r))%nat then
    exists v r', read n r = Ok (v, r') /\ 0 <= v < 2 ^ Z.of_nat n /\
      rest_bits r = bits_of n v ++ rest_bits r' /\ wf r' /\ data r' = data r
  else read n r = Err Truncated.
Proof.
  intros (Hc & Hb & Hd & Hp). unfold read. pose proof (refill_spec n n r ltac:(lia) Hb Hd Hp) as H.
  destruct (n <=? length (rest_bits r))%nat; [|by rewrite H].
  destruct H as (r1 & -> & Hr & Hdr & Hb1 & Hn & Hc1 & Hp1). eexists _, _. split; [done|].
  rewrite Z.shiftl_mul_pow2, Z.mul_1_l, land_ones_mod by lia.
  split; [apply Z.mod_pos_bound; lia|]. split.
  - rewrite <- Hr. unfold rest_bits. cbn [count bits data pos].
    replace (count r1) with (n + (count r1 - n))%nat at 1 by lia.
    rewrite bits_of_split, <- app_assoc. f_equal. apply bits_of_ext. intros i Hi.
    by rewrite Z.mod_pow2_bits_low by lia.
  - split; [|done]. split; [cbn [count]; lia|]. cbn [count bits data pos]. rewrite Hdr.
    split; [by apply shiftr_range|done].
Qed.

Lemma reader_wf input : bytes input -> wf (reader input).
Proof. intros Hb. repeat split; [cbn; lia..|done|cbn; lia]. Qed.

Lemma reader_rest input : rest_bits (reader input) = bytes_bits input.
Proof. done. Qed.

(** ** Parsers *)

Definition parser (A : Type) : Type := BitReader -> result InflateError (A * BitReader).

(** Whatever follows, [p] reads exactly these bits and returns [a]. *)
Definition reads {A} (p : parser A) (bs : list bool) (a : A) : Prop :=
  forall r rest, wf r -> rest_bits r = bs ++ rest ->
    exists r', p r = Ok (a, r') /\ wf r' /\ rest_bits r' = rest /\ data r' = data r.

Lemma reads_ret {A} (a : A) : reads (fun r => Ok (a, r)) [] a.
Proof. intros r rest Hw Hr. by exists r. Qed.

Lemma reads_bind {A B} (p : parser A) (k : A -> parser B) bs1 bs2 a b :
  reads p bs1 a -> reads (k a) bs2 b ->
  reads (fun r => let? (a, r) := p r in k a r) (bs1 ++ bs2) b.
Proof.
  intros Hp Hk r rest Hw Hr. rewrite <- app_assoc in Hr.
  destruct (Hp r _ Hw Hr) as (r1 & -> & Hw1 & Hr1 & Hd1).
  destruct (Hk r1 _ Hw1 Hr1) as (r2 & -> & Hw2 & Hr2 & Hd2). exists r2.
  by rewrite Hd2.
Qed.

Lemma reads_read n v : 0 <= v < 2 ^ Z.of_nat n -> reads (read n) (bits_of n v) v.
Proof.
  intros Hv r rest Hw Hr. pose proof (read_bits_spec n r Hw) as H.
  rewrite (proj2 (Nat.leb_le _ _)) in H by (rewrite Hr, length_app, bits_of_length; lia).
  destruct H as (v' & r' & Hread & Hv' & Hs & Hw' & Hd). rewrite Hr in Hs.
  apply app_inj_1 in Hs as [Hb Hrest]; [|by rewrite !bits_of_length].
  apply bits_of_inj in Hb as <-; [|done|done]. by exists r'.
Qed.

Lemma reads_bit b : reads read_bit [b] (Z.b2z b).
Proof.
  unfold read_bit. replace [b] with (bits_of 1 (Z.b2z b)) by by destruct b.
  apply reads_read. destruct b; cbn; lia.
Qed.

(** ** Byte boundaries *)

(** A reader is at a byte boundary exactly when whole bytes are left. *)
Lemma rest_bits_mod r : wf r -> (length (rest_bits r) mod 8 = count r)%nat.
Proof.
  intros (Hc & _). unfold rest_bits. rewrite length_app, bits_of_length, bytes_bits_length.
  rewrite Nat.mul_comm, Nat.Div0.mod_add. by apply Nat.mod_small.
Qed.

(** Aligning drops the padding in front of whole bytes. *)
Lemma align_spec r pad rest :
  wf r -> rest_bits r = pad ++ rest -> (length pad < 8)%nat -> (length rest mod 8 = 0)%nat ->
  wf (align_to_byte r) /\ rest_bits (align_to_byte r) = rest /\ count (align_to_byte r) = 0%nat /\
  data (align_to_byte r) = data r.
Proof.
  intros Hw Hr Hp Hm. pose proof (rest_bits_mod r Hw) as Hc. destruct Hw as (Hc8 & Hb & Hd & Hp0).
  assert (Hpad : length pad = count r).
  { rewrite Hr, length_app, <- Nat.Div0.add_mod_idemp_r, Hm, Nat.add_0_r, Nat.mod_small in Hc by done.
    done. }
  unfold rest_bits in Hr. apply app_inj_1 in Hr as [_ Hr]; [|by rewrite bits_of_length].
  split; [repeat split; (done || (cbn; lia))|done].
Qed.

Lemma bytes_bits_prefix bs : forall l rest,
  bytes l -> bytes bs -> bytes_bits l = bytes_bits bs ++ rest ->
  exists l', l = bs ++ l' /\ bytes_bits l' = rest.
Proof.
  induction bs as [|b bs IH]; intros l rest Hl Hb H; [by exists l|].
  unfold bytes_bits in H. destruct l as [|c l]; cbn [map concat] in H.
  { apply (f_equal length) in H. rewrite !length_app, bits_of_length in H. cbn in H. lia. }
  rewrite <- app_assoc in H. apply app_inj_1 in H as [Hc H]; [|by rewrite !bits_of_length].
  apply bytes_cons in Hl as [Hcr Hl]. apply bytes_cons in Hb as [Hbr Hb].
  apply bits_of_inj in Hc as <-; [|done|done].
  destruct (IH l rest Hl Hb H) as (l' & -> & Hr). by exists l'.
Qed.

Lemma take_bytes_spec r bs rest :
  wf r -> count r = 0%nat -> bytes bs -> rest_bits r = bytes_bits bs ++ rest ->
  exists r', take_bytes (length bs) r = Ok (bs, r') /\ wf r' /\ rest_bits r' = rest /\ data r' = data r.
Proof.
  intros (Hc8 & Hb & Hd & Hp) Hc Hbs Hr. unfold rest_bits in Hr. rewrite Hc in Hr. cbn [bits_of seq map app] in Hr.
  destruct (bytes_bits_prefix bs (drop (pos r) (data r)) rest (bytes_drop _ _ Hd) Hbs Hr)
    as (l' & Hl & Hrest).
  assert (Hlen : (pos r + length bs <= length (data r))%nat).
  { apply (f_equal length) in Hl. rewrite length_drop, length_app in Hl. lia. }
  unfold take_bytes. rewrite (proj2 (Nat.leb_le _ _)) by done.
  rewrite Hl, take_app_le, take_ge by lia. eexists. split; [done|].
  split; [done|]. split; [|done]. unfold rest_bits. cbn [count bits pos data].
  rewrite Hc. cbn [bits_of seq map app]. rewrite <- drop_drop, Hl.
  by rewrite drop_app_ge, Nat.sub_diag, drop_0 by lia.
Qed.

(** ** The view of a writer *)

Definition writer_wf (w : BitWriter) : Prop :=
  (wcount w < 8)%nat /\ 0 <= wbits w < 2 ^ Z.of_nat (wcount w) /\ bytes (out w).

Definition written (w : BitWriter) : list bool :=
  bytes_bits (out w) ++ bits_of (wcount w) (wbits w).

Lemma bits_of_u8 v : bits_of 8 (u8 v) = bits_of 8 v.
Proof.
  apply bits_of_ext. intros i Hi. unfold wrap. by rewrite Z.mod_pow2_bits_low by lia.
Qed.

Lemma flush_spec fuel w :
  (wcount w < 8 + 8 * fuel)%nat -> 0 <= wbits w < 2 ^ Z.of_nat (wcount w) -> bytes (out w) ->
  writer_wf (flush fuel w) /\ written (flush fuel w) = written w.
Proof.
  revert w. induction fuel as [|fuel IH]; intros w Hc Hb Ho;
    [by split; [split; [cbn [flush]; lia|]|]|].
  cbn [flush]. destruct (Nat.leb_spec 8 (wcount w)) as [H8|]; [|done].
  destruct (IH {| out := out w ++ [u8 (wbits w)]; wbits := Z.shiftr (wbits w) 8;
                  wcount := wcount w - 8 |}) as [H1 H2]; cbn [wcount wbits out].
  - lia.
  - by apply (shiftr_range 8).
  - solve_bytes.
  - split; [done|]. rewrite H2. unfold written. cbn [wcount wbits out].
    rewrite bytes_bits_app, bytes_bits_one, bits_of_u8, <- app_assoc. f_equal.
    replace (wcount w) with (8 + (wcount w - 8))%nat at 2 by lia. by rewrite bits_of_split.
Qed.

(** Writing appends the bits of the value. *)
Lemma write_spec v n w :
  writer_wf w -> 0 <= v < 2 ^ Z.of_nat n ->
  writer_wf (write v n w) /\ written (write v n w) = written w ++ bits_of n v.
Proof.
  intros (Hc & Hb & Ho) Hv. unfold write.
  destruct (flush_spec (S (wcount w + n)) {| out := out w;
    wbits := Z.lor (wbits w) (Z.shiftl v (Z.of_nat (wcount w))); wcount := wcount w + n |})
    as [H1 H2]; cbn [wcount wbits out]; [lia|by apply lor_shift_range|done|].
  split; [done|]. rewrite H2. unfold written. cbn [wcount wbits out].
  by rewrite bits_of_lor, app_assoc by done.
Qed.

(** Aligning pads with zeros to the next byte. *)
Lemma align_writer_spec w :
  writer_wf w ->
  exists pad, writer_wf (align_writer w) /\ written (align_writer w) = written w ++ pad /\
    (length pad < 8)%nat /\ wcount (align_writer w) = 0%nat.
Proof.
  intros (Hc & Hb & Ho). unfold align_writer. destruct (Nat.ltb_spec 0 (wcount w)) as [H0|H0].
  - exists (bits_of (8 - wcount w) 0). split; [|split; [|split]]; [|..|done].
    + split; [cbn; lia|]. split; [cbn; lia|]. cbn [out]. solve_bytes.
    + unfold written. cbn [out wcount wbits bits_of seq map].
      rewrite app_nil_r, bytes_bits_app, bytes_bits_one, bits_of_u8, <- app_assoc. f_equal.
      replace 8%nat with (wcount w + (8 - wcount w))%nat at 1 by lia.
      rewrite bits_of_split, Z.shiftr_div_pow2, Z.div_small by lia. done.
    + rewrite bits_of_length. lia.
  - exists []. rewrite app_nil_r. split; [done|]. split; [done|]. split; [cbn; lia|lia].
Qed.

Lemma write_bytes_spec bs w :
  writer_wf w -> wcount w = 0%nat -> bytes bs ->
  writer_wf (write_bytes bs w) /\ written (write_bytes bs w) = written w ++ bytes_bits bs /\
  wcount (write_bytes bs w) = 0%nat.
Proof.
  intros (Hc & Hb & Ho) H0 Hbs. split; [|split; [|done]].
  - repeat split; cbn; [lia..|]. solve_bytes.
  - unfold written. cbn [write_bytes out wcount wbits]. rewrite H0.
    cbn [bits_of seq map]. by rewrite !app_nil_r, bytes_bits_app.
Qed.

Lemma written_mod w : writer_wf w -> (length (written w) mod 8 = wcount w)%nat.
Proof.
  intros (Hc & _). unfold written. rewrite length_app, bits_of_length, bytes_bits_length.
  rewrite Nat.add_comm, Nat.mul_comm, Nat.Div0.mod_add. by apply Nat.mod_small.
Qed.

(** A finished stream is what was written and less than a byte of padding. *)
Lemma finish_spec w :
  writer_wf w ->
  exists pad, bytes (finish w) /\ bytes_bits (finish w) = written w ++ pad /\ (length pad < 8)%nat.
Proof.
  intros Hw. destruct (align_writer_spec w Hw) as (pad & (Hc & Hb & Ho) & Hs & Hp & H0).
  exists pad. split; [done|]. split; [|done]. rewrite <- Hs. unfold written, finish.
  rewrite H0. cbn [bits_of seq map]. by rewrite app_nil_r.
Qed.

(** ** What an operation emits *)

(** Whatever was written before, [f] appends exactly these bits. *)
Definition emits (f : BitWriter -> BitWriter) (bs : list bool) : Prop :=
  forall w, writer_wf w -> writer_wf (f w) /\ written (f w) = written w ++ bs.

Lemma emits_id : emits (fun w => w) [].
Proof. intros w Hw. by rewrite app_nil_r. Qed.

Lemma emits_write v n : 0 <= v < 2 ^ Z.of_nat n -> emits (write v n) (bits_of n v).
Proof. intros Hv w Hw. by apply write_spec. Qed.

Lemma emits_comp f g a b : emits f a -> emits g b -> emits (fun w => g (f w)) (a ++ b).
Proof.
  intros Hf Hg w Hw. destruct (Hf w Hw) as [H1 H2]. destruct (Hg _ H1) as [H3 H4].
  split; [done|]. by rewrite H4, H2, app_assoc.
Qed.

Lemma emits_fold {A} (f : BitWriter -> A -> BitWriter) (bits : A -> list bool) l :
  (forall x, In x l -> emits (fun w => f w x) (bits x)) ->
  emits (fun w => fold_left f l w) (concat (map bits l)).
Proof.
  induction l as [|x l IH]; intros H; [apply emits_id|]. cbn [fold_left map concat].
  apply (emits_comp (fun w => f w x) (fun w => fold_left f l w)); [apply H; by left|].
  apply IH. intros y Hy. apply H. by right.
Qed.

Lemma rest_bits_length r :
  wf r -> length (rest_bits r) = (count r + 8 * (length (data r) - pos r))%nat.
Proof.
  intros _. unfold rest_bits. by rewrite length_app, bits_of_length, bytes_bits_length, length_drop.
Qed.

End Bits.
