(* ===== verification/Huffman.v ===== *)
(** * Canonical Huffman codes ([rustlavel-http/src/compression/deflate.rs])

    Building the decoder of a set of code lengths, assigning codes to the same
    lengths for writing, and choosing lengths for a set of frequencies. The
    theorems: a decoder reads back exactly the symbol whose code was written,
    and the chosen lengths always make a decoder. Code lengths, symbols and
    their counts, all at most a few hundred, are [nat]. *)

From Stdlib Require Import Sorted.
From S2P Require Import Prelude Bits.

Module Huffman.
Import Bits.

Definition MAX_BITS : nat := 15.
Definition MAX_CODE_LENGTH_BITS : nat := 7.

(** [l[i]], for an index known to be in range. *)
Definition at_ (l : list nat) (i : nat) : nat := default 0%nat (l !! i).
Definition atz (l : list Z) (i : nat) : Z := default 0 (l !! i).

(** ** Decoding *)

Record Decoder := { counts : list nat; symbols : list nat }.

(** [count[usize::from(len)] += 1] for every length. *)
Definition tally (lengths : list nat) : list nat :=
  fold_left (fun count len => alter S len count) lengths (repeat 0%nat (MAX_BITS + 1)).

(** Kraft's inequality: each length halves what is left to hand out. *)
Fixpoint kraft (left : Z) (cs : list nat) : result InflateError Z :=
  match cs with
  | [] => Ok left
  | c :: cs =>
      let left := Z.shiftl left 1 - Z.of_nat c in
      if left <? 0 then Err InvalidCode else kraft left cs
  end.

(** Where each length's run of symbols starts in the sorted table. *)
Fixpoint running (acc : nat) (cs : list nat) : list nat :=
  match cs with
  | [] => [acc]
  | c :: cs => acc :: running (acc + c) cs
  end.
Definition offsets (count : list nat) : list nat := 0%nat :: running 0 (drop 1 count).

Fixpoint place (sym : nat) (lengths offs symbol : list nat) : list nat :=
  match lengths with
  | [] => symbol
  | len :: lengths =>
      if (len =? 0)%nat then place (S sym) lengths offs symbol
      else
        let slot := at_ offs len in
        place (S sym) lengths (<[len := S slot]> offs) (<[slot := sym]> symbol)
  end.

Definition decoder (lengths : list nat) : result InflateError Decoder :=
  let count := tally lengths in
  let used := (length lengths - at_ count 0)%nat in
  let? spare := kraft 1 (drop 1 count) in
  if (0 <? spare) && (1 <? used)%nat then Err InvalidCode
  else Ok {| counts := count; symbols := place 0 lengths (offsets count) (repeat 0%nat used) |}.

Fixpoint decode_loop (symbols cs : list nat) (code first index : Z) (r : BitReader)
    : result InflateError (nat * BitReader) :=
  match cs with
  | [] => Err InvalidCode
  | c :: cs =>
      let? (bit, r) := read_bit r in
      let code := Z.lor code bit in
      if code - first <? Z.of_nat c then
        match symbols !! Z.to_nat (index + code - first) with
        | Some symbol => Ok (symbol, r)
        | None => Err Stuck
        end
      else
        decode_loop symbols cs (Z.shiftl code 1) (Z.shiftl (first + Z.of_nat c) 1)
          (index + Z.of_nat c) r
  end.

Definition decode (d : Decoder) (r : BitReader) : result InflateError (nat * BitReader) :=
  decode_loop (symbols d) (drop 1 (counts d)) 0 0 0 r.

(** ** Assigning codes *)

Record Code := { code_bits : Z; code_len : nat }.

Definition default_code : Code := {| code_bits := 0; code_len := 0 |}.

(** [u16::reverse_bits]. *)
Fixpoint reverse_loop (n : nat) (v acc : Z) : Z :=
  match n with
  | O => acc
  | S n => reverse_loop n (Z.shiftr v 1) (2 * acc + Z.land v 1)
  end.
Definition reverse_bits (v : Z) : Z := reverse_loop 16 v 0.

(** The first code of each length, from the counts of the shorter ones. *)
Fixpoint starts (code : Z) (cs : list nat) : list Z :=
  match cs with
  | [] => []
  | c :: cs =>
      let code := u16 (Z.shiftl (u16 (code + Z.of_nat c)) 1) in
      code :: starts code cs
  end.

Fixpoint assign (lengths : list nat) (next_code : list Z) : list Code :=
  match lengths with
  | [] => []
  | len :: lengths =>
      if (len =? 0)%nat then default_code :: assign lengths next_code
      else
        let code := atz next_code len in
        {| code_bits := Z.shiftr (reverse_bits code) (16 - Z.of_nat len); code_len := len |} ::
        assign lengths (<[len := u16 (code + 1)]> next_code)
  end.

Definition assign_codes (lengths : list nat) : list Code :=
  let count := <[0%nat := 0%nat]> (tally lengths) in
  assign lengths (0 :: starts 0 (take MAX_BITS count)).

(** [BitWriter::write_code]. *)
Definition write_code (c : Code) (w : BitWriter) : BitWriter := write (code_bits c) (code_len c) w.

(** ** Choosing lengths *)

(** A min-heap of [(weight, node)]: the least pair comes out first. *)
Definition heap_le (x y : Z * nat) : bool :=
  (x.1 <? y.1) || ((x.1 =? y.1) && (x.2 <=? y.2)%nat).

Fixpoint push (x : Z * nat) (heap : list (Z * nat)) : list (Z * nat) :=
  match heap with
  | [] => [x]
  | y :: heap => if heap_le x y then x :: y :: heap else y :: push x heap
  end.

(** The merging loop over the heap, the parents so far and the next free
    node. Every round takes one entry off the heap. *)
Fixpoint merge_loop (fuel : nat) (heap : list (Z * nat)) (parent : gmap nat nat) (next : nat)
    : gmap nat nat :=
  match fuel, heap with
  | S fuel, (w1, a) :: (w2, b) :: heap =>
      merge_loop fuel (push (w1 + w2, next) heap) (<[b := next]> (<[a := next]> parent)) (S next)
  | _, _ => parent
  end.

(** How many parents up the root is; no node is its own ancestor, so the
    number of nodes bounds the walk. *)
Fixpoint depth (fuel : nat) (parent : gmap nat nat) (node : nat) : nat :=
  match fuel with
  | O => O
  | S fuel => match parent !! node with Some p => S (depth fuel parent p) | None => O end
  end.

(** [w.div_ceil(2)] for every positive weight. *)
Definition halve (w : Z) : Z := if 0 <? w then (w + 1) / 2 else w.

Definition depths (n : nat) (used : list nat) (weights : list Z) : list nat :=
  let parent := merge_loop (length used)
    (fold_left (fun heap i => push (atz weights i, i) heap) used []) ∅ n in
  map (depth (n + n) parent) used.

(** Writing a length for every used symbol. *)
Definition set_lengths (used ds lengths : list nat) : list nat :=
  fold_left (fun ls x => <[x.1 := x.2]> ls) (zip used ds) lengths.

Fixpoint lengths_loop (fuel : nat) (max_bits n : nat) (used : list nat) (weights : list Z)
    (lengths : list nat) : list nat :=
  match fuel with
  | O => lengths
  | S fuel =>
      let ds := depths n used weights in
      let lengths := set_lengths used ds lengths in
      if existsb (fun d => (max_bits <? d)%nat) ds then
        lengths_loop fuel max_bits n used (map halve weights) lengths
      else lengths
  end.

(** Halving a 32-bit weight until it is one takes at most 32 rounds. *)
Definition build_lengths (freqs : list Z) (max_bits : nat) : list nat :=
  let n := length freqs in
  let lengths := repeat 0%nat n in
  let used := List.filter (fun i => 0 <? atz freqs i) (seq 0 n) in
  match used with
  | [] => lengths
  | [i] => <[i := 1%nat]> lengths
  | _ => lengths_loop 34 max_bits n used freqs lengths
  end.

Example build_lengths_runs :
  build_lengths [5; 0; 1; 1; 9] 15 = [2; 0; 3; 3; 1]%nat /\
  build_lengths [1; 1; 2; 3; 5; 8; 13; 21; 34; 55] 4 = [4; 4; 4; 4; 4; 4; 3; 3; 3; 2]%nat.
Proof. split; vm_compute; reflexivity. Qed.

(** ** Counting lengths *)

Fixpoint cnt (l : nat) (lengths : list nat) : nat :=
  match lengths with
  | [] => 0
  | x :: lengths => (if (x =? l)%nat then 1 else 0) + cnt l lengths
  end.

Lemma cnt_app l a b : cnt l (a ++ b) = (cnt l a + cnt l b)%nat.
Proof. induction a as [|x a IH]; [done|]. cbn [app cnt]. lia. Qed.

Lemma cnt_take_S l lengths s x :
  lengths !! s = Some x -> cnt l (take (S s) lengths) = (cnt l (take s lengths) + if (x =? l)%nat then 1 else 0)%nat.
Proof. intros H. rewrite (take_S_r _ _ _ H), cnt_app. cbn [cnt]. lia. Qed.

Lemma cnt_take_le l lengths s : (cnt l (take s lengths) <= cnt l lengths)%nat.
Proof. rewrite <- (take_drop s lengths) at 2. rewrite cnt_app. lia. Qed.

Lemma cnt_take_lt l lengths s :
  lengths !! s = Some l -> (cnt l (take s lengths) < cnt l lengths)%nat.
Proof.
  intros H. pose proof (cnt_take_S l lengths s l H) as Hs. rewrite Nat.eqb_refl in Hs.
  pose proof (cnt_take_le l lengths (S s)). lia.
Qed.

Definition short (lengths : list nat) : Prop := Forall (fun l => (l <= MAX_BITS)%nat) lengths.

Lemma tally_from lengths count :
  length count = S MAX_BITS -> short lengths ->
  let t := fold_left (fun count len => alter S len count) lengths count in
  length t = S MAX_BITS /\ forall l, (l <= MAX_BITS)%nat -> at_ t l = (at_ count l + cnt l lengths)%nat.
Proof.
  revert count. induction lengths as [|x lengths IH]; intros count Hc Hs; cbn [fold_left].
  { split; [done|]. intros l Hl. cbn [cnt]. lia. }
  unfold short in Hs. rewrite Forall_cons_iff in Hs. destruct Hs as [Hx Hs].
  destruct (IH (alter S x count)) as [H1 H2]; [by rewrite length_alter|done|].
  split; [done|]. intros l Hl. rewrite H2 by done. cbn [cnt]. unfold at_.
  destruct (Nat.eqb_spec x l) as [->|Hne].
  - rewrite list_lookup_alter_eq. destruct (lookup_lt_is_Some_2 count l) as [v ->]; [lia|].
    cbn. lia.
  - by rewrite list_lookup_alter_ne.
Qed.

Lemma tally_length lengths : short lengths -> length (tally lengths) = S MAX_BITS.
Proof. intros H. by apply (tally_from lengths (repeat 0%nat 16)). Qed.

Lemma tally_at lengths l : short lengths -> (l <= MAX_BITS)%nat -> at_ (tally lengths) l = cnt l lengths.
Proof.
  intros H Hl. destruct (tally_from lengths (repeat 0%nat 16) eq_refl H) as [_ Ht].
  unfold tally. rewrite Ht by done. unfold at_.
  destruct (repeat 0%nat 16 !! l) eqn:E; [|done].
  apply list_elem_of_lookup_2, list_elem_of_In, repeat_spec in E. by subst.
Qed.

(** The counts of the lengths that are codes. *)
Definition code_counts (lengths : list nat) : list nat := map (fun l => cnt l lengths) (seq 1 MAX_BITS).

Lemma drop_tally lengths : short lengths -> drop 1 (tally lengths) = code_counts lengths.
Proof.
  intros H. apply list_eq. intros i. unfold code_counts.
  rewrite lookup_drop, list_lookup_fmap.
  destruct (decide (i < MAX_BITS)%nat) as [Hi|Hi].
  - rewrite lookup_seq_lt by done. cbn [fmap option_fmap option_map].
    destruct (lookup_lt_is_Some_2 (tally lengths) (1 + i)) as [v Hv]; [rewrite tally_length by done; lia|].
    rewrite Hv. pose proof (tally_at lengths (1 + i) H ltac:(lia)) as Ht. unfold at_ in Ht.
    rewrite Hv in Ht. cbn in Ht. by subst.
  - rewrite (lookup_ge_None_2 (tally lengths)) by (rewrite tally_length by done; lia).
    rewrite (lookup_ge_None_2 (seq 1 MAX_BITS)) by (rewrite length_seq; lia). done.
Qed.

Lemma code_counts_at lengths l :
  (l < MAX_BITS)%nat -> code_counts lengths !! l = Some (cnt (S l) lengths).
Proof. intros Hl. unfold code_counts. by rewrite list_lookup_fmap, lookup_seq_lt. Qed.

(** ** The first code and the first slot of each length *)

Fixpoint first_code (first : Z) (cs : list nat) (m : nat) {struct m} : Z :=
  match m, cs with
  | S m, c :: cs => first_code (2 * (first + Z.of_nat c)) cs m
  | _, _ => first
  end.

Fixpoint first_slot (cs : list nat) (m : nat) {struct m} : nat :=
  match m, cs with
  | S m, c :: cs => c + first_slot cs m
  | _, _ => 0
  end.

(** Codes grow at least by doubling. *)
Lemma first_code_ge first cs m :
  0 <= first -> (m <= length cs)%nat -> first * 2 ^ Z.of_nat m <= first_code first cs m.
Proof.
  revert first cs. induction m as [|m IH]; intros first cs Hf Hm; [cbn [first_code]; change (2 ^ Z.of_nat 0) with 1; lia|].
  destruct cs as [|c cs]; [cbn in Hm; lia|]. cbn [first_code].
  specialize (IH (2 * (first + Z.of_nat c)) cs ltac:(lia) ltac:(cbn in Hm; lia)).
  rewrite Nat2Z.inj_succ, Z.pow_succ_r by lia. nia.
Qed.

(** Under Kraft's inequality the codes of a length fit in it. *)
Lemma kraft_fits cs : forall spare first k rest m c,
  kraft spare cs = Ok rest -> 2 * spare = 2 ^ Z.of_nat (S k) - first -> 0 <= first ->
  cs !! m = Some c ->
  0 <= first_code first cs m /\ first_code first cs m + Z.of_nat c <= 2 ^ Z.of_nat (S (k + m)).
Proof.
  induction cs as [|x cs IH]; intros spare first k rest m c Hk Hs Hf Hm; [done|].
  cbn [kraft] in Hk. rewrite Z.shiftl_mul_pow2 in Hk by lia.
  destruct (Z.ltb_spec (spare * 2 ^ 1 - Z.of_nat x) 0) as [|Hpos]; [done|].
  destruct m as [|m]; cbn [first_code].
  - injection Hm as ->. rewrite Nat.add_0_r. lia.
  - replace (k + S m)%nat with (S k + m)%nat by lia.
    apply (IH (spare * 2 ^ 1 - Z.of_nat x) (2 * (first + Z.of_nat x)) (S k) rest); try done; [|lia].
    rewrite (Nat2Z.inj_succ (S k)), Z.pow_succ_r by lia. lia.
Qed.

(** ** A decoder reads the codes of its lengths *)

(** The bits of a code, most significant first. *)
Definition msb (n : nat) (v : Z) : list bool := rev (bits_of n v).

Lemma msb_S n v : msb (S n) v = Z.testbit v (Z.of_nat n) :: msb n v.
Proof.
  unfold msb, bits_of. rewrite seq_S, map_app, rev_app_distr. done.
Qed.

Lemma testbit_split n low :
  0 <= low < 2 ^ Z.of_nat (S n) ->
  let b := Z.b2z (Z.testbit low (Z.of_nat n)) in
  let low' := low mod 2 ^ Z.of_nat n in
  low = b * 2 ^ Z.of_nat n + low' /\ 0 <= b <= 1 /\ 0 <= low' < 2 ^ Z.of_nat n /\
  msb n low' = msb n low.
Proof.
  intros Hl b low'. rewrite Nat2Z.inj_succ in Hl. pose proof (Z.mod_pos_bound low (2 ^ Z.of_nat n)).
  assert (Hb : b = low / 2 ^ Z.of_nat n).
  { subst b. rewrite Z.testbit_spec' by lia. apply Z.mod_small.
    split; [apply Z.div_pos; lia|]. apply Z.div_lt_upper_bound; [lia|].
    rewrite Z.pow_succ_r in Hl by lia. lia. }
  split; [rewrite Hb, Z.mul_comm; apply Z.div_mod; lia|].
  split; [subst b; destruct (Z.testbit _ _); cbn; lia|]. split; [apply H; lia|].
  unfold msb. f_equal. apply bits_of_ext. intros i Hi. subst low'.
  by rewrite Z.mod_pow2_bits_low by lia.
Qed.

Lemma lor_bit v b : Z.lor (2 * v) (Z.b2z b) = 2 * v + Z.b2z b.
Proof. apply (lor_add_low v (Z.b2z b) 1); [lia|]. destruct b; cbn; lia. Qed.

Lemma decode_loop_reads m : forall cs syms first index prefix low c s,
  0 <= first -> 0 <= prefix -> 0 <= low < 2 ^ Z.of_nat (S m) -> cs !! m = Some c ->
  let code := prefix * 2 ^ Z.of_nat (S m) + low in
  first_code first cs m <= code < first_code first cs m + Z.of_nat c ->
  syms !! Z.to_nat (index + Z.of_nat (first_slot cs m) + (code - first_code first cs m)) = Some s ->
  reads (decode_loop syms cs (2 * prefix) first index) (msb (S m) low) s.
Proof.
  induction m as [|m IH]; intros cs syms first index prefix low c s Hf Hp Hl Hc code Hcode Hs.
  all: destruct cs as [|x cs]; [done|].
  all: destruct (testbit_split _ _ Hl) as (Elow & Hb & Hlow' & Em).
  all: set (b := Z.testbit low _) in *; set (low' := low mod _) in *.
  all: rewrite msb_S; fold b.
  - change (msb 0 low) with (@nil bool). rewrite <- (app_nil_r [b]).
    apply reads_bind with (Z.b2z b); [apply reads_bit|]. cbn beta. injection Hc as ->.
    rewrite lor_bit.
    cbn [first_code first_slot] in *. change (2 ^ Z.of_nat 0) with 1 in *.
    assert (low' = 0) by lia. assert (Ec : 2 * prefix + Z.b2z b = code).
    { subst code. change (2 ^ Z.of_nat 1) with 2. lia. }
    rewrite Ec, (proj2 (Z.ltb_lt _ _)) by lia. intros r rest Hw Hr.
    replace (index + code - first) with (index + Z.of_nat 0 + (code - first)) by lia. rewrite Hs.
    by exists r.
  - rewrite <- Em. change (b :: msb (S m) low') with ([b] ++ msb (S m) low').
    apply reads_bind with (Z.b2z b); [apply reads_bit|]. cbn beta.
    rewrite lor_bit.
    cbn [first_code first_slot] in *. change ((x :: cs) !! S m) with (cs !! m) in Hc.
    assert (Hlen : (m <= length cs)%nat) by (apply lookup_lt_Some in Hc; lia).
    assert (Ec : code = (2 * prefix + Z.b2z b) * 2 ^ Z.of_nat (S m) + low').
    { subst code. rewrite (Nat2Z.inj_succ (S m)), Z.pow_succ_r by lia. lia. }
    pose proof (first_code_ge (2 * (first + Z.of_nat x)) cs m ltac:(lia) Hlen) as Hge.
    assert (Hge' : first + Z.of_nat x <= 2 * prefix + Z.b2z b).
    { rewrite Nat2Z.inj_succ, Z.pow_succ_r in * by lia. nia. }
    rewrite (proj2 (Z.ltb_ge _ _)) by lia.
    rewrite !Z.shiftl_mul_pow2, !(Z.mul_comm _ (2 ^ 1)) by lia. change (2 ^ 1) with 2.
    apply (IH cs syms (2 * (first + Z.of_nat x)) (index + Z.of_nat x) (2 * prefix + Z.b2z b) low' c s);
      try done; try lia; rewrite <- Ec.
    rewrite <- Hs. f_equal. lia.
Qed.

(** ** Reversed codes *)

Lemma land_1 v : Z.land v 1 = Z.b2z (Z.testbit v 0).
Proof. change 1 with (2 ^ 1 - 1). rewrite land_ones_mod by lia. by rewrite Z.bit0_mod. Qed.

Lemma reverse_loop_bits n : forall v acc i, 0 <= i ->
  Z.testbit (reverse_loop n v acc) i =
    if decide (i < Z.of_nat n) then Z.testbit v (Z.of_nat n - 1 - i)
    else Z.testbit acc (i - Z.of_nat n).
Proof.
  induction n as [|n IH]; intros v acc i Hi; cbn [reverse_loop].
  { rewrite decide_False by lia. f_equal. lia. }
  rewrite IH, land_1 by done. destruct (decide (i < Z.of_nat n)).
  - rewrite decide_True, Z.shiftr_spec by lia. f_equal. lia.
  - destruct (decide (i = Z.of_nat n)) as [->|].
    + rewrite decide_True, Z.sub_diag, Z.testbit_0_r by lia. f_equal. lia.
    + rewrite decide_False by lia.
      replace (i - Z.of_nat n) with (Z.succ (i - Z.of_nat (S n))) by lia.
      by rewrite Z.testbit_succ_r by lia.
Qed.

Lemma reverse_loop_range n : forall v acc, 0 <= acc ->
  0 <= reverse_loop n v acc < 2 ^ Z.of_nat n * (acc + 1).
Proof.
  induction n as [|n IH]; intros v acc Ha; cbn [reverse_loop]; [change (2 ^ Z.of_nat 0) with 1; lia|].
  rewrite land_1. assert (0 <= Z.b2z (Z.testbit v 0) <= 1) by (destruct (Z.testbit v 0); cbn; lia).
  specialize (IH (Z.shiftr v 1) (2 * acc + Z.b2z (Z.testbit v 0)) ltac:(lia)).
  rewrite Nat2Z.inj_succ, Z.pow_succ_r by lia. nia.
Qed.

(** Written least significant bit first, a reversed code goes out most
    significant bit first. *)
Lemma reversed_bits n v :
  (n <= 16)%nat -> bits_of n (Z.shiftr (reverse_bits v) (16 - Z.of_nat n)) = msb n v.
Proof.
  intros Hn. apply list_eq. intros i. unfold msb. rewrite rev_alt.
  change (rev_append (bits_of n v) []) with (reverse (bits_of n v)).
  destruct (decide (i < n)%nat) as [Hi|Hi].
  - rewrite bits_of_lookup by done. rewrite reverse_lookup by (rewrite bits_of_length; lia).
    rewrite bits_of_length, bits_of_lookup by lia. f_equal.
    unfold reverse_bits. rewrite Z.shiftr_spec, reverse_loop_bits, decide_True by lia. f_equal. lia.
  - rewrite !lookup_ge_None_2; [done| |]; rewrite ?length_reverse, bits_of_length; lia.
Qed.

Lemma reversed_range n v :
  (n <= 16)%nat -> 0 <= Z.shiftr (reverse_bits v) (16 - Z.of_nat n) < 2 ^ Z.of_nat n.
Proof.
  intros Hn. pose proof (reverse_loop_range 16 v 0 ltac:(lia)) as H.
  replace (16 - Z.of_nat n) with (Z.of_nat (16 - n)) by lia.
  replace n with (16 - (16 - n))%nat at 3 by lia. apply shiftr_range; [|lia].
  unfold reverse_bits. change (Z.of_nat 16) with 16 in *. lia.
Qed.

(** ** The slots of the symbols *)

(** The runs that [offs] starts, with the symbols still to come, do not overlap
    and fit in [n] slots. *)
Definition runs_ok (offs lengths : list nat) (n : nat) : Prop :=
  forall l, (0 < l <= MAX_BITS)%nat ->
    (at_ offs l + cnt l lengths <= n)%nat /\
    forall l', (l < l' <= MAX_BITS)%nat -> (at_ offs l + cnt l lengths <= at_ offs l')%nat.

Definition in_run (offs lengths : list nat) (p : nat) : Prop :=
  exists l, (0 < l <= MAX_BITS)%nat /\ (at_ offs l <= p < at_ offs l + cnt l lengths)%nat.

Lemma at_insert l i j v :
  (i < length l)%nat -> at_ (<[i := v]> l) j = if (i =? j)%nat then v else at_ l j.
Proof.
  intros Hi. unfold at_. destruct (Nat.eqb_spec i j) as [->|].
  - by rewrite list_lookup_insert_eq.
  - by rewrite list_lookup_insert_ne.
Qed.

Lemma place_spec lengths : forall sym offs syms,
  short lengths -> (MAX_BITS < length offs)%nat -> runs_ok offs lengths (length syms) ->
  length (place sym lengths offs syms) = length syms /\
  (forall p, ~ in_run offs lengths p -> place sym lengths offs syms !! p = syms !! p) /\
  (forall i l, lengths !! i = Some l -> (0 < l)%nat ->
     place sym lengths offs syms !! (at_ offs l + cnt l (take i lengths))%nat = Some (sym + i)%nat).
Proof.
  induction lengths as [|x lengths IH]; intros sym offs syms Hs Ho Hr; [done|].
  unfold short in Hs. rewrite Forall_cons_iff in Hs. destruct Hs as [Hx Hs]. cbn [place].
  destruct (Nat.eqb_spec x 0) as [->|Hx0].
  - destruct (IH (S sym) offs syms) as (H1 & H2 & H3); [done|done| |].
    { intros l Hl. specialize (Hr l Hl). cbn [cnt] in Hr. destruct l; [lia|]. exact Hr. }
    split; [done|]. split.
    + intros p Hp. apply H2. intros (l & Hl & Hin). apply Hp. exists l. split; [done|].
      cbn [cnt]. destruct l; [lia|]. exact Hin.
    + intros i l Hi Hl. destruct i as [|i]; [injection Hi as <-; lia|].
      specialize (H3 i l Hi Hl). cbn [take cnt]. destruct l as [|l]; [lia|].
      change (0 =? S l)%nat with false. rewrite Nat.add_0_l, H3. f_equal. lia.
  - set (slot := at_ offs x). set (offs' := <[x := S slot]> offs).
    assert (Ho' : forall l, at_ offs' l = if (x =? l)%nat then S slot else at_ offs l)
      by (intros l; apply at_insert; lia).
    assert (Hslot : (slot < length syms)%nat).
    { destruct (Hr x ltac:(lia)) as [H _]. cbn [cnt] in H. rewrite Nat.eqb_refl in H. fold slot in H. lia. }
    destruct (IH (S sym) offs' (<[slot := sym]> syms)) as (H1 & H2 & H3).
    { done. }
    { unfold offs'. by rewrite length_insert. }
    { intros l Hl. rewrite length_insert. destruct (Hr l Hl) as [Ha Hb]. cbn [cnt] in Ha.
      rewrite !Ho'. split.
      - destruct (Nat.eqb_spec x l) as [->|]; fold slot in Ha; subst slot; lia.
      - intros l' Hl'. specialize (Hb l' Hl'). cbn [cnt] in Hb. rewrite Ho'.
        destruct (Nat.eqb_spec x l) as [Ex|], (Nat.eqb_spec x l') as [Ex'|];
          unfold slot; try rewrite Ex; try rewrite Ex'; lia. }
    split; [by rewrite H1, length_insert|].
    assert (Hout : ~ in_run offs' lengths slot).
    { intros (l & Hl & Hin). rewrite Ho' in Hin. destruct (Nat.eqb_spec x l) as [->|Hne]; [lia|].
      destruct (Hr l Hl) as [_ Hb]. destruct (Hr x ltac:(lia)) as [_ Hb'].
      destruct (decide (l < x)%nat) as [Hlt|].
      - specialize (Hb x ltac:(lia)). cbn [cnt] in Hb. fold slot in Hb. lia.
      - specialize (Hb' l ltac:(lia)). cbn [cnt] in Hb'. rewrite Nat.eqb_refl in Hb'. fold slot in Hb'. lia. }
    split.
    + intros p Hp. rewrite H2.
      * apply list_lookup_insert_ne. intros <-. apply Hp. exists x. cbn [cnt]. rewrite Nat.eqb_refl.
        fold slot. lia.
      * intros (l & Hl & Hin). apply Hp. exists l. split; [done|]. cbn [cnt]. rewrite Ho' in Hin.
        destruct (Nat.eqb_spec x l) as [->|]; [fold slot; lia|lia].
    + intros i l Hi Hl. destruct i as [|i].
      * injection Hi as <-. cbn [take cnt]. rewrite Nat.add_0_r. fold slot. rewrite H2 by done.
        rewrite list_lookup_insert_eq by done. f_equal. lia.
      * change ((x :: lengths) !! S i) with (lengths !! i) in Hi. specialize (H3 i l Hi Hl).
        rewrite Ho' in H3. cbn [take cnt]. destruct (Nat.eqb_spec x l) as [->|].
        -- fold slot. replace (slot + (1 + cnt l (take i lengths)))%nat
             with (S slot + cnt l (take i lengths))%nat by lia. rewrite H3. f_equal. lia.
        -- rewrite Nat.add_0_l, H3. f_equal. lia.
Qed.

Lemma running_at cs : forall acc m,
  (m <= length cs)%nat -> running acc cs !! m = Some (acc + first_slot cs m)%nat.
Proof.
  induction cs as [|c cs IH]; intros acc m Hm.
  - destruct m; [|cbn in Hm; lia]. cbn. by rewrite Nat.add_0_r.
  - destruct m as [|m]; cbn [running first_slot]; [by rewrite Nat.add_0_r|].
    change ((acc :: running (acc + c) cs) !! S m) with (running (acc + c) cs !! m).
    rewrite IH by (cbn in Hm; lia). f_equal. lia.
Qed.

Lemma first_slot_S cs m c : cs !! m = Some c -> first_slot cs (S m) = (first_slot cs m + c)%nat.
Proof.
  revert m. induction cs as [|x cs IH]; intros m Hm; [done|].
  destruct m as [|m]; cbn [first_slot]; [injection Hm as ->; destruct cs; cbn; lia|].
  change ((x :: cs) !! S m) with (cs !! m) in Hm. cbn [first_slot] in IH. rewrite (IH m Hm). lia.
Qed.

Lemma first_slot_mono cs m n : (m <= n)%nat -> (first_slot cs m <= first_slot cs n)%nat.
Proof.
  revert m n. induction cs as [|x cs IH]; intros [|m] [|n] H; cbn [first_slot]; try lia.
  specialize (IH m n ltac:(lia)). lia.
Qed.

Lemma code_counts_length lengths : length (code_counts lengths) = MAX_BITS.
Proof. done. Qed.

(** Every symbol is counted once. *)
Lemma first_slot_total lengths :
  short lengths -> (first_slot (code_counts lengths) MAX_BITS + cnt 0 lengths)%nat = length lengths.
Proof.
  induction lengths as [|x lengths IH]; intros Hs; [done|].
  unfold short in Hs. rewrite Forall_cons_iff in Hs. destruct Hs as [Hx Hs]. specialize (IH Hs).
  unfold code_counts, MAX_BITS in *. cbn [map seq first_slot cnt length] in *.
  do 16 (destruct x as [|x]; [cbn [Nat.eqb]; lia|]). lia.
Qed.

Lemma offsets_at lengths l :
  short lengths -> (0 < l <= MAX_BITS)%nat ->
  at_ (offsets (tally lengths)) l = first_slot (code_counts lengths) (pred l).
Proof.
  intros Hs Hl. unfold offsets, at_. rewrite drop_tally by done. destruct l as [|l]; [lia|].
  change ((0%nat :: running 0 (code_counts lengths)) !! S l) with (running 0 (code_counts lengths) !! l).
  rewrite running_at; [done|]. rewrite code_counts_length. lia.
Qed.

Lemma offsets_length lengths : short lengths -> length (offsets (tally lengths)) = 17%nat.
Proof.
  intros Hs. unfold offsets. by rewrite drop_tally by done.
Qed.

Lemma runs_ok_offsets lengths :
  short lengths -> runs_ok (offsets (tally lengths)) lengths (length lengths - cnt 0 lengths).
Proof.
  intros Hs l Hl. pose proof (first_slot_total lengths Hs) as Ht.
  assert (Hstep : (at_ (offsets (tally lengths)) l + cnt l lengths)%nat =
    first_slot (code_counts lengths) l).
  { rewrite offsets_at by done. destruct l as [|l]; [lia|]. cbn [pred].
    symmetry. apply first_slot_S, code_counts_at. lia. }
  rewrite Hstep. split.
  - pose proof (first_slot_mono (code_counts lengths) l MAX_BITS ltac:(lia)). lia.
  - intros l' Hl'. rewrite offsets_at by (done || lia). apply first_slot_mono. lia.
Qed.

(** The code of symbol [s]: the first of its length, plus its rank. *)
Definition code_of (lengths : list nat) (s : nat) : Z :=
  let l := at_ lengths s in
  first_code 0 (code_counts lengths) (pred l) + Z.of_nat (cnt l (take s lengths)).

Lemma at_lookup l i v : l !! i = Some v -> at_ l i = v.
Proof. unfold at_. by intros ->. Qed.

Lemma decoder_inv lengths d :
  short lengths -> decoder lengths = Ok d ->
  exists rest, kraft 1 (code_counts lengths) = Ok rest /\ counts d = tally lengths /\
    symbols d = place 0 lengths (offsets (tally lengths)) (repeat 0%nat (length lengths - cnt 0 lengths)).
Proof.
  intros Hs. unfold decoder. rewrite drop_tally, tally_at by (done || (unfold MAX_BITS; lia)).
  destruct (kraft 1 (code_counts lengths)) as [rest|e]; [|done].
  destruct (_ && _); [done|]. intros [= <-]. by exists rest.
Qed.

Lemma code_of_range lengths rest s l :
  kraft 1 (code_counts lengths) = Ok rest -> lengths !! s = Some l -> (0 < l <= MAX_BITS)%nat ->
  0 <= first_code 0 (code_counts lengths) (pred l) <= code_of lengths s /\
  code_of lengths s < first_code 0 (code_counts lengths) (pred l) + Z.of_nat (cnt l lengths) <= 2 ^ Z.of_nat l.
Proof.
  intros Hk Hl Hr. unfold code_of. rewrite (at_lookup _ _ _ Hl).
  pose proof (cnt_take_lt l lengths s Hl). destruct l as [|l]; [lia|]. cbn [pred].
  destruct (kraft_fits (code_counts lengths) 1 0 0 rest l (cnt (S l) lengths) Hk) as [H1 H2].
  { done. } { lia. } { apply code_counts_at. lia. }
  rewrite Nat.add_0_l in H2. lia.
Qed.

(** A decoder reads the code of each of its symbols. *)
Lemma decoder_reads lengths d s l :
  short lengths -> decoder lengths = Ok d -> lengths !! s = Some l -> (0 < l)%nat ->
  reads (decode d) (msb l (code_of lengths s)) s.
Proof.
  intros Hs Hd Hl Hpos. destruct (decoder_inv _ _ Hs Hd) as (rest & Hk & Hc & Hsym).
  assert (Hle : (l <= MAX_BITS)%nat) by (unfold short in Hs; rewrite Forall_lookup in Hs; eauto).
  destruct (code_of_range lengths rest s l Hk Hl ltac:(lia)) as [H1 H2].
  unfold decode. rewrite Hc, drop_tally, Hsym by done. destruct l as [|l]; [lia|]. cbn [pred] in *.
  apply (decode_loop_reads l (code_counts lengths) _ 0 0 0 _ (cnt (S l) lengths) s); try lia.
  - apply code_counts_at. lia.
  - rewrite !Z.add_0_l. destruct (place_spec lengths 0 (offsets (tally lengths))
      (repeat 0%nat (length lengths - cnt 0 lengths))) as (_ & _ & H3);
      [done|rewrite offsets_length by done; unfold MAX_BITS; lia|
       rewrite repeat_length; by apply runs_ok_offsets|].
    specialize (H3 s (S l) Hl Hpos). rewrite offsets_at in H3 by (done || lia). cbn [pred] in H3.
    rewrite Nat.add_0_l in H3. rewrite <- H3. f_equal. unfold code_of in *. rewrite (at_lookup _ _ _ Hl) in *. cbn [pred] in *. lia.
Qed.

(** ** The codes that are written *)

Lemma first_code_S first cs m c :
  cs !! m = Some c -> first_code first cs (S m) = 2 * (first_code first cs m + Z.of_nat c).
Proof.
  revert first m. induction cs as [|x cs IH]; intros first m Hm; [done|].
  destruct m as [|m]; [injection Hm as ->; by destruct cs|].
  change ((x :: cs) !! S m) with (cs !! m) in Hm. cbn [first_code]. by rewrite <- IH.
Qed.

Lemma starts_at cs : forall first m,
  (forall j c, (j <= m)%nat -> cs !! j = Some c ->
     0 <= first_code first cs j + Z.of_nat c < 2 ^ 15) ->
  (m < length cs)%nat -> starts first cs !! m = Some (first_code first cs (S m)).
Proof.
  induction cs as [|x cs IH]; intros first m Hb Hm; [cbn in Hm; lia|].
  pose proof (Hb 0%nat x ltac:(lia) eq_refl) as H0. cbn [first_code] in H0.
  cbn [starts]. rewrite (wrap_small 16 (first + Z.of_nat x)) by lia.
  rewrite Z.shiftl_mul_pow2, wrap_small by lia.
  replace ((first + Z.of_nat x) * 2 ^ 1) with (2 * (first + Z.of_nat x)) by lia.
  destruct m as [|m]; [by destruct cs|].
  change (?a :: ?l) with ([a] ++ l). rewrite lookup_app_r by (cbn; lia).
  cbn [length]. rewrite Nat.sub_1_r. cbn [pred first_code]. apply IH; [|cbn in Hm; lia].
  intros j c Hj Hc. apply (Hb (S j) c); [lia|done].
Qed.

Definition code_for (lengths : list nat) (s : nat) : Code :=
  let l := at_ lengths s in
  {| code_bits := Z.shiftr (reverse_bits (code_of lengths s)) (16 - Z.of_nat l); code_len := l |}.

Lemma atz_insert l i j v :
  (i < length l)%nat -> atz (<[i := v]> l) j = if (i =? j)%nat then v else atz l j.
Proof.
  intros Hi. unfold atz. destruct (Nat.eqb_spec i j) as [->|].
  - by rewrite list_lookup_insert_eq.
  - by rewrite list_lookup_insert_ne.
Qed.

Lemma assign_at lengths : forall next s l,
  short lengths -> (MAX_BITS < length next)%nat -> lengths !! s = Some l -> (0 < l)%nat ->
  0 <= atz next l -> atz next l + Z.of_nat (cnt l lengths) < 2 ^ 16 ->
  assign lengths next !! s =
    Some {| code_bits := Z.shiftr (reverse_bits (atz next l + Z.of_nat (cnt l (take s lengths))))
              (16 - Z.of_nat l); code_len := l |}.
Proof.
  induction lengths as [|x lengths IH]; intros next s l Hs Hn Hl Hpos H0 Hb; [done|].
  unfold short in Hs. rewrite Forall_cons_iff in Hs. destruct Hs as [Hx Hs]. cbn [assign].
  destruct s as [|s].
  - injection Hl as ->. rewrite (proj2 (Nat.eqb_neq l 0)) by lia. cbn [take cnt].
    by rewrite Z.add_0_r.
  - change ((x :: lengths) !! S s) with (lengths !! s) in Hl. cbn [cnt] in Hb. cbn [take cnt].
    destruct (Nat.eqb_spec x 0) as [->|Hx0].
    + destruct (Nat.eqb_spec 0 l); [lia|]. apply IH; (done || lia).
    + set (next' := <[x := _]> next).
      assert (Hat : atz next' l = if (x =? l)%nat then u16 (atz next x + 1) else atz next l)
        by (apply atz_insert; lia).
      destruct (Nat.eqb_spec x l) as [->|Hne].
      * rewrite wrap_small in Hat by lia.
        assert (H := IH next' s l Hs ltac:(unfold next'; rewrite length_insert; lia) Hl Hpos ltac:(lia) ltac:(lia)).
        rewrite Hat in H. etransitivity; [apply H|]. do 4 f_equal. lia.
      * assert (H := IH next' s l Hs ltac:(unfold next'; rewrite length_insert; lia) Hl Hpos ltac:(lia) ltac:(lia)).
        rewrite Hat in H. apply H.
Qed.

Lemma starts_length first cs : length (starts first cs) = length cs.
Proof. revert first. induction cs as [|c cs IH]; intros first; [done|]. cbn. by rewrite IH. Qed.

(** Writing assigns each symbol the code its decoder expects. *)
Lemma assign_codes_at lengths rest s l :
  short lengths -> kraft 1 (code_counts lengths) = Ok rest ->
  lengths !! s = Some l -> (0 < l)%nat -> assign_codes lengths !! s = Some (code_for lengths s).
Proof.
  intros Hs Hk Hl Hpos.
  assert (Hle : (l <= MAX_BITS)%nat) by (unfold short in Hs; rewrite Forall_lookup in Hs; eauto).
  set (cs := code_counts lengths).
  assert (Hcount : take MAX_BITS (<[0%nat := 0%nat]> (tally lengths)) = 0%nat :: take 14 cs).
  { subst cs. rewrite <- drop_tally by done. pose proof (tally_length lengths Hs) as Ht.
    destruct (tally lengths) as [|c0 t]; [done|]. cbn [insert list_insert drop]. by rewrite drop_0. }
  assert (Hnext : atz (0 :: starts 0 (0%nat :: take 14 cs)) l = first_code 0 cs (pred l)).
  { destruct l as [|[|l]]; [lia|done|]. cbn [pred]. unfold atz.
    change (default 0 (starts 0 (take 14 cs) !! l) = first_code 0 cs (S l)).
    assert (Hc : forall j, (j <= 14)%nat -> first_code 0 (take 14 cs) j = first_code 0 cs j).
    { clear. unfold cs. generalize 0, (code_counts lengths), 14%nat. intros f c n. revert f c.
      induction n as [|n IH]; intros f c j Hj; destruct j as [|j], c as [|x c]; try done; [lia|].
      cbn [take first_code]. apply IH. lia. }
    unfold MAX_BITS in Hle.
    rewrite starts_at; [cbn [default]; apply Hc; lia| |rewrite length_take; unfold cs; rewrite code_counts_length; unfold MAX_BITS; lia].
    intros j c Hj Hjc. rewrite Hc by lia.
    assert (Hjc' : cs !! j = Some c) by (rewrite lookup_take in Hjc; case_decide; done).
    destruct (kraft_fits cs 1 0 0 rest j c Hk) as [H1 H2]; [done|lia|done|].
    assert (2 ^ Z.of_nat (S (0 + j)) <= 2 ^ 14) by (apply Z.pow_le_mono_r; lia). lia. }
  destruct (code_of_range lengths rest s l Hk Hl ltac:(lia)) as [H1 H2].
  assert (2 ^ Z.of_nat l <= 2 ^ 15) by (apply Z.pow_le_mono_r; unfold MAX_BITS in *; lia).
  unfold assign_codes. rewrite Hcount. fold cs in H1, H2. rewrite <- Hnext in H1, H2.
  rewrite (assign_at _ _ s l); try done; try lia.
  - rewrite Hnext. unfold code_for, code_of. by rewrite (at_lookup _ _ _ Hl).
  - cbn [length]. rewrite starts_length. cbn [length]. rewrite length_take. unfold cs.
    rewrite code_counts_length. unfold MAX_BITS. lia.
Qed.

(** What is written for a symbol is what its decoder reads. *)
Lemma code_for_bits lengths rest s l :
  kraft 1 (code_counts lengths) = Ok rest -> lengths !! s = Some l -> (0 < l <= MAX_BITS)%nat ->
  bits_of (code_len (code_for lengths s)) (code_bits (code_for lengths s)) = msb l (code_of lengths s) /\
  0 <= code_bits (code_for lengths s) < 2 ^ Z.of_nat (code_len (code_for lengths s)).
Proof.
  intros Hk Hl Hr. unfold code_for. cbn [code_len code_bits]. rewrite (at_lookup _ _ _ Hl).
  unfold MAX_BITS in Hr. split; [apply reversed_bits; lia|apply reversed_range; lia].
Qed.

(** ** Lengths that make a complete code *)

(** Kraft's sum, in units of the shortest code. *)
Fixpoint kraft_weight (cs : list nat) : Z :=
  match cs with
  | [] => 0
  | c :: cs' => Z.of_nat c * 2 ^ Z.of_nat (length cs') + kraft_weight cs'
  end.

Lemma kraft_weight_pos cs : 0 <= kraft_weight cs.
Proof. induction cs as [|c cs IH]; cbn [kraft_weight]; [done|]. nia. Qed.

Lemma kraft_ok cs : forall spare,
  kraft_weight cs <= spare * 2 ^ Z.of_nat (length cs) ->
  kraft spare cs = Ok (spare * 2 ^ Z.of_nat (length cs) - kraft_weight cs).
Proof.
  induction cs as [|c cs IH]; intros spare H; cbn [kraft kraft_weight length] in *.
  { change (2 ^ Z.of_nat 0) with 1 in *. f_equal. lia. }
  rewrite Nat2Z.inj_succ, Z.pow_succ_r in * by lia. rewrite Z.shiftl_mul_pow2 by lia.
  pose proof (kraft_weight_pos cs).
  destruct (Z.ltb_spec (spare * 2 ^ 1 - Z.of_nat c) 0); [nia|].
  rewrite IH by nia. f_equal. lia.
Qed.

(** The share of the code space a length takes. *)
Definition share (l : nat) : Z := if (l =? 0)%nat then 0 else 2 ^ Z.of_nat (MAX_BITS - l).
Definition shares (lengths : list nat) : Z := foldr (fun l acc => share l + acc) 0 lengths.

Lemma kraft_weight_shares lengths :
  short lengths -> kraft_weight (code_counts lengths) = shares lengths.
Proof.
  induction lengths as [|x lengths IH]; intros Hs; [done|].
  unfold short in Hs. rewrite Forall_cons_iff in Hs. destruct Hs as [Hx Hs]. specialize (IH Hs).
  unfold shares. cbn [foldr]. fold (shares lengths). rewrite <- IH.
  unfold code_counts, MAX_BITS in *. cbn [map seq kraft_weight cnt length] in *.
  do 16 (destruct x as [|x]; [cbn [Nat.eqb]; unfold share, MAX_BITS; cbn [Nat.eqb Nat.sub]; lia|]).
  lia.
Qed.

(** The lengths make a decoder: they fill the code space, or there is at most
    one symbol, of length one. *)
Definition codes_ok (lengths : list nat) : Prop :=
  short lengths /\
  (shares lengths = 2 ^ Z.of_nat MAX_BITS \/
   ((length lengths - cnt 0 lengths <= 1)%nat /\ shares lengths <= 2 ^ Z.of_nat MAX_BITS)).

Lemma codes_ok_decoder lengths :
  codes_ok lengths ->
  exists d rest, decoder lengths = Ok d /\ kraft 1 (code_counts lengths) = Ok rest.
Proof.
  intros [Hs Hk]. unfold decoder. rewrite drop_tally, tally_at by (done || (unfold MAX_BITS; lia)).
  assert (Hw : kraft_weight (code_counts lengths) <= 1 * 2 ^ Z.of_nat (length (code_counts lengths))).
  { rewrite kraft_weight_shares, code_counts_length by done. lia. }
  rewrite (kraft_ok _ 1 Hw), code_counts_length, kraft_weight_shares by done.
  destruct Hk as [Hk|[Hk _]].
  - rewrite Hk, Z.mul_1_l, Z.sub_diag. cbn [Z.ltb Z.compare andb]. by eexists _, _.
  - rewrite (proj2 (Nat.ltb_ge _ _)), andb_false_r by done. by eexists _, _.
Qed.

(** ** The tree behind the parents *)

Inductive tree :=
  | Leaf (i : nat)
  | Node (n : nat) (l r : tree).

Definition root (t : tree) : nat := match t with Leaf i => i | Node n _ _ => n end.

(** The symbols of a tree at depth [k], with the depth of each. *)
Fixpoint leaves (k : nat) (t : tree) : list (nat * nat) :=
  match t with
  | Leaf i => [(i, k)]
  | Node _ l r => leaves (S k) l ++ leaves (S k) r
  end.

Fixpoint height (t : tree) : nat :=
  match t with
  | Leaf _ => 0
  | Node _ l r => S (Nat.max (height l) (height r))
  end.

Fixpoint linked (parent : gmap nat nat) (t : tree) : Prop :=
  match t with
  | Leaf _ => True
  | Node n l r =>
      parent !! root l = Some n /\ parent !! root r = Some n /\ linked parent l /\ linked parent r
  end.

Lemma linked_mono parent parent' t : parent ⊆ parent' -> linked parent t -> linked parent' t.
Proof.
  intros Hp. induction t as [|n l IHl r IHr]; [done|]. cbn [linked].
  intros (H1 & H2 & H3 & H4). split_and!; eauto using lookup_weaken.
Qed.

Lemma leaves_depth t : forall k i d, In (i, d) (leaves k t) -> (k <= d <= k + height t)%nat.
Proof.
  induction t as [j|n l IHl r IHr]; intros k i d H; cbn [leaves height] in *.
  - destruct H as [[= <- <-]|[]]. lia.
  - apply in_app_iff in H as [H|H]; [apply IHl in H|apply IHr in H]; lia.
Qed.

Lemma leaves_shift t : forall k, leaves k t = map (fun x => (x.1, (k + x.2)%nat)) (leaves 0 t).
Proof.
  induction t as [j|n l IHl r IHr]; intros k; cbn [leaves map]; [by rewrite Nat.add_0_r|].
  rewrite (IHl (S k)), (IHr (S k)), (IHl 1%nat), (IHr 1%nat), map_app, !map_map.
  f_equal; apply map_ext; intros []; cbn; f_equal; lia.
Qed.

Lemma height_leaves t k : (height t < length (leaves k t))%nat.
Proof.
  revert k. induction t as [j|n l IHl r IHr]; intros k; cbn [leaves height]; [cbn; lia|].
  rewrite length_app. specialize (IHl (S k)). specialize (IHr (S k)). lia.
Qed.

(** Walking up from a leaf reaches the root after as many steps as its depth. *)
Lemma depth_leaf parent t : forall k i d fuel,
  linked parent t -> In (i, d) (leaves k t) ->
  depth (d - k + fuel) parent i = (d - k + depth fuel parent (root t))%nat.
Proof.
  induction t as [j|n l IHl r IHr]; intros k i d fuel Hl Hin; cbn [leaves root] in *.
  - destruct Hin as [[= <- <-]|[]]. by rewrite Nat.sub_diag.
  - destruct Hl as (H1 & H2 & H3 & H4).
    assert (Hstep : forall t, parent !! root t = Some n -> depth (S fuel) parent (root t) = S (depth fuel parent n)).
    { intros t Ht. cbn [depth]. by rewrite Ht. }
    apply in_app_iff in Hin as [Hin|Hin]; pose proof (leaves_depth _ _ _ _ Hin);
      replace (d - k + fuel)%nat with (d - S k + S fuel)%nat by lia.
    + rewrite (IHl (S k)) by done. rewrite Hstep by done. lia.
    + rewrite (IHr (S k)) by done. rewrite Hstep by done. lia.
Qed.

(** The leaves of a tree share its code space exactly. *)
Lemma leaves_shares t : forall k (m : nat),
  (k + height t <= m)%nat ->
  foldr (fun x acc => 2 ^ Z.of_nat (m - x.2) + acc) 0 (leaves k t) = 2 ^ Z.of_nat (m - k).
Proof.
  assert (Happ : forall (m : nat) (a b : list (nat * nat)),
    foldr (fun x acc => 2 ^ Z.of_nat (m - x.2) + acc) 0 (a ++ b) =
    foldr (fun x acc => 2 ^ Z.of_nat (m - x.2) + acc) 0 a +
    foldr (fun x acc => 2 ^ Z.of_nat (m - x.2) + acc) 0 b).
  { intros m a b. induction a as [|x a IH]; [done|]. cbn [app foldr]. rewrite IH. lia. }
  induction t as [j|n l IHl r IHr]; intros k m Hm; cbn [leaves height] in *.
  - cbn. lia.
  - rewrite Happ, IHl, IHr by lia.
    replace (m - k)%nat with (S (m - S k)) by lia. rewrite Nat2Z.inj_succ, Z.pow_succ_r by lia. lia.
Qed.

(** ** The forest in the heap *)

Definition entry (x : Z * tree) : Z * nat := (x.1, root x.2).

Definition heap_sorted (heap : list (Z * nat)) : Prop := StronglySorted (fun x y => x.1 <= y.1) heap.

Lemma push_perm x heap : push x heap ≡ₚ x :: heap.
Proof.
  induction heap as [|y heap IH]; [done|]. cbn [push]. destruct (heap_le x y); [done|].
  rewrite IH. apply Permutation_swap.
Qed.

Lemma push_sorted x heap : heap_sorted heap -> heap_sorted (push x heap).
Proof.
  induction 1 as [|y heap Hs IH Hy]; [by repeat constructor|]. cbn [push].
  destruct (heap_le x y) eqn:E.
  - constructor; [by constructor|]. assert (x.1 <= y.1) by (unfold heap_le in E; lia).
    constructor; [done|]. eapply Forall_impl; [|done]. cbn. lia.
  - constructor; [done|]. rewrite push_perm. constructor; [|done]. unfold heap_le in E. lia.
Qed.

(** A push on the heap is a push on the forest behind it. *)
Lemma push_forest (x : Z * tree) ts :
  exists ts', map entry ts' = push (entry x) (map entry ts) /\ ts' ≡ₚ x :: ts.
Proof.
  induction ts as [|y ts IH]; [by exists [x]|]. cbn [map push].
  destruct (heap_le (entry x) (entry y)); [by exists (x :: y :: ts)|].
  destruct IH as (ts' & E & Hp). exists (y :: ts'). cbn [map]. rewrite E. split; [done|].
  rewrite Hp. apply Permutation_swap.
Qed.

(** What every merge keeps true of the forest: its links are in [parent], its
    roots are distinct nodes without a parent, and its leaves are the symbols. *)
Record forest_ok (parent : gmap nat nat) (next : nat) (used : list nat) (ts : list (Z * tree)) : Prop := {
  fo_linked : Forall (fun x => linked parent x.2) ts;
  fo_roots : Forall (fun x => parent !! root x.2 = None /\ (root x.2 < next)%nat) ts;
  fo_distinct : NoDup (map (fun x => root x.2) ts);
  fo_fresh : forall k, (next <= k)%nat -> parent !! k = None;
  fo_leaves : map fst (concat (map (fun x => leaves 0 x.2) ts)) ≡ₚ used;
}.

Lemma concat_perm {A} (a b : list (list A)) : a ≡ₚ b -> concat a ≡ₚ concat b.
Proof.
  induction 1 as [|x a b _ IH|x y a|a b c _ IH1 _ IH2]; cbn [concat]; [done|by rewrite IH| |by etrans].
  rewrite !app_assoc. by rewrite (Permutation_app_comm x y).
Qed.

Lemma forest_ok_perm parent next used ts ts' :
  ts ≡ₚ ts' -> forest_ok parent next used ts -> forest_ok parent next used ts'.
Proof.
  intros Hp [H1 H2 H3 H4 H5]. split.
  - by rewrite <- Hp.
  - by rewrite <- Hp.
  - by rewrite <- Hp.
  - done.
  - rewrite <- H5. apply Permutation_map, concat_perm, Permutation_map. by symmetry.
Qed.

Lemma forest_ok_merge parent next used ts w1 t1 w2 t2 w :
  forest_ok parent next used ((w1, t1) :: (w2, t2) :: ts) ->
  forest_ok (<[root t2 := next]> (<[root t1 := next]> parent)) (S next) used ((w, Node next t1 t2) :: ts).
Proof.
  intros [H1 H2 H3 H4 H5]. rewrite !Forall_cons_iff in H1, H2. cbn [snd map] in *.
  destruct H1 as (Hl1 & Hl2 & Hls), H2 as ((Hr1 & Hn1) & (Hr2 & Hn2) & Hrs).
  rewrite !list.NoDup_cons in H3. destruct H3 as (Hd1 & Hd2 & Hds). rewrite not_elem_of_cons in Hd1.
  destruct Hd1 as [Hne Hd1].
  assert (Hr2' : (<[root t1 := next]> parent) !! root t2 = None) by by rewrite lookup_insert_ne.
  assert (Hsub : parent ⊆ <[root t2 := next]> (<[root t1 := next]> parent)).
  { etrans; by apply insert_subseteq. }
  split; cbn [map snd].
  - apply Forall_cons_2.
    + cbn [linked snd]. split_and!; [|by rewrite lookup_insert_eq|by eapply linked_mono..].
      by rewrite lookup_insert_ne, lookup_insert_eq by congruence.
    + eapply Forall_impl; [|exact Hls]. intros x. by apply linked_mono.
  - apply Forall_cons_2.
    + cbn [root snd]. split; [|lia]. rewrite !lookup_insert_ne by lia. apply H4. lia.
    + rewrite Forall_forall in Hrs |- *. intros x Hx. destruct (Hrs x Hx) as [Hx1 Hx2].
      split; [|lia]. apply (in_map (fun x => root x.2)) in Hx. apply list_elem_of_In in Hx.
      by rewrite !lookup_insert_ne by (intros E; rewrite E in *; done).
  - rewrite list.NoDup_cons. split; [|done]. cbn [root]. rewrite list_elem_of_In, in_map_iff.
    intros (x & Hx & Hin). rewrite Forall_forall in Hrs. destruct (Hrs x Hin). lia.
  - intros k Hk. rewrite !lookup_insert_ne by lia. apply H4. lia.
  - rewrite <- H5. cbn [map concat leaves]. rewrite <- !app_assoc, !map_app.
    assert (Hs : forall t, map fst (leaves 1 t) = map fst (leaves 0 t)).
    { intros t. rewrite (leaves_shift t 1), map_map. done. }
    by rewrite !Hs, app_assoc.
Qed.

(** ** Fibonacci: a tree is deep only under a large weight *)

Fixpoint fib (n : nat) : Z :=
  match n with
  | O => 0
  | S n' => match n' with O => 1 | S n'' => fib n' + fib n'' end
  end.

Lemma fib_SS n : fib (S (S n)) = fib (S n) + fib n.
Proof. done. Qed.

Lemma fib_nonneg n : 0 <= fib n /\ 0 <= fib (S n).
Proof. induction n as [|n [IH1 IH2]]; [done|]. rewrite fib_SS. lia. Qed.

Lemma fib_mono m n : (m <= n)%nat -> fib m <= fib n.
Proof.
  induction 1 as [|n H IH]; [lia|]. destruct n as [|n]; [assert (m = 0%nat) as -> by lia; cbn; lia|].
  rewrite fib_SS. pose proof (fib_nonneg n). lia.
Qed.

Definition weighed (low : Z) (ts : list (Z * tree)) : Prop :=
  Forall (fun x => fib (S (S (height x.2))) <= x.1 /\ fib (S (height x.2)) <= low <= x.1) ts.

Definition weight (ts : list (Z * tree)) : Z := foldr (fun x acc => x.1 + acc) 0 ts.

Lemma weight_perm ts ts' : ts ≡ₚ ts' -> weight ts = weight ts'.
Proof. unfold weight. induction 1; cbn [foldr]; lia. Qed.

Lemma weighed_merge low ts w1 t1 w2 t2 n :
  w1 <= w2 -> Forall (fun x => w2 <= x.1) ts -> weighed low ((w1, t1) :: (w2, t2) :: ts) ->
  0 <= low -> weighed w2 ((w1 + w2, Node n t1 t2) :: ts).
Proof.
  intros H12 Hts Hw Hlow. unfold weighed in *. rewrite !Forall_cons_iff in Hw. cbn [fst snd] in Hw.
  destruct Hw as ((A1 & B1) & (A2 & B2) & Hw). apply Forall_cons_2; cbn [fst snd height].
  - rewrite fib_SS. destruct (Nat.max_spec (height t1) (height t2)) as [[_ ->]|[_ ->]]; lia.
  - rewrite Forall_forall in *. intros x Hx. specialize (Hts x Hx). specialize (Hw x Hx). lia.
Qed.

(** The merging loop ends with one tree over all the symbols. *)
Lemma merge_loop_tree fuel : forall ts parent next used low,
  forest_ok parent next used ts -> ts <> [] -> (length ts <= S fuel)%nat ->
  heap_sorted (map entry ts) -> weighed low ts -> 0 <= low ->
  exists next' w t,
    forest_ok (merge_loop fuel (map entry ts) parent next) next' used [(w, t)] /\
    fib (S (S (height t))) <= w /\ w = weight ts.
Proof.
  induction fuel as [|fuel IH]; intros ts parent next used low Hf Hne Hlen Hs Hw Hlow.
  all: destruct ts as [|[w1 t1] [|[w2 t2] ts]]; try done; try (cbn in Hlen; lia).
  1-2: exists next, w1, t1; unfold weighed in Hw; rewrite Forall_cons_iff in Hw; cbn in *;
    split; [done|]; split; [apply Hw|lia].
  cbn [map entry merge_loop fst snd].
  destruct (push_forest (w1 + w2, Node next t1 t2) ts) as (ts' & E & Hp).
  change (w1 + w2, next) with (entry (w1 + w2, Node next t1 t2)). rewrite <- E.
  cbn [map] in Hs. inversion Hs as [|? ? Hs' Hmin1]; subst. inversion Hs' as [|? ? Hs'' Hmin2]; subst.
  rewrite Forall_cons_iff in Hmin1. cbn [entry fst] in Hmin1, Hmin2.
  assert (Hmin : Forall (fun x => w2 <= x.1) ts).
  { rewrite Forall_forall in *. intros x Hx. apply (Hmin2 (entry x)). by apply in_map. }
  destruct (IH ts' (<[root t2 := next]> (<[root t1 := next]> parent)) (S next) used w2)
    as (next' & w & t & Hf' & Hh & Hwt).
  - eapply forest_ok_perm; [by symmetry|]. by eapply forest_ok_merge.
  - intros ->. by apply Permutation_nil_cons in Hp.
  - rewrite Hp. cbn [length] in *. lia.
  - rewrite E. by apply push_sorted.
  - unfold weighed. rewrite Hp. eapply weighed_merge; try done. lia.
  - unfold weighed in Hw. rewrite !Forall_cons_iff in Hw. cbn in Hw. lia.
  - exists next', w, t. split; [done|]. split; [done|]. rewrite Hwt, (weight_perm _ _ Hp).
    unfold weight. cbn. lia.
Qed.

(** ** The depths are a complete code *)

Definition leaf (weights : list Z) (i : nat) : Z * tree := (atz weights i, Leaf i).

Lemma heap_init weights used : forall ts,
  heap_sorted (map entry ts) ->
  let heap := fold_left (fun heap i => push (atz weights i, i) heap) used (map entry ts) in
  heap_sorted heap /\ exists ts', heap = map entry ts' /\ ts' ≡ₚ map (leaf weights) used ++ ts.
Proof.
  induction used as [|i used IH]; intros ts Hs; cbn [fold_left].
  { split; [done|]. by exists ts. }
  destruct (push_forest (leaf weights i) ts) as (ts1 & E & Hp).
  change (atz weights i, i) with (entry (leaf weights i)). rewrite <- E.
  destruct (IH ts1) as (Hs' & ts' & E' & Hp').
  { rewrite E. by apply push_sorted. }
  split; [done|]. exists ts'. split; [done|]. rewrite Hp', Hp. cbn [map app].
  by rewrite Permutation_middle.
Qed.

Lemma concat_leaves weights used :
  map fst (concat (map (fun x => leaves 0 x.2) (map (leaf weights) used))) = used.
Proof. induction used as [|i used IH]; [done|]. cbn. by rewrite IH. Qed.

Definition total_weight (weights : list Z) (used : list nat) : Z :=
  foldr (fun i acc => atz weights i + acc) 0 used.

Lemma leaves_height t : forall k, exists i, In (i, (k + height t)%nat) (leaves k t).
Proof.
  induction t as [j|n l IHl r IHr]; intros k; cbn [leaves height].
  - exists j. left. f_equal. lia.
  - destruct (Nat.max_spec (height l) (height r)) as [[_ ->]|[_ ->]].
    + destruct (IHr (S k)) as [i Hi]. exists i. apply in_app_iff. right.
      by replace (k + S (height r))%nat with (S k + height r)%nat by lia.
    + destruct (IHl (S k)) as [i Hi]. exists i. apply in_app_iff. left.
      by replace (k + S (height l))%nat with (S k + height l)%nat by lia.
Qed.

Lemma depths_tree n used weights :
  used <> [] -> NoDup used -> Forall (fun i => (i < n)%nat /\ 1 <= atz weights i) used ->
  exists t, depths n used weights ≡ₚ map snd (leaves 0 t) /\ length (leaves 0 t) = length used /\
    fib (S (S (height t))) <= total_weight weights used.
Proof.
  intros Hne Hnd Hu. unfold depths.
  destruct (heap_init weights used [] ltac:(constructor)) as (Hs & ts & E & Hp).
  rewrite app_nil_r in Hp. change (map entry []) with (@nil (Z * nat)) in *. rewrite E in *.
  destruct (merge_loop_tree (length used) ts ∅ n used 1) as (next & w & t & Hf & Hh & Hw).
  - eapply forest_ok_perm; [by symmetry|]. split.
    + apply Forall_forall. intros x. rewrite in_map_iff. by intros (i & <- & _).
    + rewrite Forall_forall in Hu |- *. intros x. rewrite in_map_iff. intros (i & <- & Hi).
      split; [apply lookup_empty|]. apply Hu, Hi.
    + rewrite map_map. cbn [leaf snd root]. by rewrite map_id.
    + intros k _. apply lookup_empty.
    + by rewrite concat_leaves.
  - intros ->. apply Permutation_nil in Hp. by destruct used.
  - rewrite Hp, length_map. lia.
  - done.
  - unfold weighed. rewrite Hp. rewrite Forall_forall in Hu |- *. intros x. rewrite in_map_iff.
    intros (i & <- & Hi). destruct (Hu i Hi) as [_ Hw1]. cbn. lia.
  - lia.
  - exists t. destruct Hf as [Hl Hr _ _ Hlv]. cbn [map concat] in Hlv. rewrite app_nil_r in Hlv.
    rewrite !Forall_cons_iff in Hl, Hr. cbn [snd] in Hl, Hr.
    set (parent := merge_loop _ _ _ _) in *.
    assert (Hlen : length (leaves 0 t) = length used) by by rewrite <- Hlv, length_map.
    split; [|split; [done|]].
    + rewrite <- Hlv at 1. rewrite map_map. apply Permutation_refl'. apply map_ext_in.
      intros [i d] Hin. cbn [fst snd].
      pose proof (leaves_depth _ _ _ _ Hin). pose proof (height_leaves t 0).
      assert (Hn : (length used <= n)%nat).
      { rewrite <- (length_seq n 0). apply (NoDup_incl_length (l := used)); [by apply NoDup_ListNoDup|].
        intros x Hx. rewrite Forall_forall in Hu. apply in_seq. specialize (Hu x Hx). lia. }
      replace (n + n)%nat with (d - 0 + S (n + n - d - 1))%nat by lia.
      rewrite (depth_leaf parent t 0) by tauto. cbn [depth]. rewrite (proj1 (proj1 Hr)). lia.
    + rewrite Hw in Hh. rewrite (weight_perm _ _ Hp) in Hh. etrans; [exact Hh|].
      clear. apply Z.eq_le_incl. unfold weight, total_weight.
      induction used as [|i used IH]; [done|]. cbn. by rewrite IH.
Qed.

(** ** Writing the depths into the table *)

Lemma set_lengths_length used : forall ds ls, length (set_lengths used ds ls) = length ls.
Proof.
  unfold set_lengths. induction used as [|i used IH]; intros [|d ds] ls; try done.
  cbn [zip zip_with fold_left]. by rewrite IH, length_insert.
Qed.

Lemma set_lengths_out used : forall ds ls i, (i ∉ used) -> set_lengths used ds ls !! i = ls !! i.
Proof.
  unfold set_lengths. induction used as [|j used IH]; intros [|d ds] ls i Hi; try done.
  rewrite not_elem_of_cons in Hi. cbn [zip zip_with fold_left fst snd].
  rewrite IH by tauto. apply list_lookup_insert_ne. naive_solver.
Qed.

Lemma set_lengths_in used : forall ds ls k i,
  NoDup used -> length ds = length used -> used !! k = Some i -> (i < length ls)%nat ->
  set_lengths used ds ls !! i = ds !! k.
Proof.
  induction used as [|j used IH]; intros ds ls k i Hnd Hlen Hk Hi; [done|].
  destruct ds as [|d ds]; [done|]. rewrite list.NoDup_cons in Hnd. destruct Hnd as [Hj Hnd].
  change (set_lengths (j :: used) (d :: ds) ls) with (set_lengths used ds (<[j := d]> ls)).
  destruct k as [|k].
  - injection Hk as ->. rewrite set_lengths_out by done. by rewrite list_lookup_insert_eq.
  - change ((d :: ds) !! S k) with (ds !! k).
    apply IH; [done|cbn in Hlen; lia|done|by rewrite length_insert].
Qed.

(** A later round overwrites what an earlier one wrote. *)
Lemma set_lengths_twice used ds ds' ls :
  NoDup used -> length ds = length used -> Forall (fun i => (i < length ls)%nat) used ->
  set_lengths used ds (set_lengths used ds' ls) = set_lengths used ds ls.
Proof.
  intros Hnd Hlen Hu. apply list_eq. intros i. destruct (decide (i ∈ used)) as [Hi|Hi].
  - pose proof Hi as [k Hk]%list_elem_of_lookup. rewrite Forall_forall in Hu.
    apply list_elem_of_In, Hu in Hi. rewrite (set_lengths_in used ds ls k i) by done.
    apply set_lengths_in; [done..|by rewrite set_lengths_length].
  - by rewrite !set_lengths_out by done.
Qed.

Lemma shares_insert ls i d :
  ls !! i = Some 0%nat -> shares (<[i := d]> ls) = share d + shares ls.
Proof.
  revert i. induction ls as [|x ls IH]; intros [|i] H; try done.
  - injection H as ->. cbn. change (share 0) with 0. lia.
  - change ((x :: ls) !! S i) with (ls !! i) in H. cbn [insert list_insert]. unfold shares in *.
    cbn [foldr]. rewrite IH by done. lia.
Qed.

Lemma shares_set used : forall ds ls,
  NoDup used -> length ds = length used -> Forall (fun i => ls !! i = Some 0%nat) used ->
  shares (set_lengths used ds ls) = shares ds + shares ls.
Proof.
  induction used as [|j used IH]; intros ds ls Hnd Hlen Hu; [by destruct ds|].
  destruct ds as [|d ds]; [done|]. rewrite list.NoDup_cons in Hnd. destruct Hnd as [Hj Hnd].
  rewrite Forall_cons_iff in Hu. destruct Hu as [Hz Hu].
  change (set_lengths (j :: used) (d :: ds) ls) with (set_lengths used ds (<[j := d]> ls)).
  rewrite IH; [|done|cbn in Hlen; lia|].
  - rewrite shares_insert by done. unfold shares. cbn [foldr]. lia.
  - rewrite Forall_forall in *. intros i Hi. rewrite list_lookup_insert_ne; [by apply Hu|].
    intros ->. by apply Hj, list_elem_of_In.
Qed.

Lemma shares_zeros n : shares (repeat 0%nat n) = 0.
Proof. induction n; [done|]. unfold shares in *. cbn [repeat foldr]. by rewrite IHn. Qed.

(** ** The chosen lengths *)

(** The lengths written once the loop is done: one round's depths. *)
Lemma lengths_loop_done rounds max_bits n used : forall weights ls,
  used <> [] -> NoDup used -> length ls = n ->
  Forall (fun i => (i < n)%nat /\ 1 <= atz weights i <= 2 ^ Z.of_nat rounds) used ->
  Z.of_nat (length used) < fib (max_bits + 3) ->
  exists ws, Forall (fun i => (i < n)%nat /\ 1 <= atz ws i) used /\
    Forall (fun d => (d <= max_bits)%nat) (depths n used ws) /\
    lengths_loop (S rounds) max_bits n used weights ls = set_lengths used (depths n used ws) ls.
Proof.
  assert (Hlen : forall n used ws, length (depths n used ws) = length used)
    by (intros; apply length_map).
  induction rounds as [|rounds IH]; intros weights ls Hne Hnd Hls Hu Hfib.
  all: assert (Hu1 : Forall (fun i => (i < n)%nat /\ 1 <= atz weights i) used)
    by (eapply Forall_impl; [|exact Hu]; cbn; lia).
  all: cbn [lengths_loop]; destruct (existsb _ (depths n used weights)) eqn:E.
  2, 4: exists weights; split; [done|]; split; [|done]; apply Forall_forall; intros d Hd;
    destruct (decide (d <= max_bits)%nat) as [|Hgt]; [done|]; exfalso;
    rewrite <- not_true_iff_false in E; apply E, existsb_exists; exists d; split; [done|];
    apply Nat.ltb_lt; lia.
  - exfalso. destruct (depths_tree n used weights Hne Hnd Hu1) as (t & Hp & _ & Hh).
    apply existsb_exists in E as (d & Hd & Hgt). apply Nat.ltb_lt in Hgt.
    apply list_elem_of_In in Hd. rewrite Hp in Hd. apply list_elem_of_In in Hd.
    apply in_map_iff in Hd as ([i d'] & <- & Hd). apply leaves_depth in Hd. cbn [snd] in *.
    assert (total_weight weights used = Z.of_nat (length used)) as Ht.
    { clear -Hu. unfold total_weight. change (2 ^ Z.of_nat 0) with 1 in Hu.
      induction Hu as [|i used [_ Hi] _ IH]; [done|]. cbn [foldr length]. lia. }
    pose proof (fib_mono (max_bits + 3) (S (S (height t))) ltac:(lia)). lia.
  - destruct (IH (map halve weights) (set_lengths used (depths n used weights) ls)) as (ws & H1 & H2 & H3);
      [done|done|by rewrite set_lengths_length| |done|].
    + eapply Forall_impl; [|exact Hu]. intros i [Hi Hw]. split; [done|]. unfold atz in *.
      rewrite list_lookup_fmap. destruct (weights !! i) as [w|]; [|cbn in Hw; lia].
      cbn in *. unfold halve. rewrite (proj2 (Z.ltb_lt _ _)) by lia.
      rewrite Nat2Z.inj_succ, Z.pow_succ_r in Hw by lia. Z.div_mod_to_equations. lia.
    + exists ws. split; [done|]. split; [done|]. cbn [lengths_loop] in H3. rewrite H3.
      apply set_lengths_twice; [done|apply Hlen|]. rewrite Hls. eapply Forall_impl; [|exact Hu]. cbn. lia.
Qed.

Lemma at_repeat n i : at_ (repeat 0%nat n) i = 0%nat.
Proof.
  unfold at_. destruct (repeat 0%nat n !! i) eqn:E; [|done].
  apply list_elem_of_lookup_2, list_elem_of_In, repeat_spec in E. by subst.
Qed.

Lemma repeat_lookup n i : (i < n)%nat -> repeat 0%nat n !! i = Some 0%nat.
Proof.
  intros Hi. destruct (lookup_lt_is_Some_2 (repeat 0%nat n) i) as [x Hx]; [by rewrite repeat_length|].
  pose proof (at_repeat n i) as H. unfold at_ in H. rewrite Hx in H |- *. cbn in H. by subst.
Qed.

(** What the chosen lengths promise. *)
Record lengths_ok (freqs : list Z) (max_bits : nat) (ls : list nat) : Prop := {
  lo_length : length ls = length freqs;
  lo_short : Forall (fun l => (l <= max_bits)%nat) ls;
  lo_used : forall i, 0 < atz freqs i -> (0 < at_ ls i)%nat;
  lo_unused : forall i, atz freqs i <= 0 -> at_ ls i = 0%nat;
  lo_codes : codes_ok ls;
}.

Lemma used_spec freqs i :
  In i (List.filter (fun i => 0 <? atz freqs i) (seq 0 (length freqs))) <-> 0 < atz freqs i.
Proof.
  rewrite filter_In, in_seq, Z.ltb_lt. split; [tauto|]. intros H. split; [|done].
  split; [lia|]. unfold atz in H. destruct (freqs !! i) eqn:E; [|cbn in H; lia].
  apply lookup_lt_Some in E. lia.
Qed.

Lemma short_weaken max_bits ls :
  (max_bits <= MAX_BITS)%nat -> Forall (fun l => (l <= max_bits)%nat) ls -> short ls.
Proof. intros Hm H. eapply Forall_impl; [|exact H]. cbn. lia. Qed.

Lemma shares_depths t m : (height t <= m <= MAX_BITS)%nat -> (2 <= length (leaves 0 t))%nat ->
  shares (map snd (leaves 0 t)) = 2 ^ Z.of_nat MAX_BITS.
Proof.
  intros Hh Hl. pose proof (leaves_shares t 0 MAX_BITS ltac:(lia)) as H.
  rewrite Nat.sub_0_r in H. rewrite <- H. clear H. unfold shares.
  assert (Hpos : Forall (fun x => (1 <= x.2)%nat) (leaves 0 t)).
  { destruct t as [j|n l r]; [cbn in Hl; lia|]. apply Forall_forall. intros [i d] Hin. cbn.
    cbn [leaves] in Hin. apply in_app_iff in Hin as [Hin|Hin]; apply leaves_depth in Hin; lia. }
  clear Hh Hl. induction Hpos as [|x lv Hx Hpos IH]; [done|]. cbn [map foldr]. rewrite IH.
  unfold share. destruct (Nat.eqb_spec x.2 0); [lia|done].
Qed.

Lemma shares_perm a b : a ≡ₚ b -> shares a = shares b.
Proof. unfold shares. induction 1; cbn [foldr]; lia. Qed.

Lemma depths_positive n used weights :
  (2 <= length used)%nat -> NoDup used -> Forall (fun i => (i < n)%nat /\ 1 <= atz weights i) used ->
  Forall (fun d => (0 < d)%nat) (depths n used weights).
Proof.
  intros H2 Hnd Hu.
  destruct (depths_tree n used weights) as (t & Hp & Hl & _); [by destruct used; [cbn in H2; lia|]|done|done|].
  rewrite Hp. apply Forall_forall. intros d Hd. apply in_map_iff in Hd as ([i d'] & <- & Hd).
  destruct t as [j|m l r]; [cbn in Hl; lia|]. cbn [leaves] in Hd.
  apply in_app_iff in Hd as [Hd|Hd]; apply leaves_depth in Hd; cbn; lia.
Qed.

(** The lengths written for two or more symbols. *)
Lemma set_depths_ok freqs max_bits used ws :
  (max_bits <= MAX_BITS)%nat -> (2 <= length used)%nat -> NoDup used ->
  (forall i, In i used <-> 0 < atz freqs i) ->
  Forall (fun i => (i < length freqs)%nat /\ 1 <= atz ws i) used ->
  Forall (fun d => (d <= max_bits)%nat) (depths (length freqs) used ws) ->
  lengths_ok freqs max_bits
    (set_lengths used (depths (length freqs) used ws) (repeat 0%nat (length freqs))).
Proof.
  intros Hm H2 Hnd Hin Hu Hd. set (n := length freqs) in *. set (ds := depths n used ws) in *.
  set (ls := set_lengths used ds (repeat 0%nat n)).
  assert (Hlen : length ds = length used) by apply length_map.
  assert (Hls : length ls = n) by (unfold ls; by rewrite set_lengths_length, repeat_length).
  assert (Hpos : Forall (fun d => (0 < d)%nat) ds) by by apply depths_positive.
  assert (Hat : forall i, 0 < atz freqs i -> exists d, In d ds /\ ls !! i = Some d).
  { intros i Hi%Hin. pose proof Hi as [k Hk]%list_elem_of_In%list_elem_of_lookup.
    rewrite Forall_forall in Hu. destruct (Hu i Hi) as [Hi' _].
    destruct (lookup_lt_is_Some_2 ds k) as [d Hdk]; [apply lookup_lt_Some in Hk; lia|].
    exists d. split; [by eapply list_elem_of_In, list_elem_of_lookup_2|]. unfold ls.
    by rewrite (set_lengths_in used ds (repeat 0%nat n) k i) by (rewrite ?repeat_length; done). }
  assert (Hout : forall i, atz freqs i <= 0 -> at_ ls i = 0%nat).
  { intros i Hi. unfold ls, at_. rewrite set_lengths_out; [apply at_repeat|].
    rewrite list_elem_of_In, Hin. lia. }
  assert (Hshort : Forall (fun l => (l <= max_bits)%nat) ls).
  { apply Forall_lookup. intros i l Hl. destruct (decide (0 < atz freqs i)) as [Hi|Hi].
    - destruct (Hat i Hi) as (d & Hdd & E). rewrite Forall_forall in Hd. rewrite E in Hl.
      injection Hl as <-. by apply Hd.
    - specialize (Hout i ltac:(lia)). rewrite (at_lookup _ _ _ Hl) in Hout. lia. }
  split; [done|done| |done|].
  - intros i Hi. destruct (Hat i Hi) as (d & Hdd & E). rewrite (at_lookup _ _ _ E).
    rewrite Forall_forall in Hpos. by apply Hpos.
  - split; [by eapply short_weaken|]. left. unfold ls. rewrite shares_set; [|done|done|].
    + rewrite shares_zeros, Z.add_0_r.
      destruct (depths_tree n used ws) as (t & Hp & Hl & _); [by destruct used; [cbn in H2; lia|]|done|done|].
      fold ds in Hp. rewrite (shares_perm _ _ Hp). apply (shares_depths t max_bits); [|lia].
      split; [|done]. destruct (leaves_height t 0) as [i Hi]. apply (in_map snd) in Hi. cbn [snd] in Hi.
      rewrite Hp in Hd. rewrite Forall_forall in Hd. apply Hd in Hi. lia.
    + eapply Forall_impl; [|exact Hu]. intros i [Hi _]. by apply repeat_lookup.
Qed.

Lemma cnt_repeat n : cnt 0 (repeat 0%nat n) = n.
Proof. induction n; [done|]. cbn. lia. Qed.

Lemma cnt_one n i : (i < n)%nat -> S (cnt 0 (<[i := 1%nat]> (repeat 0%nat n))) = n.
Proof.
  revert i. induction n as [|n IH]; intros i Hi; [lia|]. destruct i as [|i].
  - cbn. by rewrite cnt_repeat.
  - cbn [repeat]. change (<[S i := 1%nat]> (0%nat :: repeat 0%nat n))
      with (0%nat :: <[i := 1%nat]> (repeat 0%nat n)). cbn [cnt Nat.eqb]. specialize (IH i ltac:(lia)). lia.
Qed.

Lemma build_lengths_promise freqs max_bits :
  (0 < max_bits <= MAX_BITS)%nat -> Forall (fun f => 0 <= f < 2 ^ 32) freqs ->
  Z.of_nat (length freqs) < fib (max_bits + 3) ->
  lengths_ok freqs max_bits (build_lengths freqs max_bits).
Proof.
  intros Hm Hf Hfib. unfold build_lengths. set (n := length freqs) in *.
  pose proof (used_spec freqs) as Hin. fold n in Hin.
  assert (Hnd : NoDup (List.filter (fun i => 0 <? atz freqs i) (seq 0 n)))
    by (apply NoDup_ListNoDup, List.NoDup_filter, seq_NoDup).
  assert (Hlen : (length (List.filter (fun i => (0 <? atz freqs i)%Z) (seq 0 n)) <= n)%nat).
  { rewrite <- (length_seq n 0) at 2. apply filter_length_le. }
  set (used := List.filter _ _) in *. clearbody used.
  assert (Hlt : forall i, In i used -> (i < n)%nat).
  { intros i Hi%Hin. unfold atz in Hi. destruct (freqs !! i) eqn:E; [|cbn in Hi; lia].
    by apply lookup_lt_Some in E. }
  destruct used as [|i [|j used0]] eqn:Eu.
  - split; [apply repeat_length| | | |].
    + apply Forall_forall. intros x Hx%repeat_spec. lia.
    + intros i Hi%Hin. done.
    + intros i _. apply at_repeat.
    + split; [apply Forall_forall; intros x Hx%repeat_spec; unfold MAX_BITS; lia|].
      right. rewrite repeat_length, cnt_repeat, shares_zeros. split; [lia|]. apply Z.pow_nonneg. lia.
  - assert (Hi : (i < n)%nat) by (apply Hlt; by left).
    assert (Hat : forall j, at_ (<[i := 1%nat]> (repeat 0%nat n)) j = if (i =? j)%nat then 1%nat else 0%nat).
    { intros j. rewrite at_insert by (rewrite repeat_length; lia). by rewrite at_repeat. }
    assert (Hall : Forall (fun l => (l <= 1)%nat) (<[i := 1%nat]> (repeat 0%nat n))).
    { apply Forall_lookup. intros j l Hj%at_lookup. rewrite Hat in Hj. case_match; lia. }
    split; [by rewrite length_insert, repeat_length| | | |].
    + eapply Forall_impl; [|exact Hall]. cbn. lia.
    + intros j Hj%Hin. destruct Hj as [->|[]]. rewrite Hat, Nat.eqb_refl. lia.
    + intros j Hj. rewrite Hat. destruct (Nat.eqb_spec i j) as [->|]; [|done].
      exfalso. assert (0 < atz freqs j) by (apply Hin; by left). lia.
    + split; [eapply Forall_impl; [|exact Hall]; unfold MAX_BITS; cbn; lia|]. right.
      rewrite length_insert, repeat_length. pose proof (cnt_one n i Hi). split; [lia|].
      rewrite shares_insert by by apply repeat_lookup. rewrite shares_zeros. vm_compute. done.
  - rewrite <- Eu in *.
    destruct (lengths_loop_done 33 max_bits n used freqs (repeat 0%nat n)) as (ws & H1 & H2 & H3).
    + by rewrite Eu.
    + done.
    + apply repeat_length.
    + apply Forall_forall. intros k Hk. split; [by apply Hlt|]. apply Hin in Hk.
      unfold atz in *. destruct (freqs !! k) as [f|] eqn:E; [|cbn in Hk; lia].
      eapply Forall_lookup_1 in Hf; [|done]. cbn in *. lia.
    + lia.
    + change 34%nat with (S 33). rewrite H3. apply set_depths_ok; try done; [lia|]. rewrite Eu. cbn. lia.
Qed.

(** ** Writing and reading a symbol *)

(** Whatever the frequencies, the chosen code lengths make a valid decoder,
    every symbol that occurs has a code no longer than the limit, and the
    decoder reads the code that is written for a symbol back as that symbol,
    whatever follows it. *)
Theorem huffman_roundtrip freqs max_bits s w :
  (0 < max_bits <= MAX_BITS)%nat -> Forall (fun f => 0 <= f < 2 ^ 32) freqs ->
  Z.of_nat (length freqs) < fib (max_bits + 3) -> 0 < atz freqs s -> writer_wf w ->
  let lengths := build_lengths freqs max_bits in
  exists d c, decoder lengths = Ok d /\ assign_codes lengths !! s = Some c /\
    (0 < code_len c <= max_bits)%nat /\
    exists bs, written (write_code c w) = written w ++ bs /\ reads (decode d) bs s.
Proof.
  intros Hm Hf Hfib Hs Hw lengths.
  pose proof (build_lengths_promise freqs max_bits Hm Hf Hfib) as [H1 H2 H3 _ H5].
  fold lengths in H1, H2, H3, H5. specialize (H3 s Hs).
  destruct (codes_ok_decoder lengths H5) as (d & rest & Hd & Hk).
  destruct (lengths !! s) as [l|] eqn:El; [|by unfold at_ in H3; rewrite El in H3; cbn in H3; lia].
  rewrite (at_lookup _ _ _ El) in H3.
  assert (Hl : (l <= max_bits)%nat) by (eapply Forall_lookup_1 in H2; done).
  destruct H5 as [Hshort _].
  destruct (code_for_bits lengths rest s l Hk El ltac:(lia)) as [Hb Hr].
  exists d, (code_for lengths s). split; [done|]. split; [by eapply assign_codes_at|].
  unfold code_for at 1 2. cbn [code_len]. rewrite (at_lookup _ _ _ El). split; [lia|].
  exists (msb l (code_of lengths s)). split; [|by eapply decoder_reads].
  unfold write_code. rewrite (proj2 (write_spec _ _ w Hw Hr)). by rewrite Hb.
Qed.

Lemma huffman_roundtrip_witness :
  exists d c, decoder (build_lengths [5; 0; 1; 1; 9] 15) = Ok d /\
    assign_codes (build_lengths [5; 0; 1; 1; 9] 15) !! 2%nat = Some c /\ (code_len c <= 15)%nat.
Proof.
  destruct (huffman_roundtrip [5; 0; 1; 1; 9] 15 2 writer) as (d & c & H1 & H2 & H3 & _).
  - unfold MAX_BITS. lia.
  - by apply (bool_decide_unpack _).
  - vm_compute. reflexivity.
  - vm_compute. reflexivity.
  - split; [cbn; lia|]. split; [cbn; lia|apply bytes_nil].
  - exists d, c. split; [exact H1|]. split; [exact H2|lia].
Defined.

End Huffman.
