(* ===== verification/Lz77.v ===== *)
(** * Finding back-references ([rustlavel-http/src/compression/deflate.rs], [MatchFinder])

    The hash chains that look for earlier occurrences, and the tokens they are
    used for. Every match the finder reports is a true one: it lies within the
    window and repeats the bytes it claims to repeat. [head] and [prev], vectors
    filled with [NO_POSITION], are maps whose absent entries hold it. *)

From S2P Require Import Prelude.

Module Lz77.

Definition MIN_MATCH : nat := 3.
Definition MAX_MATCH : nat := 258.
Definition WINDOW_SIZE : Z := 32 * 1024.
Definition HASH_BITS : Z := 15.
Definition MAX_CHAIN : nat := 128.
Definition NO_POSITION : Z := 2 ^ 32 - 1.

Record MatchFinder := { head : gmap Z Z; prev : gmap Z Z; next_insert : nat }.

Definition finder : MatchFinder := {| head := ∅; prev := ∅; next_insert := 0 |}.

Definition slot (m : gmap Z Z) (i : Z) : Z := default NO_POSITION (m !! i).

Definition byte_at (input : list Z) (i : nat) : Z := default 0 (input !! i).

Definition hash (input : list Z) (pos : nat) : Z :=
  let key := Z.lor (Z.lor (Z.shiftl (byte_at input pos) 16) (Z.shiftl (byte_at input (pos + 1)) 8))
               (byte_at input (pos + 2)) in
  Z.shiftr (u32 (key * 2654435761)) (32 - HASH_BITS).

(** One turn of the loop of [insert_through]. *)
Definition insert_one (input : list Z) (f : MatchFinder) : MatchFinder :=
  let pos := next_insert f in
  if (pos + MIN_MATCH <=? length input)%nat then
    let h := hash input pos in
    {| head := <[h := u32 (Z.of_nat pos)]> (head f);
       prev := <[Z.land (Z.of_nat pos) (WINDOW_SIZE - 1) := slot (head f) h]> (prev f);
       next_insert := S pos |}
  else {| head := head f; prev := prev f; next_insert := S pos |}.

Fixpoint insert_turns (n : nat) (input : list Z) (f : MatchFinder) : MatchFinder :=
  match n with
  | O => f
  | S n => insert_turns n input (insert_one input f)
  end.

(** [insert_through]: one turn for each position below [stop] not yet hashed. *)
Definition insert_through (input : list Z) (stop : nat) (f : MatchFinder) : MatchFinder :=
  insert_turns (stop - next_insert f) input f.

(** [take_while(..).count()]: how far two stretches agree, up to [n]. *)
Fixpoint common (n : nat) (a b : list Z) : nat :=
  match n, a, b with
  | S n, x :: a, y :: b => if x =? y then S (common n a b) else 0
  | _, _, _ => 0
  end.

(** The walk along a chain; [remaining] is its bound. *)
Fixpoint chain (remaining : nat) (f : MatchFinder) (input : list Z) (pos max_len : nat)
    (candidate : Z) (best_len : nat) (best_dist : Z) : nat * Z :=
  match remaining with
  | O => (best_len, best_dist)
  | S remaining =>
      if candidate =? NO_POSITION then (best_len, best_dist)
      else
        let start := Z.to_nat candidate in
        let dist := Z.of_nat pos - Z.of_nat start in
        if WINDOW_SIZE <? dist then (best_len, best_dist)
        else
          let next := slot (prev f) (Z.land (Z.of_nat start) (WINDOW_SIZE - 1)) in
          if byte_at input (start + best_len) =? byte_at input (pos + best_len) then
            let len := common max_len (drop start input) (drop pos input) in
            if (best_len <? len)%nat then
              if (len =? max_len)%nat then (len, dist)
              else chain remaining f input pos max_len next len dist
            else chain remaining f input pos max_len next best_len best_dist
          else chain remaining f input pos max_len next best_len best_dist
  end.

Definition longest_match (f : MatchFinder) (input : list Z) (pos : nat) : nat * Z :=
  if (length input <? pos + MIN_MATCH)%nat then (0%nat, 0)
  else
    let max_len := Nat.min MAX_MATCH (length input - pos) in
    let '(best_len, best_dist) :=
      chain MAX_CHAIN f input pos max_len (slot (head f) (hash input pos)) (MIN_MATCH - 1) 0 in
    if (MIN_MATCH <=? best_len)%nat then (best_len, best_dist) else (0%nat, 0).

Inductive Token :=
  | Literal (byte : Z)
  | Match (len : nat) (dist : Z).

(** ** What a token means *)

(** [output.push(output[start + i])], [n] times. *)
Fixpoint copy (n start : nat) (output : list Z) : list Z :=
  match n with
  | O => output
  | S n => copy n (S start) (output ++ [byte_at output start])
  end.

Definition expand_one (output : list Z) (t : Token) : list Z :=
  match t with
  | Literal byte => output ++ [byte]
  | Match len dist => copy len (length output - Z.to_nat dist) output
  end.
Definition expand (output : list Z) (ts : list Token) : list Z := fold_left expand_one ts output.

(** A token that can be encoded and decoded after this much output. *)
Definition token_ok (n : nat) (t : Token) : Prop :=
  match t with
  | Literal byte => 0 <= byte < 256
  | Match len dist =>
      (MIN_MATCH <= len <= MAX_MATCH)%nat /\ 1 <= dist <= WINDOW_SIZE /\ dist <= Z.of_nat n
  end.

Definition token_len (t : Token) : nat := match t with Literal _ => 1 | Match len _ => len end.

Fixpoint tokens_ok (n : nat) (ts : list Token) : Prop :=
  match ts with
  | [] => True
  | t :: ts => token_ok n t /\ tokens_ok (n + token_len t) ts
  end.

(** ** Matches are true *)

Lemma common_spec n : forall a b, (common n a b <= n)%nat /\
  take (common n a b) a = take (common n a b) b /\ (common n a b <= length a)%nat /\ (common n a b <= length b)%nat.
Proof.
  induction n as [|n IH]; intros a b; [cbn; repeat split; lia|].
  destruct a as [|x a], b as [|y b]; cbn [common]; try (cbn; repeat split; lia).
  destruct (Z.eqb_spec x y) as [->|]; [|cbn; repeat split; lia].
  destruct (IH a b) as (H1 & H2 & H3 & H4). cbn [take length]. rewrite H2. repeat split; lia.
Qed.

(** The positions a finder knows are positions already inserted. *)
Definition finder_ok (f : MatchFinder) : Prop :=
  (forall i p, head f !! i = Some p -> p = NO_POSITION \/ 0 <= p < Z.of_nat (next_insert f)) /\
  (forall i p, prev f !! i = Some p -> p = NO_POSITION \/ 0 <= p < Z.of_nat (next_insert f)).

Lemma slot_ok m i n :
  (forall i p, m !! i = Some p -> p = NO_POSITION \/ 0 <= p < n) ->
  slot m i = NO_POSITION \/ 0 <= slot m i < n.
Proof. intros H. unfold slot. destruct (m !! i) eqn:E; [by eapply H|by left]. Qed.

Lemma insert_one_ok input f : finder_ok f -> finder_ok (insert_one input f) /\ next_insert (insert_one input f) = S (next_insert f).
Proof.
  intros [Hh Hp]. unfold insert_one. destruct (_ <=? _)%nat; cbn [next_insert].
  - split; [|done]. split; cbn [head prev next_insert]; intros i p Hi.
    + apply lookup_insert_Some in Hi as [[_ <-]|[_ Hi]].
      * right. unfold wrap. split; [apply Z.mod_pos_bound; lia|].
        eapply Z.le_lt_trans; [apply Z.mod_le; lia|lia].
      * destruct (Hh _ _ Hi); [by left|right; lia].
    + apply lookup_insert_Some in Hi as [[_ <-]|[_ Hi]].
      * destruct (slot_ok (head f) (hash input (next_insert f)) _ Hh); [by left|right; lia].
      * destruct (Hp _ _ Hi); [by left|right; lia].
  - split; [|done]. split; cbn [head prev next_insert]; intros i p Hi;
      [destruct (Hh _ _ Hi)|destruct (Hp _ _ Hi)]; (by left) || (right; lia).
Qed.

Lemma insert_through_ok input stop f :
  finder_ok f -> (next_insert f <= stop)%nat ->
  finder_ok (insert_through input stop f) /\ next_insert (insert_through input stop f) = stop.
Proof.
  intros Hf Hs. unfold insert_through.
  assert (H : forall n f, finder_ok f -> finder_ok (insert_turns n input f) /\
    next_insert (insert_turns n input f) = (next_insert f + n)%nat).
  { clear. intros n. induction n as [|n IH]; intros f Hf; cbn [insert_turns]; [by rewrite Nat.add_0_r|].
    destruct (insert_one_ok input f Hf) as [H1 H2]. destruct (IH _ H1) as [H3 H4].
    split; [done|]. rewrite H4, H2. lia. }
  destruct (H (stop - next_insert f)%nat f Hf) as [H1 H2]. split; [done|]. rewrite H2. lia.
Qed.

(** A match found: within reach, and the bytes agree. *)
Definition true_match (input : list Z) (pos len : nat) (dist : Z) : Prop :=
  (MIN_MATCH <= len <= MAX_MATCH)%nat /\ (pos + len <= length input)%nat /\
  1 <= dist <= WINDOW_SIZE /\ dist <= Z.of_nat pos /\
  take len (drop (pos - Z.to_nat dist) input) = take len (drop pos input).

Lemma chain_true remaining : forall f input pos max_len candidate best_len best_dist,
  finder_ok f -> (next_insert f <= pos)%nat -> (MIN_MATCH <= max_len <= MAX_MATCH)%nat ->
  (candidate = NO_POSITION \/ 0 <= candidate < Z.of_nat (next_insert f)) ->
  ((best_len < MIN_MATCH)%nat \/ true_match input pos best_len best_dist) ->
  let '(len, dist) := chain remaining f input pos max_len candidate best_len best_dist in
  (len < MIN_MATCH)%nat \/ true_match input pos len dist.
Proof.
  induction remaining as [|remaining IH]; intros f input pos max_len candidate best_len best_dist
    Hf Hn Hm Hc Hb; cbn [chain]; [done|].
  destruct (Z.eqb_spec candidate NO_POSITION) as [|Hne]; [done|].
  destruct Hc as [|Hc]; [done|]. set (start := Z.to_nat candidate).
  assert (Hst : (start < next_insert f)%nat) by (unfold start; lia).
  destruct (Z.ltb_spec WINDOW_SIZE (Z.of_nat pos - Z.of_nat start)) as [|Hw]; [done|].
  pose proof (slot_ok (prev f) (Z.land (Z.of_nat start) (WINDOW_SIZE - 1)) _ (proj2 Hf)) as Hnext.
  destruct (_ =? _); [|by apply IH].
  set (len := common max_len (drop start input) (drop pos input)).
  destruct (Nat.ltb_spec best_len len) as [Hlt|]; [|by apply IH].
  assert (Ht : (len < MIN_MATCH)%nat \/ true_match input pos len (Z.of_nat pos - Z.of_nat start)).
  { destruct (common_spec max_len (drop start input) (drop pos input)) as (H1 & H2 & H3 & H4).
    fold len in H1, H2, H3, H4. rewrite length_drop in H4.
    destruct (decide (len < MIN_MATCH)%nat) as [|Hge]; [by left|]. right. unfold true_match, MIN_MATCH in *.
    split; [lia|]. split; [lia|]. split; [lia|]. split; [lia|].
    by replace (pos - Z.to_nat (Z.of_nat pos - Z.of_nat start))%nat with start by lia. }
  destruct (len =? max_len)%nat; [done|by apply IH].
Qed.

Lemma longest_match_true f input pos :
  finder_ok f -> (next_insert f <= pos)%nat ->
  let '(len, dist) := longest_match f input pos in
  (len < MIN_MATCH)%nat \/ true_match input pos len dist.
Proof.
  intros Hf Hn. unfold longest_match. destruct (Nat.ltb_spec (length input) (pos + MIN_MATCH)) as [|Hl];
    [left; unfold MIN_MATCH; lia|].
  pose proof (chain_true MAX_CHAIN f input pos (Nat.min MAX_MATCH (length input - pos))
    (slot (head f) (hash input pos)) (MIN_MATCH - 1) 0 Hf Hn) as H.
  specialize (H ltac:(unfold MIN_MATCH, MAX_MATCH in *; lia) (slot_ok _ _ _ (proj1 Hf))
    ltac:(left; unfold MIN_MATCH; lia)).
  destruct (chain _ _ _ _ _ _ _ _) as [len dist].
  destruct (Nat.leb_spec MIN_MATCH len); [done|left; unfold MIN_MATCH; lia].
Qed.

(** ** Copying *)

(** Copying a true match extends the output by the bytes it repeats, also when
    the match overlaps its own output. *)
Lemma copy_true n : forall input pos start,
  (start < pos)%nat -> (pos + n <= length input)%nat ->
  take n (drop start input) = take n (drop pos input) ->
  copy n start (take pos input) = take (pos + n) input.
Proof.
  induction n as [|n IH]; intros input pos start Hs Hl He; cbn [copy]; [by rewrite Nat.add_0_r|].
  destruct (lookup_lt_is_Some_2 input start) as [x Hx]; [lia|].
  destruct (lookup_lt_is_Some_2 input pos) as [y Hy]; [lia|].
  rewrite (drop_S _ _ _ Hx), (drop_S _ _ _ Hy) in He. injection He as -> He.
  unfold byte_at. rewrite lookup_take_lt, Hx by done. change (default 0 (Some y)) with y.
  rewrite <- (take_S_r _ _ _ Hy). replace (pos + S n)%nat with (S pos + n)%nat by lia.
  apply IH; [lia|lia|done].
Qed.

Lemma expand_true input pos len dist :
  true_match input pos len dist -> expand_one (take pos input) (Match len dist) = take (pos + len) input.
Proof.
  intros (H1 & H2 & H3 & H4 & H5). cbn [expand_one]. rewrite length_take, Nat.min_l by lia.
  apply copy_true; (done || lia).
Qed.

Lemma expand_literal input pos x :
  input !! pos = Some x -> expand_one (take pos input) (Literal x) = take (S pos) input.
Proof. intros H. cbn [expand_one]. by rewrite <- (take_S_r _ _ _ H). Qed.

Lemma tokens_ok_app a : forall n b,
  tokens_ok n (a ++ b) <-> tokens_ok n a /\ tokens_ok (n + list_sum (map token_len a)) b.
Proof.
  induction a as [|t a IH]; intros n b; cbn [app tokens_ok map].
  - change (list_sum []) with 0%nat. rewrite Nat.add_0_r. tauto.
  - change (list_sum (token_len t :: map token_len a)) with (token_len t + list_sum (map token_len a))%nat.
    rewrite IH, Nat.add_assoc. tauto.
Qed.

End Lz77.
