(* ===== verification/Deflate.v ===== *)
(** * DEFLATE ([rustlavel-http/src/compression/deflate.rs])

    The block layer: the length and distance tables, inflating stored, fixed
    and dynamic blocks, and compressing with the three ways to write a block.
    The main theorem: inflating what [compress] wrote gives the input back. *)

From S2P Require Import Prelude Bits Huffman Lz77.

Module Deflate.
Import Bits Huffman Lz77.

(** ** Tables *)

Definition DEFAULT_MAX_OUTPUT : Z := 256 * 1024 * 1024.
Definition LITLEN_SYMBOLS : nat := 286.
Definition END_OF_BLOCK : nat := 256.
Definition DIST_SYMBOLS : nat := 30.
Definition CODE_LENGTH_SYMBOLS : nat := 19.

Definition LENGTH_BASE : list nat :=
  [3; 4; 5; 6; 7; 8; 9; 10; 11; 13; 15; 17; 19; 23; 27; 31; 35; 43; 51; 59; 67; 83; 99; 115; 131;
   163; 195; 227; 258]%nat.
Definition LENGTH_EXTRA : list nat :=
  [0; 0; 0; 0; 0; 0; 0; 0; 1; 1; 1; 1; 2; 2; 2; 2; 3; 3; 3; 3; 4; 4; 4; 4; 5; 5; 5; 5; 0]%nat.
Definition DIST_BASE : list Z :=
  [1; 2; 3; 4; 5; 7; 9; 13; 17; 25; 33; 49; 65; 97; 129; 193; 257; 385; 513; 769; 1025; 1537;
   2049; 3073; 4097; 6145; 8193; 12289; 16385; 24577].
Definition DIST_EXTRA : list nat :=
  [0; 0; 0; 0; 1; 1; 2; 2; 3; 3; 4; 4; 5; 5; 6; 6; 7; 7; 8; 8; 9; 9; 10; 10; 11; 11; 12; 12; 13; 13]%nat.
Definition CODE_LENGTH_ORDER : list nat :=
  [16; 17; 18; 0; 8; 7; 9; 6; 10; 5; 11; 4; 12; 3; 13; 2; 14; 1; 15]%nat.

(** The walk over the base table that fills [LENGTH_CODE]: the inner loop is
    bounded by the span of a code. *)
Fixpoint fill_code (span length code : nat) (table : list nat) : list nat :=
  match span with
  | O => table
  | S span =>
      if (length <=? MAX_MATCH)%nat then
        fill_code span (S length) code (<[(length - MIN_MATCH)%nat := code]> table)
      else table
  end.

Definition build_length_codes : list nat :=
  fold_left (fun table code => fill_code (2 ^ at_ LENGTH_EXTRA code) (at_ LENGTH_BASE code) code table)
    (seq 0 (length LENGTH_BASE)) (repeat 0%nat (MAX_MATCH - MIN_MATCH + 1)).
Definition LENGTH_CODE : list nat := Eval vm_compute in build_length_codes.

Definition length_code (len : nat) : nat := at_ LENGTH_CODE (len - MIN_MATCH).

(** [partition_point]: how many elements at the front satisfy the test. *)
Fixpoint partition_point (p : Z -> bool) (l : list Z) : nat :=
  match l with
  | x :: l => if p x then S (partition_point p l) else 0
  | [] => 0
  end.

Definition dist_code (dist : Z) : nat := (partition_point (fun base => (base <=? dist)%Z) DIST_BASE - 1)%nat.

Definition fixed_litlen_lengths : list nat :=
  repeat 8%nat 144 ++ repeat 9%nat 112 ++ repeat 7%nat 24 ++ repeat 8%nat 8.
Definition fixed_dist_lengths : list nat := repeat 5%nat 32.

(** ** Inflating *)

(** The bits a reader has left: no loop over the stream takes more rounds. *)
Definition bits_left (r : BitReader) : nat := count r + 8 * (length (data r) - pos r).

Definition inflate_stored (output : list Z) (max_out : Z) (r : BitReader)
    : result InflateError (list Z * BitReader) :=
  let r := align_to_byte r in
  let? (len, r) := read 16 r in
  let? (nlen, r) := read 16 r in
  if negb (len =? Z.land (Z.lnot nlen) 65535) then Err LengthMismatch
  else
    let? (bs, r) := take_bytes (Z.to_nat len) r in
    if max_out <? Z.of_nat (length output) + len then Err OutputTooLarge
    else Ok (output ++ bs, r).

(** [for &symbol in &CODE_LENGTH_ORDER[..hclen]]. *)
Fixpoint read_code_lengths (order code_lengths : list nat) (r : BitReader)
    : result InflateError (list nat * BitReader) :=
  match order with
  | [] => Ok (code_lengths, r)
  | symbol :: order =>
      let? (v, r) := read 3 r in
      read_code_lengths order (<[symbol := Z.to_nat v]> code_lengths) r
  end.

(** [lengths[index..index + repeat].fill(value)]. *)
Definition fill (lengths : list nat) (index n value : nat) : list nat :=
  take index lengths ++ repeat value n ++ drop (index + n) lengths.

(** A symbol of the code-length alphabet: the length it stands for and how
    often. *)
Definition read_run (symbol index : nat) (lengths : list nat) (r : BitReader)
    : result InflateError (nat * nat * BitReader) :=
  if (symbol <=? 15)%nat then Ok (symbol, 1%nat, r)
  else if (symbol =? 16)%nat then
    if (index =? 0)%nat then Err InvalidCodeLengths
    else let? (x, r) := read 2 r in Ok (at_ lengths (index - 1), (3 + Z.to_nat x)%nat, r)
  else if (symbol =? 17)%nat then let? (x, r) := read 3 r in Ok (0%nat, (3 + Z.to_nat x)%nat, r)
  else let? (x, r) := read 7 r in Ok (0%nat, (11 + Z.to_nat x)%nat, r).

(** Every round fills at least one length. *)
Fixpoint read_lengths (fuel : nat) (d : Decoder) (index : nat) (lengths : list nat) (r : BitReader)
    : result InflateError (list nat * BitReader) :=
  if (length lengths <=? index)%nat then Ok (lengths, r)
  else match fuel with
       | O => Err Stuck
       | S fuel =>
           let? (symbol, r) := decode d r in
           let? (value, n, r) := read_run symbol index lengths r in
           if (length lengths <? index + n)%nat then Err InvalidCodeLengths
           else read_lengths fuel d (index + n) (fill lengths index n value) r
       end.

Definition read_dynamic_codes (r : BitReader) : result InflateError (Decoder * Decoder * BitReader) :=
  let? (x, r) := read 5 r in
  let hlit := (Z.to_nat x + 257)%nat in
  let? (x, r) := read 5 r in
  let hdist := (Z.to_nat x + 1)%nat in
  let? (x, r) := read 4 r in
  let hclen := (Z.to_nat x + 4)%nat in
  if (LITLEN_SYMBOLS <? hlit)%nat || (DIST_SYMBOLS <? hdist)%nat then Err InvalidCode
  else
    let? (code_lengths, r) :=
      read_code_lengths (take hclen CODE_LENGTH_ORDER) (repeat 0%nat CODE_LENGTH_SYMBOLS) r in
    let? code_length_decoder := decoder code_lengths in
    let? (lengths, r) :=
      read_lengths (hlit + hdist) code_length_decoder 0 (repeat 0%nat (hlit + hdist)) r in
    if (at_ lengths END_OF_BLOCK =? 0)%nat then Err InvalidCode
    else
      let? litlen := decoder (take hlit lengths) in
      let? dist := decoder (drop hlit lengths) in
      Ok (litlen, dist, r).

(** The body of a fixed or dynamic block. Every round reads at least a bit. *)
Fixpoint inflate_codes (fuel : nat) (litlen dist : Decoder) (max_out : Z) (output : list Z)
    (r : BitReader) : result InflateError (list Z * BitReader) :=
  match fuel with
  | O => Err Stuck
  | S fuel =>
      let? (symbol, r) := decode litlen r in
      if (symbol <? END_OF_BLOCK)%nat then
        if max_out <=? Z.of_nat (length output) then Err OutputTooLarge
        else inflate_codes fuel litlen dist max_out (output ++ [Z.of_nat symbol]) r
      else if (symbol =? END_OF_BLOCK)%nat then Ok (output, r)
      else
        let code := (symbol - 257)%nat in
        if (length LENGTH_BASE <=? code)%nat then Err InvalidCode
        else
          let? (x, r) := read (at_ LENGTH_EXTRA code) r in
          let len := Z.of_nat (at_ LENGTH_BASE code) + x in
          let? (code, r) := decode dist r in
          if (length DIST_BASE <=? code)%nat then Err InvalidCode
          else
            let? (x, r) := read (at_ DIST_EXTRA code) r in
            let distance := atz DIST_BASE code + x in
            if Z.of_nat (length output) <? distance then Err DistanceTooFar
            else if max_out <? Z.of_nat (length output) + len then Err OutputTooLarge
            else
              inflate_codes fuel litlen dist max_out
                (copy (Z.to_nat len) (length output - Z.to_nat distance) output) r
  end.

(** The [match] on a block's type. *)
Definition inflate_block (kind : Z) (max_out : Z) (output : list Z) (r : BitReader)
    : result InflateError (list Z * BitReader) :=
  if kind =? 0 then inflate_stored output max_out r
  else if kind =? 1 then
    let? litlen := decoder fixed_litlen_lengths in
    let? dist := decoder fixed_dist_lengths in
    inflate_codes (S (bits_left r)) litlen dist max_out output r
  else if kind =? 2 then
    let? (litlen, dist, r) := read_dynamic_codes r in
    inflate_codes (S (bits_left r)) litlen dist max_out output r
  else Err InvalidBlockType.

(** The loop of [inflate] over the blocks; each takes at least three bits. *)
Fixpoint inflate_blocks (fuel : nat) (max_out : Z) (output : list Z) (r : BitReader)
    : result InflateError (list Z * BitReader) :=
  match fuel with
  | O => Err Stuck
  | S fuel =>
      let? (final, r) := read_bit r in
      let? (kind, r) := read 2 r in
      let? (output, r) := inflate_block kind max_out output r in
      if final =? 1 then Ok (output, r) else inflate_blocks fuel max_out output r
  end.

Definition inflate (input : list Z) (max_out : Z) : result InflateError (list Z * nat) :=
  let? (output, r) := inflate_blocks (S (8 * length input)) max_out [] (reader input) in
  Ok (output, position (align_to_byte r)).

Definition decompress_with_limit (input : list Z) (max_out : Z) : result InflateError (list Z) :=
  let? (output, consumed) := inflate input max_out in
  if negb (consumed =? length input)%nat then Err TrailingData else Ok output.

Definition decompress (input : list Z) : result InflateError (list Z) :=
  decompress_with_limit input DEFAULT_MAX_OUTPUT.

(** ** Compressing *)

Definition BLOCK_TOKENS : Z := 16 * 1024.
Definition LAZY_MATCH_LIMIT : nat := 32.

Definition bump (i : nat) (freq : list Z) : list Z := alter (Z.add 1) i freq.

(** The symbol counts of a block's tokens and the extra bits they need. A block
    has a little over 2^14 tokens, so the 32-bit counts do not wrap. *)
Definition count_token (acc : list Z * list Z * Z) (t : Token) : list Z * list Z * Z :=
  let '(litlen_freq, dist_freq, extra_bits) := acc in
  match t with
  | Literal byte => (bump (Z.to_nat byte) litlen_freq, dist_freq, extra_bits)
  | Match len dist =>
      let lc := length_code len in
      let dc := dist_code dist in
      (bump (257 + lc) litlen_freq, bump dc dist_freq,
       extra_bits + Z.of_nat (at_ LENGTH_EXTRA lc) + Z.of_nat (at_ DIST_EXTRA dc))
  end.

Definition count_tokens (ts : list Token) : list Z * list Z * Z :=
  let '(litlen_freq, dist_freq, extra_bits) :=
    fold_left count_token ts (repeat 0 LITLEN_SYMBOLS, repeat 0 DIST_SYMBOLS, 0) in
  (bump END_OF_BLOCK litlen_freq, dist_freq, extra_bits).

(** A price: the frequencies times the lengths. *)
Definition priced (freq : list Z) (lengths : list nat) : Z :=
  foldr (fun x acc => x.1 * Z.of_nat x.2 + acc) 0 (zip freq lengths).

(** ** Code lengths on the wire *)

(** [(symbol, extra value, extra bits)]. *)
Definition Item : Type := nat * nat * nat.

(** [while run >= 11]: runs of 11 to 138 zeros. *)
Fixpoint zeros_long (fuel run : nat) : list Item * nat :=
  match fuel with
  | O => ([], run)
  | S fuel =>
      if (11 <=? run)%nat then
        let n := Nat.min run 138 in
        let '(items, run) := zeros_long fuel (run - n) in
        ((18%nat, (n - 11)%nat, 7%nat) :: items, run)
      else ([], run)
  end.

Definition zeros_run (run : nat) : list Item :=
  let '(items, run) := zeros_long run run in
  let '(short_, run) :=
    if (3 <=? run)%nat then ([(17%nat, (run - 3)%nat, 3%nat)], 0%nat) else ([], run) in
  items ++ short_ ++ repeat (0%nat, 0%nat, 0%nat) run.

(** [while run >= 3]: 3 to 6 repeats of the previous length. *)
Fixpoint repeats_long (fuel run : nat) : list Item * nat :=
  match fuel with
  | O => ([], run)
  | S fuel =>
      if (3 <=? run)%nat then
        let n := Nat.min run 6 in
        let '(items, run) := repeats_long fuel (run - n) in
        ((16%nat, (n - 3)%nat, 2%nat) :: items, run)
      else ([], run)
  end.

Definition value_run (value run : nat) : list Item :=
  let '(items, left_) := repeats_long run (run - 1) in
  (value, 0%nat, 0%nat) :: items ++ repeat (value, 0%nat, 0%nat) left_.

(** [take_while(|&&l| l == value).count()]. *)
Fixpoint run_length (value : nat) (l : list nat) : nat :=
  match l with
  | x :: l => if (x =? value)%nat then S (run_length value l) else 0
  | [] => 0
  end.

(** The outer loop over the lengths; each turn takes a run of at least one. *)
Fixpoint sequence_loop (fuel : nat) (all : list nat) : list Item :=
  match fuel, all with
  | S fuel, value :: _ =>
      let run := run_length value all in
      (if (value =? 0)%nat then zeros_run run else value_run value run) ++
      sequence_loop fuel (drop run all)
  | _, _ => []
  end.

(** [iter().rposition(|&l| l != 0).map_or(.., |i| i + 1)]: the length without
    trailing zeros. *)
Fixpoint trimmed (l : list nat) : nat :=
  match l with
  | [] => 0
  | x :: l => let n := trimmed l in if (n =? 0)%nat && (x =? 0)%nat then 0 else S n
  end.

Record DynamicHeader := {
  litlen_lengths : list nat;
  dist_lengths : list nat;
  hlit : nat;
  hdist : nat;
  hclen : nat;
  code_length_lengths : list nat;
  sequence : list Item;
}.

Definition item_symbol (x : Item) : nat := x.1.1.

Definition build_dynamic_header (litlen_freq dist_freq : list Z) : DynamicHeader :=
  let litlen_lengths := build_lengths litlen_freq MAX_BITS in
  let dist_lengths := build_lengths dist_freq MAX_BITS in
  let hlit := Nat.max (trimmed litlen_lengths) 257 in
  let hdist := Nat.max (trimmed dist_lengths) 1 in
  let all := take hlit litlen_lengths ++ take hdist dist_lengths in
  let sequence := sequence_loop (length all) all in
  let code_length_freq :=
    fold_left (fun freq x => bump (item_symbol x) freq) sequence (repeat 0 CODE_LENGTH_SYMBOLS) in
  let code_length_lengths := build_lengths code_length_freq MAX_CODE_LENGTH_BITS in
  let hclen := Nat.max (trimmed (map (at_ code_length_lengths) CODE_LENGTH_ORDER)) 4 in
  {| litlen_lengths := litlen_lengths; dist_lengths := dist_lengths; hlit := hlit; hdist := hdist;
     hclen := hclen; code_length_lengths := code_length_lengths; sequence := sequence |}.

Definition code_at (codes : list Code) (i : nat) : Code := default default_code (codes !! i).

Definition write_item (codes : list Code) (w : BitWriter) (x : Item) : BitWriter :=
  let '(sym, extra_value, extra_bits) := x in
  write (Z.of_nat extra_value) extra_bits (write_code (code_at codes sym) w).

Definition write_dynamic_header (h : DynamicHeader) (w : BitWriter) : BitWriter :=
  let w := write (Z.of_nat (hlit h - 257)) 5 w in
  let w := write (Z.of_nat (hdist h - 1)) 5 w in
  let w := write (Z.of_nat (hclen h - 4)) 4 w in
  let w := fold_left (fun w sym => write (Z.of_nat (at_ (code_length_lengths h) sym)) 3 w)
             (take (hclen h) CODE_LENGTH_ORDER) w in
  let codes := assign_codes (code_length_lengths h) in
  fold_left (write_item codes) (sequence h) w.

(** ** Blocks *)

Definition write_token (litlen dist : list Code) (w : BitWriter) (t : Token) : BitWriter :=
  match t with
  | Literal byte => write_code (code_at litlen (Z.to_nat byte)) w
  | Match len distance =>
      let lc := length_code len in
      let w := write_code (code_at litlen (257 + lc)) w in
      let w := write (Z.of_nat len - Z.of_nat (at_ LENGTH_BASE lc)) (at_ LENGTH_EXTRA lc) w in
      let dc := dist_code distance in
      let w := write_code (code_at dist dc) w in
      write (distance - atz DIST_BASE dc) (at_ DIST_EXTRA dc) w
  end.

Definition write_tokens (ts : list Token) (litlen dist : list Code) (w : BitWriter) : BitWriter :=
  write_code (code_at litlen END_OF_BLOCK) (fold_left (write_token litlen dist) ts w).

Definition bit (b : bool) : Z := if b then 1 else 0.

Definition write_stored_chunk (chunk : list Z) (is_final : bool) (w : BitWriter) : BitWriter :=
  let w := write (bit is_final) 1 w in
  let w := write 0 2 w in
  let w := align_writer w in
  let len := u32 (Z.of_nat (length chunk)) in
  let w := write len 16 w in
  let w := write (Z.land (Z.lnot len) 65535) 16 w in
  write_bytes chunk w.

Definition STORED_MAX : Z := 65535.

Fixpoint write_chunks (cs : list (list Z)) (is_final : bool) (w : BitWriter) : BitWriter :=
  match cs with
  | [] => w
  | [c] => write_stored_chunk c is_final w
  | c :: cs => write_chunks cs is_final (write_stored_chunk c false w)
  end.

Definition write_stored (raw : list Z) (is_final : bool) (w : BitWriter) : BitWriter :=
  match chunks (Z.to_nat STORED_MAX) raw with
  | [] => write_stored_chunk [] is_final w
  | cs => write_chunks cs is_final w
  end.

Definition write_block (raw : list Z) (ts : list Token) (is_final : bool) (w : BitWriter) : BitWriter :=
  let '(litlen_freq, dist_freq, extra_bits) := count_tokens ts in
  let raw_len := Z.of_nat (length raw) in
  let stored_bits := 3 + 7 + Z.max ((raw_len + STORED_MAX - 1) / STORED_MAX) 1 * 32 + raw_len * 8 in
  let fixed_bits := 3 + extra_bits + priced litlen_freq fixed_litlen_lengths +
    foldr (fun f acc => f * 5 + acc) 0 dist_freq in
  let dynamic := build_dynamic_header litlen_freq dist_freq in
  let dynamic_bits := 3 + 14 + Z.of_nat (hclen dynamic) * 3 +
    foldr (fun x acc => Z.of_nat (at_ (code_length_lengths dynamic) (item_symbol x)) +
                        Z.of_nat x.2 + acc) 0 (sequence dynamic) +
    extra_bits + priced litlen_freq (litlen_lengths dynamic) + priced dist_freq (dist_lengths dynamic) in
  if (stored_bits <=? fixed_bits) && (stored_bits <=? dynamic_bits) then write_stored raw is_final w
  else if fixed_bits <=? dynamic_bits then
    let w := write (bit is_final) 1 w in
    let w := write 1 2 w in
    write_tokens ts (assign_codes fixed_litlen_lengths) (assign_codes fixed_dist_lengths) w
  else
    let w := write (bit is_final) 1 w in
    let w := write 2 2 w in
    let w := write_dynamic_header dynamic w in
    write_tokens ts (assign_codes (litlen_lengths dynamic)) (assign_codes (dist_lengths dynamic)) w.

(** ** The main loop *)

Record Compressor := {
  c_writer : BitWriter;
  c_finder : MatchFinder;
  c_tokens : list Token;
  c_start : nat;
  c_pos : nat;
  c_current : nat * Z;
}.

(** The byte or the match at the current position goes out. *)
Definition take_token (input : list Z) (s : Compressor) (f : MatchFinder) : Compressor :=
  let '(len, dist) := c_current s in
  let '(t, p) :=
    if (MIN_MATCH <=? len)%nat then (Match len dist, (c_pos s + len)%nat)
    else (Literal (byte_at input (c_pos s)), S (c_pos s)) in
  let f := insert_through input p f in
  let current := if (p <? length input)%nat then longest_match f input p else c_current s in
  let ts := c_tokens s ++ [t] in
  if (BLOCK_TOKENS <=? Z.of_nat (length ts)) && (p <? length input)%nat then
    {| c_writer := write_block (take (p - c_start s) (drop (c_start s) input)) ts false (c_writer s);
       c_finder := f; c_tokens := []; c_start := p; c_pos := p; c_current := current |}
  else
    {| c_writer := c_writer s; c_finder := f; c_tokens := ts; c_start := c_start s; c_pos := p;
       c_current := current |}.

(** One turn: a short match is deferred when the next position has a longer
    one. *)
Definition compress_step (input : list Z) (s : Compressor) : Compressor :=
  let '(len, _) := c_current s in
  if (MIN_MATCH <=? len)%nat && (len <? LAZY_MATCH_LIMIT)%nat && (S (c_pos s) <? length input)%nat then
    let f := insert_through input (S (c_pos s)) (c_finder s) in
    let next := longest_match f input (S (c_pos s)) in
    if (len <? next.1)%nat then
      {| c_writer := c_writer s; c_finder := f;
         c_tokens := c_tokens s ++ [Literal (byte_at input (c_pos s))];
         c_start := c_start s; c_pos := S (c_pos s); c_current := next |}
    else take_token input s f
  else take_token input s (c_finder s).

(** Every turn advances, so the input's length bounds the turns. *)
Fixpoint compress_loop (fuel : nat) (input : list Z) (s : Compressor) : Compressor :=
  match fuel with
  | O => s
  | S fuel =>
      if (c_pos s <? length input)%nat then compress_loop fuel input (compress_step input s) else s
  end.

Definition compress (input : list Z) : list Z :=
  let s := compress_loop (length input) input
    {| c_writer := writer; c_finder := finder; c_tokens := []; c_start := 0; c_pos := 0;
       c_current := longest_match finder input 0 |} in
  finish (write_block (drop (c_start s) input) (c_tokens s) true (c_writer s)).

(** The stream zlib writes for a few bytes, and a run that compresses. *)
Example compress_runs :
  compress (lit "a") = [75; 4; 0] /\ decompress [75; 4; 0] = Ok (lit "a") /\
  decompress (compress (repeat 97 40)) = Ok (repeat 97 40).
Proof. split_and!; vm_compute; reflexivity. Qed.

(** ** The tables cover every length and distance *)

Lemma length_code_ok len :
  (MIN_MATCH <= len <= MAX_MATCH)%nat ->
  let lc := length_code len in
  (lc < length LENGTH_BASE)%nat /\
  0 <= Z.of_nat len - Z.of_nat (at_ LENGTH_BASE lc) < 2 ^ Z.of_nat (at_ LENGTH_EXTRA lc).
Proof.
  intros Hl.
  assert (H := forall_below 259 (fun z => let len := Z.to_nat z in let lc := length_code len in
    (z <? 3) || ((lc <? length LENGTH_BASE)%nat &&
      (0 <=? Z.of_nat len - Z.of_nat (at_ LENGTH_BASE lc)) &&
      (Z.of_nat len - Z.of_nat (at_ LENGTH_BASE lc) <? 2 ^ Z.of_nat (at_ LENGTH_EXTRA lc))))
    ltac:(vm_compute; reflexivity) (Z.of_nat len)).
  unfold MIN_MATCH, MAX_MATCH in Hl. specialize (H ltac:(lia)). cbv beta zeta in H. rewrite Nat2Z.id in H.
  cbv zeta. destruct (Z.ltb_spec (Z.of_nat len) 3); [lia|]. cbn [orb] in H.
  rewrite !andb_true_iff, Nat.ltb_lt, Z.leb_le, Z.ltb_lt in H. lia.
Qed.

Lemma partition_point_spec p l :
  let k := partition_point p l in
  (k <= length l)%nat /\ (forall i x, (i < k)%nat -> l !! i = Some x -> p x = true) /\
  (forall x, l !! k = Some x -> p x = false).
Proof.
  induction l as [|y l IH]; cbn [partition_point length];
    [split_and!; [lia|intros; lia|done]|].
  destruct (p y) eqn:Hy; [|split_and!; [lia|intros; lia|by intros x [= <-]]].
  destruct IH as (H1 & H2 & H3). split_and!; [lia| |exact H3].
  intros [|i] x Hi Hx; [by injection Hx as <-|]. apply (H2 i); [lia|done].
Qed.

(** Each distance code covers the gap to the next one. *)
Lemma dist_gaps dc :
  (dc < 30)%nat ->
  atz (DIST_BASE ++ [WINDOW_SIZE + 1]) (S dc) - atz DIST_BASE dc = 2 ^ Z.of_nat (at_ DIST_EXTRA dc).
Proof.
  intros Hdc. assert (H : forallb (fun dc => atz (DIST_BASE ++ [WINDOW_SIZE + 1]) (S dc) -
    atz DIST_BASE dc =? 2 ^ Z.of_nat (at_ DIST_EXTRA dc)) (seq 0 30) = true) by (vm_compute; reflexivity).
  rewrite forallb_forall in H. apply Z.eqb_eq, H, in_seq. lia.
Qed.

Lemma dist_code_ok dist :
  1 <= dist <= WINDOW_SIZE ->
  let dc := dist_code dist in
  (dc < length DIST_BASE)%nat /\ 0 <= dist - atz DIST_BASE dc < 2 ^ Z.of_nat (at_ DIST_EXTRA dc).
Proof.
  intros Hd. unfold dist_code. destruct (partition_point_spec (fun base => base <=? dist) DIST_BASE)
    as (H1 & H2 & H3). set (k := partition_point _ _) in *.
  change (length DIST_BASE) with 30%nat in *.
  assert (Hk : (0 < k)%nat).
  { destruct k as [|k']; [|lia]. specialize (H3 1 eq_refl). cbv beta in H3. lia. }
  cbv zeta. split; [lia|]. rewrite <- dist_gaps by lia. replace (S (k - 1)) with k by lia.
  destruct (lookup_lt_is_Some_2 DIST_BASE (k - 1)) as [x Hx]; [change (length DIST_BASE) with 30%nat; lia|].
  specialize (H2 (k - 1)%nat x ltac:(lia) Hx). cbv beta in H2.
  assert (Hax : atz DIST_BASE (k - 1) = x) by (unfold atz; by rewrite Hx). rewrite Hax.
  split; [lia|]. apply Z.sub_lt_mono_r. destruct (decide (k = 30%nat)) as [E|Hne].
  - rewrite E. change (atz _ 30) with (WINDOW_SIZE + 1). lia.
  - destruct (lookup_lt_is_Some_2 DIST_BASE k) as [y Hy]; [change (length DIST_BASE) with 30%nat; lia|].
    unfold atz. rewrite lookup_app_l by (change (length DIST_BASE) with 30%nat; lia). rewrite Hy.
    specialize (H3 y Hy). cbv beta in H3. change (default 0 (Some y)) with y. lia.
Qed.

(** ** Symbols on the wire *)

(** The code written for [s] is read back as [s]. *)
Definition sends (codes : list Code) (d : Decoder) (s : nat) : Prop :=
  exists bs, emits (write_code (code_at codes s)) bs /\ reads (decode d) bs s /\ bs <> [].

Lemma cnt_zeros l k : cnt (S l) (repeat 0%nat k) = 0%nat.
Proof. induction k; [done|]. cbn. done. Qed.

Lemma code_counts_zeros ls k : code_counts (ls ++ repeat 0%nat k) = code_counts ls.
Proof.
  unfold code_counts. apply map_ext_in. intros l Hl. apply in_seq in Hl.
  destruct l as [|l]; [lia|]. rewrite cnt_app, cnt_zeros. lia.
Qed.

Lemma code_of_zeros ls k s : (s < length ls)%nat -> code_of (ls ++ repeat 0%nat k) s = code_of ls s.
Proof.
  intros Hs. unfold code_of. rewrite code_counts_zeros. unfold at_.
  rewrite lookup_app_l by done. by rewrite take_app_le by lia.
Qed.

(** The writer knows all lengths, the reader only those without the unused
    symbols at the end. *)
Lemma codes_ok_sends ls k d s :
  codes_ok ls -> decoder ls = Ok d -> (0 < at_ ls s)%nat ->
  sends (assign_codes (ls ++ repeat 0%nat k)) d s.
Proof.
  intros Hok Hd Hs. destruct (ls !! s) as [l|] eqn:El; [|by unfold at_ in Hs; rewrite El in Hs; cbn in Hs; lia].
  rewrite (at_lookup _ _ _ El) in Hs. pose proof (lookup_lt_Some _ _ _ El) as Hlen.
  destruct (codes_ok_decoder ls Hok) as (d' & rest & _ & Hk). destruct Hok as [Hshort _].
  assert (Hl : (l <= MAX_BITS)%nat) by (unfold short in Hshort; eapply Forall_lookup_1 in Hshort; done).
  set (full := ls ++ repeat 0%nat k).
  assert (El' : full !! s = Some l) by (unfold full; by rewrite lookup_app_l).
  assert (Hk' : kraft 1 (code_counts full) = Ok rest) by (unfold full; by rewrite code_counts_zeros).
  assert (Hshort' : short full).
  { apply Forall_app. split; [done|]. apply Forall_forall. intros x Hx%repeat_spec. unfold MAX_BITS. lia. }
  destruct (code_for_bits full rest s l Hk' El' ltac:(lia)) as [Hb Hr].
  exists (msb l (code_of ls s)). unfold code_at.
  rewrite (assign_codes_at full rest s l Hshort' Hk' El' Hs). cbn [default]. split; [|split].
  - unfold full in Hb at 3. rewrite code_of_zeros in Hb by done. rewrite <- Hb. by apply emits_write.
  - by eapply decoder_reads.
  - destruct l as [|l]; [lia|]. by rewrite msb_S.
Qed.

(** ** Tokens on the wire *)

Section Tokens.
Context (litlen dist : list Code) (dl dd : Decoder).

(** The symbols a token uses have codes. *)
Definition token_sends (t : Token) : Prop :=
  match t with
  | Literal byte => sends litlen dl (Z.to_nat byte)
  | Match len distance => sends litlen dl (257 + length_code len) /\ sends dist dd (dist_code distance)
  end.

(** Reading goes on after [bs] with the token expanded. *)
Definition token_reads (bs : list bool) (t : Token) : Prop :=
  forall fuel max_out output r rest,
    wf r -> rest_bits r = bs ++ rest -> token_ok (length output) t ->
    Z.of_nat (length output + token_len t) <= max_out ->
    exists r', wf r' /\ rest_bits r' = rest /\ data r' = data r /\
      inflate_codes (S fuel) dl dd max_out output r =
      inflate_codes fuel dl dd max_out (expand_one output t) r'.

Lemma literal_reads byte :
  0 <= byte < 256 -> sends litlen dl (Z.to_nat byte) ->
  exists bs, bs <> [] /\ emits (fun w => write_token litlen dist w (Literal byte)) bs /\
    token_reads bs (Literal byte).
Proof.
  intros Hb (bs & He & Hr & Hne). exists bs. split; [done|]. split; [done|].
  intros fuel max_out output r rest Hw Hrest _ Hmax. destruct (Hr r rest Hw Hrest) as (r' & Hd & Hw' & Hr' & Hdat).
  exists r'. split_and!; try done. cbn [inflate_codes]. rewrite Hd. cbn [token_len] in Hmax.
  rewrite (proj2 (Nat.ltb_lt _ _)) by (unfold END_OF_BLOCK; lia).
  rewrite (proj2 (Z.leb_gt _ _)) by lia. by rewrite Z2Nat.id by lia.
Qed.

Lemma match_reads len distance :
  (MIN_MATCH <= len <= MAX_MATCH)%nat -> 1 <= distance <= WINDOW_SIZE ->
  token_sends (Match len distance) ->
  exists bs, bs <> [] /\ emits (fun w => write_token litlen dist w (Match len distance)) bs /\
    token_reads bs (Match len distance).
Proof.
  intros Hl Hd [(b1 & He1 & Hr1 & Hne1) (b3 & He3 & Hr3 & _)].
  destruct (length_code_ok len Hl) as [Hlc Hlx]. destruct (dist_code_ok distance Hd) as [Hdc Hdx].
  set (lc := length_code len) in *. set (dc := dist_code distance) in *.
  set (lx := Z.of_nat len - Z.of_nat (at_ LENGTH_BASE lc)) in *.
  set (dx := distance - atz DIST_BASE dc) in *.
  exists (((b1 ++ bits_of (at_ LENGTH_EXTRA lc) lx) ++ b3) ++ bits_of (at_ DIST_EXTRA dc) dx).
  split; [by destruct b1|]. split.
  - cbn [write_token]. fold lc dc lx dx.
    apply (emits_comp (fun w => write_code (code_at dist dc) (write lx (at_ LENGTH_EXTRA lc)
      (write_code (code_at litlen (257 + lc)) w))) (write dx (at_ DIST_EXTRA dc)));
      [|by apply emits_write].
    apply (emits_comp (fun w => write lx (at_ LENGTH_EXTRA lc)
      (write_code (code_at litlen (257 + lc)) w)) (write_code (code_at dist dc))); [|done].
    apply (emits_comp (write_code (code_at litlen (257 + lc))) (write lx (at_ LENGTH_EXTRA lc)));
      [done|by apply emits_write].
  - intros fuel max_out output r rest Hw Hrest (_ & _ & Hdist) Hmax. cbn [token_len] in Hmax.
    rewrite <- !app_assoc in Hrest.
    destruct (Hr1 r _ Hw Hrest) as (r1 & E1 & Hw1 & Hs1 & Hd1).
    destruct (reads_read _ _ Hlx r1 _ Hw1 Hs1) as (r2 & E2 & Hw2 & Hs2 & Hd2).
    destruct (Hr3 r2 _ Hw2 Hs2) as (r3 & E3 & Hw3 & Hs3 & Hd3).
    destruct (reads_read _ _ Hdx r3 _ Hw3 Hs3) as (r4 & E4 & Hw4 & Hs4 & Hd4).
    exists r4. split_and!; [done|done|congruence|]. cbn [inflate_codes]. rewrite E1.
    rewrite (proj2 (Nat.ltb_ge _ _)) by (unfold END_OF_BLOCK; lia).
    rewrite (proj2 (Nat.eqb_neq _ _)) by (unfold END_OF_BLOCK; lia).
    replace (257 + lc - 257)%nat with lc by lia. rewrite (proj2 (Nat.leb_gt _ _)) by done.
    rewrite E2, E3, (proj2 (Nat.leb_gt _ _)) by done. rewrite E4.
    replace (atz DIST_BASE dc + dx) with distance by (unfold dx; lia).
    replace (Z.of_nat (at_ LENGTH_BASE lc) + lx) with (Z.of_nat len) by (unfold lx; lia).
    rewrite (proj2 (Z.ltb_ge _ _)) by lia. rewrite (proj2 (Z.ltb_ge _ _)) by lia.
    by rewrite Nat2Z.id.
Qed.

Lemma token_roundtrip n t :
  token_ok n t -> token_sends t ->
  exists bs, bs <> [] /\ emits (fun w => write_token litlen dist w t) bs /\ token_reads bs t.
Proof.
  destruct t as [byte|len distance]; [apply literal_reads|]. intros (H1 & H2 & _) H3. by apply match_reads.
Qed.

Lemma copy_length n : forall start l, length (copy n start l) = (length l + n)%nat.
Proof.
  induction n as [|n IH]; intros start l; cbn [copy]; [lia|].
  rewrite IH, length_app. cbn. lia.
Qed.

Lemma expand_one_length output t : length (expand_one output t) = (length output + token_len t)%nat.
Proof. destruct t; cbn [expand_one token_len]; [by rewrite length_app|apply copy_length]. Qed.

Lemma expand_length ts : forall output, (length output <= length (expand output ts))%nat.
Proof.
  induction ts as [|t ts IH]; intros output; [done|]. change (expand output (t :: ts)) with (expand (expand_one output t) ts).
  specialize (IH (expand_one output t)). rewrite expand_one_length in IH. lia.
Qed.

(** The tokens of a block and its end, written and read. *)
Lemma tokens_roundtrip ts : forall n,
  tokens_ok n ts -> Forall token_sends ts -> sends litlen dl END_OF_BLOCK ->
  exists bs, emits (write_tokens ts litlen dist) bs /\ (length ts < length bs)%nat /\
    forall fuel max_out output r rest,
      wf r -> rest_bits r = bs ++ rest -> length output = n -> (length ts < fuel)%nat ->
      Z.of_nat (length (expand output ts)) <= max_out ->
      exists r', wf r' /\ rest_bits r' = rest /\ data r' = data r /\
        inflate_codes fuel dl dd max_out output r = Ok (expand output ts, r').
Proof.
  induction ts as [|t ts IH]; intros n Hok Hs Hend.
  - destruct Hend as (bs & He & Hr & Hne). exists bs. split; [done|]. split; [by destruct bs; cbn; [|lia]|].
    intros fuel max_out output r rest Hw Hrest _ Hfuel _.
    destruct (Hr r rest Hw Hrest) as (r' & Hd & Hw' & Hr' & Hdat). exists r'. split_and!; try done.
    destruct fuel as [|fuel]; [cbn in Hfuel; lia|]. cbn [inflate_codes]. by rewrite Hd.
  - cbn [tokens_ok] in Hok. destruct Hok as [Ht Hts]. rewrite Forall_cons_iff in Hs. destruct Hs as [Hst Hs].
    destruct (token_roundtrip n t Ht Hst) as (b1 & Hne & He1 & Hr1).
    destruct (IH _ Hts Hs Hend) as (b2 & He2 & Hlen & Hr2). exists (b1 ++ b2). split; [|split].
    + apply (emits_comp (fun w => write_token litlen dist w t) (write_tokens ts litlen dist) _ _ He1 He2).
    + rewrite length_app. cbn [length]. destruct b1; [done|cbn; lia].
    + intros fuel max_out output r rest Hw Hrest Hn Hfuel Hmax. rewrite <- app_assoc in Hrest.
      destruct fuel as [|fuel]; [lia|]. cbn [length] in Hfuel.
      change (expand output (t :: ts)) with (expand (expand_one output t) ts) in *.
      pose proof (expand_length ts (expand_one output t)) as Hexp. rewrite expand_one_length in Hexp.
      destruct (Hr1 fuel max_out output r _ Hw Hrest) as (r1 & Hw1 & Hs1 & Hd1 & ->);
        [by rewrite Hn|lia|].
      destruct (Hr2 fuel max_out (expand_one output t) r1 rest Hw1 Hs1) as (r2 & Hw2 & Hs2 & Hd2 & ->);
        [by rewrite expand_one_length, Hn|lia|done|]. exists r2. split_and!; (done || congruence).
Qed.

End Tokens.

(** ** Runs of code lengths *)

Definition last_of (acc : list nat) : nat := at_ acc (length acc - 1).

(** What an item adds to the lengths so far, and when it may be used. *)
Definition item_run (acc : list nat) (x : Item) : nat * nat :=
  let '(sym, v, _) := x in
  if (sym <=? 15)%nat then (sym, 1%nat)
  else if (sym =? 16)%nat then (last_of acc, (3 + v)%nat)
  else if (sym =? 17)%nat then (0%nat, (3 + v)%nat)
  else (0%nat, (11 + v)%nat).

Definition item_expand (acc : list nat) (x : Item) : list nat :=
  let '(value, n) := item_run acc x in acc ++ repeat value n.

Definition item_ok (acc : list nat) (x : Item) : Prop :=
  let '(sym, v, b) := x in
  ((sym <= 15)%nat /\ v = 0%nat /\ b = 0%nat) \/
  (sym = 16%nat /\ (v < 4)%nat /\ b = 2%nat /\ acc <> []) \/
  (sym = 17%nat /\ (v < 8)%nat /\ b = 3%nat) \/
  (sym = 18%nat /\ (v < 128)%nat /\ b = 7%nat).

Fixpoint items_ok (acc : list nat) (xs : list Item) : Prop :=
  match xs with
  | [] => True
  | x :: xs => item_ok acc x /\ items_ok (item_expand acc x) xs
  end.

Definition items_expand (acc : list nat) (xs : list Item) : list nat := fold_left item_expand xs acc.

(** These items, after these lengths, spell this continuation. *)
Definition spells_run (xs : list Item) (acc more : list nat) : Prop :=
  items_ok acc xs /\ items_expand acc xs = acc ++ more.

Lemma spells_nil acc : spells_run [] acc [].
Proof. split; [done|]. by rewrite app_nil_r. Qed.

Lemma spells_app xs ys acc a b :
  spells_run xs acc a -> spells_run ys (acc ++ a) b -> spells_run (xs ++ ys) acc (a ++ b).
Proof.
  intros [H1 H2] [H3 H4]. split.
  - clear H4. rewrite <- H2 in H3. clear H2. revert acc H1 H3.
    induction xs as [|x xs IH]; intros acc H1 H3; [done|]. cbn [app items_ok] in *.
    split; [tauto|]. apply IH; [tauto|done].
  - unfold items_expand in *. by rewrite fold_left_app, H2, H4, app_assoc.
Qed.

Lemma spells_one x acc value n :
  item_ok acc x -> item_run acc x = (value, n) -> spells_run [x] acc (repeat value n).
Proof.
  intros Hx He. split; [done|]. unfold items_expand. cbn [fold_left]. unfold item_expand. by rewrite He.
Qed.

Lemma spells_literals n : forall value acc,
  (value <= 15)%nat -> spells_run (repeat (value, 0%nat, 0%nat) n) acc (repeat value n).
Proof.
  induction n as [|n IH]; intros value acc Hv; [apply spells_nil|].
  apply (spells_app [(value, 0%nat, 0%nat)] (repeat (value, 0%nat, 0%nat) n) acc [value] (repeat value n)); [|by apply IH].
  apply (spells_one _ _ value 1); [left; lia|]. cbn. by rewrite (proj2 (Nat.leb_le _ _)).
Qed.

Lemma repeat_split {A} (x : A) n m : (m <= n)%nat -> repeat x n = repeat x m ++ repeat x (n - m).
Proof. intros H. rewrite <- repeat_app. f_equal. lia. Qed.

Lemma zeros_long_spells fuel : forall run acc,
  (run <= fuel)%nat ->
  let '(xs, run') := zeros_long fuel run in
  (run' <= run)%nat /\ spells_run xs acc (repeat 0%nat (run - run')).
Proof.
  induction fuel as [|fuel IH]; intros run acc Hf; cbn [zeros_long].
  { split; [done|]. rewrite Nat.sub_diag. apply spells_nil. }
  destruct (Nat.leb_spec 11 run) as [H11|]; [|split; [done|]; rewrite Nat.sub_diag; apply spells_nil].
  set (n := Nat.min run 138). specialize (IH (run - n)%nat (acc ++ repeat 0%nat n) ltac:(lia)).
  destruct (zeros_long fuel (run - n)) as [xs run']. destruct IH as [H1 H2]. split; [lia|].
  rewrite (repeat_split _ (run - run') n) by lia.
  replace (run - run' - n)%nat with (run - n - run')%nat by lia.
  apply (spells_app [(18%nat, (n - 11)%nat, 7%nat)] xs acc (repeat 0%nat n)); [|done].
  apply (spells_one _ _ 0 n); [|cbn; f_equal; lia]. right; right; right. lia.
Qed.

Lemma zeros_run_spells run acc : spells_run (zeros_run run) acc (repeat 0%nat run).
Proof.
  unfold zeros_run. pose proof (zeros_long_spells run run acc ltac:(lia)) as H.
  destruct (zeros_long run run) as [xs run'] eqn:E. destruct H as [Hle H].
  assert (Hs : (run' < 11)%nat).
  { clear -E. assert (G : forall fuel run xs run', (run <= fuel)%nat -> zeros_long fuel run = (xs, run') -> (run' < 11)%nat).
    { intros fuel. induction fuel as [|fuel IH]; intros r ys r' Hr; cbn [zeros_long]; [intros [= _ <-]; lia|].
      destruct (Nat.leb_spec 11 r); [|intros [= _ <-]; lia].
      destruct (zeros_long fuel (r - Nat.min r 138)) as [zs r1] eqn:E1. intros [= _ <-].
      eapply IH; [|exact E1]. lia. }
    eapply G; [|exact E]. lia. }
  rewrite (repeat_split _ run (run - run')) by lia.
  replace (run - (run - run'))%nat with run' by lia.
  destruct (Nat.leb_spec 3 run'); (apply spells_app; [done|]); [|apply spells_literals; lia].
  apply (spells_one _ _ 0 run'); [|cbn; f_equal; lia]. right; right; left. lia.
Qed.

Lemma last_of_repeat acc value n : (0 < n)%nat -> last_of (acc ++ repeat value n) = value.
Proof.
  intros Hn. unfold last_of, at_. rewrite length_app, repeat_length, lookup_app_r by lia.
  destruct (repeat value n !! _) as [x|] eqn:E.
  - by apply list_elem_of_lookup_2, list_elem_of_In, repeat_spec in E.
  - apply lookup_ge_None in E. rewrite repeat_length in E. lia.
Qed.

Lemma repeats_long_spells fuel : forall run acc value k,
  (run <= fuel)%nat -> (0 < k)%nat ->
  let '(xs, run') := repeats_long fuel run in
  (run' <= run)%nat /\ spells_run xs (acc ++ repeat value k) (repeat value (run - run')).
Proof.
  induction fuel as [|fuel IH]; intros run acc value k Hf Hk; cbn [repeats_long].
  { split; [done|]. rewrite Nat.sub_diag. apply spells_nil. }
  destruct (Nat.leb_spec 3 run) as [H3|]; [|split; [done|]; rewrite Nat.sub_diag; apply spells_nil].
  set (n := Nat.min run 6). specialize (IH (run - n)%nat acc value (k + n)%nat ltac:(lia) ltac:(lia)).
  destruct (repeats_long fuel (run - n)) as [xs run']. destruct IH as [H1 H2]. split; [lia|].
  rewrite (repeat_split _ (run - run') n) by lia.
  replace (run - run' - n)%nat with (run - n - run')%nat by lia.
  rewrite repeat_app, app_assoc in H2.
  apply (spells_app [(16%nat, (n - 3)%nat, 2%nat)] xs _ (repeat value n)); [|done].
  apply (spells_one _ _ value n); [|cbn; rewrite last_of_repeat by done; f_equal; lia].
  right; left. split; [done|]. split; [lia|]. split; [done|].
  destruct k; [lia|]. by destruct acc.
Qed.

Lemma value_run_spells value run acc :
  (0 < value <= 15)%nat -> (0 < run)%nat -> spells_run (value_run value run) acc (repeat value run).
Proof.
  intros Hv Hr. unfold value_run.
  pose proof (repeats_long_spells run (run - 1) acc value 1 ltac:(lia) ltac:(lia)) as H.
  destruct (repeats_long run (run - 1)) as [xs run']. destruct H as [Hle H].
  rewrite (repeat_split _ run 1) by lia.
  apply (spells_app [(value, 0%nat, 0%nat)] _ acc (repeat value 1)); [apply (spells_literals 1); lia|].
  rewrite (repeat_split _ (run - 1) (run - 1 - run')) by lia.
  apply spells_app; [done|]. replace (run - 1 - (run - 1 - run'))%nat with run' by lia.
  apply spells_literals. lia.
Qed.

Lemma run_length_take value l : take (run_length value l) l = repeat value (run_length value l).
Proof.
  induction l as [|x l IH]; [done|]. cbn [run_length]. destruct (Nat.eqb_spec x value) as [->|]; [|done].
  cbn [take repeat]. by rewrite IH.
Qed.

Lemma sequence_loop_spells fuel : forall all acc,
  (length all <= fuel)%nat -> short all -> spells_run (sequence_loop fuel all) acc all.
Proof.
  induction fuel as [|fuel IH]; intros all acc Hf Hs; [destruct all; [apply spells_nil|cbn in Hf; lia]|].
  destruct all as [|value all']; [apply spells_nil|]. cbn [sequence_loop]. set (all := value :: all') in *.
  assert (Hrun : (0 < run_length value all)%nat) by (unfold all; cbn; rewrite Nat.eqb_refl; lia).
  assert (E : repeat value (run_length value all) ++ drop (run_length value all) all = all)
    by by rewrite <- run_length_take, take_drop.
  refine (eq_ind _ (spells_run _ acc) _ _ E). apply spells_app.
  - destruct (Nat.eqb_spec value 0) as [->|]; [apply zeros_run_spells|].
    apply value_run_spells; [|done]. unfold short, all in Hs. rewrite Forall_cons_iff in Hs.
    unfold MAX_BITS in Hs. lia.
  - apply IH; [rewrite length_drop; lia|by apply Forall_drop].
Qed.

(** ** Reading the lengths back *)

Lemma fill_end acc k n value :
  (n <= k)%nat -> fill (acc ++ repeat 0%nat k) (length acc) n value = (acc ++ repeat value n) ++ repeat 0%nat (k - n).
Proof.
  intros H. unfold fill. rewrite take_app_le, take_ge by lia.
  rewrite drop_app_ge by lia. replace (length acc + n - length acc)%nat with n by lia.
  rewrite (repeat_split _ k n H), drop_app_ge by (rewrite repeat_length; lia).
  rewrite repeat_length, Nat.sub_diag, drop_0. by rewrite app_assoc.
Qed.

Lemma emits_nat v n : (v < 2 ^ n)%nat -> emits (write (Z.of_nat v) n) (bits_of n (Z.of_nat v)).
Proof. intros H. apply emits_write. split; [lia|]. rewrite <- (Nat2Z.inj_pow 2). lia. Qed.

Lemma reads_nat v n : (v < 2 ^ n)%nat -> reads (read n) (bits_of n (Z.of_nat v)) (Z.of_nat v).
Proof. intros H. apply reads_read. split; [lia|]. rewrite <- (Nat2Z.inj_pow 2). lia. Qed.

Lemma at_app_l a b i : (i < length a)%nat -> at_ (a ++ b) i = at_ a i.
Proof. intros H. unfold at_. by rewrite lookup_app_l. Qed.

(** The extra bits of an item give its run. *)
Lemma read_run_item acc k x :
  item_ok acc x ->
  reads (read_run (item_symbol x) (length acc) (acc ++ repeat 0%nat k))
    (bits_of x.2 (Z.of_nat x.1.2)) (item_run acc x) /\
  emits (write (Z.of_nat x.1.2) x.2) (bits_of x.2 (Z.of_nat x.1.2)) /\ (0 < (item_run acc x).2)%nat.
Proof.
  destruct x as [[sym v] b]. unfold item_symbol, read_run, item_run. cbn [fst snd].
  assert (Hx : forall n value base : nat, (v < 2 ^ n)%nat ->
    reads (fun r => let? (x, r) := read n r in Ok (value, (base + Z.to_nat x)%nat, r))
      (bits_of n (Z.of_nat v)) (value, (base + v)%nat)).
  { intros n value base Hv. rewrite <- (app_nil_r (bits_of n (Z.of_nat v))).
    apply (reads_bind (read n) (fun x r => Ok (value, (base + Z.to_nat x)%nat, r)) _ [] (Z.of_nat v));
      [by apply reads_nat|].
    rewrite Nat2Z.id. apply reads_ret. }
  intros [(H1 & -> & ->)|[(-> & Hv & -> & Hne)|[(-> & Hv & ->)|(-> & Hv & ->)]]].
  - rewrite (proj2 (Nat.leb_le _ _)) by done. split; [apply reads_ret|]. split; [|cbn; lia].
    apply emits_nat; cbn; lia.
  - cbn [Nat.leb Nat.eqb]. destruct acc as [|a acc]; [done|]. set (l := a :: acc) in *.
    rewrite (proj2 (Nat.eqb_neq _ _)) by (cbn; lia). rewrite at_app_l by (cbn; lia).
    split; [by apply (Hx 2%nat)|]. split; [by apply emits_nat|cbn; lia].
  - cbn [Nat.leb Nat.eqb]. split; [by apply (Hx 3%nat)|]. split; [by apply emits_nat|cbn; lia].
  - cbn [Nat.leb Nat.eqb]. split; [apply (Hx 7%nat); cbn; lia|].
    split; [apply emits_nat; cbn; lia|cbn; lia].
Qed.

(** The items, written and read: the lengths they spell. *)
Lemma items_roundtrip codes d xs : forall acc k,
  items_ok acc xs -> length (items_expand acc xs) = (length acc + k)%nat ->
  Forall (fun x => sends codes d (item_symbol x)) xs ->
  exists bs, emits (fun w => fold_left (write_item codes) xs w) bs /\
    forall fuel, (k <= fuel)%nat ->
      reads (read_lengths fuel d (length acc) (acc ++ repeat 0%nat k)) bs (items_expand acc xs).
Proof.
  assert (Hmono : forall xs acc, (length acc <= length (items_expand acc xs))%nat).
  { intros ys. induction ys as [|y ys IH]; intros acc; [done|]. etrans; [|apply IH].
    unfold item_expand. destruct (item_run acc y). rewrite length_app. lia. }
  induction xs as [|x xs IH]; intros acc k Hok Hlen Hs.
  - cbn in Hlen. assert (k = 0%nat) as -> by lia. exists []. split; [apply emits_id|].
    intros fuel _ r rest Hw Hr. exists r. split; [|done]. cbn [repeat]. rewrite app_nil_r.
    destruct fuel; cbn [read_lengths]; by rewrite (proj2 (Nat.leb_le _ _)).
  - cbn [items_ok] in Hok. destruct Hok as [Hx Hxs]. rewrite Forall_cons_iff in Hs. destruct Hs as [Hsx Hs].
    destruct (read_run_item acc k x Hx) as (Hread & Hemit & Hpos).
    destruct Hsx as (b1 & He1 & Hr1 & _).
    change (items_expand acc (x :: xs)) with (items_expand (item_expand acc x) xs) in *.
    destruct (item_run acc x) as [value n] eqn:Erun. cbn [snd] in Hpos.
    assert (Hexp : item_expand acc x = acc ++ repeat value n) by (unfold item_expand; by rewrite Erun).
    rewrite Hexp in *. pose proof (Hmono xs (acc ++ repeat value n)) as Hle.
    rewrite length_app, repeat_length in Hle.
    destruct (IH (acc ++ repeat value n) (k - n)%nat Hxs) as (b3 & He3 & Hr3);
      [rewrite length_app, repeat_length; lia|done|].
    exists (b1 ++ bits_of x.2 (Z.of_nat x.1.2) ++ b3). split.
    + destruct x as [[sym v] b]. cbn [fold_left write_item]. rewrite app_assoc.
      apply (emits_comp (fun w => write (Z.of_nat v) b (write_code (code_at codes sym) w))
        (fun w => fold_left (write_item codes) xs w)); [|done].
      by apply (emits_comp (write_code (code_at codes sym)) (write (Z.of_nat v) b)).
    + intros fuel Hf. destruct fuel as [|fuel]; [lia|]. cbn [read_lengths].
      rewrite length_app, repeat_length. rewrite (proj2 (Nat.leb_gt _ _)) by lia.
      apply (reads_bind (decode d) _ b1 _ (item_symbol x)); [done|].
      apply (reads_bind (read_run (item_symbol x) (length acc) (acc ++ repeat 0%nat k))
        (fun p r => let '(value, n) := p in
          if (length acc + k <? length acc + n)%nat then Err InvalidCodeLengths
          else read_lengths fuel d (length acc + n)
                 (fill (acc ++ repeat 0%nat k) (length acc) n value) r) _ _ (value, n)); [done|].
      rewrite (proj2 (Nat.ltb_ge _ _)) by lia. rewrite fill_end by lia.
      specialize (Hr3 fuel ltac:(lia)). rewrite length_app, repeat_length in Hr3. apply Hr3.
Qed.

(** ** Leaving out what is not used *)

Lemma trimmed_rest l n :
  (trimmed l <= n)%nat -> l = take n l ++ repeat 0%nat (length l - n).
Proof.
  assert (Hz : forall l, trimmed l = 0%nat -> l = repeat 0%nat (length l)).
  { intros a. induction a as [|x a IH]; [done|]. cbn [trimmed length repeat].
    destruct (Nat.eqb_spec (trimmed a) 0), (Nat.eqb_spec x 0); cbn [andb]; try done. intros _.
    subst x. f_equal. by apply IH. }
  revert n. induction l as [|x l IH]; intros n Hn; [by rewrite take_nil|].
  destruct n as [|n]; [cbn [take app]; rewrite Nat.sub_0_r; apply Hz; lia|].
  cbn [take app length Nat.sub]. f_equal. apply IH. cbn [trimmed] in Hn.
  destruct (trimmed l =? 0)%nat eqn:E; [apply Nat.eqb_eq in E; lia|]. cbn [andb] in Hn. lia.
Qed.

Lemma trimmed_le l : (trimmed l <= length l)%nat.
Proof.
  induction l as [|x l IH]; [done|]. cbn [trimmed length]. destruct (_ && _); lia.
Qed.

Lemma shares_app a b : shares (a ++ b) = shares a + shares b.
Proof. unfold shares. induction a as [|x a IH]; [done|]. cbn [app foldr]. rewrite IH. lia. Qed.

Lemma codes_ok_trim ls n :
  (trimmed ls <= n)%nat -> codes_ok ls -> codes_ok (take n ls).
Proof.
  intros Hn [Hs Hk]. pose proof (trimmed_rest ls n Hn) as E. split; [by apply Forall_take|].
  rewrite E in Hk. rewrite shares_app, shares_zeros, Z.add_0_r in Hk.
  destruct Hk as [Hk|[H1 H2]]; [by left|right]. split; [|done].
  rewrite length_app, repeat_length, cnt_app, cnt_repeat in H1. lia.
Qed.

(** The code-length code lengths, in the order of the header. *)
Definition set_all (cl syms init : list nat) : list nat :=
  fold_left (fun l s => <[s := at_ cl s]> l) syms init.

Lemma code_lengths_roundtrip cl syms : forall init,
  Forall (fun l => (l <= 7)%nat) cl ->
  exists bs, emits (fun w => fold_left (fun w sym => write (Z.of_nat (at_ cl sym)) 3 w) syms w) bs /\
    reads (read_code_lengths syms init) bs (set_all cl syms init).
Proof.
  induction syms as [|s syms IH]; intros init Hcl.
  { exists []. split; [apply emits_id|apply reads_ret]. }
  destruct (IH (<[s := at_ cl s]> init) Hcl) as (bs & He & Hr).
  assert (H8 : (at_ cl s < 2 ^ 3)%nat).
  { unfold at_. destruct (cl !! s) eqn:E; [|cbn; lia]. eapply Forall_lookup_1 in Hcl; [|done]. cbn in *. lia. }
  exists (bits_of 3 (Z.of_nat (at_ cl s)) ++ bs). split.
  - apply (emits_comp (write (Z.of_nat (at_ cl s)) 3)
      (fun w => fold_left (fun w sym => write (Z.of_nat (at_ cl sym)) 3 w) syms w)); [by apply emits_nat|done].
  - apply (reads_bind (read 3) (fun v => read_code_lengths syms (<[s := Z.to_nat v]> init)) _ _
      (Z.of_nat (at_ cl s))); [by apply reads_nat|]. by rewrite Nat2Z.id.
Qed.

Lemma set_all_length cl syms : forall init, length (set_all cl syms init) = length init.
Proof.
  induction syms as [|s syms IH]; intros init; [done|]. unfold set_all in *. cbn [fold_left].
  by rewrite IH, length_insert.
Qed.

Lemma set_all_at cl syms : forall init i,
  (i < length init)%nat ->
  at_ (set_all cl syms init) i = if decide (i ∈ syms) then at_ cl i else at_ init i.
Proof.
  induction syms as [|s syms IH]; intros init i Hi; [done|].
  change (set_all cl (s :: syms) init) with (set_all cl syms (<[s := at_ cl s]> init)).
  rewrite IH by by rewrite length_insert. destruct (decide (i ∈ syms)) as [Hin|Hout].
  { rewrite decide_True; [done|]. by right. }
  destruct (decide (i = s)) as [->|Hne].
  - rewrite decide_True by by left. rewrite at_insert by done. by rewrite Nat.eqb_refl.
  - rewrite decide_False by (rewrite not_elem_of_cons; done). unfold at_.
    by rewrite list_lookup_insert_ne.
Qed.

Lemma at_ext a b : length a = length b -> (forall i, (i < length a)%nat -> at_ a i = at_ b i) -> a = b.
Proof.
  intros Hl H. apply list_eq. intros i. destruct (decide (i < length a)%nat) as [Hi|Hi].
  - specialize (H i Hi). unfold at_ in H.
    destruct (lookup_lt_is_Some_2 a i Hi) as [x Hx]. destruct (lookup_lt_is_Some_2 b i) as [y Hy]; [lia|].
    rewrite Hx, Hy in *. cbn in H. by subst.
  - rewrite !lookup_ge_None_2 by lia. done.
Qed.

(** The order lists every symbol, so the lengths left out are zeros. *)
Lemma order_covers i : (i < 19)%nat -> exists j, CODE_LENGTH_ORDER !! j = Some i.
Proof.
  intros Hi. apply list_elem_of_lookup, (list_elem_of_In). 
  assert (H : forallb (fun i => existsb (Nat.eqb i) CODE_LENGTH_ORDER) (seq 0 19) = true) by done.
  rewrite forallb_forall in H. specialize (H i ltac:(apply in_seq; lia)).
  apply existsb_exists in H as (x & Hx & E). apply Nat.eqb_eq in E. by subst.
Qed.

Lemma set_all_order cl n :
  length cl = CODE_LENGTH_SYMBOLS -> (trimmed (map (at_ cl) CODE_LENGTH_ORDER) <= n)%nat ->
  set_all cl (take n CODE_LENGTH_ORDER) (repeat 0%nat CODE_LENGTH_SYMBOLS) = cl.
Proof.
  intros Hl Hn. apply at_ext; [by rewrite set_all_length, repeat_length|].
  rewrite set_all_length, repeat_length. intros i Hi.
  rewrite set_all_at, at_repeat by by rewrite repeat_length.
  case_decide as Hin; [done|]. destruct (order_covers i Hi) as [j Hj].
  assert (Hjn : (n <= j)%nat).
  { destruct (decide (j < n)%nat) as [Hlt|]; [|lia]. exfalso. apply Hin.
    apply (list_elem_of_lookup_2 _ j). by rewrite lookup_take_lt. }
  pose proof (trimmed_rest _ n Hn) as E. apply (f_equal (fun l => l !! j)) in E.
  rewrite list_lookup_fmap, Hj in E. cbn [fmap option_fmap option_map] in E.
  apply lookup_lt_Some in Hj.
  rewrite lookup_app_r in E by (rewrite length_take, length_map; lia).
  destruct (repeat 0%nat _ !! _) as [x|] eqn:E2 in E; [|done]. injection E as ->.
  by apply list_elem_of_lookup_2, list_elem_of_In, repeat_spec in E2.
Qed.

(** ** Counting symbols *)

Lemma bump_at i j f :
  (i < length f)%nat -> atz (bump i f) j = atz f j + if (i =? j)%nat then 1 else 0.
Proof.
  intros Hi. unfold atz, bump. destruct (Nat.eqb_spec i j) as [->|].
  - rewrite list_lookup_alter_eq. destruct (lookup_lt_is_Some_2 f j Hi) as [x ->]. cbn. lia.
  - rewrite list_lookup_alter_ne by done. lia.
Qed.

(** Counters within a bound, and how one more count changes them. *)
Definition counters (f : list Z) (n : nat) (bound : Z) : Prop :=
  length f = n /\ forall i, 0 <= atz f i <= bound.

Lemma counters_bump f n bound i :
  counters f n bound -> (i < n)%nat ->
  counters (bump i f) n (bound + 1) /\ 0 < atz (bump i f) i /\
  forall j, atz f j <= atz (bump i f) j.
Proof.
  intros [Hl Hb] Hi. split; [split|split].
  - unfold bump. by rewrite length_alter.
  - intros j. rewrite bump_at by lia. specialize (Hb j). case_match; lia.
  - rewrite bump_at, Nat.eqb_refl by lia. specialize (Hb i). lia.
  - intros j. rewrite bump_at by lia. case_match; lia.
Qed.

Lemma counters_zero n : counters (repeat 0 n) n 0.
Proof.
  split; [apply repeat_length|]. intros i. unfold atz. destruct (repeat 0 n !! i) eqn:E; [|cbn; lia].
  apply list_elem_of_lookup_2, list_elem_of_In, repeat_spec in E. subst. cbn. lia.
Qed.

Lemma counters_range f n bound : counters f n bound -> bound < 2 ^ 32 -> Forall (fun x => 0 <= x < 2 ^ 32) f.
Proof.
  intros [_ Hb] Hlt. apply Forall_lookup. intros i x Hx. specialize (Hb i). unfold atz in Hb.
  rewrite Hx in Hb. cbn in Hb. lia.
Qed.

Lemma bump_fold {A} (g : A -> nat) xs : forall f n bound,
  counters f n bound -> Forall (fun x => (g x < n)%nat) xs ->
  let f' := fold_left (fun f x => bump (g x) f) xs f in
  counters f' n (bound + Z.of_nat (length xs)) /\ (forall j, atz f j <= atz f' j) /\
  Forall (fun x => 0 < atz f' (g x)) xs.
Proof.
  induction xs as [|x xs IH]; intros f n bound Hf Hx; cbn [fold_left length].
  { split; [|split; [done|constructor]]. by rewrite Z.add_0_r. }
  rewrite Forall_cons_iff in Hx. destruct Hx as [Hx Hxs].
  destruct (counters_bump f n bound (g x) Hf Hx) as (H1 & H2 & H3).
  destruct (IH _ _ _ H1 Hxs) as (H4 & H5 & H6). split; [|split].
  - destruct H4 as [Hl Hb]. split; [done|]. intros i. specialize (Hb i). lia.
  - intros j. specialize (H3 j). specialize (H5 j). lia.
  - apply Forall_cons_2; [specialize (H5 (g x)); lia|done].
Qed.

(** ** The header of a dynamic block *)

Lemma items_count xs : forall acc, items_ok acc xs -> (length acc + length xs <= length (items_expand acc xs))%nat.
Proof.
  induction xs as [|x xs IH]; intros acc Hok; [cbn; lia|]. cbn [items_ok] in Hok. destruct Hok as [Hx Hxs].
  change (items_expand acc (x :: xs)) with (items_expand (item_expand acc x) xs).
  specialize (IH _ Hxs). destruct (read_run_item acc 0 x Hx) as (_ & _ & Hpos).
  unfold item_expand in *. destruct (item_run acc x) as [value n]. cbn [snd] in Hpos.
  rewrite length_app, repeat_length in IH. cbn [length]. lia.
Qed.

Lemma items_symbols xs : forall acc, items_ok acc xs -> Forall (fun x => (item_symbol x < 19)%nat) xs.
Proof.
  induction xs as [|x xs IH]; intros acc Hok; [constructor|]. cbn [items_ok] in Hok.
  destruct Hok as [Hx Hxs]. apply Forall_cons_2; [|by eapply IH].
  destruct x as [[sym v] b]. unfold item_symbol, item_ok in *. cbn [fst]. lia.
Qed.

Lemma build_lengths_fits freqs n bound max_bits :
  counters freqs n bound -> bound < 2 ^ 32 -> (0 < max_bits <= MAX_BITS)%nat ->
  Z.of_nat n < fib (max_bits + 3) -> lengths_ok freqs max_bits (build_lengths freqs max_bits).
Proof.
  intros Hc Hb Hm Hfib. apply build_lengths_promise; [done|by eapply counters_range|].
  destruct Hc as [-> _]. done.
Qed.

(** The lengths sent without their unused end still make the decoder of every
    symbol that occurs. *)
Lemma trimmed_sends freqs max_bits ls n :
  lengths_ok freqs max_bits ls -> (trimmed ls <= n)%nat ->
  exists d, decoder (take n ls) = Ok d /\ forall s, 0 < atz freqs s -> sends (assign_codes ls) d s.
Proof.
  intros [H1 H2 H3 H4 H5] Hn. pose proof (codes_ok_trim ls n Hn H5) as Hok.
  destruct (codes_ok_decoder _ Hok) as (d & rest & Hd & _). exists d. split; [done|]. intros s Hs.
  rewrite (trimmed_rest ls n Hn) at 1. apply codes_ok_sends; [done|done|].
  specialize (H3 s Hs). rewrite (trimmed_rest ls n Hn) in H3. unfold at_ in *.
  destruct (decide (s < length (take n ls))%nat) as [Hlt|Hge]; [by rewrite lookup_app_l in H3|].
  rewrite lookup_app_r in H3 by lia. exfalso.
  pose proof (at_repeat (length ls - n) (s - length (take n ls))) as Hz. unfold at_ in Hz. lia.
Qed.

(** The code in which the runs are written. *)
Lemma code_length_code xs :
  items_ok [] xs -> (length xs <= 1000)%nat ->
  let freq := fold_left (fun f x => bump (item_symbol x) f) xs (repeat 0 CODE_LENGTH_SYMBOLS) in
  let cl := build_lengths freq MAX_CODE_LENGTH_BITS in
  length cl = CODE_LENGTH_SYMBOLS /\ Forall (fun l => (l <= 7)%nat) cl /\
  exists d, decoder cl = Ok d /\ Forall (fun x => sends (assign_codes cl) d (item_symbol x)) xs.
Proof.
  intros Hok Hlen freq cl.
  destruct (bump_fold item_symbol xs _ _ _ (counters_zero CODE_LENGTH_SYMBOLS) (items_symbols _ _ Hok))
    as (Hc & _ & Hpos). fold freq in Hc, Hpos. rewrite Z.add_0_l in Hc.
  pose proof (build_lengths_fits freq _ _ MAX_CODE_LENGTH_BITS Hc ltac:(lia)
    ltac:(unfold MAX_CODE_LENGTH_BITS, MAX_BITS; lia) ltac:(vm_compute; done)) as Hcl.
  fold cl in Hcl. split; [by rewrite (lo_length _ _ _ Hcl), (proj1 Hc)|].
  split; [apply (lo_short _ _ _ Hcl)|].
  destruct (trimmed_sends freq _ cl (length cl) Hcl (trimmed_le cl)) as (d & Hd & Hs).
  rewrite take_ge in Hd by lia. exists d. split; [done|]. eapply Forall_impl; [|exact Hpos].
  intros x Hx. by apply Hs.
Qed.

(** Reading a header whose parts are these. *)
Lemma read_header nl nd nc cl d xs all dl dd b1 b2 :
  (257 <= nl <= LITLEN_SYMBOLS)%nat -> (1 <= nd <= DIST_SYMBOLS)%nat -> (4 <= nc <= 19)%nat ->
  reads (read_code_lengths (take nc CODE_LENGTH_ORDER) (repeat 0%nat CODE_LENGTH_SYMBOLS)) b1 cl ->
  decoder cl = Ok d -> length all = (nl + nd)%nat -> items_expand [] xs = all ->
  reads (read_lengths (nl + nd) d 0 (repeat 0%nat (nl + nd))) b2 all ->
  at_ all END_OF_BLOCK <> 0%nat -> decoder (take nl all) = Ok dl -> decoder (drop nl all) = Ok dd ->
  reads read_dynamic_codes
    (bits_of 5 (Z.of_nat (nl - 257)) ++ bits_of 5 (Z.of_nat (nd - 1)) ++
     bits_of 4 (Z.of_nat (nc - 4)) ++ b1 ++ b2) (dl, dd).
Proof.
  intros Hl Hd Hc Hr1 Hdec Hlen Hexp Hr2 Hend Hdl Hdd. unfold LITLEN_SYMBOLS, DIST_SYMBOLS in *.
  unfold read_dynamic_codes.
  apply (reads_bind (read 5) _ _ _ (Z.of_nat (nl - 257))); [apply reads_nat; cbn; lia|].
  apply (reads_bind (read 5) _ _ _ (Z.of_nat (nd - 1))); [apply reads_nat; cbn; lia|].
  apply (reads_bind (read 4) _ _ _ (Z.of_nat (nc - 4))); [apply reads_nat; cbn; lia|].
  rewrite !Nat2Z.id. replace (nl - 257 + 257)%nat with nl by lia.
  replace (nd - 1 + 1)%nat with nd by lia. replace (nc - 4 + 4)%nat with nc by lia.
  unfold LITLEN_SYMBOLS, DIST_SYMBOLS.
  rewrite (proj2 (Nat.ltb_ge _ _)), (proj2 (Nat.ltb_ge _ _)) by lia. cbn [orb].
  apply (reads_bind (read_code_lengths (take nc CODE_LENGTH_ORDER) (repeat 0%nat CODE_LENGTH_SYMBOLS))
    _ _ _ cl); [done|].
  rewrite Hdec, <- (app_nil_r b2).
  apply (reads_bind (read_lengths (nl + nd) d 0 (repeat 0%nat (nl + nd))) _ _ _ all); [done|].
  rewrite (proj2 (Nat.eqb_neq _ _)), Hdl, Hdd by done. apply reads_ret.
Qed.

Lemma write_header h b1 b2 :
  (257 <= hlit h <= LITLEN_SYMBOLS)%nat -> (1 <= hdist h <= DIST_SYMBOLS)%nat -> (4 <= hclen h <= 19)%nat ->
  emits (fun w => fold_left (fun w sym => write (Z.of_nat (at_ (code_length_lengths h) sym)) 3 w)
    (take (hclen h) CODE_LENGTH_ORDER) w) b1 ->
  emits (fun w => fold_left (write_item (assign_codes (code_length_lengths h))) (sequence h) w) b2 ->
  emits (write_dynamic_header h)
    (bits_of 5 (Z.of_nat (hlit h - 257)) ++ bits_of 5 (Z.of_nat (hdist h - 1)) ++
     bits_of 4 (Z.of_nat (hclen h - 4)) ++ b1 ++ b2).
Proof.
  unfold LITLEN_SYMBOLS, DIST_SYMBOLS. intros Hl Hd Hc H1 H2.
  assert (Hw : forall v n, (v < 2 ^ n)%nat -> emits (write (Z.of_nat v) n) (bits_of n (Z.of_nat v)))
    by (intros; by apply emits_nat).
  pose proof (emits_comp _ _ _ _ H1 H2) as H12.
  pose proof (emits_comp _ _ _ _ (Hw (hclen h - 4)%nat 4%nat ltac:(cbn; lia)) H12) as H3.
  pose proof (emits_comp _ _ _ _ (Hw (hdist h - 1)%nat 5%nat ltac:(cbn; lia)) H3) as H4.
  exact (emits_comp _ _ _ _ (Hw (hlit h - 257)%nat 5%nat ltac:(cbn; lia)) H4).
Qed.

Lemma dynamic_header_roundtrip lf df bound :
  counters lf LITLEN_SYMBOLS bound -> counters df DIST_SYMBOLS bound -> bound < 2 ^ 32 ->
  0 < atz lf END_OF_BLOCK ->
  let h := build_dynamic_header lf df in
  exists bs dl dd, emits (write_dynamic_header h) bs /\ reads read_dynamic_codes bs (dl, dd) /\
    (forall s, 0 < atz lf s -> sends (assign_codes (litlen_lengths h)) dl s) /\
    (forall s, 0 < atz df s -> sends (assign_codes (dist_lengths h)) dd s).
Proof.
  intros Hlf Hdf Hbound Hend h.
  pose proof (build_lengths_fits lf _ bound MAX_BITS Hlf Hbound ltac:(unfold MAX_BITS; lia)
    ltac:(vm_compute; done)) as Hll.
  pose proof (build_lengths_fits df _ bound MAX_BITS Hdf Hbound ltac:(unfold MAX_BITS; lia)
    ltac:(vm_compute; done)) as Hdl.
  set (ll := build_lengths lf MAX_BITS) in *. set (dl := build_lengths df MAX_BITS) in *.
  set (nl := Nat.max (trimmed ll) 257). set (nd := Nat.max (trimmed dl) 1).
  pose proof (trimmed_le ll) as Htl. pose proof (trimmed_le dl) as Htd.
  rewrite (lo_length _ _ _ Hll), (proj1 Hlf) in Htl. rewrite (lo_length _ _ _ Hdl), (proj1 Hdf) in Htd.
  assert (Hnl : (257 <= nl <= LITLEN_SYMBOLS)%nat) by (unfold nl, LITLEN_SYMBOLS in *; lia).
  assert (Hnd : (1 <= nd <= DIST_SYMBOLS)%nat) by (unfold nd, DIST_SYMBOLS in *; lia).
  destruct (trimmed_sends lf _ ll nl Hll ltac:(unfold nl; lia)) as (d1 & Hd1 & Hs1).
  destruct (trimmed_sends df _ dl nd Hdl ltac:(unfold nd; lia)) as (d2 & Hd2 & Hs2).
  set (all := take nl ll ++ take nd dl).
  assert (Hlenl : length (take nl ll) = nl) by (rewrite length_take, (lo_length _ _ _ Hll), (proj1 Hlf); lia).
  assert (Hlend : length (take nd dl) = nd) by (rewrite length_take, (lo_length _ _ _ Hdl), (proj1 Hdf); lia).
  assert (Hlen : length all = (nl + nd)%nat) by (unfold all; by rewrite length_app, Hlenl, Hlend).
  assert (Hshort : short all).
  { apply Forall_app. split; apply Forall_take; [apply (lo_short _ _ _ Hll)|apply (lo_short _ _ _ Hdl)]. }
  pose proof (sequence_loop_spells (length all) all [] ltac:(lia) Hshort) as [Hok Hexp].
  set (xs := sequence_loop (length all) all) in *. cbn [app] in Hexp.
  assert (Hxs : (length xs <= 1000)%nat).
  { pose proof (items_count xs [] Hok) as H. rewrite Hexp, Hlen in H. cbn [length] in H.
    unfold LITLEN_SYMBOLS, DIST_SYMBOLS in *. lia. }
  destruct (code_length_code xs Hok Hxs) as (Hcll & Hcl7 & d & Hd & Hsx).
  set (cl := build_lengths _ MAX_CODE_LENGTH_BITS) in *.
  set (nc := Nat.max (trimmed (map (at_ cl) CODE_LENGTH_ORDER)) 4).
  assert (Hnc : (4 <= nc <= 19)%nat).
  { pose proof (trimmed_le (map (at_ cl) CODE_LENGTH_ORDER)) as H. rewrite length_map in H.
    unfold nc. cbn [length CODE_LENGTH_ORDER] in H. lia. }
  destruct (code_lengths_roundtrip cl (take nc CODE_LENGTH_ORDER) (repeat 0%nat CODE_LENGTH_SYMBOLS) Hcl7)
    as (b1 & He1 & Hr1). rewrite (set_all_order cl nc Hcll) in Hr1 by (unfold nc; lia).
  destruct (items_roundtrip (assign_codes cl) d xs [] (nl + nd)%nat Hok) as (b2 & He2 & Hr2);
    [by rewrite Hexp, Hlen|done|].
  eexists _, d1, d2. split; [|split; [|done]].
  - by apply (write_header h b1 b2).
  - apply (read_header nl nd nc cl d xs all); try done.
    + rewrite <- Hexp. apply Hr2. lia.
    + unfold all. rewrite at_app_l by (rewrite Hlenl; unfold END_OF_BLOCK; lia).
      pose proof (lo_used _ _ _ Hll END_OF_BLOCK Hend) as H. unfold at_ in *.
      rewrite lookup_take_lt by (unfold END_OF_BLOCK; lia). lia.
    + unfold all. by rewrite take_app_le, take_ge by lia.
    + unfold all. by rewrite drop_app_ge, Hlenl, Nat.sub_diag, drop_0 by lia.
Qed.

(** ** Blocks on the wire *)

(** From [w] to [w'] blocks were written that read as more output; the last of
    them carries [final]. The reader's and the writer's byte boundaries agree. *)
Definition blocks_read (w w' : BitWriter) (output output' : list Z) (final : bool) : Prop :=
  exists e, written w' = written w ++ e /\
  forall fuel max_out r rest,
    wf r -> rest_bits r = e ++ rest -> ((length (written w) + length (rest_bits r)) mod 8 = 0)%nat ->
    (length (rest_bits r) < fuel)%nat -> Z.of_nat (length output') <= max_out ->
    exists r' fuel', wf r' /\ rest_bits r' = rest /\ data r' = data r /\ (length rest < fuel')%nat /\
      inflate_blocks fuel max_out output r =
        if final then Ok (output', r') else inflate_blocks fuel' max_out output' r'.

Lemma blocks_read_app w w1 w2 o o1 o2 final :
  (length o1 <= length o2)%nat -> blocks_read w w1 o o1 false -> blocks_read w1 w2 o1 o2 final ->
  blocks_read w w2 o o2 final.
Proof.
  intros Ho (e1 & H1 & Hr1) (e2 & H2 & Hr2). exists (e1 ++ e2). split; [by rewrite H2, H1, app_assoc|].
  intros fuel max_out r rest Hw Hrest Hal Hfuel Hmax. rewrite <- app_assoc in Hrest.
  destruct (Hr1 fuel max_out r _ Hw Hrest Hal Hfuel) as (r1 & f1 & Hw1 & Hs1 & Hd1 & Hf1 & ->); [lia|].
  destruct (Hr2 f1 max_out r1 rest Hw1 Hs1) as (r2 & f2 & Hw2 & Hs2 & Hd2 & Hf2 & ->).
  - rewrite H1, length_app, Hs1. rewrite Hrest, length_app in Hal.
    by replace (length (written w) + length e1 + length (e2 ++ rest))%nat
      with (length (written w) + (length e1 + length (e2 ++ rest)))%nat by lia.
  - by rewrite Hs1.
  - done.
  - exists r2, f2. split_and!; (done || congruence).
Qed.

Lemma land_lnot x : 0 <= x <= 65535 -> Z.land (Z.lnot x) 65535 = 65535 - x.
Proof.
  intros Hx. change 65535 with (2 ^ 16 - 1) at 1. rewrite land_ones_mod by lia.
  unfold Z.lnot. symmetry. apply Z.mod_unique with (-1); lia.
Qed.

Lemma bit_b2z b : bit b = Z.b2z b.
Proof. by destruct b. Qed.

Lemma emits_kind final kind :
  0 <= kind < 4 ->
  emits (fun w => write kind 2 (write (bit final) 1 w)) ([final] ++ bits_of 2 kind).
Proof.
  intros Hk. replace [final] with (bits_of 1 (bit final)) by by destruct final.
  apply (emits_comp (write (bit final) 1) (write kind 2)); apply emits_write; [by destruct final|done].
Qed.

(** The bits of a stored chunk after its padding. *)
Lemma stored_body chunk output max_out r rest :
  bytes chunk -> Z.of_nat (length chunk) <= 65535 ->
  wf r -> count r = 0%nat ->
  rest_bits r = bits_of 16 (Z.of_nat (length chunk)) ++
    bits_of 16 (65535 - Z.of_nat (length chunk)) ++ bytes_bits chunk ++ rest ->
  (length rest mod 8 = 0)%nat -> Z.of_nat (length (output ++ chunk)) <= max_out ->
  exists r', wf r' /\ rest_bits r' = rest /\ data r' = data r /\
    inflate_stored output max_out r = Ok (output ++ chunk, r').
Proof.
  intros Hb Hlen Hw Hc Hr Hm Hmax. set (len := Z.of_nat (length chunk)) in *.
  destruct (align_spec r [] (rest_bits r) Hw eq_refl) as (Hw0 & Hs0 & Hc0 & Hd0);
    [cbn; lia|by rewrite rest_bits_mod|].
  rewrite Hr in Hs0.
  destruct (reads_read 16 len ltac:(change (2 ^ Z.of_nat 16) with 65536; lia) _ _ Hw0 Hs0)
    as (r1 & E1 & Hw1 & Hs1 & Hd1).
  destruct (reads_read 16 (65535 - len) ltac:(change (2 ^ Z.of_nat 16) with 65536; lia) _ _ Hw1 Hs1)
    as (r2 & E2 & Hw2 & Hs2 & Hd2).
  assert (Hc2 : count r2 = 0%nat).
  { rewrite <- rest_bits_mod, Hs2, length_app, bytes_bits_length by done.
    by rewrite Nat.add_comm, Nat.mul_comm, Nat.Div0.mod_add. }
  destruct (take_bytes_spec r2 chunk rest Hw2 Hc2 Hb Hs2) as (r3 & E3 & Hw3 & Hs3 & Hd3).
  exists r3. split_and!; [done|done|congruence|]. unfold inflate_stored. rewrite E1, E2.
  rewrite land_lnot by lia. replace (65535 - (65535 - len)) with len by lia. rewrite Z.eqb_refl.
  cbn [negb]. unfold len. rewrite Nat2Z.id, E3. rewrite length_app in Hmax.
  by rewrite (proj2 (Z.ltb_ge _ _)) by lia.
Qed.

Lemma mod8_cancel a b : (a mod 8 = 0 -> (a + b) mod 8 = 0 -> b mod 8 = 0)%nat.
Proof. intros Ha H. by rewrite Nat.Div0.add_mod, Ha, Nat.add_0_l, Nat.Div0.mod_mod in H. Qed.

Lemma align_twice r : align_to_byte (align_to_byte r) = align_to_byte r.
Proof. done. Qed.

Lemma inflate_block_stored max_out output r :
  inflate_block 0 max_out output r = inflate_stored output max_out (align_to_byte r).
Proof. unfold inflate_block, inflate_stored. by rewrite align_twice. Qed.

(** The first three bits of a block. *)
Lemma inflate_kind fuel max_out output r final kind rest :
  wf r -> 0 <= kind < 4 -> rest_bits r = ([final] ++ bits_of 2 kind) ++ rest ->
  exists r', wf r' /\ rest_bits r' = rest /\ data r' = data r /\
    inflate_blocks (S fuel) max_out output r =
      let? (output, r) := inflate_block kind max_out output r' in
      if final then Ok (output, r) else inflate_blocks fuel max_out output r.
Proof.
  intros Hw Hk Hr. rewrite <- app_assoc in Hr.
  destruct (reads_bit final r _ Hw Hr) as (r1 & E1 & Hw1 & Hs1 & Hd1).
  destruct (reads_read 2 kind Hk r1 _ Hw1 Hs1) as (r2 & E2 & Hw2 & Hs2 & Hd2).
  exists r2. split_and!; [done|done|congruence|]. cbn [inflate_blocks]. rewrite E1, E2.
  by destruct final.
Qed.

(** What a stored chunk looks like: a padding up to the byte boundary, the
    length and its complement, the bytes. *)
Definition stored_bits (chunk : list Z) : list bool :=
  bits_of 16 (Z.of_nat (length chunk)) ++ bits_of 16 (65535 - Z.of_nat (length chunk)) ++ bytes_bits chunk.

Lemma stored_bits_length chunk : length (stored_bits chunk) = (8 * (4 + length chunk))%nat.
Proof. unfold stored_bits. rewrite !length_app, !bits_of_length, bytes_bits_length. lia. Qed.

Lemma stored_chunk_written chunk final w :
  writer_wf w -> bytes chunk -> Z.of_nat (length chunk) <= 65535 ->
  exists pad, writer_wf (write_stored_chunk chunk final w) /\ (length pad < 8)%nat /\
    written (write_stored_chunk chunk final w) =
      written w ++ ([final] ++ bits_of 2 0) ++ pad ++ stored_bits chunk /\
    ((length (written w) + 3 + length pad) mod 8 = 0)%nat.
Proof.
  intros Hw Hb Hlen. unfold write_stored_chunk. set (len := Z.of_nat (length chunk)) in *.
  rewrite wrap_small by lia. rewrite land_lnot by lia.
  destruct (emits_kind final 0 ltac:(lia) w Hw) as [Hw1 Hs1].
  set (w1 := write 0 2 _) in *. destruct (align_writer_spec w1 Hw1) as (pad & Hw2 & Hs2 & Hpad & Hc2).
  set (w2 := align_writer w1) in *.
  destruct (write_spec len 16 w2 Hw2 ltac:(lia)) as [Hw3 Hs3].
  set (w3 := write len 16 w2) in *.
  destruct (write_spec (65535 - len) 16 w3 Hw3 ltac:(lia)) as [Hw4 Hs4].
  set (w4 := write (65535 - len) 16 w3) in *.
  pose proof (written_mod w2 Hw2) as Hm2. rewrite Hc2 in Hm2.
  assert (Hc4 : wcount w4 = 0%nat).
  { rewrite <- written_mod, Hs4, Hs3, !length_app, !bits_of_length by done.
    replace (length (written w2) + 16 + 16)%nat with (length (written w2) + 4 * 8)%nat by lia.
    by rewrite Nat.Div0.mod_add. }
  destruct (write_bytes_spec chunk w4 Hw4 Hc4 Hb) as (Hw5 & Hs5 & _). exists pad. split; [done|].
  split; [done|]. split.
  - rewrite Hs5, Hs4, Hs3, Hs2, Hs1. unfold stored_bits. fold len. by rewrite <- !app_assoc.
  - etrans; [|exact Hm2]. f_equal. rewrite Hs2, Hs1, !length_app, bits_of_length. cbn [length]. lia.
Qed.

Lemma stored_chunk_read chunk final w output :
  writer_wf w -> bytes chunk -> Z.of_nat (length chunk) <= 65535 ->
  blocks_read w (write_stored_chunk chunk final w) output (output ++ chunk) final.
Proof.
  intros Hw Hb Hlen. destruct (stored_chunk_written chunk final w Hw Hb Hlen) as (pad & _ & Hpad & Hs & Hm).
  eexists. split; [exact Hs|]. intros fuel max_out r rest Hwr Hrest Hal Hfuel Hmax.
  destruct fuel as [|fuel]; [lia|]. rewrite <- app_assoc in Hrest.
  destruct (inflate_kind fuel max_out output r final 0 _ Hwr ltac:(lia) Hrest)
    as (r1 & Hwr1 & Hsr1 & Hd1 & ->). rewrite <- app_assoc in Hsr1.
  assert (Htail : (length (stored_bits chunk ++ rest) mod 8 = 0)%nat).
  { apply (mod8_cancel (length (written w) + 3 + length pad)); [done|]. etrans; [|exact Hal]. f_equal.
    rewrite Hrest, !length_app. cbn [length]. rewrite bits_of_length. lia. }
  assert (Hrmod : (length rest mod 8 = 0)%nat).
  { apply (mod8_cancel (length (stored_bits chunk))); [|by rewrite <- length_app].
    by rewrite stored_bits_length, Nat.mul_comm, Nat.Div0.mod_mul. }
  destruct (align_spec r1 pad _ Hwr1 Hsr1 Hpad Htail) as (Hwa & Hsa & Hca & Hda).
  unfold stored_bits in Hsa. rewrite <- !app_assoc in Hsa.
  destruct (stored_body chunk output max_out (align_to_byte r1) rest Hb Hlen Hwa Hca Hsa Hrmod Hmax)
    as (r2 & Hw2' & Hs2' & Hd2' & E).
  rewrite inflate_block_stored, E. exists r2, fuel. split_and!; [done|done|congruence| |done].
  rewrite Hrest, !length_app in Hfuel. cbn [length] in Hfuel. lia.
Qed.

(** ** Stored blocks *)

Lemma write_chunks_read cs : forall final w output,
  cs <> [] -> Forall (fun c => bytes c /\ Z.of_nat (length c) <= 65535) cs -> writer_wf w ->
  writer_wf (write_chunks cs final w) /\
  blocks_read w (write_chunks cs final w) output (output ++ concat cs) final.
Proof.
  induction cs as [|c cs IH]; intros final w output Hne Hcs Hw; [done|].
  rewrite Forall_cons_iff in Hcs. destruct Hcs as [[Hb Hl] Hcs].
  destruct cs as [|c' cs].
  - cbn [write_chunks concat]. rewrite app_nil_r.
    destruct (stored_chunk_written c final w Hw Hb Hl) as (pad & Hw' & _). split; [done|].
    by apply stored_chunk_read.
  - change (write_chunks (c :: c' :: cs) final w)
      with (write_chunks (c' :: cs) final (write_stored_chunk c false w)).
    destruct (stored_chunk_written c false w Hw Hb Hl) as (pad & Hw' & _).
    destruct (IH final (write_stored_chunk c false w) (output ++ c)) as [H1 H2]; [done|done|done|].
    split; [done|]. change (concat (c :: c' :: cs)) with (c ++ concat (c' :: cs)). rewrite app_assoc.
    eapply blocks_read_app; [|by apply stored_chunk_read|exact H2]. rewrite !length_app. lia.
Qed.

Lemma chunks_aux_spec {A} n fuel : forall l : list A,
  (0 < n)%nat -> (length l <= fuel)%nat ->
  concat (chunks_aux fuel n l) = l /\ Forall (fun c => (length c <= n)%nat) (chunks_aux fuel n l).
Proof.
  induction fuel as [|fuel IH]; intros l Hn Hl; [destruct l; [done|cbn in Hl; lia]|].
  destruct l as [|x l']; [done|]. set (l := x :: l') in *. cbn [chunks_aux].
  change (match l with [] => [] | _ :: _ => take n l :: chunks_aux fuel n (drop n l) end)
    with (take n l :: chunks_aux fuel n (drop n l)).
  destruct (IH (drop n l) Hn) as [H1 H2]; [rewrite length_drop; subst l; cbn [length] in *; lia|].
  split; [cbn [concat]; rewrite H1; apply take_drop|].
  apply Forall_cons_2; [rewrite length_take; lia|done].
Qed.

Lemma write_stored_read raw final w output :
  bytes raw -> writer_wf w ->
  writer_wf (write_stored raw final w) /\
  blocks_read w (write_stored raw final w) output (output ++ raw) final.
Proof.
  intros Hb Hw. unfold write_stored. assert (Hn : Z.of_nat (Z.to_nat STORED_MAX) = 65535) by done.
  revert Hn. generalize (Z.to_nat STORED_MAX) as n. intros n Hn.
  destruct (chunks_aux_spec n (length raw) raw ltac:(lia) ltac:(lia)) as [Hc Hl].
  fold (chunks n raw) in Hc, Hl. destruct (chunks n raw) as [|c cs] eqn:E.
  - cbn in Hc. subst raw. destruct (stored_chunk_written [] final w Hw Hb ltac:(cbn; lia)) as (pad & Hw' & _).
    split; [done|]. by apply stored_chunk_read.
  - rewrite <- Hc. apply write_chunks_read; [done| |done].
    rewrite Forall_forall in *. intros x Hx. split; [|specialize (Hl x Hx); lia].
    unfold bytes in *. rewrite Forall_forall in *. intros y Hy. apply Hb. rewrite <- Hc. apply in_concat. by exists x.
Qed.

(** ** Blocks of tokens *)

Lemma bits_left_rest r : wf r -> bits_left r = length (rest_bits r).
Proof. intros Hw. by rewrite rest_bits_length. Qed.

Lemma codes_block_read kind hw hb litlen dist dl dd ts final w output raw :
  0 <= kind < 4 -> writer_wf w -> emits hw hb ->
  (forall max_out r rest, wf r -> rest_bits r = hb ++ rest ->
     exists r', wf r' /\ rest_bits r' = rest /\ data r' = data r /\
       inflate_block kind max_out output r = inflate_codes (S (bits_left r')) dl dd max_out output r') ->
  tokens_ok (length output) ts -> expand output ts = output ++ raw ->
  Forall (token_sends litlen dist dl dd) ts -> sends litlen dl END_OF_BLOCK ->
  let w' := write_tokens ts litlen dist (hw (write kind 2 (write (bit final) 1 w))) in
  writer_wf w' /\ blocks_read w w' output (output ++ raw) final.
Proof.
  intros Hk Hw Hhw Hhdr Hok Hexp Hts Hend w'.
  destruct (tokens_roundtrip litlen dist dl dd ts _ Hok Hts Hend) as (tb & Het & Hlt & Hrt).
  pose proof (emits_comp _ _ _ _ (emits_comp _ _ _ _ (emits_kind final kind Hk) Hhw) Het) as Hall.
  destruct (Hall w Hw) as [Hw' Hs']. split; [exact Hw'|]. eexists. split; [exact Hs'|].
  intros fuel max_out r rest Hwr Hrest _ Hfuel Hmax. destruct fuel as [|fuel]; [lia|].
  rewrite <- !app_assoc in Hrest. rewrite app_assoc in Hrest.
  destruct (inflate_kind fuel max_out output r final kind _ Hwr Hk Hrest) as (r1 & Hw1 & Hs1 & Hd1 & ->).
  destruct (Hhdr max_out r1 _ Hw1 Hs1) as (r2 & Hw2 & Hs2 & Hd2 & ->).
  destruct (Hrt (S (bits_left r2)) max_out output r2 rest Hw2 Hs2) as (r3 & Hw3 & Hs3 & Hd3 & ->).
  - done.
  - rewrite bits_left_rest, Hs2, length_app by done. lia.
  - by rewrite Hexp.
  - rewrite Hexp. exists r3, fuel. split_and!; [done|done|congruence| |done].
    rewrite Hrest, !length_app in Hfuel. cbn [length] in Hfuel. lia.
Qed.

End Deflate.
