(* ===== verification/DeflateRoundTrip.v ===== *)
(** * Compressing and inflating are inverse ([rustlavel-http/src/compression/deflate.rs])

    The compressor's main loop keeps an invariant: the blocks written so far
    inflate to the input before the current block, and the tokens collected
    since expand to the input up to the current position. With the blocks of
    [Deflate] read back as they were written, the whole stream inflates to the
    input, whichever of the three ways each block was written. *)

From S2P Require Import Prelude Bits Huffman Lz77 Deflate.

Module DeflateRoundTrip.
Import Bits Huffman Lz77 Deflate.

(** ** Counting symbols *)

Definition token_counted (lf df : list Z) (t : Token) : Prop :=
  match t with
  | Literal byte => 0 < atz lf (Z.to_nat byte)
  | Match len dist => 0 < atz lf (257 + length_code len) /\ 0 < atz df (dist_code dist)
  end.

Lemma token_counted_mono lf df lf' df' t :
  (forall j, atz lf j <= atz lf' j) -> (forall j, atz df j <= atz df' j) ->
  token_counted lf df t -> token_counted lf' df' t.
Proof.
  intros Hl Hd. destruct t as [b|len dist]; cbn [token_counted].
  - specialize (Hl (Z.to_nat b)). lia.
  - specialize (Hl (257 + length_code len)%nat). specialize (Hd (dist_code dist)). lia.
Qed.

Lemma counters_weaken f n b b' : counters f n b -> b <= b' -> counters f n b'.
Proof. intros [H1 H2] Hb. split; [done|]. intros i. specialize (H2 i). lia. Qed.

Lemma count_token_ok lf df x b n t :
  counters lf LITLEN_SYMBOLS b -> counters df DIST_SYMBOLS b -> token_ok n t ->
  let '(lf', df', _) := count_token (lf, df, x) t in
  counters lf' LITLEN_SYMBOLS (b + 1) /\ counters df' DIST_SYMBOLS (b + 1) /\
  (forall j, atz lf j <= atz lf' j) /\ (forall j, atz df j <= atz df' j) /\ token_counted lf' df' t.
Proof.
  intros Hl Hd Ht. destruct t as [c|len dist]; cbn [count_token token_ok token_counted] in *.
  - destruct (counters_bump lf _ b (Z.to_nat c) Hl ltac:(unfold LITLEN_SYMBOLS; lia)) as (H1 & H2 & H3).
    split_and!; [done|eapply counters_weaken; [done|lia]|done|done|done].
  - destruct Ht as (Hlen & Hdist & _). destruct (length_code_ok len Hlen) as [Hlc _].
    destruct (dist_code_ok dist Hdist) as [Hdc _].
    change (length LENGTH_BASE) with 29%nat in Hlc. change (length DIST_BASE) with 30%nat in Hdc.
    destruct (counters_bump lf _ b (257 + length_code len) Hl ltac:(unfold LITLEN_SYMBOLS; lia))
      as (H1 & H2 & H3).
    destruct (counters_bump df _ b (dist_code dist) Hd ltac:(unfold DIST_SYMBOLS; lia)) as (H4 & H5 & H6).
    split_and!; done.
Qed.

Lemma count_fold_ok ts : forall n lf df x b,
  counters lf LITLEN_SYMBOLS b -> counters df DIST_SYMBOLS b -> tokens_ok n ts ->
  let '(lf', df', _) := fold_left count_token ts (lf, df, x) in
  counters lf' LITLEN_SYMBOLS (b + Z.of_nat (length ts)) /\
  counters df' DIST_SYMBOLS (b + Z.of_nat (length ts)) /\
  (forall j, atz lf j <= atz lf' j) /\ (forall j, atz df j <= atz df' j) /\
  Forall (token_counted lf' df') ts.
Proof.
  induction ts as [|t ts IH]; intros n lf df x b Hl Hd Hok; cbn [fold_left length].
  { rewrite Z.add_0_r. by split_and!. }
  cbn [tokens_ok] in Hok. destruct Hok as [Ht Hts].
  pose proof (count_token_ok lf df x b n t Hl Hd Ht) as H.
  destruct (count_token (lf, df, x) t) as [[lf1 df1] x1]. destruct H as (H1 & H2 & H3 & H4 & H5).
  specialize (IH _ lf1 df1 x1 _ H1 H2 Hts).
  destruct (fold_left count_token ts (lf1, df1, x1)) as [[lf2 df2] x2].
  destruct IH as (G1 & G2 & G3 & G4 & G5).
  replace (b + Z.of_nat (S (length ts))) with (b + 1 + Z.of_nat (length ts)) by lia.
  split_and!; [done|done|intros j; specialize (H3 j); specialize (G3 j); lia|
    intros j; specialize (H4 j); specialize (G4 j); lia|].
  apply Forall_cons_2; [by eapply token_counted_mono|done].
Qed.

(** The counts of a block: in range, and positive for every symbol it uses. *)
Lemma count_tokens_ok ts n :
  tokens_ok n ts ->
  let '(lf, df, _) := count_tokens ts in
  counters lf LITLEN_SYMBOLS (Z.of_nat (length ts) + 1) /\
  counters df DIST_SYMBOLS (Z.of_nat (length ts) + 1) /\
  0 < atz lf END_OF_BLOCK /\ Forall (token_counted lf df) ts.
Proof.
  intros Hok. unfold count_tokens.
  pose proof (count_fold_ok ts n _ _ 0 0 (counters_zero LITLEN_SYMBOLS) (counters_zero DIST_SYMBOLS) Hok) as H.
  destruct (fold_left count_token ts _) as [[lf df] x]. destruct H as (H1 & H2 & _ & _ & H5).
  rewrite Z.add_0_l in *.
  destruct (counters_bump lf _ _ END_OF_BLOCK H1 ltac:(unfold LITLEN_SYMBOLS, END_OF_BLOCK; lia))
    as (G1 & G2 & G3).
  split_and!; [done|eapply counters_weaken; [done|lia]|done|].
  eapply Forall_impl; [|exact H5]. intros t. by apply token_counted_mono.
Qed.

(** ** One block *)

Lemma sends_whole ls s :
  codes_ok ls -> (0 < at_ ls s)%nat ->
  exists d, decoder ls = Ok d /\ sends (assign_codes ls) d s.
Proof.
  intros Hok Hs. destruct (codes_ok_decoder ls Hok) as (d & _ & Hd & _). exists d. split; [done|].
  pose proof (codes_ok_sends ls 0 d s Hok Hd Hs) as H. cbn [repeat] in H. by rewrite app_nil_r in H.
Qed.

Lemma fixed_codes_ok : codes_ok fixed_litlen_lengths /\ codes_ok fixed_dist_lengths.
Proof.
  split; (split; [unfold short; apply Forall_forall; intros x Hx|left; vm_compute; reflexivity]).
  - unfold fixed_litlen_lengths in Hx. rewrite !in_app_iff in Hx.
    destruct Hx as [Hx|[Hx|[Hx|Hx]]]; apply repeat_spec in Hx; unfold MAX_BITS; lia.
  - apply repeat_spec in Hx. unfold MAX_BITS. lia.
Qed.

Lemma fixed_used s :
  ((s < 286)%nat -> (0 < at_ fixed_litlen_lengths s)%nat) /\
  ((s < 30)%nat -> (0 < at_ fixed_dist_lengths s)%nat).
Proof.
  assert (H : forall n l, forallb (fun i => (0 <? at_ l i)%nat) (seq 0 n) = true ->
    (s < n)%nat -> (0 < at_ l s)%nat).
  { intros n l H Hs. rewrite forallb_forall in H. apply Nat.ltb_lt, H, in_seq. lia. }
  split; apply H; vm_compute; reflexivity.
Qed.

Lemma counted_symbols n t :
  token_ok n t ->
  match t with
  | Literal byte => (Z.to_nat byte < 286)%nat
  | Match len dist => (257 + length_code len < 286)%nat /\ (dist_code dist < 30)%nat
  end.
Proof.
  destruct t as [c|len dist]; cbn [token_ok]; [lia|]. intros (Hlen & Hdist & _).
  destruct (length_code_ok len Hlen) as [Hlc _]. destruct (dist_code_ok dist Hdist) as [Hdc _].
  change (length LENGTH_BASE) with 29%nat in Hlc. change (length DIST_BASE) with 30%nat in Hdc. lia.
Qed.

Lemma tokens_ok_each ts : forall n, tokens_ok n ts -> Forall (fun t => exists n, token_ok n t) ts.
Proof.
  induction ts as [|t ts IH]; intros n Hok; [constructor|]. cbn [tokens_ok] in Hok.
  destruct Hok as [Ht Hts]. apply Forall_cons_2; [by exists n|by eapply IH].
Qed.

Lemma inflate_block_fixed dl dd max_out output r :
  decoder fixed_litlen_lengths = Ok dl -> decoder fixed_dist_lengths = Ok dd ->
  inflate_block 1 max_out output r = inflate_codes (S (bits_left r)) dl dd max_out output r.
Proof. intros Hl Hd. unfold inflate_block. by rewrite Hl, Hd. Qed.

Lemma inflate_block_dynamic max_out output r dl dd r' :
  read_dynamic_codes r = Ok ((dl, dd), r') ->
  inflate_block 2 max_out output r = inflate_codes (S (bits_left r')) dl dd max_out output r'.
Proof. intros H. unfold inflate_block. by rewrite H. Qed.

Lemma fixed_block_read ts final w output raw :
  writer_wf w -> tokens_ok (length output) ts -> expand output ts = output ++ raw ->
  let w' := write_tokens ts (assign_codes fixed_litlen_lengths) (assign_codes fixed_dist_lengths)
    (write 1 2 (write (bit final) 1 w)) in
  writer_wf w' /\ blocks_read w w' output (output ++ raw) final.
Proof.
  intros Hw Hok Hexp. destruct fixed_codes_ok as [Hl Hd].
  destruct (codes_ok_decoder _ Hl) as (dl & _ & Hdl & _). destruct (codes_ok_decoder _ Hd) as (dd & _ & Hdd & _).
  assert (Hsl : forall s, (s < 286)%nat -> sends (assign_codes fixed_litlen_lengths) dl s).
  { intros s Hs. destruct (sends_whole _ s Hl (proj1 (fixed_used s) Hs)) as (d & H1 & H2). congruence. }
  assert (Hsd : forall s, (s < 30)%nat -> sends (assign_codes fixed_dist_lengths) dd s).
  { intros s Hs. destruct (sends_whole _ s Hd (proj2 (fixed_used s) Hs)) as (d & H1 & H2). congruence. }
  apply (codes_block_read 1 (fun w => w) [] _ _ dl dd); try done; [apply emits_id| | |].
  - intros max_out r rest Hwr Hr. exists r. split_and!; try done. by apply inflate_block_fixed.
  - eapply Forall_impl; [|by eapply tokens_ok_each]. intros t [n Ht]. apply counted_symbols in Ht.
    destruct t; cbn [token_sends]; [by apply Hsl|split; [apply Hsl|apply Hsd]; lia].
  - apply Hsl. unfold END_OF_BLOCK. lia.
Qed.

Lemma dynamic_block_read ts lf df b final w output raw :
  writer_wf w -> tokens_ok (length output) ts -> expand output ts = output ++ raw ->
  counters lf LITLEN_SYMBOLS b -> counters df DIST_SYMBOLS b -> b < 2 ^ 32 ->
  0 < atz lf END_OF_BLOCK -> Forall (token_counted lf df) ts ->
  let h := build_dynamic_header lf df in
  let w' := write_tokens ts (assign_codes (litlen_lengths h)) (assign_codes (dist_lengths h))
    (write_dynamic_header h (write 2 2 (write (bit final) 1 w))) in
  writer_wf w' /\ blocks_read w w' output (output ++ raw) final.
Proof.
  intros Hw Hok Hexp Hl Hd Hb Hend Hts h.
  destruct (dynamic_header_roundtrip lf df b Hl Hd Hb Hend) as (bs & dl & dd & He & Hr & Hsl & Hsd).
  apply (codes_block_read 2 (write_dynamic_header h) bs _ _ dl dd); try done.
  - intros max_out r rest Hwr Hrest. destruct (Hr r rest Hwr Hrest) as (r' & E & Hw' & Hs' & Hd').
    exists r'. split_and!; try done. by apply inflate_block_dynamic.
  - eapply Forall_impl; [|exact Hts]. intros [c|len dist]; cbn [token_counted token_sends].
    + apply Hsl.
    + intros [H1 H2]. split; [by apply Hsl|by apply Hsd].
  - by apply Hsl.
Qed.

(** A block reads as its raw bytes, whichever way it was written. *)
Lemma write_block_read raw ts final w output :
  writer_wf w -> bytes raw -> tokens_ok (length output) ts -> expand output ts = output ++ raw ->
  Z.of_nat (length ts) < 2 ^ 31 ->
  writer_wf (write_block raw ts final w) /\
  blocks_read w (write_block raw ts final w) output (output ++ raw) final.
Proof.
  intros Hw Hb Hok Hexp Hlen. unfold write_block.
  pose proof (count_tokens_ok ts _ Hok) as H. destruct (count_tokens ts) as [[lf df] x].
  destruct H as (Hl & Hd & Hend & Hts). cbv zeta.
  destruct (_ && _); [by apply write_stored_read|]. destruct (_ <=? _).
  - by apply fixed_block_read.
  - by apply (dynamic_block_read ts lf df (Z.of_nat (length ts) + 1)); try done; lia.
Qed.

(** ** The main loop *)

Lemma blocks_read_refl w o : blocks_read w w o o false.
Proof.
  exists []. split; [by rewrite app_nil_r|]. intros fuel max_out r rest Hw Hr _ Hf _.
  exists r, fuel. rewrite Hr in Hf. by split_and!.
Qed.

(** The token [t] stands for the input from [pos] to [p]. *)
Definition token_true (input : list Z) (pos : nat) (t : Token) (p : nat) : Prop :=
  token_ok pos t /\ expand_one (take pos input) t = take p input /\
  p = (pos + token_len t)%nat /\ (pos < p <= length input)%nat.

(** The tokens since [start] stand for the input up to [pos]. *)
Definition tokens_true (input : list Z) (start : nat) (ts : list Token) (pos : nat) : Prop :=
  tokens_ok start ts /\ expand (take start input) ts = take pos input /\ (start <= pos <= length input)%nat.

Lemma expand_len ts : forall output,
  length (expand output ts) = (length output + list_sum (map token_len ts))%nat.
Proof.
  induction ts as [|t ts IH]; intros output; [cbn; lia|].
  change (expand output (t :: ts)) with (expand (expand_one output t) ts).
  rewrite IH, expand_one_length. cbn [map].
  change (list_sum (token_len t :: map token_len ts)) with (token_len t + list_sum (map token_len ts))%nat. lia.
Qed.

Lemma tokens_true_push input start ts pos t p :
  tokens_true input start ts pos -> token_true input pos t p -> tokens_true input start (ts ++ [t]) p.
Proof.
  intros (H1 & H2 & H3) (G1 & G2 & G3 & G4). split; [|split; [|lia]].
  - apply tokens_ok_app. split; [done|]. cbn [tokens_ok]. split; [|done].
    pose proof (expand_len ts (take start input)) as Hl. rewrite H2, !length_take in Hl.
    by replace (start + list_sum (map token_len ts))%nat with pos by lia.
  - unfold expand in *. by rewrite fold_left_app, H2.
Qed.

Lemma literal_true input pos :
  bytes input -> (pos < length input)%nat -> token_true input pos (Literal (byte_at input pos)) (S pos).
Proof.
  intros Hb Hp. destruct (lookup_lt_is_Some_2 input pos Hp) as [x Hx].
  assert (E : byte_at input pos = x) by (unfold byte_at; by rewrite Hx). rewrite E.
  split; [|split; [by apply expand_literal|cbn [token_len]; lia]].
  unfold bytes in Hb. by eapply Forall_lookup_1 in Hb.
Qed.

Lemma match_true input pos len dist :
  true_match input pos len dist -> token_true input pos (Match len dist) (pos + len).
Proof.
  intros Ht. split; [|split; [by apply expand_true|]].
  - destruct Ht as (H1 & H2 & H3 & H4 & _). by cbn [token_ok].
  - destruct Ht as (H1 & H2 & _). unfold MIN_MATCH in H1. cbn [token_len]. lia.
Qed.

(** A candidate match: too short to be used, or true. *)
Definition match_ok (input : list Z) (pos : nat) (m : nat * Z) : Prop :=
  (m.1 < MIN_MATCH)%nat \/ true_match input pos m.1 m.2.

Lemma longest_match_ok f input pos :
  finder_ok f -> (next_insert f <= pos)%nat -> match_ok input pos (longest_match f input pos).
Proof.
  intros Hf Hn. pose proof (longest_match_true f input pos Hf Hn) as H.
  unfold match_ok. by destruct (longest_match f input pos).
Qed.

Lemma match_ok_len input pos m : match_ok input pos m -> (m.1 <= MAX_MATCH)%nat.
Proof. intros [H|(H & _)]; unfold MIN_MATCH, MAX_MATCH in *; lia. Qed.

(** The invariant of the loop. A block is closed at [BLOCK_TOKENS] tokens, but
    not at a deferred match; matches deferred in a row grow, so only a few more
    tokens get in. *)
Record loop_inv (input : list Z) (s : Compressor) : Prop := {
  li_writer : writer_wf (c_writer s);
  li_blocks : blocks_read writer (c_writer s) [] (take (c_start s) input) false;
  li_tokens : tokens_true input (c_start s) (c_tokens s) (c_pos s);
  li_finder : finder_ok (c_finder s) /\ (next_insert (c_finder s) <= c_pos s)%nat;
  li_current : (c_pos s < length input)%nat -> match_ok input (c_pos s) (c_current s);
  li_room : (c_pos s < length input)%nat ->
    Z.of_nat (length (c_tokens s)) < BLOCK_TOKENS + Z.of_nat (fst (c_current s));
  li_count : Z.of_nat (length (c_tokens s)) < 2 ^ 31;
}.

(** The bytes between two positions, after the bytes before the first. *)
Lemma take_between (input : list Z) a b :
  (a <= b)%nat -> take a input ++ take (b - a) (drop a input) = take b input.
Proof. intros Hab. rewrite (take_take_drop input a (b - a)). f_equal. lia. Qed.

Lemma tokens_expand input start ts pos :
  tokens_true input start ts pos ->
  tokens_ok (length (take start input)) ts /\
  expand (take start input) ts = take start input ++ take (pos - start) (drop start input).
Proof.
  intros (H1 & H2 & H3). rewrite length_take, Nat.min_l, take_between by lia. done.
Qed.

(** Taking the token [t] and closing the block when it is full. *)
Lemma take_token_inv input s f t p :
  bytes input -> loop_inv input s -> (c_pos s < length input)%nat ->
  finder_ok f -> (next_insert f <= S (c_pos s))%nat -> token_true input (c_pos s) t p ->
  let f := insert_through input p f in
  let current := if (p <? length input)%nat then longest_match f input p else c_current s in
  let ts := c_tokens s ++ [t] in
  loop_inv input
    (if (BLOCK_TOKENS <=? Z.of_nat (length ts)) && (p <? length input)%nat then
      {| c_writer := write_block (take (p - c_start s) (drop (c_start s) input)) ts false (c_writer s);
         c_finder := f; c_tokens := []; c_start := p; c_pos := p; c_current := current |}
    else
      {| c_writer := c_writer s; c_finder := f; c_tokens := ts; c_start := c_start s; c_pos := p;
         c_current := current |}).
Proof.
  intros Hb Hi Hpos Hf Hn Ht f' current ts.
  pose proof (tokens_true_push _ _ _ _ _ _ (li_tokens _ _ Hi) Ht) as Hts. fold ts in Hts.
  pose proof (li_room _ _ Hi Hpos) as Hroom. pose proof (match_ok_len _ _ _ (li_current _ _ Hi Hpos)) as Hm.
  assert (Hlen : Z.of_nat (length ts) < 2 ^ 31).
  { unfold ts. rewrite length_app. unfold BLOCK_TOKENS, MAX_MATCH in *. cbn [length]. lia. }
  destruct (insert_through_ok input p f Hf) as [Hf' Hn']; [destruct Ht; lia|]. fold f' in Hf', Hn'.
  assert (Hcur : (p < length input)%nat -> match_ok input p current).
  { intros Hp. unfold current. rewrite (proj2 (Nat.ltb_lt _ _) Hp). apply longest_match_ok; [done|lia]. }
  destruct (_ && _) eqn:E.
  - destruct (tokens_expand _ _ _ _ Hts) as [Hok Hexp].
    destruct (write_block_read (take (p - c_start s) (drop (c_start s) input)) ts false (c_writer s)
      (take (c_start s) input)) as [Hw' Hr']; [apply Hi|solve_bytes|done|done|done|].
    destruct Hts as (_ & _ & Hle). rewrite take_between in Hr' by lia.
    split; cbn [c_writer c_finder c_tokens c_start c_pos c_current length]; try done.
    + eapply blocks_read_app; [|apply Hi|exact Hr']. rewrite !length_take. lia.
    + split; [done|]. split; [done|lia].
    + split; [done|lia].
    + intros _. unfold BLOCK_TOKENS. lia.
  - split; cbn [c_writer c_finder c_tokens c_start c_pos c_current]; try done; try apply Hi.
    + split; [done|lia].
    + intros Hp. rewrite (proj2 (Nat.ltb_lt _ _) Hp), andb_true_r in E. lia.
Qed.

Lemma take_token_ok input s f :
  bytes input -> loop_inv input s -> (c_pos s < length input)%nat ->
  finder_ok f -> (next_insert f <= S (c_pos s))%nat ->
  loop_inv input (take_token input s f) /\ (c_pos s < c_pos (take_token input s f))%nat.
Proof.
  intros Hb Hi Hpos Hf Hn. pose proof (li_current _ _ Hi Hpos) as Hc. unfold take_token.
  destruct (c_current s) as [len dist] eqn:Ec. unfold match_ok in Hc. cbn [fst snd] in Hc.
  assert (Ht : exists t p, (if (MIN_MATCH <=? len)%nat then (Match len dist, (c_pos s + len)%nat)
    else (Literal (byte_at input (c_pos s)), S (c_pos s))) = (t, p) /\ token_true input (c_pos s) t p).
  { destruct (Nat.leb_spec MIN_MATCH len) as [Hl|Hl]; eexists _, _; (split; [reflexivity|]).
    - apply match_true. destruct Hc; [lia|done].
    - by apply literal_true. }
  destruct Ht as (t & p & -> & Ht). pose proof (take_token_inv input s f t p Hb Hi Hpos Hf Hn Ht) as H.
  cbv zeta in *. rewrite Ec in H. split; [exact H|].
  destruct Ht as (_ & _ & _ & Hp). destruct (_ && _); cbn [c_pos]; lia.
Qed.

Lemma compress_step_ok input s :
  bytes input -> loop_inv input s -> (c_pos s < length input)%nat ->
  loop_inv input (compress_step input s) /\ (c_pos s < c_pos (compress_step input s))%nat.
Proof.
  intros Hb Hi Hpos. destruct (li_finder _ _ Hi) as [Hf Hn].
  unfold compress_step. destruct (c_current s) as [len dist] eqn:Ec.
  destruct (_ && _) eqn:E; [|apply take_token_ok; (done || lia)].
  destruct (insert_through_ok input (S (c_pos s)) (c_finder s) Hf ltac:(lia)) as [Hf' Hn'].
  set (f' := insert_through input (S (c_pos s)) (c_finder s)) in *.
  pose proof (longest_match_ok f' input (S (c_pos s)) Hf' ltac:(lia)) as Hnext.
  destruct (Nat.ltb_spec len (longest_match f' input (S (c_pos s))).1) as [Hlt|Hge];
    [|apply take_token_ok; (done || lia)].
  pose proof (li_room _ _ Hi Hpos) as Hroom. rewrite Ec in Hroom. cbn [fst] in Hroom.
  pose proof (match_ok_len _ _ _ Hnext) as Hm. split; [|cbn [c_pos]; lia].
  split; cbn [c_writer c_finder c_tokens c_start c_pos c_current]; try apply Hi; try done.
  - eapply tokens_true_push; [apply Hi|by apply literal_true].
  - split; [done|lia].
  - intros _. rewrite length_app. cbn [length]. lia.
  - rewrite length_app. unfold BLOCK_TOKENS, MAX_MATCH in *. cbn [length]. lia.
Qed.

(** As many turns as there are bytes left reach the end. *)
Lemma compress_loop_ok input fuel : forall s,
  bytes input -> loop_inv input s -> (length input - c_pos s <= fuel)%nat ->
  loop_inv input (compress_loop fuel input s) /\ c_pos (compress_loop fuel input s) = length input.
Proof.
  induction fuel as [|fuel IH]; intros s Hb Hi Hfuel;
    pose proof (proj2 (proj2 (li_tokens _ _ Hi))) as Hle; cbn [compress_loop]; [split; [done|lia]|].
  destruct (Nat.ltb_spec (c_pos s) (length input)) as [Hlt|Hge]; [|split; [done|lia]].
  destruct (compress_step_ok input s Hb Hi Hlt) as [Hi' Hadv]. apply IH; [done|done|lia].
Qed.

Lemma finder_empty_ok : finder_ok finder.
Proof. split; intros i p H; cbn [head prev finder] in H; by rewrite lookup_empty in H. Qed.

Lemma writer_empty : writer_wf writer /\ written writer = [].
Proof. split; [|done]. unfold writer_wf. cbn. split_and!; (lia || constructor). Qed.

Lemma loop_inv_start input :
  loop_inv input {| c_writer := writer; c_finder := finder; c_tokens := []; c_start := 0; c_pos := 0;
                    c_current := longest_match finder input 0 |}.
Proof.
  split; cbn [c_writer c_finder c_tokens c_start c_pos c_current length].
  - apply writer_empty.
  - apply blocks_read_refl.
  - split; [done|]. split; [done|lia].
  - split; [apply finder_empty_ok|done].
  - intros _. apply longest_match_ok; [apply finder_empty_ok|done].
  - intros _. unfold BLOCK_TOKENS. lia.
  - lia.
Qed.

(** The blocks [compress] writes read as the input. *)
Lemma compress_blocks input :
  bytes input ->
  exists w, compress input = finish w /\ writer_wf w /\ blocks_read writer w [] input true.
Proof.
  intros Hb. unfold compress.
  destruct (compress_loop_ok input (length input) _ Hb (loop_inv_start input)) as [Hi Hend];
    [cbn [c_pos]; lia|].
  set (s := compress_loop _ _ _) in *.
  pose proof (li_tokens _ _ Hi) as Hts. rewrite Hend in Hts.
  destruct (tokens_expand _ _ _ _ Hts) as [Hok Hexp]. destruct Hts as (_ & _ & Hle).
  rewrite (take_ge (drop _ _)) in Hexp by (rewrite length_drop; lia).
  destruct (write_block_read (drop (c_start s) input) (c_tokens s) true (c_writer s)
    (take (c_start s) input)) as [Hw' Hr']; [apply Hi|solve_bytes|done|done|apply Hi|].
  rewrite take_drop in Hr'. eexists. split; [reflexivity|]. split; [exact Hw'|].
  eapply blocks_read_app; [|apply Hi|exact Hr']. rewrite length_take. lia.
Qed.

(** What [compress] wrote inflates to the input, whatever bytes follow. *)
Lemma compress_inflates input :
  bytes input ->
  bytes (compress input) /\
  forall rest max_out, bytes rest -> Z.of_nat (length input) <= max_out ->
    inflate (compress input ++ rest) max_out = Ok (input, length (compress input)).
Proof.
  intros Hb. destruct (compress_blocks input Hb) as (w & -> & Hw & (e & He & Hread)).
  destruct writer_empty as [_ Hw0]. rewrite Hw0 in He. cbn [app] in He.
  destruct (finish_spec w Hw) as (pad & Hfb & Hbits & Hpad). rewrite He in Hbits. split; [done|].
  intros rest max_out Hrest Hmax. set (z := finish w) in *.
  assert (Hall : bytes (z ++ rest)) by solve_bytes.
  assert (Hmod : (length (bytes_bits rest) mod 8 = 0)%nat).
  { rewrite bytes_bits_length, Nat.mul_comm. apply Nat.Div0.mod_mul. }
  destruct (Hread (S (8 * length (z ++ rest))) max_out (reader (z ++ rest)) (pad ++ bytes_bits rest))
    as (r & fuel & Hwr & Hsr & Hdr & _ & E); [by apply reader_wf|..|].
  - by rewrite reader_rest, bytes_bits_app, Hbits, app_assoc.
  - rewrite Hw0, reader_rest, bytes_bits_length, Nat.mul_comm. apply Nat.Div0.mod_mul.
  - rewrite reader_rest, bytes_bits_length. lia.
  - done.
  - unfold inflate. rewrite E. do 2 f_equal.
    destruct (align_spec r pad (bytes_bits rest) Hwr Hsr Hpad Hmod) as (Hwa & Hsa & Hca & Hda).
    pose proof (rest_bits_length _ Hwa) as Hl. destruct Hwa as (_ & _ & _ & Hp).
    rewrite Hsa, Hca, Hda, Hdr, bytes_bits_length in Hl. rewrite Hda, Hdr in Hp.
    cbn [data reader] in Hl, Hp. rewrite length_app in Hl, Hp. unfold position. lia.
Qed.

(** C17. Compressing any bytes and inflating the stream with an output limit the
    bytes fit in gives the bytes back and consumes the whole stream: the matches
    found, the lazy choice among them, the split into blocks, the choice of
    stored, fixed or dynamic codes and the code lengths on the wire all cancel
    out. *)
Theorem deflate_roundtrip input max_out :
  bytes input -> Z.of_nat (length input) <= max_out ->
  decompress_with_limit (compress input) max_out = Ok input.
Proof.
  intros Hb Hmax. destruct (compress_inflates input Hb) as [_ H].
  specialize (H [] max_out ltac:(constructor) Hmax). rewrite app_nil_r in H.
  unfold decompress_with_limit. by rewrite H, Nat.eqb_refl.
Qed.

Lemma deflate_roundtrip_witness :
  decompress_with_limit (compress (lit "abcabcabcabcabc")) 15 = Ok (lit "abcabcabcabcabc").
Proof. apply (deflate_roundtrip (lit "abcabcabcabcabc") 15); [apply (bool_decide_unpack _); vm_compute; exact I|vm_compute; discriminate]. Defined.

End DeflateRoundTrip.
