(* ===== verification/InflateSafety.v ===== *)
(** * Inflating hostile input ([rustlavel-http/src/compression/deflate.rs])

    On any bytes at all, inflating ends with output within the limit or with one
    of the errors of the format: no loop runs for longer than there are bits, no
    index is out of range, and nothing is produced beyond the limit. *)

From S2P Require Import Prelude Bits Huffman Lz77 Deflate.

Module InflateSafety.
Import Bits Huffman Lz77 Deflate.

(** The reader [r'] has read at least [k] bits more than [r]. *)
Definition further (k : nat) (r r' : BitReader) : Prop :=
  wf r' /\ data r' = data r /\ (bits_left r' + k <= bits_left r)%nat.

(** A step of a parser: an error of the format, or a result with [P] and
    progress. *)
Definition safe {A} (k : nat) (P : A -> Prop) (r : BitReader)
    (x : result InflateError (A * BitReader)) : Prop :=
  match x with
  | Ok (a, r') => P a /\ further k r r'
  | Err e => e <> Stuck
  end.

Lemma further_trans j k r1 r2 r3 : further j r1 r2 -> further k r2 r3 -> further (j + k) r1 r3.
Proof. intros (_ & H2 & H3) (G1 & G2 & G3). split; [done|]. split; [congruence|lia]. Qed.

Lemma further_weaken j k r r' : further j r r' -> (k <= j)%nat -> further k r r'.
Proof. intros (H1 & H2 & H3) Hk. split_and!; [done|done|lia]. Qed.

Lemma further_refl r : wf r -> further 0 r r.
Proof. intros Hw. split_and!; [done|done|lia]. Qed.

Lemma safe_further {A} j k (P : A -> Prop) r r' x :
  further j r r' -> safe k P r' x -> safe (j + k) P r x.
Proof.
  intros Hf. destruct x as [[a r'']|e]; [|done]. intros [Ha Hr]. split; [done|].
  by eapply further_trans.
Qed.

Lemma safe_weaken {A} j k (P Q : A -> Prop) r x :
  safe j P r x -> (k <= j)%nat -> (forall a, P a -> Q a) -> safe k Q r x.
Proof.
  destruct x as [[a r']|e]; [|done]. intros [Ha Hr] Hk HPQ. split; [by apply HPQ|].
  by eapply further_weaken.
Qed.

(** Taking a step: [H] is what is known of the next computation. *)
Ltac step H a r Ha Hr :=
  let S := fresh "S" in
  pose proof H as S;
  match type of S with safe _ _ _ ?x => destruct x as [[a r]|?]; [destruct S as [Ha Hr]|exact S] end.

(** Progress adds up. *)
Ltac progressed :=
  unfold further in *; destruct_and?; split_and?; (done || congruence || lia).

(** ** Bits and bytes *)

Lemma read_safe n r : wf r -> safe n (fun v => 0 <= v < 2 ^ Z.of_nat n) r (read n r).
Proof.
  intros Hw. pose proof (read_bits_spec n r Hw) as H. destruct (_ <=? _)%nat; [|by rewrite H].
  destruct H as (v & r' & -> & Hv & Hr & Hw' & Hd). split; [done|]. split; [done|]. split; [done|].
  rewrite !bits_left_rest, Hr, length_app, bits_of_length by done. lia.
Qed.

Lemma align_further r : wf r -> further 0 r (align_to_byte r).
Proof.
  intros (Hc & Hb & Hd & Hp). split; [|split; [done|unfold bits_left; cbn; lia]].
  split_and!; [cbn; lia|cbn; lia|cbn; lia|done|done].
Qed.

Lemma take_bytes_safe n r :
  wf r -> safe 0 (fun bs => bytes bs /\ length bs = n) r (take_bytes n r).
Proof.
  intros (Hc & Hb & Hd & Hp). unfold take_bytes. destruct (Nat.leb_spec (pos r + n) (length (data r))); [|done].
  split; [split; [solve_bytes|solve_len]|].
  split; [unfold wf; cbn [count bits data pos]; split_and!; (done || lia)|]. split; [done|]. unfold bits_left. cbn [count pos data]. lia.
Qed.

(** ** Decoding a symbol *)

(** A decoder has a symbol for every code it can find. *)
Definition decoder_ok (d : Decoder) : Prop :=
  (list_sum (drop 1 (counts d)) <= length (symbols d))%nat.

Lemma first_slot_sum cs : first_slot cs (length cs) = list_sum cs.
Proof. induction cs as [|c cs IH]; [done|]. cbn [first_slot length]. rewrite IH. done. Qed.

Lemma decoder_built lengths :
  short lengths ->
  match decoder lengths with Ok d => decoder_ok d | Err e => e <> Stuck end.
Proof.
  intros Hs. destruct (decoder lengths) as [d|e] eqn:E.
  - destruct (decoder_inv _ _ Hs E) as (rest & _ & Hc & Hsym). unfold decoder_ok.
    rewrite Hc, drop_tally, <- first_slot_sum, code_counts_length by done.
    pose proof (first_slot_total lengths Hs).
    destruct (place_spec lengths 0 (offsets (tally lengths)) (repeat 0%nat (length lengths - cnt 0 lengths)))
      as (Hl & _ & _); [done|rewrite offsets_length by done; unfold MAX_BITS; lia|
        rewrite repeat_length; by apply runs_ok_offsets|].
    rewrite Hsym, Hl, repeat_length. lia.
  - unfold decoder in E. destruct (kraft _ _) as [x|e'] eqn:Ek; [by destruct (_ && _); simplify_eq|].
    assert (H : forall cs z e, kraft z cs = Err e -> e = InvalidCode).
    { clear. induction cs as [|c cs IH]; intros z e; cbn [kraft]; [done|]. cbv zeta.
      destruct (_ <? 0); [by intros [= <-]|apply IH]. }
    apply H in Ek. by simplify_eq.
Qed.

(** The code read so far is at or after the first code of its length, so the
    index is not negative. *)
Lemma decode_loop_safe syms cs : forall v first index r,
  wf r -> first <= 2 * v -> 0 <= index ->
  index + Z.of_nat (list_sum cs) <= Z.of_nat (length syms) ->
  safe 1 (fun s => In s syms) r (decode_loop syms cs (2 * v) first index r).
Proof.
  induction cs as [|c cs IH]; intros v first index r Hw Hf Hi Hs; cbn [decode_loop]; [done|].
  change (list_sum (c :: cs)) with (c + list_sum cs)%nat in Hs.
  unfold read_bit. step (read_safe 1 r Hw) b r1 Hb Hr.
  replace b with (Z.b2z (0 <? b)) by (destruct (Z.ltb_spec 0 b); cbn; lia). rewrite lor_bit.
  set (code := 2 * v + Z.b2z (0 <? b)). assert (first <= code) by (unfold code; destruct (0 <? b); cbn; lia).
  destruct (Z.ltb_spec (code - first) (Z.of_nat c)).
  - destruct (lookup_lt_is_Some_2 syms (Z.to_nat (index + code - first))) as [s Hsym]; [lia|]. rewrite Hsym.
    split; [|done]. by eapply list_elem_of_In, list_elem_of_lookup_2.
  - rewrite !Z.shiftl_mul_pow2, !(Z.mul_comm _ (2 ^ 1)) by lia. change (2 ^ 1) with 2.
    eapply safe_weaken; [eapply safe_further; [exact Hr|apply IH]|lia|done]; [apply Hr|lia|lia|lia].
Qed.

Lemma decode_safe d r : wf r -> decoder_ok d -> safe 1 (fun _ => True) r (decode d r).
Proof.
  intros Hw Hd. eapply safe_weaken; [|done|done]. unfold decode.
  apply (decode_loop_safe (symbols d) (drop 1 (counts d)) 0 0 0 r); [done|lia|lia|].
  unfold decoder_ok in Hd. lia.
Qed.

(** ** The headers of dynamic blocks *)

Lemma read_code_lengths_safe order : forall cl r,
  wf r -> short cl ->
  safe 0 short r (read_code_lengths order cl r).
Proof.
  induction order as [|sym order IH]; intros cl r Hw Hs; cbn [read_code_lengths];
    [split; [done|by apply further_refl]|].
  step (read_safe 3 r Hw) v r1 Hv Hr. change (2 ^ Z.of_nat 3) with 8 in Hv.
  eapply safe_weaken; [eapply safe_further; [exact Hr|apply IH]|lia|done]; [apply Hr|].
  apply Forall_insert; [done|unfold MAX_BITS; lia].
Qed.

Lemma fill_ok lengths index n value :
  (index + n <= length lengths)%nat ->
  length (fill lengths index n value) = length lengths /\
  (short lengths -> (value <= MAX_BITS)%nat -> short (fill lengths index n value)).
Proof.
  intros Hl. unfold fill. split.
  - rewrite !length_app, length_take, repeat_length, length_drop. lia.
  - intros Hs Hv. apply Forall_app. split; [by apply Forall_take|]. apply Forall_app.
    split; [|by apply Forall_drop]. apply Forall_forall. by intros x ->%repeat_spec.
Qed.

Lemma read_run_safe symbol index lengths r :
  wf r -> short lengths ->
  match read_run symbol index lengths r with
  | Ok (value, n, r') => (value <= MAX_BITS)%nat /\ (0 < n)%nat /\ further 0 r r'
  | Err e => e <> Stuck
  end.
Proof.
  intros Hw Hs. unfold read_run.
  destruct (Nat.leb_spec symbol 15); [by split_and!; [unfold MAX_BITS|lia|apply further_refl]|].
  assert (Hat : (at_ lengths (index - 1) <= MAX_BITS)%nat).
  { unfold at_. destruct (lengths !! _) as [v|] eqn:E; cbn; [|lia].
    unfold short in Hs. by eapply Forall_lookup_1 in Hs. }
  destruct (_ =? 16)%nat; [destruct (_ =? 0)%nat; [done|]; step (read_safe 2 r Hw) x r1 Hx Hr|
    destruct (_ =? 17)%nat; [step (read_safe 3 r Hw) x r1 Hx Hr|step (read_safe 7 r Hw) x r1 Hx Hr]];
    split_and!; (done || lia || by eapply further_weaken; [exact Hr|lia]).
Qed.

Lemma read_lengths_safe fuel : forall d index lengths r,
  wf r -> decoder_ok d -> short lengths -> (length lengths - index <= fuel)%nat ->
  safe 0 short r (read_lengths fuel d index lengths r).
Proof.
  induction fuel as [|fuel IH]; intros d index lengths r Hw Hd Hs Hfuel; cbn [read_lengths];
    (destruct (Nat.leb_spec (length lengths) index); [split; [done|by apply further_refl]|]); [lia|].
  step (decode_safe d r Hw Hd) code r1 Hcode Hr1. pose proof (read_run_safe code index lengths r1 (proj1 Hr1) Hs) as H2.
  destruct (read_run code index lengths r1) as [[[value n] r2]|e]; [|done].
  destruct H2 as (Hv & Hn & Hr2). destruct (Nat.ltb_spec (length lengths) (index + n)); [done|].
  destruct (fill_ok lengths index n value ltac:(lia)) as [Hlen Hsh].
  eapply safe_weaken; [eapply safe_further; [by eapply further_trans|apply IH]|lia|done];
    [apply Hr2|done|by apply Hsh|lia].
Qed.

Lemma short_zeros n : short (repeat 0%nat n).
Proof. apply Forall_forall. intros x ->%repeat_spec. unfold MAX_BITS. lia. Qed.

Lemma read_dynamic_codes_safe r :
  wf r -> safe 0 (fun d => decoder_ok d.1 /\ decoder_ok d.2) r (read_dynamic_codes r).
Proof.
  intros Hw. unfold read_dynamic_codes.
  step (read_safe 5 r Hw) x r1 Hx Hr1. step (read_safe 5 r1 (proj1 Hr1)) y r2 Hy Hr2.
  step (read_safe 4 r2 (proj1 Hr2)) z r3 Hz Hr3. cbv zeta. destruct (_ || _); [done|].
  step (read_code_lengths_safe (take (Z.to_nat z + 4) CODE_LENGTH_ORDER) _ r3 (proj1 Hr3)
    (short_zeros CODE_LENGTH_SYMBOLS)) cl r4 Hcl Hr4.
  pose proof (decoder_built cl Hcl) as Hd. destruct (decoder cl) as [d|e]; [|done].
  step (read_lengths_safe _ d 0 _ r4 (proj1 Hr4) Hd (short_zeros (Z.to_nat x + 257 + (Z.to_nat y + 1)))
    ltac:(rewrite repeat_length; apply Nat.le_sub_l)) ls r5 Hls Hr5.
  destruct (_ =? 0)%nat; [done|].
  pose proof (decoder_built _ (Forall_take _ (Z.to_nat x + 257) _ Hls)) as H1.
  destruct (decoder (take _ ls)) as [d1|e]; [|done].
  pose proof (decoder_built _ (Forall_drop _ (Z.to_nat x + 257) _ Hls)) as H2.
  destruct (decoder (drop _ ls)) as [d2|e]; [|done].
  split; [done|]. progressed.
Qed.

(** ** Blocks *)

Section Limit.
Context (max_out : Z).

(** Output within the limit. *)
Definition within (output : list Z) : Prop := bytes output /\ Z.of_nat (length output) <= max_out.

Lemma within_app output more :
  within output -> bytes more -> Z.of_nat (length output) + Z.of_nat (length more) <= max_out ->
  within (output ++ more).
Proof. intros [Hb _] Hm Hl. split; [solve_bytes|solve_len]. Qed.

Lemma copy_bytes n : forall start output, bytes output -> bytes (copy n start output).
Proof.
  induction n as [|n IH]; intros start output Hb; cbn [copy]; [done|]. apply IH, bytes_app.
  split; [done|]. apply bytes_cons. split; [|apply bytes_nil]. unfold byte_at.
  destruct (output !! start) as [b|] eqn:E; cbn; [|lia]. unfold bytes in Hb. by eapply Forall_lookup_1 in Hb.
Qed.

Lemma inflate_stored_safe output r :
  wf r -> within output -> safe 0 within r (inflate_stored output max_out r).
Proof.
  intros Hw Ho. unfold inflate_stored. pose proof (align_further r Hw) as Hr.
  step (read_safe 16 _ (proj1 Hr)) len r1 Hlen Hr1. step (read_safe 16 _ (proj1 Hr1)) nlen r2 Hnlen Hr2.
  destruct (negb _); [done|]. step (take_bytes_safe (Z.to_nat len) _ (proj1 Hr2)) bs r3 Hbs Hr3.
  destruct Hbs as [Hb Hl]. destruct (Z.ltb_spec max_out (Z.of_nat (length output) + len)); [done|].
  split; [apply within_app; (done || lia)|]. progressed.
Qed.

Lemma inflate_codes_safe fuel : forall dl dd output r,
  wf r -> decoder_ok dl -> decoder_ok dd -> within output -> (bits_left r < fuel)%nat ->
  safe 0 within r (inflate_codes fuel dl dd max_out output r).
Proof.
  induction fuel as [|fuel IH]; intros dl dd output r Hw Hdl Hdd Ho Hfuel; [lia|]. cbn [inflate_codes].
  step (decode_safe dl r Hw Hdl) symbol r1 Hs1 Hr1.
  assert (Hgo : forall output r', within output -> further 1 r r' ->
    safe 0 within r (inflate_codes fuel dl dd max_out output r')).
  { intros output' r' Ho' Hr'. eapply safe_weaken; [eapply safe_further; [exact Hr'|apply IH]|lia|done];
      try done; [apply Hr'|]. destruct Hr' as (_ & _ & Hr'). lia. }
  destruct (Nat.ltb_spec symbol END_OF_BLOCK).
  { destruct (Z.leb_spec max_out (Z.of_nat (length output))); [done|]. apply Hgo; [|done].
    apply within_app; [done| |cbn; lia]. unfold END_OF_BLOCK in *. solve_bytes. }
  destruct (_ =? END_OF_BLOCK)%nat; [split; [done|progressed]|]. cbv zeta.
  destruct (_ <=? _)%nat; [done|].
  step (read_safe (at_ LENGTH_EXTRA (symbol - 257)) r1 (proj1 Hr1)) x r2 Hx Hr2.
  step (decode_safe dd r2 (proj1 Hr2) Hdd) code r3 Hs3 Hr3. destruct (_ <=? _)%nat; [done|].
  step (read_safe (at_ DIST_EXTRA code) r3 (proj1 Hr3)) y r4 Hy Hr4.
  destruct (_ <? _); [done|]. destruct (Z.ltb_spec max_out (Z.of_nat (length output) +
    (Z.of_nat (at_ LENGTH_BASE (symbol - 257)) + x))); [done|].
  apply Hgo; [|progressed]. split; [apply copy_bytes, Ho|]. rewrite copy_length. lia.
Qed.

Lemma inflate_block_safe kind output r :
  wf r -> within output -> safe 0 within r (inflate_block kind max_out output r).
Proof.
  intros Hw Ho. unfold inflate_block. destruct (kind =? 0); [by apply inflate_stored_safe|].
  destruct (kind =? 1); [|destruct (kind =? 2); [|done]].
  - assert (Hl : short fixed_litlen_lengths) by (repeat (apply Forall_app; split);
      apply Forall_forall; intros z Hz%repeat_spec; unfold MAX_BITS; lia).
    assert (Hd : short fixed_dist_lengths) by
      (apply Forall_forall; intros z Hz%repeat_spec; unfold MAX_BITS; lia).
    pose proof (decoder_built _ Hl) as H1. destruct (decoder fixed_litlen_lengths) as [dl|e]; [|done].
    pose proof (decoder_built _ Hd) as H2. destruct (decoder fixed_dist_lengths) as [dd|e]; [|done].
    apply inflate_codes_safe; (done || lia).
  - step (read_dynamic_codes_safe r Hw) d r1 Hd Hr1. destruct d as [dl dd]. destruct Hd as [Hl Hd].
    eapply safe_weaken; [eapply safe_further; [exact Hr1|apply inflate_codes_safe]|lia|done];
      try done; [apply Hr1|lia].
Qed.

Lemma inflate_blocks_safe fuel : forall output r,
  wf r -> within output -> (bits_left r < fuel)%nat ->
  safe 0 within r (inflate_blocks fuel max_out output r).
Proof.
  induction fuel as [|fuel IH]; intros output r Hw Ho Hfuel; [lia|]. cbn [inflate_blocks]. unfold read_bit.
  step (read_safe 1 r Hw) final r1 Hfin Hr1. step (read_safe 2 r1 (proj1 Hr1)) kind r2 Hkind Hr2.
  step (inflate_block_safe kind output r2 (proj1 Hr2) Ho) output' r3 Ho' Hr3.
  destruct (final =? 1); [split; [done|progressed]|].
  assert (Hr : further 1 r r3) by progressed.
  eapply safe_weaken; [eapply safe_further; [exact Hr|apply IH]|lia|done]; try done; [apply Hr|].
  destruct Hr as (_ & _ & Hr). lia.
Qed.

End Limit.

(** Inflating ends with output within the limit, or with an error of the format. *)
Lemma inflate_safe input max_out :
  bytes input -> 0 <= max_out ->
  match inflate input max_out with
  | Ok (output, consumed) =>
      bytes output /\ Z.of_nat (length output) <= max_out /\ (consumed <= length input)%nat
  | Err e => e <> Stuck
  end.
Proof.
  intros Hb Hm. pose proof (reader_wf input Hb) as Hw. unfold inflate.
  pose proof (inflate_blocks_safe max_out (S (8 * length input)) [] (reader input) Hw) as H.
  unfold safe in H. destruct (inflate_blocks _ _ _ _) as [[output r]|e].
  - destruct H as [[Ho1 Ho2] Hr]; [split; [apply bytes_nil|cbn; lia]|unfold bits_left; cbn; lia|].
    split; [done|]. split; [done|]. destruct Hr as ((_ & _ & _ & Hp) & Hd & _). rewrite Hd in Hp. exact Hp.
  - apply H; [split; [apply bytes_nil|cbn; lia]|unfold bits_left; cbn; lia].
Qed.

(** C18. Decompressing any bytes whatever under any output limit ends within the
    model's fuel: with bytes no longer than the limit and the whole input
    consumed, or with an error of the format. A decompression bomb stops at the
    limit; no malformed header, code or back-reference makes the decoder loop or
    look up a symbol it does not have. *)
Theorem inflate_bounded input max_out :
  bytes input -> 0 <= max_out ->
  match decompress_with_limit input max_out with
  | Ok output =>
      bytes output /\ Z.of_nat (length output) <= max_out /\
      inflate input max_out = Ok (output, length input)
  | Err e => e <> Stuck
  end.
Proof.
  intros Hb Hm. unfold decompress_with_limit. pose proof (inflate_safe input max_out Hb Hm) as H.
  destruct (inflate input max_out) as [[output n]|e]; [|done]. destruct H as (H1 & H2 & _).
  destruct (Nat.eqb_spec n (length input)) as [->|]; cbn [negb]; [|done]. by split_and!.
Qed.

(** A stored block whose length and complement disagree, and a bomb: a long
    run under a small limit. *)
Lemma inflate_bounded_witness :
  decompress_with_limit [1; 5; 0; 5; 0] 10 = Err LengthMismatch /\
  decompress_with_limit (compress (repeat 97 300)) 299 = Err OutputTooLarge /\
  (forall e, decompress_with_limit [1; 5; 0; 5; 0] 10 = Err e -> e <> Stuck).
Proof.
  split; [vm_compute; reflexivity|]. split; [vm_compute; reflexivity|]. intros e He.
  pose proof (inflate_bounded [1; 5; 0; 5; 0] 10 ltac:(by apply (bool_decide_unpack _)) ltac:(lia)) as H.
  rewrite He in H. exact H.
Defined.

Lemma kraft_exceeded cs : forall spare,
  0 <= spare -> kraft_weight cs > spare * 2 ^ Z.of_nat (length cs) -> kraft spare cs = Err InvalidCode.
Proof.
  induction cs as [|c cs IH]; intros spare Hs H; cbn [kraft kraft_weight length] in *.
  { change (2 ^ Z.of_nat 0) with 1 in *. lia. }
  rewrite Nat2Z.inj_succ, Z.pow_succ_r in H by lia. rewrite Z.shiftl_mul_pow2 by lia.
  destruct (Z.ltb_spec (spare * 2 ^ 1 - Z.of_nat c) 0); [done|].
  apply IH; [lia|nia].
Qed.

(** A set of code lengths makes a decoder exactly when it uses the whole
    code space, or when at most one symbol is in use and it does not exceed it;
    every other set is refused as an invalid code. *)
Theorem decoder_accepts lengths :
  short lengths ->
  let used := (length lengths - cnt 0 lengths)%nat in
  let space := 2 ^ Z.of_nat MAX_BITS in
  match decoder lengths with
  | Ok _ => shares lengths = space \/ (used <= 1)%nat /\ shares lengths <= space
  | Err e => e = InvalidCode /\ (shares lengths > space \/ (1 < used)%nat /\ shares lengths <> space)
  end.
Proof.
  intros Hs used space. unfold decoder. rewrite drop_tally, tally_at by (done || (unfold MAX_BITS; lia)).
  fold used. destruct (decide (shares lengths <= space)) as [Hle|Hgt].
  - rewrite kraft_ok; rewrite kraft_weight_shares, code_counts_length by done; fold space; [|lia].
    destruct (Z.ltb_spec 0 (1 * space - shares lengths)), (Nat.ltb_spec 1 used); cbn [andb].
    + split; [done|]. right. lia.
    + right. lia.
    + left. lia.
    + left. lia.
  - rewrite kraft_exceeded; [split; [done|left; lia]|lia|].
    rewrite kraft_weight_shares, code_counts_length by done. fold space. lia.
Qed.

(** An incomplete set of two codes is refused; a lone code of length five, which
    is incomplete too, is accepted. *)
Lemma decoder_accepts_witness :
  decoder [2%nat; 2%nat] = Err InvalidCode /\
  exists d, decoder [5%nat] = Ok d /\ (shares [5%nat] = 2 ^ 15 \/ (1 <= 1)%nat /\ shares [5%nat] <= 2 ^ 15).
Proof.
  split; [reflexivity|]. eexists. split; [reflexivity|].
  exact (decoder_accepts [5%nat] ltac:(repeat constructor)).
Defined.

End InflateSafety.
