(* ===== verification/Gzip.v ===== *)
(** * gzip and zlib framings ([rustlavel-http/src/compression/gzip.rs])

    A gzip member is a header with optional fields, a DEFLATE stream, its CRC-32
    and its length; a file is members back to back. A zlib stream has a two-byte
    header and ends in an Adler-32. *)

From S2P Require Import Prelude Checksum Bits Deflate DeflateRoundTrip InflateSafety.

Module Gzip.
Import Checksum Bits Deflate DeflateRoundTrip InflateSafety.

Definition GZIP_MAGIC : list Z := [31; 139].
Definition CM_DEFLATE : Z := 8.
Definition GZIP_HEADER_LEN : nat := 10.
Definition GZIP_TRAILER_LEN : nat := 8.
Definition FTEXT : Z := Z.shiftl 1 0.
Definition FHCRC : Z := Z.shiftl 1 1.
Definition FEXTRA : Z := Z.shiftl 1 2.
Definition FNAME : Z := Z.shiftl 1 3.
Definition FCOMMENT : Z := Z.shiftl 1 4.
Definition FLG_RESERVED : Z := 224.
Definition OS_UNKNOWN : Z := 255.

(** [input.get(from..to)]: nothing when the range is out of bounds. *)
Definition get (input : list Z) (from to : nat) : result InflateError (list Z) :=
  if (from <=? to)%nat && (to <=? length input)%nat then Ok (take (to - from) (drop from input))
  else Err Truncated.

Definition le_u16 (bs : list Z) : Z := from_le_bytes (take 2 bs).
Definition le_u32 (bs : list Z) : Z := from_le_bytes (take 4 bs).

Definition gzip_compress (input : list Z) : list Z :=
  let body := compress input in
  GZIP_MAGIC ++ [CM_DEFLATE] ++ [0] ++ [0; 0; 0; 0] ++ [0] ++ [OS_UNKNOWN] ++ body ++
  to_le_bytes 4 (crc32 input) ++ to_le_bytes 4 (u32 (Z.of_nat (length input))).

(** [iter().position(|&b| b == 0)]. *)
Fixpoint position_zero (l : list Z) : option nat :=
  match l with
  | [] => None
  | b :: l => if b =? 0 then Some 0%nat else option_map S (position_zero l)
  end.

Definition skip_zero_terminated (input : list Z) (pos : nat) : result InflateError nat :=
  let? rest := get input pos (length input) in
  match position_zero rest with
  | Some e => Ok (pos + e + 1)%nat
  | None => Err Truncated
  end.

(** The optional fields of a header, one after the other. *)
Definition skip_extra (input : list Z) (flags : Z) (pos : nat) : result InflateError nat :=
  if Z.land flags FEXTRA =? 0 then Ok pos
  else
    let? field := get input pos (pos + 2) in
    Ok (pos + (2 + Z.to_nat (le_u16 field)))%nat.

Definition skip_string (input : list Z) (flags flag : Z) (pos : nat) : result InflateError nat :=
  if Z.land flags flag =? 0 then Ok pos else skip_zero_terminated input pos.

Definition check_header_crc (input : list Z) (flags : Z) (pos : nat) : result InflateError nat :=
  if Z.land flags FHCRC =? 0 then Ok pos
  else
    let? header := get input 0 pos in
    let? field := get input pos (pos + 2) in
    if negb (u16 (Z.land (crc32 header) 65535) =? le_u16 field) then Err ChecksumMismatch
    else Ok (pos + 2)%nat.

Definition gzip_header_len (input : list Z) : result InflateError nat :=
  let? fixed := get input 0 GZIP_HEADER_LEN in
  if negb (bool_decide (take 2 fixed = GZIP_MAGIC)) || negb (default 0 (fixed !! 2%nat) =? CM_DEFLATE)
  then Err InvalidHeader
  else
    let flags := default 0 (fixed !! 3%nat) in
    if negb (Z.land flags FLG_RESERVED =? 0) then Err InvalidHeader
    else
      let? pos := skip_extra input flags GZIP_HEADER_LEN in
      let? pos := skip_string input flags FNAME pos in
      let? pos := skip_string input flags FCOMMENT pos in
      let? pos := check_header_crc input flags pos in
      if (length input <? pos)%nat then Err Truncated else Ok pos.

Definition decompress_member (input : list Z) (max_out : Z) : result InflateError (list Z * nat) :=
  let? header_len := gzip_header_len input in
  let? (body, deflate_len) := inflate (drop header_len input) max_out in
  let trailer_start := (header_len + deflate_len)%nat in
  let? trailer := get input trailer_start (trailer_start + GZIP_TRAILER_LEN) in
  if negb (crc32 body =? le_u32 (take 4 trailer)) then Err ChecksumMismatch
  else if negb (u32 (Z.of_nat (length body)) =? le_u32 (drop 4 trailer)) then Err LengthMismatch
  else Ok (body, (trailer_start + GZIP_TRAILER_LEN)%nat).

(** The loop over the members; each occupies at least its trailer. *)
Fixpoint members (fuel : nat) (output rest : list Z) (max_out : Z) : result InflateError (list Z) :=
  match fuel with
  | O => Err Stuck
  | S fuel =>
      let? (body, consumed) := decompress_member rest (max_out - Z.of_nat (length output)) in
      let output := output ++ body in
      let rest := drop consumed rest in
      if (length rest =? 0)%nat then Ok output else members fuel output rest max_out
  end.

Definition gzip_decompress_with_limit (input : list Z) (max_out : Z) : result InflateError (list Z) :=
  members (S (length input)) [] input max_out.

Definition gzip_decompress (input : list Z) : result InflateError (list Z) :=
  gzip_decompress_with_limit input DEFAULT_MAX_OUTPUT.

(** ** zlib *)

Definition ZLIB_CMF : Z := 120.
Definition ZLIB_FLG : Z := 156.
Definition FDICT : Z := Z.shiftl 1 5.

Definition zlib_compress (input : list Z) : list Z :=
  let body := compress input in
  [ZLIB_CMF] ++ [ZLIB_FLG] ++ body ++ to_be_bytes 4 (adler32 input).

Definition zlib_decompress_with_limit (input : list Z) (max_out : Z) : result InflateError (list Z) :=
  let? header := get input 0 2 in
  let cmf := default 0 (header !! 0%nat) in
  let flg := default 0 (header !! 1%nat) in
  if negb (Z.land cmf 15 =? CM_DEFLATE) || (7 <? Z.shiftr cmf 4) then Err InvalidHeader
  else if negb ((cmf * 256 + flg) mod 31 =? 0) || negb (Z.land flg FDICT =? 0) then Err InvalidHeader
  else
    let? (body, deflate_len) := inflate (drop 2 input) max_out in
    let trailer_start := (2 + deflate_len)%nat in
    let? trailer := get input trailer_start (trailer_start + 4) in
    if negb (adler32 body =? from_be_bytes trailer) then Err ChecksumMismatch
    else if (trailer_start + 4 <? length input)%nat then Err TrailingData
    else Ok body.

Definition zlib_decompress (input : list Z) : result InflateError (list Z) :=
  zlib_decompress_with_limit input DEFAULT_MAX_OUTPUT.

Example framings_run :
  gzip_decompress (gzip_compress (lit "hello") ++ gzip_compress (lit " world")) = Ok (lit "hello world") /\
  zlib_decompress (zlib_compress (lit "hello")) = Ok (lit "hello") /\
  gzip_decompress [31; 139; 8; 0; 0; 0; 0; 0; 0; 255; 3; 0; 1; 0; 0; 0; 0; 0; 0; 0] = Err ChecksumMismatch.
Proof. split_and!; vm_compute; reflexivity. Qed.

(** ** Lemmas *)

Lemma get_ok (pre mid post : list Z) n :
  length mid = n -> get (pre ++ mid ++ post) (length pre) (length pre + n) = Ok mid.
Proof.
  intros Hn. unfold get. rewrite !length_app.
  rewrite (proj2 (Nat.leb_le _ _)) by lia. rewrite (proj2 (Nat.leb_le _ _)) by lia. cbn [andb].
  rewrite drop_app_ge, Nat.sub_diag, drop_0 by lia. replace (length pre + n - length pre)%nat with n by lia.
  by rewrite take_app_le, take_ge by lia.
Qed.

Lemma get_spec input from to_ bs :
  get input from to_ = Ok bs -> (from <= to_ <= length input)%nat /\ bs = take (to_ - from) (drop from input).
Proof.
  unfold get. destruct (Nat.leb_spec from to_), (Nat.leb_spec to_ (length input)); cbn [andb]; try done.
  intros [= <-]. split; [lia|done].
Qed.

Lemma get_error input from to_ e : get input from to_ = Err e -> e = Truncated.
Proof. unfold get. destruct (_ && _); [done|]. by intros [= <-]. Qed.

Lemma compress_bytes input : bytes input -> bytes (compress input).
Proof. intros Hb. apply (compress_inflates input Hb). Qed.

(** The header [compress] writes. *)
Definition plain_header : list Z := [31; 139; 8; 0; 0; 0; 0; 0; 0; 255].

Lemma plain_header_len rest : gzip_header_len (plain_header ++ rest) = Ok 10%nat.
Proof.
  unfold gzip_header_len. pose proof (get_ok [] plain_header rest 10 eq_refl) as H.
  change ([] ++ plain_header ++ rest) with (plain_header ++ rest) in H.
  change (length [] + 10)%nat with GZIP_HEADER_LEN in H. change (length []) with 0%nat in H.
  rewrite H. cbn [plain_header take lookup list_lookup default]. cbn [app length].
  by rewrite bool_decide_true.
Qed.

Lemma take_drop_app (l1 l2 : list Z) n : length l1 = n -> take n (l1 ++ l2) = l1 /\ drop n (l1 ++ l2) = l2.
Proof. intros <-. split; [apply take_app_length|apply drop_app_length]. Qed.

(** Every branch of reading a member written here, whatever follows it: the
    stored CRC-32 and the stored length are each compared with those of the
    inflated bytes, in this order, and a member that passes yields its bytes and
    its exact length. *)
Lemma member_read input rest max_out crc size :
  bytes input -> bytes rest -> Z.of_nat (length input) <= max_out ->
  0 <= crc < 2 ^ 32 -> 0 <= size < 2 ^ 32 ->
  let stream := plain_header ++ compress input in
  let member := stream ++ to_le_bytes 4 crc ++ to_le_bytes 4 size in
  decompress_member (member ++ rest) max_out =
    if crc32 input =? crc then
      if u32 (Z.of_nat (length input)) =? size then Ok (input, length member) else Err LengthMismatch
    else Err ChecksumMismatch.
Proof.
  intros Hb Hr Hmax Hcrc Hsize stream member. unfold decompress_member.
  set (trailer := to_le_bytes 4 crc ++ to_le_bytes 4 size) in *.
  assert (Htl : length trailer = 8%nat) by (unfold trailer; by rewrite length_app, !to_le_bytes_length).
  assert (Hin : member ++ rest = stream ++ trailer ++ rest) by (unfold member; by rewrite <- app_assoc).
  assert (Hin' : member ++ rest = plain_header ++ compress input ++ trailer ++ rest)
    by (rewrite Hin; unfold stream; by rewrite <- app_assoc).
  rewrite Hin' at 1. rewrite plain_header_len, Hin'.
  destruct (take_drop_app plain_header (compress input ++ trailer ++ rest) 10 eq_refl) as [_ ->].
  assert (Htr : bytes (trailer ++ rest)) by (unfold trailer; solve_bytes).
  rewrite (proj2 (compress_inflates input Hb) (trailer ++ rest) max_out Htr Hmax).
  rewrite <- Hin', Hin. replace (10 + length (compress input))%nat with (length stream)
    by (unfold stream; by rewrite length_app).
  cbv zeta. rewrite (get_ok stream trailer rest GZIP_TRAILER_LEN Htl). unfold le_u32.
  destruct (take_drop_app (to_le_bytes 4 crc) (to_le_bytes 4 size) 4 (to_le_bytes_length 4 crc)) as [H1 H2].
  fold trailer in H1, H2. rewrite H1, H2.
  rewrite !(take_ge (to_le_bytes 4 _)) by (rewrite to_le_bytes_length; lia).
  rewrite !from_to_le_bytes by done. unfold member. rewrite length_app, Htl.
  destruct (_ =? crc), (_ =? size); done.
Qed.

Lemma gzip_compress_eq input :
  gzip_compress input = (plain_header ++ compress input) ++
    to_le_bytes 4 (crc32 input) ++ to_le_bytes 4 (u32 (Z.of_nat (length input))).
Proof. unfold gzip_compress. by rewrite <- app_assoc. Qed.

Lemma gzip_compress_read input rest max_out :
  bytes input -> bytes rest -> Z.of_nat (length input) <= max_out ->
  decompress_member (gzip_compress input ++ rest) max_out = Ok (input, length (gzip_compress input)).
Proof.
  intros Hb Hr Hmax. rewrite gzip_compress_eq, member_read;
    [by rewrite !Z.eqb_refl|done|done|done|by apply crc32_range|by apply wrap_range].
Qed.

Lemma gzip_compress_bytes input : bytes input -> bytes (gzip_compress input).
Proof.
  intros Hb. rewrite gzip_compress_eq, !bytes_app. split_and!;
    [by apply (bool_decide_unpack _)|by apply compress_bytes|apply to_le_bytes_bytes|apply to_le_bytes_bytes].
Qed.

Lemma members_read parts : forall fuel output max_out,
  parts <> [] -> Forall bytes parts -> (length parts <= fuel)%nat ->
  Z.of_nat (length output) + Z.of_nat (length (concat parts)) <= max_out ->
  members fuel output (concat (map gzip_compress parts)) max_out = Ok (output ++ concat parts).
Proof.
  induction parts as [|p parts IH]; intros fuel output max_out Hne Hb Hfuel Hmax; [done|].
  rewrite Forall_cons_iff in Hb. destruct Hb as [Hp Hb]. cbn [map concat length] in *.
  destruct fuel as [|fuel]; [lia|]. rewrite length_app in Hmax. cbn [members].
  assert (Hr : bytes (concat (map gzip_compress parts))).
  { clear -Hb. induction Hb as [|q qs Hq Hqs IHq]; [apply bytes_nil|]. cbn [map concat].
    apply bytes_app. split; [by apply gzip_compress_bytes|done]. }
  rewrite gzip_compress_read by (done || lia). rewrite drop_app_length.
  destruct parts as [|q parts].
  - cbn [map concat length Nat.eqb]. by rewrite app_nil_r.
  - rewrite (proj2 (Nat.eqb_neq _ _)).
    + rewrite IH, <- app_assoc; [done|done|done|lia|rewrite length_app; lia].
    + cbn [map concat]. rewrite gzip_compress_eq. cbn [plain_header app length]. lia.
Qed.

(** Members written one after the other, as [cat a.gz b.gz] does, read as
    the concatenation of what they hold, for any number of members under any
    limit the total fits in. *)
Theorem gzip_roundtrip parts max_out :
  parts <> [] -> Forall bytes parts -> Z.of_nat (length (concat parts)) <= max_out ->
  gzip_decompress_with_limit (concat (map gzip_compress parts)) max_out = Ok (concat parts).
Proof.
  intros Hne Hb Hmax. unfold gzip_decompress_with_limit. apply members_read; [done|done| |cbn [length]; lia].
  assert (H : (length parts <= length (concat (map gzip_compress parts)))%nat); [|lia].
  clear. induction parts as [|p parts IH]; [done|]. cbn [map concat length].
  rewrite length_app, gzip_compress_eq. cbn [plain_header app length]. lia.
Qed.

Lemma gzip_roundtrip_witness :
  gzip_decompress_with_limit (gzip_compress (lit "ab") ++ gzip_compress [] ++ gzip_compress (lit "c") ++ []) 3
  = Ok (lit "ab" ++ [] ++ lit "c" ++ []).
Proof.
  apply (gzip_roundtrip [lit "ab"; []; lit "c"] 3); [done|by apply (bool_decide_unpack _)|vm_compute; discriminate].
Defined.

(** The zlib framing and its inverse: the stream is read back, checked
    against its Adler-32, and refused as soon as anything follows it. *)
Theorem zlib_roundtrip input rest max_out :
  bytes input -> bytes rest -> Z.of_nat (length input) <= max_out ->
  zlib_decompress_with_limit (zlib_compress input ++ rest) max_out =
    if (length rest =? 0)%nat then Ok input else Err TrailingData.
Proof.
  intros Hb Hr Hmax. set (trailer := to_be_bytes 4 (adler32 input)).
  assert (Htl : length trailer = 4%nat) by apply to_be_bytes_length.
  set (stream := [ZLIB_CMF; ZLIB_FLG] ++ compress input).
  assert (Hin : zlib_compress input ++ rest = stream ++ trailer ++ rest)
    by (unfold zlib_compress, stream; fold trailer; by rewrite <- !app_assoc).
  assert (Hs : length stream = (2 + length (compress input))%nat) by (unfold stream; by rewrite length_app).
  assert (Htr : bytes (trailer ++ rest)) by (unfold trailer; solve_bytes).
  unfold zlib_decompress_with_limit. rewrite Hin.
  pose proof (get_ok [] [ZLIB_CMF; ZLIB_FLG] (compress input ++ trailer ++ rest) 2 eq_refl) as Hg.
  cbn [app length Nat.add] in Hg. unfold stream. cbn [app]. rewrite Hg. cbn [lookup list_lookup default drop].
  unfold id.
  change (negb (Z.land ZLIB_CMF 15 =? CM_DEFLATE) || (7 <? Z.shiftr ZLIB_CMF 4)) with false.
  change (negb ((ZLIB_CMF * 256 + ZLIB_FLG) mod 31 =? 0) || negb (Z.land ZLIB_FLG FDICT =? 0)) with false.
  cbv iota. rewrite drop_0, (proj2 (compress_inflates input Hb) (trailer ++ rest) max_out Htr Hmax). cbv zeta.
  change (ZLIB_CMF :: ZLIB_FLG :: compress input ++ trailer ++ rest)
    with ([ZLIB_CMF; ZLIB_FLG] ++ compress input ++ trailer ++ rest).
  rewrite app_assoc. fold stream. rewrite <- Hs, (get_ok stream trailer rest 4 Htl).
  unfold trailer at 1. rewrite from_to_be_bytes by (by apply adler32_range). rewrite Z.eqb_refl. cbn [negb].
  rewrite !length_app, Htl. destruct rest as [|x rest].
  - by rewrite (proj2 (Nat.ltb_ge _ _)) by (cbn; lia).
  - by rewrite (proj2 (Nat.ltb_lt _ _)) by (cbn; lia).
Qed.

Lemma zlib_roundtrip_witness :
  zlib_decompress_with_limit (zlib_compress (lit "aaaa") ++ []) 4 = Ok (lit "aaaa").
Proof.
  apply (zlib_roundtrip (lit "aaaa") [] 4); [by apply (bool_decide_unpack _)|constructor|vm_compute; discriminate].
Defined.

(** ** What is accepted *)

(** The trailer of a member that holds [body]. *)
Definition trailer_of (body : list Z) : list Z :=
  to_le_bytes 4 (crc32 body) ++ to_le_bytes 4 (u32 (Z.of_nat (length body))).

(** A gzip file: members one after the other, each a valid header, a DEFLATE
    stream, and the checksum and the length of what the stream holds. *)
Inductive gzip_file : list Z -> list Z -> Prop :=
  | gzip_member header stream rest body max_out output :
      gzip_header_len (header ++ stream ++ trailer_of body ++ rest) = Ok (length header) ->
      inflate (stream ++ trailer_of body ++ rest) max_out = Ok (body, length stream) ->
      (rest = [] /\ output = [] \/ gzip_file rest output) ->
      gzip_file (header ++ stream ++ trailer_of body ++ rest) (body ++ output).

Lemma split_at (l : list Z) n : (n <= length l)%nat -> exists a b, l = a ++ b /\ length a = n.
Proof. intros Hn. exists (take n l), (drop n l). rewrite take_drop, length_take. split; [done|lia]. Qed.

Lemma word_back bs : bytes bs -> length bs = 4%nat -> to_le_bytes 4 (from_le_bytes bs) = bs.
Proof. intros Hb Hl. rewrite <- Hl. by apply to_from_le_bytes. Qed.

(** The errors of reading a header are errors of the format. *)
Lemma header_error input e : gzip_header_len input = Err e -> e <> Stuck.
Proof.
  assert (Hg : forall a b e, get input a b = Err e -> e <> Stuck) by (intros a b e' ->%get_error; done).
  assert (Hz : forall p e, skip_zero_terminated input p = Err e -> e <> Stuck).
  { intros p e'. unfold skip_zero_terminated. destruct (get _ _ _) as [?|] eqn:E; [|intros [= <-]; eauto].
    by destruct (position_zero _); [|intros [= <-]]. }
  assert (Hs : forall f g p e, skip_string input f g p = Err e -> e <> Stuck)
    by (intros f g p e'; unfold skip_string; destruct (_ =? 0); [done|apply Hz]).
  unfold gzip_header_len, skip_extra, check_header_crc. intros H.
  repeat first
    [ progress simplify_eq | done
    | match type of H with
      | context [match get ?i ?x ?y with _ => _ end] => destruct (get i x y) eqn:?
      | context [match skip_string ?i ?x ?y ?z with _ => _ end] => destruct (skip_string i x y z) eqn:?
      | context [if ?c then _ else _] => destruct c
      end ]; eauto.
Qed.

Lemma header_within input n : gzip_header_len input = Ok n -> (n <= length input)%nat.
Proof.
  unfold gzip_header_len. intros H.
  repeat match type of H with
    | context [match ?x with Ok _ => _ | Err _ => _ end] => destruct x; [|done]
    | context [if (length input <? ?p)%nat then _ else _] =>
        destruct (Nat.ltb_spec (length input) p); [done|by injection H as <-]
    | context [if ?c then _ else _] => destruct c; [done|]
    end.
Qed.

(** A member that is read is one. *)
Lemma member_accepted input max_out :
  bytes input -> 0 <= max_out ->
  match decompress_member input max_out with
  | Ok (body, consumed) =>
      exists header stream rest, input = header ++ stream ++ trailer_of body ++ rest /\
        gzip_header_len input = Ok (length header) /\
        inflate (stream ++ trailer_of body ++ rest) max_out = Ok (body, length stream) /\
        drop consumed input = rest /\ bytes body /\ Z.of_nat (length body) <= max_out
  | Err e => e <> Stuck
  end.
Proof.
  intros Hb Hm. unfold decompress_member. destruct (gzip_header_len input) as [hl|e] eqn:Eh;
    [|by eapply header_error].
  pose proof (inflate_safe (drop hl input) max_out (bytes_drop _ _ Hb) Hm) as Hi.
  destruct (inflate (drop hl input) max_out) as [[body n]|e] eqn:Ei; [|done].
  destruct Hi as (Hbb & Hbl & Hn). cbv zeta. destruct (get _ _ _) as [t|e] eqn:Et; [|apply get_error in Et; by subst].
  apply get_spec in Et as [Hle Ht]. unfold GZIP_TRAILER_LEN in *.
  replace (hl + n + 8 - (hl + n))%nat with 8%nat in Ht by lia.
  assert (Hbt : bytes t) by (subst t; solve_bytes).
  assert (Htl : length t = 8%nat) by (subst t; rewrite length_take, length_drop; lia).
  destruct (Z.eqb_spec (crc32 body) (le_u32 (take 4 t))) as [Ec|]; cbn [negb]; [|done].
  destruct (Z.eqb_spec (u32 (Z.of_nat (length body))) (le_u32 (drop 4 t))) as [El|]; cbn [negb]; [|done].
  assert (Htr : trailer_of body = t).
  { unfold trailer_of. rewrite Ec, El. unfold le_u32.
    rewrite !word_back; [|solve_bytes|solve_len|solve_bytes|solve_len].
    rewrite take_take, Nat.min_id, (take_ge (drop 4 t)) by (rewrite length_drop; lia). apply take_drop. }
  assert (Hrest : drop hl input = take n (drop hl input) ++ t ++ drop (hl + n + 8) input).
  { rewrite <- (take_drop n (drop hl input)) at 1. f_equal. rewrite drop_drop.
    rewrite <- (take_drop 8 (drop (hl + n) input)), <- Ht, drop_drop. done. }
  exists (take hl input), (take n (drop hl input)), (drop (hl + n + 8) input). rewrite Htr, <- Hrest.
  pose proof (header_within _ _ Eh) as Hhl. rewrite take_drop, !length_take, length_drop.
  replace (hl `min` length input)%nat with hl by lia.
  rewrite length_drop in Hn. replace (n `min` (length input - hl))%nat with n by lia. by split_and!.
Qed.

Lemma members_accepted fuel : forall output rest max_out,
  bytes rest -> bytes output -> Z.of_nat (length output) <= max_out -> (length rest < fuel)%nat ->
  match members fuel output rest max_out with
  | Ok result => exists more, result = output ++ more /\ gzip_file rest more /\
                 bytes result /\ Z.of_nat (length result) <= max_out
  | Err e => e <> Stuck
  end.
Proof.
  induction fuel as [|fuel IH]; intros output rest max_out Hr Ho Hmax Hfuel; [lia|]. cbn [members].
  pose proof (member_accepted rest (max_out - Z.of_nat (length output)) Hr ltac:(lia)) as H.
  destruct (decompress_member _ _) as [[body n]|e]; [|done].
  destruct H as (header & stream & rest' & -> & Hh & Hi & Hd & Hb & Hl). rewrite Hd.
  assert (Hr' : bytes rest') by (rewrite <- Hd; solve_bytes).
  assert (Hob : bytes (output ++ body)) by solve_bytes.
  assert (Hlen : Z.of_nat (length (output ++ body)) <= max_out) by (rewrite length_app; lia).
  destruct (Nat.eqb_spec (length rest') 0) as [E|].
  - apply nil_length_inv in E. subst rest'. exists (body ++ []). rewrite app_nil_r at 1.
    split_and!; try done. econstructor; [done|done|by left].
  - specialize (IH (output ++ body) rest' max_out Hr' Hob Hlen).
    destruct (members fuel (output ++ body) rest' max_out) as [res|e].
    + destruct IH as (more & -> & Hf & Hbr & Hlr).
      { rewrite !length_app in Hfuel. unfold trailer_of in Hfuel. rewrite length_app, !to_le_bytes_length in Hfuel. lia. }
      exists (body ++ more). rewrite app_assoc. split_and!; try done. econstructor; [done|done|by right].
    + apply IH. rewrite !length_app in Hfuel. unfold trailer_of in Hfuel.
      rewrite length_app, !to_le_bytes_length in Hfuel. lia.
Qed.

(** Whatever bytes arrive, reading them as gzip ends: with an error of the
    format, or because they are a gzip file, member after member with a valid
    header and with the stored CRC-32 and length of exactly the bytes produced;
    the total stays within the limit across all members. *)
Theorem gzip_accepts input max_out :
  bytes input -> 0 <= max_out ->
  match gzip_decompress_with_limit input max_out with
  | Ok output => gzip_file input output /\ bytes output /\ Z.of_nat (length output) <= max_out
  | Err e => e <> Stuck
  end.
Proof.
  intros Hb Hm. pose proof (members_accepted (S (length input)) [] input max_out Hb bytes_nil) as H.
  specialize (H ltac:(cbn; lia) ltac:(lia)). unfold gzip_decompress_with_limit.
  destruct (members _ _ _ _) as [out|e]; [|done]. destruct H as (more & -> & H). exact H.
Qed.

Lemma gzip_accepts_witness :
  gzip_decompress (gzip_compress (lit "hi")) = Ok (lit "hi") /\ gzip_file (gzip_compress (lit "hi")) (lit "hi").
Proof.
  pose proof (gzip_accepts (gzip_compress (lit "hi")) DEFAULT_MAX_OUTPUT
    ltac:(apply (bool_decide_unpack _); vm_compute; exact I) ltac:(vm_compute; discriminate)) as H.
  assert (E : gzip_decompress_with_limit (gzip_compress (lit "hi")) DEFAULT_MAX_OUTPUT = Ok (lit "hi"))
    by (vm_compute; reflexivity).
  rewrite E in H. split; [exact E|apply H].
Defined.

End Gzip.
