(* ===== verification/Dialect.v ===== *)
(** * SQL dialects ([rustlavel-db/src/dialect.rs])

    What differs between one database and another, as a record of operations
    with the four the framework speaks, and the checks every interpolated
    identifier passes. Also the vocabulary in which the SQL generators are
    specified: a statement is spelled from fixed words, quoted identifiers,
    placeholders and numbers. *)

From S2P Require Import Prelude Text.

Module Dialect.

Inductive ColumnType :=
  | Id
  | UuidId
  | SmallInteger
  | Integer
  | BigInteger
  | Float
  | Decimal (precision scale : Z)
  | Boolean
  | String (length : Z)
  | Text
  | Json
  | Uuid
  | Date
  | Time
  | Timestamp
  | Binary
  | Raw (sql : list Z).

Inductive ReturningStyle :=
  | Suffix
  | OutputClause
  | SeparateQuery (sql : list Z).

Record Dialect := {
  name : list Z;
  quote : list Z -> list Z;
  placeholder : nat -> list Z;
  column_type : ColumnType -> list Z;
  now : list Z;
  uuid_default : option (list Z);
  returning : ReturningStyle;
  limit_offset : option Z -> option Z -> bool -> list Z;
  supports_if_not_exists_table : bool;
  supports_if_not_exists_index : bool;
  booleans_are_integers : bool;
  max_identifier_length : nat;
  migrations_table_sql : list Z -> list Z;
  add_column_clause : list Z;
  begin_sql : list Z;
  commit_sql : list Z;
  rollback_sql : list Z;
  savepoint_sql : list Z -> list Z;
  rollback_to_savepoint_sql : list Z -> list Z;
  skip_locked : list Z * list Z;
  current_schema_expression : list Z;
  list_tables_sql : list Z;
  disable_foreign_keys_sql : option (list Z);
  enable_foreign_keys_sql : option (list Z);
  drop_table_sql : list Z -> list Z;
}.

(** The trait's default method. *)
Definition default_migrations_table_sql (quote : list Z -> list Z) (column_type : ColumnType -> list Z)
    (now table : list Z) : list Z :=
  lit "create table if not exists " ++ quote table ++ lit " (" ++ [10] ++
  lit "  id " ++ column_type Id ++ lit " primary key," ++ [10] ++
  lit "  name " ++ column_type (String 255) ++ lit " not null unique," ++ [10] ++
  lit "  batch " ++ column_type Integer ++ lit " not null," ++ [10] ++
  lit "  ran_at " ++ column_type Timestamp ++ lit " not null default " ++ now ++ [10] ++ lit ")".

(** ** Identifiers *)

Definition is_alphabetic (b : Z) : bool := in_range 65 90 b || in_range 97 122 b.
Definition identifier_byte (b : Z) : bool := is_alphabetic b || is_digit b || (b =? 95).

Definition valid_identifier (name : list Z) (max_length : nat) : bool :=
  match name with
  | [] => false
  | first :: _ =>
      (length name <=? max_length)%nat && (is_alphabetic first || (first =? 95)) && forallb identifier_byte name
  end.

Definition validate_identifier (name : list Z) (max_length : nat) : result (list Z) unit :=
  if valid_identifier name max_length then Ok tt
  else Err (lit "`" ++ name ++ lit "` is not a valid SQL identifier. Identifiers may contain letters, digits and underscores, must not start with a digit, and must be at most "
            ++ dec (Z.of_nat max_length) ++ lit " characters.").

(** [iter().map(f).collect::<Result<Vec<_>>>()]: the first error ends it. *)
Fixpoint try_map {A B E} (f : A -> result E B) (l : list A) : result E (list B) :=
  match l with
  | [] => Ok []
  | a :: l => let? b := f a in let? r := try_map f l in Ok (b :: r)
  end.

Definition quote_valid (d : Dialect) (part : list Z) : result (list Z) (list Z) :=
  let? _ := validate_identifier part (max_identifier_length d) in Ok (quote d part).

Definition quote_qualified (d : Dialect) (name : list Z) : result (list Z) (list Z) :=
  let? parts := try_map (quote_valid d) (split_on 46 name) in Ok (join (lit ".") parts).

(** ** PostgreSQL *)

(** [limit.max(0)]. *)
Definition amount (n : Z) : list Z := dec (Z.max n 0).

Definition quote_double (identifier : list Z) : list Z := [34] ++ identifier ++ [34].

Definition postgres_column_type (kind : ColumnType) : list Z :=
  match kind with
  | Id => lit "bigserial"
  | UuidId | Uuid => lit "uuid"
  | SmallInteger => lit "smallint"
  | Integer => lit "integer"
  | BigInteger => lit "bigint"
  | Float => lit "double precision"
  | Decimal p s => lit "numeric(" ++ dec p ++ lit ", " ++ dec s ++ lit ")"
  | Boolean => lit "boolean"
  | String n => lit "varchar(" ++ dec n ++ lit ")"
  | Text => lit "text"
  | Json => lit "jsonb"
  | Date => lit "date"
  | Time => lit "time"
  | Timestamp => lit "timestamptz"
  | Binary => lit "bytea"
  | Raw sql => sql
  end.

Definition postgres_limit_offset (limit offset : option Z) (_ : bool) : list Z :=
  match limit with Some n => lit " limit " ++ amount n | None => [] end ++
  match offset with Some n => lit " offset " ++ amount n | None => [] end.

Definition Postgres : Dialect := {|
  name := lit "postgres";
  quote := quote_double;
  placeholder n := lit "$" ++ dec (Z.of_nat n);
  column_type := postgres_column_type;
  now := lit "now()";
  uuid_default := Some (lit "gen_random_uuid()");
  returning := Suffix;
  limit_offset := postgres_limit_offset;
  supports_if_not_exists_table := true;
  supports_if_not_exists_index := true;
  booleans_are_integers := false;
  max_identifier_length := 63;
  migrations_table_sql := default_migrations_table_sql quote_double postgres_column_type (lit "now()");
  add_column_clause := lit "add column";
  begin_sql := lit "begin";
  commit_sql := lit "commit";
  rollback_sql := lit "rollback";
  savepoint_sql n := lit "savepoint " ++ n;
  rollback_to_savepoint_sql n := lit "rollback to savepoint " ++ n;
  skip_locked := ([], lit " for update skip locked");
  current_schema_expression := lit "current_schema()";
  list_tables_sql := lit "select tablename from pg_tables where schemaname = current_schema()";
  disable_foreign_keys_sql := None;
  enable_foreign_keys_sql := None;
  drop_table_sql table := lit "drop table if exists " ++ quote_double table ++ lit " cascade";
|}.

(** ** SQLite *)

Definition sqlite_column_type (kind : ColumnType) : list Z :=
  match kind with
  | Id | SmallInteger | Integer | BigInteger | Boolean => lit "integer"
  | Float => lit "real"
  | Decimal p s => lit "numeric(" ++ dec p ++ lit ", " ++ dec s ++ lit ")"
  | String n => lit "varchar(" ++ dec n ++ lit ")"
  | Text | Json | UuidId | Uuid | Date | Time | Timestamp => lit "text"
  | Binary => lit "blob"
  | Raw sql => sql
  end.

Definition sqlite_limit_offset (limit offset : option Z) (_ : bool) : list Z :=
  match limit with Some n => lit " limit " ++ amount n | None => [] end ++
  match offset with
  | Some n => match limit with None => lit " limit -1" | Some _ => [] end ++ lit " offset " ++ amount n
  | None => []
  end.

Definition Sqlite : Dialect := {|
  name := lit "sqlite";
  quote := quote_double;
  placeholder _ := lit "?";
  column_type := sqlite_column_type;
  now := lit "current_timestamp";
  uuid_default := None;
  returning := SeparateQuery (lit "select last_insert_rowid()");
  limit_offset := sqlite_limit_offset;
  supports_if_not_exists_table := true;
  supports_if_not_exists_index := true;
  booleans_are_integers := true;
  max_identifier_length := 63;
  migrations_table_sql := default_migrations_table_sql quote_double sqlite_column_type (lit "current_timestamp");
  add_column_clause := lit "add column";
  begin_sql := lit "begin immediate";
  commit_sql := lit "commit";
  rollback_sql := lit "rollback";
  savepoint_sql n := lit "savepoint " ++ n;
  rollback_to_savepoint_sql n := lit "rollback to savepoint " ++ n;
  skip_locked := ([], []);
  current_schema_expression := lit "'main'";
  list_tables_sql := lit "select name from sqlite_master where type = 'table' and name not like 'sqlite_%'";
  disable_foreign_keys_sql := Some (lit "pragma foreign_keys = off");
  enable_foreign_keys_sql := Some (lit "pragma foreign_keys = on");
  drop_table_sql table := lit "drop table if exists " ++ quote_double table;
|}.

(** ** MySQL *)

Definition quote_back (identifier : list Z) : list Z := lit "`" ++ identifier ++ lit "`".

Definition mysql_column_type (kind : ColumnType) : list Z :=
  match kind with
  | Id => lit "bigint not null auto_increment"
  | UuidId | Uuid => lit "char(36)"
  | SmallInteger => lit "smallint"
  | Integer => lit "int"
  | BigInteger => lit "bigint"
  | Float => lit "double"
  | Decimal p s => lit "decimal(" ++ dec p ++ lit ", " ++ dec s ++ lit ")"
  | Boolean => lit "tinyint(1)"
  | String n => lit "varchar(" ++ dec n ++ lit ")"
  | Text => lit "text"
  | Json => lit "json"
  | Date => lit "date"
  | Time => lit "time"
  | Timestamp => lit "datetime(6)"
  | Binary => lit "longblob"
  | Raw sql => sql
  end.

Definition mysql_limit_offset (limit offset : option Z) (_ : bool) : list Z :=
  match limit, offset with
  | None, Some o => lit " limit 18446744073709551615 offset " ++ amount o
  | Some n, offset =>
      lit " limit " ++ amount n ++ match offset with Some o => lit " offset " ++ amount o | None => [] end
  | None, None => []
  end.

Definition MySql : Dialect := {|
  name := lit "mysql";
  quote := quote_back;
  placeholder _ := lit "?";
  column_type := mysql_column_type;
  now := lit "current_timestamp(6)";
  uuid_default := None;
  returning := SeparateQuery (lit "select last_insert_id()");
  limit_offset := mysql_limit_offset;
  supports_if_not_exists_table := true;
  supports_if_not_exists_index := false;
  booleans_are_integers := true;
  max_identifier_length := 64;
  migrations_table_sql := default_migrations_table_sql quote_back mysql_column_type (lit "current_timestamp(6)");
  add_column_clause := lit "add column";
  begin_sql := lit "begin";
  commit_sql := lit "commit";
  rollback_sql := lit "rollback";
  savepoint_sql n := lit "savepoint " ++ n;
  rollback_to_savepoint_sql n := lit "rollback to savepoint " ++ n;
  skip_locked := ([], lit " for update skip locked");
  current_schema_expression := lit "database()";
  list_tables_sql := lit "select table_name from information_schema.tables where table_schema = database() and table_type = 'BASE TABLE'";
  disable_foreign_keys_sql := Some (lit "set foreign_key_checks = 0");
  enable_foreign_keys_sql := Some (lit "set foreign_key_checks = 1");
  drop_table_sql table := lit "drop table if exists " ++ quote_back table;
|}.

(** ** SQL Server *)

Definition quote_bracket (identifier : list Z) : list Z := lit "[" ++ identifier ++ lit "]".

Definition sqlserver_column_type (kind : ColumnType) : list Z :=
  match kind with
  | Id => lit "bigint identity(1,1)"
  | UuidId | Uuid => lit "uniqueidentifier"
  | SmallInteger => lit "smallint"
  | Integer => lit "int"
  | BigInteger => lit "bigint"
  | Float => lit "float"
  | Decimal p s => lit "decimal(" ++ dec p ++ lit ", " ++ dec s ++ lit ")"
  | Boolean => lit "bit"
  | String n => lit "nvarchar(" ++ dec n ++ lit ")"
  | Text | Json => lit "nvarchar(max)"
  | Date => lit "date"
  | Time => lit "time"
  | Timestamp => lit "datetime2"
  | Binary => lit "varbinary(max)"
  | Raw sql => sql
  end.

Definition sqlserver_limit_offset (limit offset : option Z) (ordered : bool) : list Z :=
  match limit, offset with
  | None, None => []
  | _, _ =>
      (if ordered then [] else lit " order by (select null)") ++
      lit " offset " ++ amount (default 0 offset) ++ lit " rows" ++
      match limit with Some n => lit " fetch next " ++ amount n ++ lit " rows only" | None => [] end
  end.

Definition SqlServer : Dialect := {|
  name := lit "sqlserver";
  quote := quote_bracket;
  placeholder n := lit "@P" ++ dec (Z.of_nat n);
  column_type := sqlserver_column_type;
  now := lit "sysutcdatetime()";
  uuid_default := Some (lit "newid()");
  returning := OutputClause;
  limit_offset := sqlserver_limit_offset;
  supports_if_not_exists_table := false;
  supports_if_not_exists_index := false;
  booleans_are_integers := true;
  max_identifier_length := 128;
  migrations_table_sql table :=
    lit "if object_id('" ++ table ++ lit "', 'U') is null create table " ++ quote_bracket table ++ lit " (" ++ [10] ++
    lit "  [id] bigint identity(1,1) primary key," ++ [10] ++
    lit "  [name] nvarchar(255) not null unique," ++ [10] ++
    lit "  [batch] int not null," ++ [10] ++
    lit "  [ran_at] datetime2 not null default sysutcdatetime()" ++ [10] ++ lit ")";
  add_column_clause := lit "add";
  begin_sql := lit "begin transaction";
  commit_sql := lit "commit transaction";
  rollback_sql := lit "rollback transaction";
  savepoint_sql n := lit "save transaction " ++ n;
  rollback_to_savepoint_sql n := lit "rollback transaction " ++ n;
  skip_locked := (lit " with (updlock, readpast, rowlock)", []);
  current_schema_expression := lit "schema_name()";
  list_tables_sql := lit "select t.name from sys.tables t where t.is_ms_shipped = 0 and schema_name(t.schema_id) = schema_name()";
  disable_foreign_keys_sql := Some (lit "exec sp_MSforeachtable 'alter table ? nocheck constraint all'");
  enable_foreign_keys_sql := Some (lit "exec sp_MSforeachtable 'alter table ? with check check constraint all'");
  drop_table_sql table := lit "drop table if exists " ++ quote_bracket table;
|}.

Definition by_name (n : list Z) : result (list Z) Dialect :=
  let other := lowercase n in
  if bool_decide (other ∈ [lit "postgres"; lit "postgresql"; lit "pgsql"]) then Ok Postgres
  else if bool_decide (other ∈ [lit "mysql"; lit "mariadb"]) then Ok MySql
  else if bool_decide (other ∈ [lit "sqlserver"; lit "mssql"]) then Ok SqlServer
  else Err (lit "`" ++ other ++
            lit "` is not a database this framework speaks. Available: postgres, mysql, sqlserver.").

(** ** What a statement is made of

    The generators of [builder.rs] and [schema.rs] are specified by the pieces
    their text is spelled from. Only identifiers come from the caller, and they
    are valid; a value is never among them, only its slot. *)

Inductive Piece :=
  | Word (text : list Z)
  | Ident (name : list Z)
  | Slot (n : nat)
  | Num (n : Z).

Definition WORDS : list (list Z) := map lit
  ["select "; "distinct "; "*"; ", "; " from "; " "; "inner join"; "left join"; " on "; " where "; " and "; " or ";
   "true"; "false"; "not "; "in ("; ")"; "("; "is "; "null"; " between "; "count(*) as "; "count("; "sum("; "avg(";
   "min("; "max("; " group by "; " order by "; "asc"; "desc"; "."; "insert into "; " ("; ") values "; " returning ";
   ") output inserted."; " values "; "update "; " set "; " = "; "delete from ";
   "="; "!="; "<>"; "<"; "<="; ">"; ">="; "like"; "not like"; "ilike"; "not ilike"; "@>"; "<@"; "?"; "is distinct from";
   " limit "; " offset "; " limit -1"; " limit 18446744073709551615 offset "; " order by (select null)"; " rows";
   " fetch next "; " rows only"]%string.

Definition render (d : Dialect) (p : Piece) : list Z :=
  match p with
  | Word w => w
  | Ident n => quote d n
  | Slot n => placeholder d n
  | Num n => dec n
  end.

Definition safe (d : Dialect) (p : Piece) : Prop :=
  match p with
  | Word w => lowercase w ∈ WORDS
  | Ident n => valid_identifier n (max_identifier_length d) = true
  | Slot _ => True
  | Num n => 0 <= n
  end.

Definition slots (ps : list Piece) : list nat := omap (fun p => match p with Slot n => Some n | _ => None end) ps.

(** A text of safe pieces with the [k] slots after the first [n]. *)
Definition spells (d : Dialect) (n k : nat) (text : list Z) : Prop :=
  exists ps, text = concat (map (render d) ps) /\ Forall (safe d) ps /\ slots ps = seq (S n) k.

Section spelling.
Context (d : Dialect).

Lemma spells_piece p n :
  safe d p -> (forall m, p <> Slot m) -> spells d n 0 (render d p).
Proof.
  intros Hs Hp. exists [p]. cbn. rewrite app_nil_r. split_and!; [done|by apply Forall_cons_2|].
  destruct p; [done..| |done]. by destruct (Hp n0).
Qed.

Lemma spells_word w n : bool_decide (lowercase w ∈ WORDS) = true -> spells d n 0 w.
Proof. rewrite bool_decide_eq_true. intros H. by apply (spells_piece (Word w)). Qed.

Lemma spells_ident i n : valid_identifier i (max_identifier_length d) = true -> spells d n 0 (quote d i).
Proof. intros H. by apply (spells_piece (Ident i)). Qed.

Lemma spells_amount z n : spells d n 0 (amount z).
Proof. apply (spells_piece (Num (Z.max z 0))); [cbn; lia|done]. Qed.

Lemma spells_slot n : spells d n 1 (placeholder d (S n)).
Proof. exists [Slot (S n)]. cbn. rewrite app_nil_r. split_and!; [done|by repeat constructor|done]. Qed.

Lemma spells_empty n : spells d n 0 [].
Proof. exists []. by split_and!; [|constructor|]. Qed.

Lemma spells_both n k k' a b : spells d n k a -> spells d (n + k) k' b -> spells d n (k + k') (a ++ b).
Proof.
  intros (ps & -> & Hp & Sp) (qs & -> & Hq & Sq). exists (ps ++ qs).
  rewrite map_app, concat_app. split_and!; [done|by apply Forall_app|].
  unfold slots in *. rewrite omap_app, Sp, Sq, seq_app. done.
Qed.

Lemma spells_app_r n k a b : spells d n 0 a -> spells d n k b -> spells d n k (a ++ b).
Proof. intros Ha Hb. apply (spells_both n 0 k); [done|]. by rewrite Nat.add_0_r. Qed.

Lemma spells_app_l n k a b : spells d n k a -> spells d (n + k) 0 b -> spells d n k (a ++ b).
Proof. intros Ha Hb. rewrite <- (Nat.add_0_r k). by apply spells_both. Qed.

Lemma spells_join sep n ts :
  spells d n 0 sep -> Forall (spells d n 0) ts -> spells d n 0 (join sep ts).
Proof.
  intros Hs. induction 1 as [|t ts Ht Hts IH]; [apply spells_empty|].
  destruct ts as [|u ts]; [done|]. cbn [join] in *. by repeat apply spells_app_r.
Qed.

(** Slots [n+1 .. n+k] with a separator between them. *)
Lemma spells_slots sep k : forall n,
  (forall m, spells d m 0 sep) -> spells d n k (join sep (map (placeholder d) (seq (S n) k))).
Proof.
  induction k as [|k IH]; intros n Hs; [apply spells_empty|]. cbn [seq map].
  destruct k as [|k]; [apply spells_slot|]. cbn [seq map join] in *.
  apply (spells_both n 1 (S k)); [apply spells_slot|]. apply spells_app_r; [apply Hs|].
  specialize (IH (n + 1)%nat Hs). by rewrite Nat.add_1_r in IH |- *.
Qed.

Lemma try_map_Forall {A B E} (f : A -> result E B) (P : B -> Prop) l r :
  (forall a b, f a = Ok b -> P b) -> try_map f l = Ok r -> Forall P r.
Proof.
  intros Hf. revert r. induction l as [|a l IH]; cbn [try_map]; intros r; [intros [= <-]; constructor|].
  destruct (f a) as [b|] eqn:E1; [|done]. destruct (try_map f l) as [r'|]; [|done].
  intros [= <-]. apply Forall_cons_2; [by apply (Hf a)|by apply IH].
Qed.

Lemma validate_spec i n u : validate_identifier i n = Ok u -> valid_identifier i n = true.
Proof. unfold validate_identifier. by destruct (valid_identifier i n). Qed.

Lemma spells_quote_valid n i t : quote_valid d i = Ok t -> spells d n 0 t.
Proof.
  unfold quote_valid. destruct (validate_identifier _ _) as [u|] eqn:E; [|done]. intros [= <-].
  by eapply spells_ident, validate_spec.
Qed.

Lemma spells_qualified n name t : quote_qualified d name = Ok t -> spells d n 0 t.
Proof.
  unfold quote_qualified. destruct (try_map _ _) as [parts|] eqn:E; [|done]. intros [= <-].
  apply spells_join; [by apply spells_word|]. eapply try_map_Forall; [|exact E].
  intros a b. apply spells_quote_valid.
Qed.

End spelling.

Create HintDb spelling discriminated.
#[export] Hint Resolve spells_empty spells_slot spells_amount spells_app_r spells_quote_valid spells_qualified : spelling.
#[export] Hint Extern 1 (spells _ _ _ (lit _)) => apply spells_word; reflexivity : spelling.

(** What the generators rely on: paging text has no slot. *)
Class PagedDialect (d : Dialect) : Prop :=
  limit_offset_law limit offset ordered n : spells d n 0 (limit_offset d limit offset ordered).

Ltac spell_paging := intros l o b n; destruct l, o, b; cbn -[lit amount]; auto 20 with spelling.

#[export] Instance Postgres_Paged : PagedDialect Postgres.
Proof. spell_paging. Qed.
#[export] Instance Sqlite_Paged : PagedDialect Sqlite.
Proof. spell_paging. Qed.
#[export] Instance MySql_Paged : PagedDialect MySql.
Proof. spell_paging. Qed.
#[export] Instance SqlServer_Paged : PagedDialect SqlServer.
Proof. spell_paging. Qed.

End Dialect.
