(* ===== verification/Builder.v ===== *)
(** * Bound values and the query builder ([rustlavel-db/src/value.rs], [builder.rs])

    Statements are assembled from a table, columns, conditions, joins and
    ordering, and every value travels beside the text as a parameter. The
    theorems say what text can come out: fixed words, quoted valid identifiers,
    slots numbered in order and amounts, whatever strings the caller supplies,
    and that the values are bound to the slots in the order they were given. *)

From S2P Require Import Prelude Text F64 Decimal Json JsonText Dialect.

Module Value.

Inductive Value :=
  | Null
  | Bool (b : bool)
  | Int (n : Z)
  | Float (x : f64)
  | Text (s : list Z)
  | Bytes (b : list Z)
  | JsonV (j : Json.Json).

Definition is_null (v : Value) : bool := match v with Null => true | _ => false end.

(** [{byte:02x}]. *)
Definition hex2 (b : Z) : list Z := [hex_digit_lower (b / 16); hex_digit_lower (b mod 16)].

Definition to_sql_text (v : Value) : option (list Z) :=
  match v with
  | Null => None
  | Bool true => Some (lit "t")
  | Bool false => Some (lit "f")
  | Int n => Some (dec n)
  | Float x => Some (Decimal.display_f64 x)
  | Text s => Some s
  | JsonV j => Some (JsonText.to_string j)
  | Bytes b => Some (lit "\x" ++ concat (map hex2 b))
  end.

Definition byte_count (b : list Z) : list Z := lit "<" ++ dec (Z.of_nat (length b)) ++ lit " bytes>".

Definition to_display (v : Value) : list Z :=
  match v with
  | Null => lit "NULL"
  | Bytes b => byte_count b
  | other => default [] (to_sql_text other)
  end.

Definition into_json (v : Value) : Json.Json :=
  match v with
  | Null => Json.Null
  | Bool b => Json.Bool b
  | Int n => Json.from_int n
  | Float x => Json.Number x
  | Text s => Json.String s
  | JsonV j => j
  | Bytes b => Json.String (byte_count b)
  end.

Definition variant_name (v : Value) : list Z :=
  match v with
  | Null => lit "NULL"
  | Bool _ => lit "boolean"
  | Int _ => lit "integer"
  | Float _ => lit "float"
  | Text _ => lit "text"
  | Bytes _ => lit "bytea"
  | JsonV _ => lit "json"
  end.

Definition mismatch {T} (type_name : list Z) (v : Value) : result (list Z) T :=
  Err (lit "cannot read a " ++ variant_name v ++ lit " column as " ++ type_name).

(** [FromValue]: a Rust type a column can be read into. *)
Class FromValue (T : Type) := from_value : Value -> result (list Z) T.

#[export] Instance text_from_value : FromValue (list Z) := fun v =>
  match v with
  | Text s => Ok s
  | JsonV j => Ok (JsonText.to_string j)
  | other => mismatch (lit "alloc::string::String") other
  end.
#[export] Instance i64_from_value : FromValue Z := fun v =>
  match v with Int n => Ok n | other => mismatch (lit "i64") other end.
#[export] Instance f64_from_value : FromValue f64 := fun v =>
  match v with
  | Float x => Ok x
  | Int n => Ok (f64_of_Z n)
  | other => mismatch (lit "f64") other
  end.
#[export] Instance bool_from_value : FromValue bool := fun v =>
  match v with
  | Bool b => Ok b
  | Int n =>
      if n =? 0 then Ok false else if n =? 1 then Ok true
      else Err (lit "cannot read " ++ dec n ++ lit " as a bool. A `bool` field maps to 0 or 1; this column holds something else, so it is probably a number rather than a flag.")
  | other => mismatch (lit "bool") other
  end.
#[export] Instance option_from_value {T} `{FromValue T} : FromValue (option T) := fun v =>
  match v with
  | Null => Ok None
  | other => match from_value other with Ok x => Ok (Some x) | Err e => Err e end
  end.

(** [n as i32]. *)
Definition i32_from_value (v : Value) : result (list Z) Z :=
  let? n := from_value (T := Z) v in Ok (if u32 n <? 2 ^ 31 then u32 n else u32 n - 2 ^ 32).

Definition bytes_from_value (v : Value) : result (list Z) (list Z) :=
  match v with
  | Bytes b => Ok b
  | Text s => Ok s
  | other => mismatch (lit "alloc::vec::Vec<u8>") other
  end.

End Value.

Module Builder.
Import Dialect.
Abbreviation Value := Value.Value.

(** ** The statement being assembled *)

Inductive Direction := Asc | Desc.
Definition as_sql (d : Direction) : list Z := match d with Asc => lit "asc" | Desc => lit "desc" end.

Inductive Condition :=
  | Comparison (column operator : list Z) (value : Value) (or_ : bool)
  | In (column : list Z) (values : list Value) (negated or_ : bool)
  | Null (column : list Z) (negated or_ : bool)
  | Between (column : list Z) (low high : Value) (or_ : bool)
  | Group (conditions : list Condition) (or_ : bool).

Definition is_or (c : Condition) : bool :=
  match c with
  | Comparison _ _ _ or_ | In _ _ _ or_ | Null _ _ or_ | Between _ _ _ or_ | Group _ or_ => or_
  end.

Inductive JoinKind := InnerJoin | LeftJoin.
Record Join := { kind : JoinKind; j_table : list Z; left : list Z; j_operator : list Z; right : list Z }.
Definition kind_sql (k : JoinKind) : list Z :=
  match k with InnerJoin => lit "inner join" | LeftJoin => lit "left join" end.

Record QueryBuilder := {
  table : list Z;
  columns : list (list Z);
  conditions : list Condition;
  joins : list Join;
  order : list (list Z * Direction);
  group : list (list Z);
  limit_ : option Z;
  offset_ : option Z;
  distinct_ : bool;
}.

Definition new_query (t : list Z) : QueryBuilder :=
  {| table := t; columns := []; conditions := []; joins := []; order := []; group := []; limit_ := None;
     offset_ := None; distinct_ := false |}.

Definition select (cs : list (list Z)) (q : QueryBuilder) : QueryBuilder :=
  {| table := table q; columns := cs; conditions := conditions q; joins := joins q; order := order q;
     group := group q; limit_ := limit_ q; offset_ := offset_ q; distinct_ := distinct_ q |}.
Definition distinct (q : QueryBuilder) : QueryBuilder :=
  {| table := table q; columns := columns q; conditions := conditions q; joins := joins q; order := order q;
     group := group q; limit_ := limit_ q; offset_ := offset_ q; distinct_ := true |}.
Definition with_conditions (cs : list Condition) (q : QueryBuilder) : QueryBuilder :=
  {| table := table q; columns := columns q; conditions := cs; joins := joins q; order := order q;
     group := group q; limit_ := limit_ q; offset_ := offset_ q; distinct_ := distinct_ q |}.
(** [self.conditions.push(condition)]. *)
Definition push_condition (c : Condition) (q : QueryBuilder) : QueryBuilder :=
  with_conditions (conditions q ++ [c]) q.

Definition filter_op (column operator : list Z) (v : Value) : QueryBuilder -> QueryBuilder :=
  push_condition (Comparison column operator v false).
Definition filter (column : list Z) (v : Value) : QueryBuilder -> QueryBuilder := filter_op column (lit "=") v.
Definition or_filter (column : list Z) (v : Value) : QueryBuilder -> QueryBuilder :=
  push_condition (Comparison column (lit "=") v true).
Definition or_filter_op (column operator : list Z) (v : Value) : QueryBuilder -> QueryBuilder :=
  push_condition (Comparison column operator v true).
Definition or_filter_like (column : list Z) (v : Value) : QueryBuilder -> QueryBuilder :=
  or_filter_op column (lit "like") v.
Definition filter_in (column : list Z) (vs : list Value) : QueryBuilder -> QueryBuilder :=
  push_condition (In column vs false false).
Definition filter_not_in (column : list Z) (vs : list Value) : QueryBuilder -> QueryBuilder :=
  push_condition (In column vs true false).
Definition filter_null (column : list Z) : QueryBuilder -> QueryBuilder := push_condition (Null column false false).
Definition filter_not_null (column : list Z) : QueryBuilder -> QueryBuilder := push_condition (Null column true false).
Definition filter_between (column : list Z) (low high : Value) : QueryBuilder -> QueryBuilder :=
  push_condition (Between column low high false).
Definition filter_like (column : list Z) (v : Value) : QueryBuilder -> QueryBuilder := filter_op column (lit "like") v.

(** [group_filter] and [or_group_filter]: nothing is pushed for an empty group. *)
Definition add_group (or_ : bool) (build : QueryBuilder -> QueryBuilder) (q : QueryBuilder) : QueryBuilder :=
  let nested := build (new_query (table q)) in
  match conditions nested with
  | [] => q
  | cs => push_condition (Group cs or_) q
  end.
Definition group_filter : (QueryBuilder -> QueryBuilder) -> QueryBuilder -> QueryBuilder := add_group false.
Definition or_group_filter : (QueryBuilder -> QueryBuilder) -> QueryBuilder -> QueryBuilder := add_group true.

Definition add_join (k : JoinKind) (t l op r : list Z) (q : QueryBuilder) : QueryBuilder :=
  {| table := table q; columns := columns q; conditions := conditions q;
     joins := joins q ++ [{| kind := k; j_table := t; left := l; j_operator := op; right := r |}]; order := order q;
     group := group q; limit_ := limit_ q; offset_ := offset_ q; distinct_ := distinct_ q |}.
Definition join_table : list Z -> list Z -> list Z -> list Z -> QueryBuilder -> QueryBuilder := add_join InnerJoin.
Definition left_join : list Z -> list Z -> list Z -> list Z -> QueryBuilder -> QueryBuilder := add_join LeftJoin.

Definition order_by (column : list Z) (dir : Direction) (q : QueryBuilder) : QueryBuilder :=
  {| table := table q; columns := columns q; conditions := conditions q; joins := joins q;
     order := order q ++ [(column, dir)]; group := group q; limit_ := limit_ q; offset_ := offset_ q;
     distinct_ := distinct_ q |}.
Definition latest (column : list Z) : QueryBuilder -> QueryBuilder := order_by column Desc.
Definition group_by (cs : list (list Z)) (q : QueryBuilder) : QueryBuilder :=
  {| table := table q; columns := columns q; conditions := conditions q; joins := joins q; order := order q;
     group := cs; limit_ := limit_ q; offset_ := offset_ q; distinct_ := distinct_ q |}.
Definition limit (n : Z) (q : QueryBuilder) : QueryBuilder :=
  {| table := table q; columns := columns q; conditions := conditions q; joins := joins q; order := order q;
     group := group q; limit_ := Some n; offset_ := offset_ q; distinct_ := distinct_ q |}.
Definition offset (n : Z) (q : QueryBuilder) : QueryBuilder :=
  {| table := table q; columns := columns q; conditions := conditions q; joins := joins q; order := order q;
     group := group q; limit_ := limit_ q; offset_ := Some n; distinct_ := distinct_ q |}.

(** An [i64] product, as a release build computes it. *)
Definition i64_wrap (z : Z) : Z := if u64 z <? 2 ^ 63 then u64 z else u64 z - 2 ^ 64.
Definition page (p per_page : Z) (q : QueryBuilder) : QueryBuilder :=
  let p := Z.max p 1 in offset (i64_wrap ((p - 1) * per_page)) (limit per_page q).

(** ** SQL generation *)

Definition ALLOWED : list (list Z) := map lit
  ["="; "!="; "<>"; "<"; "<="; ">"; ">="; "like"; "not like"; "ilike"; "not ilike"; "@>"; "<@"; "?";
   "is distinct from"]%string.

Definition check_operator (operator : list Z) : result (list Z) unit :=
  if bool_decide (lowercase operator ∈ ALLOWED) then Ok tt
  else Err (lit "`" ++ operator ++ lit "` is not an allowed comparison operator. Allowed: " ++
            join (lit ", ") ALLOWED).

Definition AGGREGATES : list (list Z) := map lit ["count"; "sum"; "avg"; "min"; "max"]%string.

(** The inside of [prefix(...)]. *)
Definition inside (prefix column : list Z) : option (list Z) :=
  let! rest := strip_prefix column (prefix ++ lit "(") in strip_suffix rest (lit ")").

Fixpoint aggregate_of (prefixes : list (list Z)) (column : list Z) : option (list Z * list Z) :=
  match prefixes with
  | [] => None
  | prefix :: prefixes =>
      match inside prefix column with
      | Some inner => Some (prefix, inner)
      | None => aggregate_of prefixes column
      end
  end.

Definition column_ref (d : Dialect) (column : list Z) : result (list Z) (list Z) :=
  if bool_decide (column = lit "*") then Ok (lit "*")
  else
    match strip_prefix column (lit "count(*) as ") with
    | Some rest => let? t := quote_valid d rest in Ok (lit "count(*) as " ++ t)
    | None =>
        match aggregate_of AGGREGATES column with
        | Some (prefix, inner) =>
            let? t := if bool_decide (inner = lit "*") then Ok (lit "*") else quote_qualified d inner in
            Ok (prefix ++ lit "(" ++ t ++ lit ")")
        | None => quote_qualified d column
        end
    end.

(** Pushing values one by one, with the slot each gets. *)
Definition push_values (d : Dialect) (values params : list Value) : list (list Z) * list Value :=
  (map (placeholder d) (seq (S (length params)) (length values)), params ++ values).

Definition connector (c : Condition) : list Z := if is_or c then lit " or " else lit " and ".

(** The loop of [render_conditions] over the conditions of one level. *)
Definition render_list (one : Condition -> list Value -> result (list Z) (list Z * list Value)) :=
  fix go (first : bool) (cs : list Condition) (params : list Value) : result (list Z) (list Z * list Value) :=
    match cs with
    | [] => Ok ([], params)
    | c :: cs =>
        let? (text, params) := one c params in
        let? (rest, params) := go false cs params in
        Ok ((if first then [] else connector c) ++ text ++ rest, params)
    end.

Section rendering.
Context (d : Dialect).

Fixpoint render_one (c : Condition) (params : list Value) : result (list Z) (list Z * list Value) :=
  match c with
  | Comparison column operator value _ =>
      let? _ := check_operator operator in
      let params := params ++ [value] in
      let? t := column_ref d column in
      Ok (t ++ lit " " ++ operator ++ lit " " ++ placeholder d (length params), params)
  | In column values negated _ =>
      match values with
      | [] => Ok (if negated then lit "true" else lit "false", params)
      | _ =>
          let '(slots, params) := push_values d values params in
          let? t := column_ref d column in
          Ok (t ++ lit " " ++ (if negated then lit "not " else []) ++ lit "in (" ++ join (lit ", ") slots ++ lit ")",
              params)
      end
  | Null column negated _ =>
      let? t := column_ref d column in
      Ok (t ++ lit " " ++ lit "is " ++ (if negated then lit "not " else []) ++ lit "null", params)
  | Between column low high _ =>
      let params := params ++ [low] in
      let low_slot := placeholder d (length params) in
      let params := params ++ [high] in
      let? t := column_ref d column in
      Ok (t ++ lit " between " ++ low_slot ++ lit " and " ++ placeholder d (length params), params)
  | Group conditions _ =>
      let? (text, params) := render_list render_one true conditions params in
      Ok (lit "(" ++ text ++ lit ")", params)
  end.
Definition render_conditions : list Condition -> list Value -> result (list Z) (list Z * list Value) :=
  render_list render_one true.

Definition render_join (j : Join) : result (list Z) (list Z) :=
  let? _ := check_operator (j_operator j) in
  let? t := quote_qualified d (j_table j) in
  let? l := column_ref d (left j) in
  let? r := column_ref d (right j) in
  Ok (lit " " ++ kind_sql (kind j) ++ lit " " ++ t ++ lit " on " ++ l ++ lit " " ++ j_operator j ++ lit " " ++ r).

Definition render_order (o : list Z * Direction) : result (list Z) (list Z) :=
  let? t := column_ref d o.1 in Ok (t ++ lit " " ++ as_sql o.2).

(** A clause of columns, left out when there is none. *)
Definition clause {A} (word : list Z) (f : A -> result (list Z) (list Z)) (l : list A) : result (list Z) (list Z) :=
  match l with
  | [] => Ok []
  | _ => let? rendered := try_map f l in Ok (word ++ join (lit ", ") rendered)
  end.

Definition where_clause (cs : list Condition) (params : list Value) : result (list Z) (list Z * list Value) :=
  let? (text, params) := render_conditions cs params in Ok (lit " where " ++ text, params).

(** Nothing when there is no condition. *)
Definition optional_where (cs : list Condition) : result (list Z) (list Z * list Value) :=
  match cs with [] => Ok ([], []) | _ => where_clause cs [] end.

Definition to_sql (q : QueryBuilder) : result (list Z) (list Z * list Value) :=
  let? cols := match columns q with [] => Ok (lit "*") | cs => clause [] (column_ref d) cs end in
  let? t := quote_qualified d (table q) in
  let? js := try_map render_join (joins q) in
  let? (conds, params) := optional_where (conditions q) in
  let? groups := clause (lit " group by ") (column_ref d) (group q) in
  let? orders := clause (lit " order by ") render_order (order q) in
  Ok (lit "select " ++ (if distinct_ q then lit "distinct " else []) ++ cols ++ lit " from " ++ t ++ concat js ++
      conds ++ groups ++ orders ++ limit_offset d (limit_ q) (offset_ q) (negb (length (order q) =? 0)%nat),
      params).

Definition to_count_sql (q : QueryBuilder) : result (list Z) (list Z * list Value) :=
  to_sql {| table := table q; columns := [lit "count(*) as aggregate"]; conditions := conditions q;
            joins := joins q; order := []; group := group q; limit_ := None; offset_ := None;
            distinct_ := distinct_ q |}.

Definition Row : Type := list (list Z * Value).

(** One row of an insert: its slots in parentheses, in the row's own order. *)
Fixpoint row_names_known (columns : list (list Z)) (row : Row) : result (list Z) unit :=
  match row with
  | [] => Ok tt
  | (name, _) :: row =>
      if bool_decide (name ∈ columns) then row_names_known columns row
      else Err (lit "column `" ++ name ++ lit "` is missing from the first row of this insert")
  end.

Fixpoint insert_rows (columns : list (list Z)) (rows : list Row) (params : list Value)
    : result (list Z) (list (list Z) * list Value) :=
  match rows with
  | [] => Ok ([], params)
  | row :: rows =>
      if negb (length row =? length columns)%nat then
        Err (lit "every row in a bulk insert must have the same columns")
      else
        let? _ := row_names_known columns row in
        let '(slots, params) := push_values d row.*2 params in
        let? (placeholders, params) := insert_rows columns rows params in
        Ok ((lit "(" ++ join (lit ", ") slots ++ lit ")") :: placeholders, params)
  end.

Definition to_insert_sql (q : QueryBuilder) (rows : list Row) (key : option (list Z))
    : result (list Z) (list Z * list Value) :=
  match rows with
  | [] => Err (lit "insert needs at least one row")
  | first :: _ =>
      let columns := first.*1 in
      let? (placeholders, params) := insert_rows columns rows [] in
      let? t := quote_qualified d (table q) in
      let? rendered := try_map (quote_valid d) columns in
      let columns_sql := join (lit ", ") rendered in
      let values_sql := join (lit ", ") placeholders in
      let head := lit "insert into " ++ t ++ lit " (" ++ columns_sql in
      let? sql :=
        match key, returning d with
        | None, _ | Some _, SeparateQuery _ => Ok (head ++ lit ") values " ++ values_sql)
        | Some column, Suffix =>
            let? c := quote_valid d column in Ok (head ++ lit ") values " ++ values_sql ++ lit " returning " ++ c)
        | Some column, OutputClause =>
            let? c := quote_valid d column in
            Ok (head ++ lit ") output inserted." ++ c ++ lit " values " ++ values_sql)
        end in
      Ok (sql, params)
  end.

Fixpoint assignments (values : Row) (params : list Value) : result (list Z) (list (list Z) * list Value) :=
  match values with
  | [] => Ok ([], params)
  | (column, value) :: values =>
      let? c := quote_valid d column in
      let params := params ++ [value] in
      let a := c ++ lit " = " ++ placeholder d (length params) in
      let? (rest, params) := assignments values params in
      Ok (a :: rest, params)
  end.

Definition to_update_sql (q : QueryBuilder) (values : Row) : result (list Z) (list Z * list Value) :=
  match values with
  | [] => Err (lit "update needs at least one column")
  | _ =>
      let? (set, params) := assignments values [] in
      let? t := quote_qualified d (table q) in
      match conditions q with
      | [] => Err (lit "refusing to update every row: add a filter, or call `update_all` if that is really intended")
      | cs =>
          let? (conds, params) := where_clause cs params in
          Ok (lit "update " ++ t ++ lit " set " ++ join (lit ", ") set ++ conds, params)
      end
  end.

Definition to_delete_sql (q : QueryBuilder) (allow_all : bool) : result (list Z) (list Z * list Value) :=
  let? t := quote_qualified d (table q) in
  match conditions q with
  | [] =>
      if allow_all then Ok (lit "delete from " ++ t, [])
      else Err (lit "refusing to delete every row: add a filter, or call `delete_all` if that is really intended")
  | cs =>
      let? (conds, params) := where_clause cs [] in
      Ok (lit "delete from " ++ t ++ conds, params)
  end.
End rendering.

Example query_renders :
  let q := page 3 20 (latest (lit "id") (or_group_filter (fun q => or_filter_like (lit "name") Value.Null
             (filter_in (lit "users.id") [Value.Int 7; Value.Int 8] q)) (filter (lit "active") (Value.Bool true)
             (new_query (lit "users"))))) in
  to_sql MySql q =
    Ok (lit "select * from `users` where `active` = ? or (`users`.`id` in (?, ?) or `name` like ?) order by `id` desc limit 20 offset 40",
        [Value.Bool true; Value.Int 7; Value.Int 8; Value.Null]) /\
  to_delete_sql SqlServer q false =
    Ok (lit "delete from [users] where [active] = @P1 or ([users].[id] in (@P2, @P3) or [name] like @P4)",
        [Value.Bool true; Value.Int 7; Value.Int 8; Value.Null]).
Proof. vm_compute. split; reflexivity. Qed.

(** ** What can come out *)

(** The values a condition carries, in order, and a condition with other values. *)
Fixpoint cond_values (c : Condition) : list Value :=
  match c with
  | Comparison _ _ v _ => [v]
  | In _ vs _ _ => vs
  | Null _ _ _ => []
  | Between _ low high _ => [low; high]
  | Group cs _ => flat_map cond_values cs
  end.

Fixpoint map_condition (f : Value -> Value) (c : Condition) : Condition :=
  match c with
  | Comparison column op v or_ => Comparison column op (f v) or_
  | In column vs negated or_ => In column (map f vs) negated or_
  | Null column negated or_ => Null column negated or_
  | Between column low high or_ => Between column (f low) (f high) or_
  | Group cs or_ => Group (map (map_condition f) cs) or_
  end.

Lemma Condition_nested_ind (P : Condition -> Prop) :
  (forall column op v or_, P (Comparison column op v or_)) ->
  (forall column vs negated or_, P (In column vs negated or_)) ->
  (forall column negated or_, P (Null column negated or_)) ->
  (forall column low high or_, P (Between column low high or_)) ->
  (forall cs or_, Forall P cs -> P (Group cs or_)) ->
  forall c, P c.
Proof.
  intros H1 H2 H3 H4 H5. fix IH 1. intros [| | | |cs or_]; [apply H1|apply H2|apply H3|apply H4|].
  apply H5. induction cs as [|c cs IHcs]; constructor; [apply IH|exact IHcs].
Qed.

(** The four statements a builder makes, with the values each was given. *)
Inductive Statement :=
  | Select (q : QueryBuilder)
  | Count (q : QueryBuilder)
  | Insert (q : QueryBuilder) (rows : list Row) (key : option (list Z))
  | Update (q : QueryBuilder) (values : Row)
  | Delete (q : QueryBuilder) (allow_all : bool).

Definition generate (d : Dialect) (s : Statement) : result (list Z) (list Z * list Value) :=
  match s with
  | Select q => to_sql d q
  | Count q => to_count_sql d q
  | Insert q rows key => to_insert_sql d q rows key
  | Update q values => to_update_sql d q values
  | Delete q allow_all => to_delete_sql d q allow_all
  end.

Definition query_values (q : QueryBuilder) : list Value := flat_map cond_values (conditions q).
Definition values_of (s : Statement) : list Value :=
  match s with
  | Select q | Count q | Delete q _ => query_values q
  | Insert _ rows _ => concat (map (fun row => row.*2) rows)
  | Update q values => values.*2 ++ query_values q
  end.

Definition map_query (f : Value -> Value) (q : QueryBuilder) : QueryBuilder :=
  with_conditions (map (map_condition f) (conditions q)) q.
Definition map_row (f : Value -> Value) (row : Row) : Row := map (fun nv => (nv.1, f nv.2)) row.
Definition map_statement (f : Value -> Value) (s : Statement) : Statement :=
  match s with
  | Select q => Select (map_query f q)
  | Count q => Count (map_query f q)
  | Insert q rows key => Insert q (map (map_row f) rows) key
  | Update q values => Update (map_query f q) (map_row f values)
  | Delete q allow_all => Delete (map_query f q) allow_all
  end.

(** What a generator that starts with [params] bound and adds [vs] has to do:
    [run] is the generator, [run' f] the same one over values changed by [f]. *)
Definition binds {A} (d : Dialect) (params vs : list Value) (spelled : A -> Prop)
    (run : result (list Z) (A * list Value))
    (run' : (Value -> Value) -> result (list Z) (A * list Value)) : Prop :=
  match run with
  | Ok (text, params') =>
      params' = params ++ vs /\ spelled text /\ forall f, run' f = Ok (text, map f params')
  | Err _ => True
  end.

Section injection.
Context (d : Dialect).

Lemma map_push_values f vs params :
  push_values d (map f vs) (map f params) = (fst (push_values d vs params), map f (snd (push_values d vs params))).
Proof. unfold push_values. cbn [fst snd]. by rewrite map_app, !length_map. Qed.

Lemma spells_operator op u n : check_operator op = Ok u -> spells d n 0 op.
Proof.
  unfold check_operator. case_bool_decide as H; [|done]. intros _. apply spells_word.
  apply bool_decide_eq_true. assert (Hall : Forall (fun w => w ∈ WORDS) ALLOWED)
    by (apply (bool_decide_eq_true_1 _); vm_compute; reflexivity).
  rewrite Forall_forall in Hall. by apply Hall, list_elem_of_In.
Qed.

Lemma aggregate_of_prefix prefixes column prefix inner :
  aggregate_of prefixes column = Some (prefix, inner) -> prefix ∈ prefixes.
Proof.
  induction prefixes as [|p ps IH]; [done|]. cbn [aggregate_of]. rewrite elem_of_cons.
  destruct (inside p column) as [i|]; [intros [= <- _]; by left|]. intros H. right. by apply IH.
Qed.

Lemma spells_aggregate prefix n : prefix ∈ AGGREGATES -> spells d n 0 (prefix ++ lit "(").
Proof.
  assert (Hall : Forall (fun p => bool_decide (lowercase (p ++ lit "(") ∈ WORDS) = true) AGGREGATES)
    by (apply (bool_decide_eq_true_1 _); vm_compute; reflexivity).
  rewrite Forall_forall in Hall. intros H. by apply spells_word, Hall, list_elem_of_In.
Qed.

Lemma spells_column_ref n column t : column_ref d column = Ok t -> spells d n 0 t.
Proof.
  unfold column_ref. case_bool_decide; [intros <-%Ok_inj; auto with spelling|].
  destruct (strip_prefix column _) as [rest|].
  { destruct (quote_valid d rest) as [t'|] eqn:E; [|done]. intros <-%Ok_inj. eauto with spelling. }
  destruct (aggregate_of AGGREGATES column) as [[prefix inner]|] eqn:Ea; [|apply spells_qualified].
  destruct (if bool_decide (inner = lit "*") then _ else _) as [t'|] eqn:E; [|done]. intros <-%Ok_inj.
  rewrite app_assoc. apply spells_app_r; [by eapply spells_aggregate, aggregate_of_prefix|].
  apply spells_app_r; [|auto with spelling].
  case_bool_decide; [apply Ok_inj in E as <-; auto with spelling|by eapply spells_qualified].
Qed.
End injection.
#[export] Hint Resolve spells_column_ref : spelling.

Section binding.
Context (d : Dialect).

Lemma connector_spelled c n : spells d n 0 (connector c).
Proof. unfold connector. destruct (is_or c); auto with spelling. Qed.

Lemma connector_map f c : connector (map_condition f c) = connector c.
Proof. by destruct c. Qed.

(** What rendering [c] has to do after any parameters. *)
Definition renders (c : Condition) : Prop := forall params,
  binds d params (cond_values c) (spells d (length params) (length (cond_values c)))
    (render_one d c params) (fun f => render_one d (map_condition f c) (map f params)).

Lemma comparison_renders column op v or_ : renders (Comparison column op v or_).
Proof.
  intros params. unfold binds. cbn [render_one cond_values map_condition length].
  destruct (check_operator op) as [u|] eqn:Eo; [|done]. destruct (column_ref d column) as [t|] eqn:E; [|done].
  rewrite length_app, Nat.add_1_r. split_and!; [done| |].
  - pose proof (spells_operator d op u (length params) Eo). eauto 10 with spelling.
  - intros f. rewrite map_app, length_app, length_map, Nat.add_1_r. done.
Qed.

Lemma in_renders column vs negated or_ : renders (In column vs negated or_).
Proof.
  intros params. unfold binds. destruct vs as [|v vs].
  { cbn [render_one cond_values map_condition map length]. rewrite app_nil_r. split_and!; [done| |done].
    destruct negated; auto with spelling. }
  remember (v :: vs) as ws eqn:Ews. cbn [cond_values map_condition].
  assert (Hr : forall ws ps, ws <> [] -> render_one d (In column ws negated or_) ps =
    let '(slots, ps) := push_values d ws ps in let? t := column_ref d column in
    Ok (t ++ lit " " ++ (if negated then lit "not " else []) ++ lit "in (" ++ join (lit ", ") slots ++ lit ")", ps))
    by (intros [|w ws'] ps Hn; done).
  rewrite Hr by (by subst). unfold push_values at 1. destruct (column_ref d column) as [t|] eqn:E; [|done].
  split_and!; [done| |].
  - do 4 (apply spells_app_r; [try destruct negated; eauto with spelling|]).
    apply spells_app_l; [|auto with spelling]. apply spells_slots. auto with spelling.
  - intros f. rewrite Hr by (by subst). rewrite map_push_values. done.
Qed.

Lemma null_renders column negated or_ : renders (Null column negated or_).
Proof.
  intros params. unfold binds. cbn [render_one cond_values map_condition length].
  destruct (column_ref d column) as [t|] eqn:E; [|done]. rewrite app_nil_r. split_and!; [done| |done].
  destruct negated; eauto 10 with spelling.
Qed.

Lemma between_renders column low high or_ : renders (Between column low high or_).
Proof.
  intros params. unfold binds. cbn [render_one cond_values map_condition length].
  destruct (column_ref d column) as [t|] eqn:E; [|done]. rewrite <- app_assoc. split_and!; [done| |].
  - rewrite !length_app, !Nat.add_1_r. cbn [length]. rewrite Nat.add_succ_r, Nat.add_1_r.
    apply spells_app_r; [eauto with spelling|]. apply spells_app_r; [auto with spelling|].
    apply (spells_both d _ 1 1); [auto with spelling|]. rewrite Nat.add_1_r.
    apply spells_app_r; auto with spelling.
  - intros f. rewrite !length_app, !length_map, !map_app, <- !app_assoc, <- Nat.add_assoc. done.
Qed.

Lemma render_list_binds cs : Forall renders cs -> forall first params,
  binds d params (flat_map cond_values cs) (spells d (length params) (length (flat_map cond_values cs)))
    (render_list (render_one d) first cs params)
    (fun f => render_list (render_one d) first (map (map_condition f) cs) (map f params)).
Proof.
  induction 1 as [|c cs Hc Hcs IH]; intros first params.
  { unfold binds. cbn. rewrite app_nil_r. split_and!; [done|auto with spelling|done]. }
  specialize (Hc params). unfold binds in *. cbn [render_list flat_map map].
  destruct (render_one d c params) as [[text params1]|]; [|done]. destruct Hc as (-> & Ht & Hf).
  specialize (IH false (params ++ cond_values c)).
  destruct (render_list (render_one d) false cs _) as [[rest params2]|]; [|done].
  destruct IH as (-> & Hr & Hf'). split_and!; [by rewrite app_assoc| |].
  - apply spells_app_r; [destruct first; [auto with spelling|apply connector_spelled]|].
    rewrite length_app. apply spells_both; [done|]. by rewrite <- length_app.
  - intros f. rewrite Hf, Hf', connector_map. done.
Qed.

Lemma condition_renders c : renders c.
Proof.
  induction c as [| | | |cs or_ Hcs] using Condition_nested_ind;
    [apply comparison_renders|apply in_renders|apply null_renders|apply between_renders|].
  intros params. pose proof (render_list_binds cs Hcs true params) as H. unfold binds in *.
  cbn [render_one cond_values map_condition].
  destruct (render_list (render_one d) true cs params) as [[text params']|]; [|done].
  destruct H as (-> & Ht & Hf). split_and!; [done| |intros f; by rewrite Hf].
  apply spells_app_r; [auto with spelling|]. apply spells_app_l; auto with spelling.
Qed.

Lemma where_binds cs params :
  binds d params (flat_map cond_values cs) (spells d (length params) (length (flat_map cond_values cs)))
    (where_clause d cs params) (fun f => where_clause d (map (map_condition f) cs) (map f params)).
Proof.
  pose proof (render_list_binds cs ltac:(apply Forall_true, condition_renders) true params) as H.
  unfold binds, where_clause, render_conditions in *.
  destruct (render_list (render_one d) true cs params) as [[text params']|]; [|done].
  destruct H as (-> & Ht & Hf). split_and!; [done| |intros f; by rewrite Hf].
  apply spells_app_r; auto with spelling.
Qed.
End binding.

Section statements.
Context (d : Dialect) `{!PagedDialect d}.

Lemma spells_clause {A} word (f : A -> result (list Z) (list Z)) l t n :
  (word = [] \/ bool_decide (lowercase word ∈ WORDS) = true) -> (forall a t, f a = Ok t -> spells d n 0 t) ->
  clause word f l = Ok t -> spells d n 0 t.
Proof.
  intros Hw Hf. unfold clause. destruct l as [|a l]; [intros <-%Ok_inj; auto with spelling|].
  destruct (try_map f (a :: l)) as [ts|] eqn:E; [|done]. intros <-%Ok_inj. apply spells_app_r.
  { destruct Hw as [->|Hw]; [auto with spelling|by apply spells_word]. }
  apply spells_join; [auto with spelling|]. by eapply try_map_Forall.
Qed.

Lemma spells_render_join j n t : render_join d j = Ok t -> spells d n 0 t.
Proof.
  unfold render_join. destruct (check_operator _) as [u|] eqn:Eo; [|done].
  destruct (quote_qualified d _) as [t'|] eqn:Et; [|done]. destruct (column_ref d (left j)) as [l|] eqn:El; [|done].
  destruct (column_ref d (right j)) as [r|] eqn:Er; [|done]. intros <-%Ok_inj.
  pose proof (spells_operator d _ u n Eo).
  assert (spells d n 0 (kind_sql (kind j))) by (destruct (kind j); cbn [kind_sql]; auto with spelling).
  eauto 20 with spelling.
Qed.

Lemma spells_render_order o n t : render_order d o = Ok t -> spells d n 0 t.
Proof.
  unfold render_order. destruct (column_ref d o.1) as [c|] eqn:E; [|done]. intros <-%Ok_inj.
  assert (spells d n 0 (as_sql o.2)) by (destruct o.2; cbn [as_sql]; auto with spelling). eauto with spelling.
Qed.

Lemma spells_concat n ts : Forall (spells d n 0) ts -> spells d n 0 (concat ts).
Proof. induction 1; cbn [concat]; [apply spells_empty|by apply spells_app_r]. Qed.

Lemma optional_where_binds cs :
  binds d [] (flat_map cond_values cs) (spells d 0 (length (flat_map cond_values cs)))
    (optional_where d cs) (fun f => optional_where d (map (map_condition f) cs)).
Proof.
  destruct cs as [|c cs]; [|exact (where_binds d (c :: cs) [])].
  unfold binds. split_and!; [done|auto with spelling|done].
Qed.

Lemma select_binds q :
  binds d [] (query_values q) (spells d 0 (length (query_values q))) (to_sql d q) (fun f => to_sql d (map_query f q)).
Proof.
  pose proof (optional_where_binds (conditions q)) as H. unfold binds, to_sql in *.
  cbn [map_query with_conditions table columns conditions joins order group limit_ offset_ distinct_].
  destruct (match columns q with [] => _ | _ => _ end) as [cols|] eqn:Ec; [|done].
  destruct (quote_qualified d (table q)) as [t|] eqn:Et; [|done].
  destruct (try_map (render_join d) (joins q)) as [js|] eqn:Ej; [|done].
  destruct (optional_where d (conditions q)) as [[conds params]|]; [|done].
  destruct H as (-> & Hc & Hf). destruct (clause _ (column_ref d) (group q)) as [gs|] eqn:Eg; [|done].
  destruct (clause _ (render_order d) (order q)) as [os|] eqn:Eo; [|done].
  split_and!; [done| |intros f; by rewrite Hf].
  apply spells_app_r; [auto with spelling|]. apply spells_app_r; [destruct (distinct_ q); auto with spelling|].
  apply spells_app_r.
  { destruct (columns q); [apply Ok_inj in Ec as <-; auto with spelling|].
    eapply spells_clause; [by left|intros a t'; apply spells_column_ref|exact Ec]. }
  apply spells_app_r; [auto with spelling|]. apply spells_app_r; [by eapply spells_qualified|].
  apply spells_app_r; [apply spells_concat; eapply try_map_Forall; [|exact Ej]; intros a t'; apply spells_render_join|].
  apply spells_app_l; [done|].
  apply spells_app_r; [eapply (spells_clause (lit " group by ")); [by right|intros a t'; apply spells_column_ref|exact Eg]|].
  apply spells_app_r; [eapply (spells_clause (lit " order by ")); [by right|intros a t'; apply spells_render_order|exact Eo]|].
  apply limit_offset_law.
Qed.

Lemma delete_binds q allow_all :
  binds d [] (query_values q) (spells d 0 (length (query_values q))) (to_delete_sql d q allow_all)
    (fun f => to_delete_sql d (map_query f q) allow_all).
Proof.
  unfold binds, to_delete_sql, query_values. cbn [map_query with_conditions table conditions].
  destruct (quote_qualified d (table q)) as [t|] eqn:Et; [|done]. destruct (conditions q) as [|c cs].
  { destruct allow_all; [|done]. cbn [map flat_map length]. split_and!; [done|eauto with spelling|done]. }
  pose proof (where_binds d (c :: cs) []) as H. unfold binds in H.
  destruct (where_clause d (c :: cs) []) as [[conds params]|]; [|done]. destruct H as (-> & Hc & Hf).
  cbn [map] in *. split_and!; [done| |intros f; by rewrite Hf].
  apply spells_app_r; [auto with spelling|]. apply spells_app_r; [by eapply spells_qualified|done].
Qed.

Lemma spells_join_cons sep n k k' a rest :
  (forall m, spells d m 0 sep) -> spells d n k a -> spells d (n + k) k' (join sep rest) -> (rest = [] -> k' = 0%nat) ->
  spells d n (k + k') (join sep (a :: rest)).
Proof.
  intros Hsep Ha Hr Hnil. destruct rest as [|r rest].
  - rewrite Hnil, Nat.add_0_r by done. done.
  - change (join sep (a :: r :: rest)) with (a ++ sep ++ join sep (r :: rest)).
    apply spells_both; [done|]. by apply spells_app_r.
Qed.

Lemma assignments_binds values : forall params,
  match assignments d values params with
  | Ok (set, params') =>
      params' = params ++ values.*2 /\
      spells d (length params) (length values) (join (lit ", ") set) /\
      forall f, assignments d (map_row f values) (map f params) = Ok (set, map f params')
  | Err _ => True
  end.
Proof.
  induction values as [|[column v] values IH]; intros params; cbn [assignments].
  { rewrite app_nil_r. split_and!; [done|auto with spelling|done]. }
  destruct (quote_valid d column) as [c|] eqn:E; [|done]. specialize (IH (params ++ [v])).
  destruct (assignments d values (params ++ [v])) as [[rest params']|] eqn:Er; [|done].
  destruct IH as (-> & Hs & Hf). rewrite length_app, Nat.add_1_r in *.
  assert (Ha : spells d (length params) 1 (c ++ lit " = " ++ placeholder d (S (length params))))
    by eauto with spelling.
  split_and!; [by rewrite <- app_assoc| |].
  - apply (spells_join_cons _ _ 1 (length values)); [auto with spelling|done|by rewrite Nat.add_1_r|]. intros ->.
    destruct values as [|[l v'] values]; [done|]. cbn [assignments] in Er.
    destruct (quote_valid d l) as [?|]; [|done]. by destruct (assignments d values _) as [[? ?]|].
  - intros f. cbn [map_row map fst snd assignments]. rewrite E, length_app, length_map, Nat.add_1_r.
    specialize (Hf f). rewrite map_app in Hf. cbn [map] in Hf. unfold map_row in Hf. by rewrite Hf.
Qed.

Lemma update_binds q values :
  binds d [] (values.*2 ++ query_values q) (spells d 0 (length (values.*2 ++ query_values q)))
    (to_update_sql d q values) (fun f => to_update_sql d (map_query f q) (map_row f values)).
Proof.
  unfold binds, to_update_sql, query_values. cbn [map_query with_conditions table conditions].
  destruct values as [|nv values]; [done|]. pose proof (assignments_binds (nv :: values) []) as Ha.
  destruct (assignments d (nv :: values) []) as [[set params]|]; [|done]. destruct Ha as (-> & Hset & Hf).
  destruct (quote_qualified d (table q)) as [t|] eqn:Et; [|done]. destruct (conditions q) as [|c cs]; [done|].
  pose proof (where_binds d (c :: cs) ((nv :: values).*2)) as H. unfold binds in H. rewrite app_nil_l in *.
  destruct (where_clause d (c :: cs) _) as [[conds params]|]; [|done]. destruct H as (-> & Hc & Hf').
  split_and!; [done| |].
  - apply spells_app_r; [auto with spelling|]. apply spells_app_r; [by eapply spells_qualified|].
    apply spells_app_r; [auto with spelling|]. rewrite length_app, length_fmap in *. by apply spells_both.
  - intros f. specialize (Hf f). specialize (Hf' f). cbn [map_row map] in *. rewrite Hf. by rewrite Hf'.
Qed.

Lemma row_names_map f cols row : row_names_known cols (map_row f row) = row_names_known cols row.
Proof. induction row as [|[n v] row IH]; [done|]. cbn. by rewrite <- IH. Qed.

Lemma map_row_values f row : (map_row f row).*2 = map f row.*2.
Proof. induction row as [|[n v] row IH]; [done|]. cbn. by f_equal. Qed.

Lemma map_row_names f row : (map_row f row).*1 = row.*1.
Proof. induction row as [|[n v] row IH]; [done|]. cbn. by f_equal. Qed.

Lemma insert_rows_binds cols rows : forall params,
  match insert_rows d cols rows params with
  | Ok (ph, params') =>
      params' = params ++ concat (map (fun row => row.*2) rows) /\ length ph = length rows /\
      spells d (length params) (length (concat (map (fun row : Row => row.*2) rows))) (join (lit ", ") ph) /\
      forall f, insert_rows d cols (map (map_row f) rows) (map f params) = Ok (ph, map f params')
  | Err _ => True
  end.
Proof.
  induction rows as [|row rows IH]; intros params; cbn [insert_rows map concat].
  { rewrite app_nil_r. split_and!; [done|done|auto with spelling|done]. }
  destruct (negb (length row =? length cols)%nat) eqn:El; [done|].
  destruct (row_names_known cols row) as [u|] eqn:En; [|done]. unfold push_values at 1. cbn [fst snd].
  specialize (IH (params ++ row.*2)).
  destruct (insert_rows d cols rows (params ++ row.*2)) as [[ph params']|] eqn:Er; [|done].
  destruct IH as (-> & Hl & Hs & Hf). rewrite length_app in Hs. split_and!.
  - by rewrite app_assoc.
  - cbn [length]. by rewrite Hl.
  - rewrite length_app. apply spells_join_cons; [auto with spelling| |done|].
    + apply spells_app_r; [auto with spelling|]. apply spells_app_l; [|auto with spelling].
      apply spells_slots. auto with spelling.
    + intros ->. by destruct rows.
  - intros f. rewrite row_names_map, En, map_row_values. unfold map_row at 1. rewrite length_map, El.
    rewrite map_push_values. unfold push_values at 1 2. cbn [fst snd]. by rewrite Hf.
Qed.

Lemma insert_binds q rows key :
  binds d [] (concat (map (fun row => row.*2) rows)) (spells d 0 (length (concat (map (fun row : Row => row.*2) rows))))
    (to_insert_sql d q rows key) (fun f => to_insert_sql d q (map (map_row f) rows) key).
Proof.
  unfold binds, to_insert_sql. destruct rows as [|row rows]; [done|].
  pose proof (insert_rows_binds row.*1 (row :: rows) []) as H. rewrite app_nil_l in *.
  destruct (insert_rows d row.*1 (row :: rows) []) as [[ph params]|]; [|done]. destruct H as (-> & _ & Hs & Hf).
  destruct (quote_qualified d (table q)) as [t|] eqn:Et; [|done].
  destruct (try_map (quote_valid d) row.*1) as [cs|] eqn:Ec; [|done].
  assert (Hcs : forall n, spells d n 0 (join (lit ", ") cs)).
  { intros n. apply spells_join; [auto with spelling|]. eapply try_map_Forall; [|exact Ec].
    intros a b. apply spells_quote_valid. }
  assert (Hf' : forall f, insert_rows d (map_row f row).*1 (map (map_row f) (row :: rows)) [] =
    Ok (ph, map f (concat (map (fun row => row.*2) (row :: rows))))) by (intros f; rewrite map_row_names; apply Hf).
  cbn [map] in *.
  destruct (match key with None => _ | Some _ => _ end) as [sql|] eqn:Es; [|done]. split_and!; [done| |].
  - destruct key as [column|]; [destruct (returning d)|].
    all: try destruct (quote_valid d column) as [c|] eqn:Ek; try done; apply Ok_inj in Es as <-.
    all: rewrite <- !app_assoc; do 5 (apply spells_app_r; [eauto with spelling|]).
    + apply spells_app_l; [done|]. eauto with spelling.
    + do 2 (apply spells_app_r; [eauto with spelling|]). done.
    + done.
    + done.
    + done.
  - intros f. rewrite (Hf' f), map_row_names, Ec. by rewrite Es.
Qed.
End statements.

(** C21. Nothing the caller supplies can become SQL, and no value is lost or bound
    to the wrong slot. Whatever strings and values a builder was given, a
    statement it generates (select, count, insert, update or delete, in any of
    the dialects) is spelled from fixed words, quoted valid identifiers, amounts
    and placeholders numbered 1, 2, ... in order; the parameters are exactly the
    values given, in that order; other values would give the same text with those
    values bound; and an update, or a delete not meant for every row, has a
    condition. *)
Theorem statements_injection_free d s sql params :
  PagedDialect d -> generate d s = Ok (sql, params) ->
  params = values_of s /\ spells d 0 (length params) sql /\
  (forall f, generate d (map_statement f s) = Ok (sql, map f params)) /\
  match s with Update q _ | Delete q false => conditions q <> [] | _ => True end.
Proof.
  intros Hd Hg. assert (H : binds d [] (values_of s) (spells d 0 (length (values_of s))) (generate d s)
    (fun f => generate d (map_statement f s))).
  { destruct s as [q|q|q rows key|q values|q all]; cbn [values_of generate map_statement].
    - by apply select_binds.
    - by apply (select_binds d {| table := table q; columns := [lit "count(*) as aggregate"];
        conditions := conditions q; joins := joins q; order := []; group := group q; limit_ := None;
        offset_ := None; distinct_ := distinct_ q |}).
    - by apply insert_binds.
    - by apply update_binds.
    - by apply delete_binds. }
  unfold binds in H. rewrite Hg in H. destruct H as (-> & H1 & H2). rewrite app_nil_l in *.
  split_and!; [done|done|exact H2|]. destruct s as [q|q|q rows key|q values|q [|]]; try done; cbn [generate] in Hg.
  - intros E. unfold to_update_sql in Hg. rewrite E in Hg. destruct values as [|v vs]; [done|].
    destruct (assignments d (v :: vs) []) as [[? ?]|]; [|done]. by destruct (quote_qualified d _).
  - intros E. unfold to_delete_sql in Hg. rewrite E in Hg. by destruct (quote_qualified d _).
Qed.

Lemma statements_injection_free_witness :
  let s := Update (filter (lit "id") (Value.Int 7) (new_query (lit "users")))
             [(lit "name", Value.Text (lit "'; drop table users; --"))] in
  let params := [Value.Text (lit "'; drop table users; --"); Value.Int 7] in
  let sql := lit "update `users` set `name` = ? where `id` = ?" in
  params = values_of s /\ spells MySql 0 2 sql /\
  (forall f, generate MySql (map_statement f s) = Ok (sql, map f params)) /\
  conditions (filter (lit "id") (Value.Int 7) (new_query (lit "users"))) <> [].
Proof.
  intros s params sql. apply (statements_injection_free MySql s sql params); [apply _|]. vm_compute. reflexivity.
Defined.

(** A bulk insert binds by position and ignores the names of the later rows:
    a second row that names the columns in another order gives the statement of
    the row with its two values exchanged, so each lands in the other's column. *)
Theorem bulk_insert_swaps d q a b v w v' w' key :
  to_insert_sql d q [[(a, v); (b, w)]; [(b, w'); (a, v')]] key =
  to_insert_sql d q [[(a, v); (b, w)]; [(a, w'); (b, v')]] key.
Proof.
  unfold to_insert_sql. cbn [insert_rows fmap list_fmap fst snd length negb Nat.eqb row_names_known].
  rewrite !(bool_decide_true (a ∈ [a; b])) by set_solver. by rewrite !(bool_decide_true (b ∈ [a; b])) by set_solver.
Qed.

(** The [?] operator is allowed, and in the dialects that write a placeholder as
    a question mark it reads as one more slot than there are parameters. *)
Example question_mark_collides :
  to_sql MySql (filter_op (lit "data") (lit "?") (Value.Int 1) (new_query (lit "t"))) =
  Ok (lit "select * from `t` where `data` ? ?", [Value.Int 1]).
Proof. vm_compute. reflexivity. Qed.

(** The page number is not bounded, so its product wraps: asked for a page far
    past the end, the first page comes back. *)
Example page_wraps :
  to_sql Postgres (page (2 ^ 62 + 1) 4 (new_query (lit "t"))) =
  to_sql Postgres (page 1 4 (new_query (lit "t"))).
Proof. vm_compute. reflexivity. Qed.

End Builder.
