(* ===== verification/ViewExpr.v ===== *)
(** * Template values and expressions ([rustlavel-view/src/source.rs], [escape.rs],
      [value.rs], [context.rs], [expr.rs])

    What a template can say between its braces: the scope names are looked up in,
    how values become text and truth, HTML escaping, and the expression language
    with its tokenizer and recursive-descent parser. *)

From Stdlib Require Import SpecFloat.
From S2P Require Import Prelude Text F64 Decimal Json JsonText.

Module ViewExpr.
Import Json.
Import Decimal(parse_f64, display_f64).

(** ** Positions and errors *)

(** The framework's [Error], with [Panicked] for a slice that is not on a
    character boundary and [Stuck] for a loop out of fuel. *)
Inductive Error :=
  | Template (file : list Z) (line column : nat) (message : list Z)
  | Message (message : list Z)
  | Panicked
  | Stuck.

Definition line_column (source : list Z) (offset : nat) : nat * nat :=
  let offset := Nat.min offset (length source) in
  let consumed := take offset source in
  ((length (List.filter (Z.eqb 10) consumed) + 1)%nat,
   (match JsonText.last_newline consumed 0 None with Some i => offset - i - 1 | None => offset end + 1)%nat).

Definition syntax_error (file source : list Z) (offset : nat) (message : list Z) : Error :=
  let '(line, column) := line_column source offset in Template file line column message.

Record Span := { s_file : list Z; s_source : list Z; s_offset : nat; s_text : list Z }.

(** [Span::new]; the fragments the lexer cuts begin and end next to ASCII. *)
Definition new_span (file source : list Z) (offset len : nat) : Span :=
  {| s_file := file; s_source := source; s_offset := offset; s_text := take len (drop offset source) |}.

Definition span_error {A} (s : Span) (at_ : nat) (message : list Z) : result Error A :=
  Err (syntax_error (s_file s) (s_source s) (s_offset s + at_) message).

(** ** Escaping *)

Definition special (b : Z) : bool := (b =? 38) || (b =? 60) || (b =? 62) || (b =? 34) || (b =? 39).

Definition escape_char (b : Z) : list Z :=
  if b =? 38 then lit "&amp;"
  else if b =? 60 then lit "&lt;"
  else if b =? 62 then lit "&gt;"
  else if b =? 34 then lit "&quot;"
  else if b =? 39 then lit "&#39;"
  else [b].

Definition escape (input : list Z) : list Z :=
  if negb (existsb special input) then input else concat (map escape_char input).

(** ** Values *)

Definition truthy (v : Json) : bool :=
  match v with
  | Null => false
  | Bool flag => flag
  | Number n => negb (SFeqb n (S754_zero false)) && negb (match n with S754_nan => true | _ => false end)
  | String text => negb (length text =? 0)%nat
  | Array items => negb (length items =? 0)%nat
  | Object members => negb (length members =? 0)%nat
  end.

(** [str::cmp]: by bytes. *)
Fixpoint text_cmp (a b : list Z) : comparison :=
  match a, b with
  | [], [] => Eq
  | [], _ => Lt
  | _, [] => Gt
  | x :: a, y :: b => match x ?= y with Eq => text_cmp a b | c => c end
  end.

Definition compare (left right : Json) : option comparison :=
  match left, right with
  | Number a, Number b => SFcompare a b
  | String a, String b => Some (text_cmp a b)
  | _, _ => None
  end.

Definition to_text (v : Json) : list Z :=
  match v with
  | Null => []
  | Bool flag => if flag then lit "true" else lit "false"
  | String text => text
  | Number n =>
      if JsonText.is_integral n && JsonText.below_1e15 n then dec (f64_to_int i64_min i64_max n) else display_f64 n
  | other => JsonText.to_string other
  end.

(** [PartialEq] of [Json]: numbers compare as floats, so NaN equals nothing. *)
Fixpoint json_eq (a b : Json) : bool :=
  match a, b with
  | Null, Null => true
  | Bool x, Bool y => Bool.eqb x y
  | Number x, Number y => SFeqb x y
  | String x, String y => bool_decide (x = y)
  | Array x, Array y =>
      (fix go (x y : list Json) :=
         match x, y with
         | [], [] => true
         | a :: x, b :: y => json_eq a b && go x y
         | _, _ => false
         end) x y
  | Object x, Object y =>
      (fix go (x y : list (list Z * Json)) :=
         match x, y with
         | [], [] => true
         | (k, a) :: x, (l, b) :: y => bool_decide (k = l) && json_eq a b && go x y
         | _, _ => false
         end) x y
  | _, _ => false
  end.

(** ** Scope *)

Definition Context := gmap (list Z) Json.

Definition with_ (key : list Z) (v : Json) (c : Context) : Context := <[key := v]> c.
Definition from_json (v : Json) : Context := match v with Object m => list_to_map (rev m) | _ => ∅ end.

(** The locals are a stack, innermost last. *)
Record Scope := { context : Context; locals : list (list Z * Json) }.

Definition push (name : list Z) (v : Json) (s : Scope) : Scope :=
  {| context := context s; locals := locals s ++ [(name, v)] |}.

Fixpoint find_local (root : list Z) (l : list (list Z * Json)) : option Json :=
  match l with
  | [] => None
  | (name, v) :: l => if bool_decide (name = root) then Some v else find_local root l
  end.

Definition lookup_path (path : list Z) (s : Scope) : option Json :=
  let '(root, rest) := match split_once 46 path with Some (root, rest) => (root, Some rest) | None => (path, None) end in
  let! v := match find_local root (rev (locals s)) with Some v => Some v | None => context s !! root end in
  match rest with Some rest => Json.get v rest | None => Some v end.

(** ** Expressions *)

Inductive BinaryOp := Or | And | OpEq | Ne | OpLt | Le | OpGt | Ge.

Inductive Expr :=
  | Path (path : list Z)
  | Str (text : list Z)
  | Num (n : f64)
  | Boolean (b : bool)
  | Nil
  | Not (e : Expr)
  | Binary (op : BinaryOp) (left right : Expr).

Definition is_some_cmp (c : option comparison) (wanted : list comparison) : bool :=
  match c with Some c => existsb (fun w => match c, w with Eq, Eq | Lt, Lt | Gt, Gt => true | _, _ => false end) wanted
             | None => false end.

Fixpoint eval (e : Expr) (s : Scope) : Json :=
  match e with
  | Path path => default Null (lookup_path path s)
  | Str text => String text
  | Num n => Number n
  | Boolean b => Bool b
  | Nil => Null
  | Not e => Bool (negb (truthy (eval e s)))
  | Binary op l r =>
      match op with
      | And => Bool (truthy (eval l s) && truthy (eval r s))
      | Or => Bool (truthy (eval l s) || truthy (eval r s))
      | OpEq => Bool (json_eq (eval l s) (eval r s))
      | Ne => Bool (negb (json_eq (eval l s) (eval r s)))
      | OpLt => Bool (is_some_cmp (compare (eval l s) (eval r s)) [Lt])
      | Le => Bool (is_some_cmp (compare (eval l s) (eval r s)) [Lt; Eq])
      | OpGt => Bool (is_some_cmp (compare (eval l s) (eval r s)) [Gt])
      | Ge => Bool (is_some_cmp (compare (eval l s) (eval r s)) [Gt; Eq])
      end
  end.

(** ** Tokens *)

Inductive Token :=
  | TPath (name : list Z)
  | TStr (text : list Z)
  | TNumber (n : f64)
  | TTrue
  | TFalse
  | TNull
  | TNot
  | TOp (op : BinaryOp)
  | TOpen
  | TClose
  | TComma.

Definition describe (t : Token) : list Z :=
  match t with
  | TPath name => lit "`" ++ name ++ lit "`"
  | TStr _ => lit "a string"
  | TNumber _ => lit "a number"
  | TTrue => lit "`true`"
  | TFalse => lit "`false`"
  | TNull => lit "`null`"
  | TNot => lit "`!`"
  | TOp And => lit "`&&`"
  | TOp Or => lit "`||`"
  | TOp OpEq => lit "`==`"
  | TOp Ne => lit "`!=`"
  | TOp OpLt => lit "`<`"
  | TOp Le => lit "`<=`"
  | TOp OpGt => lit "`>`"
  | TOp Ge => lit "`>=`"
  | TOpen => lit "`(`"
  | TClose => lit "`)`"
  | TComma => lit "`,`"
  end.

Definition byte (text : list Z) (i : nat) : option Z := text !! i.

(** How many bytes from [i] satisfy [p]. *)
Fixpoint run_of (p : Z -> bool) (l : list Z) : nat :=
  match l with b :: l => if p b then S (run_of p l) else O | [] => O end.

Definition escaped_char (b : Z) : list Z :=
  if b =? 110 then [10] else if b =? 116 then [9] else if b =? 114 then [13] else JsonText.encode_char b.

Fixpoint string_loop (fuel : nat) (s : Span) (quote : Z) (start i : nat) (value : list Z)
    : result Error (list Z * nat) :=
  match fuel with
  | O => Err Stuck
  | S fuel =>
      match byte (s_text s) i with
      | None => span_error s start (lit "unterminated string")
      | Some b =>
          if b =? 92 then
            match byte (s_text s) (S i) with
            | None => span_error s start (lit "unterminated string")
            | Some c => string_loop fuel s quote start (i + 2) (value ++ escaped_char c)
            end
          else if b =? quote then Ok (value, S i)
          else
            let n := run_of (fun b => negb (b =? quote) && negb (b =? 92)) (drop i (s_text s)) in
            if is_char_boundary (s_text s) i
            then string_loop fuel s quote start (i + n) (value ++ take n (drop i (s_text s)))
            else Err Panicked
      end
  end.

Definition string_literal (s : Span) (start : nat) : result Error (list Z * nat) :=
  string_loop (S (length (s_text s))) s (default 0 (byte (s_text s) start)) start (S start) [].

Definition number_byte (b : Z) : bool := is_digit b || (b =? 46).

Definition number_literal (s : Span) (start : nat) : result Error (f64 * nat) :=
  let i := (start + if bool_decide (byte (s_text s) start = Some 45%Z) then 1 else 0)%nat in
  let i := (i + run_of number_byte (drop i (s_text s)))%nat in
  match parse_f64 (take (i - start) (drop start (s_text s))) with
  | Some n => Ok (n, i)
  | None => span_error s start (lit "invalid number")
  end.

Definition is_letter (b : Z) : bool := in_range 65 90 b || in_range 97 122 b.
Definition word_byte (b : Z) : bool := is_letter b || is_digit b || (b =? 95) || (b =? 46).

(** [word.contains("..")]. *)
Fixpoint double_dot (l : list Z) : bool :=
  match l with
  | a :: r => ((a =? 46) && match r with b :: _ => b =? 46 | [] => false end) || double_dot r
  | [] => false
  end.

Definition word_token (word : list Z) : Token :=
  if bool_decide (word = lit "true") then TTrue
  else if bool_decide (word = lit "false") then TFalse
  else if bool_decide (word = lit "null") || bool_decide (word = lit "nil") then TNull
  else TPath word.

(** One token at [i], or [None] for a blank. *)
Definition token_at (s : Span) (i : nat) (b : Z) : result Error (option Token * nat) :=
  let text := s_text s in
  let next := byte text (S i) in
  let single t := Ok (Some t, S i) in
  if (b =? 32) || (b =? 9) || (b =? 10) || (b =? 13) then Ok (None, S i)
  else if (b =? 34) || (b =? 39) then
    let? (v, j) := string_literal s i in Ok (Some (TStr v), j)
  else if is_digit b || ((b =? 45) && match next with Some d => is_digit d | None => false end) then
    let? (n, j) := number_literal s i in Ok (Some (TNumber n), j)
  else if is_letter b || (b =? 95) then
    let j := (i + run_of word_byte (drop i text))%nat in
    let word := take (j - i) (drop i text) in
    if ends_with word (lit ".") || double_dot word
    then span_error s i (lit "a path segment is missing after `.`")
    else Ok (Some (word_token word), j)
  else if b =? 40 then single TOpen
  else if b =? 41 then single TClose
  else if b =? 44 then single TComma
  else if (b =? 38) || (b =? 124) then
    let word := if b =? 38 then lit "&&" else lit "||" in
    if negb (starts_with (drop i text) word) then span_error s i (lit "expected `" ++ word ++ lit "`")
    else Ok (Some (TOp (if b =? 38 then And else Or)), (i + 2)%nat)
  else if (b =? 61) || (b =? 33) || (b =? 60) || (b =? 62) then
    let two := bool_decide (next = Some 61) in
    let j := (i + if two then 2 else 1)%nat in
    if b =? 61 then
      if two then Ok (Some (TOp OpEq), j)
      else span_error s i (lit "use `==` to compare; there is no assignment in a template")
    else if b =? 33 then Ok (Some (if two then TOp Ne else TNot), j)
    else if b =? 60 then Ok (Some (TOp (if two then Le else OpLt)), j)
    else Ok (Some (TOp (if two then Ge else OpGt)), j)
  else span_error s i (lit "unexpected character `" ++ JsonText.encode_char b ++ lit "`").

Fixpoint tokenize_loop (fuel : nat) (s : Span) (i : nat) (tokens : list (Token * nat))
    : result Error (list (Token * nat)) :=
  match byte (s_text s) i with
  | None => Ok tokens
  | Some b =>
      match fuel with
      | O => Err Stuck
      | S fuel =>
          let? (t, j) := token_at s i b in
          tokenize_loop fuel s j (match t with Some t => tokens ++ [(t, i)] | None => tokens end)
      end
  end.
Definition tokenize (s : Span) : result Error (list (Token * nat)) := tokenize_loop (length (s_text s)) s 0 [].

(** ** The parser *)

(** What is left of the tokens is the cursor. *)
Abbreviation Cursor := (list (Token * nat)).

Section Parser.
Context (s : Span).

Definition here (c : Cursor) : nat := match c with (_, at_) :: _ => at_ | [] => length (s_text s) end.
Definition error_here {A} (c : Cursor) (message : list Z) : result Error A := span_error s (here c) message.

Definition expect_end (c : Cursor) : result Error unit :=
  match c with [] => Ok tt | (t, _) :: _ => error_here c (lit "unexpected " ++ describe t) end.

(** The rungs of the ladder, tightest first. *)
Definition rung (op : BinaryOp) : nat :=
  match op with Or => 4 | And => 3 | OpEq | Ne => 2 | OpLt | Le | OpGt | Ge => 1 end.

(** [any_of], after its first operand. *)
Fixpoint chain (fuel : nat) (level : nat) (tighter : Cursor -> result Error (Expr * Cursor)) (first : Expr) (c : Cursor)
    : result Error (Expr * Cursor) :=
  match fuel with
  | O => Err Stuck
  | S fuel =>
      match c with
      | (TOp op, _) :: r =>
          if (rung op =? level)%nat then
            let? (e, r) := tighter r in chain fuel level tighter (Binary op first e) r
          else Ok (first, c)
      | _ => Ok (first, c)
      end
  end.

(** [unary] and [primary] at rung 0, then [comparison], [equality],
    [conjunction] and [expression]. *)
Fixpoint parse_rung (fuel : nat) (level : nat) (c : Cursor) : result Error (Expr * Cursor) :=
  match fuel with
  | O => Err Stuck
  | S fuel =>
      match level with
      | S tighter =>
          let? (first, r) := parse_rung fuel tighter c in
          chain (S (length r)) level (parse_rung fuel tighter) first r
      | O =>
          match c with
          | [] => error_here c (lit "unexpected end of expression")
          | (TNot, _) :: r => let? (e, r) := parse_rung fuel 0 r in Ok (Not e, r)
          | (TOpen, _) :: r =>
              let? (inner, r) := parse_rung fuel 4 r in
              match r with
              | (TClose, _) :: r => Ok (inner, r)
              | _ => error_here r (lit "expected `)`")
              end
          | (TPath name, _) :: r => Ok (Path name, r)
          | (TStr text, _) :: r => Ok (Str text, r)
          | (TNumber n, _) :: r => Ok (Num n, r)
          | (TTrue, _) :: r => Ok (Boolean true, r)
          | (TFalse, _) :: r => Ok (Boolean false, r)
          | (TNull, _) :: r => Ok (Nil, r)
          | (t, _) :: _ => error_here c (lit "unexpected " ++ describe t)
          end
      end
  end.

Definition expression (c : Cursor) : result Error (Expr * Cursor) := parse_rung (5 * S (length c)) 4 c.

Fixpoint arguments_loop (fuel : nat) (c : Cursor) : result Error (list Expr * Cursor) :=
  match fuel with
  | O => Err Stuck
  | S fuel =>
      let? (e, r) := expression c in
      match r with
      | (TComma, _) :: r => let? (es, r) := arguments_loop fuel r in Ok (e :: es, r)
      | _ => Ok ([e], r)
      end
  end.

Definition parse : result Error Expr :=
  let? c := tokenize s in
  let? (e, r) := expression c in
  let? _ := expect_end r in Ok e.

Definition parse_arguments : result Error (list Expr) :=
  let? c := tokenize s in
  let? (es, r) := match c with [] => Ok ([], []) | _ => arguments_loop (length c) c end in
  let? _ := expect_end r in Ok es.

Definition parse_foreach : result Error (Expr * list Z) :=
  let? c := tokenize s in
  let? (subject, r) := expression c in
  let? r := match r with
            | (TPath word, _) :: r' => if bool_decide (word = lit "as") then Ok r'
                                       else error_here r (lit "expected `as`, like `@foreach(users as user)`")
            | _ => error_here r (lit "expected `as`, like `@foreach(users as user)`")
            end in
  let? (binding, r) := match r with
            | (TPath name, _) :: r' => if negb (bool_decide (46 ∈ name)) then Ok (name, r')
                                       else error_here r (lit "expected a variable name after `as`")
            | _ => error_here r (lit "expected a variable name after `as`")
            end in
  let? _ := expect_end r in Ok (subject, binding).
End Parser.

Example expressions_parse :
  let span text := {| s_file := lit "v"; s_source := text; s_offset := 0; s_text := text |} in
  parse (span (lit "a.b == 3 || !c && 'x\'y' != null")) =
    Ok (Binary Or (Binary OpEq (Path (lit "a.b")) (Num (S754_finite false 6755399441055744 (-51))))
         (Binary And (Not (Path (lit "c"))) (Binary Ne (Str (lit "x'y")) Nil))) /\
  parse (span (lit "a = 1")) =
    Err (Template (lit "v") 1 3 (lit "use `==` to compare; there is no assignment in a template")) /\
  parse_foreach (span (lit "users as u")) = Ok (Path (lit "users"), lit "u") /\
  parse_arguments (span (lit "'a', b")) = Ok [Str (lit "a"); Path (lit "b")] /\
  parse (span [34; 92; 195; 169; 34]) = Err Panicked.
Proof. vm_compute. split_and!; reflexivity. Qed.

(** ** Escaping is safe and loses nothing *)

(** A reader of the five entities, as a browser reads them in text. *)
Definition ENTITIES : list (list Z * Z) :=
  [(lit "&amp;", 38); (lit "&lt;", 60); (lit "&gt;", 62); (lit "&quot;", 34); (lit "&#39;", 39)].

Fixpoint entity (es : list (list Z * Z)) (l : list Z) : option (Z * list Z) :=
  match es with
  | [] => None
  | (name, c) :: es => match strip_prefix l name with Some r => Some (c, r) | None => entity es l end
  end.

Fixpoint unescape (fuel : nat) (l : list Z) : list Z :=
  match fuel, l with
  | S fuel, b :: r =>
      match entity ENTITIES l with
      | Some (c, rest) => c :: unescape fuel rest
      | None => b :: unescape fuel r
      end
  | _, _ => []
  end.

Lemma escape_eq input : escape input = concat (map escape_char input).
Proof.
  unfold escape. destruct (existsb special input) eqn:E; [done|]. cbn [negb]. symmetry.
  induction input as [|b l IH]; [done|]. cbn [existsb map concat] in *. apply orb_false_iff in E as [Eb El].
  rewrite IH by done. unfold special in Eb. unfold escape_char.
  destruct (b =? 38), (b =? 60), (b =? 62), (b =? 34), (b =? 39); done.
Qed.

Lemma entity_other b l : b <> 38 -> entity ENTITIES (b :: l) = None.
Proof.
  intros Hb. assert (Hn : forall p, strip_prefix (b :: l) (38 :: p) = None).
  { intros p. destruct (strip_prefix (b :: l) (38 :: p)) eqn:E; [|done]. apply strip_prefix_spec in E. by injection E. }
  change ENTITIES with (map (fun e => (38 :: e.1, e.2)) [(lit "amp;", 38); (lit "lt;", 60); (lit "gt;", 62);
    (lit "quot;", 34); (lit "#39;", 39)]). cbn [map entity fst snd]. by rewrite !Hn.
Qed.

Lemma unescape_char fuel b rest : unescape (S fuel) (escape_char b ++ rest) = b :: unescape fuel rest.
Proof.
  unfold escape_char. repeat case_match; rewrite ?Z.eqb_eq, ?Z.eqb_neq in *; subst; try done.
  cbn [app unescape]. by rewrite entity_other.
Qed.

(** [{{ }}] is safe and faithful. The escaped text has no angle bracket and no
    quote, every ampersand in it opens one of the five entities, and reading the
    entities back gives the original text, whatever it was; the fast path for
    clean text agrees. *)
Theorem escape_safe input :
  Forall (fun b => b <> 60 /\ b <> 62 /\ b <> 34 /\ b <> 39) (escape input) /\
  unescape (length input) (escape input) = input /\
  (forall pre post, escape input = pre ++ 38 :: post -> entity ENTITIES (38 :: post) <> None).
Proof.
  rewrite escape_eq. split_and!.
  - induction input as [|b l IH]; cbn [map concat]; [constructor|]. apply Forall_app. split; [|done].
    unfold escape_char. repeat case_match; rewrite ?Z.eqb_eq, ?Z.eqb_neq in *;
      first [by apply (bool_decide_eq_true_1 _) | apply Forall_cons_2; [lia|apply Forall_nil_2]].
  - induction input as [|b l IH]; [done|]. cbn [length map concat]. by rewrite unescape_char, IH.
  - induction input as [|b l IH]; cbn [map concat]; intros pre post E; [by destruct pre|].
    assert (Hc : (forall p, escape_char b <> 38 :: p) \/ exists p, escape_char b = 38 :: p /\
      Forall (fun x => x <> 38) p /\ forall r, entity ENTITIES (38 :: p ++ r) <> None).
    { unfold escape_char. repeat case_match; rewrite ?Z.eqb_eq, ?Z.eqb_neq in *; subst;
        try (left; intros p [= ->]; done);
        right; (eexists; split_and!; [reflexivity|by apply (bool_decide_eq_true_1 _)|done]). }
    assert (Hskip : forall cs pre, Forall (fun x => x <> 38) cs ->
      cs ++ concat (map escape_char l) = pre ++ 38 :: post ->
      exists pre', concat (map escape_char l) = pre' ++ 38 :: post).
    { clear -post. induction cs as [|x cs IHc]; intros pre Hcs E; [by exists pre|].
      apply Forall_cons_iff in Hcs as [Hx Hcs]. destruct pre as [|y pre]; injection E as -> E; [done|].
      by apply (IHc pre). }
    destruct Hc as [Hno|(p & Hp & Hcs & Hent)].
    + assert (Hb : Forall (fun x => x <> 38) (escape_char b)).
      { unfold escape_char in *. repeat case_match; rewrite ?Z.eqb_eq, ?Z.eqb_neq in *; subst;
          try (by destruct (Hno _ eq_refl)). by apply Forall_cons_2; [|apply Forall_nil_2]. }
      destruct (Hskip _ _ Hb E) as [pre' E']. by apply (IH pre').
    + rewrite Hp in E. destruct pre as [|y pre]; [injection E as <-; apply Hent|]. injection E as _ E.
      destruct (Hskip _ _ Hcs E) as [pre' E']. by apply (IH pre').
Qed.

End ViewExpr.
