(* ===== verification/ViewTemplate.v ===== *)
(** * Template syntax ([rustlavel-view/src/ast.rs], [lexer.rs], [parser.rs])

    A template is split into literal text, echoes and directives, and these are
    parsed into a tree. Expressions and arguments inside are those of
    [ViewExpr]. *)

From Stdlib Require Import SpecFloat.
From S2P Require Import Prelude Text F64 Decimal Json JsonText ViewExpr.

Module ViewTemplate.
Import ViewExpr.

(** ** The tree *)

Record TemplateRef := { ref_name : list Z; ref_file : list Z; ref_line : nat; ref_column : nat }.

Definition ref_error (r : TemplateRef) (message : list Z) : Error :=
  Template (ref_file r) (ref_line r) (ref_column r) message.

Inductive Node :=
  | Text (text : list Z)
  | Echo (expr : Expr) (escaped : bool)
  | If (branches : list (Expr * list Node)) (otherwise : option (list Node))
  | Foreach (subject : Expr) (binding : list Z) (body : list Node)
  | Yield (section : list Z) (fallback : option Expr)
  | Include (reference : TemplateRef)
  | Lang (key : list Z) (replacements : list (list Z * Expr))
  | Route (name : list Z) (params : list (list Z * Expr)).

Record View := {
  v_name : list Z;
  v_nodes : list Node;
  v_extends : option TemplateRef;
  v_sections : gmap (list Z) (list Node);
}.

(** ** The lexer *)

Definition WITH_ARGUMENTS : list (list Z) := map lit
  ["if"; "elseif"; "foreach"; "extends"; "section"; "yield"; "include"; "lang"; "route"]%string.
Definition WITHOUT_ARGUMENTS : list (list Z) := map lit ["else"; "endif"; "endforeach"; "endsection"]%string.
Definition STRUCTURAL : list (list Z) := map lit
  ["if"; "elseif"; "else"; "endif"; "foreach"; "endforeach"; "section"; "endsection"; "extends"]%string.

Inductive LToken :=
  | LText (text : list Z)
  | LEcho (source : list Z) (offset : nat) (escaped : bool)
  | LDirective (name arguments : list Z) (arguments_offset offset : nat).

Section Lexer.
Context (file source : list Z).

Definition lex_error {A} (offset : nat) (message : list Z) : result Error A :=
  Err (syntax_error file source offset message).

(** The offset just past a string that opened with [quote]. *)
Fixpoint skip_loop (fuel : nat) (quote : Z) (i : nat) : nat :=
  match fuel, byte source i with
  | S fuel, Some b =>
      if b =? 92 then skip_loop fuel quote (i + 2)
      else if b =? quote then S i
      else skip_loop fuel quote (S i)
  | _, _ => i
  end.
Definition skip_string (start : nat) : nat :=
  skip_loop (length source) (default 0 (byte source start)) (S start).

Definition is_quote (b : Z) : bool := (b =? 34) || (b =? 39).

Fixpoint find_loop (fuel : nat) (close : list Z) (i : nat) (quoted : bool) : option nat :=
  match fuel, byte source i with
  | S fuel, Some b =>
      if quoted && is_quote b then find_loop fuel close (skip_string i) quoted
      else if starts_with (drop i source) close then Some i
      else find_loop fuel close (S i) quoted
  | _, _ => None
  end.
Definition find_close (close : list Z) (from : nat) (quoted : bool) (opener : list Z) : result Error nat :=
  match find_loop (length source) close from quoted with
  | Some i => Ok i
  | None => lex_error (from - length opener)
              (lit "`" ++ opener ++ lit "` is never closed " ++ [226; 128; 148] ++ lit " add a matching `" ++ close ++ lit "`")
  end.

Fixpoint paren_loop (fuel : nat) (depth i : nat) : option nat :=
  match fuel, byte source i with
  | S fuel, Some b =>
      if is_quote b then paren_loop fuel depth (skip_string i)
      else if b =? 40 then paren_loop fuel (S depth) (S i)
      else if b =? 41 then if (depth - 1 =? 0)%nat then Some i else paren_loop fuel (depth - 1) (S i)
      else paren_loop fuel depth (S i)
  | _, _ => None
  end.
Definition matching_paren (open : nat) : result Error nat :=
  match paren_loop (length source) 0 open with
  | Some i => Ok i
  | None => lex_error open (lit "`(` is never closed")
  end.

Definition is_blank (b : Z) : bool := (b =? 32) || (b =? 9).

Definition at_line_start (offset : nat) : bool :=
  match List.find (fun b => negb (is_blank b)) (rev (take offset source)) with
  | None => true
  | Some b => b =? 10
  end.

Definition line_end (offset : nat) : option nat :=
  let i := (offset + run_of is_blank (drop offset source))%nat in
  match byte source i with
  | None => Some i
  | Some b =>
      if b =? 10 then Some (S i)
      else if (b =? 13) && bool_decide (byte source (S i) = Some 10) then Some (i + 2)%nat
      else None
  end.

(** [trim_end_matches([' ', '\t'])]. *)
Definition trim_blanks (text : list Z) : list Z := take (length text - run_of is_blank (rev text)) text.

Record LexState := { pos : nat; pending : list Z; emitted : list LToken }.

(** [flush]: the text so far, if any, becomes a token. *)
Definition flush (text : list Z) (tokens : list LToken) : list LToken :=
  match text with [] => tokens | _ => tokens ++ [LText text] end.

Definition echo (st : LexState) (open : nat) (close : list Z) (escaped : bool) : result Error LexState :=
  let start := (pos st + open)%nat in
  let? end_ := find_close close start true (take open (drop (pos st) source)) in
  Ok {| pos := end_ + length close; pending := [];
        emitted := flush (pending st) (emitted st) ++ [LEcho (take (end_ - start) (drop start source)) start escaped] |}.

(** [directive]: [None] when the [@] starts no directive. *)
Definition directive (st : LexState) : result Error (option LexState) :=
  let start := pos st in
  let end_ := (S start + run_of is_letter (drop (S start) source))%nat in
  let name := take (end_ - S start) (drop (S start) source) in
  if bool_decide (name = lit "php") || bool_decide (name = lit "endphp") then
    lex_error start (lit "`@php` is not supported " ++ [226; 128; 148] ++
                     lit " compute the value in Rust and pass it to the view")
  else
    let takes := bool_decide (name ∈ WITH_ARGUMENTS) in
    if negb takes && negb (bool_decide (name ∈ WITHOUT_ARGUMENTS)) then Ok None
    else
      let? (arguments, arguments_offset, after) :=
        if takes then
          if negb (bool_decide (byte source end_ = Some 40)) then
            lex_error end_ (lit "expected `(` after `@" ++ name ++ lit "`")
          else let? close := matching_paren end_ in
               Ok (take (close - S end_) (drop (S end_) source), S end_, S close)
        else Ok ([], end_, end_) in
      let '(text, after) :=
        match (if bool_decide (name ∈ STRUCTURAL) && at_line_start start then line_end after else None) with
        | Some next_line => (trim_blanks (pending st), next_line)
        | None => (pending st, after)
        end in
      Ok (Some {| pos := after; pending := [];
                  emitted := flush text (emitted st) ++ [LDirective name arguments arguments_offset start] |}).

Definition advance (st : LexState) (by_ : nat) (text : list Z) : LexState :=
  {| pos := pos st + by_; pending := pending st ++ text; emitted := emitted st |}.

(** One turn of [run]. *)
Definition lex_step (st : LexState) : result Error LexState :=
  let rest := drop (pos st) source in
  let n := run_of (fun b => negb (b =? 123) && negb (b =? 64)) rest in
  if negb (n =? 0)%nat then Ok (advance st n (take n rest))
  else if starts_with rest (lit "{{--") then
    let? end_ := find_close (lit "--}}") (pos st + 4) false (lit "{{--") in
    Ok {| pos := end_ + 4; pending := pending st; emitted := emitted st |}
  else if starts_with rest (lit "{!!") then echo st 3 (lit "!!}") false
  else if starts_with rest (lit "{{") then echo st 2 (lit "}}") true
  else if starts_with rest (lit "@@") then Ok (advance st 2 (lit "@"))
  else if starts_with rest (lit "@{{") then Ok (advance st 3 (lit "{{"))
  else
    let? d := if starts_with rest (lit "@") then directive st else Ok None in
    match d with
    | Some st => Ok st
    | None => Ok (advance st 1 (take 1 rest))
    end.

Fixpoint lex_loop (fuel : nat) (st : LexState) : result Error (list LToken) :=
  if (pos st <? length source)%nat then
    match fuel with
    | O => Err Stuck
    | S fuel => let? st := lex_step st in lex_loop fuel st
    end
  else Ok (flush (pending st) (emitted st)).
Definition tokenize : result Error (list LToken) := lex_loop (length source) {| pos := 0; pending := []; emitted := [] |}.

(** ** The parser *)

Record State := { tokens : list LToken; extends_ : option TemplateRef; sections : gmap (list Z) (list Node) }.

Definition skip (st : State) (r : list LToken) : State :=
  {| tokens := r; extends_ := extends_ st; sections := sections st |}.

Definition span_of (offset len : nat) : Span := new_span file source offset len.

Definition literal (e : option Expr) (s : Span) (name : list Z) : result Error (list Z) :=
  match e with
  | Some (Str text) => Ok text
  | _ => span_error s 0 (lit "`@" ++ name ++ lit "` needs a quoted name, like `@" ++ name ++ lit "(" ++ [34] ++
                         lit "layouts.app" ++ [34] ++ lit ")`")
  end.

Definition template_name (s : Span) (name : list Z) : result Error (list Z) :=
  let? arguments := parse_arguments s in
  if negb (length arguments =? 1)%nat then span_error s 0 (lit "`@" ++ name ++ lit "` takes exactly one view name")
  else literal (head arguments) s name.

Definition reference (name : list Z) (offset : nat) : TemplateRef :=
  let '(line, column) := line_column source offset in
  {| ref_name := name; ref_file := file; ref_line := line; ref_column := column |}.

Definition close (opener closer : list Z) (offset : nat) (st : State) : result Error State :=
  match tokens st with
  | LDirective name _ _ _ :: r =>
      if bool_decide (name = closer) then Ok (skip st r)
      else lex_error offset (lit "`@" ++ opener ++ lit "` is never closed " ++ [226; 128; 148] ++ lit " add `@" ++ closer ++ lit "`")
  | _ => lex_error offset (lit "`@" ++ opener ++ lit "` is never closed " ++ [226; 128; 148] ++ lit " add `@" ++ closer ++ lit "`")
  end.

Definition here_offset (st : State) : nat :=
  match tokens st with
  | LDirective _ _ _ offset :: _ | LEcho _ offset _ :: _ => offset
  | _ => length source
  end.
Definition parse_error_here {A} (st : State) (message : list Z) : result Error A := lex_error (here_offset st) message.

Definition opener_of (name : list Z) : list Z :=
  if bool_decide (name ∈ [lit "endif"; lit "elseif"; lit "else"]) then lit "@if"
  else if bool_decide (name = lit "endforeach") then lit "@foreach"
  else if bool_decide (name = lit "endsection") then lit "@section"
  else lit "a block".

(** The pairs after the key of [@lang] and the name of [@route]. *)
Fixpoint name_value_pairs (s : Span) (message : list Z) (l : list Expr) : result Error (list (list Z * Expr)) :=
  match l with
  | Str name :: value :: l => let? r := name_value_pairs s message l in Ok ((name, value) :: r)
  | _ :: _ :: l => span_error s 0 message
  | _ => Ok []
  end.

Definition quoted_example (text : list Z) (key : list Z) (param value : list Z) : list Z :=
  text ++ lit "(" ++ [34] ++ key ++ [34] ++ lit ", " ++ [34] ++ param ++ [34] ++ lit ", " ++ value ++ lit ")`".

Definition placeholder_message : list Z :=
  quoted_example (lit "a `@lang` placeholder name has to be quoted, like `@lang") (lit "mail.greeting") (lit "name")
    (lit "user.name").

Definition lang (s : Span) : result Error Node :=
  let? arguments := parse_arguments s in
  let? key := literal (head arguments) s (lit "lang") in
  let rest := tail arguments in
  if negb (length rest mod 2 =? 0)%nat then
    span_error s 0 (quoted_example (lit "`@lang` takes a key and then pairs of name and value, like `@lang")
      (lit "mail.greeting") (lit "name") (lit "user.name") ++ lit " " ++ [226; 128; 148] ++ lit " one name here has no value")
  else let? pairs := name_value_pairs s placeholder_message rest in Ok (Lang key pairs).

Definition route (s : Span) : result Error Node :=
  let? arguments := parse_arguments s in
  let? name := literal (head arguments) s (lit "route") in
  let rest := tail arguments in
  if negb (length rest mod 2 =? 0)%nat then
    span_error s 0 (quoted_example (lit "`@route` takes a route name and then pairs of parameter and value, like `@route")
      (lit "users.show") (lit "id") (lit "user.id") ++ lit " " ++ [226; 128; 148] ++ lit " one parameter here has no value")
  else let? pairs := name_value_pairs s placeholder_message rest in Ok (Route name pairs).

Definition yield_section (s : Span) : result Error Node :=
  let? arguments := parse_arguments s in
  if (2 <? length arguments)%nat then span_error s 0 (lit "`@yield` takes a name and an optional fallback")
  else let? section := literal (head arguments) s (lit "yield") in Ok (Yield section (arguments !! 1%nat)).

Definition extends (s : Span) (offset : nat) (st : State) : result Error State :=
  let? name := template_name s (lit "extends") in
  match extends_ st with
  | Some _ => span_error s 0 (lit "a template can only `@extends` one layout")
  | None => Ok {| tokens := tokens st; extends_ := Some (reference name offset); sections := sections st |}
  end.

Definition STOP : list (list Z) := map lit ["elseif"; "else"; "endif"]%string.

(** The loop of [conditional] after the first branch. *)
Fixpoint branches_loop (fuel : nat) (block : State -> result Error (list Node * State))
    (branches : list (Expr * list Node)) (otherwise : option (list Node)) (st : State)
    : result Error (list (Expr * list Node) * option (list Node) * State) :=
  match fuel with
  | O => Err Stuck
  | S fuel =>
      match tokens st with
      | LDirective name arguments arguments_offset _ :: r =>
          if bool_decide (name = lit "elseif") then
            match otherwise with
            | Some _ => parse_error_here st (lit "`@elseif` cannot follow `@else`")
            | None =>
                let? condition := parse (span_of arguments_offset (length arguments)) in
                let? (body, st) := block (skip st r) in
                branches_loop fuel block (branches ++ [(condition, body)]) otherwise st
            end
          else if bool_decide (name = lit "else") then
            match otherwise with
            | Some _ => parse_error_here st (lit "`@else` appears twice in one `@if`")
            | None => let? (body, st) := block (skip st r) in branches_loop fuel block branches (Some body) st
            end
          else Ok (branches, otherwise, st)
      | _ => Ok (branches, otherwise, st)
      end
  end.

(** [section], after its arguments. *)
Definition add_section (name : list Z) (body : list Node) (offset : nat) (st : State) : result Error State :=
  match sections st !! name with
  | Some _ => lex_error offset (lit "`" ++ name ++ lit "` is defined by two `@section` blocks in this template")
  | None => Ok {| tokens := tokens st; extends_ := extends_ st; sections := <[name := body]> (sections st) |}
  end.

Definition section (block : State -> result Error (list Node * State)) (s : Span) (offset : nat) (st : State)
    : result Error State :=
  let? arguments := parse_arguments s in
  let? name := literal (head arguments) s (lit "section") in
  let? (body, st) :=
    match arguments with
    | [_] => let? (body, st) := block st in
             let? st := close (lit "section") (lit "endsection") offset st in Ok (body, st)
    | [_; e] => Ok ([Echo e true], st)
    | _ => span_error s 0 (lit "`@section` takes a name and an optional value")
    end in
  add_section name body offset st.

Definition conditional (block : State -> result Error (list Node * State)) (s : Span) (offset : nat) (st : State)
    : result Error (Node * State) :=
  let? condition := parse s in
  let? (body, st) := block st in
  let? (branches, otherwise, st) := branches_loop (S (length (tokens st))) block [(condition, body)] None st in
  let? st := close (lit "if") (lit "endif") offset st in
  Ok (If branches otherwise, st).

Definition loop_over (block : State -> result Error (list Node * State)) (s : Span) (offset : nat) (st : State)
    : result Error (Node * State) :=
  let? (subject, binding) := parse_foreach s in
  let? (body, st) := block st in
  let? st := close (lit "foreach") (lit "endforeach") offset st in
  Ok (Foreach subject binding body, st).

(** One directive: the nodes it adds, and the state after it. *)
Definition on_directive (block : list (list Z) -> State -> result Error (list Node * State))
    (name : list Z) (s : Span) (offset : nat) (st : State) : result Error (list Node * State) :=
  if bool_decide (name = lit "if") then let? (n, st) := conditional (block STOP) s offset st in Ok ([n], st)
  else if bool_decide (name = lit "foreach") then
    let? (n, st) := loop_over (block [lit "endforeach"]) s offset st in Ok ([n], st)
  else if bool_decide (name = lit "section") then
    let? st := section (block [lit "endsection"]) s offset st in Ok ([], st)
  else if bool_decide (name = lit "extends") then let? st := extends s offset st in Ok ([], st)
  else if bool_decide (name = lit "yield") then let? n := yield_section s in Ok ([n], st)
  else if bool_decide (name = lit "lang") then let? n := lang s in Ok ([n], st)
  else if bool_decide (name = lit "route") then let? n := route s in Ok ([n], st)
  else if bool_decide (name = lit "include") then
    let? view := template_name s (lit "include") in Ok ([Include (reference view offset)], st)
  else lex_error offset (lit "`@" ++ name ++ lit "` has no matching `" ++ opener_of name ++ lit "`").

(** [block]: nodes until a directive of [stop], which is left in place. *)
Fixpoint block (fuel : nat) (stop : list (list Z)) (st : State) : result Error (list Node * State) :=
  match fuel with
  | O => Err Stuck
  | S fuel =>
      match tokens st with
      | [] => Ok ([], st)
      | LText text :: r =>
          let? (nodes, st) := block fuel stop (skip st r) in Ok (Text text :: nodes, st)
      | LEcho src offset escaped :: r =>
          let? e := parse (span_of offset (length src)) in
          let? (nodes, st) := block fuel stop (skip st r) in Ok (Echo e escaped :: nodes, st)
      | LDirective name arguments arguments_offset offset :: r =>
          if bool_decide (name ∈ stop) then Ok ([], st)
          else
            let? (first, st) :=
              on_directive (block fuel) name (span_of arguments_offset (length arguments)) offset (skip st r) in
            let? (nodes, st) := block fuel stop st in Ok (first ++ nodes, st)
      end
  end.

Definition parse_view : result Error View :=
  let? ts := tokenize in
  let? (nodes, st) := block (S (length ts)) [] {| tokens := ts; extends_ := None; sections := ∅ |} in
  Ok {| v_name := file; v_nodes := nodes; v_extends := extends_ st; v_sections := sections st |}.
End Lexer.

Example template_parses :
  parse_view (lit "v") (lit "<p>@if(a)" ++ [10] ++ lit "{{ a }}@else{!! b !!}@endif</p>@@if {{-- c --}}@media") =
    Ok {| v_name := lit "v"; v_extends := None; v_sections := ∅;
          v_nodes := [Text (lit "<p>");
            If [(Path (lit "a"), [Text [10]; Echo (Path (lit "a")) true])] (Some [Echo (Path (lit "b")) false]);
            Text (lit "</p>@if @media")] |} /\
  parse_view (lit "v") (lit "@section('t', x)@section('b')" ++ [10] ++ lit "y@endsection") =
    Ok {| v_name := lit "v"; v_extends := None; v_nodes := [];
          v_sections := {[ lit "t" := [Echo (Path (lit "x")) true]; lit "b" := [Text ([10] ++ lit "y")] ]} |} /\
  parse_view (lit "v") (lit "a" ++ [10] ++ lit " @endif") = Err (Template (lit "v") 2 2 (lit "`@endif` has no matching `@if`")).
Proof. vm_compute. split_and!; reflexivity. Qed.

End ViewTemplate.
