(* ===== verification/ViewTemplateProofs.v ===== *)
(** * The template parser always answers ([rustlavel-view/src/expr.rs], [lexer.rs],
      [parser.rs])

    The tokenizers advance with every turn and the parsers consume a token with
    every call, so no template, however malformed, keeps them busy. *)

From Stdlib Require Import SpecFloat.
From S2P Require Import Prelude Text F64 Decimal Json JsonText ViewExpr ViewTemplate.

Module ViewExprProofs.
Import ViewExpr.

Section rungs.
Context (s : Span).

(** ** Every rung consumes tokens *)

Definition consumes (p : Cursor -> result Error (Expr * Cursor)) : Prop :=
  forall c e r, p c = Ok (e, r) -> (length r < length c)%nat.

Lemma chain_shrinks level p : consumes p -> forall fuel first c e r,
  chain fuel level p first c = Ok (e, r) -> (length r <= length c)%nat.
Proof.
  intros Hp. induction fuel as [|fuel IH]; intros first c e r; cbn [chain]; [done|].
  destruct c as [|[[] at_] c]; try (by intros [= _ <-]).
  destruct (rung op =? level)%nat; [|by intros [= _ <-]].
  destruct (p c) as [[e' r']|] eqn:E; [|done]. intros H. apply Hp in E. apply IH in H. cbn [length]. lia.
Qed.

Lemma parse_rung_consumes fuel : forall level, consumes (parse_rung s fuel level).
Proof.
  induction fuel as [|fuel IH]; intros level c e r; cbn [parse_rung]; [done|]. destruct level as [|level].
  - destruct c as [|[t at_] c]; [done|]. destruct t; try done; try (intros [= _ <-]; cbn; lia).
    + destruct (parse_rung s fuel 0 c) as [[e' r']|] eqn:E; [|done]. intros [= _ <-]. apply IH in E. cbn. lia.
    + destruct (parse_rung s fuel 4 c) as [[e' r']|] eqn:E; [|done]. apply IH in E.
      destruct r' as [|[[] ?] r']; try done. intros [= _ <-]. cbn in *. lia.
  - destruct (parse_rung s fuel level c) as [[e' r']|] eqn:E; [|done]. intros H. apply IH in E.
    apply chain_shrinks in H; [lia|apply IH].
Qed.

(** ** The fuel is enough *)

Definition answers {A} (x : result Error A) : Prop := x <> Err Stuck.

Lemma chain_answers level p : consumes p -> forall fuel first c,
  (length c < fuel)%nat -> (forall c', (length c' < length c)%nat -> answers (p c')) ->
  answers (chain fuel level p first c).
Proof.
  intros Hc. induction fuel as [|fuel IH]; intros first c Hf Hp; [lia|]. cbn [chain].
  destruct c as [|[[] at_] c]; try done. destruct (rung op =? level)%nat; [|done]. cbn [length] in *.
  pose proof (Hp c ltac:(lia)) as Ha. destruct (p c) as [[e r]|err] eqn:E; [|by intros [= ->]].
  apply Hc in E. apply IH; [lia|]. intros c' Hc'. apply Hp. lia.
Qed.

Lemma parse_rung_answers fuel : forall level c,
  (level <= 4)%nat -> (5 * length c + level < fuel)%nat -> answers (parse_rung s fuel level c).
Proof.
  induction fuel as [|fuel IH]; intros level c Hl Hf; [lia|]. cbn [parse_rung]. destruct level as [|level].
  - destruct c as [|[t at_] c]; [done|]. cbn [length] in Hf. destruct t; try done.
    + pose proof (IH 0%nat c ltac:(lia) ltac:(lia)). by destruct (parse_rung s fuel 0 c) as [[]|[]].
    + pose proof (IH 4%nat c ltac:(lia) ltac:(lia)).
      destruct (parse_rung s fuel 4 c) as [[e [|[[] ?] ?]]|[]]; done.
  - pose proof (IH level c ltac:(lia) ltac:(lia)) as Ha.
    destruct (parse_rung s fuel level c) as [[e r]|err] eqn:E; [|by intros [= ->]].
    apply parse_rung_consumes in E. apply chain_answers; [apply parse_rung_consumes|lia|].
    intros c' Hc'. apply IH; lia.
Qed.

Lemma expression_answers c : answers (expression s c).
Proof. apply parse_rung_answers; lia. Qed.

Lemma arguments_answer fuel : forall c,
  (0 < fuel)%nat -> (length c <= fuel)%nat -> answers (arguments_loop s fuel c).
Proof.
  induction fuel as [|fuel IH]; intros c Hf Hc; [lia|]. cbn [arguments_loop].
  pose proof (expression_answers c) as Ha. destruct (expression s c) as [[e r]|err] eqn:E; [|by intros [= ->]].
  apply parse_rung_consumes in E. destruct r as [|[[] ?] r]; try done. cbn [length] in E.
  pose proof (IH r ltac:(lia) ltac:(lia)) as Hr. destruct (arguments_loop s fuel r) as [[es r']|err]; [done|].
  by intros [= ->].
Qed.

(** ** More fuel changes nothing *)

Lemma chain_more level p q : consumes p -> (forall c, answers (p c) -> q c = p c) -> forall f1 f2 first c,
  (length c < f2)%nat -> answers (chain f1 level p first c) ->
  chain f2 level q first c = chain f1 level p first c.
Proof.
  intros Hc Hq. induction f1 as [|f1 IH]; intros f2 first c Hf Ha; [done|].
  destruct f2 as [|f2]; [lia|]. cbn [chain] in *. destruct c as [|[[] at_] c]; try done.
  destruct (rung op =? level)%nat; [|done]. cbn [length] in *. rewrite Hq.
  - destruct (p c) as [[e r]|] eqn:E; [|done]. apply Hc in E. apply IH; [lia|done].
  - intros E. by rewrite E in Ha.
Qed.

Lemma parse_rung_more f1 : forall f2 level c,
  (f1 <= f2)%nat -> answers (parse_rung s f1 level c) -> parse_rung s f2 level c = parse_rung s f1 level c.
Proof.
  induction f1 as [|f1 IH]; intros f2 level c Hf Ha; [done|]. destruct f2 as [|f2]; [lia|].
  cbn [parse_rung] in *. destruct level as [|level].
  - destruct c as [|[t at_] c]; [done|]. destruct t; try done.
    + rewrite (IH f2); [done|lia|]. intros E. by rewrite E in Ha.
    + rewrite (IH f2); [done|lia|]. intros E. by rewrite E in Ha.
  - rewrite (IH f2); [|lia|intros E; by rewrite E in Ha].
    destruct (parse_rung s f1 level c) as [[e r]|]; [|done].
    apply chain_more; [apply parse_rung_consumes| |lia|done]. intros c'. apply IH. lia.
Qed.

(** ** Reading back what is shown *)

(** An expression in tokens, with parentheses only where an operator is looser
    than the rung it stands on. *)
Fixpoint show (level : nat) (e : Expr) : list Token :=
  match e with
  | Path name => [TPath name]
  | Str text => [TStr text]
  | Num n => [TNumber n]
  | Boolean b => [if b then TTrue else TFalse]
  | Nil => [TNull]
  | Not e => TNot :: show 0 e
  | Binary op l r =>
      let body := show (rung op) l ++ [TOp op] ++ show (rung op - 1) r in
      if (rung op <=? level)%nat then body else [TOpen] ++ body ++ [TClose]
  end.

(** What follows does not continue the expression at this rung. *)
Definition ends (level : nat) (rest : Cursor) : Prop :=
  match rest with (TOp op, _) :: _ => (level < rung op)%nat | _ => True end.

Definition eventually (P : nat -> Prop) : Prop := exists F, forall f, (F <= f)%nat -> P f.

Definition reads (e : Expr) (level : nat) : Prop := forall c rest,
  c.*1 = show level e -> ends level rest ->
  eventually (fun f => parse_rung s f level (c ++ rest) = Ok (e, rest)).

(** Reading [e] at a rung leaves that rung's chain to go on from [e]. *)
Definition leads (e : Expr) (level : nat) : Prop := forall c rest,
  c.*1 = show (S level) e -> ends level rest ->
  eventually (fun f => parse_rung s (S f) (S level) (c ++ rest) =
                       chain (S (length rest)) (S level) (parse_rung s f level) e rest).

Lemma ends_weaken level rest : ends (S level) rest -> ends level rest.
Proof. destruct rest as [|[[] ?] ?]; cbn; try done. lia. Qed.

Lemma climb e level : show (S level) e = show level e -> reads e level -> leads e level.
Proof.
  intros Hs Hr c rest Hc He. rewrite Hs in Hc. destruct (Hr c rest Hc He) as [F HF]. exists F. intros f Hf.
  change (parse_rung s (S f) (S level) (c ++ rest)) with
    (let? (first, r) := parse_rung s f level (c ++ rest) in chain (S (length r)) (S level) (parse_rung s f level) first r).
  by rewrite HF.
Qed.

Lemma settle e level : leads e level -> reads e (S level).
Proof.
  intros Hl c rest Hc He. destruct (Hl c rest Hc (ends_weaken _ _ He)) as [F HF]. exists (S F).
  intros [|f] Hf; [lia|]. rewrite HF by lia. destruct rest as [|[[] ?] ?]; try done.
  cbn [chain]. cbn in He. destruct (Nat.eqb_spec (rung op) (S level)); [lia|done].
Qed.

(** A binary expression at its own rung. *)
Lemma binary_leads op l r level :
  (level <= 3)%nat -> rung op = S level -> leads l level -> reads r level -> leads (Binary op l r) level.
Proof.
  intros Hlev Hop Hl Hr c rest Hc He. cbn [show] in Hc. rewrite Hop, Nat.leb_refl, Nat.sub_succ, Nat.sub_0_r in Hc.
  apply fmap_app_inv in Hc as (c1 & c' & H1 & Hc' & ->). symmetry in H1, Hc'.
  destruct c' as [|[t at_] c2]; [done|]. cbn in Hc'. injection Hc' as -> H2.
  destruct (Hl c1 ((TOp op, at_) :: c2 ++ rest) H1) as [F1 HF1]; [cbn; lia|].
  destruct (Hr c2 rest H2 He) as [F2 HF2]. exists (F1 + F2 + 5 * length rest + 5)%nat. intros f Hf.
  rewrite <- app_assoc. cbn [app]. rewrite HF1 by lia.
  change (chain (S (length ((TOp op, at_) :: c2 ++ rest))) (S level) (parse_rung s f level) l ((TOp op, at_) :: c2 ++ rest))
    with (if (rung op =? S level)%nat
          then let? (e, r) := parse_rung s f level (c2 ++ rest) in
               chain (S (length (c2 ++ rest))) (S level) (parse_rung s f level) (Binary op l e) r
          else Ok (l, (TOp op, at_) :: c2 ++ rest)).
  rewrite Hop, Nat.eqb_refl, HF2 by lia. apply chain_more; [apply parse_rung_consumes|done|rewrite length_app; lia|].
  apply chain_answers; [apply parse_rung_consumes|lia|]. intros c' Hc'. apply parse_rung_answers; lia.
Qed.

Lemma parens_read e : reads e 4 -> show 0 e = [TOpen] ++ show 4 e ++ [TClose] -> reads e 0.
Proof.
  intros H4 H0 c rest Hc _. rewrite H0 in Hc. destruct c as [|[t at_] c]; [done|]. cbn in Hc.
  injection Hc as -> Hc. apply fmap_app_inv in Hc as (c1 & c2 & H1 & H2 & ->). symmetry in H1, H2.
  destruct c2 as [|[t2 at2] [|? ?]]; try done. cbn in H2. injection H2 as ->.
  destruct (H4 c1 ((TClose, at2) :: rest) H1 I) as [F HF]. exists (S F). intros [|f] Hf; [lia|].
  cbn [app parse_rung]. rewrite <- app_assoc. cbn [app]. by rewrite HF by lia.
Qed.

(** From one rung up to another, where the expression is shown alike. *)
Lemma climb_to e k : reads e k -> forall n, (k <= n)%nat ->
  (forall m, (k <= m < n)%nat -> show (S m) e = show m e) ->
  reads e n /\ (forall m, (k <= m < n)%nat -> leads e m).
Proof.
  intros Hk. induction n as [|n IH]; intros Hn Hs.
  { replace k with 0%nat in Hk by lia. split; [done|lia]. }
  destruct (decide (k = S n)) as [->|]; [split; [done|lia]|].
  destruct IH as [Hr Hl]; [lia|intros m Hm; apply Hs; lia|].
  assert (leads e n) by (apply climb; [apply Hs; lia|done]). split; [by apply settle|].
  intros m Hm. destruct (decide (m = n)) as [->|]; [done|]. apply Hl. lia.
Qed.

Lemma all_rungs e : reads e 0 -> (forall m, show m e = show 0 e) ->
  forall n, (n <= 4)%nat -> reads e n /\ ((n < 4)%nat -> leads e n).
Proof.
  intros H0 Hs n Hn. destruct (climb_to e 0 H0 4 ltac:(lia)) as [_ Hl]; [intros m _; by rewrite !Hs|].
  destruct (climb_to e 0 H0 n ltac:(lia)) as [Hr _]; [intros m _; by rewrite !Hs|].
  split; [done|]. intros Hlt. apply Hl. lia.
Qed.

Lemma atom_reads e t : (forall n, show n e = [t]) ->
  (forall f at_ c, parse_rung s (S f) 0 ((t, at_) :: c) = Ok (e, c)) -> reads e 0.
Proof.
  intros Hs Hp c rest Hc _. rewrite Hs in Hc. destruct c as [|[t' at_] [|? ?]]; try done. cbn in Hc.
  injection Hc as ->. exists 1%nat. intros [|f] Hf; [lia|]. apply Hp.
Qed.

Lemma show_binary op l r level : show level (Binary op l r) =
  if (rung op <=? level)%nat then show 4 (Binary op l r) else [TOpen] ++ show 4 (Binary op l r) ++ [TClose].
Proof. cbn [show]. assert (Hr : (rung op <=? 4)%nat = true) by (by destruct op). by rewrite Hr. Qed.

Lemma binary_rungs op l r :
  (forall n, (n <= 4)%nat -> reads l n /\ ((n < 4)%nat -> leads l n)) ->
  (forall n, (n <= 4)%nat -> reads r n /\ ((n < 4)%nat -> leads r n)) ->
  forall n, (n <= 4)%nat -> reads (Binary op l r) n /\ ((n < 4)%nat -> leads (Binary op l r) n).
Proof.
  intros Hl Hr. assert (Hj : exists j, rung op = S j /\ (j <= 3)%nat) by (destruct op; eexists; split; try reflexivity; lia).
  destruct Hj as (j & Hj & Hj3). set (e := Binary op l r).
  assert (Hlead : leads e j) by (apply binary_leads; [done|done|apply Hl; lia|apply Hr; lia]).
  assert (Hup : forall n, (S j <= n <= 4)%nat -> reads e n /\ (forall m, (S j <= m < n)%nat -> leads e m)).
  { intros n Hn. apply (climb_to e (S j)); [by apply settle|lia|]. intros m Hm. unfold e.
    rewrite (show_binary op l r (S m)), (show_binary op l r m), Hj. by rewrite !(proj2 (Nat.leb_le _ _)) by lia. }
  assert (Hlow : forall m, (m <= j)%nat -> show m e = [TOpen] ++ show 4 e ++ [TClose]).
  { intros m Hm. unfold e. rewrite (show_binary op l r m), Hj. by rewrite (proj2 (Nat.leb_gt _ _)) by lia. }
  assert (H0 : reads e 0) by (apply parens_read; [apply Hup; lia|apply Hlow; lia]).
  assert (Hdown : forall n, (n <= j)%nat -> reads e n /\ (forall m, (0 <= m < n)%nat -> leads e m)).
  { intros n Hn. apply (climb_to e 0); [done|lia|]. intros m Hm. by rewrite (Hlow (S m)), (Hlow m) by lia. }
  intros n Hn. split; [destruct (decide (n <= j)%nat); [by apply Hdown|apply Hup; lia]|]. intros Hn4.
  destruct (decide (n = j)) as [->|]; [done|]. destruct (decide (n < j)%nat); [apply (Hdown j); lia|].
  apply (Hup 4%nat); lia.
Qed.

Lemma expressions_read e : forall n, (n <= 4)%nat -> reads e n /\ ((n < 4)%nat -> leads e n).
Proof.
  induction e as [name|text|n|b| |e IH|op l IHl r IHr]; [..|by apply binary_rungs].
  all: apply all_rungs; [|done].
  1-3, 5: by eapply atom_reads.
  - apply (atom_reads _ (if b then TTrue else TFalse)); [done|]. by destruct b.
  - intros c rest Hc He. destruct c as [|[t at_] c]; [done|]. cbn in Hc. injection Hc as -> Hc.
    destruct (IH 0%nat ltac:(lia)) as [H0 _]. destruct (H0 c rest Hc He) as [F HF]. exists (S F).
    intros [|f] Hf; [lia|]. cbn [app parse_rung]. by rewrite HF by lia.
Qed.

End rungs.

(** The precedence ladder reads back what it is given. An expression written in
    tokens with the fewest parentheses its operators need, loosest first [||],
    [&&], equality and comparison, left-associative, is parsed to itself and to
    nothing else, wherever its tokens stand in the source. *)
Theorem expression_roundtrip s e c :
  c.*1 = show 4 e -> expression s c = Ok (e, []).
Proof.
  intros Hc. destruct (expressions_read s e 4 ltac:(lia)) as [Hr _].
  destruct (Hr c [] Hc I) as [F HF]. rewrite app_nil_r in HF. unfold expression.
  pose proof (expression_answers s c) as Ha. unfold expression in Ha.
  rewrite <- (parse_rung_more s (5 * S (length c)) (F + 5 * S (length c)) 4 c ltac:(lia) Ha). apply HF. lia.
Qed.

Lemma expression_roundtrip_witness :
  let s := {| s_file := []; s_source := []; s_offset := 0; s_text := [] |} in
  let e := Binary And (Binary Or (Path (lit "a")) (Path (lit "b"))) (Not (Binary OpEq (Path (lit "c")) Nil)) in
  expression s [(TOpen, 0); (TPath (lit "a"), 1); (TOp Or, 3); (TPath (lit "b"), 6); (TClose, 7); (TOp And, 9);
                (TNot, 12); (TOpen, 13); (TPath (lit "c"), 14); (TOp OpEq, 16); (TNull, 19); (TClose, 23)]%nat
  = Ok (e, []).
Proof. intros s e. apply expression_roundtrip. reflexivity. Defined.

End ViewExprProofs.

Module ViewTemplateProofs.
Import ViewExpr ViewExprProofs ViewTemplate.

(** The step of a computation that answers, and what is known of its result. *)
Definition yields {A} (P : A -> Prop) (x : result Error A) : Prop :=
  match x with Ok a => P a | Err e => e <> Stuck end.

Lemma yields_answers {A} (P : A -> Prop) x : yields P x -> answers x.
Proof. destruct x; cbn; [done|]. intros H [= ->]. done. Qed.

Lemma answers_yields {A} (x : result Error A) : answers x -> yields (fun _ => True) x.
Proof. destruct x as [|e]; [done|]. intros H ->. by apply H. Qed.

Lemma yields_bind {A B} (P : A -> Prop) (Q : B -> Prop) (x : result Error A) (f : A -> result Error B) :
  yields P x -> (forall a, P a -> yields Q (f a)) -> yields Q (match x with Ok a => f a | Err e => Err e end).
Proof. destruct x; cbn; auto. Qed.

Lemma yields_weaken {A} (P Q : A -> Prop) x : yields P x -> (forall a, P a -> Q a) -> yields Q x.
Proof. destruct x; cbn; auto. Qed.

Lemma span_error_yields {A} (P : A -> Prop) s at_ m : yields P (span_error s at_ m).
Proof. unfold span_error, syntax_error. by destruct (line_column _ _). Qed.

Lemma lex_error_yields {A} (P : A -> Prop) file source offset m : yields P (lex_error file source offset m).
Proof. unfold lex_error, syntax_error. by destruct (line_column _ _). Qed.

Lemma run_of_pos p b l : p b = true -> (1 <= run_of p (b :: l))%nat.
Proof. intros H. cbn [run_of]. rewrite H. lia. Qed.

Lemma drop_byte text i b : byte text i = Some b -> drop i text = b :: drop (S i) text.
Proof. intros H. by apply drop_S. Qed.

Lemma byte_lt text i b : byte text i = Some b -> (i < length text)%nat.
Proof. apply lookup_lt_Some. Qed.

(** ** Expression tokens *)

Lemma run_of_le p l : (run_of p l <= length l)%nat.
Proof. induction l as [|b l IH]; cbn; [lia|]. destruct (p b); lia. Qed.

Lemma string_loop_yields s quote start fuel : forall i value,
  (length (s_text s) + 2 <= fuel + i)%nat -> (start < i <= length (s_text s) + 1)%nat ->
  yields (fun x => (start < x.2)%nat) (string_loop fuel s quote start i value).
Proof.
  induction fuel as [|fuel IH]; intros i value Hf Hi; [lia|]. cbn [string_loop].
  destruct (byte (s_text s) i) as [b|] eqn:E; [|apply span_error_yields]. pose proof (byte_lt _ _ _ E).
  destruct (b =? 92) eqn:E92.
  { destruct (byte (s_text s) (S i)) as [c|] eqn:Ec; [|apply span_error_yields]. apply byte_lt in Ec. apply IH; lia. }
  destruct (b =? quote) eqn:Eq; [cbn; lia|].
  destruct (is_char_boundary (s_text s) i); [|done]. set (p := fun b => negb (b =? quote) && negb (b =? 92)).
  pose proof (run_of_pos p b (drop (S i) (s_text s))) as Hr. unfold p at 1 in Hr. rewrite E92, Eq in Hr.
  specialize (Hr eq_refl). rewrite <- (drop_byte _ _ _ E) in Hr. pose proof (run_of_le p (drop i (s_text s))) as Hl.
  rewrite length_drop in Hl. apply IH; lia.
Qed.

Lemma number_literal_yields s i b :
  byte (s_text s) i = Some b -> is_digit b || (b =? 45) = true ->
  yields (fun x => (i < x.2)%nat) (number_literal s i).
Proof.
  intros E Hb. unfold number_literal. destruct (Decimal.parse_f64 _) as [x|]; [|apply span_error_yields]. cbn.
  case_bool_decide as H45; [lia|]. rewrite Nat.add_0_r, (drop_byte _ _ _ E).
  pose proof (run_of_pos number_byte b (drop (S i) (s_text s))) as Hr. unfold number_byte at 1 in Hr.
  assert (Hd : is_digit b = true). { destruct (is_digit b); [done|]. apply Z.eqb_eq in Hb. subst. by rewrite E in H45. }
  rewrite Hd in Hr. specialize (Hr eq_refl). lia.
Qed.

Lemma token_at_yields s i b : byte (s_text s) i = Some b -> yields (fun x => (i < x.2)%nat) (token_at s i b).
Proof.
  intros E. unfold token_at. destruct (_ || (b =? 13)); [cbn; lia|]. destruct ((b =? 34) || (b =? 39)).
  { apply byte_lt in E. eapply yields_bind; [apply string_loop_yields; lia|]. intros [v j] Hj. done. }
  destruct (is_digit b || _) eqn:Ed.
  { eapply yields_bind; [apply (number_literal_yields _ _ _ E)|intros [v j] Hj; done].
    destruct (is_digit b); [done|]. cbn in *. by destruct (b =? 45). }
  destruct (is_letter b || (b =? 95)) eqn:El.
  { destruct (_ || double_dot _); [apply span_error_yields|]. cbn. rewrite (drop_byte _ _ _ E).
    pose proof (run_of_pos word_byte b (drop (S i) (s_text s))) as Hr. unfold word_byte at 1 in Hr.
    destruct (is_letter b); [specialize (Hr eq_refl); lia|]. cbn in El. rewrite El in Hr.
    destruct (is_digit b); specialize (Hr eq_refl); lia. }
  repeat (case_match; try apply span_error_yields; try (cbn; lia)).
Qed.

Lemma tokenize_loop_answers s fuel : forall i tokens,
  (length (s_text s) <= fuel + i)%nat -> answers (tokenize_loop fuel s i tokens).
Proof.
  induction fuel as [|fuel IH]; intros i tokens Hf; cbn [tokenize_loop];
    (destruct (byte (s_text s) i) as [b|] eqn:E; [|done]).
  { apply byte_lt in E. lia. }
  pose proof (token_at_yields s i b E) as Ht. destruct (token_at s i b) as [[t j]|e]; [|by intros [= ->]].
  cbn in Ht. apply IH. lia.
Qed.

Lemma tokenize_answers s : yields (fun _ => True) (ViewExpr.tokenize s).
Proof. apply answers_yields, tokenize_loop_answers. lia. Qed.

Lemma expect_end_yields s c : yields (fun _ => True) (expect_end s c).
Proof. destruct c as [|[t at_] c]; [done|]. apply span_error_yields. Qed.

Lemma parse_yields s : yields (fun _ => True) (parse s).
Proof.
  unfold parse. eapply yields_bind; [apply tokenize_answers|]. intros c _.
  eapply yields_bind; [apply answers_yields, expression_answers|]. intros [e r] _.
  eapply yields_bind; [apply expect_end_yields|done].
Qed.

Lemma parse_arguments_yields s : yields (fun _ => True) (parse_arguments s).
Proof.
  unfold parse_arguments. eapply yields_bind; [apply tokenize_answers|]. intros c _.
  apply (yields_bind (fun _ => True)).
  - destruct c as [|t c]; [done|]. apply answers_yields, arguments_answer; cbn; lia.
  - intros [es r] _. eapply yields_bind; [apply expect_end_yields|done].
Qed.

Lemma parse_foreach_yields s : yields (fun _ => True) (parse_foreach s).
Proof.
  unfold parse_foreach. eapply yields_bind; [apply tokenize_answers|]. intros c _.
  eapply yields_bind; [apply answers_yields, expression_answers|]. intros [e r] _.
  apply (yields_bind (fun _ => True)); [repeat case_match; first [done|apply span_error_yields]|]. intros r' _.
  apply (yields_bind (fun _ => True)); [repeat case_match; first [done|apply span_error_yields]|]. intros [b r''] _.
  eapply yields_bind; [apply expect_end_yields|done].
Qed.

(** ** Template tokens *)

Section lexer.
Context (file source : list Z).

Lemma skip_loop_ge fuel quote : forall i, (i <= skip_loop source fuel quote i)%nat.
Proof.
  induction fuel as [|fuel IH]; intros i; cbn [skip_loop]; [lia|]. destruct (byte source i) as [b|]; [|lia].
  destruct (b =? 92); [pose proof (IH (i + 2)%nat); lia|]. destruct (b =? quote); [lia|].
  pose proof (IH (S i)). lia.
Qed.

Lemma skip_string_gt i : (i < skip_string source i)%nat.
Proof. unfold skip_string. pose proof (skip_loop_ge (length source) (default 0 (byte source i)) (S i)). lia. Qed.

Lemma find_loop_ge close quoted fuel : forall i j, find_loop source fuel close i quoted = Some j -> (i <= j)%nat.
Proof.
  induction fuel as [|fuel IH]; intros i j; cbn [find_loop]; [done|]. destruct (byte source i) as [b|]; [|done].
  destruct (quoted && is_quote b); [intros H; apply IH in H; pose proof (skip_string_gt i); lia|].
  destruct (starts_with _ _); [intros [= ->]; lia|]. intros H. apply IH in H. lia.
Qed.

Lemma find_close_yields close from quoted opener :
  yields (fun i => (from <= i)%nat) (find_close file source close from quoted opener).
Proof.
  unfold find_close. destruct (find_loop _ _ _ _ _) eqn:E; [by apply find_loop_ge in E|apply lex_error_yields].
Qed.

Lemma paren_loop_ge fuel : forall depth i j, paren_loop source fuel depth i = Some j -> (i <= j)%nat.
Proof.
  induction fuel as [|fuel IH]; intros depth i j; cbn [paren_loop]; [done|]. destruct (byte source i) as [b|]; [|done].
  destruct (is_quote b); [intros H; apply IH in H; pose proof (skip_string_gt i); lia|].
  destruct (b =? 40); [intros H; apply IH in H; lia|]. destruct (b =? 41); [|intros H; apply IH in H; lia].
  destruct (depth - 1 =? 0)%nat; [intros [= ->]; lia|]. intros H. apply IH in H. lia.
Qed.

Lemma matching_paren_yields open : yields (fun i => (open <= i)%nat) (matching_paren file source open).
Proof.
  unfold matching_paren. destruct (paren_loop _ _ _ _) eqn:E; [by apply paren_loop_ge in E|apply lex_error_yields].
Qed.

Lemma line_end_ge offset i : line_end source offset = Some i -> (offset <= i)%nat.
Proof. unfold line_end. repeat case_match; intros [= <-]; lia. Qed.

Lemma echo_yields st open close escaped :
  (0 < open)%nat -> yields (fun st' => (pos st < pos st')%nat) (echo file source st open close escaped).
Proof.
  intros Ho. unfold echo. eapply yields_bind; [apply find_close_yields|]. intros i Hi. cbn in *. lia.
Qed.

Lemma directive_yields st :
  yields (fun d => match d with Some st' => (pos st < pos st')%nat | None => True end) (directive file source st).
Proof.
  unfold directive. destruct (_ || _); [apply lex_error_yields|]. destruct (negb _ && negb _); [done|].
  set (end_ := (S (pos st) + _)%nat).
  apply (yields_bind (fun x => (end_ <= x.2)%nat)).
  - destruct (bool_decide _); [|cbn; lia]. destruct (negb _); [apply lex_error_yields|].
    eapply yields_bind; [apply matching_paren_yields|]. intros c Hc. cbn in *. lia.
  - intros [[args aoff] after] Ha. cbn in Ha.
    assert (Hend : (pos st < end_)%nat) by (unfold end_; lia).
    destruct (if _ && _ then line_end source after else None) as [next|] eqn:E.
    + assert (after <= next)%nat by (destruct (_ && _); [by apply line_end_ge|done]). cbn. lia.
    + cbn. lia.
Qed.

Lemma lex_step_yields st :
  (pos st < length source)%nat -> yields (fun st' => (pos st < pos st')%nat) (lex_step file source st).
Proof.
  intros Hp. unfold lex_step. destruct (negb (_ =? 0)%nat) eqn:En.
  { cbn. apply negb_true_iff, Nat.eqb_neq in En. lia. }
  destruct (starts_with _ (lit "{{--")).
  { eapply yields_bind; [apply find_close_yields|]. intros i Hi. cbn in *. lia. }
  destruct (starts_with _ (lit "{!!")); [apply echo_yields; lia|].
  destruct (starts_with _ (lit "{{")); [apply echo_yields; lia|].
  destruct (starts_with _ (lit "@@")); [cbn; lia|]. destruct (starts_with _ (lit "@{{")); [cbn; lia|].
  apply (yields_bind (fun d => match d with Some st' => (pos st < pos st')%nat | None => True end)).
  - destruct (starts_with _ (lit "@")); [apply directive_yields|done].
  - intros [st'|] Hd; cbn; lia.
Qed.

Lemma lex_loop_yields fuel : forall st,
  (length source <= fuel + pos st)%nat -> yields (fun _ => True) (lex_loop file source fuel st).
Proof.
  induction fuel as [|fuel IH]; intros st Hf; cbn [lex_loop].
  { destruct (Nat.ltb_spec (pos st) (length source)); [lia|done]. }
  destruct (Nat.ltb_spec (pos st) (length source)); [|done].
  eapply yields_bind; [by apply lex_step_yields|]. intros st' Hs. cbn in Hs. apply IH. lia.
Qed.

(** ** Blocks *)

(** A parser of blocks that answers on short inputs and takes no tokens back. *)
Definition shrinks {A} (st : State) : (A * State) -> Prop := fun x => (length (tokens x.2) <= length (tokens st))%nat.

Definition total_below (n : nat) (blk : State -> result Error (list Node * State)) : Prop :=
  forall st, (length (tokens st) < n)%nat -> yields (shrinks st) (blk st).

Lemma literal_yields e s name : yields (fun _ => True) (literal e s name).
Proof. unfold literal. repeat case_match; first [done|apply span_error_yields]. Qed.

Lemma template_name_yields s name : yields (fun _ => True) (template_name s name).
Proof.
  unfold template_name. eapply yields_bind; [apply parse_arguments_yields|]. intros args _.
  case_match; [apply span_error_yields|apply literal_yields].
Qed.

Lemma close_yields opener closer offset st :
  yields (fun st' => (length (tokens st') <= length (tokens st))%nat) (close file source opener closer offset st).
Proof.
  unfold close. destruct (tokens st) as [|[]] eqn:E; try apply lex_error_yields.
  case_bool_decide; [cbn; lia|apply lex_error_yields].
Qed.

Lemma name_value_pairs_yields s m l : yields (fun _ => True) (name_value_pairs s m l).
Proof.
  induction l as [l IH] using list_length_ind. destruct l as [|e1 [|e2 l]]; [done|by destruct e1|].
  destruct e1; cbn [name_value_pairs]; try apply span_error_yields.
  eapply yields_bind; [apply IH; cbn; lia|done].
Qed.

Lemma lang_yields s : yields (fun _ => True) (lang s).
Proof.
  unfold lang. eapply yields_bind; [apply parse_arguments_yields|]. intros args _.
  eapply yields_bind; [apply literal_yields|]. intros key _. case_match; [apply span_error_yields|].
  eapply yields_bind; [apply name_value_pairs_yields|done].
Qed.

Lemma route_yields s : yields (fun _ => True) (route s).
Proof.
  unfold route. eapply yields_bind; [apply parse_arguments_yields|]. intros args _.
  eapply yields_bind; [apply literal_yields|]. intros key _. case_match; [apply span_error_yields|].
  eapply yields_bind; [apply name_value_pairs_yields|done].
Qed.

Lemma yield_section_yields s : yields (fun _ => True) (yield_section s).
Proof.
  unfold yield_section. eapply yields_bind; [apply parse_arguments_yields|]. intros args _.
  case_match; [apply span_error_yields|]. eapply yields_bind; [apply literal_yields|done].
Qed.

Lemma branches_loop_yields blk n fuel : forall branches otherwise st,
  total_below n blk -> (length (tokens st) <= n)%nat -> (length (tokens st) < fuel)%nat ->
  yields (shrinks st) (branches_loop file source fuel blk branches otherwise st).
Proof.
  induction fuel as [|fuel IH]; intros branches otherwise st Hb Hn Hf; [lia|]. cbn [branches_loop].
  destruct (tokens st) as [|[|  |name args aoff off] r] eqn:E; try (unfold shrinks; cbn; lia).
  cbn [length] in *. assert (Hst : length (tokens (skip st r)) = length r) by done.
  assert (Hk : forall (b : list (Expr * list Node)) o x, shrinks (skip st r) x ->
    yields (shrinks st) (branches_loop file source fuel blk b o (snd (x : list Node * State)))).
  { intros b o [body st'] Hx. unfold shrinks in Hx. cbn in Hx. eapply yields_weaken; [apply IH; [done|cbn; lia|cbn; lia]|].
    intros [[? ?] st''] Hy. unfold shrinks in *. cbn in *. rewrite E. cbn. lia. }
  assert (Hblk : yields (shrinks (skip st r)) (blk (skip st r))) by (apply Hb; lia).
  case_bool_decide.
  { destruct otherwise; [apply lex_error_yields|]. eapply yields_bind; [apply parse_yields|]. intros cond _.
    eapply yields_bind; [exact Hblk|]. intros [body st'] Hx. apply (Hk _ _ _ Hx). }
  case_bool_decide; [|unfold shrinks; cbn; lia]. destruct otherwise; [apply lex_error_yields|].
  eapply yields_bind; [exact Hblk|]. intros [body st'] Hx. apply (Hk _ _ _ Hx).
Qed.

Lemma conditional_yields blk n s offset st :
  total_below n blk -> (length (tokens st) < n)%nat -> yields (shrinks st) (conditional file source blk s offset st).
Proof.
  intros Hb Hn. unfold conditional. eapply yields_bind; [apply parse_yields|]. intros cond _.
  eapply yields_bind; [by apply Hb|]. intros [body st1] H1. unfold shrinks in H1. cbn in H1.
  eapply yields_bind; [apply (branches_loop_yields blk n); [done|lia|lia]|]. intros [[bs o] st2] H2.
  unfold shrinks in H2. cbn in H2. eapply yields_bind; [apply close_yields|]. intros st3 H3. unfold shrinks. cbn in *. lia.
Qed.

Lemma loop_over_yields blk n s offset st :
  total_below n blk -> (length (tokens st) < n)%nat -> yields (shrinks st) (loop_over file source blk s offset st).
Proof.
  intros Hb Hn. unfold loop_over. eapply yields_bind; [apply parse_foreach_yields|]. intros [subject binding] _.
  eapply yields_bind; [by apply Hb|]. intros [body st1] H1. unfold shrinks in H1. cbn in H1.
  eapply yields_bind; [apply close_yields|]. intros st2 H2. unfold shrinks. cbn in *. lia.
Qed.

Lemma section_yields blk n s offset st :
  total_below n blk -> (length (tokens st) < n)%nat ->
  yields (fun st' => (length (tokens st') <= length (tokens st))%nat) (section file source blk s offset st).
Proof.
  intros Hb Hn. unfold section. eapply yields_bind; [apply parse_arguments_yields|]. intros args _.
  eapply yields_bind; [apply literal_yields|]. intros name _. apply (yields_bind (shrinks st)).
  - destruct args as [|e [|e' [|? ?]]]; try apply span_error_yields; [|unfold shrinks; cbn; lia].
    eapply yields_bind; [by apply Hb|]. intros [body st1] H1. unfold shrinks in H1. cbn in H1.
    eapply yields_bind; [apply close_yields|]. intros st2 H2. unfold shrinks. cbn in *. lia.
  - intros [body st1] H1. unfold add_section, shrinks in *. case_match; [apply lex_error_yields|]. cbn in *. lia.
Qed.

Lemma on_directive_yields blk n name s offset st :
  (forall stop, total_below n (blk stop)) -> (length (tokens st) < n)%nat ->
  yields (shrinks st) (on_directive file source blk name s offset st).
Proof.
  intros Hb Hn. unfold on_directive, shrinks.
  case_bool_decide; [eapply yields_bind; [by apply (conditional_yields _ n)|by intros [? ?]]|].
  case_bool_decide; [eapply yields_bind; [by apply (loop_over_yields _ n)|by intros [? ?]]|].
  case_bool_decide; [eapply yields_bind; [by apply (section_yields _ n)|done]|].
  case_bool_decide.
  { unfold extends. apply (yields_bind (fun st' => (length (tokens st') <= length (tokens st))%nat)); [|done].
    eapply yields_bind; [apply template_name_yields|]. intros v _. case_match; [apply span_error_yields|cbn; lia]. }
  case_bool_decide; [eapply yields_bind; [apply yield_section_yields|cbn; lia]|].
  case_bool_decide; [eapply yields_bind; [apply lang_yields|cbn; lia]|].
  case_bool_decide; [eapply yields_bind; [apply route_yields|cbn; lia]|].
  case_bool_decide; [eapply yields_bind; [apply template_name_yields|cbn; lia]|]. apply lex_error_yields.
Qed.

Lemma block_total fuel : forall stop, total_below fuel (block file source fuel stop).
Proof.
  induction fuel as [|fuel IH]; intros stop st Hst; [lia|]. cbn [block].
  assert (Hk : forall st1 first, (length (tokens st1) < length (tokens st))%nat ->
    yields (shrinks st) (let? (nodes, st2) := block file source fuel stop st1 in Ok ((first : list Node) ++ nodes, st2))).
  { intros st1 first H1. eapply yields_bind; [apply IH; lia|]. intros [nodes st2] H2. unfold shrinks in *. cbn in *. lia. }
  destruct (tokens st) as [|[text|src offset escaped|name args aoff offset] r] eqn:E; [unfold shrinks; cbn; lia|..].
  - apply (Hk (skip st r) [Text text]). cbn. lia.
  - eapply yields_bind; [apply parse_yields|]. intros e _. apply (Hk (skip st r) [Echo e escaped]). cbn. lia.
  - case_bool_decide; [unfold shrinks; cbn; lia|]. cbn [length] in *.
    eapply yields_bind; [apply (on_directive_yields _ fuel); [apply IH|cbn; lia]|]. intros [first st1] H1.
    unfold shrinks in H1. cbn in H1. apply Hk. lia.
Qed.
End lexer.

(** Parsing a template always ends. Whatever bytes a view file holds, the
    lexer, the expression parser and the block parser come back with a template
    or with an error: no nesting, no unclosed string or brace and no malformed
    directive keeps them from answering. *)
Theorem parse_view_total file source :
  match parse_view file source with Ok v => v_name v = file | Err e => e <> Stuck end.
Proof.
  change (yields (fun v => v_name v = file) (parse_view file source)). unfold parse_view.
  eapply yields_bind; [apply lex_loop_yields; cbn; lia|]. intros ts _.
  eapply yields_bind; [apply block_total; cbn; lia|]. intros [nodes st] _. done.
Qed.

End ViewTemplateProofs.
