(* ===== verification/ViewRender.v ===== *)
(** * Rendering templates ([rustlavel-view/src/render.rs], [engine.rs], [translate.rs],
      [routes.rs])

    The renderer walks a tree with a scope, filling [@yield] from the sections of
    the whole [@extends] chain; the engine finds, parses and caches the views.
    The translator and the route table are whatever the application supplies. *)

From Stdlib Require Import SpecFloat.
From S2P Require Import Prelude Text F64 Decimal Json JsonText Jobs ViewExpr ViewTemplate.

Module ViewRender.
Import ViewExpr ViewTemplate.

Definition MAX_INCLUDE_DEPTH : nat := 64.
Definition MAX_LAYOUT_DEPTH : nat := 16.

(** [Translate::line] and [Routes::url]. *)
Definition Translator := list Z -> list Z -> list (list Z * list Z) -> list Z.
Definition RouteTable := list Z -> list (list Z * list Z) -> option (list Z).

(** ** The renderer *)

Definition loop_variable (index count : nat) : Json.Json :=
  Jobs.object [(lit "index", Json.from_int (Z.of_nat index)); (lit "iteration", Json.from_int (Z.of_nat index + 1));
               (lit "first", Json.Bool (index =? 0)%nat); (lit "last", Json.Bool (S index =? count)%nat);
               (lit "count", Json.from_int (Z.of_nat count))].

(** An error of another view keeps its own place; any other is put down to the
    reference. *)
Definition blame (r : TemplateRef) (e : Error) : Error :=
  match e with Message m => ref_error r m | e => e end.

Definition fill (pairs : list (list Z * Expr)) (scope : Scope) : list (list Z * list Z) :=
  map (fun p => (p.1, to_text (eval p.2 scope))) pairs.

Section Renderer.
Context (load : list Z -> result Error View) (translator : option Translator) (routes : option RouteTable)
        (filled : gmap (list Z) (list Node)).

Abbreviation Renders := (list Node -> Scope -> list Z -> nat -> result Error (list Z)).

Fixpoint foreach_loop (rec : Renders) (binding : list Z) (body : list Node) (count index : nat)
    (items : list Json.Json) (scope : Scope) (out : list Z) (depth : nat) : result Error (list Z) :=
  match items with
  | [] => Ok out
  | item :: items =>
      let inner := push (lit "loop") (loop_variable index count) (push binding item scope) in
      let? out := rec body inner out depth in
      foreach_loop rec binding body count (S index) items scope out depth
  end.

Definition foreach (rec : Renders) (subject : Json.Json) (binding : list Z) (body : list Node) (scope : Scope)
    (out : list Z) (depth : nat) : result Error (list Z) :=
  match Json.as_array subject with
  | None => Ok out
  | Some items => foreach_loop rec binding body (length items) 0 items scope out depth
  end.

Fixpoint if_loop (rec : Renders) (branches : list (Expr * list Node)) (otherwise : option (list Node)) (scope : Scope)
    (out : list Z) (depth : nat) : result Error (list Z) :=
  match branches with
  | [] => match otherwise with Some body => rec body scope out depth | None => Ok out end
  | (condition, body) :: branches =>
      if truthy (eval condition scope) then rec body scope out depth
      else if_loop rec branches otherwise scope out depth
  end.

Definition node (rec : Renders) (n : Node) (scope : Scope) (out : list Z) (depth : nat) : result Error (list Z) :=
  match n with
  | Text text => Ok (out ++ text)
  | Echo e escaped =>
      let text := to_text (eval e scope) in Ok (out ++ if escaped then escape text else text)
  | If branches otherwise => if_loop rec branches otherwise scope out depth
  | Foreach subject binding body => foreach rec (eval subject scope) binding body scope out depth
  | Yield section fallback =>
      match filled !! section with
      | Some nodes => rec nodes scope out depth
      | None => match fallback with
                | Some e => Ok (out ++ escape (to_text (eval e scope)))
                | None => Ok out
                end
      end
  | Include r =>
      if (MAX_INCLUDE_DEPTH <=? depth)%nat then
        Err (ref_error r (lit "`@include` is nested too deeply " ++ [226; 128; 148] ++ lit " does a partial include itself?"))
      else
        match load (ref_name r) with
        | Err e => Err (blame r e)
        | Ok v =>
            match v_extends v with
            | Some _ => Err (ref_error r (lit "`" ++ ref_name r ++ lit "` uses `@extends`; an included partial is rendered in place and cannot extend a layout"))
            | None => rec (v_nodes v) scope out (S depth)
            end
        end
  | Route name params =>
      match routes with
      | Some table =>
          match table name (fill params scope) with
          | Some path => Ok (out ++ escape path)
          | None => Err (Message (lit "`@route(" ++ [34] ++ name ++ [34] ++ lit ")` names no route this application registered, or was not given every parameter the route's path needs. `rustlavel route:list` shows the names."))
          end
      | None => Err (Message (lit "`@route(" ++ [34] ++ name ++ [34] ++ lit ")` was rendered by an engine with no route table. `App` fills it in when it finishes the router; an engine built by hand and used outside one has to be given it."))
      end
  | Lang key replacements =>
      let locale := to_text (default Json.Null (lookup_path (lit "app_locale") scope)) in
      let text := match translator with Some line => line locale key (fill replacements scope) | None => key end in
      Ok (out ++ escape text)
  end.

(** The fuel is the depth of the calls in progress, the stack the program uses. *)
Fixpoint nodes (fuel : nat) (ns : list Node) (scope : Scope) (out : list Z) (depth : nat) : result Error (list Z) :=
  match fuel with
  | O => Err Stuck
  | S fuel =>
      (fix go (ns : list Node) (out : list Z) :=
         match ns with
         | [] => Ok out
         | n :: ns => let? out := node (nodes fuel) n scope out depth in go ns out
         end) ns out
  end.
End Renderer.

(** ** The engine *)

Definition EXTENSION : list Z := lit "rl.html".

Definition slashed (name : list Z) : list Z := map (fun b => if b =? 46 then 47 else b) name.

Definition path_of (root name : list Z) : result Error (list Z) :=
  let looks_wrong := bool_decide (name = []) || bool_decide (92 ∈ name) ||
    existsb (fun segment => bool_decide (segment = []) || bool_decide (segment = lit "..")) (split_on 47 (slashed name)) in
  if looks_wrong then
    Err (Message (lit "`" ++ name ++ lit "` is not a valid view name " ++ [226; 128; 148] ++
                  lit " use dots or slashes, like `pages.home`"))
  else Ok (root ++ lit "/" ++ slashed name ++ lit "." ++ EXTENSION).

Record Engine := { root : list Z; reload : bool; cache : gmap (list Z) View }.

(** What a read of a file gives: its text, that it is not there, or another
    failure. *)
Inductive FileRead := Found (source : list Z) | NotFound | ReadFailed (message : list Z).

Definition fresh (root name : list Z) (disk : list Z -> FileRead) : result Error View :=
  let? path := path_of root name in
  match disk path with
  | Found source => parse_view name source
  | NotFound => Err (Message (lit "view `" ++ name ++ lit "` not found " ++ [226; 128; 148] ++ lit " expected `" ++ path ++ lit "`"))
  | ReadFailed m => Err (Message m)
  end.

Definition load (disk : list Z -> FileRead) (e : Engine) (name : list Z) : result Error View * Engine :=
  match (if reload e then None else cache e !! name) with
  | Some v => (Ok v, e)
  | None =>
      let r := fresh (root e) name disk in
      (r, match r with
          | Ok v => if reload e then e
                    else {| root := root e; reload := reload e; cache := <[name := v]> (cache e) |}
          | Err _ => e
          end)
  end.

Definition clear_cache (e : Engine) : Engine := {| root := root e; reload := reload e; cache := ∅ |}.

(** [layout_chain]: at most [MAX_LAYOUT_DEPTH] views, so as many turns. *)
Fixpoint layout_loop (fuel : nat) (load : list Z -> result Error View) (chain : list View) (last : View)
    : result Error (list View) :=
  match fuel with
  | O => Err Stuck
  | S fuel =>
      match v_extends last with
      | None => Ok (chain ++ [last])
      | Some parent =>
          let chain := chain ++ [last] in
          if existsb (fun v => bool_decide (v_name v = ref_name parent)) chain then
            Err (ref_error parent (lit "`" ++ ref_name parent ++ lit "` is already in this `@extends` chain " ++
                                   [226; 128; 148] ++ lit " layouts cannot loop"))
          else if (MAX_LAYOUT_DEPTH <=? length chain)%nat then
            Err (ref_error parent (lit "layouts are stacked more than " ++ dec (Z.of_nat MAX_LAYOUT_DEPTH) ++
                                   lit " deep " ++ [226; 128; 148] ++ lit " flatten them"))
          else
            match load (ref_name parent) with
            | Err e => Err (blame parent e)
            | Ok layout => layout_loop fuel load chain layout
            end
      end
  end.
Definition layout_chain (load : list Z -> result Error View) (v : View) : result Error (list View) :=
  layout_loop (S MAX_LAYOUT_DEPTH) load [] v.

(** The sections of the chain, the child's before its layouts'. *)
Definition merged_sections (chain : list View) : gmap (list Z) (list Node) :=
  fold_left (fun acc v => acc ∪ v_sections v) chain ∅.

Definition render_template (load : list Z -> result Error View) (translator : option Translator)
    (routes : option RouteTable) (fuel : nat) (v : View) (context : Context) : result Error (list Z) :=
  let? chain := layout_chain load v in
  match list.last chain with
  | Some layout =>
      nodes load translator routes (merged_sections chain) fuel (v_nodes layout) {| context := context; locals := [] |} [] 0
  | None => Err Panicked
  end.

Definition render_source (load : list Z -> result Error View) (translator : option Translator)
    (routes : option RouteTable) (fuel : nat) (name source : list Z) (context : Context) : result Error (list Z) :=
  let? v := parse_view name source in render_template load translator routes fuel v context.

Definition render (load : list Z -> result Error View) (translator : option Translator)
    (routes : option RouteTable) (fuel : nat) (name : list Z) (context : Context) : result Error (list Z) :=
  let? v := load name in render_template load translator routes fuel v context.

Example page_renders :
  let load name := if bool_decide (name = lit "layout")
    then parse_view name (lit "<h1>@yield('title')</h1>@yield('body', 'none')") else Err (Message (lit "missing")) in
  let page := lit "@extends('layout')@section('title', t)@section('body')@foreach(xs as x){{ loop.iteration }}:{{ x }} @endforeach@endsection" in
  let xs := Json.Array [Json.String (lit "<b>"); Json.Bool true] in
  render_source load None None 10 (lit "p") page (with_ (lit "xs") xs (with_ (lit "t") (Json.String (lit "A&B")) ∅)) =
    Ok (lit "<h1>A&amp;B</h1>1:&lt;b&gt; 2:true ").
Proof. vm_compute. reflexivity. Qed.

End ViewRender.
