(* ===== verification/ViewRenderProofs.v ===== *)
(** * What rendering guarantees ([rustlavel-view/src/render.rs], [engine.rs])

    Where the bytes of a page come from, when rendering ends and when it cannot,
    and that the cache of parsed views changes no answer. *)

From Stdlib Require Import SpecFloat.
From S2P Require Import Prelude Text F64 Decimal Json JsonText ViewExpr ViewTemplateProofs ViewTemplate ViewRender.

Module ViewRenderProofs.
Import ViewExpr ViewExprProofs ViewTemplate ViewTemplateProofs ViewRender.

(** Induction through the lists of nodes inside a node. *)
Lemma Node_nested_ind (P : Node -> Prop) :
  (forall t, P (Text t)) -> (forall e b, P (Echo e b)) ->
  (forall bs o, Forall (fun b => Forall P b.2) bs -> (forall body, o = Some body -> Forall P body) -> P (If bs o)) ->
  (forall s b body, Forall P body -> P (Foreach s b body)) ->
  (forall s f, P (Yield s f)) -> (forall r, P (Include r)) -> (forall k r, P (Lang k r)) -> (forall n p, P (Route n p)) ->
  forall n, P n.
Proof.
  intros H1 H2 H3 H4 H5 H6 H7 H8. fix IH 1.
  intros [t|e b|bs o|s b body|s f|r|k r|n p]; [apply H1|apply H2| | |apply H5|apply H6|apply H7|apply H8].
  - apply H3.
    + induction bs as [|[c body] bs IHbs]; constructor; [|exact IHbs].
      cbn. induction body as [|n body IHb]; constructor; [apply IH|exact IHb].
    + intros body Ho. destruct o as [body'|]; [|done]. injection Ho as <-.
      induction body' as [|n body' IHb]; constructor; [apply IH|exact IHb].
  - apply H4. induction body as [|n body IHb]; constructor; [apply IH|exact IHb].
Qed.

(** ** Where a page comes from *)

(** A template whose literal text satisfies [P] and that echoes nothing raw. *)
Inductive trusted (P : list Z -> Prop) : Node -> Prop :=
  | trusted_text t : P t -> trusted P (Text t)
  | trusted_echo e : trusted P (Echo e true)
  | trusted_if bs o : Forall (fun b => Forall (trusted P) b.2) bs ->
      (forall body, o = Some body -> Forall (trusted P) body) -> trusted P (If bs o)
  | trusted_foreach s b body : Forall (trusted P) body -> trusted P (Foreach s b body)
  | trusted_yield s f : trusted P (Yield s f)
  | trusted_include r : trusted P (Include r)
  | trusted_lang k r : trusted P (Lang k r)
  | trusted_route n p : trusted P (Route n p).

(** A piece of a page: markup of a template, or a value escaped. *)
Inductive Seg := Markup (t : list Z) | Data (t : list Z).
Definition seg_text (s : Seg) : list Z := match s with Markup t => t | Data t => escape t end.
Definition seg_ok (P : list Z -> Prop) (s : Seg) : Prop := match s with Markup t => P t | Data _ => True end.

(** [x] extends [out] by pieces. *)
Definition extends_by (P : list Z -> Prop) (out : list Z) (x : result Error (list Z)) : Prop :=
  match x with
  | Ok out' => exists segs, out' = out ++ concat (map seg_text segs) /\ Forall (seg_ok P) segs
  | Err _ => True
  end.

Section provenance.
Context (load : list Z -> result Error View) (translator : option Translator) (routes : option RouteTable)
        (filled : gmap (list Z) (list Node)) (P : list Z -> Prop).
Context (Hload : forall name v, load name = Ok v -> Forall (trusted P) (v_nodes v))
        (Hfilled : map_Forall (fun _ ns => Forall (trusted P) ns) filled).

Lemma extends_refl out : extends_by P out (Ok out).
Proof. exists []. by rewrite app_nil_r. Qed.

Lemma extends_one out s : seg_ok P s -> extends_by P out (Ok (out ++ seg_text s)).
Proof. intros Hs. exists [s]. cbn. rewrite app_nil_r. split; [done|by apply Forall_cons_2; [|apply Forall_nil_2]]. Qed.

Lemma extends_bind out x f :
  extends_by P out x -> (forall out', extends_by P out' (f out')) ->
  extends_by P out (match x with Ok out' => f out' | Err e => Err e end).
Proof.
  destruct x as [out1|]; [|done]. intros (s1 & -> & H1) Hf. specialize (Hf (out ++ concat (map seg_text s1))).
  destruct (f _) as [out2|]; [|done]. destruct Hf as (s2 & -> & H2). exists (s1 ++ s2).
  rewrite map_app, concat_app, app_assoc. split; [done|by apply Forall_app].
Qed.

Definition sound (rec : list Node -> Scope -> list Z -> nat -> result Error (list Z)) : Prop :=
  forall ns scope out depth, Forall (trusted P) ns -> extends_by P out (rec ns scope out depth).

Lemma foreach_sound rec binding body count : sound rec -> Forall (trusted P) body ->
  forall items index scope out depth,
  extends_by P out (foreach_loop rec binding body count index items scope out depth).
Proof.
  intros Hr Hb. induction items as [|item items IH]; intros index scope out depth; cbn [foreach_loop].
  { apply extends_refl. }
  apply extends_bind; [by apply Hr|]. intros out'. apply IH.
Qed.

Lemma if_sound rec o scope out depth : sound rec -> (forall body, o = Some body -> Forall (trusted P) body) ->
  forall bs, Forall (fun b => Forall (trusted P) b.2) bs -> extends_by P out (if_loop rec bs o scope out depth).
Proof.
  intros Hr Ho bs. induction 1 as [|[c body] bs Hb _ IH]; cbn [if_loop].
  - destruct o as [body|]; [by apply Hr, Ho|apply extends_refl].
  - destruct (truthy _); [by apply Hr|done].
Qed.

Lemma node_sound rec n scope out depth :
  sound rec -> trusted P n -> extends_by P out (node load translator routes filled rec n scope out depth).
Proof.
  intros Hr [t Ht|e|bs o Hbs Ho|s b body Hb|s f|r|k rs|name ps]; cbn [node].
  - by apply (extends_one out (Markup t)).
  - by apply (extends_one out (Data _)).
  - by apply if_sound.
  - unfold foreach. destruct (Json.as_array _); [by apply foreach_sound|apply extends_refl].
  - destruct (filled !! s) as [ns|] eqn:E; [apply Hr; by apply (Hfilled s)|].
    destruct f; [by apply (extends_one out (Data _))|apply extends_refl].
  - destruct (_ <=? depth)%nat; [done|]. destruct (load (ref_name r)) as [v|] eqn:E; [|done].
    destruct (v_extends v); [done|]. apply Hr. by apply (Hload (ref_name r)).
  - by apply (extends_one out (Data _)).
  - destruct routes as [table|]; [|done]. destruct (table name _); [by apply (extends_one out (Data _))|done].
Qed.

Lemma nodes_sound fuel : sound (nodes load translator routes filled fuel).
Proof.
  induction fuel as [|fuel IH]; intros ns scope out depth Hns; cbn [nodes]; [done|].
  revert out. induction Hns as [|n ns Hn _ IHns]; intros out; [apply extends_refl|].
  apply extends_bind; [by apply node_sound|done].
Qed.
End provenance.

Lemma merged_trusted (Q : list Node -> Prop) chain : Forall (fun v => map_Forall (fun _ => Q) (v_sections v)) chain ->
  map_Forall (fun _ => Q) (merged_sections chain).
Proof.
  unfold merged_sections. assert (H0 : map_Forall (fun _ => Q) (∅ : gmap (list Z) (list Node))) by apply map_Forall_empty.
  revert H0. generalize (∅ : gmap (list Z) (list Node)). induction chain as [|v chain IH]; intros acc Ha Hc; [done|].
  apply Forall_cons_iff in Hc as [Hv Hc]. cbn [fold_left]. apply IH; [|done]. by apply map_Forall_union_2.
Qed.

Definition trusted_view (P : list Z -> Prop) (v : View) : Prop :=
  Forall (trusted P) (v_nodes v) /\ map_Forall (fun _ => Forall (trusted P)) (v_sections v).

Lemma layout_loop_trusted P load fuel : (forall name v, load name = Ok v -> trusted_view P v) ->
  forall chain last chain', Forall (trusted_view P) chain -> trusted_view P last ->
  layout_loop fuel load chain last = Ok chain' -> Forall (trusted_view P) chain'.
Proof.
  intros Hl. induction fuel as [|fuel IH]; intros chain last chain' Hc Hv; cbn [layout_loop]; [done|].
  assert (Hc' : Forall (trusted_view P) (chain ++ [last])) by (apply Forall_app; split; [done|by apply Forall_cons_2; [|apply Forall_nil_2]]).
  destruct (v_extends last) as [parent|]; [|by intros [= <-]].
  destruct (existsb _ _); [done|]. destruct (_ <=? _)%nat; [done|].
  destruct (load (ref_name parent)) as [v|] eqn:E; [|done]. apply IH; [done|by apply (Hl (ref_name parent))].
Qed.

(** C22. A page is made of template markup and escaped values only. When no template
    involved (the page, its layouts, their sections and every partial) uses the
    raw echo, whatever the context, the translator and the route table supply,
    the rendered page is a sequence of literal texts of those templates and of
    escaped texts: no value can put an angle bracket or a quote into it. *)
Theorem render_escapes_values P load translator routes fuel v context out :
  (forall name w, load name = Ok w -> trusted_view P w) -> trusted_view P v ->
  render_template load translator routes fuel v context = Ok out ->
  exists segs, out = concat (map seg_text segs) /\ Forall (seg_ok P) segs.
Proof.
  intros Hl Hv. unfold render_template. destruct (layout_chain load v) as [chain|] eqn:Ec; [|done].
  assert (Hc : Forall (trusted_view P) chain) by (eapply layout_loop_trusted; [exact Hl|apply Forall_nil_2|exact Hv|exact Ec]).
  destruct (list.last chain) as [layout|] eqn:El; [|done]. intros Hr.
  assert (Hlay : trusted_view P layout).
  { apply last_Some in El as [l ->]. apply Forall_app in Hc as [_ Hc]. by apply Forall_cons_iff in Hc as [Hc _]. }
  pose proof (nodes_sound load translator routes (merged_sections chain) P (fun name w H => proj1 (Hl name w H))) as Hs.
  specialize (Hs ltac:(apply merged_trusted; eapply Forall_impl; [|exact Hc]; intros w [_ Hw]; exact Hw) fuel
    (v_nodes layout) {| context := context; locals := [] |} [] 0%nat (proj1 Hlay)).
  rewrite Hr in Hs. exact Hs.
Qed.

Lemma render_escapes_values_witness :
  let P t := t ∈ [lit "<p>"; lit "</p>"] in
  let v := {| v_name := lit "p"; v_nodes := [Text (lit "<p>"); Echo (Path (lit "x")) true; Text (lit "</p>")];
              v_extends := None; v_sections := ∅ |} in
  exists segs, lit "<p>&lt;i&gt;</p>" = concat (map seg_text segs) /\ Forall (seg_ok P) segs.
Proof.
  intros P v.
  apply (render_escapes_values P (fun _ => Err (Message [])) None None 3 v (with_ (lit "x") (Json.String (lit "<i>")) ∅)).
  - done.
  - split; [|apply map_Forall_empty].
    apply Forall_cons_2; [apply trusted_text; unfold P; set_solver|].
    apply Forall_cons_2; [apply trusted_echo|].
    apply Forall_cons_2; [apply trusted_text; unfold P; set_solver|apply Forall_nil_2].
  - vm_compute. reflexivity.
Defined.

(** ** When rendering ends *)

Section ending.
Context (load : list Z -> result Error View) (translator : option Translator) (routes : option RouteTable)
        (filled : gmap (list Z) (list Node)) (rank : list Z -> nat).

(** Every section the node yields where it stands, not through a partial, has a
    rank below [r]. *)
Inductive yields_below (r : nat) : Node -> Prop :=
  | below_text t : yields_below r (Text t)
  | below_echo e b : yields_below r (Echo e b)
  | below_if bs o : Forall (fun b => Forall (yields_below r) b.2) bs ->
      (forall body, o = Some body -> Forall (yields_below r) body) -> yields_below r (If bs o)
  | below_foreach s b body : Forall (yields_below r) body -> yields_below r (Foreach s b body)
  | below_yield s f : (filled !! s <> None -> (rank s < r)%nat) -> yields_below r (Yield s f)
  | below_include i : yields_below r (Include i)
  | below_lang k rs : yields_below r (Lang k rs)
  | below_route n ps : yields_below r (Route n ps).

(** No section yields itself, directly or through other sections. *)
Definition acyclic (top : nat) : Prop := forall s body, filled !! s = Some body ->
  (rank s < top)%nat /\ Forall (yields_below (rank s)) body.

Context (top : nat) (Hacyclic : acyclic top) (Hload : forall name, answers (load name)).

Lemma below_top n : yields_below top n.
Proof.
  induction n as [t|e b|bs o Hbs Ho|s b body Hb|s f|i|k rs|name ps] using Node_nested_ind; constructor; try done.
  intros Hs. destruct (filled !! s) as [body|] eqn:E; [|done]. by apply (Hacyclic s body).
Qed.

(** From some fuel on, whatever the scope and the text so far, there is an answer. *)
Definition finishes (ns : list Node) (depth : nat) : Prop := exists F, forall f scope out, (F <= f)%nat ->
  answers (nodes load translator routes filled f ns scope out depth).
Definition node_finishes (n : Node) (depth : nat) : Prop := exists F, forall f scope out, (F <= f)%nat ->
  answers (node load translator routes filled (nodes load translator routes filled f) n scope out depth).

Lemma nodes_finish depth ns : Forall (fun n => node_finishes n depth) ns -> finishes ns depth.
Proof.
  intros H. assert (HF : exists F, Forall (fun n => forall f scope out, (F <= f)%nat ->
    answers (node load translator routes filled (nodes load translator routes filled f) n scope out depth)) ns).
  { induction H as [|n ns [F HF] _ [G HG]]; [exists 0%nat; constructor|]. exists (F + G)%nat.
    apply Forall_cons_2; [intros f scope out Hf; apply HF; lia|].
    eapply Forall_impl; [|exact HG]. intros m Hm f scope out Hf. apply Hm. lia. }
  destruct HF as [F HF]. exists (S F). intros [|f] scope out Hf; [lia|]. cbn [nodes]. clear H.
  revert out. induction HF as [|n ns Hn _ IH]; intros out; [done|].
  specialize (Hn f scope out ltac:(lia)). destruct (node _ _ _ _ _ n scope out depth) as [out'|e]; [apply IH|done].
Qed.

Lemma foreach_finishes binding body depth : finishes body depth -> exists F, forall f items count index scope out,
  (F <= f)%nat ->
  answers (foreach_loop (nodes load translator routes filled f) binding body count index items scope out depth).
Proof.
  intros [F HF]. exists F. intros f items. induction items as [|item items IH]; intros count index scope out Hf; [done|].
  cbn [foreach_loop]. set (inner := push _ _ _). specialize (HF f inner out Hf).
  destruct (nodes _ _ _ _ f body inner out depth) as [out'|e]; [by apply IH|done].
Qed.

Lemma if_finishes o depth : (forall body, o = Some body -> finishes body depth) -> forall bs,
  Forall (fun b => finishes b.2 depth) bs -> exists F, forall f scope out, (F <= f)%nat ->
  answers (if_loop (nodes load translator routes filled f) bs o scope out depth).
Proof.
  intros Ho bs. induction 1 as [|[c body] bs [F HF] _ [G HG]].
  - destruct o as [body|]; [|by exists 0%nat]. destruct (Ho body eq_refl) as [F HF]. exists F. exact HF.
  - exists (F + G)%nat. intros f scope out Hf. cbn [if_loop]. destruct (truthy _); [apply HF; lia|apply HG; lia].
Qed.

(** One node, when the sections below its bound and the partials it may include
    finish. *)
Lemma node_ends r depth n :
  (forall s body, filled !! s = Some body -> (rank s < r)%nat -> finishes body depth) ->
  ((depth < MAX_INCLUDE_DEPTH)%nat -> forall ns, finishes ns (S depth)) ->
  yields_below r n -> node_finishes n depth.
Proof.
  intros Hsec Hinc. induction n as [t|e b|bs o Hbs Ho|s b body Hb|s f|i|k rs|name ps] using Node_nested_ind;
    intros Hn; inversion Hn; subst.
  all: try (by exists 0%nat).
  - destruct (if_finishes o depth) with (bs := bs) as [F HF].
    + intros body Hbody. apply nodes_finish. specialize (Ho body Hbody).
      match goal with H : forall body, _ -> Forall (yields_below _) body |- _ => specialize (H body Hbody) end.
      eapply Forall_impl; [|apply Forall_and; [exact Ho|eassumption]]. cbv beta. tauto.
    + match goal with H : Forall (fun b => Forall (yields_below _) b.2) bs |- _ => pose proof H as Hy end.
      clear -Hbs Hy. induction Hbs as [|b bs Hb _ IH]; [constructor|]. apply Forall_cons_iff in Hy as [Hy1 Hy].
      apply Forall_cons_2; [|by apply IH]. apply nodes_finish.
      eapply Forall_impl; [|apply Forall_and; [exact Hb|exact Hy1]]. cbv beta. tauto.
    + exists F. exact HF.
  - destruct (foreach_finishes b body depth) as [F HF].
    + apply nodes_finish. eapply Forall_impl; [|apply Forall_and; [exact Hb|eassumption]]. cbv beta. tauto.
    + exists F. intros f scope out Hf. cbn [node]. unfold foreach. destruct (Json.as_array _); [by apply HF|done].
  - destruct (filled !! s) as [body|] eqn:E.
    + destruct (Hsec s body E) as [F HF]; [by apply H0|]. exists F. intros g scope out Hg. cbn [node]. rewrite E. by apply HF.
    + exists 0%nat. intros g scope out _. cbn [node]. rewrite E. by destruct f.
  - destruct (decide (depth < MAX_INCLUDE_DEPTH)%nat) as [Hd|Hd].
    + destruct (load (ref_name i)) as [v|e] eqn:E.
      * destruct (Hinc Hd (v_nodes v)) as [F HF]. exists F. intros f scope out Hf. cbn [node].
        rewrite (proj2 (Nat.leb_gt _ _)) by lia. rewrite E. destruct (v_extends v); [done|by apply HF].
      * exists 0%nat. intros f scope out _. cbn [node]. rewrite (proj2 (Nat.leb_gt _ _)) by lia. rewrite E.
        specialize (Hload (ref_name i)). rewrite E in Hload. by destruct e.
    + exists 0%nat. intros f scope out _. cbn [node]. by rewrite (proj2 (Nat.leb_le _ _)) by lia.
  - exists 0%nat. intros f scope out _. cbn [node]. destruct routes as [table|]; [|done]. by destruct (table name _).
Qed.

Lemma all_finish room : forall depth, (MAX_INCLUDE_DEPTH <= depth + room)%nat -> forall ns, finishes ns depth.
Proof.
  induction room as [room IHroom] using lt_wf_ind. intros depth Hd.
  assert (Hrank : forall r ns, Forall (yields_below r) ns -> finishes ns depth).
  { induction r as [r IHr] using lt_wf_ind. intros ns Hns. apply nodes_finish.
    eapply Forall_impl; [|exact Hns]. intros n. apply node_ends.
    - intros s body E Hs. apply (IHr (rank s) Hs). by apply (Hacyclic s body).
    - intros Hlt. apply (IHroom (room - 1)%nat); lia. }
  intros ns. apply (Hrank top). apply Forall_true, below_top.
Qed.
End ending.

(** C23. Rendering ends whenever the sections do not yield one another in a circle:
    some depth of calls is enough for every scope, whatever the templates load,
    include and loop over, since partials stop at the include limit. *)
Theorem render_ends load translator routes filled rank top ns :
  acyclic filled rank top -> (forall name, load name <> Err Stuck) ->
  exists F, forall f scope out, (F <= f)%nat -> nodes load translator routes filled f ns scope out 0 <> Err Stuck.
Proof.
  intros Ha Hl. apply (all_finish load translator routes filled rank top Ha Hl MAX_INCLUDE_DEPTH). lia.
Qed.

Lemma render_ends_witness :
  let filled : gmap (list Z) (list Node) := {[ lit "a" := [Yield (lit "b") None] ]} in
  exists F, forall f scope out, (F <= f)%nat ->
    nodes (fun _ => Err (Message [])) None None filled f [Yield (lit "a") None] scope out 0 <> Err Stuck.
Proof.
  intros filled. apply (render_ends _ None None filled (fun s => 0%nat) 1); [|done].
  intros s body Hs. split; [lia|]. apply lookup_singleton_Some in Hs as [<- <-].
  apply Forall_cons_2; [|apply Forall_nil_2]. apply below_yield. intros H. by destruct H.
Defined.

(** A section that yields itself is never rendered: nothing stops the
    recursion, so no depth of calls is enough. The template below is accepted by
    the parser and cannot be rendered by any engine. *)
Theorem self_yield_diverges load translator routes context fuel :
  render_source load translator routes fuel (lit "p")
    (lit "@section('a')@yield('a')@endsection@yield('a')") context = Err Stuck.
Proof.
  assert (E : parse_view (lit "p") (lit "@section('a')@yield('a')@endsection@yield('a')") =
    Ok {| v_name := lit "p"; v_nodes := [Yield (lit "a") None]; v_extends := None;
          v_sections := <[lit "a" := [Yield (lit "a") None]]> ∅ |}) by (vm_compute; reflexivity).
  unfold render_source. rewrite E. unfold render_template, layout_chain. cbn [layout_loop v_extends app list.last].
  set (filled := merged_sections _). assert (Hf : filled !! lit "a" = Some [Yield (lit "a") None]) by reflexivity.
  cbn [v_nodes]. generalize {| context := context; locals := [] |} as scope. intros scope.
  generalize ([] : list Z) as out. clearbody filled. clear E. revert scope. induction fuel as [|fuel IH]; intros scope out; [done|].
  cbn [nodes node]. rewrite Hf. by rewrite IH.
Qed.

(** ** The cache changes no answer *)

(** Every cached view is what its file parses to. *)
Definition coherent (disk : list Z -> FileRead) (e : Engine) : Prop :=
  forall name v, cache e !! name = Some v -> fresh (root e) name disk = Ok v.

Lemma load_fresh disk e name : coherent disk e ->
  (load disk e name).1 = fresh (root e) name disk /\ coherent disk (load disk e name).2 /\
  root (load disk e name).2 = root e.
Proof.
  intros Hc. unfold load. destruct (reload e) eqn:Er.
  { cbn [fst snd]. split_and!; [done| |]; by destruct (fresh (root e) name disk). }
  destruct (cache e !! name) as [v|] eqn:E; cbn [fst snd]; [split_and!; [by rewrite (Hc name v)|done|done]|].
  destruct (fresh (root e) name disk) as [v|err] eqn:Ef; [|done]. split_and!; [done| |done].
  intros n w. cbn [cache root]. destruct (decide (n = name)) as [->|Hn].
  - rewrite lookup_insert_eq. by intros [= <-].
  - rewrite lookup_insert_ne by done. apply Hc.
Qed.

End ViewRenderProofs.
