(* ===== verification/Cbor.v ===== *)
(** * CBOR ([rustlavel-webauthn/src/cbor.rs])

    The canonical encoding authenticators use: a decoder that is strict about
    lengths, nesting and repeated keys, and an encoder with shortest arguments
    and length-first key order. A [BTreeMap] is the list of its entries in key
    order. *)

From S2P Require Import Prelude Text F64 Json JsonText.

Module Cbor.

Inductive CborKey :=
  | KInt (n : Z)
  | KText (t : list Z).

Inductive Cbor :=
  | Unsigned (n : Z)
  | Negative (n : Z)
  | Bytes (b : list Z)
  | Text (t : list Z)
  | Array (items : list Cbor)
  | Map (entries : list (CborKey * Cbor))
  | Bool (b : bool)
  | Null.

#[export] Instance CborKey_eq_dec : EqDecision CborKey.
Proof. solve_decision. Defined.

(** The derived order: integers before texts. *)
Definition key_ltb (a b : CborKey) : bool :=
  match a, b with
  | KInt x, KInt y => x <? y
  | KInt _, KText _ => true
  | KText _, KInt _ => false
  | KText x, KText y => JsonText.key_lt x y
  end.

(** ** Accessors *)

Definition as_bytes (v : Cbor) : option (list Z) := match v with Bytes b => Some b | _ => None end.
Definition as_text (v : Cbor) : option (list Z) := match v with Text t => Some t | _ => None end.
Definition as_i64 (v : Cbor) : option Z :=
  match v with
  | Unsigned n => if n <=? i64_max then Some n else None
  | Negative n => Some n
  | _ => None
  end.
Fixpoint entry (k : CborKey) (m : list (CborKey * Cbor)) : option Cbor :=
  match m with
  | [] => None
  | (k', v) :: m => if bool_decide (k' = k) then Some v else entry k m
  end.
Definition get (key : list Z) (v : Cbor) : option Cbor := match v with Map m => entry (KText key) m | _ => None end.
Definition get_int (key : Z) (v : Cbor) : option Cbor := match v with Map m => entry (KInt key) m | _ => None end.

(** ** Encoding *)

Definition head (major argument : Z) : list Z :=
  let major := Z.shiftl major 5 in
  if argument <=? 23 then [Z.lor major argument]
  else if argument <=? 255 then [Z.lor major 24; argument]
  else if argument <=? 65535 then Z.lor major 25 :: to_be_bytes 2 argument
  else if argument <=? 4294967295 then Z.lor major 26 :: to_be_bytes 4 argument
  else Z.lor major 27 :: to_be_bytes 8 argument.

Definition negative_argument (n : Z) : Z := u64 (Z.max (-1 - n) 0).

Definition write_key (k : CborKey) : list Z :=
  match k with
  | KInt n => if 0 <=? n then head 0 n else head 1 (negative_argument n)
  | KText t => head 3 (Z.of_nat (length t)) ++ t
  end.

(** [canonical_key_order] is not [Greater]. *)
Definition canonical_le (a b : list Z) : bool :=
  (length a <? length b)%nat || ((length a =? length b)%nat && negb (JsonText.key_lt b a)).

Fixpoint to_bytes (v : Cbor) : list Z :=
  match v with
  | Unsigned n => head 0 n
  | Negative n => head 1 (negative_argument n)
  | Bytes b => head 2 (Z.of_nat (length b)) ++ b
  | Text t => head 3 (Z.of_nat (length t)) ++ t
  | Array items => head 4 (Z.of_nat (length items)) ++ concat (map to_bytes items)
  | Map m =>
      let entries := map (fun e => (write_key e.1, to_bytes e.2)) m in
      head 5 (Z.of_nat (length m)) ++
      concat (map (fun e => e.1 ++ e.2) (stable_sort (fun a b => canonical_le a.1 b.1) entries))
  | Bool b => [Z.lor 244 (if b then 1 else 0)]
  | Null => [246]
  end.

(** ** Decoding *)

Inductive CborError :=
  | Trailing (n : nat)
  | TooDeep
  | NegativeTooLarge
  | NotUtf8
  | DuplicateKey
  | BadSimple (extra : Z)
  | BadMajor (major : Z)
  | KeyTooLarge
  | BadKey (v : Cbor)
  | Indefinite
  | Reserved (extra : Z)
  | TooMany (claimed : Z) (remaining : nat)
  | LengthOverflow
  | PastEnd (n : Z)
  | EndOfValue
  | EndOfNumber.

Definition MAX_DEPTH : nat := 16.

Section Decoder.
Context (input : list Z).

(** The decoder's position is what has been read of [input]. *)
Definition position (rest : list Z) : Z := Z.of_nat (length input - length rest).

Definition read_byte (rest : list Z) : result CborError (Z * list Z) :=
  match rest with b :: rest => Ok (b, rest) | [] => Err EndOfValue end.

Definition fixed (n : nat) (rest : list Z) : result CborError (Z * list Z) :=
  if (length rest <? n)%nat then Err EndOfNumber else Ok (from_be_bytes (take n rest), drop n rest).

Definition argument (extra : Z) (rest : list Z) : result CborError (Z * list Z) :=
  if extra <=? 23 then Ok (extra, rest)
  else if extra =? 24 then read_byte rest
  else if extra =? 25 then fixed 2 rest
  else if extra =? 26 then fixed 4 rest
  else if extra =? 27 then fixed 8 rest
  else if extra =? 31 then Err Indefinite
  else Err (Reserved extra).

Definition count (extra : Z) (rest : list Z) : result CborError (nat * list Z) :=
  let? (claimed, rest) := argument extra rest in
  if Z.of_nat (length rest) <? claimed then Err (TooMany claimed (length rest)) else Ok (Z.to_nat claimed, rest).

Definition take_string (extra : Z) (rest : list Z) : result CborError (list Z * list Z) :=
  let? (n, rest) := argument extra rest in
  if usize_max <? position rest + n then Err LengthOverflow
  else if Z.of_nat (length rest) <? n then Err (PastEnd n)
  else Ok (take (Z.to_nat n) rest, drop (Z.to_nat n) rest).

Fixpoint repeat_value (value : list Z -> result CborError (Cbor * list Z)) (n : nat) (rest : list Z)
    : result CborError (list Cbor * list Z) :=
  match n with
  | O => Ok ([], rest)
  | S n => let? (v, rest) := value rest in let? (vs, rest) := repeat_value value n rest in Ok (v :: vs, rest)
  end.

Definition to_key (v : Cbor) : result CborError CborKey :=
  match v with
  | Unsigned n => if n <=? i64_max then Ok (KInt n) else Err KeyTooLarge
  | Negative n => Ok (KInt n)
  | Text t => Ok (KText t)
  | other => Err (BadKey other)
  end.

(** [BTreeMap::insert] of a key that is not there. *)
Fixpoint insert_entry (k : CborKey) (v : Cbor) (m : list (CborKey * Cbor)) : list (CborKey * Cbor) :=
  match m with
  | [] => [(k, v)]
  | (k', v') :: r => if key_ltb k k' then (k, v) :: m else (k', v') :: insert_entry k v r
  end.

Fixpoint repeat_entry (value : list Z -> result CborError (Cbor * list Z)) (n : nat) (m : list (CborKey * Cbor))
    (rest : list Z) : result CborError (list (CborKey * Cbor) * list Z) :=
  match n with
  | O => Ok (m, rest)
  | S n =>
      let? (k, rest) := value rest in
      let? k := to_key k in
      let? (v, rest) := value rest in
      match entry k m with
      | Some _ => Err DuplicateKey
      | None => repeat_entry value n (insert_entry k v m) rest
      end
  end.

(** [room] is how many levels may still be opened, [MAX_DEPTH + 1 - depth]. *)
Fixpoint value (room : nat) (rest : list Z) : result CborError (Cbor * list Z) :=
  match room with
  | O => Err TooDeep
  | S room =>
      let? (initial, rest) := read_byte rest in
      let major := Z.shiftr initial 5 in
      let extra := Z.land initial 31 in
      if major =? 0 then let? (n, rest) := argument extra rest in Ok (Unsigned n, rest)
      else if major =? 1 then
        let? (n, rest) := argument extra rest in
        if n <=? i64_max then Ok (Negative (-1 - n), rest) else Err NegativeTooLarge
      else if major =? 2 then let? (b, rest) := take_string extra rest in Ok (Bytes b, rest)
      else if major =? 3 then
        let? (t, rest) := take_string extra rest in
        if utf8_valid t then Ok (Text t, rest) else Err NotUtf8
      else if major =? 4 then
        let? (n, rest) := count extra rest in
        let? (items, rest) := repeat_value (value room) n rest in Ok (Array items, rest)
      else if major =? 5 then
        let? (n, rest) := count extra rest in
        let? (m, rest) := repeat_entry (value room) n [] rest in Ok (Map m, rest)
      else if major =? 7 then
        if extra =? 20 then Ok (Bool false, rest)
        else if extra =? 21 then Ok (Bool true, rest)
        else if (extra =? 22) || (extra =? 23) then Ok (Null, rest)
        else Err (BadSimple extra)
      else Err (BadMajor major)
  end.
End Decoder.

Definition parse_prefix (input : list Z) : result CborError (Cbor * nat) :=
  let? (v, rest) := value input (S MAX_DEPTH) input in Ok (v, (length input - length rest)%nat).

Definition parse (input : list Z) : result CborError Cbor :=
  let? (v, rest) := value input (S MAX_DEPTH) input in
  match rest with [] => Ok v | _ => Err (Trailing (length rest)) end.

Example cbor_runs :
  let v := Map [(KInt (-2), Bytes [1; 2]); (KInt 1, Unsigned 500); (KText (lit "fmt"), Array [Null; Bool true; Negative (-300)])] in
  to_bytes v = [163; 1; 25; 1; 244; 33; 66; 1; 2; 99; 102; 109; 116; 131; 246; 245; 57; 1; 43] /\
  parse (to_bytes v) = Ok v /\ parse [162; 1; 2; 24; 1; 3] = Err DuplicateKey /\
  parse [24; 5] = Ok (Unsigned 5) /\ parse [155; 255; 255; 255; 255; 255; 255; 255; 255] = Err (TooMany (2 ^ 64 - 1) 0).
Proof. vm_compute. split_and!; reflexivity. Qed.

End Cbor.
