(* ===== verification/CborProofs.v ===== *)
(** * CBOR both ways ([rustlavel-webauthn/src/cbor.rs])

    Decoding what was encoded gives the value back; decoding anything else gives
    a value within the bounds of its type, no larger than the message, whose
    canonical encoding is no longer than the message and decodes to it. *)

From stdpp Require Import sorting.
From S2P Require Import Prelude Text F64 Json JsonText Cbor.

Module CborProofs.
Import Cbor.

Lemma Cbor_nested_ind (P : Cbor -> Prop) :
  (forall n, P (Unsigned n)) -> (forall n, P (Negative n)) -> (forall b, P (Bytes b)) -> (forall t, P (Text t)) ->
  (forall items, Forall P items -> P (Array items)) ->
  (forall m, Forall (fun e => P e.2) m -> P (Map m)) ->
  (forall b, P (Bool b)) -> P Null -> forall v, P v.
Proof.
  intros H1 H2 H3 H4 H5 H6 H7 H8. fix IH 1. intros [n|n|b|t|items|m|b|]; [apply H1|apply H2|apply H3|apply H4| | |apply H7|apply H8].
  - apply H5. induction items as [|v items IHi]; constructor; [apply IH|exact IHi].
  - apply H6. induction m as [|[k v] m IHm]; constructor; [apply IH|exact IHm].
Qed.

(** ** Heads *)

Lemma initial_bits major low : 0 <= major -> 0 <= low < 32 ->
  Z.shiftr (Z.lor (Z.shiftl major 5) low) 5 = major /\ Z.land (Z.lor (Z.shiftl major 5) low) 31 = low.
Proof.
  intros Hm Hl. rewrite Z.shiftl_mul_pow2, (Z.mul_comm major) by lia. rewrite (lor_add_low major low 5) by lia.
  change 31 with (2 ^ 5 - 1). rewrite land_ones_mod, Z.shiftr_div_pow2 by lia. change (2 ^ 5) with 32. split.
  - rewrite Z.mul_comm, Z.div_add_l by lia. rewrite Z.div_small by lia. lia.
  - rewrite Z.add_comm, (Z.mul_comm 32), Z.mod_add by lia. by apply Z.mod_small.
Qed.

Lemma fixed_back n z rest : 0 <= z < 256 ^ Z.of_nat n -> fixed n (to_be_bytes n z ++ rest) = Ok (z, rest).
Proof.
  intros Hz. unfold fixed. rewrite length_app, to_be_bytes_length. destruct (Nat.ltb_spec (n + length rest) n); [lia|].
  rewrite take_app_length', drop_app_length' by (by rewrite to_be_bytes_length). by rewrite from_to_be_bytes.
Qed.

Lemma head_back major n rest : 0 <= major -> 0 <= n < 2 ^ 64 ->
  exists initial more, head major n = initial :: more /\ Z.shiftr initial 5 = major /\
    argument (Z.land initial 31) (more ++ rest) = Ok (n, rest).
Proof.
  intros Hm Hn. unfold head.
  destruct (Z.leb_spec n 23); [|destruct (Z.leb_spec n 255); [|destruct (Z.leb_spec n 65535);
    [|destruct (Z.leb_spec n 4294967295)]]].
  - eexists _, []. destruct (initial_bits major n) as [B1 B2]; [lia..|]. rewrite B1, B2. split_and!; [done|done|].
    unfold argument. by rewrite (proj2 (Z.leb_le n 23)) by lia.
  - eexists _, [n]. destruct (initial_bits major 24) as [B1 B2]; [lia..|]. rewrite B1, B2. by split_and!.
  - eexists _, (to_be_bytes 2 n). destruct (initial_bits major 25) as [B1 B2]; [lia..|]. rewrite B1, B2.
    split_and!; [done|done|]. apply (fixed_back 2). lia.
  - eexists _, (to_be_bytes 4 n). destruct (initial_bits major 26) as [B1 B2]; [lia..|]. rewrite B1, B2.
    split_and!; [done|done|]. apply (fixed_back 4). lia.
  - eexists _, (to_be_bytes 8 n). destruct (initial_bits major 27) as [B1 B2]; [lia..|]. rewrite B1, B2.
    split_and!; [done|done|]. apply (fixed_back 8). lia.
Qed.

Lemma head_length major n : (1 <= length (head major n) <= 9)%nat.
Proof. unfold head. repeat case_match; cbn [length]; rewrite ?to_be_bytes_length; lia. Qed.

Lemma to_bytes_nonempty v : (1 <= length (to_bytes v))%nat.
Proof.
  destruct v; cbn [to_bytes]; rewrite ?length_app; try (cbn; lia);
    match goal with |- context [head ?m ?n] => pose proof (head_length m n) end; lia.
Qed.

(** ** Values within the bounds of their types *)

Fixpoint sorted_keys (m : list (CborKey * Cbor)) : bool :=
  match m with
  | [] => true
  | (k, _) :: m => forallb (fun e => key_ltb k e.1) m && sorted_keys m
  end.

Definition short {A} (l : list A) : bool := Z.of_nat (length l) <? 2 ^ 64.

Definition key_ok (k : CborKey) : bool :=
  match k with
  | KInt n => in_range i64_min i64_max n
  | KText t => utf8_valid t && short t
  end.

(** [v] is a value the type can hold, nested less than [room] deep. *)
Fixpoint fits (room : nat) (v : Cbor) : bool :=
  match room with
  | O => false
  | S room =>
      match v with
      | Unsigned n => in_range 0 (2 ^ 64 - 1) n
      | Negative n => in_range i64_min (-1) n
      | Bytes b => short b
      | Text t => utf8_valid t && short t
      | Array items => short items && forallb (fits room) items
      | Map m => short m && sorted_keys m &&
                 forallb (fun e => negb (room =? 0)%nat && key_ok e.1 && fits room e.2) m
      | Bool _ | Null => true
      end
  end.

(** ** Maps *)

Definition before (a b : CborKey * Cbor) : Prop := key_ltb a.1 b.1 = true.

Lemma key_ltb_irrefl k : key_ltb k k = false.
Proof. destruct k; cbn; [apply Z.ltb_irrefl|apply JsonText.key_lt_irrefl]. Qed.

Lemma key_ltb_trans a b c : key_ltb a b = true -> key_ltb b c = true -> key_ltb a c = true.
Proof. destruct a, b, c; cbn; try done; [rewrite !Z.ltb_lt; lia|apply JsonText.key_lt_trans]. Qed.

Lemma key_ltb_total a b : key_ltb a b = false -> a <> b -> key_ltb b a = true.
Proof.
  destruct a, b; cbn; try done; [rewrite Z.ltb_ge, Z.ltb_lt; intros; assert (n <> n0) by congruence; lia|].
  intros H Hn. apply JsonText.key_lt_total; congruence.
Qed.

Lemma sorted_keys_spec m : sorted_keys m = true <-> StronglySorted before m.
Proof.
  induction m as [|[k v] m IH]; cbn [sorted_keys]; [split; [constructor|done]|]. rewrite andb_true_iff, IH, forallb_forall.
  split.
  - intros [H1 H2]. constructor; [done|]. apply List.Forall_forall. exact H1.
  - intros H. inversion H as [|? ? H1 H2]; subst. split; [|done]. by apply List.Forall_forall.
Qed.

Lemma entry_none k m : entry k m = None <-> k ∉ m.*1.
Proof.
  induction m as [|[k' v] m IH]; cbn; [split; [intros _; apply not_elem_of_nil|done]|].
  rewrite not_elem_of_cons. case_bool_decide; [split; [done|intros [? _]; congruence]|]. rewrite IH. naive_solver.
Qed.

Lemma insert_entry_perm k v m : insert_entry k v m ≡ₚ (k, v) :: m.
Proof.
  induction m as [|[k' v'] m IH]; cbn [insert_entry]; [done|]. case_match; [done|]. rewrite IH. apply perm_swap.
Qed.

Lemma insert_entry_sorted k v m : k ∉ m.*1 -> StronglySorted before m -> StronglySorted before (insert_entry k v m).
Proof.
  intros Hk. induction 1 as [|[k' v'] m Hm IH Hall]; cbn [insert_entry]; [by repeat constructor|].
  cbn in Hk. rewrite not_elem_of_cons in Hk. destruct Hk as [Hne Hk]. destruct (key_ltb k k') eqn:E.
  - constructor; [by constructor|]. apply Forall_cons_2; [done|]. eapply Forall_impl; [|exact Hall].
    intros e He. by apply (key_ltb_trans _ k').
  - constructor; [by apply IH|]. apply (Permutation_Forall (Permutation_sym (insert_entry_perm k v m))).
    apply Forall_cons_2; [|done]. by apply key_ltb_total.
Qed.

(** Inserting the entries of a sorted map, in any order, rebuilds it. *)
Lemma insert_all_sorted m' : forall acc,
  NoDup (acc.*1 ++ m'.*1) -> StronglySorted before acc ->
  let r := fold_left (fun m e => insert_entry e.1 e.2 m) m' acc in StronglySorted before r /\ r ≡ₚ m' ++ acc.
Proof.
  induction m' as [|[k v] m' IH]; intros acc Hnd Hs; cbn [fold_left]; [done|].
  cbn in Hnd. pose proof Hnd as Hnd'. rewrite <- Permutation_middle in Hnd'. apply list.NoDup_cons in Hnd' as [Hk Hnd'].
  rewrite elem_of_app in Hk. destruct (IH (insert_entry k v acc)) as [H1 H2].
  - rewrite insert_entry_perm. cbn. rewrite Permutation_middle. done.
  - apply insert_entry_sorted; [naive_solver|done].
  - split; [done|]. rewrite H2, insert_entry_perm. cbn. by rewrite <- Permutation_middle.
Qed.

Lemma rebuild m m' : StronglySorted before m -> m ≡ₚ m' ->
  fold_left (fun m e => insert_entry e.1 e.2 m) m' [] = m /\ NoDup m'.*1.
Proof.
  intros Hs Hp. assert (Hnd : NoDup m.*1).
  { clear Hp. induction Hs as [|e m Hm IH Hall]; [constructor|]. cbn. apply list.NoDup_cons. split; [|done].
    intros Hin. apply list_elem_of_fmap in Hin as (e' & He & Hin). rewrite List.Forall_forall in Hall.
    apply list_elem_of_In in Hin. apply Hall in Hin. unfold before in Hin. rewrite He, key_ltb_irrefl in Hin. done. }
  rewrite Hp in Hnd. split; [|done].
  destruct (insert_all_sorted m' []) as [H1 H2]; [done|constructor|]. rewrite app_nil_r in H2.
  apply (StronglySorted_unique_strong before); [|done|done|by rewrite H2].
  intros a b _ _ Hab Hba. unfold before in *. pose proof (key_ltb_trans _ _ _ Hab Hba) as H.
  by rewrite key_ltb_irrefl in H.
Qed.

(** ** Decoding what was encoded *)

(** A map key as a value: what [key] reads before it checks it. *)
Definition key_value (k : CborKey) : Cbor :=
  match k with
  | KInt n => if 0 <=? n then Unsigned n else Negative n
  | KText t => Text t
  end.

Lemma write_key_eq k : write_key k = to_bytes (key_value k).
Proof. destruct k as [n|t]; cbn; [by destruct (0 <=? n)|done]. Qed.

Lemma to_key_value k : key_ok k = true -> to_key (key_value k) = Ok k.
Proof.
  destruct k as [n|t]; cbn [key_ok key_value]; [|done]. unfold in_range. rewrite andb_true_iff, !Z.leb_le. intros [_ Hn].
  destruct (0 <=? n); cbn; [|done]. by rewrite (proj2 (Z.leb_le _ _)).
Qed.

Lemma key_value_fits room k : key_ok k = true -> fits (S room) (key_value k) = true.
Proof.
  destruct k as [n|t]; cbn [key_ok key_value]; [|done]. unfold in_range. rewrite andb_true_iff, !Z.leb_le.
  intros [H1 H2]. destruct (Z.leb_spec 0 n); cbn; unfold in_range; rewrite andb_true_iff, !Z.leb_le;
    unfold i64_min, i64_max in *; lia.
Qed.

Lemma negative_back n : i64_min <= n <= -1 -> 0 <= negative_argument n <= i64_max /\ -1 - negative_argument n = n.
Proof. unfold negative_argument, i64_min, i64_max. intros Hn. rewrite wrap_small by lia. lia. Qed.

Section roundtrip.
Context (input : list Z) (Hinput : Z.of_nat (length input) <= usize_max).

Lemma short_spec {A} (l : list A) : short l = true -> 0 <= Z.of_nat (length l) < 2 ^ 64.
Proof. unfold short. rewrite Z.ltb_lt. lia. Qed.

Lemma take_string_back major s rest : 0 <= major -> short s = true ->
  (length (s ++ rest) <= length input)%nat ->
  exists initial more, head major (Z.of_nat (length s)) = initial :: more /\ Z.shiftr initial 5 = major /\
    take_string input (Z.land initial 31) (more ++ s ++ rest) = Ok (s, rest).
Proof.
  intros Hm Hs Hlen. destruct (head_back major (Z.of_nat (length s)) (s ++ rest) Hm (short_spec _ Hs))
    as (initial & more & -> & E1 & E2). exists initial, more. split_and!; [done|done|]. unfold take_string. rewrite E2.
  unfold position. rewrite length_app in *.
  destruct (Z.ltb_spec usize_max (Z.of_nat (length input - (length s + length rest)) + Z.of_nat (length s))); [lia|].
  destruct (Z.ltb_spec (Z.of_nat (length s + length rest)) (Z.of_nat (length s))); [lia|].
  by rewrite Nat2Z.id, take_app_length, drop_app_length.
Qed.

(** What the induction says of the values one level down. *)
Definition reads_back (room : nat) (v : Cbor) : Prop := forall rest,
  (length (to_bytes v ++ rest) <= length input)%nat -> value input room (to_bytes v ++ rest) = Ok (v, rest).

Lemma items_back room items rest :
  Forall (reads_back room) items -> (length (concat (map to_bytes items) ++ rest) <= length input)%nat ->
  repeat_value (value input room) (length items) (concat (map to_bytes items) ++ rest) = Ok (items, rest).
Proof.
  induction 1 as [|v items Hv _ IH]; intros Hl; [done|]. cbn [map concat length repeat_value] in *.
  rewrite <- app_assoc in *. rewrite Hv by done. rewrite IH; [done|]. rewrite length_app in Hl. lia.
Qed.

Definition encoded (e : CborKey * Cbor) : list Z * list Z := (write_key e.1, to_bytes e.2).
Definition entry_text (e : list Z * list Z) : list Z := e.1 ++ e.2.

Lemma entries_back room m : forall acc rest,
  Forall (fun e => key_ok e.1 = true /\ reads_back room (key_value e.1) /\ reads_back room e.2) m ->
  NoDup (acc.*1 ++ m.*1) ->
  (length (concat (map entry_text (map encoded m)) ++ rest) <= length input)%nat ->
  repeat_entry (value input room) (length m) acc (concat (map entry_text (map encoded m)) ++ rest) =
  Ok (fold_left (fun m e => insert_entry e.1 e.2 m) m acc, rest).
Proof.
  induction m as [|[k v] m IH]; intros acc rest Hall Hnd Hl; [done|].
  apply Forall_cons_iff in Hall as [(Hk & Hkv & Hv) Hall]. cbn [map concat length repeat_entry fold_left] in *.
  unfold entry_text at 1 in Hl. unfold entry_text at 1. cbn [encoded fst snd] in *. rewrite write_key_eq in *. rewrite <- !app_assoc in *.
  rewrite Hkv by done. rewrite to_key_value by done. rewrite !length_app in Hl.
  rewrite Hv by (rewrite !length_app; lia).
  pose proof Hnd as Hnd'. cbn in Hnd'. rewrite <- Permutation_middle in Hnd'. apply list.NoDup_cons in Hnd' as [Hk' _].
  rewrite elem_of_app in Hk'. rewrite (proj2 (entry_none k acc)) by naive_solver.
  apply IH; [done| |rewrite length_app; lia]. rewrite insert_entry_perm. cbn. rewrite Permutation_middle. done.
Qed.

Lemma array_back room items rest :
  short items = true -> Forall (reads_back room) items ->
  (length (to_bytes (Array items) ++ rest) <= length input)%nat ->
  value input (S room) (to_bytes (Array items) ++ rest) = Ok (Array items, rest).
Proof.
  intros Hs Hi Hl. cbn [to_bytes] in *. set (body := concat (map to_bytes items)) in *.
  destruct (head_back 4 (Z.of_nat (length items)) (body ++ rest) ltac:(lia) (short_spec _ Hs)) as (i & more & Eh & E1 & E2).
  rewrite Eh in *. cbn [app value read_byte]. rewrite <- app_assoc, E1. cbn [Z.eqb]. unfold count. rewrite E2.
  cbn [app length] in Hl. rewrite !length_app in Hl.
  assert (Hb : (length items <= length body)%nat).
  { unfold body. clear. induction items as [|v items IH]; [done|]. cbn [map concat length]. rewrite length_app.
    pose proof (to_bytes_nonempty v). lia. }
  destruct (Z.ltb_spec (Z.of_nat (length (body ++ rest))) (Z.of_nat (length items))) as [H|_];
    [rewrite length_app in H; lia|]. rewrite Nat2Z.id. unfold body. rewrite items_back; [done|done|].
  fold body. rewrite length_app. lia.
Qed.

Lemma map_back room m rest :
  short m = true -> sorted_keys m = true ->
  Forall (fun e => key_ok e.1 = true /\ reads_back room (key_value e.1) /\ reads_back room e.2) m ->
  (length (to_bytes (Map m) ++ rest) <= length input)%nat ->
  value input (S room) (to_bytes (Map m) ++ rest) = Ok (Map m, rest).
Proof.
  intros Hs Hsorted Hm Hl. cbn [to_bytes] in *. fold encoded in *. fold entry_text in *.
  set (S := stable_sort _ (map encoded m)) in *.
  assert (HS : S ≡ₚ map encoded m) by apply stable_sort_perm.
  apply Permutation_map_inv in HS as (m' & HS & Hp). rewrite HS in *. clear S HS.
  destruct (rebuild m m') as [Hr Hnd]; [by apply sorted_keys_spec|done|].
  set (body := concat (map entry_text (map encoded m'))) in *.
  destruct (head_back 5 (Z.of_nat (length m)) (body ++ rest) ltac:(lia) (short_spec _ Hs)) as (i & more & Eh & E1 & E2).
  rewrite Eh in *. cbn [app value read_byte]. rewrite <- app_assoc, E1. cbn [Z.eqb]. unfold count. rewrite E2.
  cbn [app length] in Hl. rewrite !length_app in Hl. pose proof (Permutation_length Hp) as Hlen.
  assert (Hb : (length m' <= length body)%nat).
  { unfold body. clear. induction m' as [|e m' IH]; [done|]. cbn [map concat length]. rewrite length_app.
    unfold entry_text at 1. rewrite length_app. pose proof (to_bytes_nonempty e.2). cbn [encoded fst snd]. lia. }
  destruct (Z.ltb_spec (Z.of_nat (length (body ++ rest))) (Z.of_nat (length m))) as [H|_];
    [rewrite length_app in H; lia|]. rewrite Nat2Z.id, Hlen. unfold body. rewrite entries_back.
  - by rewrite Hr.
  - by apply (Permutation_Forall Hp).
  - done.
  - fold body. rewrite length_app. lia.
Qed.

Lemma scalar_back v room : match v with Array _ | Map _ => False | _ => True end ->
  fits room v = true -> reads_back room v.
Proof.
  intros Hv Hf rest Hl. destruct room as [|room]; [done|]. destruct v as [n|n|b|t|items|m|b|]; try done; cbn [fits] in Hf.
  - unfold in_range in Hf. rewrite andb_true_iff, !Z.leb_le in Hf.
    destruct (head_back 0 n rest) as (i & more & Eh & E1 & E2); [lia..|]. cbn [to_bytes]. rewrite Eh. cbn [app value read_byte].
    by rewrite E1, E2.
  - unfold in_range in Hf. rewrite andb_true_iff, !Z.leb_le in Hf. destruct (negative_back n Hf) as [Hr Hn].
    destruct (head_back 1 (negative_argument n) rest) as (i & more & Eh & E1 & E2); [lia|unfold i64_max in *; lia|].
    cbn [to_bytes]. rewrite Eh. cbn [app value read_byte]. rewrite E1, E2. cbn [Z.eqb].
    rewrite (proj2 (Z.leb_le _ _)) by lia. by rewrite Hn.
  - cbn [to_bytes] in *. rewrite <- app_assoc in *. rewrite length_app in Hl.
    destruct (take_string_back 2 b rest) as (i & more & Eh & E1 & E2); [lia|done|lia|].
    rewrite Eh. cbn [app value read_byte]. by rewrite E1, E2.
  - apply andb_true_iff in Hf as [Hu Hs]. cbn [to_bytes] in *. rewrite <- app_assoc in *. rewrite length_app in Hl.
    destruct (take_string_back 3 t rest) as (i & more & Eh & E1 & E2); [lia|done|lia|].
    rewrite Eh. cbn [app value read_byte]. rewrite E1, E2. cbn [Z.eqb]. by rewrite Hu.
  - destruct b; done.
Qed.

Lemma value_back v : forall room, fits room v = true -> reads_back room v.
Proof.
  induction v as [n|n|b|t|items IH|m IH|b|] using Cbor_nested_ind; intros room Hf; try (by apply scalar_back);
    (destruct room as [|room]; [done|]); cbn [fits] in Hf; intros rest Hl.
  - apply andb_true_iff in Hf as [Hs Hi]. apply array_back; [done| |done]. rewrite forallb_forall in Hi.
    rewrite List.Forall_forall in IH |- *. intros v Hv. apply IH; [done|]. by apply Hi.
  - rewrite !andb_true_iff in Hf. destruct Hf as [[Hs Hsorted] Hm]. apply map_back; [done|done| |done].
    rewrite forallb_forall in Hm. rewrite List.Forall_forall in IH |- *. intros e He. specialize (Hm e He).
    rewrite !andb_true_iff in Hm. destruct Hm as [[Hroom Hk] Hv]. split_and!; [done| |by apply IH].
    destruct room as [|room]; [done|]. apply scalar_back; [|by apply key_value_fits].
    destruct (e.1) as [n|t]; cbn [key_value]; [|done]. by destruct (0 <=? n).
Qed.
End roundtrip.

(** ** Decoding anything *)

(** What one step of the decoder leaves: bytes, and no more than the value's own
    canonical text gone from [rest]. *)
Definition leaves (rest rest' : list Z) (text : nat) : Prop := bytes rest' /\ (text + length rest' <= length rest)%nat.

Lemma fixed_leaves n rest z rest' : bytes rest -> fixed n rest = Ok (z, rest') ->
  0 <= z < 256 ^ Z.of_nat n /\ leaves rest rest' n.
Proof.
  intros Hb. unfold fixed. destruct (Nat.ltb_spec (length rest) n); [done|]. intros [= <- <-].
  pose proof (from_be_bytes_bound (take n rest) (bytes_take _ _ Hb)) as Hz. rewrite length_take, Nat.min_l in Hz by lia.
  split; [done|]. split; [solve_bytes|rewrite length_drop; lia].
Qed.

Lemma argument_leaves extra rest n rest' major : 0 <= extra -> bytes rest -> argument extra rest = Ok (n, rest') ->
  0 <= n < 2 ^ 64 /\ bytes rest' /\ (length rest' <= length rest)%nat /\
  (length (head major n) + length rest' <= 1 + length rest)%nat.
Proof.
  intros He Hb. unfold argument. destruct (Z.leb_spec extra 23).
  { intros [= <- <-]. split_and!; [lia|lia|done|done|]. unfold head. rewrite (proj2 (Z.leb_le _ _)) by lia. cbn; lia. }
  destruct (extra =? 24).
  { destruct rest as [|b rest]; [done|]. intros [= <- <-]. apply bytes_cons in Hb as [Hb Hr].
    split_and!; [lia|lia|done|cbn; lia|]. unfold head. destruct (b <=? 23); [cbn; lia|].
    rewrite (proj2 (Z.leb_le _ _)) by lia. cbn; lia. }
  destruct (extra =? 25).
  { intros H1. apply fixed_leaves in H1 as [Hz [Hr Hl]]; [|done]. split_and!; [lia|lia|done|lia|]. unfold head.
    rewrite (proj2 (Z.leb_le n 65535)) by lia. repeat case_match; cbn [length]; rewrite ?to_be_bytes_length; lia. }
  destruct (extra =? 26).
  { intros H1. apply fixed_leaves in H1 as [Hz [Hr Hl]]; [|done]. split_and!; [lia|lia|done|lia|]. unfold head.
    rewrite (proj2 (Z.leb_le n 4294967295)) by lia. repeat case_match; cbn [length]; rewrite ?to_be_bytes_length; lia. }
  destruct (extra =? 27); [|by destruct (extra =? 31)].
  intros H1. apply fixed_leaves in H1 as [Hz [Hr Hl]]; [|done]. split_and!; [lia|lia|done|lia|].
  pose proof (head_length major n). lia.
Qed.

Section soundness.
Context (input : list Z).

Lemma take_string_leaves extra rest s rest' major : 0 <= extra -> bytes rest ->
  take_string input extra rest = Ok (s, rest') ->
  short s = true /\ leaves (0 :: rest) rest' (length (head major (Z.of_nat (length s)) ++ s)).
Proof.
  intros He Hb. unfold take_string. destruct (argument extra rest) as [[n rest1]|] eqn:Ea; [|done].
  destruct (argument_leaves _ _ _ _ major He Hb Ea) as (Hn & Hb1 & Hl1 & Hh).
  destruct (usize_max <? _); [done|]. destruct (Z.ltb_spec (Z.of_nat (length rest1)) n); [done|]. intros [= <- <-].
  assert (Hlen : length (take (Z.to_nat n) rest1) = Z.to_nat n) by (rewrite length_take; lia).
  unfold short. rewrite Hlen, Z2Nat.id by lia. split; [apply Z.ltb_lt; lia|]. split; [solve_bytes|].
  rewrite length_app, Hlen, length_drop. cbn [length]. lia.
Qed.

Definition decodes (room : nat) (x : result CborError (Cbor * list Z)) (rest : list Z) : Prop :=
  match x with
  | Ok (v, rest') => fits room v = true /\ leaves rest rest' (length (to_bytes v))
  | Err _ => True
  end.

Lemma repeat_value_decodes room f n : (forall rest, bytes rest -> decodes room (f rest) rest) -> forall rest,
  bytes rest ->
  match repeat_value f n rest with
  | Ok (vs, rest') => length vs = n /\ forallb (fits room) vs = true /\
                      leaves rest rest' (length (concat (map to_bytes vs)))
  | Err _ => True
  end.
Proof.
  intros Hf. induction n as [|n IH]; intros rest Hb; cbn [repeat_value]; [split_and!; [done|done|by split; [|cbn]]|].
  specialize (Hf rest Hb). destruct (f rest) as [[v rest1]|]; [|done]. destruct Hf as [Hv [Hb1 Hl1]].
  specialize (IH rest1 Hb1). destruct (repeat_value f n rest1) as [[vs rest2]|]; [|done].
  destruct IH as (Hn & Hvs & Hb2 & Hl2). cbn [length forallb map concat]. split_and!; [by rewrite Hn|by rewrite Hv|].
  split; [done|]. rewrite length_app. lia.
Qed.

(** The text of a map's entries. *)
Definition entries_length (m : list (CborKey * Cbor)) : nat := length (concat (map entry_text (map encoded m))).

Lemma entries_length_perm m m' : m ≡ₚ m' -> entries_length m = entries_length m'.
Proof. unfold entries_length. intros Hp. by rewrite Hp. Qed.

Lemma entries_length_cons k v m :
  entries_length ((k, v) :: m) = (length (write_key k) + length (to_bytes v) + entries_length m)%nat.
Proof. unfold entries_length. cbn [map concat]. rewrite length_app. unfold entry_text at 1. cbn. rewrite length_app. lia. Qed.

Definition entry_ok (room : nat) (e : CborKey * Cbor) : bool := negb (room =? 0)%nat && key_ok e.1 && fits room e.2.

Lemma to_key_ok room v k : fits room v = true -> to_key v = Ok k -> key_ok k = true /\ key_value k = v /\ room <> 0%nat.
Proof.
  destruct room as [|room]; [done|]. destruct v as [n|n|b|t|items|m|b|]; cbn [fits to_key]; try done.
  - intros Hf. destruct (Z.leb_spec n i64_max); [|done]. intros [= <-]. unfold in_range in *.
    rewrite andb_true_iff, !Z.leb_le in Hf. cbn. rewrite (proj2 (Z.leb_le 0 n)) by lia. split_and!; [|done|done].
    unfold in_range. rewrite andb_true_iff, !Z.leb_le. unfold i64_min, i64_max in *. lia.
  - intros Hf [= <-]. unfold in_range in *. rewrite andb_true_iff, !Z.leb_le in Hf. cbn.
    rewrite (proj2 (Z.leb_gt 0 n)) by lia. split_and!; [|done|done]. unfold in_range. rewrite andb_true_iff, !Z.leb_le.
    unfold i64_max. lia.
  - by intros Hf [= <-].
Qed.

Lemma repeat_entry_decodes room f n : (forall rest, bytes rest -> decodes room (f rest) rest) -> forall acc rest,
  bytes rest -> StronglySorted before acc -> forallb (entry_ok room) acc = true ->
  match repeat_entry f n acc rest with
  | Ok (m, rest') => length m = (n + length acc)%nat /\ StronglySorted before m /\ forallb (entry_ok room) m = true /\
                     bytes rest' /\ (entries_length m + length rest' <= entries_length acc + length rest)%nat
  | Err _ => True
  end.
Proof.
  intros Hf. induction n as [|n IH]; intros acc rest Hb Hs Hacc; cbn [repeat_entry]; [by split_and!|].
  pose proof (Hf rest Hb) as Hk. destruct (f rest) as [[kv rest1]|]; [|done]. destruct Hk as [Hkv [Hb1 Hl1]].
  destruct (to_key kv) as [k|] eqn:Ek; [|done]. destruct (to_key_ok room kv k Hkv Ek) as (Hk & <- & Hroom).
  pose proof (Hf rest1 Hb1) as Hv. destruct (f rest1) as [[v rest2]|]; [|done]. destruct Hv as [Hv [Hb2 Hl2]].
  destruct (entry k acc) eqn:Ee; [done|]. apply entry_none in Ee.
  assert (Hp := insert_entry_perm k v acc).
  specialize (IH (insert_entry k v acc) rest2 Hb2 (insert_entry_sorted k v acc Ee Hs)).
  rewrite (Permutation_length Hp), (entries_length_perm _ _ Hp), entries_length_cons, write_key_eq in IH.
  assert (Ha : forallb (entry_ok room) (insert_entry k v acc) = true).
  { rewrite forallb_forall. intros e He. apply (Permutation_in _ Hp) in He as [<-|He].
    - unfold entry_ok. cbn. rewrite Hk, Hv. destruct room; [done|]. done.
    - rewrite forallb_forall in Hacc. by apply Hacc. }
  specialize (IH Ha). destruct (repeat_entry f n _ rest2) as [[m rest']|]; [|done].
  destruct IH as (H1 & H2 & H3 & H4 & H5). cbn [length] in *. split_and!; [lia|done|done|done|lia].
Qed.

Lemma value_decodes room : forall rest, bytes rest -> decodes room (value input room rest) rest.
Proof.
  induction room as [|room IH]; intros rest Hb; [done|]. cbn [value].
  destruct rest as [|initial rest]; [done|]. cbn [read_byte]. apply bytes_cons in Hb as [Hi Hb].
  assert (He : 0 <= Z.land initial 31) by (apply Z.land_nonneg; lia).
  set (extra := Z.land initial 31) in *. set (major := Z.shiftr initial 5).
  destruct (major =? 0).
  { destruct (argument extra rest) as [[n rest']|] eqn:Ea; [|done].
    destruct (argument_leaves _ _ _ _ 0 He Hb Ea) as (Hn & Hb' & _ & Hl). split; [|split; [done|cbn [length to_bytes]; lia]].
    cbn. unfold in_range. rewrite andb_true_iff, !Z.leb_le. lia. }
  destruct (major =? 1).
  { destruct (argument extra rest) as [[n rest']|] eqn:Ea; [|done].
    destruct (argument_leaves _ _ _ _ 1 He Hb Ea) as (Hn & Hb' & _ & Hl). destruct (Z.leb_spec n i64_max); [|done].
    assert (Hneg : negative_argument (-1 - n) = n) by (unfold negative_argument; rewrite wrap_small; lia).
    split; [|split; [done|cbn [length to_bytes]; rewrite Hneg; lia]].
    cbn. unfold in_range. rewrite andb_true_iff, !Z.leb_le. unfold i64_min, i64_max in *. lia. }
  destruct (major =? 2).
  { destruct (take_string input extra rest) as [[s rest']|] eqn:Es; [|done].
    destruct (take_string_leaves _ _ _ _ 2 He Hb Es) as [Hs Hl]. by split. }
  destruct (major =? 3).
  { destruct (take_string input extra rest) as [[s rest']|] eqn:Es; [|done].
    destruct (take_string_leaves _ _ _ _ 3 He Hb Es) as [Hs Hl]. destruct (utf8_valid s) eqn:Eu; [|done].
    split; [cbn; by rewrite Eu|done]. }
  destruct (major =? 4).
  { unfold count. destruct (argument extra rest) as [[n rest1]|] eqn:Ea; [|done].
    destruct (argument_leaves _ _ _ _ 4 He Hb Ea) as (Hn & Hb1 & _ & Hl1).
    destruct (Z.of_nat (length rest1) <? n); [done|].
    pose proof (repeat_value_decodes room _ (Z.to_nat n) IH rest1 Hb1) as Hr.
    destruct (repeat_value _ _ rest1) as [[vs rest2]|]; [|done]. destruct Hr as (Hlen & Hvs & Hb2 & Hl2).
    assert (Hz : Z.of_nat (length vs) = n) by lia. split.
    - cbn [fits]. unfold short. rewrite Hz, Hvs. rewrite andb_true_r. apply Z.ltb_lt. lia.
    - split; [done|]. cbn [to_bytes length]. rewrite length_app, Hz. lia. }
  destruct (major =? 5).
  { unfold count. destruct (argument extra rest) as [[n rest1]|] eqn:Ea; [|done].
    destruct (argument_leaves _ _ _ _ 5 He Hb Ea) as (Hn & Hb1 & _ & Hl1).
    destruct (Z.of_nat (length rest1) <? n); [done|].
    pose proof (repeat_entry_decodes room _ (Z.to_nat n) IH [] rest1 Hb1 ltac:(constructor) eq_refl) as Hr.
    destruct (repeat_entry _ _ [] rest1) as [[m rest2]|]; [|done]. destruct Hr as (Hlen & Hsort & Hm & Hb2 & Hl2).
    rewrite Nat.add_0_r in Hlen. assert (Hz : Z.of_nat (length m) = n) by lia.
    split.
    - cbn [fits]. fold (entry_ok room). unfold short. rewrite Hz. apply sorted_keys_spec in Hsort. rewrite Hsort.
      rewrite Hm. rewrite !andb_true_r. apply Z.ltb_lt. lia.
    - split; [done|]. cbn [to_bytes length]. fold encoded. fold entry_text. rewrite length_app, Hz.
      rewrite (stable_sort_perm _ (map encoded m)). fold (entries_length m). change (entries_length []) with 0%nat in Hl2. lia. }
  destruct (major =? 7); [|done].
  destruct (extra =? 20); [split; [done|split; [done|cbn; lia]]|]. destruct (extra =? 21); [split; [done|split; [done|cbn; lia]]|].
  destruct (_ || _); [split; [done|split; [done|cbn; lia]]|done].
Qed.
End soundness.

(** C20. Encoding and decoding agree: any value the type can hold, nested at most
    sixteen deep, is decoded from its canonical encoding, whatever follows it in
    the buffer; maps come back with the same entries although keys are written in
    another order than they are kept in. *)
Theorem cbor_roundtrip v rest :
  fits (S MAX_DEPTH) v = true -> Z.of_nat (length (to_bytes v ++ rest)) <= usize_max ->
  parse (to_bytes v) = Ok v /\ parse_prefix (to_bytes v ++ rest) = Ok (v, length (to_bytes v)).
Proof.
  intros Hf Hl. rewrite length_app in Hl. unfold parse, parse_prefix. split.
  - pose proof (value_back (to_bytes v) ltac:(lia) v _ Hf []) as H. rewrite app_nil_r in H. by rewrite H.
  - rewrite (value_back (to_bytes v ++ rest) ltac:(rewrite length_app; lia) v _ Hf rest) by done.
    rewrite length_app. do 2 f_equal. lia.
Qed.

Lemma cbor_roundtrip_witness :
  let v := Map [(KInt (-2), Bytes [1; 2]); (KInt 1, Unsigned 500); (KText (lit "fmt"), Array [Null; Negative (-300)])] in
  parse (to_bytes v) = Ok v /\ parse_prefix (to_bytes v ++ [255]) = Ok (v, length (to_bytes v)).
Proof. intros v. apply cbor_roundtrip; [reflexivity|vm_compute; discriminate]. Defined.

(** Whatever bytes arrive, the decoder accepts only values within the bounds
    of their types (strings of valid UTF-8, integers in range, maps with each key
    once, sixteen levels at most), never more than the message holds: the
    canonical encoding of the result is no longer than the message, and decodes
    to the same value. *)
Theorem cbor_decode_sound input v :
  bytes input -> Z.of_nat (length input) <= usize_max -> parse input = Ok v ->
  fits (S MAX_DEPTH) v = true /\ (length (to_bytes v) <= length input)%nat /\ parse (to_bytes v) = Ok v.
Proof.
  intros Hb Hl. unfold parse at 1. pose proof (value_decodes input (S MAX_DEPTH) input Hb) as Hd.
  destruct (value input (S MAX_DEPTH) input) as [[w rest]|]; [|done]. destruct Hd as [Hf [_ Hlen]].
  destruct rest; [|done]. intros [= <-]. cbn [length] in Hlen. split_and!; [done|lia|].
  unfold parse. pose proof (value_back (to_bytes w) ltac:(lia) w _ Hf []) as H. rewrite app_nil_r in H. by rewrite H.
Qed.

Lemma cbor_decode_sound_witness :
  let v := Map [(KInt 1, Unsigned 5)] in
  fits (S MAX_DEPTH) v = true /\ (length (to_bytes v) <= 5)%nat /\ parse (to_bytes v) = Ok v.
Proof.
  intros v. apply (cbor_decode_sound [161; 24; 1; 24; 5] v).
  - apply (bool_decide_eq_true_1 _). reflexivity.
  - vm_compute. discriminate.
  - reflexivity.
Defined.

End CborProofs.
