(* ===== verification/Ledger.v ===== *)
(** * The ledger ([rustlavel-ledger])

    Double-entry credits over a database: accounts, transfers with their two
    entries, holds and expiring lots. The five tables are the [Book]. A statement
    is a function on the book with the SQL's documented meaning: an update works
    on the rows its condition selects, an insert is refused by a unique index, and
    a [bigint] out of range is an error. Columns are the struct fields they are
    read into. A transaction runs as a whole; what its error leaves behind is the
    book it began with. The ids drawn by [id] and the clock are arguments. *)

From S2P Require Import Prelude Text F64 Json Jobs.

Module Ledger.
Import Json.

(** ** Rows *)

Inductive TransferKind := TopUp | Consume | Capture | Expire | Adjust | Refund.

Definition kind_as_str (k : TransferKind) : list Z :=
  match k with
  | TopUp => lit "topup"
  | Consume => lit "consume"
  | Capture => lit "capture"
  | Expire => lit "expire"
  | Adjust => lit "adjust"
  | Refund => lit "refund"
  end.

Definition kind_parse (text : list Z) : option TransferKind :=
  if bool_decide (text = lit "topup") then Some TopUp
  else if bool_decide (text = lit "consume") then Some Consume
  else if bool_decide (text = lit "capture") then Some Capture
  else if bool_decide (text = lit "expire") then Some Expire
  else if bool_decide (text = lit "adjust") then Some Adjust
  else if bool_decide (text = lit "refund") then Some Refund
  else None.

Inductive HoldStatus := Held | Captured | Released.

Definition status_as_str (s : HoldStatus) : list Z :=
  match s with Held => lit "held" | Captured => lit "captured" | Released => lit "released" end.

Definition status_parse (text : list Z) : option HoldStatus :=
  if bool_decide (text = lit "held") then Some Held
  else if bool_decide (text = lit "captured") then Some Captured
  else if bool_decide (text = lit "released") then Some Released
  else None.

#[export] Instance TransferKind_eq_dec : EqDecision TransferKind.
Proof. solve_decision. Defined.
#[export] Instance HoldStatus_eq_dec : EqDecision HoldStatus.
Proof. solve_decision. Defined.

Definition SYSTEM_TOPUP : list Z := lit "system:topup".
Definition SYSTEM_CONSUMPTION : list Z := lit "system:consumption".
Definition SYSTEM_EXPIRY : list Z := lit "system:expiry".

Record Account := mkAccount {
  acc_id : list Z;
  acc_owner : list Z;
  acc_unit : list Z;
  acc_balance : Z;
  acc_held : Z;
  acc_created : Z;
}.

Record Transfer := mkTransfer {
  tr_id : list Z;
  tr_reference : list Z;
  tr_kind : TransferKind;
  tr_from : list Z;
  tr_to : list Z;
  tr_amount : Z;
  tr_created : Z;
  tr_metadata : Json;
}.

Record Entry := mkEntry {
  en_id : Z;
  en_transfer : list Z;
  en_account : list Z;
  en_amount : Z;
  en_balance_after : Z;
  en_kind : TransferKind;
  en_reference : list Z;
  en_created : Z;
}.

Record Hold := mkHold {
  hd_id : list Z;
  hd_account : list Z;
  hd_amount : Z;
  hd_status : HoldStatus;
  hd_reference : list Z;
  hd_created : Z;
  hd_expires : Z;
}.

Record Lot := mkLot {
  lot_id : list Z;
  lot_account : list Z;
  lot_transfer : list Z;
  lot_initial : Z;
  lot_remaining : Z;
  lot_expires : option Z;
  lot_created : Z;
}.

Record Book := mkBook {
  accounts : list Account;
  transfers : list Transfer;
  entries : list Entry;
  holds : list Hold;
  lots : list Lot;
}.

Definition empty_book : Book := mkBook [] [] [] [] [].

(** ** Accounts and what screens show *)

Definition available (a : Account) : Z := acc_balance a - acc_held a.
Definition is_system (a : Account) : bool := starts_with (acc_owner a) (lit "system:").

Record Balance := mkBalance { bal_total : Z; bal_held : Z; bal_available : Z }.
Definition balance_view (a : Account) : Balance := mkBalance (acc_balance a) (acc_held a) (available a).

Definition balance_to_json (b : Balance) : Json :=
  Jobs.object [(lit "total", from_int (bal_total b)); (lit "held", from_int (bal_held b));
               (lit "available", from_int (bal_available b))].
Definition transfer_to_json (t : Transfer) : Json :=
  Jobs.object [(lit "id", String (tr_id t)); (lit "reference", String (tr_reference t));
               (lit "kind", String (kind_as_str (tr_kind t))); (lit "from", String (tr_from t));
               (lit "to", String (tr_to t)); (lit "amount", from_int (tr_amount t));
               (lit "created_at", from_int (Jobs.to_i64 (tr_created t))); (lit "metadata", tr_metadata t)].
Definition entry_to_json (e : Entry) : Json :=
  Jobs.object [(lit "id", from_int (en_id e)); (lit "transfer_id", String (en_transfer e));
               (lit "amount", from_int (en_amount e)); (lit "balance_after", from_int (en_balance_after e));
               (lit "kind", String (kind_as_str (en_kind e))); (lit "reference", String (en_reference e));
               (lit "created_at", from_int (Jobs.to_i64 (en_created e)))].
Definition hold_to_json (h : Hold) : Json :=
  Jobs.object [(lit "id", String (hd_id h)); (lit "account_id", String (hd_account h));
               (lit "amount", from_int (hd_amount h)); (lit "status", String (status_as_str (hd_status h)));
               (lit "reference", String (hd_reference h)); (lit "created_at", from_int (Jobs.to_i64 (hd_created h)));
               (lit "expires_at", from_int (Jobs.to_i64 (hd_expires h)))].

(** A row's times are stored as [i64] and read back as [u64], never negative. *)
Definition account_from (r : Account) : Account :=
  mkAccount (acc_id r) (acc_owner r) (acc_unit r) (acc_balance r) (acc_held r) (Z.max (acc_created r) 0).
Definition transfer_from (r : Transfer) : Transfer :=
  mkTransfer (tr_id r) (tr_reference r) (tr_kind r) (tr_from r) (tr_to r) (tr_amount r) (Z.max (tr_created r) 0) (tr_metadata r).
Definition entry_from (r : Entry) : Entry :=
  mkEntry (en_id r) (en_transfer r) (en_account r) (en_amount r) (en_balance_after r) (en_kind r) (en_reference r)
    (Z.max (en_created r) 0).
Definition hold_from (r : Hold) : Hold :=
  mkHold (hd_id r) (hd_account r) (hd_amount r) (hd_status r) (hd_reference r) (Z.max (hd_created r) 0) (Z.max (hd_expires r) 0).

(** [id]: the time in nanoseconds, a process-wide counter and the process id. *)
Definition id (prefix : list Z) (nanos counter pid : Z) : list Z :=
  prefix ++ lit "_" ++ hex_lower nanos ++ hex_lower counter ++ hex_lower pid.

(** ** Errors *)

Inductive LedgerError :=
  | NotPositive (amount : Z)
  | Insufficient (owner : list Z) (wanted had : Z)
  | LostRace
  | NoAccount (owner : list Z)
  | NoAccountInTransaction (owner : list Z)
  | AccountMissing (account_id : list Z)
  | HoldVanished (hold_id : list Z)
  | AlreadyCaptured (hold_id : list Z)
  | AlreadyDone (hold_id : list Z) (status : HoldStatus)
  | NoHold (hold_id : list Z)
  | LotWithoutAccount (lot_id : list Z)
  | UniqueViolation
  | OutOfRange.

Definition positive (amount : Z) : result LedgerError () :=
  if amount <=? 0 then Err (NotPositive amount) else Ok tt.

(** ** Statements *)

Definition with_accounts (b : Book) (l : list Account) : Book := mkBook l (transfers b) (entries b) (holds b) (lots b).
Definition with_transfers (b : Book) (l : list Transfer) : Book := mkBook (accounts b) l (entries b) (holds b) (lots b).
Definition with_entries (b : Book) (l : list Entry) : Book := mkBook (accounts b) (transfers b) l (holds b) (lots b).
Definition with_holds (b : Book) (l : list Hold) : Book := mkBook (accounts b) (transfers b) (entries b) l (lots b).
Definition with_lots (b : Book) (l : list Lot) : Book := mkBook (accounts b) (transfers b) (entries b) (holds b) l.

Definition in_i64 (z : Z) : bool := (i64_min <=? z) && (z <=? i64_max).

Definition shift (db dh : Z) (a : Account) : Account :=
  mkAccount (acc_id a) (acc_owner a) (acc_unit a) (acc_balance a + db) (acc_held a + dh) (acc_created a).

(** [update ledger_accounts set balance = balance + db, held = held + dh where
    account_id = key and guard]: the rows after it, and how many it changed. *)
Fixpoint move_rows (key : list Z) (guard : Account -> bool) (db dh : Z) (l : list Account)
    : result LedgerError (nat * list Account) :=
  match l with
  | [] => Ok (O, [])
  | a :: l =>
      let? (n, l') := move_rows key guard db dh l in
      if bool_decide (acc_id a = key) && guard a then
        if in_i64 (acc_balance a + db) && in_i64 (acc_held a + dh) then Ok (S n, shift db dh a :: l') else Err OutOfRange
      else Ok (n, a :: l')
  end.

Definition move_account (key : list Z) (guard : Account -> bool) (db dh : Z) (b : Book) : result LedgerError (nat * Book) :=
  let? (n, l) := move_rows key guard db dh (accounts b) in Ok (n, with_accounts b l).

Definition covers (amount : Z) (a : Account) : bool := amount <=? acc_balance a - acc_held a.

Definition debit_available (key : list Z) (amount : Z) (b : Book) : result LedgerError (bool * Book) :=
  let? (n, b) := move_account key (covers amount) (- amount) 0 b in Ok ((n =? 1)%nat, b).
Definition debit_unchecked (key : list Z) (amount : Z) (b : Book) : result LedgerError Book :=
  let? (_, b) := move_account key (fun _ => true) (- amount) 0 b in Ok b.
Definition credit (key : list Z) (amount : Z) (b : Book) : result LedgerError Book :=
  let? (_, b) := move_account key (fun _ => true) amount 0 b in Ok b.

Definition balance_of (key : list Z) (b : Book) : result LedgerError Z :=
  match find (fun a => bool_decide (acc_id a = key)) (accounts b) with
  | Some a => Ok (acc_balance a)
  | None => Err (AccountMissing key)
  end.

Definition insert_account (a : Account) (b : Book) : result LedgerError Book :=
  if existsb (fun r => bool_decide (acc_id r = acc_id a) ||
                       (bool_decide (acc_owner r = acc_owner a) && bool_decide (acc_unit r = acc_unit a))) (accounts b)
  then Err UniqueViolation else Ok (with_accounts b (accounts b ++ [a])).
Definition insert_transfer (t : Transfer) (b : Book) : result LedgerError Book :=
  if existsb (fun r => bool_decide (tr_id r = tr_id t) || bool_decide (tr_reference r = tr_reference t)) (transfers b)
  then Err UniqueViolation else Ok (with_transfers b (transfers b ++ [t])).
Definition insert_hold (h : Hold) (b : Book) : result LedgerError Book :=
  if existsb (fun r => bool_decide (hd_id r = hd_id h) || bool_decide (hd_reference r = hd_reference h)) (holds b)
  then Err UniqueViolation else Ok (with_holds b (holds b ++ [h])).
Definition insert_lot (t : Lot) (b : Book) : result LedgerError Book :=
  if existsb (fun r => bool_decide (lot_id r = lot_id t)) (lots b)
  then Err UniqueViolation else Ok (with_lots b (lots b ++ [t])).
(** The key of an entry is generated; nothing deletes entries. *)
Definition insert_entry (e : Entry) (b : Book) : Book :=
  with_entries b (entries b ++ [mkEntry (Z.of_nat (S (length (entries b)))) (en_transfer e) (en_account e) (en_amount e)
                                  (en_balance_after e) (en_kind e) (en_reference e) (en_created e)]).

(** [update ledger_holds set status = s where hold_id = key and status = 'held']. *)
Definition settles (key : list Z) (h : Hold) : bool := bool_decide (hd_id h = key) && bool_decide (hd_status h = Held).
Definition settle_hold (s : HoldStatus) (key : list Z) (b : Book) : nat * Book :=
  (length (List.filter (settles key) (holds b)),
   with_holds b (map (fun h => if settles key h
      then mkHold (hd_id h) (hd_account h) (hd_amount h) s (hd_reference h) (hd_created h) (hd_expires h) else h) (holds b))).
Definition find_hold (key : list Z) (b : Book) : option Hold := find (fun h => bool_decide (hd_id h = key)) (holds b).

(** [update ledger_lots set remaining = f remaining where lot_id = key and guard]. *)
Definition set_remaining (r : Z) (t : Lot) : Lot :=
  mkLot (lot_id t) (lot_account t) (lot_transfer t) (lot_initial t) r (lot_expires t) (lot_created t).
Definition update_lots (p : Lot -> bool) (f : Z -> Z) (l : list Lot) : nat * list Lot :=
  (length (List.filter p l), map (fun t => if p t then set_remaining (f (lot_remaining t)) t else t) l).

(** ** Lots *)

Definition lot_key_le (s t : Lot) : bool :=
  match lot_expires s, lot_expires t with
  | Some x, Some y => x <=? y
  | Some _, None => true
  | None, Some _ => false
  | None, None => true
  end.

Fixpoint draw_each (selected : list Lot) (amount : Z) (l : list Lot) : list Lot :=
  match selected with
  | [] => l
  | s :: selected =>
      if amount <=? 0 then l
      else
        let take := Z.min (lot_remaining s) amount in
        let '(n, l) := update_lots (fun t => bool_decide (lot_id t = lot_id s) && (take <=? lot_remaining t)) (fun r => r - take) l in
        draw_each selected (if (n =? 1)%nat then amount - take else amount) l
  end.

Definition draw_lots (account_id : list Z) (amount : Z) (b : Book) : Book :=
  let selected := List.filter (fun t => bool_decide (lot_account t = account_id) && (0 <? lot_remaining t)) (lots b) in
  with_lots b (draw_each (stable_sort lot_key_le selected) amount (lots b)).

Section Book.
(** What the accounts count. *)
Context (unit : list Z).
(** Whether a failed statement aborts its transaction, as PostgreSQL documents:
    committing it then undoes it. Elsewhere only the statement fails. *)
Context (aborts : bool).

(** ** Accounts by owner *)

Definition owned (owner : list Z) (a : Account) : bool :=
  bool_decide (acc_owner a = owner) && bool_decide (acc_unit a = unit).
Definition find_account (owner : list Z) (b : Book) : option Account :=
  account_from <$> find (owned owner) (accounts b).
Definition account_in (owner : list Z) (b : Book) : result LedgerError Account :=
  match find_account owner b with Some a => Ok a | None => Err (NoAccountInTransaction owner) end.

Fixpoint ensure_attempts (owner : list Z) (draws : list (list Z * Z)) (last_error : option LedgerError) (b : Book)
    : result LedgerError () * Book :=
  match draws with
  | [] => (Err (default (NoAccount owner) last_error), b)
  | (fresh, created) :: draws =>
      match find_account owner b with
      | Some _ => (Ok tt, b)
      | None =>
          match insert_account (mkAccount fresh owner unit 0 0 (Jobs.to_i64 created)) b with
          | Ok b => (Ok tt, b)
          | Err e => ensure_attempts owner draws (Some e) b
          end
      end
  end.
(** [draws]: the id and the time each of the five attempts draws. *)
Definition ensure_account (owner : list Z) (draws : list (list Z * Z)) (b : Book) : result LedgerError () * Book :=
  ensure_attempts owner (take 5 draws) None b.

(** ** Recording a transfer *)

Definition record_side (t : Transfer) (account_id : list Z) (signed now : Z) (b : Book) : result LedgerError Book :=
  let? after := balance_of account_id b in
  Ok (insert_entry (mkEntry 0 (tr_id t) account_id signed after (tr_kind t) (tr_reference t) (Jobs.to_i64 now)) b).

Definition record (kind : TransferKind) (reference from to : list Z) (amount : Z) (metadata : Json) (now : Z) (fresh : list Z)
    (b : Book) : result LedgerError (option Transfer * Book) :=
  let transfer := mkTransfer fresh reference kind from to amount now metadata in
  match insert_transfer (mkTransfer fresh reference kind from to amount (Jobs.to_i64 now) metadata) b with
  | Err _ => Ok (None, b)
  | Ok b =>
      let? b := record_side transfer from (- amount) now b in
      let? b := record_side transfer to amount now b in
      Ok (Some transfer, b)
  end.

(** ** Reading *)

Definition transfer (reference : list Z) (b : Book) : option Transfer :=
  transfer_from <$> find (fun t => bool_decide (tr_reference t = reference)) (transfers b).
Definition hold_by_reference (reference : list Z) (b : Book) : option Hold :=
  hold_from <$> find (fun h => bool_decide (hd_reference h = reference)) (holds b).

Definition account (owner : list Z) (draws : list (list Z * Z)) (b : Book) : result LedgerError Account * Book :=
  match ensure_account owner draws b with
  | (Err e, b) => (Err e, b)
  | (Ok _, b) => (match find_account owner b with Some a => Ok a | None => Err (NoAccount owner) end, b)
  end.

Definition balance (owner : list Z) (draws : list (list Z * Z)) (b : Book) : result LedgerError Balance * Book :=
  let '(r, b) := account owner draws b in (let? a := r in Ok (balance_view a), b).

Definition history (owner : list Z) (limit : Z) (draws : list (list Z * Z)) (b : Book) : result LedgerError (list Entry) * Book :=
  let '(r, b) := account owner draws b in
  (let? a := r in
   let rows := List.filter (fun e => bool_decide (en_account e = acc_id a)) (entries b) in
   Ok (map entry_from (take (Z.to_nat (Z.min (Z.max limit 1) 1000)) (stable_sort (fun x y => en_id y <=? en_id x) rows))), b).

(** ** Money in *)

(** The part of [top_up] between [begin] and [commit]; [None] when the reference
    is taken. *)
Definition top_up_in (owner : list Z) (amount : Z) (reference : list Z) (expires_in : option Z) (now : Z) (fresh lot : list Z)
    (b : Book) : result LedgerError (option Transfer * Book) :=
  let? to := account_in owner b in
  let? from := account_in SYSTEM_TOPUP b in
  let? b := debit_unchecked (acc_id from) amount b in
  let? b := credit (acc_id to) amount b in
  let? (t, b) := record TopUp reference (acc_id from) (acc_id to) amount Null now fresh b in
  match t with
  | None => Ok (None, b)
  | Some t =>
      let? b := insert_lot (mkLot lot (acc_id to) (tr_id t) amount amount
                              (match expires_in with Some d => Some (Jobs.to_i64 (u64 (now + d))) | None => None end)
                              (Jobs.to_i64 now)) b in
      Ok (Some t, b)
  end.

(** How an operation ends: committed, rolled back because another call won the
    reference, or undone by an error. *)
Definition finish {A} (tx : result LedgerError (option A * Book)) (winner : Book -> option A) (b : Book)
    : result LedgerError A * Book :=
  match tx with
  | Ok (Some t, b') => (Ok t, b')
  | Ok (None, _) => (match winner b with Some t => Ok t | None => Err LostRace end, b)
  | Err e => (Err e, b)
  end.

Definition top_up (owner : list Z) (amount : Z) (reference : list Z) (expires_in : option Z) (now : Z) (fresh lot : list Z)
    (draws system_draws : list (list Z * Z)) (b : Book) : result LedgerError Transfer * Book :=
  match positive amount with
  | Err e => (Err e, b)
  | Ok _ =>
      match transfer reference b with
      | Some existing => (Ok existing, b)
      | None =>
          match ensure_account owner draws b with
          | (Err e, b) => (Err e, b)
          | (Ok _, b) =>
              match ensure_account SYSTEM_TOPUP system_draws b with
              | (Err e, b) => (Err e, b)
              | (Ok _, b) => finish (top_up_in owner amount reference expires_in now fresh lot b) (transfer reference) b
              end
          end
      end
  end.

(** ** Money out *)

Definition consume_in (owner : list Z) (amount : Z) (reference : list Z) (now : Z) (fresh : list Z) (b : Book)
    : result LedgerError (option Transfer * Book) :=
  let? from := account_in owner b in
  let? to := account_in SYSTEM_CONSUMPTION b in
  let? (debited, b) := debit_available (acc_id from) amount b in
  if negb debited then Err (Insufficient owner amount (available from))
  else
    let? b := credit (acc_id to) amount b in
    let b := draw_lots (acc_id from) amount b in
    record Consume reference (acc_id from) (acc_id to) amount Null now fresh b.

Definition consume (owner : list Z) (amount : Z) (reference : list Z) (now : Z) (fresh : list Z)
    (draws system_draws : list (list Z * Z)) (b : Book) : result LedgerError Transfer * Book :=
  match positive amount with
  | Err e => (Err e, b)
  | Ok _ =>
      match transfer reference b with
      | Some existing => (Ok existing, b)
      | None =>
          match ensure_account owner draws b with
          | (Err e, b) => (Err e, b)
          | (Ok _, b) =>
              match ensure_account SYSTEM_CONSUMPTION system_draws b with
              | (Err e, b) => (Err e, b)
              | (Ok _, b) => finish (consume_in owner amount reference now fresh b) (transfer reference) b
              end
          end
      end
  end.

Definition hold_in (owner : list Z) (amount : Z) (reference : list Z) (ttl now : Z) (fresh : list Z) (b : Book)
    : result LedgerError (option Hold * Book) :=
  let? account := account_in owner b in
  let? (reserved, b) := move_account (acc_id account) (covers amount) 0 amount b in
  if (reserved =? 0)%nat then Err (Insufficient owner amount (available account))
  else
    let hold := mkHold fresh (acc_id account) amount Held reference now (u64 (now + ttl)) in
    match insert_hold (mkHold fresh (acc_id account) amount Held reference (Jobs.to_i64 now)
                         (Jobs.to_i64 (u64 (now + ttl)))) b with
    | Err _ => Ok (None, b)
    | Ok b => Ok (Some hold, b)
    end.

Definition hold (owner : list Z) (amount : Z) (reference : list Z) (ttl now : Z) (fresh : list Z)
    (draws : list (list Z * Z)) (b : Book) : result LedgerError Hold * Book :=
  match positive amount with
  | Err e => (Err e, b)
  | Ok _ =>
      match hold_by_reference reference b with
      | Some existing => (Ok existing, b)
      | None =>
          match ensure_account owner draws b with
          | (Err e, b) => (Err e, b)
          | (Ok _, b) => finish (hold_in owner amount reference ttl now fresh b) (hold_by_reference reference) b
          end
      end
  end.

Definition hold_not_held (hold_id : list Z) (b : Book) : LedgerError :=
  match find_hold hold_id b with
  | Some h => AlreadyDone hold_id (hd_status h)
  | None => NoHold hold_id
  end.

(** [None] when the hold is not [Held]. *)
Definition capture_in (hold_id : list Z) (now : Z) (fresh : list Z) (b : Book)
    : result LedgerError (option Transfer * Book) :=
  let '(won, b) := settle_hold Captured hold_id b in
  if (won =? 0)%nat then Ok (None, b)
  else
    match find_hold hold_id b with
    | None => Err (HoldVanished hold_id)
    | Some h =>
        let h := hold_from h in
        let? to := account_in SYSTEM_CONSUMPTION b in
        let? (_, b) := move_account (hd_account h) (fun _ => true) (- hd_amount h) (- hd_amount h) b in
        let? b := credit (acc_id to) (hd_amount h) b in
        let b := draw_lots (hd_account h) (hd_amount h) b in
        let? (t, b) := record Capture (lit "capture:" ++ hd_reference h) (hd_account h) (acc_id to) (hd_amount h)
                         (Jobs.object [(lit "hold", String (hd_id h))]) now fresh b in
        match t with
        | Some t => Ok (Some t, b)
        | None => Err (AlreadyCaptured hold_id)
        end
    end.

Definition capture (hold_id : list Z) (now : Z) (fresh : list Z) (system_draws : list (list Z * Z)) (b : Book)
    : result LedgerError Transfer * Book :=
  match ensure_account SYSTEM_CONSUMPTION system_draws b with
  | (Err e, b) => (Err e, b)
  | (Ok _, b) =>
      match capture_in hold_id now fresh b with
      | Ok (Some t, b') => (Ok t, b')
      | Ok (None, _) => (Err (hold_not_held hold_id b), b)
      | Err e => (Err e, b)
      end
  end.

Definition release_in (hold_id : list Z) (b : Book) : result LedgerError (bool * Book) :=
  let '(won, b) := settle_hold Released hold_id b in
  if (won =? 0)%nat then Ok (false, b)
  else
    match find_hold hold_id b with
    | None => Err (HoldVanished hold_id)
    | Some h =>
        let h := hold_from h in
        let? (_, b) := move_account (hd_account h) (fun _ => true) 0 (- hd_amount h) b in
        Ok (true, b)
    end.

Definition release (hold_id : list Z) (b : Book) : result LedgerError () * Book :=
  match release_in hold_id b with
  | Ok (true, b') => (Ok tt, b')
  | Ok (false, _) => (Err (hold_not_held hold_id b), b)
  | Err e => (Err e, b)
  end.

(** ** Housekeeping *)

Record Sweep := mkSweep { holds_released : nat; lots_expired : nat; amount_expired : Z }.

Fixpoint release_stale (stale : list Hold) (s : Sweep) (b : Book) : result LedgerError Sweep * Book :=
  match stale with
  | [] => (Ok s, b)
  | h :: stale =>
      match release_in (hd_id h) b with
      | Err e => (Err e, b)
      | Ok (released, b) =>
          release_stale stale (mkSweep (if released then S (holds_released s) else holds_released s) (lots_expired s) (amount_expired s)) b
      end
  end.

(** What the expiry transaction reads first: the lot's remainder and what its
    account has available; [None] when nothing remains. *)
Definition expire_read (key account_id : list Z) (b : Book) : result LedgerError (option (Z * Z)) :=
  match find (fun t => bool_decide (lot_id t = key) && (0 <? lot_remaining t)) (lots b) with
  | None => Ok None
  | Some t =>
      match find (fun a => bool_decide (acc_id a = account_id)) (accounts b) with
      | None => Err (LotWithoutAccount key)
      | Some a => Ok (Some (lot_remaining t, available (account_from a)))
      end
  end.

(** What it writes: the amount expired, whether its transfer was recorded, and the
    book. *)
Definition expire_write (key account_id : list Z) (seen : Z * Z) (now : Z) (fresh : list Z) (b : Book)
    : result LedgerError (Z * bool * Book) :=
  let '(remaining, had) := seen in
  let amount := Z.max (Z.min remaining had) 0 in
  let b := with_lots b (update_lots (fun t => bool_decide (lot_id t = key)) (fun _ => 0) (lots b)).2 in
  if amount <=? 0 then Ok (0, true, b)
  else
    let? to := account_in SYSTEM_EXPIRY b in
    let? (debited, b) := debit_available account_id amount b in
    if negb debited then Ok (0, true, b)
    else
      let? b := credit (acc_id to) amount b in
      let? (t, b) := record Expire (lit "expire:" ++ key) account_id (acc_id to) amount
                       (Jobs.object [(lit "lot", String key)]) now fresh b in
      Ok (amount, bool_decide (is_Some t), b).

(** [commit]: a transaction with a failed statement may be undone instead. *)
Definition commit (clean : bool) (start b : Book) : Book := if negb clean && aborts then start else b.

Fixpoint expire_dead (dead : list Lot) (now : Z) (ids : list (list Z)) (s : Sweep) (b : Book) : result LedgerError Sweep * Book :=
  match dead with
  | [] => (Ok s, b)
  | d :: dead =>
      match expire_read (lot_id d) (lot_account d) b with
      | Err e => (Err e, b)
      | Ok None => expire_dead dead now ids s b
      | Ok (Some seen) =>
          match expire_write (lot_id d) (lot_account d) seen now (hd [] ids) b with
          | Err e => (Err e, b)
          | Ok (amount, clean, b') =>
              expire_dead dead now (tail ids)
                (mkSweep (holds_released s) (S (lots_expired s)) (Jobs.to_i64 (amount_expired s + amount))) (commit clean b b')
          end
      end
  end.

Definition stale_hold (now : Z) (h : Hold) : bool := bool_decide (hd_status h = Held) && (hd_expires h <=? Jobs.to_i64 now).
Definition dead_lot (now : Z) (t : Lot) : bool :=
  match lot_expires t with Some e => (e <=? Jobs.to_i64 now) && (0 <? lot_remaining t) | None => false end.

(** [ids]: the ids drawn for the transfers. *)
Definition sweep (now : Z) (ids : list (list Z)) (system_draws : list (list Z * Z)) (b : Book) : result LedgerError Sweep * Book :=
  match ensure_account SYSTEM_EXPIRY system_draws b with
  | (Err e, b) => (Err e, b)
  | (Ok _, b) =>
      match release_stale (List.filter (stale_hold now) (holds b)) (mkSweep 0 0 0) b with
      | (Err e, b) => (Err e, b)
      | (Ok s, b) => expire_dead (List.filter (dead_lot now) (lots b)) now ids s b
      end
  end.

(** ** Audit *)

Inductive Problem :=
  | EntriesDiffer (owner : list Z) (balance total : Z)
  | HeldWrong (owner : list Z) (held balance : Z)
  | Unbalanced (sum : Z).

(** Sums of [i64]: they wrap, as in a release build. *)
Definition entries_total (key : list Z) (b : Book) : Z :=
  fold_left (fun total e => Jobs.to_i64 (total + en_amount e))
    (List.filter (fun e => bool_decide (en_account e = key)) (entries b)) 0.

Definition audit_account (b : Book) (a : Account) : list Problem :=
  (if entries_total (acc_id a) b =? acc_balance a then []
   else [EntriesDiffer (acc_owner a) (acc_balance a) (entries_total (acc_id a) b)]) ++
  (if (acc_held a <? 0) || ((Z.max (acc_balance a) 0 <? acc_held a) && negb (is_system a))
   then [HeldWrong (acc_owner a) (acc_held a) (acc_balance a)] else []).

Definition audit (b : Book) : list Problem :=
  let mine := List.filter (fun a => bool_decide (acc_unit a = unit)) (accounts b) in
  let sum := fold_left (fun sum a => Jobs.to_i64 (sum + acc_balance a)) mine 0 in
  concat (map (audit_account b) mine) ++ (if sum =? 0 then [] else [Unbalanced sum]).

End Book.

(** ** A run *)

Section Run.
Let u := lit "credits".
Let d (s : string) : list (list Z * Z) := repeat (lit s, 100) 5.
Let topped : Book := (top_up u (lit "user:1") 100 (lit "pay1") (Some 50) 100 (lit "t1") (lit "l1") (d "a1") (d "a2") empty_book).2.
Let reserved : Book := (hold u (lit "user:1") 30 (lit "job") 10 101 (lit "h1") (d "x") topped).2.
Let spent : Book := (consume u (lit "user:1") 60 (lit "buy") 102 (lit "t2") (d "x") (d "a3") reserved).2.

Example ledger_runs :
  balance u (lit "user:1") (d "x") spent = (Ok (mkBalance 40 30 10), spent) /\
  (consume u (lit "user:1") 11 (lit "more") 103 (lit "t3") (d "x") (d "x") spent).1 = Err (Insufficient (lit "user:1") 11 10) /\
  top_up u (lit "user:1") 100 (lit "pay1") None 103 (lit "t4") (lit "l2") (d "x") (d "x") spent =
    (Ok (mkTransfer (lit "t1") (lit "pay1") TopUp (lit "a2") (lit "a1") 100 100 Null), spent) /\
  map lot_remaining (lots spent) = [40] /\
  (let '(r, b) := capture u (lit "h1") 104 (lit "t5") (d "x") spent in
   (match r with Ok t => tr_amount t | Err _ => 0 end) = 30 /\
   (capture u (lit "h1") 105 (lit "t6") (d "x") b).1 = Err (AlreadyDone (lit "h1") Captured) /\
   audit u b = [] /\
   (let '(r, b) := sweep u false 150 [lit "t7"] (d "a4") b in
    r = Ok (mkSweep 0 1 10) /\ map acc_balance (accounts b) = [0; -100; 90; 10] /\ audit u b = [])) /\
  (sweep u false 150 [lit "t7"] (d "a4") spent).1 = Ok (mkSweep 1 1 40).
Proof. vm_compute. split_and!; reflexivity. Qed.
End Run.
End Ledger.
