(* ===== verification/LedgerProofs.v ===== *)
(** * Correctness of the ledger

    The invariant of the book, that every transaction keeps it in any
    interleaving, and what follows: the audit finds nothing, nobody overspends,
    a reference moves value once. *)

From S2P Require Import Prelude Text F64 Json Jobs Ledger.

Module LedgerProofs.
Import Ledger.

(** ** Sums over tables *)

Section sums.
Context {A : Type}.
Implicit Types (f g : A -> Z) (l : list A).

Definition sum_of f l : Z := foldr (fun a s => f a + s) 0 l.
Definition picked (p : A -> bool) f : A -> Z := fun a => if p a then f a else 0.

Lemma sum_of_cons f a l : sum_of f (a :: l) = f a + sum_of f l.
Proof. done. Qed.

Lemma sum_of_app f l l' : sum_of f (l ++ l') = sum_of f l + sum_of f l'.
Proof. induction l as [|a l IH]; [done|]. rewrite <- app_comm_cons, !sum_of_cons, IH. lia. Qed.

Lemma sum_of_ext f g l : (forall a, a ∈ l -> f a = g a) -> sum_of f l = sum_of g l.
Proof.
  induction l as [|a l IH]; intros H; [done|]. rewrite !sum_of_cons.
  rewrite (H a) by constructor. rewrite IH; [done|]. intros x Hx. apply H. by constructor.
Qed.

Lemma sum_of_map f (h : A -> A) l : sum_of f (map h l) = sum_of (fun a => f (h a)) l.
Proof. induction l as [|a l IH]; [done|]. cbn [map]. by rewrite !sum_of_cons, IH. Qed.

Lemma sum_of_add f g l : sum_of (fun a => f a + g a) l = sum_of f l + sum_of g l.
Proof. induction l as [|a l IH]; [done|]. rewrite !sum_of_cons, IH. lia. Qed.

Lemma sum_of_nonneg f l : (forall a, a ∈ l -> 0 <= f a) -> 0 <= sum_of f l.
Proof.
  induction l as [|a l IH]; intros H; [cbn; lia|]. rewrite sum_of_cons.
  pose proof (H a ltac:(constructor)). assert (0 <= sum_of f l) by (apply IH; intros x Hx; apply H; by constructor). lia.
Qed.

Lemma sum_of_zero f l : (forall a, a ∈ l -> f a = 0) -> sum_of f l = 0.
Proof.
  intros H. rewrite (sum_of_ext f (fun _ => 0)) by done. clear H. induction l; [done|]. by rewrite sum_of_cons, IHl.
Qed.

Lemma sum_of_le_one f l a : (forall x, x ∈ l -> 0 <= f x) -> a ∈ l -> f a <= sum_of f l.
Proof.
  intros H Ha. apply list_elem_of_split in Ha as (l1 & l2 & ->). rewrite sum_of_app, sum_of_cons.
  assert (0 <= sum_of f l1) by (apply sum_of_nonneg; intros; apply H; set_solver).
  assert (0 <= sum_of f l2) by (apply sum_of_nonneg; intros; apply H; set_solver). lia.
Qed.

(** A function that is zero on all rows but one. *)
Lemma sum_of_single f l (key : A -> list Z) a :
  NoDup (map key l) -> a ∈ l -> (forall x, x ∈ l -> key x <> key a -> f x = 0) -> sum_of f l = f a.
Proof.
  intros Hnd Ha Hf. apply list_elem_of_split in Ha as (l1 & l2 & ->).
  rewrite map_app in Hnd. cbn in Hnd. apply list.NoDup_app in Hnd as (_ & Hd & Hnd). apply list.NoDup_cons in Hnd as [Hn _].
  rewrite sum_of_app, sum_of_cons.
  rewrite (sum_of_zero f l1), (sum_of_zero f l2); [lia| |].
  - intros x Hx. apply Hf; [set_solver|]. intros E. apply Hn. rewrite <- E. apply list_elem_of_In, in_map, list_elem_of_In, Hx.
  - intros x Hx. apply Hf; [set_solver|]. intros E. apply (Hd (key x)); [apply list_elem_of_In, in_map, list_elem_of_In, Hx|].
    rewrite E. constructor.
Qed.
End sums.

Lemma key_unique {A K} (key : A -> K) l a b : NoDup (map key l) -> a ∈ l -> b ∈ l -> key a = key b -> a = b.
Proof.
  induction l as [|x l IH]; cbn; intros Hnd Ha Hb E; [by apply elem_of_nil in Ha|].
  apply list.NoDup_cons in Hnd as [Hx Hnd].
  assert (Hin : forall y, y ∈ l -> key y ∈ map key l) by (intros y Hy; apply list_elem_of_In, in_map, list_elem_of_In, Hy).
  apply elem_of_cons in Ha as [->|Ha], Hb as [->|Hb]; [done| | |by apply IH].
  - destruct Hx. rewrite E. auto.
  - destruct Hx. rewrite <- E. auto.
Qed.

Lemma find_elem {A} (p : A -> bool) l a : find p l = Some a -> a ∈ l /\ p a = true.
Proof. intros H. apply find_some in H as [H1 H2]. split; [by apply list_elem_of_In|done]. Qed.

Lemma find_miss {A} (p : A -> bool) l a : find p l = None -> a ∈ l -> p a = false.
Proof. intros H Ha. eapply find_none; [exact H|]. by apply list_elem_of_In. Qed.

Lemma existsb_miss {A} (p : A -> bool) l a : existsb p l = false -> a ∈ l -> p a = false.
Proof.
  intros H Ha. destruct (p a) eqn:E; [|done]. rewrite <- H. symmetry. apply existsb_exists.
  exists a. split; [by apply list_elem_of_In|done].
Qed.

(** ** Moving balances *)

(** [v] on the account [k], nothing elsewhere. *)
Definition point (k : list Z) (v : Z) (x : list Z) : Z := if bool_decide (x = k) then v else 0.

Lemma point_same k v : point k v k = v.
Proof. unfold point. by rewrite bool_decide_true. Qed.

Definition moved (db dh : list Z -> Z) (l : list Account) : list Account :=
  map (fun a => shift (db (acc_id a)) (dh (acc_id a)) a) l.

Lemma shift_shift d1 h1 d2 h2 a : shift d1 h1 (shift d2 h2 a) = shift (d2 + d1) (h2 + h1) a.
Proof. destruct a. unfold shift. cbn. f_equal; lia. Qed.

Lemma shift_0 a : shift 0 0 a = a.
Proof. destruct a. unfold shift. cbn. f_equal; lia. Qed.

Lemma moved_moved d1 h1 d2 h2 l :
  moved d1 h1 (moved d2 h2 l) = moved (fun x => d2 x + d1 x) (fun x => h2 x + h1 x) l.
Proof. unfold moved. rewrite map_map. apply map_ext. intros a. rewrite shift_shift. done. Qed.

Lemma moved_ids db dh l : map acc_id (moved db dh l) = map acc_id l.
Proof. unfold moved. rewrite map_map. done. Qed.

Definition owner_unit (a : Account) : list Z * list Z := (acc_owner a, acc_unit a).
Lemma moved_owners db dh l : map owner_unit (moved db dh l) = map owner_unit l.
Proof. unfold moved. rewrite map_map. done. Qed.

Lemma elem_of_moved db dh l a' :
  a' ∈ moved db dh l <-> exists a, a ∈ l /\ a' = shift (db (acc_id a)) (dh (acc_id a)) a.
Proof.
  unfold moved. rewrite list_elem_of_In, in_map_iff. split; intros (a & H1 & H2); exists a.
  - split; [by apply list_elem_of_In|done].
  - split; [done|by apply list_elem_of_In].
Qed.

Lemma moved_miss k db dh l : (forall a, a ∈ l -> acc_id a <> k) -> moved (point k db) (point k dh) l = l.
Proof.
  intros H. unfold moved. rewrite <- (map_id l) at 2. apply map_ext_in. intros a Ha%list_elem_of_In.
  unfold point. rewrite bool_decide_false by auto. apply shift_0.
Qed.

Definition width (a : Account) : Prop := i64_min <= acc_balance a <= i64_max /\ i64_min <= acc_held a <= i64_max.

Lemma in_i64_spec z : in_i64 z = true <-> i64_min <= z <= i64_max.
Proof. unfold in_i64. lia. Qed.

Lemma move_rows_spec key guard db dh l n l' :
  NoDup (map acc_id l) -> move_rows key guard db dh l = Ok (n, l') ->
  (n = 0%nat /\ l' = l /\ forall a, a ∈ l -> acc_id a = key -> guard a = false) \/
  (n = 1%nat /\ l' = moved (point key db) (point key dh) l /\
   exists a, a ∈ l /\ acc_id a = key /\ guard a = true /\ width (shift db dh a)).
Proof.
  revert n l'. induction l as [|a l IH]; intros n l' Hnd; cbn [move_rows].
  { intros [= <- <-]. left. split_and!; [done..|]. by intros ? ?%elem_of_nil. }
  destruct (move_rows key guard db dh l) as [[m r]|] eqn:E; [|done].
  apply list.NoDup_cons in Hnd as [Hn Hnd]. specialize (IH m r Hnd eq_refl).
  assert (Hin : forall y, y ∈ l -> acc_id y ∈ map acc_id l) by (intros y Hy; apply list_elem_of_In, in_map, list_elem_of_In, Hy).
  destruct (bool_decide (acc_id a = key)) eqn:Ek; [apply bool_decide_eq_true in Ek|apply bool_decide_eq_false in Ek]; cbn [andb].
  - assert (Hl : forall y, y ∈ l -> acc_id y <> key) by (intros y Hy Ey; apply Hn; rewrite Ek, <- Ey; auto).
    destruct IH as [(-> & -> & _)|(_ & _ & y & Hy & Ey & _)]; [|by destruct (Hl y)].
    destruct (guard a) eqn:Eg.
    + destruct (in_i64 _ && in_i64 _) eqn:Ew; [|done]. intros [= <- <-]. right. split; [done|]. split.
      * unfold moved. cbn [map]. fold (moved (point key db) (point key dh) l). rewrite moved_miss by done.
        unfold point. by rewrite bool_decide_true.
      * exists a. apply andb_true_iff in Ew as [W1%in_i64_spec W2%in_i64_spec]. split_and!; [constructor|done|done|by split].
    + intros [= <- <-]. left. split_and!; [done..|]. intros y [->|Hy]%elem_of_cons Ey; [done|by destruct (Hl y)].
  - intros [= <- <-]. destruct IH as [(-> & -> & H)|(-> & -> & y & Hy & ?)]; [left|right].
    + split_and!; [done..|]. intros y [->|Hy]%elem_of_cons Ey; [done|by apply H].
    + split; [done|]. split.
      * unfold moved. cbn [map]. unfold point at 3 4. rewrite bool_decide_false by done. by rewrite shift_0.
      * exists y. split; [by constructor|done].
Qed.

(** ** Lots *)

Definition drawn (d : list Z -> Z) (l : list Lot) : list Lot :=
  map (fun t => set_remaining (lot_remaining t - d (lot_id t)) t) l.

Lemma set_remaining_same t : set_remaining (lot_remaining t) t = t.
Proof. by destruct t. Qed.

Lemma drawn_ids d l : map lot_id (drawn d l) = map lot_id l.
Proof. unfold drawn. rewrite map_map. done. Qed.

Lemma drawn_0 d l : (forall t, t ∈ l -> d (lot_id t) = 0) -> drawn d l = l.
Proof.
  intros H. unfold drawn. rewrite <- (map_id l) at 2. apply map_ext_in. intros t Ht%list_elem_of_In.
  rewrite (H t Ht), Z.sub_0_r. apply set_remaining_same.
Qed.

Lemma drawn_drawn d1 d2 l : drawn d1 (drawn d2 l) = drawn (fun x => d2 x + d1 x) l.
Proof. unfold drawn. rewrite map_map. apply map_ext. intros t. unfold set_remaining. cbn. f_equal. lia. Qed.

Lemma elem_of_drawn d l t' : t' ∈ drawn d l <-> exists t, t ∈ l /\ t' = set_remaining (lot_remaining t - d (lot_id t)) t.
Proof.
  unfold drawn. rewrite list_elem_of_In, in_map_iff. split; intros (t & H1 & H2); exists t.
  - split; [by apply list_elem_of_In|done].
  - split; [done|by apply list_elem_of_In].
Qed.

(** One update of one lot that has enough. *)
Lemma update_lots_one s take l :
  NoDup (map lot_id l) -> s ∈ l -> take <= lot_remaining s ->
  update_lots (fun t => bool_decide (lot_id t = lot_id s) && (take <=? lot_remaining t)) (fun r => r - take) l =
  (1%nat, drawn (point (lot_id s) take) l).
Proof.
  intros Hnd Hs Ht. unfold update_lots. f_equal.
  - apply list_elem_of_split in Hs as (l1 & l2 & ->). rewrite map_app in Hnd. cbn in Hnd.
    apply list.NoDup_app in Hnd as (_ & Hd & Hnd). apply list.NoDup_cons in Hnd as [Hn _].
    assert (Hno : forall l', (forall t, t ∈ l' -> lot_id t <> lot_id s) ->
      List.filter (fun t => bool_decide (lot_id t = lot_id s) && (take <=? lot_remaining t)) l' = []).
    { induction l' as [|t l' IH]; intros H; [done|]. cbn. rewrite bool_decide_false by (apply H; constructor).
      apply IH. intros x Hx. apply H. by constructor. }
    rewrite filter_app, length_app. cbn. rewrite bool_decide_true by done. rewrite (proj2 (Z.leb_le _ _) Ht). cbn.
    rewrite !Hno; [done| |].
    + intros t Hx E. apply Hn. rewrite <- E. apply list_elem_of_In, in_map, list_elem_of_In, Hx.
    + intros t Hx E. apply (Hd (lot_id t)); [apply list_elem_of_In, in_map, list_elem_of_In, Hx|]. rewrite E. constructor.
  - unfold drawn. apply map_ext_in. intros t Hx%list_elem_of_In. unfold point.
    destruct (bool_decide (lot_id t = lot_id s)) eqn:E; cbn [andb].
    + apply bool_decide_eq_true in E. assert (t = s) as -> by (by eapply key_unique).
      by rewrite (proj2 (Z.leb_le _ _) Ht).
    + by rewrite Z.sub_0_r, set_remaining_same.
Qed.

(** What drawing does: the parts taken add up to the amount or all there is, and
    a lot is touched only once those before it are empty. *)
Lemma draw_each_spec selected : forall amount l,
  NoDup (map lot_id l) -> NoDup (map lot_id selected) ->
  (forall s, s ∈ selected -> s ∈ l /\ 0 < lot_remaining s) -> 0 <= amount ->
  exists d, draw_each selected amount l = drawn d l /\
    (forall s, s ∈ selected -> 0 <= d (lot_id s) <= lot_remaining s) /\
    (forall x, x ∉ map lot_id selected -> d x = 0) /\
    sum_of (fun s => d (lot_id s)) selected = Z.min amount (sum_of lot_remaining selected) /\
    (forall i j s t, (i < j)%nat -> selected !! i = Some s -> selected !! j = Some t -> 0 < d (lot_id t) -> d (lot_id s) = lot_remaining s).
Proof.
  induction selected as [|s r IH]; intros amount l Hl Hs Hin Ha; cbn [draw_each].
  { exists (fun _ => 0). rewrite drawn_0 by done. split_and!; [done|by intros ? ?%elem_of_nil|done|cbn; lia|done]. }
  destruct (Hin s ltac:(constructor)) as [Hsl Hs0].
  assert (Hr0 : 0 <= sum_of lot_remaining r) by (apply sum_of_nonneg; intros t Ht; destruct (Hin t ltac:(by constructor)); lia).
  destruct (Z.leb_spec amount 0).
  { exists (fun _ => 0). rewrite drawn_0 by done. split_and!; [done| |done| |].
    - intros t Ht. destruct (Hin t Ht). lia.
    - rewrite sum_of_zero by done. rewrite sum_of_cons. lia.
    - intros. lia. }
  set (tk := Z.min (lot_remaining s) amount). rewrite (update_lots_one s tk l) by (done || lia).
  cbn [Nat.eqb]. cbn [map] in Hs. apply list.NoDup_cons in Hs as [Hsr Hr].
  assert (Hmem : forall t, t ∈ r -> lot_id t <> lot_id s).
  { intros t Ht E. apply Hsr. rewrite <- E. apply list_elem_of_In, in_map, list_elem_of_In, Ht. }
  destruct (IH (amount - tk) (drawn (point (lot_id s) tk) l)) as (d & -> & Hd & Hd0 & Hsum & Hfirst).
  { by rewrite drawn_ids. } { done. }
  { intros t Ht. destruct (Hin t ltac:(by constructor)) as [Htl Ht0]. split; [|done]. apply elem_of_drawn.
    exists t. split; [done|]. unfold point. rewrite bool_decide_false by auto. by rewrite Z.sub_0_r, set_remaining_same. }
  { lia. }
  assert (Hds : d (lot_id s) = 0) by auto.
  assert (Hpt : forall t, t ∈ r -> point (lot_id s) tk (lot_id t) = 0) by (intros t Ht; unfold point; by rewrite bool_decide_false by auto).
  assert (Hps : point (lot_id s) tk (lot_id s) = tk) by (unfold point; by rewrite bool_decide_true).
  exists (fun x => point (lot_id s) tk x + d x). rewrite drawn_drawn. split; [done|]. split_and!.
  - intros t [->|Ht]%elem_of_cons; [rewrite Hps; lia|]. rewrite Hpt by done. apply Hd in Ht. lia.
  - intros x Hx. cbn [map] in Hx. apply not_elem_of_cons in Hx as [Hx1 Hx2]. rewrite Hd0 by done. unfold point.
    by rewrite bool_decide_false.
  - rewrite !sum_of_cons, Hps, Hds. rewrite (sum_of_ext _ (fun s => d (lot_id s))) by (intros t Ht; rewrite Hpt by done; lia). lia.
  - intros i j a b Hij Hi Hj. destruct j as [|j]; [lia|]. cbn in Hj. pose proof (list_elem_of_lookup_2 _ _ _ Hj) as Hb.
    rewrite (Hpt b Hb). destruct i as [|i]; cbn in Hi.
    + injection Hi as <-. rewrite Hps, Hds. intros Hpos.
      pose proof (sum_of_le_one (fun s => d (lot_id s)) r b ltac:(intros x Hx; apply Hd in Hx; lia) Hb) as Hle. cbn in Hle. lia.
    + rewrite (Hpt a) by (by eapply list_elem_of_lookup_2). intros Hpos.
      rewrite (Hfirst i j a b); [lia|lia|done|done|lia].
Qed.

Definition on_account (x : list Z) (t : Lot) : bool := bool_decide (lot_account t = x).
Definition lot_sum (x : list Z) (l : list Lot) : Z := sum_of (picked (on_account x) lot_remaining) l.

Lemma sum_of_filter {A} (p : A -> bool) (f : A -> Z) l : sum_of f (List.filter p l) = sum_of (picked p f) l.
Proof.
  induction l as [|a l IH]; [done|]. cbn [List.filter]. rewrite sum_of_cons. unfold picked at 1.
  destruct (p a); [rewrite sum_of_cons|]; lia.
Qed.

Lemma sum_of_perm {A} (f : A -> Z) l l' : Permutation l l' -> sum_of f l = sum_of f l'.
Proof. induction 1; rewrite ?sum_of_cons; [done|lia..]. Qed.

Lemma ordered_lookup {A} (le : A -> A -> bool) l i j a b :
  ordered le l -> (i < j)%nat -> l !! i = Some a -> l !! j = Some b -> le a b = true.
Proof.
  intros H. revert i j. induction H as [|x l Hx Hl IH]; intros i j Hij Hi Hj; [done|].
  destruct j as [|j]; [lia|]. destruct i as [|i]; cbn in Hi, Hj; [|by apply (IH i j); [lia|..]].
  injection Hi as ->. rewrite List.Forall_forall in Hx. apply Hx, list_elem_of_In. by eapply list_elem_of_lookup_2.
Qed.

Lemma lot_key_le_total s t : lot_key_le s t = true \/ lot_key_le t s = true.
Proof. unfold lot_key_le. destruct (lot_expires s), (lot_expires t); auto. lia. Qed.

Lemma lot_key_le_trans s t u : lot_key_le s t = true -> lot_key_le t u = true -> lot_key_le s u = true.
Proof. unfold lot_key_le. destruct (lot_expires s), (lot_expires t), (lot_expires u); (done || lia). Qed.

Definition lots_ok (l : list Lot) : Prop := NoDup (map lot_id l) /\ forall t, t ∈ l -> 0 <= lot_remaining t <= lot_initial t.

Lemma NoDup_filter_map {A} (key : A -> list Z) (p : A -> bool) l : NoDup (map key l) -> NoDup (map key (List.filter p l)).
Proof.
  induction l as [|a l IH]; cbn; [done|]. intros [Ha Hl]%list.NoDup_cons. destruct (p a); [|auto].
  cbn. apply list.NoDup_cons. split; [|auto]. intros Hin. apply Ha. rewrite list_elem_of_In, in_map_iff in *.
  destruct Hin as (y & <- & Hy). apply filter_In in Hy as [Hy _]. eauto.
Qed.

(** [d] takes [amount] from the lots of [x], or all there is, from those that
    expire first. *)
Record draws (x : list Z) (amount : Z) (l : list Lot) (d : list Z -> Z) : Prop := {
  draws_bound : forall t, t ∈ l -> 0 <= d (lot_id t) <= lot_remaining t;
  draws_only : forall t, t ∈ l -> lot_account t <> x -> d (lot_id t) = 0;
  draws_sum : sum_of (picked (on_account x) (fun t => d (lot_id t))) l = Z.min amount (lot_sum x l);
  draws_first : forall s t, s ∈ l -> t ∈ l -> lot_account s = x -> lot_key_le t s = false -> 0 < d (lot_id t) ->
    d (lot_id s) = lot_remaining s;
}.

Lemma draw_lots_spec x amount b :
  lots_ok (lots b) -> 0 <= amount ->
  exists d, draw_lots x amount b = with_lots b (drawn d (lots b)) /\ draws x amount (lots b) d.
Proof.
  intros [Hnd Hok] Ha. set (p := fun t => bool_decide (lot_account t = x) && (0 <? lot_remaining t)).
  set (sel := stable_sort lot_key_le (List.filter p (lots b))).
  assert (Hperm : Permutation sel (List.filter p (lots b))) by apply stable_sort_perm.
  assert (Hmem : forall t, t ∈ sel <-> t ∈ lots b /\ p t = true).
  { intros t. rewrite Hperm, !list_elem_of_In. apply filter_In. }
  assert (Hkeys : NoDup (map lot_id sel)).
  { assert (Hpk : Permutation (map lot_id sel) (map lot_id (List.filter p (lots b)))) by by apply Permutation_map.
    rewrite Hpk. by apply NoDup_filter_map. }
  destruct (draw_each_spec sel amount (lots b) Hnd Hkeys) as (d & E & Hd & Hd0 & Hsum & Hfirst); [|done|].
  { intros t (Ht & Hp)%Hmem. split; [done|]. unfold p in Hp. lia. }
  assert (Hout : forall t, t ∈ lots b -> p t = false -> d (lot_id t) = 0).
  { intros t Ht Hp. apply Hd0. intros Hin. rewrite list_elem_of_In, in_map_iff in Hin. destruct Hin as (s & Es & Hs).
    apply list_elem_of_In, Hmem in Hs as [Hs Hps]. assert (s = t) as -> by (by apply (key_unique lot_id (lots b))). congruence. }
  assert (Hbound : forall t, t ∈ lots b -> 0 <= d (lot_id t) <= lot_remaining t).
  { intros t Ht. destruct (p t) eqn:Hp; [by apply Hd, Hmem|]. rewrite Hout by done. apply Hok in Ht. lia. }
  exists d. unfold draw_lots. fold p. fold sel. rewrite E. split; [done|]. split; [done| | |].
  - intros t Ht Hx. apply Hout; [done|]. unfold p. by rewrite bool_decide_false.
  - rewrite (sum_of_perm _ _ _ Hperm), sum_of_filter in Hsum. rewrite (sum_of_perm lot_remaining _ _ Hperm), sum_of_filter in Hsum.
    unfold lot_sum.
    rewrite (sum_of_ext (picked (on_account x) (fun t => d (lot_id t))) (picked p (fun t => d (lot_id t)))).
    2:{ intros t Ht. unfold picked. destruct (p t) eqn:Hp.
        - unfold p in Hp. apply andb_true_iff in Hp as [Hp _]. unfold on_account. by rewrite Hp.
        - rewrite (Hout t) by done. by destruct (on_account x t). }
    rewrite (sum_of_ext (picked (on_account x) lot_remaining) (picked p lot_remaining)); [done|].
    intros t Ht. unfold picked, p, on_account. destruct (bool_decide (lot_account t = x)); cbn [andb]; [|done].
    apply Hok in Ht. destruct (Z.ltb_spec 0 (lot_remaining t)); lia.
  - intros s t Hs Ht Hx Hle Hpos. destruct (p s) eqn:Hps.
    2:{ pose proof (Hbound s Hs). unfold p in Hps. rewrite bool_decide_true in Hps by done. cbn in Hps. lia. }
    assert (Hpt : p t = true) by (destruct (p t) eqn:E'; [done|rewrite (Hout t) in Hpos by done; lia]).
    destruct (list_elem_of_lookup_1 sel s) as [i Hi]; [by apply Hmem|].
    destruct (list_elem_of_lookup_1 sel t) as [j Hj]; [by apply Hmem|].
    destruct (lt_eq_lt_dec i j) as [[Hij|<-]|Hij].
    + by eapply Hfirst.
    + rewrite Hi in Hj. injection Hj as <-. unfold lot_key_le in Hle. destruct (lot_expires s); [lia|done].
    + pose proof (ordered_lookup lot_key_le sel j i t s (stable_sort_ordered _ lot_key_le_total lot_key_le_trans _) Hij Hj Hi). congruence.
Qed.

(** ** The invariant *)

Definition entry_sum (x : list Z) (l : list Entry) : Z := sum_of (picked (fun e => bool_decide (en_account e = x)) en_amount) l.
Definition hold_sum (x : list Z) (l : list Hold) : Z :=
  sum_of (picked (fun h => bool_decide (hd_account h = x) && bool_decide (hd_status h = Held)) hd_amount) l.
(** The two sides of a transfer, and what an entry says of its side. *)
Definition sides (t : Transfer) : list (list Z * list Z * Z) :=
  [(tr_id t, tr_from t, - tr_amount t); (tr_id t, tr_to t, tr_amount t)].
Definition side (e : Entry) : list Z * list Z * Z := (en_transfer e, en_account e, en_amount e).

Record Core (b : Book) : Prop := {
  core_ids : NoDup (map acc_id (accounts b));
  core_owners : NoDup (map owner_unit (accounts b));
  core_width : forall a, a ∈ accounts b -> width a;
  core_total : sum_of acc_balance (accounts b) = 0;
  core_known : forall e, e ∈ entries b -> en_account e ∈ map acc_id (accounts b);
  core_refs : NoDup (map tr_reference (transfers b));
  core_double : map side (entries b) = concat (map sides (transfers b));
}.

(** The balance of every account is what its entries add up to. *)
Definition Kept (b : Book) : Prop := forall a, a ∈ accounts b -> acc_balance a = entry_sum (acc_id a) (entries b).

Definition solvent (a : Account) : Prop :=
  if bool_decide (acc_owner a = SYSTEM_TOPUP) then acc_balance a <= 0 /\ acc_held a = 0 else acc_held a <= acc_balance a.

Lemma solvent_plain a : acc_owner a <> SYSTEM_TOPUP -> solvent a <-> acc_held a <= acc_balance a.
Proof. intros H. unfold solvent. by rewrite bool_decide_false. Qed.

Record Inv (b : Book) : Prop := {
  inv_core :> Core b;
  inv_held : forall a, a ∈ accounts b -> acc_held a = hold_sum (acc_id a) (holds b);
  inv_hold_ids : NoDup (map hd_id (holds b));
  inv_holds : forall h, h ∈ holds b -> 0 < hd_amount h /\ hd_account h ∈ map acc_id (accounts b);
  inv_solvent : forall a, a ∈ accounts b -> solvent a;
  inv_lots : lots_ok (lots b);
  inv_lots_known : forall t, t ∈ lots b -> lot_account t ∈ map acc_id (accounts b);
}.

Lemma inv_empty : Inv empty_book.
Proof.
  split; [split|..]; cbn; try (by intros ? ?%elem_of_nil); try (by intros ? ? ?%elem_of_nil); try constructor; try done.
  - constructor.
  - by intros ? ?%elem_of_nil.
Qed.

Lemma elem_of_ids (a : Account) l : a ∈ l -> acc_id a ∈ map acc_id l.
Proof. intros H. apply list_elem_of_In, in_map, list_elem_of_In, H. Qed.

Lemma known_account x l : x ∈ map acc_id l -> exists a, a ∈ l /\ acc_id a = x.
Proof. rewrite list_elem_of_In, in_map_iff. intros (a & <- & H). exists a. split; [by apply list_elem_of_In|done]. Qed.

Lemma hold_sum_nonneg x l : (forall h, h ∈ l -> 0 < hd_amount h) -> 0 <= hold_sum x l.
Proof. intros H. apply sum_of_nonneg. intros h Hh. unfold picked. apply H in Hh. destruct (_ && _); lia. Qed.

Lemma held_nonneg b a : Inv b -> a ∈ accounts b -> 0 <= acc_held a.
Proof. intros Hi Ha. rewrite (inv_held b Hi) by done. apply hold_sum_nonneg. intros h Hh. by apply (inv_holds b Hi). Qed.

(** ** Statements *)

Lemma with_accounts_same b : with_accounts b (accounts b) = b.
Proof. by destruct b. Qed.

Lemma move_account_spec key guard db dh b n b' :
  NoDup (map acc_id (accounts b)) -> move_account key guard db dh b = Ok (n, b') ->
  (n = 0%nat /\ b' = b /\ forall a, a ∈ accounts b -> acc_id a = key -> guard a = false) \/
  (n = 1%nat /\ b' = with_accounts b (moved (point key db) (point key dh) (accounts b)) /\
   exists a, a ∈ accounts b /\ acc_id a = key /\ guard a = true /\ width (shift db dh a)).
Proof.
  intros Hnd. unfold move_account. destruct (move_rows _ _ _ _ _) as [[m l]|] eqn:E; [|done]. intros [= <- <-].
  destruct (move_rows_spec _ _ _ _ _ _ _ Hnd E) as [(-> & -> & H)|(-> & -> & H)]; [left|right]; [|done].
  by rewrite with_accounts_same.
Qed.

Lemma moved_width key db dh l a :
  NoDup (map acc_id l) -> (forall a, a ∈ l -> width a) -> a ∈ l -> acc_id a = key -> width (shift db dh a) ->
  forall a', a' ∈ moved (point key db) (point key dh) l -> width a'.
Proof.
  intros Hnd Hw Ha Hk Hs a' (x & Hx & ->)%elem_of_moved. unfold point. case_bool_decide as E.
  - assert (x = a) as -> by (apply (key_unique acc_id l); congruence). done.
  - rewrite shift_0. auto.
Qed.

(** An update without a guard finds its row. *)
Lemma move_found key db dh b n b' a :
  NoDup (map acc_id (accounts b)) -> (forall a, a ∈ accounts b -> width a) -> a ∈ accounts b -> acc_id a = key ->
  move_account key (fun _ => true) db dh b = Ok (n, b') ->
  b' = with_accounts b (moved (point key db) (point key dh) (accounts b)) /\ forall a, a ∈ accounts b' -> width a.
Proof.
  intros Hnd Hw Ha Hk Hm. destruct (move_account_spec _ _ _ _ _ _ _ Hnd Hm) as [(_ & _ & H)|(_ & -> & x & Hx & Ex & _ & Wx)].
  - by specialize (H a Ha Hk).
  - split; [done|]. cbn. by eapply moved_width.
Qed.

Lemma account_in_spec u owner b a :
  account_in u owner b = Ok a ->
  exists r, r ∈ accounts b /\ acc_owner r = owner /\ acc_unit r = u /\ acc_id a = acc_id r /\ available a = available r.
Proof.
  unfold account_in, find_account. destruct (find _ _) as [r|] eqn:E; [|done]. intros <-%Ok_inj.
  apply find_elem in E as [Hr Ho]. unfold owned in Ho. apply andb_true_iff in Ho as [?%bool_decide_eq_true ?%bool_decide_eq_true].
  by exists r.
Qed.

(** What recording a transfer adds. *)
Definition recorded (b b' : Book) (from to : list Z) (amount : Z) (reference : list Z) : Prop :=
  exists t e1 e2,
    b' = mkBook (accounts b) (transfers b ++ [t]) (entries b ++ [e1; e2]) (holds b) (lots b) /\
    tr_reference t = reference /\ (reference ∉ map tr_reference (transfers b)) /\
    side e1 = (tr_id t, from, - amount) /\ side e2 = (tr_id t, to, amount) /\
    tr_from t = from /\ tr_to t = to /\ tr_amount t = amount.

Lemma record_spec kind reference from to amount metadata now fresh b t b' :
  record kind reference from to amount metadata now fresh b = Ok (Some t, b') ->
  t = mkTransfer fresh reference kind from to amount now metadata /\ recorded b b' from to amount reference /\
  exists es, b' = mkBook (accounts b) (transfers b ++ [mkTransfer fresh reference kind from to amount (Jobs.to_i64 now) metadata]) es
                    (holds b) (lots b).
Proof.
  unfold record, insert_transfer. destruct (existsb _ _) eqn:E; [done|]. unfold record_side.
  destruct (balance_of from _) as [a1|]; [|done]. destruct (balance_of to _) as [a2|]; [|done]. intros [= <- <-].
  split; [done|]. split; [|eexists; reflexivity].
  unfold recorded, insert_entry. cbn. rewrite <- app_assoc. do 3 eexists. split_and!; [reflexivity|done| |done..].
  intros Hin. rewrite list_elem_of_In, in_map_iff in Hin. destruct Hin as (r & Er & Hr%list_elem_of_In).
  pose proof (existsb_miss _ _ _ E Hr) as H. cbn in H. rewrite Er, (bool_decide_true (reference = reference)) in H by done.
  by rewrite orb_true_r in H.
Qed.

(** ** What keeps the invariant *)

Definition xfer (from to : list Z) (amount : Z) (x : list Z) : Z := point from (- amount) x + point to amount x.

(** A transfer was posted: value moved between two accounts, and the transfer
    recorded. *)
Record posted (b b' : Book) (af at_ : Account) (amount : Z) (reference : list Z) (dh : list Z -> Z) : Prop := {
  posted_from : af ∈ accounts b;
  posted_to : at_ ∈ accounts b;
  posted_accounts : accounts b' = moved (xfer (acc_id af) (acc_id at_) amount) dh (accounts b);
  posted_width : forall a, a ∈ accounts b' -> width a;
  posted_record : exists t e1 e2,
    transfers b' = transfers b ++ [t] /\ entries b' = entries b ++ [e1; e2] /\
    tr_reference t = reference /\ (reference ∉ map tr_reference (transfers b)) /\
    side e1 = (tr_id t, acc_id af, - amount) /\ side e2 = (tr_id t, acc_id at_, amount) /\
    tr_from t = acc_id af /\ tr_to t = acc_id at_ /\ tr_amount t = amount;
}.

Lemma sum_point l k v a :
  NoDup (map acc_id l) -> a ∈ l -> acc_id a = k -> sum_of (fun x => point k v (acc_id x)) l = v.
Proof.
  intros Hnd Ha <-. rewrite (sum_of_single _ l acc_id a Hnd Ha).
  - unfold point. by rewrite bool_decide_true.
  - intros x _ Hx. unfold point. by rewrite bool_decide_false.
Qed.

Lemma total_moved db dh l : sum_of acc_balance (moved db dh l) = sum_of acc_balance l + sum_of (fun a => db (acc_id a)) l.
Proof. unfold moved. rewrite sum_of_map, <- sum_of_add. by apply sum_of_ext. Qed.

Lemma xfer_sum_zero l af at_ amount :
  NoDup (map acc_id l) -> af ∈ l -> at_ ∈ l -> sum_of (fun a => xfer (acc_id af) (acc_id at_) amount (acc_id a)) l = 0.
Proof.
  intros Hnd Hf Ht. unfold xfer. rewrite (sum_of_add (fun a => point _ _ (acc_id a))), (sum_point l _ _ af), (sum_point l _ _ at_) by done. lia.
Qed.

Lemma entry_sum_app x l l' : entry_sum x (l ++ l') = entry_sum x l + entry_sum x l'.
Proof. apply sum_of_app. Qed.

Lemma entry_sum_sides x e1 e2 t from to amount :
  side e1 = (t, from, - amount) -> side e2 = (t, to, amount) -> entry_sum x [e1; e2] = xfer from to amount x.
Proof.
  unfold side. intros [= _ H1 H2] [= _ H3 H4].
  unfold entry_sum. rewrite !sum_of_cons. unfold picked, xfer, point. rewrite H1, H2, H3, H4.
  rewrite (bool_decide_ext (from = x) (x = from)), (bool_decide_ext (to = x) (x = to)) by naive_solver. cbn. lia.
Qed.

(** Balances and reservations moved, nothing gained in all, and the other tables
    changed as they may. *)
Lemma inv_shifted b b' db dh :
  Inv b -> accounts b' = moved db dh (accounts b) -> (forall a, a ∈ accounts b' -> width a) ->
  sum_of (fun a => db (acc_id a)) (accounts b) = 0 ->
  map side (entries b') = concat (map sides (transfers b')) -> NoDup (map tr_reference (transfers b')) ->
  (forall e, e ∈ entries b' -> en_account e ∈ map acc_id (accounts b)) ->
  (forall x, hold_sum x (holds b') = hold_sum x (holds b) + dh x) -> NoDup (map hd_id (holds b')) ->
  (forall h, h ∈ holds b' -> 0 < hd_amount h /\ hd_account h ∈ map acc_id (accounts b)) ->
  (forall a, a ∈ accounts b -> solvent (shift (db (acc_id a)) (dh (acc_id a)) a)) ->
  lots_ok (lots b') -> (forall t, t ∈ lots b' -> lot_account t ∈ map acc_id (accounts b)) ->
  Inv b'.
Proof.
  intros Hi Hacc Hw Hz Hd Hr Hk Hhs Hhn Hh Hs Hl Hlk. pose proof (inv_core b Hi) as Hc.
  split; [split|..]; rewrite ?Hacc, ?moved_ids, ?moved_owners; try apply Hi; try done.
  - intros a'. rewrite <- Hacc. auto.
  - rewrite total_moved, (core_total b Hc), Hz. done.
  - intros a' (a & Ha & ->)%elem_of_moved. cbn. by rewrite Hhs, (inv_held b Hi).
  - intros a' (a & Ha & ->)%elem_of_moved. auto.
Qed.

(** What else has to hold for a posted transfer to keep the invariant. *)
Lemma inv_posted b b' af at_ amount reference dh :
  Inv b -> posted b b' af at_ amount reference dh ->
  (forall x, hold_sum x (holds b') = hold_sum x (holds b) + dh x) -> NoDup (map hd_id (holds b')) ->
  (forall h, h ∈ holds b' -> 0 < hd_amount h /\ hd_account h ∈ map acc_id (accounts b)) ->
  (forall a, a ∈ accounts b -> solvent (shift (xfer (acc_id af) (acc_id at_) amount (acc_id a)) (dh (acc_id a)) a)) ->
  lots_ok (lots b') -> (forall t, t ∈ lots b' -> lot_account t ∈ map acc_id (accounts b)) ->
  Inv b'.
Proof.
  intros Hi [Hf Ht Hacc Hw (t & e1 & e2 & Htr & Hen & Href & Hnew & Hs1 & Hs2 & Hfrom & Hto & Ham)] Hhs Hhn Hh Hs Hl Hlk.
  pose proof (inv_core b Hi) as Hc. apply (inv_shifted b b' _ dh Hi Hacc Hw); try done.
  - apply xfer_sum_zero; [apply Hc|done..].
  - rewrite Htr, Hen, !map_app, concat_app, (core_double b Hc). f_equal. cbn. unfold sides. by rewrite Hs1, Hs2, Hfrom, Hto, Ham.
  - rewrite Htr, map_app. apply list.NoDup_app. split_and!; [apply Hc| |cbn; apply NoDup_singleton].
    cbn. rewrite Href. intros x Hx ->%list_elem_of_singleton. done.
  - intros e. rewrite Hen. intros [He|He]%elem_of_app; [by apply (core_known b Hc)|]. unfold side in Hs1, Hs2.
    apply elem_of_cons in He as [->|[->|[]%elem_of_nil]%elem_of_cons].
    + injection Hs1 as _ -> _. by apply elem_of_ids.
    + injection Hs2 as _ -> _. by apply elem_of_ids.
Qed.

Lemma kept_posted b b' af at_ amount reference dh : posted b b' af at_ amount reference dh -> Kept b -> Kept b'.
Proof.
  intros [_ _ Hacc _ (t & e1 & e2 & _ & Hen & _ & _ & Hs1 & Hs2 & _)] Hk. unfold Kept. rewrite Hacc.
  intros a' (a & Ha & ->)%elem_of_moved. cbn. by rewrite Hen, entry_sum_app, (entry_sum_sides _ _ _ _ _ _ _ Hs1 Hs2), (Hk a Ha).
Qed.

Lemma kept_reserved b b' dh : accounts b' = moved (fun _ => 0) dh (accounts b) -> entries b' = entries b -> Kept b -> Kept b'.
Proof. intros Ha He Hk a'. rewrite Ha, He. intros (a & Hin & ->)%elem_of_moved. cbn. rewrite (Hk a Hin). lia. Qed.

Lemma same_owner b a1 a2 :
  Core b -> a1 ∈ accounts b -> a2 ∈ accounts b -> acc_owner a1 = acc_owner a2 -> acc_unit a1 = acc_unit a2 -> a1 = a2.
Proof. intros Hc H1 H2 Ho Hu. apply (key_unique owner_unit (accounts b)); [apply Hc|done|done|]. unfold owner_unit. congruence. Qed.

Lemma same_id b a1 a2 : Core b -> a1 ∈ accounts b -> a2 ∈ accounts b -> acc_id a1 = acc_id a2 -> a1 = a2.
Proof. intros Hc. apply (key_unique acc_id (accounts b)), Hc. Qed.

(** Debiting one account and crediting another. *)
Lemma move_both b af at_ guard amount dh n b1 b2 :
  Core b -> af ∈ accounts b -> at_ ∈ accounts b ->
  move_account (acc_id af) guard (- amount) dh b = Ok (n, b1) -> (n = 0%nat -> guard af = true) -> credit (acc_id at_) amount b1 = Ok b2 ->
  b2 = with_accounts b (moved (xfer (acc_id af) (acc_id at_) amount) (point (acc_id af) dh) (accounts b)) /\
  (forall a, a ∈ accounts b2 -> width a) /\ guard af = true.
Proof.
  intros Hc Hf Ht Hm Hn Hcr.
  destruct (move_account_spec _ _ _ _ _ _ _ (core_ids b Hc) Hm) as [(-> & _ & H)|(_ & -> & x & Hx & Ex & Hg & Wx)].
  { rewrite (H af Hf eq_refl) in Hn. by specialize (Hn eq_refl). }
  assert (x = af) as -> by (by eapply same_id). unfold credit in Hcr.
  destruct (move_account (acc_id at_) _ _ _ _) as [[m b3]|] eqn:Ec; [|done]. apply Ok_inj in Hcr as ->.
  set (at' := shift (point (acc_id af) (- amount) (acc_id at_)) (point (acc_id af) dh (acc_id at_)) at_).
  eapply (move_found _ _ _ _ _ _ at') in Ec as [-> Hw].
  - split_and!; [|done|done]. cbn [accounts with_accounts]. rewrite moved_moved. unfold with_accounts. cbn [accounts transfers entries holds lots]. f_equal.
    unfold moved. apply map_ext. intros a. unfold xfer. f_equal. unfold point. case_bool_decide; case_bool_decide; lia.
  - cbn. rewrite moved_ids. apply Hc.
  - cbn. eapply moved_width; [apply Hc|apply Hc|done|done|done].
  - cbn. apply elem_of_moved. by exists at_.
  - done.
Qed.

(** Moving, then recording. [f] changes other tables in between. *)
Lemma posted_of b b2 b3 b' af at_ amount reference dh :
  af ∈ accounts b -> at_ ∈ accounts b ->
  b2 = with_accounts b (moved (xfer (acc_id af) (acc_id at_) amount) dh (accounts b)) ->
  (forall a, a ∈ accounts b2 -> width a) ->
  accounts b3 = accounts b2 -> transfers b3 = transfers b2 -> entries b3 = entries b2 ->
  recorded b3 b' (acc_id af) (acc_id at_) amount reference ->
  posted b b' af at_ amount reference dh /\ holds b' = holds b3 /\ lots b' = lots b3.
Proof.
  intros Hf Ht -> Hw E1 E2 E3 (t & e1 & e2 & -> & Href & Hnew & Hs1 & Hs2 & H1 & H2 & H3).
  cbn in E1, E2, E3, Hw. rewrite E1, E2, E3 in *. split; [|done]. split; [done|done|done|done|]. by exists t, e1, e2.
Qed.

Lemma top_up_effect u owner amount reference expires_in now fresh lot b t b' :
  Core b -> top_up_in u owner amount reference expires_in now fresh lot b = Ok (Some t, b') ->
  exists af at_ l,
    posted b b' af at_ amount reference (fun _ => 0) /\
    acc_owner af = SYSTEM_TOPUP /\ acc_unit af = u /\ acc_owner at_ = owner /\ acc_unit at_ = u /\
    holds b' = holds b /\ lots b' = lots b ++ [l] /\
    lot_id l = lot /\ lot_account l = acc_id at_ /\ lot_initial l = amount /\ lot_remaining l = amount /\
    (lot ∉ map lot_id (lots b)) /\ t = mkTransfer fresh reference TopUp (acc_id af) (acc_id at_) amount now Json.Null.
Proof.
  intros Hc. unfold top_up_in.
  destruct (account_in u owner b) as [ra|] eqn:E1; [|done]. destruct (account_in u SYSTEM_TOPUP b) as [rs|] eqn:E2; [|done].
  destruct (account_in_spec _ _ _ _ E1) as (at_ & Ht & Ot & Ut & It & _).
  destruct (account_in_spec _ _ _ _ E2) as (af & Hf & Of & Uf & If & _). rewrite It, If.
  unfold debit_unchecked. destruct (move_account (acc_id af) _ _ _ b) as [[n b1]|] eqn:E3; [|done].
  destruct (credit (acc_id at_) amount b1) as [b2|] eqn:E4; [|done].
  destruct (move_both b af at_ _ amount 0 n b1 b2 Hc Hf Ht E3 ltac:(done) E4) as (Hb2 & Hw & _).
  destruct (record _ _ _ _ _ _ _ _ b2) as [[[t'|] b3]|] eqn:E5; [|done..].
  destruct (record_spec _ _ _ _ _ _ _ _ _ _ _ E5) as (Et & Hrec & _).
  unfold insert_lot. destruct (existsb _ _) eqn:E6; [done|]. intros [= <- <-].
  assert (Hz : moved (xfer (acc_id af) (acc_id at_) amount) (point (acc_id af) 0) (accounts b) =
               moved (xfer (acc_id af) (acc_id at_) amount) (fun _ => 0) (accounts b)).
  { unfold moved. apply map_ext. intros a. f_equal. unfold point. by case_bool_decide. }
  rewrite Hz in Hb2.
  destruct (posted_of b b2 b2 b3 af at_ amount reference _ Hf Ht Hb2 Hw eq_refl eq_refl eq_refl Hrec) as (Hp & Hh & Hl).
  rewrite Hb2 in Hh, Hl. cbn in Hh, Hl.
  exists af, at_. eexists. split_and!; [|done..| | | | | | | |done].
  - destruct Hp as [? ? ? ? ?]. by split.
  - cbn. by rewrite Hh.
  - cbn. rewrite Hl. reflexivity.
  - done.
  - done.
  - done.
  - done.
  - intros Hin. rewrite list_elem_of_In, in_map_iff in Hin. destruct Hin as (r & Er & Hr%list_elem_of_In).
    rewrite Hl in E6. pose proof (existsb_miss _ _ _ E6 Hr) as H. cbn in H. by rewrite Er, bool_decide_true in H.
Qed.

Lemma top_up_inv u owner amount reference expires_in now fresh lot b t b' :
  Inv b -> 0 < amount ->
  top_up_in u owner amount reference expires_in now fresh lot b = Ok (Some t, b') -> Inv b'.
Proof.
  intros Hi Ha E. destruct (top_up_effect _ _ _ _ _ _ _ _ _ _ _ Hi E)
    as (af & at_ & l & Hp & Of & Uf & Ot & Ut & Hh & Hl & Il & Al & Nl & Rl & Hfresh & _).
  assert (Hf : af ∈ accounts b) by apply Hp. assert (Ht : at_ ∈ accounts b) by apply Hp. pose proof (inv_core b Hi) as Hc.
  eapply inv_posted; [done|exact Hp|..].
  - intros x. rewrite Hh. lia.
  - rewrite Hh. apply Hi.
  - rewrite Hh. apply Hi.
  - intros a Hin. pose proof (inv_solvent b Hi a Hin) as Hs. revert Hs. unfold solvent. cbn [acc_owner acc_balance acc_held shift].
    unfold xfer, point. case_bool_decide as Ho; intros Hs.
    + case_bool_decide as E1; case_bool_decide as E2; [lia|lia| |lia].
      destruct E1. assert (a = at_) as -> by (by apply (same_id b)).
      f_equal. apply (same_owner b); [done..|congruence|congruence].
    + rewrite bool_decide_false; [case_bool_decide; lia|]. intros E1. apply Ho. assert (a = af) as -> by (by apply (same_id b)). done.
  - rewrite Hl. destruct (inv_lots b Hi) as [Hnd Hok]. split.
    + rewrite map_app. apply list.NoDup_app. split_and!; [done| |apply NoDup_singleton].
      cbn. rewrite Il. by intros x Hx ->%list_elem_of_singleton.
    + intros x [Hx| ->%list_elem_of_singleton]%elem_of_app; [auto|lia].
  - rewrite Hl. intros x [Hx| ->%list_elem_of_singleton]%elem_of_app; [by apply Hi|]. rewrite Al. by apply elem_of_ids.
Qed.

Section drawing.
Context (x : list Z) (amount : Z) (l : list Lot) (d : list Z -> Z) (Hd : draws x amount l d) (Hok : lots_ok l).

Lemma drawn_ok : lots_ok (drawn d l).
Proof using Hd Hok.
  destruct Hok as [Hnd Hr]. split; [by rewrite drawn_ids|]. intros t' (t & Ht & ->)%elem_of_drawn. cbn.
  pose proof (draws_bound _ _ _ _ Hd t Ht). apply Hr in Ht. lia.
Qed.

End drawing.

Lemma point_0 k : forall x, point k 0 x = 0.
Proof. intros x. unfold point. by case_bool_decide. Qed.

Lemma moved_ext db dh db' dh' l : (forall x, db x = db' x) -> (forall x, dh x = dh' x) -> moved db dh l = moved db' dh' l.
Proof. intros H1 H2. unfold moved. apply map_ext. intros a. by rewrite H1, H2. Qed.

Lemma consume_effect u owner amount reference now fresh b t b' :
  Core b -> lots_ok (lots b) -> 0 < amount -> consume_in u owner amount reference now fresh b = Ok (Some t, b') ->
  exists af at_ d,
    posted b b' af at_ amount reference (fun _ => 0) /\
    acc_owner af = owner /\ acc_unit af = u /\ acc_owner at_ = SYSTEM_CONSUMPTION /\ acc_unit at_ = u /\
    covers amount af = true /\ holds b' = holds b /\ lots b' = drawn d (lots b) /\ draws (acc_id af) amount (lots b) d /\
    t = mkTransfer fresh reference Consume (acc_id af) (acc_id at_) amount now Json.Null.
Proof.
  intros Hc Hlo Ha. unfold consume_in.
  destruct (account_in u owner b) as [ra|] eqn:E1; [|done]. destruct (account_in u SYSTEM_CONSUMPTION b) as [rs|] eqn:E2; [|done].
  destruct (account_in_spec _ _ _ _ E1) as (af & Hf & Of & Uf & If & _).
  destruct (account_in_spec _ _ _ _ E2) as (at_ & Ht & Ot & Ut & It & _). rewrite It, If.
  unfold debit_available. destruct (move_account (acc_id af) _ _ _ b) as [[n b1]|] eqn:E3; [|done].
  destruct (Nat.eqb_spec n 1) as [->|]; [|done]. cbn [negb].
  destruct (credit (acc_id at_) amount b1) as [b2|] eqn:E4; [|done].
  destruct (move_both b af at_ _ amount 0 1 b1 b2 Hc Hf Ht E3 ltac:(done) E4) as (Hb2 & Hw & Hg).
  assert (Hl2 : lots b2 = lots b) by by rewrite Hb2.
  destruct (draw_lots_spec (acc_id af) amount b2) as (d & Ed & Hd); [by rewrite Hl2|lia|]. rewrite Ed, Hl2 in *.
  intros E5. destruct (record_spec _ _ _ _ _ _ _ _ _ _ _ E5) as (Et & Hrec & _).
  rewrite (moved_ext _ (point (acc_id af) 0) (xfer (acc_id af) (acc_id at_) amount) (fun _ => 0)) in Hb2 by (done || apply point_0).
  destruct (posted_of b b2 (with_lots b2 (drawn d (lots b))) b' af at_ amount reference _ Hf Ht Hb2 Hw eq_refl eq_refl eq_refl Hrec) as (Hp & Hh & Hl).
  exists af, at_, d. split_and!; [done..| |done|done|done]. rewrite Hh. cbn. by rewrite Hb2.
Qed.

(** Debiting an ordinary account within its means leaves every account solvent. *)
Lemma debit_solvent b af at_ amount dh :
  Inv b -> af ∈ accounts b -> at_ ∈ accounts b -> acc_owner af <> SYSTEM_TOPUP -> acc_owner at_ <> SYSTEM_TOPUP ->
  (forall x, x <> acc_id af -> dh x = 0) -> acc_held af + dh (acc_id af) <= acc_balance af - amount -> 0 <= amount ->
  forall a, a ∈ accounts b -> solvent (shift (xfer (acc_id af) (acc_id at_) amount (acc_id a)) (dh (acc_id a)) a).
Proof.
  intros Hi Hf Ht Hfo Hto Hdh Hle Ha a Hin. pose proof (inv_core b Hi) as Hc. pose proof (inv_solvent b Hi a Hin) as Hs. revert Hs.
  destruct (decide (acc_id a = acc_id af)) as [Eq|Ne].
  - apply (same_id b) in Eq as ->; [|done..]. rewrite !solvent_plain by done. cbn. unfold xfer, point.
    rewrite bool_decide_true by done. case_bool_decide; lia.
  - rewrite (Hdh _ Ne). unfold solvent, xfer, point. cbn. rewrite (bool_decide_false (acc_id a = acc_id af)) by done.
    destruct (decide (acc_id a = acc_id at_)) as [Et|Et].
    + apply (same_id b) in Et as ->; [|done..]. rewrite !(bool_decide_false (acc_owner at_ = _)) by done. case_bool_decide; lia.
    + rewrite (bool_decide_false (acc_id a = acc_id at_)) by done. case_bool_decide; lia.
Qed.

Lemma consume_inv u owner amount reference now fresh b t b' :
  Inv b -> 0 < amount ->
  consume_in u owner amount reference now fresh b = Ok (Some t, b') -> Inv b'.
Proof.
  intros Hi Ha E. pose proof (inv_core b Hi) as Hc.
  destruct (consume_effect _ _ _ _ _ _ _ _ _ Hc (inv_lots b Hi) Ha E)
    as (af & at_ & d & Hp & Of & Uf & Ot & Ut & Hg & Hh & Hl & Hd & _).
  assert (Hf : af ∈ accounts b) by apply Hp. assert (Ht : at_ ∈ accounts b) by apply Hp. unfold covers in Hg.
  assert (Hto : acc_owner at_ <> SYSTEM_TOPUP) by (rewrite Ot; discriminate).
  pose proof (held_nonneg b af Hi Hf) as Hh0.
  assert (Hfo : acc_owner af <> SYSTEM_TOPUP).
  { intros Eo. pose proof (inv_solvent b Hi af Hf) as Hs. unfold solvent in Hs. rewrite bool_decide_true in Hs by done. lia. }
  eapply inv_posted; [done|exact Hp|..].
  - intros x. rewrite Hh. lia.
  - rewrite Hh. apply Hi.
  - rewrite Hh. apply Hi.
  - apply debit_solvent; (done || lia).
  - rewrite Hl. by apply (drawn_ok _ _ _ _ Hd), Hi.
  - rewrite Hl. intros t0 (t1 & Ht1 & ->)%elem_of_drawn. exact (inv_lots_known b Hi t1 Ht1).
Qed.

(** ** Holds *)

Definition set_status (s : HoldStatus) (h : Hold) : Hold :=
  mkHold (hd_id h) (hd_account h) (hd_amount h) s (hd_reference h) (hd_created h) (hd_expires h).
Definition settled (s : HoldStatus) (key : list Z) (l : list Hold) : list Hold :=
  map (fun h => if settles key h then set_status s h else h) l.

Lemma elem_of_settled s key l h' :
  h' ∈ settled s key l <-> exists h, h ∈ l /\ h' = if settles key h then set_status s h else h.
Proof.
  unfold settled. rewrite list_elem_of_In, in_map_iff. split; intros (t & H1 & H2); exists t.
  - split; [by apply list_elem_of_In|done].
  - split; [done|by apply list_elem_of_In].
Qed.

Lemma settled_ids s key l : map hd_id (settled s key l) = map hd_id l.
Proof. unfold settled. rewrite map_map. apply map_ext. intros h. by destruct (settles key h). Qed.

Lemma settles_spec key h : settles key h = true <-> hd_id h = key /\ hd_status h = Held.
Proof. unfold settles. rewrite andb_true_iff, !bool_decide_eq_true. done. Qed.

Lemma settled_sum s key l h x :
  NoDup (map hd_id l) -> s <> Held -> h ∈ l -> settles key h = true ->
  hold_sum x (settled s key l) = hold_sum x l + point (hd_account h) (- hd_amount h) x.
Proof.
  intros Hnd Hs Hh [Hk Hst]%settles_spec.
  assert (E : hold_sum x l = hold_sum x (settled s key l) + sum_of (fun h' => if settles key h' then point (hd_account h') (hd_amount h') x else 0) l).
  { unfold hold_sum, settled. rewrite sum_of_map, <- sum_of_add. apply sum_of_ext. intros h' _. unfold picked.
    destruct (settles key h') eqn:Es; [|lia]. apply settles_spec in Es as [_ Es]. cbn. rewrite Es, (bool_decide_false (s = Held)), andb_false_r by done.
    unfold point. rewrite (bool_decide_ext (hd_account h' = x) (x = hd_account h')) by naive_solver.
    rewrite (bool_decide_true (Held = Held)), andb_true_r by done. lia. }
  rewrite (sum_of_single _ l hd_id h Hnd Hh) in E.
  - rewrite (proj2 (settles_spec key h)) in E by done. unfold point in *. case_bool_decide; lia.
  - intros h' _ Hne. destruct (settles key h') eqn:Es; [|done]. apply settles_spec in Es as [Es _]. congruence.
Qed.

Lemma settle_spec s key b won b1 :
  NoDup (map hd_id (holds b)) -> settle_hold s key b = (won, b1) ->
  b1 = with_holds b (settled s key (holds b)) /\
  (won = 0%nat \/ exists h, h ∈ holds b /\ settles key h = true /\ find_hold key b1 = Some (set_status s h)).
Proof.
  intros Hnd. unfold settle_hold. intros [= <- <-]. split; [done|].
  destruct (List.filter (settles key) (holds b)) as [|h r] eqn:E; [by left|right]. exists h.
  assert (Hin : In h (List.filter (settles key) (holds b))) by (rewrite E; by left).
  apply filter_In in Hin as [Hh%list_elem_of_In Hs]. split_and!; [done|done|].
  fold (settled s key (holds b)).
  assert (Hh' : set_status s h ∈ settled s key (holds b)) by (apply elem_of_settled; exists h; by rewrite Hs).
  unfold find_hold. cbn [holds with_holds]. destruct (find _ _) as [h'|] eqn:Ef.
  - apply find_elem in Ef as [H1 H2%bool_decide_eq_true]. f_equal. apply (key_unique hd_id (settled s key (holds b))); [|done|done|].
    + by rewrite settled_ids.
    + apply settles_spec in Hs as [Hk _]. cbn. congruence.
  - apply (find_miss _ _ _ Ef) in Hh'. cbn in Hh'. apply settles_spec in Hs as [Hk _]. by rewrite bool_decide_true in Hh'.
Qed.

(** A hold is at most what its account has reserved. *)
Lemma hold_within b h a : Inv b -> h ∈ holds b -> hd_status h = Held -> a ∈ accounts b -> acc_id a = hd_account h -> hd_amount h <= acc_held a.
Proof.
  intros Hi Hh Hs Ha E. rewrite (inv_held b Hi a Ha), E. unfold hold_sum.
  assert (Hf : hd_amount h = picked (fun h0 => bool_decide (hd_account h0 = hd_account h) && bool_decide (hd_status h0 = Held)) hd_amount h).
  { unfold picked. by rewrite !bool_decide_true. }
  rewrite Hf at 1. apply sum_of_le_one; [|done]. intros x Hx. unfold picked. apply (inv_holds b Hi) in Hx. destruct (_ && _); lia.
Qed.

Lemma held_not_topup b a : Inv b -> a ∈ accounts b -> 0 < acc_held a \/ 0 < acc_balance a -> acc_owner a <> SYSTEM_TOPUP.
Proof.
  intros Hi Ha H Eo. pose proof (inv_solvent b Hi a Ha) as Hs. unfold solvent in Hs. rewrite bool_decide_true in Hs by done. lia.
Qed.

(** Changing what is reserved, and the holds with it. *)
Lemma inv_reserve b b' dh :
  Inv b -> accounts b' = moved (fun _ => 0) dh (accounts b) -> (forall a, a ∈ accounts b' -> width a) ->
  transfers b' = transfers b -> entries b' = entries b -> lots b' = lots b ->
  (forall x, hold_sum x (holds b') = hold_sum x (holds b) + dh x) -> NoDup (map hd_id (holds b')) ->
  (forall h, h ∈ holds b' -> 0 < hd_amount h /\ hd_account h ∈ map acc_id (accounts b)) ->
  (forall a, a ∈ accounts b -> solvent (shift 0 (dh (acc_id a)) a)) -> Inv b'.
Proof.
  intros Hi Hacc Hw Htr Hen Hlo Hhs Hhn Hh Hs. pose proof (inv_core b Hi) as Hc.
  apply (inv_shifted b b' _ dh Hi Hacc Hw); rewrite ?Htr, ?Hen, ?Hlo; try apply Hi; try done. by apply sum_of_zero.
Qed.

Lemma settled_known b s key : Inv b ->
  forall h, h ∈ settled s key (holds b) -> 0 < hd_amount h /\ hd_account h ∈ map acc_id (accounts b).
Proof. intros Hi h' (h & Hh & ->)%elem_of_settled. pose proof (inv_holds b Hi h Hh). by destruct (settles key h). Qed.

Lemma hold_effect u owner amount reference ttl now fresh b h b' :
  Core b -> hold_in u owner amount reference ttl now fresh b = Ok (Some h, b') ->
  exists a r,
    a ∈ accounts b /\ acc_owner a = owner /\ acc_unit a = u /\ covers amount a = true /\
    b' = mkBook (moved (fun _ => 0) (point (acc_id a) amount) (accounts b)) (transfers b) (entries b) (holds b ++ [r]) (lots b) /\
    (forall x, x ∈ accounts b' -> width x) /\
    r = mkHold fresh (acc_id a) amount Held reference (Jobs.to_i64 now) (Jobs.to_i64 (u64 (now + ttl))) /\
    (fresh ∉ map hd_id (holds b)) /\ (reference ∉ map hd_reference (holds b)) /\
    h = mkHold fresh (acc_id a) amount Held reference now (u64 (now + ttl)).
Proof.
  intros Hc. unfold hold_in. destruct (account_in u owner b) as [ra|] eqn:E1; [|done].
  destruct (account_in_spec _ _ _ _ E1) as (a & Ha & Oa & Ua & Ia & _). rewrite Ia.
  destruct (move_account (acc_id a) _ _ _ b) as [[n b1]|] eqn:E2; [|done].
  destruct (move_account_spec _ _ _ _ _ _ _ (core_ids b Hc) E2) as [(-> & _)|(-> & -> & x & Hx & Ex & Hg & Wx)]; [done|].
  assert (x = a) as -> by (by apply (same_id b)). cbn [Nat.eqb].
  unfold insert_hold. destruct (existsb _ _) eqn:E3; [done|]. intros [= <- <-]. cbn in E3.
  assert (Hno : forall r, r ∈ holds b -> hd_id r <> fresh /\ hd_reference r <> reference).
  { intros r Hr. pose proof (existsb_miss _ _ _ E3 Hr) as H. cbn in H. apply orb_false_iff in H as [H1 H2].
    by apply bool_decide_eq_false in H1, H2. }
  exists a. eexists. split_and!; [done..| | |reflexivity| | |done].
  - unfold with_holds. cbn. f_equal. apply moved_ext; [apply point_0|done].
  - cbn. eapply moved_width; [apply Hc|apply Hc|exact Ha|done|done].
  - intros Hin. rewrite list_elem_of_In, in_map_iff in Hin. destruct Hin as (r & Er & Hr%list_elem_of_In). destruct (Hno r Hr). congruence.
  - intros Hin. rewrite list_elem_of_In, in_map_iff in Hin. destruct Hin as (r & Er & Hr%list_elem_of_In). destruct (Hno r Hr). congruence.
Qed.

Lemma hold_inv u owner amount reference ttl now fresh b h b' :
  Inv b -> 0 < amount -> hold_in u owner amount reference ttl now fresh b = Ok (Some h, b') -> Inv b'.
Proof.
  intros Hi Hamt E. pose proof (inv_core b Hi) as Hc.
  destruct (hold_effect _ _ _ _ _ _ _ _ _ _ Hc E) as (a & r & Ha & Oa & Ua & Hg & -> & Hw & -> & Hid & _ & _).
  unfold covers in Hg. eapply (inv_reserve b _ (point (acc_id a) amount)); [done|done|done|done|done|done|..].
  - intros x. unfold hold_sum. cbn [holds]. rewrite sum_of_app, sum_of_cons. unfold picked at 2. cbn. unfold point.
    rewrite (bool_decide_ext (acc_id a = x) (x = acc_id a)) by naive_solver. rewrite andb_true_r. lia.
  - cbn. rewrite map_app. apply list.NoDup_app. split_and!; [apply Hi| |apply NoDup_singleton].
    cbn. by intros x Hx ->%list_elem_of_singleton.
  - cbn. intros x [Hx| ->%list_elem_of_singleton]%elem_of_app; [by apply Hi|]. cbn. split; [done|by apply elem_of_ids].
  - intros x Hx. pose proof (inv_solvent b Hi x Hx) as Hs. unfold point. case_bool_decide as Eq; [|by rewrite shift_0].
    assert (x = a) as -> by (by apply (same_id b)). pose proof (held_nonneg b a Hi Ha).
    assert (Ho : acc_owner a <> SYSTEM_TOPUP) by (apply (held_not_topup b); [done|done|lia]).
    apply solvent_plain; [done|]. cbn. lia.
Qed.

Lemma release_effect hold_id b b' :
  Inv b -> release_in hold_id b = Ok (true, b') ->
  exists h a, h ∈ holds b /\ hd_id h = hold_id /\ hd_status h = Held /\ a ∈ accounts b /\ acc_id a = hd_account h /\
    b' = mkBook (moved (fun _ => 0) (point (acc_id a) (- hd_amount h)) (accounts b)) (transfers b) (entries b)
           (settled Released hold_id (holds b)) (lots b) /\
    forall x, x ∈ accounts b' -> width x.
Proof.
  intros Hi. pose proof (inv_core b Hi) as Hc. unfold release_in. destruct (settle_hold Released hold_id b) as [won b1] eqn:E.
  destruct (settle_spec _ _ _ _ _ (inv_hold_ids b Hi) E) as [-> [->|(h & Hh & Hs & Hf)]]; [done|].
  destruct (won =? 0)%nat; [done|]. rewrite Hf. cbn [hold_from hd_account hd_amount set_status].
  destruct (move_account _ _ _ _ _) as [[n b2]|] eqn:Em; [|done]. intros [= <-].
  destruct (known_account _ _ (proj2 (inv_holds b Hi h Hh))) as (a & Ha & Ea). apply settles_spec in Hs as [Hk Hst].
  destruct (move_found _ _ _ (with_holds b (settled Released hold_id (holds b))) n b2 a (core_ids b Hc) (core_width b Hc) Ha Ea Em) as [-> Hw].
  exists h, a. split_and!; [done..| |done]. unfold with_accounts. cbn. f_equal. rewrite Ea. apply moved_ext; [apply point_0|done].
Qed.

Lemma release_inv hold_id b b' : Inv b -> release_in hold_id b = Ok (true, b') -> Inv b'.
Proof.
  intros Hi E. destruct (release_effect _ _ _ Hi E) as (h & a & Hh & Hk & Hs & Ha & Ea & -> & Hw).
  pose proof (inv_core b Hi) as Hc. eapply (inv_reserve b _ (point (acc_id a) (- hd_amount h))); [done|done|done|done|done|done|..].
  - intros x. cbn. rewrite Ea. apply settled_sum; [apply Hi|done|done|by apply settles_spec].
  - cbn. rewrite settled_ids. apply Hi.
  - by apply settled_known.
  - intros x Hx. pose proof (inv_solvent b Hi x Hx) as Hsx. unfold point. case_bool_decide as Eq; [|by rewrite shift_0].
    assert (x = a) as -> by (by apply (same_id b)). pose proof (hold_within b h a Hi Hh Hs Ha Ea). pose proof (inv_holds b Hi h Hh).
    assert (Ho : acc_owner a <> SYSTEM_TOPUP) by (apply (held_not_topup b); [done|done|lia]).
    rewrite solvent_plain in Hsx by done. apply solvent_plain; [done|]. cbn. lia.
Qed.

Lemma capture_effect u hold_id now fresh b t b' :
  Inv b -> capture_in u hold_id now fresh b = Ok (Some t, b') ->
  exists h af at_ d,
    h ∈ holds b /\ hd_id h = hold_id /\ hd_status h = Held /\ acc_id af = hd_account h /\
    posted b b' af at_ (hd_amount h) (lit "capture:" ++ hd_reference h) (point (acc_id af) (- hd_amount h)) /\
    acc_owner at_ = SYSTEM_CONSUMPTION /\ acc_unit at_ = u /\
    holds b' = settled Captured hold_id (holds b) /\ lots b' = drawn d (lots b) /\ draws (acc_id af) (hd_amount h) (lots b) d /\
    tr_amount t = hd_amount h.
Proof.
  intros Hi. pose proof (inv_core b Hi) as Hc. unfold capture_in. destruct (settle_hold Captured hold_id b) as [won b1] eqn:E.
  destruct (settle_spec _ _ _ _ _ (inv_hold_ids b Hi) E) as [-> [->|(h & Hh & Hs & Hf)]]; [done|].
  destruct (won =? 0)%nat; [done|]. rewrite Hf. cbn [hold_from hd_account hd_amount hd_reference hd_id set_status].
  destruct (inv_holds b Hi h Hh) as [Hpos Hkn]. destruct (known_account _ _ Hkn) as (af & Haf & Ea). apply settles_spec in Hs as [Hk Hst].
  destruct (account_in u SYSTEM_CONSUMPTION _) as [rs|] eqn:E2; [|done].
  destruct (account_in_spec _ _ _ _ E2) as (at_ & Ht & Ot & Ut & It & _). cbn [accounts with_holds] in Ht. rewrite It, <- Ea.
  set (b1 := with_holds b (settled Captured hold_id (holds b))) in *.
  destruct (move_account (acc_id af) _ _ _ b1) as [[n b2]|] eqn:E3; [|done].
  destruct (credit (acc_id at_) (hd_amount h) b2) as [b3|] eqn:E4; [|done].
  assert (Hc1 : Core b1) by (destruct Hc; by split).
  destruct (move_both b1 af at_ _ _ _ n b2 b3 Hc1 Haf Ht E3 ltac:(done) E4) as (Hb3 & Hw & _).
  assert (Hl3 : lots b3 = lots b) by by rewrite Hb3.
  destruct (draw_lots_spec (acc_id af) (hd_amount h) b3) as (d & Ed & Hd); [rewrite Hl3; apply Hi|lia|]. rewrite Ed, Hl3 in *.
  destruct (record _ _ _ _ _ _ _ _ _) as [[[t'|] b4]|] eqn:E5; [|done..]. intros [= -> ->].
  destruct (record_spec _ _ _ _ _ _ _ _ _ _ _ E5) as (Et & Hrec & _).
  destruct (posted_of b1 b3 (with_lots b3 (drawn d (lots b))) b' af at_ _ _ _ Haf Ht Hb3 Hw eq_refl eq_refl eq_refl Hrec) as (Hp & Hho & Hlo).
  exists h, af, at_, d. split_and!; [done..| |done|done| |done|done|by rewrite Et].
  - destruct Hp as [? ? ? ? ?]. by split.
  - rewrite Hho. cbn. by rewrite Hb3.
Qed.

Lemma capture_inv u hold_id now fresh b t b' :
  Inv b -> capture_in u hold_id now fresh b = Ok (Some t, b') -> Inv b'.
Proof.
  intros Hi E. pose proof (inv_core b Hi) as Hc.
  destruct (capture_effect _ _ _ _ _ _ _ Hi E) as (h & af & at_ & d & Hh & Hk & Hst & Ea & Hp & Ot & Ut & Hho & Hl & Hd & _).
  assert (Hf : af ∈ accounts b) by apply Hp. assert (Ht : at_ ∈ accounts b) by apply Hp.
  pose proof (hold_within b h af Hi Hh Hst Hf Ea) as Hwi. pose proof (proj1 (inv_holds b Hi h Hh)) as Hpos.
  assert (Hto : acc_owner at_ <> SYSTEM_TOPUP) by (rewrite Ot; discriminate).
  assert (Hfo : acc_owner af <> SYSTEM_TOPUP) by (apply (held_not_topup b); [done|done|lia]).
  pose proof (inv_solvent b Hi af Hf) as Hsf. rewrite solvent_plain in Hsf by done.
  eapply inv_posted; [done|exact Hp|..].
  - intros x. rewrite Hho, Ea. apply settled_sum; [apply Hi|done|done|by apply settles_spec].
  - rewrite Hho, settled_ids. apply Hi.
  - rewrite Hho. by apply settled_known.
  - apply debit_solvent; [done..| |unfold point; rewrite bool_decide_true by done; lia|lia].
    intros x Hx. unfold point. by rewrite bool_decide_false.
  - rewrite Hl. by apply (drawn_ok _ _ _ _ Hd), Hi.
  - rewrite Hl. intros t0 (t1 & Ht1 & ->)%elem_of_drawn. exact (inv_lots_known b Hi t1 Ht1).
Qed.

(** ** Opening an account *)

Lemma hold_sum_unknown b x : Inv b -> (x ∉ map acc_id (accounts b)) -> hold_sum x (holds b) = 0.
Proof.
  intros Hi Hx. apply sum_of_zero. intros h Hh. unfold picked. rewrite bool_decide_false; [done|].
  intros <-. by apply Hx, (inv_holds b Hi).
Qed.

Lemma account_inv u owner fresh created b b' :
  Inv b -> insert_account (mkAccount fresh owner u 0 0 created) b = Ok b' -> Inv b'.
Proof.
  intros Hi. pose proof (inv_core b Hi) as Hc. unfold insert_account. destruct (existsb _ _) eqn:E; [done|]. intros <-%Ok_inj.
  assert (Hno : forall r, r ∈ accounts b -> acc_id r <> fresh /\ owner_unit r <> (owner, u)).
  { intros r Hr. pose proof (existsb_miss _ _ _ E Hr) as H. cbn in H. apply orb_false_iff in H as [H1%bool_decide_eq_false H2].
    split; [done|]. unfold owner_unit. intros [= Eo Eu]. by rewrite !bool_decide_true in H2. }
  assert (Hid : fresh ∉ map acc_id (accounts b)).
  { intros (r & Hr & Er)%known_account. by apply Hno in Hr as [? _]. }
  assert (Hmem : forall x, x ∈ map acc_id (accounts b) -> x ∈ map acc_id (accounts b ++ [mkAccount fresh owner u 0 0 created])).
  { intros x Hx. rewrite map_app. apply elem_of_app. by left. }
  split; [split|..]; cbn [accounts transfers entries holds lots with_accounts]; try apply Hi.
  - rewrite map_app. apply list.NoDup_app. split_and!; [apply Hc| |apply NoDup_singleton]. cbn. by intros x Hx ->%list_elem_of_singleton.
  - rewrite map_app. apply list.NoDup_app. split_and!; [apply Hc| |apply NoDup_singleton]. cbn. intros x Hx ->%list_elem_of_singleton.
    rewrite list_elem_of_In, in_map_iff in Hx. destruct Hx as (r & Er & Hr%list_elem_of_In). by apply Hno in Hr as [_ ?].
  - intros a [Ha| ->%list_elem_of_singleton]%elem_of_app; [by apply Hc|]. by split.
  - rewrite sum_of_app, (core_total b Hc). done.
  - intros e He. by apply Hmem, (core_known b Hc).
  - intros a [Ha| ->%list_elem_of_singleton]%elem_of_app; [by apply (inv_held b Hi)|]. cbn. by rewrite (hold_sum_unknown b).
  - intros h Hh. destruct (inv_holds b Hi h Hh). auto.
  - intros a [Ha| ->%list_elem_of_singleton]%elem_of_app; [by apply Hi|]. unfold solvent. cbn. by case_bool_decide.
  - intros t Ht. by apply Hmem, (inv_lots_known b Hi).
Qed.

Lemma account_kept u owner fresh created b b' :
  Inv b -> insert_account (mkAccount fresh owner u 0 0 created) b = Ok b' -> Kept b -> Kept b'.
Proof.
  intros Hi. unfold insert_account. destruct (existsb _ _) eqn:E; [done|]. intros <-%Ok_inj Hk. unfold Kept. cbn.
  intros a [Ha| ->%list_elem_of_singleton]%elem_of_app; [by apply Hk|]. cbn. symmetry. apply sum_of_zero. intros e He. unfold picked.
  rewrite bool_decide_false; [done|]. intros Ee. destruct (known_account _ _ (core_known b Hi e He)) as (r & Hr & Er).
  pose proof (existsb_miss _ _ _ E Hr) as H. cbn in H. by rewrite bool_decide_true in H by congruence.
Qed.

(** ** Expiring a lot *)

Lemma zeroed key l t :
  NoDup (map lot_id l) -> t ∈ l -> lot_id t = key ->
  (update_lots (fun t => bool_decide (lot_id t = key)) (fun _ => 0) l).2 = drawn (point key (lot_remaining t)) l.
Proof.
  intros Hnd Ht Hk. cbn. unfold drawn. apply map_ext_in. intros x Hx%list_elem_of_In. unfold point. case_bool_decide as E.
  - assert (x = t) as -> by (apply (key_unique lot_id l); congruence). by rewrite Z.sub_diag.
  - by rewrite Z.sub_0_r, set_remaining_same.
Qed.

Section zeroing.
Context (l : list Lot) (t : Lot) (Hok : lots_ok l) (Ht : t ∈ l).
Abbreviation rest := (drawn (point (lot_id t) (lot_remaining t)) l).

Lemma zeroed_bound x : x ∈ l -> 0 <= point (lot_id t) (lot_remaining t) (lot_id x) <= lot_remaining x.
Proof using Hok Ht.
  destruct Hok as [Hnd Hr]. intros Hx. unfold point. pose proof (Hr x Hx). case_bool_decide as E; [|lia].
  apply (key_unique lot_id l) in E as ->; [lia|done..].
Qed.

Lemma zeroed_ok : lots_ok rest.
Proof using Hok Ht.
  destruct Hok as [Hnd Hr]. split; [by rewrite drawn_ids|]. intros t' (x & Hx & ->)%elem_of_drawn. cbn.
  pose proof (zeroed_bound x Hx). apply Hr in Hx. lia.
Qed.

End zeroing.

(** Emptying a lot and moving nothing. *)
Lemma zeroed_inv b t : Inv b -> t ∈ lots b -> Inv (with_lots b (drawn (point (lot_id t) (lot_remaining t)) (lots b))).
Proof.
  intros Hi Ht. pose proof (inv_lots b Hi) as Hok. split; [destruct (inv_core b Hi); by split|..]; cbn [accounts transfers entries holds lots with_lots];
    try apply Hi.
  - by apply zeroed_ok.
  - intros x (y & Hy & ->)%elem_of_drawn. exact (inv_lots_known b Hi y Hy).
Qed.

Lemma record_refused kind reference from to amount metadata now fresh b b' :
  record kind reference from to amount metadata now fresh b = Ok (None, b') -> b' = b.
Proof.
  unfold record, insert_transfer. destruct (existsb _ _); [by intros [= <-]|].
  unfold record_side. destruct (balance_of _ _); [|done]. by destruct (balance_of _ _).
Qed.

(** The expiry transaction's writes, whatever it has read and however long ago:
    the book is in order, and balances are kept unless its transfer was refused. *)
Lemma expire_inv u l seen now fresh b amount clean b' :
  Inv b -> l ∈ lots b -> expire_write u (lot_id l) (lot_account l) seen now fresh b = Ok (amount, clean, b') ->
  Inv b' /\ lots b' = drawn (point (lot_id l) (lot_remaining l)) (lots b) /\ (clean = true -> Kept b -> Kept b').
Proof.
  intros Hi Hl. destruct (known_account _ _ (inv_lots_known b Hi l Hl)) as (af & Hf & Ea). pose proof (inv_lots b Hi) as [Hnd _].
  unfold expire_write. destruct seen as [remaining had]. rewrite (zeroed (lot_id l) (lots b) l Hnd Hl eq_refl).
  pose proof (zeroed_inv b l Hi Hl) as Hz. set (b1 := with_lots b _) in *.
  destruct (Z.leb_spec (Z.max (Z.min remaining had) 0) 0) as [|Hpos]; [by intros [= <- <- <-]|]. set (amt := Z.max _ 0) in *.
  destruct (account_in u SYSTEM_EXPIRY b1) as [rs|] eqn:E2; [|done].
  destruct (account_in_spec _ _ _ _ E2) as (at_ & Ht & Ot & _ & It & _). cbn [accounts b1 with_lots] in Ht. rewrite It, <- Ea.
  unfold debit_available. destruct (move_account (acc_id af) _ _ _ b1) as [[n b2]|] eqn:E3; [|done].
  pose proof (inv_core b1 Hz) as Hc1. destruct (Nat.eqb_spec n 1) as [->|Hn]; cbn [negb].
  2:{ intros [= <- <- <-].
      by destruct (move_account_spec _ _ _ _ _ _ _ (core_ids _ Hc1) E3) as [(_ & -> & _)|(-> & _)]. }
  destruct (credit (acc_id at_) amt b2) as [b3|] eqn:E4; [|done].
  destruct (move_both b1 af at_ _ _ _ 1 b2 b3 Hc1 Hf Ht E3 ltac:(done) E4) as (Hb3 & Hw & Hg).
  rewrite (moved_ext _ (point (acc_id af) 0) (xfer (acc_id af) (acc_id at_) amt) (fun _ => 0)) in Hb3 by (done || apply point_0).
  assert (Hto : acc_owner at_ <> SYSTEM_TOPUP) by (rewrite Ot; discriminate). unfold covers in Hg.
  pose proof (held_nonneg b af Hi Hf). assert (Hfo : acc_owner af <> SYSTEM_TOPUP) by (apply (held_not_topup b); [done|done|right; lia]).
  assert (Hsolvent : forall a, a ∈ accounts b1 -> solvent (shift (xfer (acc_id af) (acc_id at_) amt (acc_id a)) 0 a)).
  { apply (debit_solvent b1 af at_ amt (fun _ => 0)); (done || lia). }
  destruct (record _ _ _ _ _ _ _ _ b3) as [[[t|] b4]|] eqn:E5; [| |done]; intros [= <- <- <-].
  - destruct (record_spec _ _ _ _ _ _ _ _ _ _ _ E5) as (_ & Hrec & _).
    destruct (posted_of b1 b3 b3 b4 af at_ _ _ _ Hf Ht Hb3 Hw eq_refl eq_refl eq_refl Hrec) as (Hp & Hho & Hlo).
    rewrite Hb3 in Hho, Hlo. cbn in Hho, Hlo. split_and!; [|done|by intros _; apply (kept_posted _ _ _ _ _ _ _ Hp)].
    eapply inv_posted; [exact Hz|exact Hp|..]; rewrite ?Hho, ?Hlo; try apply Hz; try done. intros x. by rewrite Z.add_0_r.
  - apply record_refused in E5 as ->. rewrite Hb3. split_and!; [|done|done].
    apply (inv_shifted b1 _ (xfer (acc_id af) (acc_id at_) amt) (fun _ => 0) Hz); try apply Hz; try done.
    + by rewrite Hb3 in Hw.
    + by apply xfer_sum_zero; [apply Hc1|..].
    + intros x. by rewrite Z.add_0_r.
Qed.
End LedgerProofs.
