(* ===== verification/LedgerTheorems.v ===== *)
(** * What the ledger guarantees

    The transactions of the ledger as steps on the book, in any order and from
    any number of callers, units and sweeps; what holds in every book they reach;
    the whole operations as sequences of those steps; and the two ways a sweep can
    leave a book its audit objects to. *)

From S2P Require Import Prelude Text F64 Json Jobs Ledger LedgerProofs.

Module LedgerTheorems.
Import Ledger LedgerProofs.

(** ** Steps

    One committed transaction, or one statement outside of any, of a ledger of any
    unit [u], with whatever references and identifiers it is given. The expiry of a
    lot writes what it makes of a remainder and an available balance it has read,
    here any two numbers: nothing is claimed between the reading and the writing.
    [aborts] says whether a failed statement aborts its transaction, and
    [refusals] whether the transfer of an expiry may be refused by the index on
    references, which the code does not look at. *)
Section Steps.
Context (aborts refusals : bool).

Inductive step (b : Book) : Book -> Prop :=
  | step_open u owner fresh created b' :
      insert_account (mkAccount fresh owner u 0 0 created) b = Ok b' -> step b b'
  | step_top_up u owner amount reference expires_in now fresh lot t b' :
      0 < amount -> top_up_in u owner amount reference expires_in now fresh lot b = Ok (Some t, b') -> step b b'
  | step_consume u owner amount reference now fresh t b' :
      0 < amount -> consume_in u owner amount reference now fresh b = Ok (Some t, b') -> step b b'
  | step_hold u owner amount reference ttl now fresh h b' :
      0 < amount -> hold_in u owner amount reference ttl now fresh b = Ok (Some h, b') -> step b b'
  | step_capture u hold_id now fresh t b' :
      capture_in u hold_id now fresh b = Ok (Some t, b') -> step b b'
  | step_release hold_id b' :
      release_in hold_id b = Ok (true, b') -> step b b'
  | step_expire u l seen now fresh amount clean b' :
      l ∈ lots b -> expire_write u (lot_id l) (lot_account l) seen now fresh b = Ok (amount, clean, b') ->
      (clean = false -> refusals = true) -> step b (commit aborts clean b b').

Lemma step_inv b b' : step b b' -> Inv b -> Inv b'.
Proof.
  intros Hs Hi. destruct Hs as [| | | | | |u l seen now fresh amount clean b' Hl E _].
  - by eapply account_inv.
  - by eapply top_up_inv.
  - by eapply consume_inv.
  - by eapply hold_inv.
  - by eapply capture_inv.
  - by eapply release_inv.
  - destruct (expire_inv u l seen now fresh b amount clean b' Hi Hl E) as (Hi' & _). unfold commit. by destruct (_ && _).
Qed.

Lemma steps_inv b b' : rtc step b b' -> Inv b -> Inv b'.
Proof. induction 1; eauto using step_inv. Qed.

Lemma reachable_inv b : rtc step empty_book b -> Inv b.
Proof. intros H. eapply steps_inv; [exact H|apply inv_empty]. Qed.

(** Balances are what the entries add up to, unless a refused transfer was ignored
    and committed. *)
Lemma step_kept b b' : aborts = true \/ refusals = false -> Inv b -> step b b' -> Kept b -> Kept b'.
Proof.
  intros Har Hi Hs Hk. pose proof (inv_core b Hi) as Hc.
  destruct Hs as [u owner fresh created b' E|u owner amount reference expires_in now fresh lot t b' Ha E|u owner amount reference now fresh t b' Ha E
    |u owner amount reference ttl now fresh h b' Ha E|u hold_id now fresh t b' E|hold_id b' E|u l seen now fresh amount clean b' Hl E Hclean].
  - by eapply account_kept.
  - destruct (top_up_effect _ _ _ _ _ _ _ _ _ _ _ Hc E) as (? & ? & ? & Hp & _). by eapply kept_posted.
  - destruct (consume_effect _ _ _ _ _ _ _ _ _ Hc (inv_lots b Hi) Ha E) as (? & ? & ? & Hp & _). by eapply kept_posted.
  - destruct (hold_effect _ _ _ _ _ _ _ _ _ _ Hc E) as (? & ? & _ & _ & _ & _ & -> & _). by eapply kept_reserved.
  - destruct (capture_effect _ _ _ _ _ _ _ Hi E) as (? & ? & ? & ? & _ & _ & _ & _ & Hp & _). by eapply kept_posted.
  - destruct (release_effect _ _ _ Hi E) as (? & ? & _ & _ & _ & _ & _ & -> & _). by eapply kept_reserved.
  - destruct (expire_inv u l seen now fresh b amount clean b' Hi Hl E) as (_ & _ & H). unfold commit. destruct clean; [by apply H|].
    rewrite Hclean in Har by done. destruct Har as [->|]; [exact Hk|done].
Qed.

Lemma reachable_kept b : aborts = true \/ refusals = false -> rtc step empty_book b -> Kept b.
Proof.
  intros Har Hs. assert (H : Inv b /\ Kept b); [|apply H]. revert Hs.
  apply (rtc_ind_r (fun b => Inv b /\ Kept b) empty_book).
  - split; [apply inv_empty|]. by intros a ?%elem_of_nil.
  - intros b1 b2 _ H12 [Hi Hk]. split; [by eapply step_inv|by eapply step_kept].
Qed.

End Steps.

(** ** The audit *)

Lemma to_i64_small z : i64_min <= z <= i64_max -> Jobs.to_i64 z = z.
Proof.
  unfold i64_min, i64_max, Jobs.to_i64. intros Hz. destruct (Z.leb_spec 0 z).
  - rewrite !Z.mod_small by lia. destruct (Z.ltb_spec z (2 ^ 63)); lia.
  - replace (z mod 2 ^ 64) with (z + 2 ^ 64); [destruct (Z.ltb_spec (z + 2 ^ 64) (2 ^ 63)); lia|].
    symmetry. rewrite <- (Z.mod_add z 1 (2 ^ 64)) by lia. apply Z.mod_small. lia.
Qed.

Lemma to_i64_mod z : exists k, Jobs.to_i64 z = z + k * 2 ^ 64.
Proof.
  unfold Jobs.to_i64. pose proof (Z.div_mod z (2 ^ 64) ltac:(lia)).
  destruct (_ <? _); [exists (- (z / 2 ^ 64))|exists (- (z / 2 ^ 64) - 1)]; lia.
Qed.

Lemma to_i64_add a c : Jobs.to_i64 (Jobs.to_i64 a + c) = Jobs.to_i64 (a + c).
Proof.
  destruct (to_i64_mod a) as [k ->]. unfold Jobs.to_i64. replace (a + k * 2 ^ 64 + c) with (a + c + k * 2 ^ 64) by lia.
  by rewrite Z.mod_add by lia.
Qed.

(** A sum kept in an [i64] is the sum, wrapped once. *)
Lemma wrapping_sum {A} (f : A -> Z) l s :
  fold_left (fun s a => Jobs.to_i64 (s + f a)) l (Jobs.to_i64 s) = Jobs.to_i64 (s + sum_of f l).
Proof.
  revert s. induction l as [|a l IH]; intros s; cbn [fold_left]; [f_equal; cbn; lia|].
  rewrite to_i64_add, IH, sum_of_cons. f_equal. lia.
Qed.

(** Every account of the book is of unit [u]: one ledger on the database. *)
Definition single_unit (u : list Z) (b : Book) : Prop := forall a, a ∈ accounts b -> acc_unit a = u.

Lemma audit_account_kept b a : Inv b -> Kept b -> a ∈ accounts b -> audit_account b a = [].
Proof.
  intros Hi Hk Ha. unfold audit_account, entries_total.
  change 0 with (Jobs.to_i64 0) at 1 2. rewrite !wrapping_sum, !sum_of_filter.
  fold (entry_sum (acc_id a) (entries b)). rewrite <- (Hk a Ha). cbn [Z.add].
  rewrite to_i64_small, Z.eqb_refl by apply (core_width b (inv_core b Hi) a Ha). cbn [app].
  pose proof (held_nonneg b a Hi Ha). pose proof (inv_solvent b Hi a Ha) as Hs. unfold solvent in Hs.
  destruct (Z.ltb_spec (acc_held a) 0); [lia|]. cbn [orb]. destruct (Z.ltb_spec (Z.max (acc_balance a) 0) (acc_held a)); [|done].
  destruct (is_system a) eqn:Es; [done|]. case_bool_decide as Eo; [lia|lia].
Qed.

Lemma filter_every {A} (p : A -> bool) l : (forall a, a ∈ l -> p a = true) -> List.filter p l = l.
Proof.
  induction l as [|a l IH]; [done|]. intros H. cbn. rewrite (H a) by constructor. rewrite IH; [done|]. intros x Hx. apply H. by constructor.
Qed.

Lemma inv_audit u b : Inv b -> Kept b -> single_unit u b -> audit u b = [].
Proof.
  intros Hi Hk Hu. unfold audit. rewrite filter_every.
  2:{ intros a Ha. apply bool_decide_eq_true. by apply Hu. }
  assert (Hsum : fold_left (fun sum a => Jobs.to_i64 (sum + acc_balance a)) (accounts b) 0 = 0).
  { change 0 with (Jobs.to_i64 0) at 1. rewrite wrapping_sum. by rewrite (core_total b (inv_core b Hi)). }
  rewrite Hsum. cbn [Z.eqb]. rewrite app_nil_r. assert (Hall : forall a, a ∈ accounts b -> audit_account b a = []) by (intros; by apply audit_account_kept).
  clear -Hall. induction (accounts b) as [|a l IH]; [done|]. cbn. rewrite (Hall a) by constructor. cbn. apply IH. intros x Hx. apply Hall. by constructor.
Qed.

(** ** Whole operations are steps *)

Section Operations.
Context (aborts refusals : bool).
Local Abbreviation step := (step aborts refusals).

Definition one (b b' : Book) : step b b' -> rtc step b b' := rtc_once b b'.

Lemma ensure_steps u owner draws b : rtc step b (ensure_account u owner draws b).2.
Proof.
  unfold ensure_account. generalize (take 5 draws) as l, (@None LedgerError) as e. clear draws.
  induction l as [|[fresh created] l IH]; intros e; [constructor|]. cbn [ensure_attempts].
  destruct (find_account u owner b); [constructor|].
  destruct (insert_account _ b) as [b'|] eqn:E; [|apply IH]. apply one. by eapply step_open.
Qed.

Lemma finish_steps {A} (tx : result LedgerError (option A * Book)) winner b :
  (forall t b', tx = Ok (Some t, b') -> step b b') -> rtc step b (finish tx winner b).2.
Proof. intros H. unfold finish. destruct tx as [[[t|] b']|]; [|constructor..]. by apply one, (H t). Qed.

(** After making sure of an account, the rest. *)
Lemma ensure_then {A} u owner draws (k : Book -> result LedgerError A * Book) b :
  (forall b1, rtc step b b1 -> rtc step b1 (k b1).2) ->
  rtc step b (match ensure_account u owner draws b with (Err e, b1) => (Err e, b1) | (Ok _, b1) => k b1 end).2.
Proof.
  intros H. pose proof (ensure_steps u owner draws b) as He. destruct (ensure_account u owner draws b) as [[|] b1]; cbn in *; [|done].
  etrans; [exact He|]. by apply H.
Qed.

Lemma top_up_steps u b owner amount reference expires_in now fresh lot draws system_draws :
  rtc step b (top_up u owner amount reference expires_in now fresh lot draws system_draws b).2.
Proof.
  unfold top_up, positive. destruct (Z.leb_spec amount 0); [constructor|].
  destruct (transfer reference b); [constructor|]. apply ensure_then. intros b1 _. apply ensure_then. intros b2 _.
  apply finish_steps. intros t b' E. by eapply step_top_up.
Qed.

Lemma consume_steps u b owner amount reference now fresh draws system_draws :
  rtc step b (consume u owner amount reference now fresh draws system_draws b).2.
Proof.
  unfold consume, positive. destruct (Z.leb_spec amount 0); [constructor|].
  destruct (transfer reference b); [constructor|]. apply ensure_then. intros b1 _. apply ensure_then. intros b2 _.
  apply finish_steps. intros t b' E. by eapply step_consume.
Qed.

Lemma hold_steps u b owner amount reference ttl now fresh draws :
  rtc step b (hold u owner amount reference ttl now fresh draws b).2.
Proof.
  unfold hold, positive. destruct (Z.leb_spec amount 0); [constructor|].
  destruct (hold_by_reference reference b); [constructor|]. apply ensure_then. intros b1 _.
  apply finish_steps. intros t b' E. by eapply step_hold.
Qed.

Lemma release_steps b hold_id : rtc step b (release hold_id b).2.
Proof.
  unfold release. destruct (release_in hold_id b) as [[[|] b']|] eqn:E; [|constructor..]. apply one. by eapply step_release.
Qed.

Lemma capture_steps u b hold_id now fresh system_draws : rtc step b (capture u hold_id now fresh system_draws b).2.
Proof.
  unfold capture. apply ensure_then. intros b1 _. destruct (capture_in u hold_id now fresh b1) as [[[t|] b']|] eqn:E; [|apply rtc_refl..].
  apply one. by eapply step_capture.
Qed.

Lemma release_effect_any hold_id b released b' :
  Inv b -> release_in hold_id b = Ok (released, b') -> rtc step b b' /\ lots b' = lots b.
Proof.
  intros Hi E. destruct released.
  - split; [apply one; by eapply step_release|]. by destruct (release_effect _ _ _ Hi E) as (h & a & _ & _ & _ & _ & _ & -> & _).
  - unfold release_in in E. destruct (settle_hold Released hold_id b) as [won b1] eqn:Es.
    destruct (won =? 0)%nat eqn:Ew; [|destruct (find_hold hold_id b1); [|done]; by destruct (move_account _ _ _ _ b1) as [[]|]].
    apply Ok_inj in E. injection E as ->. apply Nat.eqb_eq in Ew as ->.
    assert (b' = b) as ->; [|by split; [constructor|]].
    unfold settle_hold in Es. injection Es as Hl <-. destruct b as [ac tr en ho lo]. unfold with_holds. cbn in *. f_equal.
    apply length_zero_iff_nil in Hl. revert Hl. clear. induction ho as [|h ho IH]; [done|]. cbn. destruct (settles hold_id h); [done|].
    intros H. by rewrite IH.
Qed.

Lemma release_stale_steps stale s b :
  Inv b -> rtc step b (release_stale stale s b).2 /\ lots (release_stale stale s b).2 = lots b.
Proof.
  revert s b. induction stale as [|h stale IH]; intros s b Hi; cbn [release_stale]; [by split; [constructor|]|].
  destruct (release_in (hd_id h) b) as [[released b1]|] eqn:E; [|by split; [constructor|]].
  destruct (release_effect_any _ _ _ _ Hi E) as (H1 & H2).
  destruct (IH (mkSweep (if released then S (holds_released s) else holds_released s) (lots_expired s) (amount_expired s)) b1) as (J1 & J2).
  { by eapply steps_inv. }
  split; [etrans; [exact H1|exact J1]|congruence].
Qed.

(** The lots a sweep set out to expire, by id and account. *)
Definition lot_label (t : Lot) : list Z * list Z := (lot_id t, lot_account t).

Lemma labels_drawn d l : map lot_label (drawn d l) = map lot_label l.
Proof. unfold drawn. rewrite map_map. done. Qed.

Lemma expire_dead_steps u dead now ids s b :
  refusals = true -> Inv b -> (forall d, d ∈ dead -> lot_label d ∈ map lot_label (lots b)) ->
  rtc step b (expire_dead u aborts dead now ids s b).2.
Proof.
  intros Hr. revert ids s b. induction dead as [|d dead IH]; intros ids s b Hi Hd; cbn [expire_dead]; [constructor|].
  destruct (expire_read (lot_id d) (lot_account d) b) as [[seen|]|]; [| |apply rtc_refl].
  2:{ apply IH; [done|]. intros x Hx. apply Hd. by constructor. }
  destruct (expire_write u (lot_id d) (lot_account d) seen now (hd [] ids) b) as [[[amount clean] b']|] eqn:Ew; [|apply rtc_refl].
  pose proof (Hd d ltac:(constructor)) as Hin. rewrite list_elem_of_In, in_map_iff in Hin. destruct Hin as (l & Hlab & Hl%list_elem_of_In).
  injection Hlab as El Ea. rewrite <- El, <- Ea in Ew.
  destruct (expire_inv u l seen now (hd [] ids) b amount clean b' Hi Hl Ew) as (Hinv & Hlots & _).
  assert (Hst : step b (commit aborts clean b b')) by (by eapply step_expire).
  etrans; [apply one, Hst|]. apply IH; [by eapply step_inv|]. intros x Hx. specialize (Hd x ltac:(by constructor)). unfold commit.
  destruct (_ && _); [done|]. by rewrite Hlots, labels_drawn.
Qed.

Lemma sweep_steps u now ids system_draws b :
  refusals = true -> Inv b -> rtc step b (sweep u aborts now ids system_draws b).2.
Proof.
  intros Hr Hi. unfold sweep. apply ensure_then. intros b1 H01. assert (Hi1 : Inv b1) by (by eapply steps_inv).
  destruct (release_stale_steps (List.filter (stale_hold now) (holds b1)) (mkSweep 0 0 0) b1 Hi1) as (H1 & H2).
  destruct (release_stale _ _ b1) as [[s|] b2]; cbn [snd] in *; [|done]. etrans; [exact H1|].
  apply expire_dead_steps; [done|by eapply steps_inv|].
  intros d Hd. apply list_elem_of_In, filter_In in Hd as [Hd _]. by apply list_elem_of_In, in_map.
Qed.

(** ** References *)

Lemma record_transfers kind reference from to amount metadata now fresh b t b' :
  record kind reference from to amount metadata now fresh b = Ok (t, b') -> exists l, transfers b' = transfers b ++ l.
Proof.
  intros E. destruct t as [t|].
  - destruct (record_spec _ _ _ _ _ _ _ _ _ _ _ E) as (_ & _ & es & ->). by eexists.
  - unfold record in E. destruct (insert_transfer _ b) as [b1|].
    + unfold record_side in E. destruct (balance_of _ _); [|done]. by destruct (balance_of _ _).
    + injection E as <-. exists []. by rewrite app_nil_r.
Qed.

Lemma move_account_frame key guard db dh b n b' : move_account key guard db dh b = Ok (n, b') -> transfers b' = transfers b.
Proof. unfold move_account. destruct (move_rows _ _ _ _ _) as [[m l]|]; [|done]. by intros [= <- <-]. Qed.

Lemma expire_write_transfers u key account_id seen now fresh b amount clean b' :
  expire_write u key account_id seen now fresh b = Ok (amount, clean, b') -> exists l, transfers b' = transfers b ++ l.
Proof.
  unfold expire_write. destruct seen as [remaining had]. destruct (_ <=? 0); [intros [= <- <- <-]; exists []; by rewrite app_nil_r|].
  set (b1 := with_lots b _). destruct (account_in u SYSTEM_EXPIRY b1); [|done].
  unfold debit_available. destruct (move_account account_id _ _ _ b1) as [[n b2]|] eqn:E1; [|done].
  apply move_account_frame in E1 as Ht1. destruct (n =? 1)%nat; cbn [negb].
  2:{ intros [= <- <- <-]. exists []. by rewrite Ht1, app_nil_r. }
  unfold credit. destruct (move_account _ _ _ _ b2) as [[n3 b3]|] eqn:E3; [|done]. apply move_account_frame in E3 as Ht3.
  destruct (record _ _ _ _ _ _ _ _ b3) as [[t b4]|] eqn:E4; [|done]. intros [= <- <- <-].
  apply record_transfers in E4 as [l ->]. exists l. by rewrite Ht3, Ht1.
Qed.

(** The row a top-up inserts, read back, is the transfer it returns. *)
Lemma top_up_row u owner amount reference expires_in now fresh lot b t b' :
  top_up_in u owner amount reference expires_in now fresh lot b = Ok (Some t, b') ->
  exists r, transfers b' = transfers b ++ [r] /\ (forall x, x ∈ transfers b -> bool_decide (tr_reference x = reference) = false) /\
    bool_decide (tr_reference r = reference) = true /\ (0 <= now <= i64_max -> transfer_from r = t).
Proof.
  unfold top_up_in. destruct (account_in u owner b) as [ra|]; [|done]. destruct (account_in u SYSTEM_TOPUP b) as [rs|]; [|done].
  unfold debit_unchecked, credit. destruct (move_account _ _ _ _ b) as [[n1 b1]|] eqn:E1; [|done].
  destruct (move_account _ _ _ _ b1) as [[n2 b2]|] eqn:E2; [|done].
  apply move_account_frame in E1 as Ht1. apply move_account_frame in E2 as Ht2.
  destruct (record _ _ _ _ _ _ _ _ b2) as [[[x|] b3]|] eqn:E3; [|done..].
  destruct (record_spec _ _ _ _ _ _ _ _ _ _ _ E3) as (Et & (r & ? & ? & _ & _ & Hno & _) & es & Hb3').
  unfold insert_lot. destruct (existsb _ _); [done|]. intros [= <- <-]. rewrite Hb3'. cbn. rewrite Ht2, Ht1 in *. eexists. split_and!; [reflexivity| | |].
  - intros y Hy. apply bool_decide_eq_false. intros Ey. apply Hno. rewrite <- Ey. apply list_elem_of_In, in_map, list_elem_of_In, Hy.
  - by apply bool_decide_eq_true.
  - intros Hnow. unfold transfer_from. cbn. rewrite to_i64_small by (unfold i64_min; lia). rewrite Et. f_equal. lia.
Qed.

Lemma step_transfers b b' : Inv b -> step b b' -> exists l, transfers b' = transfers b ++ l.
Proof.
  intros Hi Hs. pose proof (inv_core b Hi) as Hc.
  destruct Hs as [u owner fresh created b' E|u owner amount reference expires_in now fresh lot t b' Ha E|u owner amount reference now fresh t b' Ha E
    |u owner amount reference ttl now fresh h b' Ha E|u hold_id now fresh t b' E|hold_id b' E|u l seen now fresh amount clean b' Hl E Hclean].
  - exists []. rewrite app_nil_r. unfold insert_account in E. destruct (existsb _ _); [done|]. by apply Ok_inj in E as <-.
  - destruct (top_up_effect _ _ _ _ _ _ _ _ _ _ _ Hc E) as (? & ? & ? & [_ _ _ _ (r & _ & _ & Er & _)] & _). by exists [r].
  - destruct (consume_effect _ _ _ _ _ _ _ _ _ Hc (inv_lots b Hi) Ha E) as (? & ? & ? & [_ _ _ _ (r & _ & _ & Er & _)] & _). by exists [r].
  - destruct (hold_effect _ _ _ _ _ _ _ _ _ _ Hc E) as (? & ? & _ & _ & _ & _ & -> & _). exists []. by rewrite app_nil_r.
  - destruct (capture_effect _ _ _ _ _ _ _ Hi E) as (? & ? & ? & ? & _ & _ & _ & _ & [_ _ _ _ (r & _ & _ & Er & _)] & _). by exists [r].
  - destruct (release_effect _ _ _ Hi E) as (? & ? & _ & _ & _ & _ & _ & -> & _). exists []. by rewrite app_nil_r.
  - unfold commit. destruct (_ && _); [exists []; by rewrite app_nil_r|]. by eapply expire_write_transfers.
Qed.

Lemma find_prefix {A} (p : A -> bool) l l' a : find p l = Some a -> find p (l ++ l') = Some a.
Proof. induction l as [|x l IH]; [done|]. cbn. by destruct (p x). Qed.

Lemma find_last {A} (p : A -> bool) l a : (forall x, x ∈ l -> p x = false) -> p a = true -> find p (l ++ [a]) = Some a.
Proof.
  intros H Ha. induction l as [|x l IH]; cbn; [by rewrite Ha|]. rewrite (H x) by constructor. apply IH. intros y Hy. apply H. by constructor.
Qed.

Lemma steps_transfer reference b b' t : Inv b -> rtc step b b' -> transfer reference b = Some t -> transfer reference b' = Some t.
Proof.
  intros Hi Hs. induction Hs as [|b b1 b2 H1 H2 IH]; [done|]. intros Ht. apply IH; [by eapply step_inv|].
  destruct (step_transfers _ _ Hi H1) as [l E]. unfold transfer in *. rewrite E. destruct (find _ (transfers b)) as [r|] eqn:Ef; [|done].
  by rewrite (find_prefix _ _ _ _ Ef).
Qed.

(** A finished top-up has left its transfer under its reference. *)
Lemma top_up_recorded u owner amount reference expires_in now fresh lot draws system_draws b t b' :
  Inv b -> 0 <= now <= i64_max ->
  top_up u owner amount reference expires_in now fresh lot draws system_draws b = (Ok t, b') ->
  0 < amount /\ transfer reference b' = Some t.
Proof.
  intros Hi Hnow. unfold top_up, positive. destruct (Z.leb_spec amount 0); [done|].
  destruct (transfer reference b) as [e|] eqn:Ee; [intros [= -> ->]; done|].
  pose proof (ensure_steps u owner draws b) as He1. destruct (ensure_account u owner draws b) as [[|] b1]; cbn [snd] in He1; [|done].
  pose proof (ensure_steps u SYSTEM_TOPUP system_draws b1) as He2.
  destruct (ensure_account u SYSTEM_TOPUP system_draws b1) as [[|] b2]; cbn [snd] in He2; [|done].
  assert (Hi2 : Inv b2) by (eapply steps_inv; [exact He2|]; eapply steps_inv; [exact He1|done]).
  unfold finish. destruct (top_up_in _ _ _ _ _ _ _ _ b2) as [[[x|] b3]|] eqn:E; [| |done].
  2:{ destruct (transfer reference b2) eqn:Ew; [|done]. intros [= -> ->]. done. }
  intros [= -> ->]. split; [done|]. unfold transfer.
  destruct (top_up_row _ _ _ _ _ _ _ _ _ _ _ E) as (r & Etr & Hno & Er & Hfrom).
  rewrite Etr, (find_last _ _ _ Hno Er). cbn. by rewrite Hfrom by done.
Qed.

End Operations.

(** ** When spending succeeds *)

Lemma move_rows_ok key guard db dh l :
  (forall a, a ∈ l -> acc_id a = key -> guard a = true -> width (shift db dh a)) -> exists n l', move_rows key guard db dh l = Ok (n, l').
Proof.
  induction l as [|a l IH]; intros H; [by do 2 eexists|]. cbn [move_rows].
  destruct IH as (n & l' & ->); [intros x Hx; apply H; by constructor|].
  destruct (bool_decide (acc_id a = key)) eqn:Ek; cbn [andb]; [|by do 2 eexists]. apply bool_decide_eq_true in Ek.
  destruct (guard a) eqn:Eg; [|by do 2 eexists]. destruct (H a ltac:(constructor) Ek Eg) as [W1%in_i64_spec W2%in_i64_spec].
  cbn in W1, W2. rewrite W1, W2. by do 2 eexists.
Qed.

(** The account of one row, debited and credited as asked. *)
Lemma move_account_one key guard db dh b a :
  NoDup (map acc_id (accounts b)) -> a ∈ accounts b -> acc_id a = key -> guard a = true -> width (shift db dh a) ->
  move_account key guard db dh b = Ok (1%nat, with_accounts b (moved (point key db) (point key dh) (accounts b))).
Proof.
  intros Hc Ha Hk Hg Hw. destruct (move_rows_ok key guard db dh (accounts b)) as (n & l & E).
  { intros x Hx Ex _. assert (x = a) as -> by (apply (key_unique acc_id (accounts b)); [done..|congruence]). done. }
  unfold move_account. rewrite E. destruct (move_rows_spec _ _ _ _ _ _ _ Hc E) as [(_ & _ & H)|(-> & -> & _)]; [|done].
  by rewrite (H a Ha Hk) in Hg.
Qed.

Lemma move_account_none key guard db dh b a :
  NoDup (map acc_id (accounts b)) -> a ∈ accounts b -> acc_id a = key -> guard a = false -> move_account key guard db dh b = Ok (0%nat, b).
Proof.
  intros Hc Ha Hk Hg. destruct (move_rows_ok key guard db dh (accounts b)) as (n & l & E).
  { intros x Hx Ex Gx. assert (x = a) as -> by (apply (key_unique acc_id (accounts b)); [done..|congruence]). congruence. }
  unfold move_account. rewrite E. destruct (move_rows_spec _ _ _ _ _ _ _ Hc E) as [(-> & -> & _)|(-> & -> & x & Hx & Ex & Gx & _)].
  - by rewrite with_accounts_same.
  - assert (x = a) as -> by (apply (key_unique acc_id (accounts b)); [done..|congruence]). congruence.
Qed.

Lemma balance_of_known key b : key ∈ map acc_id (accounts b) -> exists z, balance_of key b = Ok z.
Proof.
  intros (a & Ha & <-)%known_account. unfold balance_of. destruct (find _ _) as [r|] eqn:E; [by eexists|].
  apply (find_miss _ _ _ E) in Ha. by rewrite bool_decide_true in Ha.
Qed.

Lemma record_ok kind reference from to amount metadata now fresh b :
  from ∈ map acc_id (accounts b) -> to ∈ map acc_id (accounts b) ->
  (fresh ∉ map tr_id (transfers b)) -> transfer reference b = None ->
  exists b', record kind reference from to amount metadata now fresh b = Ok (Some (mkTransfer fresh reference kind from to amount now metadata), b').
Proof.
  intros Hf Ht Hid Href. unfold record, insert_transfer. destruct (existsb _ _) eqn:E.
  - apply existsb_exists in E as (t & Hin%list_elem_of_In & Hp). cbn in Hp. apply orb_true_iff in Hp as [Hp|Hp].
    + apply bool_decide_eq_true in Hp. destruct Hid. rewrite <- Hp. apply list_elem_of_In, in_map, list_elem_of_In, Hin.
    + unfold transfer in Href. destruct (find _ (transfers b)) eqn:Ef; [done|]. pose proof (find_miss _ _ _ Ef Hin) as H. cbn in H. congruence.
  - unfold record_side. destruct (balance_of_known from (with_transfers b (transfers b ++ [mkTransfer fresh reference kind from to amount (Jobs.to_i64 now) metadata])) Hf) as [z1 ->].
    set (b2 := insert_entry _ _). destruct (balance_of_known to b2 Ht) as [z2 ->]. by eexists.
Qed.

Lemma find_account_spec u owner b a :
  find_account u owner b = Some a ->
  account_in u owner b = Ok a /\
  exists r, r ∈ accounts b /\ acc_owner r = owner /\ acc_unit r = u /\ a = account_from r.
Proof.
  unfold account_in. intros E. rewrite E. split; [done|]. unfold find_account in E. destruct (find _ _) as [r|] eqn:Ef; [|done]. injection E as <-.
  apply find_elem in Ef as [Hr Ho]. apply andb_true_iff in Ho as [?%bool_decide_eq_true ?%bool_decide_eq_true]. by exists r.
Qed.

Lemma ensure_present u owner draws b a : draws <> [] -> find_account u owner b = Some a -> ensure_account u owner draws b = (Ok tt, b).
Proof. intros Hd E. unfold ensure_account. destruct draws as [|[f c] draws]; [done|]. cbn. by rewrite E. Qed.

Lemma moved_find u owner db dh b a :
  find_account u owner b = Some a ->
  find_account u owner (with_accounts b (moved db dh (accounts b))) = Some (shift (db (acc_id a)) (dh (acc_id a)) a).
Proof.
  unfold find_account. cbn. induction (accounts b) as [|x l IH]; [done|]. cbn.
  change (owned u owner (shift (db (acc_id x)) (dh (acc_id x)) x)) with (owned u owner x). destruct (owned u owner x); [|done].
  cbn. intros [= <-]. done.
Qed.

Lemma consume_in_ok u owner amount reference now fresh b a s :
  Inv b -> 0 < amount -> find_account u owner b = Some a -> find_account u SYSTEM_CONSUMPTION b = Some s ->
  transfer reference b = None -> (fresh ∉ map tr_id (transfers b)) -> acc_balance s + amount <= i64_max -> amount <= available a ->
  exists b', consume_in u owner amount reference now fresh b =
    Ok (Some (mkTransfer fresh reference Consume (acc_id a) (acc_id s) amount now Json.Null), b').
Proof.
  intros Hi Hamt Ha Hs Href Hid Hmax Hle. pose proof (inv_core b Hi) as Hc.
  destruct (find_account_spec _ _ _ _ Ha) as (Ea & ra & Hra & _ & _ & ->). destruct (find_account_spec _ _ _ _ Hs) as (Es & rs & Hrs & Os & _ & ->).
  unfold consume_in. rewrite Ea, Es. unfold available in Hle. cbn [account_from acc_id acc_balance acc_held] in *.
  pose proof (held_nonneg b ra Hi Hra) as Hh. pose proof (core_width b Hc ra Hra) as [Wa Wh]. pose proof (core_width b Hc rs Hrs) as [Ws Wsh].
  unfold debit_available. rewrite (move_account_one _ _ _ _ b ra (core_ids b Hc) Hra eq_refl).
  2:{ unfold covers. apply Z.leb_le. lia. }
  2:{ unfold width, shift, i64_min, i64_max in *. cbn. lia. }
  cbn [Nat.eqb negb]. unfold credit. set (b1 := with_accounts b _).
  set (rs' := shift (point (acc_id ra) (- amount) (acc_id rs)) (point (acc_id ra) 0 (acc_id rs)) rs).
  assert (Hnd1 : NoDup (map acc_id (accounts b1))) by (unfold b1; cbn [accounts with_accounts]; rewrite moved_ids; apply Hc).
  rewrite (move_account_one (acc_id rs) _ _ _ b1 rs'); [|done|by apply elem_of_moved; exists rs|done|done|].
  2:{ unfold rs'. rewrite shift_shift, point_0. unfold width, shift, point, i64_min, i64_max in *. cbn.
      assert (Hs0 : acc_held rs <= acc_balance rs) by (apply solvent_plain; [rewrite Os; discriminate|by apply (inv_solvent b Hi)]).
      pose proof (held_nonneg b rs Hi Hrs). case_bool_decide as Eq; [|lia]. apply (same_id b) in Eq as ->; [lia|done..]. }
  set (b2 := with_accounts b1 _). set (b3 := draw_lots _ _ b2).
  assert (Hids : map acc_id (accounts b3) = map acc_id (accounts b)) by (unfold b3, b2, b1; cbn [draw_lots accounts with_accounts with_lots]; by rewrite !moved_ids).
  apply (record_ok _ _ (acc_id ra) (acc_id rs) _ _ _ _ b3); [rewrite Hids; by apply elem_of_ids|rewrite Hids; by apply elem_of_ids|done|done].
Qed.

Lemma consume_in_short u owner amount reference now fresh b a s :
  Inv b -> find_account u owner b = Some a -> find_account u SYSTEM_CONSUMPTION b = Some s -> available a < amount ->
  consume_in u owner amount reference now fresh b = Err (Insufficient owner amount (available a)).
Proof.
  intros Hi Ha Hs Hlt. destruct (find_account_spec _ _ _ _ Ha) as (Ea & ra & Hra & _ & _ & ->). destruct (find_account_spec _ _ _ _ Hs) as (Es & _).
  unfold consume_in. rewrite Ea, Es. unfold debit_available.
  rewrite (move_account_none _ _ _ _ b ra (core_ids b Hi) Hra eq_refl); [done|]. unfold covers, available in *. cbn in Hlt. apply Z.leb_gt. lia.
Qed.

(** C26. Spending is decided by what is available and by nothing else: with
    enough, [consume] returns the transfer, takes the amount from the account
    and gives it to [system:consumption], and draws it from the lots that expire
    first; with less, it refuses, says what there was, and changes nothing. *)
Theorem consume_exact aborts refusals u owner amount reference now fresh attempts system_attempts b a s :
  rtc (step aborts refusals) empty_book b -> 0 < amount -> attempts <> [] -> system_attempts <> [] ->
  find_account u owner b = Some a -> find_account u SYSTEM_CONSUMPTION b = Some s ->
  transfer reference b = None -> (fresh ∉ map tr_id (transfers b)) -> acc_balance s + amount <= i64_max ->
  let r := consume u owner amount reference now fresh attempts system_attempts b in
  if amount <=? available a then
    r.1 = Ok (mkTransfer fresh reference Consume (acc_id a) (acc_id s) amount now Json.Null) /\
    (owner <> SYSTEM_CONSUMPTION ->
       find_account u owner r.2 = Some (shift (- amount) 0 a) /\ find_account u SYSTEM_CONSUMPTION r.2 = Some (shift amount 0 s)) /\
    (exists d, lots r.2 = drawn d (lots b) /\ draws (acc_id a) amount (lots b) d)
  else r = (Err (Insufficient owner amount (available a)), b).
Proof.
  intros Hreach Hamt Hd1 Hd2 Ha Hs Href Hid Hmax. pose proof (reachable_inv _ _ b Hreach) as Hi. pose proof (inv_core b Hi) as Hc.
  unfold consume, positive. rewrite (proj2 (Z.leb_gt amount 0)) by lia. rewrite Href.
  rewrite (ensure_present u owner attempts b a), (ensure_present u SYSTEM_CONSUMPTION system_attempts b s) by done.
  destruct (Z.leb_spec amount (available a)) as [Hle|Hlt].
  2:{ by rewrite (consume_in_short u owner amount reference now fresh b a s). }
  destruct (consume_in_ok u owner amount reference now fresh b a s Hi Hamt Ha Hs Href Hid Hmax Hle) as [b' E]. rewrite E. cbn [finish fst snd].
  destruct (consume_effect _ _ _ _ _ _ _ _ _ Hc (inv_lots b Hi) Hamt E) as (af & at_ & d & Hp & Of & Uf & Ot & Ut & _ & _ & Hl & Hd & Et).
  destruct (find_account_spec _ _ _ _ Ha) as (_ & ra & Hra & Ora & Ura & ->). destruct (find_account_spec _ _ _ _ Hs) as (_ & rs & Hrs & Ors & Urs & ->).
  assert (af = ra) as -> by (apply (same_owner b); [done|apply Hp|done|congruence|congruence]).
  assert (at_ = rs) as -> by (apply (same_owner b); [done|apply Hp|done|congruence|congruence]).
  split; [done|]. split; [|by exists d]. intros Hne.
  assert (Hids : acc_id ra <> acc_id rs) by (intros Eq; apply (same_id b) in Eq as ->; [congruence|done..]).
  unfold find_account in *. rewrite (posted_accounts _ _ _ _ _ _ _ Hp).
  pose proof (moved_find u owner (xfer (acc_id ra) (acc_id rs) amount) (fun _ => 0) b _ Ha) as M1.
  pose proof (moved_find u SYSTEM_CONSUMPTION (xfer (acc_id ra) (acc_id rs) amount) (fun _ => 0) b _ Hs) as M2.
  unfold find_account in M1, M2. cbn [accounts with_accounts] in M1, M2. rewrite M1, M2.
  unfold xfer, point. cbn [account_from acc_id]. rewrite !bool_decide_true, !bool_decide_false by (done || congruence).
  rewrite Z.add_0_r, bool_decide_true by done. done.
Qed.

(** A book to show the theorems on: one owner topped up with 100, of which 60 may
    expire, 30 reserved, 20 spent. *)
Definition credits : list Z := lit "credits".
Definition five (s : string) : list (list Z * Z) := repeat (lit s, 100) 5.

Definition example_book : Book :=
  let b := (top_up credits (lit "user:1") 60 (lit "pay1") (Some 50) 100 (lit "t1") (lit "l1") (five "a1") (five "a2") empty_book).2 in
  let b := (top_up credits (lit "user:1") 40 (lit "pay2") None 101 (lit "t2") (lit "l2") (five "x") (five "x") b).2 in
  let b := (hold credits (lit "user:1") 30 (lit "job") 10 102 (lit "h1") (five "x") b).2 in
  (consume credits (lit "user:1") 20 (lit "buy") 103 (lit "t3") (five "x") (five "a3") b).2.

Lemma example_reachable aborts refusals : rtc (step aborts refusals) empty_book example_book.
Proof.
  unfold example_book. etrans; [|apply consume_steps]. etrans; [|apply hold_steps]. etrans; [|apply top_up_steps]. apply top_up_steps.
Qed.

Lemma consume_exact_witness :
  let r := consume credits (lit "user:1") 50 (lit "more") 104 (lit "t4") (five "x") (five "x") example_book in
  r.1 = Ok (mkTransfer (lit "t4") (lit "more") Consume (lit "a1") (lit "a3") 50 104 Json.Null) /\
  (lit "user:1" <> SYSTEM_CONSUMPTION ->
     find_account credits (lit "user:1") r.2 = Some (mkAccount (lit "a1") (lit "user:1") credits 30 30 100) /\
     find_account credits SYSTEM_CONSUMPTION r.2 = Some (mkAccount (lit "a3") SYSTEM_CONSUMPTION credits 70 0 100)) /\
  (exists dr, lots r.2 = drawn dr (lots example_book) /\ draws (lit "a1") 50 (lots example_book) dr).
Proof.
  exact (consume_exact false true credits (lit "user:1") 50 (lit "more") 104 (lit "t4") (five "x") (five "x") example_book
    (mkAccount (lit "a1") (lit "user:1") credits 80 30 100) (mkAccount (lit "a3") SYSTEM_CONSUMPTION credits 20 0 100)
    (example_reachable false true) ltac:(lia) ltac:(discriminate) ltac:(discriminate) eq_refl eq_refl eq_refl
    ltac:(apply (bool_decide_eq_true_1 _); vm_compute; reflexivity) ltac:(vm_compute; discriminate)).
Defined.

(** Two sweeps that read the same lot before either has written, on a database
    where a failed statement does not abort its transaction. *)
Definition raced (aborts : bool) : Book :=
  let b := (top_up credits (lit "user:1") 50 (lit "pay1") (Some 50) 100 (lit "t1") (lit "l1") (five "a1") (five "a2") empty_book).2 in
  let b := (top_up credits (lit "user:1") 60 (lit "pay2") None 101 (lit "t2") (lit "l2") (five "x") (five "x") b).2 in
  let b := (ensure_account credits SYSTEM_EXPIRY (five "a3") b).2 in
  let expires fresh b :=
    match expire_write credits (lit "l1") (lit "a1") (50, 110) 150 fresh b with
    | Ok (_, clean, b') => commit aborts clean b b'
    | Err _ => b
    end in
  expires (lit "t4") (expires (lit "t3") b).

Lemma raced_reachable aborts : rtc (step aborts true) empty_book (raced aborts).
Proof.
  unfold raced. cbv zeta. set (b0 := (ensure_account credits SYSTEM_EXPIRY (five "a3") _).2).
  assert (H0 : rtc (step aborts true) empty_book b0).
  { unfold b0. etrans; [|apply ensure_steps]. etrans; [|apply top_up_steps]. apply top_up_steps. }
  assert (Hone : forall fresh b, (exists l, l ∈ lots b /\ lot_id l = lit "l1" /\ lot_account l = lit "a1") ->
    rtc (step aborts true) b (match expire_write credits (lit "l1") (lit "a1") (50, 110) 150 fresh b with
      | Ok (_, clean, b') => commit aborts clean b b' | Err _ => b end)).
  { intros fresh b (l & Hl & <- & <-). destruct (expire_write _ _ _ _ _ _ b) as [[[amount clean] b']|] eqn:E; [|constructor].
    apply rtc_once. by eapply step_expire. }
  etrans; [exact H0|]. etrans; [apply (Hone (lit "t3"))|apply (Hone (lit "t4"))].
  - exists (mkLot (lit "l1") (lit "a1") (lit "t1") 50 50 (Some 150) 100). split; [|done]. vm_compute. left.
  - exists (mkLot (lit "l1") (lit "a1") (lit "t1") 50 0 (Some 150) 100). split; [|done]. destruct aborts; vm_compute; left.
Qed.

(** C24. The book balances. In whatever order transactions of any number of callers
    and ledgers commit, with any references and identifiers and any two sweeps of
    one lot racing each other: the balances of all accounts add up to nothing, and
    the entries are, in order, the two equal and opposite sides of the transfers.
    Unless an expiry whose transfer was refused is committed all the same (which
    takes a sweep that races another, or a caller who took its reference, on a
    database that does not abort the transaction of a failed statement), the audit
    of every account finds nothing, and while the database holds one unit the
    audit of the ledger finds nothing. *)
Theorem ledger_always_audits aborts refusals b :
  rtc (step aborts refusals) empty_book b ->
  sum_of acc_balance (accounts b) = 0 /\ map side (entries b) = concat (map sides (transfers b)) /\
  (aborts = true \/ refusals = false ->
     (forall a, a ∈ accounts b -> audit_account b a = []) /\ forall u, single_unit u b -> audit u b = []).
Proof.
  intros Hs. pose proof (reachable_inv _ _ b Hs) as Hi. split_and!; [apply Hi|apply Hi|]. intros Har.
  pose proof (reachable_kept _ _ b Har Hs) as Hk. split; [intros a Ha; by apply audit_account_kept|intros u Hu; by apply inv_audit].
Qed.

Lemma ledger_always_audits_witness :
  audit credits (raced true) = [] /\ map acc_balance (accounts (raced true)) = [60; -110; 50] /\
  sum_of acc_balance (accounts (raced false)) = 0 /\ map acc_balance (accounts (raced false)) = [10; -110; 100].
Proof.
  split_and!; [|vm_compute; reflexivity| |vm_compute; reflexivity].
  - apply (ledger_always_audits true true (raced true) (raced_reachable true)); [left; reflexivity|].
    intros a Ha. apply list_elem_of_In in Ha. vm_compute in Ha. repeat destruct Ha as [<-|Ha]; [reflexivity..|destruct Ha].
  - apply (ledger_always_audits false true (raced false) (raced_reachable false)).
Defined.

(** C25. Nobody overspends: in every book that can arise, whatever is interleaved
    with whatever, every account but [system:topup] has at least what is reserved
    on it, what is reserved is what its open holds add up to, and the balance fits
    an [i64]. (Its lots may promise more: two racing sweeps, and a sweep racing a
    consume, take from an account what is no longer in the lot they expire.) *)
Theorem never_overdrawn aborts refusals b a :
  rtc (step aborts refusals) empty_book b -> a ∈ accounts b -> acc_owner a <> SYSTEM_TOPUP ->
  0 <= acc_held a <= acc_balance a /\ acc_held a = hold_sum (acc_id a) (holds b) /\ acc_balance a <= i64_max.
Proof.
  intros Hi%reachable_inv Ha Ho. pose proof (held_nonneg b a Hi Ha). pose proof (inv_solvent b Hi a Ha) as Hs.
  rewrite solvent_plain in Hs by done. pose proof (core_width b Hi a Ha) as [? _].
  split_and!; [lia|lia|by apply (inv_held b Hi)|lia].
Qed.

Lemma never_overdrawn_witness :
  let a := mkAccount (lit "a1") (lit "user:1") (lit "credits") 80 30 100 in
  let a' := mkAccount (lit "a1") (lit "user:1") (lit "credits") 10 0 100 in
  (0 <= acc_held a <= acc_balance a /\ acc_held a = hold_sum (acc_id a) (holds example_book) /\ acc_balance a <= i64_max) /\
  0 <= acc_held a' <= acc_balance a' /\ acc_held a' = hold_sum (acc_id a') (holds (raced false)) /\ acc_balance a' <= i64_max.
Proof.
  intros a a'. split.
  - apply (never_overdrawn false true); [exact (example_reachable false true)| |discriminate]. apply list_elem_of_In. vm_compute. left. reflexivity.
  - apply (never_overdrawn false true); [exact (raced_reachable false)| |discriminate]. apply list_elem_of_In. vm_compute. left. reflexivity.
Defined.

(** A reference moves value once: after a top-up has returned, whatever is
    committed meanwhile, every later top-up under the same reference returns the
    same transfer and changes nothing. *)
Theorem reference_moves_once aborts refusals u owner amount reference expires_in now fresh lot attempts system_attempts b t b1 b2
    u' owner' amount' expires_in' now' fresh' lot' attempts' system_attempts' :
  rtc (step aborts refusals) empty_book b -> 0 <= now <= i64_max -> 0 < amount' ->
  top_up u owner amount reference expires_in now fresh lot attempts system_attempts b = (Ok t, b1) -> rtc (step aborts refusals) b1 b2 ->
  top_up u' owner' amount' reference expires_in' now' fresh' lot' attempts' system_attempts' b2 = (Ok t, b2).
Proof.
  intros Hi%reachable_inv Hnow Ha E Hs.
  pose proof (top_up_steps aborts refusals u b owner amount reference expires_in now fresh lot attempts system_attempts) as H1. rewrite E in H1. cbn [snd] in H1.
  destruct (top_up_recorded aborts refusals _ _ _ _ _ _ _ _ _ _ _ _ _ Hi Hnow E) as [_ Ht].
  apply (steps_transfer aborts refusals _ _ b2) in Ht; [|by eapply steps_inv|done].
  unfold top_up, positive. rewrite (proj2 (Z.leb_gt amount' 0)) by lia. by rewrite Ht.
Qed.

Lemma reference_moves_once_witness :
  let u := lit "credits" in
  let d := repeat (lit "a1", 100) 5 in
  let b1 := (top_up u (lit "user:1") 60 (lit "pay1") None 100 (lit "t1") (lit "l1") d (repeat (lit "a2", 100) 5) empty_book).2 in
  top_up u (lit "user:1") 999 (lit "pay1") (Some 7) 200 (lit "t9") (lit "l9") d d b1 =
  (Ok (mkTransfer (lit "t1") (lit "pay1") TopUp (lit "a2") (lit "a1") 60 100 Json.Null), b1).
Proof.
  intros u d b1.
  apply (reference_moves_once false true u (lit "user:1") 60 (lit "pay1") None 100 (lit "t1") (lit "l1") d (repeat (lit "a2", 100) 5) empty_book _ b1 b1);
    [apply rtc_refl|vm_compute; split; discriminate|lia|vm_compute; reflexivity|apply rtc_refl].
Defined.

(** The operations are those steps and no more: whatever a call of a ledger of any
    unit does to the book, successful or not, is a sequence of steps, a sweep
    included. *)
Theorem operations_are_steps aborts u b :
  rtc (step aborts true) empty_book b ->
  (forall owner amount reference expires_in now fresh lot attempts system_attempts,
     rtc (step aborts true) b (top_up u owner amount reference expires_in now fresh lot attempts system_attempts b).2) /\
  (forall owner amount reference now fresh attempts system_attempts,
     rtc (step aborts true) b (consume u owner amount reference now fresh attempts system_attempts b).2) /\
  (forall owner amount reference ttl now fresh attempts,
     rtc (step aborts true) b (hold u owner amount reference ttl now fresh attempts b).2) /\
  (forall hold_id now fresh system_attempts, rtc (step aborts true) b (capture u hold_id now fresh system_attempts b).2) /\
  (forall hold_id, rtc (step aborts true) b (release hold_id b).2) /\
  (forall now ids system_attempts, rtc (step aborts true) b (sweep u aborts now ids system_attempts b).2).
Proof.
  intros Hi%reachable_inv. split_and!; intros.
  - apply top_up_steps.
  - apply consume_steps.
  - apply hold_steps.
  - apply capture_steps.
  - apply release_steps.
  - by apply sweep_steps.
Qed.

Lemma operations_are_steps_witness :
  rtc (step false true) example_book (sweep (lit "credits") false 150 [lit "t4"; lit "t5"] (repeat (lit "a4", 150) 5) example_book).2.
Proof. apply (operations_are_steps false (lit "credits") example_book). exact (example_reachable false true). Defined.

(** ** What a sweep can leave *)

(** A sweep expires the lots of every unit into the expiry account of its own:
    with two ledgers on one database, sweeping one of them makes the audits of
    both fail. *)
Theorem sweep_mixes_units :
  let d s := repeat (lit s, 100) 5 in
  let b := (top_up (lit "IDR") (lit "user:1") 100 (lit "pay1") (Some 50) 100 (lit "t1") (lit "l1") (d "a1"%string) (d "a2"%string) empty_book).2 in
  audit (lit "IDR") b = [] /\
  (let '(r, b) := sweep (lit "credits") false 150 [lit "t2"] (d "a3"%string) b in
   r = Ok (mkSweep 0 1 100) /\ audit (lit "IDR") b = [Unbalanced (-100)] /\ audit (lit "credits") b = [Unbalanced 100]).
Proof. vm_compute. split_and!; reflexivity. Qed.

(** The expiry transaction reads the lot before it writes and takes no claim
    in between, and ignores that its transfer was refused: two sweeps that read
    the same lot both move its remainder, the second without entries, where a
    failed statement does not abort the transaction. *)
Theorem racing_sweeps_expire_twice :
  let u := lit "credits" in
  let d s := repeat (lit s, 100) 5 in
  let b := (top_up u (lit "user:1") 50 (lit "pay1") (Some 50) 100 (lit "t1") (lit "l1") (d "a1"%string) (d "a2"%string) empty_book).2 in
  let b := (top_up u (lit "user:1") 60 (lit "pay2") None 101 (lit "t2") (lit "l2") (d "x"%string) (d "x"%string) b).2 in
  let b := (ensure_account u SYSTEM_EXPIRY (d "a3"%string) b).2 in
  let run aborts :=
    match expire_read (lit "l1") (lit "a1") b with
    | Ok (Some seen) =>
        match expire_write u (lit "l1") (lit "a1") seen 150 (lit "t3") b with
        | Ok (n1, clean1, b1) =>
            let b1 := commit aborts clean1 b b1 in
            match expire_write u (lit "l1") (lit "a1") seen 150 (lit "t4") b1 with
            | Ok (n2, clean2, b2) => let b2 := commit aborts clean2 b1 b2 in Some (n1, n2, map acc_balance (accounts b2), audit u b2)
            | Err _ => None
            end
        | Err _ => None
        end
    | _ => None
    end in
  run false = Some (50, 50, [10; -110; 100], [EntriesDiffer (lit "user:1") 10 60; EntriesDiffer SYSTEM_EXPIRY 100 50]) /\
  run true = Some (50, 50, [60; -110; 50], []).
Proof. vm_compute. split; reflexivity. Qed.

(** Reserved credits of an expired lot outlive it: the sweep empties the lot, and
    what the hold kept has no lot any more when it is released. *)
Lemma held_credits_never_expire :
  let u := lit "credits" in
  let d s := repeat (lit s, 100) 5 in
  let b := (top_up u (lit "user:1") 100 (lit "pay1") (Some 50) 100 (lit "t1") (lit "l1") (d "a1"%string) (d "a2"%string) empty_book).2 in
  let b := (hold u (lit "user:1") 100 (lit "job") 1000 101 (lit "h1") (d "x"%string) b).2 in
  let b := (sweep u false 150 [lit "t2"] (d "a3"%string) b).2 in
  let b := (release (lit "h1") b).2 in
  let '(r, b) := sweep u false 100000 [lit "t3"] (d "x"%string) b in
  r = Ok (mkSweep 0 0 0) /\ (balance u (lit "user:1") (d "x"%string) b).1 = Ok (mkBalance 100 0 100).
Proof. vm_compute. split; reflexivity. Qed.
End LedgerTheorems.
