(* ===== verification/Ber.v ===== *)
(** * BER ([rustlavel-ldap/src/ber.rs])

    The encoding LDAP messages are written in: elements of an identifier octet, a
    definite length and contents, an encoder that appends them and a positional
    decoder. An [Encoder] is the bytes it has written, so a call is the bytes it
    appends and a body is what its calls append; a [Decoder] is the bytes it has
    left and its depth. *)

From S2P Require Import Prelude Text.

Module Ber.

Definition UNIVERSAL : Z := 0.
Definition APPLICATION : Z := 64.
Definition CONTEXT : Z := 128.
Definition CONSTRUCTED : Z := 32.
Definition BOOLEAN : Z := 1.
Definition INTEGER : Z := 2.
Definition OCTET_STRING : Z := 4.
Definition NULL : Z := 5.
Definition ENUMERATED : Z := 10.
Definition SEQUENCE : Z := 48.
Definition SET : Z := 49.

Definition application (number : Z) (constructed : bool) : Z :=
  Z.lor (Z.lor APPLICATION (if constructed then CONSTRUCTED else 0)) number.
Definition context (number : Z) (constructed : bool) : Z :=
  Z.lor (Z.lor CONTEXT (if constructed then CONSTRUCTED else 0)) number.

Definition MAX_DEPTH : nat := 32.

(** The errors of the codec and of the protocol over it. *)
Inductive LdapError :=
  | HighTag
  | Indefinite
  | LengthOctets (count : nat)
  | NotShortest (length : Z)
  | HeaderEnds
  | LengthOverflow
  | TooLarge (total limit : Z)
  | ClaimsTooMuch (length : Z) (remaining : nat)
  | WrongTag (expected found : Z)
  | TooDeep
  | BooleanOctets (n : nat)
  | NotUtf8
  | Trailing (n : nat)
  | IntegerEmpty
  | IntegerWide (n : nat)
  | IntegerPadded
  | NegativeId (id : Z)
  | NoOperation
  | EmptyPassword
  | Refused (message : list Z)
  | OutOfFuel.

(** ** Encoding *)

(** The bytes from the first that is not zero, or the last. *)
Fixpoint significant (l : list Z) : list Z :=
  match l with
  | [] => []
  | [b] => [b]
  | b :: r => if b =? 0 then significant r else l
  end.

Definition encode_length (length : Z) : list Z :=
  if length <? 128 then [length]
  else
    let bytes := significant (to_be_bytes 8 length) in
    Z.lor 128 (Z.of_nat (List.length bytes)) :: bytes.

Definition element (tag : Z) (contents : list Z) : list Z := tag :: encode_length (Z.of_nat (length contents)) ++ contents.
Definition constructed (tag : Z) (body : list Z) : list Z := element tag body.
Definition sequence (body : list Z) : list Z := constructed SEQUENCE body.
Definition set (body : list Z) : list Z := constructed SET body.

(** A leading octet that only repeats the sign. *)
Definition redundant (b0 b1 : Z) : bool :=
  ((b0 =? 0) && (Z.land b1 128 =? 0)) || ((b0 =? 255) && negb (Z.land b1 128 =? 0)).
Fixpoint shorten (bytes : list Z) : list Z :=
  match bytes with
  | b0 :: (b1 :: _) as r => if redundant b0 b1 then shorten r else bytes
  | _ => bytes
  end.
Definition integer_contents (value : Z) : list Z := shorten (to_be_bytes 8 value).

Definition tagged_integer (tag value : Z) : list Z := element tag (integer_contents value).
Definition integer (value : Z) : list Z := tagged_integer INTEGER value.
Definition enumerated (value : Z) : list Z := tagged_integer ENUMERATED value.
Definition boolean (value : bool) : list Z := element BOOLEAN [if value then 255 else 0].
Definition octet_string (contents : list Z) : list Z := element OCTET_STRING contents.
Definition string (value : list Z) : list Z := element OCTET_STRING value.
Definition tagged_string (tag : Z) (value : list Z) : list Z := element tag value.
Definition null : list Z := element NULL [].

(** ** Decoding *)

(** [None]: the header is not all there yet. *)
Definition read_header (bytes : list Z) : result LdapError (option (Z * nat * Z)) :=
  match bytes with
  | [] => Ok None
  | tag :: rest =>
      if Z.land tag 31 =? 31 then Err HighTag
      else
        match rest with
        | [] => Ok None
        | first :: rest =>
            if first =? 128 then Err Indefinite
            else if first <? 128 then Ok (Some (tag, 2%nat, first))
            else
              let count := Z.to_nat (Z.land first 127) in
              if (4 <? count)%nat then Err (LengthOctets count)
              else if (length bytes <? 2 + count)%nat then Ok None
              else
                let length := fold_left (fun length byte => Z.lor (Z.shiftl length 8) byte) (take count rest) 0 in
                if (length <? 128) || (hd 0 rest =? 0) then Err (NotShortest length)
                else Ok (Some (tag, (2 + count)%nat, length))
        end
  end.

Definition element_size (bytes : list Z) (limit : Z) : result LdapError (option Z) :=
  let? h := read_header bytes in
  match h with
  | None => Ok None
  | Some (_, header, length) =>
      let total := Z.of_nat header + length in
      if usize_max <? total then Err LengthOverflow
      else if limit <? total then Err (TooLarge total limit)
      else if Z.of_nat (List.length bytes) <? total then Ok None
      else Ok (Some total)
  end.

Record Decoder := mkDecoder { rest : list Z; depth : nat }.

Definition new (bytes : list Z) : Decoder := mkDecoder bytes 0.
Definition is_empty (d : Decoder) : bool := match rest d with [] => true | _ => false end.
Definition peek_tag (d : Decoder) : option Z := head (rest d).
Definition has_tag (tag : Z) (d : Decoder) : bool := bool_decide (peek_tag d = Some tag).

Definition next_element (d : Decoder) : result LdapError (Z * list Z * Decoder) :=
  let? h := read_header (rest d) in
  match h with
  | None => Err HeaderEnds
  | Some (tag, header, length) =>
      let end_ := Z.of_nat header + length in
      if usize_max <? end_ then Err LengthOverflow
      else if Z.of_nat (List.length (rest d)) <? end_ then Err (ClaimsTooMuch length (List.length (rest d) - header))
      else Ok (tag, take (Z.to_nat length) (drop header (rest d)), mkDecoder (drop (Z.to_nat end_) (rest d)) (depth d))
  end.

Definition expect (tag : Z) (d : Decoder) : result LdapError (list Z * Decoder) :=
  let found := peek_tag d in
  let? (actual, contents, d) := next_element d in
  if actual =? tag then Ok (contents, d) else Err (WrongTag tag (default actual found)).

(** The decoder inside, and the one after. *)
Definition nested (tag : Z) (d : Decoder) : result LdapError (Decoder * Decoder) :=
  if (MAX_DEPTH <? depth d + 1)%nat then Err TooDeep
  else let? (contents, d) := expect tag d in Ok (mkDecoder contents (depth d + 1), d).
Definition next_sequence (d : Decoder) : result LdapError (Decoder * Decoder) := nested SEQUENCE d.
Definition next_set (d : Decoder) : result LdapError (Decoder * Decoder) := nested SET d.

Definition integer_from (contents : list Z) : result LdapError Z :=
  match contents with
  | [] => Err IntegerEmpty
  | first :: r =>
      if (8 <? length contents)%nat then Err (IntegerWide (length contents))
      else if match r with second :: _ => redundant first second | [] => false end then Err IntegerPadded
      else Ok (fold_left (fun value byte => Z.lor (Z.shiftl value 8) byte) r (if first <? 128 then first else first - 256))
  end.

Definition utf8 (bytes : list Z) : result LdapError (list Z) := if utf8_valid bytes then Ok bytes else Err NotUtf8.

Definition next_integer (d : Decoder) : result LdapError (Z * Decoder) :=
  let? (contents, d) := expect INTEGER d in let? v := integer_from contents in Ok (v, d).
Definition next_enumerated (d : Decoder) : result LdapError (Z * Decoder) :=
  let? (contents, d) := expect ENUMERATED d in let? v := integer_from contents in Ok (v, d).
Definition next_boolean (d : Decoder) : result LdapError (bool * Decoder) :=
  let? (contents, d) := expect BOOLEAN d in
  match contents with
  | [byte] => Ok (negb (byte =? 0), d)
  | other => Err (BooleanOctets (length other))
  end.
Definition next_octets (d : Decoder) : result LdapError (list Z * Decoder) := expect OCTET_STRING d.
Definition next_tagged_string (tag : Z) (d : Decoder) : result LdapError (list Z * Decoder) :=
  let? (contents, d) := expect tag d in let? t := utf8 contents in Ok (t, d).
Definition next_string (d : Decoder) : result LdapError (list Z * Decoder) := next_tagged_string OCTET_STRING d.
Definition skip (d : Decoder) : result LdapError Decoder := let? (_, _, d) := next_element d in Ok d.
Definition finish (d : Decoder) : result LdapError () :=
  if is_empty d then Ok tt else Err (Trailing (length (rest d))).

(** [while !decoder.is_empty()]: every element read takes at least two bytes, so
    as many rounds as there are bytes are enough. *)
Section loop.
Context {A : Type} (f : Decoder -> result LdapError (A * Decoder)).
Fixpoint many_aux (fuel : nat) (d : Decoder) : result LdapError (list A) :=
  if is_empty d then Ok []
  else
    match fuel with
    | O => Err OutOfFuel
    | S fuel => let? (a, d) := f d in let? l := many_aux fuel d in Ok (a :: l)
    end.
Definition many (d : Decoder) : result LdapError (list A) := many_aux (length (rest d)) d.
End loop.

Example ber_runs :
  integer 50 = [2; 1; 50] /\ integer (-129) = [2; 2; 255; 127] /\ integer 128 = [2; 2; 0; 128] /\
  next_integer (new [2; 1; 255; 7]) = Ok (-1, mkDecoder [7] 0) /\ next_integer (new [2; 2; 0; 1]) = Err IntegerPadded /\
  read_header [48; 129; 5] = Err (NotShortest 5) /\ read_header [48; 130; 1] = Ok None /\
  element_size [48; 132; 127; 255; 255; 255] 1000 = Err (TooLarge 2147483653 1000) /\
  encode_length 200 = [129; 200] /\ boolean true = [1; 1; 255].
Proof. vm_compute. split_and!; reflexivity. Qed.

End Ber.
