(* ===== verification/BerProofs.v ===== *)
(** * Correctness of BER

    Elements and integers decode to what was encoded, and only one spelling of
    each is accepted. *)

From S2P Require Import Prelude Text Ber.

Module BerProofs.
Import Ber.

(** ** Big-endian numbers *)

Lemma from_le_bytes_app l l' : from_le_bytes (l ++ l') = from_le_bytes l + 256 ^ Z.of_nat (length l) * from_le_bytes l'.
Proof.
  induction l as [|b l IH]; cbn [app from_le_bytes length]; [lia|]. rewrite IH, Nat2Z.inj_succ, Z.pow_succ_r by lia. lia.
Qed.

Lemma from_be_cons b l : from_be_bytes (b :: l) = b * 256 ^ Z.of_nat (length l) + from_be_bytes l.
Proof.
  unfold from_be_bytes. cbn [rev]. rewrite from_le_bytes_app. cbn [from_le_bytes]. rewrite length_rev. lia.
Qed.

(** Shifting in a byte. *)
Lemma shift_in z b : 0 <= b < 256 -> Z.lor (Z.shiftl z 8) b = z * 256 + b.
Proof.
  intros Hb. rewrite Z.shiftl_mul_pow2 by lia. rewrite Z.mul_comm, (lor_add_low z b 8) by lia. change (2 ^ 8) with 256. lia.
Qed.

Lemma fold_be l z : bytes l ->
  fold_left (fun value byte => Z.lor (Z.shiftl value 8) byte) l z = z * 256 ^ Z.of_nat (length l) + from_be_bytes l.
Proof.
  revert z. induction l as [|b l IH]; intros z Hl; [cbn; lia|]. apply bytes_cons in Hl as [Hb Hl]. cbn [fold_left].
  rewrite shift_in, IH, from_be_cons by done. cbn [length]. rewrite Nat2Z.inj_succ, Z.pow_succ_r by lia. lia.
Qed.

(** The low bytes of a number whose high part is [z]. *)
Lemma to_le_split n l z : bytes l -> (length l <= n)%nat ->
  to_le_bytes n (from_le_bytes l + 256 ^ Z.of_nat (length l) * z) = l ++ to_le_bytes (n - length l) z.
Proof.
  revert n. induction l as [|b l IH]; intros n Hl Hn.
  { cbn [length from_le_bytes app]. rewrite Nat.sub_0_r. f_equal. change (256 ^ Z.of_nat 0) with 1. lia. }
  apply bytes_cons in Hl as [Hb Hl]. destruct n as [|n]; [cbn in Hn; lia|]. cbn [length from_le_bytes to_le_bytes app Nat.sub] in *.
  rewrite Nat2Z.inj_succ, Z.pow_succ_r by lia. rewrite Z.shiftr_div_pow2 by lia. unfold wrap. change (2 ^ 8) with 256.
  replace (b + 256 * from_le_bytes l + 256 * 256 ^ Z.of_nat (length l) * z) with (b + (from_le_bytes l + 256 ^ Z.of_nat (length l) * z) * 256) by lia.
  rewrite Z.mod_add, Z.div_add, Z.mod_small, Z.div_small, Z.add_0_l by lia. f_equal. apply IH; [done|lia].
Qed.

Lemma rev_repeat {A} (x : A) n : rev (repeat x n) = repeat x n.
Proof.
  induction n as [|n IH]; [done|]. cbn [repeat rev]. rewrite IH. clear IH. induction n as [|n IH]; [done|]. cbn. by rewrite IH.
Qed.

Lemma to_le_sign n z : z = 0 \/ z = -1 -> to_le_bytes n z = repeat (if z =? 0 then 0 else 255) n.
Proof. intros Hz. induction n as [|n IH]; [done|]. cbn [to_le_bytes repeat]. destruct Hz as [->| ->]; cbn; f_equal; auto. Qed.

Lemma to_be_pad l z : bytes l -> (length l <= 8)%nat -> z = 0 \/ z = -1 ->
  to_be_bytes 8 (from_be_bytes l + 256 ^ Z.of_nat (length l) * z) = repeat (if z =? 0 then 0 else 255) (8 - length l) ++ l.
Proof.
  intros Hl Hn Hz. unfold to_be_bytes, from_be_bytes. rewrite <- (length_rev l). rewrite to_le_split.
  - rewrite rev_app_distr, rev_involutive, to_le_sign, rev_repeat by done. by rewrite length_rev.
  - by apply Forall_rev.
  - by rewrite length_rev.
Qed.

Lemma from_to_be_wrap v : from_be_bytes (to_be_bytes 8 v) = v mod 2 ^ 64.
Proof.
  assert (E : forall n v, from_le_bytes (to_le_bytes n v) = v mod 256 ^ Z.of_nat n).
  { clear. induction n as [|n IH]; intros v; [cbn; by rewrite Z.mod_1_r|]. cbn [to_le_bytes from_le_bytes].
    rewrite IH, Nat2Z.inj_succ, Z.pow_succ_r, Z.shiftr_div_pow2 by lia. unfold wrap. change (2 ^ 8) with 256.
    rewrite Z.rem_mul_r by lia. lia. }
  unfold from_be_bytes, to_be_bytes. rewrite rev_involutive, E. done.
Qed.

(** ** Lengths *)

Lemma significant_pad n l : l <> [] -> hd 0 l <> 0 -> significant (repeat 0 n ++ l) = l.
Proof.
  intros Hl Hh. induction n as [|n IH]; cbn [repeat app significant].
  - destruct l as [|b [|c l]]; [done|done|]. cbn [significant]. cbn in Hh. by rewrite (proj2 (Z.eqb_neq _ _) Hh).
  - destruct (repeat 0 n ++ l) as [|c r] eqn:E; [by apply app_eq_nil in E as [_ ->]|]. cbn [Z.eqb]. exact IH.
Qed.

Lemma significant_split l : l <> [] -> exists n s, l = repeat 0 n ++ s /\ significant l = s /\ s <> [] /\ (from_be_bytes l <> 0 -> hd 0 s <> 0).
Proof.
  induction l as [|b l IH]; [done|]. intros _. destruct l as [|c r].
  - exists 0%nat, [b]. split_and!; [done|done|done|]. cbn. lia.
  - destruct (Z.eqb_spec b 0) as [->|Hb].
    + destruct IH as (n & s & E & Es & Hs & Hh); [done|]. exists (S n), s. cbn [repeat app]. rewrite <- E.
      split_and!; [done|by cbn [significant]|done|]. intros H. apply Hh. rewrite from_be_cons in H. lia.
    + exists 0%nat, (b :: c :: r). split_and!; [done| |done|done]. cbn [significant]. by rewrite (proj2 (Z.eqb_neq _ _) Hb).
Qed.

Lemma from_be_pad n l : from_be_bytes (repeat 0 n ++ l) = from_be_bytes l.
Proof. induction n as [|n IH]; [done|]. cbn [repeat app]. rewrite from_be_cons. lia. Qed.

Lemma from_be_head l : bytes l -> l <> [] -> hd 0 l <> 0 -> 256 ^ (Z.of_nat (length l) - 1) <= from_be_bytes l.
Proof.
  intros Hl Hn Hh. destruct l as [|b l]; [done|]. apply bytes_cons in Hl as [Hb Hl]. cbn in Hh. rewrite from_be_cons.
  cbn [length]. replace (Z.of_nat (S (length l)) - 1) with (Z.of_nat (length l)) by lia. pose proof (from_be_bytes_bound l Hl).
  pose proof (Z.pow_pos_nonneg 256 (Z.of_nat (length l))). nia.
Qed.

(** The long form: how many octets, then the octets. *)
Lemma encode_length_long n : 128 <= n < 2 ^ 64 ->
  exists s, encode_length n = (128 + Z.of_nat (length s)) :: s /\ bytes s /\ s <> [] /\ hd 0 s <> 0 /\ from_be_bytes s = n /\ (length s <= 8)%nat.
Proof.
  intros Hn. unfold encode_length. rewrite (proj2 (Z.ltb_ge _ _)) by lia.
  assert (Hne : to_be_bytes 8 n <> []) by (intros E; by apply (f_equal (@length Z)) in E; rewrite to_be_bytes_length in E).
  destruct (significant_split _ Hne) as (k & s & E & -> & Hs & Hh).
  assert (Hb : bytes (to_be_bytes 8 n)) by apply to_be_bytes_bytes. rewrite E, bytes_app in Hb. destruct Hb as [_ Hb].
  assert (Hv : from_be_bytes (to_be_bytes 8 n) = n) by (apply from_to_be_bytes; change (256 ^ Z.of_nat 8) with (2 ^ 64); lia).
  assert (Hlen : (length s <= 8)%nat) by (pose proof (to_be_bytes_length 8 n) as Hl; rewrite E, length_app in Hl; lia).
  exists s. split_and!; [|done|done|apply Hh; lia| |done].
  - f_equal. change 128 with (2 ^ 7 * 1) at 1. rewrite lor_add_low by lia. lia.
  - rewrite <- Hv, E, from_be_pad. done.
Qed.

Lemma encode_length_short n : n < 128 -> encode_length n = [n].
Proof. intros Hn. unfold encode_length. by rewrite (proj2 (Z.ltb_lt _ _)). Qed.

Lemma encode_length_length n : n < 2 ^ 64 -> (length (encode_length n) <= 9)%nat.
Proof.
  intros Hn. destruct (Z.lt_ge_cases n 128); [rewrite encode_length_short by done; cbn; lia|].
  destruct (encode_length_long n) as (s & -> & _ & _ & _ & _ & Hl); [lia|]. cbn. lia.
Qed.

(** ** Elements *)

(** A tag the decoder reads: one octet. *)
Definition tag_ok (tag : Z) : bool := (0 <=? tag) && (tag <? 256) && negb (Z.land tag 31 =? 31).

Lemma land_127 k : 0 <= k < 128 -> Z.land (128 + k) 127 = k.
Proof. intros Hk. change 127 with (2 ^ 7 - 1). rewrite land_ones_mod by lia. change (2 ^ 7) with 128. rewrite Z.add_comm.
  replace (k + 128) with (k + 1 * 128) by lia. rewrite Z.mod_add by lia. apply Z.mod_small. lia. Qed.

Lemma read_header_encode tag n r : tag_ok tag = true -> 0 <= n < 2 ^ 32 ->
  read_header (tag :: encode_length n ++ r) = Ok (Some (tag, S (length (encode_length n)), n)).
Proof.
  intros Ht Hn. unfold tag_ok in Ht. unfold read_header. rewrite (proj2 (Z.eqb_neq (Z.land tag 31) 31)) by lia.
  destruct (Z.lt_ge_cases n 128).
  - rewrite encode_length_short by done. cbn [app]. rewrite (proj2 (Z.eqb_neq n 128)), (proj2 (Z.ltb_lt n 128)) by lia. done.
  - destruct (encode_length_long n) as (s & -> & Hb & Hne & Hh & Hv & Hlen); [lia|]. cbn [app].
    pose proof (from_be_head s Hb Hne Hh) as Hlow. rewrite Hv in Hlow.
    assert (Hk : (1 <= length s <= 4)%nat).
    { destruct s; [done|]. cbn [length] in *. split; [lia|]. apply Nat.nlt_ge. intros Hgt.
      pose proof (Z.pow_le_mono_r 256 4 (Z.of_nat (S (length s)) - 1)). lia. }
    rewrite (proj2 (Z.eqb_neq _ 128)), (proj2 (Z.ltb_ge _ 128)) by lia. rewrite land_127, Nat2Z.id by lia.
    rewrite (proj2 (Nat.ltb_ge 4 (length s))) by lia. rewrite (proj2 (Nat.ltb_ge _ _)) by (cbn [length]; rewrite length_app; lia).
    rewrite take_app_length, fold_be, Hv, Z.mul_0_l, Z.add_0_l by done. rewrite (proj2 (Z.ltb_ge n 128)) by lia.
    destruct s as [|b s]; [done|]. cbn in Hh. cbn [app hd orb]. rewrite (proj2 (Z.eqb_neq b 0)) by done. done.
Qed.

Definition fits (c : list Z) : Prop := Z.of_nat (length c) < 2 ^ 32.

Lemma element_app tag c r : element tag c ++ r = tag :: encode_length (Z.of_nat (length c)) ++ c ++ r.
Proof. unfold element. cbn [app]. by rewrite <- app_assoc. Qed.

Lemma next_element_encode tag c r k : tag_ok tag = true -> fits c ->
  next_element (mkDecoder (element tag c ++ r) k) = Ok (tag, c, mkDecoder r k).
Proof.
  intros Ht Hc. unfold fits in Hc. unfold next_element. cbn [rest depth]. rewrite element_app, read_header_encode by (done || lia).
  pose proof (encode_length_length (Z.of_nat (length c)) ltac:(lia)) as Hh. set (h := encode_length _) in *.
  rewrite (proj2 (Z.ltb_ge usize_max _)) by (unfold usize_max; lia).
  rewrite (proj2 (Z.ltb_ge _ _)) by (cbn [length]; rewrite !length_app; lia).
  replace (Z.to_nat (Z.of_nat (S (length h)) + Z.of_nat (length c))) with (S (length h + length c)) by lia. rewrite Nat2Z.id.
  cbn [drop]. rewrite drop_app_length, take_app_length.
  do 4 f_equal. rewrite app_assoc. rewrite <- (length_app h c). apply drop_app_length.
Qed.

(** Only one spelling of an element is read. *)
Lemma next_element_canonical d tag c d' : bytes (rest d) -> next_element d = Ok (tag, c, d') ->
  rest d = element tag c ++ rest d' /\ depth d' = depth d /\ tag_ok tag = true /\ fits c.
Proof.
  intros Hb. unfold next_element, read_header. destruct (rest d) as [|t r] eqn:Er; [done|].
  destruct (Z.eqb_spec (Z.land t 31) 31) as [|Ht]; [done|]. destruct r as [|first r]; [done|].
  apply bytes_cons in Hb as [Hbt Hb]. apply bytes_cons in Hb as [Hbf Hb].
  destruct (Z.eqb_spec first 128) as [|H128]; [done|]. destruct (Z.ltb_spec first 128) as [Hs|Hl].
  - destruct (usize_max <? _); [done|]. destruct (Z.ltb_spec (Z.of_nat (length (t :: first :: r))) (Z.of_nat 2 + first)) as [|Hlen]; [done|].
    intros [= <- <- <-]. cbn [rest depth drop]. rewrite drop_0. cbn [length] in Hlen.
    assert (Hc : length (take (Z.to_nat first) r) = Z.to_nat first) by (rewrite length_take; lia).
    split_and!; [|done|unfold tag_ok; lia|unfold fits; lia].
    rewrite element_app, Hc, Z2Nat.id, encode_length_short by lia. cbn [app]. do 2 f_equal.
    replace (Z.to_nat (Z.of_nat 2 + first)) with (S (S (Z.to_nat first))) by lia. cbn [drop]. by rewrite take_drop.
  - set (count := Z.to_nat (Z.land first 127)). assert (Hcount : Z.of_nat count = first - 128 /\ 1 <= first - 128).
    { unfold count. replace first with (128 + (first - 128)) at 1 by lia. rewrite land_127 by lia. lia. }
    destruct (Nat.ltb_spec 4 count); [done|]. destruct (Nat.ltb_spec (length (t :: first :: r)) (2 + count)) as [|Hlen]; [done|].
    set (s := take count r). assert (Hls : length s = count) by (unfold s; rewrite length_take; cbn in Hlen; lia).
    assert (Hbs : bytes s) by (by apply bytes_take). rewrite fold_be, Z.mul_0_l, Z.add_0_l by done.
    destruct (Z.ltb_spec (from_be_bytes s) 128) as [|Hv]; [done|]. cbn [orb]. destruct (Z.eqb_spec (hd 0 r) 0) as [|Hh]; [done|].
    destruct (usize_max <? _); [done|].
    destruct (Z.ltb_spec (Z.of_nat (length (t :: first :: r))) (Z.of_nat (2 + count) + from_be_bytes s)) as [|Hall]; [done|].
    intros [= <- <- <-]. cbn [rest depth]. cbn [length] in Hall, Hlen. change (drop (2 + count) (t :: first :: r)) with (drop count r).
    pose proof (from_be_bytes_bound s Hbs) as Hbound. rewrite Hls in Hbound.
    assert (Hlt : from_be_bytes s < 2 ^ 32) by (pose proof (Z.pow_le_mono_r 256 (Z.of_nat count) 4); lia).
    set (n := Z.to_nat (from_be_bytes s)).
    assert (Hc : length (take n (drop count r)) = n) by (rewrite length_take, length_drop; lia).
    split_and!; [|done|unfold tag_ok; lia|unfold fits; lia]. rewrite element_app, Hc. unfold n at 1. rewrite Z2Nat.id by lia.
    assert (Henc : encode_length (from_be_bytes s) = first :: s).
    { unfold encode_length. rewrite (proj2 (Z.ltb_ge _ _)) by lia. replace (from_be_bytes s) with (from_be_bytes s + 256 ^ Z.of_nat (length s) * 0) at 1 2 by lia.
      rewrite to_be_pad by (done || lia || by left). cbn [Z.eqb].
      assert (Hhs : hd 0 s = hd 0 r) by (unfold s; destruct count; [lia|]; by destruct r).
      rewrite significant_pad; [|intros E; rewrite E in Hls; cbn in Hls; lia|congruence]. f_equal.
      change 128 with (2 ^ 7 * 1) at 1. rewrite lor_add_low by lia. lia. }
    rewrite Henc. cbn [app]. do 2 f_equal. unfold s. rewrite <- (take_drop count r) at 1. f_equal.
    fold s. replace (Z.to_nat (Z.of_nat (S (S count)) + from_be_bytes s)) with (S (S (count + n))) by lia.
    cbn [drop]. rewrite <- drop_drop. by rewrite take_drop.
Qed.

(** ** Integers *)

(** Two's complement: the sign is the top bit of the first octet. *)
Definition signed (l : list Z) : Z := from_be_bytes l - if hd 0 l <? 128 then 0 else 256 ^ Z.of_nat (length l).
Definition minimal (l : list Z) : bool := match l with b0 :: b1 :: _ => negb (redundant b0 b1) | [] => false | _ => true end.

Lemma land_128 b : 0 <= b < 256 -> (Z.land b 128 =? 0) = (b <? 128).
Proof.
  intros Hb. assert (E : Z.land b 128 = if Z.testbit b 7 then 128 else 0).
  { apply Z.bits_inj'. intros i Hi. rewrite Z.land_spec. change 128 with (2 ^ 7) at 1. rewrite Z.pow2_bits_eqb by lia.
    destruct (Z.eqb_spec 7 i) as [<-|Hne]; [by destruct (Z.testbit b 7)|]. rewrite andb_false_r.
    destruct (Z.testbit b 7); [|by rewrite Z.bits_0]. change 128 with (2 ^ 7). rewrite Z.pow2_bits_eqb by lia. symmetry. by apply Z.eqb_neq. }
  rewrite E, Z.testbit_odd, Z.shiftr_div_pow2 by lia. change (2 ^ 7) with 128. destruct (Z.ltb_spec b 128).
  - by rewrite Z.div_small by lia.
  - replace (b / 128) with 1; [done|]. apply (Z.div_unique b 128 1 (b - 128)); lia.
Qed.

Lemma redundant_spec b0 b1 : 0 <= b1 < 256 -> redundant b0 b1 = ((b0 =? 0) && (b1 <? 128)) || ((b0 =? 255) && negb (b1 <? 128)).
Proof. intros Hb. unfold redundant. by rewrite land_128. Qed.

Lemma signed_redundant b0 b1 l : 0 <= b1 < 256 -> redundant b0 b1 = true -> signed (b0 :: b1 :: l) = signed (b1 :: l).
Proof.
  intros Hb. rewrite redundant_spec by done. unfold signed. rewrite (from_be_cons b0). cbn [hd].
  replace (Z.of_nat (length (b0 :: b1 :: l))) with (Z.succ (Z.of_nat (length (b1 :: l)))) by (cbn [length]; lia). rewrite Z.pow_succ_r by lia.
  set (P := 256 ^ Z.of_nat (length (b1 :: l))). intros [[->%Z.eqb_eq H]%andb_true_iff|[->%Z.eqb_eq H]%andb_true_iff]%orb_true_iff.
  - rewrite H. cbn. lia.
  - destruct (b1 <? 128); [done|]. cbn [Z.ltb Z.compare Pos.compare Pos.compare_cont]. lia.
Qed.

Lemma shorten_spec l : bytes l -> l <> [] ->
  minimal (shorten l) = true /\ signed (shorten l) = signed l /\ bytes (shorten l) /\ (length (shorten l) <= length l)%nat.
Proof.
  induction l as [|b0 l IH]; [done|]. intros Hb _. apply bytes_cons in Hb as [H0 Hb].
  destruct l as [|b1 l]; [split_and!; [done|done|by apply bytes_cons|done]|]. pose proof Hb as [H1 _]%bytes_cons.
  change (shorten (b0 :: b1 :: l)) with (if redundant b0 b1 then shorten (b1 :: l) else b0 :: b1 :: l). destruct (redundant b0 b1) eqn:E.
  - destruct IH as (M & S & B & L); [done|done|]. split_and!; [done|by rewrite S, signed_redundant|done|cbn [length] in *; lia].
  - cbn [minimal]. rewrite E. split_and!; [done|done|by apply bytes_cons|done].
Qed.

Lemma signed_wide v : i64_min <= v <= i64_max -> signed (to_be_bytes 8 v) = v.
Proof.
  intros Hv. unfold i64_min, i64_max in Hv. unfold signed. rewrite to_be_bytes_length, from_to_be_wrap.
  assert (Hb : bytes (to_be_bytes 8 v)) by apply to_be_bytes_bytes. pose proof (from_to_be_wrap v) as E.
  destruct (to_be_bytes 8 v) as [|b l] eqn:El; [by apply (f_equal (@length Z)) in El; rewrite to_be_bytes_length in El|].
  assert (Hl : length l = 7%nat) by (apply (f_equal (@length Z)) in El; rewrite to_be_bytes_length in El; cbn in El; lia).
  apply bytes_cons in Hb as [Hb Hbl]. rewrite from_be_cons in E. pose proof (from_be_bytes_bound l Hbl) as Hr. rewrite Hl in E, Hr.
  change (256 ^ Z.of_nat 7) with (2 ^ 56) in *. change (256 ^ Z.of_nat 8) with (2 ^ 64). cbn [hd].
  destruct (Z.lt_ge_cases v 0).
  - replace (v mod 2 ^ 64) with (v + 2 ^ 64) in *; [|rewrite <- (Z.mod_add v 1) by lia; symmetry; apply Z.mod_small; lia].
    destruct (Z.ltb_spec b 128); lia.
  - rewrite Z.mod_small in * by lia. destruct (Z.ltb_spec b 128); lia.
Qed.

Lemma integer_from_spec c : bytes c ->
  integer_from c =
  match c with
  | [] => Err IntegerEmpty
  | _ => if (8 <? length c)%nat then Err (IntegerWide (length c)) else if minimal c then Ok (signed c) else Err IntegerPadded
  end.
Proof.
  intros Hc. destruct c as [|first r]; [done|]. unfold integer_from. destruct (8 <? length (first :: r))%nat; [done|].
  apply bytes_cons in Hc as [Hf Hr]. destruct r as [|second r].
  - cbn [minimal fold_left]. unfold signed. cbn [hd length]. change (256 ^ Z.of_nat 1) with 256. rewrite from_be_cons. cbn. destruct (first <? 128); f_equal; lia.
  - cbn [minimal]. destruct (redundant first second); [done|]. cbn [negb]. rewrite fold_be by done. unfold signed. cbn [hd].
    rewrite (from_be_cons first).
    replace (Z.of_nat (length (first :: second :: r))) with (Z.succ (Z.of_nat (length (second :: r)))) by (cbn [length]; lia). rewrite Z.pow_succ_r by lia.
    destruct (first <? 128); f_equal; lia.
Qed.

Lemma integer_back v : i64_min <= v <= i64_max -> integer_from (integer_contents v) = Ok v.
Proof.
  intros Hv. unfold integer_contents.
  assert (Hne : to_be_bytes 8 v <> []) by (intros E; by apply (f_equal (@length Z)) in E; rewrite to_be_bytes_length in E).
  destruct (shorten_spec (to_be_bytes 8 v)) as (M & S & B & L); [apply to_be_bytes_bytes|done|]. rewrite to_be_bytes_length in L.
  rewrite integer_from_spec by done. destruct (shorten (to_be_bytes 8 v)) as [|b l]; [done|].
  rewrite (proj2 (Nat.ltb_ge _ _)) by done. rewrite M, S, signed_wide by done. done.
Qed.

Lemma shorten_pad n s l : minimal l = true -> bytes l -> s = (if hd 0 l <? 128 then 0 else 255) -> shorten (repeat s n ++ l) = l.
Proof.
  intros Hm Hb Hs. destruct l as [|b l]; [done|]. cbn [hd] in Hs. induction n as [|n IH].
  - cbn [repeat app]. destruct l as [|b1 l]; [done|]. cbn [minimal] in Hm.
    change (shorten (b :: b1 :: l)) with (if redundant b b1 then shorten (b1 :: l) else b :: b1 :: l). by destruct (redundant b b1).
  - cbn [repeat app]. destruct (repeat s n ++ b :: l) as [|c r] eqn:E; [by apply app_eq_nil in E as [_ ?]|].
    change (shorten (s :: c :: r)) with (if redundant s c then shorten (c :: r) else s :: c :: r).
    assert (Hc : c = s \/ c = b) by (destruct n; cbn in E; injection E; auto).
    apply bytes_cons in Hb as [Hb _]. assert (Hcb : 0 <= c < 256) by (destruct Hc as [->| ->]; [subst s; destruct (b <? 128); lia|lia]).
    rewrite redundant_spec, IH by done.
    destruct (Z.ltb_spec b 128), (Z.ltb_spec c 128); subst s; cbn; (done || destruct Hc; lia).
Qed.

(** Each integer has one encoding that is read. *)
Lemma integer_canonical c v : bytes c -> integer_from c = Ok v -> c = integer_contents v /\ i64_min <= v <= i64_max.
Proof.
  intros Hc. rewrite integer_from_spec by done. destruct c as [|b l]; [done|]. destruct (Nat.ltb_spec 8 (length (b :: l))) as [|Hl]; [done|].
  destruct (minimal (b :: l)) eqn:Em; [|done]. intros <-%Ok_inj. pose proof Hc as [Hb Hr]%bytes_cons.
  pose proof (from_be_bytes_bound l Hr) as Hbound. split.
  - unfold integer_contents, signed. cbn [hd].
    replace (from_be_bytes (b :: l) - (if b <? 128 then 0 else 256 ^ Z.of_nat (length (b :: l)))) with
      (from_be_bytes (b :: l) + 256 ^ Z.of_nat (length (b :: l)) * (if b <? 128 then 0 else -1)) by (destruct (b <? 128); lia).
    rewrite to_be_pad; [|done|done|destruct (b <? 128); auto]. symmetry. apply shorten_pad; [done|done|]. cbn [hd]. by destruct (b <? 128).
  - unfold signed. rewrite from_be_cons. cbn [hd length] in *. rewrite Nat2Z.inj_succ, Z.pow_succ_r by lia.
    pose proof (Z.pow_le_mono_r 256 (Z.of_nat (length l)) 7 ltac:(lia) ltac:(lia)) as Hp. change (256 ^ 7) with (2 ^ 56) in Hp.
    pose proof (Z.pow_pos_nonneg 256 (Z.of_nat (length l)) ltac:(lia) ltac:(lia)) as Hpos.
    unfold i64_min, i64_max. destruct (Z.ltb_spec b 128); nia.
Qed.

(** There is one spelling of everything: an element is read exactly when the
    bytes are its encoding, whatever follows, and an integer exactly when its
    contents are the shortest two's complement of an [i64]. *)
Theorem ber_one_spelling d tag c d' contents v :
  bytes (rest d) -> bytes contents ->
  (next_element d = Ok (tag, c, d') <->
   rest d = element tag c ++ rest d' /\ depth d' = depth d /\ tag_ok tag = true /\ fits c) /\
  (integer_from contents = Ok v <-> contents = integer_contents v /\ i64_min <= v <= i64_max).
Proof.
  intros Hb Hc. split; split.
  - by apply next_element_canonical.
  - intros (Hr & Hd & Ht & Hf). destruct d as [r k], d' as [r' k']. cbn in *. subst. by apply next_element_encode.
  - by apply integer_canonical.
  - intros [-> Hv]. by apply integer_back.
Qed.

Lemma ber_one_spelling_witness :
  (next_element (new [2; 2; 255; 127; 7]) = Ok (2, [255; 127], new [7]) <->
   rest (new [2; 2; 255; 127; 7]) = element 2 [255; 127] ++ rest (new [7]) /\ depth (new [7]) = depth (new [2; 2; 255; 127; 7]) /\
   tag_ok 2 = true /\ fits [255; 127]) /\
  (integer_from [255; 127] = Ok (-129) <-> [255; 127] = integer_contents (-129) /\ i64_min <= -129 <= i64_max).
Proof. apply ber_one_spelling; apply (bool_decide_eq_true_1 _); reflexivity. Defined.

(** ** Framing *)

Lemma take_element k tag c r :
  tag_ok tag = true -> fits c -> (k < length (element tag c))%nat ->
  read_header (take k (element tag c ++ r)) = Ok None \/
  exists h, read_header (take k (element tag c ++ r)) = Ok (Some (tag, h, Z.of_nat (length c))) /\
            (h + length c = length (element tag c))%nat.
Proof.
  intros Ht Hc Hk. unfold fits in Hc. rewrite element_app. unfold element in Hk. set (h := encode_length _) in *.
  destruct (decide (S (length h) <= k)%nat) as [Hle|Hgt].
  - right. exists (S (length h)). split; [|cbn; by rewrite length_app].
    replace k with (S (length h + (k - S (length h))))%nat by lia. cbn [take]. rewrite take_app_add. unfold h.
    rewrite read_header_encode by (done || lia). done.
  - left. destruct k as [|k]; [done|]. cbn [take]. rewrite take_app_le by lia.
    pose proof Ht as Ht'. unfold tag_ok in Ht'. unfold read_header at 1. rewrite (proj2 (Z.eqb_neq (Z.land tag 31) 31)) by lia.
    destruct (Z.lt_ge_cases (Z.of_nat (length c)) 128).
    { assert (k = 0%nat) as -> by (unfold h in Hgt; rewrite encode_length_short in Hgt by done; cbn in Hgt; lia). done. }
    destruct (encode_length_long (Z.of_nat (length c))) as (s & Eh & Hb & Hne & Hh & Hv & Hlen); [lia|]. unfold h in *. rewrite Eh in *.
    destruct k as [|k]; [done|]. cbn [take length] in *. pose proof (from_be_head s Hb Hne Hh) as Hlow. rewrite Hv in Hlow.
    assert (Hk4 : (1 <= length s <= 4)%nat).
    { destruct s; [done|]. cbn [length] in *. split; [lia|]. apply Nat.nlt_ge. intros Hg.
      pose proof (Z.pow_le_mono_r 256 4 (Z.of_nat (S (length s)) - 1)). lia. }
    rewrite (proj2 (Z.eqb_neq _ 128)), (proj2 (Z.ltb_ge _ 128)) by lia. rewrite land_127, Nat2Z.id by lia.
    rewrite (proj2 (Nat.ltb_ge 4 (length s))) by lia. rewrite (proj2 (Nat.ltb_lt _ _)); [done|]. cbn [length]. rewrite length_take. lia.
Qed.

(** Framing is exact: while a message within the limit is arriving, every
    part of it asks for more; once it is there its size is reported, whatever
    follows; and a message over the limit is refused as soon as its header is
    complete, never waited for. *)
Theorem framing_exact tag c r limit k :
  tag_ok tag = true -> fits c ->
  let e := element tag c in
  (Z.of_nat (length e) <= limit ->
   ((k < length e)%nat -> element_size (take k (e ++ r)) limit = Ok None) /\
   ((length e <= k)%nat -> element_size (take k (e ++ r)) limit = Ok (Some (Z.of_nat (length e))))) /\
  (limit < Z.of_nat (length e) ->
   element_size (take k (e ++ r)) limit = Ok None \/ element_size (take k (e ++ r)) limit = Err (TooLarge (Z.of_nat (length e)) limit)) /\
  (limit < Z.of_nat (length e) -> (length e - length c <= k)%nat ->
   element_size (take k (e ++ r)) limit = Err (TooLarge (Z.of_nat (length e)) limit)).
Proof.
  intros Ht Hc e. assert (Hh : (length e <= length c + 10)%nat).
  { unfold e, element. cbn [length]. rewrite length_app. unfold fits in Hc. pose proof (encode_length_length (Z.of_nat (length c))). lia. }
  assert (Hfull : (length e <= k)%nat -> read_header (take k (e ++ r)) = Ok (Some (tag, (length e - length c)%nat, Z.of_nat (length c)))).
  { intros Hk. replace k with (length e + (k - length e))%nat by lia. rewrite take_app_add. unfold e at 1. rewrite element_app.
    unfold fits in Hc. rewrite read_header_encode by (done || lia). do 4 f_equal. unfold e, element. cbn [length]. rewrite length_app. lia. }
  assert (Hcomplete : (length e - length c <= k)%nat -> (k < length e)%nat -> read_header (take k (e ++ r)) <> Ok None).
  { intros H1 H2. unfold e, element in H1. cbn [length] in H1. rewrite length_app in H1. unfold e. rewrite element_app.
    set (h := encode_length _) in *. replace k with (S (length h + (k - S (length h))))%nat by lia. cbn [take]. rewrite take_app_add.
    unfold fits in Hc. unfold h. rewrite read_header_encode by (done || lia). done. }
  assert (Hpart : (k < length e)%nat -> read_header (take k (e ++ r)) = Ok None \/
     read_header (take k (e ++ r)) = Ok (Some (tag, (length e - length c)%nat, Z.of_nat (length c)))).
  { intros Hk. destruct (take_element k tag c r Ht Hc Hk) as [E|(h & E & Eh)]; [by left|right]. fold e in E, Eh. rewrite E. do 4 f_equal. lia. }
  assert (Hlen : (length c <= length e)%nat) by (unfold e, element; cbn [length]; rewrite length_app; lia).
  unfold fits in Hc. unfold element_size. assert (Htot : Z.of_nat (length e - length c) + Z.of_nat (length c) = Z.of_nat (length e)) by lia.
  assert (Hmax : (usize_max <? Z.of_nat (length e)) = false) by (apply Z.ltb_ge; unfold usize_max; lia).
  split_and!.
  - intros Hlim. split; intros Hk.
    + destruct (Hpart Hk) as [-> | ->]; [done|]. rewrite Htot, Hmax. rewrite (proj2 (Z.ltb_ge limit _)) by lia.
      rewrite (proj2 (Z.ltb_lt _ _)); [done|]. rewrite length_take. lia.
    + rewrite (Hfull Hk), Htot, Hmax. rewrite (proj2 (Z.ltb_ge limit _)) by lia.
      rewrite (proj2 (Z.ltb_ge _ _)); [done|]. rewrite length_take, length_app. lia.
  - intros Hlim. destruct (decide (k < length e)%nat) as [Hk|Hk].
    + destruct (Hpart Hk) as [-> | ->]; [by left|right]. rewrite Htot, Hmax. by rewrite (proj2 (Z.ltb_lt limit _)) by lia.
    + right. rewrite Hfull, Htot, Hmax by lia. by rewrite (proj2 (Z.ltb_lt limit _)) by lia.
  - intros Hlim Hk. destruct (decide (k < length e)%nat) as [Hk'|Hk'].
    + destruct (Hpart Hk') as [E| ->]; [by apply Hcomplete in E|]. rewrite Htot, Hmax. by rewrite (proj2 (Z.ltb_lt limit _)) by lia.
    + rewrite Hfull, Htot, Hmax by lia. by rewrite (proj2 (Z.ltb_lt limit _)) by lia.
Qed.

Lemma framing_exact_witness :
  let e := element 48 (repeat 7 200) in
  element_size (take 100 (e ++ [1; 2])) 4096 = Ok None /\ element_size (take 204 (e ++ [1; 2])) 4096 = Ok (Some 203) /\
  element_size (take 3 (e ++ [1; 2])) 202 = Err (TooLarge 203 202).
Proof.
  intros e. split; [|split].
  - apply (framing_exact 48 (repeat 7 200) [1; 2] 4096 100); [reflexivity|reflexivity|vm_compute; discriminate|vm_compute; lia].
  - apply (framing_exact 48 (repeat 7 200) [1; 2] 4096 204); [reflexivity|reflexivity|vm_compute; discriminate|vm_compute; lia].
  - apply (framing_exact 48 (repeat 7 200) [1; 2] 202 3); [reflexivity|reflexivity|reflexivity|vm_compute; lia].
Defined.
End BerProofs.
