(* ===== verification/Ldap.v ===== *)
(** * LDAP messages ([rustlavel-ldap/src/protocol.rs])

    Result codes, controls, search requests, filters and their two forms, the
    operations a client sends and the messages it reads. *)

From S2P Require Import Prelude Text Ber.

Module Ldap.
Import Ber.

Definition VERSION : Z := 3.
Definition START_TLS_OID : list Z := lit "1.3.6.1.4.1.1466.20037".

Definition BIND_REQUEST : Z := application 0 true.
Definition BIND_RESPONSE : Z := application 1 true.
Definition UNBIND_REQUEST : Z := application 2 false.
Definition SEARCH_REQUEST : Z := application 3 true.
Definition SEARCH_RESULT_ENTRY : Z := application 4 true.
Definition SEARCH_RESULT_DONE : Z := application 5 true.
Definition SEARCH_RESULT_REFERENCE : Z := application 19 true.
Definition EXTENDED_REQUEST : Z := application 23 true.
Definition EXTENDED_RESPONSE : Z := application 24 true.
Definition INTERMEDIATE_RESPONSE : Z := application 25 true.

(** ** Result codes *)

Inductive ResultCode :=
  | Success | OperationsError | ProtocolError | TimeLimitExceeded | SizeLimitExceeded | CompareFalse | CompareTrue
  | AuthMethodNotSupported | StrongerAuthRequired | Referral | AdminLimitExceeded | UnavailableCriticalExtension
  | ConfidentialityRequired | SaslBindInProgress | NoSuchAttribute | UndefinedAttributeType | InappropriateMatching
  | ConstraintViolation | AttributeOrValueExists | InvalidAttributeSyntax | NoSuchObject | AliasProblem | InvalidDnSyntax
  | AliasDereferencingProblem | InappropriateAuthentication | InvalidCredentials | InsufficientAccessRights | Busy
  | Unavailable | UnwillingToPerform | LoopDetect | NamingViolation | ObjectClassViolation | NotAllowedOnNonLeaf
  | NotAllowedOnRdn | EntryAlreadyExists | ObjectClassModsProhibited | AffectsMultipleDsas | Other
  | Unknown (code : Z).

Definition from_i64 (code : Z) : ResultCode :=
  match code with
  | 0 => Success
  | 1 => OperationsError
  | 2 => ProtocolError
  | 3 => TimeLimitExceeded
  | 4 => SizeLimitExceeded
  | 5 => CompareFalse
  | 6 => CompareTrue
  | 7 => AuthMethodNotSupported
  | 8 => StrongerAuthRequired
  | 10 => Referral
  | 11 => AdminLimitExceeded
  | 12 => UnavailableCriticalExtension
  | 13 => ConfidentialityRequired
  | 14 => SaslBindInProgress
  | 16 => NoSuchAttribute
  | 17 => UndefinedAttributeType
  | 18 => InappropriateMatching
  | 19 => ConstraintViolation
  | 20 => AttributeOrValueExists
  | 21 => InvalidAttributeSyntax
  | 32 => NoSuchObject
  | 33 => AliasProblem
  | 34 => InvalidDnSyntax
  | 36 => AliasDereferencingProblem
  | 48 => InappropriateAuthentication
  | 49 => InvalidCredentials
  | 50 => InsufficientAccessRights
  | 51 => Busy
  | 52 => Unavailable
  | 53 => UnwillingToPerform
  | 54 => LoopDetect
  | 64 => NamingViolation
  | 65 => ObjectClassViolation
  | 66 => NotAllowedOnNonLeaf
  | 67 => NotAllowedOnRdn
  | 68 => EntryAlreadyExists
  | 69 => ObjectClassModsProhibited
  | 71 => AffectsMultipleDsas
  | 80 => Other
  | other => Unknown other
  end.

Definition as_i64 (code : ResultCode) : Z :=
  match code with
  | Success => 0
  | OperationsError => 1
  | ProtocolError => 2
  | TimeLimitExceeded => 3
  | SizeLimitExceeded => 4
  | CompareFalse => 5
  | CompareTrue => 6
  | AuthMethodNotSupported => 7
  | StrongerAuthRequired => 8
  | Referral => 10
  | AdminLimitExceeded => 11
  | UnavailableCriticalExtension => 12
  | ConfidentialityRequired => 13
  | SaslBindInProgress => 14
  | NoSuchAttribute => 16
  | UndefinedAttributeType => 17
  | InappropriateMatching => 18
  | ConstraintViolation => 19
  | AttributeOrValueExists => 20
  | InvalidAttributeSyntax => 21
  | NoSuchObject => 32
  | AliasProblem => 33
  | InvalidDnSyntax => 34
  | AliasDereferencingProblem => 36
  | InappropriateAuthentication => 48
  | InvalidCredentials => 49
  | InsufficientAccessRights => 50
  | Busy => 51
  | Unavailable => 52
  | UnwillingToPerform => 53
  | LoopDetect => 54
  | NamingViolation => 64
  | ObjectClassViolation => 65
  | NotAllowedOnNonLeaf => 66
  | NotAllowedOnRdn => 67
  | EntryAlreadyExists => 68
  | ObjectClassModsProhibited => 69
  | AffectsMultipleDsas => 71
  | Other => 80
  | Unknown code => code
  end.

Definition code_name (code : ResultCode) : list Z :=
  lit match code with
  | Success => "success"
  | OperationsError => "operationsError"
  | ProtocolError => "protocolError"
  | TimeLimitExceeded => "timeLimitExceeded"
  | SizeLimitExceeded => "sizeLimitExceeded"
  | CompareFalse => "compareFalse"
  | CompareTrue => "compareTrue"
  | AuthMethodNotSupported => "authMethodNotSupported"
  | StrongerAuthRequired => "strongerAuthRequired"
  | Referral => "referral"
  | AdminLimitExceeded => "adminLimitExceeded"
  | UnavailableCriticalExtension => "unavailableCriticalExtension"
  | ConfidentialityRequired => "confidentialityRequired"
  | SaslBindInProgress => "saslBindInProgress"
  | NoSuchAttribute => "noSuchAttribute"
  | UndefinedAttributeType => "undefinedAttributeType"
  | InappropriateMatching => "inappropriateMatching"
  | ConstraintViolation => "constraintViolation"
  | AttributeOrValueExists => "attributeOrValueExists"
  | InvalidAttributeSyntax => "invalidAttributeSyntax"
  | NoSuchObject => "noSuchObject"
  | AliasProblem => "aliasProblem"
  | InvalidDnSyntax => "invalidDNSyntax"
  | AliasDereferencingProblem => "aliasDereferencingProblem"
  | InappropriateAuthentication => "inappropriateAuthentication"
  | InvalidCredentials => "invalidCredentials"
  | InsufficientAccessRights => "insufficientAccessRights"
  | Busy => "busy"
  | Unavailable => "unavailable"
  | UnwillingToPerform => "unwillingToPerform"
  | LoopDetect => "loopDetect"
  | NamingViolation => "namingViolation"
  | ObjectClassViolation => "objectClassViolation"
  | NotAllowedOnNonLeaf => "notAllowedOnNonLeaf"
  | NotAllowedOnRdn => "notAllowedOnRDN"
  | EntryAlreadyExists => "entryAlreadyExists"
  | ObjectClassModsProhibited => "objectClassModsProhibited"
  | AffectsMultipleDsas => "affectsMultipleDSAs"
  | Other => "other"
  | Unknown _ => "an unrecognised result code"
  end%string.

Definition is_success (code : ResultCode) : bool := match code with Success => true | _ => false end.

(** [Display]. *)
Definition code_text (code : ResultCode) : list Z := code_name code ++ lit " (" ++ dec (as_i64 code) ++ lit ")".

Record LdapResult := mkResult {
  code : ResultCode;
  matched_dn : list Z;
  diagnostic : list Z;
  referrals : list (list Z);
}.

(** The dash is U+2014. *)
Definition into_result (operation : list Z) (r : LdapResult) : result LdapError LdapResult :=
  if is_success (code r) then Ok r
  else
    Err (Refused (lit "the directory refused the " ++ operation ++ lit ": " ++ code_text (code r) ++
                  (match diagnostic r with [] => [] | t => lit " " ++ [226; 128; 148] ++ lit " " ++ t end) ++
                  (match matched_dn r with [] => [] | t => lit " (it did find `" ++ t ++ lit "`)" end))).

Definition decode_result (d : Decoder) : result LdapError (LdapResult * Decoder) :=
  let? (c, d) := next_enumerated d in
  let? (dn, d) := next_string d in
  let? (text, d) := next_string d in
  let? (refs, d) :=
    if has_tag (context 3 true) d then
      let? (inner, d) := nested (context 3 true) d in
      let? refs := many next_string inner in Ok (refs, d)
    else Ok ([], d) in
  Ok (mkResult (from_i64 c) dn text refs, d).

(** ** Controls *)

Record Control := mkControl { oid : list Z; critical : bool; value : option (list Z) }.

Definition encode_control (c : Control) : list Z :=
  sequence (string (oid c) ++ (if critical c then boolean true else []) ++
            (match value c with Some v => octet_string v | None => [] end)).

Definition decode_control (d : Decoder) : result LdapError (Control * Decoder) :=
  let? (fields, d) := next_sequence d in
  let? (o, fields) := next_string fields in
  let? (crit, fields) := (if has_tag BOOLEAN fields then next_boolean fields else Ok (false, fields)) in
  let? (v, _) := (if has_tag OCTET_STRING fields then let? (v, fields) := next_octets fields in Ok (Some v, fields) else Ok (None, fields)) in
  Ok (mkControl o crit v, d).

(** ** Filters *)

Inductive Filter :=
  | And (filters : list Filter)
  | Or (filters : list Filter)
  | Not (inner : Filter)
  | Equality (attribute value : list Z)
  | GreaterOrEqual (attribute value : list Z)
  | LessOrEqual (attribute value : list Z)
  | Approximate (attribute value : list Z)
  | Present (attribute : list Z)
  | Substrings (attribute : list Z) (initial : option (list Z)) (any : list (list Z)) (last : option (list Z)).

Definition equals := Equality.
Definition starts_with (attribute prefix : list Z) : Filter := Substrings attribute (Some prefix) [] None.
Definition ends_with (attribute suffix : list Z) : Filter := Substrings attribute None [] (Some suffix).
Definition contains (attribute fragment : list Z) : Filter := Substrings attribute None [fragment] None.
Definition negate (f : Filter) : Filter := Not f.

Definition assertion (tag : Z) (attribute value : list Z) : list Z := constructed tag (string attribute ++ string value).
Definition optional {A} (f : A -> list Z) (o : option A) : list Z := match o with Some a => f a | None => [] end.

Fixpoint encode_filter (f : Filter) : list Z :=
  match f with
  | And filters => constructed (context 0 true) (concat (map encode_filter filters))
  | Or filters => constructed (context 1 true) (concat (map encode_filter filters))
  | Not inner => constructed (context 2 true) (encode_filter inner)
  | Equality attribute value => assertion (context 3 true) attribute value
  | Substrings attribute initial any last =>
      constructed (context 4 true) (string attribute ++
        sequence (optional (tagged_string (context 0 false)) initial ++
                  concat (map (tagged_string (context 1 false)) any) ++
                  optional (tagged_string (context 2 false)) last))
  | GreaterOrEqual attribute value => assertion (context 5 true) attribute value
  | LessOrEqual attribute value => assertion (context 6 true) attribute value
  | Present attribute => tagged_string (context 7 false) attribute
  | Approximate attribute value => assertion (context 8 true) attribute value
  end.

(** The characters escaped are ASCII, so they are found byte by byte. *)
Definition escape_filter_char (c : Z) : list Z :=
  if c =? 92 then lit "\5c"
  else if c =? 42 then lit "\2a"
  else if c =? 40 then lit "\28"
  else if c =? 41 then lit "\29"
  else if c =? 0 then lit "\00"
  else [c].
Definition escape_filter_value (value : list Z) : list Z := concat (map escape_filter_char value).

Fixpoint display_filter (f : Filter) : list Z :=
  match f with
  | And filters => lit "(&" ++ concat (map display_filter filters) ++ lit ")"
  | Or filters => lit "(|" ++ concat (map display_filter filters) ++ lit ")"
  | Not inner => lit "(!" ++ display_filter inner ++ lit ")"
  | Equality a v => lit "(" ++ escape_filter_value a ++ lit "=" ++ escape_filter_value v ++ lit ")"
  | GreaterOrEqual a v => lit "(" ++ escape_filter_value a ++ lit ">=" ++ escape_filter_value v ++ lit ")"
  | LessOrEqual a v => lit "(" ++ escape_filter_value a ++ lit "<=" ++ escape_filter_value v ++ lit ")"
  | Approximate a v => lit "(" ++ escape_filter_value a ++ lit "~=" ++ escape_filter_value v ++ lit ")"
  | Present a => lit "(" ++ escape_filter_value a ++ lit "=*)"
  | Substrings a initial any last =>
      lit "(" ++ escape_filter_value a ++ lit "=" ++ optional escape_filter_value initial ++ lit "*" ++
      concat (map (fun fragment => escape_filter_value fragment ++ lit "*") any) ++ optional escape_filter_value last ++ lit ")"
  end.

(** A character escaped in a DN value, of a value whose characters are [first] and
    [last] at its ends. *)
Definition escape_dn_char (first last : bool) (c : Z) : list Z :=
  if c =? 0 then lit "\00"
  else if existsb (Z.eqb c) [34; 43; 44; 59; 60; 62; 92; 61] then [92; c]
  else if (c =? 35) && first then lit "\#"
  else if (c =? 32) && (first || last) then lit "\ "
  else [c].

Fixpoint escape_dn_from (first : bool) (l : list Z) : list Z :=
  match l with
  | [] => []
  | c :: r => escape_dn_char first (match r with [] => true | _ => false end) c ++ escape_dn_from false r
  end.
Definition escape_dn_value (value : list Z) : list Z := escape_dn_from true value.

(** ** Searches *)

Inductive Scope := Base | OneLevel | Subtree.
Definition scope_as_i64 (s : Scope) : Z := match s with Base => 0 | OneLevel => 1 | Subtree => 2 end.
Inductive DerefAliases := Never | InSearching | FindingBaseObject | Always.
Definition deref_as_i64 (d : DerefAliases) : Z :=
  match d with Never => 0 | InSearching => 1 | FindingBaseObject => 2 | Always => 3 end.

Record SearchRequest := mkSearch {
  base : list Z;
  scope : Scope;
  deref : DerefAliases;
  size_limit : Z;
  time_limit : Z;
  types_only : bool;
  filter : Filter;
  wanted : list (list Z);
}.
Definition new_search (b : list Z) (f : Filter) : SearchRequest := mkSearch b Subtree Never 0 0 false f [].

Definition encode_search (r : SearchRequest) : list Z :=
  constructed SEARCH_REQUEST
    (string (base r) ++ enumerated (scope_as_i64 (scope r)) ++ enumerated (deref_as_i64 (deref r)) ++
     integer (size_limit r) ++ integer (time_limit r) ++ boolean (types_only r) ++ encode_filter (filter r) ++
     sequence (concat (map string (wanted r)))).

Record Attribute := mkAttribute { name : list Z; values : list (list Z) }.
Definition attribute_first (a : Attribute) : option (list Z) :=
  match values a with v :: _ => if utf8_valid v then Some v else None | [] => None end.

Record SearchEntry := mkEntry { dn : list Z; attributes : list Attribute }.
Definition entry_attribute (e : SearchEntry) (n : list Z) : option Attribute :=
  find (fun a => bool_decide (lowercase (name a) = lowercase n)) (attributes e).
Definition entry_value (e : SearchEntry) (n : list Z) : option (list Z) :=
  let! a := entry_attribute e n in attribute_first a.
Definition entry_values (e : SearchEntry) (n : list Z) : list (list Z) :=
  match entry_attribute e n with Some a => List.filter utf8_valid (values a) | None => [] end.

Definition decode_attribute (d : Decoder) : result LdapError (Attribute * Decoder) :=
  let? (partial, d) := next_sequence d in
  let? (n, partial) := next_string partial in
  let? (inner, _) := next_set partial in
  let? vs := many next_octets inner in
  Ok (mkAttribute n vs, d).

Definition decode_entry (d : Decoder) : result LdapError (SearchEntry * Decoder) :=
  let? (n, d) := next_string d in
  let? (inner, d) := next_sequence d in
  let? attrs := many decode_attribute inner in
  Ok (mkEntry n attrs, d).

(** ** Operations sent *)

Record Operation := mkOperation { kind : list Z; op : list Z; controls : list Control; carries_password : bool }.

Definition bind_bytes (name password : list Z) : list Z :=
  constructed BIND_REQUEST (integer VERSION ++ string name ++ tagged_string (context 0 false) password).

Definition simple_bind (name password : list Z) : result LdapError Operation :=
  match password with
  | [] => Err EmptyPassword
  | _ => Ok (mkOperation (lit "bind") (bind_bytes name password) [] true)
  end.
Definition anonymous_bind : Operation := mkOperation (lit "anonymous bind") (bind_bytes [] []) [] false.
Definition search (r : SearchRequest) : Operation := mkOperation (lit "search") (encode_search r) [] false.
Definition unbind : Operation := mkOperation (lit "unbind") (element UNBIND_REQUEST []) [] false.
Definition extended (o : list Z) (v : option (list Z)) : Operation :=
  mkOperation (lit "extended request")
    (constructed EXTENDED_REQUEST (tagged_string (context 0 false) o ++ optional (element (context 1 false)) v)) [] false.
Definition start_tls : Operation :=
  let operation := extended START_TLS_OID None in
  mkOperation (lit "StartTLS request") (op operation) (controls operation) (carries_password operation).
Definition with_control (c : Control) (o : Operation) : Operation :=
  mkOperation (kind o) (op o) (controls o ++ [c]) (carries_password o).

Definition encode_operation (message_id : Z) (o : Operation) : list Z :=
  sequence (integer message_id ++ op o ++
    (match controls o with [] => [] | cs => constructed (context 0 true) (concat (map encode_control cs)) end)).

(** ** Messages read *)

Inductive ProtocolOp :=
  | BindResponse (r : LdapResult) (server_sasl_credentials : option (list Z))
  | SearchResultEntry (e : SearchEntry)
  | SearchResultReference (uris : list (list Z))
  | SearchResultDone (r : LdapResult)
  | ExtendedResponse (r : LdapResult) (n : option (list Z)) (v : option (list Z))
  | IntermediateResponse
  | Unrecognised (tag : Z).

Definition op_result (o : ProtocolOp) : option LdapResult :=
  match o with
  | BindResponse r _ | SearchResultDone r | ExtendedResponse r _ _ => Some r
  | _ => None
  end.

Record LdapMessage := mkMessage { id : Z; message_op : ProtocolOp; message_controls : list Control }.

Definition optional_octets (tag : Z) (d : Decoder) : result LdapError (option (list Z) * Decoder) :=
  if has_tag tag d then let? (v, d) := expect tag d in Ok (Some v, d) else Ok (None, d).

Definition decode_op (tag : Z) (message : Decoder) : result LdapError (ProtocolOp * Decoder) :=
  if tag =? BIND_RESPONSE then
    let? (fields, message) := nested tag message in
    let? (r, fields) := decode_result fields in
    let? (credentials, _) := optional_octets (context 7 false) fields in
    Ok (BindResponse r credentials, message)
  else if tag =? SEARCH_RESULT_ENTRY then
    let? (fields, message) := nested tag message in
    let? (e, _) := decode_entry fields in Ok (SearchResultEntry e, message)
  else if tag =? SEARCH_RESULT_DONE then
    let? (fields, message) := nested tag message in
    let? (r, _) := decode_result fields in Ok (SearchResultDone r, message)
  else if tag =? SEARCH_RESULT_REFERENCE then
    let? (fields, message) := nested tag message in
    let? uris := many next_string fields in Ok (SearchResultReference uris, message)
  else if tag =? EXTENDED_RESPONSE then
    let? (fields, message) := nested tag message in
    let? (r, fields) := decode_result fields in
    let? (n, fields) :=
      if has_tag (context 10 false) fields
      then let? (n, fields) := next_tagged_string (context 10 false) fields in Ok (Some n, fields)
      else Ok (None, fields) in
    let? (v, _) := optional_octets (context 11 false) fields in
    Ok (ExtendedResponse r n v, message)
  else if tag =? INTERMEDIATE_RESPONSE then
    let? message := skip message in Ok (IntermediateResponse, message)
  else
    let? message := skip message in Ok (Unrecognised tag, message).

Definition parse (bytes : list Z) : result LdapError LdapMessage :=
  let outer := new bytes in
  let? (message, outer) := next_sequence outer in
  let? _ := finish outer in
  let? (i, message) := next_integer message in
  if i <? 0 then Err (NegativeId i)
  else
    match peek_tag message with
    | None => Err NoOperation
    | Some tag =>
        let? (o, message) := decode_op tag message in
        let? (cs, message) :=
          if has_tag (context 0 true) message then
            let? (inner, message) := nested (context 0 true) message in
            let? cs := many decode_control inner in Ok (cs, message)
          else Ok ([], message) in
        let? _ := finish message in
        Ok (mkMessage i o cs)
    end.

Example ldap_runs :
  encode_operation 1 start_tls = [48; 29; 2; 1; 1; 119; 24; 128; 22; 49; 46; 51; 46; 54; 46; 49; 46; 52; 46; 49; 46; 49; 52; 54; 54; 46; 50; 48; 48; 51; 55] /\
  parse [48; 12; 2; 1; 1; 97; 7; 10; 1; 49; 4; 0; 4; 0] = Ok (mkMessage 1 (BindResponse (mkResult InvalidCredentials [] [] []) None) []) /\
  simple_bind (lit "cn=a") [] = Err EmptyPassword /\
  display_filter (And [Equality (lit "uid") (lit "*)(a"); Present (lit "mail")]) = lit "(&(uid=\2a\29\28a)(mail=*))" /\
  escape_dn_value (lit "#a, b ") = lit "\#a\, b\ " /\
  parse [48; 4; 2; 1; 255; 66; 0] = Err (Trailing 1).
Proof. vm_compute. split_and!; reflexivity. Qed.

End Ldap.
