(* ===== verification/LdapProofs.v ===== *)
(** * Correctness of LDAP messages

    What a reader of the protocol gets back from filters and messages, that
    escaped values stay values, and that parsing always ends. *)

From S2P Require Import Prelude Text Ber BerProofs Ldap.

Module LdapProofs.
Import Ber BerProofs Ldap.

(** ** Reading what was written *)

Create HintDb ldap.

Lemma expect_encode t c r k : tag_ok t = true -> fits c -> expect t (mkDecoder (element t c ++ r) k) = Ok (c, mkDecoder r k).
Proof. intros Ht Hc. unfold expect. rewrite next_element_encode by done. by rewrite Z.eqb_refl. Qed.

Lemma nested_encode t c r k : tag_ok t = true -> fits c -> (k < 32)%nat ->
  nested t (mkDecoder (element t c ++ r) k) = Ok (mkDecoder c (k + 1), mkDecoder r k).
Proof.
  intros Ht Hc Hk. unfold nested. cbn [depth]. rewrite (proj2 (Nat.ltb_ge MAX_DEPTH (k + 1))) by (unfold MAX_DEPTH; lia).
  by rewrite expect_encode.
Qed.

Lemma next_octets_encode c r k : fits c -> next_octets (mkDecoder (octet_string c ++ r) k) = Ok (c, mkDecoder r k).
Proof. by apply expect_encode. Qed.

Lemma next_tagged_encode t c r k : tag_ok t = true -> fits c -> utf8_valid c = true ->
  next_tagged_string t (mkDecoder (tagged_string t c ++ r) k) = Ok (c, mkDecoder r k).
Proof. intros Ht Hc Hu. unfold next_tagged_string, tagged_string. rewrite expect_encode by done. unfold utf8. by rewrite Hu. Qed.

Lemma next_string_encode c r k : fits c -> utf8_valid c = true -> next_string (mkDecoder (string c ++ r) k) = Ok (c, mkDecoder r k).
Proof. by apply next_tagged_encode. Qed.

Lemma integer_contents_length v : (length (integer_contents v) <= 8)%nat.
Proof.
  unfold integer_contents. destruct (shorten_spec (to_be_bytes 8 v)) as (_ & _ & _ & L); [apply to_be_bytes_bytes| |by rewrite to_be_bytes_length in L].
  intros E. by apply (f_equal (@length Z)) in E; rewrite to_be_bytes_length in E.
Qed.

Lemma integer_contents_fits v : fits (integer_contents v).
Proof. unfold fits. pose proof (integer_contents_length v). lia. Qed.

Lemma next_integer_encode v r k : i64_min <= v <= i64_max -> next_integer (mkDecoder (integer v ++ r) k) = Ok (v, mkDecoder r k).
Proof.
  intros Hv. unfold next_integer, integer, tagged_integer. rewrite expect_encode by (done || apply integer_contents_fits). by rewrite integer_back.
Qed.

Lemma next_enumerated_encode v r k : i64_min <= v <= i64_max -> next_enumerated (mkDecoder (enumerated v ++ r) k) = Ok (v, mkDecoder r k).
Proof.
  intros Hv. unfold next_enumerated, enumerated, tagged_integer. rewrite expect_encode by (done || apply integer_contents_fits). by rewrite integer_back.
Qed.

Lemma next_boolean_encode b r k : next_boolean (mkDecoder (boolean b ++ r) k) = Ok (b, mkDecoder r k).
Proof. unfold next_boolean, boolean. rewrite expect_encode by done. by destruct b. Qed.

Lemma has_tag_element t t' c r k : has_tag t (mkDecoder (element t' c ++ r) k) = (t' =? t).
Proof.
  unfold has_tag, peek_tag. cbn. destruct (Z.eqb_spec t' t) as [->|H]; [by rewrite bool_decide_true|].
  apply bool_decide_false. congruence.
Qed.

Lemma has_tag_empty t k : has_tag t (mkDecoder [] k) = false.
Proof. done. Qed.

Lemma element_nonempty t c : (0 < length (element t c))%nat.
Proof. unfold element. cbn. lia. Qed.

(** A loop over what was written item by item. *)
Lemma many_encode {A} (f : Decoder -> result LdapError (A * Decoder)) (enc : A -> list Z) l k :
  (forall a r, a ∈ l -> f (mkDecoder (enc a ++ r) k) = Ok (a, mkDecoder r k)) -> (forall a, a ∈ l -> enc a <> []) ->
  many f (mkDecoder (concat (map enc l)) k) = Ok l.
Proof.
  intros Hf He. unfold many. cbn [rest].
  enough (forall n, (length (concat (map enc l)) <= n)%nat -> many_aux f n (mkDecoder (concat (map enc l)) k) = Ok l) by auto.
  induction l as [|a l IH]; intros n Hn; [by destruct n|].
  cbn [map concat] in *. pose proof (He a ltac:(constructor)) as Ha. rewrite length_app in Hn.
  destruct n as [|n]; [destruct (enc a); [done|cbn in Hn; lia]|]. cbn [many_aux].
  assert (Hemp : is_empty (mkDecoder (enc a ++ concat (map enc l)) k) = false) by (unfold is_empty; cbn; by destruct (enc a)).
  rewrite Hemp, Hf by constructor. rewrite IH; [done| | |destruct (enc a); [done|cbn in Hn; lia]].
  - intros b r Hb. apply Hf. by constructor.
  - intros b Hb. apply He. by constructor.
Qed.

(** Parts of something that fits, fit. *)
Lemma fits_le c c' : fits c -> (length c' <= length c)%nat -> fits c'.
Proof. unfold fits. lia. Qed.

Lemma fits_element t c : fits (element t c) -> fits c.
Proof. intros H. eapply fits_le; [exact H|]. unfold element. cbn. rewrite length_app. lia. Qed.

Lemma fits_app_l a b : fits (a ++ b) -> fits a.
Proof. intros H. eapply fits_le; [exact H|]. rewrite length_app. lia. Qed.

Lemma fits_app_r a b : fits (a ++ b) -> fits b.
Proof. intros H. eapply fits_le; [exact H|]. rewrite length_app. lia. Qed.

Lemma fits_concat {A} (enc : A -> list Z) l a : fits (concat (map enc l)) -> a ∈ l -> fits (enc a).
Proof.
  intros H Ha. eapply fits_le; [exact H|]. induction Ha as [a l|a b l Ha IH]; cbn; rewrite length_app; [lia|].
  assert (fits (concat (map enc l))) by (by apply fits_app_r in H). specialize (IH ltac:(done)). lia.
Qed.

Lemma fits_optional {A} (enc : A -> list Z) o a : fits (optional enc o) -> o = Some a -> fits (enc a).
Proof. by intros H ->. Qed.
#[export] Hint Resolve fits_element fits_app_l fits_app_r : ldap.

(** ** Filters

    How a directory reads a filter (RFC 4511, 4.5.1.7). *)

Fixpoint many_tagged (fuel : nat) (t : Z) (d : Decoder) : result LdapError (list (list Z) * Decoder) :=
  match fuel with
  | O => Err OutOfFuel
  | S fuel =>
      if has_tag t d then
        let? (c, d) := expect t d in let? (l, d) := many_tagged fuel t d in Ok (c :: l, d)
      else Ok ([], d)
  end.

Definition read_assertion (build : list Z -> list Z -> Filter) (d : Decoder) : result LdapError Filter :=
  let? (a, d) := next_octets d in
  let? (v, d) := next_octets d in
  let? _ := finish d in Ok (build a v).

Definition read_substrings (d : Decoder) : result LdapError Filter :=
  let? (a, d) := next_octets d in
  let? (parts, d) := expect SEQUENCE d in
  let? _ := finish d in
  let? (initial, p) := optional_octets (context 0 false) (mkDecoder parts 0) in
  let? (any, p) := many_tagged (S (length (rest p))) (context 1 false) p in
  let? (last, p) := optional_octets (context 2 false) p in
  let? _ := finish p in Ok (Substrings a initial any last).

Fixpoint read_filter (fuel : nat) (d : Decoder) : result LdapError (Filter * Decoder) :=
  match fuel with
  | O => Err OutOfFuel
  | S fuel =>
      let? (t, c, d) := next_element d in
      let inner := mkDecoder c (depth d) in
      let? f :=
        if t =? context 0 true then let? l := many (read_filter fuel) inner in Ok (And l)
        else if t =? context 1 true then let? l := many (read_filter fuel) inner in Ok (Or l)
        else if t =? context 2 true then let? (f, inner) := read_filter fuel inner in let? _ := finish inner in Ok (Not f)
        else if t =? context 3 true then read_assertion Equality inner
        else if t =? context 4 true then read_substrings inner
        else if t =? context 5 true then read_assertion GreaterOrEqual inner
        else if t =? context 6 true then read_assertion LessOrEqual inner
        else if t =? context 7 false then Ok (Present c)
        else if t =? context 8 true then read_assertion Approximate inner
        else Err (WrongTag (context 0 true) t) in
      Ok (f, d)
  end.

Fixpoint filter_depth (f : Filter) : nat :=
  match f with
  | And l | Or l => S (fold_right Nat.max O (map filter_depth l))
  | Not f => S (filter_depth f)
  | _ => 1
  end.

Lemma fold_max_le {A} (g : A -> nat) l a : a ∈ l -> (g a <= fold_right Nat.max O (map g l))%nat.
Proof. induction 1; cbn; lia. Qed.

Lemma read_assertion_encode build a v k : fits (string a ++ string v) ->
  read_assertion build (mkDecoder (string a ++ string v) k) = Ok (build a v).
Proof.
  intros H. unfold read_assertion, string in *. rewrite <- (app_nil_r (element OCTET_STRING v)).
  rewrite next_octets_encode by eauto with ldap. rewrite next_octets_encode by eauto with ldap. done.
Qed.

Lemma optional_octets_encode t o r k : tag_ok t = true -> fits (optional (tagged_string t) o) -> has_tag t (mkDecoder r k) = false ->
  optional_octets t (mkDecoder (optional (tagged_string t) o ++ r) k) = Ok (o, mkDecoder r k).
Proof.
  intros Ht Ho Hr. unfold optional_octets, tagged_string in *. destruct o as [c|]; cbn [optional app] in *; [|by rewrite Hr].
  rewrite has_tag_element, Z.eqb_refl, expect_encode by eauto with ldap. done.
Qed.

Lemma many_tagged_encode t l r k fuel : tag_ok t = true -> fits (concat (map (tagged_string t) l)) -> has_tag t (mkDecoder r k) = false ->
  (length l < fuel)%nat -> many_tagged fuel t (mkDecoder (concat (map (tagged_string t) l) ++ r) k) = Ok (l, mkDecoder r k).
Proof.
  intros Ht Hf Hr. revert fuel. induction l as [|c l IH]; intros fuel Hfuel; (destruct fuel as [|fuel]; [lia|]); cbn [many_tagged map concat app]; [by rewrite Hr|].
  cbn [map concat] in Hf. unfold tagged_string at 1 3. rewrite <- app_assoc, has_tag_element, Z.eqb_refl, expect_encode by eauto with ldap.
  rewrite IH; [done|eauto with ldap|cbn in Hfuel; lia].
Qed.

Lemma concat_length_ge {A} (enc : A -> list Z) l : (forall a, enc a <> []) -> (length l <= length (concat (map enc l)))%nat.
Proof. intros H. induction l as [|a l IH]; cbn; [lia|]. rewrite length_app. pose proof (H a). destruct (enc a); [done|]. cbn. lia. Qed.

Lemma optional_tag_free t t' o k : t' <> t -> has_tag t (mkDecoder (optional (tagged_string t') o) k) = false.
Proof.
  intros H. destruct o as [c|]; [|done]. cbn [optional]. unfold tagged_string. rewrite <- (app_nil_r (element t' c)), has_tag_element. by apply Z.eqb_neq.
Qed.

Lemma concat_tag_free t t' l r k : t' <> t -> has_tag t (mkDecoder r k) = false -> has_tag t (mkDecoder (concat (map (tagged_string t') l) ++ r) k) = false.
Proof. intros H Hr. destruct l as [|c l]; [done|]. cbn [map concat]. unfold tagged_string at 1. rewrite <- app_assoc, has_tag_element. by apply Z.eqb_neq. Qed.

Lemma read_substrings_encode a initial any last k :
  let parts := optional (tagged_string (context 0 false)) initial ++ concat (map (tagged_string (context 1 false)) any) ++
               optional (tagged_string (context 2 false)) last in
  fits (string a ++ sequence parts) ->
  read_substrings (mkDecoder (string a ++ sequence parts) k) = Ok (Substrings a initial any last).
Proof.
  intros parts H. unfold read_substrings, string, sequence, constructed in *. rewrite <- (app_nil_r (element SEQUENCE parts)).
  rewrite next_octets_encode, expect_encode by eauto with ldap. cbn [finish is_empty rest].
  assert (Hp : fits parts) by eauto with ldap.
  unfold parts. rewrite optional_octets_encode; [|done|unfold parts in Hp; eauto with ldap|].
  2:{ apply concat_tag_free; [done|]. by apply optional_tag_free. }
  cbn [rest]. rewrite many_tagged_encode; [|done|unfold parts in Hp; eauto with ldap|by apply optional_tag_free|].
  2:{ rewrite length_app. pose proof (concat_length_ge (tagged_string (context 1 false)) any ltac:(done)). lia. }
  rewrite <- (app_nil_r (optional (tagged_string (context 2 false)) last)). rewrite optional_octets_encode; [done|done| |done].
  unfold parts in Hp. eauto with ldap.
Qed.

Lemma read_filter_encode fuel : forall f r k, (filter_depth f <= fuel)%nat -> fits (encode_filter f) ->
  read_filter fuel (mkDecoder (encode_filter f ++ r) k) = Ok (f, mkDecoder r k).
Proof.
  assert (Hne : forall f, encode_filter f <> []) by (intros []; discriminate).
  induction fuel as [|fuel IH]; intros f r k Hd Hf; [destruct f; cbn in Hd; lia|]. cbn [read_filter].
  assert (Hl : forall l k, (fold_right Nat.max O (map filter_depth l) <= fuel)%nat -> fits (concat (map encode_filter l)) ->
    many (read_filter fuel) (mkDecoder (concat (map encode_filter l)) k) = Ok l).
  { intros l k' Hle Hfl. apply many_encode; [|auto]. intros a r' Ha. apply IH; [|by eapply fits_concat].
    pose proof (fold_max_le filter_depth l a Ha). lia. }
  destruct f as [l|l|f|a v|a v|a v|a v|a|a initial any last]; cbn [encode_filter filter_depth] in *; unfold assertion, constructed, tagged_string in *;
    pose proof (fits_element _ _ Hf) as Hc; (rewrite next_element_encode; [|reflexivity|exact Hc]); cbn [depth].
  - rewrite Z.eqb_refl, Hl by (exact Hc || lia). done.
  - change (context 1 true =? context 0 true) with false. rewrite Z.eqb_refl, Hl by (exact Hc || lia). done.
  - change (context 2 true =? context 0 true) with false. change (context 2 true =? context 1 true) with false. rewrite Z.eqb_refl.
    rewrite <- (app_nil_r (encode_filter f)), IH by (exact Hc || lia). done.
  - pose proof (read_assertion_encode Equality a v k Hc) as E. change (context 3 true =? context 0 true) with false.
    change (context 3 true =? context 1 true) with false. change (context 3 true =? context 2 true) with false. by rewrite Z.eqb_refl, E.
  - pose proof (read_assertion_encode GreaterOrEqual a v k Hc) as E. by rewrite E.
  - pose proof (read_assertion_encode LessOrEqual a v k Hc) as E. by rewrite E.
  - pose proof (read_assertion_encode Approximate a v k Hc) as E. by rewrite E.
  - done.
  - pose proof (read_substrings_encode a initial any last k Hc) as E. unfold sequence, constructed, tagged_string in E. unfold sequence, constructed. by rewrite E.
Qed.

(** C31. A filter cannot be injected into: whatever bytes its values hold, a
    directory that reads its encoding as RFC 4511 says gets back exactly the
    filter that was built, and stops exactly where it ends. *)
Theorem filters_read_back f r k :
  fits (encode_filter f) -> read_filter (filter_depth f) (mkDecoder (encode_filter f ++ r) k) = Ok (f, mkDecoder r k).
Proof. intros Hf. by apply read_filter_encode. Qed.

Lemma filters_read_back_witness :
  let f := And [Equality (lit "uid") (lit "*)(uid=admin"); Not (Substrings (lit "cn") (Some (lit "a")) [lit "("; lit "*"] None)] in
  read_filter 3 (mkDecoder (encode_filter f ++ [255]) 0) = Ok (f, mkDecoder [255] 0).
Proof. intros f. apply (filters_read_back f [255] 0). reflexivity. Defined.

(** ** Escapes *)

Definition hex_value (c : Z) : option Z :=
  if (48 <=? c) && (c <=? 57) then Some (c - 48) else if (97 <=? c) && (c <=? 102) then Some (c - 87) else None.
Definition hex_pair (h l : Z) : option Z := let! h := hex_value h in let! l := hex_value l in Some (16 * h + l).

(** How the text of a filter value is read (RFC 4515). *)
Fixpoint unescape_filter (l : list Z) : option (list Z) :=
  match l with
  | [] => Some []
  | 92 :: h :: l :: r => let! c := hex_pair h l in let! r := unescape_filter r in Some (c :: r)
  | 92 :: _ => None
  | c :: r => let! r := unescape_filter r in Some (c :: r)
  end.

(** A DN value as characters, each escaped or bare (RFC 4514). *)
Definition dn_specials : list Z := [34; 43; 44; 59; 60; 62; 92; 61; 35; 32].
Fixpoint dn_tokens (l : list Z) : option (list (bool * Z)) :=
  match l with
  | [] => Some []
  | 92 :: c :: r =>
      if existsb (Z.eqb c) dn_specials then let! r := dn_tokens r in Some ((true, c) :: r)
      else match r with
           | d :: r => let! c := hex_pair c d in let! r := dn_tokens r in Some ((true, c) :: r)
           | [] => None
           end
  | 92 :: _ => None
  | c :: r => let! r := dn_tokens r in Some ((false, c) :: r)
  end.

Lemma unescape_filter_char c r : unescape_filter (escape_filter_char c ++ r) = let! r := unescape_filter r in Some (c :: r).
Proof.
  unfold escape_filter_char. destruct (Z.eqb_spec c 92) as [->|H92]; [done|]. destruct (Z.eqb_spec c 42) as [->|]; [done|].
  destruct (Z.eqb_spec c 40) as [->|]; [done|]. destruct (Z.eqb_spec c 41) as [->|]; [done|]. destruct (Z.eqb_spec c 0) as [->|]; [done|].
  cbn [app]. cbn [unescape_filter]. repeat (case_match; try done).
Qed.

Lemma escape_filter_char_plain a c : c ∈ escape_filter_char a -> c ∉ [40; 41; 42; 0].
Proof.
  intros H1 H2. apply list_elem_of_In in H1, H2. cbn in H2. unfold escape_filter_char in H1.
  destruct (Z.eqb_spec a 92); [vm_compute in H1; lia|]. destruct (Z.eqb_spec a 42); [vm_compute in H1; lia|].
  destruct (Z.eqb_spec a 40); [vm_compute in H1; lia|]. destruct (Z.eqb_spec a 41); [vm_compute in H1; lia|].
  destruct (Z.eqb_spec a 0); [vm_compute in H1; lia|]. cbn in H1. lia.
Qed.

(** What an escaped character reads as. *)
Definition dn_token (first last : bool) (c : Z) : bool * Z :=
  ((c =? 0) || existsb (Z.eqb c) [34; 43; 44; 59; 60; 62; 92; 61] || ((c =? 35) && first) || ((c =? 32) && (first || last)), c).

Lemma dn_tokens_bare c r : c <> 92 -> dn_tokens (c :: r) = let! r := dn_tokens r in Some ((false, c) :: r).
Proof. intros H. cbn [dn_tokens]. repeat (case_match; try done). Qed.

Lemma dn_tokens_special c r : existsb (Z.eqb c) dn_specials = true -> dn_tokens (92 :: c :: r) = let! r := dn_tokens r in Some ((true, c) :: r).
Proof. intros H. cbn [dn_tokens]. by rewrite H. Qed.

Lemma dn_tokens_char first last c r :
  dn_tokens (escape_dn_char first last c ++ r) = let! r := dn_tokens r in Some (dn_token first last c :: r).
Proof.
  unfold escape_dn_char, dn_token. destruct (Z.eqb_spec c 0) as [->|]; [done|]. cbn [orb].
  destruct (existsb (Z.eqb c) [34; 43; 44; 59; 60; 62; 92; 61]) eqn:Es; cbn [orb app].
  { apply dn_tokens_special. cbn in *. repeat (apply orb_true_iff in Es as [Es|Es]; [rewrite Es; by rewrite ?orb_true_r|]). done. }
  destruct (Z.eqb_spec c 35) as [->|H35].
  { destruct first; cbn [andb orb app]; [by apply dn_tokens_special|by apply dn_tokens_bare]. }
  destruct (Z.eqb_spec c 32) as [->|H32].
  { destruct (first || last); cbn [andb orb app]; [by apply dn_tokens_special|by apply dn_tokens_bare]. }
  cbn [andb orb app]. apply dn_tokens_bare. intros ->. done.
Qed.

Fixpoint dn_marks (first : bool) (l : list Z) : list (bool * Z) :=
  match l with [] => [] | c :: r => dn_token first (match r with [] => true | _ => false end) c :: dn_marks false r end.

Lemma dn_tokens_value first l : dn_tokens (escape_dn_from first l) = Some (dn_marks first l).
Proof. revert first. induction l as [|c l IH]; intros first; [done|]. cbn [escape_dn_from dn_marks]. by rewrite dn_tokens_char, IH. Qed.

Lemma dn_marks_snd first l : map snd (dn_marks first l) = l.
Proof. revert first. induction l as [|c l IH]; intros first; [done|]. cbn. by rewrite IH. Qed.

Lemma dn_marks_bare first l t : t ∈ dn_marks first l -> t.1 = false -> t.2 ∉ [0; 34; 43; 44; 59; 60; 62; 92; 61].
Proof.
  revert first. induction l as [|c l IH]; intros first; cbn [dn_marks]; [by intros ?%elem_of_nil|].
  intros [->|Ht]%elem_of_cons Hb; [|by eapply IH]. cbn [fst snd dn_token] in *. apply orb_false_iff in Hb as [Hb _]. apply orb_false_iff in Hb as [Hb _].
  apply orb_false_iff in Hb as [H0 Hs]. cbn in Hs. intros Hin. rewrite list_elem_of_In in Hin. cbn in Hin. lia.
Qed.

Lemma dn_marks_last first l c : head (rev (dn_marks first l)) = Some (false, c) -> c <> 32.
Proof.
  revert first. induction l as [|x l IH]; intros first; [done|]. cbn [dn_marks]. destruct l as [|y l].
  - cbn. intros [= H <-] ->. destruct first; done.
  - cbn [rev]. intros H. apply (IH false). rewrite <- H. set (m := dn_marks false (y :: l)).
    assert (Hm : rev m <> []) by (intros E; apply (f_equal (@rev _)) in E; by rewrite rev_involutive in E). by destruct (rev m).
Qed.

(** Escaping keeps values values: escaped text reads back as the value it was
    made from; in a filter it holds no parenthesis, asterisk or NUL; in a
    distinguished name no separator stands bare, nor a number sign or space at
    the start, nor a space at the end. *)
Theorem escapes_contain_values v :
  unescape_filter (escape_filter_value v) = Some v /\
  (forall c, c ∈ escape_filter_value v -> c ∉ [40; 41; 42; 0]) /\
  exists tokens, dn_tokens (escape_dn_value v) = Some tokens /\ map snd tokens = v /\
    (forall t, t ∈ tokens -> t.1 = false -> t.2 ∉ [0; 34; 43; 44; 59; 60; 62; 92; 61]) /\
    (forall c, head tokens = Some (false, c) -> c <> 35 /\ c <> 32) /\ (forall c, head (rev tokens) = Some (false, c) -> c <> 32).
Proof.
  split; [|split].
  - induction v as [|c v IH]; [done|]. unfold escape_filter_value in *. cbn [map concat]. by rewrite unescape_filter_char, IH.
  - intros c Hc. unfold escape_filter_value in Hc. apply list_elem_of_In, in_concat in Hc as (x & Hx & Hc). apply in_map_iff in Hx as (a & <- & _).
    apply list_elem_of_In in Hc. by apply escape_filter_char_plain in Hc.
  - exists (dn_marks true v). unfold escape_dn_value. split_and!; [apply dn_tokens_value|apply dn_marks_snd|apply dn_marks_bare| |apply dn_marks_last].
    intros c. destruct v as [|x v]; [done|]. cbn. intros [= H <-]. lia.
Qed.

(** ** Messages

    How a directory writes what the client reads (RFC 4511, 4.1.1 and the
    responses of section 4). *)

Definition wire_result (r : LdapResult) : list Z :=
  enumerated (as_i64 (code r)) ++ string (matched_dn r) ++ string (diagnostic r) ++
  (match referrals r with [] => [] | l => constructed (context 3 true) (concat (map string l)) end).
Definition wire_attribute (a : Attribute) : list Z := sequence (string (name a) ++ set (concat (map octet_string (values a)))).
Definition wire_entry (e : SearchEntry) : list Z := string (dn e) ++ sequence (concat (map wire_attribute (attributes e))).

Definition wire_tag (o : ProtocolOp) : Z :=
  match o with
  | BindResponse _ _ => BIND_RESPONSE
  | SearchResultEntry _ => SEARCH_RESULT_ENTRY
  | SearchResultReference _ => SEARCH_RESULT_REFERENCE
  | SearchResultDone _ => SEARCH_RESULT_DONE
  | ExtendedResponse _ _ _ => EXTENDED_RESPONSE
  | IntermediateResponse => INTERMEDIATE_RESPONSE
  | Unrecognised t => t
  end.
Definition wire_body (o : ProtocolOp) : list Z :=
  match o with
  | BindResponse r c => wire_result r ++ optional (tagged_string (context 7 false)) c
  | SearchResultEntry e => wire_entry e
  | SearchResultReference uris => concat (map string uris)
  | SearchResultDone r => wire_result r
  | ExtendedResponse r n v =>
      wire_result r ++ optional (tagged_string (context 10 false)) n ++ optional (tagged_string (context 11 false)) v
  | _ => []
  end.
Definition wire (m : LdapMessage) : list Z :=
  encode_operation (id m) (mkOperation [] (element (wire_tag (message_op m)) (wire_body (message_op m))) (message_controls m) false).

(** Strings are UTF-8; a code is the one its number stands for. *)
Definition is_text (t : list Z) : Prop := utf8_valid t = true.
Definition code_ok (c : ResultCode) : Prop := from_i64 (as_i64 c) = c /\ i64_min <= as_i64 c <= i64_max.
Definition result_ok (r : LdapResult) : Prop :=
  code_ok (code r) /\ is_text (matched_dn r) /\ is_text (diagnostic r) /\ Forall is_text (referrals r).
Definition op_ok (o : ProtocolOp) : Prop :=
  match o with
  | BindResponse r _ | SearchResultDone r => result_ok r
  | SearchResultEntry e => is_text (dn e) /\ Forall (fun a => is_text (name a)) (attributes e)
  | SearchResultReference uris => Forall is_text uris
  | ExtendedResponse r n _ => result_ok r /\ (match n with Some n => is_text n | None => True end)
  | IntermediateResponse => True
  | Unrecognised t =>
      tag_ok t = true /\
      t ∉ [BIND_RESPONSE; SEARCH_RESULT_ENTRY; SEARCH_RESULT_DONE; SEARCH_RESULT_REFERENCE; EXTENDED_RESPONSE; INTERMEDIATE_RESPONSE]
  end.
Definition message_ok (m : LdapMessage) : Prop :=
  0 <= id m <= i64_max /\ op_ok (message_op m) /\ Forall (fun c => is_text (oid c)) (message_controls m).

Lemma strings_encode l k : Forall is_text l -> fits (concat (map string l)) -> many next_string (mkDecoder (concat (map string l)) k) = Ok l.
Proof.
  intros Hl Hf. apply many_encode; [|done]. intros a r Ha. rewrite List.Forall_forall in Hl.
  apply next_string_encode; [|apply Hl; by apply list_elem_of_In]. eapply fits_element, (fits_concat string); [exact Hf|done].
Qed.

Lemma decode_result_encode r r' k : result_ok r -> fits (wire_result r) -> (k < 32)%nat -> has_tag (context 3 true) (mkDecoder r' k) = false ->
  decode_result (mkDecoder (wire_result r ++ r') k) = Ok (r, mkDecoder r' k).
Proof.
  intros ([Hc Hi] & Hdn & Hdi & Hrf) Hf Hk Hno. destruct r as [c mdn diag refs]. unfold wire_result in *. cbn [code matched_dn diagnostic referrals] in *.
  unfold decode_result. rewrite <- !app_assoc, next_enumerated_encode by done. apply fits_app_r in Hf.
  pose proof (fits_app_l _ _ Hf) as Hf1. apply fits_app_r in Hf. pose proof (fits_app_l _ _ Hf) as Hf2. apply fits_app_r in Hf.
  rewrite next_string_encode by (done || by eapply fits_element). rewrite next_string_encode by (done || by eapply fits_element).
  destruct refs as [|u refs]; [cbn [app]; by rewrite Hno, Hc|]. set (l := u :: refs) in *.
  unfold constructed in *. rewrite has_tag_element, Z.eqb_refl, nested_encode by (done || by eapply fits_element).
  by rewrite strings_encode, Hc by (done || by eapply fits_element).
Qed.

Lemma decode_control_encode c r k : is_text (oid c) -> fits (encode_control c) -> (k < 32)%nat ->
  decode_control (mkDecoder (encode_control c ++ r) k) = Ok (c, mkDecoder r k).
Proof.
  intros Ho Hf Hk. destruct c as [o crit v]. unfold encode_control, sequence, constructed in *. cbn [oid critical value] in *.
  apply fits_element in Hf as Hb. unfold decode_control, next_sequence. rewrite nested_encode by done.
  pose proof (fits_app_l _ _ Hb) as Hs. apply fits_app_r in Hb. rewrite next_string_encode by (done || by eapply fits_element).
  assert (Hv : (if has_tag OCTET_STRING (mkDecoder (match v with Some v => octet_string v | None => [] end) (k + 1))
      then let? (v, fields) := next_octets (mkDecoder (match v with Some v => octet_string v | None => [] end) (k + 1)) in Ok (Some v, fields)
      else Ok (None, mkDecoder (match v with Some v => octet_string v | None => [] end) (k + 1))) = Ok (v, mkDecoder [] (k + 1))).
  { destruct v as [v|]; [|done]. apply fits_app_r in Hb. unfold octet_string in *. rewrite <- (app_nil_r (element OCTET_STRING v)).
    rewrite has_tag_element. change (OCTET_STRING =? OCTET_STRING) with true. cbv iota. by rewrite next_octets_encode by (by eapply fits_element). }
  destruct crit; cbn [app].
  - unfold boolean at 1. rewrite has_tag_element. change (BOOLEAN =? BOOLEAN) with true. cbv iota. rewrite next_boolean_encode. by rewrite Hv.
  - replace (has_tag BOOLEAN _) with false; [by rewrite Hv|]. destruct v as [v|]; [|done]. unfold octet_string.
    by rewrite <- (app_nil_r (element OCTET_STRING v)), has_tag_element.
Qed.

Lemma decode_attribute_encode a r k : is_text (name a) -> fits (wire_attribute a) -> (k < 31)%nat ->
  decode_attribute (mkDecoder (wire_attribute a ++ r) k) = Ok (a, mkDecoder r k).
Proof.
  intros Ht Hf Hk. destruct a as [n vs]. unfold wire_attribute, sequence, set, constructed in *. cbn [name values] in *.
  apply fits_element in Hf as Hb. unfold decode_attribute, next_sequence, next_set. rewrite nested_encode by (done || lia).
  pose proof (fits_app_l _ _ Hb) as Hs. apply fits_app_r in Hb. rewrite next_string_encode by (done || by eapply fits_element).
  rewrite <- (app_nil_r (element SET _)), nested_encode by (done || lia || by eapply fits_element). apply fits_element in Hb.
  rewrite many_encode; [done| |done]. intros v r' Hv. apply next_octets_encode. eapply fits_element, (fits_concat octet_string); [exact Hb|done].
Qed.

Lemma decode_entry_encode e k : is_text (dn e) -> Forall (fun a => is_text (name a)) (attributes e) -> fits (wire_entry e) -> (k < 30)%nat ->
  decode_entry (mkDecoder (wire_entry e) k) = Ok (e, mkDecoder [] k).
Proof.
  intros Hdn Ha Hf Hk. destruct e as [n attrs]. unfold wire_entry, sequence, constructed in *. cbn [dn attributes] in *. unfold decode_entry, next_sequence.
  pose proof (fits_app_l _ _ Hf) as Hs. apply fits_app_r in Hf. rewrite next_string_encode by (done || by eapply fits_element).
  rewrite <- (app_nil_r (element SEQUENCE _)), nested_encode by (done || lia || by eapply fits_element). apply fits_element in Hf.
  rewrite many_encode; [done| |done]. intros a r' Hin. rewrite List.Forall_forall in Ha.
  apply decode_attribute_encode; [apply Ha; by apply list_elem_of_In|by eapply (fits_concat wire_attribute)|lia].
Qed.

Lemma decode_op_encode o r : op_ok o -> fits (wire_body o) ->
  decode_op (wire_tag o) (mkDecoder (element (wire_tag o) (wire_body o) ++ r) 1) = Ok (o, mkDecoder r 1).
Proof.
  intros Ho Hf. unfold decode_op. destruct o as [res cred|e|uris|res|res n v| |t]; cbn [wire_tag wire_body op_ok] in *.
  - rewrite Z.eqb_refl, nested_encode by (done || lia). rewrite decode_result_encode by (done || lia || eauto with ldap || by apply optional_tag_free).
    rewrite <- (app_nil_r (optional (tagged_string (context 7 false)) cred)). rewrite optional_octets_encode by (done || eauto with ldap). done.
  - change (SEARCH_RESULT_ENTRY =? BIND_RESPONSE) with false. rewrite Z.eqb_refl, nested_encode by (done || lia). destruct Ho.
    by rewrite decode_entry_encode by (done || lia).
  - change (SEARCH_RESULT_REFERENCE =? BIND_RESPONSE) with false. change (SEARCH_RESULT_REFERENCE =? SEARCH_RESULT_ENTRY) with false.
    change (SEARCH_RESULT_REFERENCE =? SEARCH_RESULT_DONE) with false. rewrite Z.eqb_refl, nested_encode by (done || lia). by rewrite strings_encode.
  - change (SEARCH_RESULT_DONE =? BIND_RESPONSE) with false. change (SEARCH_RESULT_DONE =? SEARCH_RESULT_ENTRY) with false.
    rewrite Z.eqb_refl, nested_encode by (done || lia). rewrite <- (app_nil_r (wire_result res)), decode_result_encode by (done || lia). done.
  - destruct Ho as [Hres Hn]. change (EXTENDED_RESPONSE =? BIND_RESPONSE) with false. change (EXTENDED_RESPONSE =? SEARCH_RESULT_ENTRY) with false.
    change (EXTENDED_RESPONSE =? SEARCH_RESULT_DONE) with false. change (EXTENDED_RESPONSE =? SEARCH_RESULT_REFERENCE) with false.
    rewrite Z.eqb_refl, nested_encode by (done || lia). pose proof (fits_app_l _ _ Hf) as Hf1. apply fits_app_r in Hf.
    pose proof (fits_app_l _ _ Hf) as Hf2. apply fits_app_r in Hf. rewrite decode_result_encode; [|done|done|lia|].
    2:{ destruct n as [n|]; cbn [optional app]; [unfold tagged_string; by rewrite has_tag_element|by apply optional_tag_free]. }
    assert (Hlast : optional_octets (context 11 false) (mkDecoder (optional (tagged_string (context 11 false)) v) (1 + 1)) = Ok (v, mkDecoder [] (1 + 1))).
    { rewrite <- (app_nil_r (optional (tagged_string (context 11 false)) v)). by apply optional_octets_encode. }
    destruct n as [n|]; cbn [optional app] in *.
    + unfold tagged_string at 1. rewrite has_tag_element, Z.eqb_refl. rewrite next_tagged_encode by (done || by eapply fits_element). by rewrite Hlast.
    + rewrite (optional_tag_free (context 10 false) (context 11 false)) by done. by rewrite Hlast.
  - unfold skip. rewrite next_element_encode by done. done.
  - destruct Ho as [Ht Hno]. rewrite !not_elem_of_cons in Hno. destruct Hno as (H1 & H2 & H3 & H4 & H5 & H6 & _).
    rewrite (proj2 (Z.eqb_neq _ _) H1), (proj2 (Z.eqb_neq _ _) H2), (proj2 (Z.eqb_neq _ _) H3), (proj2 (Z.eqb_neq _ _) H4),
      (proj2 (Z.eqb_neq _ _) H5), (proj2 (Z.eqb_neq _ _) H6). unfold skip. by rewrite next_element_encode.
Qed.

Lemma wire_tag_ok o : op_ok o -> tag_ok (wire_tag o) = true.
Proof. destruct o; cbn; try done. by intros [? _]. Qed.

Lemma parse_encode i body t o cs what secret :
  0 <= i <= i64_max -> tag_ok t = true -> Forall (fun c => is_text (oid c)) cs ->
  fits (encode_operation i (mkOperation what (element t body) cs secret)) ->
  (forall r, decode_op t (mkDecoder (element t body ++ r) 1) = Ok (o, mkDecoder r 1)) ->
  parse (encode_operation i (mkOperation what (element t body) cs secret)) = Ok (mkMessage i o cs).
Proof.
  intros Hi Ht Hcs Hf Hop. unfold encode_operation, sequence, constructed in *. cbn [op controls] in *.
  apply fits_element in Hf as Hb. unfold parse, new, next_sequence. rewrite <- (app_nil_r (element SEQUENCE _)), nested_encode by (done || lia).
  cbn [finish is_empty rest]. rewrite next_integer_encode by (unfold i64_min; lia). rewrite (proj2 (Z.ltb_ge i 0)) by lia.
  change (peek_tag (mkDecoder (element t body ++ _) (0 + 1))) with (Some t). cbn iota. rewrite Hop.
  destruct cs as [|c cs]; [done|]. set (l := c :: cs) in *. do 2 apply fits_app_r in Hb.
  rewrite <- (app_nil_r (element (context 0 true) _)), has_tag_element, Z.eqb_refl, nested_encode by (done || lia || by eapply fits_element).
  apply fits_element in Hb. rewrite many_encode; [done| |done]. intros a r Ha. rewrite List.Forall_forall in Hcs.
  apply decode_control_encode; [apply Hcs; by apply list_elem_of_In|by eapply (fits_concat encode_control)|lia].
Qed.

(** Every message a directory can send is understood: any response this client
    knows, and any other operation, with any controls, is read from the encoding
    RFC 4511 gives it as exactly what it is. *)
Theorem messages_read_back m : message_ok m -> fits (wire m) -> parse (wire m) = Ok m.
Proof.
  intros (Hi & Ho & Hc) Hf. destruct m as [i o cs]. cbn [id message_op message_controls] in *. unfold wire in *. cbn [id message_op message_controls] in *.
  apply parse_encode; [done|by apply wire_tag_ok|done|done|]. intros r. apply decode_op_encode; [done|].
  unfold encode_operation, sequence, constructed in Hf. cbn [op] in Hf.
  eapply fits_element, fits_app_l, fits_app_r, fits_element, Hf.
Qed.

Lemma messages_read_back_witness :
  let m := mkMessage 7 (SearchResultEntry (mkEntry (lit "cn=a") [mkAttribute (lit "mail") [lit "a@b"; [255; 0]]]))
             [mkControl (lit "1.2") true (Some [1]); mkControl (lit "1.3") false None] in
  parse (wire m) = Ok m.
Proof.
  intros m. apply messages_read_back; [|reflexivity].
  split; [vm_compute; split; discriminate|]. split; [|repeat constructor]. split; [reflexivity|repeat constructor].
Defined.

(** ** Parsing ends *)

(** A result that satisfies [P] if there is one, and is not out of rounds. *)
Definition safe {A} (P : A -> Prop) (r : result LdapError A) : Prop :=
  match r with Ok a => P a | Err e => e <> OutOfFuel end.

Lemma safe_bind {A B} (P : A -> Prop) (Q : B -> Prop) r k :
  safe P r -> (forall a, P a -> safe Q (k a)) -> safe Q (match r with Ok a => k a | Err e => Err e end).
Proof. destruct r; cbn; auto. Qed.

Lemma safe_mono {A} (P Q : A -> Prop) r : safe P r -> (forall a, P a -> Q a) -> safe Q r.
Proof. destruct r; cbn; auto. Qed.

Definition input (d : Decoder) : Prop := bytes (rest d).
(** After reading from [d]: bytes again, and fewer of them. *)
Definition after {A} (d : Decoder) (x : A * Decoder) : Prop := input x.2 /\ (length (rest x.2) < length (rest d))%nat.

Lemma read_header_total b : read_header b <> Err OutOfFuel.
Proof. unfold read_header. repeat case_match; discriminate. Qed.

Lemma next_element_safe d : input d ->
  safe (fun x => bytes x.1.2 /\ input x.2 /\ (length (rest x.2) < length (rest d))%nat) (next_element d).
Proof.
  intros Hd. destruct (next_element d) as [[[t c] d']|e] eqn:E.
  - destruct (next_element_canonical _ _ _ _ Hd E) as (Er & _ & _ & _). unfold input in *. rewrite Er, bytes_app in Hd. destruct Hd as [He Hr]. cbn.
    unfold element in He. apply bytes_cons in He as [_ He]. apply bytes_app in He as [_ Hc]. split_and!; [done|done|].
    rewrite Er, length_app. pose proof (element_nonempty t c). lia.
  - cbn. intros ->. unfold next_element in E. pose proof (read_header_total (rest d)).
    destruct (read_header (rest d)) as [[[[t h] n]|]|e]; [repeat case_match; discriminate|discriminate|congruence].
Qed.

Lemma expect_safe t d : input d -> safe (fun x => bytes x.1 /\ after d x) (expect t d).
Proof.
  intros Hd. unfold expect. eapply safe_bind; [by apply next_element_safe|]. intros [[a c] d'] (Hc & Hd' & Hl). destruct (a =? t); [|done]. by repeat split.
Qed.

Lemma nested_safe t d : input d -> safe (fun x => input x.1 /\ after d x) (nested t d).
Proof.
  intros Hd. unfold nested. destruct (_ <? _)%nat; [done|]. eapply safe_bind; [by apply expect_safe|]. by intros [c d'] [Hc Hd'].
Qed.

Lemma next_octets_safe d : input d -> safe (after d) (next_octets d).
Proof. intros Hd. eapply safe_mono; [by apply expect_safe|]. by intros x [_ ?]. Qed.

Lemma next_tagged_safe t d : input d -> safe (after d) (next_tagged_string t d).
Proof.
  intros Hd. unfold next_tagged_string. eapply safe_bind; [by apply expect_safe|]. intros [c d'] [_ Ha]. unfold utf8. by destruct (utf8_valid c).
Qed.

Lemma integer_from_total c : integer_from c <> Err OutOfFuel.
Proof. unfold integer_from. repeat case_match; discriminate. Qed.

Lemma integer_safe t d : input d -> safe (after d) (let? (c, d) := expect t d in let? v := integer_from c in Ok (v, d)).
Proof.
  intros Hd. eapply safe_bind; [by apply expect_safe|]. intros [c d'] [_ Ha]. pose proof (integer_from_total c). destruct (integer_from c); cbn; [done|congruence].
Qed.

Lemma next_boolean_safe d : input d -> safe (after d) (next_boolean d).
Proof.
  intros Hd. unfold next_boolean. eapply safe_bind; [by apply expect_safe|]. intros [c d'] [_ Ha]. destruct c as [|x [|y c]]; done.
Qed.

Lemma many_safe {A} (f : Decoder -> result LdapError (A * Decoder)) d :
  (forall d, input d -> safe (after d) (f d)) -> input d -> safe (fun _ => True) (many f d).
Proof.
  intros Hf. unfold many. enough (forall n d, (length (rest d) <= n)%nat -> input d -> safe (fun _ => True) (many_aux f n d)) by auto. clear d.
  induction n as [|n IH]; intros d Hn Hd; cbn [many_aux]; (destruct (is_empty d) eqn:E; [done|]).
  - unfold is_empty in E. destruct (rest d); [done|cbn in Hn; lia].
  - eapply safe_bind; [by apply Hf|]. intros [a d'] [Hi Hl]. cbn in Hi, Hl. eapply safe_bind; [apply IH; [lia|done]|]. done.
Qed.

Lemma optional_safe t d : input d -> safe (fun x => input x.2) (optional_octets t d).
Proof.
  intros Hd. unfold optional_octets. destruct (has_tag t d); [|done]. eapply safe_bind; [by apply expect_safe|]. by intros [c d'] [_ [? _]].
Qed.

Lemma decode_result_safe d : input d -> safe (fun x => input x.2) (decode_result d).
Proof.
  intros Hd. unfold decode_result, next_enumerated. eapply safe_bind; [by apply integer_safe|]. intros [c d1] [H1 _]. cbn in H1.
  eapply safe_bind; [by apply next_tagged_safe|]. intros [n d2] [H2 _]. cbn in H2. eapply safe_bind; [by apply next_tagged_safe|]. intros [t d3] [H3 _]. cbn in H3.
  eapply (safe_bind (fun x => input x.2)); [|by intros []]. destruct (has_tag _ d3); [|done].
  eapply safe_bind; [by apply nested_safe|]. intros [inner d4] (Hin & H4 & _). eapply safe_bind; [apply many_safe; [apply next_tagged_safe|done]|]. done.
Qed.

Lemma decode_control_safe d : input d -> safe (after d) (decode_control d).
Proof.
  intros Hd. unfold decode_control, next_sequence. eapply safe_bind; [by apply nested_safe|]. intros [fields d1] [H1 Ha]. cbn in H1.
  eapply safe_bind; [by apply next_tagged_safe|]. intros [o f1] [H2 _]. cbn in H2.
  eapply (safe_bind (fun x => input x.2)).
  { destruct (has_tag BOOLEAN f1); [|done]. eapply safe_mono; [by apply next_boolean_safe|]. by intros x [? _]. }
  intros [crit f2] H3. cbn in H3. eapply (safe_bind (fun x => True)); [|by intros []]. destruct (has_tag OCTET_STRING f2); [|done].
  eapply safe_bind; [by apply next_octets_safe|]. by intros [].
Qed.

Lemma decode_attribute_safe d : input d -> safe (after d) (decode_attribute d).
Proof.
  intros Hd. unfold decode_attribute, next_sequence, next_set. eapply safe_bind; [by apply nested_safe|]. intros [p d1] [H1 Ha]. cbn in H1.
  eapply safe_bind; [by apply next_tagged_safe|]. intros [n p1] [H2 _]. cbn in H2. eapply safe_bind; [by apply nested_safe|]. intros [inner p2] [H3 _]. cbn in H3.
  eapply safe_bind; [apply many_safe; [apply next_octets_safe|done]|]. done.
Qed.

Lemma decode_op_safe t d : input d -> safe (fun x => input x.2) (decode_op t d).
Proof.
  intros Hd. unfold decode_op.
  assert (Hskip : safe input (skip d)) by (unfold skip; eapply safe_bind; [by apply next_element_safe|]; by intros [[]] (_ & ? & _)).
  repeat (destruct (t =? _); [eapply safe_bind; [(by apply nested_safe) || apply Hskip|]|]); try (by intros); try (by eapply safe_bind; [apply Hskip|]);
    intros [f d1] (Hf & H1 & _); cbn in Hf, H1.
  - eapply safe_bind; [by apply decode_result_safe|]. intros [r f1] H2. cbn in H2. eapply safe_bind; [by apply optional_safe|]. by intros [].
  - unfold decode_entry, next_sequence. eapply (safe_bind (fun _ => True)); [|by intros []].
    eapply safe_bind; [by apply next_tagged_safe|]. intros [n f1] [H2 _]. cbn in H2. eapply safe_bind; [by apply nested_safe|]. intros [inner f2] [H3 _]. cbn in H3.
    eapply safe_bind; [apply many_safe; [apply decode_attribute_safe|done]|]. done.
  - eapply safe_bind; [by apply decode_result_safe|]. by intros [].
  - eapply safe_bind; [apply many_safe; [apply next_tagged_safe|done]|]. done.
  - eapply safe_bind; [by apply decode_result_safe|]. intros [r f1] H2. cbn in H2. eapply (safe_bind (fun x => input x.2)).
    + destruct (has_tag _ f1); [|done]. eapply safe_bind; [by apply next_tagged_safe|]. by intros [n f2] [? _].
    + intros [n f2] H3. cbn in H3. eapply safe_bind; [by apply optional_safe|]. by intros [].
Qed.

(** Parsing ends on any input: no loop of the decoder needs more rounds than
    the message has bytes, so every message is either understood or refused. *)
Theorem parse_ends b : bytes b -> (exists m, parse b = Ok m) \/ (exists e, parse b = Err e /\ e <> OutOfFuel).
Proof.
  intros Hb. assert (H : safe (fun _ => True) (parse b)).
  { unfold parse, next_sequence. eapply safe_bind; [by apply nested_safe|]. intros [m outer] [Hm _]. cbn in Hm.
    unfold finish at 1. destruct (is_empty outer); [|done]. unfold next_integer. eapply safe_bind; [by apply integer_safe|]. intros [i m1] [H1 _]. cbn in H1.
    destruct (i <? 0); [done|]. destruct (peek_tag m1) as [t|]; [|done]. eapply safe_bind; [by apply decode_op_safe|]. intros [o m2] H2. cbn in H2.
    eapply (safe_bind (fun x => True)).
    - destruct (has_tag _ m2); [|done]. eapply safe_bind; [by apply nested_safe|]. intros [inner m3] (Hin & _).
      eapply safe_bind; [apply many_safe; [apply decode_control_safe|done]|]. done.
    - intros [cs m3] _. unfold finish. by destruct (is_empty m3). }
  destruct (parse b) as [m|e]; [left; by exists m|right; by exists e].
Qed.

Lemma parse_ends_witness :
  (exists m, parse [48; 12; 2; 1; 1; 97; 7; 10; 1; 49; 4; 0; 4; 0] = Ok m) \/
  (exists e, parse [48; 12; 2; 1; 1; 97; 7; 10; 1; 49; 4; 0; 4; 0] = Err e /\ e <> OutOfFuel).
Proof. apply parse_ends. apply (bool_decide_eq_true_1 _). reflexivity. Defined.
End LdapProofs.
