(* ===== verification/MySqlProtocol.v ===== *)
(** * The MySQL wire format ([rustlavel-db/src/mysql/protocol.rs], [types.rs], [auth.rs])

    Payloads the client writes, the frames they travel in, the packets the server
    answers with, the values bound to and read from statements, and the answers
    to authentication challenges. A [Buffer] is the bytes it has been given, so a
    method is the bytes it appends; a [Reader] is the bytes it has left. *)

From Stdlib Require Import SpecFloat.
From S2P Require Import Prelude Text F64 Decimal Json JsonText Builder.
Import Value.

(** The errors of the driver, one constructor per message; [Panicked] is a Rust
    panic and [OutOfFuel] the model's own. *)
Inductive MySqlError :=
  | Truncated
  | NullLength
  | Unterminated
  | EmptyPacket
  | HandshakeVersion (version : Z)
  | FastAuthStatus (status : Z)
  | FastAuthEmpty
  | SendsPasswordClear (plugin : list Z)
  | LikelyUnknownAccount (plugin : list Z)
  | PluginNotImplemented (plugin : list Z)
  | FullAuthNeedsTls (user host : list Z)
  | Io
  | ClosedByServer
  | MidUpgrade
  | AlreadyEncrypted
  | TlsHandshakeFailed (why : list Z)
  | TlsNotOffered
  | UnexpectedDuring (plugin : list Z)
  | ParameterCount (expected : Z) (bound : nat) (sql : list Z)
  | NoEofAfterMetadata
  | NoEofAfterColumns
  | PingAnswer
  | Message (text : list Z)
  | Panicked
  | OutOfFuel.

Module MySqlProtocol.

Definition MAX_PAYLOAD : Z := 0xFFFFFF.
Definition MAX_PACKET_SIZE : Z := Z.shiftl 1 24.
Definition CHARSET_UTF8MB4 : Z := 45.
Definition CHARSET_BINARY : Z := 63.

Definition CLIENT_LONG_PASSWORD : Z := 0x1.
Definition CLIENT_LONG_FLAG : Z := 0x4.
Definition CLIENT_CONNECT_WITH_DB : Z := 0x8.
Definition CLIENT_LOCAL_FILES : Z := 0x80.
Definition CLIENT_PROTOCOL_41 : Z := 0x200.
Definition CLIENT_SSL : Z := 0x800.
Definition CLIENT_TRANSACTIONS : Z := 0x2000.
Definition CLIENT_SECURE_CONNECTION : Z := 0x8000.
Definition CLIENT_MULTI_STATEMENTS : Z := 0x10000.
Definition CLIENT_MULTI_RESULTS : Z := 0x20000.
Definition CLIENT_PS_MULTI_RESULTS : Z := 0x40000.
Definition CLIENT_PLUGIN_AUTH : Z := 0x80000.
Definition CLIENT_CONNECT_ATTRS : Z := 0x100000.
Definition CLIENT_PLUGIN_AUTH_LENENC_CLIENT_DATA : Z := 0x200000.
Definition CLIENT_SESSION_TRACK : Z := 0x800000.

Definition CLIENT_CAPABILITIES : Z :=
  foldr Z.lor 0
    [CLIENT_LONG_PASSWORD; CLIENT_LONG_FLAG; CLIENT_PROTOCOL_41; CLIENT_TRANSACTIONS; CLIENT_SECURE_CONNECTION;
     CLIENT_MULTI_RESULTS; CLIENT_PS_MULTI_RESULTS; CLIENT_PLUGIN_AUTH; CLIENT_CONNECT_ATTRS;
     CLIENT_PLUGIN_AUTH_LENENC_CLIENT_DATA; CLIENT_SESSION_TRACK].

Definition SERVER_STATUS_IN_TRANS : Z := 0x1.
Definition SERVER_MORE_RESULTS_EXISTS : Z := 0x8.
Definition UNSIGNED_FLAG : Z := 0x20.

Definition COM_QUIT : Z := 0x01.
Definition COM_QUERY : Z := 0x03.
Definition COM_PING : Z := 0x0E.
Definition COM_STMT_PREPARE : Z := 0x16.
Definition COM_STMT_EXECUTE : Z := 0x17.
Definition COM_STMT_CLOSE : Z := 0x19.
Definition CURSOR_TYPE_NO_CURSOR : Z := 0x00.

(** [flags & mask != 0]. *)
Definition has_flag (flags mask : Z) : bool := negb (Z.land flags mask =? 0).

(** ** Reading *)

Definition Reader := list Z.

Definition Reader_is_empty (r : Reader) : bool := match r with [] => true | _ => false end.
Definition Reader_remaining (r : Reader) : Z := Z.of_nat (length r).
Definition Reader_peek (r : Reader) : option Z := head r.

(** A failed [take] leaves the reader where it was. *)
Definition Reader_take (count : Z) (r : Reader) : result MySqlError (list Z * Reader) :=
  if Z.of_nat (length r) <? count then Err Truncated
  else Ok (take (Z.to_nat count) r, drop (Z.to_nat count) r).

Definition Reader_skip (count : Z) (r : Reader) : result MySqlError Reader :=
  let? (_, r) := Reader_take count r in Ok r.
Definition Reader_u8 (r : Reader) : result MySqlError (Z * Reader) :=
  let? (b, r) := Reader_take 1 r in Ok (hd 0 b, r).
Definition Reader_u16 (r : Reader) : result MySqlError (Z * Reader) :=
  let? (b, r) := Reader_take 2 r in Ok (from_le_bytes b, r).
Definition Reader_u32 (r : Reader) : result MySqlError (Z * Reader) :=
  let? (b, r) := Reader_take 4 r in Ok (from_le_bytes b, r).
Definition Reader_u64 (r : Reader) : result MySqlError (Z * Reader) :=
  let? (b, r) := Reader_take 8 r in Ok (from_le_bytes b, r).

Definition Reader_lenenc_int (r : Reader) : result MySqlError (Z * Reader) :=
  let? (marker, r) := Reader_u8 r in
  if marker <=? 0xFA then Ok (marker, r)
  else if marker =? 0xFB then Err NullLength
  else if marker =? 0xFC then Reader_u16 r
  else if marker =? 0xFD then
    let? (b, r) := Reader_take 3 r in Ok (from_le_bytes (b ++ [0]), r)
  else Reader_u64 r.

Definition Reader_lenenc_bytes (r : Reader) : result MySqlError (list Z * Reader) :=
  let? (length, r) := Reader_lenenc_int r in Reader_take length r.

Definition Reader_lenenc_bytes_or_null (r : Reader) : result MySqlError (option (list Z) * Reader) :=
  if bool_decide (Reader_peek r = Some 0xFB) then Ok (None, drop 1 r)
  else let? (b, r) := Reader_lenenc_bytes r in Ok (Some b, r).

Fixpoint cstr_loop (text : list Z) (r : Reader) : result MySqlError (list Z * Reader) :=
  match r with
  | [] => Err Unterminated
  | b :: r => if b =? 0 then Ok (utf8_lossy (rev text), r) else cstr_loop (b :: text) r
  end.
Definition Reader_cstr (r : Reader) : result MySqlError (list Z * Reader) := cstr_loop [] r.

(** [reader.u16().unwrap_or(0)]. *)
Definition u16_or_zero (r : Reader) : Z * Reader :=
  match Reader_u16 r with Ok x => x | Err _ => (0, r) end.

(** ** Columns and bound values ([types.rs]) *)

Record Column := mkColumn {
  name : list Z;
  original_name : list Z;
  table : list Z;
  charset : Z;
  col_length : Z;
  column_type : Z;
  flags : Z;
  decimals : Z }.

Definition is_binary (c : Column) : bool := charset c =? CHARSET_BINARY.
Definition is_unsigned (c : Column) : bool := has_flag (flags c) UNSIGNED_FLAG.

Definition DECIMAL : Z := 0x00.
Definition TINY : Z := 0x01.
Definition SHORT : Z := 0x02.
Definition LONG : Z := 0x03.
Definition FLOAT : Z := 0x04.
Definition DOUBLE : Z := 0x05.
Definition NULL : Z := 0x06.
Definition TIMESTAMP : Z := 0x07.
Definition LONGLONG : Z := 0x08.
Definition INT24 : Z := 0x09.
Definition DATE : Z := 0x0A.
Definition TIME : Z := 0x0B.
Definition DATETIME : Z := 0x0C.
Definition YEAR : Z := 0x0D.
Definition VARCHAR : Z := 0x0F.
Definition BIT : Z := 0x10.
Definition JSON : Z := 0xF5.
Definition NEWDECIMAL : Z := 0xF6.
Definition TINY_BLOB : Z := 0xF9.
Definition MEDIUM_BLOB : Z := 0xFA.
Definition LONG_BLOB : Z := 0xFB.
Definition BLOB : Z := 0xFC.
Definition VAR_STRING : Z := 0xFD.
Definition STRING : Z := 0xFE.
Definition GEOMETRY : Z := 0xFF.

(** [t] is one of [l]. *)
Definition among (l : list Z) (t : Z) : bool := existsb (Z.eqb t) l.

Definition is_string_type (t : Z) : bool :=
  among [VARCHAR; VAR_STRING; STRING; TINY_BLOB; MEDIUM_BLOB; LONG_BLOB; BLOB; GEOMETRY] t.

(** [value as iN] of an unsigned value. *)
Definition as_signed (width value : Z) : Z :=
  if wrap width value <? 2 ^ (width - 1) then wrap width value else wrap width value - 2 ^ width.

Definition parse_u64 : list Z -> option Z := parse_int false 0 (2 ^ 64 - 1).

(** [parse::<f64>] of any text: the names of infinity and NaN, in any case and
    after a sign, beside the numbers. *)
Definition parse_f64_text (l : list Z) : option f64 :=
  let '(negative, rest) :=
    match l with
    | b :: r => if b =? 45 then (true, r) else if b =? 43 then (false, r) else (false, l)
    | [] => (false, [])
    end in
  let word := lowercase rest in
  if bool_decide (word = lit "inf") || bool_decide (word = lit "infinity") then Some (S754_infinity negative)
  else if bool_decide (word = lit "nan") then Some S754_nan
  else Decimal.parse_f64 l.

(** [f64::from_le_bytes] and [f64::to_le_bytes] by the fields of the encoding:
    a sign, eleven bits of exponent and fifty-two of fraction. The model has one
    NaN and writes the quiet one. *)
Definition f64_from_bits (bits : Z) : f64 :=
  let sign := Z.testbit bits 63 in
  let exponent := Z.shiftr bits 52 mod 2 ^ 11 in
  let fraction := bits mod 2 ^ 52 in
  if exponent =? 2047 then (if fraction =? 0 then S754_infinity sign else S754_nan)
  else
    match (if exponent =? 0 then fraction else fraction + 2 ^ 52) with
    | Zpos m => S754_finite sign m (Z.max exponent 1 - 1075)
    | _ => S754_zero sign
    end.

Definition f64_to_bits (x : f64) : Z :=
  let sign (s : bool) := if s then 2 ^ 63 else 0 in
  match x with
  | S754_zero s => sign s
  | S754_infinity s => sign s + 2047 * 2 ^ 52
  | S754_nan => 2047 * 2 ^ 52 + 2 ^ 51
  | S754_finite s m e => sign s + (if Zpos m <? 2 ^ 52 then Zpos m else (e + 1075) * 2 ^ 52 + (Zpos m - 2 ^ 52))
  end.

(** [f32::from_le_bytes(..) as f64]: eight bits of exponent and twenty-three of
    fraction, exact in the wider format. *)
Definition f64_from_f32_bits (bits : Z) : f64 :=
  let sign := Z.testbit bits 31 in
  let exponent := Z.shiftr bits 23 mod 2 ^ 8 in
  let fraction := bits mod 2 ^ 23 in
  if exponent =? 255 then (if fraction =? 0 then S754_infinity sign else S754_nan)
  else
    let m := if exponent =? 0 then fraction else fraction + 2 ^ 23 in
    binary_normalize 53 1024 (if sign then - m else m) (Z.max exponent 1 - 150) sign.

Definition decode_integer_text (bytes : list Z) (column : Column) : Value :=
  let text := utf8_lossy bytes in
  let signed := match parse_i64 text with Some n => Int n | None => Text text end in
  if is_unsigned column then
    match parse_u64 text with
    | Some large => if i64_max <? large then Text text else Int large
    | None => signed
    end
  else signed.

(** The fold runs in an [i64], whose high bits fall off. *)
Definition bits_to_int (bytes : list Z) : Z :=
  fold_left (fun accumulated byte => as_signed 64 (Z.lor (Z.shiftl accumulated 8) byte)) bytes 0.

Definition json_or_text (bytes : list Z) : Value :=
  let text := utf8_lossy bytes in
  match JsonText.parse text with Ok j => JsonV j | Err _ => Text text end.

Definition decode_text (column : Column) (raw : option (list Z)) : Value :=
  match raw with
  | None => Null
  | Some bytes =>
      let t := column_type column in
      if among [TINY; SHORT; LONG; INT24; LONGLONG; YEAR] t then decode_integer_text bytes column
      else if among [DECIMAL; NEWDECIMAL] t then Text (utf8_lossy bytes)
      else if among [FLOAT; DOUBLE] t then
        let text := utf8_lossy bytes in
        match parse_f64_text text with Some x => Float x | None => Text text end
      else if t =? JSON then json_or_text bytes
      else if t =? BIT then Int (bits_to_int bytes)
      else if t =? NULL then Null
      else if is_binary column && is_string_type t then Bytes bytes
      else Text (utf8_lossy bytes)
  end.

(** [{n:0w}] of a non-negative number. *)
Definition padded (w : nat) (n : Z) : list Z := let d := dec_nat n in repeat 48 (w - length d) ++ d.

Definition decode_binary_datetime (r : Reader) (column_type : Z) : result MySqlError (list Z * Reader) :=
  let date_only := column_type =? DATE in
  let? (length, r) := Reader_u8 r in
  if length =? 0 then Ok (if date_only then lit "0000-00-00" else lit "0000-00-00 00:00:00", r)
  else
    let? (year, r) := Reader_u16 r in
    let? (month, r) := Reader_u8 r in
    let? (day, r) := Reader_u8 r in
    let date := padded 4 year ++ lit "-" ++ padded 2 month ++ lit "-" ++ padded 2 day in
    if length =? 4 then Ok (if date_only then date else date ++ lit " 00:00:00", r)
    else
      let? (hour, r) := Reader_u8 r in
      let? (minute, r) := Reader_u8 r in
      let? (second, r) := Reader_u8 r in
      let time := padded 2 hour ++ lit ":" ++ padded 2 minute ++ lit ":" ++ padded 2 second in
      if length =? 7 then Ok (date ++ lit " " ++ time, r)
      else
        let? (microseconds, r) := Reader_u32 r in
        Ok (date ++ lit " " ++ time ++ lit "." ++ padded 6 microseconds, r).

(** [days * 24 + hour] is computed in a [u32]; the model has the wrapped result of
    a release build. *)
Definition decode_binary_time (r : Reader) : result MySqlError (list Z * Reader) :=
  let? (length, r) := Reader_u8 r in
  if length =? 0 then Ok (lit "00:00:00", r)
  else
    let? (negative, r) := Reader_u8 r in
    let? (days, r) := Reader_u32 r in
    let? (hour, r) := Reader_u8 r in
    let? (minute, r) := Reader_u8 r in
    let? (second, r) := Reader_u8 r in
    let sign := if negative =? 1 then lit "-" else [] in
    let hours := u32 (u32 (days * 24) + hour) in
    let time := sign ++ padded 2 hours ++ lit ":" ++ padded 2 minute ++ lit ":" ++ padded 2 second in
    if length =? 8 then Ok (time, r)
    else
      let? (microseconds, r) := Reader_u32 r in
      Ok (time ++ lit "." ++ padded 6 microseconds, r).

(** The integer types: an unsigned column reads the bytes as they are. *)
Definition sized_integer (width : Z) (column : Column) (value : Z) : Value :=
  if is_unsigned column then Int value else Int (as_signed width value).

Definition decode_binary (column : Column) (r : Reader) : result MySqlError (Value * Reader) :=
  let t := column_type column in
  if t =? NULL then Ok (Null, r)
  else if t =? TINY then let? (v, r) := Reader_u8 r in Ok (sized_integer 8 column v, r)
  else if among [SHORT; YEAR] t then let? (v, r) := Reader_u16 r in Ok (sized_integer 16 column v, r)
  else if among [LONG; INT24] t then let? (v, r) := Reader_u32 r in Ok (sized_integer 32 column v, r)
  else if t =? LONGLONG then
    let? (v, r) := Reader_u64 r in
    Ok (if is_unsigned column && (i64_max <? v) then Text (dec_nat v) else Int (as_signed 64 v), r)
  else if t =? FLOAT then let? (b, r) := Reader_take 4 r in Ok (Float (f64_from_f32_bits (from_le_bytes b)), r)
  else if t =? DOUBLE then let? (b, r) := Reader_take 8 r in Ok (Float (f64_from_bits (from_le_bytes b)), r)
  else if among [DATE; DATETIME; TIMESTAMP] t then
    let? (s, r) := decode_binary_datetime r t in Ok (Text s, r)
  else if t =? TIME then let? (s, r) := decode_binary_time r in Ok (Text s, r)
  else if among [DECIMAL; NEWDECIMAL] t then let? (b, r) := Reader_lenenc_bytes r in Ok (Text (utf8_lossy b), r)
  else if t =? JSON then let? (b, r) := Reader_lenenc_bytes r in Ok (json_or_text b, r)
  else if t =? BIT then let? (b, r) := Reader_lenenc_bytes r in Ok (Int (bits_to_int b), r)
  else
    let? (b, r) := Reader_lenenc_bytes r in
    Ok (if is_binary column && is_string_type t then Bytes b else Text (utf8_lossy b), r).

Definition bind_type (v : Value) : Z * bool :=
  match v with
  | Null => (NULL, false)
  | Bool _ => (TINY, false)
  | Int _ => (LONGLONG, false)
  | Float _ => (DOUBLE, false)
  | Text _ | JsonV _ => (VAR_STRING, false)
  | Bytes _ => (BLOB, false)
  end.

(** ** Writing *)

Definition Buffer_u8 (v : Z) : list Z := [v].
Definition Buffer_u16 (v : Z) : list Z := to_le_bytes 2 v.
Definition Buffer_u32 (v : Z) : list Z := to_le_bytes 4 v.
Definition Buffer_u64 (v : Z) : list Z := to_le_bytes 8 v.

Definition Buffer_cstr (value : list Z) : list Z := filter (fun b => b <> 0) value ++ [0].

Definition Buffer_lenenc_int (value : Z) : list Z :=
  if value <=? 0xFA then [value]
  else if value <=? 0xFFFF then 0xFC :: to_le_bytes 2 value
  else if value <=? 0xFFFFFF then 0xFD :: take 3 (to_le_bytes 4 value)
  else 0xFE :: to_le_bytes 8 value.

Definition Buffer_lenenc_bytes (value : list Z) : list Z := Buffer_lenenc_int (Z.of_nat (length value)) ++ value.

(** [types.rs] has the same encoding once more. *)
Definition encode_lenenc (b : list Z) : list Z :=
  let length := Z.of_nat (length b) in
  (if length <=? 0xFA then [length]
   else if length <=? 0xFFFF then 0xFC :: to_le_bytes 2 length
   else if length <=? 0xFFFFFF then 0xFD :: take 3 (to_le_bytes 4 length)
   else 0xFE :: to_le_bytes 8 length) ++ b.

Definition encode_bind (v : Value) : list Z :=
  match v with
  | Null => []
  | Bool flag => [if flag then 1 else 0]
  | Int number => to_le_bytes 8 number
  | Float number => to_le_bytes 8 (f64_to_bits number)
  | Text text => encode_lenenc text
  | JsonV json => encode_lenenc (JsonText.to_string json)
  | Bytes b => encode_lenenc b
  end.

Definition ssl_request (capabilities : Z) : list Z :=
  Buffer_u32 (Z.lor capabilities CLIENT_SSL) ++ Buffer_u32 MAX_PACKET_SIZE ++ Buffer_u8 CHARSET_UTF8MB4 ++ repeat 0 23.

Definition handshake_response (capabilities : Z) (user auth_response : list Z) (database : option (list Z))
    (plugin : list Z) (attributes : list (list Z * list Z)) : list Z :=
  Buffer_u32 capabilities ++ Buffer_u32 MAX_PACKET_SIZE ++ Buffer_u8 CHARSET_UTF8MB4 ++ repeat 0 23 ++
  Buffer_cstr user ++
  (if has_flag capabilities CLIENT_PLUGIN_AUTH_LENENC_CLIENT_DATA then Buffer_lenenc_bytes auth_response
   else Buffer_u8 (u8 (Z.of_nat (length auth_response))) ++ auth_response) ++
  (if has_flag capabilities CLIENT_CONNECT_WITH_DB then Buffer_cstr (default [] database) else []) ++
  (if has_flag capabilities CLIENT_PLUGIN_AUTH then Buffer_cstr plugin else []) ++
  (if has_flag capabilities CLIENT_CONNECT_ATTRS then
     let pairs := concat (map (fun kv => Buffer_lenenc_bytes kv.1 ++ Buffer_lenenc_bytes kv.2) attributes) in
     Buffer_lenenc_int (Z.of_nat (length pairs)) ++ pairs
   else []).

Definition auth_response (data : list Z) : list Z := data.
Definition com_query (sql : list Z) : list Z := Buffer_u8 COM_QUERY ++ sql.
Definition com_ping : list Z := Buffer_u8 COM_PING.
Definition com_quit : list Z := Buffer_u8 COM_QUIT.
Definition com_stmt_prepare (sql : list Z) : list Z := Buffer_u8 COM_STMT_PREPARE ++ sql.

(** The loop that marks the NULL parameters, in a bitmap of zeros. *)
Fixpoint mark_nulls (index : nat) (params : list Value) (bitmap : list Z) : list Z :=
  match params with
  | [] => bitmap
  | param :: params =>
      mark_nulls (S index) params
        (if is_null param then alter (fun b => Z.lor b (Z.shiftl 1 (Z.of_nat (index mod 8)))) (index / 8)%nat bitmap
         else bitmap)
  end.

Definition div_ceil (n d : nat) : nat := ((n + d - 1) / d)%nat.

Definition com_stmt_execute (statement_id : Z) (params : list Value) : list Z :=
  Buffer_u8 COM_STMT_EXECUTE ++ Buffer_u32 statement_id ++ Buffer_u8 CURSOR_TYPE_NO_CURSOR ++ Buffer_u32 1 ++
  match params with
  | [] => []
  | _ =>
      mark_nulls 0 params (repeat 0 (div_ceil (length params) 8)) ++
      Buffer_u8 1 ++
      concat (map (fun p => let '(t, unsigned) := bind_type p in Buffer_u8 t ++ Buffer_u8 (if (unsigned : bool) then 0x80 else 0))
                params) ++
      concat (map encode_bind params)
  end.

Definition com_stmt_close (statement_id : Z) : list Z := Buffer_u8 COM_STMT_CLOSE ++ Buffer_u32 statement_id.

(** A frame that is not the last takes [MAX_PAYLOAD] bytes, so the length of the
    payload bounds the rounds. *)
Fixpoint frame_loop (fuel : nat) (rest : list Z) (sequence : Z) : list Z * Z :=
  match fuel with
  | O => ([], sequence)
  | S fuel =>
      let take_ := Z.min (Z.of_nat (length rest)) MAX_PAYLOAD in
      let out := take 3 (to_le_bytes 4 take_) ++ [sequence] ++ take (Z.to_nat take_) rest in
      let sequence := u8 (sequence + 1) in
      let rest := drop (Z.to_nat take_) rest in
      if take_ <? MAX_PAYLOAD then (out, sequence)
      else let '(more, sequence) := frame_loop fuel rest sequence in (out ++ more, sequence)
  end.
Definition frame (payload : list Z) (sequence : Z) : list Z * Z := frame_loop (S (length payload)) payload sequence.

(** ** Packets *)

Record Handshake := mkHandshake {
  server_version : list Z;
  connection_id : Z;
  scramble : list Z;
  capabilities : Z;
  hs_charset : Z;
  hs_status : Z;
  auth_plugin : list Z }.

Record OkPacket := mkOk { affected_rows : Z; ok_last_insert_id : Z; ok_status : Z; ok_warnings : Z; info : list Z }.
Record EofPacket := mkEof { eof_warnings : Z; eof_status : Z }.
Record ServerError := mkServerError { code : Z; sql_state : list Z; message : list Z }.
Record PrepareOk := mkPrepareOk { statement_id : Z; columns : Z; params : Z; warnings : Z }.

Definition into_error (e : ServerError) (sql : option (list Z)) : list Z :=
  (if bool_decide (sql_state e = []) then lit "MySQL error " ++ dec_nat (code e) ++ lit ": " ++ message e
   else lit "MySQL error " ++ dec_nat (code e) ++ lit " (" ++ sql_state e ++ lit "): " ++ message e) ++
  match sql with Some sql => [10] ++ lit "  SQL: " ++ sql | None => [] end.

Inductive Packet :=
  | POk (ok : OkPacket)
  | PErr (error : ServerError)
  | PEof (eof : EofPacket)
  | AuthSwitch (plugin data : list Z)
  | AuthMoreData (data : list Z)
  | Other (payload : list Z).

Definition trim_trailing_nul (b : list Z) : list Z :=
  match head (rev b) with Some 0 => take (length b - 1) b | _ => b end.

Definition is_err (payload : list Z) : bool := bool_decide (head payload = Some 0xFF).
Definition is_eof (payload : list Z) : bool := bool_decide (head payload = Some 0xFE) && (length payload <? 9)%nat.

Definition parse_handshake (payload : list Z) : result MySqlError Handshake :=
  let? (version, r) := Reader_u8 payload in
  if negb (version =? 10) then Err (HandshakeVersion version)
  else
    let? (server_version, r) := Reader_cstr r in
    let? (connection_id, r) := Reader_u32 r in
    let? (nonce, r) := Reader_take 8 r in
    let? r := Reader_skip 1 r in
    let? (lower, r) := Reader_u16 r in
    if Reader_is_empty r then Ok (mkHandshake server_version connection_id nonce lower 0 0 [])
    else
      let? (charset, r) := Reader_u8 r in
      let? (status, r) := Reader_u16 r in
      let? (upper, r) := Reader_u16 r in
      let capabilities := Z.lor lower (Z.shiftl upper 16) in
      let? (scramble_length, r) := Reader_u8 r in
      let? r := Reader_skip 10 r in
      let? (nonce, r) :=
        if has_flag capabilities CLIENT_SECURE_CONNECTION then
          let rest := Z.max (Z.max (scramble_length - 8) 0) 13 in
          let? (part, r) := Reader_take (Z.min rest (Reader_remaining r)) r in
          Ok (nonce ++ trim_trailing_nul part, r)
        else Ok (nonce, r) in
      let plugin :=
        if has_flag capabilities CLIENT_PLUGIN_AUTH && negb (Reader_is_empty r) then
          match Reader_cstr r with Ok (plugin, _) => plugin | Err _ => [] end
        else [] in
      Ok (mkHandshake server_version connection_id nonce capabilities charset status plugin).

Definition parse_ok (payload : list Z) : result MySqlError OkPacket :=
  let? r := Reader_skip 1 payload in
  let? (affected, r) := Reader_lenenc_int r in
  let? (last, r) := Reader_lenenc_int r in
  let '(status, r) := u16_or_zero r in
  let '(warnings, r) := u16_or_zero r in
  Ok (mkOk affected last status warnings (utf8_lossy r)).

Definition parse_err (payload : list Z) : result MySqlError ServerError :=
  let? r := Reader_skip 1 payload in
  let? (code, r) := Reader_u16 r in
  let? (state, r) :=
    if bool_decide (Reader_peek r = Some 35) then
      let? r := Reader_skip 1 r in
      let? (state, r) := Reader_take 5 r in Ok (utf8_lossy state, r)
    else Ok ([], r) in
  Ok (mkServerError code state (utf8_lossy r)).

Definition parse_eof (payload : list Z) : result MySqlError EofPacket :=
  let? r := Reader_skip 1 payload in
  let '(warnings, r) := u16_or_zero r in
  let '(status, r) := u16_or_zero r in
  Ok (mkEof warnings status).

Definition parse_column (payload : list Z) : result MySqlError Column :=
  let? (_, r) := Reader_lenenc_bytes payload in
  let? (_, r) := Reader_lenenc_bytes r in
  let? (table, r) := Reader_lenenc_bytes r in
  let? (_, r) := Reader_lenenc_bytes r in
  let? (name, r) := Reader_lenenc_bytes r in
  let? (original_name, r) := Reader_lenenc_bytes r in
  let? (_, r) := Reader_lenenc_int r in
  let? (charset, r) := Reader_u16 r in
  let? (length, r) := Reader_u32 r in
  let? (column_type, r) := Reader_u8 r in
  let? (flags, r) := Reader_u16 r in
  let? (decimals, r) := Reader_u8 r in
  Ok (mkColumn (utf8_lossy name) (utf8_lossy original_name) (utf8_lossy table) charset length column_type flags decimals).

Definition parse_prepare_ok (payload : list Z) : result MySqlError PrepareOk :=
  let? r := Reader_skip 1 payload in
  let? (statement_id, r) := Reader_u32 r in
  let? (columns, r) := Reader_u16 r in
  let? (params, r) := Reader_u16 r in
  let r := match Reader_skip 1 r with Ok r => r | Err _ => r end in
  let '(warnings, r) := u16_or_zero r in
  Ok (mkPrepareOk statement_id columns params warnings).

Fixpoint text_row_loop (columns : nat) (r : Reader) : result MySqlError (list (option (list Z))) :=
  match columns with
  | O => Ok []
  | S columns =>
      let? (v, r) := Reader_lenenc_bytes_or_null r in
      let? values := text_row_loop columns r in
      Ok (v :: values)
  end.
Definition parse_text_row (payload : list Z) (columns : nat) : result MySqlError (list (option (list Z))) :=
  text_row_loop columns payload.

Definition Packet_parse (payload : list Z) : result MySqlError Packet :=
  match payload with
  | [] => Err EmptyPacket
  | first :: rest =>
      if first =? 0x00 then let? ok := parse_ok payload in Ok (POk ok)
      else if first =? 0xFF then let? e := parse_err payload in Ok (PErr e)
      else if first =? 0x01 then Ok (AuthMoreData rest)
      else if (first =? 0xFE) && (length payload <? 9)%nat then let? eof := parse_eof payload in Ok (PEof eof)
      else if first =? 0xFE then
        let? (plugin, r) := Reader_cstr rest in Ok (AuthSwitch plugin (trim_trailing_nul r))
      else Ok (Other payload)
  end.

(** ** Authentication ([auth.rs]) *)

Definition MYSQL_NATIVE_PASSWORD : list Z := lit "mysql_native_password".
Definition CACHING_SHA2_PASSWORD : list Z := lit "caching_sha2_password".
Definition MYSQL_CLEAR_PASSWORD : list Z := lit "mysql_clear_password".
Definition SHA256_PASSWORD : list Z := lit "sha256_password".

Inductive FastAuth := Succeeded | FullAuthRequired.

Definition fast_auth_status (data : list Z) : result MySqlError FastAuth :=
  match data with
  | [] => Err FastAuthEmpty
  | status :: _ =>
      if status =? 3 then Ok Succeeded else if status =? 4 then Ok FullAuthRequired else Err (FastAuthStatus status)
  end.

Definition cleartext_password (password : list Z) : list Z := password ++ [0].

Definition full_auth_error (user host : list Z) : MySqlError := FullAuthNeedsTls user host.

Definition insecure_plugin_error (plugin : list Z) : MySqlError :=
  if bool_decide (plugin = MYSQL_CLEAR_PASSWORD) then SendsPasswordClear plugin
  else if bool_decide (plugin = SHA256_PASSWORD) then LikelyUnknownAccount plugin
  else PluginNotImplemented plugin.

Definition is_supported (plugin : list Z) : bool :=
  bool_decide (plugin = MYSQL_NATIVE_PASSWORD) || bool_decide (plugin = CACHING_SHA2_PASSWORD).

Definition xor (left right : list Z) : list Z := zip_with Z.lxor left right.

(** The digests of the [sha1] and [sha2] crates. *)
Section Digests.
Context (sha1 sha256 : list Z -> list Z).

Definition native_password (password scramble : list Z) : list Z :=
  match password with
  | [] => []
  | _ =>
      let stage1 := sha1 password in
      let stage2 := sha1 stage1 in
      xor stage1 (sha1 (scramble ++ stage2))
  end.

Definition caching_sha2_password (password scramble : list Z) : list Z :=
  match password with
  | [] => []
  | _ =>
      let stage1 := sha256 password in
      let stage2 := sha256 stage1 in
      xor stage1 (sha256 (stage2 ++ scramble))
  end.

Definition respond (plugin password scramble : list Z) : result MySqlError (list Z) :=
  if bool_decide (plugin = MYSQL_NATIVE_PASSWORD) then Ok (native_password password scramble)
  else if bool_decide (plugin = CACHING_SHA2_PASSWORD) then Ok (caching_sha2_password password scramble)
  else Err (insecure_plugin_error plugin).
End Digests.

Definition sample_column (t : Z) : Column := mkColumn (lit "c") [] [] 45 0 t 0 0.

Example mysql_protocol_runs :
  Buffer_lenenc_int 250 = [250] /\ Buffer_lenenc_int 251 = [252; 251; 0] /\ Buffer_lenenc_int 65536 = [253; 0; 0; 1] /\
  frame (lit "ab") 255 = ([2; 0; 0; 255; 97; 98], 0) /\
  com_stmt_execute 7 [Int (-1); Null; Text (lit "hi")] =
    [23; 7; 0; 0; 0; 0; 1; 0; 0; 0; 2; 1; 8; 0; 6; 0; 253; 0; 255; 255; 255; 255; 255; 255; 255; 255; 2; 104; 105] /\
  parse_err ([255; 21; 4; 35] ++ lit "28000denied") = Ok (mkServerError 1045 (lit "28000") (lit "denied")) /\
  decode_binary (sample_column TIME) [8; 1; 1; 0; 0; 0; 2; 3; 4; 9] = Ok (Text (lit "-26:03:04"), [9]) /\
  decode_binary (sample_column DATETIME) [11; 231; 7; 1; 2; 3; 4; 5; 7; 0; 0; 0] =
    Ok (Text (lit "2023-01-02 03:04:05.000007"), []) /\
  decode_text (sample_column LONG) (Some (lit "-5")) = Int (-5) /\
  f64_from_bits 0x3FF8000000000000 = f64_div (f64_of_Z 3) (f64_of_Z 2) /\ f64_from_f32_bits 0x3FC00000 = f64_div (f64_of_Z 3) (f64_of_Z 2) /\
  f64_to_bits (f64_of_Z (-2)) = 0xC000000000000000.
Proof. vm_compute. split_and!; reflexivity. Qed.

End MySqlProtocol.
