(* ===== verification/MySqlConnection.v ===== *)
(** * The MySQL connection ([rustlavel-db/src/mysql/connection.rs], the stream of [tls.rs])

    The driver's conversation with a server: the handshake with its upgrade to
    TLS and its authentication plugins, statements as text and as prepared
    statements, result sets, and the buffer packets are cut from. An operation is
    a function of the connection that returns a value or an error and the
    connection it leaves behind, as a Rust method does with [&mut self].

    What the peer and the network do is data of the model: the outcome of each
    read from the socket, of each write to it and of the TLS handshake. What the
    driver sends is kept with the stream it was sent over. *)

From S2P Require Import Prelude Text F64 Json JsonText Builder MySqlProtocol.
Import Value MySqlProtocol.

Module MySqlConnection.

(** ** The stream ([tls.rs]) *)

Inductive TlsMode := Disable | Prefer | Require | VerifyCa | VerifyFull.

#[export] Instance TlsMode_eq_dec : EqDecision TlsMode.
Proof. solve_decision. Defined.

Definition wants_tls (mode : TlsMode) : bool := negb (bool_decide (mode = Disable)).
Definition demands_tls (mode : TlsMode) : bool :=
  match mode with Require | VerifyCa | VerifyFull => true | _ => false end.

Inductive DbStream := Plain | Tls | Closed.

#[export] Instance DbStream_eq_dec : EqDecision DbStream.
Proof. solve_decision. Defined.

(** What a read from the socket returned: some bytes, none when the peer has
    closed it, or an error. *)
Inductive Read := Data (chunk : list Z) | Failed.

(** The socket: which kind of stream it is, the outcomes of the reads to come
    (closed when there are no more), of the writes and flushes to come (all well
    when there are no more), and what has been handed to it, over which stream. *)
Record Socket := mkSocket {
  kind : DbStream;
  incoming : list Read;
  outcomes : list bool;
  sent : list (DbStream * list Z) }.

Definition is_encrypted (s : Socket) : bool := bool_decide (kind s = Tls).

Definition take_plain (s : Socket) : result MySqlError unit * Socket :=
  match kind s with
  | Plain => (Ok tt, mkSocket Closed [] [] (sent s))
  | Tls => (Err AlreadyEncrypted, s)
  | Closed => (Err MidUpgrade, s)
  end.

(** The next outcome of a write or a flush. *)
Definition outcome (s : Socket) : bool * Socket :=
  match outcomes s with
  | [] => (true, s)
  | ok :: outcomes => (ok, mkSocket (kind s) (incoming s) outcomes (sent s))
  end.

(** A write that fails may have sent a part of the bytes; all are kept. *)
Definition write_all (bytes : list Z) (s : Socket) : bool * Socket :=
  match kind s with
  | Closed => (false, s)
  | _ => outcome (mkSocket (kind s) (incoming s) (outcomes s) (sent s ++ [(kind s, bytes)]))
  end.
Definition flush (s : Socket) : bool * Socket :=
  match kind s with Closed => (false, s) | _ => outcome s end.

(** ** The connection *)

(** The fields of [DatabaseConfig] the driver reads. *)
Record DatabaseConfig := mkConfig {
  host : list Z;
  port : Z;
  user : list Z;
  password : list Z;
  database : list Z;
  application_name : list Z;
  tls_mode : TlsMode }.

Record MySqlConnection := mkConn {
  stream : Socket;
  buffer : list Z;
  config : DatabaseConfig;
  conn_id : Z;
  version : list Z;
  caps : Z;
  status : Z;
  sequence : Z;
  broken : bool }.

Definition set_stream (s : Socket) (c : MySqlConnection) : MySqlConnection :=
  mkConn s (buffer c) (config c) (conn_id c) (version c) (caps c) (status c) (sequence c) (broken c).
Definition set_buffer (b : list Z) (c : MySqlConnection) : MySqlConnection :=
  mkConn (stream c) b (config c) (conn_id c) (version c) (caps c) (status c) (sequence c) (broken c).
Definition set_server (id : Z) (v : list Z) (c : MySqlConnection) : MySqlConnection :=
  mkConn (stream c) (buffer c) (config c) id v (caps c) (status c) (sequence c) (broken c).
Definition set_caps (f : Z) (c : MySqlConnection) : MySqlConnection :=
  mkConn (stream c) (buffer c) (config c) (conn_id c) (version c) f (status c) (sequence c) (broken c).
Definition set_status (s : Z) (c : MySqlConnection) : MySqlConnection :=
  mkConn (stream c) (buffer c) (config c) (conn_id c) (version c) (caps c) s (sequence c) (broken c).
Definition set_sequence (s : Z) (c : MySqlConnection) : MySqlConnection :=
  mkConn (stream c) (buffer c) (config c) (conn_id c) (version c) (caps c) (status c) s (broken c).
Definition set_broken (c : MySqlConnection) : MySqlConnection :=
  mkConn (stream c) (buffer c) (config c) (conn_id c) (version c) (caps c) (status c) (sequence c) true.

Definition is_broken (c : MySqlConnection) : bool := broken c.
Definition in_transaction (c : MySqlConnection) : bool := has_flag (status c) SERVER_STATUS_IN_TRANS.

(** A method of the connection: [?] ends it with the error, and leaves the
    connection as it is then. *)
Definition M (A : Type) : Type := MySqlConnection -> result MySqlError A * MySqlConnection.
Definition ret {A} (a : A) : M A := fun c => (Ok a, c).
Definition fail {A} (e : MySqlError) : M A := fun c => (Err e, c).
Definition lift {A} (x : result MySqlError A) : M A := fun c => (x, c).
Definition modify (f : MySqlConnection -> MySqlConnection) : M unit := fun c => (Ok tt, f c).
Definition get : M MySqlConnection := fun c => (Ok c, c).
Definition bind {A B} (m : M A) (k : A -> M B) : M B := fun c =>
  match m c with
  | (Ok a, c) => k a c
  | (Err e, c) => (Err e, c)
  end.
(** The outcome of a method as a value, for a caller that carries on. *)
Definition attempt {A} (m : M A) : M (result MySqlError A) := fun c => let '(x, c) := m c in (Ok x, c).

Declare Scope mysql_scope.
Delimit Scope mysql_scope with mysql.
Notation "'let*' x ':=' m 'in' k" :=
  (bind m (fun x => k))
  (at level 10, x pattern, m at level 100, k at level 200,
   format "'let*'  x  ':='  m  'in' '//' k") : mysql_scope.
Notation "m ;; k" := (bind m (fun _ => k)) (at level 100, right associativity) : mysql_scope.
#[local] Open Scope mysql_scope.

(** ** Packets in and out *)

Definition write_packet (payload : list Z) : M unit := fun c =>
  let '(bytes, next) := frame payload (sequence c) in
  let c := set_sequence next c in
  let '(ok, s) := write_all bytes (stream c) in
  let c := set_stream s c in
  if ok then
    let '(ok, s) := flush (stream c) in
    let c := set_stream s c in
    if ok then (Ok tt, c) else (Err Io, set_broken c)
  else (Err Io, set_broken c).

Fixpoint fill_loop (wanted : Z) (incoming : list Read) (buffer : list Z) : result MySqlError unit * list Read * list Z :=
  if wanted <=? Z.of_nat (length buffer) then (Ok tt, incoming, buffer)
  else
    match incoming with
    | [] => (Err ClosedByServer, [], buffer)
    | Failed :: incoming => (Err Io, incoming, buffer)
    | Data [] :: incoming => (Err ClosedByServer, incoming, buffer)
    | Data chunk :: incoming => fill_loop wanted incoming (buffer ++ chunk)
    end.

Definition fill_to (wanted : Z) : M unit := fun c =>
  let s := stream c in
  if wanted <=? Z.of_nat (length (buffer c)) then (Ok tt, c)
  else if bool_decide (kind s = Closed) then (Err Io, set_broken c)
  else
    let '(x, incoming, buffer) := fill_loop wanted (incoming s) (buffer c) in
    let c := set_buffer buffer (set_stream (mkSocket (kind s) incoming (outcomes s) (sent s)) c) in
    match x with Ok _ => (Ok tt, c) | Err e => (Err e, set_broken c) end.

(** The bytes that can still come in. Every packet takes four of them, so they
    bound the rounds of the loops below. *)
Fixpoint pending (incoming : list Read) : nat :=
  match incoming with
  | [] => 0
  | Data chunk :: incoming => length chunk + pending incoming
  | Failed :: incoming => pending incoming
  end.
Definition available (c : MySqlConnection) : nat := length (buffer c) + pending (incoming (stream c)).

Fixpoint read_packet_loop (fuel : nat) (payload : list Z) : M (list Z) :=
  match fuel with
  | O => fail OutOfFuel
  | S fuel =>
      fill_to 4;;
      let* c := get in
      let length := from_le_bytes (take 3 (buffer c) ++ [0]) in
      let sequence := nth 3 (buffer c) 0 in
      fill_to (4 + length);;
      let* c := get in
      let payload := payload ++ take (Z.to_nat length) (drop 4 (buffer c)) in
      modify (set_buffer (drop (Z.to_nat (4 + length)) (buffer c)));;
      modify (set_sequence (u8 (sequence + 1)));;
      if length <? MAX_PAYLOAD then ret payload else read_packet_loop fuel payload
  end.
Definition read_packet : M (list Z) := fun c => read_packet_loop (S (available c)) [] c.

(** ** Errors with advice *)

Definition nl : list Z := [10].

Definition with_advice (base : list Z) (advice : option (list Z)) : MySqlError :=
  Message (match advice with Some a => base ++ nl ++ lit "  " ++ a | None => base end).

Definition missing_database (config : DatabaseConfig) : list Z :=
  lit "Database `" ++ database config ++
  lit "` does not exist. Create it, or point DATABASE_URL at one that does.".

Definition server_error (error : ServerError) (config : DatabaseConfig) (sql : option (list Z)) : MySqlError :=
  let advice :=
    if code error =? 1049 then Some (missing_database config)
    else if code error =? 1044 then
      Some (lit "User `" ++ user config ++ lit "` has no rights on `" ++ database config ++
            lit "`. Grant them, or connect as a user who has.")
    else if code error =? 1146 then Some (lit "The table is missing. Have the migrations been run?")
    else None in
  with_advice (into_error error sql) advice.

Definition authentication_error (error : ServerError) (config : DatabaseConfig) : MySqlError :=
  let advice :=
    if code error =? 1045 then
      Some (lit "The password for `" ++ user config ++ lit "` was rejected. Check DATABASE_URL in your .env.")
    else if code error =? 1049 then Some (missing_database config)
    else if among [1130; 1698] (code error) then
      Some (lit "The server will not let `" ++ user config ++
            lit "` in from this host. Check the account's host pattern and its authentication plugin.")
    else if among [1040; 1203] (code error) then
      Some (lit "The server is out of connections. Lower max_connections in DATABASE_URL, or raise the server's.")
    else None in
  with_advice (into_error error None) advice.

(** ** The handshake *)

Section Handshake.

(** The digests of the [sha1] and [sha2] crates, and the TLS handshake of
    [rustls] with the peer: an error, or the reads and writes to come over the
    encrypted stream. *)
Context (sha1 sha256 : list Z -> list Z).
Context (upgrade : DatabaseConfig -> result (list Z) (list Read * list bool)).

Definition negotiate_tls (capabilities server : Z) : M Z :=
  let* c := get in
  let mode := tls_mode (config c) in
  if negb (wants_tls mode) then ret capabilities
  else if negb (has_flag server CLIENT_SSL) then
    if demands_tls mode then modify set_broken;; fail TlsNotOffered
    else ret capabilities
  else
    write_packet (ssl_request capabilities);;
    let* c := get in
    let '(plain, s) := take_plain (stream c) in
    modify (set_stream s);;
    lift plain;;
    let* (incoming, outcomes) :=
      lift (match upgrade (config c) with Ok x => Ok x | Err why => Err (TlsHandshakeFailed why) end) in
    modify (set_stream (mkSocket Tls incoming outcomes (sent s)));;
    ret (Z.lor capabilities CLIENT_SSL).

(** Every round reads a packet. *)
Fixpoint authenticate (fuel : nat) (plugin : list Z) : M unit :=
  match fuel with
  | O => fail OutOfFuel
  | S fuel =>
      let* payload := read_packet in
      let* c := get in
      let* packet := lift (Packet_parse payload) in
      match packet with
      | POk ok => modify (set_status (ok_status ok))
      | PErr error => modify set_broken;; fail (authentication_error error (config c))
      | AuthSwitch wanted data =>
          if negb (is_supported wanted) then modify set_broken;; fail (insecure_plugin_error wanted)
          else
            let* response := lift (respond sha1 sha256 wanted (password (config c)) data) in
            write_packet (auth_response response);;
            authenticate fuel wanted
      | AuthMoreData data =>
          if bool_decide (plugin = CACHING_SHA2_PASSWORD) then
            let* verdict := lift (fast_auth_status data) in
            match verdict with
            | Succeeded => authenticate fuel plugin
            | FullAuthRequired =>
                if is_encrypted (stream c) then
                  write_packet (auth_response (cleartext_password (password (config c))));;
                  authenticate fuel plugin
                else
                  modify set_broken;;
                  fail (full_auth_error (user (config c)) (host (config c) ++ lit ":" ++ dec_nat (port (config c))))
            end
          else modify set_broken;; fail (UnexpectedDuring plugin)
      | PEof _ | Other _ => modify set_broken;; fail (UnexpectedDuring plugin)
      end
  end.

(** The capabilities asked for before TLS is settled. *)
Definition wanted_capabilities (config : DatabaseConfig) (server : Z) : Z :=
  let capabilities := Z.land CLIENT_CAPABILITIES server in
  let capabilities := Z.lor capabilities (Z.lor CLIENT_PROTOCOL_41 CLIENT_SECURE_CONNECTION) in
  if bool_decide (database config = []) then capabilities else Z.lor capabilities CLIENT_CONNECT_WITH_DB.

Definition handshake : M unit :=
  let* greeting := read_packet in
  let* c := get in
  if is_err greeting then
    modify set_broken;;
    let* e := lift (parse_err greeting) in fail (server_error e (config c) None)
  else
    let* hs := lift (parse_handshake greeting) in
    modify (set_server (connection_id hs) (server_version hs));;
    let* capabilities := negotiate_tls (wanted_capabilities (config c) (capabilities hs)) (capabilities hs) in
    modify (set_caps capabilities);;
    let plugin := if bool_decide (auth_plugin hs = []) then MYSQL_NATIVE_PASSWORD else auth_plugin hs in
    if negb (is_supported plugin) then modify set_broken;; fail (insecure_plugin_error plugin)
    else
      let* response := lift (respond sha1 sha256 plugin (password (config c)) (scramble hs)) in
      write_packet
        (handshake_response capabilities (user (config c)) response (Some (database (config c))) plugin
           [(lit "_client_name", lit "rustlavel"); (lit "program_name", application_name (config c))]);;
      fun c => authenticate (S (available c)) plugin c.

(** The connection [connect] starts from, once the socket is open. *)
Definition fresh (config : DatabaseConfig) (incoming : list Read) (outcomes : list bool) : MySqlConnection :=
  mkConn (mkSocket Plain incoming outcomes []) [] config 0 [] 0 0 0 false.

Definition connect (config : DatabaseConfig) (incoming : list Read) (outcomes : list bool) :
    result MySqlError unit * MySqlConnection := handshake (fresh config incoming outcomes).

End Handshake.

(** ** Statements *)

Record Row := mkRow { row_columns : list (list Z); values : list Value }.
Record QueryResult := mkResult { rows : list Row; affected : Z; last_insert_id : option Z }.
Definition empty_result : QueryResult := mkResult [] 0 None.

Definition apply_ok (result : QueryResult) (ok : OkPacket) : QueryResult :=
  mkResult (rows result) (affected_rows ok)
    (if ok_last_insert_id ok =? 0 then None else Some (as_signed 64 (ok_last_insert_id ok))).

(** The columns with their positions; [bitmap[bit / 8]] is within the bitmap. *)
Fixpoint binary_row_loop (index : nat) (bitmap : list Z) (columns : list Column) (r : Reader) : result MySqlError (list Value) :=
  match columns with
  | [] => Ok []
  | column :: columns =>
      let bit := (index + 2)%nat in
      let? (v, r) :=
        if Z.testbit (nth (bit / 8) bitmap 0) (Z.of_nat (bit mod 8)) then Ok (Null, r) else decode_binary column r in
      let? values := binary_row_loop (S index) bitmap columns r in
      Ok (v :: values)
  end.
Definition decode_binary_row (payload : list Z) (columns : list Column) : result MySqlError (list Value) :=
  let? r := Reader_skip 1 payload in
  let? (bitmap, r) := Reader_take (Z.of_nat (div_ceil (length columns + 2) 8)) r in
  binary_row_loop 0 bitmap columns r.

Definition decode_text_row (payload : list Z) (columns : list Column) : result MySqlError (list Value) :=
  let? raw := parse_text_row payload (length columns) in
  Ok (zip_with (fun raw column => decode_text column raw) raw columns).

(** The size of a [Column]: [Vec::with_capacity] panics when the elements do not
    fit in [isize::MAX] bytes. *)
Definition COLUMN_SIZE : Z := 88.

Fixpoint columns_loop (fuel : nat) (count : Z) : M (list Column) :=
  if count <=? 0 then ret []
  else
    match fuel with
    | O => fail OutOfFuel
    | S fuel =>
        let* payload := read_packet in
        let* column := lift (parse_column payload) in
        let* columns := columns_loop fuel (count - 1) in
        ret (column :: columns)
    end.

Definition read_columns (count : Z) : M (list Column) :=
  if 2 ^ 63 - 1 <? count * COLUMN_SIZE then fail Panicked
  else
    let* columns := fun c => columns_loop (S (available c)) count c in
    let* payload := read_packet in
    if negb (is_eof payload) then fail NoEofAfterColumns else ret columns.

Fixpoint rows_loop (fuel : nat) (columns : list Column) (binary : bool) : M (list (list Value) * Z) :=
  match fuel with
  | O => fail OutOfFuel
  | S fuel =>
      let* payload := read_packet in
      let* c := get in
      if is_err payload then let* e := lift (parse_err payload) in fail (server_error e (config c) None)
      else if is_eof payload then
        let* eof := lift (parse_eof payload) in
        modify (set_status (eof_status eof));;
        ret ([], eof_status eof)
      else
        let* values := lift (if binary then decode_binary_row payload columns else decode_text_row payload columns) in
        let* (rows, status) := rows_loop fuel columns binary in
        ret (values :: rows, status)
  end.

(** [into] is the result to fill, or [None] for a result set that is only
    drained; the answer is whether another follows. *)
Definition read_rows (columns : list Column) (binary : bool) (into : option QueryResult) : M (bool * option QueryResult) :=
  let names := map name columns in
  let* (rows, status) := fun c => rows_loop (S (available c)) columns binary c in
  let into :=
    option_map (fun result => mkResult (map (mkRow names) rows) (Z.of_nat (length rows)) (last_insert_id result)) into in
  ret (has_flag status SERVER_MORE_RESULTS_EXISTS, into).

Fixpoint result_set_loop (fuel : nat) (sql : list Z) (binary first : bool) (result : QueryResult) : M QueryResult :=
  match fuel with
  | O => fail OutOfFuel
  | S fuel =>
      let* payload := read_packet in
      let* c := get in
      if is_err payload then let* e := lift (parse_err payload) in fail (server_error e (config c) (Some sql))
      else if bool_decide (head payload = Some 0x00) then
        let* ok := lift (parse_ok payload) in
        modify (set_status (ok_status ok));;
        let result := if first then apply_ok result ok else result in
        if has_flag (ok_status ok) SERVER_MORE_RESULTS_EXISTS then result_set_loop fuel sql binary false result
        else ret result
      else
        let* (count, _) := lift (Reader_lenenc_int payload) in
        let* columns := read_columns count in
        let* (more, into) := read_rows columns binary (if first then Some result else None) in
        let result := default result into in
        if more then result_set_loop fuel sql binary false result else ret result
  end.
Definition read_result_set (sql : list Z) (binary : bool) : M QueryResult := fun c =>
  result_set_loop (S (available c)) sql binary true empty_result c.

Definition simple_query (sql : list Z) : M QueryResult :=
  modify (set_sequence 0);;
  write_packet (com_query sql);;
  read_result_set sql false.

Fixpoint skip_loop (count : nat) : M unit :=
  match count with
  | O => ret tt
  | S count => read_packet;; skip_loop count
  end.
Definition skip_metadata (count : Z) : M unit :=
  skip_loop (Z.to_nat count);;
  let* payload := read_packet in
  if negb (is_eof payload) then fail NoEofAfterMetadata else ret tt.

Definition prepare (sql : list Z) : M PrepareOk :=
  modify (set_sequence 0);;
  write_packet (com_stmt_prepare sql);;
  let* payload := read_packet in
  let* c := get in
  if is_err payload then let* e := lift (parse_err payload) in fail (server_error e (config c) (Some sql))
  else
    let* prepared := lift (parse_prepare_ok payload) in
    (if 0 <? params prepared then skip_metadata (params prepared) else ret tt);;
    (if 0 <? columns prepared then skip_metadata (columns prepared) else ret tt);;
    ret prepared.

Definition close_statement (statement_id : Z) : M unit :=
  modify (set_sequence 0);;
  write_packet (com_stmt_close statement_id).

Definition query (sql : list Z) (bound : list Value) : M QueryResult :=
  let* statement := prepare sql in
  if negb (params statement =? Z.of_nat (length bound)) then
    close_statement (statement_id statement);;
    fail (ParameterCount (params statement) (length bound) sql)
  else
    modify (set_sequence 0);;
    let* result :=
      attempt (write_packet (com_stmt_execute (statement_id statement) bound);; read_result_set sql true) in
    close_statement (statement_id statement);;
    lift result.

Definition ping : M unit :=
  modify (set_sequence 0);;
  write_packet com_ping;;
  let* payload := read_packet in
  let* c := get in
  let* packet := lift (Packet_parse payload) in
  match packet with
  | POk ok => modify (set_status (ok_status ok))
  | PErr error => fail (server_error error (config c) None)
  | _ => fail PingAnswer
  end.

(** [close] consumes the connection; what is left is what it has sent. *)
Definition close (c : MySqlConnection) : MySqlConnection :=
  (write_packet com_quit (set_sequence 0 c)).2.

End MySqlConnection.
