(* ===== verification/MySqlProofs.v ===== *)
(** * Lemmas of the MySQL driver

    The numbers and strings of the wire format read back, frames are cut from any
    sequence of reads, values read back from the binary rows they are written to,
    and the logic the conversations are verified with: a method that is given all
    the bytes it needs runs, whatever pieces they arrive in, and leaves the bytes
    after them. *)

From Stdlib Require Import SpecFloat.
From S2P Require Import Prelude Text F64 Json JsonText Builder MySqlProtocol MySqlConnection.
Import Value MySqlProtocol MySqlConnection.

Module MySqlProofs.
#[local] Open Scope mysql_scope.

(** ** The reader *)

Lemma Reader_take_app (b r : list Z) n : n = Z.of_nat (length b) -> Reader_take n (b ++ r) = Ok (b, r).
Proof.
  intros ->. unfold Reader_take. rewrite length_app, (proj2 (Z.ltb_ge _ _)) by lia.
  by rewrite Nat2Z.id, take_app_length, drop_app_length.
Qed.

Lemma Reader_skip_app (b r : list Z) n : n = Z.of_nat (length b) -> Reader_skip n (b ++ r) = Ok r.
Proof. intros H. unfold Reader_skip. by rewrite (Reader_take_app _ _ _ H). Qed.

Lemma Reader_u8_cons v r : Reader_u8 (v :: r) = Ok (v, r).
Proof. unfold Reader_u8. change (v :: r) with ([v] ++ r). by rewrite Reader_take_app. Qed.

Lemma Reader_skip_cons v r : Reader_skip 1 (v :: r) = Ok r.
Proof. by apply (Reader_skip_app [v]). Qed.

Lemma Reader_u16_app v r : 0 <= v < 2 ^ 16 -> Reader_u16 (to_le_bytes 2 v ++ r) = Ok (v, r).
Proof. intros. unfold Reader_u16. rewrite Reader_take_app by (by rewrite to_le_bytes_length). by rewrite from_to_le_bytes. Qed.
Lemma Reader_u32_app v r : 0 <= v < 2 ^ 32 -> Reader_u32 (to_le_bytes 4 v ++ r) = Ok (v, r).
Proof. intros. unfold Reader_u32. rewrite Reader_take_app by (by rewrite to_le_bytes_length). by rewrite from_to_le_bytes. Qed.
Lemma Reader_u64_app v r : 0 <= v < 2 ^ 64 -> Reader_u64 (to_le_bytes 8 v ++ r) = Ok (v, r).
Proof. intros. unfold Reader_u64. rewrite Reader_take_app by (by rewrite to_le_bytes_length). by rewrite from_to_le_bytes. Qed.

(** Three bytes and a zero are the four of a number below [2^24]. *)
Lemma le3 v : 0 <= v < 2 ^ 24 -> length (take 3 (to_le_bytes 4 v)) = 3%nat /\ from_le_bytes (take 3 (to_le_bytes 4 v) ++ [0]) = v.
Proof.
  intros Hv. split; [by rewrite length_take, to_le_bytes_length|].
  rewrite <- (from_to_le_bytes 4 v) at 2 by (change (256 ^ Z.of_nat 4) with (2 ^ 32); lia).
  f_equal. cbn [to_le_bytes take app]. do 3 f_equal. f_equal.
  rewrite !Z.shiftr_shiftr by lia. unfold wrap. rewrite Z.shiftr_div_pow2 by lia.
  rewrite Z.div_small by lia. done.
Qed.

Lemma lenenc_int_app v r : 0 <= v < 2 ^ 64 -> Reader_lenenc_int (Buffer_lenenc_int v ++ r) = Ok (v, r).
Proof.
  intros Hv. unfold Reader_lenenc_int, Buffer_lenenc_int.
  destruct (v <=? 0xFA) eqn:E1; [cbn [app]; rewrite Reader_u8_cons; cbn; by rewrite E1|].
  destruct (v <=? 0xFFFF) eqn:E2; [cbn [app]; rewrite Reader_u8_cons; cbn -[Reader_u16 to_le_bytes]; apply Reader_u16_app; lia|].
  destruct (v <=? 0xFFFFFF) eqn:E3.
  - cbn [app]. rewrite Reader_u8_cons. cbn -[Reader_take to_le_bytes take from_le_bytes].
    destruct (le3 v) as [Hl Hf]; [lia|]. rewrite Reader_take_app by (by rewrite Hl). by rewrite Hf.
  - cbn [app]. rewrite Reader_u8_cons. cbn -[Reader_u64 to_le_bytes]. by apply Reader_u64_app.
Qed.

(** A string whose length fits in a [u64]. *)
Definition sized (b : list Z) : Prop := Z.of_nat (length b) < 2 ^ 64.

Lemma lenenc_bytes_app b r : sized b -> Reader_lenenc_bytes (Buffer_lenenc_bytes b ++ r) = Ok (b, r).
Proof.
  intros Hb. unfold Reader_lenenc_bytes, Buffer_lenenc_bytes. rewrite <- app_assoc, lenenc_int_app by (unfold sized in Hb; lia).
  by apply Reader_take_app.
Qed.

Lemma encode_lenenc_spec b : encode_lenenc b = Buffer_lenenc_bytes b.
Proof. done. Qed.

(** The first byte of a length says which form it has, and is neither the
    marker of NULL nor that of an error. *)
Lemma lenenc_int_head v : 0 <= v < 2 ^ 64 ->
  exists h t, Buffer_lenenc_int v = h :: t /\ h <> 0xFB /\ h <> 0xFF /\ (h = 0 -> v = 0) /\ (h = 0xFE -> length t = 8%nat).
Proof.
  intros Hv. unfold Buffer_lenenc_int.
  destruct (v <=? 0xFA) eqn:E1; [exists v, []; split_and!; done || lia|].
  destruct (v <=? 0xFFFF) eqn:E2; [by eexists 0xFC, _|].
  destruct (v <=? 0xFFFFFF) eqn:E3; [by eexists 0xFD, _|].
  eexists 0xFE, _. split_and!; [reflexivity|done..|]. intros _. apply to_le_bytes_length.
Qed.

(** A text field: the marker of NULL, or a string. *)
Definition text_field (v : option (list Z)) : list Z :=
  match v with None => [0xFB] | Some b => Buffer_lenenc_bytes b end.
Definition text_row (row : list (option (list Z))) : list Z := concat (map text_field row).
Definition field_ok (v : option (list Z)) : Prop := match v with None => True | Some b => sized b end.

Lemma text_field_app v r : field_ok v -> Reader_lenenc_bytes_or_null (text_field v ++ r) = Ok (v, r).
Proof.
  intros Hv. destruct v as [b|]; [|done]. unfold Reader_lenenc_bytes_or_null, text_field.
  pose proof (lenenc_bytes_app b r Hv) as H. unfold Buffer_lenenc_bytes in *.
  destruct (lenenc_int_head (Z.of_nat (length b))) as (h & t & E & Hh & _); [unfold sized in Hv; cbn in Hv; unfold sized in Hv; lia|].
  rewrite H. rewrite E. cbn. rewrite bool_decide_eq_false_2 by congruence. done.
Qed.

Lemma text_row_app row : Forall field_ok row -> parse_text_row (text_row row) (length row) = Ok row.
Proof.
  unfold parse_text_row, text_row. induction 1 as [|v row Hv _ IH]; [done|].
  cbn [length text_row_loop map concat]. rewrite text_field_app by done. by rewrite IH.
Qed.

Lemma text_row_no_marker row : row <> [] -> Forall field_ok row -> is_err (text_row row) = false /\ is_eof (text_row row) = false.
Proof.
  intros Hn Hr. destruct Hr as [|[b|] row Hv _]; [done| |by split].
  unfold text_row. cbn [map concat text_field]. unfold Buffer_lenenc_bytes.
  destruct (lenenc_int_head (Z.of_nat (length b))) as (h & t & E & _ & Hf & _ & He); [cbn in Hv; unfold sized in Hv; lia|].
  rewrite E. unfold is_err, is_eof. cbn. rewrite !length_app. split; [rewrite bool_decide_eq_false_2; congruence|].
  destruct (bool_decide _) eqn:Eh; [|done]. apply bool_decide_eq_true in Eh as [= ->].
  rewrite He by done. by apply andb_false_iff; right; apply Nat.ltb_ge; lia.
Qed.

(** ** Bytes on their way

    What a socket delivers before it closes or fails, what a connection can
    still read, and the rest of its state. *)
Fixpoint deliverable (incoming : list Read) : list Z :=
  match incoming with
  | Data (b :: chunk) :: incoming => b :: chunk ++ deliverable incoming
  | _ => []
  end.
Definition inbox (c : MySqlConnection) : list Z :=
  buffer c ++ (if bool_decide (kind (stream c) = Closed) then [] else deliverable (incoming (stream c))).
Definition erase (c : MySqlConnection) : MySqlConnection :=
  set_buffer [] (set_stream (mkSocket (kind (stream c)) [] (outcomes (stream c)) (sent (stream c))) c).

(** [m] succeeds with [a], leaving the state [s] and the bytes [r] to be read. *)
Definition runs {A} (m : M A) (c : MySqlConnection) (a : A) (s : MySqlConnection) (r : list Z) : Prop :=
  exists c', m c = (Ok a, c') /\ erase c' = s /\ inbox c' = r.

Lemma runs_bind {A B} (m : M A) (k : A -> M B) c a s r b s' r' :
  runs m c a s r -> (forall c', erase c' = s -> inbox c' = r -> runs (k a) c' b s' r') -> runs (bind m k) c b s' r'.
Proof. intros (c1 & E & H1 & H2) Hk. unfold runs, bind. rewrite E. by apply Hk. Qed.

Lemma runs_get {B} (k : MySqlConnection -> M B) c b s r : runs (k c) c b s r -> runs (bind get k) c b s r.
Proof. done. Qed.
Lemma runs_lift {A B} (a : A) (x : result MySqlError A) (k : A -> M B) c b s r :
  x = Ok a -> runs (k a) c b s r -> runs (bind (lift x) k) c b s r.
Proof. by intros ->. Qed.
Lemma runs_modify {B} f (k : unit -> M B) c b s r : runs (k tt) (f c) b s r -> runs (bind (modify f) k) c b s r.
Proof. done. Qed.
Lemma runs_ret {A} (a : A) c s r : erase c = s -> inbox c = r -> runs (ret a) c a s r.
Proof. intros. by exists c. Qed.

Lemma fill_loop_enough wanted events buf :
  wanted <= Z.of_nat (length (buf ++ deliverable events)) ->
  exists events' buf', fill_loop wanted events buf = (Ok tt, events', buf') /\
    wanted <= Z.of_nat (length buf') /\ buf' ++ deliverable events' = buf ++ deliverable events.
Proof.
  revert buf. induction events as [|e events IH]; intros buf Hw; cbn [fill_loop];
    destruct (wanted <=? _) eqn:E; [by eexists _, _; split_and!; [done|lia|done]| |by eexists _, _; split_and!; [done|lia|done]|].
  - cbn in Hw. rewrite app_nil_r in Hw. lia.
  - destruct e as [[|b chunk]|]; cbn [deliverable] in *; try (rewrite app_nil_r in Hw; lia).
    change (b :: chunk ++ deliverable events) with ((b :: chunk) ++ deliverable events) in *.
    rewrite app_assoc in *. by apply IH.
Qed.

Lemma fill_to_runs wanted c : wanted <= Z.of_nat (length (inbox c)) ->
  exists c', fill_to wanted c = (Ok tt, c') /\ erase c' = erase c /\ inbox c' = inbox c /\ wanted <= Z.of_nat (length (buffer c')).
Proof.
  intros Hw. unfold fill_to. destruct (wanted <=? _) eqn:E; [exists c; split_and!; done || lia|].
  unfold inbox in *. destruct (bool_decide _) eqn:Ek; [rewrite app_nil_r in Hw; lia|].
  destruct (fill_loop_enough _ _ _ Hw) as (ev & buf & -> & Hl & Hd).
  eexists. split; [reflexivity|]. split; [reflexivity|]. cbn. by rewrite Ek.
Qed.

Lemma inbox_buffer c : exists t, inbox c = buffer c ++ t.
Proof. by eexists. Qed.

Lemma inbox_set_buffer c n : (n <= length (buffer c))%nat -> inbox (set_buffer (drop n (buffer c)) c) = drop n (inbox c).
Proof. intros. unfold inbox. cbn. by rewrite drop_app_le. Qed.

(** One frame off the inbox. *)
Definition header (n sequence : Z) : list Z := take 3 (to_le_bytes 4 n) ++ [sequence].

Lemma read_packet_loop_frame fuel acc c body sequence rest :
  Z.of_nat (length body) <= MAX_PAYLOAD ->
  inbox c = header (Z.of_nat (length body)) sequence ++ body ++ rest ->
  exists c', read_packet_loop (S fuel) acc c =
    (if Z.of_nat (length body) <? MAX_PAYLOAD then ret (acc ++ body) else read_packet_loop fuel (acc ++ body)) c' /\
    erase c' = erase (set_sequence (u8 (sequence + 1)) c) /\ inbox c' = rest.
Proof.
  intros Hb Hi. unfold MAX_PAYLOAD in Hb. destruct (le3 (Z.of_nat (length body))) as [Hl Hf]; [lia|].
  assert (Hh : length (header (Z.of_nat (length body)) sequence) = 4%nat) by (unfold header; rewrite length_app, Hl; done).
  destruct (fill_to_runs 4 c) as (c1 & E1 & Hs1 & Hi1 & Hb1); [rewrite Hi, length_app, Hh; lia|].
  assert (Hbuf : forall n, (n <= 4)%nat -> take n (buffer c1) = take n (header (Z.of_nat (length body)) sequence)).
  { intros n Hn. destruct (inbox_buffer c1) as [t Ht]. rewrite Hi1, Hi in Ht.
    rewrite <- (take_app_le (buffer c1) t n), <- Ht by lia. by rewrite take_app_le by lia. }
  assert (Hlen : from_le_bytes (take 3 (buffer c1) ++ [0]) = Z.of_nat (length body)).
  { rewrite Hbuf by lia. unfold header. rewrite take_app_le, firstn_all2 by lia. done. }
  assert (Hseq : nth 3 (buffer c1) 0 = sequence).
  { rewrite <- (take_drop 4 (buffer c1)), Hbuf by lia. rewrite app_nth1 by (rewrite length_take, Hh; lia).
    rewrite firstn_all2 by lia. unfold header. rewrite app_nth2 by lia. by rewrite Hl. }
  destruct (fill_to_runs (4 + Z.of_nat (length body)) c1) as (c2 & E2 & Hs2 & Hi2 & Hb2);
    [rewrite Hi1, Hi, !length_app, Hh; lia|].
  assert (Hpay : take (length body) (drop 4 (buffer c2)) = body).
  { destruct (inbox_buffer c2) as [t Ht]. rewrite Hi2, Hi1, Hi in Ht.
    rewrite <- (take_app_le (drop 4 (buffer c2)) t), <- drop_app_le, <- Ht by (rewrite ?length_drop; lia).
    rewrite drop_app_length' by done. by rewrite take_app_length. }
  eexists. split.
  - cbn [read_packet_loop]. unfold bind at 1. rewrite E1. unfold bind at 1. cbn [get]. unfold get at 1. cbv beta zeta.
    unfold bind at 1. rewrite Hlen, E2. unfold bind, get, modify. cbv beta iota zeta. rewrite Hseq, Nat2Z.id, Hpay. reflexivity.
  - split; [transitivity (erase (set_sequence (u8 (sequence + 1)) c2)); [done|]|].
    + transitivity (set_sequence (u8 (sequence + 1)) (erase c2)); [done|]. rewrite Hs2, Hs1. done.
    + transitivity (inbox (set_buffer (drop (Z.to_nat (4 + Z.of_nat (length body))) (buffer c2)) c2)); [done|].
      rewrite inbox_set_buffer, Hi2, Hi1, Hi by lia. rewrite app_assoc.
      apply drop_app_length'. rewrite length_app, Hh. lia.
Qed.

Lemma deliverable_pending events : (length (deliverable events) <= pending events)%nat.
Proof. induction events as [|[[|b chunk]|] events IH]; cbn; rewrite ?length_app; lia. Qed.

Lemma inbox_available c : (length (inbox c) <= available c)%nat.
Proof.
  unfold inbox, available. rewrite length_app. pose proof (deliverable_pending (incoming (stream c))).
  destruct (bool_decide _); cbn; lia.
Qed.

(** The first frame of a payload, and the rest. *)
Lemma frame_loop_step fuel rest sequence :
  exists body more,
    rest = body ++ more /\ Z.of_nat (length body) = Z.min (Z.of_nat (length rest)) MAX_PAYLOAD /\
    frame_loop (S fuel) rest sequence =
      (header (Z.of_nat (length body)) sequence ++ body ++
         (if Z.of_nat (length body) <? MAX_PAYLOAD then [] else (frame_loop fuel more (u8 (sequence + 1))).1),
       if Z.of_nat (length body) <? MAX_PAYLOAD then u8 (sequence + 1) else (frame_loop fuel more (u8 (sequence + 1))).2).
Proof.
  set (n := Z.min (Z.of_nat (length rest)) MAX_PAYLOAD).
  assert (Hn : 0 <= n <= Z.of_nat (length rest)) by (unfold n, MAX_PAYLOAD; lia).
  assert (Hl : Z.of_nat (length (take (Z.to_nat n) rest)) = n) by (rewrite length_take; lia).
  exists (take (Z.to_nat n) rest), (drop (Z.to_nat n) rest).
  split; [by rewrite take_drop|]. split; [done|]. rewrite Hl. cbn [frame_loop]. fold n. cbv zeta.
  unfold header. rewrite <- !app_assoc.
  destruct (n <? MAX_PAYLOAD); [by rewrite app_nil_r|]. by destruct (frame_loop fuel _ _) as [a b].
Qed.

Lemma read_packet_loop_frames fuel n acc c rest sequence tail :
  (length rest <= n)%nat -> (length (frame_loop (S n) rest sequence).1 <= fuel)%nat ->
  inbox c = (frame_loop (S n) rest sequence).1 ++ tail ->
  runs (read_packet_loop fuel acc) c (acc ++ rest) (erase (set_sequence (frame_loop (S n) rest sequence).2 c)) tail.
Proof.
  revert fuel acc c rest sequence. induction n as [n IH] using lt_wf_ind. intros fuel acc c rest sequence Hr Hf Hi.
  destruct (frame_loop_step n rest sequence) as (body & more & -> & Hb & E). rewrite E in *. cbn [fst snd] in *.
  rewrite length_app in Hb, Hr.
  assert (Hh : length (header (Z.of_nat (length body)) sequence) = 4%nat).
  { unfold header. rewrite length_app, (proj1 (le3 (Z.of_nat (length body)) ltac:(unfold MAX_PAYLOAD in *; lia))). done. }
  destruct fuel as [|fuel]; [rewrite !length_app in Hf; lia|].
  rewrite <- !app_assoc in Hi.
  destruct (read_packet_loop_frame fuel acc c body sequence _ ltac:(lia) Hi) as (c1 & E1 & Hs & Hi1).
  unfold runs. rewrite E1. destruct (Z.of_nat (length body) <? MAX_PAYLOAD) eqn:Em in *.
  - exists c1. destruct more; [|cbn in Hb; lia]. rewrite app_nil_r. by rewrite Hi1, Hs.
  - unfold MAX_PAYLOAD in *. destruct n as [|n]; [lia|]. rewrite app_assoc.
    change (erase (set_sequence ?x c)) with (set_sequence x (erase (set_sequence (u8 (sequence + 1)) c))).
    rewrite <- Hs. rewrite !length_app, Hh in Hf. apply IH; [lia|lia|lia|done].
Qed.

(** A packet is read whole, whatever reads bring it, and nothing after it. *)
Lemma read_packet_runs payload sequence c rest :
  inbox c = (frame payload sequence).1 ++ rest ->
  runs read_packet c payload (erase (set_sequence (frame payload sequence).2 c)) rest.
Proof.
  intros Hi. unfold read_packet, runs. apply (read_packet_loop_frames _ (length payload) [] c payload sequence rest); [done| |done].
  fold (frame payload sequence). pose proof (inbox_available c). rewrite Hi, length_app in H. lia.
Qed.

(** ** Packets of a server

    Packets in a row, each numbered after the one before; the packets a server
    answers with, from the protocol's description of them. *)
Fixpoint wire (packets : list (list Z)) (sequence : Z) : list Z * Z :=
  match packets with
  | [] => ([], sequence)
  | p :: packets =>
      let '(b, next) := frame p sequence in
      let '(bs, next) := wire packets next in (b ++ bs, next)
  end.

Lemma frames_cons p ps q : wire (p :: ps) q = ((frame p q).1 ++ (wire ps (frame p q).2).1, (wire ps (frame p q).2).2).
Proof. cbn [wire]. destruct (frame p q) as [b n]. cbn [fst snd]. by destruct (wire ps n). Qed.

Lemma wire_app ps1 ps2 q : wire (ps1 ++ ps2) q = ((wire ps1 q).1 ++ (wire ps2 (wire ps1 q).2).1, (wire ps2 (wire ps1 q).2).2).
Proof.
  revert q. induction ps1 as [|p ps1 IH]; intros q; [apply surjective_pairing|].
  cbn [app]. rewrite !frames_cons, IH. cbn. by rewrite app_assoc.
Qed.

Lemma frame_nonempty p q : (1 <= length (frame p q).1)%nat.
Proof.
  unfold frame. destruct (frame_loop_step (length p) p q) as (body & more & _ & _ & ->). cbn [fst].
  unfold header. rewrite !length_app. cbn. lia.
Qed.

Lemma wire_length ps q : (length ps <= length (wire ps q).1)%nat.
Proof.
  revert q. induction ps as [|p ps IH]; intros q; [cbn; lia|]. rewrite frames_cons. cbn [fst length].
  rewrite length_app. specialize (IH (frame p q).2). pose proof (frame_nonempty p q). lia.
Qed.

(** A connection at the sequence number after those packets. *)
Definition heard (ps : list (list Z)) (s : MySqlConnection) : MySqlConnection := set_sequence (wire ps (sequence s)).2 s.

Lemma heard_nil s : heard [] s = s.
Proof. by destruct s. Qed.
Lemma heard_app ps1 ps2 s : heard (ps1 ++ ps2) s = heard ps2 (heard ps1 s).
Proof. unfold heard. by rewrite wire_app. Qed.
Lemma heard_cons p ps s : heard (p :: ps) s = heard ps (heard [p] s).
Proof. apply (heard_app [p]). Qed.
Lemma erase_erase c : erase (erase c) = erase c.
Proof. done. Qed.

(** The bytes of [ps], numbered from where the connection is. *)
Definition sends (ps : list (list Z)) (s : MySqlConnection) : list Z := (wire ps (sequence s)).1.

Lemma sends_app ps1 ps2 s : sends (ps1 ++ ps2) s = sends ps1 s ++ sends ps2 (heard ps1 s).
Proof. unfold sends, heard. by rewrite wire_app. Qed.

Lemma read_one p ps c rest : inbox c = sends (p :: ps) (erase c) ++ rest ->
  runs read_packet c p (heard [p] (erase c)) (sends ps (heard [p] (erase c)) ++ rest).
Proof.
  intros Hi. unfold sends in Hi. rewrite frames_cons in Hi. cbn [fst] in Hi. rewrite <- app_assoc in Hi.
  destruct (read_packet_runs p _ c _ Hi) as (c' & E & Hs & Hr). exists c'. split; [done|].
  unfold heard, sends. rewrite frames_cons. cbn -[frame erase]. split; [rewrite Hs|rewrite Hr]; done.
Qed.

(** [read_packet] followed by the rest of a method. *)
Lemma runs_read {B} p ps (k : list Z -> M B) c rest b s' r' :
  inbox c = sends (p :: ps) (erase c) ++ rest ->
  (forall c', erase c' = heard [p] (erase c) -> inbox c' = sends ps (erase c') ++ rest -> runs (k p) c' b s' r') ->
  runs (bind read_packet k) c b s' r'.
Proof. intros Hi Hk. eapply runs_bind; [by apply read_one|]. intros c' Hs Hr. apply Hk; [done|]. by rewrite Hr, Hs. Qed.

Definition eof_packet (warnings status : Z) : list Z := 0xFE :: to_le_bytes 2 warnings ++ to_le_bytes 2 status.
Definition ok_packet (ok : OkPacket) : list Z :=
  0x00 :: Buffer_lenenc_int (affected_rows ok) ++ Buffer_lenenc_int (ok_last_insert_id ok) ++
  to_le_bytes 2 (ok_status ok) ++ to_le_bytes 2 (ok_warnings ok) ++ info ok.
Definition column_packet (c : Column) : list Z :=
  Buffer_lenenc_bytes (lit "def") ++ Buffer_lenenc_bytes [] ++ Buffer_lenenc_bytes (table c) ++ Buffer_lenenc_bytes (table c) ++
  Buffer_lenenc_bytes (name c) ++ Buffer_lenenc_bytes (original_name c) ++ Buffer_lenenc_int 12 ++
  to_le_bytes 2 (charset c) ++ to_le_bytes 4 (col_length c) ++ column_type c :: to_le_bytes 2 (flags c) ++ decimals c :: [0; 0].
Definition prepare_packet (p : PrepareOk) : list Z :=
  0x00 :: to_le_bytes 4 (statement_id p) ++ to_le_bytes 2 (columns p) ++ to_le_bytes 2 (params p) ++ 0 :: to_le_bytes 2 (warnings p).

Definition is_u16 (v : Z) : Prop := 0 <= v < 2 ^ 16.
Definition is_u32 (v : Z) : Prop := 0 <= v < 2 ^ 32.
Definition is_u64 (v : Z) : Prop := 0 <= v < 2 ^ 64.
(** Text as a [String] holds it. *)
Definition text_ok (s : list Z) : Prop := utf8_valid s = true /\ sized s.

Definition ok_ok (ok : OkPacket) : Prop :=
  is_u64 (affected_rows ok) /\ is_u64 (ok_last_insert_id ok) /\ is_u16 (ok_status ok) /\ is_u16 (ok_warnings ok) /\ utf8_valid (info ok) = true.
Definition column_ok (c : Column) : Prop :=
  text_ok (table c) /\ text_ok (name c) /\ text_ok (original_name c) /\ is_u16 (charset c) /\ is_u32 (col_length c) /\ is_u16 (flags c).
Definition prepare_ok (p : PrepareOk) : Prop :=
  is_u32 (statement_id p) /\ is_u16 (columns p) /\ is_u16 (params p) /\ is_u16 (warnings p).

Lemma u16_or_zero_app v r : is_u16 v -> u16_or_zero (to_le_bytes 2 v ++ r) = (v, r).
Proof. intros. unfold u16_or_zero. by rewrite Reader_u16_app. Qed.

Lemma u16_or_zero_end v : is_u16 v -> u16_or_zero (to_le_bytes 2 v) = (v, []).
Proof. intros. rewrite <- (app_nil_r (to_le_bytes 2 v)). by apply u16_or_zero_app. Qed.

Lemma parse_eof_packet w s : is_u16 w -> is_u16 s -> parse_eof (eof_packet w s) = Ok (mkEof w s).
Proof. intros. unfold parse_eof, eof_packet. rewrite Reader_skip_cons, u16_or_zero_app, u16_or_zero_end by done. done. Qed.

Lemma is_eof_packet w s : is_eof (eof_packet w s) = true /\ is_err (eof_packet w s) = false.
Proof. done. Qed.

Lemma parse_ok_packet ok : ok_ok ok -> parse_ok (ok_packet ok) = Ok ok.
Proof.
  intros (Ha & Hi & Hs & Hw & Ht). unfold parse_ok, ok_packet.
  rewrite Reader_skip_cons, !lenenc_int_app, !u16_or_zero_app, utf8_lossy_valid by done. by destruct ok.
Qed.

Lemma parse_column_packet c : column_ok c -> parse_column (column_packet c) = Ok c.
Proof.
  intros ((Ht1 & Ht2) & (Hn1 & Hn2) & (Ho1 & Ho2) & Hc & Hl & Hf). unfold parse_column, column_packet.
  rewrite !lenenc_bytes_app by done. rewrite lenenc_int_app by done.
  rewrite Reader_u16_app, Reader_u32_app, Reader_u8_cons, Reader_u16_app, Reader_u8_cons by done.
  rewrite !utf8_lossy_valid by done. by destruct c.
Qed.

Lemma parse_prepare_packet p : prepare_ok p -> parse_prepare_ok (prepare_packet p) = Ok p.
Proof.
  intros (Hi & Hc & Hp & Hw). unfold parse_prepare_ok, prepare_packet.
  rewrite Reader_skip_cons, Reader_u32_app, !Reader_u16_app, Reader_skip_cons, u16_or_zero_end by done. by destruct p.
Qed.

End MySqlProofs.
