(* ===== verification/MySqlAnswers.v ===== *)
(** * Answers of a MySQL server

    The result sets a server sends, the lemmas that the driver's loops read them,
    and that what follows an answer is left for the next statement. *)

From S2P Require Import Prelude Text F64 Json JsonText Builder MySqlProtocol MySqlConnection MySqlProofs.
Import Value MySqlProtocol MySqlConnection MySqlProofs.

Module MySqlAnswers.
#[local] Open Scope mysql_scope.

(** ** Exchanges

    [m] reads exactly the packets [ps], succeeds with [a] and takes the rest of
    the state through [f]; whatever comes after is still there. *)
Definition exchange {A} (m : M A) (ps : list (list Z)) (a : A) (f : MySqlConnection -> MySqlConnection) : Prop :=
  forall c more rest, inbox c = sends (ps ++ more) (erase c) ++ rest ->
    runs m c a (f (erase c)) (sends more (f (erase c)) ++ rest).

Lemma exchange_bind {A B} (m : M A) (k : A -> M B) ps qs a b f g :
  exchange m ps a f -> exchange (k a) qs b g -> exchange (bind m k) (ps ++ qs) b (fun s => g (f s)).
Proof.
  intros Hm Hk c more rest Hi. rewrite <- app_assoc in Hi. eapply runs_bind; [by apply Hm|].
  intros c' Hs Hr. rewrite <- Hs in *. by apply Hk.
Qed.

Lemma exchange_read {B} p (k : list Z -> M B) qs b g :
  exchange (k p) qs b g -> exchange (bind read_packet k) (p :: qs) b (fun s => g (heard [p] s)).
Proof. intros Hk. change (p :: qs) with ([p] ++ qs). eapply exchange_bind; [|done]. intros c more rest Hi. by apply read_one. Qed.

Lemma exchange_get {B} (k : MySqlConnection -> M B) qs b g :
  (forall c, exchange (k c) qs b g) -> exchange (bind get k) qs b g.
Proof. intros Hk c more rest Hi. apply runs_get. by apply Hk. Qed.

Lemma exchange_lift {A B} (a : A) x (k : A -> M B) qs b g :
  x = Ok a -> exchange (k a) qs b g -> exchange (bind (lift x) k) qs b g.
Proof. intros -> Hk c more rest Hi. by apply Hk. Qed.

Lemma exchange_status {B} st (k : unit -> M B) qs b g :
  exchange (k tt) qs b g -> exchange (bind (modify (set_status st)) k) qs b (fun s => g (set_status st s)).
Proof. intros Hk c more rest Hi. apply runs_modify. by apply (Hk (set_status st c)). Qed.

Lemma exchange_ret {A} (a : A) : exchange (ret a) [] a (fun s => s).
Proof. intros c more rest Hi. by apply runs_ret. Qed.

Lemma exchange_ext {A} (m : M A) ps qs a f g :
  exchange m ps a f -> ps = qs -> (forall s, f s = g s) -> exchange m qs a g.
Proof. intros Hm -> He c more rest Hi. rewrite <- He. by apply Hm. Qed.

(** Fuel counted from the bytes at hand is enough for any packets that are. *)
Lemma exchange_fuel {A} (m : nat -> M A) ps a f :
  (forall fuel, (length ps <= fuel)%nat -> exchange (m (S fuel)) ps a f) -> exchange (fun c => m (S (available c)) c) ps a f.
Proof.
  intros Hm c more rest Hi. apply (Hm (available c)); [|done].
  pose proof (inbox_available c). rewrite Hi in H. unfold sends in H. rewrite length_app in H.
  pose proof (wire_length (ps ++ more) (sequence (erase c))) as Hl. rewrite length_app in Hl. lia.
Qed.

(** ** Result sets *)

Lemma columns_exchange cols fuel : (length cols <= fuel)%nat -> Forall column_ok cols ->
  exchange (columns_loop fuel (Z.of_nat (length cols))) (map column_packet cols) cols (heard (map column_packet cols)).
Proof.
  intros Hf Hc. revert fuel Hf. induction Hc as [|col cols Hcol _ IH]; intros fuel Hf.
  - eapply exchange_ext; [destruct fuel; apply exchange_ret|done|]. intros s. by rewrite heard_nil.
  - destruct fuel as [|fuel]; [cbn in Hf; lia|]. cbn [columns_loop].
    rewrite (proj2 (Z.leb_gt _ _)) by (cbn [length]; lia).
    replace (Z.of_nat (length (col :: cols)) - 1) with (Z.of_nat (length cols)) by (cbn [length]; lia).
    cbn [map]. eapply exchange_ext.
    + apply (exchange_read (column_packet col)). eapply exchange_lift; [by apply parse_column_packet|].
      eapply exchange_bind; [apply IH; cbn in Hf; lia|]. apply exchange_ret.
    + by rewrite app_nil_r.
    + intros s. cbn beta. symmetry. apply heard_cons.
Qed.

(** A row as it is on the wire, with the values it stands for. *)
Definition row_ok (columns : list Column) (binary : bool) (row : list Z * list Value) : Prop :=
  is_err row.1 = false /\ is_eof row.1 = false /\
  (if binary then decode_binary_row row.1 columns else decode_text_row row.1 columns) = Ok row.2.

Lemma rows_exchange rows fuel columns binary w st :
  (length rows < fuel)%nat -> Forall (row_ok columns binary) rows -> is_u16 w -> is_u16 st ->
  exchange (rows_loop fuel columns binary) (map fst rows ++ [eof_packet w st]) (map snd rows, st)
    (fun s => set_status st (heard (map fst rows ++ [eof_packet w st]) s)).
Proof.
  intros Hf Hr Hw Hs. revert fuel Hf. induction Hr as [|[p vs] rows (He & Ho & Hd) _ IH]; intros [|fuel] Hf; try (cbn in Hf; lia).
  - cbn [rows_loop map app]. eapply exchange_ext.
    + apply (exchange_read (eof_packet w st)), exchange_get. intros c. destruct (is_eof_packet w st) as [-> ->]. eapply exchange_lift; [by apply parse_eof_packet|].
      apply exchange_status, exchange_ret.
    + done.
    + done.
  - cbn [rows_loop map app]. cbn [fst snd] in *. eapply exchange_ext.
    + apply (exchange_read p), exchange_get. intros c. rewrite He, Ho. eapply exchange_lift; [by apply Hd|].
      eapply exchange_bind; [apply IH; cbn in Hf; lia|]. apply exchange_ret.
    + by rewrite app_nil_r.
    + intros s. cbn beta. by rewrite (heard_cons p (_ ++ _)).
Qed.

(** What a server answers a statement with: a count, or columns and rows. *)
Inductive Answer :=
  | Done (ok : OkPacket)
  | Rows (columns : list Column) (rows : list (list Z * list Value)) (w st : Z).

Definition packets (a : Answer) : list (list Z) :=
  match a with
  | Done ok => [ok_packet ok]
  | Rows columns rows w st =>
      Buffer_lenenc_int (Z.of_nat (length columns)) ::
      (map column_packet columns ++ [eof_packet w st]) ++ (map fst rows ++ [eof_packet w st])
  end.
Definition answer_status (a : Answer) : Z := match a with Done ok => ok_status ok | Rows _ _ _ st => st end.
Definition answer_ok (binary : bool) (a : Answer) : Prop :=
  match a with
  | Done ok => ok_ok ok
  | Rows columns rows w st =>
      (0 < length columns)%nat /\ Z.of_nat (length columns) < 2 ^ 32 /\ Forall column_ok columns /\
      Forall (row_ok columns binary) rows /\ is_u16 w /\ is_u16 st
  end.
Definition answer_result (a : Answer) : QueryResult :=
  match a with
  | Done ok => apply_ok empty_result ok
  | Rows columns rows _ _ => mkResult (map (fun row => mkRow (map name columns) row.2) rows) (Z.of_nat (length rows)) None
  end.

(** Every answer but the last says that more follow. *)
Fixpoint chained (l : list Answer) : bool :=
  match l with
  | [] => false
  | [a] => negb (has_flag (answer_status a) SERVER_MORE_RESULTS_EXISTS)
  | a :: l => has_flag (answer_status a) SERVER_MORE_RESULTS_EXISTS && chained l
  end.

Lemma read_columns_exchange cols w st : Z.of_nat (length cols) < 2 ^ 32 -> Forall column_ok cols -> is_u16 w -> is_u16 st ->
  exchange (read_columns (Z.of_nat (length cols))) (map column_packet cols ++ [eof_packet w st]) cols
    (heard (map column_packet cols ++ [eof_packet w st])).
Proof.
  intros Hn Hc Hw Hs. unfold read_columns, COLUMN_SIZE. rewrite (proj2 (Z.ltb_ge _ _)) by lia.
  eapply exchange_ext.
  - eapply exchange_bind.
    + apply (exchange_fuel (fun fuel => columns_loop fuel (Z.of_nat (length cols)))). intros fuel Hf.
      apply columns_exchange; [rewrite length_map in Hf; lia|done].
    + apply exchange_read. rewrite (proj1 (is_eof_packet w st)). apply exchange_ret.
  - done.
  - intros s. cbn beta. by rewrite heard_app.
Qed.

Lemma read_rows_exchange cols binary into rows w st :
  Forall (row_ok cols binary) rows -> is_u16 w -> is_u16 st ->
  exchange (read_rows cols binary into) (map fst rows ++ [eof_packet w st])
    (has_flag st SERVER_MORE_RESULTS_EXISTS,
     option_map (fun result => mkResult (map (fun row => mkRow (map name cols) row.2) rows) (Z.of_nat (length rows))
                                 (last_insert_id result)) into)
    (fun s => set_status st (heard (map fst rows ++ [eof_packet w st]) s)).
Proof.
  intros Hr Hw Hs. unfold read_rows. eapply exchange_ext.
  - eapply exchange_bind.
    + apply (exchange_fuel (fun fuel => rows_loop fuel cols binary)). intros fuel Hf.
      apply (rows_exchange rows _ cols binary w st); [rewrite length_app, length_map in Hf; cbn in Hf; lia|done..].
    + cbv beta zeta iota. rewrite length_map, map_map. apply exchange_ret.
  - apply app_nil_r.
  - done.
Qed.

(** The state after an answer: its last packet's number and status. *)
Definition after (a : Answer) (s : MySqlConnection) : MySqlConnection := set_status (answer_status a) (heard (packets a) s).

(** One round of the loop reads one answer, and fills the result when it is the
    first. *)
Definition fill (first : bool) (a : Answer) (result : QueryResult) : QueryResult :=
  if first then
    match a with
    | Done ok => apply_ok result ok
    | Rows _ _ _ _ => mkResult (rows (answer_result a)) (affected (answer_result a)) (last_insert_id result)
    end
  else result.

Lemma result_round fuel sql (binary first : bool) a result qs b g :
  answer_ok binary a ->
  (let result := fill first a result in
   exchange (if has_flag (answer_status a) SERVER_MORE_RESULTS_EXISTS then result_set_loop fuel sql binary false result else ret result) qs b g) ->
  exchange (result_set_loop (S fuel) sql binary first result) (packets a ++ qs) b (fun s => g (after a s)).
Proof.
  intros Ha Hk. cbn [result_set_loop]. destruct a as [ok|cols rs w st]; cbn [packets app answer_ok answer_status answer_result] in *.
  - eapply exchange_ext.
    + apply (exchange_read (ok_packet ok)), exchange_get. intros c. change (is_err (ok_packet ok)) with false. cbv iota.
      rewrite bool_decide_eq_true_2 by done.
      eapply exchange_lift; [by apply parse_ok_packet|]. apply (exchange_status (ok_status ok)). exact Hk.
    + done.
    + done.
  - destruct Ha as (Hn0 & Hn & Hc & Hr & Hw & Hs).
    assert (Hlen : is_u64 (Z.of_nat (length cols))) by (unfold is_u64; lia).
    destruct (lenenc_int_head _ Hlen) as (h & t & Eh & _ & Hff & Hz & _).
    eapply exchange_ext.
    + apply (exchange_read (Buffer_lenenc_int (Z.of_nat (length cols)))), exchange_get. intros c. unfold is_err. rewrite Eh. cbn [head]. rewrite !bool_decide_eq_false_2 by (intros [= ->]; lia). rewrite <- Eh.
      eapply exchange_lift; [rewrite <- (app_nil_r (Buffer_lenenc_int _)); by apply lenenc_int_app|]. cbv beta iota.
      eapply exchange_bind; [by apply (read_columns_exchange cols w st)|].
      eapply exchange_bind; [by apply (read_rows_exchange cols binary _ rs w st)|]. cbv beta iota zeta.
      destruct first; exact Hk.
    + by rewrite <- !app_assoc.
    + intros s. cbn beta. unfold after, packets. cbn [answer_status]. rewrite (heard_cons _ (_ ++ _)), (heard_app (_ ++ _)). done.
Qed.

(** The state after answers one behind the other. *)
Definition afters (answers : list Answer) (s : MySqlConnection) : MySqlConnection := foldl (fun s a => after a s) s answers.
Definition all_packets (answers : list Answer) : list (list Z) := concat (map packets answers).

Lemma drained answers fuel sql binary result :
  chained answers = true -> Forall (answer_ok binary) answers -> (length answers <= fuel)%nat ->
  exchange (result_set_loop fuel sql binary false result) (all_packets answers) result (afters answers).
Proof.
  revert fuel. induction answers as [|a answers IH]; intros [|fuel] Hc Ha Hf; try (cbn in Hf; done || lia).
  apply Forall_cons_iff in Ha as [Ha Has]. unfold all_packets. cbn [map concat]. change (afters (a :: answers)) with (fun s => afters answers (after a s)).
  apply result_round; [done|]. cbv zeta. cbn [fill]. destruct answers as [|a' answers].
  - cbn [chained] in Hc. apply negb_true_iff in Hc. rewrite Hc. apply exchange_ret.
  - apply andb_true_iff in Hc as [-> Hc]. apply IH; [done|done|cbn in *; lia].
Qed.

Lemma packets_nonempty a : (1 <= length (packets a))%nat.
Proof. destruct a; cbn; lia. Qed.

Lemma all_packets_length answers : (length answers <= length (all_packets answers))%nat.
Proof.
  unfold all_packets. induction answers as [|a answers IH]; [done|]. cbn [map concat length]. rewrite length_app.
  pose proof (packets_nonempty a). lia.
Qed.

(** A response is read to its end and gives the first of its results. *)
Lemma read_result_set_exchange sql binary a answers :
  chained (a :: answers) = true -> Forall (answer_ok binary) (a :: answers) ->
  exchange (read_result_set sql binary) (all_packets (a :: answers)) (answer_result a) (afters (a :: answers)).
Proof.
  intros Hc Ha. apply (exchange_fuel (fun fuel => result_set_loop fuel sql binary true empty_result)). intros fuel Hf.
  apply Forall_cons_iff in Ha as [Ha Has]. pose proof (all_packets_length answers) as Hl.
  unfold all_packets in *. cbn [map concat] in *. rewrite length_app in Hf. pose proof (packets_nonempty a).
  change (afters (a :: answers)) with (fun s => afters answers (after a s)).
  apply (result_round fuel sql binary true); [done|]. cbv zeta.
  replace (fill true a empty_result) with (answer_result a) by (by destruct a).
  destruct answers as [|a' answers].
  - cbn [chained] in Hc. apply negb_true_iff in Hc. rewrite Hc. apply exchange_ret.
  - apply andb_true_iff in Hc as [-> Hc]. apply drained; [done|done|lia].
Qed.

(** ** Writing *)

(** The stream is up and every write goes through. *)
Definition speaks (c : MySqlConnection) : Prop := kind (stream c) <> Closed /\ outcomes (stream c) = [].

(** The state after [p] was written. *)
Definition wrote (p : list Z) (s : MySqlConnection) : MySqlConnection :=
  set_sequence (frame p (sequence s)).2
    (set_stream (mkSocket (kind (stream s)) (incoming (stream s)) (outcomes (stream s))
                   (sent (stream s) ++ [(kind (stream s), (frame p (sequence s)).1)])) s).

Lemma write_packet_spec p c : speaks c -> write_packet p c = (Ok tt, wrote p c).
Proof.
  intros [Hk Ho]. unfold write_packet, wrote. destruct (frame p (sequence c)) as [b n].
  destruct c as [[k i o l] bf cf id v ca st sq br]. cbn in *. subst o. by destruct k.
Qed.

Lemma erase_wrote p c : erase (wrote p c) = wrote p (erase c).
Proof. by destruct c as [[]]. Qed.
Lemma inbox_wrote p c : inbox (wrote p c) = inbox c.
Proof. done. Qed.
Lemma erase_sequence q c : erase (set_sequence q c) = set_sequence q (erase c).
Proof. done. Qed.
Lemma speaks_erase c : speaks (erase c) <-> speaks c.
Proof. done. Qed.
Lemma speaks_sequence q c : speaks (set_sequence q c) <-> speaks c.
Proof. done. Qed.
Lemma speaks_wrote p c : speaks (wrote p c) <-> speaks c.
Proof. done. Qed.
Lemma speaks_stream s c : stream s = stream c -> speaks s <-> speaks c.
Proof. unfold speaks. by intros ->. Qed.
Lemma wrote_fields p c :
  sent (stream (wrote p c)) = sent (stream c) ++ [(kind (stream c), (frame p (sequence c)).1)] /\
  kind (stream (wrote p c)) = kind (stream c) /\ status (wrote p c) = status c /\ broken (wrote p c) = broken c.
Proof. done. Qed.
Lemma sequence_fields q c :
  stream (set_sequence q c) = stream c /\ status (set_sequence q c) = status c /\ broken (set_sequence q c) = broken c /\
  sequence (set_sequence q c) = q.
Proof. done. Qed.
Lemma heard_fields ps c : stream (heard ps c) = stream c /\ broken (heard ps c) = broken c.
Proof. done. Qed.
Lemma erase_fields c :
  sent (stream (erase c)) = sent (stream c) /\ kind (stream (erase c)) = kind (stream c) /\
  status (erase c) = status c /\ broken (erase c) = broken c.
Proof. done. Qed.
Lemma sends_wrote ps p s : sends ps (wrote p (set_sequence 0 s)) = (wire ps (frame p 0).2).1.
Proof. unfold sends, wrote. cbn [sequence set_sequence]. done. Qed.
Lemma wrote_sent p s : sent (stream (wrote p (set_sequence 0 s))) = sent (stream s) ++ [(kind (stream s), (frame p 0).1)].
Proof. unfold wrote. cbn [stream sent set_sequence set_stream sequence]. done. Qed.
Lemma wrote_kind p s : kind (stream (wrote p (set_sequence 0 s))) = kind (stream s).
Proof. done. Qed.
#[local] Opaque frame.

(** [write_packet] followed by the rest of a method. *)
Lemma runs_write {B} p (k : unit -> M B) c b s r : speaks c -> runs (k tt) (wrote p c) b s r -> runs (bind (write_packet p) k) c b s r.
Proof. intros Hs Hk. unfold runs, bind in *. by rewrite write_packet_spec. Qed.

(** An exchange within a method. *)
Lemma runs_exchange {A B} (m : M A) (k : A -> M B) ps a f c rest b s r :
  exchange m ps a f -> inbox c = sends ps (erase c) ++ rest ->
  (forall c', erase c' = f (erase c) -> inbox c' = rest -> runs (k a) c' b s r) -> runs (bind m k) c b s r.
Proof.
  intros Hm Hi Hk. eapply runs_bind; [apply (Hm c [] rest); by rewrite app_nil_r|]. cbn [sends]. intros c' Hs Hr. by apply Hk.
Qed.

(** The parts of the state an answer does not touch. *)
Lemma afters_fields answers s :
  stream (afters answers s) = stream s /\ broken (afters answers s) = broken s /\ config (afters answers s) = config s.
Proof. revert s. induction answers as [|a answers IH]; intros s; [done|]. apply (IH (after a s)). Qed.

Lemma afters_status answers s : answers <> [] -> status (afters answers s) = answer_status (List.last answers (Done (mkOk 0 0 0 0 []))).
Proof.
  revert s. induction answers as [|a answers IH]; intros s Hn; [done|]. destruct answers as [|a' answers]; [done|].
  change (afters (a :: a' :: answers) s) with (afters (a' :: answers) (after a s)). by rewrite IH.
Qed.

(** A statement as text: sent, and its response read. *)
Lemma simple_query_runs sql c a answers rest :
  speaks c -> chained (a :: answers) = true -> Forall (answer_ok false) (a :: answers) ->
  let s := wrote (com_query sql) (set_sequence 0 (erase c)) in
  inbox c = sends (all_packets (a :: answers)) s ++ rest ->
  runs (simple_query sql) c (answer_result a) (afters (a :: answers) s) rest.
Proof.
  intros Hs Hc Ha s Hi. unfold simple_query. apply runs_modify, runs_write; [done|].
  pose proof (read_result_set_exchange sql false a answers Hc Ha (wrote (com_query sql) (set_sequence 0 c)) [] rest) as H.
  rewrite app_nil_r, erase_wrote, inbox_wrote in H. apply H. exact Hi.
Qed.

(** ** Prepared statements *)

(** The server's metadata: as many packets as it announced, and an end. *)
Definition metadata (count : Z) (ps : list (list Z)) (w st : Z) : list (list Z) :=
  if 0 <? count then ps ++ [eof_packet w st] else [].

Lemma skip_loop_exchange ps : exchange (skip_loop (length ps)) ps tt (heard ps).
Proof.
  induction ps as [|p ps IH].
  - eapply exchange_ext; [apply exchange_ret|done|]. intros s. by rewrite heard_nil.
  - cbn [skip_loop length]. eapply exchange_ext; [apply (exchange_read p), IH|done|]. intros s. symmetry. apply heard_cons.
Qed.

Lemma metadata_exchange count ps w st : Z.of_nat (length ps) = count ->
  exchange (if 0 <? count then skip_metadata count else ret tt) (metadata count ps w st) tt (heard (metadata count ps w st)).
Proof.
  intros <-. unfold metadata. destruct (0 <? _).
  - unfold skip_metadata. rewrite Nat2Z.id. eapply exchange_ext.
    + eapply exchange_bind; [apply skip_loop_exchange|]. apply (exchange_read (eof_packet w st)).
      rewrite (proj1 (is_eof_packet w st)). apply exchange_ret.
    + done.
    + intros s. by rewrite heard_app.
  - eapply exchange_ext; [apply exchange_ret|done|]. intros s. by rewrite heard_nil.
Qed.

(** What a server answers a prepare with. *)
Definition prepared (p : PrepareOk) (param_defs column_defs : list (list Z)) (w st : Z) : list (list Z) :=
  prepare_packet p :: metadata (params p) param_defs w st ++ metadata (columns p) column_defs w st.
Definition prepared_ok (p : PrepareOk) (param_defs column_defs : list (list Z)) : Prop :=
  prepare_ok p /\ Z.of_nat (length param_defs) = params p /\ Z.of_nat (length column_defs) = columns p.

Lemma prepare_runs sql c p param_defs column_defs w st rest :
  speaks c -> prepared_ok p param_defs column_defs ->
  let s := wrote (com_stmt_prepare sql) (set_sequence 0 (erase c)) in
  inbox c = sends (prepared p param_defs column_defs w st) s ++ rest ->
  runs (prepare sql) c p (heard (prepared p param_defs column_defs w st) s) rest.
Proof.
  intros Hs (Hp & Hn1 & Hn2) s Hi. unfold prepare. apply runs_modify, runs_write; [done|].
  set (c1 := wrote _ (set_sequence 0 c)).
  assert (H : exchange (let* payload := read_packet in
      let* c := get in
      if is_err payload then let* e := lift (parse_err payload) in fail (server_error e (config c) (Some sql))
      else
        let* prepared := lift (parse_prepare_ok payload) in
        (if 0 <? params prepared then skip_metadata (params prepared) else ret tt);;
        (if 0 <? columns prepared then skip_metadata (columns prepared) else ret tt);;
        ret prepared) (prepared p param_defs column_defs w st) p (heard (prepared p param_defs column_defs w st))).
  - unfold prepared. eapply exchange_ext.
    + apply (exchange_read (prepare_packet p)), exchange_get. intros c'. change (is_err (prepare_packet p)) with false. cbv iota.
      eapply exchange_lift; [by apply parse_prepare_packet|].
      eapply exchange_bind; [by apply (metadata_exchange _ param_defs w st)|].
      eapply exchange_bind; [by apply (metadata_exchange _ column_defs w st)|]. apply exchange_ret.
    + by rewrite app_nil_r.
    + intros s'. cbn beta. by rewrite (heard_cons (prepare_packet p) (_ ++ _)), heard_app.
  - specialize (H c1 [] rest). unfold c1 in H. rewrite app_nil_r, erase_wrote, inbox_wrote in H. apply H. exact Hi.
Qed.

(** Prepare, execute, close: what is sent, what is read and what is left. *)
Lemma query_runs sql bound c p param_defs column_defs w st a answers rest :
  speaks c -> prepared_ok p param_defs column_defs -> params p = Z.of_nat (length bound) ->
  chained (a :: answers) = true -> Forall (answer_ok true) (a :: answers) ->
  let s1 := wrote (com_stmt_prepare sql) (set_sequence 0 (erase c)) in
  let s2 := heard (prepared p param_defs column_defs w st) s1 in
  let s3 := wrote (com_stmt_execute (statement_id p) bound) (set_sequence 0 s2) in
  let s4 := afters (a :: answers) s3 in
  inbox c = sends (prepared p param_defs column_defs w st) s1 ++ sends (all_packets (a :: answers)) s3 ++ rest ->
  runs (query sql bound) c (answer_result a) (wrote (com_stmt_close (statement_id p)) (set_sequence 0 s4)) rest.
Proof.
  intros Hs Hp Hn Hc Ha s1 s2 s3 s4 Hi. unfold query.
  eapply runs_bind; [by apply prepare_runs|]. intros c1 Hs1 Hi1. fold s1 s2 in Hs1.
  rewrite Hn, Z.eqb_refl. cbn [negb]. apply runs_modify.
  assert (Hsp1 : speaks c1).
  { apply (proj1 (speaks_erase c1)). rewrite Hs1. exact Hs. }
  set (c2 := wrote (com_stmt_execute (statement_id p) bound) (set_sequence 0 c1)).
  assert (He : erase c2 = s3) by (unfold s3, c2; rewrite erase_wrote, erase_sequence, Hs1; done).
  destruct (read_result_set_exchange sql true a answers Hc Ha c2 [] rest) as (c3 & E & Hs3 & Hi3);
    [rewrite app_nil_r, He; exact Hi1|].
  assert (Hsp3 : speaks (set_sequence 0 c3)).
  { apply speaks_sequence, (proj1 (speaks_erase c3)). rewrite Hs3, He.
    apply (speaks_stream _ s3); [apply afters_fields|exact Hs]. }
  exists (wrote (com_stmt_close (statement_id p)) (set_sequence 0 c3)). split_and!.
  - unfold bind at 1, attempt. unfold bind at 1. rewrite write_packet_spec by done. fold c2. rewrite E.
    unfold close_statement, bind, modify. by rewrite write_packet_spec.
  - unfold s4. rewrite erase_wrote, erase_sequence, Hs3, He. done.
  - rewrite inbox_wrote. exact Hi3.
Qed.

End MySqlAnswers.
