(* ===== verification/MySqlValues.v ===== *)
(** * Values on the MySQL wire

    The binary form of bound values and of rows: what is written is read back,
    integers and doubles to the bit, and a bitmap says which are NULL. *)

From Stdlib Require Import SpecFloat.
From S2P Require Import Prelude Text F64 Json JsonText Builder MySqlProtocol MySqlConnection MySqlProofs.
Import Value MySqlProtocol MySqlConnection MySqlProofs.

Module MySqlValues.

(** ** Numbers *)

Lemma from_to_le_bytes_mod n z : from_le_bytes (to_le_bytes n z) = z mod 256 ^ Z.of_nat n.
Proof.
  revert z. induction n as [|n IH]; intros z; [cbn; by rewrite Z.mod_1_r|].
  cbn [to_le_bytes from_le_bytes]. rewrite IH, Nat2Z.inj_succ, Z.pow_succ_r, Z.rem_mul_r by lia.
  by rewrite Z.shiftr_div_pow2 by lia.
Qed.

Lemma i64_read_back n r : i64_min <= n <= i64_max ->
  exists v, Reader_u64 (to_le_bytes 8 n ++ r) = Ok (v, r) /\ as_signed 64 v = n.
Proof.
  intros Hn. unfold Reader_u64. rewrite Reader_take_app by (by rewrite to_le_bytes_length).
  rewrite from_to_le_bytes_mod. eexists. split; [done|]. unfold as_signed, wrap.
  change (256 ^ Z.of_nat 8) with (2 ^ 64). rewrite Z.mod_mod by lia.
  unfold i64_min, i64_max in Hn. change (2 ^ (64 - 1)) with (2 ^ 63).
  destruct (Z.ltb_spec n 0).
  - replace (n mod 2 ^ 64) with (n + 2 ^ 64) by (rewrite <- (Z.mod_small (n + 2 ^ 64) (2 ^ 64)) by lia;
      by rewrite <- (Z_mod_plus_full n 1 (2 ^ 64)), Z.mul_1_l).
    rewrite (proj2 (Z.ltb_ge _ _)) by lia. lia.
  - rewrite Z.mod_small by lia. by rewrite (proj2 (Z.ltb_lt _ _)) by lia.
Qed.

(** The three fields of a double. *)
Lemma f64_fields (s : bool) e f : 0 <= e < 2 ^ 11 -> 0 <= f < 2 ^ 52 ->
  let bits := (if s then 2 ^ 63 else 0) + (e * 2 ^ 52 + f) in
  Z.testbit bits 63 = s /\ Z.shiftr bits 52 mod 2 ^ 11 = e /\ bits mod 2 ^ 52 = f /\ 0 <= bits < 2 ^ 64.
Proof.
  intros He Hf bits. assert (Eb : bits = ((if s then 2 ^ 11 else 0) + e) * 2 ^ 52 + f) by (unfold bits; destruct s; lia).
  split_and!; [| | |unfold bits; destruct s; lia..].
  - rewrite Z.testbit_odd, Z.shiftr_div_pow2 by lia. unfold bits. destruct s.
    + replace (2 ^ 63 + (e * 2 ^ 52 + f)) with (1 * 2 ^ 63 + (e * 2 ^ 52 + f)) by lia.
      rewrite Z.div_add_l, (Z.div_small (_ + _)) by lia. done.
    + rewrite Z.div_small by lia. done.
  - rewrite Z.shiftr_div_pow2, Eb, Z.div_add_l, (Z.div_small f), Z.add_0_r by lia. destruct s.
    + replace (2 ^ 11 + e) with (e + 1 * 2 ^ 11) by lia. rewrite Z_mod_plus_full. by apply Z.mod_small.
    + by apply Z.mod_small.
  - rewrite Eb, Z.add_comm, Z_mod_plus_full. by apply Z.mod_small.
Qed.

Lemma f64_from_fields (s : bool) e f : 0 <= e < 2 ^ 11 -> 0 <= f < 2 ^ 52 ->
  f64_from_bits ((if s then 2 ^ 63 else 0) + (e * 2 ^ 52 + f)) =
    if e =? 2047 then (if f =? 0 then S754_infinity s else S754_nan)
    else match (if e =? 0 then f else f + 2 ^ 52) with
         | Zpos m => S754_finite s m (Z.max e 1 - 1075)
         | _ => S754_zero s
         end.
Proof. intros He Hf. destruct (f64_fields s e f He Hf) as (H1 & H2 & H3 & _). unfold f64_from_bits. by rewrite H1, H2, H3. Qed.

(** The shape of a double in the format: a full mantissa, or the least exponent. *)
Lemma f64_shape s m e : valid_binary 53 1024 (S754_finite s m e) = true ->
  (Zpos m < 2 ^ 52 /\ e = -1074) \/ (2 ^ 52 <= Zpos m < 2 ^ 53 /\ -1074 <= e <= 971).
Proof.
  cbn [valid_binary]. unfold bounded, canonical_mantissa, fexp, emin. rewrite andb_true_iff, Z.eqb_eq, Z.leb_le.
  intros [Hc He]. pose proof (digits2_pos_bounds m) as Hm. set (d := Zpos (digits2_pos m)) in *.
  assert (Hd : d <= 53) by lia. destruct (Z.eq_dec d 53) as [->|Hn].
  - change (2 ^ (53 - 1)) with (2 ^ 52) in Hm. right. split; [lia|lia].
  - left. split; [|lia]. pose proof (Z.pow_le_mono_r 2 d 52 ltac:(lia) ltac:(lia)). lia.
Qed.

Lemma f64_bits_read_back x : valid_binary 53 1024 x = true -> f64_from_bits (f64_to_bits x) = x /\ 0 <= f64_to_bits x < 2 ^ 64.
Proof.
  intros Hv.
  assert (H : exists (s : bool) e f, f64_to_bits x = (if s then 2 ^ 63 else 0) + (e * 2 ^ 52 + f) /\ 0 <= e < 2 ^ 11 /\ 0 <= f < 2 ^ 52 /\
    (if e =? 2047 then (if f =? 0 then S754_infinity s else S754_nan)
     else match (if e =? 0 then f else f + 2 ^ 52) with
          | Zpos m => S754_finite s m (Z.max e 1 - 1075)
          | _ => S754_zero s
          end) = x).
  - destruct x as [s|s| |s m e].
    + exists s, 0, 0. destruct s; done.
    + exists s, 2047, 0. destruct s; done.
    + by exists false, 2047, (2 ^ 51).
    + destruct (f64_shape _ _ _ Hv) as [[Hm ->]|[Hm He]]; cbn [f64_to_bits].
      * exists s, 0, (Zpos m). rewrite (proj2 (Z.ltb_lt _ _)) by lia. split_and!; [destruct s; lia|done|done|lia|lia|done].
      * exists s, (e + 1075), (Zpos m - 2 ^ 52). rewrite (proj2 (Z.ltb_ge _ _)) by lia.
        split_and!; [destruct s; lia|lia|lia|lia|lia|].
        rewrite (proj2 (Z.eqb_neq (e + 1075) 2047)), (proj2 (Z.eqb_neq (e + 1075) 0)), Z.sub_add by lia.
        f_equal. lia.
  - destruct H as (s & e & f & -> & He & Hf & Hx). rewrite f64_from_fields by done. split; [done|]. by apply f64_fields.
Qed.

(** ** Values *)

(** What a value comes back as: MySQL has no boolean, and JSON is sent as text. *)
Definition echo (v : Value) : Value :=
  match v with
  | Bool b => Int (if b then 1 else 0)
  | JsonV j => Text (JsonText.to_string j)
  | v => v
  end.

(** A value the Rust type can hold. *)
Definition value_ok (v : Value) : Prop :=
  match v with
  | Null | Bool _ => True
  | Int n => i64_min <= n <= i64_max
  | Float x => valid_binary 53 1024 x = true
  | Text s => text_ok s
  | Bytes b => sized b
  | JsonV j => text_ok (JsonText.to_string j)
  end.

(** A column of the type a value is bound with. *)
Definition column_for (column : Column) (v : Value) : Prop :=
  column_type column = (bind_type v).1 /\
  match v with
  | Int _ => is_unsigned column = false
  | Text _ | JsonV _ => is_binary column = false
  | Bytes _ => is_binary column = true
  | _ => True
  end.

Lemma decode_bound column v r : v <> Null -> value_ok v -> column_for column v ->
  decode_binary column (encode_bind v ++ r) = Ok (echo v, r).
Proof.
  intros Hn Hv [Ht Hc]. unfold decode_binary. rewrite Ht.
  destruct v as [|b|n|x|s|b|j]; [done|..]; cbn -[Reader_u8 Reader_u64 Reader_take Reader_lenenc_bytes to_le_bytes encode_lenenc utf8_lossy].
  - rewrite Reader_u8_cons. unfold sized_integer. by destruct (is_unsigned column), b.
  - destruct (i64_read_back n r Hv) as (v & -> & E). by rewrite Hc, E.
  - destruct (f64_bits_read_back x Hv) as [E Hb]. rewrite Reader_take_app by (by rewrite to_le_bytes_length).
    by rewrite from_to_le_bytes, E.
  - rewrite encode_lenenc_spec, lenenc_bytes_app by apply Hv. by rewrite Hc, utf8_lossy_valid by apply Hv.
  - rewrite encode_lenenc_spec, lenenc_bytes_app by apply Hv. by rewrite Hc.
  - rewrite encode_lenenc_spec, lenenc_bytes_app by apply Hv. by rewrite Hc, utf8_lossy_valid by apply Hv.
Qed.

(** ** Bitmaps *)

Definition bit_of (bitmap : list Z) (i : nat) : bool := Z.testbit (nth (i / 8) bitmap 0) (Z.of_nat (i mod 8)).

Lemma bit_of_mark bitmap j i : (j / 8 < length bitmap)%nat ->
  bit_of (alter (fun b => Z.lor b (Z.shiftl 1 (Z.of_nat (j mod 8)))) (j / 8)%nat bitmap) i = bit_of bitmap i || (i =? j)%nat.
Proof.
  intros Hj. unfold bit_of. rewrite !nth_lookup. destruct (decide (j / 8 = i / 8)%nat) as [E|E].
  - rewrite <- E, list_lookup_alter_eq. destruct (lookup_lt_is_Some_2 bitmap (j / 8)%nat Hj) as [b ->]. cbn -[Z.lor Z.shiftl Nat.modulo Nat.div Z.testbit Nat.eqb Z.of_nat].
    change (Z.lor b (Z.shiftl 1 (Z.of_nat (j mod 8)))) with (Z.setbit b (Z.of_nat (j mod 8))).
    rewrite Z.setbit_eqb, orb_comm by lia. f_equal. apply eq_bool_prop_intro.
    rewrite !Is_true_true, Z.eqb_eq, Nat.eqb_eq. split; [|by intros ->].
    intros Hm. rewrite (Nat.div_mod_eq i 8), (Nat.div_mod_eq j 8). lia.
  - rewrite list_lookup_alter_ne by done. destruct (Nat.eqb_spec i j) as [->|_]; [done|]. by rewrite orb_false_r.
Qed.

Lemma mark_nulls_length index vs bitmap : length (mark_nulls index vs bitmap) = length bitmap.
Proof. revert index bitmap. induction vs as [|v vs IH]; intros index bitmap; cbn; [done|]. rewrite IH. destruct (is_null v); [apply length_alter|done]. Qed.

Lemma mark_nulls_bits index vs bitmap i : (index + length vs <= 8 * length bitmap)%nat ->
  bit_of (mark_nulls index vs bitmap) i =
    bit_of bitmap i || (if (i <? index)%nat then false else from_option is_null false (vs !! (i - index)%nat)).
Proof.
  revert index bitmap. induction vs as [|v vs IH]; intros index bitmap Hl.
  - cbn [mark_nulls]. rewrite lookup_nil. cbn [from_option]. destruct (i <? index)%nat; by rewrite orb_false_r.
  - cbn [length mark_nulls] in *. rewrite IH by (destruct (is_null v); rewrite ?length_alter; lia).
    assert (E : bit_of (if is_null v then alter (fun b => Z.lor b (Z.shiftl 1 (Z.of_nat (index mod 8)))) (index / 8)%nat bitmap else bitmap) i
                = bit_of bitmap i || (is_null v && (i =? index)%nat)).
    { destruct (is_null v); [|by rewrite orb_false_r]. apply bit_of_mark. apply Nat.Div0.div_lt_upper_bound. lia. }
    rewrite E, <- orb_assoc. f_equal.
    destruct (Nat.eqb_spec i index) as [->|Hi].
    + rewrite (proj2 (Nat.ltb_lt _ _)), Nat.ltb_irrefl, Nat.sub_diag, andb_true_r by lia. cbn. by rewrite orb_false_r.
    + rewrite andb_false_r. cbn [orb]. destruct (Nat.ltb_spec i index) as [H|H].
      * by rewrite (proj2 (Nat.ltb_lt _ _)) by lia.
      * rewrite (proj2 (Nat.ltb_ge _ _)) by lia. by replace (i - index)%nat with (S (i - S index))%nat by lia.
Qed.

Lemma bit_of_zeros n i : bit_of (repeat 0 n) i = false.
Proof. unfold bit_of. rewrite nth_repeat. apply Z.bits_0. Qed.

Lemma div_ceil_enough n : (n <= 8 * div_ceil n 8)%nat.
Proof. unfold div_ceil. pose proof (Nat.div_mod_eq (n + 8 - 1) 8). pose proof (Nat.mod_upper_bound (n + 8 - 1) 8). lia. Qed.

(** A bitmap of zeros marked from [index] on has a bit for every NULL. *)
Lemma marked_bits index vs n i : (index + length vs <= n)%nat -> (i < length vs)%nat ->
  bit_of (mark_nulls index vs (repeat 0 (div_ceil n 8))) (index + i) = from_option is_null false (vs !! i).
Proof.
  intros Hn Hi. pose proof (div_ceil_enough n). rewrite mark_nulls_bits, bit_of_zeros by (rewrite repeat_length; lia).
  rewrite (proj2 (Nat.ltb_ge _ _)) by lia. by replace (index + i - index)%nat with i by lia.
Qed.

(** ** Rows *)

(** A binary row, from the protocol's description: the header, the bitmap two
    bits in, and the values that are not NULL. *)
Definition binary_row (vs : list Value) : list Z :=
  0x00 :: mark_nulls 2 vs (repeat 0 (div_ceil (length vs + 2) 8)) ++ concat (map encode_bind vs).

Definition cell_ok (column : Column) (v : Value) : Prop := v = Null \/ (value_ok v /\ column_for column v).

Lemma binary_row_loop_spec index bitmap columns vs r :
  (forall i, (i < length vs)%nat -> bit_of bitmap (index + 2 + i) = from_option is_null false (vs !! i)) ->
  Forall2 cell_ok columns vs ->
  binary_row_loop index bitmap columns (concat (map encode_bind vs) ++ r) = Ok (map echo vs).
Proof.
  intros Hb Hc. revert index Hb. induction Hc as [|col v columns vs Hv _ IH]; intros index Hb; [done|].
  cbn [binary_row_loop map concat]. pose proof (Hb 0%nat ltac:(cbn; lia)) as H0. rewrite Nat.add_0_r in H0.
  unfold bit_of in H0. rewrite H0. cbn [lookup list_lookup from_option].
  assert (IH' : binary_row_loop (S index) bitmap columns (concat (map encode_bind vs) ++ r) = Ok (map echo vs)).
  { apply IH. intros i Hi. change (vs !! i) with ((v :: vs) !! S i). rewrite <- Hb by (cbn; lia). f_equal. lia. }
  destruct (is_null v) eqn:En.
  - destruct v; try done. cbn [encode_bind app]. by rewrite IH'.
  - destruct Hv as [->|[Hv Hf]]; [done|]. rewrite <- app_assoc, decode_bound by (done || by intros ->). by rewrite IH'.
Qed.

Lemma binary_row_read_back columns vs : Forall2 cell_ok columns vs -> decode_binary_row (binary_row vs) columns = Ok (map echo vs).
Proof.
  intros Hc. pose proof (Forall2_length Hc) as Hl. unfold decode_binary_row, binary_row. rewrite Reader_skip_cons, Hl.
  rewrite Reader_take_app by (rewrite mark_nulls_length, repeat_length; done).
  rewrite <- (app_nil_r (concat _)). apply binary_row_loop_spec; [|done].
  intros i Hi. cbn [plus]. apply (marked_bits 2); lia.
Qed.

Lemma binary_row_no_marker vs : is_err (binary_row vs) = false /\ is_eof (binary_row vs) = false.
Proof. done. Qed.

(** ** The server's reading of an execute packet

    By the protocol: the statement, five bytes of cursor and iterations, a
    bitmap, the types, and the values that are not NULL in the types given. *)
Definition bound_column (type flag : Z) : Column :=
  mkColumn [] [] [] (if type =? BLOB then CHARSET_BINARY else CHARSET_UTF8MB4) 0 type (if has_flag flag 0x80 then UNSIGNED_FLAG else 0) 0.

Fixpoint server_types (n : nat) (r : Reader) : result MySqlError (list Column * Reader) :=
  match n with
  | O => Ok ([], r)
  | S n =>
      let? (type, r) := Reader_u8 r in
      let? (flag, r) := Reader_u8 r in
      let? (columns, r) := server_types n r in
      Ok (bound_column type flag :: columns, r)
  end.

Fixpoint server_values (index : nat) (bitmap : list Z) (columns : list Column) (r : Reader) : result MySqlError (list Value) :=
  match columns with
  | [] => Ok []
  | column :: columns =>
      let? (v, r) := if bit_of bitmap index then Ok (Null, r) else decode_binary column r in
      let? vs := server_values (S index) bitmap columns r in
      Ok (v :: vs)
  end.

Definition server_execute (n : nat) (payload : list Z) : result MySqlError (Z * list Value) :=
  let? r := Reader_skip 1 payload in
  let? (id, r) := Reader_u32 r in
  let? r := Reader_skip 5 r in
  let? (bitmap, r) := Reader_take (Z.of_nat (div_ceil n 8)) r in
  let? r := Reader_skip 1 r in
  let? (columns, r) := server_types n r in
  let? vs := server_values 0 bitmap columns r in
  Ok (id, vs).

Definition type_bytes (v : Value) : list Z :=
  let '(t, unsigned) := bind_type v in Buffer_u8 t ++ Buffer_u8 (if (unsigned : bool) then 0x80 else 0).

Lemma server_types_spec vs r :
  server_types (length vs) (concat (map type_bytes vs) ++ r) = Ok (map (fun v => bound_column (bind_type v).1 0) vs, r).
Proof.
  induction vs as [|v vs IH]; [done|]. cbn [length server_types map concat]. unfold type_bytes at 1.
  replace (bind_type v) with ((bind_type v).1, false) at 1 by (by destruct v).
  cbn [app Buffer_u8]. by rewrite !Reader_u8_cons, IH.
Qed.

Lemma bound_column_for v : column_for (bound_column (bind_type v).1 0) v.
Proof. by destruct v. Qed.

Lemma server_values_spec index bitmap vs r :
  (forall i, (i < length vs)%nat -> bit_of bitmap (index + i) = from_option is_null false (vs !! i)) -> Forall value_ok vs ->
  server_values index bitmap (map (fun v => bound_column (bind_type v).1 0) vs) (concat (map encode_bind vs) ++ r) = Ok (map echo vs).
Proof.
  intros Hb Hv. revert index Hb. induction Hv as [|v vs Hv _ IH]; intros index Hb; [done|].
  cbn [server_values map concat]. pose proof (Hb 0%nat ltac:(cbn; lia)) as H0. rewrite Nat.add_0_r in H0. rewrite H0.
  cbn [lookup list_lookup from_option].
  specialize (IH (S index) ltac:(intros i Hi; change (vs !! i) with ((v :: vs) !! S i); rewrite <- Hb by (cbn; lia); f_equal; lia)).
  destruct (is_null v) eqn:En.
  - destruct v; try done. cbn [encode_bind app]. by rewrite IH.
  - rewrite <- app_assoc, decode_bound by (done || apply bound_column_for || by intros ->). by rewrite IH.
Qed.

Lemma execute_read_back id vs : is_u32 id -> vs <> [] -> Forall value_ok vs ->
  server_execute (length vs) (com_stmt_execute id vs) = Ok (id, map echo vs).
Proof.
  intros Hid Hn Hv. unfold server_execute, com_stmt_execute, Buffer_u8, Buffer_u32. cbn [app]. rewrite Reader_skip_cons, Reader_u32_app by done.
  change (CURSOR_TYPE_NO_CURSOR :: to_le_bytes 4 1 ++ ?r) with (([CURSOR_TYPE_NO_CURSOR] ++ to_le_bytes 4 1) ++ r).
  rewrite Reader_skip_app by (rewrite length_app, to_le_bytes_length; done).
  destruct vs as [|v vs]; [done|]. set (l := v :: vs) in *.
  rewrite Reader_take_app by (rewrite mark_nulls_length, repeat_length; done).
  rewrite Reader_skip_cons. fold type_bytes. rewrite server_types_spec.
  rewrite <- (app_nil_r (concat (map encode_bind l))), server_values_spec; [done| |done].
  intros i Hi. apply (marked_bits 0); lia.
Qed.

End MySqlValues.
