(* ===== verification/MySqlSafety.v ===== *)
(** * The MySQL driver against any server

    Lemmas about conversations with a peer that may send anything: the loops end
    with the bytes, and every write is accounted for. *)

From S2P Require Import Prelude Text F64 Json JsonText Builder MySqlProtocol MySqlConnection MySqlProofs MySqlAnswers.
Import Value MySqlProtocol MySqlConnection MySqlProofs MySqlAnswers.

Module MySqlSafety.
#[local] Open Scope mysql_scope.

(** ** Pure parsing never runs out of fuel *)

Definition fine {A} (x : result MySqlError A) : Prop := x <> Err OutOfFuel.

Lemma fine_ok {A} (a : A) : fine (Ok a).
Proof. done. Qed.
Lemma fine_err {A B} e : @fine A (Err e) -> @fine B (Err e).
Proof. intros H [= ->]. by apply H. Qed.
Lemma fine_bind {A B} (x : result MySqlError A) (k : A -> result MySqlError B) :
  fine x -> (forall a, fine (k a)) -> fine (match x with Ok a => k a | Err e => Err e end).
Proof. unfold fine. intros Hx Hk. destruct x; [apply Hk|congruence]. Qed.

Create HintDb fine discriminated.
#[export] Hint Resolve fine_ok : fine.
Ltac fine_step :=
  match goal with
  | |- fine (Ok _) => apply fine_ok
  | |- fine (Err _) => discriminate
  | |- fine (match ?x with Ok _ => _ | Err _ => _ end) => apply fine_bind; [|intros ?]
  | |- fine (match ?x with pair _ _ => _ end) => destruct x
  | |- fine (if ?x then _ else _) => destruct x
  | |- fine (match ?x with nil => _ | cons _ _ => _ end) => destruct x
  | |- fine _ => solve [auto with fine]
  end.
Ltac solve_fine := cbv zeta; repeat fine_step.

Lemma fine_take n r : fine (Reader_take n r).
Proof. unfold Reader_take. solve_fine. Qed.
#[export] Hint Resolve fine_take : fine.
Lemma fine_skip n r : fine (Reader_skip n r).
Proof. unfold Reader_skip. solve_fine. Qed.
Lemma fine_u8 r : fine (Reader_u8 r).
Proof. unfold Reader_u8. solve_fine. Qed.
Lemma fine_u16 r : fine (Reader_u16 r).
Proof. unfold Reader_u16. solve_fine. Qed.
Lemma fine_u32 r : fine (Reader_u32 r).
Proof. unfold Reader_u32. solve_fine. Qed.
Lemma fine_u64 r : fine (Reader_u64 r).
Proof. unfold Reader_u64. solve_fine. Qed.
#[export] Hint Resolve fine_skip fine_u8 fine_u16 fine_u32 fine_u64 : fine.
Lemma fine_lenenc_int r : fine (Reader_lenenc_int r).
Proof. unfold Reader_lenenc_int. solve_fine. Qed.
#[export] Hint Resolve fine_lenenc_int : fine.
Lemma fine_lenenc_bytes r : fine (Reader_lenenc_bytes r).
Proof. unfold Reader_lenenc_bytes. solve_fine. Qed.
#[export] Hint Resolve fine_lenenc_bytes : fine.
Lemma fine_lenenc_bytes_or_null r : fine (Reader_lenenc_bytes_or_null r).
Proof. unfold Reader_lenenc_bytes_or_null. solve_fine. Qed.
Lemma fine_cstr_loop text r : fine (cstr_loop text r).
Proof. revert text. induction r as [|b r IH]; intros text; cbn [cstr_loop]; [done|]. solve_fine. Qed.
Lemma fine_cstr r : fine (Reader_cstr r).
Proof. apply fine_cstr_loop. Qed.
#[export] Hint Resolve fine_lenenc_bytes_or_null fine_cstr : fine.

Lemma fine_parse_ok p : fine (parse_ok p).
Proof. unfold parse_ok. solve_fine. Qed.
Lemma fine_parse_err p : fine (parse_err p).
Proof. unfold parse_err. solve_fine. Qed.
Lemma fine_parse_eof p : fine (parse_eof p).
Proof. unfold parse_eof. solve_fine. Qed.
Lemma fine_parse_column p : fine (parse_column p).
Proof. unfold parse_column. solve_fine. Qed.
Lemma fine_parse_prepare_ok p : fine (parse_prepare_ok p).
Proof. unfold parse_prepare_ok. solve_fine. Qed.
Lemma fine_parse_handshake p : fine (parse_handshake p).
Proof. unfold parse_handshake. solve_fine. Qed.
#[export] Hint Resolve fine_parse_ok fine_parse_err fine_parse_eof fine_parse_column fine_parse_prepare_ok fine_parse_handshake : fine.
Lemma fine_packet p : fine (Packet_parse p).
Proof. unfold Packet_parse. solve_fine. Qed.
Lemma fine_text_row_loop n r : fine (text_row_loop n r).
Proof. revert r. induction n as [|n IH]; intros r; cbn [text_row_loop]; [done|]. solve_fine. Qed.
Lemma fine_text_row p columns : fine (decode_text_row p columns).
Proof. unfold decode_text_row, parse_text_row. apply fine_bind; [apply fine_text_row_loop|done]. Qed.
Lemma fine_datetime r t : fine (decode_binary_datetime r t).
Proof. unfold decode_binary_datetime. solve_fine. Qed.
Lemma fine_time r : fine (decode_binary_time r).
Proof. unfold decode_binary_time. solve_fine. Qed.
#[export] Hint Resolve fine_packet fine_text_row fine_datetime fine_time : fine.
Lemma fine_decode_binary column r : fine (decode_binary column r).
Proof. unfold decode_binary. solve_fine. Qed.
#[export] Hint Resolve fine_decode_binary : fine.
Lemma fine_binary_row_loop index bitmap columns r : fine (binary_row_loop index bitmap columns r).
Proof. revert index r. induction columns as [|c columns IH]; intros index r; cbn [binary_row_loop]; [done|]. solve_fine. Qed.
Lemma fine_binary_row p columns : fine (decode_binary_row p columns).
Proof. unfold decode_binary_row. repeat fine_step; apply fine_binary_row_loop. Qed.
Lemma fine_fast_auth d : fine (fast_auth_status d).
Proof. unfold fast_auth_status. solve_fine. Qed.
Lemma fine_respond sha1 sha256 plugin pw d : fine (respond sha1 sha256 plugin pw d).
Proof. unfold respond, insecure_plugin_error. by repeat destruct (bool_decide _). Qed.
#[export] Hint Resolve fine_binary_row fine_fast_auth fine_respond : fine.

(** ** Conversations end *)

(** What comes in is bytes. *)
Definition octet_read (e : Read) : Prop := match e with Data chunk => bytes chunk | Failed => True end.
Definition octets (c : MySqlConnection) : Prop := bytes (buffer c) /\ Forall octet_read (incoming (stream c)).

(** From [c], [m] returns, and leaves no more to read than there was. *)
Definition ends_at {A} (m : M A) (c : MySqlConnection) : Prop :=
  octets c -> fine (m c).1 /\ (available (m c).2 <= available c)%nat /\ octets (m c).2.

Lemma ends_bind {A B} (m : M A) (k : A -> M B) c :
  ends_at m c -> (forall a c', m c = (Ok a, c') -> (available c' <= available c)%nat -> ends_at (k a) c') -> ends_at (bind m k) c.
Proof.
  intros Hm Hk Ho. specialize (Hm Ho). unfold bind. destruct (m c) as [[a|e] c'] eqn:E; cbn [fst snd] in *.
  - destruct Hm as (_ & Hl & Ho'). destruct (Hk a c' eq_refl Hl Ho') as (H1 & H2 & H3). split; [done|]. split; [lia|done].
  - destruct Hm as (H1 & H2 & H3). split; [|done]. by eapply fine_err.
Qed.

Lemma ends_ret {A} (a : A) c : ends_at (ret a) c.
Proof. done. Qed.
Lemma ends_fail {A} e c : e <> OutOfFuel -> ends_at (@fail A e) c.
Proof. intros He Ho. split; [|done]. unfold fine. cbn. by intros [= ->]. Qed.
Lemma ends_lift {A} (x : result MySqlError A) c : fine x -> ends_at (lift x) c.
Proof. intros Hx Ho. by split. Qed.
(** A change of the fields that have nothing to do with reading. *)
Lemma ends_modify f c : (forall c, buffer (f c) = buffer c /\ incoming (stream (f c)) = incoming (stream c)) -> ends_at (modify f) c.
Proof. intros Hf Ho. destruct (Hf c) as [Hb Hi]. unfold modify, available, octets. cbn [fst snd]. rewrite Hb, Hi. split; [done|]. split; [lia|exact Ho]. Qed.

Lemma fill_loop_ends wanted events buf : bytes buf -> Forall octet_read events ->
  let '(x, events', buf') := fill_loop wanted events buf in
  fine x /\ (length buf' + pending events' <= length buf + pending events)%nat /\ bytes buf' /\ Forall octet_read events' /\
  (x = Ok tt -> wanted <= Z.of_nat (length buf')).
Proof.
  revert buf. induction events as [|e events IH]; intros buf Hb He; cbn [fill_loop];
    destruct (wanted <=? Z.of_nat (length buf)) eqn:E.
  1, 3: by split_and!; [done|lia|done|done|lia].
  - by split_and!.
  - apply Forall_cons_iff in He as [H0 He]. destruct e as [[|b chunk]|].
    + by split_and!.
    + specialize (IH (buf ++ b :: chunk) ltac:(by apply bytes_app_2) He).
      destruct (fill_loop _ _ _) as [[x ev] bf]. rewrite length_app in IH. cbn [pending]. destruct IH as (H1 & H2 & H3 & H4 & H5).
      split_and!; [done|lia|done|done|done].
    + by split_and!.
Qed.

Lemma fill_to_ends wanted c : octets c ->
  ends_at (fill_to wanted) c /\ forall c', fill_to wanted c = (Ok tt, c') -> wanted <= Z.of_nat (length (buffer c')).
Proof.
  intros [Hb Hi]. unfold ends_at, fill_to.
  destruct (wanted <=? _) eqn:E; [split; [by intros Ho; split; [|split; [apply le_n|]]|intros c' [= <-]; by apply Z.leb_le]|].
  destruct (bool_decide _); [split; [by intros Ho; split; [|split; [apply le_n|]]|done]|].
  pose proof (fill_loop_ends wanted (incoming (stream c)) (buffer c) Hb Hi) as H.
  destruct (fill_loop _ _ _) as [[[[]|e] ev] bf]; destruct H as (H1 & H2 & H3 & H4 & H5).
  - split; [intros _; by split; [|split; [exact H2|]]|]. intros c' [= <-]. by apply H5.
  - split; [intros _; by split; [|split; [exact H2|]]|done].
Qed.

Lemma read_packet_loop_ends fuel acc c : octets c -> (available c < fuel)%nat ->
  ends_at (read_packet_loop fuel acc) c /\ forall p c', read_packet_loop fuel acc c = (Ok p, c') -> (available c' < available c)%nat.
Proof.
  revert acc c. induction fuel as [|fuel IH]; intros acc c Ho Hf; [lia|].
  cbn [read_packet_loop]. unfold ends_at, bind, get, modify. destruct (fill_to_ends 4 c Ho) as [H1 H1']. specialize (H1 Ho).
  destruct (fill_to 4 c) as [[[]|e] c1]; cbn [fst snd] in *; [|split; [intros _; split; [exact (fine_err _ (proj1 H1))|tauto]|done]]. specialize (H1' c1 eq_refl).
  destruct H1 as (_ & Hl1 & Ho1). set (n := from_le_bytes (take 3 (buffer c1) ++ [0])).
  assert (Hn : 0 <= n) by (apply from_le_bytes_bound, bytes_app_2; [apply bytes_take, Ho1|by repeat constructor]).
  destruct (fill_to_ends (4 + n) c1 Ho1) as [H2 H2']. specialize (H2 Ho1).
  destruct (fill_to (4 + n) c1) as [[[]|e] c2]; cbn [fst snd] in *; [|split; [intros _; split; [exact (fine_err _ (proj1 H2))|split; [lia|tauto]]|done]].
  specialize (H2' c2 eq_refl). destruct H2 as (_ & Hl2 & [Hb2 Hi2]).
  set (c3 := set_sequence _ _).
  assert (Ho3 : octets c3) by (split; [by apply bytes_drop|done]).
  assert (Hl3 : (available c3 < available c)%nat).
  { unfold available in *. cbn [buffer stream set_sequence set_buffer c3]. rewrite length_drop. lia. }
  destruct (n <? MAX_PAYLOAD).
  - split; [intros _; split; [done|split; [cbn [snd]; unfold ret; cbn [snd]; lia|exact Ho3]]|]. by intros p c' [= _ <-].
  - destruct (IH (acc ++ take (Z.to_nat n) (drop 4 (buffer c2))) c3 Ho3 ltac:(lia)) as [H3 H3'].
    split; [intros _; destruct (H3 Ho3) as (A1 & A2 & A3); split; [done|split; [lia|exact A3]]|].
    intros p c' E. specialize (H3' p c' E). lia.
Qed.

Lemma read_packet_ends c : ends_at read_packet c.
Proof. intros Ho. apply (read_packet_loop_ends (S (available c)) [] c Ho); [lia|done]. Qed.

(** A packet read is some bytes less to read. *)
Lemma ends_read {B} (k : list Z -> M B) c :
  (forall p c', (available c' < available c)%nat -> ends_at (k p) c') -> ends_at (bind read_packet k) c.
Proof.
  intros Hk Ho. apply ends_bind; [apply read_packet_ends| |done]. intros p c' E _. apply Hk.
  by apply (read_packet_loop_ends (S (available c)) [] c Ho ltac:(lia)) with p.
Qed.

Lemma write_packet_incoming p c :
  buffer (write_packet p c).2 = buffer c /\ incoming (stream (write_packet p c).2) = incoming (stream c) /\ fine (write_packet p c).1.
Proof.
  unfold write_packet, write_all, flush, outcome. destruct (frame p _) as [b n].
  destruct c as [[k i o l] bf cf id v ca st sq br]. destruct k, o as [|[] [|[] o]]; by split_and!.
Qed.

Lemma write_packet_ends p c : ends_at (write_packet p) c.
Proof.
  intros Ho. destruct (write_packet_incoming p c) as (H1 & H2 & H3). unfold available, octets. rewrite H1, H2. split; [done|]. split; [lia|exact Ho].
Qed.

Lemma ends_get {B} (k : MySqlConnection -> M B) c : ends_at (k c) c -> ends_at (bind get k) c.
Proof. done. Qed.
Lemma ends_here {A} (m : nat -> M A) c : ends_at (m (S (available c))) c -> ends_at (fun c => m (S (available c)) c) c.
Proof. done. Qed.

(** The branch that reports a server's error. *)
Lemma ends_server_error {A} p f c : ends_at (let* e := lift (parse_err p) in @fail A (server_error e f c.1)) c.2.
Proof. apply ends_bind; [apply ends_lift; auto with fine|]. intros e c' _ _. by apply ends_fail. Qed.

Lemma skip_loop_ends n c : ends_at (skip_loop n) c.
Proof. revert c. induction n as [|n IH]; intros c; cbn [skip_loop]; [done|]. apply ends_read. intros p c' _. apply IH. Qed.

Lemma skip_metadata_ends n c : ends_at (skip_metadata n) c.
Proof.
  apply ends_bind; [apply skip_loop_ends|]. intros _ c' _ _. apply ends_read. intros p c'' _.
  destruct (negb _); [by apply ends_fail|done].
Qed.

Lemma columns_loop_ends fuel n c : (available c < fuel)%nat -> ends_at (columns_loop fuel n) c.
Proof.
  revert n c. induction fuel as [|fuel IH]; intros n c Hf; cbn [columns_loop]; destruct (n <=? 0); try done; [lia|].
  apply ends_read. intros p c1 H1. apply ends_bind; [apply ends_lift; auto with fine|]. intros col c2 [= _ <-] _.
  apply ends_bind; [apply IH; lia|]. done.
Qed.

Lemma read_columns_ends n c : ends_at (read_columns n) c.
Proof.
  unfold read_columns. destruct (_ <? _); [by apply ends_fail|].
  apply ends_bind; [apply (ends_here (fun f => columns_loop f n)), columns_loop_ends; lia|]. intros cols c1 _ _.
  apply ends_read. intros p c2 _. destruct (negb _); [by apply ends_fail|done].
Qed.

Lemma rows_loop_ends fuel cols binary c : (available c < fuel)%nat -> ends_at (rows_loop fuel cols binary) c.
Proof.
  revert c. induction fuel as [|fuel IH]; intros c Hf; [lia|]. cbn [rows_loop].
  apply ends_read. intros p c1 H1. apply ends_get. destruct (is_err p); [apply (ends_server_error p _ (None, c1))|].
  destruct (is_eof p).
  - apply ends_bind; [apply ends_lift; auto with fine|]. intros eof c2 _ _. apply ends_bind; [by apply ends_modify|]. done.
  - apply ends_bind; [apply ends_lift; destruct binary; auto with fine|]. intros vs c2 [= _ <-] _.
    apply ends_bind; [apply IH; lia|]. by intros [rows st] c3 _ _.
Qed.

Lemma read_rows_ends cols binary into c : ends_at (read_rows cols binary into) c.
Proof.
  apply ends_bind; [apply (ends_here (fun f => rows_loop f cols binary)), rows_loop_ends; lia|]. by intros [rows st] c1 _ _.
Qed.

Lemma result_set_loop_ends fuel sql binary first result c :
  (available c < fuel)%nat -> ends_at (result_set_loop fuel sql binary first result) c.
Proof.
  revert first result c. induction fuel as [|fuel IH]; intros first result c Hf; [lia|]. cbn [result_set_loop].
  apply ends_read. intros p c1 H1. apply ends_get. destruct (is_err p); [apply (ends_server_error p _ (Some sql, c1))|].
  destruct (bool_decide _).
  - apply ends_bind; [apply ends_lift; auto with fine|]. intros ok c2 [= _ <-] _.
    apply ends_bind; [by apply ends_modify|]. intros _ c3 _ H3. destruct (has_flag _ _); [apply IH; lia|done].
  - apply ends_bind; [apply ends_lift; auto with fine|]. intros [n r] c2 [= _ <-] _.
    apply ends_bind; [apply read_columns_ends|]. intros cols c3 _ H3.
    apply ends_bind; [apply read_rows_ends|]. intros [more into] c4 _ H4. destruct more; [apply IH; lia|done].
Qed.

Lemma read_result_set_ends sql binary c : ends_at (read_result_set sql binary) c.
Proof. apply (ends_here (fun f => result_set_loop f sql binary true empty_result)), result_set_loop_ends. lia. Qed.

Lemma ends_restart {B} (k : unit -> M B) c : (forall c, ends_at (k tt) c) -> ends_at (bind (modify (set_sequence 0)) k) c.
Proof. intros Hk. apply ends_bind; [by apply ends_modify|]. by intros [] c1 _ _. Qed.

Lemma ends_write {B} p (k : unit -> M B) c : (forall c, ends_at (k tt) c) -> ends_at (bind (write_packet p) k) c.
Proof. intros Hk. apply ends_bind; [apply write_packet_ends|]. by intros [] c1 _ _. Qed.

Lemma simple_query_ends sql c : ends_at (simple_query sql) c.
Proof. apply ends_restart. intros c1. apply ends_write. intros c2. apply read_result_set_ends. Qed.

Lemma prepare_ends sql c : ends_at (prepare sql) c.
Proof.
  apply ends_restart. intros c1. apply ends_write. intros c2. apply ends_read. intros p c3 _. apply ends_get.
  destruct (is_err p); [apply (ends_server_error p _ (Some sql, c3))|].
  apply ends_bind; [apply ends_lift; auto with fine|]. intros ok c4 _ _.
  apply ends_bind; [destruct (_ <? _); [apply skip_metadata_ends|done]|]. intros _ c5 _ _.
  apply ends_bind; [destruct (_ <? _); [apply skip_metadata_ends|done]|]. done.
Qed.

Lemma close_statement_ends id c : ends_at (close_statement id) c.
Proof. apply ends_restart. intros c1. apply write_packet_ends. Qed.

(** An error caught is passed on later; it is not the model's. *)
Lemma ends_attempt {A B} (m : M A) (k : result MySqlError A -> M B) c :
  ends_at m c -> (forall x c', fine x -> ends_at (k x) c') -> ends_at (bind (attempt m) k) c.
Proof.
  intros Hm Hk Ho. specialize (Hm Ho). unfold bind, attempt. destruct (m c) as [x c1]. cbn [fst snd] in *.
  destruct Hm as (Hx & Hl & Ho1). destruct (Hk x c1 Hx Ho1) as (H1 & H2 & H3). split; [done|]. split; [lia|done].
Qed.

Lemma query_ends sql bound c : ends_at (query sql bound) c.
Proof.
  apply ends_bind; [apply prepare_ends|]. intros p c1 _ _. destruct (negb _).
  - apply ends_bind; [apply close_statement_ends|]. intros [] c2 _ _. by apply ends_fail.
  - apply ends_restart. intros c2. apply ends_attempt.
    + apply ends_write. intros c3. apply read_result_set_ends.
    + intros x c3 Hx. apply ends_bind; [apply close_statement_ends|]. intros [] c4 _ _. by apply ends_lift.
Qed.

Lemma ping_ends c : ends_at ping c.
Proof.
  apply ends_restart. intros c1. apply ends_write. intros c2. apply ends_read. intros p c3 _. apply ends_get.
  apply ends_bind; [apply ends_lift; auto with fine|]. intros [] c4 _ _; try by apply ends_fail. by apply ends_modify.
Qed.

Section Handshake.
Context (sha1 sha256 : list Z -> list Z) (upgrade : DatabaseConfig -> result (list Z) (list Read * list bool)).

Lemma authenticate_ends fuel plugin c : (available c < fuel)%nat -> ends_at (authenticate sha1 sha256 fuel plugin) c.
Proof.
  assert (Hb : forall A e c, e <> OutOfFuel -> ends_at (modify set_broken;; @fail A e) c).
  { intros A e c' He. apply ends_bind; [by apply ends_modify|]. intros _ c1 _ _. by apply ends_fail. }
  revert plugin c. induction fuel as [|fuel IH]; intros plugin c Hf; [lia|]. cbn [authenticate].
  apply ends_read. intros p c1 H1. apply ends_get. apply ends_bind; [apply ends_lift; auto with fine|].
  intros packet c2 [= _ <-] _. destruct packet as [ok|e|eof|wanted data|data|other]; try by apply Hb.
  - by apply ends_modify.
  - destruct (negb _); [apply Hb; unfold insecure_plugin_error; by repeat destruct (bool_decide _)|].
    apply ends_bind; [apply ends_lift; auto with fine|]. intros r c3 [= _ <-] _.
    apply ends_bind; [apply write_packet_ends|]. intros _ c4 _ H4. apply IH. lia.
  - destruct (bool_decide _); [|by apply Hb]. apply ends_bind; [apply ends_lift; auto with fine|].
    intros verdict c3 [= _ <-] _. destruct verdict; [apply IH; lia|]. destruct (is_encrypted _); [|by apply Hb].
    apply ends_bind; [apply write_packet_ends|]. intros _ c4 _ H4. apply IH. lia.
Qed.

(** The upgrade brings other bytes to read, so only the end is claimed. *)
Definition fine_at {A} (m : M A) (c : MySqlConnection) : Prop := octets c -> fine (m c).1 /\ octets (m c).2.

Lemma ends_fine {A} (m : M A) c : ends_at m c -> fine_at m c.
Proof. intros Hm Ho. by destruct (Hm Ho) as (H1 & _ & H3). Qed.

Lemma fine_at_bind {A B} (m : M A) (k : A -> M B) c :
  fine_at m c -> (forall a c', m c = (Ok a, c') -> fine_at (k a) c') -> fine_at (bind m k) c.
Proof.
  intros Hm Hk Ho. specialize (Hm Ho). unfold bind. destruct (m c) as [[a|e] c'] eqn:E; cbn [fst snd] in *.
  - apply (Hk a c' eq_refl), Hm.
  - split; [exact (fine_err _ (proj1 Hm))|by apply Hm].
Qed.

Lemma fine_at_get {B} (k : MySqlConnection -> M B) c : fine_at (k c) c -> fine_at (bind get k) c.
Proof. done. Qed.

(** Bytes come out of the encrypted stream too. *)
Definition upgrade_octets : Prop :=
  forall cfg incoming outcomes, upgrade cfg = Ok (incoming, outcomes) -> Forall octet_read incoming.

Lemma negotiate_fine caps server c : upgrade_octets -> fine_at (negotiate_tls upgrade caps server) c.
Proof.
  intros Hu. apply fine_at_get. cbv zeta.
  destruct (negb _); [apply ends_fine, ends_ret|]. destruct (negb _).
  { destruct (demands_tls _); [|apply ends_fine, ends_ret]. apply ends_fine, ends_bind; [by apply ends_modify|]. intros _ c1 _ _. by apply ends_fail. }
  apply fine_at_bind; [apply ends_fine, write_packet_ends|]. intros _ c1 _. intros [Hb Hi].
  unfold bind, get, take_plain, modify, lift. destruct (kind (stream c1)); cbn [fst snd]; [|by split|by split].
  destruct (upgrade (config c1)) as [[inc out]|why] eqn:E; cbn [fst snd]; [|by split]. split; [done|].
  split; [done|]. by apply (Hu _ _ _ E).
Qed.

Lemma handshake_fine c : upgrade_octets -> fine_at (handshake sha1 sha256 upgrade) c.
Proof.
  intros Hu. unfold handshake. apply fine_at_bind; [apply ends_fine, read_packet_ends|]. intros greeting c1 _.
  apply fine_at_get. destruct (is_err greeting).
  { apply ends_fine, ends_bind; [by apply ends_modify|]. intros _ c4 _ _. apply (ends_server_error greeting _ (None, c4)). }
  apply fine_at_bind; [apply ends_fine, ends_lift; auto with fine|]. intros hs c4 _.
  apply fine_at_bind; [by apply ends_fine, ends_modify|]. intros _ c5 _.
  apply fine_at_bind; [by apply negotiate_fine|]. intros caps c6 _.
  apply fine_at_bind; [by apply ends_fine, ends_modify|]. intros _ c7 _. cbv zeta. destruct (negb _).
  { apply ends_fine, ends_bind; [by apply ends_modify|]. intros _ c8 _ _. apply ends_fail.
    unfold insecure_plugin_error. by repeat destruct (bool_decide _). }
  apply fine_at_bind; [apply ends_fine, ends_lift; auto with fine|]. intros r c8 _.
  apply fine_at_bind; [apply ends_fine, write_packet_ends|]. intros _ c9 _.
  apply ends_fine. apply (ends_here (fun f => authenticate sha1 sha256 f _)), authenticate_ends. lia.
Qed.

(** ** What is sent *)

(** What the password may be answered with: nothing when there is none, and
    otherwise a digest of it salted with a nonce of the server's, as one of the two
    plugins that digest it defines it. *)
Definition digested (plugin pw d : list Z) : Prop :=
  (plugin = lit "mysql_native_password" /\ pw = [] /\ d = []) \/
  (plugin = lit "caching_sha2_password" /\ pw = [] /\ d = []) \/
  (exists nonce, plugin = lit "mysql_native_password" /\ pw <> [] /\
     d = zip_with Z.lxor (sha1 pw) (sha1 (nonce ++ sha1 (sha1 pw)))) \/
  (exists nonce, plugin = lit "caching_sha2_password" /\ pw <> [] /\
     d = zip_with Z.lxor (sha256 pw) (sha256 (sha256 (sha256 pw) ++ nonce))).

(** What may go out in clear when signing in: the request for TLS, and unless TLS
    is demanded such a digest, alone or with the names of the user, the database
    and the application. *)
Definition clear_payload (cfg : DatabaseConfig) (p : list Z) : Prop :=
  (exists caps, p = ssl_request caps) \/
  (demands_tls (tls_mode cfg) = false /\
   exists plugin d, digested plugin (password cfg) d /\
     (p = d \/
      exists caps, p = handshake_response caps (user cfg) d (Some (database cfg)) plugin
        [(lit "_client_name", lit "rustlavel"); (lit "program_name", application_name cfg)])).

Lemma respond_digested plugin pw nonce d : respond sha1 sha256 plugin pw nonce = Ok d -> digested plugin pw d.
Proof.
  unfold respond, digested. destruct (bool_decide_reflect (plugin = MYSQL_NATIVE_PASSWORD)) as [->|_].
  - intros [= <-]. destruct pw as [|b pw]; [by left|]. do 2 right. left. by exists nonce.
  - destruct (bool_decide_reflect (plugin = CACHING_SHA2_PASSWORD)) as [->|_]; [|done].
    intros [= <-]. destruct pw as [|b pw]; [right; by left|]. do 3 right. by exists nonce.
Qed.

Definition entry_ok (cfg : DatabaseConfig) (w : DbStream * list Z) : Prop :=
  w.1 = Tls \/ exists p q, w.2 = (frame p q).1 /\ clear_payload cfg p.

(** Before and after the choice of a stream. *)
Definition guarded (cfg : DatabaseConfig) (c : MySqlConnection) : Prop :=
  config c = cfg /\ Forall (entry_ok cfg) (sent (stream c)).
Definition settled (cfg : DatabaseConfig) (c : MySqlConnection) : Prop :=
  guarded cfg c /\ (demands_tls (tls_mode cfg) = true -> kind (stream c) = Tls).

(** [m] keeps [I], whatever it returns. *)
Definition keeps (I : MySqlConnection -> Prop) {A} (m : M A) (c : MySqlConnection) : Prop := I c -> I (m c).2.

Lemma keeps_bind I {A B} (m : M A) (k : A -> M B) c :
  keeps I m c -> (forall a c', m c = (Ok a, c') -> I c' -> keeps I (k a) c') -> keeps I (bind m k) c.
Proof.
  intros Hm Hk Hc. specialize (Hm Hc). unfold bind. destruct (m c) as [[a|e] c'] eqn:E; cbn [snd] in *; [|done].
  by apply (Hk a c' eq_refl).
Qed.

(** The parts of the connection the invariants speak of. *)
Definition same (c c' : MySqlConnection) : Prop :=
  config c' = config c /\ sent (stream c') = sent (stream c) /\ kind (stream c') = kind (stream c).

Lemma same_trans c1 c2 c3 : same c1 c2 -> same c2 c3 -> same c1 c3.
Proof. unfold same. intros (-> & -> & ->) (-> & -> & ->). done. Qed.

Lemma settled_same cfg c c' : same c c' -> settled cfg c -> settled cfg c'.
Proof. unfold settled, guarded. by intros (-> & -> & ->). Qed.
Lemma guarded_same cfg c c' : same c c' -> guarded cfg c -> guarded cfg c'.
Proof. unfold guarded. by intros (-> & -> & _). Qed.

Lemma fill_to_same wanted c : same c (fill_to wanted c).2.
Proof.
  unfold fill_to. destruct (_ <=? _); [done|]. destruct (bool_decide _); [done|].
  by destruct (fill_loop _ _ _) as [[[] ev] bf].
Qed.

Lemma read_packet_same c : same c (read_packet c).2.
Proof.
  unfold read_packet. generalize (S (available c)), (@nil Z). intros fuel. revert c.
  induction fuel as [|fuel IH]; intros c acc; [done|]. cbn [read_packet_loop]. unfold bind at 1.
  pose proof (fill_to_same 4 c) as H1. destruct (fill_to 4 c) as [[u|e] c1]; [|done]. cbn [snd] in H1.
  unfold bind at 1, get at 1. cbv zeta. unfold bind at 1.
  set (n := from_le_bytes _). pose proof (fill_to_same (4 + n) c1) as H2.
  destruct (fill_to (4 + n) c1) as [[u'|e] c2]; cbn [snd] in H2; [|by eapply same_trans].
  unfold bind, get, modify. eapply same_trans; [exact H1|]. eapply same_trans; [exact H2|].
  destruct (n <? MAX_PAYLOAD); [done|].
  eapply (same_trans _ (set_sequence _ (set_buffer _ c2))); [done|]. apply IH.
Qed.

Lemma keeps_read cfg {B} (k : list Z -> M B) c :
  (forall p c', keeps (settled cfg) (k p) c') -> keeps (settled cfg) (bind read_packet k) c.
Proof.
  intros Hk. apply keeps_bind; [|by intros p c' _ _]. intros Hc. by eapply settled_same; [apply read_packet_same|].
Qed.

Lemma write_packet_adds p c : config (write_packet p c).2 = config c /\ kind (stream (write_packet p c).2) = kind (stream c) /\
  (sent (stream (write_packet p c).2) = sent (stream c) \/
   sent (stream (write_packet p c).2) = sent (stream c) ++ [(kind (stream c), (frame p (sequence c)).1)]).
Proof.
  unfold write_packet, write_all, flush, outcome. destruct (frame p (sequence c)) as [b n].
  destruct c as [[k i o l] bf cf id v ca st sq br]. destruct k, o as [|[] [|[] o]]; cbn; split_and!; auto.
Qed.

Lemma keeps_write cfg p c :
  (settled cfg c -> kind (stream c) = Tls \/ clear_payload cfg p) -> keeps (settled cfg) (write_packet p) c.
Proof.
  intros Hp [[Hc Hs] Hd]. specialize (Hp (conj (conj Hc Hs) Hd)). destruct (write_packet_adds p c) as (E1 & E2 & E3).
  unfold settled, guarded. rewrite E1, E2. split; [|done]. split; [done|].
  destruct E3 as [->| ->]; [done|]. apply Forall_app. split; [done|]. constructor; [|done].
  destruct Hp as [Hk|Hp]; [by left|]. right. by exists p, (sequence c).
Qed.

(** A digest may go out over any stream the settings left. *)
Lemma digest_clear cfg c p plugin nonce digest :
  respond sha1 sha256 plugin (password cfg) nonce = Ok digest ->
  (p = auth_response digest \/ exists caps, p = handshake_response caps (user cfg) digest (Some (database cfg)) plugin
     [(lit "_client_name", lit "rustlavel"); (lit "program_name", application_name cfg)]) ->
  settled cfg c -> kind (stream c) = Tls \/ clear_payload cfg p.
Proof.
  intros Hr He [_ Hd]. destruct (demands_tls (tls_mode cfg)) eqn:E; [left; by apply Hd|].
  right. right. split; [done|]. exists plugin, digest. split; [by eapply respond_digested|exact He].
Qed.

Lemma authenticate_keeps cfg fuel plugin c : keeps (settled cfg) (authenticate sha1 sha256 fuel plugin) c.
Proof.
  revert plugin c. induction fuel as [|fuel IH]; intros plugin c; [exact (fun H => H)|]. cbn [authenticate].
  apply keeps_read. intros p c1. apply keeps_bind; [exact (fun H => H)|]. intros c2 c3 [= <- <-] Hc.
  apply keeps_bind; [exact (fun H => H)|]. intros packet c4 [= _ <-] _. assert (Hcfg : config c1 = cfg) by apply Hc.
  destruct packet as [ok|e|eof|wanted data|data|other]; try exact (fun H => H).
  - destruct (is_supported wanted) eqn:Es; cbn [negb]; [|exact (fun H => H)].
    apply keeps_bind; [exact (fun H => H)|]. intros r c4 [= Hr <-] _. rewrite Hcfg in Hr.
    apply keeps_bind; [|by intros u c5 _ _]. apply keeps_write, (digest_clear cfg c1 _ wanted data r); auto.
  - destruct (bool_decide _); [|exact (fun H => H)]. apply keeps_bind; [exact (fun H => H)|]. intros verdict c4 [= _ <-] _.
    destruct verdict; [apply IH|]. destruct (is_encrypted (stream c1)) eqn:Ee; [|exact (fun H => H)].
    apply keeps_bind; [|by intros u c5 _ _]. apply keeps_write. intros _. left. by apply bool_decide_eq_true in Ee.
Qed.

(** What signing in leaves: nothing was given away, and a success is over a
    stream the settings allow. *)
Definition settles (cfg : DatabaseConfig) {A} (x : result MySqlError A * MySqlConnection) : Prop :=
  guarded cfg x.2 /\ match x.1 with Ok _ => settled cfg x.2 | Err _ => True end.

Lemma settles_err cfg {A} e c : guarded cfg c -> settles cfg (@pair (result MySqlError A) _ (Err e) c).
Proof. intros H. split; [exact H|done]. Qed.
Lemma settles_ok cfg {A} (a : A) c : settled cfg c -> settles cfg (@pair (result MySqlError A) _ (Ok a) c).
Proof. intros H. split; [apply H|exact H]. Qed.

Lemma negotiate_settles cfg caps server c : guarded cfg c -> settles cfg (negotiate_tls upgrade caps server c).
Proof.
  intros Hg. assert (Hcfg : config c = cfg) by apply Hg. unfold negotiate_tls. change (bind get ?k ?x) with (k x x). cbv beta zeta.
  rewrite Hcfg. destruct (wants_tls (tls_mode cfg)) eqn:Ew; cbn [negb].
  2: { apply settles_ok. split; [exact Hg|]. by destruct (tls_mode cfg). }
  destruct (has_flag server CLIENT_SSL); cbn [negb].
  2: { destruct (demands_tls (tls_mode cfg)) eqn:Ed; [by apply settles_err|]. apply settles_ok. split; [exact Hg|]. by rewrite Ed. }
  unfold bind at 1. destruct (write_packet_adds (ssl_request caps) c) as (E1 & E2 & E3).
  assert (Hg1 : guarded cfg (write_packet (ssl_request caps) c).2).
  { destruct Hg as [_ Hs]. unfold guarded. rewrite E1. split; [done|]. destruct E3 as [->| ->]; [done|].
    apply Forall_app. split; [done|]. constructor; [|done]. right. eexists _, _. split; [done|]. left. by eexists. }
  destruct (write_packet _ c) as [[u|e] c1]; cbn [snd] in *; [|by apply settles_err].
  unfold bind, get, take_plain, modify, lift. destruct (kind (stream c1)); cbn [fst snd]; [|by apply settles_err..].
  destruct (upgrade (config c1)) as [[inc out]|why]; cbn [fst snd]; [|by apply settles_err].
  apply settles_ok. split; [exact Hg1|done].
Qed.

Lemma handshake_settles cfg c : guarded cfg c -> settles cfg (handshake sha1 sha256 upgrade c).
Proof.
  intros Hg. unfold handshake. unfold bind at 1. pose proof (guarded_same cfg _ _ (read_packet_same c) Hg) as H1.
  destruct (read_packet c) as [[greeting|e] c1]; cbn [snd] in H1; [|by apply settles_err]. unfold bind at 1, get at 1. cbv beta iota.
  assert (Hcfg : config c1 = cfg) by apply H1. destruct (is_err greeting).
  { unfold bind, modify, lift. destruct (parse_err greeting); by apply settles_err. }
  unfold bind at 1, lift at 1. destruct (parse_handshake greeting) as [hs|e]; [|by apply settles_err].
  unfold bind at 1, modify at 1. cbv beta iota. unfold bind at 1.
  set (c2 := set_server _ _ c1).
  destruct (negotiate_settles cfg (wanted_capabilities (config c1) (capabilities hs)) (capabilities hs) c2 H1) as [H2 H2'].
  destruct (negotiate_tls _ _ _ c2) as [[caps|e] c3]; cbn [fst snd] in H2, H2'; [|by apply settles_err].
  unfold bind at 1, modify at 1. cbv beta iota zeta.
  set (plugin := if bool_decide _ then _ else _). set (c4 := set_caps caps c3).
  assert (H4 : settled cfg c4) by exact H2'. destruct (is_supported plugin) eqn:Es; cbn [negb]; [|apply settles_err, H4].
  unfold bind at 1, lift at 1. rewrite Hcfg in *. destruct (respond _ _ plugin _ _) as [digest|e] eqn:Er; [|apply settles_err, H4].
  match goal with |- settles cfg (?m c4) => assert (H5 : settled cfg (m c4).2) end.
  { revert H4. apply keeps_bind.
    - apply keeps_write, (digest_clear cfg c4 _ plugin (scramble hs) digest); eauto.
    - intros u c5 _ _. apply authenticate_keeps. }
  split; [apply H5|]. revert H5. match goal with |- settled _ (?m c4).2 -> _ => by destruct (m c4) as [[u|e] c5] end.
Qed.

End Handshake.

End MySqlSafety.
