(* ===== verification/MySqlTheorems.v ===== *)
(** * The MySQL driver: theorems

    What the driver reads is what was written, statement by statement; every
    conversation ends, whatever the server sends; and what leaves the machine in
    clear while it signs in. *)

From S2P Require Import Prelude Text F64 Json JsonText Builder MySqlProtocol MySqlConnection MySqlProofs MySqlAnswers MySqlValues MySqlSafety.
Import Value MySqlProtocol MySqlConnection MySqlProofs MySqlAnswers MySqlValues MySqlSafety.

Module MySqlTheorems.
#[local] Open Scope mysql_scope.

(** ** Reading back *)

Lemma deliverable_chunks chunks : Forall (fun c => c <> []) chunks -> deliverable (map Data chunks) = concat chunks.
Proof. induction 1 as [|[|b c] chunks Hc _ IH]; [done|done|]. cbn. by rewrite IH. Qed.

(** A packet is read back from its frames: whatever payload was framed, of any
    length and from any sequence number, and however the network cuts the bytes
    into reads, [read_packet] gives that payload, leaves exactly the bytes that
    came after it, and expects the sequence number the framing ended with. *)
Theorem mysql_packets_read_back payload q c chunks rest :
  kind (stream c) <> Closed -> incoming (stream c) = map Data chunks -> Forall (fun chunk => chunk <> []) chunks ->
  buffer c ++ concat chunks = (frame payload q).1 ++ rest ->
  exists c', read_packet c = (Ok payload, c') /\ inbox c' = rest /\ sequence c' = (frame payload q).2 /\
    broken c' = broken c /\ sent (stream c') = sent (stream c).
Proof.
  intros Hk Hin Hne Hb. assert (Hi : inbox c = (frame payload q).1 ++ rest).
  { unfold inbox. by rewrite (bool_decide_eq_false_2 _ Hk), Hin, deliverable_chunks. }
  destruct (read_packet_runs payload q c rest Hi) as (c' & E & Hs & Hr). exists c'.
  split_and!; [done|done|change (sequence (erase c') = (frame payload q).2)|change (broken (erase c') = broken c)
    |change (sent (stream (erase c')) = sent (stream c))]; by rewrite Hs.
Qed.

(** The settings of the samples below, and a connection that is signed in. *)
Definition sample_config (mode : TlsMode) : DatabaseConfig :=
  mkConfig (lit "db") 3306 (lit "ann") (lit "secret") (lit "shop") (lit "app") mode.
Definition ready (incoming : list Read) : MySqlConnection :=
  mkConn (mkSocket Plain incoming [] []) [] (sample_config Disable) 1 (lit "8.0") 0 2 0 false.

Lemma mysql_packets_read_back_witness :
  exists c', read_packet (ready (map Data [[3; 0]; [0; 1; 97; 98]; [99; 7; 8]])) = (Ok (lit "abc"), c') /\ inbox c' = [7; 8] /\ sequence c' = 2.
Proof.
  destruct (mysql_packets_read_back (lit "abc") 1 (ready (map Data [[3; 0]; [0; 1; 97; 98]; [99; 7; 8]])) [[3; 0]; [0; 1; 97; 98]; [99; 7; 8]] [7; 8])
    as (c' & H1 & H2 & H3 & _); [done|done|by repeat constructor|by vm_compute|]. by exists c'.
Defined.

(** ** Statements *)

(** Rows as the text protocol and the binary protocol carry them. *)
Definition text_answer (columns : list Column) (fields : list (list (option (list Z)))) (w st : Z) : Answer :=
  Rows columns (map (fun row => (text_row row, zip_with (fun raw column => decode_text column raw) row columns)) fields) w st.
Definition binary_answer (columns : list Column) (rows : list (list Value)) (w st : Z) : Answer :=
  Rows columns (map (fun vs => (binary_row vs, map echo vs)) rows) w st.
Definition columns_ok (columns : list Column) : Prop :=
  (0 < length columns)%nat /\ Z.of_nat (length columns) < 2 ^ 32 /\ Forall column_ok columns.

Lemma text_answer_ok columns fields w st :
  columns_ok columns -> Forall (fun row => length row = length columns /\ Forall field_ok row) fields -> is_u16 w -> is_u16 st ->
  answer_ok false (text_answer columns fields w st).
Proof.
  intros (Hn & Hl & Hc) Hf Hw Hs. split_and!; try done. apply List.Forall_map. revert Hf. apply Forall_impl.
  intros row [Hlen Hrow]. destruct (text_row_no_marker row) as [He Ho]; [by destruct row, columns; cbn in *; try lia|done|].
  split_and!; [done|done|]. unfold decode_text_row. cbn [fst snd]. by rewrite <- Hlen, text_row_app.
Qed.

Lemma binary_answer_ok columns rows w st :
  columns_ok columns -> Forall (Forall2 cell_ok columns) rows -> is_u16 w -> is_u16 st -> answer_ok true (binary_answer columns rows w st).
Proof.
  intros (Hn & Hl & Hc) Hr Hw Hs. split_and!; try done. apply List.Forall_map. revert Hr. apply Forall_impl.
  intros vs Hvs. destruct (binary_row_no_marker vs) as [He Ho]. split_and!; [done|done|]. by apply binary_row_read_back.
Qed.

(** The server status after a response. *)
Definition final_status (answers : list Answer) : Z := answer_status (List.last answers (Done (mkOk 0 0 0 0 []))).

(** A statement run as text gives the rows of its own answer: the columns by
    their names, every field decoded by its column and NULL apart from the empty
    string, or the count and generated key of an answer without rows. Further
    result sets of the same response are read to their end and dropped. The
    connection is left with exactly what the server sent after the response, and
    knows the transaction status the server ended it with. *)
Theorem mysql_text_query_in_step sql c a answers rest :
  speaks c -> chained (a :: answers) = true -> Forall (answer_ok false) (a :: answers) ->
  inbox c = (wire (all_packets (a :: answers)) (frame (com_query sql) 0).2).1 ++ rest ->
  (exists c', simple_query sql c = (Ok (answer_result a), c') /\ inbox c' = rest /\
     status c' = final_status (a :: answers) /\ broken c' = broken c /\
     sent (stream c') = sent (stream c) ++ [(kind (stream c), (frame (com_query sql) 0).1)]) /\
  (forall columns fields w st, columns_ok columns -> Forall (fun row => length row = length columns /\ Forall field_ok row) fields ->
     is_u16 w -> is_u16 st -> answer_ok false (text_answer columns fields w st)).
Proof.
  intros Hs Hc Ha Hi. split; [|apply text_answer_ok]. rewrite <- (sends_wrote _ _ (erase c)) in Hi.
  destruct (simple_query_runs sql c a answers rest Hs Hc Ha Hi) as (c' & E & He & Hr).
  destruct (afters_fields (a :: answers) (wrote (com_query sql) (set_sequence 0 (erase c)))) as (F1 & F2 & _).
  exists c'. split_and!; [done|done|change (status (erase c') = final_status (a :: answers))|change (broken (erase c') = broken c)
    |change (sent (stream (erase c')) = sent (stream c) ++ [(kind (stream c), (frame (com_query sql) 0).1)])]; rewrite He.
  - by rewrite afters_status.
  - by rewrite F2.
  - by rewrite F1.
Qed.

Definition sample_columns : list Column := [mkColumn (lit "id") (lit "id") (lit "t") 63 11 LONG 0 0; mkColumn (lit "s") (lit "s") (lit "t") 45 80 VAR_STRING 0 0].
Definition sample_text : Answer := text_answer sample_columns [[Some (lit "-7"); None]; [Some (lit "8"); Some []]] 0 10.
Definition sample_done : Answer := Done (mkOk 3 0 2 0 []).

Lemma sample_columns_ok : columns_ok sample_columns.
Proof. split_and!; [cbn; lia|done|]. repeat constructor; done. Qed.

Lemma mysql_text_query_in_step_witness :
  exists c', simple_query (lit "call p()") (ready [Data (wire (all_packets [sample_text; sample_done]) 1).1]) =
    (Ok (mkResult [mkRow [lit "id"; lit "s"] [Int (-7); Null]; mkRow [lit "id"; lit "s"] [Int 8; Text []]] 2 None), c') /\ inbox c' = [] /\ status c' = 2.
Proof.
  destruct (mysql_text_query_in_step (lit "call p()") (ready [Data (wire (all_packets [sample_text; sample_done]) 1).1]) sample_text [sample_done] [])
    as [(c' & H1 & H2 & H3 & _) _].
  - done.
  - by vm_compute.
  - constructor; [|by repeat constructor]. apply text_answer_ok; [apply sample_columns_ok| |done|done]. repeat constructor; done.
  - by vm_compute.
  - exists c'. split_and!; [rewrite H1; by vm_compute|done|done].
Defined.

(** A statement with bound values is prepared, executed and closed, whatever its
    answer: the three packets go out in that order, the first result is returned,
    the metadata and any further results are read past, and what the server sends
    after the response is left for the next statement. The text of the statement
    holds no value: they are only in the execute packet. *)
Theorem mysql_prepared_query_in_step sql bound c p param_defs column_defs w st a answers rest :
  speaks c -> prepared_ok p param_defs column_defs -> params p = Z.of_nat (length bound) ->
  chained (a :: answers) = true -> Forall (answer_ok true) (a :: answers) ->
  inbox c = (wire (prepared p param_defs column_defs w st) (frame (com_stmt_prepare sql) 0).2).1 ++
            (wire (all_packets (a :: answers)) (frame (com_stmt_execute (statement_id p) bound) 0).2).1 ++ rest ->
  (exists c', query sql bound c = (Ok (answer_result a), c') /\ inbox c' = rest /\
     status c' = final_status (a :: answers) /\ broken c' = broken c /\
     sent (stream c') = sent (stream c) ++
       map (fun payload => (kind (stream c), (frame payload 0).1))
         [com_stmt_prepare sql; com_stmt_execute (statement_id p) bound; com_stmt_close (statement_id p)]) /\
  (forall columns rows w st, columns_ok columns -> Forall (Forall2 cell_ok columns) rows -> is_u16 w -> is_u16 st ->
     answer_ok true (binary_answer columns rows w st)).
Proof.
  intros Hs Hp Hn Hc Ha Hi. split; [|apply binary_answer_ok].
  rewrite <- (sends_wrote _ _ (erase c)) in Hi.
  rewrite <- (sends_wrote _ _ (heard (prepared p param_defs column_defs w st) (wrote (com_stmt_prepare sql) (set_sequence 0 (erase c))))) in Hi.
  destruct (query_runs sql bound c p param_defs column_defs w st a answers rest Hs Hp Hn Hc Ha Hi) as (c' & E & He & Hr).
  set (s3 := wrote (com_stmt_execute (statement_id p) bound) (set_sequence 0 (heard (prepared p param_defs column_defs w st)
    (wrote (com_stmt_prepare sql) (set_sequence 0 (erase c)))))) in *.
  destruct (afters_fields (a :: answers) s3) as (F1 & F2 & _).
  destruct (erase_fields c') as (E1 & _ & E2 & E3). destruct (erase_fields c) as (D1 & D2 & _ & D3).
  destruct (wrote_fields (com_stmt_close (statement_id p)) (set_sequence 0 (afters (a :: answers) s3))) as (_ & _ & W2 & W3).
  destruct (wrote_fields (com_stmt_execute (statement_id p) bound) (set_sequence 0 (heard (prepared p param_defs column_defs w st)
    (wrote (com_stmt_prepare sql) (set_sequence 0 (erase c)))))) as (_ & _ & _ & V3).
  destruct (wrote_fields (com_stmt_prepare sql) (set_sequence 0 (erase c))) as (_ & _ & _ & U3).
  exists c'. split; [done|]. split; [done|]. split_and!.
  - rewrite <- E2, He, W2. change (status (afters (a :: answers) s3) = final_status (a :: answers)). by rewrite afters_status.
  - rewrite <- E3, He, W3. etransitivity; [apply F2|]. etransitivity; [apply V3|]. etransitivity; [apply U3|]. done.
  - rewrite <- E1, He, wrote_sent, F1. unfold s3. rewrite wrote_sent, wrote_kind, (proj1 (heard_fields _ _)), wrote_sent, wrote_kind.
    rewrite D1, D2, <- !app_assoc. done.
Qed.

Definition sample_prepared : PrepareOk := mkPrepareOk 9 2 1 0.
Definition sample_binary : Answer := binary_answer [mkColumn (lit "n") [] [] 63 20 LONGLONG 0 0; mkColumn (lit "s") [] [] 45 80 VAR_STRING 0 0]
  [[Int (-7); Text (lit "x")]; [Null; Null]] 0 3.

Lemma mysql_prepared_query_in_step_witness :
  let c := ready [Data (wire (prepared sample_prepared [[0]] [[0]; [0]] 0 2) 1).1; Data (wire (all_packets [sample_binary]) 1).1; Data [5]] in
  exists c', query (lit "select ?") [Bool true] c = (Ok (answer_result sample_binary), c') /\ inbox c' = [5] /\ in_transaction c' = true.
Proof.
  intros c. destruct (mysql_prepared_query_in_step (lit "select ?") [Bool true] c sample_prepared [[0]] [[0]; [0]] 0 2 sample_binary [] [5])
    as [(c' & H1 & H2 & H3 & _) _].
  - done.
  - done.
  - done.
  - by vm_compute.
  - constructor; [|done]. apply binary_answer_ok; [split_and!; [cbn; lia|done|by repeat constructor]| |done|done].
    constructor; [|constructor; [|done]]; constructor; [by right|constructor; [by right|done]|by left|constructor; [by left|done]].
  - by vm_compute.
  - exists c'. split_and!; [done|done|]. unfold in_transaction. by rewrite H3.
Defined.

(** ** Values *)

(** Bound values arrive as they are. Read by the layout of the protocol (a bitmap of
    the NULLs, the types, then the values in those types) an execute packet holds
    its statement and its values, whatever they are: integers to the bit, doubles
    to the bit, text and bytes whole, booleans as 0 and 1 and JSON as its text. And
    a row of the binary protocol that holds such values is decoded to them, its
    bitmap two bits further on. *)
Theorem mysql_values_read_back id vs :
  is_u32 id -> vs <> [] -> Forall value_ok vs ->
  server_execute (length vs) (com_stmt_execute id vs) = Ok (id, map echo vs) /\
  forall columns, Forall2 cell_ok columns vs -> decode_binary_row (binary_row vs) columns = Ok (map echo vs).
Proof. intros Hid Hn Hv. split; [by apply execute_read_back|]. intros columns Hc. by apply binary_row_read_back. Qed.

Lemma mysql_values_read_back_witness :
  server_execute 5 (com_stmt_execute 7 [Int (-2 ^ 63); Null; Bool true; Float (f64_div (f64_of_Z 1) (f64_of_Z 3)); Text (lit "x'; --")]) =
    Ok (7, [Int (-2 ^ 63); Null; Int 1; Float (f64_div (f64_of_Z 1) (f64_of_Z 3)); Text (lit "x'; --")]).
Proof.
  apply (mysql_values_read_back 7 [Int (-2 ^ 63); Null; Bool true; Float (f64_div (f64_of_Z 1) (f64_of_Z 3)); Text (lit "x'; --")]); [done|done|].
  repeat constructor; try done; by vm_compute.
Defined.

(** ** Any server *)

(** C29. Every conversation ends: whatever bytes a server sends, in whatever pieces,
    before and after an upgrade, and whatever becomes of the writes, signing in,
    statements of both kinds and a ping return a result or an error. The loops
    over frames, columns, rows, result sets and authentication packets have no
    bound of their own in the code; here they run on the bytes there are to read,
    and those are shown to be enough. *)
Theorem mysql_conversations_end sha1 sha256 upgrade c :
  upgrade_octets upgrade -> octets c ->
  (handshake sha1 sha256 upgrade c).1 <> Err OutOfFuel /\ (ping c).1 <> Err OutOfFuel /\
  (forall sql, (simple_query sql c).1 <> Err OutOfFuel) /\ (forall sql bound, (query sql bound c).1 <> Err OutOfFuel).
Proof.
  intros Hu Ho. split_and!; [by apply handshake_fine|by apply ping_ends|intros sql|intros sql bound].
  - by apply simple_query_ends.
  - by apply query_ends.
Qed.

Lemma mysql_conversations_end_witness : (query (lit "select ?") [Null] (ready [Data [1; 0; 0]; Data [1; 0; 255]; Failed])).1 <> Err OutOfFuel.
Proof.
  apply (mysql_conversations_end (fun x => x) (fun x => x) (fun _ => Err []) (ready [Data [1; 0; 0]; Data [1; 0; 255]; Failed])).
  - intros cfg i o [=].
  - split; [apply bytes_nil|]. repeat constructor; done.
Defined.

(** C27. The password does not leave in clear. Whatever the server sends while the
    driver signs in, all that is written to the socket outside TLS is the request
    for TLS and, unless the settings demand TLS, answers in which the password is
    only the salted SHA-1 or SHA-256 digest of [mysql_native_password] or
    [caching_sha2_password], whichever plugin the server asks for: nothing but the
    digest, or with it the names of the user, of the database and of the
    application, which are in clear then. With a mode that demands TLS only the
    request is, and a connection that was accepted is encrypted. *)
Theorem mysql_password_stays_inside sha1 sha256 upgrade cfg incoming outcomes :
  let '(x, c) := connect sha1 sha256 upgrade cfg incoming outcomes in
  Forall (fun w => w.1 = Tls \/ exists p q, w.2 = (frame p q).1 /\ clear_payload sha1 sha256 cfg p) (sent (stream c)) /\
  (demands_tls (tls_mode cfg) = true -> x = Ok tt -> is_encrypted (stream c) = true).
Proof.
  pose proof (handshake_settles sha1 sha256 upgrade cfg (fresh cfg incoming outcomes)) as H. unfold connect.
  destruct (handshake _ _ _ _) as [x c]. destruct H as [[_ Hs] Hx]; [split; [done|constructor]|]. split; [exact Hs|].
  intros Hd ->. cbn in Hx. by apply bool_decide_eq_true, Hx.
Qed.

(** ** The upgrade *)

Lemma fill_to_taken wanted c : incoming (stream c) = [] -> incoming (stream (fill_to wanted c).2) = [].
Proof.
  intros Hi. unfold fill_to. destruct (_ <=? _); [done|]. destruct (bool_decide _); [done|]. rewrite Hi. cbn [fill_loop].
  by destruct (_ <=? _).
Qed.

Lemma read_loop_taken fuel acc c : incoming (stream c) = [] -> incoming (stream (read_packet_loop fuel acc c).2) = [].
Proof.
  revert acc c. induction fuel as [|fuel IH]; intros acc c Hi; [done|]. cbn [read_packet_loop]. unfold bind at 1.
  pose proof (fill_to_taken 4 c Hi) as H1. destruct (fill_to 4 c) as [[u|e] c1]; [|done]. cbn [snd] in H1.
  unfold bind at 1, get at 1. cbv zeta. unfold bind at 1. set (n := from_le_bytes _).
  pose proof (fill_to_taken (4 + n) c1 H1) as H2. destruct (fill_to (4 + n) c1) as [[u'|e] c2]; cbn [snd] in H2; [|done].
  unfold bind, get, modify. destruct (n <? MAX_PAYLOAD); [done|]. by apply IH.
Qed.

(** A single read brings all there is, so the first packet takes it whole. *)
Lemma first_read_taken c chunk : kind (stream c) <> Closed -> buffer c = [] -> incoming (stream c) = [Data chunk] ->
  incoming (stream (read_packet c).2) = [].
Proof.
  intros Hk Hb Hi. unfold read_packet.
  assert (E : incoming (stream (fill_to 4 c).2) = []).
  { unfold fill_to. rewrite Hb, (bool_decide_eq_false_2 _ Hk), Hi. change (4 <=? Z.of_nat (length [])) with false. cbn [fill_loop].
    change (4 <=? Z.of_nat (length [])) with false. cbv iota. destruct chunk as [|b chunk]; [done|].
    by destruct (4 <=? Z.of_nat (length ([] ++ b :: chunk))). }
  cbn [read_packet_loop]. unfold bind at 1. destruct (fill_to 4 c) as [[u|e] c1]; [|done]. cbn [snd] in E.
  unfold bind at 1, get at 1. cbv zeta. unfold bind at 1. set (n := from_le_bytes _).
  pose proof (fill_to_taken (4 + n) c1 E) as H2. destruct (fill_to (4 + n) c1) as [[u'|e] c2]; cbn [snd] in H2; [|done].
  unfold bind, get, modify. destruct (n <? MAX_PAYLOAD); [done|]. by apply read_loop_taken.
Qed.

Lemma deliverable_one chunk : deliverable [Data chunk] = chunk.
Proof. destruct chunk; [done|]. cbn. by rewrite app_nil_r. Qed.

(** A greeting that offers TLS, and a packet that says the sign-in succeeded. *)
Definition greeting : list Z :=
  [10] ++ lit "8" ++ [0; 1; 0; 0; 0; 1; 2; 3; 4; 5; 6; 7; 8; 0; 0; 0x8A; 45; 2; 0; 8; 0; 21] ++ repeat 0 10 ++ repeat 9 12 ++ [0] ++
  MYSQL_NATIVE_PASSWORD ++ [0].
Definition greeted : Handshake :=
  mkHandshake (lit "8") 1 [1; 2; 3; 4; 5; 6; 7; 8; 9; 9; 9; 9; 9; 9; 9; 9; 9; 9; 9; 9] 0x88A00 45 2 MYSQL_NATIVE_PASSWORD.
Definition welcome : list Z := ok_packet (mkOk 0 0 2 0 []).

(** A server that agrees to TLS, and an encrypted stream that brings nothing. *)
Lemma negotiate_upgrades caps server c :
  kind (stream c) = Plain -> outcomes (stream c) = [] -> wants_tls (tls_mode (config c)) = true -> has_flag server CLIENT_SSL = true ->
  exists l, negotiate_tls (fun _ => Ok ([], [])) caps server c =
    (Ok (Z.lor caps CLIENT_SSL), set_stream (mkSocket Tls [] [] l) (wrote (ssl_request caps) c)).
Proof.
  intros Hk Ho Hw Hf. unfold negotiate_tls. change (bind get ?k ?x) with (k x x). cbv beta zeta. rewrite Hw, Hf. cbn [negb].
  unfold bind at 1. rewrite write_packet_spec by (split; [by rewrite Hk|done]). unfold bind, get, take_plain, modify, lift.
  rewrite (proj1 (proj2 (wrote_fields _ _))), Hk. cbn [fst snd]. eexists. reflexivity.
Qed.

(** The accepting packet ends the sign-in. *)
Lemma authenticate_welcomed sha1 sha256 fuel plugin c q rest : inbox c = (frame welcome q).1 ++ rest ->
  exists s, runs (authenticate sha1 sha256 (S fuel) plugin) c tt s rest /\ kind (stream s) = kind (stream c).
Proof.
  intros Hi. destruct (read_packet_runs welcome q c rest Hi) as (c1 & E & Hs & Hr). exists (set_status 2 (erase c1)). split.
  - exists (set_status 2 c1). split; [|done]. cbn [authenticate]. unfold bind at 1. rewrite E. done.
  - rewrite Hs. done.
Qed.

(** Bytes that came in clear are read as if they had come through TLS. The buffer is
    kept across the upgrade: when the segment that holds the server's greeting has
    more in it, an accepting packet and then anything at all, then in every mode
    that uses TLS, [verify-full] too, the driver takes the sign-in for successful
    though the encrypted stream has not brought one byte, and what it will read as
    the answers to its first statements is what was put there in clear. *)
Theorem clear_bytes_cross_the_upgrade sha1 sha256 cfg injected :
  wants_tls (tls_mode cfg) = true ->
  exists c', connect sha1 sha256 (fun _ => Ok ([], [])) cfg [Data ((wire [greeting; welcome] 0).1 ++ injected)] [] = (Ok tt, c') /\
    is_encrypted (stream c') = true /\ inbox c' = injected.
Proof.
  intros Hw. unfold connect. set (c0 := fresh cfg _ _).
  assert (Hi0 : inbox c0 = (frame greeting 0).1 ++ (frame welcome 1).1 ++ injected).
  { unfold c0, inbox, fresh. cbn [stream kind buffer incoming]. rewrite bool_decide_eq_false_2, deliverable_one by done.
    rewrite app_assoc. by replace (wire [greeting; welcome] 0).1 with ((frame greeting 0).1 ++ (frame welcome 1).1) by (by vm_compute). }
  destruct (read_packet_runs greeting 0 c0 _ Hi0) as (c1 & E & Hs & Hi1).
  pose proof (first_read_taken c0 _ ltac:(done) eq_refl eq_refl) as Ht. rewrite E in Ht. cbn [snd] in Ht.
  assert (Hst : kind (stream c1) = Plain /\ outcomes (stream c1) = [] /\ config c1 = cfg).
  { change (kind (stream (erase c1)) = Plain /\ outcomes (stream (erase c1)) = [] /\ config (erase c1) = cfg). by rewrite Hs. }
  destruct Hst as (Hk & Ho & Hcfg).
  assert (Hb : buffer c1 = (frame welcome 1).1 ++ injected).
  { unfold inbox in Hi1. rewrite Hk, Ht in Hi1. cbn in Hi1. by rewrite app_nil_r in Hi1. }
  cut (exists s, runs (handshake sha1 sha256 (fun _ => Ok ([], []))) c0 tt s injected /\ kind (stream s) = Tls).
  { intros (s & (c' & H1 & H2 & H3) & H4). exists c'. split_and!; [done| |done]. apply bool_decide_eq_true.
    change (kind (stream (erase c')) = Tls). by rewrite H2. }
  unfold handshake, runs. unfold bind at 1. rewrite E. unfold bind at 1, get at 1. cbv beta iota.
  change (is_err greeting) with false. cbv iota. unfold bind at 1, lift at 1.
  replace (parse_handshake greeting) with (@Ok MySqlError _ greeted) by (by vm_compute).
  unfold bind at 1, modify at 1. cbv beta iota. rewrite Hcfg. unfold bind at 1.
  destruct (negotiate_upgrades (wanted_capabilities cfg (capabilities greeted)) (capabilities greeted)
    (set_server (connection_id greeted) (server_version greeted) c1)) as [l ->]; [done|done|by cbn; rewrite Hcfg|done|].
  set (c2 := set_stream _ _). set (caps := Z.lor _ CLIENT_SSL).
  unfold bind at 1, modify at 1. cbv beta iota zeta. rewrite bool_decide_eq_false_2 by done.
  change (is_supported (auth_plugin greeted)) with true. cbn [negb].
  change (respond sha1 sha256 (auth_plugin greeted) (password cfg) (scramble greeted))
    with (@Ok MySqlError _ (native_password sha1 (password cfg) (scramble greeted))).
  unfold bind at 1, lift at 1. unfold bind at 1. rewrite write_packet_spec by done.
  set (c3 := wrote _ _). apply (authenticate_welcomed sha1 sha256 (available c3) _ c3 1 injected).
  unfold c3. rewrite inbox_wrote. unfold c2, inbox. cbn [buffer stream kind incoming set_caps set_stream].
  rewrite bool_decide_eq_false_2, app_nil_r by done. exact Hb.
Qed.

Lemma clear_bytes_cross_the_upgrade_witness :
  exists c', connect (fun x => x) (fun x => x) (fun _ => Ok ([], [])) (sample_config VerifyFull) [Data ((wire [greeting; welcome] 0).1 ++ [1; 2; 3])] [] = (Ok tt, c') /\
    is_encrypted (stream c') = true /\ inbox c' = [1; 2; 3].
Proof. apply (clear_bytes_cross_the_upgrade (fun x => x) (fun x => x) (sample_config VerifyFull) [1; 2; 3]). reflexivity. Defined.

End MySqlTheorems.
