(* ===== verification/Qr.v ===== *)
(** * QR codes ([rustlavel-auth/src/qr.rs])

    The encoder of enrolment codes, byte mode, versions 1 to 10: the tables of
    the standard, arithmetic in GF(256) and Reed-Solomon codewords, the codeword
    sequence, the drawing of the symbol with its masks and penalty rules, and the
    SVG it is shown as. A [u8] or [u32] is a [Z]; positions, counts and versions
    are [nat]. *)

From S2P Require Import Prelude Text.

Module Qr.

(** ** Error correction levels *)

Inductive Ecc := Low | Medium | Quartile | High.

#[export] Instance Ecc_eq_dec : EqDecision Ecc.
Proof. solve_decision. Defined.

Definition index (e : Ecc) : nat := match e with Low => 0 | Medium => 1 | Quartile => 2 | High => 3 end.
Definition format_bits (e : Ecc) : Z := match e with Low => 1 | Medium => 0 | Quartile => 3 | High => 2 end.
Definition ecc_name (e : Ecc) : list Z :=
  match e with Low => lit "Low" | Medium => lit "Medium" | Quartile => lit "Quartile" | High => lit "High" end.

(** ** Tables from the standard *)

Definition MAX_VERSION : nat := 10.
Definition TOTAL_CODEWORDS : list nat := [26; 44; 70; 100; 134; 172; 196; 242; 292; 346]%nat.

(** Error-correction codewords per block, group-1 blocks, data codewords of each,
    group-2 blocks; by version and level. *)
Definition BLOCKS : list (list (nat * nat * nat * nat)) :=
  ([[(7, 1, 19, 0); (10, 1, 16, 0); (13, 1, 13, 0); (17, 1, 9, 0)];
    [(10, 1, 34, 0); (16, 1, 28, 0); (22, 1, 22, 0); (28, 1, 16, 0)];
    [(15, 1, 55, 0); (26, 1, 44, 0); (18, 2, 17, 0); (22, 2, 13, 0)];
    [(20, 1, 80, 0); (18, 2, 32, 0); (26, 2, 24, 0); (16, 4, 9, 0)];
    [(26, 1, 108, 0); (24, 2, 43, 0); (18, 2, 15, 2); (22, 2, 11, 2)];
    [(18, 2, 68, 0); (16, 4, 27, 0); (24, 4, 19, 0); (28, 4, 15, 0)];
    [(20, 2, 78, 0); (18, 4, 31, 0); (18, 2, 14, 4); (26, 4, 13, 1)];
    [(24, 2, 97, 0); (22, 2, 38, 2); (22, 4, 18, 2); (26, 4, 14, 2)];
    [(30, 2, 116, 0); (22, 3, 36, 2); (20, 4, 16, 4); (24, 4, 12, 4)];
    [(18, 2, 68, 2); (26, 4, 43, 1); (24, 6, 19, 2); (28, 6, 15, 2)]])%nat.

Definition ALIGNMENT : list (list nat) :=
  ([[]; [6; 18]; [6; 22]; [6; 26]; [6; 30]; [6; 34]; [6; 22; 38]; [6; 24; 42]; [6; 26; 46]; [6; 28; 50]])%nat.

Definition MODE_BYTE : Z := 4.
Definition PAD_CODEWORDS : list Z := [0xEC; 0x11].

(** [BLOCKS[version - 1][ecc.index()]]. *)
Definition block_shape (version : nat) (ecc : Ecc) : nat * nat * nat * nat :=
  nth (index ecc) (nth (version - 1) BLOCKS []) (0, 0, 0, 0)%nat.

(** ** GF(256) *)

Definition GF_POLY : Z := 0x11D.

Fixpoint exp_loop (i : nat) (value : Z) : list Z :=
  match i with
  | O => []
  | S i =>
      let next := Z.shiftl value 1 in
      u8 value :: exp_loop i (if Z.land next 0x100 =? 0 then next else Z.lxor next GF_POLY)
  end.
Definition build_exp : list Z := exp_loop 256 1.
Definition GF_EXP : list Z := Eval vm_compute in build_exp.

Definition build_log : list Z :=
  fold_left (fun log i => <[Z.to_nat (nth i GF_EXP 0) := Z.of_nat i]> log) (seq 0 255) (repeat 0 256).
Definition GF_LOG : list Z := Eval vm_compute in build_log.

Definition gf_mul (a b : Z) : Z :=
  if (a =? 0) || (b =? 0) then 0
  else
    let sum := nth (Z.to_nat a) GF_LOG 0 + nth (Z.to_nat b) GF_LOG 0 in
    nth (Z.to_nat (sum mod 255)) GF_EXP 0.

(** The loop over the coefficients, each of which takes in the next one as it was. *)
Fixpoint times_root (root : Z) (coefficients : list Z) : list Z :=
  match coefficients with
  | [] => []
  | c :: rest =>
      (match rest with
       | [] => gf_mul c root
       | next :: _ => Z.lxor (gf_mul c root) next
       end) :: times_root root rest
  end.

Fixpoint generator_loop (n : nat) (root : Z) (coefficients : list Z) : list Z :=
  match n with
  | O => coefficients
  | S n => generator_loop n (gf_mul root 2) (times_root root coefficients)
  end.

Definition generator (degree : nat) : list Z :=
  generator_loop degree 1 (match degree with O => [] | S n => repeat 0 n ++ [1] end).

(** One data codeword through the register. *)
Definition remainder_step (divisor result : list Z) (byte : Z) : list Z :=
  let factor := Z.lxor byte (nth 0 result 0) in
  let shifted := match result with [] => [] | _ :: rest => rest ++ [0] end in
  zip_with (fun slot coefficient => Z.lxor slot (gf_mul coefficient factor)) shifted divisor.

Definition remainder (data divisor : list Z) : list Z :=
  fold_left (remainder_step divisor) data (repeat 0 (length divisor)).

(** ** Capacity *)

Definition data_codewords (version : nat) (ecc : Ecc) : nat :=
  let '(_, group1, data_per_block, group2) := block_shape version ecc in
  (group1 * data_per_block + group2 * (data_per_block + 1))%nat.

Definition count_bits (version : nat) : nat := if (version <=? 9)%nat then 8 else 16.

Definition capacity_bytes (version : nat) (ecc : Ecc) : nat :=
  ((data_codewords version ecc * 8 - 4 - count_bits version) / 8)%nat.

Definition choose_version (length : nat) (ecc : Ecc) : option nat :=
  List.find (fun version => (length <=? capacity_bytes version ecc)%nat) (seq 1 MAX_VERSION).

(** ** Codewords *)

(** [Bits::push]: the bits it appends, the most significant first. *)
Definition push (value : Z) (width : nat) : list bool :=
  map (fun shift => Z.testbit value (Z.of_nat shift)) (rev (seq 0 width)).

(** The byte of a chunk of at most eight bits. *)
Fixpoint pack (index : nat) (chunk : list bool) (byte : Z) : Z :=
  match chunk with
  | [] => byte
  | bit :: chunk => pack (S index) chunk (if bit then Z.lor byte (Z.shiftl 1 (Z.of_nat (7 - index))) else byte)
  end.

Definition message_bits (bytes : list Z) (version : nat) (capacity : nat) : list bool :=
  let bits := push MODE_BYTE 4 ++ push (u32 (Z.of_nat (length bytes))) (count_bits version) ++
              concat (map (fun byte => push byte 8) bytes) in
  let terminator := Nat.min (capacity * 8 - length bits) 4 in
  let bits := bits ++ push 0 terminator in
  bits ++ push 0 ((8 - length bits mod 8) mod 8).

Definition message_codewords (bytes : list Z) (version : nat) (capacity : nat) : list Z :=
  let data := map (fun chunk => pack 0 chunk 0) (chunks 8 (message_bits bytes version capacity)) in
  data ++ map (fun index => nth (index mod 2) PAD_CODEWORDS 0) (seq 0 (capacity - length data)).

(** The data codewords of each block: the short blocks first. *)
Fixpoint split_blocks (data : list Z) (lengths : list nat) : list (list Z) :=
  match lengths with
  | [] => []
  | n :: lengths => take n data :: split_blocks (drop n data) lengths
  end.

Definition block_lengths (version : nat) (ecc : Ecc) : list nat :=
  let '(_, group1, data_per_block, group2) := block_shape version ecc in
  map (fun block => if (block <? group1)%nat then data_per_block else (data_per_block + 1)%nat) (seq 0 (group1 + group2)).

(** The codewords of every block at [index], for each index below [n]. *)
Definition interleave (n : nat) (blocks : list (list Z)) : list Z :=
  concat (map (fun index => omap (fun block => block !! index) blocks) (seq 0 n)).

Definition encode_codewords (bytes : list Z) (version : nat) (ecc : Ecc) : list Z :=
  let capacity := data_codewords version ecc in
  let data := message_codewords bytes version capacity in
  let '(ecc_per_block, group1, data_per_block, group2) := block_shape version ecc in
  let divisor := generator ecc_per_block in
  let data_blocks := split_blocks data (block_lengths version ecc) in
  let ecc_blocks := map (fun block => remainder block divisor) data_blocks in
  let longest := (data_per_block + (if 0 <? group2 then 1 else 0))%nat in
  interleave longest data_blocks ++ interleave ecc_per_block ecc_blocks.

(** ** Drawing *)

Record Canvas := mkCanvas { size : nat; modules : list bool; function : list bool }.

Definition Canvas_new (size : nat) : Canvas :=
  mkCanvas size (repeat false (size * size)) (repeat false (size * size)).
Definition at_ (c : Canvas) (x y : nat) : nat := (y * size c + x)%nat.
Definition Canvas_get (c : Canvas) (x y : nat) : bool := nth (at_ c x y) (modules c) false.
Definition Canvas_set (x y : nat) (dark : bool) (c : Canvas) : Canvas :=
  mkCanvas (size c) (<[at_ c x y := dark]> (modules c)) (function c).
Definition set_function (x y : nat) (dark : bool) (c : Canvas) : Canvas :=
  mkCanvas (size c) (<[at_ c x y := dark]> (modules c)) (<[at_ c x y := true]> (function c)).
Definition is_function (c : Canvas) (x y : nat) : bool := nth (at_ c x y) (function c) false.

(** A loop whose body changes the canvas. *)
Definition for_each {A} (l : list A) (body : A -> Canvas -> Canvas) (c : Canvas) : Canvas :=
  fold_left (fun c a => body a c) l c.

(** [-n..=n]. *)
Definition around (n : nat) : list Z := map (fun i => Z.of_nat i - Z.of_nat n) (seq 0 (2 * n + 1)).

Definition draw_timing (c : Canvas) : Canvas :=
  for_each (seq 0 (size c)) (fun i c => set_function 6 i (Nat.even i) (set_function i 6 (Nat.even i) c)) c.

Definition draw_finder (centre : nat * nat) (c : Canvas) : Canvas :=
  for_each (around 4) (fun dy => for_each (around 4) (fun dx c =>
    let x := Z.of_nat centre.1 + dx in
    let y := Z.of_nat centre.2 + dy in
    let edge := Z.of_nat (size c) in
    if (x <? 0) || (y <? 0) || (edge <=? x) || (edge <=? y) then c
    else
      let ring := Z.max (Z.abs dx) (Z.abs dy) in
      set_function (Z.to_nat x) (Z.to_nat y) (negb (ring =? 2) && negb (ring =? 4)) c)) c.

Definition draw_alignment (version : nat) (c : Canvas) : Canvas :=
  let coordinates := nth (version - 1) ALIGNMENT [] in
  let last := (length coordinates - 1)%nat in
  let numbered := zip (seq 0 (length coordinates)) coordinates in
  for_each numbered (fun icx => for_each numbered (fun jcy c =>
    let '(i, cx) := icx in
    let '(j, cy) := jcy in
    let corner := ((i =? 0)%nat && (j =? 0)%nat) || ((i =? 0)%nat && (j =? last)%nat) || ((i =? last)%nat && (j =? 0)%nat) in
    if corner then c
    else
      for_each (around 2) (fun dy => for_each (around 2) (fun dx c =>
        let ring := Z.max (Z.abs dx) (Z.abs dy) in
        set_function (Z.to_nat (Z.of_nat cx + dx)) (Z.to_nat (Z.of_nat cy + dy)) (negb (ring =? 1)) c)) c)) c.

Definition bch_step (width generator rest : Z) : Z :=
  Z.lxor (Z.shiftl rest 1) (Z.land (Z.shiftr rest width) 1 * generator).

Definition version_info (version : nat) : Z :=
  let data := Z.of_nat version in
  Z.lor (Z.shiftl data 12) (Nat.iter 12 (bch_step 11 0x1F25) data).

Definition draw_version (version : nat) (c : Canvas) : Canvas :=
  if (7 <=? version)%nat then
    let bits := version_info version in
    for_each (seq 0 18) (fun i c =>
      let dark := Z.testbit bits (Z.of_nat i) in
      let a := (size c - 11 + i mod 3)%nat in
      let b := (i / 3)%nat in
      set_function b a dark (set_function a b dark c)) c
  else c.

Definition reserve_format (c : Canvas) : Canvas :=
  let size := size c in
  let c := for_each (seq 0 6) (fun i => set_function 8 i false) c in
  let c := set_function 7 8 false (set_function 8 8 false (set_function 8 7 false c)) in
  let c := for_each (seq 0 8) (fun i => set_function (size - 1 - i) 8 false) c in
  let c := for_each (seq 0 7) (fun i => set_function 8 (size - 7 + i) false) c in
  let c := for_each (seq 0 6) (fun i => set_function i 8 false) c in
  set_function 8 (size - 8) true c.

Definition draw_function_patterns (version : nat) (c : Canvas) : Canvas :=
  let size := size c in
  let c := draw_timing c in
  let c := for_each [(3, 3); ((size - 4)%nat, 3%nat); (3%nat, (size - 4)%nat)]%nat draw_finder c in
  let c := draw_alignment version c in
  let c := draw_version version c in
  reserve_format c.

Definition format_info (ecc : Ecc) (mask : nat) : Z :=
  let data := Z.lor (Z.shiftl (format_bits ecc) 3) (Z.of_nat mask) in
  Z.lxor (Z.lor (Z.shiftl data 10) (Nat.iter 10 (bch_step 9 0x537) data)) 0x5412.

Definition draw_format_info (ecc : Ecc) (mask : nat) (c : Canvas) : Canvas :=
  let size := size c in
  let bits := format_info ecc mask in
  let bit i := Z.testbit bits (Z.of_nat i) in
  let c := for_each (seq 0 6) (fun i => set_function 8 i (bit i)) c in
  let c := set_function 8 7 (bit 6%nat) c in
  let c := set_function 8 8 (bit 7%nat) c in
  let c := set_function 7 8 (bit 8%nat) c in
  let c := for_each (seq 9 6) (fun i => set_function (14 - i) 8 (bit i)) c in
  let c := for_each (seq 0 8) (fun i => set_function (size - 1 - i) 8 (bit i)) c in
  for_each (seq 8 7) (fun i => set_function 8 (size - 15 + i) (bit i)) c.

(** The bit of the codewords at [index]; zero past their end. *)
Definition codeword_bit (codewords : list Z) (index : nat) : bool :=
  match codewords !! (index / 8)%nat with
  | Some byte => Z.testbit byte (Z.of_nat (7 - index mod 8))
  | None => false
  end.

(** One module of the zig-zag; the state is the canvas and the bits written. *)
Definition place (codewords : list Z) (state : Canvas * nat) (xy : nat * nat) : Canvas * nat :=
  let '(c, index) := state in
  if is_function c xy.1 xy.2 then state
  else (Canvas_set xy.1 xy.2 (codeword_bit codewords index) c, S index).

(** The loop over pairs of columns: [right] falls by two or three each round. *)
Fixpoint draw_loop (fuel : nat) (codewords : list Z) (right : nat) (upward : bool) (state : Canvas * nat) : Canvas * nat :=
  match fuel with
  | O => state
  | S fuel =>
      let size := size state.1 in
      let right := if (right =? 6)%nat then (right - 1)%nat else right in
      let state :=
        fold_left (fun state step =>
          let y := (if upward then size - 1 - step else step)%nat in
          fold_left (place codewords) [(right, y); ((right - 1)%nat, y)] state) (seq 0 size) state in
      if (right <? 2)%nat then state else draw_loop fuel codewords (right - 2) (negb upward) state
  end.

Definition draw_codewords (codewords : list Z) (c : Canvas) : Canvas :=
  (draw_loop (size c) codewords (size c - 1) true (c, 0%nat)).1.

Definition multiple (n d : nat) : bool := (n mod d =? 0)%nat.

Definition mask_condition (mask x y : nat) : bool :=
  (match mask with
   | 0 => multiple (x + y) 2
   | 1 => multiple y 2
   | 2 => multiple x 3
   | 3 => multiple (x + y) 3
   | 4 => multiple (y / 2 + x / 3) 2
   | 5 => (x * y) mod 2 + (x * y) mod 3 =? 0
   | 6 => multiple ((x * y) mod 2 + (x * y) mod 3) 2
   | _ => multiple ((x + y) mod 2 + (x * y) mod 3) 2
   end)%nat.

Definition apply_mask (mask : nat) (c : Canvas) : Canvas :=
  for_each (seq 0 (size c)) (fun y => for_each (seq 0 (size c)) (fun x c =>
    if negb (is_function c x y) && mask_condition mask x y then Canvas_set x y (negb (Canvas_get c x y)) c else c)) c.

(** ** Penalties *)

Definition run_penalty (run : nat) : Z := if (5 <=? run)%nat then 3 + (Z.of_nat run - 5) else 0.

(** The runs of a line: the penalty so far, the current run and its colour. *)
Fixpoint line_runs (line : list bool) (first : bool) (run : nat) (previous : bool) : Z :=
  match line with
  | [] => run_penalty run
  | dark :: line =>
      if negb first && Bool.eqb dark previous then line_runs line false (S run) dark
      else run_penalty run + line_runs line false 1 dark
  end.

Definition line_of (c : Canvas) (horizontal : bool) (line : nat) : list bool :=
  map (fun i => if horizontal then Canvas_get c i line else Canvas_get c line i) (seq 0 (size c)).

Definition sum_of {A} (l : list A) (f : A -> Z) : Z := fold_left (fun s a => s + f a) l 0.

Definition FINDER_LIKE : list bool := [true; false; true; true; true; false; true; false; false; false; false].

Definition penalty (c : Canvas) : Z :=
  let size := size c in
  let runs := sum_of (seq 0 size) (fun line =>
    sum_of [true; false] (fun horizontal => line_runs (line_of c horizontal line) true 0 false)) in
  let squares := sum_of (seq 0 (size - 1)) (fun y => sum_of (seq 0 (size - 1)) (fun x =>
    let corner := Canvas_get c x y in
    if Bool.eqb (Canvas_get c (x + 1) y) corner && Bool.eqb (Canvas_get c x (y + 1)) corner &&
       Bool.eqb (Canvas_get c (x + 1) (y + 1)) corner then 3 else 0)) in
  let finders :=
    if (11 <=? size)%nat then
      sum_of (seq 0 size) (fun line => sum_of [true; false] (fun horizontal => sum_of (seq 0 (size - 11 + 1)) (fun start =>
        let at_ i := if (horizontal : bool) then Canvas_get c (start + i) line else Canvas_get c line (start + i) in
        let forward := forallb (fun i => Bool.eqb (at_ i) (nth i FINDER_LIKE false)) (seq 0 11) in
        let backward := forallb (fun i => Bool.eqb (at_ i) (nth (10 - i) FINDER_LIKE false)) (seq 0 11) in
        if forward || backward then 40 else 0)))
    else 0 in
  let total := Z.of_nat (size * size) in
  let dark := Z.of_nat (length (filter (fun d => d = true) (modules c))) in
  let deviation := Z.abs (dark * 20 - total * 10) in
  let steps := Z.max 0 ((deviation + total - 1) / total - 1) in
  runs + squares + finders + 10 * steps.

(** ** The symbol *)

Record QrCode := mkQrCode { qr_version : nat; qr_size : nat; qr_ecc : Ecc; qr_mask : nat; qr_modules : list bool }.

Definition module (q : QrCode) (x y : nat) : bool :=
  if (qr_size q <=? x)%nat || (qr_size q <=? y)%nat then false else nth (y * qr_size q + x) (qr_modules q) false.

Definition masked (ecc : Ecc) (c : Canvas) (mask : nat) : Canvas := draw_format_info ecc mask (apply_mask mask c).

(** The loop over the masks: the first of the lowest score is kept. *)
Definition better (ecc : Ecc) (c : Canvas) (best : option (Z * nat * list bool)) (mask : nat) : option (Z * nat * list bool) :=
  let candidate := masked ecc c mask in
  let score := penalty candidate in
  match best with
  | Some (current, _, _) => if score <? current then Some (score, mask, modules candidate) else best
  | None => Some (score, mask, modules candidate)
  end.

Definition build_symbol (version : nat) (ecc : Ecc) (codewords : list Z) (forced : option nat) : QrCode :=
  let size := (4 * version + 17)%nat in
  let c := draw_codewords codewords (draw_function_patterns version (Canvas_new size)) in
  let '(mask, modules) :=
    match forced with
    | Some mask => (mask, modules (masked ecc c mask))
    | None =>
        match fold_left (better ecc c) (seq 0 8) None with
        | Some (_, mask, modules) => (mask, modules)
        | None => (0%nat, [])
        end
    end in
  mkQrCode version size ecc mask modules.

(** The error names the length of the data and what a symbol can hold. *)
Inductive QrError := TooLong (length : nat) (ecc : Ecc) (capacity : nat).


Definition error_message (e : QrError) : list Z :=
  let '(TooLong length ecc capacity) := e in
  lit "QR code data is " ++ dec_nat (Z.of_nat length) ++
  lit " bytes, which is too long: the largest symbol this encoder builds is version " ++ dec_nat (Z.of_nat MAX_VERSION) ++
  lit " at " ++ ecc_name ecc ++ lit " error correction, which holds " ++ dec_nat (Z.of_nat capacity) ++ lit " bytes".

Definition encode_with (data : list Z) (ecc : Ecc) : result QrError QrCode :=
  match choose_version (length data) ecc with
  | None => Err (TooLong (length data) ecc (capacity_bytes MAX_VERSION ecc))
  | Some version => Ok (build_symbol version ecc (encode_codewords data version ecc) None)
  end.
Definition encode (data : list Z) : result QrError QrCode := encode_with data Medium.

(** ** SVG *)

Definition DEFAULT_TITLE : list Z := lit "QR code".
Definition quote_mark : list Z := [34].

Definition escape_byte (b : Z) : list Z :=
  if b =? 38 then lit "&amp;"
  else if b =? 60 then lit "&lt;"
  else if b =? 62 then lit "&gt;"
  else if b =? 34 then lit "&quot;"
  else if b =? 39 then lit "&#39;"
  else [b].
Definition escape (text : list Z) : list Z := concat (map escape_byte text).

(** The inner loop of a run: where it ends. *)
Fixpoint run_end (fuel : nat) (q : QrCode) (x y : nat) : nat :=
  match fuel with
  | O => x
  | S fuel => if (x <? qr_size q)%nat && module q x y then run_end fuel q (S x) y else x
  end.

(** The runs of dark modules in a row, each with its start and length. *)
Fixpoint row_runs (fuel : nat) (q : QrCode) (x y : nat) : list (nat * nat) :=
  match fuel with
  | O => []
  | S fuel =>
      if (x <? qr_size q)%nat then
        if negb (module q x y) then row_runs fuel q (S x) y
        else let stop := run_end (qr_size q) q x y in (x, (stop - x)%nat) :: row_runs fuel q stop y
      else []
  end.

Definition run_path (quiet_zone : Z) (y : nat) (run : nat * nat) : list Z :=
  let n := dec_nat (Z.of_nat run.2) in
  lit "M" ++ dec_nat (u32 (Z.of_nat run.1 + quiet_zone)) ++ lit " " ++ dec_nat (u32 (Z.of_nat y + quiet_zone)) ++
  lit "h" ++ n ++ lit "v1h-" ++ n ++ lit "z".

Definition to_svg_titled (q : QrCode) (module_pixels quiet_zone : Z) (title : list Z) : list Z :=
  let span := dec_nat (u32 (Z.of_nat (qr_size q) + u32 (2 * quiet_zone))) in
  let pixels := dec_nat (u32 (u32 (Z.of_nat (qr_size q) + u32 (2 * quiet_zone)) * module_pixels)) in
  let path := concat (map (fun y => concat (map (run_path quiet_zone y) (row_runs (S (qr_size q)) q 0 y))) (seq 0 (qr_size q))) in
  let attribute name value := lit " " ++ name ++ lit "=" ++ quote_mark ++ value ++ quote_mark in
  lit "<svg" ++ attribute (lit "xmlns") (lit "http://www.w3.org/2000/svg") ++
  attribute (lit "width") pixels ++ attribute (lit "height") pixels ++
  attribute (lit "viewBox") (lit "0 0 " ++ span ++ lit " " ++ span) ++ attribute (lit "role") (lit "img") ++
  attribute (lit "aria-label") (escape title) ++ attribute (lit "shape-rendering") (lit "crispEdges") ++
  lit "><title>" ++ escape title ++ lit "</title><rect" ++
  attribute (lit "width") span ++ attribute (lit "height") span ++ attribute (lit "fill") (lit "#fff") ++
  lit "/><path" ++ attribute (lit "fill") (lit "#000") ++ attribute (lit "d") path ++ lit "/></svg>".
Definition to_svg (q : QrCode) (module_pixels quiet_zone : Z) : list Z := to_svg_titled q module_pixels quiet_zone DEFAULT_TITLE.
Definition to_svg_default (q : QrCode) : list Z := to_svg q 4 4.

End Qr.
