(* ===== verification/QrField.v ===== *)
(** * Reed-Solomon codewords of the QR encoder

    The log and antilog tables make GF(256) a field: multiplication is
    associative and distributes over addition, which is exclusive or. A block of
    data codewords followed by its remainder, read as a polynomial, is zero at
    every root of the generator: it is a codeword a reader can correct. *)

From S2P Require Import Prelude Text Qr.
Import Qr.

Module QrField.

Definition gf (a : Z) : Prop := 0 <= a < 256.

(** ** The field *)

Definition logs (a : Z) : Z := nth (Z.to_nat a) GF_LOG 0.
Definition exps (i : Z) : Z := nth (Z.to_nat i) GF_EXP 0.

(** A property checked on every number below [n]. *)
Lemma below_check (n : nat) (P : Z -> bool) : forallb (fun i => P (Z.of_nat i)) (seq 0 n) = true -> forall z, 0 <= z < Z.of_nat n -> P z = true.
Proof.
  intros H z Hz. rewrite forallb_forall in H. rewrite <- (Z2Nat.id z) by lia. apply H, in_seq. lia.
Qed.

Lemma exp_of_log a : gf a -> a <> 0 -> exps (logs a) = a /\ 0 <= logs a < 255.
Proof.
  intros Ha Hn.
  pose proof (below_check 256 (fun a => (a =? 0) || ((exps (logs a) =? a) && (0 <=? logs a) && (logs a <? 255))) ltac:(by vm_compute) a Ha) as H.
  cbn beta in H. lia.
Qed.

Lemma log_of_exp i : 0 <= i < 255 -> logs (exps i) = i /\ gf (exps i) /\ exps i <> 0.
Proof.
  intros Hi.
  pose proof (below_check 255 (fun i => (logs (exps i) =? i) && (0 <? exps i) && (exps i <? 256)) ltac:(by vm_compute) i Hi) as H.
  cbn beta in H. unfold gf. lia.
Qed.

Lemma gf_mul_logs a b : a <> 0 -> b <> 0 -> gf_mul a b = exps ((logs a + logs b) mod 255).
Proof. intros Ha Hb. unfold gf_mul. rewrite (proj2 (Z.eqb_neq a 0)), (proj2 (Z.eqb_neq b 0)) by done. done. Qed.

Lemma gf_mul_0_l b : gf_mul 0 b = 0.
Proof. done. Qed.
Lemma gf_mul_0_r a : gf_mul a 0 = 0.
Proof. unfold gf_mul. by rewrite orb_true_r. Qed.

Lemma gf_mul_gf a b : gf (gf_mul a b).
Proof.
  destruct (Z.eq_dec a 0) as [->|Ha]; [done|]. destruct (Z.eq_dec b 0) as [->|Hb]; [by rewrite gf_mul_0_r|].
  rewrite gf_mul_logs by done. apply log_of_exp, Z.mod_pos_bound. lia.
Qed.

Lemma gf_mul_nonzero a b : a <> 0 -> b <> 0 -> gf_mul a b <> 0.
Proof. intros Ha Hb. rewrite gf_mul_logs by done. apply log_of_exp, Z.mod_pos_bound. lia. Qed.

Lemma logs_mul a b : a <> 0 -> b <> 0 -> logs (gf_mul a b) = (logs a + logs b) mod 255.
Proof. intros Ha Hb. rewrite gf_mul_logs by done. apply log_of_exp, Z.mod_pos_bound. lia. Qed.

Lemma gf_mul_comm a b : gf_mul a b = gf_mul b a.
Proof. unfold gf_mul. rewrite orb_comm. by rewrite Z.add_comm. Qed.

Lemma gf_mul_assoc a b c : gf_mul a (gf_mul b c) = gf_mul (gf_mul a b) c.
Proof.
  destruct (Z.eq_dec a 0) as [->|Ha]; [done|].
  destruct (Z.eq_dec b 0) as [->|Hb]; [by rewrite gf_mul_0_l, !gf_mul_0_r|].
  destruct (Z.eq_dec c 0) as [->|Hc]; [by rewrite !gf_mul_0_r|].
  rewrite (gf_mul_logs a (gf_mul b c)), (gf_mul_logs (gf_mul a b) c) by (done || by apply gf_mul_nonzero). rewrite !logs_mul by done.
  rewrite Zplus_mod_idemp_l, Zplus_mod_idemp_r. f_equal. f_equal. lia.
Qed.

Lemma gf_mul_1_r a : gf a -> gf_mul a 1 = a.
Proof.
  intros Ha. pose proof (below_check 256 (fun a => gf_mul a 1 =? a) ltac:(by vm_compute) a Ha) as H. cbn beta in H. lia.
Qed.

(** Multiplication by the primitive element, on the bits. *)
Definition double (b : Z) : Z := Z.lxor (Z.shiftl b 1) (if Z.testbit b 7 then GF_POLY else 0).

Lemma double_spec b : gf b -> gf_mul 2 b = double b.
Proof.
  intros Hb. pose proof (below_check 256 (fun b => gf_mul 2 b =? double b) ltac:(by vm_compute) b Hb) as H. cbn beta in H. lia.
Qed.

Lemma double_xor b c : double (Z.lxor b c) = Z.lxor (double b) (double c).
Proof.
  unfold double. rewrite Z.shiftl_lxor, Z.lxor_spec.
  assert (E : (if xorb (Z.testbit b 7) (Z.testbit c 7) then GF_POLY else 0) =
              Z.lxor (if Z.testbit b 7 then GF_POLY else 0) (if Z.testbit c 7 then GF_POLY else 0))
    by (by destruct (Z.testbit b 7), (Z.testbit c 7)).
  rewrite E. rewrite !Z.lxor_assoc. f_equal. rewrite <- !Z.lxor_assoc. f_equal. apply Z.lxor_comm.
Qed.

Lemma gf_xor a b : gf a -> gf b -> gf (Z.lxor a b).
Proof.
  unfold gf. intros Ha Hb. split; [apply Z.lxor_nonneg; lia|].
  destruct (Z.eq_dec (Z.lxor a b) 0) as [->|Hn]; [lia|].
  apply Z.log2_lt_pow2 with (b := 8); [assert (0 <= Z.lxor a b) by (apply Z.lxor_nonneg; lia); lia|].
  eapply Z.le_lt_trans; [apply Z.log2_lxor; lia|].
  assert (forall x, 0 <= x < 256 -> Z.log2 x < 8); [|by apply Z.max_lub_lt; auto].
  intros x Hx. destruct (Z.eq_dec x 0) as [->|]; [done|]. apply Z.log2_lt_pow2; lia.
Qed.

(** Every element that is not zero is a power of the primitive element. *)
Lemma exps_succ i : 0 <= i < 254 -> exps (i + 1) = gf_mul 2 (exps i).
Proof.
  intros Hi. pose proof (below_check 254 (fun i => exps (i + 1) =? gf_mul 2 (exps i)) ltac:(by vm_compute) i Hi) as H.
  cbn beta in H. lia.
Qed.

Lemma gf_mul_xor_r a b c : gf a -> gf b -> gf c -> gf_mul a (Z.lxor b c) = Z.lxor (gf_mul a b) (gf_mul a c).
Proof.
  intros Ha Hb Hc. destruct (Z.eq_dec a 0) as [->|Hn]; [done|].
  destruct (exp_of_log a Ha Hn) as [E Hl]. rewrite <- E. clear E. revert Hl. generalize (logs a). intros i Hi.
  assert (H : forall n : nat, (n < 255)%nat ->
    gf_mul (exps (Z.of_nat n)) (Z.lxor b c) = Z.lxor (gf_mul (exps (Z.of_nat n)) b) (gf_mul (exps (Z.of_nat n)) c)).
  - induction n as [|n IH]; intros Hlt.
    + change (exps (Z.of_nat 0)) with 1. rewrite !(gf_mul_comm 1), !gf_mul_1_r by (done || by apply gf_xor). done.
    + rewrite Nat2Z.inj_succ, <- Z.add_1_r, exps_succ by lia. rewrite <- !gf_mul_assoc, IH by lia.
      rewrite !double_spec by (apply gf_xor || apply gf_mul_gf; apply gf_mul_gf). apply double_xor.
  - rewrite <- (Z2Nat.id i) by lia. apply H. lia.
Qed.

Lemma gf_mul_xor_l a b c : gf a -> gf b -> gf c -> gf_mul (Z.lxor a b) c = Z.lxor (gf_mul a c) (gf_mul b c).
Proof. intros. rewrite !(gf_mul_comm _ c). by apply gf_mul_xor_r. Qed.

(** ** Polynomials *)

(** The value of a polynomial, its highest coefficient first, at [r]. *)
Definition eval (r : Z) (p : list Z) : Z := fold_left (fun acc c => Z.lxor (gf_mul acc r) c) p 0.
Fixpoint power (r : Z) (n : nat) : Z := match n with O => 1 | S n => gf_mul r (power r n) end.

Lemma eval_snoc r p c : eval r (p ++ [c]) = Z.lxor (gf_mul (eval r p) r) c.
Proof. unfold eval. by rewrite fold_left_app. Qed.

Lemma eval_gf r p : Forall gf p -> gf (eval r p).
Proof.
  induction p as [|c p IH] using rev_ind; intros Hp; [done|]. apply Forall_app in Hp as [Hp Hc]. rewrite eval_snoc.
  apply gf_xor; [apply gf_mul_gf|exact (Forall_inv Hc)].
Qed.

Lemma power_gf r n : gf (power r n).
Proof. destruct n; [done|]. apply gf_mul_gf. Qed.

Lemma power_succ_r r n : gf_mul (power r n) r = power r (S n).
Proof. apply gf_mul_comm. Qed.

Lemma eval_app r p q : gf r -> Forall gf p -> Forall gf q ->
  eval r (p ++ q) = Z.lxor (gf_mul (eval r p) (power r (length q))) (eval r q).
Proof.
  intros Hr Hp. induction q as [|c q IH] using rev_ind; intros Hq.
  - rewrite app_nil_r. cbn. rewrite gf_mul_1_r, Z.lxor_0_r by (by apply eval_gf). done.
  - apply Forall_app in Hq as [Hq Hc]. rewrite app_assoc, !eval_snoc, IH by done.
    rewrite gf_mul_xor_l by (apply gf_mul_gf || by apply eval_gf || done).
    rewrite length_app, Nat.add_1_r, <- gf_mul_assoc, power_succ_r. by rewrite Z.lxor_assoc.
Qed.

Lemma eval_zip r p q : gf r -> length p = length q -> Forall gf p -> Forall gf q ->
  eval r (zip_with Z.lxor p q) = Z.lxor (eval r p) (eval r q).
Proof.
  intros Hr. revert q. induction p as [|c p IH] using rev_ind; intros q Hl Hp Hq; [by destruct q|].
  destruct q as [|d q _] using rev_ind; [rewrite length_app in Hl; cbn in Hl; lia|].
  rewrite !length_app in Hl. cbn in Hl. apply Forall_app in Hp as [Hp Hc], Hq as [Hq Hd].
  rewrite zip_with_app by lia. cbn [zip_with]. rewrite !eval_snoc, IH by (done || lia).
  rewrite gf_mul_xor_l by (done || by apply eval_gf). rewrite !Z.lxor_assoc. f_equal.
  rewrite <- !Z.lxor_assoc. f_equal. apply Z.lxor_comm.
Qed.

Lemma eval_scale r k p : gf r -> gf k -> Forall gf p -> eval r (map (fun c => gf_mul c k) p) = gf_mul k (eval r p).
Proof.
  intros Hr Hk. induction p as [|c p IH] using rev_ind; intros Hp; [by rewrite gf_mul_0_r|].
  apply Forall_app in Hp as [Hp Hc]. apply Forall_cons_iff in Hc as [Hc _]. rewrite map_app. cbn [map].
  rewrite !eval_snoc, IH, <- gf_mul_assoc by done.
  rewrite gf_mul_xor_r by (apply gf_mul_gf || done). by rewrite (gf_mul_comm c k).
Qed.

Lemma eval_zeros r n : eval r (repeat 0 n) = 0.
Proof. induction n as [|n IH]; [done|]. cbn [repeat]. rewrite repeat_cons, eval_snoc, IH. done. Qed.

(** ** The remainder *)

(** [r] is a root of the monic polynomial whose other coefficients are [divisor]. *)
Definition root (r : Z) (divisor : list Z) : Prop := eval r divisor = power r (length divisor).

Lemma remainder_step_length divisor result b : length result = length divisor -> length (remainder_step divisor result b) = length divisor.
Proof. intros Hl. unfold remainder_step. rewrite length_zip_with. destruct result; rewrite ?length_app in *; cbn in *; lia. Qed.

Lemma remainder_step_gf divisor result b : gf b -> Forall gf result -> Forall gf divisor -> Forall gf (remainder_step divisor result b).
Proof.
  intros Hb Hr Hd. unfold remainder_step.
  assert (Hs : Forall gf (match result with [] => [] | _ :: rest => rest ++ [0] end)).
  { destruct Hr as [|x rest]; [done|]. apply Forall_app. split; [done|by constructor]. }
  revert Hs. generalize (match result with [] => [] | _ :: rest => rest ++ [0] end). intros s Hs.
  revert divisor Hd. induction Hs as [|x s Hx _ IH]; intros [|d divisor] Hd; try done. cbn [zip_with].
  apply Forall_cons_iff in Hd as [Hd0 Hd]. constructor; [apply gf_xor; [done|apply gf_mul_gf]|by apply IH].
Qed.

(** A step multiplies by [r] and brings the codeword in, above the register. *)
Lemma remainder_step_eval r divisor result b :
  gf r -> gf b -> root r divisor -> (0 < length divisor)%nat -> length result = length divisor -> Forall gf result -> Forall gf divisor ->
  eval r (remainder_step divisor result b) = Z.lxor (gf_mul (eval r result) r) (gf_mul b (power r (length divisor))).
Proof.
  intros Hr Hb Hroot Hn Hl Hg Hd. destruct Hg as [|x rest Hx Hrest]; [cbn in Hl; lia|]. unfold remainder_step. cbn [nth].
  assert (Hf : gf (Z.lxor b x)) by (by apply gf_xor).
  assert (E : zip_with (fun slot c => Z.lxor slot (gf_mul c (Z.lxor b x))) (rest ++ [0]) divisor =
              zip_with Z.lxor (rest ++ [0]) (map (fun c => gf_mul c (Z.lxor b x)) divisor)) by (symmetry; apply zip_with_fmap_r).
  assert (Hm : Forall gf (map (fun c => gf_mul c (Z.lxor b x)) divisor)).
  { apply List.Forall_map. apply Forall_true. intros c. apply gf_mul_gf. }
  rewrite E, eval_zip; [|done|rewrite length_app, length_map; cbn in *; lia|apply Forall_app; split; [done|by constructor]|done].
  rewrite eval_snoc, Z.lxor_0_r, eval_scale, Hroot by done.
  change (x :: rest) with ([x] ++ rest). rewrite eval_app by (done || by constructor).
  replace (eval r [x]) with x by (unfold eval; cbn; by rewrite Z.lxor_0_l).
  rewrite !gf_mul_xor_l by (done || apply gf_mul_gf || apply power_gf || by apply eval_gf).
  rewrite <- gf_mul_assoc, power_succ_r. replace (S (length rest)) with (length divisor) by (cbn in Hl; lia).
  rewrite (Z.lxor_comm (gf_mul b _)), <- !Z.lxor_assoc. f_equal.
  rewrite (Z.lxor_comm (gf_mul (eval r rest) r)). done.
Qed.

Lemma remainder_spec data divisor : (0 < length divisor)%nat -> Forall gf data -> Forall gf divisor ->
  length (remainder data divisor) = length divisor /\ Forall gf (remainder data divisor) /\
  forall r, gf r -> root r divisor -> eval r (remainder data divisor) = gf_mul (eval r data) (power r (length divisor)).
Proof.
  intros Hn Hg Hd. unfold remainder. induction data as [|b data IH] using rev_ind.
  - cbn [fold_left]. split_and!; [apply repeat_length|by apply List.Forall_forall; intros x ->%repeat_spec|].
    intros r _ _. by rewrite eval_zeros.
  - apply Forall_app in Hg as [Hg Hb]. apply Forall_cons_iff in Hb as [Hb _]. destruct (IH Hg) as (Hl & Hf & He).
    rewrite fold_left_app. cbn [fold_left]. split_and!; [by apply remainder_step_length|by apply remainder_step_gf|].
    intros r Hr Hroot. rewrite remainder_step_eval, He, eval_snoc by done.
    rewrite gf_mul_xor_l by (done || apply gf_mul_gf || apply power_gf).
    rewrite <- !gf_mul_assoc. do 2 f_equal. apply gf_mul_comm.
Qed.

(** The generator of every degree the tables use vanishes at the powers of two
    below its degree. *)
Definition vanishes (d i : nat) : bool := eval (exps (Z.of_nat i)) (generator d) =? power (exps (Z.of_nat i)) d.
Definition in_field (c : Z) : bool := (0 <=? c) && (c <? 256).
Definition degree_ok (d : nat) : bool :=
  (length (generator d) =? d)%nat && forallb in_field (generator d) && forallb (vanishes d) (seq 0 d).

Lemma degrees_checked : forallb degree_ok (seq 1 30) = true.
Proof. vm_compute. reflexivity. Qed.

Lemma generator_spec d : (1 <= d <= 30)%nat ->
  length (generator d) = d /\ Forall gf (generator d) /\ forall i, (i < d)%nat -> root (exps (Z.of_nat i)) (generator d).
Proof.
  intros Hd. pose proof (proj1 (forallb_forall degree_ok _) degrees_checked d ltac:(apply in_seq; lia)) as H.
  unfold degree_ok in H. apply andb_true_iff in H as [H H3]. apply andb_true_iff in H as [H1 H2].
  apply Nat.eqb_eq in H1. split; [exact H1|]. split.
  - apply List.Forall_forall. intros c Hc. pose proof (proj1 (forallb_forall in_field _) H2 c Hc) as Hf.
    apply andb_true_iff in Hf as [Ha Hb]. apply Z.leb_le in Ha. apply Z.ltb_lt in Hb. by split.
  - intros i Hi. pose proof (proj1 (forallb_forall (vanishes d) _) H3 i ltac:(apply in_seq; lia)) as Hv.
    apply Z.eqb_eq in Hv. unfold root. by rewrite H1.
Qed.

(** A block with its error-correction codewords vanishes at all of them. *)
Lemma block_vanishes data d : (1 <= d <= 30)%nat -> Forall gf data ->
  forall i, (i < d)%nat -> eval (exps (Z.of_nat i)) (data ++ remainder data (generator d)) = 0.
Proof.
  intros Hd Hg i Hi. destruct (generator_spec d Hd) as (Hl & Hf & Hroot).
  destruct (remainder_spec data (generator d)) as (Hrl & Hrf & He); [lia|done|done|].
  assert (Hx : gf (exps (Z.of_nat i))) by (apply log_of_exp; lia).
  rewrite eval_app, He, Hrl by (done || by apply Hroot). apply Z.lxor_nilpotent.
Qed.

End QrField.
