(* ===== verification/QrSymbol.v ===== *)
(** * QR symbols

    The layouts of the ten versions checked against the geometry of the standard,
    the choice of the mask, and what is at each module of a finished symbol. *)

From S2P Require Import Prelude Text Qr.

Import Qr.

(** ** Where modules go

    The drawing loops as lists of writes, the zig-zag order of the data modules,
    and that a module, once masked and surrounded, is read back at its place. *)

Module QrLayout.

(** ** Writes at positions *)

Section Writes.
Context {A : Type}.

Definition writes (l : list (nat * A)) (m : list A) : list A := fold_left (fun m w => <[w.1 := w.2]> m) l m.

Lemma writes_length l m : length (writes l m) = length m.
Proof. revert m. induction l as [|w l IH]; intros m; [done|]. cbn [writes fold_left]. unfold writes in IH. by rewrite IH, length_insert. Qed.

Lemma writes_other l m p : p ∉ map fst l -> writes l m !! p = m !! p.
Proof.
  revert m. induction l as [|[q b] l IH]; intros m Hp; [done|]. cbn [map fst] in Hp. apply not_elem_of_cons in Hp as [Hq Hp].
  change (writes l (<[q := b]> m) !! p = m !! p). rewrite IH by done. by rewrite list_lookup_insert_ne.
Qed.

Lemma writes_at l m i p b : NoDup (map fst l) -> l !! i = Some (p, b) -> (p < length m)%nat -> writes l m !! p = Some b.
Proof.
  revert m i. induction l as [|[q c] l IH]; intros m i Hn Hi Hp; [done|]. cbn [map fst] in Hn. apply list.NoDup_cons in Hn as [Hq Hn].
  change (writes l (<[q := c]> m) !! p = Some b). destruct i as [|i]; cbn in Hi.
  - injection Hi as -> ->. rewrite writes_other by done. by apply list_lookup_insert_eq.
  - apply (IH _ i); [done|done|]. by rewrite length_insert.
Qed.

End Writes.

(** Flips at the positions where [f] holds. *)
Definition flips (f : nat -> bool) (ps : list nat) (m : list bool) : list bool :=
  fold_left (fun m p => if f p then <[p := negb (nth p m false)]> m else m) ps m.

Lemma flips_length f ps m : length (flips f ps m) = length m.
Proof.
  revert m. induction ps as [|p ps IH]; intros m; [done|]. cbn [flips fold_left]. unfold flips in IH. rewrite IH.
  destruct (f p); [apply length_insert|done].
Qed.

Lemma flips_other f ps m q : q ∉ ps -> nth q (flips f ps m) false = nth q m false.
Proof.
  revert m. induction ps as [|p ps IH]; intros m Hq; [done|]. apply not_elem_of_cons in Hq as [Hp Hq].
  cbn [flips fold_left]. unfold flips in IH. rewrite IH by done. destruct (f p); [|done].
  by rewrite !nth_lookup, list_lookup_insert_ne.
Qed.

Lemma flips_at f ps m q : NoDup ps -> q ∈ ps -> (q < length m)%nat -> nth q (flips f ps m) false = xorb (nth q m false) (f q).
Proof.
  revert m. induction ps as [|p ps IH]; intros m Hn Hq Hl; [by apply not_elem_of_nil in Hq|].
  apply list.NoDup_cons in Hn as [Hp Hn]. cbn [flips fold_left]. destruct (decide (q = p)) as [->|Hne].
  - change (nth p (flips f ps (if f p then <[p := negb (nth p m false)]> m else m)) false = xorb (nth p m false) (f p)).
    rewrite flips_other by done. destruct (f p); [|by rewrite xorb_false_r].
    rewrite nth_lookup, list_lookup_insert_eq by done. cbn. by rewrite xorb_true_r.
  - apply elem_of_cons in Hq as [Hq|Hq]; [done|]. unfold flips in IH. destruct (f p).
    + rewrite IH by (done || by rewrite length_insert). by rewrite !nth_lookup, list_lookup_insert_ne.
    + by apply IH.
Qed.

(** ** The loops *)

Lemma fold_left_concat {A B C} (f : A -> B -> A) (g : C -> list B) (l : list C) (a : A) :
  fold_left (fun a c => fold_left f (g c) a) l a = fold_left f (concat (map g l)) a.
Proof. revert a. induction l as [|c l IH]; intros a; [done|]. cbn [fold_left map concat]. by rewrite fold_left_app, IH. Qed.

(** The order of the data modules: pairs of columns from the right, up and down
    in turn, around the column of the timing pattern. *)
Fixpoint zigzag_loop (fuel size right : nat) (upward : bool) : list (nat * nat) :=
  match fuel with
  | O => []
  | S fuel =>
      let right := if (right =? 6)%nat then (right - 1)%nat else right in
      concat (map (fun step => let y := (if upward then size - 1 - step else step)%nat in [(right, y); ((right - 1)%nat, y)]) (seq 0 size)) ++
      (if (right <? 2)%nat then [] else zigzag_loop fuel size (right - 2) (negb upward))
  end.
Definition zigzag (size : nat) : list (nat * nat) := zigzag_loop size size (size - 1) true.

Lemma place_size cw st xy : size (place cw st xy).1 = size st.1.
Proof. destruct st as [c k]. cbn. by destruct (is_function _ _ _). Qed.

Lemma fold_place_size cw l st : size (fold_left (place cw) l st).1 = size st.1.
Proof. revert st. induction l as [|xy l IH]; intros st; [done|]. cbn [fold_left]. by rewrite IH, place_size. Qed.

Lemma draw_loop_zigzag fuel cw right upward st :
  draw_loop fuel cw right upward st = fold_left (place cw) (zigzag_loop fuel (size st.1) right upward) st.
Proof.
  revert right upward st. induction fuel as [|fuel IH]; intros right upward st; [done|].
  cbn [draw_loop zigzag_loop]. set (r := if (right =? 6)%nat then _ else _). cbv zeta. rewrite fold_left_app.
  rewrite (fold_left_concat (place cw) (fun step => [(r, _); _])).
  destruct (r <? 2)%nat; [done|]. by rewrite IH, fold_place_size.
Qed.

(** The free positions of a list, and the bits that go there from [k] on. *)
Definition free (c : Canvas) (l : list (nat * nat)) : list nat :=
  map (fun xy => at_ c xy.1 xy.2) (List.filter (fun xy => negb (is_function c xy.1 xy.2)) l).
Fixpoint numbered (cw : list Z) (k : nat) (ps : list nat) : list (nat * bool) :=
  match ps with
  | [] => []
  | p :: ps => (p, codeword_bit cw k) :: numbered cw (S k) ps
  end.

Lemma numbered_fst cw k ps : map fst (numbered cw k ps) = ps.
Proof. revert k. induction ps as [|p ps IH]; intros k; [done|]. cbn. by rewrite IH. Qed.

Lemma numbered_lookup cw k ps i p : ps !! i = Some p -> numbered cw k ps !! i = Some (p, codeword_bit cw (k + i)).
Proof.
  revert k i. induction ps as [|q ps IH]; intros k [|i] Hi; try done; cbn in *.
  - injection Hi as ->. by rewrite Nat.add_0_r.
  - rewrite (IH (S k)) by done. by rewrite Nat.add_succ_r.
Qed.

Lemma fold_place cw l c k :
  fold_left (place cw) l (c, k) =
    (mkCanvas (size c) (writes (numbered cw k (free c l)) (modules c)) (function c), (k + length (free c l))%nat).
Proof.
  revert c k. induction l as [|[x y] l IH]; intros c k; [by destruct c; cbn; rewrite Nat.add_0_r|].
  cbn [fold_left]. unfold place at 2. cbn [fst snd]. unfold free. cbn [List.filter fst snd].
  destruct (is_function c x y) eqn:E; cbn [negb map length numbered fst snd].
  - apply IH.
  - rewrite IH. cbn [size modules function Canvas_set]. by rewrite Nat.add_succ_r.
Qed.

Lemma draw_codewords_writes cw c :
  draw_codewords cw c = mkCanvas (size c) (writes (numbered cw 0 (free c (zigzag (size c)))) (modules c)) (function c).
Proof. unfold draw_codewords. by rewrite draw_loop_zigzag, fold_place. Qed.

(** ** Masks *)

Definition all_positions (size : nat) : list (nat * nat) :=
  concat (map (fun y => map (fun x => (x, y)) (seq 0 size)) (seq 0 size)).
Definition place_of (size : nat) (xy : nat * nat) : nat := (xy.2 * size + xy.1)%nat.

Lemma place_of_inv size x y : (x < size)%nat -> (place_of size (x, y) mod size = x /\ place_of size (x, y) / size = y)%nat.
Proof.
  intros Hx. unfold place_of. cbn [fst snd]. rewrite Nat.add_comm. split.
  - rewrite Nat.Div0.mod_add. by apply Nat.mod_small.
  - rewrite Nat.div_add, Nat.div_small by lia. lia.
Qed.

Lemma all_positions_places size : map (place_of size) (all_positions size) = seq 0 (size * size).
Proof.
  unfold all_positions. rewrite concat_map, map_map.
  assert (H : forall n k, concat (map (fun y => map (place_of size) (map (fun x => (x, y)) (seq 0 size))) (seq k n)) = seq (k * size) (n * size)).
  - induction n as [|n IH]; intros k; [done|]. cbn [seq map concat]. rewrite IH, map_map. cbn [Nat.mul].
    rewrite seq_app. f_equal; [|f_equal; lia].
    rewrite <- (Nat.add_0_r (k * size)) at 1. exact (fmap_add_seq (k * size) 0 size).
  - apply (H size 0%nat).
Qed.

(** The positions a mask turns over. *)
Definition turned (c : Canvas) (mask p : nat) : bool :=
  negb (nth p (function c) false) && mask_condition mask (p mod size c) (p / size c).

Lemma fold_ext_in {A B} (f g : A -> B -> A) l a : (forall a b, b ∈ l -> f a b = g a b) -> fold_left f l a = fold_left g l a.
Proof.
  revert a. induction l as [|b l IH]; intros a H; [done|]. cbn [fold_left]. rewrite H by apply list_elem_of_here.
  apply IH. intros a' b' Hb. apply H. by apply list_elem_of_further.
Qed.

Lemma apply_mask_flips mask c :
  apply_mask mask c = mkCanvas (size c) (flips (turned c mask) (seq 0 (size c * size c)) (modules c)) (function c).
Proof.
  rewrite <- all_positions_places. unfold apply_mask, for_each.
  set (body := fun (xy : nat * nat) c => if negb (is_function c xy.1 xy.2) && mask_condition mask xy.1 xy.2
                                         then Canvas_set xy.1 xy.2 (negb (Canvas_get c xy.1 xy.2)) c else c).
  transitivity (fold_left (fun c xy => body xy c) (all_positions (size c)) c).
  { unfold all_positions. rewrite <- fold_left_concat. apply fold_ext_in. intros c' y _. symmetry.
    generalize (seq 0 (size c)). intros l. revert c'. induction l as [|x l IH]; intros c'; [done|]. cbn [map fold_left]. by rewrite IH. }
  assert (Hin : forall xy, xy ∈ all_positions (size c) -> (xy.1 < size c)%nat).
  { intros [x y] H. unfold all_positions in H. apply list_elem_of_In, in_concat in H as (l & Hl & Hx).
    apply in_map_iff in Hl as (y' & <- & _). apply in_map_iff in Hx as (x' & [= -> _] & Hx). apply in_seq in Hx. cbn. lia. }
  revert Hin. generalize (all_positions (size c)) as l. intros l Hin.
  enough (H : forall m, fold_left (fun c xy => body xy c) l (mkCanvas (size c) m (function c)) =
     mkCanvas (size c) (flips (turned c mask) (map (place_of (size c)) l) m) (function c)) by (specialize (H (modules c)); by destruct c).
  induction l as [|[x y] l IH]; intros m; [done|]. cbn [map fold_left flips].
  destruct (place_of_inv (size c) x y) as [Hx Hy]; [apply (Hin (x, y)), list_elem_of_here|].
  assert (E : body (x, y) (mkCanvas (size c) m (function c)) =
    mkCanvas (size c) (if turned c mask (place_of (size c) (x, y)) then <[place_of (size c) (x, y) := negb (nth (place_of (size c) (x, y)) m false)]> m else m) (function c)).
  { unfold body, turned. rewrite Hx, Hy. unfold is_function, Canvas_set, Canvas_get, at_, place_of. cbn [fst snd size modules function].
    by destruct (_ && _). }
  rewrite E. apply IH. intros xy Hxy. apply Hin. by apply list_elem_of_further.
Qed.

End QrLayout.

Import Qr QrLayout.

Module QrSymbol.

(** ** The geometry of the standard *)

Definition near (a b r : nat) : bool := (a <=? b + r)%nat && (b <=? a + r)%nat.

(** The modules that carry no data: timing patterns, finder patterns with their
    separators and the format around them, alignment patterns, and the version
    blocks from version 7 on. *)
Definition reserved (version x y : nat) : bool :=
  let s := (4 * version + 17)%nat in
  let centres := nth (version - 1) ALIGNMENT [] in
  let last := List.last centres 0%nat in
  ((x =? 6) || (y =? 6) ||
   ((x <? 9) && (y <? 9)) || ((s - 8 <=? x) && (y <? 9)) || ((x <? 9) && (s - 8 <=? y)) ||
   existsb (fun cx => existsb (fun cy =>
     negb (((cx =? 6) && (cy =? 6)) || ((cx =? 6) && (cy =? last)) || ((cx =? last) && (cy =? 6))) && near x cx 2 && near y cy 2)
     centres) centres ||
   ((7 <=? version) && (((x <? 6) && (s - 11 <=? y)) || ((y <? 6) && (s - 11 <=? x)))))%nat.

(** The places of the fifteen format bits, twice over. *)
Definition format_places (s : nat) : list (nat * nat) :=
  (map (fun i => (8, i)) (seq 0 6) ++ [(8, 7); (8, 8); (7, 8)] ++ map (fun i => (14 - i, 8)) (seq 9 6) ++
   map (fun i => (s - 1 - i, 8)) (seq 0 8) ++ map (fun i => (8, s - 15 + i)) (seq 8 7))%nat.
Definition format_indices : list nat := seq 0 15 ++ seq 0 15.

(** ** Distinct positions *)

(** Marks each position, and stops at one that is marked or out of range. *)
Fixpoint distinct (ps : list nat) (marks : list bool) : bool :=
  match ps with
  | [] => true
  | p :: ps => match marks !! p with Some false => distinct ps (<[p := true]> marks) | _ => false end
  end.

Lemma distinct_sound ps marks : distinct ps marks = true -> NoDup ps /\ forall p, p ∈ ps -> marks !! p = Some false.
Proof.
  revert marks. induction ps as [|p ps IH]; intros marks H.
  - split; [constructor|]. intros p Hp. by apply not_elem_of_nil in Hp.
  - cbn [distinct] in H. destruct (marks !! p) as [[]|] eqn:E; try done. destruct (IH _ H) as [Hn Hm]. split.
    + apply list.NoDup_cons. split; [|done]. intros Hp. specialize (Hm p Hp).
      rewrite list_lookup_insert_eq in Hm by (by apply lookup_lt_Some in E). done.
    + intros q Hq. apply elem_of_cons in Hq as [->|Hq]; [done|]. specialize (Hm q Hq).
      destruct (decide (p = q)) as [->|Hne]; [done|]. by rewrite list_lookup_insert_ne in Hm.
Qed.

(** ** The layouts, checked *)

Definition side (version : nat) : nat := (4 * version + 17)%nat.
Definition base (version : nat) : Canvas := draw_function_patterns version (Canvas_new (side version)).

(** What is checked of a canvas [c] of side [s] with the function patterns drawn. *)
Definition canvas_ok (version : nat) (c : Canvas) (s : nat) : bool :=
  (size c =? s)%nat && (length (modules c) =? s * s)%nat &&
  forallb (fun xy => Bool.eqb (is_function c xy.1 xy.2) (reserved version xy.1 xy.2)) (all_positions s) &&
  forallb (fun xy => (xy.1 <? s)%nat && (xy.2 <? s)%nat) (zigzag s) &&
  distinct (free c (zigzag s)) (repeat false (s * s)) &&
  (8 * nth (version - 1) TOTAL_CODEWORDS 0 <=? length (free c (zigzag s)))%nat &&
  forallb (fun p => nth p (function c) false) (map (place_of s) (format_places s)) &&
  distinct (map (place_of s) (format_places s)) (repeat false (s * s)).

Lemma layouts_checked : forallb (fun version => canvas_ok version (base version) (side version)) (seq 1 10) = true.
Proof. vm_compute. reflexivity. Qed.

Definition version_ok (version : nat) : Prop := (1 <= version <= 10)%nat.

Lemma layout version : version_ok version -> canvas_ok version (base version) (side version) = true.
Proof. intros Hv. apply (proj1 (forallb_forall (fun v => canvas_ok v (base v) (side v)) _) layouts_checked version), in_seq. unfold version_ok in Hv. lia. Qed.

(** The data modules of a version, in order. *)
Definition data_modules (version : nat) : list (nat * nat) :=
  List.filter (fun xy => negb (reserved version xy.1 xy.2)) (zigzag (side version)).

Lemma in_all_positions s x y : (x < s)%nat -> (y < s)%nat -> In (x, y) (all_positions s).
Proof.
  intros Hx Hy. unfold all_positions. apply in_concat. exists (map (fun x => (x, y)) (seq 0 s)). split.
  - apply in_map_iff. exists y. split; [done|]. apply in_seq. lia.
  - apply in_map_iff. exists x. split; [done|]. apply in_seq. lia.
Qed.

Record Layout (version : nat) (c : Canvas) (s : nat) : Prop := mkLayout {
  layout_size : size c = s;
  layout_length : length (modules c) = (s * s)%nat;
  layout_function : forall x y, (x < s)%nat -> (y < s)%nat -> is_function c x y = reserved version x y;
  layout_zigzag : forall xy, In xy (zigzag s) -> (xy.1 < s)%nat /\ (xy.2 < s)%nat;
  layout_free : NoDup (free c (zigzag s));
  layout_room : (8 * nth (version - 1) TOTAL_CODEWORDS 0 <= length (free c (zigzag s)))%nat;
  layout_format : forall p, In p (map (place_of s) (format_places s)) -> nth p (function c) false = true;
  layout_format_distinct : NoDup (map (place_of s) (format_places s));
  layout_format_inside : forall p, In p (map (place_of s) (format_places s)) -> (p < s * s)%nat }.

Lemma canvas_ok_layout version c s : canvas_ok version c s = true -> Layout version c s.
Proof.
  unfold canvas_ok. intros H.
  apply andb_true_iff in H as [H H8]. apply andb_true_iff in H as [H H7]. apply andb_true_iff in H as [H H6].
  apply andb_true_iff in H as [H H5]. apply andb_true_iff in H as [H H4]. apply andb_true_iff in H as [H H3].
  apply andb_true_iff in H as [H1 H2]. apply Nat.eqb_eq in H1, H2. apply Nat.leb_le in H6.
  apply distinct_sound in H5 as [H5 _]. apply distinct_sound in H8 as [H8 H8']. rewrite forallb_forall in H3, H4, H7.
  split; [done|done| | |done|done|done|done|].
  - intros x y Hx Hy. by apply eqb_prop, (H3 (x, y)), in_all_positions.
  - intros xy Hxy. specialize (H4 xy Hxy). apply andb_true_iff in H4 as [E1 E2]. apply Nat.ltb_lt in E1, E2. by split.
  - intros p Hp. apply list_elem_of_In in Hp. specialize (H8' p Hp). apply lookup_lt_Some in H8'. by rewrite repeat_length in H8'.
Qed.

Lemma layout_facts version : version_ok version -> Layout version (base version) (side version).
Proof. intros Hv. apply canvas_ok_layout, layout, Hv. Qed.

Lemma free_reserved version c s : Layout version c s ->
  free c (zigzag s) = map (place_of s) (List.filter (fun xy => negb (reserved version xy.1 xy.2)) (zigzag s)).
Proof.
  intros H. unfold free.
  assert (E : List.filter (fun xy => negb (is_function c xy.1 xy.2)) (zigzag s) =
              List.filter (fun xy => negb (reserved version xy.1 xy.2)) (zigzag s)).
  { apply filter_ext_in. intros [x y] Hxy. destruct (layout_zigzag _ _ _ H _ Hxy) as [Hx Hy]. cbn [fst snd] in *.
    by rewrite (layout_function _ _ _ H). }
  rewrite E. apply map_ext. intros xy. unfold at_, place_of. by rewrite (layout_size _ _ _ H).
Qed.

(** ** The format *)

Definition sets (l : list (nat * nat * bool)) (c : Canvas) : Canvas := fold_left (fun c w => set_function w.1.1 w.1.2 w.2 c) l c.

Lemma sets_modules l c : modules (sets l c) = writes (map (fun w => (place_of (size c) w.1, w.2)) l) (modules c).
Proof.
  revert c. induction l as [|w l IH]; intros c; [done|]. cbn [sets fold_left map]. unfold sets in IH. rewrite IH. done.
Qed.

Definition format_bits_of (bits : Z) : list bool := map (fun i => Z.testbit bits (Z.of_nat i)) format_indices.

Lemma draw_format_sets ecc mask c :
  draw_format_info ecc mask c = sets (zip (format_places (size c)) (format_bits_of (format_info ecc mask))) c.
Proof.
  unfold draw_format_info, for_each, sets, format_bits_of, format_indices, format_places.
  generalize (format_info ecc mask) as bits. generalize (size c) as s. intros s bits. reflexivity.
Qed.

Lemma format_lengths s bits : length (format_places s) = length (format_bits_of bits).
Proof. done. Qed.

Lemma draw_format_modules ecc mask c :
  modules (draw_format_info ecc mask c) =
    writes (zip (map (place_of (size c)) (format_places (size c))) (format_bits_of (format_info ecc mask))) (modules c).
Proof.
  rewrite draw_format_sets, sets_modules. f_equal.
Qed.

(** ** The mask *)

(** The mask that is kept has a score no mask undercuts. *)
Lemma best_mask ecc c n : (0 < n)%nat ->
  exists m, (m < n)%nat /\ fold_left (better ecc c) (seq 0 n) None = Some (penalty (masked ecc c m), m, modules (masked ecc c m)) /\
    forall k, (k < n)%nat -> penalty (masked ecc c m) <= penalty (masked ecc c k) /\ (penalty (masked ecc c k) = penalty (masked ecc c m) -> (m <= k)%nat).
Proof.
  induction n as [|n IH]; intros Hn; [lia|]. rewrite seq_S, fold_left_app. cbn [fold_left plus].
  destruct (Nat.eq_dec n 0%nat) as [->|Hn0].
  - exists 0%nat. split; [lia|]. split; [done|]. intros k Hk. assert (k = 0)%nat as -> by lia. split; [lia|done].
  - destruct (IH ltac:(lia)) as (m & Hm & -> & Hmin). unfold better. destruct (_ <? _) eqn:E.
    + apply Z.ltb_lt in E. exists n. split; [lia|]. split; [done|]. intros k Hk. destruct (Nat.eq_dec k n) as [->|Hkn]; [by split|].
      destruct (Hmin k ltac:(lia)) as [H1 _]. split; lia.
    + apply Z.ltb_ge in E. exists m. split; [lia|]. split; [done|]. intros k Hk.
      destruct (Nat.eq_dec k n) as [->|Hkn]; [split; lia|]. apply Hmin. lia.
Qed.

(** ** The modules of a symbol *)

Section Modules.
Context (version : nat) (c : Canvas) (s : nat) (H : Layout version c s).
Context (cw : list Z) (ecc : Ecc) (mask : nat).

Definition data_at : list (nat * nat) := List.filter (fun xy => negb (reserved version xy.1 xy.2)) (zigzag s).
Definition drawn : list bool := modules (masked ecc (draw_codewords cw c) mask).

Lemma drawn_eq : drawn = modules (masked ecc (draw_codewords cw c) mask).
Proof. reflexivity. Qed.

Lemma drawn_spec :
  drawn = writes (zip (map (place_of s) (format_places s)) (format_bits_of (format_info ecc mask)))
            (flips (turned c mask) (seq 0 (s * s)) (writes (numbered cw 0 (map (place_of s) data_at)) (modules c))).
Proof.
  unfold drawn, masked. rewrite draw_format_modules, apply_mask_flips. cbn [size modules].
  rewrite draw_codewords_writes. cbn [size modules function].
  change (turned (mkCanvas (size c) ?m (function c)) mask) with (turned c mask).
  rewrite (layout_size _ _ _ H), (free_reserved _ _ _ H). done.
Qed.

Lemma drawn_length : length drawn = (s * s)%nat.
Proof. rewrite drawn_spec, writes_length, flips_length, writes_length. apply (layout_length _ _ _ H). Qed.

Lemma data_at_inside xy : In xy data_at -> (xy.1 < s)%nat /\ (xy.2 < s)%nat /\ nth (place_of s xy) (function c) false = false.
Proof.
  intros Hin. apply filter_In in Hin as [Hz Hr]. destruct (layout_zigzag _ _ _ H _ Hz) as [Hx Hy]. split; [done|]. split; [done|].
  apply negb_true_iff in Hr. rewrite <- (layout_function _ _ _ H) in Hr by done.
  unfold is_function, at_ in Hr. by rewrite (layout_size _ _ _ H) in Hr.
Qed.

Lemma place_bound xy : (xy.1 < s)%nat -> (xy.2 < s)%nat -> (place_of s xy < s * s)%nat.
Proof. unfold place_of. nia. Qed.

(** A data module holds its bit, turned over where the mask says. *)
Lemma drawn_data i x y : data_at !! i = Some (x, y) ->
  nth (place_of s (x, y)) drawn false = xorb (codeword_bit cw i) (mask_condition mask x y).
Proof.
  intros Hi. assert (Hin : In (x, y) data_at) by (by apply list_elem_of_In, list_elem_of_lookup_2 with i).
  destruct (data_at_inside _ Hin) as (Hx & Hy & Hf). cbn [fst snd] in Hx, Hy. pose proof (place_bound (x, y) Hx Hy) as Hb.
  rewrite drawn_spec, nth_lookup, writes_other.
  - rewrite <- nth_lookup, flips_at; [|apply NoDup_ListNoDup, seq_NoDup|apply list_elem_of_In, in_seq; lia|].
    + unfold turned. rewrite Hf. rewrite (layout_size _ _ _ H). destruct (place_of_inv s x y Hx) as [-> ->].
      cbn [negb andb]. f_equal. rewrite nth_lookup, (writes_at _ _ i _ (codeword_bit cw i)); [done| | |].
      * rewrite numbered_fst. unfold data_at. rewrite <- (free_reserved _ _ _ H). apply (layout_free _ _ _ H).
      * apply numbered_lookup. rewrite list_lookup_fmap, Hi. done.
      * by rewrite (layout_length _ _ _ H).
    + by rewrite writes_length, (layout_length _ _ _ H).
  - intros Hp. change (map fst) with (fmap (M := list) (@fst nat bool)) in Hp. rewrite fst_zip in Hp by (by rewrite length_map).
    apply list_elem_of_In in Hp. pose proof (layout_format _ _ _ H _ Hp) as Hft. congruence.
Qed.

(** Both copies of the format are there. *)
Lemma drawn_format j x y k : format_places s !! j = Some (x, y) -> format_indices !! j = Some k ->
  nth (place_of s (x, y)) drawn false = Z.testbit (format_info ecc mask) (Z.of_nat k).
Proof.
  intros Hj Hk. rewrite drawn_spec, nth_lookup.
  rewrite (writes_at _ _ j _ (Z.testbit (format_info ecc mask) (Z.of_nat k))); [done| | |].
  - change (map fst) with (fmap (M := list) (@fst nat bool)). rewrite fst_zip by (by rewrite length_map). apply (layout_format_distinct _ _ _ H).
  - apply lookup_zip_with_Some. exists (place_of s (x, y)), (Z.testbit (format_info ecc mask) (Z.of_nat k)). split; [done|].
    unfold format_bits_of. rewrite !list_lookup_fmap. by rewrite Hj, Hk.
  - rewrite flips_length, writes_length, (layout_length _ _ _ H). apply (layout_format_inside _ _ _ H), in_map.
    by apply list_elem_of_In, list_elem_of_lookup_2 with j.
Qed.

End Modules.

End QrSymbol.
