(* ===== verification/QrCodewords.v ===== *)
(** * The codewords of a QR symbol

    A reader of symbols, written from the standard: it takes the format, undoes
    the mask, collects the bits in zig-zag order, puts the interleaved blocks
    together again and reads the byte segment. The lemmas undo the encoder's
    steps one by one. *)

From S2P Require Import Prelude Text Qr QrSymbol QrField.
Import Qr QrLayout QrSymbol QrField.

Module QrCodewords.

(** ** A reader of symbols *)

Definition from_bits (l : list bool) : Z := fold_left (fun n (b : bool) => 2 * n + (if b then 1 else 0)) l 0.

(** The level and the mask, from the first copy of the format. *)
Definition read_format (s : nat) (m : nat -> nat -> bool) : Ecc * nat :=
  let at_place j := let '(x, y) := nth j (format_places s) (0, 0)%nat in m x y in
  let data := Z.shiftr (Z.lxor (from_bits (map at_place (rev (seq 0 15)))) 0x5412) 10 in
  ((match Z.shiftr data 3 with 1 => Low | 0 => Medium | 3 => Quartile | _ => High end), Z.to_nat (Z.land data 7)).

(** The data codewords of the blocks, in the order of the message. *)
Definition deinterleave (version : nat) (ecc : Ecc) (codewords : list Z) : list Z :=
  let '(_, g1, d, g2) := block_shape version ecc in
  let n := (g1 + g2)%nat in
  concat (map (fun b => map (fun i => nth (if (i <? d)%nat then i * n + b else d * n + (b - g1))%nat codewords 0)
                          (seq 0 (if (b <? g1)%nat then d else d + 1)%nat)) (seq 0 n)).

(** The one segment of a message: its mode, its length and its bytes. *)
Definition read_message (version : nat) (data : list Z) : option (list Z) :=
  let bits := concat (map (fun b => push b 8) data) in
  if from_bits (take 4 bits) =? 4 then
    let n := Z.to_nat (from_bits (take (count_bits version) (drop 4 bits))) in
    Some (map from_bits (take n (chunks 8 (drop (4 + count_bits version) bits))))
  else None.

Definition read (s : nat) (m : nat -> nat -> bool) : Ecc * option (list Z) :=
  let version := ((s - 17) / 4)%nat in
  let '(ecc, mask) := read_format s m in
  let bits := map (fun xy => xorb (m xy.1 xy.2) (mask_condition mask xy.1 xy.2)) (data_at version s) in
  let codewords := map from_bits (chunks 8 (take (8 * nth (version - 1) TOTAL_CODEWORDS 0)%nat bits)) in
  (ecc, read_message version (deinterleave version ecc codewords)).

(** ** Bits *)

Lemma push_length v w : length (push v w) = w.
Proof. unfold push. by rewrite length_map, length_rev, length_seq. Qed.

Lemma push_succ v w : push v (S w) = Z.testbit v (Z.of_nat w) :: push v w.
Proof. unfold push. rewrite seq_S, rev_app_distr. done. Qed.

Lemma from_bits_cons (b : bool) l : from_bits (b :: l) = (if b then 1 else 0) * 2 ^ Z.of_nat (length l) + from_bits l.
Proof.
  unfold from_bits. cbn [fold_left]. replace (2 * 0 + (if b then 1 else 0)) with (if b then 1 else 0) by (by destruct b).
  generalize (if b then 1 else 0) as a. induction l as [|c l IH] using rev_ind; intros a; [cbn; lia|].
  rewrite !fold_left_app, IH, length_app, Nat2Z.inj_add. cbn [fold_left length]. rewrite Z.pow_add_r by lia. cbn. lia.
Qed.

Lemma from_bits_push v w : from_bits (push v w) = v mod 2 ^ Z.of_nat w.
Proof.
  induction w as [|w IH]; [cbn; by rewrite Z.mod_1_r|].
  rewrite push_succ, from_bits_cons, push_length, IH, Nat2Z.inj_succ, Z.pow_succ_r by lia.
  rewrite (Z.mul_comm 2), Z.rem_mul_r by lia. rewrite <- Z.testbit_spec' by lia. destruct (Z.testbit v _); cbn; lia.
Qed.

Lemma from_bits_byte b : 0 <= b < 256 -> from_bits (push b 8) = b.
Proof. intros Hb. rewrite from_bits_push. by apply Z.mod_small. Qed.

Lemma pack_chunk chunk : length chunk = 8%nat -> push (pack 0 chunk 0) 8 = chunk /\ 0 <= pack 0 chunk 0 < 256.
Proof.
  intros Hl. destruct chunk as [|b0 [|b1 [|b2 [|b3 [|b4 [|b5 [|b6 [|b7 [|]]]]]]]]]; try done.
  destruct b0, b1, b2, b3, b4, b5, b6, b7; by vm_compute.
Qed.

Lemma chunks_concat {A} (ls : list (list A)) r : Forall (fun l => length l = 8%nat) ls -> chunks 8 (concat ls ++ r) = ls ++ chunks 8 r.
Proof.
  induction 1 as [|l ls Hl _ IH]; [done|]. cbn [concat app]. rewrite <- app_assoc.
  assert (Hn : l ++ concat ls ++ r <> []) by (by destruct l). rewrite chunks_cons by (done || lia).
  by rewrite take_app_length', drop_app_length', IH by done.
Qed.

(** A list of a multiple of eight is cut into eights. *)
Lemma chunks_whole {A} n (l : list A) : length l = (8 * n)%nat ->
  concat (chunks 8 l) = l /\ Forall (fun c => length c = 8%nat) (chunks 8 l) /\ length (chunks 8 l) = n.
Proof.
  revert l. induction n as [|n IH]; intros l Hl; [by destruct l|].
  assert (Hn : l <> []) by (by intros ->). rewrite chunks_cons by (done || lia).
  destruct (IH (drop 8 l)) as (H1 & H2 & H3); [rewrite length_drop; lia|]. cbn [concat length]. rewrite H1, H3, take_drop.
  split; [done|]. split; [|done]. constructor; [rewrite length_take; lia|done].
Qed.

(** The bits of codewords one by one. *)
Lemma codeword_bits cw : map (codeword_bit cw) (seq 0 (8 * length cw)) = concat (map (fun b => push b 8) cw).
Proof.
  induction cw as [|b cw IH]; [done|]. cbn [length map concat].
  replace (8 * S (length cw))%nat with (8 + 8 * length cw)%nat by lia. rewrite seq_app, map_app. f_equal.
  rewrite <- IH, <- (fmap_add_seq 8 0), <- list_fmap_compose. apply map_ext. intros i. unfold codeword_bit. cbn [compose].
  replace ((8 + i) / 8)%nat with (S (i / 8)) by (symmetry; exact (Nat.div_add_l 1 8 i ltac:(lia))).
  replace ((8 + i) mod 8)%nat with (i mod 8)%nat by (rewrite (Nat.add_comm 8 i); symmetry; exact (Nat.Div0.mod_add i 1 8)).
  done.
Qed.

Lemma read_codewords cw : Forall gf cw -> map from_bits (chunks 8 (map (codeword_bit cw) (seq 0 (8 * length cw)))) = cw.
Proof.
  intros Hg. rewrite codeword_bits, <- (app_nil_r (concat _)), chunks_concat, chunks_nil, app_nil_r, map_map.
  - rewrite <- (map_id cw) at 2. apply map_ext_in. intros b Hb. rewrite List.Forall_forall in Hg. by apply from_bits_byte, Hg.
  - apply List.Forall_map, Forall_true. intros b. apply push_length.
Qed.

(** ** Messages *)

Section Message.
Context (bytes_ : list Z) (version capacity : nat).
Context (Hfit : (4 + count_bits version + 8 * length bytes_ <= 8 * capacity)%nat).

Definition header : list bool := push MODE_BYTE 4 ++ push (u32 (Z.of_nat (length bytes_))) (count_bits version).
Definition body : list bool := concat (map (fun byte => push byte 8) bytes_).

Lemma concat_length8 (l : list Z) : length (concat (map (fun byte => push byte 8) l)) = (8 * length l)%nat.
Proof. induction l as [|b l IH]; [done|]. cbn [map concat length]. rewrite length_app, push_length, IH. lia. Qed.

Lemma message_bits_spec : exists tail k, message_bits bytes_ version capacity = header ++ body ++ tail /\
  length (message_bits bytes_ version capacity) = (8 * k)%nat /\ (k <= capacity)%nat.
Proof.
  unfold message_bits. fold body. rewrite (app_assoc (push MODE_BYTE 4)). fold header.
  assert (Hl : length (header ++ body) = (4 + count_bits version + 8 * length bytes_)%nat).
  { unfold header, body. rewrite !length_app, !push_length, concat_length8. lia. }
  set (t := Nat.min _ 4). set (bits := (header ++ body) ++ push 0 t).
  assert (Hb : length bits = (length (header ++ body) + t)%nat) by (unfold bits; by rewrite length_app, push_length).
  assert (Ht : (length bits <= 8 * capacity)%nat) by (rewrite Hb; unfold t; lia).
  set (p := ((8 - length bits mod 8) mod 8)%nat).
  assert (Hp : exists k, (length bits + p = 8 * k)%nat /\ (k <= capacity)%nat).
  { pose proof (Nat.div_mod_eq (length bits) 8) as Hd. pose proof (Nat.mod_upper_bound (length bits) 8) as Hm.
    specialize (Hm ltac:(lia)). destruct (Nat.eq_dec (length bits mod 8)%nat 0%nat) as [E|E].
    - exists (length bits / 8)%nat. unfold p. rewrite E. change ((8 - 0) mod 8)%nat with 0%nat. split; lia.
    - exists (S (length bits / 8)). unfold p. rewrite Nat.mod_small by lia. split; lia. }
  destruct Hp as (k & Hk & Hkc). exists (push 0 t ++ push 0 p), k. split; [by unfold bits; rewrite <- !app_assoc|].
  rewrite length_app, push_length. by split.
Qed.

(** The data codewords spell the message bits, and then padding. *)
Lemma message_codewords_spec : exists tail,
  concat (map (fun b => push b 8) (message_codewords bytes_ version capacity)) = header ++ body ++ tail /\
  length (message_codewords bytes_ version capacity) = capacity /\ Forall gf (message_codewords bytes_ version capacity).
Proof.
  destruct message_bits_spec as (tail & k & Hm & Hl & Hk). unfold message_codewords. cbv zeta.
  destruct (chunks_whole k (message_bits bytes_ version capacity) Hl) as (Hc & Hf & Hn).
  set (cs := chunks 8 (message_bits bytes_ version capacity)) in *. rewrite length_map, Hn.
  set (pads := map _ (seq 0 (capacity - k))). exists (tail ++ concat (map (fun b => push b 8) pads)). split_and!.
  - rewrite map_app, concat_app, map_map, !app_assoc. f_equal. rewrite <- app_assoc, <- Hm, <- Hc.
    f_equal. rewrite <- (map_id cs) at 2. apply map_ext_in. intros c Hin. rewrite List.Forall_forall in Hf. by apply pack_chunk, Hf.
  - rewrite length_app, length_map, Hn. unfold pads. rewrite length_map, length_seq. lia.
  - apply Forall_app. split.
    + apply List.Forall_map. revert Hf. apply Forall_impl. intros c Hlen. by apply pack_chunk.
    + apply List.Forall_map, Forall_true. intros i. unfold PAD_CODEWORDS.
      destruct (i mod 2)%nat as [|[|n]]; [done|done|by destruct n].
Qed.

Lemma read_message_back : Forall gf bytes_ -> Z.of_nat (length bytes_) < 2 ^ Z.of_nat (count_bits version) -> Z.of_nat (length bytes_) < 2 ^ 32 ->
  read_message version (message_codewords bytes_ version capacity) = Some bytes_.
Proof.
  intros Hg Hn H32. destruct message_codewords_spec as (tail & E & _ & _). unfold read_message. cbv zeta. rewrite E. unfold header.
  rewrite <- !app_assoc. rewrite take_app_length', drop_app_length' by (by rewrite push_length).
  change (from_bits (push MODE_BYTE 4) =? 4) with true. cbv iota.
  rewrite take_app_length' by (by rewrite push_length). rewrite <- drop_drop, drop_app_length', drop_app_length' by (by rewrite push_length).
  rewrite from_bits_push. unfold wrap. rewrite (Z.mod_small _ (2 ^ 32)), Z.mod_small, Nat2Z.id by lia.
  unfold body. rewrite chunks_concat by (apply List.Forall_map, Forall_true; intros b; apply push_length).
  rewrite take_app_length' by (by rewrite length_map). rewrite map_map. f_equal.
  rewrite <- (map_id bytes_) at 2. apply map_ext_in. intros b Hb. rewrite List.Forall_forall in Hg. by apply from_bits_byte, Hg.
Qed.

End Message.

(** ** Blocks *)

Lemma split_blocks_spec lens data : sum_list lens = length data ->
  concat (split_blocks data lens) = data /\ map length (split_blocks data lens) = lens.
Proof.
  revert data. induction lens as [|n lens IH]; intros data Hs; cbn [split_blocks sum_list_with] in *; unfold id in *.
  - by destruct data.
  - destruct (IH (drop n data)) as [H1 H2]; [rewrite length_drop; lia|]. cbn [concat map]. rewrite H1, H2, take_drop, length_take.
    split; [done|]. f_equal. lia.
Qed.

Lemma map_seq_nth {A} (l : list A) d : map (fun i => nth i l d) (seq 0 (length l)) = l.
Proof.
  induction l as [|a l IH]; [done|]. cbn [length seq map nth]. f_equal. rewrite <- seq_shift, map_map. apply IH.
Qed.

Lemma omap_all i (bs : list (list Z)) : Forall (fun b => (i < length b)%nat) bs -> omap (fun b => b !! i) bs = map (fun b => nth i b 0) bs.
Proof.
  induction 1 as [|b bs Hb _ IH]; [done|]. cbn. destruct (lookup_lt_is_Some_2 b i Hb) as [x Hx]. rewrite Hx. cbn. f_equal; [|apply IH].
  by rewrite nth_lookup, Hx.
Qed.

Lemma omap_none i (bs : list (list Z)) : Forall (fun b => (length b <= i)%nat) bs -> omap (fun b => b !! i) bs = [].
Proof. induction 1 as [|b bs Hb _ IH]; [done|]. cbn. rewrite lookup_ge_None_2 by done. apply IH. Qed.

Lemma nth_concat_uniform (ls : list (list Z)) n i j r : Forall (fun l => length l = n) ls -> (j < n)%nat -> (i < length ls)%nat ->
  nth (i * n + j) (concat ls ++ r) 0 = nth j (nth i ls []) 0.
Proof.
  intros Hl Hj. revert i. induction Hl as [|l ls Hl _ IH]; intros [|i] Hi; try (cbn in Hi; lia); cbn [concat nth length] in *.
  - rewrite <- app_assoc, app_nth1 by lia. done.
  - rewrite <- app_assoc, app_nth2 by lia. rewrite <- IH by lia. f_equal. lia.
Qed.

Lemma concat_uniform_length (ls : list (list Z)) n : Forall (fun l => length l = n) ls -> length (concat ls) = (length ls * n)%nat.
Proof. induction 1 as [|l ls Hl _ IH]; [done|]. cbn [concat length]. rewrite length_app, IH. lia. Qed.

Section Blocks.
Context (bs : list (list Z)) (g1 d g2 : nat) (Hlen : map length bs = repeat d g1 ++ repeat (d + 1)%nat g2).

Lemma blocks_count : length bs = (g1 + g2)%nat.
Proof. rewrite <- (length_map length bs), Hlen, length_app, !repeat_length. done. Qed.

Lemma blocks_split : map length (take g1 bs) = repeat d g1 /\ map length (drop g1 bs) = repeat (d + 1)%nat g2.
Proof.
  rewrite <- firstn_map, <- skipn_map, Hlen. split.
  - apply take_app_length'. by rewrite repeat_length.
  - apply drop_app_length'. by rewrite repeat_length.
Qed.

Lemma lengths_forall (l : list (list Z)) n k : map length l = repeat n k -> Forall (fun b => length b = n) l.
Proof.
  intros H. apply List.Forall_forall. intros b Hb. apply (in_map length) in Hb. rewrite H in Hb. by apply repeat_spec in Hb.
Qed.

Lemma blocks_long : Forall (fun b => (d <= length b)%nat) bs.
Proof.
  destruct blocks_split as [H1 H2]. apply lengths_forall in H1, H2. rewrite <- (take_drop g1 bs). apply Forall_app. split.
  - revert H1. apply Forall_impl. intros b. lia.
  - revert H2. apply Forall_impl. intros b. lia.
Qed.

Definition row (i : nat) : list Z := omap (fun b => b !! i) bs.

Lemma row_full i : (i < d)%nat -> row i = map (fun b => nth i b 0) bs.
Proof. intros Hi. apply omap_all. pose proof blocks_long as H. revert H. apply Forall_impl. intros b. lia. Qed.

Lemma row_last : row d = map (fun b => nth d b 0) (drop g1 bs).
Proof.
  destruct blocks_split as [H1 H2]. apply lengths_forall in H1, H2. unfold row. rewrite <- (take_drop g1 bs) at 1.
  rewrite omap_app, omap_none, omap_all; [done| |].
  - revert H2. apply Forall_impl. intros b. lia.
  - revert H1. apply Forall_impl. intros b. lia.
Qed.

Definition rows_full : list (list Z) := map row (seq 0 d).

Lemma rows_full_uniform : Forall (fun l => length l = (g1 + g2)%nat) rows_full.
Proof.
  apply List.Forall_map, List.Forall_forall. intros i Hi. apply in_seq in Hi. rewrite row_full, length_map by lia. apply blocks_count.
Qed.

Lemma interleave_rows : interleave (d + (if 0 <? g2 then 1 else 0))%nat bs = concat rows_full ++ (if (0 <? g2)%nat then row d else []).
Proof.
  unfold interleave, rows_full. destruct (0 <? g2)%nat.
  - rewrite Nat.add_1_r, seq_S, map_app, concat_app. cbn. by rewrite app_nil_r.
  - by rewrite Nat.add_0_r, app_nil_r.
Qed.

Lemma interleave_at b i r : (b < g1 + g2)%nat -> (i < (if b <? g1 then d else d + 1))%nat ->
  nth (if (i <? d)%nat then i * (g1 + g2) + b else d * (g1 + g2) + (b - g1))%nat
    (interleave (d + (if 0 <? g2 then 1 else 0))%nat bs ++ r) 0 = nth i (nth b bs []) 0.
Proof.
  intros Hb Hi. rewrite interleave_rows, <- app_assoc. destruct (Nat.ltb_spec i d) as [Hd|Hd].
  - rewrite nth_concat_uniform with (n := (g1 + g2)%nat); [|apply rows_full_uniform|done|by unfold rows_full; rewrite length_map, length_seq].
    unfold rows_full. rewrite (nth_indep _ [] (row 0)) by (by rewrite length_map, length_seq).
    rewrite (map_nth row (seq 0 d) 0%nat i), seq_nth, row_full by done.
    rewrite (nth_indep _ 0 (nth i [] 0)) by (by rewrite length_map, blocks_count).
    apply (map_nth (fun b => nth i b 0) bs [] b).
  - destruct (Nat.ltb_spec b g1) as [Hg|Hg]; [lia|]. assert (i = d) as -> by lia.
    rewrite app_nth2 by (rewrite (concat_uniform_length _ _ rows_full_uniform); unfold rows_full; rewrite length_map, length_seq; lia).
    rewrite (concat_uniform_length _ _ rows_full_uniform). unfold rows_full. rewrite length_map, length_seq.
    replace (d * (g1 + g2) + (b - g1) - d * (g1 + g2))%nat with (b - g1)%nat by lia.
    rewrite (proj2 (Nat.ltb_lt 0 g2)) by lia. rewrite row_last.
    rewrite app_nth1 by (rewrite length_map, length_drop, blocks_count; lia).
    rewrite (nth_indep _ 0 (nth d [] 0)) by (rewrite length_map, length_drop, blocks_count; lia).
    rewrite (map_nth (fun b => nth d b 0)). f_equal. rewrite !nth_lookup, lookup_drop. do 2 f_equal. lia.
Qed.

Lemma block_length b : (b < g1 + g2)%nat -> length (nth b bs []) = (if (b <? g1)%nat then d else d + 1)%nat.
Proof.
  intros Hb. assert (H : nth b (map length bs) 0%nat = length (nth b bs [])) by apply (map_nth length bs [] b).
  rewrite <- H, Hlen. destruct (Nat.ltb_spec b g1) as [Hg|Hg].
  - rewrite app_nth1 by (by rewrite repeat_length). by rewrite (nth_indep _ 0%nat d), nth_repeat by (by rewrite repeat_length).
  - rewrite app_nth2 by (by rewrite repeat_length). rewrite (nth_indep _ 0%nat (d + 1)%nat), nth_repeat by (rewrite !repeat_length; lia). done.
Qed.

Lemma blocks_back r :
  concat (map (fun b => map (fun i => nth (if (i <? d)%nat then i * (g1 + g2) + b else d * (g1 + g2) + (b - g1))%nat
                                        (interleave (d + (if 0 <? g2 then 1 else 0))%nat bs ++ r) 0)
                          (seq 0 (if (b <? g1)%nat then d else d + 1)%nat)) (seq 0 (g1 + g2))) = concat bs.
Proof.
  f_equal. transitivity (map (fun b => nth b bs []) (seq 0 (length bs))); [|apply map_seq_nth].
  rewrite blocks_count. apply map_ext_in. intros b Hb. apply in_seq in Hb.
  transitivity (map (fun i => nth i (nth b bs []) 0) (seq 0 (length (nth b bs [])))); [|apply map_seq_nth].
  rewrite block_length by lia. apply map_ext_in. intros i Hi. apply in_seq in Hi. apply interleave_at; lia.
Qed.

Lemma interleave_length : length (interleave (d + (if 0 <? g2 then 1 else 0))%nat bs) = (g1 * d + g2 * (d + 1))%nat.
Proof.
  rewrite interleave_rows, length_app, (concat_uniform_length _ _ rows_full_uniform). unfold rows_full. rewrite length_map, length_seq.
  destruct (Nat.ltb_spec 0 g2) as [Hg|Hg]; [rewrite row_last, length_map, length_drop, blocks_count|]; cbn [length]; lia.
Qed.

End Blocks.

Lemma interleave_gf n bs : Forall (Forall gf) bs -> Forall gf (interleave n bs).
Proof.
  intros H. apply List.Forall_forall. intros x Hx. unfold interleave in Hx. apply in_concat in Hx as (l & Hl & Hx).
  apply in_map_iff in Hl as (i & <- & _). apply list_elem_of_In, list_elem_of_omap in Hx as (b & Hb & Hi).
  rewrite List.Forall_forall in H. apply list_elem_of_In in Hb. specialize (H b Hb). rewrite List.Forall_forall in H.
  apply H. by apply list_elem_of_In, list_elem_of_lookup_2 with i.
Qed.

End QrCodewords.
