(* ===== verification/QrTheorems.v ===== *)
(** * The QR encoder: theorems

    A symbol reads back as the data it was made from, its blocks can be
    corrected, its mask is the best of the eight, and the drawing is the symbol. *)

From S2P Require Import Prelude Text Qr QrField QrSymbol QrCodewords.

Import Qr QrField.

(** ** The distance of the code

    Two words that vanish at the first [e] powers of the primitive element and
    differ in at most [e] places are the same word. The argument removes one
    place at a time from a combination of powers that is zero. *)

Module QrDistance.

(** ** Sums of powers *)

(** [c * x ^ i], added up over the terms [(x, c)]. *)
Fixpoint psum (l : list (Z * Z)) (i : nat) : Z :=
  match l with
  | [] => 0
  | xc :: l => Z.lxor (gf_mul xc.2 (power xc.1 i)) (psum l i)
  end.

Definition term (xc : Z * Z) : Prop := gf xc.1 /\ gf xc.2.
Definition twist (y : Z) (xc : Z * Z) : Z * Z := (xc.1, gf_mul xc.2 (Z.lxor xc.1 y)).

Lemma psum_gf l i : gf (psum l i).
Proof. induction l as [|[x c] l IH]; [done|]. apply gf_xor; [apply gf_mul_gf|exact IH]. Qed.

Lemma xor_swap a b c d : Z.lxor (Z.lxor a b) (Z.lxor c d) = Z.lxor (Z.lxor a c) (Z.lxor b d).
Proof. rewrite !Z.lxor_assoc. f_equal. rewrite <- !Z.lxor_assoc. f_equal. apply Z.lxor_comm. Qed.

Lemma psum_twist y l i : gf y -> Forall term l -> psum (map (twist y) l) i = Z.lxor (psum l (S i)) (gf_mul y (psum l i)).
Proof.
  intros Hy. induction 1 as [|[x c] l [Hx Hc] _ IH]; [by rewrite gf_mul_0_r|]. cbn [map psum twist fst snd] in *. rewrite IH.
  rewrite (gf_mul_xor_r y) by (done || apply gf_mul_gf || apply psum_gf). rewrite xor_swap. f_equal.
  rewrite gf_mul_xor_r, gf_mul_xor_l by (done || apply gf_mul_gf || apply power_gf). cbn [power].
  rewrite !gf_mul_assoc. f_equal. by rewrite (gf_mul_comm c y).
Qed.

Lemma twist_same y c i l : psum (map (twist y) ((y, c) :: l)) i = psum (map (twist y) l) i.
Proof. cbn [map psum twist fst snd]. rewrite Z.lxor_nilpotent, gf_mul_0_r. done. Qed.

(** Distinct points whose first power sums are all zero have zero coefficients. *)
Lemma psum_zero n l : length l = n -> List.NoDup (map fst l) -> Forall term l -> (forall i, (i < n)%nat -> psum l i = 0) ->
  Forall (fun xc => xc.2 = 0) l.
Proof.
  revert l. induction n as [|n IH]; intros [|[y c] l] Hl Hd Ht Hz; try done. cbn [length] in Hl. apply eq_add_S in Hl.
  cbn [map fst] in Hd. apply NoDup_cons_iff in Hd as [Hy Hd]. pose proof Ht as Hall. apply Forall_cons_iff in Ht as [[Hgy Hgc] Ht].
  cbn [fst snd] in Hgy, Hgc.
  assert (Hw : Forall (fun xc => xc.2 = 0) (map (twist y) l)).
  { apply IH; [by rewrite length_map|by rewrite map_map| |].
    - apply List.Forall_map. revert Ht. apply Forall_impl. intros [x d] [Hx _]. split; [exact Hx|apply gf_mul_gf].
    - intros i Hi. rewrite <- (twist_same y c), psum_twist by done. by rewrite !Hz, gf_mul_0_r by lia. }
  assert (H : Forall (fun xc => xc.2 = 0) l).
  { rewrite List.Forall_forall in Hw |- *. intros [x d] Hin. specialize (Hw _ (in_map (twist y) _ _ Hin)). cbn [twist fst snd] in *.
    destruct (Z.eq_dec d 0) as [|Hd0]; [done|]. exfalso. destruct (Z.eq_dec (Z.lxor x y) 0) as [E|E].
    - apply Z.lxor_eq in E as ->. apply Hy. by apply (in_map fst) in Hin.
    - by apply (gf_mul_nonzero d (Z.lxor x y)). }
  constructor; [|exact H]. cbn [snd]. specialize (Hz 0%nat ltac:(lia)). cbn [psum fst snd power] in Hz. rewrite gf_mul_1_r in Hz by done.
  replace (psum l 0) with 0 in Hz; [by rewrite Z.lxor_0_r in Hz|]. clear -H. induction H as [|[x d] l Hd _ IH]; [done|].
  cbn [psum fst snd] in *. by rewrite Hd, <- IH.
Qed.

(** ** Words as sums of powers *)

Lemma power_exps i k : 0 <= i < 255 -> power (exps i) k = exps ((i * Z.of_nat k) mod 255).
Proof.
  intros Hi. induction k as [|k IH]; [by rewrite Z.mul_0_r|]. cbn [power]. rewrite IH.
  destruct (log_of_exp i Hi) as (H1 & _ & H2). pose proof (Z.mod_pos_bound (i * Z.of_nat k) 255 ltac:(lia)) as Hb.
  destruct (log_of_exp _ Hb) as (H3 & _ & H4). rewrite gf_mul_logs, H1, H3 by done. f_equal.
  rewrite Z.add_mod_idemp_r by lia. f_equal. lia.
Qed.

Fixpoint terms (p : list Z) : list (Z * Z) :=
  match p with [] => [] | c :: p => (exps (Z.of_nat (length p)), c) :: terms p end.

Lemma eval_terms p i : Forall gf p -> (length p <= 255)%nat -> (i < 255)%nat -> eval (exps (Z.of_nat i)) p = psum (terms p) i.
Proof.
  intros Hp Hl Hi. induction Hp as [|c p Hc Hp IH]; [done|]. cbn [length] in Hl. cbn [terms psum fst snd]. rewrite <- IH by lia.
  assert (Hx : gf (exps (Z.of_nat i))) by (apply log_of_exp; lia).
  change (c :: p) with ([c] ++ p). rewrite eval_app by (done || by constructor).
  change (eval (exps (Z.of_nat i)) [c]) with (Z.lxor (gf_mul 0 (exps (Z.of_nat i))) c). rewrite gf_mul_0_l, Z.lxor_0_l.
  rewrite !power_exps by lia. by rewrite Z.mul_comm.
Qed.

Lemma terms_spec p : Forall gf p -> (length p <= 255)%nat -> List.NoDup (map fst (terms p)) /\ Forall term (terms p).
Proof.
  intros Hp. induction Hp as [|c p Hc Hp IH]; intros Hl; [split; constructor|]. cbn [length] in Hl. destruct (IH ltac:(lia)) as [Hn Ht].
  destruct (log_of_exp (Z.of_nat (length p)) ltac:(lia)) as (Hlog & Hg & _). cbn [terms map fst]. split; [|by constructor].
  constructor; [|done]. intros Hin. assert (H : forall q, (length q <= 255)%nat -> In (exps (Z.of_nat (length p))) (map fst (terms q)) -> (length p < length q)%nat).
  { induction q as [|d q IHq]; intros Hq Hi; [done|]. cbn [terms map fst In length] in *. destruct Hi as [E|Hi]; [|specialize (IHq ltac:(lia) Hi); lia].
    destruct (log_of_exp (Z.of_nat (length q)) ltac:(lia)) as (Hlog' & _). rewrite E, Hlog in Hlog'. lia. }
  specialize (H p ltac:(lia) Hin). lia.
Qed.

Definition nonzero (c : Z) : bool := negb (c =? 0).

Lemma psum_filter l i : psum (List.filter (fun xc => nonzero xc.2) l) i = psum l i.
Proof.
  induction l as [|[x c] l IH]; [done|]. cbn [List.filter snd]. unfold nonzero at 1. destruct (Z.eqb_spec c 0) as [->|]; cbn [negb psum fst snd]; by rewrite IH.
Qed.

Lemma filter_NoDup_fst (f : Z * Z -> bool) l : List.NoDup (map fst l) -> List.NoDup (map fst (List.filter f l)).
Proof.
  induction l as [|xc l IH]; intros H; [done|]. cbn [map] in H. apply NoDup_cons_iff in H as [Hx H]. cbn [List.filter].
  destruct (f xc); [|by apply IH]. cbn [map]. constructor; [|by apply IH]. intros Hin. apply Hx.
  apply in_map_iff in Hin as (z & E & Hz). apply filter_In in Hz as [Hz _]. rewrite <- E. by apply in_map.
Qed.

Lemma terms_filter_length p : length (List.filter (fun xc => nonzero xc.2) (terms p)) = length (List.filter nonzero p).
Proof. induction p as [|c p IH]; [done|]. cbn [terms List.filter snd]. destruct (nonzero c); cbn [length]; by rewrite IH. Qed.

(** A word of at most [e] nonzero places that vanishes [e] times is zero. *)
Lemma light_word_zero p e : Forall gf p -> (length p <= 255)%nat -> (e <= 255)%nat -> (length (List.filter nonzero p) <= e)%nat ->
  (forall i, (i < e)%nat -> eval (exps (Z.of_nat i)) p = 0) -> List.filter nonzero p = [].
Proof.
  intros Hp Hl He Hw Hv. destruct (terms_spec p Hp Hl) as [Hn Ht]. rewrite <- terms_filter_length in Hw.
  assert (H : Forall (fun xc => xc.2 = 0) (List.filter (fun xc => nonzero xc.2) (terms p))).
  { eapply psum_zero; [done|by apply filter_NoDup_fst| |].
    - apply List.Forall_forall. intros xc Hin. apply filter_In in Hin as [Hin _]. rewrite List.Forall_forall in Ht. by apply Ht.
    - intros i Hi. rewrite psum_filter, <- eval_terms by (done || lia). apply Hv. lia. }
  apply nil_length_inv. rewrite <- terms_filter_length. destruct (List.filter _ (terms p)) as [|xc l] eqn:E; [done|]. exfalso.
  assert (Hin : In xc (List.filter (fun xc => nonzero xc.2) (terms p))) by (rewrite E; by left). apply filter_In in Hin as [_ Hz].
  apply Forall_inv in H. unfold nonzero in Hz. by rewrite H in Hz.
Qed.

(** ** Distance *)

(** The places where two words differ. *)
Fixpoint distance (u v : list Z) : nat :=
  match u, v with
  | a :: u, b :: v => ((if (a =? b)%Z then 0 else 1) + distance u v)%nat
  | _, _ => 0%nat
  end.

Lemma distance_triangle u v w : length u = length v -> length v = length w -> (distance u w <= distance u v + distance v w)%nat.
Proof.
  revert v w. induction u as [|a u IH]; intros [|b v] [|c w] H1 H2; try done. cbn [length distance] in *.
  specialize (IH v w ltac:(lia) ltac:(lia)). destruct (Z.eqb_spec a b), (Z.eqb_spec b c), (Z.eqb_spec a c); lia.
Qed.

Lemma distance_sym u v : distance u v = distance v u.
Proof. revert v. induction u as [|a u IH]; intros [|b v]; try done. cbn [distance]. rewrite IH, (Z.eqb_sym a b). done. Qed.

Lemma distance_weight u v : distance u v = length (List.filter nonzero (zip_with Z.lxor u v)).
Proof.
  revert v. induction u as [|a u IH]; intros [|b v]; try done. cbn [distance zip_with List.filter]. rewrite IH. unfold nonzero at 2.
  destruct (Z.eqb_spec a b) as [->|Hne]; [by rewrite Z.lxor_nilpotent|].
  destruct (Z.eqb_spec (Z.lxor a b) 0) as [E|E]; [by apply Z.lxor_eq in E|done].
Qed.

Lemma distance_zero u v : length u = length v -> distance u v = 0%nat -> u = v.
Proof.
  revert v. induction u as [|a u IH]; intros [|b v] Hl Hd; try done. cbn [length distance] in *. destruct (Z.eqb_spec a b) as [->|]; [|lia].
  f_equal. apply IH; lia.
Qed.

Definition vanishing (e : nat) (u : list Z) : Prop := forall i, (i < e)%nat -> eval (exps (Z.of_nat i)) u = 0.

Lemma code_distance e u v : Forall gf u -> Forall gf v -> length u = length v -> (length u <= 255)%nat -> (e <= 255)%nat ->
  vanishing e u -> vanishing e v -> (distance u v <= e)%nat -> u = v.
Proof.
  intros Hu Hv Hl H255 He Zu Zv Hd. apply distance_zero; [done|]. rewrite distance_weight in *.
  rewrite (light_word_zero (zip_with Z.lxor u v) e); [done| |rewrite length_zip_with; lia|done|done|].
  - clear -Hu Hv. revert v Hv. induction Hu as [|a u Ha _ IH]; intros v Hv; [constructor|]. destruct Hv as [|b v Hb Hv]; [constructor|].
    constructor; [by apply gf_xor|by apply IH].
  - intros i Hi. rewrite eval_zip, (Zu i Hi), (Zv i Hi) by (done || apply log_of_exp; lia). done.
Qed.

End QrDistance.

Import Qr QrLayout QrSymbol QrField QrCodewords QrDistance.

Module QrTheorems.

(** ** The tables, checked *)

Definition shape_ok (version : nat) (ecc : Ecc) : bool :=
  let '(e, g1, d, g2) := block_shape version ecc in
  bool_decide (block_lengths version ecc = repeat d g1 ++ repeat (d + 1)%nat g2) &&
  (data_codewords version ecc + (g1 + g2) * e =? nth (version - 1) TOTAL_CODEWORDS 0)%nat &&
  (sum_list (block_lengths version ecc) =? data_codewords version ecc)%nat &&
  (1 <=? e)%nat && (e <=? 30)%nat && (d + 1 + e <=? 255)%nat &&
  (4 + count_bits version + 8 * capacity_bytes version ecc <=? 8 * data_codewords version ecc)%nat &&
  (Z.of_nat (capacity_bytes version ecc) <? 2 ^ Z.of_nat (count_bits version)).

Definition levels : list Ecc := [Low; Medium; Quartile; High].

Lemma shapes_checked : forallb (fun version => forallb (shape_ok version) levels) (seq 1 10) = true.
Proof. vm_compute. reflexivity. Qed.

Record Shape (version : nat) (ecc : Ecc) (e g1 d g2 : nat) : Prop := mkShape {
  shape_block : block_shape version ecc = (e, g1, d, g2);
  shape_lengths : block_lengths version ecc = repeat d g1 ++ repeat (d + 1)%nat g2;
  shape_total : (data_codewords version ecc + (g1 + g2) * e = nth (version - 1) TOTAL_CODEWORDS 0)%nat;
  shape_sum : sum_list (block_lengths version ecc) = data_codewords version ecc;
  shape_degree : (1 <= e <= 30)%nat;
  shape_small : (d + 1 + e <= 255)%nat;
  shape_fit : (4 + count_bits version + 8 * capacity_bytes version ecc <= 8 * data_codewords version ecc)%nat;
  shape_count : Z.of_nat (capacity_bytes version ecc) < 2 ^ Z.of_nat (count_bits version) }.

Lemma shape version ecc : version_ok version -> exists e g1 d g2, Shape version ecc e g1 d g2.
Proof.
  intros Hv. pose proof (proj1 (forallb_forall (fun v => forallb (shape_ok v) levels) _) shapes_checked version
    ltac:(apply in_seq; unfold version_ok in Hv; lia)) as H. cbv beta in H.
  pose proof (proj1 (forallb_forall (shape_ok version) _) H ecc ltac:(destruct ecc; cbn; auto)) as Hs. clear H.
  unfold shape_ok in Hs. destruct (block_shape version ecc) as [[[e g1] d] g2] eqn:Eb. exists e, g1, d, g2.
  apply andb_true_iff in Hs as [Hs H7]. apply andb_true_iff in Hs as [Hs H6]. apply andb_true_iff in Hs as [Hs H8]. apply andb_true_iff in Hs as [Hs H5].
  apply andb_true_iff in Hs as [Hs H4]. apply andb_true_iff in Hs as [Hs H3]. apply andb_true_iff in Hs as [H1 H2].
  apply bool_decide_eq_true in H1. apply Nat.eqb_eq in H2, H3. apply Nat.leb_le in H4, H5, H6, H8. apply Z.ltb_lt in H7.
  split; [exact Eb|exact H1|exact H2|exact H3|split; [exact H4|exact H5]|exact H8|exact H6|exact H7].
Qed.

(** ** The codewords *)

Section Codewords.
Context (data : list Z) (version : nat) (ecc : Ecc) (e g1 d g2 : nat) (Hs : Shape version ecc e g1 d g2).
Context (Hdata : Forall gf data) (Hfit : (length data <= capacity_bytes version ecc)%nat).

Definition message : list Z := message_codewords data version (data_codewords version ecc).
Definition blocks : list (list Z) := split_blocks message (block_lengths version ecc).
Definition corrections : list (list Z) := map (fun block => remainder block (generator e)) blocks.

Lemma message_fits : (4 + count_bits version + 8 * length data <= 8 * data_codewords version ecc)%nat.
Proof. pose proof (shape_fit _ _ _ _ _ _ Hs). lia. Qed.

Lemma message_spec : length message = data_codewords version ecc /\ Forall gf message.
Proof. destruct (message_codewords_spec data version (data_codewords version ecc) message_fits) as (tail & _ & H1 & H2). by split. Qed.

Lemma blocks_spec : concat blocks = message /\ map length blocks = repeat d g1 ++ repeat (d + 1)%nat g2 /\ Forall (Forall gf) blocks.
Proof.
  destruct message_spec as [Hl Hg].
  destruct (split_blocks_spec (block_lengths version ecc) message) as [H1 H2]; [by rewrite Hl, (shape_sum _ _ _ _ _ _ Hs)|].
  split; [exact H1|]. split; [unfold blocks; rewrite H2; apply (shape_lengths _ _ _ _ _ _ Hs)|].
  apply List.Forall_forall. intros b Hb. apply List.Forall_forall. intros x Hx. rewrite List.Forall_forall in Hg. apply Hg.
  rewrite <- H1. apply in_concat. by exists b.
Qed.

Lemma blocks_number : length blocks = (g1 + g2)%nat.
Proof. destruct blocks_spec as (_ & H & _). by apply (blocks_count _ _ _ _ H). Qed.

Lemma corrections_spec : map length corrections = repeat e (g1 + g2) ++ repeat (e + 1)%nat 0 /\ Forall (Forall gf) corrections.
Proof.
  destruct blocks_spec as (_ & _ & Hg). pose proof (shape_degree _ _ _ _ _ _ Hs) as He.
  destruct (generator_spec e He) as (Hl & Hf & _).
  assert (H : forall b, In b blocks -> length (remainder b (generator e)) = e /\ Forall gf (remainder b (generator e))).
  { intros b Hb. rewrite List.Forall_forall in Hg. destruct (remainder_spec b (generator e)) as (H1 & H2 & _); [lia|by apply Hg|done|].
    by rewrite H1. }
  cbn [repeat]. rewrite app_nil_r. unfold corrections. rewrite map_map. split.
  - rewrite <- blocks_number. clear Hg. induction blocks as [|b bs IH]; [done|]. cbn [map length repeat].
    rewrite (proj1 (H b (in_eq _ _))). f_equal. apply IH. intros b' Hb'. apply H. by right.
  - apply List.Forall_map, List.Forall_forall. intros b Hb. by apply H.
Qed.

Lemma encode_codewords_eq :
  encode_codewords data version ecc = interleave (d + (if 0 <? g2 then 1 else 0))%nat blocks ++ interleave e corrections.
Proof.
  unfold encode_codewords. rewrite (shape_block _ _ _ _ _ _ Hs). fold message. fold blocks. fold corrections. done.
Qed.

Lemma interleave_corrections_length : length (interleave e corrections) = ((g1 + g2) * e)%nat.
Proof.
  destruct corrections_spec as [H _]. pose proof (interleave_length _ _ _ _ H) as Hl.
  replace (e + (if (0 <? 0)%nat then 1 else 0))%nat with e in Hl by (cbn; lia). rewrite Hl. lia.
Qed.

Lemma encode_codewords_ok :
  length (encode_codewords data version ecc) = nth (version - 1) TOTAL_CODEWORDS 0%nat /\ Forall gf (encode_codewords data version ecc).
Proof.
  destruct blocks_spec as (_ & Hl & Hg). destruct corrections_spec as [_ Hg']. rewrite encode_codewords_eq. split.
  - rewrite length_app, (interleave_length _ _ _ _ Hl), interleave_corrections_length, <- (shape_total _ _ _ _ _ _ Hs).
    unfold data_codewords. by rewrite (shape_block _ _ _ _ _ _ Hs).
  - apply Forall_app. by split; apply interleave_gf.
Qed.

Lemma deinterleave_back : deinterleave version ecc (encode_codewords data version ecc) = message.
Proof.
  destruct blocks_spec as (Hc & Hl & _). unfold deinterleave. rewrite encode_codewords_eq, (shape_block _ _ _ _ _ _ Hs).
  rewrite (blocks_back blocks g1 d g2 Hl). exact Hc.
Qed.

(** What a reader finds of block [b]: its data codewords and its corrections, at
    their places in the interleaved sequence. *)
Definition block_word (codewords : list Z) (b : nat) : list Z :=
  map (fun i => nth (if (i <? d)%nat then i * (g1 + g2) + b else d * (g1 + g2) + (b - g1))%nat codewords 0)
    (seq 0 (if (b <? g1)%nat then d else d + 1)%nat) ++
  map (fun i => nth (data_codewords version ecc + (i * (g1 + g2) + b))%nat codewords 0) (seq 0 e).

Lemma block_word_eq b : (b < g1 + g2)%nat ->
  block_word (encode_codewords data version ecc) b = nth b blocks [] ++ remainder (nth b blocks []) (generator e).
Proof.
  intros Hb. destruct blocks_spec as (_ & Hl & _). destruct corrections_spec as [Hcl _]. unfold block_word. f_equal.
  - transitivity (map (fun i => nth i (nth b blocks []) 0) (seq 0 (length (nth b blocks [])))); [|apply map_seq_nth].
    rewrite (block_length _ _ _ _ Hl) by done. apply map_ext_in. intros i Hi. apply in_seq in Hi.
    rewrite encode_codewords_eq. apply (interleave_at _ _ _ _ Hl); lia.
  - assert (Hn : nth b corrections [] = remainder (nth b blocks []) (generator e)).
    { unfold corrections. rewrite (nth_indep _ [] (remainder [] (generator e))) by (by rewrite length_map, blocks_number).
      apply (map_nth (fun block => remainder block (generator e))). }
    rewrite <- Hn. transitivity (map (fun i => nth i (nth b corrections []) 0) (seq 0 (length (nth b corrections [])))); [|apply map_seq_nth].
    rewrite (block_length _ _ _ _ Hcl) by lia. rewrite (proj2 (Nat.ltb_lt b (g1 + g2))) by done.
    apply map_ext_in. intros i Hi. apply in_seq in Hi. rewrite encode_codewords_eq, app_nth2;
      rewrite (interleave_length _ _ _ _ Hl); unfold data_codewords; rewrite (shape_block _ _ _ _ _ _ Hs); [|lia].
    replace (g1 * d + g2 * (d + 1) + (i * (g1 + g2) + b) - (g1 * d + g2 * (d + 1)))%nat with (i * (g1 + g2 + 0) + b)%nat by lia.
    pose proof (interleave_at _ _ _ _ Hcl b i [] ltac:(lia) ltac:(rewrite (proj2 (Nat.ltb_lt b (g1 + g2))) by done; lia)) as H.
    rewrite app_nil_r, (proj2 (Nat.ltb_lt i e)) in H by lia.
    replace (e + (if (0 <? 0)%nat then 1 else 0))%nat with e in H by (cbn; lia). exact H.
Qed.

Lemma block_word_length l b : (b < g1 + g2)%nat -> length (block_word l b) = ((if b <? g1 then d else d + 1) + e)%nat.
Proof. intros Hb. unfold block_word. by rewrite length_app, !length_map, !length_seq. Qed.

Lemma block_word_small l b : (b < g1 + g2)%nat -> (length (block_word l b) <= 255)%nat.
Proof. intros Hb. rewrite block_word_length by done. pose proof (shape_small _ _ _ _ _ _ Hs). destruct (b <? g1)%nat; lia. Qed.

Lemma block_gf b : (b < g1 + g2)%nat -> Forall gf (nth b blocks []).
Proof.
  intros Hb. destruct blocks_spec as (_ & _ & Hg). rewrite List.Forall_forall in Hg. apply Hg, nth_In. by rewrite blocks_number.
Qed.

Lemma block_word_code b : (b < g1 + g2)%nat ->
  vanishing e (block_word (encode_codewords data version ecc) b) /\ Forall gf (block_word (encode_codewords data version ecc) b).
Proof.
  intros Hb. rewrite block_word_eq by done. pose proof (block_gf b Hb) as Hg. pose proof (shape_degree _ _ _ _ _ _ Hs) as He. split.
  - intros i Hi. by apply block_vanishes.
  - apply Forall_app. split; [done|]. destruct (generator_spec e He) as (Hl & Hf & _).
    destruct (remainder_spec (nth b blocks []) (generator e)) as (_ & H & _); [lia|done|done|exact H].
Qed.

(** The data parts of the block words, one after another, are the message. *)
Lemma block_words_message :
  concat (map (fun b => take (if (b <? g1)%nat then d else (d + 1)%nat) (block_word (encode_codewords data version ecc) b)) (seq 0 (g1 + g2))) = message.
Proof.
  destruct blocks_spec as (Hc & Hl & _). rewrite <- Hc. f_equal. transitivity (map (fun b => nth b blocks []) (seq 0 (length blocks))); [|apply map_seq_nth].
  rewrite blocks_number. apply map_ext_in. intros b Hb. apply in_seq in Hb. rewrite block_word_eq by lia.
  apply take_app_length'. symmetry. apply (block_length _ _ _ _ Hl). lia.
Qed.

Lemma message_reads_back : read_message version message = Some data.
Proof.
  pose proof (shape_count _ _ _ _ _ _ Hs) as Hn. apply read_message_back; [apply message_fits|done|lia|].
  assert (2 ^ Z.of_nat (count_bits version) <= 2 ^ 32) by (apply Z.pow_le_mono_r; unfold count_bits; destruct (version <=? 9)%nat; lia). lia.
Qed.

End Codewords.

(** ** The symbol *)

Definition symbol (version : nat) (ecc : Ecc) (cw : list Z) (mask : nat) : QrCode :=
  mkQrCode version (side version) ecc mask (drawn (base version) cw ecc mask).

(** The canvas before a mask is applied. *)
Definition unmasked (version : nat) (cw : list Z) : Canvas := draw_codewords cw (base version).

Lemma build_symbol_masks version ecc cw :
  build_symbol version ecc cw None =
    let '(mask, modules) := match fold_left (better ecc (unmasked version cw)) (seq 0 8) None with
                            | Some (_, mask, modules) => (mask, modules)
                            | None => (0%nat, [])
                            end in
    mkQrCode version (side version) ecc mask modules.
Proof. unfold build_symbol, unmasked, base, side. cbv zeta. generalize (seq 0 8) as masks. intros masks. reflexivity. Qed.

Lemma build_symbol_spec version ecc cw : exists mask, (mask < 8)%nat /\
  build_symbol version ecc cw None = symbol version ecc cw mask /\
  forall k, (k < 8)%nat ->
    penalty (masked ecc (unmasked version cw) mask) <= penalty (masked ecc (unmasked version cw) k) /\
    (penalty (masked ecc (unmasked version cw) k) = penalty (masked ecc (unmasked version cw) mask) -> (mask <= k)%nat).
Proof.
  destruct (best_mask ecc (unmasked version cw) 8 ltac:(lia)) as (mask & Hm & E & Hmin). exists mask. split; [done|]. split; [|exact Hmin].
  rewrite build_symbol_masks, E. unfold symbol, drawn, unmasked. reflexivity.
Qed.

Lemma symbol_module version ecc cw mask x y : (x < side version)%nat -> (y < side version)%nat ->
  module (symbol version ecc cw mask) x y = nth (place_of (side version) (x, y)) (drawn (base version) cw ecc mask) false.
Proof.
  intros Hx Hy. unfold module. cbn [symbol qr_size qr_modules].
  by rewrite (proj2 (Nat.leb_gt _ _) Hx), (proj2 (Nat.leb_gt _ _) Hy).
Qed.

(** Of the thirty-two format words, each says its level and mask. *)
Definition format_says (word : Z) : Ecc * nat :=
  let data := Z.shiftr (Z.lxor word 0x5412) 10 in
  ((match Z.shiftr data 3 with 1 => Low | 0 => Medium | 3 => Quartile | _ => High end), Z.to_nat (Z.land data 7)).

Lemma format_word ecc mask : (mask < 8)%nat -> format_says (from_bits (push (format_info ecc mask) 15)) = (ecc, mask).
Proof. intros Hm. do 8 (destruct mask as [|mask]; [by destruct ecc|]). lia. Qed.

Lemma format_inside version j : version_ok version -> (j < 15)%nat ->
  exists x y, format_places (side version) !! j = Some (x, y) /\ format_indices !! j = Some j /\ (x < side version)%nat /\ (y < side version)%nat.
Proof.
  intros Hv Hj. assert (Hs : (21 <= side version)%nat) by (unfold side, version_ok in *; lia). revert Hs. generalize (side version) as s.
  intros s Hs. do 15 (destruct j as [|j]; [do 2 eexists; cbn; split_and!; [done|done|lia|lia]|]). lia.
Qed.

Lemma read_format_symbol version ecc cw mask : version_ok version -> (mask < 8)%nat ->
  read_format (side version) (module (symbol version ecc cw mask)) = (ecc, mask).
Proof.
  intros Hv Hm. rewrite <- (format_word ecc mask Hm). unfold read_format. cbv zeta.
  assert (E : map (fun j => let '(x, y) := nth j (format_places (side version)) (0, 0)%nat in module (symbol version ecc cw mask) x y)
                (rev (seq 0 15)) = push (format_info ecc mask) 15).
  { apply map_ext_in. intros j Hj. rewrite <- in_rev in Hj. apply in_seq in Hj.
    destruct (format_inside version j Hv ltac:(lia)) as (x & y & Hp & Hk & Hx & Hy). rewrite nth_lookup, Hp. cbv [default from_option id].
    rewrite symbol_module by done. by apply (drawn_format version _ _ (layout_facts _ Hv) cw ecc mask j x y j). }
  rewrite E. done.
Qed.

(** The data modules of a symbol, unmasked, spell its codewords. *)
Lemma read_data version ecc cw mask n : version_ok version -> (8 * n <= length (data_at version (side version)))%nat -> length cw = n ->
  take (8 * n) (map (fun xy => xorb (module (symbol version ecc cw mask) xy.1 xy.2) (mask_condition mask xy.1 xy.2)) (data_at version (side version))) =
  map (codeword_bit cw) (seq 0 (8 * length cw)).
Proof.
  intros Hv Hr Hl. apply list_eq. intros i. destruct (decide (i < 8 * n)%nat) as [Hi|Hi].
  - rewrite lookup_take_lt by done. destruct (lookup_lt_is_Some_2 (data_at version (side version)) i ltac:(lia)) as [[x y] Hxy].
    rewrite !list_lookup_fmap, Hxy, lookup_seq_lt by lia. cbn. f_equal.
    pose proof (layout_facts _ Hv) as Hlay. assert (Hin : In (x, y) (data_at version (side version))) by (by apply list_elem_of_In, list_elem_of_lookup_2 with i).
    destruct (data_at_inside version _ _ Hlay _ Hin) as (Hx & Hy & _). cbn [fst snd] in Hx, Hy. rewrite symbol_module by done.
    rewrite (drawn_data version _ _ Hlay cw ecc mask i x y Hxy). by destruct (codeword_bit cw i), (mask_condition mask x y).
  - rewrite !lookup_ge_None_2; [done| |]; rewrite ?length_take, ?length_map, ?length_seq; lia.
Qed.

Lemma data_room version : version_ok version -> (8 * nth (version - 1) TOTAL_CODEWORDS 0 <= length (data_at version (side version)))%nat.
Proof.
  intros Hv. pose proof (layout_facts _ Hv) as H. pose proof (layout_room _ _ _ H) as Hr. rewrite (free_reserved _ _ _ H), length_map in Hr. exact Hr.
Qed.

Lemma side_version version : version_ok version -> ((side version - 17) / 4 = version)%nat.
Proof. intros Hv. unfold side. replace (4 * version + 17 - 17)%nat with (version * 4)%nat by lia. by apply Nat.div_mul. Qed.

Lemma read_symbol version ecc data mask : version_ok version -> (mask < 8)%nat -> Forall gf data -> (length data <= capacity_bytes version ecc)%nat ->
  read (side version) (module (symbol version ecc (encode_codewords data version ecc) mask)) = (ecc, Some data).
Proof.
  intros Hv Hm Hg Hc. destruct (shape version ecc Hv) as (e & g1 & d & g2 & Hs).
  destruct (encode_codewords_ok data version ecc e g1 d g2 Hs Hc) as [Hl Hf].
  unfold read. cbv zeta. rewrite read_format_symbol, side_version by done.
  rewrite read_data by (done || apply data_room, Hv). rewrite read_codewords by done.
  rewrite (deinterleave_back data version ecc e g1 d g2 Hs Hc). f_equal. by apply (message_reads_back data version ecc e g1 d g2).
Qed.

Lemma find_seq f a n :
  match List.find f (seq a n) with
  | Some v => (a <= v < a + n)%nat /\ f v = true /\ forall k, (a <= k < v)%nat -> f k = false
  | None => forall k, (a <= k < a + n)%nat -> f k = false
  end.
Proof.
  revert a. induction n as [|n IH]; intros a; cbn [seq List.find]; [intros k Hk; lia|].
  destruct (f a) eqn:E; [split_and!; [lia|lia|done|intros k Hk; lia]|]. specialize (IH (S a)).
  destruct (List.find f (seq (S a) n)) as [v|].
  - destruct IH as (Hr & Hf & Hm). split_and!; [lia|lia|done|]. intros k Hk. destruct (Nat.eq_dec k a) as [->|]; [done|]. apply Hm. lia.
  - intros k Hk. destruct (Nat.eq_dec k a) as [->|]; [done|]. apply IH. lia.
Qed.

Lemma capacity_grows version ecc : version_ok version -> (capacity_bytes version ecc <= capacity_bytes MAX_VERSION ecc)%nat.
Proof.
  intros Hv. assert (H : forallb (fun v => (capacity_bytes v ecc <=? capacity_bytes MAX_VERSION ecc)%nat) (seq 1 10) = true) by (by destruct ecc).
  rewrite forallb_forall in H. apply Nat.leb_le, H, in_seq. unfold version_ok in Hv. lia.
Qed.

(** The smallest version that holds the data. *)
Lemma choose_version_spec n ecc :
  match choose_version n ecc with
  | Some version => version_ok version /\ (n <= capacity_bytes version ecc)%nat /\ forall k, (1 <= k < version)%nat -> (capacity_bytes k ecc < n)%nat
  | None => (capacity_bytes MAX_VERSION ecc < n)%nat
  end.
Proof.
  unfold choose_version. pose proof (find_seq (fun version => (n <=? capacity_bytes version ecc)%nat) 1 MAX_VERSION) as H.
  destruct (List.find _ _) as [version|].
  - destruct H as (Hr & Hf & Hm). unfold version_ok, MAX_VERSION in *. apply Nat.leb_le in Hf. split_and!; [lia|lia|done|].
    intros k Hk. apply Nat.leb_gt, Hm. lia.
  - apply Nat.leb_gt, H. unfold MAX_VERSION. lia.
Qed.

Lemma unmasked_eq version cw : unmasked version cw = draw_codewords cw (draw_function_patterns version (Canvas_new (side version))).
Proof. unfold unmasked, base. reflexivity. Qed.

Lemma masked_length version ecc cw mask : version_ok version ->
  length (modules (masked ecc (unmasked version cw) mask)) = (side version * side version)%nat.
Proof.
  intros Hv. pose proof (drawn_length version _ _ (layout_facts _ Hv) cw ecc mask) as H. rewrite drawn_eq in H. exact H.
Qed.

Lemma symbol_fields q version ecc cw mask : q = symbol version ecc cw mask ->
  qr_version q = version /\ qr_size q = side version /\ qr_mask q = mask /\ qr_modules q = modules (masked ecc (unmasked version cw) mask).
Proof. intros ->. split; [reflexivity|]. split; [reflexivity|]. split; [reflexivity|]. unfold symbol, drawn, unmasked. reflexivity. Qed.

Lemma encode_with_symbol data ecc q : encode_with data ecc = Ok q ->
  exists version mask, version_ok version /\ (mask < 8)%nat /\ q = symbol version ecc (encode_codewords data version ecc) mask /\
  forall k, (k < 8)%nat ->
    penalty (masked ecc (unmasked version (encode_codewords data version ecc)) mask) <=
      penalty (masked ecc (unmasked version (encode_codewords data version ecc)) k) /\
    (penalty (masked ecc (unmasked version (encode_codewords data version ecc)) k) =
      penalty (masked ecc (unmasked version (encode_codewords data version ecc)) mask) -> (mask <= k)%nat).
Proof.
  intros E. pose proof (choose_version_spec (length data) ecc) as Hc. unfold encode_with in E.
  destruct (choose_version (length data) ecc) as [version|]; [|discriminate E]. injection E as E. destruct Hc as (Hv & _ & _).
  destruct (build_symbol_spec version ecc (encode_codewords data version ecc)) as (mask & Hm & Eb & Hmin). rewrite Eb in E.
  exists version, mask. split; [exact Hv|]. split; [exact Hm|]. split; [symmetry; exact E|exact Hmin].
Qed.

(** ** The drawing *)

Lemma module_outside q x y : (qr_size q <= x)%nat -> module q x y = false.
Proof. intros H. unfold module. by rewrite (proj2 (Nat.leb_le _ _) H). Qed.

Lemma run_end_spec fuel q x y : (qr_size q <= x + fuel)%nat -> (x <= qr_size q)%nat ->
  (x <= run_end fuel q x y <= qr_size q)%nat /\ (forall i, (x <= i < run_end fuel q x y)%nat -> module q i y = true) /\
  module q (run_end fuel q x y) y = false.
Proof.
  revert x. induction fuel as [|fuel IH]; intros x Hf Hx; cbn [run_end].
  - split; [lia|]. split; [intros i Hi; lia|]. apply module_outside. lia.
  - destruct (Nat.ltb_spec x (qr_size q)) as [Hlt|Hge]; cbn [andb]; [|split; [lia|]; split; [intros i Hi; lia|by apply module_outside]].
    destruct (module q x y) eqn:E; [|split; [lia|]; split; [intros i Hi; lia|done]].
    destruct (IH (S x)) as (H1 & H2 & H3); [lia|lia|]. split; [lia|]. split; [|done].
    intros i Hi. destruct (Nat.eq_dec i x) as [->|]; [done|]. apply H2. lia.
Qed.

Definition covers (i : nat) (run : nat * nat) : bool := ((run.1 <=? i) && (i <? run.1 + run.2))%nat.

Lemma row_runs_cover fuel q x y i : (qr_size q < x + fuel)%nat -> (x <= qr_size q)%nat ->
  existsb (covers i) (row_runs fuel q x y) = (x <=? i)%nat && module q i y.
Proof.
  revert x. induction fuel as [|fuel IH]; intros x Hf Hx; [lia|]. cbn [row_runs].
  destruct (Nat.ltb_spec x (qr_size q)) as [Hlt|Hge].
  - destruct (module q x y) eqn:E; cbn [negb].
    + destruct (run_end_spec (qr_size q) q x y) as (H1 & H2 & H3); [lia|lia|]. set (stop := run_end _ q x y) in *.
      assert (Hs : (x < stop)%nat). { destruct (Nat.eq_dec x stop) as [Es|]; [congruence|lia]. }
      cbn [existsb]. rewrite IH by lia. unfold covers. cbn [fst snd]. replace (x + (stop - x))%nat with stop by lia.
      destruct (Nat.leb_spec x i) as [Hi|Hi], (Nat.ltb_spec i stop) as [Hi'|Hi'], (Nat.leb_spec stop i) as [Hj|Hj]; try lia; cbn [andb orb]; try done.
      symmetry. apply H2. lia.
    + rewrite IH by lia. destruct (Nat.leb_spec (S x) i) as [Hi|Hi], (Nat.leb_spec x i) as [Hi'|Hi']; try lia; try done.
      assert (i = x) as -> by lia. by rewrite E.
  - cbn. destruct (Nat.leb_spec x i) as [Hi|Hi]; [|done]. by rewrite module_outside by lia.
Qed.

(** The runs a row is drawn with cover its dark modules and no others. *)
Lemma row_drawn q y i : existsb (covers i) (row_runs (S (qr_size q)) q 0 y) = module q i y.
Proof. by rewrite row_runs_cover by lia. Qed.

Lemma escape_plain text : Forall (fun b => b <> 60 /\ b <> 62 /\ b <> 34 /\ b <> 39) (escape text).
Proof.
  induction text as [|b text IH]; [constructor|]. apply Forall_app. split; [|exact IH]. unfold escape_byte.
  repeat match goal with |- context [if ?c then _ else _] => destruct c eqn:?; [vm_compute; repeat constructor; done|] end.
  constructor; [lia|constructor].
Qed.

(** ** Properties *)

(** C30. [encode_with]: data of at most [capacity_bytes 10 ecc] bytes becomes a
    symbol of the smallest version that holds it, and a reader of the standard,
    who takes the level and the mask from the format modules, undoes the mask,
    walks the data modules in zig-zag order, puts the interleaved blocks together
    and reads the byte segment, finds the level and exactly the data. Longer data
    is refused with its length, the level and the capacity. *)
Theorem qr_reads_back (data : list Z) (ecc : Ecc) : bytes data ->
  match encode_with data ecc with
  | Ok q => (length data <= capacity_bytes MAX_VERSION ecc)%nat /\ qr_ecc q = ecc /\ qr_size q = (4 * qr_version q + 17)%nat /\
      (length data <= capacity_bytes (qr_version q) ecc)%nat /\
      (forall k, (1 <= k < qr_version q)%nat -> (capacity_bytes k ecc < length data)%nat) /\
      read (qr_size q) (module q) = (ecc, Some data)
  | Err e => e = TooLong (length data) ecc (capacity_bytes MAX_VERSION ecc) /\ (capacity_bytes MAX_VERSION ecc < length data)%nat
  end.
Proof.
  intros Hb. pose proof (choose_version_spec (length data) ecc) as Hc. unfold encode_with.
  destruct (choose_version (length data) ecc) as [version|]; [|by split]. destruct Hc as (Hv & Hl & Hmin).
  destruct (build_symbol_spec version ecc (encode_codewords data version ecc)) as (mask & Hm & -> & _).
  cbn [symbol qr_size qr_version qr_ecc]. split_and!; [|done|done|done|done|by apply read_symbol].
  pose proof (capacity_grows version ecc Hv). lia.
Qed.

Lemma qr_reads_back_witness :
  bytes (lit "otpauth://totp/a") /\
  match encode_with (lit "otpauth://totp/a") High with
  | Ok q => qr_ecc q = High
  | Err e => e = TooLong 16 High 119
  end.
Proof.
  split; [by vm_compute; repeat constructor|].
  pose proof (qr_reads_back (lit "otpauth://totp/a") High ltac:(by vm_compute; repeat constructor)) as H.
  destruct (encode_with (lit "otpauth://totp/a") High) as [q|e]; [|by destruct H]. by destruct H as (_ & H & _).
Defined.

(** The codewords of a symbol fill its version, and every block of them can be
    corrected: whatever sequence a scanner reads, as long as each block of it
    differs from the one drawn in at most half as many places as there are
    correction codewords, any decoder that answers with words of the code as near
    to what was read as that (words that vanish at the roots of the generator)
    recovers the message, from which the data is read. *)
Theorem qr_blocks_correctable (data : list Z) (ecc : Ecc) (version : nat) :
  bytes data -> choose_version (length data) ecc = Some version ->
  let '(e, g1, d, g2) := block_shape version ecc in
  let word := block_word version ecc e g1 d g2 in
  let codewords := encode_codewords data version ecc in
  length codewords = nth (version - 1) TOTAL_CODEWORDS 0%nat /\ bytes codewords /\
  (forall b, (b < g1 + g2)%nat -> vanishing e (word codewords b)) /\
  forall (received : list Z) (answers : nat -> list Z),
    (forall b, (b < g1 + g2)%nat ->
       (2 * distance (word codewords b) (word received b) <= e)%nat /\
       (2 * distance (answers b) (word received b) <= e)%nat /\
       length (answers b) = length (word received b) /\ bytes (answers b) /\ vanishing e (answers b)) ->
    read_message version (concat (map (fun b => take (if (b <? g1)%nat then d else (d + 1)%nat) (answers b)) (seq 0 (g1 + g2)))) = Some data.
Proof.
  intros Hb Hc. pose proof (choose_version_spec (length data) ecc) as H. rewrite Hc in H. destruct H as (Hv & Hl & _).
  destruct (shape version ecc Hv) as (e & g1 & d & g2 & Hs). rewrite (shape_block _ _ _ _ _ _ Hs). cbv zeta.
  destruct (encode_codewords_ok data version ecc e g1 d g2 Hs Hl) as [Hlen Hgf]. split; [exact Hlen|]. split; [exact Hgf|]. split.
  { intros b Hbn. by apply (block_word_code data version ecc e g1 d g2 Hs Hl). }
  intros received answers Ha. rewrite <- (message_reads_back data version ecc e g1 d g2 Hs Hb Hl). f_equal.
  rewrite <- (block_words_message data version ecc e g1 d g2 Hs Hl). f_equal. apply map_ext_in. intros b Hbn. apply in_seq in Hbn.
  destruct (Ha b ltac:(lia)) as (H1 & H2 & H3 & H4 & H5). f_equal.
  set (w := block_word version ecc e g1 d g2 (encode_codewords data version ecc) b) in *.
  assert (Hwl : length (block_word version ecc e g1 d g2 received b) = length w) by (unfold w; rewrite !block_word_length by lia; done).
  destruct (block_word_code data version ecc e g1 d g2 Hs Hl b ltac:(lia)) as [Hw1 Hw2]. fold w in Hw1, Hw2.
  pose proof (shape_degree _ _ _ _ _ _ Hs). apply (code_distance e); try done; [lia| |lia|].
  - rewrite H3, Hwl. apply (block_word_small data version ecc e g1 d g2 Hs Hl). lia.
  - pose proof (distance_triangle (answers b) _ w H3 Hwl) as Ht. rewrite (distance_sym (block_word _ _ _ _ _ _ _ _) w) in Ht. lia.
Qed.

Lemma qr_blocks_correctable_witness :
  choose_version 2 Low = Some 1%nat /\
  read_message 1 (take 19 (block_word 1 Low 7 1 19 0 (encode_codewords (lit "hi") 1 Low) 0)) = Some (lit "hi").
Proof.
  split; [reflexivity|].
  pose proof (qr_blocks_correctable (lit "hi") Low 1 ltac:(by vm_compute; repeat constructor) eq_refl) as H.
  cbv beta iota zeta delta [block_shape nth BLOCKS index Nat.sub] in H. destruct H as (_ & _ & Hv & H).
  specialize (H (<[3%nat := 0]> (encode_codewords (lit "hi") 1 Low)) (fun _ => block_word 1 Low 7 1 19 0 (encode_codewords (lit "hi") 1 Low) 0)).
  assert (E : read_message 1 (take 19 (block_word 1 Low 7 1 19 0 (encode_codewords (lit "hi") 1 Low) 0) ++ []) = Some (lit "hi")).
  - apply H. intros b Hb. assert (b = 0%nat) as -> by lia. split; [vm_compute; lia|]. split; [vm_compute; lia|]. split; [vm_compute; reflexivity|].
    split; [vm_compute; repeat constructor; done|]. apply Hv. lia.
  - rewrite app_nil_r in E. exact E.
Defined.

(** The symbol is drawn with the best of the eight masks, its level and mask
    written into the format: no mask has a lower penalty, and of those that have
    the same penalty it is the first. The SVG is drawn from the same modules: the
    runs of each row cover its dark modules and no others, and no byte of the
    escaped title can close the element or attribute it is put in. *)
Theorem qr_symbol_is_drawn (data : list Z) (ecc : Ecc) (q : QrCode) (title : list Z) : encode_with data ecc = Ok q ->
  let c := draw_codewords (encode_codewords data (qr_version q) ecc) (draw_function_patterns (qr_version q) (Canvas_new (qr_size q))) in
  (qr_mask q < 8)%nat /\ qr_modules q = modules (masked ecc c (qr_mask q)) /\ length (qr_modules q) = (qr_size q * qr_size q)%nat /\
  (forall k, (k < 8)%nat ->
     penalty (masked ecc c (qr_mask q)) <= penalty (masked ecc c k) /\
     (penalty (masked ecc c k) = penalty (masked ecc c (qr_mask q)) -> (qr_mask q <= k)%nat)) /\
  (forall x y, existsb (covers x) (row_runs (S (qr_size q)) q 0 y) = module q x y) /\
  Forall (fun b => b <> 60 /\ b <> 62 /\ b <> 34 /\ b <> 39) (escape title).
Proof.
  intros E. destruct (encode_with_symbol data ecc q E) as (version & mask & Hv & Hm & Eq & Hmin).
  destruct (symbol_fields q version ecc _ mask Eq) as (E1 & E2 & E3 & E4). cbv zeta. rewrite E1, E2, E3, E4, <- unmasked_eq.
  split; [exact Hm|]. split; [reflexivity|]. split; [by apply masked_length|].
  split; [exact Hmin|]. split; [|apply escape_plain]. intros x y. rewrite <- E2. apply row_drawn.
Qed.

Lemma qr_symbol_is_drawn_witness :
  exists q, encode_with (lit "hi") Low = Ok q /\ (qr_mask q < 8)%nat.
Proof.
  destruct (encode_with (lit "hi") Low) as [q|e] eqn:E.
  - exists q. split; [done|]. exact (proj1 (qr_symbol_is_drawn (lit "hi") Low q (lit "t") E)).
  - exfalso. unfold encode_with in E. change (choose_version (length (lit "hi")) Low) with (Some 1%nat) in E. discriminate E.
Defined.

End QrTheorems.
