(* ===== verification/Headers.v ===== *)
(** * HTTP headers and statuses ([rustlavel-http/src/headers.rs], [status.rs])

    Header names without case and values without line ends, kept in a map from
    name to values; the statuses with their reasons. *)

From Stdlib Require Import Sorting.Sorted.
From S2P Require Import Prelude Text JsonText.

Module Status.

(** A status is its [u16]. *)
Definition OK : Z := 200.
Definition CREATED : Z := 201.
Definition NO_CONTENT : Z := 204.
Definition FOUND : Z := 302.
Definition SEE_OTHER : Z := 303.
Definition NOT_MODIFIED : Z := 304.
Definition BAD_REQUEST : Z := 400.
Definition NOT_FOUND : Z := 404.
Definition PAYLOAD_TOO_LARGE : Z := 413.

Definition is_success (s : Z) : bool := (200 <=? s) && (s <? 300).
Definition is_redirect (s : Z) : bool := (300 <=? s) && (s <? 400).
Definition is_error (s : Z) : bool := 400 <=? s.
Definition is_bodyless (s : Z) : bool := (s =? 204) || (s =? 304) || ((100 <=? s) && (s <? 200)).

Definition reasons : list (Z * list Z) :=
  [(100, lit "Continue"); (101, lit "Switching Protocols"); (200, lit "OK"); (201, lit "Created");
   (202, lit "Accepted"); (204, lit "No Content"); (301, lit "Moved Permanently"); (302, lit "Found");
   (303, lit "See Other"); (304, lit "Not Modified"); (307, lit "Temporary Redirect");
   (308, lit "Permanent Redirect"); (400, lit "Bad Request"); (401, lit "Unauthorized");
   (403, lit "Forbidden"); (404, lit "Not Found"); (405, lit "Method Not Allowed");
   (408, lit "Request Timeout"); (409, lit "Conflict"); (413, lit "Payload Too Large");
   (415, lit "Unsupported Media Type"); (419, lit "Page Expired"); (422, lit "Unprocessable Content");
   (429, lit "Too Many Requests"); (500, lit "Internal Server Error"); (501, lit "Not Implemented");
   (502, lit "Bad Gateway"); (503, lit "Service Unavailable"); (504, lit "Gateway Timeout")].

Definition reason (s : Z) : list Z :=
  match List.find (fun r => r.1 =? s) reasons with Some r => r.2 | None => lit "Unknown" end.

End Status.

Module Headers.

(** ** Names and values *)

(** Bytes that are a control character of ASCII; the controls U+0080 to U+009F
    are the byte 194 followed by one of 128 to 159. *)
Definition is_control (b : Z) : bool := (b <? 32) || (b =? 127).

Fixpoint sanitise (text : list Z) : list Z :=
  match text with
  | [] => []
  | b :: rest =>
      if b =? 9 then b :: sanitise rest
      else if is_control b then sanitise rest
      else match rest with
           | c :: rest' => if (b =? 194) && in_range 128 159 c then sanitise rest' else b :: sanitise rest
           | [] => [b]
           end
  end.

(** ** The map

    A [BTreeMap<String, Vec<String>>] as the list of its entries in the order of
    their names. *)

Abbreviation Entries := (list (list Z * list (list Z))).

(** [entry(key)], whose values become [f] of what they were (none if the key is new). *)
Fixpoint entry (key : list Z) (f : list (list Z) -> list (list Z)) (h : Entries) : Entries :=
  match h with
  | [] => [(key, f [])]
  | (k, vs) :: rest =>
      if JsonText.key_lt key k then (key, f []) :: h
      else if bool_decide (key = k) then (key, f vs) :: rest
      else (k, vs) :: entry key f rest
  end.

Fixpoint lookup (key : list Z) (h : Entries) : option (list (list Z)) :=
  match h with
  | [] => None
  | (k, vs) :: rest => if bool_decide (k = key) then Some vs else lookup key rest
  end.

Definition set (name value : list Z) (h : Entries) : Entries :=
  entry (lowercase (sanitise name)) (fun _ => [sanitise value]) h.
Definition append (name value : list Z) (h : Entries) : Entries :=
  entry (lowercase (sanitise name)) (fun vs => vs ++ [sanitise value]) h.

Definition get (name : list Z) (h : Entries) : option (list Z) :=
  let! vs := lookup (lowercase name) h in head vs.
Definition get_all (name : list Z) (h : Entries) : list (list Z) :=
  match lookup (lowercase name) h with Some vs => vs | None => [] end.
Definition contains (name : list Z) (h : Entries) : bool :=
  match lookup (lowercase name) h with Some _ => true | None => false end.
Definition remove (name : list Z) (h : Entries) : Entries :=
  List.filter (fun e => negb (bool_decide (e.1 = lowercase name))) h.
Definition is_empty (h : Entries) : bool := match h with [] => true | _ => false end.

Definition iter (h : Entries) : list (list Z * list Z) :=
  concat (map (fun e => map (fun v => (e.1, v)) e.2) h).

Definition parse_usize : list Z -> option Z := parse_int false 0 usize_max.

Definition content_length (h : Entries) : option Z :=
  let! value := get (lit "content-length") h in parse_usize (trim value).

Definition content_type (h : Entries) : option (list Z) :=
  let! value := get (lit "content-type") h in
  Some (trim (hd value (split_on 59 value))).

(** ** Lemmas *)

Lemma sanitise_no_lines text : Forall (fun b => b <> 13 /\ b <> 10) (sanitise text).
Proof.
  assert (H : forall n text, (length text <= n)%nat -> Forall (fun b => b <> 13 /\ b <> 10) (sanitise text)).
  { induction n as [|n IH]; intros [|b rest] Hn; cbn [length] in Hn; try lia; try constructor.
    cbn [sanitise]. destruct (Z.eqb_spec b 9) as [->|]; [constructor; [done|apply IH; lia]|].
    destruct (is_control b) eqn:E; [apply IH; lia|]. unfold is_control in E.
    destruct rest as [|c rest]; [constructor; [lia|constructor]|].
    destruct (_ && _); [apply IH; cbn in Hn; lia|]. constructor; [lia|apply IH; cbn in *; lia]. }
  by apply (H (length text)).
Qed.

Definition printable (b : Z) : Prop := 32 <= b <= 126.

Lemma sanitise_printable text : Forall printable text -> sanitise text = text.
Proof.
  induction text as [|b rest IH]; intros H; [done|]. apply Forall_cons_iff in H as [Hb H]. unfold printable in Hb.
  cbn [sanitise]. rewrite (proj2 (Z.eqb_neq b 9)) by lia.
  replace (is_control b) with false by (unfold is_control; lia). rewrite IH by done.
  destruct rest; [done|]. by rewrite (proj2 (Z.eqb_neq b 194)) by lia.
Qed.

Lemma lower_no_line b : b <> 13 /\ b <> 10 -> lower b <> 13 /\ lower b <> 10.
Proof. unfold lower. destruct (_ && _) eqn:E; [|done]. lia. Qed.

Lemma lowercase_no_lines l : Forall (fun b => b <> 13 /\ b <> 10) l -> Forall (fun b => b <> 13 /\ b <> 10) (lowercase l).
Proof. intros H. apply List.Forall_map. revert H. apply Forall_impl. apply lower_no_line. Qed.

Lemma lowercase_idemp l : lowercase (lowercase l) = lowercase l.
Proof.
  unfold lowercase. rewrite map_map. apply map_ext. intros b. unfold lower.
  destruct ((65 <=? b) && (b <=? 90)) eqn:E; [|by rewrite E]. replace ((65 <=? b + 32) && (b + 32 <=? 90)) with false by lia. done.
Qed.

(** ** The order of the names *)

Definition before (e e' : list Z * list (list Z)) : Prop := JsonText.key_lt e.1 e'.1 = true.
Definition sorted (h : Entries) : Prop := StronglySorted before h.

Lemma lookup_below key h : Forall (fun e => JsonText.key_lt key e.1 = true) h -> lookup key h = None.
Proof.
  induction 1 as [|[k vs] h Hk _ IH]; [done|]. cbn [lookup fst] in *. destruct (JsonText.key_lt_asym _ _ Hk) as [_ Hne].
  by rewrite bool_decide_eq_false_2.
Qed.

Lemma entry_below k0 key f h : JsonText.key_lt k0 key = true -> Forall (fun e => JsonText.key_lt k0 e.1 = true) h ->
  Forall (fun e => JsonText.key_lt k0 e.1 = true) (entry key f h).
Proof.
  intros Hk. induction 1 as [|[k vs] h Hk' H IH]; cbn [entry]; [by repeat constructor|].
  destruct (JsonText.key_lt key k); [by repeat constructor|]. case_bool_decide; by constructor.
Qed.

Lemma entry_sorted key f h : sorted h -> sorted (entry key f h).
Proof.
  unfold sorted. induction 1 as [|[k vs] h Hs IH Hk]; cbn [entry]; [by repeat constructor|].
  destruct (JsonText.key_lt key k) eqn:E.
  - constructor; [by constructor|]. constructor; [done|]. revert Hk. apply Forall_impl. intros e. unfold before. by apply JsonText.key_lt_trans.
  - case_bool_decide as Eq; [subst key; by constructor|]. constructor; [done|]. apply entry_below; [|done].
    by apply JsonText.key_lt_total.
Qed.

Lemma lookup_entry key key' f h : sorted h ->
  lookup key' (entry key f h) = if bool_decide (key = key') then Some (f (default [] (lookup key h))) else lookup key' h.
Proof.
  unfold sorted. induction 1 as [|[k vs] h Hs IH Hk]; cbn [entry lookup]; [done|].
  destruct (JsonText.key_lt key k) eqn:E.
  - cbn [lookup]. case_bool_decide as Eq; [|done]. subst key'.
    destruct (JsonText.key_lt_asym _ _ E) as [_ Hne]. rewrite (bool_decide_eq_false_2 (k = key)) by done.
    rewrite lookup_below; [done|]. revert Hk. apply Forall_impl. intros e. unfold before. by apply JsonText.key_lt_trans.
  - destruct (bool_decide_reflect (key = k)) as [->|Hne]; cbn [lookup].
    + rewrite (bool_decide_eq_true_2 (k = k)) by done. by destruct (bool_decide_reflect (k = key')).
    + rewrite IH, (bool_decide_eq_false_2 (k = key)) by congruence. destruct (bool_decide_reflect (key = key')) as [<-|]; [|done].
      by rewrite bool_decide_eq_false_2 by congruence.
Qed.

Lemma set_sorted name value h : sorted h -> sorted (set name value h).
Proof. apply entry_sorted. Qed.
Lemma append_sorted name value h : sorted h -> sorted (append name value h).
Proof. apply entry_sorted. Qed.

(** What the map holds after a change, in the words of its callers. *)
Lemma get_all_set name value name' h : sorted h ->
  get_all name' (set name value h) = if bool_decide (lowercase (sanitise name) = lowercase name') then [sanitise value] else get_all name' h.
Proof. intros Hs. unfold get_all, set. rewrite lookup_entry by done. by case_bool_decide. Qed.

Lemma get_all_append name value name' h : sorted h ->
  get_all name' (append name value h) =
    if bool_decide (lowercase (sanitise name) = lowercase name') then get_all name' h ++ [sanitise value] else get_all name' h.
Proof.
  intros Hs. unfold get_all, append. rewrite lookup_entry by done. case_bool_decide as E; [|done]. rewrite E.
  by destruct (lookup (lowercase name') h).
Qed.

(** Names that are in lower case and hold no line end, values without line ends. *)
Definition clean (l : list Z) : Prop := Forall (fun b => b <> 13 /\ b <> 10) l.
Definition clean_entry (e : list Z * list (list Z)) : Prop := clean e.1 /\ lowercase e.1 = e.1 /\ Forall clean e.2.

Lemma entry_clean key f h : clean key -> lowercase key = key -> (forall vs, Forall clean vs -> Forall clean (f vs)) ->
  Forall clean_entry h -> Forall clean_entry (entry key f h).
Proof.
  intros Hk Hl Hf. induction 1 as [|[k vs] h (H1 & H2 & H3) H IH]; cbn [entry].
  - repeat constructor; try done. by apply Hf.
  - destruct (JsonText.key_lt key k); [|case_bool_decide as E].
    + constructor; [split; [done|split; [done|by apply Hf]]|]. by constructor.
    + subst k. constructor; [|done]. split; [done|split; [done|by apply Hf]].
    + constructor; [by split|done].
Qed.

Lemma set_clean name value h : Forall clean_entry h -> Forall clean_entry (set name value h).
Proof.
  apply entry_clean; [apply lowercase_no_lines, sanitise_no_lines|apply lowercase_idemp|]. intros vs _. repeat constructor. apply sanitise_no_lines.
Qed.

Lemma append_clean name value h : Forall clean_entry h -> Forall clean_entry (append name value h).
Proof.
  apply entry_clean; [apply lowercase_no_lines, sanitise_no_lines|apply lowercase_idemp|]. intros vs H. apply Forall_app. split; [done|].
  repeat constructor. apply sanitise_no_lines.
Qed.

Lemma remove_clean name h : Forall clean_entry h -> Forall clean_entry (remove name h).
Proof. intros H. apply List.Forall_forall. intros e He. apply filter_In in He as [He _]. rewrite List.Forall_forall in H. by apply H. Qed.

(** A map built by any operations holds no line end anywhere. *)
Inductive built : Entries -> Prop :=
  | built_new : built []
  | built_set name value h : built h -> built (set name value h)
  | built_append name value h : built h -> built (append name value h)
  | built_remove name h : built h -> built (remove name h).

Lemma built_clean h : built h -> Forall clean_entry h.
Proof. induction 1; [constructor|by apply set_clean|by apply append_clean|by apply remove_clean]. Qed.

Lemma iter_clean h : Forall clean_entry h -> Forall (fun nv => clean nv.1 /\ lowercase nv.1 = nv.1 /\ clean nv.2) (iter h).
Proof.
  intros H. apply List.Forall_forall. intros [n v] Hin. unfold iter in Hin. apply in_concat in Hin as (l & Hl & Hv).
  apply in_map_iff in Hl as ([k vs] & <- & Hk). apply in_map_iff in Hv as (w & [= <- <-] & Hw). rewrite List.Forall_forall in H.
  destruct (H _ Hk) as (H1 & H2 & H3). rewrite List.Forall_forall in H3. by split_and!; [..|apply H3].
Qed.

End Headers.
