(* ===== verification/Cookie.v ===== *)
(** * Cookies ([rustlavel-http/src/cookie.rs])

    The [Set-Cookie] header a cookie is sent as and the reading of the [Cookie]
    header a browser answers with: whatever a value holds, it comes back. *)

From S2P Require Import Prelude Text Url HttpDate JsonText.

Module Cookie.

Inductive SameSite := Strict | Lax | NoSite.

#[export] Instance SameSite_eq_dec : EqDecision SameSite.
Proof. solve_decision. Defined.

Definition as_str (s : SameSite) : list Z :=
  match s with Strict => lit "Strict" | Lax => lit "Lax" | NoSite => lit "None" end.

(** [max_age] in whole seconds, the only part of it that is written. *)
Record Cookie := mkCookie {
  cookie_name : list Z;
  cookie_value : list Z;
  cookie_path : option (list Z);
  cookie_domain : option (list Z);
  cookie_max_age : option Z;
  cookie_secure : bool;
  cookie_http_only : bool;
  cookie_same_site : option SameSite;
  expires_unix : option Z }.

Definition new (name value : list Z) : Cookie :=
  mkCookie name value (Some (lit "/")) None None false true (Some Lax) None.
Definition forget (name : list Z) : Cookie :=
  mkCookie name [] (Some (lit "/")) None (Some 0) false true (Some Lax) (Some 0).

Definition path (p : list Z) (c : Cookie) : Cookie :=
  mkCookie (cookie_name c) (cookie_value c) (Some p) (cookie_domain c) (cookie_max_age c) (cookie_secure c)
    (cookie_http_only c) (cookie_same_site c) (expires_unix c).
Definition domain (d : list Z) (c : Cookie) : Cookie :=
  mkCookie (cookie_name c) (cookie_value c) (cookie_path c) (Some d) (cookie_max_age c) (cookie_secure c)
    (cookie_http_only c) (cookie_same_site c) (expires_unix c).
Definition max_age (age : Z) (c : Cookie) : Cookie :=
  mkCookie (cookie_name c) (cookie_value c) (cookie_path c) (cookie_domain c) (Some age) (cookie_secure c)
    (cookie_http_only c) (cookie_same_site c) (expires_unix c).
Definition secure (s : bool) (c : Cookie) : Cookie :=
  mkCookie (cookie_name c) (cookie_value c) (cookie_path c) (cookie_domain c) (cookie_max_age c) s
    (cookie_http_only c) (cookie_same_site c) (expires_unix c).
Definition http_only (h : bool) (c : Cookie) : Cookie :=
  mkCookie (cookie_name c) (cookie_value c) (cookie_path c) (cookie_domain c) (cookie_max_age c) (cookie_secure c)
    h (cookie_same_site c) (expires_unix c).
Definition same_site (s : SameSite) (c : Cookie) : Cookie :=
  mkCookie (cookie_name c) (cookie_value c) (cookie_path c) (cookie_domain c) (cookie_max_age c) (cookie_secure c)
    (cookie_http_only c) (Some s) (expires_unix c).

Definition when {A} (o : option A) (text : A -> list Z) : list Z := match o with Some a => text a | None => [] end.

Definition to_header (c : Cookie) : list Z :=
  cookie_name c ++ lit "=" ++ Url.encode (cookie_value c) ++
  when (cookie_path c) (fun p => lit "; Path=" ++ p) ++
  when (cookie_domain c) (fun d => lit "; Domain=" ++ d) ++
  when (cookie_max_age c) (fun age => lit "; Max-Age=" ++ dec age) ++
  when (expires_unix c) (fun at_ => lit "; Expires=" ++ HttpDate.http_date at_) ++
  (if cookie_secure c then lit "; Secure" else []) ++
  (if cookie_http_only c then lit "; HttpOnly" else []) ++
  when (cookie_same_site c) (fun s =>
    lit "; SameSite=" ++ as_str s ++ (if bool_decide (s = NoSite) && negb (cookie_secure c) then lit "; Secure" else [])).

(** A [BTreeMap] filled from left to right: of equal names the last counts. *)
Fixpoint insert (key value : list Z) (m : list (list Z * list Z)) : list (list Z * list Z) :=
  match m with
  | [] => [(key, value)]
  | (k, v) :: rest =>
      if JsonText.key_lt key k then (key, value) :: m
      else if bool_decide (key = k) then (key, value) :: rest
      else (k, v) :: insert key value rest
  end.

Definition parse_header (header : list Z) : list (list Z * list Z) :=
  fold_left (fun m nv => insert nv.1 nv.2 m)
    (map (fun nv => (trim nv.1, Url.decode (trim nv.2))) (omap (fun pair => split_once 61 (trim pair)) (split_on 59 header))) [].

(** ** Round trip *)

Definition cookie_text (nv : list Z * list Z) : list Z := nv.1 ++ [61] ++ Url.encode nv.2.

(** Names a browser accepts, values of any text. *)
Definition pair_ok (nv : list Z * list Z) : Prop :=
  nv.1 <> [] /\ Forall visible nv.1 /\ (61 ∉ nv.1) /\ (59 ∉ nv.1) /\ bytes nv.2 /\ utf8_valid nv.2 = true.

Lemma url_byte_visible b : Url.url_byte b -> visible b /\ b <> 59.
Proof. unfold Url.url_byte, Url.unreserved, visible, in_range. lia. Qed.

Lemma cookie_text_visible nv : pair_ok nv -> Forall visible (cookie_text nv) /\ Forall (fun b => b <> 59) (cookie_text nv).
Proof.
  intros (_ & Hv & _ & Hs & Hb & _). pose proof (Url.url_encode_bytes _ Hb) as He. unfold cookie_text. rewrite !Forall_app. split_and!.
  - done.
  - by repeat constructor.
  - revert He. apply Forall_impl. intros b H. by apply url_byte_visible.
  - apply List.Forall_forall. intros x Hx ->. apply Hs. by apply list_elem_of_In.
  - by repeat constructor.
  - revert He. apply Forall_impl. intros b H. by apply url_byte_visible.
Qed.

Lemma split_pair nv : pair_ok nv -> split_once 61 (trim (cookie_text nv)) = Some (nv.1, Url.encode nv.2).
Proof.
  intros H. rewrite trim_visible by (by apply cookie_text_visible). destruct H as (_ & _ & He & _). unfold cookie_text. cbn [app].
  apply split_once_app. apply List.Forall_forall. intros x Hx ->. apply He. by apply list_elem_of_In.
Qed.

Lemma split_pairs nv nvs : pair_ok nv -> Forall pair_ok nvs ->
  omap (fun pair => split_once 61 (trim pair)) (split_on 59 (cookie_text nv ++ concat (map (fun nv => [59; 32] ++ cookie_text nv) nvs))) =
  map (fun nv => (nv.1, Url.encode nv.2)) (nv :: nvs).
Proof.
  intros Hn H. revert nv Hn.
  assert (Hgen : forall p nvs, Forall pair_ok nvs -> Forall (fun b => b <> 59) p ->
    omap (fun pair => split_once 61 (trim pair)) (split_on 59 (p ++ concat (map (fun nv => [59; 32] ++ cookie_text nv) nvs))) =
    (match split_once 61 (trim p) with Some x => [x] | None => [] end) ++ map (fun nv => (nv.1, Url.encode nv.2)) nvs).
  { clear nvs H. intros p nvs H. revert p. induction H as [|nv nvs Hnv _ IH]; intros p Hp.
    - cbn [map concat]. rewrite !app_nil_r, split_on_none by done. cbn. by destruct (split_once 61 (trim p)).
    - cbn [map concat app]. rewrite split_on_app by done. cbn [omap list_omap].
      specialize (IH (32 :: cookie_text nv) ltac:(constructor; [lia|by apply cookie_text_visible])). cbn [app] in IH. rewrite IH.
      assert (Ht : trim (32 :: cookie_text nv) = trim (cookie_text nv)) by reflexivity. rewrite Ht, split_pair by done.
      by destruct (split_once 61 (trim p)). }
  intros nv Hn. rewrite Hgen, split_pair by (done || by apply cookie_text_visible). done.
Qed.

(** What a browser sends back reads as the names and values that were set. *)
Lemma cookies_come_back nv nvs : pair_ok nv -> Forall pair_ok nvs ->
  parse_header (cookie_text nv ++ concat (map (fun nv => [59; 32] ++ cookie_text nv) nvs)) =
  fold_left (fun m nv => insert nv.1 nv.2 m) (nv :: nvs) [].
Proof.
  intros Hn H. unfold parse_header. rewrite split_pairs by done. f_equal. rewrite map_map.
  assert (Hall : Forall pair_ok (nv :: nvs)) by (by constructor). revert Hall. generalize (nv :: nvs). clear. intros l Hl.
  induction Hl as [|[n v] l (_ & Hv & _ & _ & Hb & Hu) _ IH]; [done|]. cbn [map fst snd] in *. rewrite IH. f_equal.
  rewrite trim_visible by done. rewrite trim_visible.
  - by rewrite Url.decode_encode_valid.
  - eapply Forall_impl; [|exact (Url.url_encode_bytes _ Hb)]. intros b H. by apply url_byte_visible.
Qed.

End Cookie.
