(* ===== verification/Response.v ===== *)
(** * HTTP responses ([rustlavel-http/src/response.rs])

    A response, what a handler may return in its place, and the bytes it is
    written as. An upgrade, which takes the socket over, is a value of any type. *)

From S2P Require Import Prelude Text Json JsonText Headers Cookie.

Module Response.

Section Response.
Context {U : Type}.

Record Response := mkResponse {
  status : Z;
  headers : Headers.Entries;
  body : list Z;
  upgrade : option U }.

Definition new (s : Z) : Response := mkResponse s [] [] None.
Definition upgrading (u : U) (r : Response) : Response := mkResponse 101 (headers r) (body r) (Some u).
Definition streaming (u : U) (r : Response) : Response := mkResponse (status r) (headers r) (body r) (Some u).
Definition upgrades (r : Response) : bool := match upgrade r with Some _ => true | None => false end.
Definition take_upgrade (r : Response) : option U * Response :=
  (upgrade r, mkResponse (status r) (headers r) (body r) None).

Definition with_status (s : Z) (r : Response) : Response := mkResponse s (headers r) (body r) (upgrade r).
Definition with_header (name value : list Z) (r : Response) : Response :=
  mkResponse (status r) (Headers.set name value (headers r)) (body r) (upgrade r).
Definition with_body (b : list Z) (r : Response) : Response := mkResponse (status r) (headers r) b (upgrade r).
Definition with_json (value : Json.Json) (r : Response) : Response :=
  with_body (JsonText.to_string value) (with_header (lit "content-type") (lit "application/json; charset=utf-8") r).
Definition with_html (b : list Z) (r : Response) : Response :=
  with_body b (with_header (lit "content-type") (lit "text/html; charset=utf-8") r).
Definition with_text (b : list Z) (r : Response) : Response :=
  with_body b (with_header (lit "content-type") (lit "text/plain; charset=utf-8") r).
Definition with_cookie (c : Cookie.Cookie) (r : Response) : Response :=
  mkResponse (status r) (Headers.append (lit "set-cookie") (Cookie.to_header c) (headers r)) (body r) (upgrade r).
Definition without_cookie (name : list Z) (r : Response) : Response := with_cookie (Cookie.forget name) r.

Definition ok : Response := new Status.OK.
Definition no_content : Response := new Status.NO_CONTENT.
Definition not_found : Response := with_html (lit "<h1>404 Not Found</h1>") (new Status.NOT_FOUND).
Definition redirect (location : list Z) : Response := with_header (lit "location") location (new Status.FOUND).
Definition see_other (location : list Z) : Response := with_header (lit "location") location (new Status.SEE_OTHER).
Definition json (value : Json.Json) : Response := with_json value ok.
Definition html (b : list Z) : Response := with_html b ok.
Definition text (b : list Z) : Response := with_text b ok.

Definition body_string (r : Response) : list Z := utf8_lossy (body r).

(** ** The wire *)

Definition CRLF : list Z := [13; 10].

Definition header_line (nv : list Z * list Z) : list Z := nv.1 ++ lit ": " ++ nv.2 ++ CRLF.

Definition to_bytes (include_body : bool) (r : Response) : list Z :=
  let bodyless := Status.is_bodyless (status r) in
  let b := if bodyless then [] else body r in
  let head := lit "HTTP/1.1 " ++ dec (status r) ++ lit " " ++ Status.reason (status r) ++ CRLF ++
    concat (map header_line (List.filter (fun nv => negb (bool_decide (nv.1 = lit "content-length"))) (Headers.iter (headers r)))) ++
    (if negb bodyless && negb (upgrades r) then lit "content-length: " ++ dec (Z.of_nat (length b)) ++ CRLF else []) ++
    CRLF in
  head ++ (if include_body && negb bodyless then b else []).

End Response.
Arguments Response U : clear implicits.

(** ** What a handler may return *)

Class IntoResponse (U T : Type) := into_response : T -> Response U.

#[export] Instance into_self {U} : IntoResponse U (Response U) := fun r => r.
#[export] Instance into_status {U} : IntoResponse U Z := new.
#[export] Instance into_str {U} : IntoResponse U (list Z) := html.
#[export] Instance into_json {U} : IntoResponse U Json.Json := json.
#[export] Instance into_unit {U} : IntoResponse U unit := fun _ => no_content.
#[export] Instance into_pair {U T} `{!IntoResponse U T} : IntoResponse U (Z * T) :=
  fun p => with_status p.1 (into_response p.2).
#[export] Instance into_option {U T} `{!IntoResponse U T} : IntoResponse U (option T) :=
  fun o => match o with Some value => into_response value | None => not_found end.
#[export] Instance into_result {U T E} `{!IntoResponse U T, !IntoResponse U E} : IntoResponse U (result E T) :=
  fun o => match o with Ok value => into_response value | Err error => into_response error end.

End Response.
