(* ===== verification/Server.v ===== *)
(** * The HTTP server ([rustlavel-http/src/server.rs], [request.rs])

    A connection from its first byte to its last: reading the head of a request,
    its framing, its body by length or in chunks, and the loop that answers one
    request after another until one side is done.

    The socket is the outcomes of the reads to come, and what has been written to
    it; the buffer holds what was read past the last request. An operation returns
    a value or an error and the connection it leaves. The application (the router
    and everything behind it) is a function of its own state and the request. *)

From S2P Require Import Prelude Text Url Router Headers Response.

Module Server.
#[local] Existing Instance Method.Method_eq_dec.

(** ** The connection *)

(** What a read returned: bytes (none when the peer has closed), an error of the
    socket, or nothing before the timeout. *)
Inductive Read := Data (chunk : list Z) | Failed (message : list Z) | Elapsed.

Inductive Error := Protocol (message : list Z) | Io (message : list Z) | Panicked | Exhausted.

#[export] Instance Error_eq_dec : EqDecision Error.
Proof. solve_decision. Defined.

(** [Error::to_string]; a panic has no text, it ends the task, and a loop of this
    model that runs out of fuel ([Exhausted]) is shown not to exist. *)
Definition to_string (e : Error) : list Z :=
  match e with Protocol m => lit "malformed request: " ++ m | Io m => m | Panicked | Exhausted => [] end.

(** [outcomes] are the errors of the writes and flushes to come, in order. *)
Record Conn := mkConn {
  reads : list Read;
  buffer : list Z;
  outcomes : list (option (list Z));
  sent : list Z }.

Definition set_reads (r : list Read) (c : Conn) : Conn := mkConn r (buffer c) (outcomes c) (sent c).
Definition set_buffer (b : list Z) (c : Conn) : Conn := mkConn (reads c) b (outcomes c) (sent c).

Definition M (A : Type) : Type := Conn -> result Error A * Conn.
Definition ret {A} (a : A) : M A := fun c => (Ok a, c).
Definition fail {A} (e : Error) : M A := fun c => (Err e, c).
Definition protocol {A} (message : string) : M A := fail (Protocol (lit message)).
Definition bind {A B} (m : M A) (k : A -> M B) : M B := fun c =>
  match m c with (Ok a, c) => k a c | (Err e, c) => (Err e, c) end.

Declare Scope server_scope.
Delimit Scope server_scope with server.
Notation "'let*' x ':=' m 'in' k" :=
  (bind m (fun x => k))
  (at level 10, x pattern, m at level 100, k at level 200,
   format "'let*'  x  ':='  m  'in' '//' k") : server_scope.
#[local] Open Scope server_scope.

(** One read into a buffer of [n] bytes. *)
Definition read (n : nat) (c : Conn) : Read * Conn :=
  match reads c with
  | [] => (Data [], c)
  | Data chunk :: rest =>
      if (length chunk <=? n)%nat then (Data chunk, set_reads rest c)
      else (Data (take n chunk), set_reads (Data (drop n chunk) :: rest) c)
  | outcome :: rest => (outcome, set_reads rest c)
  end.

(** The bytes and events still to be read: no loop reads more often. *)
Definition cost (r : Read) : nat := match r with Data chunk => S (length chunk) | _ => 1%nat end.
Definition pending (c : Conn) : nat := sum_list_with cost (reads c).

Definition outcome (c : Conn) : result Error unit * Conn :=
  match outcomes c with
  | [] => (Ok tt, c)
  | o :: rest => (match o with None => Ok tt | Some m => Err (Io m) end, mkConn (reads c) (buffer c) rest (sent c))
  end.

(** [write_all] then [flush]. *)
Definition write_flush (bytes : list Z) : M unit := fun c =>
  bind outcome (fun _ => outcome) (mkConn (reads c) (buffer c) (outcomes c) (sent c ++ bytes)).

Record Limits := mkLimits { max_header_bytes : Z; max_body_bytes : Z }.
Definition Limits_default : Limits := mkLimits (64 * 1024) (10 * 1024 * 1024).

(** ** Searching the buffer *)

(** [windows(n).position(|w| w == p)]. *)
Fixpoint position (p l : list Z) : option nat :=
  if starts_with l p then Some 0%nat
  else match l with [] => None | _ :: l => S <$> position p l end.

Definition CRLF : list Z := [13; 10].
Definition find_head_end (b : list Z) : option nat := let! at_ := position [13; 10; 13; 10] b in Some (at_ + 4)%nat.
Definition find_crlf (b : list Z) : option nat := position CRLF b.

(** ** The head *)

Fixpoint read_head_loop (fuel : nat) (limits : Limits) : M (option (list Z)) := fun c =>
  match find_head_end (buffer c) with
  | Some at_ => (Ok (Some (take at_ (buffer c))), set_buffer (drop at_ (buffer c)) c)
  | None =>
      if max_header_bytes limits <? Z.of_nat (length (buffer c)) then protocol "request headers are too large" c
      else
        let empty := bool_decide (buffer c = []) in
        let '(r, c) := read 4096 c in
        match r with
        | Data [] => if empty then (Ok None, c) else protocol "connection closed mid-request" c
        | Data chunk =>
            match fuel with
            | O => (Err Exhausted, c)
            | S fuel => read_head_loop fuel limits (set_buffer (buffer c ++ chunk) c)
            end
        | Failed m => fail (Io m) c
        | Elapsed => if empty then (Ok None, c) else protocol "timed out reading request headers" c
        end
  end.
Definition read_head (limits : Limits) : M (option (list Z)) := fun c => read_head_loop (S (pending c)) limits c.

(** [str::split("\r\n")]. *)
Fixpoint split_crlf (l : list Z) : list (list Z) :=
  match l with
  | [] => [[]]
  | 13 :: ((10 :: rest) as _tail) => [] :: split_crlf rest
  | b :: rest =>
      match split_crlf rest with
      | piece :: pieces => (b :: piece) :: pieces
      | [] => [[b]]
      end
  end.

Fixpoint parse_headers (lines : list (list Z)) (h : Headers.Entries) : result Error Headers.Entries :=
  match lines with
  | [] => Ok h
  | line :: lines =>
      match line with
      | [] => parse_headers lines h
      | _ =>
          match split_once 58 line with
          | None => Err (Protocol (lit "malformed header line: " ++ line))
          | Some (name, value) =>
              if ends_with name (lit " ") || ends_with name [9] then
                Err (Protocol (lit "a header name may not be followed by whitespace before the colon"))
              else parse_headers lines (Headers.append (trim name) (trim value) h)
          end
      end
  end.

Definition listed_encodings (encodings : list (list Z)) : list (list Z) :=
  List.filter (fun v => negb (bool_decide (v = []))) (map trim (concat (map (split_on 44) encodings))).

Definition check_framing (h : Headers.Entries) : result Error unit :=
  let lengths := Headers.get_all (lit "content-length") h in
  if (1 <? length lengths)%nat && existsb (fun v => negb (bool_decide (v = hd [] lengths))) lengths then
    Err (Protocol (lit "more than one Content-Length, and they disagree"))
  else if negb (bool_decide (lengths = [])) && (match Headers.get (lit "transfer-encoding") h with Some _ => true | None => false end) then
    Err (Protocol (lit "both Transfer-Encoding and Content-Length: a message may say where it ends once, not twice"))
  else
    let encodings := Headers.get_all (lit "transfer-encoding") h in
    if bool_decide (encodings = []) then Ok tt
    else
      let listed := listed_encodings encodings in
      if negb (bool_decide (head (rev listed) = Some (lit "chunked"))) ||
         negb (length (List.filter (fun v => bool_decide (v = lit "chunked")) listed) =? 1)%nat then
        Err (Protocol (lit "unsupported Transfer-Encoding: " ++ join (lit ", ") listed))
      else Ok tt.

(** The path of a target in absolute form. *)
Definition origin_form (target : list Z) : list Z :=
  match position (lit "://") target with
  | Some scheme_end =>
      let rest := drop (scheme_end + 3) target in
      match position (lit "/") rest with
      | Some path_start => drop path_start rest
      | None => lit "/"
      end
  | None => target
  end.

(** ** Bodies *)

Definition fill : M bool := fun c =>
  let '(r, c) := read 4096 c in
  match r with
  | Data chunk => (Ok (negb (bool_decide (chunk = []))), set_buffer (buffer c ++ chunk) c)
  | Failed m => fail (Io m) c
  | Elapsed => protocol "timed out reading request body" c
  end.

(** [buffer.drain(..n)]: a panic when there are fewer. *)
Definition drain (n : Z) : M (list Z) := fun c =>
  if Z.of_nat (length (buffer c)) <? n then (Err Panicked, c)
  else (Ok (take (Z.to_nat n) (buffer c)), set_buffer (drop (Z.to_nat n) (buffer c)) c).

Fixpoint length_loop (fuel : nat) (n : nat) : M unit := fun c =>
  if (length (buffer c) <? n)%nat then
    let '(r, c') := read (Nat.min (n - length (buffer c)) (Z.to_nat 65536)) c in
    match r with
    | Data [] => protocol "request body ended early" c'
    | Data chunk =>
        match fuel with
        | O => (Err Exhausted, c')
        | S fuel => length_loop fuel n (set_buffer (buffer c' ++ chunk) c')
        end
    | Failed m => fail (Io m) c'
    | Elapsed => protocol "timed out reading request body" c'
    end
  else (Ok tt, c).

(** The loop that waits for a line end: where it is, or the end of the stream. *)
Fixpoint line_loop (fuel : nat) : M (option nat) := fun c =>
  match find_crlf (buffer c) with
  | Some at_ => (Ok (Some at_), c)
  | None =>
      (let* more := fill in
       match more, fuel with
       | false, _ => ret None
       | true, O => fail Exhausted
       | true, S fuel => line_loop fuel
       end) c
  end.
Definition line : M (option nat) := fun c => line_loop (S (pending c)) c.

(** The loop that waits for [n] bytes; false when the stream ends first. *)
Fixpoint wait_loop (fuel : nat) (n : Z) : M bool := fun c =>
  if Z.of_nat (length (buffer c)) <? n then
    (let* more := fill in
     match more, fuel with
     | false, _ => ret false
     | true, O => fail Exhausted
     | true, S fuel => wait_loop fuel n
     end) c
  else (Ok true, c).
Definition wait (n : Z) : M bool := fun c => wait_loop (S (pending c)) n c.

(** The hexadecimal value of a digit, and [usize::from_str_radix(_, 16)]. *)
Fixpoint hex_digits (l : list Z) (acc : Z) : option Z :=
  match l with
  | [] => Some acc
  | b :: l => let! d := Url.hex_digit b in hex_digits l (acc * 16 + d)
  end.
Definition from_hex (l : list Z) : option Z :=
  let digits := match l with 43 :: rest => rest | _ => l end in
  match digits with
  | [] => None
  | _ => let! n := hex_digits digits 0 in if n <=? usize_max then Some n else None
  end.

Definition chunk_size (text : list Z) : option Z := from_hex (trim (hd [] (split_on 59 (utf8_lossy text)))).

(** The lines after the final chunk, up to a blank one or the end of the stream. *)
Fixpoint trailer_loop (fuel : nat) : M unit :=
  let* at_ := line in
  match at_ with
  | None => ret tt
  | Some at_ =>
      let* _ := drain (Z.of_nat at_ + 2) in
      match at_, fuel with
      | O, _ => ret tt
      | _, O => fail Exhausted
      | _, S fuel => trailer_loop fuel
      end
  end.

Fixpoint chunk_loop (fuel : nat) (limits : Limits) (body : list Z) : M (list Z) :=
  let* at_ := line in
  match at_ with
  | None => protocol "chunked body ended early"
  | Some at_ =>
      let* header := drain (Z.of_nat at_ + 2) in
      match chunk_size (take at_ header) with
      | None => protocol "invalid chunk size"
      | Some size =>
          if size =? 0 then
            let* _ := (fun c => trailer_loop (length (buffer c) + pending c) c) in
            ret body
          else if max_body_bytes limits <? wrap 64 (Z.of_nat (length body) + size) then protocol "request body is too large"
          else
            let* there := wait (wrap 64 (size + 2)) in
            match there with
            | false => protocol "chunked body ended early"
            | true =>
                let* data := drain size in
                let* _ := drain 2 in
                match fuel with
                | O => fail Exhausted
                | S fuel => chunk_loop fuel limits (body ++ data)
                end
            end
      end
  end.
Definition read_chunked_body (limits : Limits) : M (list Z) := fun c =>
  chunk_loop (length (buffer c) + pending c) limits [] c.

Definition read_body (limits : Limits) (h : Headers.Entries) : M (list Z) :=
  match Headers.get (lit "transfer-encoding") h with
  | Some _ => read_chunked_body limits
  | None =>
      match Headers.content_length h with
      | None => ret []
      | Some n =>
          if max_body_bytes limits <? n then protocol "request body is too large"
          else
            let* _ := (fun c => length_loop (S (pending c)) (Z.to_nat n) c) in
            drain n
      end
  end.

(** ** Requests *)

(** The fields of a [Request] the parser fills in. *)
Record Request := mkRequest {
  method : Method.Method;
  target : list Z;
  path : list Z;
  query : list (list Z * list Z);
  request_headers : Headers.Entries;
  request_body : list Z }.

Definition parse (limits : Limits) (head : list Z) : M (Request * bool) :=
  if negb (utf8_valid head) then protocol "headers are not UTF-8"
  else
    let lines := split_crlf head in
    let parts := split_on 32 (hd [] lines) in
    match Method.parse (hd [] parts) with
    | None => protocol "unsupported method"
    | Some m =>
        match parts !! 1%nat with
        | None => protocol "missing request target"
        | Some t =>
            let version := default (lit "HTTP/1.1") (parts !! 2%nat) in
            match parse_headers (tl lines) [] with
            | Err e => fail e
            | Ok h =>
                match check_framing h with
                | Err e => fail e
                | Ok _ =>
                    let t := origin_form t in
                    let* body := read_body limits h in
                    let keep_alive :=
                      match Headers.get (lit "connection") h with
                      | Some value =>
                          if bool_decide (lowercase value = lit "close") then false
                          else if bool_decide (lowercase value = lit "keep-alive") then true
                          else negb (bool_decide (version = lit "HTTP/1.0"))
                      | None => negb (bool_decide (version = lit "HTTP/1.0"))
                      end in
                    let '(p, q) := Url.split_target t in
                    ret (mkRequest m t (Url.decode p) (Url.parse_query q) h body, keep_alive)
                end
            end
        end
    end.

(** ** The loop of a connection *)

Section Serve.
Context {U D : Type} (dispatch : D -> Request -> Response.Response U * D) (limits : Limits).

(** How a connection ended well: closed, or handed over with the bytes already
    read past the request. *)
Inductive End := Closed | Upgraded (u : U) (buffered : list Z).

Fixpoint serve_loop (fuel : nat) (d : D) (c : Conn) : result Error End * D * Conn :=
  match read_head limits c with
  | (Err e, c) => (Err e, d, c)
  | (Ok None, c) => (Ok Closed, d, c)
  | (Ok (Some head), c) =>
      match parse limits head c with
      | (Err Panicked, c) => (Err Panicked, d, c)
      | (Err Exhausted, c) => (Err Exhausted, d, c)
      | (Err error, c) =>
          let response := Response.with_text (to_string error) (Response.new (U := U) Status.BAD_REQUEST) in
          match write_flush (Response.to_bytes true response) c with
          | (Err e, c) => (Err e, d, c)
          | (Ok _, c) => (Ok Closed, d, c)
          end
      | (Ok (request, keep_alive), c) =>
          let is_head := bool_decide (method request = Method.Head) in
          let '(response, d) := dispatch d request in
          match Response.upgrade response with
          | Some u =>
              match write_flush (Response.to_bytes false response) c with
              | (Err e, c) => (Err e, d, c)
              | (Ok _, c) => (Ok (Upgraded u (buffer c)), d, set_buffer [] c)
              end
          | None =>
              let response := if keep_alive then response else Response.with_header (lit "connection") (lit "close") response in
              match write_flush (Response.to_bytes (negb is_head) response) c with
              | (Err e, c) => (Err e, d, c)
              | (Ok _, c) =>
                  if keep_alive then
                    match fuel with
                    | O => (Err Exhausted, d, c)
                    | S fuel => serve_loop fuel d c
                    end
                  else (Ok Closed, d, c)
              end
          end
      end
  end.
Definition serve_connection (d : D) (c : Conn) : result Error End * D * Conn :=
  serve_loop (length (buffer c) + pending c) d c.

End Serve.
Arguments End U : clear implicits.

End Server.
