(* ===== verification/ServerProofs.v ===== *)
(** * The HTTP server: reading

    How the loops of the server read: whatever the cuts of the stream, they come
    to the same bytes, and none of them reads more often than there is to read. *)

From S2P Require Import Prelude Text Url Router Headers Response Server.
Import Server.

Module ServerProofs.

(** ** Positions *)

Lemma position_app p l1 l2 k : position p l1 = Some k -> position p (l1 ++ l2) = Some k.
Proof.
  revert k. induction l1 as [|b l1 IH]; intros k H; cbn [position app] in *.
  - destruct (starts_with [] p) eqn:E; [|done]. injection H as <-. destruct p; [|done].
    by destruct l2.
  - destruct (starts_with (b :: l1) p) eqn:E.
    + apply starts_with_spec in E as [r E]. injection H as <-.
      replace (starts_with (b :: l1 ++ l2) p) with true; [done|]. symmetry. apply starts_with_spec. exists (r ++ l2).
      change (b :: l1 ++ l2) with ((b :: l1) ++ l2). by rewrite E, app_assoc.
    + destruct (position p l1) as [k'|] eqn:E1; [|done]. injection H as <-.
      destruct (starts_with (b :: l1 ++ l2) p) eqn:E2; [|by rewrite (IH k' eq_refl)].
      exfalso. clear IH. assert (Hk : exists x y, l1 = x ++ p ++ y).
      { clear -E1. revert k' E1. induction l1 as [|c l1 IH]; intros k' E1; cbn [position] in E1.
        - destruct p; [by exists [], []|done].
        - destruct (starts_with (c :: l1) p) eqn:E; [apply starts_with_spec in E as [r ->]; by exists [], r|].
          destruct (position p l1); [|done]. destruct (IH _ eq_refl) as (x & y & ->). by exists (c :: x), y. }
      destruct Hk as (x & y & ->). apply starts_with_spec in E2 as [r E2].
      assert (Hs : starts_with (b :: x ++ p ++ y) p = true); [|congruence]. apply starts_with_spec.
      exists (drop (length p) (b :: x ++ p ++ y)).
      assert (Ht : take (length p) (b :: x ++ p ++ y) = p).
      { apply (f_equal (take (length p))) in E2. rewrite take_app_length in E2. rewrite <- E2 at 3.
        change (b :: (x ++ p ++ y) ++ l2) with ((b :: x ++ p ++ y) ++ l2). rewrite take_app_le; [done|]. cbn. rewrite !length_app. lia. }
      rewrite <- Ht at 2. by rewrite take_drop.
Qed.

Lemma position_bound p l k : position p l = Some k -> (k + length p <= length l)%nat /\ take (length p) (drop k l) = p.
Proof.
  revert k. induction l as [|b l IH]; intros k H; cbn [position] in H.
  - destruct p; [|done]. by injection H as <-.
  - destruct (starts_with (b :: l) p) eqn:E.
    + injection H as <-. apply starts_with_spec in E as [r E]. rewrite drop_0, E, take_app_length, length_app. by split; [lia|].
    + destruct (position p l) as [k'|]; [|done]. injection H as <-. destruct (IH k' eq_refl) as [H1 H2]. cbn [length drop]. split; [lia|done].
Qed.

(** A prefix too short to hold the first occurrence holds none. *)
Lemma position_take p l k n : position p l = Some k -> (n < k + length p)%nat -> position p (take n l) = None.
Proof.
  intros H Hn. destruct (position p (take n l)) as [k'|] eqn:E; [|done]. exfalso.
  pose proof (position_app p (take n l) (drop n l) k' E) as E'. rewrite take_drop, H in E'. injection E' as <-.
  apply position_bound in E as [E _]. rewrite length_take in E. lia.
Qed.

Lemma position_take_some p l k n : position p l = Some k -> (k + length p <= n)%nat -> position p (take n l) = Some k.
Proof.
  intros H Hn. destruct (position p (take n l)) as [k'|] eqn:E.
  - apply (position_app p _ (drop n l)) in E. rewrite take_drop in E. congruence.
  - exfalso. revert k n H Hn E. induction l as [|b l IH]; intros k n H Hn E.
    + rewrite take_nil in E. congruence.
    + destruct n as [|n]; [apply position_bound in H as [H _]; cbn [position take] in E; destruct p; cbn in *; [done|lia]|].
      cbn [take position] in *. destruct (starts_with (b :: l) p) eqn:Es.
      * injection H as <-. apply starts_with_spec in Es as [r Es].
        assert (Ht : starts_with (b :: take n l) p = true); [|by rewrite Ht in E]. apply starts_with_spec.
        exists (drop (length p) (b :: take n l)). rewrite <- (take_drop (length p) (b :: take n l)) at 1. f_equal.
        change (b :: take n l) with (take (S n) (b :: l)). rewrite Es, take_take, Nat.min_l by lia. apply take_app_length.
      * destruct (position p l) as [k'|]; [|done]. injection H as <-. destruct (starts_with (b :: take n l) p); [done|].
        destruct (position p (take n l)) eqn:E1; [done|]. by apply (IH k' n eq_refl); [lia|].
Qed.

(** ** Calm connections

    Reads that bring the bytes of a stream in pieces, and writes that succeed. *)

Definition calm_read (r : Read) : Prop := match r with Data chunk => chunk <> [] | _ => False end.
Definition read_bytes (r : Read) : list Z := match r with Data chunk => chunk | _ => [] end.
Definition incoming (c : Conn) : list Z := concat (map read_bytes (reads c)).
Definition stream (c : Conn) : list Z := buffer c ++ incoming c.
Definition calm (c : Conn) : Prop := Forall calm_read (reads c) /\ outcomes c = [].

(** What is left to do: no loop of the server goes round more often. *)
Definition work (c : Conn) : nat := (length (buffer c) + pending c)%nat.

(** [c'] is [c] after some reads into the buffer. *)
Record later (c c' : Conn) : Prop := mkLater {
  later_calm : calm c';
  later_stream : stream c' = stream c;
  later_sent : sent c' = sent c;
  later_work : (work c' <= work c)%nat }.

Lemma later_refl c : calm c -> later c c.
Proof. intros H. by split. Qed.
Lemma later_trans a b c : later a b -> later b c -> later a c.
Proof. intros [H1 H2 H3 H4] [H5 H6 H7 H8]. split; [done|congruence|congruence|lia]. Qed.

Lemma incoming_pending c : (length (incoming c) <= pending c)%nat.
Proof.
  unfold incoming, pending. induction (reads c) as [|r rs IH]; [done|]. cbn [map concat sum_list_with]. rewrite length_app.
  destruct r; cbn [read_bytes length cost]; lia.
Qed.

Lemma stream_work c : (length (stream c) <= work c)%nat.
Proof. unfold stream, work. rewrite length_app. pose proof (incoming_pending c). lia. Qed.

Lemma calm_read_some n c : calm c -> incoming c <> [] -> (0 < n)%nat ->
  exists chunk c', read n c = (Data chunk, c') /\ chunk <> [] /\ (length chunk <= n)%nat /\ calm c' /\ buffer c' = buffer c /\
    sent c' = sent c /\ incoming c = chunk ++ incoming c' /\ (length chunk + pending c' <= pending c)%nat /\ (pending c' < pending c)%nat.
Proof.
  intros [Hr Ho] Hi Hn. unfold read. destruct (reads c) as [|r rs] eqn:E; [by unfold incoming in Hi; rewrite E in Hi|].
  apply Forall_cons_iff in Hr as [Hc Hr]. destruct r as [chunk|m|]; try done. cbn [calm_read] in Hc.
  assert (Hl : (0 < length chunk)%nat) by (destruct chunk; [done|cbn; lia]).
  destruct (Nat.leb_spec (length chunk) n) as [Hle|Hgt].
  - exists chunk, (set_reads rs c). unfold incoming, pending. rewrite E. cbn [set_reads reads buffer sent map concat read_bytes sum_list_with cost].
    split; [done|]. split; [done|]. split; [done|]. split; [by split|]. split_and!; (done || lia).
  - exists (take n chunk), (set_reads (Data (drop n chunk) :: rs) c). unfold incoming, pending. rewrite E.
    cbn [set_reads reads buffer sent map concat read_bytes sum_list_with cost]. rewrite app_assoc, take_drop.
    split; [done|]. split; [destruct chunk, n; cbn in *; (done || lia)|]. split; [rewrite length_take; lia|].
    split; [split; [|done]|split; [done|split; [done|split; [done|split]]]].
    + constructor; [|done]. cbn [calm_read]. intros E0. apply (f_equal (@length Z)) in E0. rewrite length_drop in E0. cbn in E0. lia.
    + rewrite length_take, length_drop. lia.
    + rewrite length_drop. lia.
Qed.

Lemma calm_read_none n c : calm c -> incoming c = [] -> read n c = (Data [], c).
Proof.
  intros [Hr _] Hi. unfold read. destruct (reads c) as [|r rs] eqn:E; [done|]. exfalso. unfold incoming in Hi. rewrite E in Hi.
  apply Forall_cons_iff in Hr as [Hc _]. cbn [map concat] in Hi. apply app_eq_nil in Hi as [Hi _]. by destruct r.
Qed.

Lemma buffer_more c c' chunk : calm c' -> buffer c' = buffer c -> sent c' = sent c -> incoming c = chunk ++ incoming c' ->
  (length chunk + pending c' <= pending c)%nat -> later c (set_buffer (buffer c ++ chunk) c').
Proof.
  intros Hc Hb Hs Hi Hw. split; [done| |done|].
  - unfold stream, incoming in *. cbn [set_buffer buffer reads]. rewrite Hi, <- !app_assoc. done.
  - unfold work, pending in *. cbn [set_buffer buffer reads]. rewrite length_app. lia.
Qed.

Lemma buffer_prefix c : buffer c = take (length (buffer c)) (stream c).
Proof. unfold stream. by rewrite take_app_length. Qed.

Lemma buffer_position p k c : position p (stream c) = Some k ->
  position p (buffer c) = if decide (k + length p <= length (buffer c))%nat then Some k else None.
Proof.
  intros H. pose proof (buffer_prefix c) as Hb. destruct (decide _) as [Hle|Hgt]; rewrite Hb at 1.
  - by apply position_take_some.
  - apply (position_take _ _ k); [done|lia].
Qed.

(** ** The loops *)

Lemma fill_some c : calm c -> incoming c <> [] ->
  exists c', fill c = (Ok true, c') /\ later c c' /\ (length (buffer c) < length (buffer c'))%nat /\ (pending c' < pending c)%nat.
Proof.
  intros Hc Hi. destruct (calm_read_some 4096 c Hc Hi ltac:(lia)) as (chunk & c' & E & Hn & _ & Hc' & Hb & Hs & Hin & Hw & Hp).
  exists (set_buffer (buffer c ++ chunk) c'). unfold fill. rewrite E, Hb. split.
  - rewrite bool_decide_eq_false_2 by done. done.
  - split; [by apply buffer_more|]. split; [|exact Hp]. cbn [set_buffer buffer]. rewrite length_app. destruct chunk; [done|cbn; lia].
Qed.

Lemma wait_loop_spec fuel n c : calm c -> (pending c < fuel)%nat -> n <= Z.of_nat (length (stream c)) ->
  exists c', wait_loop fuel n c = (Ok true, c') /\ later c c' /\ n <= Z.of_nat (length (buffer c')).
Proof.
  revert c. induction fuel as [|fuel IH]; intros c Hc Hf Hn; [lia|]. cbn [wait_loop].
  destruct (Z.ltb_spec (Z.of_nat (length (buffer c))) n) as [Hlt|Hge]; [|by exists c; split; [|split; [apply later_refl|]]].
  assert (Hi : incoming c <> []). { intros E. unfold stream in Hn. rewrite E, app_nil_r in Hn. lia. }
  destruct (fill_some c Hc Hi) as (c1 & E & Hl & Hb & Hp). unfold bind. rewrite E.
  destruct (IH c1 (later_calm _ _ Hl) ltac:(lia)) as (c2 & E2 & Hl2 & Hn2); [by rewrite (later_stream _ _ Hl)|].
  exists c2. split; [exact E2|]. split; [by eapply later_trans|done].
Qed.

Lemma wait_spec n c : calm c -> n <= Z.of_nat (length (stream c)) ->
  exists c', wait n c = (Ok true, c') /\ later c c' /\ n <= Z.of_nat (length (buffer c')).
Proof. intros. apply wait_loop_spec; [done|lia|done]. Qed.

Lemma line_loop_spec fuel k c : calm c -> (pending c < fuel)%nat -> position CRLF (stream c) = Some k ->
  exists c', line_loop fuel c = (Ok (Some k), c') /\ later c c' /\ (k + 2 <= length (buffer c'))%nat.
Proof.
  revert c. induction fuel as [|fuel IH]; intros c Hc Hf Hk; [lia|]. cbn [line_loop]. unfold find_crlf.
  rewrite (buffer_position _ _ _ Hk). cbn [length CRLF]. destruct (decide (k + 2 <= length (buffer c))%nat) as [Hle|Hgt].
  - exists c. split; [done|]. split; [by apply later_refl|done].
  - assert (Hi : incoming c <> []).
    { intros E. apply position_bound in Hk as [Hk _]. unfold stream in Hk. rewrite E, app_nil_r in Hk. cbn in Hk. lia. }
    destruct (fill_some c Hc Hi) as (c1 & E & Hl & Hb & Hp). unfold bind. rewrite E.
    destruct (IH c1 (later_calm _ _ Hl) ltac:(lia)) as (c2 & E2 & Hl2 & Hn2); [by rewrite (later_stream _ _ Hl)|].
    exists c2. split; [exact E2|]. split; [by eapply later_trans|done].
Qed.

Lemma line_spec k c : calm c -> position CRLF (stream c) = Some k ->
  exists c', line c = (Ok (Some k), c') /\ later c c' /\ (k + 2 <= length (buffer c'))%nat.
Proof. intros. apply line_loop_spec; [done|lia|done]. Qed.

(** [n] bytes taken off the stream. *)
Record taken (n : nat) (c c' : Conn) : Prop := mkTaken {
  taken_calm : calm c';
  taken_stream : stream c' = drop n (stream c);
  taken_sent : sent c' = sent c;
  taken_work : (work c' + n <= work c)%nat }.

Lemma taken_later n a b c : later a b -> taken n b c -> taken n a c.
Proof. intros [H1 H2 H3 H4] [H5 H6 H7 H8]. split; [done|congruence|congruence|lia]. Qed.
Lemma taken_taken n m a b c : taken n a b -> taken m b c -> taken (n + m) a c.
Proof. intros [H1 H2 H3 H4] [H5 H6 H7 H8]. split; [done|by rewrite H6, H2, drop_drop|congruence|lia]. Qed.

Lemma drain_spec n c : calm c -> (n <= length (buffer c))%nat ->
  exists c', drain (Z.of_nat n) c = (Ok (take n (stream c)), c') /\ taken n c c'.
Proof.
  intros Hc Hn. unfold drain. rewrite (proj2 (Z.ltb_ge _ _)), Nat2Z.id by lia. eexists. split.
  - do 2 f_equal. unfold stream. by rewrite take_app_le.
  - split; [done| |done|].
    + unfold stream. cbn [set_buffer buffer]. by rewrite drop_app_le.
    + unfold work. cbn [set_buffer buffer]. rewrite length_drop. unfold pending. cbn [set_buffer reads]. lia.
Qed.

Lemma length_loop_spec fuel n c : calm c -> (pending c < fuel)%nat -> (n <= length (stream c))%nat ->
  exists c', length_loop fuel n c = (Ok tt, c') /\ later c c' /\ (n <= length (buffer c'))%nat.
Proof.
  revert c. induction fuel as [|fuel IH]; intros c Hc Hf Hn; [lia|]. cbn [length_loop].
  destruct (Nat.ltb_spec (length (buffer c)) n) as [Hlt|Hge]; [|by exists c; split; [|split; [apply later_refl|]]].
  assert (Hi : incoming c <> []). { intros E. unfold stream in Hn. rewrite E, app_nil_r in Hn. lia. }
  destruct (calm_read_some (Nat.min (n - length (buffer c)) (Z.to_nat 65536)) c Hc Hi ltac:(lia))
    as (chunk & c1 & -> & Hch & _ & Hc1 & Hb1 & Hs1 & Hin & Hw & Hp).
  pose proof (buffer_more c c1 chunk Hc1 Hb1 Hs1 Hin Hw) as Hl. destruct chunk as [|b chunk]; [done|]. rewrite Hb1.
  destruct (IH _ (later_calm _ _ Hl)) as (c2 & E2 & Hl2 & Hn2); [unfold pending in *; cbn [set_buffer reads]; lia|by rewrite (later_stream _ _ Hl)|].
  exists c2. split; [exact E2|]. split; [by eapply later_trans|done].
Qed.

(** ** The head *)

Lemma read_head_loop_spec fuel limits k c : calm c -> (pending c < fuel)%nat -> find_head_end (stream c) = Some k ->
  Z.of_nat k <= max_header_bytes limits ->
  exists c', read_head_loop fuel limits c = (Ok (Some (take k (stream c))), c') /\ taken k c c'.
Proof.
  intros Hc Hf Hk Hm. unfold find_head_end in Hk. destruct (position [13; 10; 13; 10] (stream c)) as [j|] eqn:Ej; [|done]. injection Hk as <-.
  revert c Hc Hf Ej. induction fuel as [|fuel IH]; intros c Hc Hf Ej; [lia|]. cbn [read_head_loop]. unfold find_head_end.
  rewrite (buffer_position _ _ _ Ej). cbn [length]. destruct (decide (j + 4 <= length (buffer c))%nat) as [Hle|Hgt].
  - destruct (drain_spec (j + 4) c Hc Hle) as (c' & E & Ht). unfold drain in E. rewrite (proj2 (Z.ltb_ge _ _)), Nat2Z.id in E by lia.
    injection E as E1 E2. exists c'. split; [by rewrite E1, <- E2|done].
  - rewrite (proj2 (Z.ltb_ge _ _)) by lia.
    assert (Hi : incoming c <> []).
    { intros E. apply position_bound in Ej as [Ej _]. unfold stream in Ej. rewrite E, app_nil_r in Ej. cbn in Ej. lia. }
    destruct (calm_read_some 4096 c Hc Hi ltac:(lia)) as (chunk & c1 & -> & Hch & _ & Hc1 & Hb1 & Hs1 & Hin & Hw & Hp).
    pose proof (buffer_more c c1 chunk Hc1 Hb1 Hs1 Hin Hw) as Hl. destruct chunk as [|b chunk]; [done|]. rewrite Hb1.
    destruct (IH _ (later_calm _ _ Hl)) as (c2 & E2 & Ht2); [unfold pending in *; cbn [set_buffer reads]; lia|by rewrite (later_stream _ _ Hl)|].
    exists c2. rewrite (later_stream _ _ Hl) in E2. split; [exact E2|by eapply taken_later].
Qed.

Lemma read_head_spec limits k c : calm c -> find_head_end (stream c) = Some k -> Z.of_nat k <= max_header_bytes limits ->
  exists c', read_head limits c = (Ok (Some (take k (stream c))), c') /\ taken k c c'.
Proof. intros. apply read_head_loop_spec; try done. lia. Qed.

Lemma read_head_end limits c : calm c -> stream c = [] -> 0 <= max_header_bytes limits -> read_head limits c = (Ok None, c).
Proof.
  intros Hc Hs Hm. unfold stream in Hs. apply app_eq_nil in Hs as [Hb Hi]. unfold read_head. cbn [read_head_loop]. rewrite Hb. cbn [find_head_end position starts_with].
  cbn [length Z.of_nat]. rewrite (proj2 (Z.ltb_ge _ _)) by lia. rewrite (calm_read_none 4096 c Hc Hi). done.
Qed.

End ServerProofs.
