(* ===== verification/ServerRequests.v ===== *)
(** * The HTTP server: requests as clients write them

    How a client spells a request, with a body by length, in chunks or none, and
    that the server reads exactly that request off the stream, however it is cut. *)

From S2P Require Import Prelude Text Url Router Headers Response Server ServerProofs.
Import Server ServerProofs.

Module ServerRequests.

(** ** Requests on the wire *)

Inductive BodyForm := NoBody | Sized (b : list Z) | Chunked (cs : list (list Z)).

Record Wire := mkWire {
  w_method : Method.Method;
  w_target : list Z;
  w_headers : list (list Z * list Z);
  w_body : BodyForm }.

Definition framing (b : BodyForm) : list (list Z * list Z) :=
  match b with
  | NoBody => []
  | Sized b => [(lit "Content-Length", dec (Z.of_nat (length b)))]
  | Chunked _ => [(lit "Transfer-Encoding", lit "chunked")]
  end.
Definition all_headers (w : Wire) : list (list Z * list Z) := w_headers w ++ framing (w_body w).

Definition request_line (w : Wire) : list Z := Method.as_str (w_method w) ++ [32] ++ w_target w ++ [32] ++ lit "HTTP/1.1".
Definition header_text (nv : list Z * list Z) : list Z := nv.1 ++ [58] ++ [32] ++ nv.2.
Definition head_lines (w : Wire) : list (list Z) := request_line w :: map header_text (all_headers w).
Definition spell_lines (lines : list (list Z)) : list Z := concat (map (fun l => l ++ CRLF) lines).
Definition spell_head (w : Wire) : list Z := spell_lines (head_lines w) ++ CRLF.

Definition chunk_text (b : list Z) : list Z := hex_lower (Z.of_nat (length b)) ++ CRLF ++ b ++ CRLF.
Definition spell_body (b : BodyForm) : list Z :=
  match b with
  | NoBody => []
  | Sized b => b
  | Chunked cs => concat (map chunk_text cs) ++ lit "0" ++ CRLF ++ CRLF
  end.
Definition spell (w : Wire) : list Z := spell_head w ++ spell_body (w_body w).

(** ** The request it is *)

Definition body_of (b : BodyForm) : list Z :=
  match b with NoBody => [] | Sized b => b | Chunked cs => concat cs end.
Definition headers_of (hs : list (list Z * list Z)) (h : Headers.Entries) : Headers.Entries :=
  fold_left (fun h nv => Headers.append nv.1 nv.2 h) hs h.
Definition request_of (w : Wire) : Request :=
  let '(p, q) := Url.split_target (w_target w) in
  mkRequest (w_method w) (w_target w) (Url.decode p) (Url.parse_query q) (headers_of (all_headers w) []) (body_of (w_body w)).

(** Whether the client lets the connection go on. *)
Definition keeps (w : Wire) : bool :=
  match Headers.get (lit "connection") (headers_of (all_headers w) []) with
  | Some value => negb (bool_decide (lowercase value = lit "close"))
  | None => true
  end.

(** ** What a client may send *)

Definition name_ok (n : list Z) : Prop :=
  n <> [] /\ Forall visible n /\ (58 ∉ n) /\ lowercase n <> lit "content-length" /\ lowercase n <> lit "transfer-encoding".
Definition value_ok (v : list Z) : Prop := Forall Headers.printable v /\ trim v = v.

Record wire_ok (limits : Limits) (w : Wire) : Prop := mkWireOk {
  ok_target : Forall visible (w_target w);
  ok_origin : position (lit "://") (w_target w) = None;
  ok_headers : Forall (fun nv => name_ok nv.1 /\ value_ok nv.2) (w_headers w);
  ok_head : Z.of_nat (length (spell_head w)) <= max_header_bytes limits;
  ok_body : Z.of_nat (length (body_of (w_body w))) <= max_body_bytes limits;
  ok_chunks : match w_body w with Chunked cs => Forall (fun c => c <> []) cs | _ => True end }.

Definition limits_ok (limits : Limits) : Prop := 0 <= max_header_bytes limits /\ max_body_bytes limits < 2 ^ 62.

(** ** Lines *)

Definition no_cr (l : list Z) : Prop := Forall (fun b => b <> 13) l.

Lemma split_crlf_line l rest : no_cr l -> split_crlf (l ++ CRLF ++ rest) = l :: split_crlf rest.
Proof.
  induction 1 as [|b l Hb _ IH]; [done|]. change ((b :: l) ++ CRLF ++ rest) with (b :: (l ++ CRLF ++ rest)).
  assert (E : split_crlf (b :: l ++ CRLF ++ rest) =
    match split_crlf (l ++ CRLF ++ rest) with piece :: pieces => (b :: piece) :: pieces | [] => [[b]] end).
  { cbn [split_crlf]. destruct b as [|p|p]; try done. repeat (destruct p as [p|p|]; try done). }
  by rewrite E, IH.
Qed.

Lemma split_crlf_lines lines rest : Forall no_cr lines -> split_crlf (spell_lines lines ++ rest) = lines ++ split_crlf rest.
Proof.
  induction 1 as [|l lines Hl _ IH]; [done|]. unfold spell_lines in *. cbn [map concat]. rewrite <- !app_assoc, split_crlf_line by done.
  cbn [app]. by rewrite IH.
Qed.

Lemma position_skip p l rest : no_cr l -> position (13 :: p) (l ++ rest) = (fun k => (length l + k)%nat) <$> position (13 :: p) rest.
Proof.
  induction 1 as [|b l Hb _ IH]; cbn [app length].
  - by destruct (position (13 :: p) rest).
  - cbn [position starts_with]. rewrite (proj2 (Z.eqb_neq 13 b)) by done. cbn [andb]. rewrite IH.
    by destruct (position (13 :: p) rest).
Qed.

Lemma position_head lines rest : lines <> [] -> Forall (fun l => no_cr l /\ l <> []) lines ->
  position [13; 10; 13; 10] (spell_lines lines ++ CRLF ++ rest) = Some (length (spell_lines lines) - 2)%nat.
Proof.
  intros Hn. induction lines as [|l lines IH]; intros H; [done|]. apply Forall_cons_iff in H as [[Hc Hl] H]. unfold spell_lines in *. cbn [map concat].
  rewrite <- !app_assoc, position_skip by done. destruct lines as [|l' lines].
  - cbn [map concat app]. cbn [position starts_with CRLF Z.eqb Pos.eqb andb fmap option_fmap option_map]. rewrite !length_app. cbn. f_equal. lia.
  - specialize (IH ltac:(done) H). apply Forall_cons_iff in H as [[Hc' Hl'] _]. cbn [map concat] in *. rewrite <- !app_assoc in *.
    destruct l' as [|b l']; [done|]. apply Forall_cons_iff in Hc' as [Hb _]. cbn [app CRLF] in *.
    cbn [position starts_with] in IH |- *. change (13 =? 13) with true. change (10 =? 10) with true. change (13 =? 10) with false.
    rewrite (proj2 (Z.eqb_neq 13 b)) in IH |- * by done. cbn [andb] in IH |- *. rewrite IH. cbn [fmap option_fmap option_map].
    rewrite !length_app. cbn [length]. rewrite !length_app. cbn [length]. f_equal. lia.
Qed.

(** ** Text *)

Lemma trim_space v : trim (32 :: v) = trim v.
Proof. reflexivity. Qed.

Lemma hex_digit_lower_ok d : 0 <= d < 16 -> Url.hex_digit (hex_digit_lower d) = Some d.
Proof.
  intros Hd. unfold hex_digit_lower, Url.hex_digit, in_range. destruct (Z.ltb_spec d 10).
  - replace ((48 <=? 48 + d) && (48 + d <=? 57)) with true by lia. f_equal. lia.
  - replace ((48 <=? 87 + d) && (87 + d <=? 57)) with false by lia. replace ((97 <=? 87 + d) && (87 + d <=? 102)) with true by lia. f_equal. lia.
Qed.

Lemma hex_digits_aux fuel n acc : 0 <= n < 2 ^ Z.of_nat fuel -> fuel <> O -> hex_digits (hex_aux fuel n acc) 0 = hex_digits acc n.
Proof.
  revert n acc. induction fuel as [|fuel IH]; intros n acc Hn Hf; [done|]. cbn [hex_aux].
  pose proof (Z.mod_pos_bound n 16 ltac:(lia)) as Hm. rewrite Nat2Z.inj_succ, Z.pow_succ_r in Hn by lia.
  pose proof (Z.div_mod n 16 ltac:(lia)) as Hd.
  assert (Hh : forall k, hex_digits (hex_digit_lower (n mod 16) :: acc) k = hex_digits acc (k * 16 + n mod 16)).
  { intros k. cbn [hex_digits]. by rewrite hex_digit_lower_ok by lia. }
  destruct (Z.eqb_spec (n / 16) 0) as [H0|H0].
  - rewrite Hh. f_equal. lia.
  - rewrite IH, Hh; [f_equal; lia| |].
    + split; [apply Z.div_pos; lia|]. apply Z.div_lt_upper_bound; lia.
    + intros ->. cbn in Hn. apply H0. apply Z.div_small. lia.
Qed.

Lemma hex_aux_visible fuel n acc : Forall visible acc -> Forall (fun b => b <> 59) acc -> Forall (fun b => b <> 43) acc -> 0 <= n ->
  Forall visible (hex_aux fuel n acc) /\ Forall (fun b => b <> 59) (hex_aux fuel n acc) /\ Forall (fun b => b <> 43) (hex_aux fuel n acc).
Proof.
  revert n acc. induction fuel as [|fuel IH]; intros n acc H1 H2 H3 Hn; [done|]. cbn [hex_aux].
  pose proof (Z.mod_pos_bound n 16 ltac:(lia)) as Hm.
  assert (Hd : visible (hex_digit_lower (n mod 16)) /\ hex_digit_lower (n mod 16) <> 59 /\ hex_digit_lower (n mod 16) <> 43).
  { unfold visible, hex_digit_lower. destruct (_ <? _) eqn:E; lia. }
  destruct Hd as (Hd1 & Hd2 & Hd3). destruct (n / 16 =? 0); [by split_and!; constructor|].
  apply IH; [by constructor..|]. apply Z.div_pos; lia.
Qed.

Lemma chunk_size_hex n : 0 <= n <= usize_max -> chunk_size (hex_lower n) = Some n.
Proof.
  intros Hn. unfold hex_lower. set (fuel := S (Z.to_nat (Z.log2 n))).
  destruct (hex_aux_visible fuel n [] ltac:(done) ltac:(done) ltac:(done) ltac:(lia)) as (Hv & Hs & Hp).
  assert (Hx : hex_digits (hex_aux fuel n []) 0 = Some n).
  { rewrite hex_digits_aux; [done| |done]. unfold fuel. split; [lia|]. rewrite Nat2Z.inj_succ, Z2Nat.id by apply Z.log2_nonneg.
    destruct (Z.eq_dec n 0) as [->|]; [done|]. apply Z.log2_spec. lia. }
  unfold chunk_size. rewrite utf8_lossy_valid.
  - rewrite split_on_none by done. cbn [hd]. rewrite trim_visible by done. unfold from_hex.
    destruct (hex_aux fuel n []) as [|b l] eqn:E.
    + exfalso. assert (Hn0 : forall f m acc, acc <> [] -> hex_aux f m acc <> []).
      { induction f as [|f IHf]; intros m acc Ha; [done|]. cbn [hex_aux]. destruct (_ =? 0); [done|]. by apply IHf. }
      unfold fuel in E. cbn [hex_aux] in E. destruct (_ =? 0); [done|]. by apply Hn0 in E.
    + apply Forall_cons_iff in Hp as [Hb _]. assert (Hm : match b :: l with 43 :: rest => rest | _ => b :: l end = b :: l).
      { destruct b as [|p|p]; try done. repeat (destruct p as [p|p|]; try done). }
      rewrite Hm, Hx. by rewrite (proj2 (Z.leb_le _ _)) by lia.
  - apply utf8_valid_ascii. revert Hv. apply Forall_impl. unfold visible. lia.
Qed.

(** ** Headers *)

Definition header_ok (nv : list Z * list Z) : Prop := nv.1 <> [] /\ Forall visible nv.1 /\ (58 ∉ nv.1) /\ value_ok nv.2.

Lemma visible_check l : forallb (fun b => (33 <=? b) && (b <=? 126)) l = true -> Forall visible l.
Proof.
  intros H. rewrite forallb_forall in H. apply List.Forall_forall. intros b Hb. specialize (H b Hb). unfold visible. lia.
Qed.

Lemma visible_printable l : Forall visible l -> Forall Headers.printable l.
Proof. apply Forall_impl. unfold visible, Headers.printable. lia. Qed.

Lemma visible_end name b : Forall visible name -> ~ visible b -> ends_with name [b] = false.
Proof.
  intros Hn Hb. destruct (ends_with name [b]) eqn:E; [|done]. apply ends_with_spec in E as [r ->]. apply Forall_app in Hn as [_ Hn].
  by apply Forall_cons_iff in Hn as [Hn _].
Qed.

Lemma parse_headers_ok hs h : Forall header_ok hs -> parse_headers (map header_text hs ++ [[]; []]) h = Ok (headers_of hs h).
Proof.
  intros H. revert h. induction H as [|[n v] hs (Hn & Hv & Hc & Hp & Ht) _ IH]; intros h; [done|]. cbn [fst snd] in *.
  cbn [map app]. unfold header_text at 1. cbn [fst snd]. destruct n as [|b n]; [done|]. cbn [app parse_headers].
  change (b :: n ++ 58 :: 32 :: v) with ((b :: n) ++ 58 :: 32 :: v). rewrite split_once_app.
  - change (lit " ") with [32]. rewrite !visible_end by (done || unfold visible; lia). cbn [orb]. rewrite trim_visible, trim_space, Ht by done. apply IH.
  - apply List.Forall_forall. intros x Hx ->. apply Hc. by apply list_elem_of_In.
Qed.

Lemma headers_of_sorted hs h : Headers.sorted h -> Headers.sorted (headers_of hs h).
Proof. revert h. induction hs as [|[n v] hs IH]; intros h Hs; [done|]. by apply IH, Headers.append_sorted. Qed.

Lemma get_all_headers name hs h : Headers.sorted h -> Forall header_ok hs ->
  Headers.get_all name (headers_of hs h) =
    Headers.get_all name h ++ map snd (List.filter (fun nv => bool_decide (lowercase nv.1 = lowercase name)) hs).
Proof.
  intros Hs H. revert h Hs. induction H as [|[n v] hs (Hn & Hv & Hc & Hp & Ht) _ IH]; intros h Hs; [by rewrite app_nil_r|].
  cbn [headers_of fold_left fst snd List.filter] in *. unfold headers_of in IH. rewrite IH by (by apply Headers.append_sorted).
  rewrite Headers.get_all_append, !Headers.sanitise_printable by (done || by apply visible_printable).
  case_bool_decide; [|done]. rewrite <- app_assoc. done.
Qed.

Lemma get_head name h : Headers.get name h = head (Headers.get_all name h).
Proof. unfold Headers.get, Headers.get_all. by destruct (Headers.lookup _ _). Qed.

Section Framed.
Context (limits : Limits) (w : Wire) (Hw : wire_ok limits w) (Hl : limits_ok limits).

Lemma name_header_ok nv : name_ok nv.1 /\ value_ok nv.2 -> header_ok nv.
Proof. intros [(H1 & H2 & H3 & _ & _) H4]. by split_and!. Qed.

Lemma framing_ok : Forall header_ok (framing (w_body w)).
Proof.
  destruct (w_body w) as [|b|cs]; cbn [framing]; [constructor| |].
  - constructor; [|constructor]. pose proof (dec_visible (Z.of_nat (length b))) as Hd. split; [done|]. split; [by apply visible_check|].
    split; [by apply (bool_decide_unpack _)|]. split; [by apply visible_printable|by apply trim_visible].
  - constructor; [|constructor]. split; [done|]. split; [by apply visible_check|].
    split; [by apply (bool_decide_unpack _)|]. split; [by apply visible_printable, visible_check|done].
Qed.

Lemma all_headers_ok : Forall header_ok (all_headers w).
Proof.
  apply Forall_app. split; [|apply framing_ok]. eapply Forall_impl; [|exact (ok_headers _ _ Hw)]. apply name_header_ok.
Qed.

Lemma own_headers name : lowercase name = name -> name = lit "content-length" \/ name = lit "transfer-encoding" ->
  List.filter (fun nv => bool_decide (lowercase nv.1 = lowercase name)) (w_headers w) = [].
Proof.
  intros Hn Hname. pose proof (ok_headers _ _ Hw) as H. induction H as [|[n v] hs [(_ & _ & _ & H1 & H2) _] _ IH]; [done|].
  cbn [List.filter fst] in *. rewrite bool_decide_eq_false_2 by (rewrite Hn; destruct Hname; congruence). exact IH.
Qed.

Lemma framing_headers name : lowercase name = name -> name = lit "content-length" \/ name = lit "transfer-encoding" ->
  Headers.get_all name (headers_of (all_headers w) []) =
    map snd (List.filter (fun nv => bool_decide (lowercase nv.1 = lowercase name)) (framing (w_body w))).
Proof.
  intros Hn Hname. rewrite get_all_headers; [|constructor|apply all_headers_ok]. unfold all_headers.
  by rewrite List.filter_app, own_headers by done.
Qed.

Lemma check_framing_ok : check_framing (headers_of (all_headers w) []) = Ok tt.
Proof.
  unfold check_framing. rewrite get_head, (framing_headers (lit "content-length")), (framing_headers (lit "transfer-encoding")) by
    (reflexivity || (left; reflexivity) || (right; reflexivity)). by destruct (w_body w).
Qed.

Lemma content_length_spec : Headers.content_length (headers_of (all_headers w) []) =
  match w_body w with Sized b => Some (Z.of_nat (length b)) | _ => None end.
Proof.
  pose proof (ok_body _ _ Hw) as Hb. destruct Hl as [_ Hm].
  unfold Headers.content_length. rewrite get_head, (framing_headers (lit "content-length")) by (reflexivity || (left; reflexivity)).
  destruct (w_body w) as [|b|cs]; [done| |done]. cbn [body_of] in Hb.
  change (parse_int false 0 usize_max (trim (dec (Z.of_nat (length b)))) = Some (Z.of_nat (length b))).
  rewrite trim_visible by apply dec_visible. apply parse_int_dec; unfold usize_max; lia.
Qed.

Lemma encoding_spec : Headers.get (lit "transfer-encoding") (headers_of (all_headers w) []) =
  match w_body w with Chunked _ => Some (lit "chunked") | _ => None end.
Proof.
  rewrite get_head, (framing_headers (lit "transfer-encoding")) by (reflexivity || (right; reflexivity)). by destruct (w_body w).
Qed.

End Framed.

(** ** Bodies *)

Lemma visible_no_cr l : Forall visible l -> no_cr l.
Proof. apply Forall_impl. unfold visible. lia. Qed.

Lemma hex_visible n : 0 <= n -> Forall visible (hex_lower n).
Proof. intros Hn. unfold hex_lower. by apply hex_aux_visible. Qed.

Lemma position_crlf l rest : no_cr l -> position CRLF (l ++ CRLF ++ rest) = Some (length l).
Proof. intros H. unfold CRLF at 1. rewrite position_skip by done. cbn. f_equal. lia. Qed.

(** A line of the stream is read and taken off it. *)
Lemma line_drain l rest c : calm c -> no_cr l -> stream c = l ++ CRLF ++ rest ->
  exists c1 c2, line c = (Ok (Some (length l)), c1) /\ drain (Z.of_nat (length l) + 2) c1 = (Ok (l ++ CRLF), c2) /\
    taken (length l + 2) c c2 /\ stream c2 = rest.
Proof.
  intros Hc Hl Hs. destruct (line_spec (length l) c Hc) as (c1 & E1 & Hlat & Hn); [rewrite Hs; by apply position_crlf|].
  destruct (drain_spec (length l + 2) c1 (later_calm _ _ Hlat) Hn) as (c2 & E2 & Ht). exists c1, c2.
  rewrite Nat2Z.inj_add in E2. change (Z.of_nat 2) with 2 in E2. rewrite (later_stream _ _ Hlat), Hs in E2.
  assert (Hlen : length (l ++ CRLF) = (length l + 2)%nat) by (by rewrite length_app).
  rewrite app_assoc, <- Hlen, take_app_length in E2. split; [done|]. split; [done|]. split; [by eapply taken_later|].
  by rewrite (taken_stream _ _ _ Ht), (later_stream _ _ Hlat), Hs, app_assoc, <- Hlen, drop_app_length.
Qed.

Lemma trailer_loop_spec fuel rest c : calm c -> stream c = CRLF ++ rest ->
  exists c', trailer_loop fuel c = (Ok tt, c') /\ taken 2 c c' /\ stream c' = rest.
Proof.
  intros Hc Hs. destruct (line_drain [] rest c Hc ltac:(constructor) Hs) as (c1 & c2 & E1 & E2 & Ht & Hs2). exists c2.
  split; [|by split]. destruct fuel; cbn [trailer_loop]; unfold bind at 1; rewrite E1; cbn [length Z.of_nat] in E2 |- *; unfold bind; by rewrite E2.
Qed.

Lemma chunk_loop_spec limits cs : forall fuel body rest c, limits_ok limits -> calm c -> Forall (fun ch => ch <> []) cs ->
  stream c = concat (map chunk_text cs) ++ lit "0" ++ CRLF ++ CRLF ++ rest ->
  Z.of_nat (length body + length (concat cs)) <= max_body_bytes limits -> (work c <= fuel)%nat ->
  exists c', chunk_loop fuel limits body c = (Ok (body ++ concat cs), c') /\ calm c' /\ stream c' = rest /\ sent c' = sent c /\
    (work c' + length (concat (map chunk_text cs)) + 5 <= work c)%nat.
Proof.
  induction cs as [|ch cs IH]; intros fuel body rest c Hl Hc Hne Hs Hb Hf.
  - cbn [map concat app] in Hs. change (lit "0" ++ CRLF ++ CRLF ++ rest) with ([48] ++ CRLF ++ (CRLF ++ rest)) in Hs.
    destruct (line_drain [48] (CRLF ++ rest) c Hc ltac:(repeat constructor; lia) Hs) as (c1 & c2 & E1 & E2 & Ht & Hs2).
    destruct (trailer_loop_spec (length (buffer c2) + pending c2) rest c2 (taken_calm _ _ _ Ht) Hs2) as (c3 & E3 & Ht3 & Hs3).
    exists c3. rewrite app_nil_r. split.
    + destruct fuel; cbn [chunk_loop]; unfold bind at 1; rewrite E1; unfold bind at 1; rewrite E2; cbn [length];
        change (take 1 ([48] ++ CRLF)) with [48]; change (chunk_size [48]) with (Some 0); cbv iota; change (0 =? 0) with true; cbv iota;
        unfold bind; by rewrite E3.
    + split; [apply (taken_calm _ _ _ Ht3)|]. split; [done|]. split; [by rewrite (taken_sent _ _ _ Ht3), (taken_sent _ _ _ Ht)|].
      pose proof (taken_work _ _ _ Ht). pose proof (taken_work _ _ _ Ht3). cbn [map concat length] in *. lia.
  - apply Forall_cons_iff in Hne as [Hch Hne]. cbn [map concat] in Hs, Hb |- *. rewrite length_app in Hb. destruct Hl as [Hl1 Hl2].
    set (n := Z.of_nat (length ch)). set (tail := concat (map chunk_text cs) ++ lit "0" ++ CRLF ++ CRLF ++ rest) in *.
    assert (Hn : 0 < n) by (unfold n; destruct ch; [done|cbn; lia]).
    assert (Hs' : stream c = hex_lower n ++ CRLF ++ (ch ++ CRLF ++ tail)).
    { rewrite Hs. unfold chunk_text. fold n. unfold tail. by rewrite <- !app_assoc. }
    destruct (line_drain _ _ c Hc (visible_no_cr _ (hex_visible n ltac:(lia))) Hs') as (c1 & c2 & E1 & E2 & Ht & Hs2).
    destruct (wait_spec (n + 2) c2 (taken_calm _ _ _ Ht)) as (c3 & E3 & Hl3 & Hn3); [rewrite Hs2, length_app, length_app; unfold n; cbn; lia|].
    destruct (drain_spec (length ch) c3 (later_calm _ _ Hl3)) as (c4 & E4 & Ht4); [unfold n in Hn3; lia|].
    assert (Hs4 : stream c4 = CRLF ++ tail). { by rewrite (taken_stream _ _ _ Ht4), (later_stream _ _ Hl3), Hs2, drop_app_length. }
    assert (Hb4 : (2 <= length (buffer c4))%nat).
    { unfold drain in E4. destruct (_ <? _); [done|]. injection E4 as _ <-. cbn [set_buffer buffer]. rewrite length_drop, Nat2Z.id. unfold n in Hn3. lia. }
    destruct (drain_spec 2 c4 (taken_calm _ _ _ Ht4) Hb4) as (c5 & E5 & Ht5).
    assert (Hs5 : stream c5 = tail) by (by rewrite (taken_stream _ _ _ Ht5), Hs4).
    pose proof (taken_work _ _ _ Ht) as W1. pose proof (later_work _ _ Hl3) as W2. pose proof (taken_work _ _ _ Ht4) as W3. pose proof (taken_work _ _ _ Ht5) as W4.
    assert (Hch0 : (0 < length ch)%nat) by (unfold n in Hn; lia). destruct fuel as [|fuel]; [lia|].
    destruct (IH fuel (body ++ ch) rest c5 ltac:(by split) (taken_calm _ _ _ Ht5) Hne Hs5) as (c6 & E6 & Hc6 & Hs6 & He6 & W6);
      [rewrite length_app; lia|lia|].
    exists c6. split.
    + cbn [chunk_loop]. unfold bind at 1. rewrite E1. unfold bind at 1. rewrite E2.
      replace (take (length (hex_lower n)) (hex_lower n ++ CRLF)) with (hex_lower n) by (by rewrite take_app_length).
      rewrite chunk_size_hex by (unfold usize_max; lia). rewrite (proj2 (Z.eqb_neq n 0)) by lia.
      unfold wrap. rewrite !Z.mod_small by lia. rewrite (proj2 (Z.ltb_ge _ _)) by (unfold n; lia).
      unfold bind at 1. rewrite E3. unfold bind at 1. unfold n. rewrite E4. unfold bind at 1. change 2 with (Z.of_nat 2). rewrite E5.
      rewrite (later_stream _ _ Hl3), Hs2, take_app_length, E6. by rewrite <- app_assoc.
    + split; [done|]. split; [done|].
      split; [by rewrite He6, (taken_sent _ _ _ Ht5), (taken_sent _ _ _ Ht4), (later_sent _ _ Hl3), (taken_sent _ _ _ Ht)|].
      rewrite length_app. unfold chunk_text at 1. fold n. rewrite !length_app. cbn [length CRLF]. lia.
Qed.

(** ** Whole requests *)

Section Parse.
Context (limits : Limits) (w : Wire) (Hw : wire_ok limits w) (Hl : limits_ok limits).

Lemma read_body_spec rest c : calm c -> stream c = spell_body (w_body w) ++ rest ->
  exists c', read_body limits (headers_of (all_headers w) []) c = (Ok (body_of (w_body w)), c') /\ calm c' /\ stream c' = rest /\
    sent c' = sent c /\ (work c' + length (spell_body (w_body w)) <= work c)%nat.
Proof.
  intros Hc Hs. unfold read_body. rewrite (encoding_spec limits w Hw), (content_length_spec limits w Hw Hl).
  pose proof (ok_body _ _ Hw) as Hb. pose proof (ok_chunks _ _ Hw) as Hch. destruct (w_body w) as [|b|cs]; cbn [spell_body body_of] in *.
  - exists c. split; [done|]. split; [done|]. split; [done|]. split; [done|cbn; lia].
  - rewrite (proj2 (Z.ltb_ge _ _)) by done. unfold bind at 1. rewrite Nat2Z.id.
    destruct (length_loop_spec (S (pending c)) (length b) c Hc ltac:(lia)) as (c1 & -> & Hlat & Hn); [rewrite Hs, length_app; lia|].
    destruct (drain_spec (length b) c1 (later_calm _ _ Hlat) Hn) as (c2 & E2 & Ht).
    rewrite (later_stream _ _ Hlat), Hs, take_app_length in E2. exists c2. split; [exact E2|].
    pose proof (taken_later _ _ _ _ Hlat Ht) as [H1 H2 H3 H4]. rewrite Hs, drop_app_length in H2. by split_and!.
  - rewrite <- !app_assoc in Hs.
    destruct (chunk_loop_spec limits cs (work c) [] rest c Hl Hc Hch Hs ltac:(cbn; lia) ltac:(lia)) as (c' & E & H1 & H2 & H3 & H4).
    exists c'. split; [exact E|]. split; [done|]. split; [done|]. split; [done|]. rewrite length_app. change (length (lit "0" ++ CRLF ++ CRLF)) with 5%nat. lia.
Qed.

Lemma method_visible m : Forall visible (Method.as_str m) /\ Method.as_str m <> [].
Proof. destruct m; (split; [by apply visible_check|done]). Qed.

Lemma visible_no32 l : Forall visible l -> Forall (fun b => b <> 32) l.
Proof. apply Forall_impl. unfold visible. lia. Qed.

Lemma printable_no_cr l : Forall Headers.printable l -> no_cr l.
Proof. apply Forall_impl. unfold Headers.printable. lia. Qed.

Lemma head_lines_printable : Forall (fun l => Forall Headers.printable l /\ l <> []) (head_lines w).
Proof.
  constructor.
  - destruct (method_visible (w_method w)) as [Hm Hn]. unfold request_line. split; [|by destruct (Method.as_str (w_method w))].
    rewrite !Forall_app. split; [by apply visible_printable|]. split; [by repeat constructor|].
    split; [apply visible_printable, (ok_target _ _ Hw)|]. split; [by repeat constructor|by apply visible_printable, visible_check].
  - apply List.Forall_map. eapply Forall_impl; [|exact (all_headers_ok limits w Hw)]. intros [n v] (Hn & Hv & _ & Hp & _). cbn [fst snd] in *.
    unfold header_text. cbn [fst snd]. split; [|by destruct n]. rewrite !Forall_app. split; [by apply visible_printable|].
    split; [by repeat constructor|]. split; [by repeat constructor|done].
Qed.

Lemma head_lines_ok : Forall (fun l => no_cr l /\ l <> []) (head_lines w).
Proof. eapply Forall_impl; [|exact head_lines_printable]. intros l [H1 H2]. split; [by apply printable_no_cr|done]. Qed.

Lemma spell_lines_length lines : lines <> [] -> (2 <= length (spell_lines lines))%nat.
Proof. destruct lines as [|l lines]; [done|]. intros _. unfold spell_lines. cbn [map concat]. rewrite !length_app. cbn. lia. Qed.

Lemma head_end rest : find_head_end (spell_head w ++ rest) = Some (length (spell_head w)).
Proof.
  unfold find_head_end, spell_head. rewrite <- app_assoc, position_head by (done || apply head_lines_ok). f_equal.
  pose proof (spell_lines_length (head_lines w) ltac:(done)). rewrite length_app. cbn [length CRLF]. lia.
Qed.

Lemma head_utf8 : utf8_valid (spell_head w) = true.
Proof.
  apply utf8_valid_ascii. unfold spell_head. apply Forall_app. split; [|repeat constructor; lia]. unfold spell_lines.
  pose proof head_lines_printable as H. induction H as [|l lines [Hlp _] _ IH]; [constructor|]. cbn [map concat]. rewrite !Forall_app.
  split; [|exact IH]. split; [|repeat constructor; lia]. revert Hlp. apply Forall_impl. unfold Headers.printable. lia.
Qed.

Lemma request_line_split : split_on 32 (request_line w) = [Method.as_str (w_method w); w_target w; lit "HTTP/1.1"].
Proof.
  unfold request_line. cbn [app]. rewrite split_on_app by (apply visible_no32, method_visible).
  rewrite split_on_app by (apply visible_no32, (ok_target _ _ Hw)). done.
Qed.

Lemma parse_spec rest c : calm c -> stream c = spell_body (w_body w) ++ rest ->
  exists c', parse limits (spell_head w) c = (Ok (request_of w, keeps w), c') /\ calm c' /\ stream c' = rest /\
    sent c' = sent c /\ (work c' + length (spell_body (w_body w)) <= work c)%nat.
Proof.
  intros Hc Hs. destruct (read_body_spec rest c Hc Hs) as (c' & E & H1 & H2 & H3 & H4). exists c'. split; [|by split_and!].
  unfold parse. rewrite head_utf8. cbn [negb].
  assert (Hsp : split_crlf (spell_head w) = head_lines w ++ [[]; []]).
  { unfold spell_head. rewrite split_crlf_lines; [done|]. eapply Forall_impl; [|exact head_lines_ok]. by intros l [H _]. }
  rewrite Hsp. cbn [head_lines app hd tl]. rewrite request_line_split. cbn [hd]. rewrite Method.parse_as_str. cbn [lookup list_lookup].
  rewrite parse_headers_ok by apply (all_headers_ok limits w Hw). rewrite (check_framing_ok limits w Hw).
  unfold origin_form. rewrite (ok_origin _ _ Hw). cbv zeta. unfold bind. rewrite E. unfold request_of, keeps.
  destruct (Url.split_target (w_target w)) as [p q]. unfold ret. do 2 f_equal. f_equal.
  destruct (Headers.get (lit "connection") _) as [v|]; [|done]. repeat case_bool_decide; done.
Qed.

(** A request is taken off the stream whole. *)
Lemma request_spec rest c : calm c -> stream c = spell w ++ rest ->
  exists c1 c2, read_head limits c = (Ok (Some (spell_head w)), c1) /\ parse limits (spell_head w) c1 = (Ok (request_of w, keeps w), c2) /\
    calm c2 /\ stream c2 = rest /\ sent c2 = sent c /\ (work c2 < work c)%nat.
Proof.
  intros Hc Hs. unfold spell in Hs. rewrite <- app_assoc in Hs.
  destruct (read_head_spec limits (length (spell_head w)) c Hc) as (c1 & E1 & Ht); [rewrite Hs; apply head_end|apply (ok_head _ _ Hw)|].
  rewrite Hs, take_app_length in E1. pose proof (taken_stream _ _ _ Ht) as Hs1. rewrite Hs, drop_app_length in Hs1.
  destruct (parse_spec rest c1 (taken_calm _ _ _ Ht) Hs1) as (c2 & E2 & H1 & H2 & H3 & H4). exists c1, c2.
  split; [done|]. split; [done|]. split; [done|]. split; [done|]. split; [by rewrite H3, (taken_sent _ _ _ Ht)|].
  pose proof (taken_work _ _ _ Ht). pose proof (spell_lines_length (head_lines w) ltac:(done)) as Hn. unfold spell_head in *. rewrite length_app in *. lia.
Qed.

End Parse.

End ServerRequests.
