(* ===== verification/ServerTheorems.v ===== *)
(** * The HTTP server: theorems

    Pipelined requests are answered in order however the network cuts them,
    clients read back the responses that were given, any bytes at all are
    survived; and two ways a request is not the one that was sent. *)

From S2P Require Import Prelude Text Url Router Headers Response Server ServerProofs ServerRequests.

Import Server ServerProofs.

(** ** Any bytes at all

    Whatever arrives and whatever fails, every loop of the server ends, and what
    is handed to the application is within the limits and framed one way. *)

Module ServerSafety.

(** ** Ends, with no more work than [n] left *)

Definition ends {A} (x : result Error A * Conn) (n : nat) : Prop := x.1 <> Err Exhausted /\ (work x.2 <= n)%nat.

Lemma bounded_bind {A B} (m : M A) (k : A -> M B) c n :
  ends (m c) n -> (forall a c', m c = (Ok a, c') -> ends (k a c') n) -> ends (bind m k c) n.
Proof. intros [H1 H2] Hk. unfold bind. destruct (m c) as [[a|e] c'] eqn:E; [by apply Hk|]. split; [intros [= ->]; by apply H1|done]. Qed.

Lemma bounded_weaken {A} (x : result Error A * Conn) n m : ends x n -> (n <= m)%nat -> ends x m.
Proof. intros [H1 H2] H. split; [done|lia]. Qed.

Lemma bounded_ret {A} (a : A) c n : (work c <= n)%nat -> ends (ret a c) n.
Proof. by split. Qed.
Lemma bounded_fail {A} (e : Error) c n : e <> Exhausted -> (work c <= n)%nat -> ends (fail (A := A) e c) n.
Proof. intros He Hw. split; [cbn; congruence|done]. Qed.

(** A read brings bytes and leaves that much less to do. *)
Lemma read_work n c : let '(r, c') := read n c in
  buffer c' = buffer c /\ sent c' = sent c /\ (pending c' <= pending c)%nat /\
  match r with Data chunk => (length chunk + pending c' <= pending c)%nat /\ (chunk <> [] -> (0 < n)%nat -> (pending c' < pending c)%nat) | _ => True end.
Proof.
  unfold read. destruct (reads c) as [|r rs] eqn:E; [split_and!; try done; cbn; lia|].
  assert (Hp : pending c = (cost r + sum_list_with cost rs)%nat) by (unfold pending; by rewrite E).
  destruct r as [chunk|m|]; [|rewrite Hp; cbn [set_reads buffer sent]; unfold pending; cbn [reads set_reads]; split_and!; (done || lia)..].
  cbn [cost] in Hp. destruct (Nat.leb_spec (length chunk) n) as [Hle|Hgt]; rewrite Hp; unfold pending; cbn [set_reads reads buffer sent sum_list_with cost].
  - split_and!; (done || lia).
  - rewrite length_drop, length_take. split_and!; (done || lia).
Qed.

Lemma fill_ends c : ends (fill c) (work c) /\ forall c', fill c = (Ok true, c') -> (pending c' < pending c)%nat.
Proof.
  unfold fill. pose proof (read_work 4096 c) as H. destruct (read 4096 c) as [r c'] eqn:E. destruct H as (Hb & Hs & Hp & Hd).
  destruct r as [chunk|m|].
  - destruct Hd as [Hd1 Hd2]. split.
    + split; [done|]. unfold work, pending in *. cbn [snd set_buffer buffer reads]. rewrite length_app, Hb. lia.
    + intros c'' [= Ec <-]. apply negb_true_iff, bool_decide_eq_false in Ec. specialize (Hd2 Ec ltac:(lia)). exact Hd2.
  - split; [|done]. apply bounded_fail; [done|]. unfold work. rewrite Hb. lia.
  - split; [|done]. apply bounded_fail; [done|]. unfold work. rewrite Hb. lia.
Qed.

Lemma drain_ends n c : ends (drain n c) (work c) /\
  forall l c', drain n c = (Ok l, c') -> n <= Z.of_nat (length (buffer c)) /\ l = take (Z.to_nat n) (buffer c) /\ (work c' + Nat.min (Z.to_nat n) (length (buffer c)) <= work c)%nat.
Proof.
  unfold drain. destruct (Z.ltb_spec (Z.of_nat (length (buffer c))) n) as [Hlt|Hge]; [by split|].
  assert (Hw : (work (set_buffer (drop (Z.to_nat n) (buffer c)) c) + Nat.min (Z.to_nat n) (length (buffer c)) <= work c)%nat).
  { unfold work, pending. cbn [set_buffer buffer reads]. rewrite length_drop. lia. }
  split; [split; [done|cbn [snd]; lia]|]. intros l c' [= <- <-]. by split_and!.
Qed.

Lemma line_loop_ends fuel c : (pending c < fuel)%nat -> ends (line_loop fuel c) (work c) /\
  forall at_ c', line_loop fuel c = (Ok (Some at_), c') -> (at_ + 2 <= length (buffer c'))%nat.
Proof.
  revert c. induction fuel as [|fuel IH]; intros c Hf; [lia|]. cbn [line_loop]. unfold find_crlf.
  destruct (position CRLF (buffer c)) as [at_|] eqn:E.
  - split; [by apply bounded_ret|]. intros a c' [= <- <-]. by apply position_bound in E as [E _].
  - destruct (fill_ends c) as [He Hp]. unfold bind. destruct (fill c) as [[[]|e] c1].
    + specialize (Hp c1 eq_refl). destruct (IH c1 ltac:(lia)) as [IH1 IH2]. split; [|exact IH2].
      eapply bounded_weaken; [exact IH1|apply He].
    + split; [|done]. apply bounded_ret, He.
    + split; [|done]. destruct He as [He1 He2]. split; [intros [= ->]; by apply He1|exact He2].
Qed.

Lemma wait_loop_ends fuel n c : (pending c < fuel)%nat -> ends (wait_loop fuel n c) (work c).
Proof.
  revert c. induction fuel as [|fuel IH]; intros c Hf; [lia|]. cbn [wait_loop].
  destruct (_ <? _); [|by apply bounded_ret].
  destruct (fill_ends c) as [He Hp]. unfold bind. destruct (fill c) as [[[]|e] c1].
  - specialize (Hp c1 eq_refl). eapply bounded_weaken; [apply IH; lia|apply He].
  - apply bounded_ret, He.
  - destruct He as [He1 He2]. split; [intros [= ->]; by apply He1|exact He2].
Qed.

Lemma length_loop_ends fuel n c : (pending c < fuel)%nat -> ends (length_loop fuel n c) (work c).
Proof.
  revert c. induction fuel as [|fuel IH]; intros c Hf; [lia|]. cbn [length_loop].
  destruct (Nat.ltb_spec (length (buffer c)) n) as [Hlt|]; [|by apply bounded_ret].
  pose proof (read_work (Nat.min (n - length (buffer c)) (Z.to_nat 65536)) c) as H.
  destruct (read _ c) as [r c1]. destruct H as (Hb & Hs & Hp & Hd). assert (Hw : (work c1 <= work c)%nat) by (unfold work; rewrite Hb; lia).
  destruct r as [[|b chunk]|m|]; [by apply bounded_fail| |by apply bounded_fail|by apply bounded_fail].
  destruct Hd as [Hd1 Hd2]. specialize (Hd2 ltac:(done) ltac:(lia)). eapply bounded_weaken; [apply IH|].
  - unfold pending in *. cbn [set_buffer reads]. lia.
  - unfold work, pending in *. cbn [set_buffer buffer reads]. rewrite length_app, Hb. lia.
Qed.

Lemma read_head_loop_ends fuel limits c : (pending c < fuel)%nat -> ends (read_head_loop fuel limits c) (work c) /\
  forall head c', read_head_loop fuel limits c = (Ok (Some head), c') -> (work c' + 4 <= work c)%nat.
Proof.
  revert c. induction fuel as [|fuel IH]; intros c Hf; [lia|]. cbn [read_head_loop].
  unfold find_head_end. destruct (position _ (buffer c)) as [at_|] eqn:E; cbn [fmap].
  - apply position_bound in E as [E _]. cbn [length] in E. split.
    + split; [done|]. unfold work, pending. cbn [snd set_buffer buffer reads]. rewrite length_drop. lia.
    + intros head c' [= <- <-]. unfold work, pending. cbn [set_buffer buffer reads]. rewrite length_drop. lia.
  - destruct (_ <? _); [split; [by apply bounded_fail|done]|].
    pose proof (read_work 4096 c) as H. destruct (read 4096 c) as [r c1]. destruct H as (Hb & Hs & Hp & Hd).
    assert (Hw : (work c1 <= work c)%nat) by (unfold work; rewrite Hb; lia).
    destruct r as [[|b chunk]|m|].
    + destruct (bool_decide _); (split; [|done]); [by split|by apply bounded_fail].
    + destruct Hd as [Hd1 Hd2]. specialize (Hd2 ltac:(done) ltac:(lia)). destruct (IH (set_buffer (buffer c1 ++ b :: chunk) c1)) as [IH1 IH2].
      { unfold pending in *. cbn [set_buffer reads]. lia. }
      assert (Hw2 : (work (set_buffer (buffer c1 ++ b :: chunk) c1) <= work c)%nat).
      { unfold work, pending in *. cbn [set_buffer buffer reads]. rewrite length_app, Hb. lia. }
      split; [by eapply bounded_weaken|]. intros head c' Hh. specialize (IH2 head c' Hh). lia.
    + split; [by apply bounded_fail|done].
    + destruct (bool_decide _); (split; [|done]); [by split|by apply bounded_fail].
Qed.

Lemma trailer_loop_ends fuel c : (work c <= fuel)%nat -> ends (trailer_loop fuel c) (work c).
Proof.
  revert c. induction fuel as [|fuel IH]; intros c Hf; cbn [trailer_loop]; apply bounded_bind.
  - by apply line_loop_ends; lia.
  - intros [at_|] c1 E; [|apply bounded_ret; pose proof (line_loop_ends (S (pending c)) c ltac:(lia)) as [[_ H] _]; unfold line in E; by rewrite E in H].
    destruct (line_loop_ends (S (pending c)) c ltac:(lia)) as [[_ Hw] Hb]. unfold line in E. rewrite E in Hw. specialize (Hb _ _ E). cbn [snd] in Hw.
    unfold work in Hf, Hw. lia.
  - by apply line_loop_ends; lia.
  - intros at_ c1 E. destruct (line_loop_ends (S (pending c)) c ltac:(lia)) as [[_ Hw] Hb]. unfold line in E. rewrite E in Hw. cbn [snd] in Hw.
    destruct at_ as [at_|]; [|by apply bounded_ret]. specialize (Hb _ _ E).
    destruct (drain_ends (Z.of_nat at_ + 2) c1) as [Hd Hd2]. apply bounded_bind; [by eapply bounded_weaken|].
    intros l c2 E2. destruct (Hd2 _ _ E2) as (_ & _ & Hw2). destruct at_ as [|at_]; [apply bounded_ret; lia|].
    eapply bounded_weaken; [apply IH; lia|lia].
Qed.

(** ** How a request says where it ends *)

(** The codings a message lists: the parts between the commas of its
    Transfer-Encoding fields, taken together, less the blank ones. *)
Definition codings (h : Headers.Entries) (cs : list (list Z)) : Prop :=
  exists parts, join [44] parts = join [44] (Headers.get_all (lit "transfer-encoding") h) /\ Forall (fun p => 44 ∉ p) parts /\
    cs = filter (fun c => c <> []) (map trim parts).

(** A message says where it ends in one way: its lengths agree, it does not have
    both a length and a coding, and chunks are the last coding and applied once.
    Its body is as long as it says, or empty when it says nothing. *)
Record stated_once (h : Headers.Entries) (body : list Z) : Prop := {
  lengths_agree : forall a b, a ∈ Headers.get_all (lit "content-length") h -> b ∈ Headers.get_all (lit "content-length") h -> a = b;
  length_or_coding : Headers.get_all (lit "content-length") h = [] \/ Headers.get_all (lit "transfer-encoding") h = [];
  chunked_last : Headers.get_all (lit "transfer-encoding") h <> [] ->
    exists before, codings h (before ++ [lit "chunked"]) /\ lit "chunked" ∉ before;
  body_length : Headers.get_all (lit "transfer-encoding") h = [] -> forall n, Headers.content_length h = Some n -> Z.of_nat (length body) = n;
  no_length : Headers.get_all (lit "transfer-encoding") h = [] -> Headers.get_all (lit "content-length") h = [] -> body = [] }.

Lemma split_on_pieces c l : Forall (fun p => c ∉ p) (split_on c l) /\ join [c] (split_on c l) = l /\ split_on c l <> [].
Proof.
  induction l as [|b l (IH1 & IH2 & IH3)]; cbn [split_on]; [split_and!; [constructor; [by apply not_elem_of_nil|constructor]|done|done]|].
  destruct (Z.eqb_spec b c) as [->|Hb].
  - split_and!; [constructor; [by apply not_elem_of_nil|done]| |done]. rewrite join_cons by done. cbn [app]. by rewrite IH2.
  - destruct (split_on c l) as [|p rest]; [done|]. inversion IH1; subst. split_and!; [|..|done].
    + constructor; [|done]. rewrite not_elem_of_cons. split; [congruence|done].
    + destruct rest; cbn in *; by rewrite ?IH2.
Qed.

Lemma join_app sep l l' : l <> [] -> l' <> [] -> join sep (l ++ l') = join sep l ++ sep ++ join sep l'.
Proof.
  intros Hl Hl'. induction l as [|w l IH]; [done|]. destruct l as [|w' l]; [by apply join_cons|].
  change ((w :: w' :: l) ++ l') with (w :: ((w' :: l) ++ l')). rewrite join_cons by done. rewrite IH by done.
  rewrite (join_cons sep w (w' :: l)) by done. by rewrite <- !app_assoc.
Qed.

Lemma listed_codings h : codings h (listed_encodings (Headers.get_all (lit "transfer-encoding") h)).
Proof.
  unfold codings, listed_encodings. generalize (Headers.get_all (lit "transfer-encoding") h). intros es.
  exists (concat (map (split_on 44) es)). split_and!.
  - induction es as [|e es IH]; [done|]. cbn [map concat]. destruct (split_on_pieces 44 e) as (_ & H2 & H3).
    destruct es as [|e' es]; [cbn [map concat join]; rewrite app_nil_r; exact H2|]. rewrite join_app; [|done|].
    + rewrite H2, IH. symmetry; by apply join_cons.
    + cbn [map concat]. destruct (split_on_pieces 44 e') as (_ & _ & H). by destruct (split_on 44 e').
  - induction es as [|e es IH]; [constructor|]. cbn [map concat]. apply Forall_app. split; [apply split_on_pieces|done].
  - generalize (map trim (concat (map (split_on 44) es))). intros l. induction l as [|c l IH]; [done|]. cbn [List.filter].
    rewrite filter_cons. destruct (decide (c <> [])) as [Hc|Hc].
    + rewrite bool_decide_eq_false_2 by done. cbn. by f_equal.
    + rewrite bool_decide_eq_true_2 by (by apply dec_stable). exact IH.
Qed.

Lemma last_once {A} `{EqDecision A} (x : A) l : head (rev l) = Some x -> length (List.filter (fun v => bool_decide (v = x)) l) = 1%nat ->
  exists before, l = before ++ [x] /\ x ∉ before.
Proof.
  intros Hh Hl. destruct l as [|y l _] using rev_ind; [done|]. rewrite rev_unit in Hh. injection Hh as ->. exists l. split; [done|].
  rewrite List.filter_app, length_app in Hl. cbn [List.filter] in Hl. rewrite bool_decide_eq_true_2 in Hl by done. cbn [length] in Hl.
  intros Hin. assert (Hf : In x (List.filter (fun v => bool_decide (v = x)) l)).
  { apply filter_In. split; [by apply list_elem_of_In|by apply bool_decide_eq_true]. }
  destruct (List.filter _ l); [done|cbn in Hl; lia].
Qed.

Lemma check_framing_states h body : check_framing h = Ok tt ->
  (Headers.get_all (lit "transfer-encoding") h = [] -> forall n, Headers.content_length h = Some n -> Z.of_nat (length body) = n) ->
  (Headers.get_all (lit "transfer-encoding") h = [] -> Headers.get_all (lit "content-length") h = [] -> body = []) ->
  stated_once h body.
Proof.
  intros Hc Hb1 Hb2. unfold check_framing in Hc. set (lengths := Headers.get_all (lit "content-length") h) in *.
  rewrite ServerRequests.get_head in Hc. set (encodings := Headers.get_all (lit "transfer-encoding") h) in *.
  destruct ((1 <? length lengths)%nat && _) eqn:E1; [done|]. destruct (negb (bool_decide (lengths = [])) && _) eqn:E2; [done|].
  split; [| | |exact Hb1|exact Hb2]; fold lengths encodings.
  - assert (Hall : forall a, a ∈ lengths -> a = hd [] lengths).
    { intros a Ha. destruct lengths as [|x [|y l]] eqn:El; [by apply elem_of_nil in Ha|by apply list_elem_of_singleton in Ha|].
      rewrite (proj2 (Nat.ltb_lt _ _)) in E1 by (cbn; lia). cbn [andb] in E1.
      destruct (decide (a = hd [] (x :: y :: l))) as [|Hne]; [done|exfalso].
      apply not_true_iff_false in E1. apply E1. apply existsb_exists. exists a. split; [by apply list_elem_of_In|].
      by rewrite bool_decide_eq_false_2. }
    intros a b Ha Hb. by rewrite (Hall a Ha), (Hall b Hb).
  - destruct (bool_decide_reflect (lengths = [])) as [->|]; [by left|]. cbn [negb andb] in E2. right. by destruct encodings.
  - intros Hne. rewrite bool_decide_eq_false_2 in Hc by done. destruct (_ || _) eqn:E3; [done|].
    apply orb_false_iff in E3 as [E3 E4]. apply negb_false_iff in E3, E4. apply bool_decide_eq_true in E3. apply Nat.eqb_eq in E4.
    destruct (last_once _ _ E3 E4) as (before & Hl & Hn). exists before. split; [|done]. rewrite <- Hl. apply listed_codings.
Qed.

Lemma parse_int_nonneg hi l n : parse_int false 0 hi l = Some n -> 0 <= n.
Proof.
  unfold parse_int. intros H. repeat case_match; simplify_eq; lia.
Qed.

Lemma content_length_nonneg h n : Headers.content_length h = Some n -> 0 <= n.
Proof.
  unfold Headers.content_length, Headers.parse_usize. destruct (Headers.get _ h); cbn; [|done]. apply parse_int_nonneg.
Qed.

(** The body grows within the limit: a size that wraps is never delivered. *)
Definition good (limits : Limits) (n : nat) (x : result Error (list Z) * Conn) : Prop :=
  ends x n /\ forall b, x.1 = Ok b -> Z.of_nat (length b) <= max_body_bytes limits.

Lemma good_bind {A} limits n (m : M A) k c :
  ends (m c) n -> (forall a c', m c = (Ok a, c') -> good limits n (k a c')) -> good limits n (bind m k c).
Proof.
  intros [H1 H2] Hk. unfold bind. destruct (m c) as [[a|e] c'] eqn:E; [by apply Hk|]. split; [|done].
  split; [intros [= ->]; by apply H1|done].
Qed.

Lemma good_fail limits n e c : e <> Exhausted -> (work c <= n)%nat -> good limits n (fail e c).
Proof. intros He Hw. split; [by apply bounded_fail|done]. Qed.

Lemma good_weaken limits n m x : good limits n x -> (n <= m)%nat -> good limits m x.
Proof. intros [H1 H2] H. split; [by eapply bounded_weaken|done]. Qed.

Lemma chunk_loop_good limits fuel : forall body c, (work c <= fuel)%nat -> Z.of_nat (length body + work c) < 2 ^ 62 ->
  Z.of_nat (length body) <= max_body_bytes limits -> good limits (work c) (chunk_loop fuel limits body c).
Proof.
  induction fuel as [|fuel IH]; intros body c Hf Hn Hm; cbn [chunk_loop]; (apply good_bind; [by apply line_loop_ends; lia|]);
    intros [at_|] c1 E; (destruct (line_loop_ends (S (pending c)) c ltac:(lia)) as [[_ Hw] Hb]; unfold line in E; rewrite E in Hw; cbn [snd] in Hw);
    try (by apply good_fail); specialize (Hb _ _ E); (destruct (drain_ends (Z.of_nat at_ + 2) c1) as [Hd Hd2]);
    (apply good_bind; [by eapply bounded_weaken|]); intros header c2 E2; destruct (Hd2 _ _ E2) as (_ & _ & Hw2);
    [unfold work in Hf, Hw; lia|].
  destruct (chunk_size _) as [size|]; [|apply good_fail; [done|lia]]. destruct (size =? 0).
  { apply good_bind.
    - eapply bounded_weaken; [apply trailer_loop_ends; unfold work; lia|lia].
    - intros [] c3 E3. split; [|by intros b [= <-]]. apply bounded_ret.
      pose proof (trailer_loop_ends (length (buffer c2) + pending c2) c2 ltac:(unfold work; lia)) as [_ Hw3]. rewrite E3 in Hw3. cbn [snd] in Hw3. lia. }
  destruct (Z.ltb_spec (max_body_bytes limits) (wrap 64 (Z.of_nat (length body) + size))) as [|Hmax]; [apply good_fail; [done|lia]|].
  pose proof (wait_loop_ends (S (pending c2)) (wrap 64 (size + 2)) c2 ltac:(lia)) as Hwait.
  apply good_bind; [eapply bounded_weaken; [exact Hwait|lia]|]. intros [] c3 E3; unfold wait in E3; destruct Hwait as [_ Hw3]; rewrite E3 in Hw3; cbn [snd] in Hw3; [|apply good_fail; [done|lia]].
  destruct (drain_ends size c3) as [Hd3 Hd4]. apply good_bind; [eapply bounded_weaken; [exact Hd3|lia]|]. intros data c4 E4.
  destruct (Hd4 _ _ E4) as (Hs4 & Edata & Hw4). assert (Hlen : length data = Z.to_nat size) by (rewrite Edata, length_take; unfold work in *; lia).
  assert (Hsize : Z.of_nat (length body) + Z.of_nat (length data) <= max_body_bytes limits /\ (length data + work c4 <= work c3)%nat).
  { destruct (Z.le_gt_cases 0 size) as [Hpos|Hneg]; [|rewrite Hlen; split; lia].
    unfold wrap in Hmax. rewrite Z.mod_small in Hmax by (unfold work in *; lia). split; [lia|]. lia. }
  destruct Hsize as [Hsize Hdata]. destruct (drain_ends 2 c4) as [Hd5 Hd6]. apply good_bind; [eapply bounded_weaken; [exact Hd5|lia]|].
  intros crlf c5 E5. destruct (Hd6 _ _ E5) as (_ & _ & Hw5). eapply good_weaken; [apply IH; rewrite ?length_app; lia|lia].
Qed.

Lemma read_body_good limits h c : 0 <= max_body_bytes limits -> Z.of_nat (work c) < 2 ^ 62 -> good limits (work c) (read_body limits h c).
Proof.
  intros Hm Hn. unfold read_body. destruct (Headers.get _ h); [by apply chunk_loop_good|].
  destruct (Headers.content_length h) as [n|]; [|split; [by apply bounded_ret|by intros b [= <-]]].
  destruct (Z.ltb_spec (max_body_bytes limits) n) as [|Hle]; [by apply good_fail|].
  pose proof (length_loop_ends (S (pending c)) (Z.to_nat n) c ltac:(lia)) as Hl.
  apply good_bind; [exact Hl|]. intros [] c1 E1. destruct Hl as [_ Hl]. rewrite E1 in Hl. cbn [snd] in Hl.
  destruct (drain_ends n c1) as [Hd Hd2]. split; [by eapply bounded_weaken|]. intros b Hb.
  destruct (drain n c1) as [r c2] eqn:E2. cbn [fst] in Hb. subst r. destruct (Hd2 _ _ eq_refl) as (_ & -> & _).
  rewrite length_take. lia.
Qed.

Lemma read_body_length limits h c body c' : read_body limits h c = (Ok body, c') ->
  (Headers.get_all (lit "transfer-encoding") h = [] -> forall n, Headers.content_length h = Some n -> Z.of_nat (length body) = n) /\
  (Headers.get_all (lit "transfer-encoding") h = [] -> Headers.get_all (lit "content-length") h = [] -> body = []).
Proof.
  unfold read_body. rewrite ServerRequests.get_head. destruct (Headers.get_all (lit "transfer-encoding") h) as [|e es]; [|done]. cbn [head].
  intros H. split; intros _.
  - intros n Hn. pose proof (content_length_nonneg _ _ Hn). rewrite Hn in H. destruct (_ <? n); [done|]. unfold bind in H.
    destruct (length_loop _ _ c) as [[[]|e] c1]; [|done]. destruct (drain_ends n c1) as [_ Hd].
    destruct (Hd _ _ H) as (Hle & -> & _). rewrite length_take. lia.
  - intros Hl. assert (Hn : Headers.content_length h = None) by (unfold Headers.content_length; by rewrite ServerRequests.get_head, Hl).
    rewrite Hn in H. by injection H as <-.
Qed.

(** ** Requests and connections *)

(** What the application is handed. *)
Definition request_fits (limits : Limits) (r : Request) : Prop :=
  Z.of_nat (length (request_body r)) <= max_body_bytes limits /\ stated_once (request_headers r) (request_body r).

Lemma parse_bounded limits head c : 0 <= max_body_bytes limits -> Z.of_nat (work c) < 2 ^ 62 ->
  ends (parse limits head c) (work c) /\ forall r k c', parse limits head c = (Ok (r, k), c') -> request_fits limits r.
Proof.
  intros Hm Hn. unfold parse. destruct (negb _); [split; [by apply bounded_fail|done]|].
  destruct (Method.parse _) as [m|]; [|split; [by apply bounded_fail|done]].
  destruct (_ !! 1%nat) as [t|]; [|split; [by apply bounded_fail|done]].
  destruct (parse_headers _ []) as [h|e] eqn:Eh; [|split; [apply bounded_fail; [|done]|done]].
  - destruct (check_framing h) as [[]|e] eqn:Ef; [|split; [apply bounded_fail; [|done]|done]].
    + cbv zeta. destruct (read_body_good limits h c Hm Hn) as [[He1 He2] Hg]. unfold bind.
      destruct (read_body limits h c) as [[body|e] c1] eqn:Eb; [|split; [by split; [intros [= ->]; apply He1|]|done]].
      destruct (Url.split_target _) as [p q]. split; [by split|]. intros r k c' [= <- <- <-]. split; [by apply Hg|].
      destruct (read_body_length _ _ _ _ _ Eb) as [Hb1 Hb2]. by apply check_framing_states.
    + unfold check_framing in Ef. repeat (destruct (_ && _) in Ef; [by injection Ef as <-|]).
      destruct (bool_decide _) in Ef; [done|]. destruct (_ || _) in Ef; [by injection Ef as <-|done].
  - intros ->. clear -Eh. revert Eh. generalize (@nil (list Z * list (list Z))) as h. generalize (tl (split_crlf head)) as lines.
    induction lines as [|l lines IH]; intros h Eh; [done|]. cbn [parse_headers] in Eh. destruct l as [|b l]; [by apply (IH h)|].
    destruct (split_once _ _) as [[n v]|]; [|done]. destruct (_ || _); [done|]. by apply IH in Eh.
Qed.

Lemma write_flush_work bytes c : work (write_flush bytes c).2 = work c.
Proof.
  unfold write_flush, bind, outcome. cbn [outcomes]. destruct (outcomes c) as [|[m|] [|[m'|] rest]]; reflexivity.
Qed.

Lemma write_flush_error bytes c e : (write_flush bytes c).1 = Err e -> e <> Exhausted.
Proof.
  unfold write_flush, bind, outcome. cbn [outcomes]. destruct (outcomes c) as [|[m|] [|[m'|] rest]]; cbn; intros [= <-]; done.
Qed.

Section Serve.
Context {U D : Type} (dispatch : D -> Request -> Response.Response U * D) (limits : Limits).
Context (Inv : D -> Prop) (Hstep : forall d r, Inv d -> request_fits limits r -> Inv (dispatch d r).2).

Lemma serve_loop_ends fuel d c : 0 <= max_body_bytes limits -> (work c <= fuel)%nat -> Z.of_nat (work c) < 2 ^ 62 -> Inv d ->
  let '(r, d', c') := serve_loop dispatch limits fuel d c in r <> Err Exhausted /\ Inv d'.
Proof.
  intros Hm. revert d c. induction fuel as [|fuel IH]; intros d c Hf Hn Hd; cbn [serve_loop];
    destruct (read_head_loop_ends (S (pending c)) limits c ltac:(lia)) as [[He1 He2] Hh]; fold (read_head limits c) in He1, He2, Hh;
    (destruct (read_head limits c) as [[[head|]|e] c1]; [|done|split; [intros [= ->]; by apply He1|done]]); cbn [snd] in He2;
    specialize (Hh _ _ eq_refl); [lia|].
  destruct (parse_bounded limits head c1 Hm ltac:(lia)) as [[Hp1 Hp2] Hr]. destruct (parse limits head c1) as [[[request keep]|e] c2]; cbn [snd] in Hp2.
  - specialize (Hr _ _ _ eq_refl). pose proof (Hstep d request Hd Hr) as Hd'. destruct (dispatch d request) as [response d']. cbn [snd] in Hd'.
    destruct (Response.upgrade response) as [u|].
    + pose proof (write_flush_error (Response.to_bytes false response) c2) as Hw. destruct (write_flush _ c2) as [[[]|e] c3]; [done|].
      split; [|done]. intros [= ->]. by apply (Hw Exhausted).
    + cbv zeta. set (out := Response.to_bytes _ _). pose proof (write_flush_error out c2) as Hw. pose proof (write_flush_work out c2) as Hw2.
      destruct (write_flush out c2) as [[[]|e] c3]; cbn [snd] in Hw2.
      * destruct keep; [|done]. apply IH; [lia|lia|done].
      * split; [|done]. intros [= ->]. by apply (Hw Exhausted).
  - destruct e; try (cbv zeta; set (out := Response.to_bytes _ _); pose proof (write_flush_error out c2) as Hw;
      destruct (write_flush out c2) as [[[]|e] c3]; [done|]; split; [|done]; intros [= ->]; by apply (Hw Exhausted)).
    + done.
    + by destruct Hp1.
Qed.

End Serve.

End ServerSafety.

Import Server ServerProofs ServerRequests ServerSafety.

Module ServerTheorems.
#[local] Existing Instance Method.Method_eq_dec.

(** ** What a connection should say *)

Section Answers.
Context {U D : Type} (dispatch : D -> Request -> Response.Response U * D).

(** The bytes written for a sequence of requests, the state of the application
    after it, and the protocol the socket is handed to, with the requests that
    were not reached. *)
Fixpoint answers (d : D) (ws : list Wire) : list Z * D * option (U * list Wire) :=
  match ws with
  | [] => ([], d, None)
  | w :: ws =>
      let '(r, d) := dispatch d (request_of w) in
      match Response.upgrade r with
      | Some u => (Response.to_bytes false r, d, Some (u, ws))
      | None =>
          let out := Response.to_bytes (negb (bool_decide (w_method w = Method.Head)))
                       (if keeps w then r else Response.with_header (lit "connection") (lit "close") r) in
          if keeps w then let '(out', d, handed) := answers d ws in (out ++ out', d, handed) else (out, d, None)
      end
  end.

Lemma write_flush_calm bytes c : calm c -> exists c', write_flush bytes c = (Ok tt, c') /\ calm c' /\ stream c' = stream c /\
  buffer c' = buffer c /\ incoming c' = incoming c /\ sent c' = sent c ++ bytes /\ work c' = work c.
Proof.
  destruct c as [rs b os s]. intros [Hr Ho]. cbn [reads outcomes] in Hr, Ho. subst os. exists (mkConn rs b [] (s ++ bytes)).
  split; [reflexivity|]. split; [by split|]. by split_and!.
Qed.

Lemma request_of_method w : method (request_of w) = w_method w.
Proof. unfold request_of. by destruct (Url.split_target (w_target w)). Qed.

Lemma serve_loop_answers limits fuel ws : forall d c, limits_ok limits -> Forall (wire_ok limits) ws -> calm c ->
  stream c = concat (map spell ws) -> (work c <= fuel)%nat ->
  exists e d' c' out handed, serve_loop dispatch limits fuel d c = (Ok e, d', c') /\ answers d ws = (out, d', handed) /\
    sent c' = sent c ++ out /\
    match handed with
    | None => e = Closed
    | Some (u, rest) => exists b, e = Upgraded u b /\ b ++ incoming c' = concat (map spell rest)
    end.
Proof.
  revert ws. induction fuel as [|fuel IH]; intros ws d c Hl Hws Hc Hs Hf.
  - destruct ws as [|w ws].
    + exists Closed, d, c, [], None. cbn [serve_loop answers]. rewrite (read_head_end limits c Hc Hs (proj1 Hl)). rewrite app_nil_r. done.
    + exfalso. pose proof (stream_work c) as H. apply Forall_cons_iff in Hws as [Hw _]. rewrite Hs in H. cbn [map concat] in H. unfold spell at 1, spell_head in H.
      rewrite !length_app in H. cbn [CRLF length] in H. lia.
  - destruct ws as [|w ws].
    + exists Closed, d, c, [], None. cbn [serve_loop answers]. rewrite (read_head_end limits c Hc Hs (proj1 Hl)). rewrite app_nil_r. done.
    + apply Forall_cons_iff in Hws as [Hw Hws]. cbn [map concat] in Hs.
      destruct (request_spec limits w Hw Hl (concat (map spell ws)) c Hc Hs) as (c1 & c2 & E1 & E2 & Hc2 & Hs2 & Hsent2 & Hwork).
      cbn [serve_loop answers]. rewrite E1, E2, request_of_method. destruct (dispatch d (request_of w)) as [r d1]. destruct (Response.upgrade r) as [u|].
      * destruct (write_flush_calm (Response.to_bytes false r) c2 Hc2) as (c3 & E3 & Hc3 & Hs3 & Hb3 & Hi3 & He3 & _). rewrite E3.
        eexists _, _, _, _, _. split; [reflexivity|]. split; [reflexivity|]. split; [by cbn [set_buffer sent]; rewrite He3, Hsent2|].
        eexists. split; [reflexivity|]. rewrite <- Hs2, <- Hs3. done.
      * cbv zeta. set (out := Response.to_bytes _ _). destruct (write_flush_calm out c2 Hc2) as (c3 & E3 & Hc3 & Hs3 & _ & _ & He3 & Hw3). rewrite E3.
        destruct (keeps w).
        -- destruct (IH ws d1 c3 Hl Hws Hc3 ltac:(by rewrite Hs3) ltac:(lia)) as (e & d' & c' & out' & handed & H1 & H2 & H3 & H4).
           exists e, d', c', (out ++ out'), handed. rewrite H1, H2. split; [done|]. split; [done|]. split; [by rewrite H3, He3, Hsent2, app_assoc|done].
        -- exists Closed, d1, c3, out, None. by rewrite He3, Hsent2.
Qed.

End Answers.

(** ** A client that reads responses *)

Definition split_header (l : list Z) : list Z * list Z :=
  match split_once 58 l with Some (n, v) => (lowercase n, trim v) | None => (lowercase l, []) end.

Fixpoint field (name : list Z) (hs : list (list Z * list Z)) : option (list Z) :=
  match hs with [] => None | (n, v) :: hs => if bool_decide (n = name) then Some v else field name hs end.

(** The status, the fields but the length, the body, and the bytes after it. *)
Definition read_response (to_head : bool) (b : list Z) : option (Z * list (list Z * list Z) * list Z * list Z) :=
  let! at_ := find_head_end b in
  let rest := drop at_ b in
  match split_crlf (take at_ b) with
  | [] => None
  | status_line :: lines =>
      let! code := parse_int false 0 65535 (default [] (split_on 32 status_line !! 1%nat)) in
      let fields := map split_header (List.filter (fun l => negb (bool_decide (l = []))) lines) in
      let others := List.filter (fun nv => negb (bool_decide (nv.1 = lit "content-length"))) fields in
      if to_head || Status.is_bodyless code then Some (code, others, [], rest)
      else
        let! n := field (lit "content-length") fields in
        let! n := parse_int false 0 usize_max n in
        Some (code, others, take (Z.to_nat n) rest, drop (Z.to_nat n) rest)
  end.

Section Responses.
Context {U : Type} (r : Response.Response U).

Definition name_token (n : list Z) : Prop := n <> [] /\ Forall visible n /\ (58 ∉ n).

Record response_ok : Prop := mkResponseOk {
  response_built : Headers.built (Response.headers r);
  response_names : Forall (fun e => name_token e.1) (Response.headers r);
  response_status : 0 <= Response.status r <= 65535;
  response_here : Response.upgrade r = None;
  response_size : Z.of_nat (length (Response.body r)) <= usize_max }.

Context (Hr : response_ok).

Definition others : list (list Z * list Z) :=
  List.filter (fun nv => negb (bool_decide (nv.1 = lit "content-length"))) (Headers.iter (Response.headers r)).
Definition has_body : bool := negb (Status.is_bodyless (Response.status r)).
Definition length_field : list (list Z * list Z) :=
  if has_body then [(lit "content-length", dec (Z.of_nat (length (Response.body r))))] else [].
Definition status_line : list Z := lit "HTTP/1.1 " ++ dec (Response.status r) ++ lit " " ++ Status.reason (Response.status r).
Definition response_lines : list (list Z) := status_line :: map header_text (others ++ length_field).

Lemma to_bytes_lines include :
  Response.to_bytes include r = spell_lines response_lines ++ CRLF ++ (if include && has_body then Response.body r else []).
Proof.
  unfold Response.to_bytes. fold has_body. fold others. unfold Response.upgrades. rewrite (response_here Hr). cbn [negb]. rewrite andb_true_r.
  unfold response_lines, spell_lines. cbn [map concat]. rewrite map_app, map_app, concat_app.
  assert (E : concat (map Response.header_line others) = concat (map (fun l => l ++ CRLF) (map header_text others))).
  { rewrite map_map. f_equal. apply map_ext. intros nv. unfold Response.header_line, header_text. by rewrite <- !app_assoc. }
  rewrite E. unfold status_line, length_field, has_body. rewrite <- !app_assoc. destruct (Status.is_bodyless (Response.status r)); cbn [negb map concat andb].
  - rewrite andb_false_r. cbn [app]. rewrite ?app_nil_r, <- ?app_assoc. done.
  - rewrite andb_true_r. unfold header_text at 2. cbn [fst snd]. rewrite ?app_nil_r, <- ?app_assoc. done.
Qed.

Lemma reason_printable s : Forall Headers.printable (Status.reason s).
Proof.
  assert (H : forallb (fun l => forallb (fun b => (32 <=? b) && (b <=? 126)) l) (map snd Status.reasons) = true) by reflexivity.
  unfold Status.reason. destruct (List.find _ _) as [[s' l]|] eqn:E.
  - apply find_some in E as [E _]. rewrite forallb_forall in H. specialize (H l (in_map snd _ _ E)). rewrite forallb_forall in H.
    apply List.Forall_forall. intros b Hb. specialize (H b Hb). unfold Headers.printable. cbn [snd] in *. lia.
  - by apply visible_printable, visible_check.
Qed.

Lemma others_ok : Forall (fun nv => name_token nv.1 /\ lowercase nv.1 = nv.1 /\ nv.1 <> lit "content-length" /\ no_cr nv.2) others.
Proof.
  apply List.Forall_forall. intros [n v] Hin. unfold others in Hin. apply filter_In in Hin as [Hin Hne].
  apply negb_true_iff, bool_decide_eq_false in Hne. pose proof (Headers.iter_clean _ (Headers.built_clean _ (response_built Hr))) as Hc.
  rewrite List.Forall_forall in Hc. destruct (Hc _ Hin) as (_ & Hl & Hv). unfold Headers.iter in Hin. apply in_concat in Hin as (l & Hl' & Hin).
  apply in_map_iff in Hl' as ([k vs] & <- & Hk). apply in_map_iff in Hin as (v' & [= -> ->] & _).
  pose proof (response_names Hr) as Hn. rewrite List.Forall_forall in Hn. split; [exact (Hn _ Hk)|]. split; [done|]. split; [done|].
  cbn [snd] in *. revert Hv. apply Forall_impl. tauto.
Qed.

Lemma fields_ok : Forall (fun nv => name_token nv.1 /\ lowercase nv.1 = nv.1 /\ no_cr nv.2) (others ++ length_field).
Proof.
  apply Forall_app. split.
  - eapply Forall_impl; [|exact others_ok]. intros nv (H1 & H2 & _ & H3). by split_and!.
  - unfold length_field. destruct has_body; [|constructor]. constructor; [|constructor]. cbn [fst snd].
    split; [split; [done|split; [by apply visible_check|by apply (bool_decide_unpack _)]]|]. split; [done|]. apply visible_no_cr, dec_visible.
Qed.

Lemma split_header_text nv : name_token nv.1 -> lowercase nv.1 = nv.1 -> split_header (header_text nv) = (nv.1, trim nv.2).
Proof.
  destruct nv as [n v]. cbn [fst snd]. intros (_ & _ & Hc) Hl. unfold split_header, header_text. cbn [fst snd app].
  rewrite split_once_app; [by rewrite Hl, trim_space|]. apply List.Forall_forall. intros x Hx ->. apply Hc. by apply list_elem_of_In.
Qed.

Lemma header_text_ok nv : name_token nv.1 -> no_cr nv.2 -> no_cr (header_text nv) /\ header_text nv <> [].
Proof.
  destruct nv as [n v]. cbn [fst snd]. intros (Hn & Hv & _) Hc. unfold header_text. cbn [fst snd]. split; [|by destruct n].
  unfold no_cr. rewrite !Forall_app. split; [by apply visible_no_cr|]. split; [by repeat constructor|]. by split; [repeat constructor|].
Qed.

Lemma response_lines_ok : Forall (fun l => no_cr l /\ l <> []) response_lines.
Proof.
  constructor.
  - split; [|done]. apply printable_no_cr. unfold status_line. rewrite !Forall_app. split; [apply (bool_decide_unpack _); by vm_compute|].
    split; [apply visible_printable, dec_visible|]. split; [by repeat constructor|apply reason_printable].
  - apply List.Forall_map. eapply Forall_impl; [|exact fields_ok]. intros nv (H1 & _ & H2). by apply header_text_ok.
Qed.

Lemma fields_back : map split_header (List.filter (fun l => negb (bool_decide (l = []))) (map header_text (others ++ length_field) ++ [[]; []])) =
  map (fun nv => (nv.1, trim nv.2)) (others ++ length_field).
Proof.
  rewrite List.filter_app. cbn [List.filter]. rewrite !bool_decide_eq_true_2 by done. cbn [negb]. rewrite app_nil_r.
  pose proof fields_ok as H. induction H as [|nv l (H1 & H2 & H3) _ IH]; [done|]. cbn [map List.filter].
  rewrite bool_decide_eq_false_2 by (by apply header_text_ok). cbn [negb map]. by rewrite split_header_text, IH.
Qed.

Lemma status_back : parse_int false 0 65535 (default [] (split_on 32 status_line !! 1%nat)) = Some (Response.status r).
Proof.
  unfold status_line. change (lit "HTTP/1.1 ") with (lit "HTTP/1.1" ++ [32]). rewrite <- !app_assoc. cbn [app].
  change (lit " " ++ Status.reason (Response.status r)) with (32 :: Status.reason (Response.status r)).
  change (lit "HTTP/1.1" ++ 32 :: ?x) with (lit "HTTP/1.1" ++ 32 :: x).
  rewrite split_on_app by (by apply visible_no32, visible_check). rewrite split_on_app by (apply visible_no32, dec_visible).
  cbn [lookup list_lookup]. cbv [default from_option id]. apply parse_int_dec; [apply (response_status Hr)|]. intros _. apply (response_status Hr).
Qed.

Lemma field_others hs name : Forall (fun nv => nv.1 <> name) hs -> forall l, field name (hs ++ l) = field name l.
Proof. induction 1 as [|[n v] hs Hn _ IH]; intros l; [done|]. cbn [app field fst] in *. by rewrite bool_decide_eq_false_2, IH. Qed.

Lemma others_back l : Forall (fun nv => nv.1 <> lit "content-length") others ->
  List.filter (fun nv => negb (bool_decide (nv.1 = lit "content-length"))) (map (fun nv => (nv.1, trim nv.2)) (others ++ l)) =
  map (fun nv => (nv.1, trim nv.2)) others ++ List.filter (fun nv => negb (bool_decide (nv.1 = lit "content-length"))) (map (fun nv => (nv.1, trim nv.2)) l).
Proof.
  intros H. rewrite map_app, List.filter_app. f_equal. induction H as [|nv hs Hn _ IH]; [done|]. cbn [map List.filter fst].
  by rewrite bool_decide_eq_false_2, IH.
Qed.

Lemma read_response_spec to_head rest :
  read_response to_head (Response.to_bytes (negb to_head) r ++ rest) =
  Some (Response.status r, map (fun nv => (nv.1, trim nv.2)) others,
        if to_head || Status.is_bodyless (Response.status r) then [] else Response.body r, rest).
Proof.
  rewrite to_bytes_lines, <- !app_assoc. unfold read_response, find_head_end.
  rewrite (position_head response_lines _ ltac:(done) response_lines_ok). cbv iota beta.
  assert (Hlen : (length (spell_lines response_lines) - 2 + 4 = length (spell_lines response_lines ++ CRLF))%nat).
  { pose proof (spell_lines_length response_lines ltac:(done)). rewrite length_app. cbn [length CRLF]. lia. }
  rewrite Hlen, (app_assoc (spell_lines response_lines)), take_app_length, drop_app_length, split_crlf_lines.
  2:{ eapply Forall_impl; [|exact response_lines_ok]. by intros l [H _]. }
  unfold response_lines at 1. cbn [app]. rewrite status_back. cbv iota beta.
  change (split_crlf CRLF) with ([[]; []] : list (list Z)). rewrite fields_back.
  assert (Ho : Forall (fun nv => nv.1 <> lit "content-length") others).
  { eapply Forall_impl; [|exact others_ok]. by intros nv (_ & _ & H & _). }
  rewrite (others_back _ Ho). unfold length_field, has_body.
  destruct to_head; cbn [negb orb andb].
  - destruct (Status.is_bodyless _); cbn [negb map List.filter fst]; rewrite ?bool_decide_eq_true_2 by done; cbn [negb app]; by rewrite ?app_nil_r.
  - destruct (Status.is_bodyless _); cbn [negb map List.filter fst app]; rewrite ?app_nil_r; [done|].
    rewrite map_app, field_others.
    + cbn [map field fst snd]. rewrite bool_decide_eq_true_2 by done. rewrite trim_visible by apply dec_visible.
      rewrite parse_int_dec; [|pose proof (response_size Hr); lia|lia]. by rewrite Nat2Z.id, take_app_length, drop_app_length.
    + apply List.Forall_map. exact Ho.
Qed.

End Responses.

(** ** A request that is not the one that was sent *)

Section Misled.
Context (text : list Z) (Ht : text <> []) (Hv : Forall visible text) (Hp : Headers.parse_usize text = None) (Hn : (length text <= 64)%nat).

Definition misled_lines : list (list Z) :=
  [lit "POST /public?next=http://x/admin HTTP/1.1"; header_text (lit "Content-Length", text)].
Definition misled_head : list Z := spell_lines misled_lines ++ CRLF.
Definition misled_request : Request :=
  mkRequest Method.Post (lit "/admin") (lit "/admin") [] (headers_of [(lit "Content-Length", text)] []) [].

Lemma misled_header : Forall header_ok [(lit "Content-Length", text)].
Proof.
  constructor; [|constructor]. split; [done|]. split; [by apply visible_check|]. split; [by apply (bool_decide_unpack _)|].
  split; [by apply visible_printable|by apply trim_visible].
Qed.

Lemma misled_printable : Forall (fun l => Forall Headers.printable l /\ l <> []) misled_lines.
Proof.
  constructor; [split; [apply List.Forall_forall|done]|].
  - assert (H : forallb (fun b => (32 <=? b) && (b <=? 126)) (lit "POST /public?next=http://x/admin HTTP/1.1") = true) by reflexivity.
    rewrite forallb_forall in H. intros b Hb. specialize (H b Hb). unfold Headers.printable. lia.
  - constructor; [|constructor]. split; [|done]. unfold header_text. cbn [fst snd]. rewrite !Forall_app.
    split; [by apply visible_printable, visible_check|]. split; [by repeat constructor|]. split; [by repeat constructor|by apply visible_printable].
Qed.

Lemma misled_ok : Forall (fun l => no_cr l /\ l <> []) misled_lines.
Proof. eapply Forall_impl; [|exact misled_printable]. intros l [H1 H2]. split; [by apply printable_no_cr|done]. Qed.

Lemma misled_end rest : find_head_end (misled_head ++ rest) = Some (length misled_head).
Proof.
  unfold find_head_end, misled_head. rewrite <- app_assoc, position_head by (done || apply misled_ok). f_equal.
  pose proof (spell_lines_length misled_lines ltac:(done)). rewrite length_app. cbn [length CRLF]. lia.
Qed.

Lemma misled_length : (length misled_head <= 130)%nat.
Proof.
  unfold misled_head, spell_lines, misled_lines, header_text. cbn [map concat fst snd]. rewrite !length_app. cbn. lia.
Qed.

Lemma misled_utf8 : utf8_valid misled_head = true.
Proof.
  apply utf8_valid_ascii. unfold misled_head. apply Forall_app. split; [|repeat constructor; lia]. unfold spell_lines.
  pose proof misled_printable as H. induction H as [|l lines [Hlp _] _ IH]; [constructor|]. cbn [map concat]. rewrite !Forall_app.
  split; [|exact IH]. split; [|repeat constructor; lia]. revert Hlp. apply Forall_impl. unfold Headers.printable. lia.
Qed.

Lemma misled_all name : Headers.get_all name (headers_of [(lit "Content-Length", text)] []) =
  if bool_decide (lit "content-length" = lowercase name) then [text] else [].
Proof.
  rewrite get_all_headers; [|constructor|apply misled_header]. cbn [List.filter fst].
  change (lowercase (lit "Content-Length")) with (lit "content-length"). by case_bool_decide.
Qed.

Lemma misled_parse limits c : parse limits misled_head c = (Ok (misled_request, true), c).
Proof.
  unfold parse. rewrite misled_utf8. cbn [negb]. unfold misled_head. rewrite split_crlf_lines by (eapply Forall_impl; [|exact misled_ok]; by intros l [H _]).
  change (split_crlf CRLF) with ([[]; []] : list (list Z)). unfold misled_lines. cbn [app hd tl].
  change (split_on 32 (lit "POST /public?next=http://x/admin HTTP/1.1")) with [lit "POST"; lit "/public?next=http://x/admin"; lit "HTTP/1.1"].
  cbn [hd lookup list_lookup]. change (Method.parse (lit "POST")) with (Some Method.Post). cbv iota beta.
  change [header_text (lit "Content-Length", text); []; []] with (map header_text [(lit "Content-Length", text)] ++ [[]; []]).
  rewrite parse_headers_ok by apply misled_header. cbv zeta.
  assert (Hf : check_framing (headers_of [(lit "Content-Length", text)] []) = Ok tt).
  { unfold check_framing. rewrite ServerRequests.get_head, !misled_all. reflexivity. }
  rewrite Hf. change (origin_form (lit "/public?next=http://x/admin")) with (lit "/admin").
  assert (Hb : read_body limits (headers_of [(lit "Content-Length", text)] []) = ret []).
  { unfold read_body, Headers.content_length. rewrite !get_head, !misled_all.
    change (bool_decide (lit "content-length" = lowercase (lit "transfer-encoding"))) with false.
    change (bool_decide (lit "content-length" = lowercase (lit "content-length"))) with true. cbn [head].
    by rewrite trim_visible, Hp by done. }
  rewrite Hb. unfold bind, ret. rewrite ServerRequests.get_head, misled_all. reflexivity.
Qed.

End Misled.

(** ** Properties *)

(** C14. Requests written one after another, with bodies by length, in chunks or
    without, are read whole whatever pieces the network delivers, handed to the
    application in order with exactly their method, target, query, headers and
    body, and answered in that order; the connection ends after the last request,
    after one that asks for it, or when the socket is handed over, and then every
    byte the client sent past that request is there. *)
Theorem requests_answered_in_order {U D : Type} (dispatch : D -> Request -> Response.Response U * D) (limits : Limits)
    (d : D) (ws : list Wire) (chunks : list (list Z)) :
  limits_ok limits -> Forall (wire_ok limits) ws -> Forall (fun chunk => chunk <> []) chunks -> concat chunks = concat (map spell ws) ->
  exists e d' c' out handed,
    serve_connection dispatch limits d (mkConn (map Data chunks) [] [] []) = (Ok e, d', c') /\
    answers dispatch d ws = (out, d', handed) /\ sent c' = out /\
    match handed with
    | None => e = Closed
    | Some (u, rest) => exists b, e = Upgraded u b /\ b ++ incoming c' = concat (map spell rest)
    end.
Proof.
  intros Hl Hws Hch Hs. destruct (serve_loop_answers dispatch limits (work (mkConn (map Data chunks) [] [] [])) ws d (mkConn (map Data chunks) [] [] []))
    as (e & d' & c' & out & handed & H); [done|done| | |lia|].
  - split; [|done]. cbn [reads]. apply List.Forall_map. exact Hch.
  - unfold stream, incoming. cbn [buffer reads app]. by rewrite map_map, map_id.
  - exists e, d', c', out, handed. exact H.
Qed.

Lemma requests_answered_in_order_witness :
  let ws := [mkWire Method.Post (lit "/a?x=1") [(lit "Host", lit "h")] (Chunked [lit "ab"; lit "c"]);
             mkWire Method.Get (lit "/b") [(lit "Connection", lit "close")] NoBody] in
  let dispatch (d : list (list Z)) r := (Response.text (U := unit) (path r ++ request_body r), d ++ [path r]) in
  (1 < length ws)%nat /\
  exists e d' c', serve_connection dispatch Limits_default [] (mkConn (map Data [concat (map spell ws)]) [] [] []) = (Ok e, d', c') /\
    d' = [lit "/a"; lit "/b"].
Proof.
  intros ws dispatch. split; [cbn; lia|].
  destruct (requests_answered_in_order dispatch Limits_default [] ws [concat (map spell ws)]) as (e & d' & c' & out & handed & H1 & H2 & _).
  - by split.
  - repeat constructor; try (by apply visible_check); try done; try (by apply (bool_decide_unpack _)); try (by vm_compute); by apply visible_printable, visible_check.
  - by repeat constructor.
  - by vm_compute.
  - exists e, d', c'. split; [exact H1|]. assert (Hd : (answers dispatch [] ws).1.2 = [lit "/a"; lit "/b"]) by (by vm_compute).
    rewrite H2 in Hd. exact Hd.
Defined.

(** C16. A response is read back by a client of the standard exactly as it was
    given: its status, its header fields in order, and its body, with everything
    after it left for the next response. Header values are arbitrary: whatever
    they hold, they cannot end the header or start another response. *)
Theorem responses_read_back {U : Type} (r : Response.Response U) (to_head : bool) (rest : list Z) : response_ok r ->
  read_response to_head (Response.to_bytes (negb to_head) r ++ rest) =
  Some (Response.status r, map (fun nv => (nv.1, trim nv.2)) (others r),
        if to_head || Status.is_bodyless (Response.status r) then [] else Response.body r, rest).
Proof. intros Hr. by apply read_response_spec. Qed.

Lemma responses_read_back_witness :
  let r := Response.see_other (U := unit) (lit "/next" ++ [13; 10] ++ lit "Set-Cookie: a=b" ++ [13; 10; 13; 10] ++ lit "<html>") in
  response_ok r /\
  read_response false (Response.to_bytes true r) = Some (303, [(lit "location", lit "/nextSet-Cookie: a=b<html>")], [], []).
Proof.
  intros r. assert (Hr : response_ok r).
  { split; [apply Headers.built_set, Headers.built_new| |by vm_compute|done|by vm_compute].
    constructor; [|constructor]. split; [done|]. split; [by apply visible_check|by apply (bool_decide_unpack _)]. }
  split; [exact Hr|]. pose proof (responses_read_back r false [] Hr) as H. rewrite app_nil_r in H. cbn [negb] in H. rewrite H. by vm_compute.
Defined.

(** C15. Whatever a client sends, however it is cut, whatever fails and whenever the
    client falls silent, the server is done with the connection after no more
    steps than there are bytes (a drain past the end of the buffer counts as an
    end). Every request the application is handed has a body within the limit and
    says where it ends in one way: the values of Content-Length are all the same,
    there is not both a Content-Length and a Transfer-Encoding, a Transfer-Encoding
    lists [chunked] last and once, and without one the body has the length that can
    be read from Content-Length and is empty when there is none. A Content-Length
    that cannot be read is handed over too, with an empty body. *)
Theorem server_withstands_anything {U D : Type} (dispatch : D -> Request -> Response.Response U * D) (limits : Limits)
    (Inv : D -> Prop) (d : D) (c : Conn) :
  0 <= max_body_bytes limits -> Z.of_nat (work c) < 2 ^ 62 -> Inv d ->
  (forall d r, Inv d -> Z.of_nat (length (request_body r)) <= max_body_bytes limits -> stated_once (request_headers r) (request_body r) ->
    Inv (dispatch d r).2) ->
  let '(result, d', c') := serve_connection dispatch limits d c in result <> Err Exhausted /\ Inv d'.
Proof.
  intros Hm Hw Hd Hstep. apply (serve_loop_ends dispatch limits Inv); [|done|unfold work; lia|done|done].
  intros d0 r H0 [H1 H2]. by apply Hstep.
Qed.

Lemma server_withstands_anything_witness :
  let dispatch (d : list Request) r := (Response.text (U := unit) (path r), d ++ [r]) in
  let head := lit "POST / HTTP/1.1" ++ [13; 10] in
  let c := mkConn [Data (head ++ lit "Content-Length: 3" ++ [13; 10; 13; 10] ++ lit "abc");
    Data (head ++ lit "Transfer-Encoding: gzip, chunked" ++ [13; 10; 13; 10] ++ lit "2" ++ [13; 10] ++ lit "de" ++ [13; 10; 48; 13; 10; 13; 10]);
    Data (head ++ lit "Content-Length: 3" ++ [13; 10] ++ lit "Transfer-Encoding: chunked" ++ [13; 10; 13; 10])] [] [] [] in
  (0 <= max_body_bytes Limits_default) /\
  map request_body (serve_connection dispatch Limits_default [] c).1.2 = [lit "abc"; lit "de"] /\
  let '(result, d', c') := serve_connection dispatch Limits_default [] c in
  result <> Err Exhausted /\ Forall (fun r => Z.of_nat (length (request_body r)) <= 10485760 /\ stated_once (request_headers r) (request_body r)) d'.
Proof.
  intros dispatch head c. split; [by vm_compute|]. split; [by vm_compute|].
  apply (server_withstands_anything dispatch Limits_default
    (Forall (fun r => Z.of_nat (length (request_body r)) <= 10485760 /\ stated_once (request_headers r) (request_body r))) [] c);
    [by vm_compute|by vm_compute|constructor|].
  intros d r H0 H1 H2. cbn [dispatch snd]. apply Forall_app. split; [exact H0|]. constructor; [by split|constructor].
Defined.

(** C40. A length that cannot be read is taken for no body: the bytes of the body
    are then served as the next request. And a target that holds a URL in its
    query is taken for an absolute one: the request is served at the path of that
    URL. One request on the wire, [POST /public?next=http://x/admin] with such a
    length, becomes [POST /admin] followed by a request of the body's making. *)
Theorem unreadable_lengths_and_queries_mislead {U D : Type} (dispatch : D -> Request -> Response.Response U * D) (d : D)
    (smuggled : Wire) (text : list Z) :
  wire_ok Limits_default smuggled -> w_body smuggled = NoBody -> text <> [] -> Forall visible text -> Headers.parse_usize text = None ->
  (length text <= 64)%nat ->
  (forall d r, Response.upgrade (dispatch d r).1 = None) ->
  let message := lit "POST /public?next=http://x/admin HTTP/1.1" ++ CRLF ++ lit "Content-Length: " ++ text ++ CRLF ++ CRLF ++ spell smuggled in
  exists e c' first,
    method first = Method.Post /\ path first = lit "/admin" /\ request_body first = [] /\
    serve_connection dispatch Limits_default d (mkConn [Data message] [] [] []) =
      (Ok e, (dispatch (dispatch d first).2 (request_of smuggled)).2, c').
Proof.
  intros Hs Hb Ht Hv Hp Hn Hup message. set (first := misled_request text).
  assert (Em : message = misled_head text ++ spell smuggled).
  { unfold message, misled_head, spell_lines, misled_lines, header_text. cbn [map concat fst snd].
    change (lit "Content-Length: ") with (lit "Content-Length" ++ [58] ++ [32]). by rewrite <- !app_assoc, app_nil_l. }
  clearbody message. set (c := mkConn [Data message] [] [] []).
  assert (Hc : calm c). { split; [|done]. constructor; [|constructor]. cbn [calm_read]. by rewrite Em. }
  assert (Hst : stream c = misled_head text ++ spell smuggled) by (unfold stream, incoming; cbn [c buffer reads map concat read_bytes app]; by rewrite app_nil_r).
  assert (Hl : limits_ok Limits_default) by (by split).
  destruct (read_head_spec Limits_default (length (misled_head text)) c Hc) as (c1 & E1 & Htk);
    [rewrite Hst; by apply misled_end|pose proof (misled_length text Hn); unfold Limits_default; cbn [max_header_bytes]; lia|].
  rewrite Hst, take_app_length in E1. pose proof (taken_stream _ _ _ Htk) as Hs1. rewrite Hst, drop_app_length in Hs1.
  destruct (dispatch d first) as [r1 d1] eqn:Ed. pose proof (Hup d first) as Hu1. rewrite Ed in Hu1. cbn [fst] in Hu1.
  destruct (write_flush_calm (Response.to_bytes true r1) c1 (taken_calm _ _ _ Htk)) as (c2 & E2 & Hc2 & Hs2 & _ & _ & _ & Hw2).
  pose proof (taken_work _ _ _ Htk) as Hw1.
  assert (Hlen : (0 < length (misled_head text))%nat). { unfold misled_head. rewrite length_app. cbn [length CRLF]. lia. }
  unfold serve_connection. change (length (buffer c) + pending c)%nat with (work c). destruct (work c) as [|fuel] eqn:Ew; [lia|].
  destruct (serve_loop_answers dispatch Limits_default fuel [smuggled] d1 c2 Hl ltac:(constructor; [exact Hs|constructor]) Hc2) as (e & d' & c' & out & handed & H1 & H2 & _);
    [cbn [map concat]; by rewrite app_nil_r, Hs2|lia|].
  exists e, c', first. split; [done|]. split; [done|]. split; [done|]. cbn [serve_loop]. rewrite E1, misled_parse by done. fold first. rewrite Ed, Hu1.
  cbv zeta. change (negb (bool_decide (method first = Method.Head))) with true. rewrite E2, H1. f_equal. f_equal. cbn [answers snd] in H2 |- *.
  pose proof (Hup d1 (request_of smuggled)) as Hu2. destruct (dispatch d1 (request_of smuggled)) as [r2 d2]. cbn [fst] in Hu2. rewrite Hu2 in H2.
  destruct (keeps smuggled); injection H2 as _ <- _; done.
Qed.

Lemma unreadable_lengths_and_queries_mislead_witness :
  let smuggled := mkWire Method.Get (lit "/secret") [(lit "Host", lit "h")] NoBody in
  let dispatch (d : list (list Z)) r := (Response.text (U := unit) (path r), d ++ [path r]) in
  Headers.parse_usize (lit "64x") = None /\
  exists e c' first, path first = lit "/admin" /\
    serve_connection dispatch Limits_default []
      (mkConn [Data (lit "POST /public?next=http://x/admin HTTP/1.1" ++ CRLF ++ lit "Content-Length: " ++ lit "64x" ++ CRLF ++ CRLF ++ spell smuggled)] [] [] []) =
      (Ok e, [path first; lit "/secret"], c').
Proof.
  intros smuggled dispatch. split; [by vm_compute|].
  destruct (unreadable_lengths_and_queries_mislead dispatch [] smuggled (lit "64x")) as (e & c' & first & _ & H2 & _ & H4).
  - repeat constructor; try (by apply visible_check); try done; try (by apply (bool_decide_unpack _)); try (by vm_compute); by apply visible_printable, visible_check.
  - done.
  - done.
  - by apply visible_check.
  - by vm_compute.
  - by vm_compute; lia.
  - done.
  - exists e, c', first. by split.
Defined.

End ServerTheorems.
