(* ===== verification/OAuth.v ===== *)
(** * What OAuth passes around ([rustlavel-oauth/src/scope.rs], [url.rs],
    [error.rs], [token.rs], [pkce.rs])

    Scopes, URL encoding as OAuth uses it, errors and their answers, token
    responses, and the proof key of an authorization code. *)

From S2P Require Import Prelude Text F64 Json JsonText Base64 Headers Cookie Response Router.

(** A string in the order of its bytes, as [BTreeSet<String>] iterates. *)
Definition text_le (a b : list Z) : bool := negb (JsonText.key_lt b a).

(** ** Scopes *)

Module Scopes.

(** A [BTreeSet<String>], whose order shows in [iter] and in the text only. *)
Abbreviation Scopes := (gset (list Z)).

Definition new : Scopes := ∅.
Definition of_ (scopes : list (list Z)) : Scopes := list_to_set scopes.
Definition parse (raw : list Z) : Scopes :=
  of_ (List.filter (fun scope => negb (bool_decide (scope = []))) (split_whitespace raw)).
Definition add (scope : list Z) (s : Scopes) : Scopes := {[ scope ]} ∪ s.
Definition with_ (scope : list Z) (s : Scopes) : Scopes := add scope s.
Definition contains (scope : list Z) (s : Scopes) : bool := bool_decide (scope ∈ s).
Definition covers (s required : Scopes) : bool := bool_decide (required ⊆ s).
Definition intersect (s allowed : Scopes) : Scopes := s ∩ allowed.
Definition beyond (s allowed : Scopes) : Scopes := s ∖ allowed.
Definition is_empty (s : Scopes) : bool := bool_decide (s = ∅).
Definition len (s : Scopes) : nat := size s.
Definition iter (s : Scopes) : list (list Z) := stable_sort text_le (elements s).
Definition to_string (s : Scopes) : list Z := join (lit " ") (iter s).

Lemma beyond_empty s allowed : is_empty (beyond s allowed) = true <-> s ⊆ allowed.
Proof. unfold is_empty, beyond. rewrite bool_decide_eq_true. split; [|apply subseteq_empty_difference_L].
  intros H x Hx. destruct (decide (x ∈ allowed)); [done|]. exfalso. apply (not_elem_of_empty (C:=Scopes) x). rewrite <- H. by apply elem_of_difference.
Qed.

Lemma intersect_within s allowed : s ⊆ allowed -> intersect s allowed = s.
Proof. unfold intersect. set_solver. Qed.

End Scopes.

(** ** URL encoding *)

Module OAuthUrl.

Definition unreserved (b : Z) : bool :=
  in_range 65 90 b || in_range 97 122 b || in_range 48 57 b ||
  (b =? 45) || (b =? 46) || (b =? 95) || (b =? 126).

(** One digit of [{:02X}]. *)
Definition hex_upper (d : Z) : Z := if d <? 10 then 48 + d else 55 + d.

Definition encode_byte (b : Z) : list Z :=
  if unreserved b then [b] else [37; hex_upper (b / 16); hex_upper (b mod 16)].
Definition encode (input : list Z) : list Z := concat (map encode_byte input).

(** [u8::from_str_radix(_, 16)] of two bytes: a leading plus sign is a sign. *)
Definition hex_digit (b : Z) : option Z :=
  if in_range 48 57 b then Some (b - 48)
  else if in_range 97 102 b then Some (b - 87)
  else if in_range 65 70 b then Some (b - 55)
  else None.
Definition from_hex (high low : Z) : option Z :=
  if high =? 43 then hex_digit low
  else
    let! h := hex_digit high in
    let! l := hex_digit low in
    Some (16 * h + l).

(** The loop of [decode]. [input[index + 1..index + 3]] panics, which is [None],
    unless both ends are at the boundary of a character: after a percent sign,
    which is one, unless the byte after the two continues a character. *)
Fixpoint decode_loop (bs : list Z) : option (list Z) :=
  match bs with
  | [] => Some []
  | b :: rest =>
      if b =? 43 then let! out := decode_loop rest in Some (32 :: out)
      else if b =? 37 then
        match rest with
        | high :: low :: rest' =>
            if is_char_boundary rest 2 then
              match from_hex high low with
              | Some byte => let! out := decode_loop rest' in Some (byte :: out)
              | None => let! out := decode_loop rest in Some (37 :: out)
              end
            else None
        | _ => let! out := decode_loop rest in Some (b :: out)
        end
      else let! out := decode_loop rest in Some (b :: out)
  end.

Definition decode (input : list Z) : option (list Z) :=
  let! out := decode_loop input in Some (utf8_lossy out).

Definition append_query (url query : list Z) : list Z :=
  if bool_decide (query = []) then url
  else url ++ (if bool_decide (63 ∈ url) then lit "&" else lit "?") ++ query.

Definition form_encode (pairs : list (list Z * list Z)) : list Z :=
  join (lit "&") (map (fun kv => encode kv.1 ++ lit "=" ++ encode kv.2) pairs).

(** One pair of a form; a key on its own has an empty value. *)
Definition decode_pair (pair : list Z) : option (list Z * list Z) :=
  match split_once 61 pair with
  | Some (key, value) => let! k := decode key in let! v := decode value in Some (k, v)
  | None => let! k := decode pair in Some (k, [])
  end.

Definition form_decode (input : list Z) : option (list (list Z * list Z)) :=
  mapM decode_pair (List.filter (fun pair => negb (bool_decide (pair = []))) (split_on 38 (Router.trim_start_matches 63 input))).

Definition encoded (b : Z) : Prop := unreserved b = true \/ b = 37.

Lemma from_hex_upper b : 0 <= b < 256 -> from_hex (hex_upper (b / 16)) (hex_upper (b mod 16)) = Some b.
Proof.
  intros Hb. revert b Hb.
  assert (H : forall z, 0 <= z < Z.of_nat 256 ->
    bool_decide (from_hex (hex_upper (z / 16)) (hex_upper (z mod 16)) = Some z) = true).
  { apply (forall_below 256). by vm_compute. }
  intros b Hb. eapply bool_decide_eq_true_1, H. lia.
Qed.

Lemma hex_upper_encoded d : 0 <= d < 16 -> encoded (hex_upper d) /\ is_cont (hex_upper d) = false.
Proof.
  intros Hd. unfold encoded, unreserved, hex_upper, is_cont, in_range. destruct (Z.ltb_spec d 10); lia.
Qed.

Lemma encode_byte_encoded b : 0 <= b < 256 -> Forall encoded (encode_byte b).
Proof.
  intros Hb. unfold encode_byte. destruct (unreserved b) eqn:E; [constructor; [by left|constructor]|].
  apply Forall_cons_2; [by right|]. apply Forall_cons_2; [apply hex_upper_encoded; Z.div_mod_to_equations; lia|].
  apply Forall_cons_2; [apply hex_upper_encoded; Z.div_mod_to_equations; lia|constructor].
Qed.

Lemma encode_encoded l : bytes l -> Forall encoded (encode l).
Proof.
  induction 1 as [|b l Hb Hl IH]; [constructor|]. unfold encode. cbn [map concat].
  apply Forall_app. split; [by apply encode_byte_encoded|done].
Qed.

Lemma unreserved_is_plain b : unreserved b = true -> b <> 37 /\ b <> 43 /\ is_cont b = false.
Proof. unfold unreserved, is_cont, in_range. lia. Qed.

(** What was encoded is decoded, whatever valid text follows. *)
Lemma url_decode_loop_encode l rest :
  bytes l -> (forall b, head rest = Some b -> is_cont b = false) ->
  decode_loop (encode l ++ rest) = let! out := decode_loop rest in Some (l ++ out).
Proof.
  intros Hl Hr. induction Hl as [|b l Hb Hl IH]; [change (encode [] ++ rest) with rest; by destruct (decode_loop rest)|].
  unfold encode. cbn [map concat]. fold (encode l). rewrite <- app_assoc.
  assert (Hhead : forall x, head (encode l ++ rest) = Some x -> is_cont x = false).
  { intros x Hx. destruct (encode l) as [|y ys] eqn:E; [by apply Hr|]. injection Hx as ->.
    pose proof (encode_encoded l Hl) as He. rewrite E in He. apply Forall_cons_iff in He as [[H| ->] _];
      [by apply unreserved_is_plain|done]. }
  unfold encode_byte. destruct (unreserved b) eqn:E.
  - apply unreserved_is_plain in E as (H1 & H2 & _). cbn [app decode_loop].
    rewrite (proj2 (Z.eqb_neq b 43)), (proj2 (Z.eqb_neq b 37)), IH by done. by destruct (decode_loop rest).
  - assert (Hbound : is_char_boundary (hex_upper (b / 16) :: hex_upper (b mod 16) :: encode l ++ rest) 2 = true).
    { unfold is_char_boundary. cbn. destruct (encode l ++ rest) as [|x xs]; [done|]. cbn. by rewrite (Hhead x). }
    cbn [app decode_loop Z.eqb Pos.eqb]. rewrite Hbound, from_hex_upper, IH by done. by destruct (decode_loop rest).
Qed.

Lemma url_decode_encode l : bytes l -> utf8_valid l = true -> decode (encode l) = Some l.
Proof.
  intros Hb Hv. unfold decode. rewrite <- (app_nil_r (encode l)), url_decode_loop_encode by done.
  cbn [decode_loop]. rewrite app_nil_r. by rewrite utf8_lossy_valid.
Qed.

End OAuthUrl.

(** ** Errors *)

Module OAuthError.

Inductive OAuthErrorCode :=
  | InvalidRequest | InvalidClient | InvalidGrant | UnauthorizedClient | UnsupportedGrantType | InvalidScope
  | AccessDenied | UnsupportedResponseType | ServerError | TemporarilyUnavailable
  | InvalidToken | InsufficientScope.

#[export] Instance OAuthErrorCode_eq_dec : EqDecision OAuthErrorCode.
Proof. solve_decision. Defined.

Definition as_str (c : OAuthErrorCode) : list Z :=
  match c with
  | InvalidRequest => lit "invalid_request"
  | InvalidClient => lit "invalid_client"
  | InvalidGrant => lit "invalid_grant"
  | UnauthorizedClient => lit "unauthorized_client"
  | UnsupportedGrantType => lit "unsupported_grant_type"
  | InvalidScope => lit "invalid_scope"
  | AccessDenied => lit "access_denied"
  | UnsupportedResponseType => lit "unsupported_response_type"
  | ServerError => lit "server_error"
  | TemporarilyUnavailable => lit "temporarily_unavailable"
  | InvalidToken => lit "invalid_token"
  | InsufficientScope => lit "insufficient_scope"
  end.

Definition codes : list OAuthErrorCode :=
  [InvalidRequest; InvalidClient; InvalidGrant; UnauthorizedClient; UnsupportedGrantType; InvalidScope;
   AccessDenied; UnsupportedResponseType; ServerError; TemporarilyUnavailable; InvalidToken; InsufficientScope].
Definition parse (raw : list Z) : option OAuthErrorCode :=
  List.find (fun c => bool_decide (raw = as_str c)) codes.

Definition status (c : OAuthErrorCode) : Z :=
  match c with
  | InvalidClient | InvalidToken => 401
  | InsufficientScope | AccessDenied => 403
  | ServerError => 500
  | TemporarilyUnavailable => 503
  | _ => 400
  end.

Record OAuthError := mkError {
  code : OAuthErrorCode;
  description : option (list Z);
  uri : option (list Z);
  state : option (list Z) }.

Definition new (c : OAuthErrorCode) : OAuthError := mkError c None None None.
Definition because (c : OAuthErrorCode) (text : list Z) : OAuthError := mkError c (Some text) None None.
Definition invalid_request (text : list Z) : OAuthError := because InvalidRequest text.
Definition invalid_client (text : list Z) : OAuthError := because InvalidClient text.
Definition invalid_grant (text : list Z) : OAuthError := because InvalidGrant text.
Definition invalid_scope (text : list Z) : OAuthError := because InvalidScope text.
Definition server_error (text : list Z) : OAuthError := because ServerError text.
Definition with_state (s : option (list Z)) (e : OAuthError) : OAuthError :=
  mkError (code e) (description e) (uri e) s.

Definition with_uri (u : list Z) (e : OAuthError) : OAuthError :=
  mkError (code e) (description e) (Some u) (state e).

(** [Display]. *)
Definition to_string (e : OAuthError) : list Z :=
  match description e with Some text => as_str (code e) ++ lit ": " ++ text | None => as_str (code e) end.

Definition text_at (path : list Z) (body : Json.Json) : option (list Z) := let! v := Json.get body path in Json.as_str v.

Definition from_json (body : Json.Json) : option OAuthError :=
  let! found := Json.get body (lit "error") in
  let! raw := match found with
    | Json.String text => Some text
    | Json.Object _ => Some (default (lit "server_error") (text_at (lit "status") found))
    | _ => None
    end in
  let description :=
    match text_at (lit "error_description") body with
    | Some text => Some text
    | None =>
        match text_at (lit "error.message") body with
        | Some text => Some text
        | None => match parse raw with None => Some (lit "provider said: " ++ raw) | Some _ => None end
        end
    end in
  Some (mkError (default ServerError (parse raw)) description (text_at (lit "error_uri") body) (text_at (lit "state") body)).

(** An optional member of an object. *)
Definition optional (key : list Z) (o : option (list Z)) : list (list Z * Json.Json) :=
  match o with Some text => [(key, Json.String text)] | None => [] end.

Definition to_json (e : OAuthError) : Json.Json :=
  Json.Object (JsonText.object_of (
    [(lit "error", Json.String (as_str (code e)))] ++ optional (lit "error_description") (description e) ++
    optional (lit "error_uri") (uri e) ++ optional (lit "state") (state e))).

(** One more parameter of a query. *)
Definition and_query (key : list Z) (o : option (list Z)) : list Z :=
  match o with Some text => lit "&" ++ key ++ lit "=" ++ OAuthUrl.encode text | None => [] end.

Definition to_query (e : OAuthError) : list Z :=
  lit "error=" ++ OAuthUrl.encode (as_str (code e)) ++ and_query (lit "error_description") (description e) ++
  and_query (lit "error_uri") (uri e) ++ and_query (lit "state") (state e).

(** [replace('\\', r"\\")] and then the same for quotes. *)
Definition quoted (text : list Z) : list Z :=
  concat (map (fun b => if (b =? 92) || (b =? 34) then [92; b] else [b]) text).

Definition into_response {U} (e : OAuthError) : Response.Response U :=
  let response := Response.with_status (status (code e)) (Response.json (to_json e)) in
  match code e with
  | InvalidToken | InsufficientScope =>
      let challenge := lit "Bearer error=" ++ [34] ++ as_str (code e) ++ [34] in
      let challenge := match description e with
        | Some text => challenge ++ lit ", error_description=" ++ [34] ++ quoted text ++ [34]
        | None => challenge
        end in
      Response.with_header (lit "WWW-Authenticate") challenge response
  | InvalidClient => Response.with_header (lit "WWW-Authenticate") (lit "Basic realm=" ++ [34] ++ lit "oauth" ++ [34]) response
  | _ => response
  end.

Lemma status_not_ok c : status c <> 200.
Proof. by destruct c. Qed.

Lemma into_response_status {U} e : Response.status (@into_response U e) = status (code e).
Proof. unfold into_response. by destruct (code e). Qed.

Lemma into_response_refused {U} e : Response.status (@into_response U e) <> 200.
Proof. rewrite into_response_status. apply status_not_ok. Qed.

End OAuthError.

(** ** Token responses *)

Module TokenResponse.

Record TokenResponse := mkTokenResponse {
  access_token : list Z;
  token_type : list Z;
  expires_in : option Z;
  refresh_token : option (list Z);
  scope : option Scopes.Scopes;
  id_token : option (list Z);
  extra : Json.Json }.

Definition bearer (token : list Z) : TokenResponse := mkTokenResponse token (lit "Bearer") None None None None Json.Null.
Definition expiring_in (seconds : Z) (t : TokenResponse) : TokenResponse :=
  mkTokenResponse (access_token t) (token_type t) (Some seconds) (refresh_token t) (scope t) (id_token t) (extra t).
Definition with_refresh_token (token : list Z) (t : TokenResponse) : TokenResponse :=
  mkTokenResponse (access_token t) (token_type t) (expires_in t) (Some token) (scope t) (id_token t) (extra t).
Definition with_scopes (s : Scopes.Scopes) (t : TokenResponse) : TokenResponse :=
  mkTokenResponse (access_token t) (token_type t) (expires_in t) (refresh_token t) (Some s) (id_token t) (extra t).

(** [expires_in] as a number, or as a number in a string; [as u64] truncates and saturates. *)
Definition seconds_of (v : Json.Json) : option Z :=
  match v with
  | Json.Number n => if f64_ge n (f64_of_Z 0) then Some (f64_to_int 0 usize_max n) else None
  | Json.String text => parse_int false 0 usize_max text
  | _ => None
  end.

Definition from_json (body : Json.Json) : result OAuthError.OAuthError TokenResponse :=
  match OAuthError.from_json body with
  | Some e => Err e
  | None =>
      match OAuthError.text_at (lit "access_token") body with
      | None => Err (OAuthError.server_error (lit "the token response had neither an `access_token` nor an `error` field"))
      | Some token =>
          Ok (mkTokenResponse token (default (lit "Bearer") (OAuthError.text_at (lit "token_type") body))
                (let! v := Json.get body (lit "expires_in") in seconds_of v)
                (OAuthError.text_at (lit "refresh_token") body)
                (Scopes.parse <$> OAuthError.text_at (lit "scope") body)
                (OAuthError.text_at (lit "id_token") body) body)
      end
  end.

Definition to_json (t : TokenResponse) : Json.Json :=
  Json.Object (JsonText.object_of (
    [(lit "access_token", Json.String (access_token t)); (lit "token_type", Json.String (token_type t))] ++
    match expires_in t with Some n => [(lit "expires_in", Json.from_int n)] | None => [] end ++
    OAuthError.optional (lit "refresh_token") (refresh_token t) ++
    match scope t with Some s => [(lit "scope", Json.String (Scopes.to_string s))] | None => [] end ++
    OAuthError.optional (lit "id_token") (id_token t))).

Definition authorization_header (t : TokenResponse) : list Z := token_type t ++ lit " " ++ access_token t.

(** The sum of two [u64] wraps. *)
Definition expires_within (t : TokenResponse) (elapsed_seconds slack : Z) : bool :=
  match expires_in t with Some n => n <=? wrap 64 (elapsed_seconds + slack) | None => false end.

End TokenResponse.

(** ** The proof key of a code *)

Module Pkce.

Inductive ChallengeMethod := S256 | Plain.

#[export] Instance ChallengeMethod_eq_dec : EqDecision ChallengeMethod.
Proof. solve_decision. Defined.

Definition as_str (m : ChallengeMethod) : list Z := match m with S256 => lit "S256" | Plain => lit "plain" end.
Definition parse (raw : list Z) : option ChallengeMethod :=
  if bool_decide (raw = lit "S256") then Some S256
  else if bool_decide (raw = lit "plain") then Some Plain
  else None.

(** The bytes RFC 7636 lets a verifier have. *)
Definition allowed (b : Z) : bool :=
  in_range 65 90 b || in_range 97 122 b || in_range 48 57 b || (b =? 45) || (b =? 46) || (b =? 95) || (b =? 126).
Definition validate_verifier (verifier : list Z) : bool :=
  (43 <=? length verifier)%nat && (length verifier <=? 128)%nat && forallb allowed verifier.

(** [rustlavel_auth::constant_time_eq]: the same length and the same bytes. *)
Definition constant_time_eq (a b : list Z) : bool :=
  (length a =? length b)%nat && bool_decide (a = b).

Section Sha256.
Context (sha256 : list Z -> list Z).

Definition s256 (verifier : list Z) : list Z := Base64.encode_url (sha256 verifier).

Definition verify (verifier challenge : list Z) (method : ChallengeMethod) : bool :=
  if negb (validate_verifier verifier) then false
  else
    let derived := match method with S256 => s256 verifier | Plain => verifier end in
    constant_time_eq derived challenge.

Record Pkce := mkPkce { verifier : list Z; method : ChallengeMethod }.

(** From 32 random bytes. *)
Definition generate (random : list Z) : Pkce := mkPkce (Base64.encode_url random) S256.
Definition from_verifier (text : list Z) : option Pkce :=
  if validate_verifier text then Some (mkPkce text S256) else None.
Definition plain (p : Pkce) : Pkce := mkPkce (verifier p) Plain.
Definition challenge (p : Pkce) : list Z := match method p with S256 => s256 (verifier p) | Plain => verifier p end.
End Sha256.

Lemma constant_time_eq_spec a b : constant_time_eq a b = true <-> a = b.
Proof.
  unfold constant_time_eq. rewrite andb_true_iff, bool_decide_eq_true. split; [tauto|].
  intros ->. by rewrite Nat.eqb_refl.
Qed.

End Pkce.
