(* ===== verification/OAuthStores.v ===== *)
(** * What the authorization server keeps ([rustlavel-oauth-provider/src/store.rs],
    [redirect.rs], [client.rs], [code.rs], [token.rs], [consent.rs])

    Registered clients, authorization codes, tokens and consent, and the stores
    that hold them in memory: each locked section is a function on the map. The
    hash function and the text of Rust's [{:?}] are arguments. *)

From S2P Require Import Prelude Text OAuth.

(** ** Credentials at rest *)

Definition u64_max : Z := 2 ^ 64 - 1.
(** [u64::saturating_add]. *)
Definition saturating_add (a b : Z) : Z := Z.min (a + b) u64_max.

(** The two lowercase digits of each byte, as [digest] and [random::hex] write them. *)
Definition hex (l : list Z) : list Z :=
  concat (map (fun b => [hex_digit_lower (Z.shiftr b 4); hex_digit_lower (Z.land b 15)]) l).

Lemma hex_cons b l : hex (b :: l) = hex_digit_lower (Z.shiftr b 4) :: hex_digit_lower (Z.land b 15) :: hex l.
Proof. done. Qed.

Lemma hex_digit_lower_inj a b : 0 <= a < 16 -> 0 <= b < 16 -> hex_digit_lower a = hex_digit_lower b -> a = b.
Proof. unfold hex_digit_lower. destruct (Z.ltb_spec a 10), (Z.ltb_spec b 10); lia. Qed.

Lemma nibbles_inj a b : 0 <= a < 256 -> 0 <= b < 256 ->
  hex_digit_lower (Z.shiftr a 4) = hex_digit_lower (Z.shiftr b 4) ->
  hex_digit_lower (Z.land a 15) = hex_digit_lower (Z.land b 15) -> a = b.
Proof.
  intros Ha Hb. rewrite !Z.shiftr_div_pow2 by lia. change (2 ^ 4) with 16.
  change 15 with (2 ^ 4 - 1). rewrite !land_ones_mod by lia. change (2 ^ 4) with 16. intros H1 H2.
  apply hex_digit_lower_inj in H1; [|Z.div_mod_to_equations; lia..].
  apply hex_digit_lower_inj in H2; [|Z.div_mod_to_equations; lia..].
  rewrite (Z.div_mod a 16), (Z.div_mod b 16) by lia. congruence.
Qed.

Lemma hex_inj a b : bytes a -> bytes b -> hex a = hex b -> a = b.
Proof.
  intros Ha. revert b. induction Ha as [|x a Hx Ha IH]; intros [|y b] Hb E; [done|by rewrite hex_cons in E..|].
  rewrite !hex_cons in E. injection E as E1 E2 E. apply bytes_cons in Hb as [Hy Hb].
  rewrite (nibbles_inj x y) by done. by rewrite (IH b).
Qed.

(** ** Redirect URIs *)

Module Redirect.

Definition is_registered (registered : list (list Z)) (presented : list Z) : bool :=
  existsb (fun uri => bool_decide (uri = presented)) registered.

Definition host_of (rest : list Z) : list Z :=
  match strip_prefix rest (lit "//") with
  | None => []
  | Some authority =>
      let authority := hd [] (split_on 63 (hd [] (split_on 47 authority))) in
      let authority := List.last (split_on 64 authority) [] in
      match strip_prefix authority (lit "[") with
      | Some inner => hd [] (split_on 93 inner)
      | None => hd [] (split_on 58 authority)
      end
  end.

(** The text of an [Ipv4Addr]: four numbers below 256 without leading zeros. *)
Definition octet (part : list Z) : option Z :=
  if (3 <? length part)%nat then None
  else match part with
       | 48 :: _ :: _ => None
       | _ => let! n := (match part with [] => None | _ => digits part 0 end) in
              if n <? 256 then Some n else None
       end.
Definition parse_ipv4 (text : list Z) : option (Z * Z * Z * Z) :=
  match map octet (split_on 46 text) with
  | [Some a; Some b; Some c; Some d] => Some (a, b, c, d)
  | _ => None
  end.

Definition is_loopback (rest : list Z) : bool :=
  let host := host_of rest in
  bool_decide (lowercase host = lit "localhost") || bool_decide (host = lit "::1") ||
  match parse_ipv4 host with Some (a, _, _, _) => a =? 127 | None => false end.

Definition is_ascii_alphabetic (b : Z) : bool := in_range 65 90 b || in_range 97 122 b.

Section Debug.
Context (debug : list Z -> list Z).

Definition validate_registration (uri : list Z) : result (list Z) unit :=
  match split_once 58 uri with
  | None => Err (lit "a redirect URI must be absolute, with a scheme: " ++ debug uri ++ lit " has none (RFC 6749 §3.1.2)")
  | Some (scheme, rest) =>
      if negb (match scheme with b :: _ => is_ascii_alphabetic b | [] => false end) then
        Err (debug uri ++ lit " does not start with a URI scheme (RFC 6749 §3.1.2)")
      else if bool_decide (35 ∈ uri) then
        Err (lit "a redirect URI may not carry a fragment: " ++ debug uri ++
             lit ". The browser never sends the fragment to the server, so a registered one could never be matched (RFC 6749 §3.1.2)")
      else if bool_decide (lowercase scheme = lit "http") && negb (is_loopback rest) then
        Err (debug uri ++ lit " is plain http, which puts the authorization code on the wire in clear text. OAuth 2.1 §4.1.1 allows http only for loopback — http://127.0.0.1, http://[::1] or http://localhost — which is how a native client receives a redirect. Register the https URL instead.")
      else if (bool_decide (lowercase scheme = lit "http") || bool_decide (lowercase scheme = lit "https")) &&
              bool_decide (host_of rest = []) then
        Err (debug uri ++ lit " has no host (RFC 6749 §3.1.2)")
      else Ok tt
  end.
End Debug.

End Redirect.

(** ** Clients *)

Module Clients.

Record Client := mkClient {
  id : list Z;
  name : list Z;
  secret_hash : option (list Z);
  redirect_uris : list (list Z);
  scopes : Scopes.Scopes;
  first_party : bool }.

Definition public (id : list Z) : Client := mkClient id id None [] Scopes.new false.
Definition is_confidential (c : Client) : bool := match secret_hash c with Some _ => true | None => false end.
Definition allows_redirect (c : Client) (uri : list Z) : bool := Redirect.is_registered (redirect_uris c) uri.

Definition named (n : list Z) (c : Client) : Client :=
  mkClient (id c) n (secret_hash c) (redirect_uris c) (scopes c) (first_party c).
Definition redirect_uri (uri : list Z) (c : Client) : Client :=
  mkClient (id c) (name c) (secret_hash c) (redirect_uris c ++ [uri]) (scopes c) (first_party c).
Definition with_scopes (s : Scopes.Scopes) (c : Client) : Client :=
  mkClient (id c) (name c) (secret_hash c) (redirect_uris c) s (first_party c).
Definition as_first_party (c : Client) : Client :=
  mkClient (id c) (name c) (secret_hash c) (redirect_uris c) (scopes c) true.

Section Sha256.
Context (sha256 : list Z -> list Z) (debug : list Z -> list Z).

Definition digest (secret : list Z) : list Z := hex (sha256 secret).
Definition digest_matches (presented stored : list Z) : bool := Pkce.constant_time_eq (digest presented) stored.

Definition from_secret_hash (id hash : list Z) : Client := mkClient id id (Some hash) [] Scopes.new false.
Definition confidential (id secret : list Z) : Client := from_secret_hash id (digest secret).

Definition verify_secret (c : Client) (presented : list Z) : bool :=
  match secret_hash c with Some stored => digest_matches presented stored | None => false end.

Fixpoint validate_uris (cid : list Z) (uris : list (list Z)) : result (list Z) unit :=
  match uris with
  | [] => Ok tt
  | uri :: uris =>
      match Redirect.validate_registration debug uri with
      | Err why => Err (lit "client " ++ debug cid ++ lit ": " ++ why)
      | Ok _ => validate_uris cid uris
      end
  end.
Definition validate (c : Client) : result (list Z) unit :=
  if bool_decide (trim (id c) = []) then Err (lit "a client needs an id")
  else validate_uris (id c) (redirect_uris c).

(** [MemoryClientStore]. *)
Definition register (c : Client) (m : gmap (list Z) Client) : result (list Z) (gmap (list Z) Client) :=
  match validate c with Ok _ => Ok (<[id c := c]> m) | Err why => Err why end.
End Sha256.

Definition forget (cid : list Z) (m : gmap (list Z) Client) : gmap (list Z) Client := base.delete cid m.
Definition find (cid : list Z) (m : gmap (list Z) Client) : option Client := m !! cid.

End Clients.

(** ** Authorization codes *)

Module Codes.

Record AuthorizationCode := mkCode {
  hash : list Z;
  client_id : list Z;
  redirect_uri : list Z;
  user_id : list Z;
  scopes : Scopes.Scopes;
  challenge : list Z;
  challenge_method : Pkce.ChallengeMethod;
  issued_at : Z;
  expires_at : Z;
  family : option (list Z) }.

Definition issued (digest : list Z -> list Z) (code : list Z) (now ttl : Z) : AuthorizationCode :=
  mkCode (digest code) [] [] [] Scopes.new [] Pkce.S256 now (saturating_add now ttl) None.

Definition for_client (c : list Z) (a : AuthorizationCode) : AuthorizationCode :=
  mkCode (hash a) c (redirect_uri a) (user_id a) (scopes a) (challenge a) (challenge_method a) (issued_at a) (expires_at a) (family a).
Definition for_user (u : list Z) (a : AuthorizationCode) : AuthorizationCode :=
  mkCode (hash a) (client_id a) (redirect_uri a) u (scopes a) (challenge a) (challenge_method a) (issued_at a) (expires_at a) (family a).
Definition redirecting_to (uri : list Z) (a : AuthorizationCode) : AuthorizationCode :=
  mkCode (hash a) (client_id a) uri (user_id a) (scopes a) (challenge a) (challenge_method a) (issued_at a) (expires_at a) (family a).
Definition granting (s : Scopes.Scopes) (a : AuthorizationCode) : AuthorizationCode :=
  mkCode (hash a) (client_id a) (redirect_uri a) (user_id a) s (challenge a) (challenge_method a) (issued_at a) (expires_at a) (family a).
Definition challenged (c : list Z) (m : Pkce.ChallengeMethod) (a : AuthorizationCode) : AuthorizationCode :=
  mkCode (hash a) (client_id a) (redirect_uri a) (user_id a) (scopes a) c m (issued_at a) (expires_at a) (family a).
Definition spend (f : list Z) (a : AuthorizationCode) : AuthorizationCode :=
  mkCode (hash a) (client_id a) (redirect_uri a) (user_id a) (scopes a) (challenge a) (challenge_method a) (issued_at a) (expires_at a) (Some f).

Definition is_consumed (a : AuthorizationCode) : bool := match family a with Some _ => true | None => false end.
Definition is_expired (a : AuthorizationCode) (now : Z) : bool := expires_at a <=? now.

Inductive Consumption :=
  | Fresh (code : AuthorizationCode)
  | Replayed (family : option (list Z))
  | Expired
  | Unknown.

(** [MemoryCodeStore]; its retention is [DEFAULT_RETENTION] unless it is built with another. *)
Abbreviation MemoryCodeStore := (gmap (list Z) AuthorizationCode).
Definition DEFAULT_TTL : Z := 60.
Definition DEFAULT_RETENTION : Z := 600.

Definition store (a : AuthorizationCode) (m : MemoryCodeStore) : MemoryCodeStore := <[hash a := a]> m.

Definition consume (h f : list Z) (now : Z) (m : MemoryCodeStore) : Consumption * MemoryCodeStore :=
  match m !! h with
  | None => (Unknown, m)
  | Some code =>
      if is_consumed code then (Replayed (family code), m)
      else if is_expired code now then (Expired, m)
      else (Fresh (spend f code), <[h := spend f code]> m)
  end.

Definition purge (retention now : Z) (m : MemoryCodeStore) : nat * MemoryCodeStore :=
  let kept := base.filter (fun kv => now < saturating_add (expires_at kv.2) retention) m in
  ((size m - size kept)%nat, kept).

End Codes.

(** ** Tokens *)

Module Tokens.

Record AccessToken := mkAccess {
  id : list Z;
  hash : list Z;
  client_id : list Z;
  user_id : option (list Z);
  scopes : Scopes.Scopes;
  family : list Z;
  issued_at : Z;
  expires_at : Z;
  revoked : bool }.

Record RefreshToken := mkRefresh {
  r_id : list Z;
  r_hash : list Z;
  r_client_id : list Z;
  r_user_id : option (list Z);
  r_scopes : Scopes.Scopes;
  r_family : list Z;
  access_token_id : list Z;
  r_issued_at : Z;
  r_expires_at : Z;
  r_revoked : bool;
  rotated : bool }.

Definition DEFAULT_ACCESS_TTL : Z := 3600.
Definition DEFAULT_REFRESH_TTL : Z := 30 * 24 * 3600.

(** [AccessToken::issued] and the builders that follow it in [issue]; [id] is the
    identifier drawn for it. *)
Definition access_issued (digest : list Z -> list Z) (id token : list Z) (now ttl : Z)
    (client : list Z) (user : option (list Z)) (s : Scopes.Scopes) (f : list Z) : AccessToken :=
  mkAccess id (digest token) client user s f now (saturating_add now ttl) false.
Definition refresh_issued (digest : list Z -> list Z) (id token : list Z) (now ttl : Z)
    (client : list Z) (user : option (list Z)) (s : Scopes.Scopes) (f : list Z) (access_id : list Z) : RefreshToken :=
  mkRefresh id (digest token) client user s f access_id now (saturating_add now ttl) false false.

Definition is_live (t : AccessToken) (now : Z) : bool := negb (revoked t) && (now <? expires_at t).
Definition refresh_is_live (t : RefreshToken) (now : Z) : bool :=
  negb (r_revoked t) && negb (rotated t) && (now <? r_expires_at t).

Definition revoke (t : AccessToken) : AccessToken :=
  mkAccess (id t) (hash t) (client_id t) (user_id t) (scopes t) (family t) (issued_at t) (expires_at t) true.
Definition r_revoke (t : RefreshToken) : RefreshToken :=
  mkRefresh (r_id t) (r_hash t) (r_client_id t) (r_user_id t) (r_scopes t) (r_family t) (access_token_id t)
    (r_issued_at t) (r_expires_at t) true (rotated t).
Definition r_rotate (t : RefreshToken) : RefreshToken :=
  mkRefresh (r_id t) (r_hash t) (r_client_id t) (r_user_id t) (r_scopes t) (r_family t) (access_token_id t)
    (r_issued_at t) (r_expires_at t) (r_revoked t) true.

(** [MemoryTokenStore]. *)
Record MemoryTokenStore := mkTokens {
  access : gmap (list Z) AccessToken;
  refresh : gmap (list Z) RefreshToken }.

Definition empty : MemoryTokenStore := mkTokens ∅ ∅.

Definition store_access (t : AccessToken) (m : MemoryTokenStore) : MemoryTokenStore :=
  mkTokens (<[hash t := t]> (access m)) (refresh m).
Definition store_refresh (t : RefreshToken) (m : MemoryTokenStore) : MemoryTokenStore :=
  mkTokens (access m) (<[r_hash t := t]> (refresh m)).
Definition find_access (h : list Z) (m : MemoryTokenStore) : option AccessToken := access m !! h.
Definition find_refresh (h : list Z) (m : MemoryTokenStore) : option RefreshToken := refresh m !! h.

(** [values_mut().find(...)], with the key of what it finds. A [HashMap] is
    iterated in no particular order; identifiers are drawn once, so that at most
    one value has the one looked for. *)
Definition find_value {V} (p : V -> bool) (m : gmap (list Z) V) : option (list Z * V) :=
  List.find (fun kv => p kv.2) (map_to_list m).

Definition rotate (i : list Z) (m : MemoryTokenStore) : bool * MemoryTokenStore :=
  match find_value (fun t => bool_decide (r_id t = i)) (refresh m) with
  | None => (false, m)
  | Some (h, t) =>
      if rotated t then (false, m) else (true, mkTokens (access m) (<[h := r_rotate t]> (refresh m)))
  end.

Definition revoke_access (i : list Z) (m : MemoryTokenStore) : MemoryTokenStore :=
  match find_value (fun t => bool_decide (id t = i)) (access m) with
  | Some (h, t) => mkTokens (<[h := revoke t]> (access m)) (refresh m)
  | None => m
  end.
Definition revoke_refresh (i : list Z) (m : MemoryTokenStore) : MemoryTokenStore :=
  match find_value (fun t => bool_decide (r_id t = i)) (refresh m) with
  | Some (h, t) => mkTokens (access m) (<[h := r_revoke t]> (refresh m))
  | None => m
  end.

(** How many of the values a loop over a filter changes. *)
Definition count {V} (p : V -> bool) (m : gmap (list Z) V) : nat := length (List.filter (fun kv => p kv.2) (map_to_list m)).

(** [revoke_family] and [purge] lock the two maps one after the other. *)
Definition of_access (f : list Z) (t : AccessToken) : bool := bool_decide (family t = f) && negb (revoked t).
Definition of_refresh (f : list Z) (t : RefreshToken) : bool := bool_decide (r_family t = f) && negb (r_revoked t).

Definition revoke_family_access (f : list Z) (m : MemoryTokenStore) : nat * MemoryTokenStore :=
  (count (of_access f) (access m),
   mkTokens ((fun t => if of_access f t then revoke t else t) <$> access m) (refresh m)).
Definition revoke_family_refresh (f : list Z) (m : MemoryTokenStore) : nat * MemoryTokenStore :=
  (count (of_refresh f) (refresh m),
   mkTokens (access m) ((fun t => if of_refresh f t then r_revoke t else t) <$> refresh m)).

Definition purge_access (now : Z) (m : MemoryTokenStore) : nat * MemoryTokenStore :=
  let kept := base.filter (fun kv => now < expires_at kv.2) (access m) in
  ((size (access m) - size kept)%nat, mkTokens kept (refresh m)).
Definition purge_refresh (now : Z) (m : MemoryTokenStore) : nat * MemoryTokenStore :=
  let kept := base.filter (fun kv => now < r_expires_at kv.2) (refresh m) in
  ((size (refresh m) - size kept)%nat, mkTokens (access m) kept).

Definition live_access (m : MemoryTokenStore) (now : Z) : nat := count (fun t => is_live t now) (access m).
Definition live_refresh (m : MemoryTokenStore) (now : Z) : nat := count (fun t => refresh_is_live t now) (refresh m).

End Tokens.

(** ** Consent *)

Module Consent.

Record Grant := mkGrant {
  client_id : list Z;
  user_id : list Z;
  scopes : Scopes.Scopes;
  granted_at : Z }.

(** [MemoryConsentStore]. *)
Abbreviation MemoryConsentStore := (gmap (list Z * list Z) Grant).

Definition find (client user : list Z) (m : MemoryConsentStore) : option Grant := m !! (client, user).
Definition record (g : Grant) (m : MemoryConsentStore) : MemoryConsentStore := <[(client_id g, user_id g) := g]> m.
Definition forget (client user : list Z) (m : MemoryConsentStore) : MemoryConsentStore := base.delete (client, user) m.

End Consent.
