(* ===== verification/OAuthServer.v ===== *)
(** * The authorization server ([rustlavel-oauth-provider/src/server.rs],
    [page.rs], [resource.rs], [endpoints/])

    Every endpoint is a program over the operations of the stores, the clock and
    the random generator: a tree whose nodes ask for one operation and go on with
    its answer. The operations are the points where requests interleave, each
    being one locked section of a store (or one statement of a database). *)

From S2P Require Import Prelude Text F64 Json JsonText Base64 Url Router Headers Cookie Response Server OAuth OAuthStores.

Module OAuthServer.

(** ** Programs *)

Inductive op :=
  | ORandom (n : nat)
  | ONow
  | OFindClient (id : list Z)
  | OStoreCode (code : Codes.AuthorizationCode)
  | OConsume (hash family : list Z) (now : Z)
  | OPurgeCodes (now : Z)
  | OStoreAccess (token : Tokens.AccessToken)
  | OStoreRefresh (token : Tokens.RefreshToken)
  | OFindAccess (hash : list Z)
  | OFindRefresh (hash : list Z)
  | ORotate (id : list Z)
  | ORevokeAccess (id : list Z)
  | ORevokeFamilyAccess (family : list Z)
  | ORevokeFamilyRefresh (family : list Z)
  | OPurgeAccess (now : Z)
  | OPurgeRefresh (now : Z)
  | OFindGrant (client user : list Z)
  | ORecordGrant (grant : Consent.Grant).

(** What a store answers: its result, or an error that is only logged. *)
Abbreviation stored A := (result unit A).

Definition answer (o : op) : Type :=
  match o with
  | ORandom _ => list Z
  | ONow => Z
  | OFindClient _ => stored (option Clients.Client)
  | OStoreCode _ | OStoreAccess _ | OStoreRefresh _ | ORevokeAccess _ | ORecordGrant _ => stored unit
  | OConsume _ _ _ => stored Codes.Consumption
  | OPurgeCodes _ | OPurgeAccess _ | OPurgeRefresh _ | ORevokeFamilyAccess _ | ORevokeFamilyRefresh _ => stored nat
  | OFindAccess _ => stored (option Tokens.AccessToken)
  | OFindRefresh _ => stored (option Tokens.RefreshToken)
  | ORotate _ => stored bool
  | OFindGrant _ _ => stored (option Consent.Grant)
  end.

Inductive prog (A : Type) : Type :=
  | Ret (a : A)
  | Do (o : op) (k : answer o -> prog A).
Arguments Ret {A} a.
Arguments Do {A} o k.

Fixpoint bind {A B} (p : prog A) (f : A -> prog B) : prog B :=
  match p with
  | Ret a => f a
  | Do o k => Do o (fun x => bind (k x) f)
  end.

Definition ask (o : op) : prog (answer o) := Do o Ret.

Notation "'let*' x ':=' e 'in' k" := (bind e (fun x => k))
  (at level 10, x pattern, e at level 100, k at level 200, format "'let*'  x  ':='  e  'in' '//' k").
(** The [?] after an [await], and a [?] on a value. *)
Notation "'let*?' x ':=' e 'in' k" := (bind e (fun r => match r with Ok x => k | Err err => Ret (Err err) end))
  (at level 10, x pattern, e at level 100, k at level 200, format "'let*?'  x  ':='  e  'in' '//' k").
Notation "'let=?' x ':=' e 'in' k" := (match e with Ok x => k | Err err => Ret (Err err) end)
  (at level 10, x pattern, e at level 100, k at level 200, format "'let=?'  x  ':='  e  'in' '//' k").

(** One operation that was performed, with its answer. *)
Abbreviation entry := {o : op & answer o}.

Definition is_draw (e : entry) : bool := match projT1 e with ORandom _ => true | _ => false end.
Definition draws (did : list entry) : nat := length (List.filter is_draw did).

(** ** Settings *)

Record Settings := mkSettings {
  issuer : list Z;
  mount : list Z;
  login_path : list Z;
  code_ttl : Z;
  code_retention : Z;
  access_ttl : Z;
  refresh_ttl : Z }.

Definition DEFAULT_MOUNT : list Z := lit "/oauth".
Definition default_settings : Settings :=
  mkSettings (lit "http://localhost:8000") DEFAULT_MOUNT (lit "/login") Codes.DEFAULT_TTL Codes.DEFAULT_RETENTION
    Tokens.DEFAULT_ACCESS_TTL Tokens.DEFAULT_REFRESH_TTL.
Definition positive (configured fallback : Z) : Z := if 0 <? configured then configured else fallback.
Definition normalise_mount (m : list Z) : list Z :=
  let trimmed := Router.trim_matches 47 (trim m) in
  if bool_decide (trimmed = []) then DEFAULT_MOUNT else lit "/" ++ trimmed.
Definition endpoint (s : Settings) (name : list Z) : list Z := mount s ++ lit "/" ++ name.
Definition endpoint_url (s : Settings) (name : list Z) : list Z := Router.trim_end_matches 47 (issuer s) ++ endpoint s name.

(** ** Requests and parameters *)

(** A request as a handler sees it: what was parsed, and the identity the
    application's own middleware attached. *)
Record Request := mkRequest {
  wire : Server.Request;
  identity : option (list Z) }.

Definition header (name : list Z) (r : Request) : option (list Z) := Headers.get name (Server.request_headers (wire r)).

(** [Request::form]. *)
Definition form (r : Request) : list (list Z * list Z) :=
  if bool_decide (Server.request_body (wire r) = []) then []
  else match Headers.content_type (Server.request_headers (wire r)) with
       | Some ct =>
           if ends_with ct (lit "json") then []
           else if bool_decide (ct = lit "application/x-www-form-urlencoded") then
             Url.parse_query (utf8_lossy (Server.request_body (wire r)))
           else []
       | None => []
       end.

Abbreviation Params := (list (list Z * list Z)).
Definition from_query (r : Request) : Params := Server.query (wire r).
Definition from_body (r : Request) : Params := form r.

Definition get (name : list Z) (params : Params) : result OAuthError.OAuthError (option (list Z)) :=
  match map snd (List.filter (fun kv => bool_decide (kv.1 = name)) params) with
  | _ :: _ :: _ =>
      Err (OAuthError.invalid_request (lit "the `" ++ name ++ lit "` parameter was sent more than once. RFC 6749 §3.1 forbids that, because which copy each layer reads is exactly the ambiguity an attacker needs."))
  | [value] => Ok (if bool_decide (value = []) then None else Some value)
  | [] => Ok None
  end.

Definition required (name : list Z) (params : Params) : result OAuthError.OAuthError (list Z) :=
  let? found := get name params in
  match found with
  | Some value => Ok value
  | None => Err (OAuthError.invalid_request (lit "the `" ++ name ++ lit "` parameter is required"))
  end.

(** Why an endpoint has no result: an error for the client, or a panic. *)
Inductive failure :=
  | Refused (error : OAuthError.OAuthError)
  | Panicked.

(** What becomes of a request. *)
Inductive outcome (U : Type) :=
  | Answered (response : Response.Response U)
  | Crashed.
Arguments Answered {U} response.
Arguments Crashed {U}.

Definition refuse {A} (r : result OAuthError.OAuthError A) : result failure A :=
  match r with Ok a => Ok a | Err e => Err (Refused e) end.
Definition refuse_all {A} (p : prog (result OAuthError.OAuthError A)) : prog (result failure A) :=
  let* r := p in Ret (refuse r).

Section Provider.
Context (sha256 : list Z -> list Z) (debug : list Z -> list Z) (settings : Settings).
Context {U : Type}.

Abbreviation digest := (Clients.digest sha256).
Abbreviation Response := (Response.Response U).
Abbreviation OAuthError := OAuthError.OAuthError.

(** ** Operations more than one endpoint needs *)

(** [token::generate], [identifier] and [Clock::now]. *)
Definition generate : prog (list Z) := let* b := ask (ORandom 32) in Ret (Base64.encode_url b).
Definition identifier : prog (list Z) := let* b := ask (ORandom 16) in Ret (hex b).
Definition now : prog Z := ask ONow.

Definition client (id : list Z) : prog (option Clients.Client) :=
  let* found := ask (OFindClient id) in
  Ret (match found with Ok c => c | Err _ => None end).

(** [issue]; what it returns before a store fails is lost. *)
Definition issue (client_id : list Z) (user_id : option (list Z)) (scopes : Scopes.Scopes) (family : list Z)
    (with_refresh : bool) : prog (stored TokenResponse.TokenResponse) :=
  let* t := now in
  let* plaintext := generate in
  let* access_id := identifier in
  let access := Tokens.access_issued digest access_id plaintext t (access_ttl settings) client_id user_id scopes family in
  let*? _ := ask (OStoreAccess access) in
  let response := TokenResponse.with_scopes scopes (TokenResponse.expiring_in (access_ttl settings) (TokenResponse.bearer plaintext)) in
  if with_refresh then
    let* plaintext := generate in
    let* refresh_id := identifier in
    let refresh := Tokens.refresh_issued digest refresh_id plaintext t (refresh_ttl settings) client_id user_id scopes family access_id in
    let*? _ := ask (OStoreRefresh refresh) in
    Ret (Ok (TokenResponse.with_refresh_token plaintext response))
  else Ret (Ok response).

(** [TokenStore::revoke_family] and [TokenStore::purge]. *)
Definition revoke_tokens (family : list Z) : prog (stored nat) :=
  let*? access := ask (ORevokeFamilyAccess family) in
  let*? refresh := ask (ORevokeFamilyRefresh family) in
  Ret (Ok (access + refresh)%nat).
Definition purge_tokens (t : Z) : prog (stored nat) :=
  let*? access := ask (OPurgeAccess t) in
  let*? refresh := ask (OPurgeRefresh t) in
  Ret (Ok (access + refresh)%nat).

(** [revoke_family]: an error is logged. *)
Definition revoke_family (family : list Z) : prog unit :=
  let* _ := revoke_tokens family in Ret tt.

Definition unusable : OAuthError :=
  OAuthError.because OAuthError.InvalidToken (lit "the access token is invalid, expired, or has been revoked").

Definition validate_bearer (presented : list Z) : prog (result OAuthError Tokens.AccessToken) :=
  let* found := ask (OFindAccess (digest presented)) in
  match found with
  | Ok (Some token) =>
      let* t := now in
      Ret (if Tokens.is_live token t then Ok token else Err unusable)
  | _ => Ret (Err unusable)
  end.

Definition purge : prog (stored nat) :=
  let* t := now in
  let*? codes := ask (OPurgeCodes t) in
  let*? tokens := purge_tokens t in
  Ret (Ok (codes + tokens)%nat).

(** ** Who is asking ([endpoints/client_auth.rs]) *)

Record Credentials := mkCredentials {
  cred_id : list Z;
  secret : option (list Z) }.

Definition invalid_client (text : list Z) : OAuthError := OAuthError.because OAuthError.InvalidClient text.
Definition malformed : failure :=
  Refused (invalid_client (lit "the Authorization header is not a readable HTTP Basic credential")).

(** [str::from_utf8] and [url::decode], which may panic. *)
Definition decoded (text : list Z) : result failure (list Z) :=
  match OAuthUrl.decode text with Some t => Ok t | None => Err Panicked end.

Definition basic_auth (r : Request) : result failure (option Credentials) :=
  match header (lit "authorization") r with
  | None => Ok None
  | Some h =>
      match (match strip_prefix h (lit "Basic ") with Some e => Some e | None => strip_prefix h (lit "basic ") end) with
      | None => Ok None
      | Some encoded =>
          match Base64.decode (trim encoded) with
          | None => Err malformed
          | Some bs =>
              if negb (utf8_valid bs) then Err malformed
              else match split_once 58 bs with
                   | None => Err malformed
                   | Some (id, s) =>
                       let? id := decoded id in
                       let? s := decoded s in
                       Ok (Some (mkCredentials id (Some s)))
                   end
          end
      end
  end.

Definition presented (r : Request) (params : Params) : result failure Credentials :=
  let? basic := basic_auth r in
  let? body_id := refuse (get (lit "client_id") params) in
  let? body_secret := refuse (get (lit "client_secret") params) in
  match basic, body_id, body_secret with
  | Some _, _, Some _ =>
      Err (Refused (invalid_client (lit "credentials were sent both in the Authorization header and in the body. RFC 6749 §2.3 allows exactly one method per request; send only the header.")))
  | Some basic, Some id, None =>
      if bool_decide (cred_id basic = id) then Ok basic
      else Err (Refused (invalid_client (lit "the `client_id` in the body does not match the one in the Authorization header")))
  | Some basic, None, None => Ok basic
  | None, Some id, s => Ok (mkCredentials id s)
  | None, None, _ =>
      Err (Refused (invalid_client (lit "no client credentials were presented: send HTTP Basic, or `client_id` in the body")))
  end.

(** The secret of an unknown client is verified against a decoy, whose result is
    not used. *)
Definition authenticate (c : Credentials) : prog (result OAuthError Clients.Client) :=
  let refused := invalid_client (lit "client authentication failed: unknown client, or the wrong secret") in
  let* found := client (cred_id c) in
  Ret (match found with
       | None => Err refused
       | Some found =>
           match secret c, Clients.is_confidential found with
           | Some s, true => if Clients.verify_secret sha256 found s then Ok found else Err refused
           | None, true => Err refused
           | None, false => Ok found
           | Some _, false =>
               Err (invalid_client (lit "this client is registered as public and has no secret; do not send `client_secret`"))
           end
       end).

Definition authenticate_confidential (c : Credentials) : prog (result OAuthError Clients.Client) :=
  let*? found := authenticate c in
  Ret (if Clients.is_confidential found then Ok found
       else Err (invalid_client (lit "this endpoint requires a client that can authenticate. A public client's only credential is its id, which is public by construction."))).

(** ** The token endpoint ([endpoints/token.rs]) *)

Definition narrowed (params : Params) (granted : Scopes.Scopes) : result OAuthError Scopes.Scopes :=
  let? raw := get (lit "scope") params in
  match raw with
  | None => Ok granted
  | Some raw =>
      let requested := Scopes.parse raw in
      let beyond := Scopes.beyond requested granted in
      if Scopes.is_empty beyond then Ok requested
      else Err (OAuthError.invalid_scope (lit "this grant does not cover: " ++ Scopes.to_string beyond ++
        lit ". A `scope` at the token endpoint may only narrow what was already granted."))
  end.

Definition store_failed {A} (p : prog (stored A)) : prog (result OAuthError A) :=
  let* r := p in
  Ret (match r with Ok a => Ok a | Err _ => Err (OAuthError.server_error (lit "the token could not be issued")) end).

Definition read_failed {A} (text : list Z) (p : prog (stored A)) : prog (result OAuthError A) :=
  let* r := p in
  Ret (match r with Ok a => Ok a | Err _ => Err (OAuthError.server_error text) end).

Definition authorization_code (found : Clients.Client) (params : Params) : prog (result OAuthError TokenResponse.TokenResponse) :=
  let=? presented := required (lit "code") params in
  let=? redirect_uri := required (lit "redirect_uri") params in
  let=? verifier := get (lit "code_verifier") params in
  match verifier with
  | None =>
      Ret (Err (OAuthError.invalid_request (lit "a `code_verifier` is required: every code this server issues is bound to a PKCE challenge (OAuth 2.1 §4.1.1)")))
  | Some verifier =>
      let* family := generate in
      let* t := now in
      let*? consumption := read_failed (lit "the authorization code could not be read") (ask (OConsume (digest presented) family t)) in
      match consumption with
      | Codes.Replayed spent =>
          let* _ := match spent with Some f => revoke_family f | None => Ret tt end in
          Ret (Err (OAuthError.invalid_grant (lit "this authorization code has already been used. Every token issued from it has been revoked, because a code presented twice is a code that leaked.")))
      | Codes.Expired => Ret (Err (OAuthError.invalid_grant (lit "this authorization code has expired")))
      | Codes.Unknown => Ret (Err (OAuthError.invalid_grant (lit "no such authorization code")))
      | Codes.Fresh code =>
          if negb (bool_decide (Codes.client_id code = Clients.id found)) then
            Ret (Err (OAuthError.invalid_grant (lit "this authorization code was issued to a different client")))
          else if negb (bool_decide (Codes.redirect_uri code = redirect_uri)) then
            Ret (Err (OAuthError.invalid_grant (lit "the `redirect_uri` does not match the one this code was issued for")))
          else if negb (Pkce.verify sha256 verifier (Codes.challenge code) (Codes.challenge_method code)) then
            Ret (Err (OAuthError.invalid_grant (lit "the `code_verifier` does not match the `code_challenge` this code was issued with")))
          else
            let=? scopes := narrowed params (Codes.scopes code) in
            store_failed (issue (Clients.id found) (Some (Codes.user_id code)) scopes family true)
      end
  end.

Definition refresh_token (found : Clients.Client) (params : Params) : prog (result OAuthError TokenResponse.TokenResponse) :=
  let=? presented := required (lit "refresh_token") params in
  let*? record := read_failed (lit "the refresh token could not be read") (ask (OFindRefresh (digest presented))) in
  match record with
  | None => Ret (Err (OAuthError.invalid_grant (lit "no such refresh token")))
  | Some record =>
      if negb (bool_decide (Tokens.r_client_id record = Clients.id found)) then
        let* _ := revoke_family (Tokens.r_family record) in
        Ret (Err (OAuthError.invalid_grant (lit "this refresh token was issued to a different client")))
      else if Tokens.rotated record then
        let* _ := revoke_family (Tokens.r_family record) in
        Ret (Err (OAuthError.invalid_grant (lit "this refresh token has already been exchanged. Every token in its family has been revoked, because two parties holding one refresh token means it leaked.")))
      else if Tokens.r_revoked record then
        Ret (Err (OAuthError.invalid_grant (lit "this refresh token has been revoked")))
      else
        let* t := now in
        if Tokens.r_expires_at record <=? t then
          Ret (Err (OAuthError.invalid_grant (lit "this refresh token has expired")))
        else
          let*? rotated := store_failed (ask (ORotate (Tokens.r_id record))) in
          if negb rotated then
            let* _ := revoke_family (Tokens.r_family record) in
            Ret (Err (OAuthError.invalid_grant (lit "this refresh token has already been exchanged. Every token in its family has been revoked.")))
          else
            let*? _ := store_failed (ask (ORevokeAccess (Tokens.access_token_id record))) in
            let=? scopes := narrowed params (Tokens.r_scopes record) in
            store_failed (issue (Clients.id found) (Tokens.r_user_id record) scopes (Tokens.r_family record) true)
  end.

Definition client_credentials (found : Clients.Client) (params : Params) : prog (result OAuthError TokenResponse.TokenResponse) :=
  if negb (Clients.is_confidential found) then
    Ret (Err (OAuthError.because OAuthError.UnauthorizedClient (lit "`client_credentials` needs a client that can authenticate, and this one is public. Its id is printed in every redirect URL its users see.")))
  else
    let=? scopes := narrowed params (Clients.scopes found) in
    let* family := generate in
    store_failed (issue (Clients.id found) None scopes family false).

Definition unsupported (text : list Z) : OAuthError := OAuthError.because OAuthError.UnsupportedGrantType text.

Definition grant (found : Clients.Client) (params : Params) : prog (result OAuthError TokenResponse.TokenResponse) :=
  let=? grant_type := required (lit "grant_type") params in
  if bool_decide (grant_type = lit "authorization_code") then authorization_code found params
  else if bool_decide (grant_type = lit "refresh_token") then refresh_token found params
  else if bool_decide (grant_type = lit "client_credentials") then client_credentials found params
  else if bool_decide (grant_type = lit "password") then
    Ret (Err (unsupported (lit "the `password` grant was removed in OAuth 2.1. It requires the user to hand their password to the client, which cannot carry a second factor and gives the client a credential that works everywhere. Use `authorization_code` with PKCE.")))
  else if bool_decide (grant_type = lit "implicit") || bool_decide (grant_type = lit "token") then
    Ret (Err (unsupported (lit "the implicit flow was removed in OAuth 2.1: it delivers the access token in a URL fragment, where it reaches browser history and every script on the page. Use `authorization_code` with PKCE.")))
  else
    Ret (Err (unsupported (lit "unsupported grant_type " ++ debug grant_type ++ lit ". This server supports `authorization_code`, `refresh_token` and `client_credentials`."))).

Definition exchange (r : Request) (params : Params) : prog (result failure TokenResponse.TokenResponse) :=
  let=? credentials := presented r params in
  let*? found := refuse_all (authenticate credentials) in
  refuse_all (grant found params).

Definition no_store (r : Response) : Response := Response.with_header (lit "cache-control") (lit "no-store") r.
Definition success (t : TokenResponse.TokenResponse) : Response :=
  Response.with_header (lit "pragma") (lit "no-cache") (no_store (Response.json (TokenResponse.to_json t))).

(** How the machine endpoints answer. *)
Definition answering {A} (ok : A -> Response) (p : prog (result failure A)) : prog (outcome U) :=
  let* r := p in
  Ret (match r with
       | Ok a => Answered (ok a)
       | Err (Refused e) => Answered (no_store (OAuthError.into_response e))
       | Err Panicked => Crashed
       end).

Definition token (r : Request) : prog (outcome U) := answering success (exchange r (from_body r)).

(** ** Revocation ([endpoints/revoke.rs]) *)

Definition revoke_refresh (hash client_id : list Z) : prog bool :=
  let* found := ask (OFindRefresh hash) in
  match found with
  | Ok (Some record) =>
      if negb (bool_decide (Tokens.r_client_id record = client_id)) then Ret false
      else let* _ := revoke_family (Tokens.r_family record) in Ret true
  | _ => Ret false
  end.

Definition revoke_access (hash client_id : list Z) : prog bool :=
  let* found := ask (OFindAccess hash) in
  match found with
  | Ok (Some record) =>
      if negb (bool_decide (Tokens.client_id record = client_id)) then Ret false
      else let* _ := ask (ORevokeAccess (Tokens.id record)) in Ret true
  | _ => Ret false
  end.

Definition revoking (r : Request) (params : Params) : prog (result failure unit) :=
  let=? credentials := presented r params in
  let*? found := refuse_all (authenticate credentials) in
  let=? presented := refuse (required (lit "token") params) in
  let=? hint := refuse (get (lit "token_type_hint") params) in
  let hash := digest presented in
  let refresh_first := negb (bool_decide (hint = Some (lit "access_token"))) in
  let* done := if refresh_first then revoke_refresh hash (Clients.id found) else Ret false in
  if done then Ret (Ok tt)
  else
    let* done := revoke_access hash (Clients.id found) in
    if done then Ret (Ok tt)
    else
      let* _ := if negb refresh_first then revoke_refresh hash (Clients.id found) else Ret false in
      Ret (Ok tt).

Definition revoke (r : Request) : prog (outcome U) :=
  answering (fun _ => no_store (Response.new Status.OK)) (revoking r (from_body r)).

(** ** Introspection ([endpoints/introspect.rs]) *)

Definition inactive : Json.Json := Json.Object (JsonText.object_of [(lit "active", Json.Bool false)]).

Definition describe (kind : list Z) (scopes : Scopes.Scopes) (client_id : list Z) (exp iat : Z)
    (user : option (list Z)) : Json.Json :=
  Json.Object (JsonText.object_of (
    [(lit "active", Json.Bool true); (lit "token_type", Json.String kind);
     (lit "scope", Json.String (Scopes.to_string scopes)); (lit "client_id", Json.String client_id);
     (lit "exp", Json.from_int exp); (lit "iat", Json.from_int iat)] ++ OAuthError.optional (lit "sub") user)).
Definition describe_access (t : Tokens.AccessToken) : Json.Json :=
  describe (lit "Bearer") (Tokens.scopes t) (Tokens.client_id t) (Tokens.expires_at t) (Tokens.issued_at t) (Tokens.user_id t).
Definition describe_refresh (t : Tokens.RefreshToken) : Json.Json :=
  describe (lit "refresh_token") (Tokens.r_scopes t) (Tokens.r_client_id t) (Tokens.r_expires_at t) (Tokens.r_issued_at t)
    (Tokens.r_user_id t).

Definition introspecting (r : Request) (params : Params) : prog (result failure Json.Json) :=
  let=? credentials := presented r params in
  let*? _ := refuse_all (authenticate_confidential credentials) in
  let=? presented := refuse (required (lit "token") params) in
  let* t := now in
  let* found := ask (OFindAccess (digest presented)) in
  match found with
  | Ok (Some token) => Ret (Ok (if Tokens.is_live token t then describe_access token else inactive))
  | _ =>
      let* found := ask (OFindRefresh (digest presented)) in
      match found with
      | Ok (Some token) => Ret (Ok (if Tokens.refresh_is_live token t then describe_refresh token else inactive))
      | _ => Ret (Ok inactive)
      end
  end.

Definition introspect (r : Request) : prog (outcome U) :=
  answering (fun body => no_store (Response.json body)) (introspecting r (from_body r)).

(** ** Pages ([page.rs]) *)

Definition escape (text : list Z) : list Z :=
  concat (map (fun b =>
    if b =? 38 then lit "&amp;" else if b =? 60 then lit "&lt;" else if b =? 62 then lit "&gt;"
    else if b =? 34 then lit "&quot;" else if b =? 39 then lit "&#39;" else [b]) text).

(** A quoted attribute value. *)
Definition q (text : list Z) : list Z := [34] ++ text ++ [34].

Definition STYLE : list Z :=
  lit ":root{color-scheme:light dark}" ++
  lit "body{margin:0;min-height:100vh;display:grid;place-items:center;" ++
  lit "font:15px/1.6 ui-sans-serif,system-ui,-apple-system,Segoe UI,Roboto,sans-serif;" ++
  lit "background:#f6f6f7;color:#18181b}" ++
  lit "main{max-width:34rem;width:calc(100% - 3rem);background:#fff;border:1px solid #e4e4e7;" ++
  lit "border-radius:12px;padding:2rem;box-shadow:0 1px 3px rgba(0,0,0,.06)}" ++
  lit "h1{margin:0 0 .5rem;font-size:1.25rem;letter-spacing:-.01em}" ++
  lit "p{margin:0 0 1rem;color:#52525b}" ++
  lit "code{font:13px ui-monospace,SFMono-Regular,Menlo,monospace;background:#f4f4f5;" ++
  lit "padding:.1rem .35rem;border-radius:4px}" ++
  lit "ul{margin:0 0 1.5rem;padding-left:1.1rem;color:#3f3f46}" ++
  lit "li{margin:.25rem 0}" ++
  lit "form{display:flex;gap:.75rem}" ++
  lit "button{flex:1;font:inherit;font-weight:500;padding:.6rem 1rem;border-radius:8px;cursor:pointer}" ++
  lit ".approve{background:#18181b;color:#fff;border:1px solid #18181b}" ++
  lit ".deny{background:#fff;color:#3f3f46;border:1px solid #d4d4d8}" ++
  lit "@media(prefers-color-scheme:dark){" ++
  lit "body{background:#09090b;color:#fafafa}" ++
  lit "main{background:#18181b;border-color:#27272a;box-shadow:none}" ++
  lit "p{color:#a1a1aa}ul{color:#d4d4d8}code{background:#27272a}" ++
  lit ".approve{background:#fafafa;color:#09090b;border-color:#fafafa}" ++
  lit ".deny{background:#18181b;color:#d4d4d8;border-color:#3f3f46}}".

Definition document (title body : list Z) : list Z :=
  lit "<!doctype html><html lang=" ++ q (lit "en") ++ lit "><head><meta charset=" ++ q (lit "utf-8") ++
  lit "><meta name=" ++ q (lit "viewport") ++ lit " content=" ++ q (lit "width=device-width,initial-scale=1") ++
  lit "><title>" ++ escape title ++ lit "</title><style>" ++ STYLE ++ lit "</style></head><body><main>" ++ body ++
  lit "</main></body></html>".

Definition error_page (e : OAuthError) : Response :=
  let description := default (lit "the authorization request could not be processed") (OAuthError.description e) in
  let body :=
    lit "<h1>This authorization request was refused</h1><p>" ++ escape description ++
    lit "</p><p>Nothing was sent back to the application, because the request did not establish where it would be safe to send it. If you are the developer of that application, the error code is <code>" ++
    escape (OAuthError.as_str (OAuthError.code e)) ++ lit "</code>.</p>" in
  no_store (Response.with_html (document (lit "Authorization refused") body) (Response.new (OAuthError.status (OAuthError.code e)))).

Definition redirect_error (uri : list Z) (e : OAuthError) : Response :=
  no_store (Response.with_header (lit "location") (OAuthUrl.append_query uri (OAuthError.to_query e)) (Response.new Status.FOUND)).

Record ConsentPage := mkConsentPage {
  page_client : Clients.Client;
  page_scopes : Scopes.Scopes;
  action : list Z;
  page_redirect_uri : list Z;
  page_state : option (list Z);
  page_challenge : list Z;
  page_challenge_method : list Z;
  csrf_field : list Z }.

Definition hidden_field (nv : list Z * list Z) : list Z :=
  lit "<input type=" ++ q (lit "hidden") ++ lit " name=" ++ q (escape nv.1) ++ lit " value=" ++ q (escape nv.2) ++ lit ">".

Definition hidden_fields (c : ConsentPage) : list Z :=
  concat (map hidden_field (
    [(lit "response_type", lit "code"); (lit "client_id", Clients.id (page_client c));
     (lit "redirect_uri", page_redirect_uri c); (lit "code_challenge", page_challenge c);
     (lit "code_challenge_method", page_challenge_method c); (lit "scope", Scopes.to_string (page_scopes c))] ++
    match page_state c with Some s => [(lit "state", s)] | None => [] end)).

Definition button (class value text : list Z) : list Z :=
  lit "<button class=" ++ q class ++ lit " name=" ++ q (lit "approve") ++ lit " value=" ++ q value ++
  lit " type=" ++ q (lit "submit") ++ lit ">" ++ text ++ lit "</button>".

Definition render (c : ConsentPage) : Response :=
  let scopes :=
    if Scopes.is_empty (page_scopes c) then lit "<li>Nothing beyond confirming who you are</li>"
    else concat (map (fun scope => lit "<li><code>" ++ escape scope ++ lit "</code></li>") (Scopes.iter (page_scopes c))) in
  let name := escape (Clients.name (page_client c)) in
  let body :=
    lit "<h1>Authorize " ++ name ++ lit "?</h1><p><strong>" ++ name ++
    lit "</strong> is asking for access to your account. It will be able to:</p><ul>" ++ scopes ++
    lit "</ul><form method=" ++ q (lit "post") ++ lit " action=" ++ q (escape (action c)) ++ lit ">" ++
    csrf_field c ++ hidden_fields c ++ button (lit "deny") (lit "no") (lit "Deny") ++
    button (lit "approve") (lit "yes") (lit "Authorize") ++ lit "</form>" in
  no_store (Response.html (document (lit "Authorize " ++ Clients.name (page_client c)) body)).

(** ** The authorization endpoint ([endpoints/authorize.rs]) *)

Inductive Refusal :=
  | Local (error : OAuthError)
  | Redirect (uri : list Z) (error : OAuthError).

Definition refusal_response (r : Refusal) : Response :=
  match r with Local e => error_page e | Redirect uri e => redirect_error uri e end.

Record Authorization := mkAuthorization {
  auth_client : Clients.Client;
  auth_redirect_uri : list Z;
  auth_scopes : Scopes.Scopes;
  auth_state : option (list Z);
  auth_challenge : list Z;
  auth_challenge_method : Pkce.ChallengeMethod }.

Definition pkce (params : Params) : result OAuthError (list Z * Pkce.ChallengeMethod) :=
  let? challenge := get (lit "code_challenge") params in
  match challenge with
  | None => Err (OAuthError.invalid_request (lit "a `code_challenge` is required. OAuth 2.1 §4.1.1 makes PKCE mandatory for every client: without it, anything that intercepts the authorization code can redeem it."))
  | Some challenge =>
      let? raw := get (lit "code_challenge_method") params in
      match raw with
      | None => Err (OAuthError.invalid_request (lit "a `code_challenge_method` is required, and must be `S256`. It is not defaulted, because RFC 7636 §4.3 defaults it to `plain` — which would let a client turn PKCE off by omitting a parameter."))
      | Some raw =>
          match Pkce.parse raw with
          | Some Pkce.S256 => Ok (challenge, Pkce.S256)
          | Some Pkce.Plain => Err (OAuthError.invalid_request (lit "`code_challenge_method=plain` is not accepted. A plain challenge is the verifier itself, written into the URL, so whoever intercepts the code has the verifier too. Use `S256`."))
          | None => Err (OAuthError.invalid_request (lit "unknown `code_challenge_method`: " ++ debug raw ++ lit ". This server accepts `S256`."))
          end
      end
  end.

Definition locally {A} (r : result OAuthError A) : result Refusal A :=
  match r with Ok a => Ok a | Err e => Err (Local e) end.
Definition redirected (uri : list Z) (state : option (list Z)) (e : OAuthError) : Refusal :=
  Redirect uri (OAuthError.with_state state e).
Definition bounce {A} (uri : list Z) (state : option (list Z)) (r : result OAuthError A) : result Refusal A :=
  match r with Ok a => Ok a | Err e => Err (redirected uri state e) end.

(** The checks of [validate] once the client and its redirect URI are known. *)
Definition validated (found : Clients.Client) (redirect_uri : list Z) (params : Params) : result Refusal Authorization :=
  let? state := bounce redirect_uri None (get (lit "state") params) in
  let? response_type := bounce redirect_uri state (required (lit "response_type") params) in
  if negb (bool_decide (response_type = lit "code")) then
    Err (redirected redirect_uri state (OAuthError.because OAuthError.UnsupportedResponseType
      (if bool_decide (response_type = lit "token") || occurs (lit "token") response_type then
         lit "the implicit flow (`response_type=token`) was removed in OAuth 2.1: it returns an access token in a URL fragment, where it lands in browser history and in every script on the page. Use `response_type=code` with PKCE."
       else lit "this server supports `response_type=code` only")))
  else
    let? (challenge, method) := bounce redirect_uri state (pkce params) in
    let? raw := bounce redirect_uri state (get (lit "scope") params) in
    let requested := match raw with Some raw => Scopes.parse raw | None => Scopes.new end in
    let beyond := Scopes.beyond requested (Clients.scopes found) in
    if negb (Scopes.is_empty beyond) then
      Err (redirected redirect_uri state (OAuthError.invalid_scope
        (lit "this client is not registered for: " ++ Scopes.to_string beyond)))
    else Ok (mkAuthorization found redirect_uri (Scopes.intersect requested (Clients.scopes found)) state challenge method).

Definition validate (params : Params) : prog (result Refusal Authorization) :=
  let=? client_id := locally (required (lit "client_id") params) in
  let* found := client client_id in
  match found with
  | None => Ret (Err (Local (OAuthError.because OAuthError.InvalidClient (lit "unknown client_id"))))
  | Some found =>
      let=? requested_uri := locally (required (lit "redirect_uri") params) in
      Ret (if negb (Clients.allows_redirect found requested_uri) then
             Err (Local (OAuthError.invalid_request (lit "the `redirect_uri` is not one this client registered. It is compared byte for byte: a trailing slash, an added query string or a different port makes it a different URI.")))
           else validated found requested_uri params)
  end.

Definition sign_in_first (r : Request) : Response :=
  Response.see_other (login_path settings ++ lit "?next=" ++ OAuthUrl.encode (Server.target (wire r))).

Definition skips_consent (a : Authorization) (user_id : list Z) : prog bool :=
  if negb (Clients.first_party (auth_client a)) then Ret false
  else
    let* found := ask (OFindGrant (Clients.id (auth_client a)) user_id) in
    Ret (match found with
         | Ok (Some g) => Scopes.covers (Consent.scopes g) (auth_scopes a)
         | _ => false
         end).

(** The query that carries a code back, and the authorization endpoint's [issue]. *)
Definition code_query (plaintext : list Z) (state : option (list Z)) : list Z :=
  lit "code=" ++ OAuthUrl.encode plaintext ++ OAuthError.and_query (lit "state") state.

Definition code_for (a : Authorization) (user_id plaintext : list Z) (t : Z) : Codes.AuthorizationCode :=
  Codes.challenged (auth_challenge a) (auth_challenge_method a)
    (Codes.granting (auth_scopes a)
      (Codes.redirecting_to (auth_redirect_uri a)
        (Codes.for_user user_id
          (Codes.for_client (Clients.id (auth_client a))
            (Codes.issued digest plaintext t (code_ttl settings)))))).

Definition issue_code (a : Authorization) (user_id : list Z) : prog Response :=
  let* plaintext := generate in
  let* t := now in
  let* kept := ask (OStoreCode (code_for a user_id plaintext t)) in
  Ret (match kept with
       | Err _ => redirect_error (auth_redirect_uri a) (OAuthError.with_state (auth_state a)
                    (OAuthError.server_error (lit "the authorization code could not be stored")))
       | Ok _ => no_store (Response.redirect (OAuthUrl.append_query (auth_redirect_uri a) (code_query plaintext (auth_state a))))
       end).

(** The application's hidden field against forged forms, a function of the request. *)
Context (csrf : Request -> list Z).

Definition show (r : Request) : prog Response :=
  let* a := validate (from_query r) in
  match a with
  | Err refusal => Ret (refusal_response refusal)
  | Ok a =>
      match identity r with
      | None => Ret (sign_in_first r)
      | Some user =>
          let* skip := skips_consent a user in
          if skip then issue_code a user
          else Ret (render (mkConsentPage (auth_client a) (auth_scopes a) (endpoint settings (lit "authorize"))
                      (auth_redirect_uri a) (auth_state a) (auth_challenge a) (Pkce.as_str (auth_challenge_method a)) (csrf r)))
      end
  end.

Definition approves (params : Params) : bool :=
  match get (lit "approve") params with Ok (Some value) => bool_decide (value = lit "yes") | _ => false end.

Definition decide (r : Request) : prog Response :=
  let params := from_body r in
  let* a := validate params in
  match a with
  | Err refusal => Ret (refusal_response refusal)
  | Ok a =>
      match identity r with
      | None => Ret (sign_in_first r)
      | Some user =>
          if negb (approves params) then
            Ret (redirect_error (auth_redirect_uri a) (OAuthError.with_state (auth_state a)
                   (OAuthError.because OAuthError.AccessDenied (lit "the user declined"))))
          else
            let* t := now in
            let* _ := ask (ORecordGrant (Consent.mkGrant (Clients.id (auth_client a)) user (auth_scopes a) t)) in
            issue_code a user
      end
  end.

(** ** The resource server ([resource.rs]) *)

Record TokenClaims := mkClaims {
  token_id : list Z;
  claims_client : list Z;
  claims_user : option (list Z);
  claims_scopes : Scopes.Scopes;
  claims_expires_at : Z }.

Definition bearer (r : Request) : option (list Z) :=
  let! h := header (lit "authorization") r in
  let! (scheme, token) := split_once 32 h in
  if negb (bool_decide (lowercase scheme = lowercase (lit "Bearer"))) then None
  else let token := trim token in if bool_decide (token = []) then None else Some token.

Definition claims_of (t : Tokens.AccessToken) : TokenClaims :=
  mkClaims (Tokens.id t) (Tokens.client_id t) (Tokens.user_id t) (Tokens.scopes t) (Tokens.expires_at t).

Definition check (needed : Scopes.Scopes) (r : Request) : prog (result OAuthError TokenClaims) :=
  match bearer r with
  | None => Ret (Err (OAuthError.because OAuthError.InvalidToken (lit "this endpoint needs an `Authorization: Bearer <token>` header")))
  | Some presented =>
      let*? token := validate_bearer presented in
      Ret (if negb (Scopes.covers (Tokens.scopes token) needed) then
             Err (OAuthError.because OAuthError.InsufficientScope
               (lit "this token does not carry: " ++ Scopes.to_string (Scopes.beyond needed (Tokens.scopes token))))
           else Ok (claims_of token))
  end.

(** [RequireToken::handle]: the handler behind it is given the claims, and the
    user of the token as the identity. *)
Definition guarded (needed : Scopes.Scopes) (next : Request -> TokenClaims -> Response) (r : Request) : prog Response :=
  let* c := check needed r in
  Ret (match c with
       | Ok c => next (mkRequest (wire r) (match claims_user c with Some u => Some u | None => identity r end)) c
       | Err e => OAuthError.into_response e
       end).

(** ** Discovery ([endpoints/discovery.rs]) *)

Definition strings (values : list (list Z)) : Json.Json := Json.Array (map Json.String values).

Definition metadata : Json.Json :=
  Json.Object (JsonText.object_of
    [(lit "issuer", Json.String (issuer settings));
     (lit "authorization_endpoint", Json.String (endpoint_url settings (lit "authorize")));
     (lit "token_endpoint", Json.String (endpoint_url settings (lit "token")));
     (lit "revocation_endpoint", Json.String (endpoint_url settings (lit "revoke")));
     (lit "introspection_endpoint", Json.String (endpoint_url settings (lit "introspect")));
     (lit "response_types_supported", strings [lit "code"]);
     (lit "grant_types_supported", strings [lit "authorization_code"; lit "refresh_token"; lit "client_credentials"]);
     (lit "code_challenge_methods_supported", strings [lit "S256"]);
     (lit "token_endpoint_auth_methods_supported", strings [lit "client_secret_basic"; lit "client_secret_post"; lit "none"]);
     (lit "revocation_endpoint_auth_methods_supported", strings [lit "client_secret_basic"; lit "client_secret_post"; lit "none"]);
     (lit "introspection_endpoint_auth_methods_supported", strings [lit "client_secret_basic"; lit "client_secret_post"])]).

Definition discovery : Response :=
  Response.with_header (lit "cache-control") (lit "public, max-age=3600") (Response.json metadata).

(** ** The endpoints together ([endpoints/mod.rs]) *)

Inductive Endpoint :=
  | Authorize | Decide | Token | Revoke | Introspect | Discovery
  | Api (needed : Scopes.Scopes)
  | Purge.

Context (next : Request -> TokenClaims -> Response).

Definition responding (p : prog Response) : prog (outcome U) := let* r := p in Ret (Answered r).

(** What is run for a request at an endpoint, an application's own endpoint
    behind [RequireToken] and the housekeeping of a schedule among them. *)
Definition handle (e : Endpoint) (r : Request) : prog (outcome U) :=
  match e with
  | Authorize => responding (show r)
  | Decide => responding (decide r)
  | Token => token r
  | Revoke => revoke r
  | Introspect => introspect r
  | Discovery => Ret (Answered discovery)
  | Api needed => responding (guarded needed next r)
  | Purge => let* _ := purge in Ret (Answered (Response.new Status.NO_CONTENT))
  end.

(** ** Requests in flight *)

(** The stores, and the time [Clock::now] reads. *)
Record world := mkWorld {
  clients : gmap (list Z) Clients.Client;
  codes : Codes.MemoryCodeStore;
  tokens : Tokens.MemoryTokenStore;
  grants : Consent.MemoryConsentStore;
  clock : Z }.

Definition with_codes (c : Codes.MemoryCodeStore) (w : world) : world := mkWorld (clients w) c (tokens w) (grants w) (clock w).
Definition with_tokens (t : Tokens.MemoryTokenStore) (w : world) : world := mkWorld (clients w) (codes w) t (grants w) (clock w).

(** How a store fares: it does what it is asked, it does nothing and says so, or
    it does it and its answer is lost. *)
Inductive weather := Fine | Down | Unheard.

Definition reply {A} (x : weather) (a : A) : stored A := match x with Fine => Ok a | _ => Err tt end.
Definition after (x : weather) (w w' : world) : world := match x with Down => w | _ => w' end.

(** The [n]-byte value the [drawn]th draw of request [i] gives. *)
Context (random : nat -> nat -> nat -> list Z).
(** The retention the code store was built with; nothing reads [code_retention]. *)
Context (retention : Z).

Definition perform (i drawn : nat) (x : weather) (w : world) (o : op) : answer o * world :=
  match o with
  | ORandom n => (random i drawn n, w)
  | ONow => (clock w, w)
  | OFindClient id => (reply x (Clients.find id (clients w)), w)
  | OStoreCode code => (reply x tt, after x w (with_codes (Codes.store code (codes w)) w))
  | OConsume h f t =>
      let '(c, m) := Codes.consume h f t (codes w) in (reply x c, after x w (with_codes m w))
  | OPurgeCodes t =>
      let '(n, m) := Codes.purge retention t (codes w) in (reply x n, after x w (with_codes m w))
  | OStoreAccess t => (reply x tt, after x w (with_tokens (Tokens.store_access t (tokens w)) w))
  | OStoreRefresh t => (reply x tt, after x w (with_tokens (Tokens.store_refresh t (tokens w)) w))
  | OFindAccess h => (reply x (Tokens.find_access h (tokens w)), w)
  | OFindRefresh h => (reply x (Tokens.find_refresh h (tokens w)), w)
  | ORotate id =>
      let '(b, m) := Tokens.rotate id (tokens w) in (reply x b, after x w (with_tokens m w))
  | ORevokeAccess id => (reply x tt, after x w (with_tokens (Tokens.revoke_access id (tokens w)) w))
  | ORevokeFamilyAccess f =>
      let '(n, m) := Tokens.revoke_family_access f (tokens w) in (reply x n, after x w (with_tokens m w))
  | ORevokeFamilyRefresh f =>
      let '(n, m) := Tokens.revoke_family_refresh f (tokens w) in (reply x n, after x w (with_tokens m w))
  | OPurgeAccess t =>
      let '(n, m) := Tokens.purge_access t (tokens w) in (reply x n, after x w (with_tokens m w))
  | OPurgeRefresh t =>
      let '(n, m) := Tokens.purge_refresh t (tokens w) in (reply x n, after x w (with_tokens m w))
  | OFindGrant c u => (reply x (Consent.find c u (grants w)), w)
  | ORecordGrant g => (reply x tt, after x w (mkWorld (clients w) (codes w) (tokens w) (Consent.record g (grants w)) (clock w)))
  end.

(** A request: where it went, what it said, what it has done so far (the last
    first), and what is left of it. *)
Record thread := mkThread {
  asked : Endpoint * Request;
  did : list entry;
  left : prog (outcome U) }.

Record system := mkSystem {
  state : world;
  threads : list thread }.

Inductive event :=
  | Arrives (e : Endpoint) (r : Request)
  | Steps (i : nat) (x : weather)
  | TimeIs (t : Z)
  | Registers (c : Clients.Client)
  | Forgets (id : list Z)
  | Withdraws (client user : list Z).

Definition start (e : Endpoint) (r : Request) : thread := mkThread (e, r) [] (handle e r).

Definition step_thread (i : nat) (x : weather) (w : world) (th : thread) : world * thread :=
  match left th with
  | Ret _ => (w, th)
  | Do o k =>
      let '(a, w') := perform i (draws (did th)) x w o in
      (w', mkThread (asked th) (existT o a :: did th) (k a))
  end.

Definition happen (s : system) (v : event) : system :=
  let w := state s in
  match v with
  | Arrives e r => mkSystem w (threads s ++ [start e r])
  | Steps i x =>
      match threads s !! i with
      | None => s
      | Some th => let '(w', th') := step_thread i x w th in mkSystem w' (<[i := th']> (threads s))
      end
  | TimeIs t => mkSystem (mkWorld (clients w) (codes w) (tokens w) (grants w) t) (threads s)
  | Registers c =>
      match Clients.register debug c (clients w) with
      | Ok m => mkSystem (mkWorld m (codes w) (tokens w) (grants w) (clock w)) (threads s)
      | Err _ => s
      end
  | Forgets id => mkSystem (mkWorld (Clients.forget id (clients w)) (codes w) (tokens w) (grants w) (clock w)) (threads s)
  | Withdraws c u => mkSystem (mkWorld (clients w) (codes w) (tokens w) (Consent.forget c u (grants w)) (clock w)) (threads s)
  end.

Definition run (s : system) (vs : list event) : system := fold_left happen vs s.

Definition empty : system := mkSystem (mkWorld ∅ ∅ Tokens.empty ∅ 0) [].

(** Everything that can have happened to a server since it started. *)
Definition history (vs : list event) : system := run empty vs.

End Provider.
End OAuthServer.
