(* ===== verification/OAuthProofs.v ===== *)
(** * Reasoning about requests in flight

    A logic for the programs of [OAuthServer.v]: what a request may ask of the
    stores given what it has done so far, and what it may rely on in the answers.
    The operations are framed, and the logic is sound for every history. *)

From S2P Require Import Prelude Text Base64 Url Headers Response Server OAuth OAuthStores OAuthServer.

Module OAuthProofs.
Import OAuthServer.

(** ** The logic *)

Section Logic.
Context (pre : list entry -> op -> Prop) (good : list entry -> forall o, answer o -> Prop).

(** Whatever good answers it gets, the program asks only what it may, and what it
    returns is as [Q] says. *)
Fixpoint safe {A} (Q : list entry -> A -> Prop) (did : list entry) (p : prog A) : Prop :=
  match p with
  | Ret a => Q did a
  | Do o k => pre did o /\ forall x, good did o x -> safe Q (existT o x :: did) (k x)
  end.

Lemma safe_ret {A} (Q : list entry -> A -> Prop) did a : Q did a -> safe Q did (Ret a).
Proof. done. Qed.

Lemma safely_mono {A} (Q Q' : list entry -> A -> Prop) did p :
  (forall did a, Q did a -> Q' did a) -> safe Q did p -> safe Q' did p.
Proof.
  intros HQ. revert did. induction p as [a|o k IH]; intros did; cbn [safe]; [apply HQ|].
  intros [Hp Hk]. split; [done|]. intros x Hx. by apply IH, Hk.
Qed.

Lemma safely_bind {A B} (Q : list entry -> B -> Prop) did (p : prog A) (f : A -> prog B) :
  safe (fun did a => safe Q did (f a)) did p -> safe Q did (bind p f).
Proof.
  revert did. induction p as [a|o k IH]; intros did; cbn [safe bind]; [done|].
  intros [Hp Hk]. split; [done|]. intros x Hx. by apply IH, Hk.
Qed.

Lemma safe_ask (Q : forall o, list entry -> answer o -> Prop) did o :
  pre did o -> (forall x, good did o x -> Q o (existT o x :: did) x) -> safe (Q o) did (ask o).
Proof. intros Hp Hk. split; done. Qed.

Lemma safe_any {A} did (p : prog A) : (forall did o, pre did o) -> safe (fun _ _ => True) did p.
Proof. intros Hp. revert did. induction p as [a|o k IH]; intros did; [done|]. split; [done|]. intros x _. apply IH. Qed.

(** A log only grows. *)
Lemma safe_grows {A} (Q : list entry -> A -> Prop) did p :
  safe Q did p -> safe (fun did' a => Q did' a /\ exists l, did' = l ++ did) did p.
Proof.
  revert did. induction p as [a|o k IH]; intros did; [by split; [|exists []]|].
  intros [Hp Hk]. split; [done|]. intros x Hx. eapply safely_mono; [|by apply IH, Hk]. cbn.
  intros did' a [HQ [l ->]]. split; [done|]. exists (l ++ [existT o x]). by rewrite <- app_assoc.
Qed.

(** What was performed was allowed, and what was answered was good. *)
Fixpoint logged (did : list entry) : Prop :=
  match did with
  | [] => True
  | e :: did => (pre did (projT1 e) /\ good did (projT1 e) (projT2 e)) /\ logged did
  end.

Lemma logged_elem did e : logged did -> e ∈ did ->
  exists did', pre did' (projT1 e) /\ good did' (projT1 e) (projT2 e).
Proof.
  induction did as [|e' did IH]; intros Hl He; [by apply elem_of_nil in He|].
  destruct Hl as [H Hl]. apply elem_of_cons in He as [->|He]; [by exists did|by apply IH].
Qed.
End Logic.

(** What a request may ask, and what it comes to, are shown apart. *)
Lemma safe_join pre good {A} (Q : list entry -> A -> Prop) did p :
  safe pre good (fun _ _ => True) did p -> safe (fun _ _ => True) good Q did p -> safe pre good Q did p.
Proof.
  revert did. induction p as [a|o k IH]; intros did; [done|]. intros [Hp Hk] [_ Hk']. split; [done|].
  intros x Hx. apply IH; auto.
Qed.

(** ** What a log says *)

Definition code_stored (e : entry) : option Codes.AuthorizationCode :=
  match projT1 e with OStoreCode c => Some c | _ => None end.
Definition access_stored (e : entry) : option Tokens.AccessToken :=
  match projT1 e with OStoreAccess t => Some t | _ => None end.
Definition refresh_stored (e : entry) : option Tokens.RefreshToken :=
  match projT1 e with OStoreRefresh t => Some t | _ => None end.
Definition is_revocation (e : entry) : bool :=
  match projT1 e with ORevokeFamilyAccess _ | ORevokeFamilyRefresh _ => true | _ => false end.

(** The code that was consumed, with its digest and the family it was spent on. *)
Definition spent (e : entry) : option (list Z * list Z * Codes.AuthorizationCode) :=
  let '(existT o x) := e in
  match o return answer o -> option (list Z * list Z * Codes.AuthorizationCode) with
  | OConsume h f _ => fun x => match x with Ok (Codes.Fresh c) => Some (h, f, c) | _ => None end
  | _ => fun _ => None
  end x.

(** The refresh token that was found, with the digest it was looked up by. *)
Definition refresh_found (e : entry) : option (list Z * Tokens.RefreshToken) :=
  let '(existT o x) := e in
  match o return answer o -> option (list Z * Tokens.RefreshToken) with
  | OFindRefresh h => fun x => match x with Ok (Some t) => Some (h, t) | _ => None end
  | _ => fun _ => None
  end x.

(** The identifier of the refresh token that was rotated. *)
Definition rotation (e : entry) : option (list Z) :=
  let '(existT o x) := e in
  match o return answer o -> option (list Z) with
  | ORotate i => fun x => match x with Ok true => Some i | _ => None end
  | _ => fun _ => None
  end x.

(** The client that was found, with the identifier it was looked up by. *)
Definition client_looked_up (e : entry) : option (list Z * Clients.Client) :=
  let '(existT o x) := e in
  match o return answer o -> option (list Z * Clients.Client) with
  | OFindClient id => fun x => match x with Ok (Some c) => Some (id, c) | _ => None end
  | _ => fun _ => None
  end x.

(** The client that was found. *)
Definition client_found (e : entry) : option Clients.Client :=
  let '(existT o x) := e in
  match o return answer o -> option Clients.Client with
  | OFindClient _ => fun x => match x with Ok c => c | _ => None end
  | _ => fun _ => None
  end x.

(** ** Frames: what one operation does to each store *)

Section Frames.
Context (random : nat -> nat -> nat -> list Z) (retention : Z).
Context (i drawn : nat) (x : weather) (w : world) (o : op).

Local Abbreviation w' := (perform random retention i drawn x w o).2.

Lemma perform_clients : clients w' = clients w.
Proof. destruct o, x; cbn; repeat case_match; done. Qed.

Lemma perform_clock : clock w' = clock w.
Proof. destruct o, x; cbn; repeat case_match; done. Qed.

Lemma perform_grants k g : grants w' !! k = Some g ->
  grants w !! k = Some g \/ (o = ORecordGrant g /\ k = (Consent.client_id g, Consent.user_id g)).
Proof.
  destruct o, x; cbn; repeat case_match; cbn; try (by left);
    unfold Consent.record; intros H; apply lookup_insert_Some in H as [[<- <-]|[_ H]]; by auto.
Qed.

Lemma consume_codes (h f : list Z) (t : Z) (m : Codes.MemoryCodeStore) (h' : list Z) c :
  (Codes.consume h f t m).2 !! h' = Some c ->
  m !! h' = Some c \/ exists c0, h' = h /\ m !! h = Some c0 /\ Codes.family c0 = None /\ c = Codes.spend f c0.
Proof.
  unfold Codes.consume. destruct (m !! h) as [c0|] eqn:E; cbn; [|by left].
  destruct (Codes.is_consumed c0) eqn:Ec; cbn; [by left|]. destruct (Codes.is_expired c0 t); cbn; [by left|].
  intros H. apply lookup_insert_Some in H as [[<- <-]|[_ H]]; [|by left].
  right. exists c0. split_and!; try done. unfold Codes.is_consumed in Ec. by destruct (Codes.family c0).
Qed.

Lemma perform_codes h c : codes w' !! h = Some c ->
  codes w !! h = Some c \/ (o = OStoreCode c /\ h = Codes.hash c) \/
  exists f t c0, o = OConsume h f t /\ codes w !! h = Some c0 /\ Codes.family c0 = None /\ c = Codes.spend f c0.
Proof.
  destruct o; cbn; repeat case_match; try (destruct x; cbn; by left).
  - destruct x; cbn; try (by left); unfold Codes.store; intros H; apply lookup_insert_Some in H as [[<- <-]|[_ H]]; auto.
  - match goal with H : Codes.consume ?h ?f ?t ?m = _ |- _ => pose proof (consume_codes h f t m) as Hc; rewrite H in Hc end.
    destruct x; cbn; [|by left|]; intros H'; apply Hc in H' as [H'|(? & -> & ? & ? & ->)]; eauto 12.
  - destruct x; cbn; [|by left|]; intros H'; apply map_lookup_filter_Some in H' as [H' _]; by left.
Qed.

Lemma find_value_Some {V} (p : V -> bool) (m : gmap (list Z) V) h v :
  Tokens.find_value p m = Some (h, v) -> m !! h = Some v /\ p v = true.
Proof.
  unfold Tokens.find_value. intros H. apply List.find_some in H as [Hin Hp]. split; [|done].
  apply elem_of_map_to_list, list_elem_of_In. exact Hin.
Qed.

Lemma find_value_unique {V} (p : V -> bool) (m : gmap (list Z) V) h v :
  m !! h = Some v -> p v = true -> (forall h' v', m !! h' = Some v' -> p v' = true -> h' = h) ->
  Tokens.find_value p m = Some (h, v).
Proof.
  intros Hv Hp Hu. destruct (Tokens.find_value p m) as [[h' v']|] eqn:E.
  - apply find_value_Some in E as [Hv' Hp']. pose proof (Hu h' v' Hv' Hp') as ->. congruence.
  - unfold Tokens.find_value in E. assert (Hin : In (h, v) (map_to_list m)) by by apply list_elem_of_In, elem_of_map_to_list.
    pose proof (List.find_none _ _ E (h, v) Hin) as Hn. cbn in Hn. congruence.
Qed.

Lemma revoke_access_refresh id m : Tokens.refresh (Tokens.revoke_access id m) = Tokens.refresh m.
Proof. unfold Tokens.revoke_access. by destruct (Tokens.find_value _ _) as [[]|]. Qed.

Lemma perform_access h t : Tokens.access (tokens w') !! h = Some t ->
  Tokens.access (tokens w) !! h = Some t \/ (o = OStoreAccess t /\ h = Tokens.hash t) \/
  exists t0, Tokens.access (tokens w) !! h = Some t0 /\ t = Tokens.revoke t0.
Proof.
  destruct o; cbn; unfold Tokens.rotate, Tokens.revoke_access, Tokens.revoke_family_access, Tokens.revoke_family_refresh,
    Tokens.purge_access, Tokens.purge_refresh; repeat (case_match; simplify_eq); destruct x; cbn; try (by left).
  all: try (intros H'; apply map_lookup_filter_Some in H' as [H' _]; by left).
  all: try (intros H'; rewrite lookup_fmap in H'; apply fmap_Some in H' as (t0 & H0 & ->); case_match; eauto).
  all: intros H'; apply lookup_insert_Some in H' as [[<- <-]|[_ H']]; try (by left); try (by auto).
  all: match goal with H : Tokens.find_value _ _ = _ |- _ => apply find_value_Some in H as [H _] end; eauto.
Qed.

Lemma perform_refresh h t : Tokens.refresh (tokens w') !! h = Some t ->
  Tokens.refresh (tokens w) !! h = Some t \/ (o = OStoreRefresh t /\ h = Tokens.r_hash t) \/
  exists t0, Tokens.refresh (tokens w) !! h = Some t0 /\ (t = Tokens.r_revoke t0 \/ t = Tokens.r_rotate t0).
Proof.
  destruct o; cbn; unfold Tokens.rotate, Tokens.revoke_access, Tokens.revoke_family_access, Tokens.revoke_family_refresh,
    Tokens.purge_access, Tokens.purge_refresh; repeat (case_match; simplify_eq); destruct x; cbn; try (by left).
  all: try (intros H'; apply map_lookup_filter_Some in H' as [H' _]; by left).
  all: try (intros H'; rewrite lookup_fmap in H'; apply fmap_Some in H' as (t0 & H0 & ->); case_match; eauto 6).
  all: intros H'; apply lookup_insert_Some in H' as [[<- <-]|[_ H']]; try (by left); try (by auto).
  all: match goal with H : Tokens.find_value _ _ = _ |- _ => apply find_value_Some in H as [H _] end; eauto 6.
Qed.

(** What an answer in the log says of the stores. *)
Local Abbreviation a := (perform random retention i drawn x w o).1.

Lemma perform_spent h f c : spent (existT o a) = Some (h, f, c) ->
  exists t c0, o = OConsume h f t /\ codes w !! h = Some c0 /\ Codes.is_consumed c0 = false /\
    c = Codes.spend f c0 /\ codes w' !! h = Some c.
Proof.
  destruct o; cbn; try done. unfold Codes.consume.
  destruct (codes w !! hash) as [c0|] eqn:E; [|by destruct x].
  destruct (Codes.is_consumed c0) eqn:Ec; [by destruct x|]. destruct (Codes.is_expired c0 now0); [by destruct x|].
  destruct x; cbn; [|done..]. intros [= <- <- <-]. eexists _, c0. split_and!; try done. by rewrite lookup_insert_eq.
Qed.

Lemma perform_found h t : refresh_found (existT o a) = Some (h, t) -> Tokens.refresh (tokens w) !! h = Some t.
Proof.
  destruct o; cbn; try done. unfold Tokens.find_refresh. destruct x; cbn; [|done..].
  destruct (Tokens.refresh (tokens w) !! hash) eqn:E; [|done]. by intros [= <- <-].
Qed.

Lemma perform_rotation id : rotation (existT o a) = Some id ->
  o = ORotate id /\ exists h t, Tokens.refresh (tokens w) !! h = Some t /\ Tokens.r_id t = id /\ Tokens.rotated t = false /\
    Tokens.refresh (tokens w') = <[h := Tokens.r_rotate t]> (Tokens.refresh (tokens w)).
Proof.
  destruct o; cbn; try done. unfold Tokens.rotate.
  destruct (Tokens.find_value _ _) as [[h t]|] eqn:E; [|by destruct x]. apply find_value_Some in E as [E Hid].
  apply bool_decide_eq_true in Hid. destruct (Tokens.rotated t) eqn:Er; [by destruct x|].
  destruct x; cbn; [|done..]. intros [= <-]. split; [done|]. exists h, t. by split_and!.
Qed.

End Frames.

End OAuthProofs.
