(* ===== verification/OAuthHistory.v ===== *)
(** * The histories of an authorization server

    What the endpoints ask for is justified: codes and tokens by consent that was
    given, families by what was drawn for them; and every store holds only what
    some request put there. *)

From S2P Require Import Prelude Text Base64 Url Headers Response Server OAuth OAuthStores OAuthServer OAuthProofs.

Module OAuthHistory.
Import OAuthServer OAuthProofs.

(** ** What a request to the authorization endpoint says *)

Definition params_of (rq : Endpoint * Request) : list (list Z * list Z) :=
  match rq.1 with Authorize => from_query rq.2 | _ => from_body rq.2 end.

Definition says (p : list (list Z * list Z)) (name value : list Z) : Prop := get name p = Ok (Some value).

Definition requested_scopes (p : list (list Z * list Z)) : Scopes.Scopes :=
  match get (lit "scope") p with Ok (Some raw) => Scopes.parse raw | _ => ∅ end.

(** The request a code is the answer to. *)
Definition asks_for (rq : Endpoint * Request) (c : Codes.AuthorizationCode) : Prop :=
  (rq.1 = Authorize \/ rq.1 = Decide) /\ identity rq.2 = Some (Codes.user_id c) /\
  says (params_of rq) (lit "client_id") (Codes.client_id c) /\
  says (params_of rq) (lit "redirect_uri") (Codes.redirect_uri c) /\
  says (params_of rq) (lit "code_challenge") (Codes.challenge c) /\
  Codes.challenge_method c = Pkce.S256 /\ Codes.scopes c ⊆ requested_scopes (params_of rq).

(** The form of a consent screen, approved by [user], for a client and at least
    these scopes. *)
Definition approves_grant (rq : Endpoint * Request) (user client : list Z) (s : Scopes.Scopes) : Prop :=
  rq.1 = Decide /\ identity rq.2 = Some user /\ approves (from_body rq.2) = true /\
  says (from_body rq.2) (lit "client_id") client /\ s ⊆ requested_scopes (from_body rq.2).

Lemma required_says name p value : required name p = Ok value <-> says p name value.
Proof. unfold required, says. destruct (get name p) as [[v|]|]; naive_solver. Qed.

Section History.
Context (sha256 : list Z -> list Z) (debug : list Z -> list Z) (settings : Settings) {U : Type}.
Context (csrf : Request -> list Z) (next : Request -> TokenClaims -> Response.Response U).
Context (random : nat -> nat -> nat -> list Z) (retention : Z).

Local Abbreviation digest := (Clients.digest sha256).

Definition tok (i k : nat) : list Z := Base64.encode_url (random i k 32).
Definition ident (i k : nat) : list Z := hex (random i k 16).

Section Protocol.
Context (approved : list Z -> list Z -> Scopes.Scopes -> Prop) (drawn : list Z -> Prop).
Context (arrived : Endpoint * Request -> Prop).
Hypothesis approved_narrow : forall u c s s', s' ⊆ s -> approved u c s -> approved u c s'.
Hypothesis approved_decide : forall rq u c s, arrived rq -> approves_grant rq u c s -> approved u c s.

Context (i : nat) (rq : Endpoint * Request).

(** A request may issue into the families it drew and those of the usable refresh
    tokens it found, and not after it revoked one. *)
Definition may_issue (f : list Z) (did : list entry) : Prop :=
  Forall (fun e => is_revocation e = false) did /\
  ((exists k, (k < draws did)%nat /\ f = tok i k) \/
   exists e h t, e ∈ did /\ refresh_found e = Some (h, t) /\ Tokens.r_family t = f /\ Tokens.r_revoked t = false).

Definition pre (did : list entry) (o : op) : Prop :=
  match o with
  | OStoreCode c =>
      omap code_stored did = [] /\ (exists k, Codes.hash c = digest (tok i k)) /\ Codes.family c = None /\
      asks_for rq c /\ approved (Codes.user_id c) (Codes.client_id c) (Codes.scopes c)
  | OConsume _ f _ => drawn f
  | OStoreAccess t =>
      omap access_stored did = [] /\ (exists k, Tokens.hash t = digest (tok i k)) /\ (exists k, Tokens.id t = ident i k) /\
      drawn (Tokens.family t) /\ may_issue (Tokens.family t) did /\
      forall u, Tokens.user_id t = Some u -> approved u (Tokens.client_id t) (Tokens.scopes t)
  | OStoreRefresh t =>
      omap refresh_stored did = [] /\ (exists k, Tokens.r_hash t = digest (tok i k)) /\ (exists k, Tokens.r_id t = ident i k) /\
      drawn (Tokens.r_family t) /\ may_issue (Tokens.r_family t) did /\ Tokens.rotated t = false /\
      forall u, Tokens.r_user_id t = Some u -> approved u (Tokens.r_client_id t) (Tokens.r_scopes t)
  | ORevokeFamilyAccess f => drawn f
  | ORecordGrant g => approved (Consent.user_id g) (Consent.client_id g) (Consent.scopes g)
  | _ => True
  end.

Definition good (did : list entry) (o : op) : answer o -> Prop :=
  match o with
  | ORandom n => fun x => x = random i (draws did) n /\ (n = 32%nat -> drawn (tok i (draws did)))
  | OFindClient id => fun x => forall c, x = Ok (Some c) -> Clients.id c = id /\ Clients.validate debug c = Ok tt
  | OConsume h _ _ => fun x =>
      match x with
      | Ok (Codes.Fresh c) =>
          approved (Codes.user_id c) (Codes.client_id c) (Codes.scopes c) /\
          exists rq', arrived rq' /\ asks_for rq' c
      | Ok (Codes.Replayed f) => forall f', f = Some f' -> drawn f'
      | _ => True
      end
  | OFindRefresh h => fun x => forall t, x = Ok (Some t) ->
      drawn (Tokens.r_family t) /\
      forall u, Tokens.r_user_id t = Some u -> approved u (Tokens.r_client_id t) (Tokens.r_scopes t)
  | OFindGrant c u => fun x => forall g, x = Ok (Some g) ->
      Consent.client_id g = c /\ Consent.user_id g = u /\ approved u c (Consent.scopes g)
  | _ => fun _ => True
  end.

Local Abbreviation any := (fun _ _ => True).

Lemma may_issue_cons f e did : may_issue f did -> is_revocation e = false -> may_issue f (e :: did).
Proof.
  intros [Hr Hf] He. split; [by constructor|]. destruct Hf as [(k & Hk & ->)|(e' & h & t & Hin & H)].
  - left. exists k. split; [|done]. unfold draws in *. cbn [List.filter]. destruct (is_draw e); cbn [length]; lia.
  - right. exists e', h, t. split; [by apply list_elem_of_further|done].
Qed.

(** The program asks next, and goes on with a good answer. *)
Ltac asks x Hx := cbn [safe bind ask]; split; [try done|intros x Hx].

Lemma issue_safe did c u s f wr :
  omap access_stored did = [] -> omap refresh_stored did = [] -> drawn f -> may_issue f did ->
  (forall v, u = Some v -> approved v c s) -> safe pre good any did (issue sha256 settings c u s f wr).
Proof.
  intros Ha Hr Hd Hf Hu. unfold issue, now, generate, identifier.
  asks t Ht. asks b Hb. asks b' Hb'. destruct Hb as [-> _], Hb' as [-> _].
  asks a Hxa.
  { cbn. split_and!; try done; try (by eexists). by repeat apply may_issue_cons. }
  destruct a; [|done]. destruct wr; [|done].
  asks b Hb. asks b' Hb'. destruct Hb as [-> _], Hb' as [-> _]. asks r Hxr; [|by destruct r].
  cbn. split_and!; try done; try (by eexists). by repeat apply may_issue_cons.
Qed.

Lemma revoke_family_safe {B} did f (k : unit -> prog B) :
  drawn f -> (forall did', safe pre good any did' (k tt)) -> safe pre good any did (bind (revoke_family f) k).
Proof.
  intros Hd Hk. unfold revoke_family, revoke_tokens. asks a Ha. destruct a; [|apply Hk]. asks b Hb. destruct b; apply Hk.
Qed.

Lemma narrowed_within p g s : narrowed p g = Ok s -> s ⊆ g.
Proof.
  unfold narrowed. destruct (get _ p) as [[raw|]|]; [|by intros [= ->]|done].
  case_match eqn:E; [|done]. intros [= <-]. by apply Scopes.beyond_empty.
Qed.

Lemma store_failed_safe {A} did (p : prog (stored A)) :
  safe pre good any did p -> safe pre good any did (store_failed p).
Proof. intros H. apply safely_bind. revert H. by apply safely_mono. Qed.

(** The decision procedure of a grant: nothing was stored or revoked so far. *)
Definition unused (did : list entry) : Prop :=
  omap access_stored did = [] /\ omap refresh_stored did = [] /\ Forall (fun e => is_revocation e = false) did.

Lemma authorization_code_safe did found p :
  unused did -> safe pre good any did (authorization_code sha256 settings found p).
Proof.
  intros (Ha & Hr & Hv). unfold authorization_code.
  destruct (required (lit "code") p); [|done]. destruct (required (lit "redirect_uri") p); [|done].
  destruct (get (lit "code_verifier") p) as [[verifier|]|]; [|done..].
  unfold generate, now. asks b Hb. destruct Hb as [-> Hdrawn]. specialize (Hdrawn eq_refl).
  asks t Ht. asks x Hx. destruct x as [[code|f| |]|]; cbn [safe bind]; try done.
  - destruct Hx as [Hx _].
    destruct (negb (bool_decide (Codes.client_id code = _))) eqn:Ec; [done|].
    destruct (negb (bool_decide (Codes.redirect_uri code = _))); [done|].
    destruct (negb (Pkce.verify _ _ _ _)); [done|]. destruct (narrowed p (Codes.scopes code)) as [s|] eqn:En; [|done].
    apply narrowed_within in En. apply negb_false_iff, bool_decide_eq_true in Ec.
    apply store_failed_safe, issue_safe; try done.
    + split; [by repeat constructor|]. left. exists (draws did). split; [|done]. unfold draws; cbn; lia.
    + intros v [= <-]. rewrite <- Ec. by eapply approved_narrow.
  - destruct f as [f|]; [|done]. apply revoke_family_safe; [by apply Hx|done].
Qed.

Lemma refresh_token_safe did found p :
  unused did -> safe pre good any did (refresh_token sha256 settings found p).
Proof.
  intros (Ha & Hr & Hv). unfold refresh_token. destruct (required _ p) as [presented|]; [|done].
  asks x Hx. destruct x as [[r|]|]; cbn [safe bind]; try done. destruct (Hx r eq_refl) as [Hd Hu].
  destruct (negb (bool_decide (Tokens.r_client_id r = _))) eqn:Ec; [by apply revoke_family_safe|].
  destruct (Tokens.rotated r); [by apply revoke_family_safe|]. destruct (Tokens.r_revoked r) eqn:Er; [done|].
  unfold now. asks t Ht. destruct (_ <=? t); [done|]. asks b Hb. destruct b as [[]|]; cbn [safe bind negb]; try done.
  - asks y Hy. destruct y; [|done]. cbn [safe bind]. destruct (narrowed p (Tokens.r_scopes r)) as [s|] eqn:En; [|done].
    apply narrowed_within in En. apply negb_false_iff, bool_decide_eq_true in Ec.
    apply store_failed_safe, issue_safe; try done.
    + split; [by repeat constructor|]. right.
      exists (existT (OFindRefresh (digest presented)) (Ok (Some r))), (digest presented), r.
      split_and!; try done. set_solver.
    + intros v Hv'. rewrite <- Ec. by eapply approved_narrow, Hu.
  - by apply revoke_family_safe.
Qed.

Lemma client_credentials_safe did found p :
  unused did -> safe pre good any did (client_credentials sha256 settings found p).
Proof.
  intros (Ha & Hr & Hv). unfold client_credentials. destruct (negb _); [done|].
  destruct (narrowed _ _); [|done]. unfold generate. asks b Hb. destruct Hb as [-> Hd].
  apply store_failed_safe, issue_safe; try done.
  - by apply Hd.
  - split; [by constructor|]. left. exists (draws did). split; [|done]. unfold draws; cbn; lia.
Qed.
Lemma unused_find did c x : unused did -> unused (existT (OFindClient c) x :: did).
Proof. intros (Ha & Hr & Hv). split_and!; [done..|by constructor]. Qed.

Lemma grant_safe did found p : unused did -> safe pre good any did (grant sha256 debug settings found p).
Proof.
  intros Hu. unfold grant. destruct (required _ p); [|done].
  repeat case_bool_decide; cbn [orb]; try done;
    by (apply authorization_code_safe || apply refresh_token_safe || apply client_credentials_safe).
Qed.

Lemma refuse_all_safe {A B} did (p : prog (result OAuthError.OAuthError A)) (k : result failure A -> prog B) :
  safe pre good (fun did r => safe pre good any did (k (refuse r))) did p ->
  safe pre good any did (bind (refuse_all p) k).
Proof. intros H. apply safely_bind, safely_bind. revert H. apply safely_mono. done. Qed.

Lemma authenticate_safe did c (Q : list entry -> result OAuthError.OAuthError Clients.Client -> Prop) :
  (forall x r, good did (OFindClient (cred_id c)) x -> Q (existT (OFindClient (cred_id c)) x :: did) r) ->
  safe pre good Q did (authenticate sha256 c).
Proof. intros HQ. unfold authenticate, client. asks x Hx. by apply HQ. Qed.

Lemma answering_safe {A} (ok : A -> Response.Response U) did p :
  safe pre good any did p -> safe pre good any did (answering ok p).
Proof. intros H. apply safely_bind. revert H. by apply safely_mono. Qed.

Lemma token_safe r : safe pre good any [] (token (U:=U) sha256 debug settings r).
Proof.
  apply answering_safe. unfold exchange. destruct (presented _ _); [|done].
  apply refuse_all_safe, authenticate_safe. intros x [found|] _; cbn [refuse]; [|done].
  unfold refuse_all. apply safely_bind. eapply safely_mono; [|apply grant_safe, unused_find; by repeat constructor]. done.
Qed.

Lemma revoke_refresh_safe {B} did h c (k : bool -> prog B) :
  (forall did' b, safe pre good any did' (k b)) -> safe pre good any did (bind (revoke_refresh h c) k).
Proof.
  intros Hk. unfold revoke_refresh. asks x Hx. destruct x as [[t|]|]; [|apply Hk..].
  destruct (Hx t eq_refl) as [Hd _]. destruct (negb _); [apply Hk|].
  cbn [bind]. unfold revoke_family, revoke_tokens. asks a Ha. destruct a; [|apply Hk]. asks b Hb. destruct b; apply Hk.
Qed.

Lemma revoke_access_safe {B} did h c (k : bool -> prog B) :
  (forall did' b, safe pre good any did' (k b)) -> safe pre good any did (bind (revoke_access h c) k).
Proof.
  intros Hk. unfold revoke_access. asks x Hx. destruct x as [[t|]|]; [|apply Hk..].
  destruct (negb _); [apply Hk|]. asks b Hb. apply Hk.
Qed.

Lemma revoke_safe r : safe pre good any [] (revoke (U:=U) sha256 r).
Proof.
  apply answering_safe. unfold revoking. destruct (presented _ _); [|done].
  apply refuse_all_safe, authenticate_safe. intros x [found|] _; cbn [refuse]; [|done].
  destruct (refuse _) as [presented'|]; [|done]. destruct (refuse _) as [hint|]; [|done].
  set (rest := fun done0 : bool => if done0 then _ else _).
  assert (H : forall did' b, safe pre good any did' (rest b)).
  { intros did' [|]; [done|]. apply revoke_access_safe. intros did'' [|]; [done|].
    case_match; [by apply revoke_refresh_safe|done]. }
  case_match; [by apply revoke_refresh_safe|apply (H _ false)].
Qed.

Lemma introspect_safe r : safe pre good any [] (introspect (U:=U) sha256 r).
Proof.
  apply answering_safe. unfold introspecting. destruct (presented _ _); [|done].
  apply refuse_all_safe. unfold authenticate_confidential. apply safely_bind, authenticate_safe.
  intros x [found|] _; [|done]. cbn [safe]. destruct (Clients.is_confidential found); cbn [refuse]; [|done].
  destruct (refuse _); [|done]. unfold now. asks t Ht. asks y Hy. destruct y as [[y|]|]; [done|..];
    (asks z Hz; by destruct z as [[]|]).
Qed.

Lemma guarded_safe needed r : safe pre good any [] (responding (U:=U) (guarded sha256 needed next r)).
Proof.
  apply safely_bind. unfold guarded, check. destruct (bearer r); [|done]. unfold validate_bearer, now.
  asks x Hx. destruct x as [[t|]|]; cbn [safe bind]; try done. asks y Hy. by destruct (Tokens.is_live t y).
Qed.

(** What a validated request to the authorization endpoint was. *)
Definition validated_from (p : list (list Z * list Z)) (a : Authorization) : Prop :=
  says p (lit "client_id") (Clients.id (auth_client a)) /\ says p (lit "redirect_uri") (auth_redirect_uri a) /\
  says p (lit "code_challenge") (auth_challenge a) /\ auth_challenge_method a = Pkce.S256 /\
  auth_scopes a ⊆ requested_scopes p /\ auth_scopes a ⊆ Clients.scopes (auth_client a) /\
  Clients.allows_redirect (auth_client a) (auth_redirect_uri a) = true.

Lemma pkce_says p ch m : pkce debug p = Ok (ch, m) -> says p (lit "code_challenge") ch /\ m = Pkce.S256.
Proof.
  unfold pkce, says. destruct (get (lit "code_challenge") p) as [[c|]|]; [|done..].
  destruct (get (lit "code_challenge_method") p) as [[raw|]|]; [|done..].
  destruct (Pkce.parse raw) as [[]|]; [|done..]. by intros [= <- <-].
Qed.

Lemma validated_says found uri p a :
  says p (lit "client_id") (Clients.id found) -> says p (lit "redirect_uri") uri ->
  Clients.allows_redirect found uri = true -> validated debug found uri p = Ok a ->
  validated_from p a /\ auth_client a = found /\ auth_redirect_uri a = uri.
Proof.
  intros Hc Hu Hr. unfold validated, bounce. destruct (get (lit "state") p); [|done].
  destruct (required (lit "response_type") p); [|done]. destruct (negb (bool_decide _)); [done|].
  destruct (pkce debug p) as [[ch m]|] eqn:Ep; [|done]. apply pkce_says in Ep as [Hch ->].
  destruct (get (lit "scope") p) as [raw|] eqn:Es; [|done]. destruct (negb _); [done|]. intros H. apply Ok_inj in H as <-.
  unfold validated_from. cbn [auth_client auth_redirect_uri auth_challenge auth_challenge_method auth_scopes].
  split; [|done]. split_and!; try done.
  - unfold requested_scopes. rewrite Es. destruct raw; apply intersection_subseteq_l.
  - apply intersection_subseteq_r.
Qed.

Lemma validate_safe {A} (Q : list entry -> A -> Prop) p (k : result Refusal Authorization -> prog A) :
  (forall did e, did = [] \/ (exists c x, did = [existT (OFindClient c) x] /\ good [] (OFindClient c) x) ->
     safe pre good Q did (k (Err e))) ->
  (forall c x a, x = Ok (Some (auth_client a)) -> good [] (OFindClient c) x -> validated_from p a ->
     safe pre good Q [existT (OFindClient c) x] (k (Ok a))) ->
  safe pre good Q [] (bind (validate debug p) k).
Proof.
  intros He Hk. unfold validate, locally. destruct (required (lit "client_id") p) as [cid|] eqn:Ec; [|by apply He; left].
  unfold client. asks x Hx. destruct x as [[found|]|]; cbn [safe bind]; [|apply He; eauto 6..].
  apply required_says in Ec. destruct (Hx found eq_refl) as [<- _].
  destruct (required (lit "redirect_uri") p) as [uri|] eqn:Eu; [|apply He; eauto 6]. apply required_says in Eu.
  cbn [bind]. destruct (Clients.allows_redirect found uri) eqn:Er; cbn [negb]; [|apply He; eauto 6].
  destruct (validated debug found uri p) as [a|] eqn:Ev; [|apply He; eauto 6].
  apply validated_says in Ev as (Hv & <- & <-); try done. by apply Hk.
Qed.
Lemma issue_code_safe did a user :
  (rq.1 = Authorize \/ rq.1 = Decide) -> identity rq.2 = Some user -> validated_from (params_of rq) a ->
  omap code_stored did = [] -> approved user (Clients.id (auth_client a)) (auth_scopes a) ->
  safe pre good any did (issue_code (U:=U) sha256 settings a user).
Proof.
  intros He Hid (Hc & Hu & Hch & Hm & Hs & _) Hn Ha. unfold issue_code, generate, now.
  asks b Hb. destruct Hb as [-> _]. asks t Ht. asks k Hk; [|by destruct k].
  cbn [pre code_for Codes.challenged Codes.granting Codes.redirecting_to Codes.for_user Codes.for_client Codes.issued
    Codes.hash Codes.family Codes.user_id Codes.client_id Codes.scopes].
  split_and!; [done|by eexists|done|by split_and!|done].
Qed.

Lemma show_safe : rq.1 = Authorize -> safe pre good any [] (responding (U:=U) (show sha256 debug settings csrf rq.2)).
Proof.
  intros Hrq. apply safely_bind. apply validate_safe; [done|]. intros c x a _ _ Hv.
  destruct (identity rq.2) as [user|] eqn:Eid; [|done]. unfold skips_consent.
  destruct (negb _); [done|]. asks y Hy. destruct y as [[g|]|]; [|done..].
  destruct (Scopes.covers _ _) eqn:Ec; [|done]. cbn [bind]. destruct (Hy g eq_refl) as (_ & _ & Hg).
  apply bool_decide_eq_true in Ec. eapply safely_mono; [done|]. apply issue_code_safe; try done; [by left| |].
  - unfold params_of. by rewrite Hrq.
  - by eapply approved_narrow.
Qed.

Lemma decide_safe : rq.1 = Decide -> arrived rq -> safe pre good any [] (responding (U:=U) (decide sha256 debug settings rq.2)).
Proof.
  intros Hrq Harr. apply safely_bind. unfold decide. apply validate_safe; [done|]. intros c x a _ _ Hv.
  destruct (identity rq.2) as [user|] eqn:Eid; [|done]. destruct (approves (from_body rq.2)) eqn:Ea; cbn [negb]; [|done].
  assert (Hok : approved user (Clients.id (auth_client a)) (auth_scopes a)).
  { apply (approved_decide rq); [done|]. destruct Hv as (Hc & _ & _ & _ & Hs & _). by split_and!. }
  unfold now. asks t Ht. asks y Hy. eapply safely_mono; [done|]. apply issue_code_safe; try done; [by right|].
  unfold params_of. by rewrite Hrq.
Qed.

Lemma purge_safe : safe pre good any [] (bind purge (fun _ => Ret (Answered (Response.new (U:=U) Status.NO_CONTENT)))).
Proof.
  unfold purge, purge_tokens, now. asks t Ht. asks x Hx. destruct x; [|done]. asks y Hy. destruct y; [|done]. asks z Hz.
  by destruct z.
Qed.

(** Whatever a request does is allowed. *)
Lemma handle_safe : arrived rq -> safe pre good any [] (handle sha256 debug settings csrf next rq.1 rq.2).
Proof.
  intros Harr. destruct (rq.1) eqn:E; cbn [handle].
  - by apply show_safe.
  - by apply decide_safe.
  - apply token_safe.
  - apply revoke_safe.
  - apply introspect_safe.
  - done.
  - apply guarded_safe.
  - apply purge_safe.
Qed.
End Protocol.

(** ** Every history is sound *)

Local Abbreviation happen := (happen (U:=U) sha256 debug settings csrf next random retention).
Local Abbreviation run := (run (U:=U) sha256 debug settings csrf next random retention).
Local Abbreviation history := (history (U:=U) sha256 debug settings csrf next random retention).
Local Abbreviation system := (system (U:=U)).

Definition arrived_in (s : system) (rq : Endpoint * Request) : Prop :=
  exists i th, threads s !! i = Some th /\ asked th = rq.
Definition drawn_in (s : system) (f : list Z) : Prop :=
  exists i th k, threads s !! i = Some th /\ (k < draws (did th))%nat /\ f = tok i k.
Definition approved_in (s : system) (u c : list Z) (sc : Scopes.Scopes) : Prop :=
  exists rq, arrived_in s rq /\ approves_grant rq u c sc.

(** The requests of [s] are in [s'], where they may have gone on. *)
Definition extends (s s' : system) : Prop :=
  forall i th, threads s !! i = Some th ->
    exists th', threads s' !! i = Some th' /\ asked th' = asked th /\ exists l, did th' = l ++ did th.

Lemma grows_refl s : extends s s.
Proof. intros i th H. exists th. split_and!; try done. by exists []. Qed.

Lemma extends_trans s1 s2 s3 : extends s1 s2 -> extends s2 s3 -> extends s1 s3.
Proof.
  intros H1 H2 i th Hi. destruct (H1 i th Hi) as (th' & Hi' & E' & l & El). destruct (H2 i th' Hi') as (th'' & Hi'' & E'' & l' & El').
  exists th''. split_and!; [done|by rewrite E''|]. exists (l' ++ l). by rewrite El', El, app_assoc.
Qed.

Lemma step_thread_extends i x w (th : thread (U:=U)) :
  let th' := (step_thread random retention i x w th).2 in asked th' = asked th /\ exists l, did th' = l ++ did th.
Proof.
  unfold step_thread. destruct (left th) as [a|o k]; [by split; [|exists []]|].
  destruct (perform _ _ _ _ _ _ _) as [a w']. split; [done|]. by eexists [_].
Qed.

Lemma happen_extends s v : extends s (happen s v).
Proof.
  intros i th Hi. destruct v as [e r|j x|t|c|id|c u]; cbn.
  - exists th. split_and!; [by apply lookup_app_l_Some|done|by exists []].
  - destruct (threads s !! j) as [thj|] eqn:Ej; [|by apply grows_refl].
    pose proof (step_thread_extends j x (state s) thj) as H. destruct (step_thread _ _ _ _ _ _) as [w' th'].
    destruct (base.decide (i = j)) as [->|Hne].
    + simplify_eq. exists th'. split; [|done]. apply list_lookup_insert_eq. by eapply lookup_lt_Some.
    + exists th. split_and!; [|done|by exists []]. cbn. by rewrite list_lookup_insert_ne by done.
  - by apply grows_refl.
  - destruct (Clients.register _ _ _); by apply grows_refl.
  - by apply grows_refl.
  - by apply grows_refl.
Qed.

Lemma run_extends s vs : extends s (run s vs).
Proof.
  revert s. induction vs as [|v vs IH]; intros s; [apply grows_refl|].
  apply (extends_trans _ (happen s v)); [apply happen_extends|apply IH].
Qed.

Lemma extends_arrived s s' rq : extends s s' -> arrived_in s rq -> arrived_in s' rq.
Proof. intros H (i & th & Hi & <-). destruct (H i th Hi) as (th' & Hi' & E & _). by exists i, th'. Qed.

Lemma draws_app l l' : draws (l ++ l') = (draws l + draws l')%nat.
Proof. unfold draws. by rewrite List.filter_app, length_app. Qed.

Lemma extends_drawn s s' f : extends s s' -> drawn_in s f -> drawn_in s' f.
Proof.
  intros H (i & th & k & Hi & Hk & ->). destruct (H i th Hi) as (th' & Hi' & _ & l & El).
  exists i, th', k. split_and!; [done| |done]. rewrite El, draws_app. lia.
Qed.

(** What a code, an access token and a refresh token become in the store. *)
Definition same_code (c0 c : Codes.AuthorizationCode) : Prop :=
  c = c0 \/ exists f, c = Codes.spend f c0.
Definition same_access (t0 t : Tokens.AccessToken) : Prop := t = t0 \/ t = Tokens.revoke t0.
Definition same_refresh (t0 t : Tokens.RefreshToken) : Prop :=
  Tokens.r_id t = Tokens.r_id t0 /\ Tokens.r_hash t = Tokens.r_hash t0 /\ Tokens.r_client_id t = Tokens.r_client_id t0 /\
  Tokens.r_user_id t = Tokens.r_user_id t0 /\ Tokens.r_scopes t = Tokens.r_scopes t0 /\ Tokens.r_family t = Tokens.r_family t0.

(** [A] was stored by request [i], which did it once. *)
Definition by_request {A} (kind : entry -> option A) (s : system) (i : nat) (a : A) : Prop :=
  exists th, threads s !! i = Some th /\ a ∈ omap kind (did th).

Section Final.
Context (S : system).
(** What every request comes to, whatever good answers it gets. *)
Context (Q : Endpoint * Request -> list entry -> outcome U -> Prop).

Local Abbreviation pre' i rq := (pre (approved_in S) (drawn_in S) i rq).
Local Abbreviation good' i := (good (approved_in S) (drawn_in S) (arrived_in S) i).

Record sound (s : system) : Prop := {
  clients_ok : forall id c, clients (state s) !! id = Some c -> Clients.id c = id /\ Clients.validate debug c = Ok tt;
  grants_ok : forall k g, grants (state s) !! k = Some g ->
    k = (Consent.client_id g, Consent.user_id g) /\ approved_in S (Consent.user_id g) (Consent.client_id g) (Consent.scopes g);
  codes_ok : forall h c, codes (state s) !! h = Some c -> exists i c0,
    by_request code_stored s i c0 /\ Codes.hash c0 = h /\ same_code c0 c /\ (forall f, Codes.family c = Some f -> drawn_in S f);
  access_ok : forall h t, Tokens.access (tokens (state s)) !! h = Some t -> exists i t0,
    by_request access_stored s i t0 /\ Tokens.hash t0 = h /\ same_access t0 t;
  refresh_ok : forall h t, Tokens.refresh (tokens (state s)) !! h = Some t -> exists i t0,
    by_request refresh_stored s i t0 /\ Tokens.r_hash t0 = h /\ same_refresh t0 t;
  threads_ok : forall i th, threads s !! i = Some th ->
    safe (pre' i (asked th)) (good' i) (Q (asked th)) (did th) (left th) /\
    logged (pre' i (asked th)) (good' i) (did th)
}.

Lemma by_request_extends {A} (kind : entry -> option A) s s' i a :
  extends s s' -> by_request kind s i a -> by_request kind s' i a.
Proof.
  intros H (th & Hi & Ha). destruct (H i th Hi) as (th' & Hi' & _ & l & El). exists th'. split; [done|].
  rewrite El, omap_app. apply elem_of_app. by right.
Qed.

(** What a request stored was allowed to be stored. *)
Lemma stored_allowed {A} (kind : entry -> option A) s i a : sound s -> by_request kind s i a ->
  exists th did' e, threads s !! i = Some th /\ e ∈ did th /\ kind e = Some a /\
    pre' i (asked th) did' (projT1 e) /\ good' i did' (projT1 e) (projT2 e).
Proof.
  intros Hs (th & Hi & Ha). apply list_elem_of_omap in Ha as (e & He & Hk).
  destruct (threads_ok s Hs i th Hi) as [_ Hl]. destruct (logged_elem _ _ _ _ Hl He) as (did' & Hp & Hg).
  by exists th, did', e.
Qed.

Lemma stored_code s i c0 : sound s -> by_request code_stored s i c0 ->
  exists th did', threads s !! i = Some th /\ pre' i (asked th) did' (OStoreCode c0).
Proof.
  intros Hs H. destruct (stored_allowed _ s i c0 Hs H) as (th & did' & [o x] & Hi & _ & Hk & Hp & _).
  exists th, did'. split; [done|]. unfold code_stored in Hk. cbn in *. destruct o; try done. by simplify_eq.
Qed.

Lemma stored_access s i t0 : sound s -> by_request access_stored s i t0 ->
  exists th did', threads s !! i = Some th /\ pre' i (asked th) did' (OStoreAccess t0).
Proof.
  intros Hs H. destruct (stored_allowed _ s i t0 Hs H) as (th & did' & [o x] & Hi & _ & Hk & Hp & _).
  exists th, did'. split; [done|]. unfold access_stored in Hk. cbn in *. destruct o; try done. by simplify_eq.
Qed.

Lemma stored_refresh s i t0 : sound s -> by_request refresh_stored s i t0 ->
  exists th did', threads s !! i = Some th /\ pre' i (asked th) did' (OStoreRefresh t0).
Proof.
  intros Hs H. destruct (stored_allowed _ s i t0 Hs H) as (th & did' & [o x] & Hi & _ & Hk & Hp & _).
  exists th, did'. split; [done|]. unfold refresh_stored in Hk. cbn in *. destruct o; try done. by simplify_eq.
Qed.

(** The codes of the store were asked for, and approved. *)
Lemma code_justified s h c : sound s -> extends s S -> codes (state s) !! h = Some c ->
  approved_in S (Codes.user_id c) (Codes.client_id c) (Codes.scopes c) /\
  exists rq, arrived_in S rq /\ asks_for rq c.
Proof.
  intros Hs He Hc. destruct (codes_ok s Hs h c Hc) as (i & c0 & Hby & _ & Hsame & _).
  destruct (stored_code s i c0 Hs Hby) as (th & did' & Hi & _ & _ & _ & Hask & Happ).
  destruct Hsame as [->|[f ->]]; (split; [done|]); (exists (asked th); split; [|done]);
    (apply (extends_arrived s); [done|]; by exists i, th).
Qed.

Lemma access_justified s h t : sound s -> Tokens.access (tokens (state s)) !! h = Some t ->
  drawn_in S (Tokens.family t) /\
  forall u, Tokens.user_id t = Some u -> approved_in S u (Tokens.client_id t) (Tokens.scopes t).
Proof.
  intros Hs Ht. destruct (access_ok s Hs h t Ht) as (i & t0 & Hby & _ & Hsame).
  destruct (stored_access s i t0 Hs Hby) as (th & did' & _ & _ & _ & _ & Hd & _ & Hu). by destruct Hsame as [->| ->].
Qed.

Lemma refresh_justified s h t : sound s -> Tokens.refresh (tokens (state s)) !! h = Some t ->
  drawn_in S (Tokens.r_family t) /\
  forall u, Tokens.r_user_id t = Some u -> approved_in S u (Tokens.r_client_id t) (Tokens.r_scopes t).
Proof.
  intros Hs Ht. destruct (refresh_ok s Hs h t Ht) as (i & t0 & Hby & _ & Hsame).
  destruct (stored_refresh s i t0 Hs Hby) as (th & did' & _ & _ & _ & _ & Hd & _ & _ & Hu).
  destruct Hsame as (_ & _ & -> & -> & -> & ->). done.
Qed.

(** The stores answer as the requests rely on. *)
Lemma perform_good s i x o (did : list entry) : sound s -> extends s S ->
  (o = ORandom 32 -> drawn_in S (tok i (draws did))) ->
  good' i did o (perform random retention i (draws did) x (state s) o).1.
Proof.
  intros Hs He Hd. destruct o; cbn; try done.
  - split; [done|]. intros ->. by apply Hd.
  - intros c. destruct x; cbn; [|done..]. intros [= Hc]. by apply (clients_ok s Hs).
  - destruct (Codes.consume hash family now0 (codes (state s))) as [c m] eqn:E. cbn.
    destruct x; cbn; [|done..]. unfold Codes.consume in E.
    destruct (codes (state s) !! hash) as [c0|] eqn:Ec; [|by simplify_eq].
    destruct (Codes.is_consumed c0); [|destruct (Codes.is_expired c0 now0)]; simplify_eq; [|done|].
    + intros f Hf. destruct (codes_ok s Hs hash c0 Ec) as (? & ? & _ & _ & _ & Hfam). by apply Hfam.
    + exact (code_justified s hash c0 Hs He Ec).
  - intros t. destruct x; cbn; [|done..]. intros [= Ht]. by apply (refresh_justified s hash).
  - intros g. destruct x; cbn; [|done..]. intros [= Hg]. destruct (grants_ok s Hs _ g Hg) as [E Ha]. by simplify_eq.
Qed.

(** A change outside the stores of codes and tokens. *)
Lemma sound_world s w' :
  sound s -> codes w' = codes (state s) -> tokens w' = tokens (state s) ->
  (forall id c, clients w' !! id = Some c -> Clients.id c = id /\ Clients.validate debug c = Ok tt) ->
  (forall k g, grants w' !! k = Some g ->
    k = (Consent.client_id g, Consent.user_id g) /\ approved_in S (Consent.user_id g) (Consent.client_id g) (Consent.scopes g)) ->
  sound (mkSystem w' (threads s)).
Proof.
  intros Hs Hc Ht Hcl Hg. constructor; cbn [state threads]; rewrite ?Hc, ?Ht; [done|done|..].
  - apply (codes_ok s Hs).
  - apply (access_ok s Hs).
  - apply (refresh_ok s Hs).
  - apply (threads_ok s Hs).
Qed.

Lemma approved_in_narrow s u c sc sc' : sc' ⊆ sc -> approved_in s u c sc -> approved_in s u c sc'.
Proof. intros Hsub (rq & Ha & H1 & H2 & H3 & H4 & H5). exists rq. unfold approves_grant. split_and!; [done..|]. by etrans. Qed.

Hypothesis Q_ok : forall i rq, safe (fun _ _ => True) (good' i) (Q rq) [] (handle sha256 debug settings csrf next rq.1 rq.2).

Lemma sound_arrives s e r : sound s -> extends (happen s (Arrives e r)) S -> sound (happen s (Arrives e r)).
Proof.
  intros Hs He. pose proof (happen_extends s (Arrives e r)) as Hgrow.
  constructor; cbn [happen OAuthServer.happen state].
  - apply (clients_ok s Hs).
  - apply (grants_ok s Hs).
  - intros h c Hc. destruct (codes_ok s Hs h c Hc) as (i & c0 & Hby & H). exists i, c0. split; [|done].
    revert Hby. by apply by_request_extends.
  - intros h t Ht. destruct (access_ok s Hs h t Ht) as (i & t0 & Hby & H). exists i, t0. split; [|done].
    revert Hby. by apply by_request_extends.
  - intros h t Ht. destruct (refresh_ok s Hs h t Ht) as (i & t0 & Hby & H). exists i, t0. split; [|done].
    revert Hby. by apply by_request_extends.
  - intros i th Hi. cbn in Hi. pose proof Hi as Hi'. apply lookup_app_Some in Hi as [Hi|[_ Hi]]; [by apply (threads_ok s Hs)|].
    destruct (i - length (threads s))%nat; [|done]. cbn in Hi. injection Hi as <-. split; [|done].
    apply safe_join; [|apply (Q_ok i (e, r))]. apply (handle_safe (approved_in S) (drawn_in S) (arrived_in S)); cbn.
    + apply approved_in_narrow.
    + intros rq u c sc Harr Hap. by exists rq.
    + apply (extends_arrived _ _ _ He). by exists i, (start sha256 debug settings csrf next e r).
Qed.

Lemma sound_steps s i x : sound s -> extends (happen s (Steps i x)) S -> sound (happen s (Steps i x)).
Proof.
  intros Hs He. pose proof (happen_extends s (Steps i x)) as Hgrow. cbn in *.
  destruct (threads s !! i) as [th|] eqn:Ei; [|done]. destruct (threads_ok s Hs i th Ei) as [Hsafe Hlog].
  unfold step_thread in *. destruct (left th) as [a|o k] eqn:El.
  { rewrite list_insert_id in * by done. by destruct s. }
  pose proof (perform_good s i x o (did th) Hs (extends_trans _ _ _ Hgrow He)) as Hgood.
  pose proof (perform_clients random retention i (draws (did th)) x (state s) o) as Hcl.
  pose proof (perform_grants random retention i (draws (did th)) x (state s) o) as Hgr.
  pose proof (perform_codes random retention i (draws (did th)) x (state s) o) as Hco.
  pose proof (perform_access random retention i (draws (did th)) x (state s) o) as Hac.
  pose proof (perform_refresh random retention i (draws (did th)) x (state s) o) as Hre.
  destruct (perform random retention i (draws (did th)) x (state s) o) as [a w'] eqn:Ep.
  cbn [fst snd] in *. set (th' := mkThread (asked th) (existT o a :: did th) (k a)) in *.
  assert (Hlt : (i < length (threads s))%nat) by by eapply lookup_lt_Some.
  assert (Hi' : <[i:=th']> (threads s) !! i = Some th') by by apply list_lookup_insert_eq.
  assert (Hga : good' i (did th) o a).
  { apply Hgood. intros ->. apply (extends_drawn _ _ _ He). exists i, th', (draws (did th)). split_and!; [done| |done].
    unfold draws; cbn; lia. }
  cbn [safe] in Hsafe. destruct Hsafe as [Hpre Hk].
  assert (Hnew : forall {A} (kind : entry -> option A) b, kind (existT o a) = Some b ->
    by_request kind (mkSystem w' (<[i:=th']> (threads s))) i b).
  { intros A kind b Hb. exists th'. split; [done|]. cbn. rewrite Hb. apply list_elem_of_here. }
  constructor; cbn [state threads].
  - rewrite Hcl. apply (clients_ok s Hs).
  - intros k' g Hg. apply Hgr in Hg as [Hg|[-> ->]]; [by apply (grants_ok s Hs)|done].
  - intros h c Hc. apply Hco in Hc as [Hc|[[-> ->]|(f & t & c0 & -> & Hc & Hf & ->)]].
    + destruct (codes_ok s Hs h c Hc) as (j & c0 & Hby & H). exists j, c0. split; [|done]. by eapply by_request_extends.
    + exists i, c. split_and!; [by apply Hnew|done|by left|]. destruct Hpre as (_ & _ & -> & _). done.
    + destruct (codes_ok s Hs h c0 Hc) as (j & c1 & Hby & Hh & [->|[f' ->]] & _); [|done].
      exists j, c1. split_and!; [by eapply by_request_extends|done|by right; exists f|]. intros f' [= <-]. exact Hpre.
  - intros h t Ht. apply Hac in Ht as [Ht|[[-> ->]|(t0 & Ht & ->)]].
    + destruct (access_ok s Hs h t Ht) as (j & t0 & Hby & H). exists j, t0. split; [|done]. by eapply by_request_extends.
    + exists i, t. split_and!; [by apply Hnew|done|by left].
    + destruct (access_ok s Hs h t0 Ht) as (j & t1 & Hby & H & Hsame). exists j, t1.
      split_and!; [by eapply by_request_extends|done|]. by destruct Hsame as [->| ->]; right.
  - intros h t Ht. apply Hre in Ht as [Ht|[[-> ->]|(t0 & Ht & Hor)]].
    + destruct (refresh_ok s Hs h t Ht) as (j & t0 & Hby & H). exists j, t0. split; [|done]. by eapply by_request_extends.
    + exists i, t. split_and!; [by apply Hnew|done|by split_and!].
    + destruct (refresh_ok s Hs h t0 Ht) as (j & t1 & Hby & H & Hsame). exists j, t1.
      split_and!; [by eapply by_request_extends|done|]. by destruct Hor as [->| ->].
  - intros j thj Hj. destruct (base.decide (j = i)) as [->|Hne].
    + rewrite Hi' in Hj. injection Hj as <-. split; [by apply Hk|done].
    + rewrite list_lookup_insert_ne in Hj by done. by apply (threads_ok s Hs).
Qed.

Lemma sound_happen s v : sound s -> extends (happen s v) S -> sound (happen s v).
Proof.
  intros Hs He. destruct v as [e r|i x|t|c|id|c u]; [by apply sound_arrives|by apply sound_steps|..]; cbn.
  - apply sound_world; try done; [apply (clients_ok s Hs)|apply (grants_ok s Hs)].
  - destruct (Clients.register debug c (clients (state s))) as [m|] eqn:E; [|done].
    apply sound_world; try done; [|apply (grants_ok s Hs)]. unfold Clients.register in E.
    destruct (Clients.validate debug c) as [[]|] eqn:Ev; [|done]. apply Ok_inj in E as <-. cbn.
    intros id c' Hc. apply lookup_insert_Some in Hc as [[<- <-]|[_ Hc]]; [done|by apply (clients_ok s Hs)].
  - apply sound_world; try done; [|apply (grants_ok s Hs)].
    intros id' c' Hc. cbn in Hc. unfold Clients.forget in Hc. apply lookup_delete_Some in Hc as [_ Hc]. by apply (clients_ok s Hs).
  - apply sound_world; try done; [apply (clients_ok s Hs)|].
    intros k g Hg. cbn in Hg. unfold Consent.forget in Hg. apply lookup_delete_Some in Hg as [_ Hg]. by apply (grants_ok s Hs).
Qed.

Lemma sound_run vs s : sound s -> extends (run s vs) S -> sound (run s vs).
Proof.
  revert s. induction vs as [|v vs IH]; intros s Hs He; [done|]. cbn in *. apply IH; [|done].
  apply sound_happen; [done|]. eapply extends_trans; [|exact He]. apply run_extends.
Qed.
End Final.

(** What is true of every history, with what was drawn, arrived and approved by then. *)
Lemma sound_history_as Q vs :
  (forall S i rq, safe (fun _ _ => True) (good (approved_in S) (drawn_in S) (arrived_in S) i) (Q rq) []
     (handle sha256 debug settings csrf next rq.1 rq.2)) ->
  sound (history vs) Q (history vs).
Proof. intros HQ. apply (sound_run _ _ (HQ _) vs empty); [by constructor|apply grows_refl]. Qed.

Lemma sound_history vs : sound (history vs) (fun _ _ _ => True) (history vs).
Proof. apply sound_history_as. intros S i rq. by apply safe_any. Qed.

End History.
End OAuthHistory.
