(* ===== verification/OAuthFreshness.v ===== *)
(** * What is used once

    Tokens, codes and families are drawn at random and found by their digests: no
    request stores at a place another one did. Codes are spent once, refresh
    tokens rotated once, and what was revoked stays revoked. *)

From S2P Require Import Prelude Text Base64 Url Headers Response Server OAuth OAuthStores OAuthServer OAuthProofs OAuthHistory.

Module OAuthFreshness.
Import OAuthServer OAuthProofs OAuthHistory.

(** What is relied on of SHA-256 and of the operating system's generator: no two
    texts with one digest, no value drawn twice. *)
Record ideal (sha256 : list Z -> list Z) (random : nat -> nat -> nat -> list Z) : Prop := {
  sha_bytes : forall a, bytes (sha256 a);
  sha_inj : forall a b, sha256 a = sha256 b -> a = b;
  random_bytes : forall i k n, bytes (random i k n);
  random_fresh : forall i k i' k' n, random i k n = random i' k' n -> i = i' /\ k = k' }.

Lemma encode_url_inj a b : bytes a -> bytes b -> Base64.encode_url a = Base64.encode_url b -> a = b.
Proof.
  intros Ha Hb E. unfold Base64.encode_url in E.
  pose proof (Base64.decode_encode_loop Base64.URL_SAFE Base64.readable_URL_SAFE false a 0 [] Ha (Z.le_refl 0)) as H1.
  pose proof (Base64.decode_encode_loop Base64.URL_SAFE Base64.readable_URL_SAFE false b 0 [] Hb (Z.le_refl 0)) as H2.
  rewrite E, H2 in H1. cbn in H1. congruence.
Qed.

Section Freshness.
Context (sha256 : list Z -> list Z) (debug : list Z -> list Z) (settings : Settings) {U : Type}.
Context (csrf : Request -> list Z) (next : Request -> TokenClaims -> Response.Response U).
Context (random : nat -> nat -> nat -> list Z) (retention : Z).

Local Abbreviation digest := (Clients.digest sha256).
Local Abbreviation happen := (happen (U:=U) sha256 debug settings csrf next random retention).
Local Abbreviation run := (run (U:=U) sha256 debug settings csrf next random retention).
Local Abbreviation history := (history (U:=U) sha256 debug settings csrf next random retention).
Local Abbreviation system := (system (U:=U)).
Local Abbreviation thread := (thread (U:=U)).

Context (Hideal : ideal sha256 random).

Lemma digest_inj a b : digest a = digest b -> a = b.
Proof. intros H. apply (sha_inj _ _ Hideal), hex_inj, H; apply (sha_bytes _ _ Hideal). Qed.

Lemma tok_inj i k i' k' : tok random i k = tok random i' k' -> i = i' /\ k = k'.
Proof. intros H. apply (random_fresh _ _ Hideal _ _ _ _ 32), encode_url_inj, H; apply (random_bytes _ _ Hideal). Qed.

Lemma ident_inj i k i' k' : ident random i k = ident random i' k' -> i = i' /\ k = k'.
Proof. intros H. apply (random_fresh _ _ Hideal _ _ _ _ 16), hex_inj, H; apply (random_bytes _ _ Hideal). Qed.

(** ** One event *)

(** What request [i] is after its next operation, and what that does to the world. *)
Definition performs (s : system) (i : nat) (x : weather) (th : thread) (o : op) (s' : system) : Prop :=
  exists k, left th = Do o k /\
    s' = mkSystem (perform random retention i (draws (did th)) x (state s) o).2
           (<[i := mkThread (asked th) (existT o (perform random retention i (draws (did th)) x (state s) o).1 :: did th)
                    (k (perform random retention i (draws (did th)) x (state s) o).1)]> (threads s)).

Lemma happen_cases s v :
  (exists i x th o, v = Steps i x /\ threads s !! i = Some th /\ performs s i x th o (happen s v)) \/
  (codes (state (happen s v)) = codes (state s) /\ tokens (state (happen s v)) = tokens (state s) /\
   forall i th, threads (happen s v) !! i = Some th -> threads s !! i = Some th \/
     (exists e r, v = Arrives e r /\ th = start sha256 debug settings csrf next e r)).
Proof.
  destruct v as [e r|i x|t|c|id|c u]; cbn.
  - right. split_and!; [done..|]. intros i th Hi. apply lookup_app_Some in Hi as [Hi|[_ Hi]]; [by left|right].
    destruct (i - length (threads s))%nat; [|done]. injection Hi as <-. by exists e, r.
  - destruct (threads s !! i) as [th|] eqn:Ei; [|right; split_and!; by auto].
    unfold step_thread. destruct (left th) as [a|o k] eqn:El.
    + right. rewrite list_insert_id by done. split_and!; by auto.
    + left. exists i, x, th, o. split_and!; [done..|]. exists k. split; [done|].
      by destruct (perform random retention i (draws (did th)) x (state s) o).
  - right. split_and!; by auto.
  - right. destruct (Clients.register _ _ _); split_and!; by auto.
  - right. split_and!; by auto.
  - right. split_and!; by auto.
Qed.

Lemma history_snoc vs v : history (vs ++ [v]) = happen (history vs) v.
Proof. unfold OAuthServer.history, OAuthServer.run. by rewrite fold_left_app. Qed.

(** Induction on a history: what one event preserves. *)
Lemma history_ind (P : system -> Prop) :
  P empty -> (forall vs v, P (history vs) -> P (history (vs ++ [v]))) -> forall vs, P (history vs).
Proof. intros H0 Hs vs. induction vs as [|v vs IH] using rev_ind; [done|by apply Hs]. Qed.

(** Who asked for an operation after the event did before, or it is the operation
    of the event. *)
Lemma performs_threads s i x th o s' : threads s !! i = Some th -> performs s i x th o s' ->
  forall j th', threads s' !! j = Some th' ->
    (j <> i /\ threads s !! j = Some th') \/
    (j = i /\ asked th' = asked th /\ did th' = existT o (perform random retention i (draws (did th)) x (state s) o).1 :: did th).
Proof.
  intros Hi (k & _ & ->) j th' Hj. cbn in Hj. destruct (base.decide (j = i)) as [->|Hne].
  - rewrite list_lookup_insert_eq in Hj by by eapply lookup_lt_Some. injection Hj as <-. by right.
  - rewrite list_lookup_insert_ne in Hj by done. by left.
Qed.

(** The next operation of a request is allowed. *)
Lemma performs_allowed S s i x th o s' : sound sha256 debug random S (fun _ _ _ => True) s ->
  threads s !! i = Some th -> performs s i x th o s' ->
  pre sha256 random (approved_in S) (drawn_in random S) i (asked th) (did th) o.
Proof.
  intros Hs Hi (k & Hl & _). destruct (threads_ok _ _ _ _ _ s Hs i th Hi) as [Hsafe _]. rewrite Hl in Hsafe. apply Hsafe.
Qed.

(** ** Logs *)

Definition in_log (P : entry -> Prop) (s : system) (i : nat) : Prop :=
  exists th e, threads s !! i = Some th /\ e ∈ did th /\ P e.

Lemma in_log_extends P s s' i : extends s s' -> in_log P s i -> in_log P s' i.
Proof.
  intros H (th & e & Hi & He & Hp). destruct (H i th Hi) as (th' & Hi' & _ & l & El). exists th', e.
  split_and!; [done| |done]. rewrite El. apply elem_of_app. by right.
Qed.

Lemma happen_log P s v i : in_log P (happen s v) i ->
  in_log P s i \/ exists x th o, v = Steps i x /\ threads s !! i = Some th /\ performs s i x th o (happen s v) /\
    P (existT o (perform random retention i (draws (did th)) x (state s) o).1).
Proof.
  intros (th' & e & Hi & He & Hp). destruct (happen_cases s v) as [(j & x & th & o & -> & Hj & Hperf)|(_ & _ & Hth)].
  - destruct (performs_threads _ _ _ _ _ _ Hj Hperf i th' Hi) as [[_ Hi']|(-> & _ & Ed)]; [by left; exists th', e|].
    rewrite Ed in He. apply elem_of_cons in He as [->|He]; [right; by exists x, th, o|]. left. by exists th, e.
  - destruct (Hth i th' Hi) as [Hi'|(e' & r & _ & ->)]; [by left; exists th', e|]. by apply elem_of_nil in He.
Qed.

(** A request stores one code, one access token and one refresh token at most. *)
Lemma logged_once {A} (kind : entry -> option A) pre good did a b :
  (forall did o x, is_Some (kind (existT o x)) -> pre did o -> omap kind did = []) ->
  logged pre good did -> a ∈ omap kind did -> b ∈ omap kind did -> a = b.
Proof.
  intros Hpre. induction did as [|[o x] did IH]; [by intros _ H%elem_of_nil|]. intros [[Hp _] Hl].
  change (omap kind (existT o x :: did)) with
    (match kind (existT o x) with Some y => y :: omap kind did | None => omap kind did end).
  destruct (kind (existT o x)) as [a'|] eqn:E; [|by apply IH].
  assert (Hn : omap kind did = []) by by eapply Hpre. rewrite Hn.
  intros Ha Hb. apply list_elem_of_singleton in Ha, Hb. by subst.
Qed.

Section Sound.
Context (S s : system).
Context (Hs : sound sha256 debug random S (fun _ _ _ => True) s).

Lemma code_by_unique i j c c' : by_request code_stored s i c -> by_request code_stored s j c' ->
  Codes.hash c = Codes.hash c' -> i = j.
Proof.
  intros Hi Hj E. destruct (stored_code _ _ _ _ _ _ _ _ Hs Hi) as (? & ? & _ & _ & (k & Ek) & _).
  destruct (stored_code _ _ _ _ _ _ _ _ Hs Hj) as (? & ? & _ & _ & (k' & Ek') & _).
  rewrite Ek, Ek' in E. by apply digest_inj, tok_inj in E as [-> _].
Qed.

Lemma refresh_once i t t' : by_request refresh_stored s i t -> by_request refresh_stored s i t' -> t = t'.
Proof.
  intros (th & Hi & Ht) (th' & Hi' & Ht'). assert (th' = th) as -> by congruence.
  destruct (threads_ok _ _ _ _ _ s Hs i th Hi) as [_ Hl]. eapply logged_once; [|exact Hl|done|done].
  intros did o x [b Hb] Hp. destruct o; try done. apply Hp.
Qed.

Lemma refresh_by_unique i j t t' : by_request refresh_stored s i t -> by_request refresh_stored s j t' ->
  Tokens.r_hash t = Tokens.r_hash t' \/ Tokens.r_id t = Tokens.r_id t' -> i = j /\ t = t'.
Proof.
  intros Hi Hj E. assert (i = j) as ->.
  { destruct (stored_refresh _ _ _ _ _ _ _ _ Hs Hi) as (? & ? & _ & _ & (k & Ek) & (l & El) & _).
    destruct (stored_refresh _ _ _ _ _ _ _ _ Hs Hj) as (? & ? & _ & _ & (k' & Ek') & (l' & El') & _).
    destruct E as [E|E]; [rewrite Ek, Ek' in E; by apply digest_inj, tok_inj in E as [-> _]|].
    rewrite El, El' in E. by apply ident_inj in E as [-> _]. }
  split; [done|]. by eapply refresh_once.
Qed.

Lemma access_by_unique i j t t' : by_request access_stored s i t -> by_request access_stored s j t' ->
  Tokens.hash t = Tokens.hash t' -> i = j.
Proof.
  intros Hi Hj E. destruct (stored_access _ _ _ _ _ _ _ _ Hs Hi) as (? & ? & _ & _ & (k & Ek) & _).
  destruct (stored_access _ _ _ _ _ _ _ _ Hs Hj) as (? & ? & _ & _ & (k' & Ek') & _).
  rewrite Ek, Ek' in E. by apply digest_inj, tok_inj in E as [-> _].
Qed.
End Sound.

(** Two access tokens with one identifier are in one place. *)
Lemma access_place (s : system) h h' t t' : sound sha256 debug random s (fun _ _ _ => True) s ->
  Tokens.access (tokens (state s)) !! h = Some t -> Tokens.access (tokens (state s)) !! h' = Some t' ->
  Tokens.id t = Tokens.id t' -> h = h'.
Proof.
  intros Hs Ht Ht' E. destruct (access_ok _ _ _ _ _ s Hs h t Ht) as (j & t0 & Hby & Hh & Hsame).
  destruct (access_ok _ _ _ _ _ s Hs h' t' Ht') as (j' & t0' & Hby' & Hh' & Hsame').
  assert (E0 : Tokens.id t0 = Tokens.id t0') by (by destruct Hsame as [->| ->], Hsame' as [->| ->]).
  destruct (stored_access _ _ _ _ _ _ _ _ Hs Hby) as (? & ? & _ & _ & _ & (k & Ek) & _).
  destruct (stored_access _ _ _ _ _ _ _ _ Hs Hby') as (? & ? & _ & _ & _ & (k' & Ek') & _).
  rewrite Ek, Ek' in E0. apply ident_inj in E0 as [<- _].
  assert (t0 = t0') as ->; [|congruence]. destruct Hby as (th & Hi & Hin), Hby' as (th' & Hi' & Hin').
  assert (th' = th) as -> by congruence. destruct (threads_ok _ _ _ _ _ s Hs j th Hi) as [_ Hl].
  eapply logged_once; [|exact Hl|done|done]. intros did o y [b Hb] Hp. destruct o; try done. apply Hp.
Qed.

(** A request yet to come draws what no store holds. *)
Lemma future_is_new (s : system) i k : sound sha256 debug random s (fun _ _ _ => True) s -> (length (threads s) <= i)%nat ->
  Tokens.access (tokens (state s)) !! digest (tok random i k) = None /\
  Tokens.refresh (tokens (state s)) !! digest (tok random i k) = None.
Proof.
  intros Hs Hi. split; apply eq_None_not_Some; intros [t Ht].
  - destruct (access_ok _ _ _ _ _ s Hs _ t Ht) as (j & t0 & Hby & Hh & _).
    destruct (stored_access _ _ _ _ _ _ _ _ Hs Hby) as (th & ? & Hj & _ & (k' & Ek) & _).
    rewrite Ek in Hh. apply digest_inj, tok_inj in Hh as [-> _]. apply lookup_lt_Some in Hj. lia.
  - destruct (refresh_ok _ _ _ _ _ s Hs _ t Ht) as (j & t0 & Hby & Hh & _).
    destruct (stored_refresh _ _ _ _ _ _ _ _ Hs Hby) as (th & ? & Hj & _ & (k' & Ek) & _).
    rewrite Ek in Hh. apply digest_inj, tok_inj in Hh as [-> _]. apply lookup_lt_Some in Hj. lia.
Qed.

(** ** Codes are spent once *)

Definition spent_by (h : list Z) : system -> nat -> Prop :=
  in_log (fun e => exists f c, spent e = Some (h, f, c)).

Definition codes_spent_once (s : system) : Prop :=
  (forall i h, spent_by h s i -> (exists j c0, by_request code_stored s j c0 /\ Codes.hash c0 = h) /\
     forall c, codes (state s) !! h = Some c -> Codes.is_consumed c = true) /\
  (forall i j h, spent_by h s i -> spent_by h s j -> i = j).

Lemma spent_kept s v i h : sound sha256 debug random s (fun _ _ _ => True) s -> codes_spent_once s -> spent_by h s i ->
  forall c, codes (state (happen s v)) !! h = Some c -> Codes.is_consumed c = true.
Proof.
  intros Hs [H1 _] Hi c Hc. destruct (H1 i h Hi) as [(j & c0 & Hby & Hh) Hold].
  destruct (happen_cases s v) as [(j' & x & th & o & -> & Hj & Hperf)|(Ec & _ & _)]; [|rewrite Ec in Hc; by apply Hold].
  pose proof (performs_allowed s s _ _ _ _ _ Hs Hj Hperf) as Hpre. destruct Hperf as (k & Hl & E). rewrite E in Hc. cbn in Hc.
  apply perform_codes in Hc as [Hc|[[-> ->]|(f & t & c1 & -> & Hc & _ & ->)]]; [by apply Hold| |done].
  exfalso. destruct Hpre as (Hnone & (n & Hn) & _). destruct (stored_code _ _ _ _ _ _ _ _ Hs Hby) as (? & ? & _ & _ & (k' & Ek') & _).
  rewrite Hh, Hn in Ek'. apply digest_inj, tok_inj in Ek' as [<- _]. destruct Hby as (th' & Hj'' & Hin).
  assert (th' = th) as -> by congruence. rewrite Hnone in Hin. by apply elem_of_nil in Hin.
Qed.

Lemma history_spent_once vs : codes_spent_once (history vs).
Proof.
  apply history_ind; [split; [by intros ? ? (th & e & Hi & _)|by intros ? ? ? (th & e & Hi & _)]|]. clear vs. intros vs v IH. rewrite history_snoc.
  pose proof (sound_history sha256 debug settings csrf next random retention vs) as Hs.
  set (s := history vs) in *. pose proof (happen_extends sha256 debug settings csrf next random retention s v) as Hex.
  assert (Hnew : forall i h x th o, v = Steps i x -> threads s !! i = Some th -> performs s i x th o (happen s v) ->
    (exists f c, spent (existT o (perform random retention i (draws (did th)) x (state s) o).1) = Some (h, f, c)) ->
    (exists j c0, by_request code_stored s j c0 /\ Codes.hash c0 = h) /\
    (forall c, codes (state (happen s v)) !! h = Some c -> Codes.is_consumed c = true) /\ forall j, ~ spent_by h s j).
  { intros i h x th o -> Hi (k & Hl & E) (f & c & Hsp). apply perform_spent in Hsp as (t & c0 & Ho & Hc0 & Hf & -> & Hc).
    destruct (codes_ok _ _ _ _ _ s Hs h c0 Hc0) as (j & c1 & Hby & Hh & _). split_and!.
    - by exists j, c1.
    - rewrite E. cbn. rewrite Hc. by intros c' [= <-].
    - intros j' Hj'. destruct (proj1 IH j' h Hj') as [_ Hall]. rewrite (Hall c0 Hc0) in Hf. done. }
  split.
  - intros i h Hi. destruct (happen_log _ _ _ _ Hi) as [Hold|(x & th & o & Hv & Hth & Hperf & Hsp)].
    + split; [|by eapply spent_kept]. destruct (proj1 IH i h Hold) as [(j & c0 & Hby & Hh) _].
      exists j, c0. split; [by eapply by_request_extends|done].
    + destruct (Hnew _ _ _ _ _ Hv Hth Hperf Hsp) as [(j & c0 & Hby & Hh) [Hc _]]. split; [|done].
      exists j, c0. split; [by eapply by_request_extends|done].
  - intros i j h Hi Hj.
    destruct (happen_log _ _ _ _ Hi) as [Hi'|(x & th & o & Hv & Hth & Hperf & Hsp)],
      (happen_log _ _ _ _ Hj) as [Hj'|(x' & th' & o' & Hv' & Hth' & Hperf' & Hsp')].
    + by apply (proj2 IH i j h).
    + by destruct (proj2 (proj2 (Hnew _ _ _ _ _ Hv' Hth' Hperf' Hsp')) i).
    + by destruct (proj2 (proj2 (Hnew _ _ _ _ _ Hv Hth Hperf Hsp)) j).
    + congruence.
Qed.

(** ** Refresh tokens are rotated once *)

Definition rotated_by (id : list Z) : system -> nat -> Prop := in_log (fun e => rotation e = Some id).

Definition tokens_rotated_once (s : system) : Prop :=
  (forall i id, rotated_by id s i -> (exists j t0, by_request refresh_stored s j t0 /\ Tokens.r_id t0 = id) /\
     forall h t, Tokens.refresh (tokens (state s)) !! h = Some t -> Tokens.r_id t = id -> Tokens.rotated t = true) /\
  (forall i j id, rotated_by id s i -> rotated_by id s j -> i = j).

(** A refresh token is stored where it was not. *)
Lemma stored_anew (s : system) i x th t s' j t0 : sound sha256 debug random s (fun _ _ _ => True) s ->
  threads s !! i = Some th -> performs s i x th (OStoreRefresh t) s' -> by_request refresh_stored s j t0 ->
  Tokens.r_id t0 <> Tokens.r_id t /\ Tokens.r_hash t0 <> Tokens.r_hash t.
Proof.
  intros Hs Hi Hperf Hby. pose proof (performs_allowed s s _ _ _ _ _ Hs Hi Hperf) as (Hnone & (n & Hn) & (m & Hm) & _).
  destruct (stored_refresh _ _ _ _ _ _ _ _ Hs Hby) as (? & ? & _ & _ & (k & Ek) & (l & El) & _).
  assert (Hne : j <> i).
  { intros ->. destruct Hby as (th' & Hi' & Hin). assert (th' = th) as -> by congruence. rewrite Hnone in Hin.
    by apply elem_of_nil in Hin. }
  split; intros E.
  - rewrite El, Hm in E. by apply ident_inj in E as [-> _].
  - rewrite Ek, Hn in E. by apply digest_inj, tok_inj in E as [-> _].
Qed.

(** Two refresh tokens with one identifier are in one place. *)
Lemma refresh_place (s : system) h h' t t' : sound sha256 debug random s (fun _ _ _ => True) s ->
  Tokens.refresh (tokens (state s)) !! h = Some t -> Tokens.refresh (tokens (state s)) !! h' = Some t' ->
  Tokens.r_id t = Tokens.r_id t' -> h = h'.
Proof.
  intros Hs Ht Ht' E. destruct (refresh_ok _ _ _ _ _ s Hs h t Ht) as (j & t0 & Hby & Hh & Hid & _).
  destruct (refresh_ok _ _ _ _ _ s Hs h' t' Ht') as (j' & t0' & Hby' & Hh' & Hid' & _).
  assert (t0 = t0') as -> by (eapply (refresh_by_unique s s Hs j j'); [done|done|right; congruence]). congruence.
Qed.

Lemma rotated_kept (s : system) v id : sound sha256 debug random s (fun _ _ _ => True) s ->
  (exists j t0, by_request refresh_stored s j t0 /\ Tokens.r_id t0 = id) ->
  (forall h t, Tokens.refresh (tokens (state s)) !! h = Some t -> Tokens.r_id t = id -> Tokens.rotated t = true) ->
  forall h t, Tokens.refresh (tokens (state (happen s v))) !! h = Some t -> Tokens.r_id t = id -> Tokens.rotated t = true.
Proof.
  intros Hs (j & t0 & Hby & Hid) Hold h t Ht Et.
  destruct (happen_cases s v) as [(i & x & th & o & -> & Hi & Hperf)|(_ & Ec & _)]; [|rewrite Ec in Ht; by eapply Hold].
  assert (Ho := Hperf). destruct Hperf as (k & Hl & E). rewrite E in Ht. cbn in Ht.
  apply perform_refresh in Ht as [Ht|[[-> ->]|(t1 & Ht & [->| ->])]]; [by eapply Hold| |by apply (Hold h t1)|done].
  destruct (stored_anew _ _ _ _ _ _ _ _ Hs Hi Ho Hby) as [H _]. congruence.
Qed.

Lemma history_rotated_once vs : tokens_rotated_once (history vs).
Proof.
  apply history_ind; [split; [by intros ? ? (th & e & Hi & _)|by intros ? ? ? (th & e & Hi & _)]|].
  clear vs. intros vs v IH. rewrite history_snoc.
  pose proof (sound_history sha256 debug settings csrf next random retention vs) as Hs.
  set (s := history vs) in *. pose proof (happen_extends sha256 debug settings csrf next random retention s v) as Hex.
  assert (Hnew : forall i id x th o, v = Steps i x -> threads s !! i = Some th -> performs s i x th o (happen s v) ->
    rotation (existT o (perform random retention i (draws (did th)) x (state s) o).1) = Some id ->
    (exists j t0, by_request refresh_stored s j t0 /\ Tokens.r_id t0 = id) /\
    (forall h t, Tokens.refresh (tokens (state (happen s v))) !! h = Some t -> Tokens.r_id t = id -> Tokens.rotated t = true) /\
    forall j, ~ rotated_by id s j).
  { intros i id x th o -> Hi (k & Hl & E) Hrot. apply perform_rotation in Hrot as (Ho & h & t & Ht & Hid & Hr & Hw).
    destruct (refresh_ok _ _ _ _ _ s Hs h t Ht) as (j & t0 & Hby & _ & Hid0 & _). split_and!.
    - exists j, t0. split; [done|congruence].
    - rewrite E. cbn. rewrite Hw. intros h' t' Ht' Hid'. apply lookup_insert_Some in Ht' as [[_ <-]|[Hne Ht']]; [done|].
      exfalso. apply Hne. eapply refresh_place; [done..|congruence].
    - intros j' Hj'. destruct (proj1 IH j' id Hj') as [_ Hall]. rewrite (Hall h t Ht Hid) in Hr. done. }
  split.
  - intros i id Hi. destruct (happen_log _ _ _ _ Hi) as [Hold|(x & th & o & Hv & Hth & Hperf & Hsp)].
    + destruct (proj1 IH i id Hold) as [Hby Hall]. split; [|by eapply rotated_kept].
      destruct Hby as (j & t0 & Hby & Hid). exists j, t0. split; [by eapply by_request_extends|done].
    + destruct (Hnew _ _ _ _ _ Hv Hth Hperf Hsp) as [(j & t0 & Hby & Hid) [Hall _]]. split; [|done].
      exists j, t0. split; [by eapply by_request_extends|done].
  - intros i j id Hi Hj.
    destruct (happen_log _ _ _ _ Hi) as [Hi'|(x & th & o & Hv & Hth & Hperf & Hsp)],
      (happen_log _ _ _ _ Hj) as [Hj'|(x' & th' & o' & Hv' & Hth' & Hperf' & Hsp')].
    + by apply (proj2 IH i j id).
    + by destruct (proj2 (proj2 (Hnew _ _ _ _ _ Hv' Hth' Hperf' Hsp')) i).
    + by destruct (proj2 (proj2 (Hnew _ _ _ _ _ Hv Hth Hperf Hsp)) j).
    + congruence.
Qed.

(** What is found under one digest has one identifier, whenever it is found. *)
Lemma history_found vs : forall i h t, in_log (fun e => refresh_found e = Some (h, t)) (history vs) i ->
  exists j t0, by_request refresh_stored (history vs) j t0 /\ Tokens.r_hash t0 = h /\ Tokens.r_id t0 = Tokens.r_id t.
Proof.
  apply (history_ind (fun s => forall i h t, in_log (fun e => refresh_found e = Some (h, t)) s i ->
    exists j t0, by_request refresh_stored s j t0 /\ Tokens.r_hash t0 = h /\ Tokens.r_id t0 = Tokens.r_id t)).
  { by intros i h t (th & e & Hi & _). }
  clear vs. intros vs v IH. rewrite history_snoc.
  pose proof (sound_history sha256 debug settings csrf next random retention vs) as Hs.
  set (s := history vs) in *. pose proof (happen_extends sha256 debug settings csrf next random retention s v) as Hex.
  intros i h t Hi. assert (H : exists j t0, by_request refresh_stored s j t0 /\ Tokens.r_hash t0 = h /\ Tokens.r_id t0 = Tokens.r_id t).
  { destruct (happen_log _ _ _ _ Hi) as [Hold|(x & th & o & _ & _ & _ & Hf)]; [by apply (IH i)|].
    apply perform_found in Hf. destruct (refresh_ok _ _ _ _ _ s Hs h t Hf) as (j & t0 & Hby & Hh & Hid & _). by exists j, t0. }
  destruct H as (j & t0 & Hby & H). exists j, t0. split; [by eapply by_request_extends|done].
Qed.

(** ** What was revoked *)

Definition finished (th : thread) : Prop := exists a, left th = Ret a.

(** No token of a family is usable. *)
Definition dead (f : list Z) (w : world) : Prop :=
  (forall h t, Tokens.access (tokens w) !! h = Some t -> Tokens.family t = f -> Tokens.revoked t = true) /\
  (forall h t, Tokens.refresh (tokens w) !! h = Some t -> Tokens.r_family t = f -> Tokens.r_revoked t = true).

(** Nobody who is still at work may issue into the family. *)
Definition quiet (f : list Z) (s : system) : Prop :=
  forall i th, threads s !! i = Some th -> finished th \/ ~ may_issue random i f (did th).

Lemma dead_quiet_step vs f v : let s := history vs in
  drawn_in random s f -> dead f (state s) -> quiet f s -> dead f (state (happen s v)) /\ quiet f (happen s v).
Proof.
  cbn zeta. intros Hd Hdead Hq. pose proof (sound_history sha256 debug settings csrf next random retention vs) as Hs.
  set (s := history vs) in *. destruct (happen_cases s v) as [(i & x & th & o & -> & Hi & Hperf)|(_ & Et & Hth)].
  - pose proof (performs_allowed s s _ _ _ _ _ Hs Hi Hperf) as Hpre.
    pose proof (performs_threads _ _ _ _ _ _ Hi Hperf) as Hth. destruct Hperf as (k & Hl & E).
    assert (Hno : ~ may_issue random i f (did th)) by (destruct (Hq i th Hi) as [[a Ha]|]; [congruence|done]).
    assert (Hst : state (happen s (Steps i x)) = (perform random retention i (draws (did th)) x (state s) o).2) by by rewrite E.
    rewrite Hst. split; [split|].
    + intros h t Ht Hf. apply perform_access in Ht as [Ht|[[-> _]|(t0 & Ht & ->)]]; [by eapply (proj1 Hdead)| |done].
      destruct Hpre as (_ & _ & _ & _ & Hmay & _). by rewrite Hf in Hmay.
    + intros h t Ht Hf. apply perform_refresh in Ht as [Ht|[[-> _]|(t0 & Ht & [->| ->])]];
        [by eapply (proj2 Hdead)| |done|by apply (proj2 Hdead h t0)].
      destruct Hpre as (_ & _ & _ & _ & Hmay & _). by rewrite Hf in Hmay.
    + intros j th' Hj. destruct (Hth j th' Hj) as [[_ Hj']|(-> & _ & Ed)]; [by apply Hq|]. right. rewrite Ed. clear Hth.
      intros [Hrev Hor]. apply Forall_cons_iff in Hrev as [_ Hrev]. apply Hno. split; [done|].
      destruct Hor as [(k' & Hk' & Hf)|(e & h & t & He & Hf & Hfam & Hr)].
      * left. exists k'. split; [|done]. unfold draws in Hk'. cbn [List.filter] in Hk'.
        destruct (is_draw _) in Hk'; cbn [length] in Hk'; [|exact Hk'].
        destruct (base.decide (k' = draws (did th))) as [->|Hne]; [|unfold draws in *; lia].
        destruct Hd as (i0 & th0 & k0 & Hi0 & Hk0 & Hf0). rewrite Hf0 in Hf. apply tok_inj in Hf as [-> ->].
        assert (th0 = th) as -> by congruence. lia.
      * apply elem_of_cons in He as [->|He]; [|right; by exists e, h, t].
        apply perform_found in Hf. rewrite (proj2 Hdead h t Hf Hfam) in Hr. done.
  - split; [unfold dead; by rewrite Et|]. intros i th Hi. destruct (Hth i th Hi) as [Hi'|(e & r & _ & ->)]; [by apply Hq|].
    right. intros [_ [(k & Hk & _)|(e' & h & t & He & _)]]; [cbn in Hk; lia|by apply elem_of_nil in He].
Qed.

Lemma history_app vs vs' : history (vs ++ vs') = run (history vs) vs'.
Proof. unfold OAuthServer.history, OAuthServer.run. by rewrite fold_left_app. Qed.

(** A family that is dead and that nobody at work may issue into stays dead. *)
Lemma dead_forever vs vs' f :
  drawn_in random (history vs) f -> dead f (state (history vs)) -> quiet f (history vs) ->
  dead f (state (run (history vs) vs')).
Proof.
  intros Hd Hdead Hq. rewrite <- history_app.
  assert (H : dead f (state (history (vs ++ vs'))) /\ quiet f (history (vs ++ vs'))); [|by apply H].
  induction vs' as [|v vs' IH] using rev_ind; [by rewrite app_nil_r|]. rewrite app_assoc, history_snoc.
  apply dead_quiet_step; [|by apply IH..]. rewrite history_app. eapply extends_drawn; [apply run_extends|done].
Qed.

(** ** What was revoked is never usable again *)

Lemma revoked_access_kept vs vs' h t t' :
  Tokens.access (tokens (state (history vs))) !! h = Some t -> Tokens.revoked t = true ->
  Tokens.access (tokens (state (run (history vs) vs'))) !! h = Some t' -> Tokens.revoked t' = true.
Proof.
  intros Ht Hr. rewrite <- history_app.
  assert (H : (exists i t0, by_request access_stored (history (vs ++ vs')) i t0 /\ Tokens.hash t0 = h) /\
    forall t, Tokens.access (tokens (state (history (vs ++ vs')))) !! h = Some t -> Tokens.revoked t = true).
  { clear t'. induction vs' as [|v vs' IH] using rev_ind.
    { rewrite app_nil_r. split; [|intros t'; congruence].
      destruct (access_ok _ _ _ _ _ _ (sound_history sha256 debug settings csrf next random retention vs) h t Ht)
        as (i & t0 & Hby & Hh & _). by exists i, t0. }
    rewrite app_assoc, history_snoc. pose proof (sound_history sha256 debug settings csrf next random retention (vs ++ vs')) as Hs.
    set (s := history (vs ++ vs')) in *. destruct IH as [(i & t0 & Hby & Hh) IH]. split.
    { pose proof (happen_extends sha256 debug settings csrf next random retention s v). exists i, t0. split; [|done].
      by eapply by_request_extends. }
    intros t' Ht'. destruct (happen_cases s v) as [(j & x & th & o & -> & Hj & Hperf)|(_ & E & _)]; [|rewrite E in Ht'; by apply IH].
    pose proof (performs_allowed s s _ _ _ _ _ Hs Hj Hperf) as Hpre. destruct Hperf as (k & Hl & E). rewrite E in Ht'. cbn in Ht'.
    apply perform_access in Ht' as [Ht'|[[-> ->]|(t1 & Ht' & ->)]]; [by apply IH| |done].
    destruct Hpre as (Hnone & (n & Hn) & _). destruct (stored_access _ _ _ _ _ _ _ _ Hs Hby) as (? & ? & _ & _ & (k' & Ek') & _).
    rewrite Hh, Hn in Ek'. apply digest_inj, tok_inj in Ek' as [<- _]. destruct Hby as (th' & Hj' & Hin).
    assert (th' = th) as -> by congruence. rewrite Hnone in Hin. by apply elem_of_nil in Hin. }
  apply H.
Qed.

End Freshness.
End OAuthFreshness.
