(* ===== verification/OAuthAnswers.v ===== *)
(** * What the endpoints answer

    What a request was answered says what the stores answered it: tokens go to
    whoever proved what the grant asks for, a credential presented again is
    reported to the whole family, redirects go where a client registered. *)

From S2P Require Import Prelude Text Base64 Url Headers Response Server OAuth OAuthStores OAuthServer OAuthProofs OAuthHistory.

Module OAuthAnswers.
Import OAuthServer OAuthProofs OAuthHistory.

(** ** What a log shows *)

(** A sign that a credential was presented again, with the family to revoke: a
    code that was spent before, a refresh token that was rotated before. *)
Definition reuse_seen (e : entry) : option (list Z) :=
  let '(existT o x) := e in
  match o return answer o -> option (list Z) with
  | OConsume _ _ _ => fun x => match x with Ok (Codes.Replayed f) => f | _ => None end
  | OFindRefresh _ => fun x => match x with Ok (Some t) => if Tokens.rotated t then Some (Tokens.r_family t) else None | _ => None end
  | _ => fun _ => None
  end x.

(** The access and refresh tokens of a family were asked to be revoked, and what
    the store said. *)
Definition access_revocation (e : entry) : option (list Z * stored nat) :=
  let '(existT o x) := e in
  match o return answer o -> option (list Z * stored nat) with
  | ORevokeFamilyAccess f => fun x => Some (f, x)
  | _ => fun _ => None
  end x.
Definition refresh_revocation (e : entry) : option (list Z * stored nat) :=
  let '(existT o x) := e in
  match o return answer o -> option (list Z * stored nat) with
  | ORevokeFamilyRefresh f => fun x => Some (f, x)
  | _ => fun _ => None
  end x.

Definition shows {A} (kind : entry -> option A) (did : list entry) (a : A) : Prop := exists e, e ∈ did /\ kind e = Some a.

Lemma shows_here {A} (kind : entry -> option A) e did a : kind e = Some a -> shows kind (e :: did) a.
Proof. intros H. exists e. split; [apply list_elem_of_here|done]. Qed.

Lemma shows_further {A} (kind : entry -> option A) e did a : shows kind did a -> shows kind (e :: did) a.
Proof. intros (e' & He & H). exists e'. split; [by apply list_elem_of_further|done]. Qed.

Lemma shows_cons {A} (kind : entry -> option A) e did a :
  shows kind (e :: did) a <-> kind e = Some a \/ shows kind did a.
Proof.
  split; [|intros [H|H]; [by apply shows_here|by apply shows_further]].
  intros (e' & He & H). apply elem_of_cons in He as [->|He]; [by left|right; by exists e'].
Qed.

Lemma shows_nil {A} (kind : entry -> option A) a : ~ shows kind [] a.
Proof. intros (e & He & _). by apply elem_of_nil in He. Qed.

Section Answers.
Context (sha256 : list Z -> list Z) (debug : list Z -> list Z) (settings : Settings) {U : Type}.
Context (csrf : Request -> list Z) (next : Request -> TokenClaims -> Response.Response U).

Local Abbreviation digest := (Clients.digest sha256).

(** ** What tokens are given for *)

(** The client proved to be who it says: by its secret, or by having none. *)
Definition authentic (c : Credentials) (found : Clients.Client) : Prop :=
  match secret c with
  | Some s => exists stored, Clients.secret_hash found = Some stored /\ digest s = stored
  | None => Clients.secret_hash found = None
  end.

Definition code_given_for (p : list (list Z * list Z)) (found : Clients.Client) (did : list entry) : Prop :=
  exists presented uri verifier f c,
    says p (lit "code") presented /\ says p (lit "redirect_uri") uri /\ says p (lit "code_verifier") verifier /\
    shows spent did (digest presented, f, c) /\ Codes.client_id c = Clients.id found /\ Codes.redirect_uri c = uri /\
    Pkce.verify sha256 verifier (Codes.challenge c) (Codes.challenge_method c) = true.

Definition refresh_given_for (p : list (list Z * list Z)) (found : Clients.Client) (did : list entry) : Prop :=
  exists presented t, says p (lit "refresh_token") presented /\ shows refresh_found did (digest presented, t) /\
    Tokens.r_client_id t = Clients.id found /\ shows rotation did (Tokens.r_id t).

Definition granted (r : Request) (did : list entry) : Prop :=
  let p := from_body r in
  exists c found, presented r p = Ok c /\ shows client_looked_up did (cred_id c, found) /\ authentic c found /\
    ((says p (lit "grant_type") (lit "authorization_code") /\ code_given_for p found did) \/
     (says p (lit "grant_type") (lit "refresh_token") /\ refresh_given_for p found did) \/
     (says p (lit "grant_type") (lit "client_credentials") /\ Clients.is_confidential found = true)).

(** A reuse that was seen was refused, once the family was revoked (unless a
    store failed). *)
Definition reported (did : list entry) : Prop :=
  forall f, shows reuse_seen did f ->
    exists n, shows access_revocation did (f, n) /\ forall m, n = Ok m -> exists n', shows refresh_revocation did (f, n').

(** What the token endpoint answers. *)
Definition token_answer (rq : Endpoint * Request) (did : list entry) (out : outcome U) : Prop :=
  rq.1 = Token -> reported did /\
    forall r, out = Answered r -> Response.status r = 200 -> granted rq.2 did /\ forall f, ~ shows reuse_seen did f.

Section Token.
Context (good : list entry -> forall o, answer o -> Prop).
Local Abbreviation whatever := (fun (_ : list entry) (_ : op) => True).

Definition calm (did : list entry) : Prop := forall f, ~ shows reuse_seen did f.

Lemma calm_nil : calm [].
Proof. intros f. apply shows_nil. Qed.

Lemma calm_cons e did : reuse_seen e = None -> calm did -> calm (e :: did).
Proof. intros He Hd f [H|H]%shows_cons; [congruence|by apply (Hd f)]. Qed.

(** Nothing of what was asked since shows a reuse. *)
Ltac calm := repeat first [assumption | apply calm_cons; [reflexivity|]].

Lemma calm_reported did : calm did -> reported did.
Proof. intros H f Hf. by destruct (H f). Qed.

(** A reuse is reported once both halves of its family were revoked. *)
Lemma reported_after did f : calm did -> forall e, reuse_seen e = Some f ->
  forall did', (exists n, shows access_revocation (did' ++ e :: did) (f, n) /\
    forall m, n = Ok m -> exists n', shows refresh_revocation (did' ++ e :: did) (f, n')) ->
  Forall (fun e => reuse_seen e = None) did' -> reported (did' ++ e :: did).
Proof.
  intros Hd e He did' H Hn f' (e' & Hin & Hf). apply elem_of_app in Hin as [Hin|Hin].
  - eapply Forall_forall in Hn; [|by apply list_elem_of_In]. by rewrite Hn in Hf.
  - apply elem_of_cons in Hin as [->|Hin]; [|by destruct (Hd f'); exists e'].
    assert (f' = f) as -> by congruence. done.
Qed.

Ltac asks x Hx := cbn [safe bind ask]; split; [exact I|intros x Hx].

(** What [issue] asks for shows nothing. *)
Definition of_issue (o : op) : bool :=
  match o with ORandom _ | ONow | OStoreAccess _ | OStoreRefresh _ => true | _ => false end.

Lemma issue_keeps (P : list entry -> Prop) did c u s f wr :
  (forall o x did, of_issue o = true -> P did -> P (existT o x :: did)) -> P did ->
  safe whatever good (fun did _ => P did) did (issue sha256 settings c u s f wr).
Proof.
  intros HP Hd. unfold issue, now, generate, identifier. asks t Ht. asks b Hb. asks b' Hb'. asks a Ha.
  assert (H4 : P (existT (OStoreAccess _) a :: existT (ORandom 16) b' :: existT (ORandom 32) b :: existT ONow t :: did))
    by by repeat apply HP.
  destruct a; [|exact H4]. destruct wr; [|exact H4]. asks c' Hc. asks c'' Hc'. asks r Hr.
  destruct r; cbn [safe]; repeat apply HP; done.
Qed.

Lemma calm_issue o x did : of_issue o = true -> calm did -> calm (existT o x :: did).
Proof. intros Ho. apply calm_cons. by destruct o. Qed.

(** How a grant ends: reported, and with what it was given for if it gave tokens. *)
Definition ends (given : list entry -> Prop) (did : list entry)
    (res : result OAuthError.OAuthError TokenResponse.TokenResponse) : Prop :=
  reported did /\ match res with Ok _ => given did /\ calm did | Err _ => True end.

Lemma store_failed_ends given did p :
  (forall o x did, of_issue o = true -> given did -> given (existT o x :: did)) -> given did -> calm did ->
  safe whatever good (fun did _ => given did /\ calm did) did p ->
  safe whatever good (ends given) did (store_failed p).
Proof.
  intros Hg H1 H2 Hp. apply safely_bind. revert Hp. apply safely_mono. intros did' [a|] [H3 H4]; cbn [safe];
    split; by (apply calm_reported || done).
Qed.

Lemma issue_ends given did c u s f wr :
  (forall o x did, of_issue o = true -> given did -> given (existT o x :: did)) -> given did -> calm did ->
  safe whatever good (ends given) did (store_failed (issue sha256 settings c u s f wr)).
Proof.
  intros Hg H1 H2. apply store_failed_ends; try done. apply issue_keeps; [|done].
  intros o x did' Ho [H3 H4]. split; [by apply Hg|by apply calm_issue].
Qed.

(** Revoking the family of a reuse, and refusing. *)
Lemma revoke_family_ends given did e f err :
  calm did -> reuse_seen e = Some f ->
  safe whatever good (ends given) (e :: did) (bind (revoke_family f) (fun _ => Ret (Err err))).
Proof.
  intros Hd He. unfold revoke_family, revoke_tokens. asks n Hn.
  destruct n as [n|n]; [asks m Hm; destruct m as [m|m]|]; cbn [safe bind]; (split; [|done]).
  1-2: apply (reported_after did f Hd e He [_; _]); [|by repeat constructor];
    eexists; split; [apply shows_further, shows_here; done|intros ? _; eexists; apply shows_here; done].
  apply (reported_after did f Hd e He [_]); [|by repeat constructor]. eexists. split; [apply shows_here; done|done].
Qed.

Lemma calm_ends given did err : calm did -> ends given did (Err err).
Proof. intros H. split; [by apply calm_reported|done]. Qed.

Lemma code_given_cons p found o x did : of_issue o = true -> code_given_for p found did -> code_given_for p found (existT o x :: did).
Proof.
  intros _ (pr & uri & v & f & c & H1 & H2 & H3 & H4 & H5). exists pr, uri, v, f, c. split_and!; try done; [|apply H5..].
  by apply shows_further.
Qed.

Lemma refresh_given_cons p found o x did : of_issue o = true -> refresh_given_for p found did -> refresh_given_for p found (existT o x :: did).
Proof.
  intros _ (pr & t & H1 & H2 & H3 & H4). exists pr, t. split_and!; try done; by apply shows_further.
Qed.

Lemma authorization_code_ends did found p : calm did ->
  safe whatever good (ends (code_given_for p found)) did (authorization_code sha256 settings found p).
Proof.
  intros Hd. unfold authorization_code.
  destruct (required (lit "code") p) as [presented|] eqn:E1; [|by apply calm_ends].
  destruct (required (lit "redirect_uri") p) as [uri|] eqn:E2; [|by apply calm_ends]. apply required_says in E1, E2.
  destruct (get (lit "code_verifier") p) as [[verifier|]|] eqn:E3; [|by apply calm_ends..].
  unfold generate, now. asks b Hb. asks t Ht. asks x Hx. set (did1 := existT ONow t :: existT (ORandom 32) b :: did).
  assert (H1 : calm did1) by by repeat apply calm_cons.
  destruct x as [[code|f| |]|]; cbn [safe bind]; try (apply calm_ends; by apply calm_cons).
  - assert (H2 : calm (existT (OConsume (digest presented) (Base64.encode_url b) t) (Ok (Codes.Fresh code)) :: did1))
      by by apply calm_cons.
    destruct (bool_decide (Codes.client_id code = _)) eqn:Ec; cbn [negb]; [|by apply calm_ends].
    destruct (bool_decide (Codes.redirect_uri code = _)) eqn:Eu; cbn [negb]; [|by apply calm_ends].
    destruct (Pkce.verify _ _ _ _) eqn:Ev; cbn [negb]; [|by apply calm_ends].
    destruct (narrowed _ _); [|by apply calm_ends]. apply bool_decide_eq_true in Ec, Eu.
    apply issue_ends; [by apply code_given_cons| |done].
    exists presented, uri, verifier, (Base64.encode_url b), code. split_and!; try done. by apply shows_here.
  - destruct f as [f|]; [by apply revoke_family_ends|]. apply calm_ends. by apply calm_cons.
Qed.

Lemma refresh_token_ends did found p : calm did ->
  safe whatever good (ends (refresh_given_for p found)) did (refresh_token sha256 settings found p).
Proof.
  intros Hd. unfold refresh_token. destruct (required (lit "refresh_token") p) as [presented|] eqn:E1; [|by apply calm_ends].
  apply required_says in E1. asks x Hx. destruct x as [[r|]|]; cbn [safe bind]; try (apply calm_ends; by apply calm_cons).
  set (e1 := existT (OFindRefresh (digest presented)) (Ok (Some r)) : entry).
  destruct (Tokens.rotated r) eqn:Er.
  { assert (He : reuse_seen e1 = Some (Tokens.r_family r)) by (cbn; by rewrite Er).
    destruct (bool_decide (Tokens.r_client_id r = _)); cbn [negb]; by apply revoke_family_ends. }
  assert (H1 : calm (e1 :: did)) by (apply calm_cons; [cbn; by rewrite Er|done]).
  assert (Hquiet : forall f err, safe whatever good (ends (refresh_given_for p found)) (e1 :: did)
    (bind (revoke_family f) (fun _ => Ret (Err err)))).
  { intros f err. unfold revoke_family, revoke_tokens. asks n Hn.
    destruct n; [asks m Hm; destruct m|]; apply calm_ends; calm. }
  destruct (bool_decide (Tokens.r_client_id r = _)) eqn:Ec; cbn [negb]; [|by apply Hquiet]. apply bool_decide_eq_true in Ec.
  destruct (Tokens.r_revoked r); [by apply calm_ends|]. unfold now. asks t Ht.
  assert (H2 : calm (existT ONow t :: e1 :: did)) by by apply calm_cons.
  destruct (_ <=? t); [by apply calm_ends|]. asks y Hy.
  destruct y as [[]|]; cbn [safe bind negb]; [| |apply calm_ends; calm].
  - asks z Hz. destruct z as [z|]; cbn [safe bind]; [|apply calm_ends; calm].
    destruct (narrowed _ _); [|apply calm_ends; calm].
    apply issue_ends; [by apply refresh_given_cons| |calm].
    exists presented, r. split_and!; try done; [(do 3 apply shows_further); by apply shows_here|].
    apply shows_further. by apply shows_here.
  - unfold revoke_family, revoke_tokens. asks n Hn.
    destruct n; [asks m Hm; destruct m|]; apply calm_ends; calm.
Qed.

Lemma client_credentials_ends did found p : calm did ->
  safe whatever good (ends (fun _ => Clients.is_confidential found = true)) did (client_credentials sha256 settings found p).
Proof.
  intros Hd. unfold client_credentials. destruct (Clients.is_confidential found) eqn:E; cbn [negb]; [|by apply calm_ends].
  destruct (narrowed _ _); [|by apply calm_ends]. unfold generate. asks b Hb. apply issue_ends; [done|done|by apply calm_cons].
Qed.

Lemma grant_ends did found p : calm did ->
  safe whatever good (ends (fun did =>
     (says p (lit "grant_type") (lit "authorization_code") /\ code_given_for p found did) \/
     (says p (lit "grant_type") (lit "refresh_token") /\ refresh_given_for p found did) \/
     (says p (lit "grant_type") (lit "client_credentials") /\ Clients.is_confidential found = true)))
   did (grant sha256 debug settings found p).
Proof.
  intros Hd. unfold grant. destruct (required (lit "grant_type") p) as [g|] eqn:E; [|by apply calm_ends]. apply required_says in E.
  repeat (case_bool_decide; cbn [orb]; subst); try by apply calm_ends.
  - eapply safely_mono; [|by apply authorization_code_ends]. intros did' [a|] [H1 H2]; (split; [done|]); [|done]. split; [left|]; by destruct H2.
  - eapply safely_mono; [|by apply refresh_token_ends]. intros did' [a|] [H1 H2]; (split; [done|]); [|done]. split; [right; left|]; by destruct H2.
  - eapply safely_mono; [|by apply client_credentials_ends]. intros did' [a|] [H1 H2]; (split; [done|]); [|done]. split; [right; right|]; by destruct H2.
Qed.

Lemma verify_secret_spec found s : Clients.verify_secret sha256 found s = true ->
  exists stored, Clients.secret_hash found = Some stored /\ digest s = stored.
Proof.
  unfold Clients.verify_secret, Clients.digest_matches. destruct (Clients.secret_hash found) as [stored|]; [|done].
  intros H%Pkce.constant_time_eq_spec. by exists stored.
Qed.

Lemma no_store_status (r : Response.Response U) : Response.status (no_store r) = Response.status r.
Proof. done. Qed.

Lemma token_answers r : safe whatever good (token_answer (Token, r)) [] (token sha256 debug settings r).
Proof.
  unfold token, answering. apply safely_bind. set (p := from_body r).
  apply (safely_mono _ _ (fun did res => reported did /\ match res with Ok _ => granted r did /\ calm did | Err _ => True end)).
  { intros did res [Hrep Hres] _. split; [done|]. intros resp Hr Hst. destruct res as [t|[e|]]; [done| |done]. exfalso.
    injection Hr as <-. rewrite no_store_status in Hst. by apply OAuthError.into_response_refused in Hst. }
  unfold exchange. destruct (presented r p) as [c|] eqn:Ep; [|split; [apply calm_reported, calm_nil|done]].
  unfold refuse_all. apply safely_bind, safely_bind. unfold authenticate, client. asks x Hx.
  set (e := existT (OFindClient (cred_id c)) x : entry). assert (Hc : calm [e]) by (apply calm_cons; [done|apply calm_nil]).
  destruct x as [[found|]|]; cbn [safe bind refuse]; try (split; [by apply calm_reported|done]).
  assert (Hgo : authentic c found -> safe whatever good
    (fun did res => reported did /\ match res with Ok _ => granted r did /\ calm did | Err _ => True end) [e]
    (bind (grant sha256 debug settings found p) (fun r => Ret (refuse r)))).
  { intros Hauth. apply safely_bind. eapply safely_mono; [|by apply safe_grows, grant_ends].
    intros did' [a|] [[H1 H2] H4]; cbn [safe refuse]; (split; [done|]); [|done]. destruct H2 as [H2 H3]. split; [|done].
    destruct H4 as [l ->].
    exists c, found. split_and!; try done. exists e. split; [apply elem_of_app; right; apply list_elem_of_here|done]. }
  unfold authentic in Hgo. destruct (secret c) as [s|], (Clients.is_confidential found) eqn:Econf; cbn [refuse];
    try (split; [by apply calm_reported|done]).
  - destruct (Clients.verify_secret sha256 found s) eqn:Ev; [|split; [by apply calm_reported|done]].
    by apply Hgo, verify_secret_spec.
  - apply Hgo. unfold Clients.is_confidential in Econf. by destruct (Clients.secret_hash found).
Qed.
End Token.

(** ** Where the authorization endpoint redirects *)

Definition location (r : Response.Response U) : option (list Z) := Headers.get (lit "location") (Response.headers r).

(** The login page of the application, or a URI the client registered, which is
    fit to be registered, with a query. *)
Definition to_login (l : list Z) : Prop := exists q, l = Headers.sanitise (login_path settings ++ lit "?next=" ++ q).
Definition to_client (rq : Endpoint * Request) (did : list entry) (l : list Z) : Prop :=
  exists found uri q, shows client_found did found /\ says (params_of rq) (lit "client_id") (Clients.id found) /\
    says (params_of rq) (lit "redirect_uri") uri /\ uri ∈ Clients.redirect_uris found /\
    Redirect.validate_registration debug uri = Ok tt /\ l = Headers.sanitise (OAuthUrl.append_query uri q).

Definition redirect_answer (rq : Endpoint * Request) (did : list entry) (out : outcome U) : Prop :=
  rq.1 = Authorize \/ rq.1 = Decide ->
  forall r l, out = Answered r -> location r = Some l -> to_login l \/ to_client rq did l.

Lemma location_redirect_error uri e : location (redirect_error uri e) =
  Some (Headers.sanitise (OAuthUrl.append_query uri (OAuthError.to_query e))).
Proof. reflexivity. Qed.
Lemma location_error_page e : location (error_page e) = None.
Proof. reflexivity. Qed.
Lemma location_render c : location (render c) = None.
Proof. reflexivity. Qed.
Lemma location_redirect uri : location (no_store (Response.redirect uri)) = Some (Headers.sanitise uri).
Proof. reflexivity. Qed.
Lemma location_see_other uri : location (Response.see_other uri) = Some (Headers.sanitise uri).
Proof. reflexivity. Qed.

Lemma registered_uri found uri : Clients.validate debug found = Ok tt -> Clients.allows_redirect found uri = true ->
  uri ∈ Clients.redirect_uris found /\ Redirect.validate_registration debug uri = Ok tt.
Proof.
  unfold Clients.validate, Clients.allows_redirect, Redirect.is_registered. destruct (bool_decide _); [done|].
  intros Hv Hr. apply existsb_exists in Hr as (uri' & Hin & E). apply bool_decide_eq_true in E as ->.
  split; [by apply list_elem_of_In|]. revert Hv Hin. generalize (Clients.id found) as cid.
  induction (Clients.redirect_uris found) as [|u uris IH]; intros cid Hv; [done|]. cbn [Clients.validate_uris] in Hv.
  destruct (Redirect.validate_registration debug u) as [[]|] eqn:E; [|done]. intros [->|Hin]; [done|by eapply IH].
Qed.

Section Redirects.
Context (approved : list Z -> list Z -> Scopes.Scopes -> Prop) (drawn : list Z -> Prop).
Context (arrived : Endpoint * Request -> Prop) (random : nat -> nat -> nat -> list Z) (i : nat) (rq : Endpoint * Request).
Local Abbreviation good := (good debug random approved drawn arrived i).
Local Abbreviation whatever := (fun (_ : list entry) (_ : op) => True).

Ltac asks x Hx := cbn [safe bind ask]; split; [exact I|intros x Hx].

(** A refusal that is redirected goes where it may. *)
Definition bounces (p : list (list Z * list Z)) (did : list entry) (refusal : Refusal) : Prop :=
  match refusal with
  | Local _ => True
  | Redirect uri _ => exists found, shows client_found did found /\ says p (lit "client_id") (Clients.id found) /\
      says p (lit "redirect_uri") uri /\ uri ∈ Clients.redirect_uris found /\ Redirect.validate_registration debug uri = Ok tt
  end.

Lemma validated_bounces found uri p r : validated debug found uri p = Err r -> exists e, r = Redirect uri e.
Proof.
  unfold validated, bounce, redirected. destruct (get (lit "state") p); [|intros [= <-]; by eexists].
  destruct (required (lit "response_type") p); [|intros [= <-]; by eexists].
  destruct (negb (bool_decide _)); [intros [= <-]; by eexists|].
  destruct (pkce debug p) as [[ch m]|]; [|intros [= <-]; by eexists].
  destruct (get (lit "scope") p); [|intros [= <-]; by eexists].
  destruct (negb _); [intros [= <-]; by eexists|done].
Qed.

Lemma validate_answers {A} (Q : list entry -> A -> Prop) p (k : result Refusal Authorization -> prog A) :
  (forall did refusal, bounces p did refusal -> safe whatever good Q did (k (Err refusal))) ->
  (forall did a, shows client_found did (auth_client a) -> validated_from p a ->
     auth_redirect_uri a ∈ Clients.redirect_uris (auth_client a) ->
     Redirect.validate_registration debug (auth_redirect_uri a) = Ok tt ->
     safe whatever good Q did (k (Ok a))) ->
  safe whatever good Q [] (bind (validate debug p) k).
Proof.
  intros He Hk. unfold validate, locally. destruct (required (lit "client_id") p) as [cid|] eqn:Ec; [|by apply He].
  unfold client. asks x Hx. destruct x as [[found|]|]; cbn [safe bind]; [|by apply He..].
  apply required_says in Ec. destruct (Hx found eq_refl) as [<- Hvalid].
  destruct (required (lit "redirect_uri") p) as [uri|] eqn:Eu; [|by apply He]. apply required_says in Eu.
  cbn [bind]. destruct (Clients.allows_redirect found uri) eqn:Er; cbn [negb]; [|by apply He].
  destruct (registered_uri _ _ Hvalid Er) as [Hin Hreg].
  destruct (validated debug found uri p) as [a|r] eqn:Ev.
  - apply validated_says in Ev as (Hv & <- & <-); try done. apply Hk; try done. by apply shows_here.
  - apply validated_bounces in Ev as [e ->]. apply He. exists found. split_and!; try done. by apply shows_here.
Qed.

(** What a response may redirect to. *)
Definition goes_right (did : list entry) (r : Response.Response U) : Prop :=
  forall l, location r = Some l -> to_login l \/ to_client rq did l.

Lemma refusal_goes_right did refusal : bounces (params_of rq) did refusal -> goes_right did (refusal_response refusal).
Proof.
  destruct refusal as [e|uri e]; cbn [refusal_response bounces]; intros H l; [by rewrite location_error_page|].
  rewrite location_redirect_error. intros [= <-]. right. destruct H as (found & H1 & H2 & H3 & H4 & H5).
  exists found, uri, (OAuthError.to_query e). by split_and!.
Qed.

Lemma login_goes_right did r : goes_right did (sign_in_first settings r).
Proof. intros l. unfold sign_in_first. rewrite location_see_other. intros [= <-]. left. by eexists. Qed.

Section Validated.
Context (a : Authorization) (Hv : validated_from (params_of rq) a).
Context (Hin : auth_redirect_uri a ∈ Clients.redirect_uris (auth_client a)).
Context (Hreg : Redirect.validate_registration debug (auth_redirect_uri a) = Ok tt).

Lemma query_goes_right did q : shows client_found did (auth_client a) ->
  to_client rq did (Headers.sanitise (OAuthUrl.append_query (auth_redirect_uri a) q)).
Proof.
  intros Hs. destruct Hv as (H1 & H2 & _). exists (auth_client a), (auth_redirect_uri a), q. by split_and!.
Qed.

Lemma issue_code_goes_right did user : shows client_found did (auth_client a) ->
  safe whatever good goes_right did (issue_code sha256 settings a user).
Proof.
  intros Hs. unfold issue_code, generate, now. asks b Hb. asks t Ht. asks k Hk.
  destruct k as [k|k]; cbn [safe]; intros l.
  - rewrite location_redirect. intros [= <-]. right. apply query_goes_right. by repeat apply shows_further.
  - rewrite location_redirect_error. intros [= <-]. right. apply query_goes_right. by repeat apply shows_further.
Qed.
End Validated.

Lemma responding_goes_right did p : safe whatever good goes_right did p ->
  safe whatever good (redirect_answer rq) did (responding p).
Proof.
  intros H. apply safely_bind. revert H. apply safely_mono. intros did' r Hr _ r' l [= <-]. apply Hr.
Qed.

Lemma show_goes_right : rq.1 = Authorize ->
  safe whatever good (redirect_answer rq) [] (responding (show sha256 debug settings csrf rq.2)).
Proof.
  intros E. apply responding_goes_right. unfold show.
  assert (Ep : from_query rq.2 = params_of rq) by (unfold params_of; by rewrite E). rewrite Ep.
  apply validate_answers; [intros did r Hr; by apply refusal_goes_right|]. intros did a Hs Hv Hin Hreg.
  destruct (identity rq.2) as [user|]; [|apply login_goes_right]. unfold skips_consent.
  assert (Hr : forall did c, goes_right did (render c)) by (intros ? ? l; by rewrite location_render).
  destruct (negb _); [apply Hr|]. asks y Hy. destruct y as [[g|]|]; cbn [bind]; [|apply Hr..].
  destruct (Scopes.covers _ _); [|apply Hr]. apply issue_code_goes_right; try done. by apply shows_further.
Qed.

Lemma decide_goes_right : rq.1 = Decide ->
  safe whatever good (redirect_answer rq) [] (responding (decide sha256 debug settings rq.2)).
Proof.
  intros E. apply responding_goes_right. unfold decide.
  assert (Ep : from_body rq.2 = params_of rq) by (unfold params_of; by rewrite E). rewrite Ep.
  apply validate_answers; [intros did r Hr; by apply refusal_goes_right|]. intros did a Hs Hv Hin Hreg.
  destruct (identity rq.2) as [user|]; [|apply login_goes_right]. destruct (negb (approves _)).
  - intros l. rewrite location_redirect_error. intros [= <-]. right. by apply query_goes_right.
  - unfold now. asks t Ht. asks y Hy. apply issue_code_goes_right; try done. by do 2 apply shows_further.
Qed.

Lemma redirect_answers : safe whatever good (redirect_answer rq) [] (handle sha256 debug settings csrf next rq.1 rq.2).
Proof.
  destruct (rq.1) eqn:E; cbn [handle]; [by apply show_goes_right|by apply decide_goes_right|..];
    (eapply safely_mono; [|by apply safe_any]); intros did out _ [H|H]; congruence.
Qed.

Lemma token_answers_all : safe whatever good (token_answer rq) [] (handle sha256 debug settings csrf next rq.1 rq.2).
Proof.
  destruct rq as [e r]. destruct e; cbn [handle fst snd]; try (eapply safely_mono; [|by apply safe_any]; done). apply token_answers.
Qed.
End Redirects.

End Answers.
End OAuthAnswers.
