(* ===== verification/OAuthTheorems.v ===== *)
(** * What an authorization server promises

    The theorems over every history of requests, interleaved operation by
    operation and whatever the stores do, and what modelling showed. *)

From S2P Require Import Prelude Text Base64 Json JsonText Url Router Headers Response Server OAuth OAuthStores OAuthServer OAuthProofs OAuthHistory OAuthFreshness OAuthAnswers.

(** ** A small server to run

    Concrete functions in the place of SHA-256 and of the random generator, with
    the properties the theorems rely on, and the requests of one client. *)

Module OAuthScenes.
Import OAuthServer.

(** The binary digits of a number, the last first. *)
Fixpoint bits (p : BinNums.positive) : list Z :=
  match p with xH => [] | xO p => 0 :: bits p | xI p => 1 :: bits p end.

Lemma bits_inj p q : bits p = bits q -> p = q.
Proof.
  revert q. induction p as [p IH|p IH|]; intros [q|q|] H; try done; injection H as H; by rewrite (IH q).
Qed.

Lemma bits_bytes p : bytes (bits p).
Proof. induction p; cbn; auto with bytes. Qed.

Definition toy_sha (l : list Z) : list Z := bits (encode l).
Definition toy_random (i k n : nat) : list Z := bits (encode (i, k)).

Lemma toy_sha_inj a b : toy_sha a = toy_sha b -> a = b.
Proof. intros H. by apply bits_inj, encode_inj in H. Qed.

Lemma toy_random_fresh n i k i' k' : toy_random i k n = toy_random i' k' n -> i = i' /\ k = k'.
Proof. intros H. apply bits_inj, encode_inj in H. by simplify_eq. Qed.

(** ** One client and its requests *)

Definition form_type : Headers.Entries := [(lit "content-type", [lit "application/x-www-form-urlencoded"])].

Definition post (body : list Z) (user : option (list Z)) : Request :=
  mkRequest (Server.mkRequest Method.Post (lit "/") (lit "/") [] form_type body) user.

Definition verifier : list Z := lit "0123456789012345678901234567890123456789012".
Definition challenge : list Z := Pkce.s256 toy_sha verifier.
Definition spa : Clients.Client :=
  Clients.with_scopes (Scopes.parse (lit "read write")) (Clients.redirect_uri (lit "https://a.test/cb") (Clients.public (lit "spa"))).

Definition approval : Request :=
  post (lit "client_id=spa&redirect_uri=https://a.test/cb&response_type=code&code_challenge_method=S256&scope=read&approve=yes&code_challenge="
        ++ challenge) (Some (lit "ada")).

(** The token the [k]th draw of request [i] makes. *)
Definition drawn_token (i k : nat) : list Z := Base64.encode_url (toy_random i k 32).

Definition redeeming (i k : nat) : Request :=
  post (lit "grant_type=authorization_code&client_id=spa&redirect_uri=https://a.test/cb&code_verifier=" ++ verifier ++
        lit "&code=" ++ drawn_token i k) None.
Definition refreshing (i k : nat) : Request :=
  post (lit "grant_type=refresh_token&client_id=spa&refresh_token=" ++ drawn_token i k) None.
Definition refreshing_for (i k : nat) (scope : list Z) : Request :=
  post (lit "grant_type=refresh_token&client_id=spa&refresh_token=" ++ drawn_token i k ++ lit "&scope=" ++ scope) None.
Definition presenting (i k : nat) : Request :=
  mkRequest (Server.mkRequest Method.Get (lit "/api") (lit "/api") [] [(lit "authorization", [lit "Bearer " ++ drawn_token i k])] []) None.

Definition greeting (r : Request) (c : TokenClaims) : Response.Response unit := Response.text (lit "hello").

Abbreviation happened := (
  history toy_sha (fun s => s) default_settings (fun _ => []) greeting toy_random 600).

Definition goes_on (i n : nat) : list event := repeat (Steps i Fine) n.

Definition status_of (s : system (U:=unit)) (i : nat) : option Z :=
  match left <$> threads s !! i with Some (Ret (Answered r)) => Some (Response.status r) | _ => None end.

Definition response_of (s : system (U:=unit)) (i : nat) : Response.Response unit :=
  match left <$> threads s !! i with Some (Ret (Answered r)) => r | _ => Response.new 0 end.
Definition crashed (s : system (U:=unit)) (i : nat) : bool :=
  match left <$> threads s !! i with Some (Ret Crashed) => true | _ => false end.

(** ** Histories *)

(** Ada approves, the client redeems its code: request 0 and request 1. *)
Definition redeemed : list event :=
  [Registers spa; Arrives Decide approval] ++ goes_on 0 10 ++ [Arrives Token (redeeming 0 0)] ++ goes_on 1 20.

Definition reading : Endpoint := Api (Scopes.parse (lit "read")).

(** The code is presented again, as request 2, while request 1 has consumed it and
    not yet stored its tokens; then the access token of request 1 is used. *)
Definition overtaken : list event :=
  [Registers spa; Arrives Decide approval] ++ goes_on 0 10 ++
  [Arrives Token (redeeming 0 0)] ++ goes_on 1 4 ++ [Arrives Token (redeeming 0 0)] ++ goes_on 2 20 ++
  goes_on 1 20 ++ [Arrives reading (presenting 1 1)] ++ goes_on 3 5.

(** A refresh asks for a scope that was not granted, and then for none; then the
    access token of request 1 is used. *)
Definition overreaching : list event :=
  redeemed ++ [Arrives Token (refreshing_for 1 3 (lit "admin"))] ++ goes_on 2 20 ++
  [Arrives Token (refreshing 1 3)] ++ goes_on 3 20 ++ [Arrives reading (presenting 1 1)] ++ goes_on 4 5.

(** A client with a secret asks for a token of its own. *)
Definition machine : Clients.Client :=
  Clients.with_scopes (Scopes.parse (lit "read")) (Clients.confidential toy_sha (lit "machine") (lit "s3cret")).
Definition working : Request :=
  post (lit "grant_type=client_credentials&client_id=machine&client_secret=s3cret") None.
Definition worked : list event := [Registers machine; Arrives Token working] ++ goes_on 0 8.

(** A credential whose percent sign is followed by half a character. *)
Definition half_a_character : Request :=
  mkRequest (Server.mkRequest Method.Post (lit "/oauth/token") (lit "/oauth/token") []
    [(lit "authorization", [lit "Basic " ++ Base64.encode (lit "%aé:x")])] []) None.
End OAuthScenes.

Module OAuthTheorems.
Import OAuthServer OAuthProofs OAuthHistory OAuthFreshness OAuthAnswers OAuthScenes.

(** ** Shared steps *)

Section Steps.
Context (sha256 : list Z -> list Z) (debug : list Z -> list Z) (settings : Settings) {U : Type}.
Context (csrf : Request -> list Z) (next : Request -> TokenClaims -> Response.Response U).
Context (random : nat -> nat -> nat -> list Z) (retention : Z).

Local Abbreviation history := (history (U:=U) sha256 debug settings csrf next random retention).
Local Abbreviation run := (run (U:=U) sha256 debug settings csrf next random retention).

(** A request was answered. *)
Definition answered (s : system (U:=U)) (i : nat) (rq : Endpoint * Request) (r : Response.Response U) : Prop :=
  exists th, threads s !! i = Some th /\ asked th = rq /\ left th = Ret (Answered r).

Lemma token_history vs i th a : threads (history vs) !! i = Some th -> left th = Ret a ->
  token_answer sha256 (asked th) (did th) a.
Proof.
  intros Hi Hl. pose proof (sound_history_as sha256 debug settings csrf next random retention
    (token_answer sha256) vs (fun S i rq => token_answers_all sha256 debug settings csrf next _ _ _ _ _ rq)) as Hs.
  destruct (threads_ok _ _ _ _ _ _ Hs i th Hi) as [Hsafe _]. by rewrite Hl in Hsafe.
Qed.

Lemma redirect_history vs i th a : threads (history vs) !! i = Some th -> left th = Ret a ->
  redirect_answer debug settings (asked th) (did th) a.
Proof.
  intros Hi Hl. pose proof (sound_history_as sha256 debug settings csrf next random retention
    (redirect_answer debug settings) vs (fun S i rq => redirect_answers sha256 debug settings csrf next _ _ _ _ _ rq)) as Hs.
  destruct (threads_ok _ _ _ _ _ _ Hs i th Hi) as [Hsafe _]. by rewrite Hl in Hsafe.
Qed.

Lemma shows_in_log {A} (kind : entry -> option A) s i (th : thread (U:=U)) a : threads s !! i = Some th ->
  shows kind (did th) a -> in_log (fun e => kind e = Some a) s i.
Proof. intros Hi (e & He & Ha). by exists th, e. Qed.

Lemma says_inj p name a b : says p name a -> says p name b -> a = b.
Proof. unfold says. congruence. Qed.

(** A request that was given tokens for a code spent it. *)
Lemma code_spender s i (th : thread (U:=U)) r p : threads s !! i = Some th -> granted sha256 r (did th) ->
  says (form r) (lit "grant_type") (lit "authorization_code") -> says (form r) (lit "code") p ->
  spent_by (Clients.digest sha256 p) s i.
Proof.
  intros Hi (c & found & _ & _ & _ & [[_ Hg]|[[Hg _]|[Hg _]]]) Ht Hp; [|by pose proof (says_inj _ _ _ _ Hg Ht)|by pose proof (says_inj _ _ _ _ Hg Ht)].
  destruct Hg as (p' & uri & v & f & code & Hp' & _ & _ & Hs & _). rewrite (says_inj _ _ _ _ Hp Hp').
  destruct (shows_in_log _ _ _ _ _ Hi Hs) as (th' & e & Hi' & He & Hsp). exists th', e. split_and!; [done..|]. by exists f, code.
Qed.

(** One that was given tokens for a refresh token found it and rotated it. *)
Lemma refresh_spender s i (th : thread (U:=U)) r p : threads s !! i = Some th -> granted sha256 r (did th) ->
  says (form r) (lit "grant_type") (lit "refresh_token") -> says (form r) (lit "refresh_token") p ->
  exists t, in_log (fun e => refresh_found e = Some (Clients.digest sha256 p, t)) s i /\ rotated_by (Tokens.r_id t) s i.
Proof.
  intros Hi (c & found & _ & _ & _ & [[Hg _]|[[_ Hg]|[Hg _]]]) Ht Hp; [by pose proof (says_inj _ _ _ _ Hg Ht)| |by pose proof (says_inj _ _ _ _ Hg Ht)].
  destruct Hg as (p' & t & Hp' & Hf & _ & Hr). rewrite (says_inj _ _ _ _ Hp Hp').
  exists t. split; by apply (shows_in_log _ _ _ _ _ Hi).
Qed.

(** The log of a request that was given tokens says what for. *)
Lemma answered_granted vs i r a : answered (history vs) i (Token, r) a -> Response.status a = 200 ->
  exists th, threads (history vs) !! i = Some th /\ granted sha256 r (did th) /\ forall f, ~ shows reuse_seen (did th) f.
Proof.
  intros (th & Hi & Ea & El) Hst. exists th. split; [done|]. pose proof (token_history _ _ _ _ Hi El) as H. rewrite Ea in H.
  destruct (H eq_refl) as [_ Hg]. by apply (Hg a eq_refl Hst).
Qed.
End Steps.

(** ** Consent *)

(** C6. Whatever requests are made of the server, in whatever interleaving, clock
    and weather of its stores: an access or refresh token for a user exists only
    when that user sent back the consent screen of that client, approved, for at
    least the scopes the token has; an authorization code exists only for a
    request of that user to that client's redirect URI, with its S256 challenge. *)
Theorem tokens_follow_consent sha256 debug settings {U} csrf next random retention vs :
  let s := history (U:=U) sha256 debug settings csrf next random retention vs in
  (forall h t u, Tokens.access (tokens (state s)) !! h = Some t -> Tokens.user_id t = Some u ->
     exists rq, arrived_in s rq /\ approves_grant rq u (Tokens.client_id t) (Tokens.scopes t)) /\
  (forall h t u, Tokens.refresh (tokens (state s)) !! h = Some t -> Tokens.r_user_id t = Some u ->
     exists rq, arrived_in s rq /\ approves_grant rq u (Tokens.r_client_id t) (Tokens.r_scopes t)) /\
  (forall h c, codes (state s) !! h = Some c ->
     (exists rq, arrived_in s rq /\ approves_grant rq (Codes.user_id c) (Codes.client_id c) (Codes.scopes c)) /\
     exists rq, arrived_in s rq /\ asks_for rq c).
Proof.
  cbn zeta. pose proof (sound_history sha256 debug settings csrf next random retention vs) as Hs. split_and!.
  - intros h t u Ht Hu. by apply (access_justified _ _ _ _ _ _ h t Hs Ht).
  - intros h t u Ht Hu. by apply (refresh_justified _ _ _ _ _ _ h t Hs Ht).
  - intros h c Hc. exact (code_justified _ _ _ _ _ _ h c Hs (grows_refl _) Hc).
Qed.

(** ** Single use *)

(** C7. Of all the requests that ever present one authorization code, and of all
    that present one refresh token, at most one is answered with tokens, however
    they are interleaved and whichever store operations fail. *)
Theorem credentials_are_spent_once sha256 debug settings {U} csrf next random retention vs i j r r' a a' p :
  ideal sha256 random ->
  let s := history (U:=U) sha256 debug settings csrf next random retention vs in
  answered s i (Token, r) a -> answered s j (Token, r') a' -> Response.status a = 200 -> Response.status a' = 200 ->
  (says (form r) (lit "grant_type") (lit "authorization_code") /\ says (form r) (lit "code") p /\
   says (form r') (lit "grant_type") (lit "authorization_code") /\ says (form r') (lit "code") p) \/
  (says (form r) (lit "grant_type") (lit "refresh_token") /\ says (form r) (lit "refresh_token") p /\
   says (form r') (lit "grant_type") (lit "refresh_token") /\ says (form r') (lit "refresh_token") p) ->
  i = j.
Proof.
  cbn zeta. intros Hideal Ha Ha' Hst Hst' Hsays.
  destruct (answered_granted _ _ _ _ _ _ _ _ _ _ _ Ha Hst) as (th & Hi & Hg & _).
  destruct (answered_granted _ _ _ _ _ _ _ _ _ _ _ Ha' Hst') as (th' & Hj & Hg' & _).
  destruct Hsays as [(H1 & H2 & H3 & H4)|(H1 & H2 & H3 & H4)].
  - apply (proj2 (history_spent_once sha256 debug settings csrf next random retention Hideal vs) i j (Clients.digest sha256 p)).
    + by eapply code_spender.
    + by eapply code_spender.
  - destruct (refresh_spender _ _ _ _ _ _ Hi Hg H1 H2) as (t & Hf & Hr).
    destruct (refresh_spender _ _ _ _ _ _ Hj Hg' H3 H4) as (t' & Hf' & Hr').
    destruct (history_found sha256 debug settings csrf next random retention vs i _ t Hf) as (k & t0 & Hby & Hh & Hid).
    destruct (history_found sha256 debug settings csrf next random retention vs j _ t' Hf') as (k' & t0' & Hby' & Hh' & Hid').
    pose proof (sound_history sha256 debug settings csrf next random retention vs) as Hs.
    destruct (refresh_by_unique sha256 debug random Hideal _ _ Hs k k' t0 t0' Hby Hby') as [_ ->]; [left; congruence|].
    apply (proj2 (history_rotated_once sha256 debug settings csrf next random retention Hideal vs) i j (Tokens.r_id t)); [done|].
    by rewrite <- Hid, Hid'.
Qed.

(** ** Proof of possession *)

Lemma found_by_id debug approved drawn arrived random i did id found :
  logged (fun _ _ => True) (good debug random approved drawn arrived i) did ->
  shows client_looked_up did (id, found) -> Clients.id found = id /\ Clients.validate debug found = Ok tt.
Proof.
  intros Hl ([o x] & He & Hf). destruct (logged_elem _ _ _ _ Hl He) as (did' & _ & Hg). cbn in *.
  destruct o; try done. destruct x as [[c|]|]; try done. simplify_eq. by apply Hg.
Qed.

Lemma spent_was_asked debug approved drawn arrived random i did h f c :
  logged (fun _ _ => True) (good debug random approved drawn arrived i) did ->
  shows spent did (h, f, c) -> exists rq, arrived rq /\ asks_for rq c.
Proof.
  intros Hl ([o x] & He & Hf). destruct (logged_elem _ _ _ _ Hl He) as (did' & _ & Hg). cbn in *.
  destruct o; try done. destruct x as [[c'| | |]|]; try done. simplify_eq. by apply Hg.
Qed.

Lemma logged_weaken (pre : list entry -> op -> Prop) good did : logged pre good did -> logged (fun _ _ => True) good did.
Proof. induction did as [|e did IH]; [done|]. intros [[_ Hg] Hl]. split; [done|by apply IH]. Qed.

Lemma history_logged sha256 debug settings {U} csrf next random retention vs i th :
  let s := history (U:=U) sha256 debug settings csrf next random retention vs in
  threads s !! i = Some th ->
  logged (fun _ _ => True) (good debug random (approved_in s) (drawn_in random s) (arrived_in s) i) (did th).
Proof.
  cbn zeta. intros Hi. pose proof (sound_history sha256 debug settings csrf next random retention vs) as Hs.
  destruct (threads_ok _ _ _ _ _ _ Hs i th Hi) as [_ Hl]. by eapply logged_weaken.
Qed.

(** What is in the log of a request was answered at one of its steps. *)
Lemma log_performed sha256 debug settings {U} csrf next random retention vs i th e :
  let history := history (U:=U) sha256 debug settings csrf next random retention in
  threads (history vs) !! i = Some th -> e ∈ did th ->
  exists vs1 x vs2 n o, vs = vs1 ++ Steps i x :: vs2 /\ e = existT o (perform random retention i n x (state (history vs1)) o).1.
Proof.
  cbn zeta. revert i th e. induction vs as [|v vs IH] using rev_ind; intros i th e Hi He; [done|].
  assert (Hmore : forall th0, threads (history sha256 debug settings csrf next random retention vs) !! i = Some th0 -> e ∈ did th0 ->
    exists vs1 x vs2 n o, vs ++ [v] = vs1 ++ Steps i x :: vs2 /\
      e = existT o (perform random retention i n x (state (history sha256 debug settings csrf next random retention vs1)) o).1).
  { intros th0 H1 H2. destruct (IH i th0 e H1 H2) as (vs1 & x & vs2 & n & o & -> & He'). exists vs1, x, (vs2 ++ [v]), n, o.
    split; [by rewrite <- app_assoc|exact He']. }
  rewrite history_snoc in Hi. set (s := history _ _ _ _ _ _ _ vs) in *.
  destruct (happen_cases sha256 debug settings csrf next random retention s v)
    as [(j & x & th0 & o & -> & Hj & Hp)|(_ & _ & Hth)].
  - destruct (performs_threads _ _ _ _ _ _ _ _ Hj Hp i th Hi) as [[_ H]|(-> & _ & Hd)]; [by eapply Hmore|].
    rewrite Hd in He. apply elem_of_cons in He as [->|He]; [|by eapply Hmore]. by exists vs, x, [], (draws (did th0)), o.
  - destruct (Hth i th Hi) as [H|(e0 & r0 & _ & ->)]; [by eapply Hmore|]. by apply elem_of_nil in He.
Qed.

(** The credentials a request carries: those of its HTTP Basic header, or the
    identifier and, if any, the secret of its body. *)
Definition carries (r : Request) (id : list Z) (offered : option (list Z)) : Prop :=
  (exists scheme encoded user pass given, header (lit "authorization") r = Some (scheme ++ encoded) /\
     (scheme = lit "Basic " \/ scheme = lit "basic ") /\ Base64.decode (trim encoded) = Some (user ++ [58] ++ pass) /\
     OAuthUrl.decode user = Some id /\ OAuthUrl.decode pass = Some given /\ offered = Some given) \/
  (says (form r) (lit "client_id") id /\
   match offered with Some given => says (form r) (lit "client_secret") given | None => get (lit "client_secret") (form r) = Ok None end).

(** A request without an Authorization header carries what its body says. *)
Lemma carries_in_body r id offered : header (lit "authorization") r = None -> carries r id offered ->
  says (form r) (lit "client_id") id /\
  match offered with Some given => says (form r) (lit "client_secret") given | None => get (lit "client_secret") (form r) = Ok None end.
Proof. intros Hn [(scheme & encoded & user & pass & given & Hh & _)|H]; [by rewrite Hn in Hh|exact H]. Qed.

Lemma split_once_spec c l x y : split_once c l = Some (x, y) -> l = x ++ [c] ++ y.
Proof.
  revert x. induction l as [|b l IH]; intros x; cbn [split_once]; [done|]. destruct (Z.eqb_spec b c) as [->|_].
  - by intros [= <- <-].
  - destruct (split_once c l) as [[x' y']|]; [|done]. intros [= <- <-]. by rewrite (IH x').
Qed.

Lemma basic_auth_carries r c : basic_auth r = Ok (Some c) -> carries r (cred_id c) (secret c).
Proof.
  unfold basic_auth. destruct (header (lit "authorization") r) as [h|] eqn:Eh; [|done].
  assert (Hs : forall e, (match strip_prefix h (lit "Basic ") with Some e => Some e | None => strip_prefix h (lit "basic ") end) = Some e ->
    exists scheme, h = scheme ++ e /\ (scheme = lit "Basic " \/ scheme = lit "basic ")).
  { intros e. destruct (strip_prefix h (lit "Basic ")) as [e'|] eqn:E1.
    - intros [= <-]. apply strip_prefix_spec in E1. by exists (lit "Basic "); auto.
    - intros E2. apply strip_prefix_spec in E2. by exists (lit "basic "); auto. }
  destruct (match strip_prefix h (lit "Basic ") with Some e => Some e | None => _ end) as [e|]; [|done].
  destruct (Hs e eq_refl) as (scheme & -> & Hsc). destruct (Base64.decode (trim e)) as [bs|] eqn:Eb; [|done]. destruct (negb _); [done|].
  destruct (split_once 58 bs) as [[user pass]|] eqn:E2; [|done]. apply split_once_spec in E2. subst bs. unfold decoded.
  destruct (OAuthUrl.decode user) as [id|] eqn:Eu; [|done]. destruct (OAuthUrl.decode pass) as [given|] eqn:Ep; [|done].
  intros [= <-]. left. exists scheme, e, user, pass, given. by split_and!.
Qed.

Lemma presented_carries r c : presented r (form r) = Ok c -> carries r (cred_id c) (secret c).
Proof.
  unfold presented. destruct (basic_auth r) as [basic|f] eqn:Eb; [|done]. unfold refuse.
  destruct (get (lit "client_id") (form r)) as [id|e] eqn:Ei; [|done].
  destruct (get (lit "client_secret") (form r)) as [s|e] eqn:Es; [|done].
  destruct basic as [basic|].
  - assert (Hb : Ok basic = Ok c :> result failure Credentials -> carries r (cred_id c) (secret c)).
    { intros [= <-]. by apply basic_auth_carries. }
    destruct id as [id|], s as [s|]; try done. case_bool_decide; [exact Hb|done].
  - destruct id as [id|]; [|by destruct s]. destruct s as [s|]; intros [= <-]; right; by split.
Qed.

(** C8. Tokens are answered only to a client that proved to be who it says, against
    the record the server has of it. The request carries an identifier; at one of
    its steps the client store had a record under it; and the request carries the
    secret whose digest is in that record, or the record has none and the request
    carries no secret. For a code it also sent the redirect URI and the verifier of
    the very request the code was issued for: that request named this client, this
    URI and the S256 challenge of this verifier. For a refresh token it sent one the
    store had for this client, and for the client credentials grant it did carry a
    secret. *)
Theorem tokens_need_proof sha256 debug settings {U} csrf next random retention vs i r a :
  let history := history (U:=U) sha256 debug settings csrf next random retention in
  let s := history vs in
  answered s i (Token, r) a -> Response.status a = 200 ->
  exists id offered found vs1 x vs2, carries r id offered /\
    vs = vs1 ++ Steps i x :: vs2 /\ clients (state (history vs1)) !! id = Some found /\
    match offered with
    | Some given => Clients.secret_hash found = Some (Clients.digest sha256 given)
    | None => Clients.secret_hash found = None
    end /\
    (says (form r) (lit "grant_type") (lit "authorization_code") ->
     exists rq uri verifier, arrived_in s rq /\ (rq.1 = Authorize \/ rq.1 = Decide) /\
       says (form r) (lit "redirect_uri") uri /\ says (params_of rq) (lit "redirect_uri") uri /\
       says (params_of rq) (lit "client_id") id /\
       says (form r) (lit "code_verifier") verifier /\ Pkce.validate_verifier verifier = true /\
       says (params_of rq) (lit "code_challenge") (Pkce.s256 sha256 verifier)) /\
    (says (form r) (lit "grant_type") (lit "refresh_token") ->
     exists token t vs1 x vs2, says (form r) (lit "refresh_token") token /\ vs = vs1 ++ Steps i x :: vs2 /\
       Tokens.refresh (tokens (state (history vs1))) !! Clients.digest sha256 token = Some t /\ Tokens.r_client_id t = id) /\
    (says (form r) (lit "grant_type") (lit "client_credentials") -> offered <> None).
Proof.
  cbn zeta. intros Ha Hst. destruct (answered_granted _ _ _ _ _ _ _ _ _ _ _ Ha Hst) as (th & Hi & Hg & _).
  destruct Hg as (c & found & Hp & Hf & Hauth & Hor). pose proof (history_logged _ _ _ _ _ _ _ _ _ _ Hi) as Hl.
  destruct (found_by_id _ _ _ _ _ _ _ _ _ Hl Hf) as [Hid _].
  assert (Hlooked : exists vs1 x vs2, vs = vs1 ++ Steps i x :: vs2 /\
    clients (state (history (U:=U) sha256 debug settings csrf next random retention vs1)) !! cred_id c = Some found).
  { destruct Hf as (e & He & Hk). destruct (log_performed _ _ _ _ _ _ _ _ _ _ _ Hi He) as (vs1 & x & vs2 & n & o & Hvs & ->).
    exists vs1, x, vs2. split; [exact Hvs|]. destruct o; try done. cbn in Hk. destruct x; [|done..]. cbn in Hk. unfold Clients.find in Hk.
    destruct (clients _ !! id) eqn:Ec; [|done]. by injection Hk as <- <-. }
  destruct Hlooked as (vs1 & x & vs2 & Hvs & Hclient).
  exists (cred_id c), (secret c), found, vs1, x, vs2. split_and!; [by apply presented_carries|done|done| | | |].
  - unfold authentic in Hauth. destruct (secret c); [|done]. destruct Hauth as (stored & -> & <-). done.
  - intros Ht. destruct Hor as [[_ Hcode]|[[Hg _]|[Hg _]]]; [|by pose proof (says_inj _ _ _ _ Hg Ht)|by pose proof (says_inj _ _ _ _ Hg Ht)].
    destruct Hcode as (p & uri & v & f & code & _ & Huri & Hv & Hs & Hcl & Hru & Hver).
    destruct (spent_was_asked _ _ _ _ _ _ _ _ _ _ Hl Hs) as (rq & Harr & He & _ & H1 & H2 & H3 & H4 & _).
    exists rq, uri, v. rewrite Hcl, Hid in H1. rewrite Hru in H2. unfold Pkce.verify in Hver.
    destruct (Pkce.validate_verifier v); [|done]. rewrite H4 in Hver. apply Pkce.constant_time_eq_spec in Hver. rewrite <- Hver in H3.
    by split_and!.
  - intros Ht. destruct Hor as [[Hg _]|[[_ Hr]|[Hg _]]]; [by pose proof (says_inj _ _ _ _ Hg Ht)| |by pose proof (says_inj _ _ _ _ Hg Ht)].
    destruct Hr as (token & t & Htok & (e & He & Hk) & Hcl & _).
    destruct (log_performed _ _ _ _ _ _ _ _ _ _ _ Hi He) as (vs3 & y & vs4 & n & o & Hvs' & ->).
    exists token, t, vs3, y, vs4. split_and!; [done|done| |by rewrite Hcl].
    destruct o; try done. cbn in Hk. destruct y; [|done..]. cbn in Hk. unfold Tokens.find_refresh in Hk.
    destruct (Tokens.refresh _ !! _) eqn:Ec; [|done]. by injection Hk as <- <-.
  - intros Ht Hnone. destruct Hor as [[Hg _]|[[Hg _]|[_ Hconf]]]; [by pose proof (says_inj _ _ _ _ Hg Ht)|by pose proof (says_inj _ _ _ _ Hg Ht)|].
    unfold authentic in Hauth. rewrite Hnone in Hauth. unfold Clients.is_confidential in Hconf. by rewrite Hauth in Hconf.
Qed.

(** ** Redirects *)

(** C9. The authorization endpoint redirects a browser to the application's own
    login page, or to a URI that was registered for the client the request names
    and is the one it asked for, byte for byte, with a query appended: an absolute
    URI without a fragment, and not plain http to another machine. *)
Theorem redirects_stay_registered sha256 debug settings {U} csrf next random retention vs i e r a l :
  let s := history (U:=U) sha256 debug settings csrf next random retention vs in
  answered s i (e, r) a -> e = Authorize \/ e = Decide -> Headers.get (lit "location") (Response.headers a) = Some l ->
  (exists q, l = Headers.sanitise (login_path settings ++ lit "?next=" ++ q)) \/
  exists th found uri q, threads s !! i = Some th /\ shows client_found (did th) found /\
    says (params_of (e, r)) (lit "client_id") (Clients.id found) /\ says (params_of (e, r)) (lit "redirect_uri") uri /\
    uri ∈ Clients.redirect_uris found /\ Redirect.validate_registration debug uri = Ok tt /\
    l = Headers.sanitise (OAuthUrl.append_query uri q).
Proof.
  cbn zeta. intros (th & Hi & Ea & El) He Hl. pose proof (redirect_history _ _ _ _ _ _ _ _ _ _ _ Hi El) as H.
  rewrite Ea in H. destruct (H He a l eq_refl Hl) as [Hlogin|(found & uri & q & Hc)]; [by left|]. right. by exists th, found, uri, q.
Qed.

(** ** Reuse *)

Section Reuse.
Context (sha256 : list Z -> list Z) (debug : list Z -> list Z) (settings : Settings) {U : Type}.
Context (csrf : Request -> list Z) (next : Request -> TokenClaims -> Response.Response U).
Context (random : nat -> nat -> nat -> list Z) (retention : Z).

Local Abbreviation history := (history (U:=U) sha256 debug settings csrf next random retention).
Local Abbreviation run := (run (U:=U) sha256 debug settings csrf next random retention).

(** While one request works alone, what it revoked stays revoked. *)
Definition alone_with (f : list Z) (i : nat) (s : system (U:=U)) : Prop :=
  (forall j th, threads s !! j = Some th -> j <> i -> finished th) /\
  forall th, threads s !! i = Some th ->
    (forall n, shows access_revocation (did th) (f, n) -> is_Some (match n with Ok m => Some m | Err _ => None end) /\
       forall h t, Tokens.access (tokens (state s)) !! h = Some t -> Tokens.family t = f -> Tokens.revoked t = true) /\
    (forall n, shows refresh_revocation (did th) (f, n) ->
       forall h t, Tokens.refresh (tokens (state s)) !! h = Some t -> Tokens.r_family t = f -> Tokens.r_revoked t = true).

Lemma revocation_shown did f n : shows access_revocation did (f, n) \/ shows refresh_revocation did (f, n) ->
  ~ Forall (fun e => is_revocation e = false) did.
Proof.
  intros [([o x] & He & Hs)|([o x] & He & Hs)] Hall; (eapply Forall_forall in Hall; [|by apply list_elem_of_In, He]);
    by destruct o.
Qed.

Lemma alone_step vs f i : alone_with f i (history vs) -> alone_with f i (history (vs ++ [Steps i Fine])).
Proof.
  rewrite history_snoc. intros [Hfin Hi]. pose proof (sound_history sha256 debug settings csrf next random retention vs) as Hs.
  set (s := history vs) in *. destruct (happen_cases sha256 debug settings csrf next random retention s (Steps i Fine))
    as [(i' & x & th & o & [= <- <-] & Hth & Hperf)|(_ & Et & Hold)].
  - pose proof (performs_allowed sha256 debug random retention s s _ _ _ _ _ Hs Hth Hperf) as Hpre.
    pose proof (performs_threads random retention s _ _ _ _ _ Hth Hperf) as Hths. destruct Hperf as (k & Hl & E). split.
    { intros j th' Hj Hne. destruct (Hths j th' Hj) as [[_ Hj']|[-> _]]; [by eapply Hfin|done]. }
    intros th' Hi'. destruct (Hths i th' Hi') as [[Hne _]|(_ & _ & ->)]; [done|]. destruct (Hi th Hth) as [Ha Hr]. rewrite E. cbn [state].
    split; intros n Hn; apply shows_cons in Hn as [Hn|Hn].
    + destruct o; try done. cbn in Hn. injection Hn as -> <-. split; [by eexists|]. cbn. intros h t Ht Hf.
      rewrite lookup_fmap in Ht. apply fmap_Some in Ht as (t0 & _ & ->). unfold Tokens.of_access in *.
      case_match eqn:Ec; [done|]. rewrite bool_decide_eq_true_2 in Ec by done. by destruct (Tokens.revoked t0).
    + destruct (Ha n Hn) as [Hsome Hdead]. split; [done|]. intros h t Ht Hf.
      apply perform_access in Ht as [Ht|[[-> _]|(t0 & Ht & ->)]]; [by eapply Hdead| |done].
      destruct Hpre as (_ & _ & _ & _ & [Hno _] & _). by destruct (revocation_shown (did th) f n (or_introl Hn)).
    + destruct o; try done. cbn in Hn. injection Hn as -> <-. cbn. intros h t Ht Hf.
      rewrite lookup_fmap in Ht. apply fmap_Some in Ht as (t0 & _ & ->). unfold Tokens.of_refresh in *.
      case_match eqn:Ec; [done|]. rewrite bool_decide_eq_true_2 in Ec by done. by destruct (Tokens.r_revoked t0).
    + intros h t Ht Hf. apply perform_refresh in Ht as [Ht|[[-> _]|(t0 & Ht & [->| ->])]];
        [by eapply (Hr n Hn)| |done|by apply (Hr n Hn h t0)].
      destruct Hpre as (_ & _ & _ & _ & [Hno _] & _). by destruct (revocation_shown (did th) f n (or_intror Hn)).
  - assert (Hsame : forall j th, threads (happen sha256 debug settings csrf next random retention s (Steps i Fine)) !! j = Some th ->
      threads s !! j = Some th) by (intros j th Hj; by destruct (Hold j th Hj) as [|(e & r & [=] & _)]).
    split; [intros j th Hj; by apply Hfin, Hsame|]. rewrite Et. intros th Hth. by apply Hi, Hsame.
Qed.

Lemma alone_steps vs f i n : alone_with f i (history vs) -> alone_with f i (history (vs ++ repeat (Steps i Fine) n)).
Proof.
  intros H. induction n as [|n IH]; [by rewrite app_nil_r|]. rewrite <- Nat.add_1_r, repeat_app, app_assoc. by apply alone_step.
Qed.
End Reuse.

(** C10. When nobody else is being served and a code that was spent, or a refresh
    token that was rotated, is presented again, it is refused, and from then on no
    token of that authorization is usable: neither what was issued from the code
    nor what it was refreshed into, whatever requests come later. *)
Theorem reuse_ends_the_session sha256 debug settings {U} csrf next random retention vs r n vs' th f :
  ideal sha256 random ->
  let s := history (U:=U) sha256 debug settings csrf next random retention vs in
  let i := length (threads s) in
  let s1 := run (U:=U) sha256 debug settings csrf next random retention s (Arrives Token r :: repeat (Steps i Fine) n) in
  (forall j th', threads s !! j = Some th' -> finished th') ->
  threads s1 !! i = Some th -> finished th -> shows reuse_seen (did th) f ->
  (forall a, left th = Ret (Answered a) -> Response.status a <> 200) /\
  dead f (state (run sha256 debug settings csrf next random retention s1 vs')).
Proof.
  cbn zeta. intros Hideal. set (i := length _). rewrite <- history_app.
  change (vs ++ Arrives Token r :: repeat (Steps i Fine) n) with (vs ++ [Arrives Token r] ++ repeat (Steps i Fine) n).
  rewrite app_assoc. set (vs1 := (vs ++ [Arrives Token r]) ++ repeat (Steps i Fine) n). intros Hfin Hth [out Hout] Hre.
  assert (Halone : alone_with f i (history (U:=U) sha256 debug settings csrf next random retention vs1)).
  { apply alone_steps. rewrite history_snoc. split.
    - intros j th' Hj Hne. cbn in Hj. apply lookup_app_Some in Hj as [Hj|[Hge Hj]]; [by eapply Hfin|].
      fold i in Hge, Hj. replace (j - i)%nat with (S (j - i - 1)) in Hj by lia. done.
    - intros th' Hi. cbn in Hi. rewrite lookup_app_r in Hi by done. fold i in Hi. rewrite Nat.sub_diag in Hi. injection Hi as <-.
      split; intros m Hm; by apply shows_nil in Hm. }
  assert (Hask : (asked th).1 = Token).
  { destruct (run_extends sha256 debug settings csrf next random retention (history sha256 debug settings csrf next random retention (vs ++ [Arrives Token r]))
      (repeat (Steps i Fine) n) i (start sha256 debug settings csrf next Token r)) as (th' & Hi & Ea & _).
    { rewrite history_snoc. cbn. rewrite lookup_app_r by done. fold i. by rewrite Nat.sub_diag. }
    rewrite <- history_app in Hi. fold vs1 in Hi. assert (th' = th) as -> by congruence. by rewrite Ea. }
  destruct (token_history _ _ _ _ _ _ _ vs1 i th out Hth Hout Hask) as [Hrep Hok].
  destruct (Hrep f Hre) as (m & Hm & Hnext). destruct Halone as [Hothers Hself]. destruct (Hself th Hth) as [Hacc Href].
  destruct (Hacc m Hm) as [[m' Hm'] Hdead]. destruct m as [m|]; [|done]. destruct (Hnext m eq_refl) as (m2 & Hm2). split.
  - intros a Ha Hst. rewrite Ha in Hout. injection Hout as <-. by destruct (proj2 (Hok a eq_refl Hst) f).
  - apply dead_forever; [done| |split; [done|by eapply Href]|].
    + destruct Hm as ([o x] & He & Ho). destruct o; try done. cbn in Ho. injection Ho as -> _.
      pose proof (sound_history sha256 debug settings csrf next random retention vs1) as Hs.
      destruct (threads_ok _ _ _ _ _ _ Hs i th Hth) as [_ Hl]. by destruct (logged_elem _ _ _ _ Hl He) as (did' & Hp & _).
    + intros j th' Hj. left. destruct (base.decide (j = i)) as [->|Hne]; [|by eapply Hothers].
      assert (th' = th) as -> by congruence. by exists out.
Qed.

(** A token that was revoked is refused from then on, whatever happens. *)
Theorem revoked_is_final sha256 debug settings {U} csrf next random retention vs vs' h t t' :
  ideal sha256 random ->
  let s := history (U:=U) sha256 debug settings csrf next random retention vs in
  Tokens.access (tokens (state s)) !! h = Some t -> Tokens.revoked t = true ->
  Tokens.access (tokens (state (run sha256 debug settings csrf next random retention s vs'))) !! h = Some t' ->
  forall now, Tokens.is_live t' now = false.
Proof.
  cbn zeta. intros Hideal Ht Hr Ht' now. unfold Tokens.is_live.
  by rewrite (revoked_access_kept sha256 debug settings csrf next random retention Hideal vs vs' h t t' Ht Hr Ht').
Qed.

(** ** What the grants give *)

(** A program run by itself, with every store well. *)
Fixpoint alone {A} (random : nat -> nat -> nat -> list Z) (retention : Z) (i drawn : nat) (w : world) (p : prog A) : A * world :=
  match p with
  | Ret a => (a, w)
  | Do o k =>
      let '(x, w') := perform random retention i drawn Fine w o in
      alone random retention i (draws [existT o x] + drawn) w' (k x)
  end.

(** What [issue] leaves in the stores, by itself. *)
Lemma issue_alone sha256 settings random retention i n w c u sc f :
  exists k1 k2 tr a b w',
    alone random retention i n w (store_failed (issue sha256 settings c u sc f true)) = (Ok tr, w') /\
    TokenResponse.access_token tr = tok random i k1 /\ TokenResponse.refresh_token tr = Some (tok random i k2) /\
    tokens w' = Tokens.mkTokens (<[Clients.digest sha256 (tok random i k1) := a]> (Tokens.access (tokens w)))
                                (<[Clients.digest sha256 (tok random i k2) := b]> (Tokens.refresh (tokens w))) /\
    codes w' = codes w /\ clock w' = clock w /\
    Tokens.client_id a = c /\ Tokens.user_id a = u /\ Tokens.scopes a = sc /\ Tokens.family a = f /\
    Tokens.r_client_id b = c /\ Tokens.r_user_id b = u /\ Tokens.r_scopes b = sc /\ Tokens.r_family b = f /\
    Tokens.access_token_id b = Tokens.id a /\
    (0 < access_ttl settings -> 0 < refresh_ttl settings -> clock w < u64_max ->
     Tokens.is_live a (clock w) = true /\ Tokens.refresh_is_live b (clock w) = true).
Proof.
  unfold store_failed, issue, now, generate, identifier. cbn.
  do 6 eexists. split; [reflexivity|]. split; [reflexivity|]. split; [reflexivity|]. split; [reflexivity|]. split_and!; try done.
  unfold Tokens.is_live, Tokens.refresh_is_live, saturating_add. cbn. intros Ha Hr Hw. split; apply Z.ltb_lt, Z.min_glb_lt; lia.
Qed.

(** C11. Whoever presents a live code of theirs with its redirect URI and verifier
    gets a bearer token for the user who consented and the scopes that were
    granted or fewer, a refresh token beside it in the same family, and the code
    is spent on that family. *)
Theorem code_buys_its_tokens sha256 settings random retention i n w found p presented verifier code s :
  says p (lit "code") presented -> says p (lit "redirect_uri") (Codes.redirect_uri code) ->
  says p (lit "code_verifier") verifier -> narrowed p (Codes.scopes code) = Ok s ->
  codes w !! Clients.digest sha256 presented = Some code -> Codes.family code = None -> clock w < Codes.expires_at code ->
  Codes.client_id code = Clients.id found ->
  Pkce.verify sha256 verifier (Codes.challenge code) (Codes.challenge_method code) = true ->
  let '(res, w') := alone random retention i n w (authorization_code sha256 settings found p) in
  exists t rt a b c, res = Ok t /\ TokenResponse.refresh_token t = Some rt /\
    Tokens.access (tokens w') !! Clients.digest sha256 (TokenResponse.access_token t) = Some a /\
    Tokens.refresh (tokens w') !! Clients.digest sha256 rt = Some b /\
    codes w' !! Clients.digest sha256 presented = Some c /\
    Tokens.client_id a = Clients.id found /\ Tokens.user_id a = Some (Codes.user_id code) /\ Tokens.scopes a = s /\ s ⊆ Codes.scopes code /\
    Tokens.r_client_id b = Clients.id found /\ Tokens.r_user_id b = Some (Codes.user_id code) /\ Tokens.r_scopes b = s /\
    Tokens.family a = Tokens.r_family b /\ Codes.family c = Some (Tokens.family a) /\ Tokens.access_token_id b = Tokens.id a /\
    (0 < access_ttl settings -> 0 < refresh_ttl settings -> clock w < u64_max ->
     Tokens.is_live a (clock w') = true /\ Tokens.refresh_is_live b (clock w') = true).
Proof.
  intros H1 H2 H3 Hs Hc Hf Ht Hid Hv. unfold authorization_code.
  rewrite (proj2 (required_says _ _ _) H1), (proj2 (required_says _ _ _) H2). unfold says in H3. rewrite H3.
  cbn [alone bind ask generate now read_failed perform answer draws is_draw projT1 List.filter length Nat.add].
  unfold Codes.consume. rewrite Hc. unfold Codes.is_consumed, Codes.is_expired. rewrite Hf, (proj2 (Z.leb_gt _ _)) by done.
  cbn [reply alone bind Codes.spend Codes.client_id Codes.redirect_uri Codes.challenge Codes.challenge_method Codes.scopes Codes.user_id].
  rewrite (bool_decide_eq_true_2 _ Hid), bool_decide_eq_true_2, Hv, Hs by done. cbn [negb].
  match goal with |- let '(_, _) := alone _ _ ?i ?n ?w (store_failed (issue _ _ ?c ?u ?s ?f true)) in _ =>
    destruct (issue_alone sha256 settings random retention i n w c u s f)
      as (k1 & k2 & tr & a & b & w' & -> & Ea & Eb & Et & Ec & Ek & H4 & H5 & H6 & H7 & H8 & H9 & H10 & H11 & H12 & H13) end.
  exists tr, (tok random i k2), a, b, (Codes.spend (Base64.encode_url (random i n 32%nat)) code). rewrite Ea, Et, Ec.
  split_and!; try done; try apply lookup_insert_eq; try congruence; [by eapply narrowed_within|cbn; by rewrite H7|].
  rewrite Ek. exact H13.
Qed.

(** A client that presents a live refresh token of its own gets a new pair of
    tokens in the same family, for the same user and the scopes it has or fewer;
    the one presented is rotated, and the access token beside it is revoked. *)
Theorem refresh_moves_the_session sha256 debug settings {U} csrf next random retention vs found p presented t sc :
  ideal sha256 random ->
  let s := history (U:=U) sha256 debug settings csrf next random retention vs in
  let w := state s in
  says p (lit "refresh_token") presented -> Tokens.refresh (tokens w) !! Clients.digest sha256 presented = Some t ->
  Tokens.refresh_is_live t (clock w) = true -> Tokens.r_client_id t = Clients.id found ->
  narrowed p (Tokens.r_scopes t) = Ok sc ->
  let '(res, w') := alone random retention (length (threads s)) 0 w (refresh_token sha256 settings found p) in
  exists tr rt a b old, res = Ok tr /\ TokenResponse.refresh_token tr = Some rt /\
    Tokens.access (tokens w') !! Clients.digest sha256 (TokenResponse.access_token tr) = Some a /\
    Tokens.refresh (tokens w') !! Clients.digest sha256 rt = Some b /\
    Tokens.refresh (tokens w') !! Clients.digest sha256 presented = Some old /\ Tokens.rotated old = true /\
    Tokens.family a = Tokens.r_family t /\ Tokens.r_family b = Tokens.r_family t /\
    Tokens.user_id a = Tokens.r_user_id t /\ Tokens.r_user_id b = Tokens.r_user_id t /\
    Tokens.scopes a = sc /\ Tokens.r_scopes b = sc /\ sc ⊆ Tokens.r_scopes t /\
    (forall h o, Tokens.access (tokens w) !! h = Some o -> Tokens.id o = Tokens.access_token_id t ->
       exists o', Tokens.access (tokens w') !! h = Some o' /\ Tokens.revoked o' = true).
Proof.
  cbn zeta. intros Hideal H1 Ht Hlive Hid Hs. pose proof (sound_history sha256 debug settings csrf next random retention vs) as Hsound.
  set (s := history _ _ _ _ _ _ _ vs) in *. set (i := length (threads s)).
  pose proof (fun k => future_is_new sha256 debug random Hideal s i k Hsound (Nat.le_refl _)) as Hnew.
  assert (Hfind : Tokens.find_value (fun u => bool_decide (Tokens.r_id u = Tokens.r_id t)) (Tokens.refresh (tokens (state s))) =
    Some (Clients.digest sha256 presented, t)).
  { apply find_value_unique; [done|by apply bool_decide_eq_true|]. intros h' u Hu Hp. apply bool_decide_eq_true in Hp.
    by eapply refresh_place. }
  unfold Tokens.refresh_is_live in Hlive. rewrite !andb_true_iff, !negb_true_iff, Z.ltb_lt in Hlive.
  destruct Hlive as [[Hrev Hrot] Hexp]. unfold refresh_token. rewrite (proj2 (required_says _ _ _) H1).
  cbn [alone bind ask read_failed perform reply]. unfold Tokens.find_refresh. rewrite Ht. cbn [alone bind].
  rewrite (bool_decide_eq_true_2 _ Hid), Hrev, Hrot. cbn [negb alone bind ask now perform].
  rewrite (proj2 (Z.leb_gt _ _)) by done. cbn [alone bind store_failed ask perform]. unfold Tokens.rotate at 1. rewrite Hfind, Hrot.
  cbn [reply alone bind negb ask perform after with_tokens tokens]. rewrite Hs.
  match goal with |- let '(_, _) := alone _ _ ?i ?n ?w (store_failed (issue _ _ ?c ?u ?s ?f true)) in _ =>
    destruct (issue_alone sha256 settings random retention i n w c u s f)
      as (k1 & k2 & tr & a & b & w' & -> & Ea & Eb & Et & _ & _ & H4 & H5 & H6 & H7 & H8 & H9 & H10 & H11 & _) end.
  destruct (Hnew k1) as [Hk1 _]. destruct (Hnew k2) as [_ Hk2].
  assert (Hne : Clients.digest sha256 (tok random i k2) <> Clients.digest sha256 presented) by congruence.
  exists tr, (tok random i k2), a, b, (Tokens.r_rotate t). rewrite Ea, Et. cbn [Tokens.access Tokens.refresh].
  split_and!; try done; try apply lookup_insert_eq; [|by eapply narrowed_within|].
  - rewrite lookup_insert_ne by done. cbn. rewrite revoke_access_refresh. apply lookup_insert_eq.
  - intros h o Ho Hoid. assert (Hfo : Tokens.find_value (fun u => bool_decide (Tokens.id u = Tokens.access_token_id t))
      (Tokens.access (tokens (state s))) = Some (h, o)).
    { apply find_value_unique; [done|by apply bool_decide_eq_true|]. intros h' o' Ho' Hp. apply bool_decide_eq_true in Hp.
      eapply access_place; [done..|congruence]. }
    exists (Tokens.revoke o). split; [|done]. rewrite lookup_insert_ne by congruence. cbn. unfold Tokens.revoke_access. cbn [Tokens.access].
    rewrite Hfo. apply lookup_insert_eq.
Qed.

(** ** What modelling showed *)

(** A request that is interrupted. *)
Section Together.
Context (sha256 : list Z -> list Z) (debug : list Z -> list Z) (settings : Settings) {U : Type}.
Context (csrf : Request -> list Z) (next : Request -> TokenClaims -> Response.Response U).
Context (random : nat -> nat -> nat -> list Z) (retention : Z).

Local Abbreviation run := (run (U:=U) sha256 debug settings csrf next random retention).
Local Abbreviation start := (start (U:=U) sha256 debug settings csrf next).

(** Some steps of one request, with every store well. *)
Fixpoint go (n i : nat) (w : world) (th : thread (U:=U)) : world * thread (U:=U) :=
  match n with
  | O => (w, th)
  | S n => let '(w', th') := step_thread random retention i Fine w th in go n i w' th'
  end.

Lemma run_go n i : forall s th, threads s !! i = Some th ->
  run s (repeat (Steps i Fine) n) = mkSystem (go n i (state s) th).1 (<[i := (go n i (state s) th).2]> (threads s)).
Proof.
  induction n as [|n IH]; intros s th Hi; cbn [repeat go].
  - rewrite list_insert_id by done. by destruct s.
  - cbn [OAuthServer.run fold_left]. fold (run (happen sha256 debug settings csrf next random retention s (Steps i Fine)) (repeat (Steps i Fine) n)).
    unfold happen. rewrite Hi. destruct (step_thread random retention i Fine (state s) th) as [w' th'].
    rewrite (IH _ th') by (apply list_lookup_insert_eq; by eapply lookup_lt_Some). cbn [state threads]. by rewrite list_insert_insert_eq.
Qed.

(** A request that arrives and takes some steps before anyone else. *)
Lemma arrives_go n e r s : let i := length (threads s) in
  run s (Arrives e r :: repeat (Steps i Fine) n) =
  mkSystem (go n i (state s) (start e r)).1 (threads s ++ [(go n i (state s) (start e r)).2]).
Proof.
  cbn zeta. etransitivity; [apply (run_go n _ (mkSystem (state s) (threads s ++ [start e r])) (start e r)); by apply list_lookup_middle|].
  cbn [state threads]. f_equal. rewrite insert_app_r_alt by lia. by rewrite Nat.sub_diag.
Qed.

(** The events that are not a step of request [i]. *)
Definition elsewhere (i : nat) (v : event) : bool := match v with Steps j _ => negb (j =? i)%nat | _ => true end.

Lemma run_of_others i vs : forall s th, forallb (elsewhere i) vs = true -> threads s !! i = Some th -> threads (run s vs) !! i = Some th.
Proof.
  induction vs as [|v vs IH]; [done|]. intros s th Hv Hi. cbn in Hv. apply andb_prop in Hv as [Hv Hvs]. cbn. apply IH; [done|].
  destruct v as [e r|j x|t|c|id|c u]; cbn in *; [by apply lookup_app_l_Some| |done| |done..].
  - destruct (threads s !! j) as [th'|]; [|done]. destruct (step_thread _ _ _ _ _ _). cbn.
    rewrite list_lookup_insert_ne; [done|]. apply negb_true_iff, Nat.eqb_neq in Hv. lia.
  - by destruct (Clients.register _ _ _).
Qed.

Lemma run_both s vs vs' : run s (vs ++ vs') = run (run s vs) vs'.
Proof. apply fold_left_app. Qed.

Context (w0 : world) (r : Request) (c : Credentials) (found : Clients.Client).
Hypothesis credentials : presented r (form r) = Ok c.
Hypothesis known : clients w0 !! cred_id c = Some found.
Hypothesis proved : authentic sha256 c found.
Hypothesis for_code : says (form r) (lit "grant_type") (lit "authorization_code").

Lemma client_step i w : clients w = clients w0 ->
  step_thread random retention i Fine w (start Token r) =
  (w, mkThread (Token, r) [existT (OFindClient (cred_id c)) (Ok (Some found))]
        (answering success (refuse_all (authorization_code sha256 settings found (form r))))).
Proof.
  intros Hw. unfold step_thread, OAuthServer.start. cbn [left handle]. unfold token, answering, exchange, from_body.
  rewrite credentials. cbn. unfold Clients.find. rewrite Hw, known. do 2 f_equal. unfold authentic in proved.
  assert (Hs : match secret c with Some s => Clients.is_confidential found = true /\ Clients.verify_secret sha256 found s = true
     | None => Clients.is_confidential found = false end).
  { unfold Clients.is_confidential, Clients.verify_secret. destruct (secret c) as [s|]; [|by rewrite proved].
    destruct proved as (h & -> & Hh). split; [done|]. subst h. unfold Clients.digest_matches. by apply Pkce.constant_time_eq_spec. }
  assert (Hg : grant sha256 debug settings found (form r) = authorization_code sha256 settings found (form r)).
  { unfold grant. by rewrite (proj2 (required_says _ _ _) for_code). }
  destruct (secret c) as [s|]; [destruct Hs as [-> ->]|rewrite Hs]; cbn; by rewrite Hg.
Qed.

Context (presented verifier : list Z) (uri : list Z).
Hypothesis says_code : says (form r) (lit "code") presented.
Hypothesis says_uri : says (form r) (lit "redirect_uri") uri.
Hypothesis says_verifier : says (form r) (lit "code_verifier") verifier.

(** The code is consumed by the fourth step of a request alone, and its sixth has
    revoked the family if it was consumed before. *)
Lemma consuming_go i code sc :
  narrowed (form r) (Codes.scopes code) = Ok sc ->
  codes w0 !! Clients.digest sha256 presented = Some code -> Codes.family code = None -> clock w0 < Codes.expires_at code ->
  Codes.client_id code = Clients.id found -> Codes.redirect_uri code = uri ->
  Pkce.verify sha256 verifier (Codes.challenge code) (Codes.challenge_method code) = true ->
  exists log, go 4 i w0 (start Token r) =
    (with_codes (<[Clients.digest sha256 presented := Codes.spend (tok random i 0) code]> (codes w0)) w0,
     mkThread (Token, r) log (answering success (refuse_all (store_failed
       (issue sha256 settings (Clients.id found) (Some (Codes.user_id code)) sc (tok random i 0) true))))) /\ draws log = 1%nat.
Proof.
  intros Hs Hc Hf Ht Hid Hu Hv. cbn [go]. rewrite client_step by done. unfold authorization_code.
  rewrite (proj2 (required_says _ _ _) says_code), (proj2 (required_says _ _ _) says_uri). unfold says in says_verifier. rewrite says_verifier.
  unfold answering, refuse_all, generate, now, read_failed, ask.
  cbn [step_thread bind left did asked perform draws is_draw projT1 List.filter length].
  unfold Codes.consume. rewrite Hc. unfold Codes.is_consumed, Codes.is_expired. rewrite Hf, (proj2 (Z.leb_gt _ _)) by done.
  cbn [reply after bind Codes.spend Codes.client_id Codes.redirect_uri Codes.challenge Codes.challenge_method Codes.scopes Codes.user_id].
  rewrite (bool_decide_eq_true_2 _ Hid), (bool_decide_eq_true_2 _ Hu), Hv, Hs. cbn [negb]. eexists. split; [reflexivity|]. reflexivity.
Qed.

Lemma replay_go i w f code : clients w = clients w0 ->
  codes w !! Clients.digest sha256 presented = Some code -> Codes.family code = Some f ->
  exists log w', go 6 i w (start Token r) =
    (w', mkThread (Token, r) log (Ret (Answered (no_store (OAuthError.into_response (OAuthError.invalid_grant
       (lit "this authorization code has already been used. Every token issued from it has been revoked, because a code presented twice is a code that leaked."))))))).
Proof.
  intros Hw Hc Hf. cbn [go]. rewrite client_step by done. unfold authorization_code.
  rewrite (proj2 (required_says _ _ _) says_code), (proj2 (required_says _ _ _) says_uri). unfold says in says_verifier. rewrite says_verifier.
  unfold answering, refuse_all, generate, now, read_failed, ask.
  cbn [step_thread bind left did asked perform draws is_draw projT1 List.filter length].
  unfold Codes.consume. rewrite Hc. unfold Codes.is_consumed. rewrite Hf. unfold revoke_family, revoke_tokens, ask.
  cbn [reply after bind step_thread left did asked perform]. do 2 eexists. reflexivity.
Qed.

(** Seven more steps store the tokens and answer them. *)
Lemma storing_go i w log cid u sc f : draws log = 1%nat ->
  exists t tr log' w', go 7 i w (mkThread (Token, r) log (answering success (refuse_all (store_failed (issue sha256 settings cid u sc f true))))) =
    (w', mkThread (Token, r) log' (Ret (Answered (success tr)))) /\ TokenResponse.access_token tr = tok random i 1 /\
    Tokens.access (tokens w') !! Clients.digest sha256 (tok random i 1) = Some t /\ clock w' = clock w /\
    Tokens.family t = f /\ Tokens.user_id t = u /\ Tokens.revoked t = false /\
    Tokens.expires_at t = saturating_add (clock w) (access_ttl settings).
Proof.
  intros Hd. unfold issue, answering, refuse_all, store_failed, generate, identifier, now, ask.
  cbn [go step_thread bind left did asked perform draws is_draw projT1 List.filter length reply after].
  unfold draws in Hd. rewrite Hd.
  do 4 eexists. split; [reflexivity|]. split; [reflexivity|]. split; [apply lookup_insert_eq|]. by split_and!.
Qed.
End Together.

(** C13. A code that is presented again while its first exchange is between
    spending the code and storing its tokens. Whatever history came before, let a
    client that proves who it is present a live code as it should, and let the
    request get as far as spending the code. The same request, sent again, is
    answered that every token issued from the code has been revoked, for the
    family is revoked before there is anything in it. Whatever the others do after
    that, replays and revocations of the family included, the first request then
    stores an access token of that family and answers 200, and the token is not
    revoked: it is live if it is given a lifetime at all. *)
Theorem tokens_outlive_their_revocation sha256 debug settings {U} csrf next random retention vs r c found p verifier code sc :
  let run := run (U:=U) sha256 debug settings csrf next random retention in
  let s := history sha256 debug settings csrf next random retention vs in
  let i := length (threads s) in
  presented r (form r) = Ok c -> clients (state s) !! cred_id c = Some found -> authentic sha256 c found ->
  says (form r) (lit "grant_type") (lit "authorization_code") -> says (form r) (lit "code") p ->
  says (form r) (lit "redirect_uri") (Codes.redirect_uri code) -> says (form r) (lit "code_verifier") verifier ->
  narrowed (form r) (Codes.scopes code) = Ok sc ->
  codes (state s) !! Clients.digest sha256 p = Some code -> Codes.family code = None -> clock (state s) < Codes.expires_at code ->
  Codes.client_id code = Clients.id found ->
  Pkce.verify sha256 verifier (Codes.challenge code) (Codes.challenge_method code) = true ->
  let spent := run s (Arrives Token r :: repeat (Steps i Fine) 4) in
  answered (run spent (Arrives Token r :: repeat (Steps (S i) Fine) 6)) (S i) (Token, r)
    (no_store (OAuthError.into_response (OAuthError.invalid_grant (lit "this authorization code has already been used. Every token issued from it has been revoked, because a code presented twice is a code that leaked.")))) /\
  forall vs', forallb (elsewhere i) vs' = true ->
    let later := run spent (vs' ++ repeat (Steps i Fine) 7) in
    exists tr t, answered later i (Token, r) (success tr) /\
      Tokens.access (tokens (state later)) !! Clients.digest sha256 (TokenResponse.access_token tr) = Some t /\
      Tokens.user_id t = Some (Codes.user_id code) /\
      Codes.family <$> codes (state spent) !! Clients.digest sha256 p = Some (Some (Tokens.family t)) /\ Tokens.revoked t = false /\
      (0 < access_ttl settings -> clock (state later) < u64_max -> Tokens.is_live t (clock (state later)) = true).
Proof.
  cbn zeta. set (s := history _ _ _ _ _ _ _ vs). set (i := length (threads s)).
  intros Hp Hk Ha Hg H1 H2 H3 Hn Hc Hf Ht Hid Hv.
  destruct (consuming_go sha256 debug settings csrf next random retention (state s) r c found Hp Hk Ha Hg p verifier _ H1 H2 H3 i code sc
    Hn Hc Hf Ht Hid eq_refl Hv) as (log & Ego & Hlog).
  pose proof (arrives_go sha256 debug settings csrf next random retention 4 Token r s) as Es. cbn zeta in Es. fold i in Es.
  rewrite Ego in Es. rewrite Es. clear Es Ego. cbn [fst snd]. set (spent := mkSystem _ _).
  assert (Hcs : codes (state spent) !! Clients.digest sha256 p = Some (Codes.spend (tok random i 0) code)) by apply lookup_insert_eq.
  assert (Hi : threads spent !! i = Some (mkThread (Token, r) log (answering success (refuse_all (store_failed
    (issue sha256 settings (Clients.id found) (Some (Codes.user_id code)) sc (tok random i 0) true)))))) by by apply list_lookup_middle.
  split.
  - assert (Hlen : S i = length (threads spent)) by (cbn; rewrite length_app; cbn; lia). rewrite Hlen, arrives_go.
    destruct (replay_go sha256 debug settings csrf next random retention (state s) r c found Hp Hk Ha Hg p verifier _ H1 H2 H3
      (length (threads spent)) (state spent) (tok random i 0) _ eq_refl Hcs eq_refl) as (log' & w' & ->).
    eexists. split; [by apply list_lookup_middle|]. by split.
  - intros vs' He. rewrite run_both. pose proof (run_of_others sha256 debug settings csrf next random retention i vs' spent _ He Hi) as Hm.
    rewrite (run_go _ _ _ _ _ _ _ 7 i _ _ Hm).
    destruct (storing_go (U:=U) sha256 settings random retention r i
      (state (run sha256 debug settings csrf next random retention spent vs')) log (Clients.id found)
      (Some (Codes.user_id code)) sc (tok random i 0) Hlog) as (t & tr & log' & w' & -> & Etr & Et & Ew & Ef & Eu & Er & Ex).
    cbn [fst snd state threads]. exists tr, t. rewrite Etr, Hcs, Ef. split_and!; try done.
    + eexists. split; [apply list_lookup_insert_eq; by eapply lookup_lt_Some|]. by split.
    + intros Hl Hw. unfold Tokens.is_live. rewrite Er, Ex. apply Z.ltb_lt. unfold saturating_add. rewrite Ew in *. apply Z.min_glb_lt; lia.
Qed.

(** A refresh that asks for a scope beyond the grant is refused with
    invalid_scope only after the refresh token was rotated and its access token
    revoked: no tokens are issued, the token cannot be used again, and trying
    again without the scope revokes the family as a reuse. *)
Theorem scope_error_burns_the_session :
  let s := happened overreaching in
  status_of s 1 = Some 200 /\ status_of s 2 = Some 400 /\
  Response.body (response_of s 2) = JsonText.to_string (OAuthError.to_json (OAuthError.invalid_scope
    (lit "this grant does not cover: admin. A `scope` at the token endpoint may only narrow what was already granted."))) /\
  status_of s 3 = Some 400 /\ status_of s 4 = Some 401 /\
  Tokens.live_access (tokens (state s)) (clock (state s)) = 0%nat /\ Tokens.live_refresh (tokens (state s)) (clock (state s)) = 0%nat.
Proof. vm_compute. auto 10. Qed.

(** Percent-decoding gives back what was percent-encoded, and panics on a
    percent sign two bytes before the middle of a character; the Authorization
    header of anyone reaches it, so that such a header crashes the request at the
    token, revocation and introspection endpoints. *)
Theorem half_a_character_crashes l :
  bytes l -> utf8_valid l = true ->
  OAuthUrl.decode (OAuthUrl.encode l) = Some l /\
  (forall x y c rest, is_cont c = true -> OAuthUrl.decode (37 :: x :: y :: c :: rest) = None) /\
  crashed (happened [Arrives Token half_a_character]) 0 = true /\
  crashed (happened [Arrives Revoke half_a_character]) 0 = true /\
  crashed (happened [Arrives Introspect half_a_character]) 0 = true.
Proof. intros Hb Hv. split_and!; [by apply OAuthUrl.url_decode_encode| |by vm_compute..].
  intros x y c rest Hc. unfold OAuthUrl.decode. cbn. by rewrite Hc. Qed.

(** ** Witnesses: the scenes *)

Lemma toy_ideal : ideal toy_sha toy_random.
Proof.
  split; [intros; apply bits_bytes|apply toy_sha_inj|intros; apply bits_bytes|intros; by eapply toy_random_fresh].
Qed.

Lemma answered_scene s i rq n : asked <$> threads s !! i = Some rq -> status_of s i = Some n ->
  answered (U:=unit) s i rq (response_of s i) /\ Response.status (response_of s i) = n.
Proof.
  unfold status_of, response_of. destruct (threads s !! i) as [th|] eqn:E; [|done]. cbn. intros [= <-].
  destruct (left th) as [[r|]|] eqn:El; try done. intros [= <-]. split; [|done]. by exists th.
Qed.

Lemma status_thread s i n : status_of s i = Some n -> exists th, threads s !! i = Some th.
Proof. unfold status_of. destruct (threads s !! i) as [th|]; [by exists th|done]. Qed.

Lemma finished_scene s i n : status_of s i = Some n -> forall th, threads s !! i = Some th -> finished th.
Proof. unfold status_of. intros H th E. rewrite E in H. cbn in H. destruct (left th) as [a|] eqn:El; [by exists a|done]. Qed.

Lemma tokens_follow_consent_witness :
  exists t rq, Tokens.access (tokens (state (happened redeemed))) !! Clients.digest toy_sha (drawn_token 1 1) = Some t /\
    Tokens.user_id t = Some (lit "ada") /\ arrived_in (happened redeemed) rq /\
    approves_grant rq (lit "ada") (Tokens.client_id t) (Tokens.scopes t).
Proof.
  assert (H : Tokens.user_id <$> Tokens.access (tokens (state (happened redeemed))) !! Clients.digest toy_sha (drawn_token 1 1) =
    Some (Some (lit "ada"))) by (vm_compute; reflexivity).
  destruct (Tokens.access (tokens (state (happened redeemed))) !! Clients.digest toy_sha (drawn_token 1 1)) as [t|] eqn:E; [|done].
  cbn in H. injection H as H.
  destruct (proj1 (tokens_follow_consent toy_sha (fun s => s) default_settings (fun _ => []) greeting toy_random 600 redeemed) _ t _ E H)
    as (rq & H1 & H2). exists t, rq. split; [reflexivity|]. split; [exact H|]. split; [exact H1|exact H2].
Defined.

Lemma credentials_are_spent_once_witness :
  status_of (happened redeemed) 1 = Some 200 /\ 1%nat = 1%nat.
Proof.
  assert (H : status_of (happened redeemed) 1 = Some 200) by (vm_compute; reflexivity). split; [exact H|].
  destruct (answered_scene (happened redeemed) 1 (Token, redeeming 0 0) 200) as [Ha Hst]; [by vm_compute|exact H|].
  apply (credentials_are_spent_once toy_sha (fun s => s) default_settings (fun _ => []) greeting toy_random 600 redeemed 1 1
    (redeeming 0 0) (redeeming 0 0) _ _ (drawn_token 0 0) toy_ideal Ha Ha Hst Hst).
  left. split_and!; by vm_compute.
Defined.

Lemma tokens_need_proof_witness :
  (exists found vs1 vs2, worked = vs1 ++ Steps 0 Fine :: vs2 /\
     clients (state (happened vs1)) !! lit "machine" = Some found /\
     Clients.secret_hash found = Some (Clients.digest toy_sha (lit "s3cret"))) /\
  (exists rq, arrived_in (happened redeemed) rq /\ says (params_of rq) (lit "client_id") (lit "spa") /\
     says (params_of rq) (lit "code_challenge") (Pkce.s256 toy_sha verifier)).
Proof.
  assert (H : status_of (happened worked) 0 = Some 200) by (vm_compute; reflexivity).
  assert (H' : status_of (happened redeemed) 1 = Some 200) by (vm_compute; reflexivity).
  split.
  - destruct (answered_scene (happened worked) 0 (Token, working) 200) as [Ha Hst]; [by vm_compute|exact H|].
    destruct (tokens_need_proof toy_sha (fun s => s) default_settings (fun _ => []) greeting toy_random 600 worked 0
      working _ Ha Hst) as (id & offered & found & vs1 & x & vs2 & Hc & Hvs & Hf & Hs & _).
    assert (Hb : header (lit "authorization") working = None) by (vm_compute; reflexivity).
    destruct (carries_in_body _ _ _ Hb Hc) as [Hid Ho].
    assert (Hid' : says (form working) (lit "client_id") (lit "machine")) by (vm_compute; reflexivity).
    assert (Ho' : says (form working) (lit "client_secret") (lit "s3cret")) by (vm_compute; reflexivity).
    rewrite (says_inj _ _ _ _ Hid Hid') in Hf. unfold says in Ho'.
    destruct offered as [given|]; [|by rewrite Ho in Ho']. rewrite (says_inj _ _ _ _ Ho Ho') in Hs.
    assert (Hx : x = Fine).
    { assert (Hin : Steps 0 x ∈ worked) by (rewrite Hvs; apply elem_of_app; right; apply list_elem_of_here).
      clear -Hin. apply elem_of_app in Hin as [Hin|Hin].
      - apply elem_of_cons in Hin as [Hin|Hin]; [discriminate Hin|]. apply list_elem_of_singleton in Hin. discriminate Hin.
      - apply list_elem_of_In, repeat_spec in Hin. by injection Hin. }
    rewrite Hx in Hvs. exists found, vs1, vs2. split; [exact Hvs|]. split; [exact Hf|exact Hs].
  - destruct (answered_scene (happened redeemed) 1 (Token, redeeming 0 0) 200) as [Ha Hst]; [by vm_compute|exact H'|].
    destruct (tokens_need_proof toy_sha (fun s => s) default_settings (fun _ => []) greeting toy_random 600 redeemed 1
      (redeeming 0 0) _ Ha Hst) as (id & offered & found & vs1 & x & vs2 & Hc & _ & _ & _ & Hcode & _).
    assert (Hg : says (form (redeeming 0 0)) (lit "grant_type") (lit "authorization_code")) by (vm_compute; reflexivity).
    destruct (Hcode Hg) as (rq & uri & v & Harr & _ & _ & _ & Hid & Hv & _ & Hch).
    assert (Hb : header (lit "authorization") (redeeming 0 0) = None) by (vm_compute; reflexivity).
    destruct (carries_in_body _ _ _ Hb Hc) as [Hid0 _].
    assert (Hid' : says (form (redeeming 0 0)) (lit "client_id") (lit "spa")) by (vm_compute; reflexivity).
    assert (Hv' : says (form (redeeming 0 0)) (lit "code_verifier") verifier) by (vm_compute; reflexivity).
    rewrite (says_inj _ _ _ _ Hid0 Hid') in Hid. rewrite (says_inj _ _ _ _ Hv Hv') in Hch.
    exists rq. split; [exact Harr|]. split; [exact Hid|exact Hch].
Defined.

Lemma redirects_stay_registered_witness :
  exists l, Headers.get (lit "location") (Response.headers (response_of (happened redeemed) 0)) = Some l /\
    ((exists q, l = Headers.sanitise (lit "/login" ++ lit "?next=" ++ q)) \/
     exists found uri q, uri ∈ Clients.redirect_uris found /\ l = Headers.sanitise (OAuthUrl.append_query uri q)).
Proof.
  assert (H : status_of (happened redeemed) 0 = Some 302) by (vm_compute; reflexivity).
  destruct (answered_scene (happened redeemed) 0 (Decide, approval) 302) as [Ha Hst]; [by vm_compute|exact H|].
  destruct (Headers.get (lit "location") (Response.headers (response_of (happened redeemed) 0))) as [l|] eqn:El; [|by vm_compute in El].
  exists l. split; [reflexivity|].
  destruct (redirects_stay_registered toy_sha (fun s => s) default_settings (fun _ => []) greeting toy_random 600 redeemed 0
    Decide approval _ l Ha (or_intror eq_refl) El) as [Hl|(th & found & uri & q & _ & _ & _ & _ & Hin & _ & ->)]; [left; exact Hl|].
  right. exists found, uri, q. split; [exact Hin|reflexivity].
Defined.

(** The code is presented again once the first exchange is over. *)
Abbreviation running := (run toy_sha (fun s => s) default_settings (fun _ => []) greeting toy_random 600).
Abbreviation replayed := (running (happened redeemed) (Arrives Token (redeeming 0 0) :: repeat (Steps 2 Fine) 20)).

Lemma reuse_ends_the_session_witness :
  status_of replayed 2 = Some 400 /\ dead (drawn_token 1 0) (state (running replayed [])).
Proof.
  assert (H : status_of replayed 2 = Some 400) by (vm_compute; reflexivity). split; [exact H|].
  assert (Hlen : length (threads (happened redeemed)) = 2%nat) by (vm_compute; reflexivity).
  destruct (status_thread _ _ _ H) as [th Eth].
  assert (Hfin : forall j th', threads (happened redeemed) !! j = Some th' -> finished th').
  { intros j th' Hj. pose proof (lookup_lt_Some _ _ _ Hj) as Hlt. rewrite Hlen in Hlt.
    assert (H0 : status_of (happened redeemed) 0 = Some 302) by (vm_compute; reflexivity).
    assert (H1 : status_of (happened redeemed) 1 = Some 200) by (vm_compute; reflexivity).
    destruct j as [|[|j]]; [exact (finished_scene _ _ _ H0 _ Hj)|exact (finished_scene _ _ _ H1 _ Hj)|lia]. }
  assert (Hseen : shows reuse_seen (did th) (drawn_token 1 0)).
  { assert (Hs : (fun t => omap reuse_seen (did t)) <$> threads replayed !! 2%nat = Some [drawn_token 1 0]) by (vm_compute; reflexivity).
    rewrite Eth in Hs. cbn [fmap option_fmap option_map] in Hs. injection Hs as Hs.
    assert (Hin : drawn_token 1 0 ∈ omap reuse_seen (did th)) by (rewrite Hs; apply list_elem_of_here).
    apply list_elem_of_omap in Hin as (e & He & Hk). exists e. split; [exact He|exact Hk]. }
  pose proof (reuse_ends_the_session toy_sha (fun s => s) default_settings (fun _ => []) greeting toy_random 600 redeemed
    (redeeming 0 0) 20 [] th (drawn_token 1 0) toy_ideal) as Hd.
  cbn zeta in Hd. rewrite Hlen in Hd. exact (proj2 (Hd Hfin Eth (finished_scene replayed 2 400 H th Eth) Hseen)).
Defined.

Lemma revoked_is_final_witness :
  let vs := redeemed ++ Arrives Token (redeeming 0 0) :: repeat (Steps 2 Fine) 20 in
  exists t, Tokens.access (tokens (state (running (happened vs) []))) !! Clients.digest toy_sha (drawn_token 1 1) = Some t /\
    Tokens.is_live t 0 = false.
Proof.
  cbn zeta. set (vs := redeemed ++ _).
  assert (H : Tokens.revoked <$> Tokens.access (tokens (state (happened vs))) !! Clients.digest toy_sha (drawn_token 1 1) = Some true)
    by (vm_compute; reflexivity).
  assert (H' : is_Some (Tokens.access (tokens (state (running (happened vs) []))) !! Clients.digest toy_sha (drawn_token 1 1)))
    by (vm_compute; eexists; reflexivity).
  destruct H' as [t' Ht']. apply fmap_Some in H as (t & Ht & Hr). exists t'. split; [exact Ht'|].
  exact (revoked_is_final toy_sha (fun s => s) default_settings (fun _ => []) greeting toy_random 600
    vs [] (Clients.digest toy_sha (drawn_token 1 1)) t t' toy_ideal Ht (eq_sym Hr) Ht' 0).
Defined.

Definition is_ok {A} `{!EqDecision A} (r : result OAuthError.OAuthError A) (a : A) : bool :=
  match r with Ok b => bool_decide (b = a) | Err _ => false end.
Lemma is_ok_spec {A} `{!EqDecision A} (r : result OAuthError.OAuthError A) a : is_ok r a = true -> r = Ok a.
Proof. unfold is_ok. destruct r; [|done]. by intros ->%bool_decide_eq_true. Qed.

(** The state in which Ada's code waits for its client. *)
Definition waiting : list event := [Registers spa; Arrives Decide approval] ++ goes_on 0 10.

Lemma fmap_true {A} (f : A -> bool) o : f <$> o = Some true -> exists a, o = Some a /\ f a = true.
Proof. destruct o as [a|]; [|done]. intros [= H]. by exists a. Qed.

Lemma code_buys_its_tokens_witness :
  let w := state (happened waiting) in let p := form (redeeming 0 0) in
  exists t rt, (alone toy_random 600 1 0 w (authorization_code toy_sha default_settings spa p)).1 = Ok t /\
    TokenResponse.refresh_token t = Some rt.
Proof.
  intros w p.
  assert (H : (fun c : Codes.AuthorizationCode =>
      is_ok (get (lit "redirect_uri") p) (Some (Codes.redirect_uri c)) &&
      is_ok (narrowed p (Codes.scopes c)) (Codes.scopes c) &&
      bool_decide (Codes.family c = None) && (clock w <? Codes.expires_at c) &&
      bool_decide (Codes.client_id c = Clients.id spa) && Pkce.verify toy_sha verifier (Codes.challenge c) (Codes.challenge_method c))
    <$> codes w !! Clients.digest toy_sha (drawn_token 0 0) = Some true) by (vm_compute; reflexivity).
  assert (P1 : says p (lit "code") (drawn_token 0 0)) by (vm_compute; reflexivity).
  assert (P2 : says p (lit "code_verifier") verifier) by (vm_compute; reflexivity).
  destruct (fmap_true _ _ H) as (code & E & Hc). clear H. clearbody w p.
  apply andb_prop in Hc as [Hc H6]. apply andb_prop in Hc as [Hc H5]. apply andb_prop in Hc as [Hc H4].
  apply andb_prop in Hc as [Hc H3]. apply andb_prop in Hc as [H1 H2].
  apply is_ok_spec in H1, H2. apply bool_decide_eq_true in H3, H5. apply Z.ltb_lt in H4.
  pose proof (code_buys_its_tokens toy_sha default_settings toy_random 600 1 0 w spa p (drawn_token 0 0) verifier code
    (Codes.scopes code) P1 H1 P2 H2 E H3 H4 H5 H6) as Hb.
  destruct (alone _ _ _ _ _ _) as [res w']. destruct Hb as (t & rt & _ & _ & _ & -> & Hrt & _).
  exists t, rt. split; [reflexivity|exact Hrt].
Defined.

Definition both {A B} (x : option A) (y : option B) : option (A * B) :=
  match x, y with Some a, Some b => Some (a, b) | _, _ => None end.
Lemma both_true {A B} (f : A * B -> bool) x y : f <$> both x y = Some true -> exists a b, x = Some a /\ y = Some b /\ f (a, b) = true.
Proof. destruct x as [a|], y as [b|]; try done. intros [= H]. by exists a, b. Qed.

(** The code is presented again, by request 2, before request 1 stores its tokens. *)
Definition replaying : list event := Arrives Token (redeeming 0 0) :: goes_on 2 6.

Lemma tokens_outlive_their_revocation_witness :
  let spent := running (happened waiting) (Arrives Token (redeeming 0 0) :: repeat (Steps 1 Fine) 4) in
  let later := running spent (replaying ++ repeat (Steps 1 Fine) 7) in
  (exists told, answered (running spent (Arrives Token (redeeming 0 0) :: repeat (Steps 2 Fine) 6)) 2 (Token, redeeming 0 0) told) /\
  (exists tr t, answered later 1 (Token, redeeming 0 0) (success tr) /\
     Tokens.access (tokens (state later)) !! Clients.digest toy_sha (TokenResponse.access_token tr) = Some t /\
     Tokens.is_live t (clock (state later)) = true) /\
  status_of (happened overtaken) 3 = Some 200.
Proof.
  set (p := form (redeeming 0 0)).
  assert (Hw : (fun '(c, f) =>
      is_ok (get (lit "redirect_uri") p) (Some (Codes.redirect_uri c)) && is_ok (narrowed p (Codes.scopes c)) (Codes.scopes c) &&
      bool_decide (Codes.family c = None) && (clock (state (happened waiting)) <? Codes.expires_at c) &&
      bool_decide (Codes.client_id c = Clients.id f) && Pkce.verify toy_sha verifier (Codes.challenge c) (Codes.challenge_method c) &&
      bool_decide (Clients.secret_hash f = None))
    <$> both (codes (state (happened waiting)) !! Clients.digest toy_sha (drawn_token 0 0))
             (clients (state (happened waiting)) !! lit "spa") = Some true) by (vm_compute; reflexivity).
  assert (Hlen : length (threads (happened waiting)) = 1%nat) by (vm_compute; reflexivity).
  assert (Ho : status_of (happened overtaken) 3 = Some 200) by (vm_compute; reflexivity).
  assert (Hcl : let spent := running (happened waiting) (Arrives Token (redeeming 0 0) :: repeat (Steps 1 Fine) 4) in
    (clock (state (running spent (replaying ++ repeat (Steps 1 Fine) 7))) <? u64_max) = true) by (vm_compute; reflexivity).
  assert (P0 : presented (redeeming 0 0) p = Ok (mkCredentials (lit "spa") None)) by (vm_compute; reflexivity).
  assert (P1 : says p (lit "grant_type") (lit "authorization_code")) by (vm_compute; reflexivity).
  assert (P2 : says p (lit "code") (drawn_token 0 0)) by (vm_compute; reflexivity).
  assert (P3 : says p (lit "code_verifier") verifier) by (vm_compute; reflexivity).
  assert (He : forallb (elsewhere 1) replaying = true) by (vm_compute; reflexivity).
  destruct (both_true _ _ _ Hw) as (code & found & Ec & Ef & Hboth). clear Hw. cbn beta iota in Hboth. rename Hboth into Hw.
  apply andb_prop in Hw as [Hw H7]. apply andb_prop in Hw as [Hw H6]. apply andb_prop in Hw as [Hw H5].
  apply andb_prop in Hw as [Hw H4]. apply andb_prop in Hw as [Hw H3]. apply andb_prop in Hw as [H1 H2].
  apply is_ok_spec in H1, H2. apply bool_decide_eq_true in H3, H5, H7. apply Z.ltb_lt in H4. apply Z.ltb_lt in Hcl.
  pose proof (tokens_outlive_their_revocation toy_sha (fun s => s) default_settings (fun _ => []) greeting toy_random 600 waiting
    (redeeming 0 0) (mkCredentials (lit "spa") None) found (drawn_token 0 0) verifier code (Codes.scopes code)
    P0 Ef H7 P1 P2 H1 P3 H2 Ec H3 H4 H5 H6) as [Htold Hlive].
  cbn zeta. rewrite Hlen in Htold, Hlive. destruct (Hlive replaying He) as (tr & t & Ha & Ht & _ & _ & _ & Hl).
  split; [eexists; exact Htold|]. split; [|exact Ho]. exists tr, t. split; [exact Ha|]. split; [exact Ht|].
  apply Hl; [reflexivity|exact Hcl].
Defined.

Lemma refresh_moves_the_session_witness :
  let p := form (refreshing 1 3) in
  exists t rt, (alone toy_random 600 (length (threads (happened redeemed))) 0 (state (happened redeemed))
    (refresh_token toy_sha default_settings spa p)).1 = Ok t /\ TokenResponse.refresh_token t = Some rt.
Proof.
  intros p.
  assert (H : (fun r : Tokens.RefreshToken =>
      Tokens.refresh_is_live r (clock (state (happened redeemed))) && bool_decide (Tokens.r_client_id r = Clients.id spa) &&
      is_ok (narrowed p (Tokens.r_scopes r)) (Tokens.r_scopes r))
    <$> Tokens.refresh (tokens (state (happened redeemed))) !! Clients.digest toy_sha (drawn_token 1 3) = Some true) by (vm_compute; reflexivity).
  assert (P1 : says p (lit "refresh_token") (drawn_token 1 3)) by (vm_compute; reflexivity).
  destruct (fmap_true _ _ H) as (r & E & Hc). clear H. clearbody p.
  apply andb_prop in Hc as [Hc H3]. apply andb_prop in Hc as [H1 H2]. apply bool_decide_eq_true in H2. apply is_ok_spec in H3.
  pose proof (refresh_moves_the_session toy_sha (fun s => s) default_settings (fun _ => []) greeting toy_random 600 redeemed spa
    p (drawn_token 1 3) r (Tokens.r_scopes r) toy_ideal P1 E H1 H2 H3) as Hb.
  destruct (alone _ _ _ _ _ _) as [res w']. destruct Hb as (t & rt & _ & _ & _ & -> & Hrt & _).
  exists t, rt. split; [reflexivity|exact Hrt].
Defined.

Lemma half_a_character_crashes_witness :
  bytes (lit "a b%") /\ utf8_valid (lit "a b%") = true /\ OAuthUrl.decode (OAuthUrl.encode (lit "a b%")) = Some (lit "a b%").
Proof.
  assert (Hb : bytes (lit "a b%")) by (by apply (bool_decide_unpack _); vm_compute).
  assert (Hv : utf8_valid (lit "a b%") = true) by (by vm_compute). split_and!; [exact Hb|exact Hv|].
  apply (half_a_character_crashes (lit "a b%") Hb Hv).
Defined.
End OAuthTheorems.
