(* ===== verification/Sealing.v ===== *)
(** * Sealed values and signed links ([rustlavel-auth/src/key.rs],
    [encryption.rs], [signed_url.rs])

    The application key and the keys derived from it, encrypted payloads, and
    links that carry their own proof. HMAC-SHA256 and AES-256-GCM are arguments;
    random bytes and the time are arguments of the operations that use them. *)

From S2P Require Import Prelude Text JsonText Base64 Url OAuth.

(** ** Tokens in base64 *)

Module Tokens.

(** The characters of the alphabet of URLs. *)
Definition token_char (b : Z) : bool := in_range 65 90 b || in_range 97 122 b || in_range 48 57 b || (b =? 45) || (b =? 95).

Lemma alphabet_token_char x : token_char (Base64.alphabet_at Base64.URL_SAFE (Z.land x 63)) = true.
Proof.
  pose proof (forall_below 64 (fun i => token_char (Base64.alphabet_at Base64.URL_SAFE i)) ltac:(vm_compute; reflexivity)) as H.
  apply (H (Z.land x 63)). change 63 with (2 ^ 6 - 1). rewrite land_ones_mod by lia. apply Z.mod_pos_bound. lia.
Qed.

Lemma encode_url_chars l : Forall (fun b => token_char b = true) (Base64.encode_url l).
Proof.
  unfold Base64.encode_url, Base64.encode_with. apply Forall_concat, Forall_map, Forall_true. intros c. unfold Base64.encode_chunk.
  apply Forall_app. split; [repeat apply Forall_cons_2; try apply Forall_nil_2; apply alphabet_token_char|]. apply Forall_app.
  split; (case_match; [apply Forall_cons_2; [apply alphabet_token_char|]|]; apply Forall_nil_2).
Qed.

Lemma token_char_plain b : token_char b = true -> b <> 46 /\ b <> 59 /\ b <> 37 /\ b <> 61 /\ b <> 38 /\ 0 <= b < 128.
Proof. unfold token_char, in_range. lia. Qed.

End Tokens.

(** ** The application key ([key.rs]) *)

Module AppKey.

Definition KEY_LENGTH : nat := 32.

Inductive KeyError := EmptyKey | NotBase64 | WrongLength (n : nat).

Definition from_base64 (value : list Z) : result KeyError (list Z) :=
  let trimmed := trim value in
  if bool_decide (trimmed = []) then Err EmptyKey
  else
    match Base64.decode (default trimmed (strip_prefix trimmed (lit "base64:"))) with
    | None => Err NotBase64
    | Some decoded => if (length decoded =? KEY_LENGTH)%nat then Ok decoded else Err (WrongLength (length decoded))
    end.

(** From 32 random bytes. *)
Definition generate (random : list Z) : list Z := lit "base64:" ++ Base64.encode random.

Definition derive (hmac : list Z -> list Z -> list Z) (key purpose : list Z) : list Z := hmac key (lit "rustlavel:" ++ purpose).

(** A generated line is read back as the key it was made from. *)
Lemma from_base64_generate random : bytes random -> length random = KEY_LENGTH -> from_base64 (generate random) = Ok random.
Proof.
  intros Hb Hl. unfold from_base64, generate.
  assert (Hv : forall l, bytes l -> Forall visible (Base64.encode l)).
  { intros l Hl'. unfold Base64.encode, Base64.encode_with. apply Forall_concat, Forall_map, Forall_true. intros c.
    assert (Ha : forall x, visible (Base64.alphabet_at Base64.STANDARD (Z.land x 63))).
    { intros x. pose proof (forall_below 64 (fun i => (33 <=? Base64.alphabet_at Base64.STANDARD i) && (Base64.alphabet_at Base64.STANDARD i <=? 126))
        ltac:(vm_compute; reflexivity) (Z.land x 63)) as H. unfold visible. cbv beta in H. rewrite andb_true_iff, !Z.leb_le in H. apply H.
      change 63 with (2 ^ 6 - 1). rewrite land_ones_mod by lia. apply Z.mod_pos_bound. lia. }
    unfold Base64.encode_chunk. apply Forall_app. split; [repeat apply Forall_cons_2; [apply Ha..|constructor]|]. apply Forall_app.
    split; (case_match; apply Forall_cons_2; [apply Ha|constructor|by vm_compute|constructor]). }
  rewrite trim_visible by (apply Forall_app; split; [by apply (bool_decide_unpack _)|by apply Hv]).
  rewrite bool_decide_eq_false_2 by done. rewrite (proj2 (strip_prefix_spec _ (lit "base64:") (Base64.encode random))) by done.
  cbn [from_option id]. rewrite (proj1 (Base64.decode_encode random Hb)), Hl. done.
Qed.

End AppKey.

(** ** Encrypted payloads ([encryption.rs]) *)

Module Encrypter.

Definition VERSION : Z := 1.
Definition NONCE_LENGTH : nat := 12.
Definition TAG_LENGTH : nat := 16.

Section Encrypter.
Context (hmac : list Z -> list Z -> list Z).
(** AES-256-GCM: what [Aead::encrypt] and [decrypt] answer for a key, a nonce and a payload. *)
Context (encrypt decrypt : list Z -> list Z -> list Z -> option (list Z)).

(** The key of [cipher]. *)
Definition cipher (key : list Z) : list Z := AppKey.derive hmac key (lit "encryption").

Definition encrypt_bytes (key nonce plaintext : list Z) : option (list Z) :=
  let! ciphertext := encrypt (cipher key) nonce plaintext in
  Some (Base64.encode_url (VERSION :: nonce ++ ciphertext)).

Definition decrypt_bytes (key payload : list Z) : option (list Z) :=
  let! raw := Base64.decode payload in
  if (length raw <? 1 + NONCE_LENGTH + TAG_LENGTH)%nat || negb (bool_decide (head raw = Some VERSION)) then None
  else
    let rest := tail raw in
    decrypt (cipher key) (take NONCE_LENGTH rest) (drop NONCE_LENGTH rest).

Definition decrypt_string (key payload : list Z) : option (list Z) :=
  let! plaintext := decrypt_bytes key payload in
  if utf8_valid plaintext then Some plaintext else None.

(** What was sealed is opened, by a cipher that opens what it seals. *)
Lemma decrypt_encrypt key nonce plaintext payload :
  (forall k n p c, encrypt k n p = Some c -> decrypt k n c = Some p /\ bytes c /\ (TAG_LENGTH <= length c)%nat) ->
  bytes nonce -> length nonce = NONCE_LENGTH ->
  encrypt_bytes key nonce plaintext = Some payload -> decrypt_bytes key payload = Some plaintext.
Proof.
  intros Hc Hn Hl. unfold encrypt_bytes, decrypt_bytes. destruct (encrypt _ _ _) as [c|] eqn:E; [|done]. intros [= <-].
  destruct (Hc _ _ _ _ E) as (Hd & Hb & Ht).
  rewrite (proj2 (Base64.decode_encode (VERSION :: nonce ++ c) ltac:(constructor; [by vm_compute|by apply Forall_app]))).
  rewrite (proj2 (Nat.ltb_ge _ _)) by (cbn [length]; rewrite length_app; unfold TAG_LENGTH, NONCE_LENGTH in *; lia).
  cbn [head negb orb tail]. rewrite bool_decide_eq_true_2 by done. cbn [negb]. by rewrite take_app_length', drop_app_length' by done.
Qed.

End Encrypter.
End Encrypter.

(** ** Signed links ([signed_url.rs]) *)

Module UrlSigner.

Definition SIGNATURE_PARAM : list Z := lit "signature".
Definition EXPIRES_PARAM : list Z := lit "expires".

Inductive SignatureError := Missing | Invalid | Expired.

Definition message (e : SignatureError) : list Z :=
  match e with
  | Missing => lit "This link is missing its signature."
  | Invalid => lit "This link is not valid."
  | Expired => lit "This link has expired."
  end.

(** [str::find] of a text: the offset of its first occurrence. *)
Fixpoint find (p l : list Z) : option nat :=
  if starts_with l p then Some 0%nat
  else match l with [] => None | _ :: l => S <$> find p l end.

(** Where the path of a location begins. *)
Definition path_start (location : list Z) : nat :=
  match find (lit "://") location with
  | Some scheme_end =>
      match find (lit "/") (drop (scheme_end + 3) location) with
      | Some offset => (scheme_end + 3 + offset)%nat
      | None => length location
      end
  | None => 0%nat
  end.

Definition split_url (url : list Z) : list Z * list Z * list Z :=
  let '(location, query) := match split_once 63 url with Some p => p | None => (url, []) end in
  (take (path_start location) location, drop (path_start location) location, query).

Abbreviation Pairs := (list (list Z * list Z)).

Definition pairs_text (pairs : Pairs) : list Z :=
  join (lit "&") (map (fun kv => Url.encode kv.1 ++ lit "=" ++ Url.encode kv.2) pairs).

Definition or_root (path : list Z) : list Z := if bool_decide (path = []) then lit "/" else path.

Definition canonical (path : list Z) (pairs : Pairs) : list Z :=
  let query := pairs_text (stable_sort (fun a b => text_le a.1 b.1) pairs) in
  if bool_decide (query = []) then or_root path else or_root path ++ lit "?" ++ query.

Definition render (path : list Z) (pairs : Pairs) : list Z :=
  if bool_decide (pairs = []) then or_root path else or_root path ++ lit "?" ++ pairs_text pairs.

Definition named (name : list Z) (kv : list Z * list Z) : bool := bool_decide (kv.1 = name).

Section Signer.
Context (hmac : list Z -> list Z -> list Z) (key : list Z).

(** The key of [UrlSigner::new]. *)
Definition signing_key : list Z := AppKey.derive hmac key (lit "signed-url").
Definition signature (text : list Z) : list Z := Base64.encode_url (hmac signing_key text).

Definition sign (url : list Z) (expires_at : option Z) : list Z :=
  let '(origin, path, query) := split_url url in
  let pairs := List.filter (fun kv => negb (named SIGNATURE_PARAM kv) && negb (named EXPIRES_PARAM kv)) (Url.parse_query query) in
  let pairs := pairs ++ match expires_at with Some t => [(EXPIRES_PARAM, dec t)] | None => [] end in
  let pairs := pairs ++ [(SIGNATURE_PARAM, signature (canonical path pairs))] in
  origin ++ render path pairs.

(** The sum of two [u64] wraps. *)
Definition sign_temporary (url : list Z) (ttl now : Z) : list Z := sign url (Some (wrap 64 (now + ttl))).

Definition verify (url : list Z) (now : Z) : result SignatureError unit :=
  let '(_, path, query) := split_url url in
  let pairs := Url.parse_query query in
  match List.find (named SIGNATURE_PARAM) pairs with
  | None => Err Missing
  | Some (_, presented) =>
      let signed := List.filter (fun kv => negb (named SIGNATURE_PARAM kv)) pairs in
      if negb (Pkce.constant_time_eq (signature (canonical path signed)) presented) then Err Invalid
      else
        match List.find (named EXPIRES_PARAM) signed with
        | None => Ok tt
        | Some (_, value) =>
            match parse_int false 0 usize_max value with
            | Some expires => if now <=? expires then Ok tt else Err Expired
            | None => Err Invalid
            end
        end
  end.

Definition is_valid (url : list Z) (now : Z) : bool := match verify url now with Ok _ => true | Err _ => false end.

End Signer.

(** ** Links that verify *)

Lemma starts_with_app l r p : (length p <= length l)%nat -> starts_with (l ++ r) p = starts_with l p.
Proof.
  revert l. induction p as [|x p IH]; intros l H; [by destruct l|]. destruct l as [|y l]; cbn in H; [lia|].
  cbn. by rewrite IH by lia.
Qed.

Lemma starts_with_length l p : starts_with l p = true -> (length p <= length l)%nat.
Proof. intros [r ->]%starts_with_spec. rewrite length_app. lia. Qed.

Lemma find_length p l n : find p l = Some n -> (n + length p <= length l)%nat.
Proof.
  revert n. induction l as [|b l IH]; intros n; cbn [find].
  - destruct (starts_with [] p) eqn:E; [|done]. intros [= <-]. by apply starts_with_length in E.
  - destruct (starts_with (b :: l) p) eqn:E; [intros [= <-]; by apply starts_with_length in E|].
    destruct (find p l) as [k|]; [|done]. intros [= <-]. specialize (IH k eq_refl). cbn. lia.
Qed.

Lemma find_app p l r n : find p l = Some n -> find p (l ++ r) = Some n.
Proof.
  revert n. induction l as [|b l IH]; intros n H.
  - cbn [find] in H. destruct (starts_with [] p) eqn:E; [|done]. injection H as <-. destruct p; [by destruct r|done].
  - pose proof (find_length _ _ _ H) as Hl. cbn [app find] in *. change (b :: l ++ r) with ((b :: l) ++ r).
    rewrite starts_with_app by lia. destruct (starts_with (b :: l) p); [done|].
    destruct (find p l) as [k|]; [|done]. by rewrite (IH k eq_refl).
Qed.

Lemma find_one_last l : find [47] l = None -> find [47] (l ++ [47]) = Some (length l).
Proof.
  induction l as [|b l IH]; [done|]. cbn [find app length starts_with]. destruct (47 =? b); [done|]. cbn [andb].
  destruct (find [47] l); [done|]. intros _. by rewrite IH.
Qed.

(** A link is its origin, its path and its query, and reads the same with a
    query that was written anew. *)
Lemma split_url_again url origin path query text : split_url url = (origin, path, query) ->
  (63 ∉ origin ++ path) /\ split_url (origin ++ or_root path ++ lit "?" ++ text) = (origin, or_root path, text).
Proof.
  unfold split_url. set (lq := match split_once 63 url with Some p => p | None => (url, []) end).
  assert (Hl : Forall (fun b => b <> 63) lq.1).
  { subst lq. destruct (split_once 63 url) as [[a b]|] eqn:E.
    - revert a b E. induction url as [|x url IH]; intros a b; cbn [split_once]; [done|]. destruct (Z.eqb_spec x 63); [by intros [= <- <-]|].
      destruct (split_once 63 url) as [[a' b']|]; [|done]. intros [= <- <-]. apply Forall_cons_2; [done|]. by eapply IH.
    - revert E. induction url as [|x url IH]; cbn [split_once]; [constructor|]. destruct (Z.eqb_spec x 63); [done|].
      destruct (split_once 63 url) as [[a' b']|]; [done|]. intros _. apply Forall_cons_2; [done|]. by apply IH. }
  destruct lq as [location q]. cbn [fst] in Hl.
  set (start := path_start). intros [= <- <- <-].
  rewrite take_drop. split; [intros H; rewrite List.Forall_forall in Hl; apply (Hl 63); [by apply list_elem_of_In|done]|].
  assert (Hloc : exists location', take (start location) location ++ or_root (drop (start location) location) = location' /\
    Forall (fun b => b <> 63) location' /\ start location' = start location).
  { unfold or_root. destruct (bool_decide _) eqn:Ed.
    - apply bool_decide_eq_true in Ed. exists (location ++ [47]).
      assert (Hs : (length location <= start location)%nat) by (apply (f_equal length) in Ed; rewrite length_drop in Ed; cbn in Ed; lia).
      rewrite take_ge by done. split; [done|]. split; [apply Forall_app; split; [done|by repeat constructor]|].
      revert Hs. unfold start, path_start. destruct (find (lit "://") location) as [n|] eqn:En.
      + pose proof (find_length _ _ _ En) as Hn. cbn in Hn. rewrite (find_app _ _ _ _ En), drop_app_le by lia.
        destruct (find (lit "/") (drop (n + 3) location)) as [o|] eqn:Eo.
        * apply find_length in Eo. rewrite length_drop in Eo. cbn in Eo. lia.
        * intros _. change (lit "/") with [47] in *. rewrite find_one_last by done. rewrite length_drop. lia.
      + intros Hs. destruct location; [done|cbn in Hs; lia].
    - exists location. by rewrite take_drop. }
  destruct Hloc as (location' & Hloc & Hn & Hs). rewrite (app_assoc (take _ _)), Hloc. change (lit "?" ++ text) with (63 :: text).
  rewrite split_once_app by done. fold start. rewrite Hs.
  assert (Hle : (start location <= length location)%nat).
  { unfold start, path_start. destruct (find (lit "://") location) as [n|] eqn:En; [|lia].
    destruct (find (lit "/") (drop (n + 3) location)) as [o|] eqn:Eo; [|lia].
    apply find_length in Eo. rewrite length_drop in Eo. cbn in Eo. apply find_length in En. cbn in En. lia. }
  rewrite <- Hloc. rewrite take_app_length', drop_app_length' by (rewrite length_take; lia). done.
Qed.

(** The parameters of a link, and what its signature covers. *)
Definition fields (url : list Z) : Pairs := Url.parse_query (split_url url).2.
Definition link_path (url : list Z) : list Z := or_root (split_url url).1.2.
Definition covered (url : list Z) : Pairs := List.filter (fun kv => negb (named SIGNATURE_PARAM kv)) (fields url).
Definition in_order (pairs : Pairs) : Pairs := stable_sort (fun a b => text_le a.1 b.1) pairs.

Definition text_ok (kv : list Z * list Z) : Prop := bytes kv.1 /\ bytes kv.2 /\ utf8_valid kv.1 = true /\ utf8_valid kv.2 = true.

Lemma ascii_ok l : Forall (fun b => 0 <= b < 128) l -> bytes l /\ utf8_valid l = true.
Proof.
  intros H. split; [|apply utf8_valid_ascii]; (eapply Forall_impl; [|exact H]); intros b Hb; cbv beta in *; lia.
Qed.

Lemma pairs_text_read pairs : Forall text_ok pairs -> Url.parse_query (pairs_text pairs) = pairs.
Proof. intros H. exact (proj2 (Url.encode_roundtrip pairs H)). Qed.

Lemma pairs_text_nil pairs : pairs_text pairs = [] -> pairs = [].
Proof.
  destruct pairs as [|[k v] pairs]; [done|]. unfold pairs_text. cbn [map fst snd]. intros H. exfalso.
  destruct (map _ pairs) as [|x l]; [cbn in H|rewrite join_cons in H by done]; by destruct (Url.encode k).
Qed.

Lemma filter_all {A} (f : A -> bool) l : Forall (fun a => f a = true) l -> List.filter f l = l.
Proof. induction 1 as [|a l Ha _ IH]; [done|]. cbn. by rewrite Ha, IH. Qed.

Lemma find_none {A} (f : A -> bool) l r : Forall (fun a => f a = false) l -> List.find f (l ++ r) = List.find f r.
Proof. induction 1 as [|a l Ha _ IH]; [done|]. cbn. by rewrite Ha. Qed.

Lemma filter_perm {A} (f : A -> bool) l l' : Permutation l l' -> Permutation (List.filter f l) (List.filter f l').
Proof.
  induction 1 as [|x l l' _ IH|x y l|l1 l2 l3 _ IH1 _ IH2]; cbn [List.filter]; [done|..|by etrans].
  - destruct (f x); [by constructor|done].
  - destruct (f x), (f y); try done. constructor.
Qed.

Lemma canonical_inj path pairs path' pairs' : (63 ∉ or_root path) -> (63 ∉ or_root path') -> Forall text_ok pairs -> Forall text_ok pairs' ->
  canonical path pairs = canonical path' pairs' -> or_root path = or_root path' /\ in_order pairs = in_order pairs'.
Proof.
  intros H1 H2 Hp Hp'. unfold canonical. fold (in_order pairs) (in_order pairs').
  assert (Hs : forall l, Forall text_ok l -> Forall text_ok (in_order l)).
  { intros l Hl. unfold in_order. eapply Permutation_Forall; [symmetry; apply stable_sort_perm|done]. }
  apply Hs in Hp, Hp'. clear Hs. generalize dependent (in_order pairs). generalize dependent (in_order pairs'). clear pairs pairs'.
  intros l' Hl' l Hl.
  assert (Hsplit : forall p t, (63 ∉ p) -> split_once 63 (p ++ lit "?" ++ t) = Some (p, t)).
  { intros p t Hq. apply split_once_app. apply List.Forall_forall. intros x Hx ->. apply Hq. by apply list_elem_of_In. }
  destruct (bool_decide_reflect (pairs_text l = [])) as [E1|_], (bool_decide_reflect (pairs_text l' = [])) as [E2|_].
  - intros Hx. apply pairs_text_nil in E1, E2. by subst.
  - intros Hx. exfalso. apply H1. rewrite Hx. apply elem_of_app. right. by left.
  - intros Hx. exfalso. apply H2. rewrite <- Hx. apply elem_of_app. right. by left.
  - intros Hx. apply (f_equal (split_once 63)) in Hx. rewrite !Hsplit in Hx by done. injection Hx as Hq Ht. split; [done|].
    apply (f_equal Url.parse_query) in Ht. by rewrite !pairs_text_read in Ht by done.
Qed.

Lemma or_root_again path : or_root (or_root path) = or_root path.
Proof. unfold or_root. by repeat case_bool_decide. Qed.

Section Links.
Context (hmac : list Z -> list Z -> list Z) (key : list Z) (url : list Z) (expires_at : option Z).
Hypothesis Htext : Forall text_ok (fields url).
Hypothesis Hexp : forall t, expires_at = Some t -> 0 <= t <= usize_max.

(** What the signature of a link is made from. *)
Definition promised : Pairs :=
  List.filter (fun kv => negb (named SIGNATURE_PARAM kv) && negb (named EXPIRES_PARAM kv)) (fields url) ++
  match expires_at with Some t => [(EXPIRES_PARAM, dec t)] | None => [] end.

Lemma promised_ok : Forall text_ok promised /\ Forall (fun kv => named SIGNATURE_PARAM kv = false) promised.
Proof.
  assert (Hd : forall n, Forall (fun b => 0 <= b < 128) (dec n)).
  { intros n. eapply Forall_impl; [|apply dec_visible]. unfold visible. intros b Hb. cbv beta. lia. }
  unfold promised. rewrite !Forall_app. split_and!.
  - apply List.Forall_forall. intros kv [Hkv _]%filter_In. exact (proj1 (List.Forall_forall _ _) Htext kv Hkv).
  - destruct expires_at as [t|]; [|constructor]. constructor; [|constructor]. destruct (ascii_ok (dec t) (Hd t)) as [H1 H2].
    split_and!; [by apply (bool_decide_unpack _)|exact H1|done|exact H2].
  - apply List.Forall_forall. intros kv [_ H]%filter_In. by destruct (named SIGNATURE_PARAM kv).
  - destruct expires_at as [t|]; repeat constructor.
Qed.

Lemma sign_fields : let s := signature hmac key (canonical (split_url url).1.2 promised) in
  fields (sign hmac key url expires_at) = promised ++ [(SIGNATURE_PARAM, s)] /\
  link_path (sign hmac key url expires_at) = link_path url /\
  covered (sign hmac key url expires_at) = promised.
Proof.
  cbv zeta. destruct promised_ok as [Hok Hns]. unfold covered, fields, link_path, sign, promised in *. unfold fields in *.
  destruct (split_url url) as [[origin path] query] eqn:E. cbn [fst snd] in *.
  set (ps := _ ++ match expires_at with Some _ => _ | None => _ end) in *. set (s := signature _ _ _).
  assert (Hall : Forall text_ok (ps ++ [(SIGNATURE_PARAM, s)])).
  { apply Forall_app. split; [done|]. constructor; [|constructor]. subst s. unfold signature.
    destruct (ascii_ok (Base64.encode_url (hmac (signing_key hmac key) (canonical path ps)))) as [H1 H2].
    { eapply Forall_impl; [|apply Tokens.encode_url_chars]. intros b Hb. by apply Tokens.token_char_plain. }
    split_and!; [by apply (bool_decide_unpack _)|exact H1|done|exact H2]. }
  unfold render. rewrite bool_decide_eq_false_2 by (by destruct ps).
  rewrite (proj2 (split_url_again _ _ _ _ (pairs_text (ps ++ [(SIGNATURE_PARAM, s)])) E)). cbn [fst snd].
  rewrite pairs_text_read by done. split_and!; [done|apply or_root_again|].
  rewrite List.filter_app, filter_all by (eapply Forall_impl; [|exact Hns]; by intros kv ->).
  cbn [List.filter]. unfold named at 1. cbn [fst]. rewrite bool_decide_eq_true_2 by done. cbn [negb]. apply app_nil_r.
Qed.
End Links.

(** The text a signature of a link is the MAC of. *)
Definition signed_text (url : list Z) : list Z := canonical (split_url url).1.2 (covered url).

(** C4. A link that was signed verifies until it expires, wherever it is served
    from. And what verifies with the signature of a signed link is that link (its
    path, its parameters up to the order of different names, and its expiry, which
    therefore nobody can move), or else it exhibits a collision of the MAC: two
    different texts, its own and the signed link's, with the same tag under the
    signing key. *)
Theorem signed_links_hold hmac key url expires_at now :
  Forall text_ok (fields url) -> (forall t, expires_at = Some t -> 0 <= t <= usize_max) ->
  verify hmac key (sign hmac key url expires_at) now =
    match expires_at with Some t => if now <=? t then Ok tt else Err Expired | None => Ok tt end /\
  forall url' now',
    let link := sign hmac key url expires_at in
    (forall a, bytes (hmac (signing_key hmac key) a)) ->
    Forall text_ok (fields url') ->
    snd <$> List.find (named SIGNATURE_PARAM) (fields url') = snd <$> List.find (named SIGNATURE_PARAM) (fields link) ->
    verify hmac key url' now' = Ok tt ->
    (link_path url' = link_path url /\ in_order (covered url') = in_order (covered link) /\
     forall t, expires_at = Some t -> now' <= t) \/
    (signed_text url' <> signed_text link /\
     hmac (signing_key hmac key) (signed_text url') = hmac (signing_key hmac key) (signed_text link)).
Proof.
  intros Htext Hexp. pose proof (sign_fields hmac key url expires_at Htext Hexp) as (Hf & Hl & Hc). cbv zeta in Hf, Hl, Hc.
  destruct (promised_ok url expires_at Htext Hexp) as [Hok Hns].
  assert (Hexpires : List.find (named EXPIRES_PARAM) (promised url expires_at) =
    match expires_at with Some t => Some (EXPIRES_PARAM, dec t) | None => None end /\
    List.filter (named EXPIRES_PARAM) (promised url expires_at) = match expires_at with Some t => [(EXPIRES_PARAM, dec t)] | None => [] end).
  { assert (Hno : Forall (fun kv => named EXPIRES_PARAM kv = false)
      (List.filter (fun kv => negb (named SIGNATURE_PARAM kv) && negb (named EXPIRES_PARAM kv)) (fields url))).
    { apply List.Forall_forall. intros kv [_ H]%filter_In. apply andb_true_iff in H as [_ H]. by apply negb_true_iff in H. }
    unfold promised. rewrite find_none, List.filter_app by done.
    assert (Hnil : forall l, Forall (fun kv => named EXPIRES_PARAM kv = false) l -> List.filter (named EXPIRES_PARAM) l = []).
    { induction 1 as [|kv l H _ IH]; [done|]. cbn [List.filter]. by rewrite H. }
    rewrite Hnil by done. by destruct expires_at. }
  destruct Hexpires as [Hfind Hfilter].
  assert (Hparse : forall t, expires_at = Some t -> parse_int false 0 usize_max (dec t) = Some t).
  { intros t Ht. specialize (Hexp t Ht). apply parse_int_dec; [lia|]. intros _. lia. }
  split.
  - unfold verify, link_path, covered, fields in *. destruct (split_url (sign hmac key url expires_at)) as [[o p] q] eqn:E. cbn [fst snd] in *.
    rewrite Hf at 1. rewrite find_none by done. cbn [List.find]. unfold named at 1. cbn [fst]. rewrite bool_decide_eq_true_2 by done.
    rewrite Hc. replace (canonical p) with (canonical (split_url url).1.2).
    2: { unfold canonical. by rewrite Hl. }
    rewrite (proj2 (Pkce.constant_time_eq_spec _ _) eq_refl). cbn [negb]. rewrite Hfind.
    destruct expires_at as [t|]; [|done]. by rewrite (Hparse t eq_refl).
  - cbv zeta. intros url' now' Hbytes Htext' Hsig Hv.
    assert (Hst : signed_text (sign hmac key url expires_at) = canonical (split_url url).1.2 (promised url expires_at)).
    { unfold signed_text. rewrite Hc. unfold canonical. unfold link_path in Hl. by rewrite Hl. }
    destruct (decide (signed_text url' = signed_text (sign hmac key url expires_at))) as [Hsame|Hdiff]; [left|right; split; [exact Hdiff|]];
      rewrite Hst in *; clear Hst; try rewrite Hc; unfold signed_text, verify, link_path, covered, fields in *;
    destruct (split_url url') as [[o' p'] q'] eqn:E'; destruct (split_url url) as [[o p] q] eqn:E; cbn [fst snd] in *;
    rewrite Hf, find_none in Hsig by done; cbn [List.find] in Hsig; unfold named at 2 in Hsig; cbn [fst] in Hsig;
    rewrite bool_decide_eq_true_2 in Hsig by done; cbn [fmap option_fmap option_map snd] in Hsig;
    destruct (List.find (named SIGNATURE_PARAM) (Url.parse_query q')) as [[n s]|]; try done; cbn in Hsig; injection Hsig as ->;
    set (ps' := List.filter _ (Url.parse_query q')) in *; destruct (Pkce.constant_time_eq _ _) eqn:Hct; try done; cbn [negb] in Hv.
    2: { apply Pkce.constant_time_eq_spec in Hct. unfold signature in Hct.
         assert (Henc : forall a b, bytes a -> bytes b -> Base64.encode_url a = Base64.encode_url b -> a = b).
         { intros a b Ha Hb H. apply (f_equal Base64.decode) in H.
           rewrite (proj2 (Base64.decode_encode a Ha)), (proj2 (Base64.decode_encode b Hb)) in H. by injection H. }
         apply Henc in Hct; [exact Hct|apply Hbytes..]. }
    assert (Hroot : forall u o p q, split_url u = (o, p, q) -> 63 ∉ or_root p).
    { clear. intros u o p q E. destruct (split_url_again _ _ _ _ [] E) as [H _]. unfold or_root. case_bool_decide; [set_solver|].
      intros Hin. apply H. apply elem_of_app. by right. }
    apply canonical_inj in Hsame as [Hp Ho]; [|by eapply Hroot|by eapply Hroot| |done].
    2: { subst ps'. apply List.Forall_forall. intros kv [Hkv _]%filter_In. exact (proj1 (List.Forall_forall _ _) Htext' kv Hkv). }
    split; [done|]. split; [done|]. intros t Ht.
    assert (Hperm : Permutation (List.filter (named EXPIRES_PARAM) ps') (List.filter (named EXPIRES_PARAM) (promised url expires_at))).
    { apply filter_perm. unfold in_order in Ho. rewrite <- (stable_sort_perm (fun a b => text_le a.1 b.1) ps'), Ho. apply stable_sort_perm. }
    rewrite Hfilter, Ht in Hperm. apply Permutation_sym, Permutation_singleton_l in Hperm.
    assert (Hfe : List.find (named EXPIRES_PARAM) ps' = Some (EXPIRES_PARAM, dec t)).
    { clear -Hperm. induction ps' as [|kv l IH]; [done|]. cbn [List.filter List.find] in *. destruct (named EXPIRES_PARAM kv); [congruence|by apply IH]. }
    rewrite Hfe, (Hparse t Ht) in Hv. destruct (Z.leb_spec now' t); [lia|done].
Qed.

(** A MAC to run, whose tags have the length of an HMAC-SHA256. *)
Definition toy_mac (key message : list Z) : list Z :=
  map (fun i => fold_left (fun x b => (x * (31 + 2 * i) + b + i) mod 256) (key ++ message) (i mod 256)) (map Z.of_nat (seq 0 32)).

Lemma toy_mac_bytes key message : bytes (toy_mac key message) /\ length (toy_mac key message) = 32%nat.
Proof.
  split; [|unfold toy_mac; by rewrite !length_map, length_seq]. unfold toy_mac. generalize (map Z.of_nat (seq 0 32)). intros l.
  induction l as [|i l IH]; constructor; [|exact IH].
  assert (H : forall ms x, 0 <= x < 256 -> 0 <= fold_left (fun x b => (x * (31 + 2 * i) + b + i) mod 256) ms x < 256).
  { induction ms as [|b ms IHm]; intros x Hx; [exact Hx|]. cbn [fold_left]. apply IHm. by apply Z.mod_pos_bound. }
  specialize (H (key ++ message) (i mod 256) ltac:(by apply Z.mod_pos_bound)). cbv beta. lia.
Qed.

Lemma signed_links_hold_witness :
  let url := lit "https://h/u?a=1&b=2" in
  let link := sign toy_mac [] url (Some 10) in
  let tag := signature toy_mac [] (signed_text link) in
  let served := lit "/u?b=2&expires=10&a=1&signature=" ++ tag in
  let moved := lit "/u?b=2&expires=99&a=1&signature=" ++ tag in
  verify toy_mac [] link 5 = Ok tt /\ verify toy_mac [] link 11 = Err Expired /\ verify toy_mac [] moved 11 = Err Invalid /\
  verify toy_mac [] served 5 = Ok tt /\ link_path served = link_path url /\ in_order (covered served) = in_order (covered link).
Proof.
  cbv zeta. assert (Hex : forall t, Some 10 = Some t -> 0 <= t <= usize_max) by (intros t [= <-]; vm_compute; split; discriminate).
  assert (Htext : Forall text_ok (fields (lit "https://h/u?a=1&b=2"))) by (apply (bool_decide_unpack _); vm_compute; reflexivity).
  split; [exact (proj1 (signed_links_hold toy_mac [] (lit "https://h/u?a=1&b=2") (Some 10) 5 Htext Hex))|].
  split; [exact (proj1 (signed_links_hold toy_mac [] (lit "https://h/u?a=1&b=2") (Some 10) 11 Htext Hex))|].
  split; [vm_compute; reflexivity|]. split; [vm_compute; reflexivity|].
  destruct (proj2 (signed_links_hold toy_mac [] (lit "https://h/u?a=1&b=2") (Some 10) 5 Htext Hex)
    (lit "/u?b=2&expires=10&a=1&signature=" ++ signature toy_mac [] (signed_text (sign toy_mac [] (lit "https://h/u?a=1&b=2") (Some 10)))) 5
    (fun a => proj1 (toy_mac_bytes _ a))) as [(H1 & H2 & _)|[Hn _]].
  - apply (bool_decide_unpack _). vm_compute. reflexivity.
  - vm_compute. reflexivity.
  - vm_compute. reflexivity.
  - split; [exact H1|exact H2].
  - exfalso. apply Hn. vm_compute. reflexivity.
Defined.

End UrlSigner.
