(* ===== verification/Session.v ===== *)
(** * Sessions ([rustlavel-auth/src/session.rs], [store.rs], [middleware.rs],
    [csrf.rs], [guard.rs], [random.rs])

    What a visitor's session holds, the store that keeps it between requests, the
    middleware that carries it by cookie, the form token and the login guard. A
    request is a program over the random generator, the clock, the store and other
    servers; what it does to its session is state passing, since a session is
    locked for one call and shared with nobody else. *)

From S2P Require Import Prelude Text F64 Json JsonText Base64 Url Router Headers Cookie Response Server OAuth OAuthStores Sealing.

(** ** Requests ([rustlavel-http/src/request.rs]) *)

Module Requests.
Import Server.

Definition header (name : list Z) (r : Request) : option (list Z) := Headers.get name (request_headers r).

(** [cookies] and [cookie]: the value the map of the header has for a name. *)
Definition cookies (r : Request) : list (list Z * list Z) :=
  match header (lit "cookie") r with Some h => Cookie.parse_header h | None => [] end.
Definition cookie (name : list Z) (r : Request) : option (list Z) :=
  snd <$> List.find (fun nv => bool_decide (nv.1 = name)) (cookies r).

Definition is_json (r : Request) : bool :=
  match Headers.content_type (request_headers r) with Some ct => ends_with ct (lit "json") | None => false end.

Definition wants_json (r : Request) : bool :=
  is_json r ||
  match header (lit "accept") r with Some a => occurs (lit "application/json") a | None => false end ||
  match header (lit "x-requested-with") r with Some x => bool_decide (x = lit "XMLHttpRequest") | None => false end.

Inductive ParsedBody :=
  | JsonBody (value : Json.Json)
  | Form (pairs : list (list Z * list Z))
  | NoBody.

Definition parse_body (r : Request) : ParsedBody :=
  if bool_decide (request_body r = []) then NoBody
  else
    match Headers.content_type (request_headers r) with
    | Some ct =>
        if ends_with ct (lit "json") then
          if utf8_valid (request_body r) then
            match JsonText.parse (request_body r) with Ok value => JsonBody value | Err _ => NoBody end
          else NoBody
        else if bool_decide (ct = lit "application/x-www-form-urlencoded") then
          Form (Url.parse_query (utf8_lossy (request_body r)))
        else NoBody
    | None => NoBody
    end.

Definition first_of (name : list Z) (pairs : list (list Z * list Z)) : option (list Z) :=
  snd <$> List.find (fun nv => bool_decide (nv.1 = name)) pairs.

(** [input]: the body, and the query where the body has no such field. *)
Definition input (name : list Z) (r : Request) : option (list Z) :=
  let from_body :=
    match parse_body r with
    | JsonBody value =>
        match Json.get value name with
        | Some (Json.String s) => Some s
        | Some Json.Null => Some []
        | Some other => Some (JsonText.to_string other)
        | None => None
        end
    | Form pairs => first_of name pairs
    | NoBody => None
    end in
  match from_body with Some v => Some v | None => first_of name (query r) end.

End Requests.

(** ** The session *)

Module Session.

Definition ID_BYTES : nat := 32.
Definition TOKEN_KEY : list Z := lit "_token".

Definition is_valid_id (id : list Z) : bool :=
  (ID_BYTES * 2 <=? length id)%nat && (length id <=? 128)%nat &&
  forallb (fun b => in_range 48 57 b || in_range 97 102 b) id.

Record Session := mkSession {
  id : list Z;
  data : gmap (list Z) Json.Json;
  fresh_flash : gset (list Z);
  stale_flash : gset (list Z);
  updated_at : Z;
  dirty : bool }.

Definition with_id (i : list Z) (now : Z) : Session := mkSession i ∅ ∅ ∅ now false.

Definition get (key : list Z) (s : Session) : option Json.Json := data s !! key.
Definition get_string (key : list Z) (s : Session) : option (list Z) :=
  match data s !! key with
  | None | Some Json.Null => None
  | Some (Json.String value) => Some value
  | Some other => Some (JsonText.to_string other)
  end.
Definition has (key : list Z) (s : Session) : bool := bool_decide (is_Some (data s !! key)).

Definition put (key : list Z) (value : Json.Json) (s : Session) : Session :=
  mkSession (id s) (<[key := value]> (data s)) (fresh_flash s) (stale_flash s) (updated_at s) true.

Definition forget (key : list Z) (s : Session) : option Json.Json * Session :=
  let removed := data s !! key in
  (removed, mkSession (id s) (base.delete key (data s)) (fresh_flash s ∖ {[ key ]}) (stale_flash s ∖ {[ key ]}) (updated_at s)
     (dirty s || bool_decide (is_Some removed))).

Definition flush (s : Session) : Session := mkSession (id s) ∅ ∅ ∅ (updated_at s) true.

Definition flash (key : list Z) (value : Json.Json) (s : Session) : Session :=
  put key value (mkSession (id s) (data s) ({[ key ]} ∪ fresh_flash s) (stale_flash s) (updated_at s) (dirty s)).

Definition keep (key : list Z) (s : Session) : Session :=
  if bool_decide (key ∈ stale_flash s) then
    mkSession (id s) (data s) ({[ key ]} ∪ fresh_flash s) (stale_flash s ∖ {[ key ]}) (updated_at s) true
  else s.

Definition reflash (s : Session) : Session :=
  mkSession (id s) (data s) (fresh_flash s ∪ stale_flash s) ∅ (updated_at s)
    (dirty s || negb (bool_decide (stale_flash s = ∅))).

(** The keys flashed for this request go, unless they were flashed again. *)
Definition age_flash (s : Session) : Session :=
  let expiring := stale_flash s ∖ fresh_flash s in
  mkSession (id s) (filter (fun kv => kv.1 ∉ expiring) (data s)) ∅ (fresh_flash s) (updated_at s)
    (dirty s || negb (bool_decide (expiring = ∅))).

Definition touch (now : Z) (s : Session) : Session :=
  mkSession (id s) (data s) (fresh_flash s) (stale_flash s) now (dirty s).

(** A [BTreeMap<String, _>] as the members of an object. *)
Definition sorted_members (m : gmap (list Z) Json.Json) : list (list Z * Json.Json) :=
  stable_sort (fun a b => text_le a.1 b.1) (map_to_list m).

Definition to_json (s : Session) : Json.Json :=
  Json.Object (JsonText.object_of
    [(lit "data", Json.Object (sorted_members (data s)));
     (lit "flash", Json.Array (map Json.String (Scopes.iter (stale_flash s))));
     (lit "updated_at", Json.from_int (updated_at s))]).

Definition from_json (i : list Z) (payload : Json.Json) (now : Z) : Session :=
  mkSession i
    (match Json.get payload (lit "data") with Some (Json.Object m) => list_to_map m | _ => ∅ end)
    ∅
    (match Json.get payload (lit "flash") with Some (Json.Array l) => list_to_set (omap Json.as_str l) | _ => ∅ end)
    (match Json.get payload (lit "updated_at") with
     | Some (Json.Number n) => f64_to_int 0 u64_max n
     | _ => now
     end)
    false.

End Session.

(** ** Programs *)

(** What is sent to another server, and what comes back ([rustlavel-client]). *)
Record ClientRequest := mkClientRequest {
  client_method : Method.Method;
  client_url : list Z;
  client_headers : Headers.Entries;
  client_body : list Z }.

Record ClientResponse := mkClientResponse {
  response_status : Z;
  response_headers : Headers.Entries;
  response_body : list Z }.

Module Effects.

Inductive op :=
  | ORandom (n : nat)
  | ONow
  | ORead (id : list Z)
  | OWrite (s : Session.Session)
  | ODestroy (id : list Z)
  | OSend (r : ClientRequest).

(** A failure of the store is only logged; one of the network is a text. *)
Definition answer (o : op) : Type :=
  match o with
  | ORandom _ => list Z
  | ONow => Z
  | ORead _ => result unit (option Session.Session)
  | OWrite _ | ODestroy _ => result unit unit
  | OSend _ => result (list Z) ClientResponse
  end.

Inductive prog (A : Type) : Type :=
  | Ret (a : A)
  | Do (o : op) (k : answer o -> prog A).
Arguments Ret {A} a.
Arguments Do {A} o k.

Fixpoint bind {A B} (p : prog A) (f : A -> prog B) : prog B :=
  match p with
  | Ret a => f a
  | Do o k => Do o (fun x => bind (k x) f)
  end.

Definition ask (o : op) : prog (answer o) := Do o Ret.

(** A handler: the session is in its hands while it runs. *)
Definition M (A : Type) : Type := Session.Session -> prog (A * Session.Session).

Definition ret {A} (a : A) : M A := fun s => Ret (a, s).
Definition mbind {A B} (m : M A) (f : A -> M B) : M B := fun s => bind (m s) (fun r => f r.1 r.2).
Definition lift {A} (p : prog A) : M A := fun s => bind p (fun a => Ret (a, s)).
Definition reading {A} (f : Session.Session -> A) : M A := fun s => Ret (f s, s).
Definition changing (f : Session.Session -> Session.Session) : M unit := fun s => Ret (tt, f s).
Definition taking {A} (f : Session.Session -> A * Session.Session) : M A := fun s => Ret (f s).

End Effects.

Declare Scope session_scope.
Delimit Scope session_scope with session.
Notation "'let*' x ':=' e 'in' k" := (Effects.bind e (fun x => k))
  (at level 10, x pattern, e at level 100, k at level 200, format "'let*'  x  ':='  e  'in' '//' k") : session_scope.
Notation "'do' x '<-' e ';' k" := (Effects.mbind e (fun x => k))
  (at level 10, x pattern, e at level 100, k at level 200, format "'do'  x  '<-'  e ';' '//' k") : session_scope.
#[global] Open Scope session_scope.

(** ** What a handler can do with its session *)

(** The calls of [SessionHandle] that draw something. *)
Module SessionHandle.
Import Effects.

Definition new_id : prog (list Z) := let* b := ask (ORandom Session.ID_BYTES) in Ret (hex b).

(** [Session::new]. *)
Definition fresh : prog Session.Session :=
  let* i := new_id in
  let* now := ask ONow in
  Ret (Session.with_id i now).

Definition regenerate : M (list Z) :=
  do i <- lift new_id;
  fun s =>
    let s := Session.mkSession i (Session.data s) (Session.fresh_flash s) (Session.stale_flash s) (Session.updated_at s) (Session.dirty s) in
    let s := (Session.forget Session.TOKEN_KEY s).2 in
    Ret (i, Session.mkSession (Session.id s) (Session.data s) (Session.fresh_flash s) (Session.stale_flash s) (Session.updated_at s) true).

Definition invalidate : M (list Z) :=
  do _ <- changing Session.flush;
  regenerate.

Definition token : M (list Z) :=
  do found <- reading (Session.get_string Session.TOKEN_KEY);
  match found with
  | Some t => ret t
  | None =>
      do t <- lift new_id;
      do _ <- changing (Session.put Session.TOKEN_KEY (Json.String t));
      ret t
  end.

End SessionHandle.

(** ** The guard of a login ([guard.rs]) *)

Module Guard.
Import Effects.

Definition IDENTIFIER_KEY : list Z := lit "_auth_id".
Definition INTENDED_KEY : list Z := lit "_auth_intended".

Definition login_using_id (user : list Z) : M (list Z) :=
  do new_id <- SessionHandle.regenerate;
  do _ <- changing (Session.put IDENTIFIER_KEY (Json.String user));
  ret new_id.

Definition logout : M (list Z) := SessionHandle.invalidate.

Definition user_id (s : Session.Session) : option (list Z) := Session.get_string IDENTIFIER_KEY s.
Definition check (s : Session.Session) : bool := match user_id s with Some _ => true | None => false end.
Definition guest (s : Session.Session) : bool := negb (check s).

Definition remember_intended (path : list Z) : M unit := changing (Session.put INTENDED_KEY (Json.String path)).

Definition intended (fallback : list Z) : M (list Z) :=
  do v <- taking (Session.forget INTENDED_KEY);
  ret (default fallback (let! j := v in Json.as_str j)).

End Guard.

(** ** The middleware *)

(** A request on its way through the middleware, with what they added to it. *)
Record Request := mkRequest {
  wire : Server.Request;
  identity : option (list Z) }.

(** A handler, or what is left of the middleware before it. *)
Definition Handler (U : Type) : Type := Request -> Effects.M (Response.Response U).

Module Manager.
Import Effects.

Definition DEFAULT_COOKIE : list Z := lit "rustlavel_session".
Definition PREVIOUS_URL_KEY : list Z := lit "_previous".

Record Manager := mkManager {
  cookie_key : list Z;
  cookie : list Z;
  lifetime : Z;
  path : list Z;
  secure : bool;
  same_site : Cookie.SameSite }.

Section Manager.
Context {U : Type}.
Local Abbreviation Response := (Response.Response U).
(** HMAC-SHA256 of a key and a message. *)
Context (hmac : list Z -> list Z -> list Z).

(** The manager of [SessionManager::new]. *)
Definition new (key : list Z) (store_lifetime : Z) : Manager :=
  mkManager (AppKey.derive hmac key (lit "session-cookie")) DEFAULT_COOKIE store_lifetime (lit "/") false Cookie.Lax.

Definition sign (m : Manager) (i : list Z) : list Z := i ++ lit "." ++ Base64.encode_url (hmac (cookie_key m) i).

(** [str::rsplit_once]. *)
Definition rsplit_once (c : Z) (l : list Z) : option (list Z * list Z) :=
  (fun p => (rev p.2, rev p.1)) <$> split_once c (rev l).

Definition unsign (m : Manager) (value : list Z) : option (list Z) :=
  let! (i, signature) := rsplit_once 46 value in
  if negb (Session.is_valid_id i) then None
  else
    let! (_, expected) := rsplit_once 46 (sign m i) in
    if Pkce.constant_time_eq expected signature then Some i else None.

Definition cookie_for (m : Manager) (i : list Z) : Cookie.Cookie :=
  Cookie.same_site (same_site m) (Cookie.secure (secure m) (Cookie.http_only true
    (Cookie.max_age (lifetime m) (Cookie.path (path m) (Cookie.new (cookie m) (sign m i)))))).

(** The session a request comes with, and whether the store had it. *)
Definition load (presented : option (list Z)) : prog (Session.Session * bool) :=
  match presented with
  | Some i =>
      let* found := ask (ORead i) in
      match found with
      | Ok (Some s) => Ret (s, true)
      | _ => let* s := SessionHandle.fresh in Ret (s, false)
      end
  | None => let* s := SessionHandle.fresh in Ret (s, false)
  end.

(** What is left in the session once the handler has answered. *)
Definition close (r : Request) (status : Z) (s : Session.Session) : Session.Session :=
  let page := (match Server.method (wire r) with Method.Get => true | _ => false end) && negb (Requests.wants_json (wire r)) &&
              (200 <=? status) && (status <? 300) && Session.dirty s in
  Session.age_flash (if page then Session.put PREVIOUS_URL_KEY (Json.String (Server.target (wire r))) s else s).

Definition handle (m : Manager) (next : Handler U) (r : Request) : prog Response :=
  let* (session, existed) := load (let! v := Requests.cookie (cookie m) (wire r) in unsign m v) in
  let loaded_id := Session.id session in
  let* (response, session) := next r session in
  let session := close r (Response.status response) session in
  if negb (Session.dirty session) && bool_decide (Session.id session = loaded_id) then Ret response
  else
    let* _ := (if existed && negb (bool_decide (Session.id session = loaded_id)) then ask (ODestroy loaded_id) else Ret (Ok tt)) in
    let* written := ask (OWrite session) in
    Ret (match written with
         | Err _ => response
         | Ok _ => Response.with_cookie (cookie_for m (Session.id session)) response
         end).

End Manager.
End Manager.

(** *** The form token ([csrf.rs]) *)

Module Csrf.
Import Effects.

Definition TOKEN_FIELD : list Z := Session.TOKEN_KEY.
Definition TOKEN_HEADER : list Z := lit "x-csrf-token".
Definition REJECTED : Z := 419.

Definition is_exempt (except : list (list Z)) (path : list Z) : bool := existsb (fun prefix => starts_with path prefix) except.

Definition is_safe (m : Method.Method) : bool :=
  match m with Method.Get | Method.Head | Method.Options => true | _ => false end.

(** The hidden field of a form. *)
Definition field : M (list Z) :=
  do t <- SessionHandle.token;
  ret (lit "<input type=" ++ [34] ++ lit "hidden" ++ [34] ++ lit " name=" ++ [34] ++ TOKEN_FIELD ++ [34] ++
       lit " value=" ++ [34] ++ t ++ [34] ++ lit ">").

Section Csrf.
Context {U : Type}.
Local Abbreviation Response := (Response.Response U).

Definition rejection (r : Request) : Response :=
  if Requests.wants_json (wire r) then
    Response.with_json (Json.Object (JsonText.object_of [(lit "message", Json.String (lit "CSRF token mismatch."))])) (Response.new REJECTED)
  else
    Response.with_html (lit "<h1>" ++ dec REJECTED ++ lit " " ++ Status.reason REJECTED ++
      lit "</h1><p>Your session has expired. Please refresh the page and try again.</p>") (Response.new REJECTED).

Definition presented (r : Request) : option (list Z) :=
  match Requests.input TOKEN_FIELD (wire r) with
  | Some t => Some t
  | None => Requests.header TOKEN_HEADER (wire r)
  end.

Definition handle (except : list (list Z)) (next : Handler U) (r : Request) : M Response :=
  do expected <- SessionHandle.token;
  if is_safe (Server.method (wire r)) || is_exempt except (Server.path (wire r)) then next r
  else
    match presented r with
    | Some t => if Pkce.constant_time_eq t expected then next r else ret (rejection r)
    | None => ret (rejection r)
    end.

End Csrf.
End Csrf.

(** *** Who is signed in ([guard.rs]) *)

Module Auth.
Import Effects.

Section Auth.
Context {U : Type}.
Local Abbreviation Response := (Response.Response U).

(** [Authenticate::handle]. *)
Definition authenticate (login_path : list Z) (next : Handler U) (r : Request) : M Response :=
  do user <- reading Guard.user_id;
  match user with
  | Some user => next (mkRequest (wire r) (Some user))
  | None =>
      if Requests.wants_json (wire r) then
        ret (Response.with_json (Json.Object (JsonText.object_of [(lit "message", Json.String (lit "Unauthenticated."))])) (Response.new 401))
      else
        do _ <- Guard.remember_intended (Server.target (wire r));
        ret (Response.see_other login_path)
  end.

(** [Guest::handle]. *)
Definition guest (home : list Z) (next : Handler U) (r : Request) : M Response :=
  do signed_in <- reading Guard.check;
  if signed_in then ret (Response.see_other home) else next r.

End Auth.
End Auth.

(** ** The store in memory ([store.rs]) *)

Module MemoryStore.

Definition DEFAULT_LIFETIME : Z := 120 * 60.

Definition is_live (updated_at lifetime now : Z) : bool := Z.max 0 (now - updated_at) <? lifetime.

Abbreviation MemoryStore := (gmap (list Z) Json.Json).

Definition read (lifetime now : Z) (i : list Z) (m : MemoryStore) : option Session.Session :=
  let! payload := m !! i in
  let s := Session.from_json i payload now in
  if is_live (Session.updated_at s) lifetime now then Some s else None.

Definition write (now : Z) (s : Session.Session) (m : MemoryStore) : MemoryStore :=
  let stamped := Session.touch now s in <[Session.id stamped := Session.to_json stamped]> m.

Definition destroy (i : list Z) (m : MemoryStore) : MemoryStore := base.delete i m.

Definition seconds_at (payload : Json.Json) : Z :=
  match Json.get payload (lit "updated_at") with Some (Json.Number n) => f64_to_int 0 u64_max n | _ => 0 end.

Definition gc (lifetime now : Z) (m : MemoryStore) : nat * MemoryStore :=
  let kept := filter (fun kv => is_live (seconds_at kv.2) lifetime now = true) m in
  ((size m - size kept)%nat, kept).

End MemoryStore.

(** ** Requests in flight *)

Module Flight.
Import Effects.

Record world := mkWorld { sessions : MemoryStore.MemoryStore; clock : Z }.

(** How an operation fares: as asked, not at all, or done with its answer lost. *)
Inductive weather := Fine | Down | Unheard.

Definition reply {A} (x : weather) (a : A) : result unit A := match x with Fine => Ok a | _ => Err tt end.
Definition after (x : weather) (w w' : world) : world := match x with Down => w | _ => w' end.

Section Flight.
Context {U : Type}.
(** What the [drawn]th draw of request [i] gives, and the lifetime of the store. *)
Context (random : nat -> nat -> nat -> list Z) (lifetime : Z).

Definition perform (i drawn : nat) (x : weather) (network : result (list Z) ClientResponse) (w : world) (o : op) : answer o * world :=
  match o with
  | ORandom n => (random i drawn n, w)
  | ONow => (clock w, w)
  | ORead id => (reply x (MemoryStore.read lifetime (clock w) id (sessions w)), w)
  | OWrite s => (reply x tt, after x w (mkWorld (MemoryStore.write (clock w) s (sessions w)) (clock w)))
  | ODestroy id => (reply x tt, after x w (mkWorld (MemoryStore.destroy id (sessions w)) (clock w)))
  | OSend _ => (network, w)
  end.

(** A request: how many values it has drawn, and what is left of it. *)
Record thread := mkThread { draws : nat; left : prog (Response.Response U) }.

Record system := mkSystem { state : world; threads : list thread }.

Inductive event :=
  | Arrives (r : Request)
  | Steps (i : nat) (x : weather) (network : result (list Z) ClientResponse)
  | TimeIs (t : Z)
  | Collects.

(** What the application does with a request. *)
Context (app : Request -> prog (Response.Response U)).

Definition step_thread (i : nat) (x : weather) (network : result (list Z) ClientResponse) (w : world) (th : thread) : world * thread :=
  match left th with
  | Ret _ => (w, th)
  | Do o k =>
      let '(a, w') := perform i (draws th) x network w o in
      (w', mkThread (match o with ORandom _ => S (draws th) | _ => draws th end) (k a))
  end.

Definition happen (s : system) (v : event) : system :=
  let w := state s in
  match v with
  | Arrives r => mkSystem w (threads s ++ [mkThread 0 (app r)])
  | Steps i x network =>
      match threads s !! i with
      | None => s
      | Some th => let '(w', th') := step_thread i x network w th in mkSystem w' (<[i := th']> (threads s))
      end
  | TimeIs t => mkSystem (mkWorld (sessions w) t) (threads s)
  | Collects => mkSystem (mkWorld (MemoryStore.gc lifetime (clock w) (sessions w)).2 (clock w)) (threads s)
  end.

Definition run (s : system) (vs : list event) : system := fold_left happen vs s.
Definition empty : system := mkSystem (mkWorld ∅ 0) [].
Definition history (vs : list event) : system := run empty vs.

End Flight.
End Flight.
