(* ===== verification/SessionProofs.v ===== *)
(** * Sessions between requests

    The cookie is accepted in one spelling, a stored session reads back as it was
    written, and what a middleware or a handler may do to the id of a session. *)

From S2P Require Import Prelude Text F64 Json JsonText Base64 Url Router Headers Cookie Response Server OAuth OAuthStores Sealing Session.

Module SessionProofs.
Import Tokens.

(** ** The session cookie *)

Section Cookie.
Context (hmac : list Z -> list Z -> list Z) (m : Manager.Manager).

Lemma rsplit_once_app c a b : Forall (fun x => x <> c) b -> Manager.rsplit_once c (a ++ c :: b) = Some (a, b).
Proof.
  intros Hb. unfold Manager.rsplit_once. rewrite rev_app_distr. cbn [rev]. rewrite <- app_assoc. cbn [app].
  rewrite split_once_app by (by apply Forall_rev). cbn. by rewrite !rev_involutive.
Qed.

Lemma rsplit_once_spec c l a b : Manager.rsplit_once c l = Some (a, b) -> l = a ++ c :: b.
Proof.
  unfold Manager.rsplit_once. destruct (split_once c (rev l)) as [[x y]|] eqn:E; [|done]. intros [= <- <-].
  assert (H : forall l x y, split_once c l = Some (x, y) -> l = x ++ c :: y).
  { clear. induction l as [|b l IH]; intros x y; cbn [split_once]; [done|]. destruct (Z.eqb_spec b c) as [->|Hne]; [by intros [= <- <-]|].
    destruct (split_once c l) as [[x' y']|]; [|done]. intros [= <- <-]. cbn. by rewrite (IH _ _ eq_refl). }
  apply H in E. apply (f_equal (@rev Z)) in E. rewrite rev_involutive in E. rewrite E, rev_app_distr. cbn [rev]. by rewrite <- app_assoc.
Qed.

Lemma sign_split i : Manager.rsplit_once 46 (Manager.sign hmac m i) = Some (i, Base64.encode_url (hmac (Manager.cookie_key m) i)).
Proof.
  unfold Manager.sign. change (lit ".") with [46]. apply rsplit_once_app. eapply Forall_impl; [|apply encode_url_chars].
  intros b Hb. by apply token_char_plain.
Qed.

(** Of all texts, one is accepted for an id: the one the server signed. *)
Lemma unsign_spec v i : Manager.unsign hmac m v = Some i <-> v = Manager.sign hmac m i /\ Session.is_valid_id i = true.
Proof.
  unfold Manager.unsign. split.
  - destruct (Manager.rsplit_once 46 v) as [[i' s]|] eqn:E; [|done]. cbn. destruct (Session.is_valid_id i') eqn:Hv; [|done]. cbn.
    rewrite sign_split. destruct (Pkce.constant_time_eq _ s) eqn:Hs; [|done]. intros [= <-]. apply Pkce.constant_time_eq_spec in Hs as <-.
    split; [|done]. by apply rsplit_once_spec in E.
  - intros [-> Hv]. rewrite sign_split, Hv. cbn [negb]. rewrite sign_split. by rewrite (proj2 (Pkce.constant_time_eq_spec _ _) eq_refl).
Qed.

End Cookie.

(** ** What the store keeps *)

Lemma sorted_members_map m : list_to_map (Session.sorted_members m) = m.
Proof.
  unfold Session.sorted_members. rewrite <- (list_to_map_to_list m) at 2. apply list_to_map_proper; [|apply stable_sort_perm].
  rewrite (fmap_Permutation fst _ _ (stable_sort_perm _ _)). apply NoDup_fst_map_to_list.
Qed.

Lemma iter_set s : list_to_set (Scopes.iter s) = s.
Proof. unfold Scopes.iter. rewrite (list_to_set_perm_L _ _ (stable_sort_perm _ _)). apply list_to_set_elements_L. Qed.

Definition storable (s : Session.Session) : Prop := 0 <= Session.updated_at s < 2 ^ 53.

Lemma stored_data s now i : Session.data (Session.from_json i (Session.to_json s) now) = Session.data s.
Proof.
  unfold Session.to_json. set (D := Json.Object (Session.sorted_members (Session.data s))).
  set (F := Json.Array (map Json.String (Scopes.iter (Session.stale_flash s)))). generalize (Json.from_int (Session.updated_at s)). intros V.
  assert (Hget : Json.get (Json.Object (JsonText.object_of [(lit "data", D); (lit "flash", F); (lit "updated_at", V)])) (lit "data") = Some D)
    by (vm_compute; reflexivity).
  unfold Session.from_json. rewrite Hget. subst D. cbn. apply sorted_members_map.
Qed.

Lemma from_json_to_json s now i : storable s ->
  Session.from_json i (Session.to_json s) now =
  Session.mkSession i (Session.data s) ∅ (Session.stale_flash s) (Session.updated_at s) false.
Proof.
  intros Hs. unfold Session.to_json. set (D := Json.Object (Session.sorted_members (Session.data s))).
  set (F := Json.Array (map Json.String (Scopes.iter (Session.stale_flash s)))).
  assert (Hget : forall U, Json.get (Json.Object (JsonText.object_of [(lit "data", D); (lit "flash", F); (lit "updated_at", U)])) (lit "data") = Some D /\
    Json.get (Json.Object (JsonText.object_of [(lit "data", D); (lit "flash", F); (lit "updated_at", U)])) (lit "flash") = Some F /\
    Json.get (Json.Object (JsonText.object_of [(lit "data", D); (lit "flash", F); (lit "updated_at", U)])) (lit "updated_at") = Some U).
  { intros U. split_and!; vm_compute; reflexivity. }
  unfold Session.from_json. destruct (Hget (Json.from_int (Session.updated_at s))) as (-> & -> & ->). subst D F. cbn. f_equal.
  - apply sorted_members_map.
  - rewrite <- (iter_set (Session.stale_flash s)) at 2. f_equal. induction (Scopes.iter _) as [|x l IH]; [done|]. cbn. by rewrite IH.
  - apply f64_int_roundtrip; unfold storable, u64_max in *; lia.
Qed.

(** ** What may happen to the owner of a session *)

Section Keeping.
Import Effects.

(** A program that leaves the store alone, with what it has drawn when it ends. *)
Fixpoint path {A} (Q : list (list Z) -> A -> Prop) (drawn : list (list Z)) (p : prog A) : Prop :=
  match p with
  | Ret a => Q drawn a
  | Do o k =>
      match o return (answer o -> prog A) -> Prop with
      | ORandom _ => fun k => forall x, path Q (x :: drawn) (k x)
      | ONow | OSend _ => fun k => forall x, path Q drawn (k x)
      | _ => fun _ => False
      end k
  end.

Lemma path_mono {A} (Q Q' : list (list Z) -> A -> Prop) drawn p :
  path Q drawn p -> (forall d a, Q d a -> Q' d a) -> path Q' drawn p.
Proof. intros H HQ. revert drawn H. induction p as [a|[] k IH]; intros drawn H; cbn in *; auto. Qed.

Lemma path_bind {A B} (Q : list (list Z) -> B -> Prop) drawn (p : prog A) (f : A -> prog B) :
  path (fun d a => path Q d (f a)) drawn p -> path Q drawn (bind p f).
Proof. revert drawn. induction p as [a|[] k IH]; intros drawn H; cbn in *; auto. Qed.

(** A session keeps its id and gains no owner, or it moves to an id just drawn. *)
Definition keeps (s : Session.Session) (drawn : list (list Z)) (s' : Session.Session) : Prop :=
  (Session.id s' = Session.id s /\ forall u, Guard.user_id s' = Some u -> Guard.user_id s = Some u) \/
  (exists d, d ∈ drawn /\ Session.id s' = hex d).

Definition respects {A} (m : M A) : Prop :=
  forall s0 drawn s, keeps s0 drawn s -> path (fun d r => keeps s0 d r.2) drawn (m s).

Lemma keeps_refl s drawn : keeps s drawn s.
Proof. left. split; [done|]. by intros u. Qed.

Lemma keeps_same s0 drawn s s' : keeps s0 drawn s -> Session.id s' = Session.id s ->
  (forall u, Guard.user_id s' = Some u -> Guard.user_id s = Some u) -> keeps s0 drawn s'.
Proof.
  intros [[H1 H2]|(d & Hd & H)] Hi Hu.
  - left. split; [congruence|]. auto.
  - right. exists d. split; [done|congruence].
Qed.

Lemma keeps_drawn s0 drawn d s : keeps s0 drawn s -> keeps s0 (d :: drawn) s.
Proof. intros [H|(e & He & H)]; [by left|]. right. exists e. split; [by right|done]. Qed.

Lemma respects_ret {A} (a : A) : respects (ret a).
Proof. by intros s0 drawn s H. Qed.

Lemma respects_bind {A B} (m : M A) (f : A -> M B) : respects m -> (forall a, respects (f a)) -> respects (mbind m f).
Proof. intros Hm Hf s0 drawn s H. apply path_bind. eapply path_mono; [by apply Hm|]. intros d [a s'] H'. by apply Hf. Qed.

Lemma respects_reading {A} (f : Session.Session -> A) : respects (reading f).
Proof. by intros s0 drawn s H. Qed.

Lemma respects_changing f : (forall s, Session.id (f s) = Session.id s) ->
  (forall s u, Guard.user_id (f s) = Some u -> Guard.user_id s = Some u) -> respects (changing f).
Proof. intros H1 H2 s0 drawn s H. cbn. eapply keeps_same; [done|apply H1|apply H2]. Qed.

Lemma respects_taking {A} (f : Session.Session -> A * Session.Session) : (forall s, Session.id (f s).2 = Session.id s) ->
  (forall s u, Guard.user_id (f s).2 = Some u -> Guard.user_id s = Some u) -> respects (taking f).
Proof. intros H1 H2 s0 drawn s H. cbn. eapply keeps_same; [done|apply H1|apply H2]. Qed.

Lemma respects_random n : respects (lift (ask (ORandom n))).
Proof. intros s0 drawn s H x. cbn. by apply keeps_drawn. Qed.
Lemma respects_now : respects (lift (ask ONow)).
Proof. by intros s0 drawn s H x. Qed.
Lemma respects_send r : respects (lift (ask (OSend r))).
Proof. by intros s0 drawn s H x. Qed.

Lemma user_put key v s u : key <> Guard.IDENTIFIER_KEY -> Guard.user_id (Session.put key v s) = Some u -> Guard.user_id s = Some u.
Proof. intros Hk. unfold Guard.user_id, Session.get_string. cbn. by rewrite lookup_insert_ne. Qed.

Lemma user_forget key s u : Guard.user_id (Session.forget key s).2 = Some u -> Guard.user_id s = Some u.
Proof.
  unfold Guard.user_id, Session.get_string. cbn. destruct (decide (key = Guard.IDENTIFIER_KEY)) as [->|Hk]; [by rewrite lookup_delete_eq|].
  by rewrite lookup_delete_ne.
Qed.

Lemma respects_put key v : key <> Guard.IDENTIFIER_KEY -> respects (changing (Session.put key v)).
Proof. intros Hk. apply respects_changing; [done|]. intros s u. by apply user_put. Qed.

Lemma respects_flash key v : key <> Guard.IDENTIFIER_KEY -> respects (changing (Session.flash key v)).
Proof. intros Hk. apply respects_changing; [done|]. intros s u Hu%user_put; [exact Hu|done]. Qed.

Lemma respects_forget key : respects (taking (Session.forget key)).
Proof. apply respects_taking; [done|]. intros s u. apply user_forget. Qed.

Lemma respects_flush : respects (changing Session.flush).
Proof. by apply respects_changing. Qed.

(** Regenerating moves to a new id whatever the session was. *)
Lemma respects_regenerate : respects SessionHandle.regenerate.
Proof. intros s0 drawn s H x. cbn. right. exists x. split; [left|done]. Qed.

Lemma respects_token : respects SessionHandle.token.
Proof.
  unfold SessionHandle.token. apply respects_bind; [apply respects_reading|]. intros [t|]; [apply respects_ret|].
  apply respects_bind; [intros s0 drawn s H x; by apply keeps_drawn|]. intros t. apply respects_bind; [by apply respects_put|]. intros _. apply respects_ret.
Qed.

Lemma respects_login user : respects (Guard.login_using_id user).
Proof. intros s0 drawn s H x. cbn. right. exists x. split; [left|done]. Qed.

Lemma respects_logout : respects Guard.logout.
Proof. intros s0 drawn s H x. cbn. right. exists x. split; [left|done]. Qed.

Lemma respects_intended fallback : respects (Guard.intended fallback).
Proof. apply respects_bind; [apply respects_forget|]. intros v. apply respects_ret. Qed.

Lemma respects_csrf {U} except (next : Handler U) r : respects (next r) -> respects (Csrf.handle except next r).
Proof.
  intros H. unfold Csrf.handle. apply respects_bind; [apply respects_token|]. intros t. case_match; [done|].
  case_match; [case_match; [done|]|]; apply respects_ret.
Qed.

Lemma respects_authenticate {U} login (next : Handler U) r : (forall r, respects (next r)) -> respects (Auth.authenticate login next r).
Proof.
  intros H. apply respects_bind; [apply respects_reading|]. intros [u|]; [apply H|]. case_match; [apply respects_ret|].
  apply respects_bind; [by apply respects_put|]. intros _. apply respects_ret.
Qed.

Lemma respects_guest {U} home (next : Handler U) r : respects (next r) -> respects (Auth.guest home next r).
Proof. intros H. apply respects_bind; [apply respects_reading|]. intros [|]; [apply respects_ret|done]. Qed.

Lemma close_keeps r status s : Session.id (Manager.close r status s) = Session.id s /\
  forall u, Guard.user_id (Manager.close r status s) = Some u -> Guard.user_id s = Some u.
Proof.
  assert (Hage : forall s u, Guard.user_id (Session.age_flash s) = Some u -> Guard.user_id s = Some u).
  { intros s1 u. unfold Guard.user_id, Session.get_string, Session.age_flash. cbn. rewrite map_lookup_filter.
    destruct (Session.data s1 !! _) as [v|]; [|done]. cbn. case_guard; [done|]. done. }
  unfold Manager.close. split; [by case_match|]. intros u Hu%Hage. case_match; [|done]. by apply user_put in Hu.
Qed.

End Keeping.

End SessionProofs.
