(* ===== verification/SessionTheorems.v ===== *)
(** * What sessions promise

    Over every interleaving of requests and every failure of the store: an id
    that is not signed in never becomes signed in, and one that is gone stays
    gone; the form token; what the browser brings back; and two ways a session
    is not what was left in it. *)

From S2P Require Import Prelude Text F64 Json JsonText Base64 Url Router Headers Cookie Response Server OAuth OAuthStores Sealing Session SessionProofs.

Module SessionTheorems.
Import Effects SessionProofs.

(** ** An id nobody is signed in under *)

Section Fixation.
Context {U : Type} (hmac : list Z -> list Z -> list Z) (m : Manager.Manager) (next : Handler U).
Context (random : nat -> nat -> nat -> list Z) (lifetime : Z).
Local Abbreviation app := (Manager.handle hmac m next).
Local Abbreviation happen := (Flight.happen random lifetime app).
Local Abbreviation run := (Flight.run random lifetime app).

Definition owner (payload : Json.Json) : option (list Z) := Guard.user_id (Session.from_json [] payload 0).

Definition finished (th : Flight.thread (U:=U)) : Prop := exists a, Flight.left th = Ret a.

(** The sessions that may be stored under the id [i]. *)
Context (i : list Z) (allowed : Session.Session -> Prop).
Hypothesis allowed_keeps : forall s s', allowed s -> (forall u, Guard.user_id s' = Some u -> Guard.user_id s = Some u) -> allowed s'.

(** The answers an operation can have while only those are. *)
Definition fair (o : op) : answer o -> Prop :=
  match o with
  | ORandom _ => fun x => hex x <> i
  | ORead j => fun x => forall s, x = Ok (Some s) -> Session.id s = j /\ (j = i -> allowed s)
  | _ => fun _ => True
  end.

Fixpoint tame {A} (Q : A -> Prop) (p : prog A) : Prop :=
  match p with
  | Ret a => Q a
  | Do o k =>
      match o with OWrite s => Session.id s = i -> allowed s | _ => True end /\
      forall x, fair o x -> tame Q (k x)
  end.

Lemma tame_bind {A B} (Q : B -> Prop) (p : prog A) (f : A -> prog B) : tame (fun a => tame Q (f a)) p -> tame Q (bind p f).
Proof. induction p as [a|o k IH]; cbn; [done|]. intros [H1 H2]. split; [done|]. intros x Hx. by apply IH, H2. Qed.

Lemma tame_mono {A} (Q Q' : A -> Prop) p : tame Q p -> (forall a, Q a -> Q' a) -> tame Q' p.
Proof. intros H HQ. induction p as [a|o k IH]; cbn in *; [auto|]. destruct H as [H1 H2]. split; [done|]. auto. Qed.

Lemma tame_path {A} (Q : list (list Z) -> A -> Prop) drawn p : path Q drawn p -> Forall (fun d => hex d <> i) drawn ->
  tame (fun a => exists drawn', Forall (fun d => hex d <> i) drawn' /\ Q drawn' a) p.
Proof.
  revert drawn. induction p as [a|o k IH]; intros drawn H Hd; [by exists drawn|]. destruct o; cbn in H; try done; (split; [done|]); intros x Hx;
    (eapply IH; [apply H|]); [by apply Forall_cons|done..].
Qed.

Lemma fresh_tame : tame (fun s => Session.id s <> i) SessionHandle.fresh.
Proof. cbn. split; [done|]. intros x Hx. split; [done|]. by intros t _. Qed.

(** A session that may be kept: it is another, or one allowed under [i]. *)
Definition fitting (s : Session.Session) : Prop := Session.id s = i -> allowed s.

Lemma load_tame presented : tame (fun r => fitting r.1) (Manager.load presented).
Proof.
  assert (Hf : tame (fun r => fitting r.1) (bind SessionHandle.fresh (fun s => Ret (s, false)))).
  { apply tame_bind. eapply tame_mono; [apply fresh_tame|]. intros s Hs H. done. }
  destruct presented as [j|]; [|exact Hf]. cbn [Manager.load]. apply tame_bind. split; [done|]. intros [[s|]|] Hx; [|exact Hf..].
  destruct (Hx s eq_refl) as [Hj Ha]. intros H. cbn in H. apply Ha. congruence.
Qed.

Lemma fitting_keeps s drawn s' : fitting s -> Forall (fun d => hex d <> i) drawn -> keeps s drawn s' -> fitting s'.
Proof.
  intros Hs Hd [[H1 H2]|(d & Hin & H)] Hi; [eapply allowed_keeps; [apply Hs; congruence|exact H2]|].
  exfalso. pose proof (proj1 (List.Forall_forall _ _) Hd d ltac:(by apply list_elem_of_In)) as Hne. cbn in Hne. congruence.
Qed.

Lemma handle_tame r : respects (next r) -> tame (fun _ => True) (app r).
Proof.
  intros Hr. unfold Manager.handle. apply tame_bind. eapply tame_mono; [apply load_tame|]. intros [s existed] Hs. cbn [fst] in Hs.
  apply tame_bind. eapply tame_mono; [eapply tame_path; [apply (Hr s []), keeps_refl|done]|].
  intros [resp s1] (drawn & Hd & Hk). cbn [snd] in Hk. pose proof (fitting_keeps _ _ _ Hs Hd Hk) as H1.
  pose proof (close_keeps r (Response.status resp) s1) as [Hid Hu]. set (s2 := Manager.close _ _ _) in *.
  assert (H2 : fitting s2). { intros Hi. eapply allowed_keeps; [apply H1; congruence|exact Hu]. }
  destruct (negb (Session.dirty s2) && _); [done|]. apply tame_bind.
  assert (Hw : tame (fun _ => True) (bind (ask (OWrite s2)) (fun written => Ret (match written with
    | Ok _ => Response.with_cookie (Manager.cookie_for hmac m (Session.id s2)) resp | Err _ => resp end)))).
  { cbn. split; [exact H2|]. intros [] _; done. }
  case_match; cbn [tame ask]; [split; [done|]; intros x _; exact Hw|exact Hw].
Qed.

(** What is stored under [i] is what was allowed. *)
Definition stored_ok (w : Flight.world) : Prop :=
  forall payload, Flight.sessions w !! i = Some payload ->
    forall s, Session.data s = Session.data (Session.from_json [] payload 0) -> allowed s.

Lemma perform_fair n drawn x network w o : stored_ok w -> (forall k b, hex (random n k b) <> i) ->
  match o with OWrite s => Session.id s = i -> allowed s | _ => True end ->
  let '(a, w') := Flight.perform random lifetime n drawn x network w o in fair o a /\ stored_ok w'.
Proof.
  intros Hw Hr Ho. destruct o as [b| |j|s|j|q]; cbn [Flight.perform fair]; try done.
  - split; [|done]. intros s. destruct x; cbn; [|done..]. intros [= Hread]. unfold MemoryStore.read in Hread.
    destruct (Flight.sessions w !! j) as [payload|] eqn:E; [|done]. case_match; [|done]. injection Hread as <-. split; [done|].
    intros ->. by eapply Hw.
  - split; [done|].
    assert (H : stored_ok (Flight.mkWorld (MemoryStore.write (Flight.clock w) s (Flight.sessions w)) (Flight.clock w))).
    { intros payload Hp s' Hs'. unfold MemoryStore.write in Hp. cbn [Flight.sessions] in Hp.
      apply lookup_insert_Some in Hp as [[Hid <-]|[_ Hp]]; [|by eapply Hw]. rewrite stored_data in Hs'.
      eapply allowed_keeps; [by apply Ho|]. unfold Guard.user_id, Session.get_string. by rewrite Hs'. }
    by destruct x.
  - split; [done|].
    assert (H : stored_ok (Flight.mkWorld (MemoryStore.destroy j (Flight.sessions w)) (Flight.clock w))).
    { intros payload Hp. unfold MemoryStore.destroy in Hp. cbn [Flight.sessions] in Hp. apply lookup_delete_Some in Hp as [_ Hp]. by apply Hw. }
    by destruct x.
Qed.

Definition calm (n : nat) (s : Flight.system) : Prop :=
  stored_ok (Flight.state s) /\ (n <= length (Flight.threads s))%nat /\
  forall j th, Flight.threads s !! j = Some th -> ((j < n)%nat /\ finished th) \/ ((n <= j)%nat /\ tame (fun _ => True) (Flight.left th)).

Lemma calm_happen n s v : (forall r, respects (next r)) -> (forall j k b, (n <= j)%nat -> hex (random j k b) <> i) ->
  calm n s -> calm n (happen s v).
Proof.
  intros Hn Hr (Hw & Hlen & Hth). destruct v as [r|j x network|t|]; cbn [Flight.happen].
  - split_and!; [done|cbn; rewrite length_app; cbn; lia|]. intros j th Hj. cbn in Hj. apply lookup_app_Some in Hj as [Hj|[Hle Hj]]; [by apply Hth|].
    apply list_lookup_singleton_Some in Hj as [_ <-]. right. split; [lia|]. by apply handle_tame.
  - destruct (Flight.threads s !! j) as [th|] eqn:Ej; [|done]. unfold Flight.step_thread.
    destruct (Hth j th Ej) as [[Hj [a Ha]]|[Hj Ht]].
    { rewrite Ha. split_and!; [done|by cbn; rewrite length_insert|]. intros j' th' H. cbn in H. rewrite list_insert_id in H by done. by apply Hth. }
    destruct (Flight.left th) as [a|o k] eqn:El.
    { split_and!; [done|by cbn; rewrite length_insert|]. intros j' th' H. cbn in H. rewrite list_insert_id in H by done. by apply Hth. }
    destruct Ht as [Ho Hk]. pose proof (perform_fair j (Flight.draws th) x network (Flight.state s) o Hw ltac:(intros k' b; by apply Hr) Ho) as Hp.
    destruct (Flight.perform _ _ _ _ _ _ _ _) as [a w']. destruct Hp as [Hf Hw']. split_and!; [done|by cbn; rewrite length_insert|].
    intros j' th' H. cbn in H. apply list_lookup_insert_Some in H as [(<- & <- & _)|[_ H]]; [|by apply Hth]. right. split; [done|]. cbn. by apply Hk.
  - split_and!; [|done|done]. intros payload Hp. by apply Hw.
  - split_and!; [|done|done]. intros payload. cbn. rewrite map_lookup_filter_Some. intros [Hp _]. by apply Hw.
Qed.

Lemma calm_run n vs : forall s, (forall r, respects (next r)) -> (forall j k b, (n <= j)%nat -> hex (random j k b) <> i) ->
  calm n s -> calm n (run s vs).
Proof. induction vs as [|v vs IH]; intros s Hn Hr H; [done|]. cbn. apply IH; [done|done|]. by apply calm_happen. Qed.

End Fixation.
(** C1. Once no request is being served, an id nobody is signed in under stays
    one, and an id that is gone from the store stays gone, whatever requests come
    later, however they interleave and whatever the store does: an id planted on a
    visitor before a login is worth nothing after it, and a logout is final. The
    handlers are any that change the owner of a session through the guard, and
    random values do not repeat. *)
Theorem guests_stay_guests {U} hmac m (next : Handler U) random lifetime vs vs' i :
  let app := Manager.handle hmac m next in
  let s := Flight.history random lifetime app vs in
  let stored := Flight.sessions (Flight.state s) in
  let later := Flight.sessions (Flight.state (Flight.run random lifetime app s vs')) in
  (forall r, respects (next r)) ->
  (forall th, th ∈ Flight.threads s -> finished th) ->
  (forall j k n, (length (Flight.threads s) <= j)%nat -> hex (random j k n) <> i) ->
  (stored !! i = None -> later !! i = None) /\
  ((forall payload, stored !! i = Some payload -> owner payload = None) ->
   forall payload, later !! i = Some payload -> owner payload = None).
Proof.
  intros app s stored later Hn Hf Hr.
  assert (Hcalm : forall allowed : Session.Session -> Prop,
    (forall s s', allowed s -> (forall u, Guard.user_id s' = Some u -> Guard.user_id s = Some u) -> allowed s') ->
    stored_ok i allowed (Flight.state s) -> stored_ok i allowed (Flight.state (Flight.run random lifetime app s vs'))).
  { intros allowed Ha H. eapply (calm_run hmac m next random lifetime i allowed Ha (length (Flight.threads s))); [exact Hn|exact Hr|].
    split_and!; [exact H|lia|]. intros j th Hj. left. split; [by eapply lookup_lt_Some|]. apply Hf. by eapply list_elem_of_lookup_2. }
  split.
  - intros Hnone. pose proof (Hcalm (fun _ => False) ltac:(done)) as H. destruct (later !! i) as [payload|] eqn:E; [exfalso|done].
    eapply H; [|exact E|reflexivity]. intros p Hp. unfold stored in Hnone. congruence.
  - intros Hg payload Hp. apply (Hcalm (fun s => Guard.user_id s = None)) with (payload := payload); [| |exact Hp|reflexivity].
    + intros s1 s2 H1 H2. destruct (Guard.user_id s2) as [u|]; [|done]. rewrite (H2 u eq_refl) in H1. done.
    + intros p Hp' s1 Hs1. specialize (Hg p Hp'). unfold owner, Guard.user_id, Session.get_string in *. by rewrite Hs1.
Qed.

(** ** Forms *)

(** C3. An unsafe request that is not exempt reaches its handler exactly when it
    presents the token of its session, in its body, its query or its header;
    without one it is rejected and the session keeps what it has. A login moves
    the session to an id just drawn and takes the token along with the old one, so
    that a token from before it opens nothing after it. *)
Theorem forms_need_their_token {U} except (next : Handler U) r s :
  Csrf.is_safe (Server.method (wire r)) = false -> Csrf.is_exempt except (Server.path (wire r)) = false ->
  (forall t, Session.get_string Session.TOKEN_KEY s = Some t ->
     Csrf.handle except next r s = if bool_decide (Csrf.presented r = Some t) then next r s else Ret (Csrf.rejection r, s)) /\
  (Session.get_string Session.TOKEN_KEY s = None ->
     exists k, Csrf.handle except next r s = Do (ORandom 32) k /\ forall x,
       let s' := Session.put Session.TOKEN_KEY (Json.String (hex x)) s in
       k x = if bool_decide (Csrf.presented r = Some (hex x)) then next r s' else Ret (Csrf.rejection r, s')) /\
  (forall user, exists k, Guard.login_using_id user s = Do (ORandom 32) k /\ forall x, exists s', k x = Ret (hex x, s') /\
     Session.id s' = hex x /\ Guard.user_id s' = Some user /\ Session.get_string Session.TOKEN_KEY s' = None /\
     forall key, key <> Session.TOKEN_KEY -> key <> Guard.IDENTIFIER_KEY -> Session.get key s' = Session.get key s).
Proof.
  intros Hs He.
  assert (Hc : forall t s, (if Csrf.is_safe (Server.method (wire r)) || Csrf.is_exempt except (Server.path (wire r)) then next r
      else match Csrf.presented r with
           | Some t' => if Pkce.constant_time_eq t' t then next r else ret (Csrf.rejection r)
           | None => ret (Csrf.rejection r)
           end) s = if bool_decide (Csrf.presented r = Some t) then next r s else Ret (Csrf.rejection r, s)).
  { intros t s'. rewrite Hs, He. cbn [orb]. destruct (Csrf.presented r) as [t'|]; [|by rewrite bool_decide_false].
    destruct (Pkce.constant_time_eq t' t) eqn:E.
    - apply Pkce.constant_time_eq_spec in E as ->. by rewrite bool_decide_true.
    - rewrite bool_decide_false; [done|]. intros [= ->]. by rewrite (proj2 (Pkce.constant_time_eq_spec t t) eq_refl) in E. }
  split_and!.
  - intros t Ht. unfold Csrf.handle, SessionHandle.token, mbind, reading. cbn [bind fst snd]. rewrite Ht. cbn [ret bind fst snd]. apply Hc.
  - intros Ht. unfold Csrf.handle, SessionHandle.token, mbind, reading. cbn [bind fst snd]. rewrite Ht.
    cbn [lift SessionHandle.new_id ask bind changing ret fst snd]. eexists. split; [reflexivity|]. intros x. apply Hc.
  - intros user. eexists. split; [reflexivity|]. intros x. eexists. split; [reflexivity|]. split_and!; [done|by unfold Guard.user_id, Session.get_string; cbn; rewrite lookup_insert_eq| |].
    { unfold Session.get_string. cbn [Session.data Session.put Session.forget snd].
      rewrite lookup_insert_ne by (by apply (bool_decide_unpack _)). by rewrite lookup_delete_eq. }
    intros key H1 H2. unfold Session.get. cbn. rewrite lookup_insert_ne, lookup_delete_ne by done. done.
Qed.

(** ** The browser *)

(** A program that runs on its own, nothing failing and nobody answering from
    elsewhere. *)
Fixpoint alone {A} (random : nat -> nat -> nat -> list Z) (lifetime : Z) (n drawn : nat) (w : Flight.world) (p : prog A) : A * Flight.world :=
  match p with
  | Ret a => (a, w)
  | Do o k =>
      let '(a, w') := Flight.perform random lifetime n drawn Flight.Fine (Err []) w o in
      alone random lifetime n (match o with ORandom _ => S drawn | _ => drawn end) w' (k a)
  end.

Lemma find_insert name name' v m : List.find (fun nv => bool_decide (nv.1 = name)) (Cookie.insert name' v m) =
  if bool_decide (name' = name) then Some (name', v) else List.find (fun nv => bool_decide (nv.1 = name)) m.
Proof.
  induction m as [|[k w] m IH]; cbn [Cookie.insert List.find fst]; [by case_bool_decide|].
  destruct (JsonText.key_lt name' k); [done|]. destruct (decide (name' = k)) as [->|Hne].
  - rewrite (bool_decide_eq_true_2 (k = k)) by done. cbn [List.find fst]. by destruct (bool_decide (k = name)).
  - rewrite (bool_decide_eq_false_2 (name' = k)) by done. cbn [List.find fst]. rewrite IH.
    destruct (decide (k = name)) as [->|Hk].
    + by rewrite (bool_decide_eq_true_2 (name = name)), (bool_decide_eq_false_2 (name' = name)) by done.
    + by rewrite (bool_decide_eq_false_2 (k = name)) by done.
Qed.

(** The cookie of a name among those a browser sends back. *)
Lemma cookie_back r name v others :
  Requests.header (lit "cookie") r = Some (Cookie.cookie_text (name, v) ++ concat (map (fun nv => [59; 32] ++ Cookie.cookie_text nv) others)) ->
  Cookie.pair_ok (name, v) -> Forall Cookie.pair_ok others -> Forall (fun nv => nv.1 <> name) others ->
  Requests.cookie name r = Some v.
Proof.
  intros Hh Hp Ho Hn. unfold Requests.cookie, Requests.cookies. rewrite Hh, Cookie.cookies_come_back by done. cbn [fold_left fst snd].
  assert (H : forall m, List.find (fun nv => bool_decide (nv.1 = name)) m = Some (name, v) ->
    List.find (fun nv => bool_decide (nv.1 = name)) (fold_left (fun m nv => Cookie.insert nv.1 nv.2 m) others m) = Some (name, v)).
  { clear Hh Hp Ho. induction Hn as [|nv others Hnv _ IH]; [done|]. intros m Hm. cbn [fold_left]. apply IH.
    rewrite find_insert, bool_decide_eq_false_2 by done. exact Hm. }
  rewrite H; [done|]. rewrite find_insert. by rewrite bool_decide_eq_true_2.
Qed.

(** A page whose address is remembered as the previous one. *)
Definition page (r : Request) (status : Z) (s : Session.Session) : bool :=
  (match Server.method (wire r) with Method.Get => true | _ => false end) && negb (Requests.wants_json (wire r)) &&
  (200 <=? status) && (status <? 300) && Session.dirty s.

(** What ageing and the page just visited leave of a key the handler left. *)
Lemma get_close r status s key :
  Session.get key (Manager.close r status s) =
    if bool_decide (key ∈ Session.stale_flash s /\ key ∉ Session.fresh_flash s) then None
    else if page r status s && bool_decide (key = Manager.PREVIOUS_URL_KEY) then Some (Json.String (Server.target (wire r)))
    else Session.get key s.
Proof.
  unfold Manager.close. fold (page r status s). unfold Session.get, Session.age_flash.
  destruct (page r status s); cbn; rewrite map_lookup_filter; case_bool_decide as Hs.
  - destruct (<[_:=_]> _ !! key); cbn; [|done]. rewrite option_guard_False; [done|]. set_solver.
  - case_bool_decide as Hk; [subst key; rewrite lookup_insert_eq|rewrite lookup_insert_ne by done; destruct (_ !! key)]; cbn;
      try done; (rewrite option_guard_True; [done|]); set_solver.
  - destruct (_ !! key); cbn; [|done]. rewrite option_guard_False; [done|]. set_solver.
  - destruct (_ !! key); cbn; [|done]. rewrite option_guard_True; [done|]. set_solver.
Qed.

Lemma close_frame r status s :
  Session.id (Manager.close r status s) = Session.id s /\ Session.stale_flash (Manager.close r status s) = Session.fresh_flash s.
Proof. unfold Manager.close. by destruct (_ && _). Qed.

Lemma close_dirty r status s :
  Session.dirty s = true \/ (exists key, key ∈ Session.stale_flash s /\ key ∉ Session.fresh_flash s) ->
  Session.dirty (Manager.close r status s) = true.
Proof.
  unfold Manager.close. destruct (_ && _); [done|]. intros [H|(key & H1 & H2)]; cbn; [by rewrite H|].
  apply orb_true_intro. right. rewrite bool_decide_eq_false_2; [done|]. set_solver.
Qed.

(** C2. What a handler leaves in a session is what the next request with its
    cookie finds. When the handler changed the session, or keys flashed for this
    request are left to expire, the response sets a cookie, and while the session
    lives a request that brings it back, among any others, has the session under
    the id the handler left it. Every key has the value the handler left, with two
    exceptions: a key flashed for the request just answered and not flashed again
    or kept is gone, even when the handler put a new value under it; and after a
    page (a GET that does not want JSON, answered 2xx, from a handler that changed
    the session) the previous address is the page's. What was flashed for the next
    request is gone at the end of it if it is left alone. *)
Theorem session_survives_the_browser {U} hmac m random lifetime n w (answers : Request -> Session.Session -> Response.Response U)
    (changes : Request -> Session.Session -> Session.Session) r n' d' t r' others :
  let next : Handler U := fun r s => Ret (answers r s, changes r s) in
  let found r := Manager.load (let! v := Requests.cookie (Manager.cookie m) (wire r) in Manager.unsign hmac m v) in
  let s0 := (alone random lifetime n 0 w (found r)).1.1 in
  let s1 := changes r s0 in
  let response := (alone random lifetime n 0 w (Manager.handle hmac m next r)).1 in
  let w' := (alone random lifetime n 0 w (Manager.handle hmac m next r)).2 in
  (Session.dirty s1 = true \/ exists key, key ∈ Session.stale_flash s1 /\ key ∉ Session.fresh_flash s1) ->
  Session.is_valid_id (Session.id s1) = true ->
  0 <= Flight.clock w -> Flight.clock w <= t < Flight.clock w + lifetime -> t < 2 ^ 53 ->
  Cookie.pair_ok (Manager.cookie m, Manager.sign hmac m (Session.id s1)) -> Forall Cookie.pair_ok others ->
  Forall (fun nv => nv.1 <> Manager.cookie m) others ->
  Requests.header (lit "cookie") (wire r') = Some (Cookie.cookie_text (Manager.cookie m, Manager.sign hmac m (Session.id s1)) ++
    concat (map (fun nv => [59; 32] ++ Cookie.cookie_text nv) others)) ->
  response = Response.with_cookie (Manager.cookie_for hmac m (Session.id s1)) (answers r s0) /\
  exists s3, (alone random lifetime n' d' (Flight.mkWorld (Flight.sessions w') t) (found r')).1 = (s3, true) /\
    Session.id s3 = Session.id s1 /\
    (forall key, Session.get key s3 =
      if bool_decide (key ∈ Session.stale_flash s1 /\ key ∉ Session.fresh_flash s1) then None
      else if page r (Response.status (answers r s0)) s1 && bool_decide (key = Manager.PREVIOUS_URL_KEY)
      then Some (Json.String (Server.target (wire r)))
      else Session.get key s1) /\
    forall key, key ∈ Session.fresh_flash s1 -> Session.get key (Session.age_flash s3) = None.
Proof.
  intros next found s0 s1 response w'.
  assert (H0 : exists existed w0, alone random lifetime n 0 w (found r) = (s0, existed, w0)).
  { subst s0. destruct (alone random lifetime n 0 w (found r)) as [[a b] c]. by exists b, c. }
  assert (E1 : alone random lifetime n 0 w (Manager.handle hmac m next r) = (response, w')).
  { subst response w'. by destruct (alone random lifetime n 0 w (Manager.handle hmac m next r)). }
  clearbody response w' s0. destruct H0 as (existed & w0 & E0).
  assert (Hload : forall (A : Type) (k : Session.Session * bool -> prog A), exists d,
    alone random lifetime n 0 w (bind (found r) k) = alone random lifetime n d w (k (s0, existed)) /\ w0 = w).
  { intros A k. revert E0. unfold found. generalize (let! v := Requests.cookie (Manager.cookie m) (wire r) in Manager.unsign hmac m v).
    intros [i|]; cbn; [|intros [= <- <- <-]; by eexists]. destruct (MemoryStore.read _ _ _ _) as [s|]; cbn; intros [= <- <- <-]; by eexists. }
  intros Hd Hv Hc Ht Hmax Hp Ho Hn Hh. unfold Manager.handle in E1.
  match type of E1 with alone _ _ _ _ _ (bind _ ?k) = _ => destruct (Hload _ k) as (d & Hl & ->) end.
  unfold found in Hl. rewrite Hl in E1. clear Hl Hload E0. cbn [next bind fst snd] in E1. fold s1 in E1.
  destruct (close_frame r (Response.status (answers r s0)) s1) as [Hid Hstale].
  assert (Hget := get_close r (Response.status (answers r s0)) s1).
  rewrite (close_dirty r (Response.status (answers r s0)) s1 Hd) in E1. set (s2 := Manager.close r _ s1) in *. clearbody s2.
  cbn [negb andb] in E1. rewrite <- Hid in Hp, Hh, Hv |- *.
  assert (Hw : Flight.sessions w' !! Session.id s2 = Some (Session.to_json (Session.touch (Flight.clock w) s2)) /\
    response = Response.with_cookie (Manager.cookie_for hmac m (Session.id s2)) (answers r s0)).
  { destruct (existed && _); cbn [bind ask alone Flight.perform Flight.reply Flight.after] in E1; injection E1 as <- <-;
      (split; [|done]); unfold MemoryStore.write; cbn [Flight.sessions]; apply lookup_insert_eq. }
  destruct Hw as [Hw ->]. split; [done|]. unfold found. rewrite (cookie_back _ _ _ _ Hh Hp Ho Hn).
  rewrite (proj2 (unsign_spec hmac m _ _) (conj eq_refl Hv)). cbn [Manager.load bind ask alone Flight.perform Flight.reply].
  unfold MemoryStore.read, MemoryStore.is_live. cbn [Flight.sessions Flight.clock]. rewrite Hw, from_json_to_json by (unfold storable; cbn; lia).
  cbn [Session.updated_at Session.touch]. rewrite (proj2 (Z.ltb_lt _ _)) by lia.
  eexists. split; [reflexivity|]. split; [done|]. split; [intros key; exact (Hget key)|].
  intros key Hf. unfold Session.get, Session.age_flash. cbn. rewrite map_lookup_filter. destruct (_ !! key); cbn; [|done].
  rewrite option_guard_False; [done|]. set_solver.
Qed.

(** ** A small site to run *)

Definition toy_hmac (key message : list Z) : list Z := message.
Definition toy_random (i k n : nat) : list Z := take n (Z.of_nat i :: Z.of_nat k :: repeat 0 n).
Definition manager : Manager.Manager := Manager.new toy_hmac [] MemoryStore.DEFAULT_LIFETIME.

Definition whoami : M (Response.Response unit) :=
  do u <- reading Guard.user_id;
  ret (Response.text (default (lit "guest") u)).

Definition site : Handler unit := fun r =>
  if bool_decide (Server.path (wire r) = lit "/login") then do _ <- Guard.login_using_id (lit "ann"); whoami
  else if bool_decide (Server.path (wire r) = lit "/logout") then do _ <- Guard.logout; whoami
  else if bool_decide (Server.path (wire r) = lit "/note") then
    do _ <- changing (Session.flash (lit "note") (Json.Bool true)); whoami
  else whoami.

Lemma site_respects r : respects (site r).
Proof.
  assert (Hw : respects whoami) by (apply respects_bind; [apply respects_reading|]; intros u; apply respects_ret).
  unfold site. repeat case_bool_decide; [| | |exact Hw]; (apply respects_bind; [|intros _; exact Hw]).
  - apply respects_login.
  - apply respects_logout.
  - by apply respects_flash.
Qed.

(** A page view, with the cookie of a session where there is one. *)
Definition visit (path : list Z) (session : option (list Z)) : Request :=
  mkRequest (Server.mkRequest Method.Get path path []
    (match session with
     | Some i => Headers.set (lit "cookie") (Cookie.cookie_text (Manager.DEFAULT_COOKIE, Manager.sign toy_hmac manager i)) []
     | None => []
     end) []) None.

Definition step (i : nat) : Flight.event := Flight.Steps i Flight.Fine (Err []).
Definition drawn_id (i k : nat) : list Z := hex (toy_random i k 32).

Definition toy_history : list Flight.event -> Flight.system :=
  Flight.history toy_random MemoryStore.DEFAULT_LIFETIME (Manager.handle toy_hmac manager site).

Definition said (s : Flight.system) (i : nat) : option (list Z) :=
  let! th := Flight.threads s !! i in
  match Flight.left th with Ret resp => Some (Response.body (U:=unit) resp) | Do _ _ => None end.

(** ** A logout while another request is served *)

Section Race.
Context {U : Type} (random : nat -> nat -> nat -> list Z) (lifetime : Z) (app : Request -> prog (Response.Response U)).

Definition elsewhere (i : nat) (v : Flight.event) : bool :=
  match v with Flight.Steps j _ _ => negb (Nat.eqb j i) | _ => true end.

(** A request that is not stepped stays where it was. *)
Lemma run_elsewhere i vs : forall s th, forallb (elsewhere i) vs = true -> Flight.threads s !! i = Some th ->
  Flight.threads (Flight.run random lifetime app s vs) !! i = Some th.
Proof.
  induction vs as [|v vs IH]; [done|]. intros s th Hv Hi. cbn in Hv. apply andb_prop in Hv as [Hv Hvs]. cbn. apply IH; [done|].
  destruct v as [r|j x network|t|]; cbn in *; [by apply lookup_app_l_Some| |done..].
  destruct (Flight.threads s !! j) as [th'|]; [|done]. destruct (Flight.step_thread _ _ _ _ _ _ _). cbn.
  rewrite list_lookup_insert_ne; [done|]. apply negb_true_iff, Nat.eqb_neq in Hv. lia.
Qed.

Lemma run_app s vs vs' : Flight.run random lifetime app s (vs ++ vs') = Flight.run random lifetime app (Flight.run random lifetime app s vs) vs'.
Proof. apply fold_left_app. Qed.

Lemma step_asks i s th network o k : Flight.threads s !! i = Some th -> Flight.left th = Do o k ->
  let '(a, w') := Flight.perform random lifetime i (Flight.draws th) Flight.Fine network (Flight.state s) o in
  let s' := Flight.happen random lifetime app s (Flight.Steps i Flight.Fine network) in
  Flight.state s' = w' /\
  Flight.threads s' !! i = Some (Flight.mkThread (match o with ORandom _ => S (Flight.draws th) | _ => Flight.draws th end) (k a)).
Proof.
  intros Hi Hl. destruct (Flight.perform _ _ _ _ _ _ _ _) as [a w'] eqn:E. unfold Flight.happen. rewrite Hi. unfold Flight.step_thread.
  rewrite Hl, E. cbn. split; [done|]. rewrite list_lookup_insert_eq; [done|]. by eapply lookup_lt_Some.
Qed.

End Race.

Lemma Session_user_flash key v s u : key <> Guard.IDENTIFIER_KEY -> Guard.user_id s = Some u ->
  Guard.user_id (Session.flash key v s) = Some u.
Proof. intros Hk. unfold Guard.user_id, Session.get_string, Session.flash. cbn. by rewrite lookup_insert_ne. Qed.

(** C5. A logout is undone by a request that was being served. A request comes with
    the cookie of a session the store has, reads it, and its handler answers and
    leaves something in it under the id it had, signed in as [u]. Whatever happens
    before it is written back (the visitor's logout, which destroys the record, is
    answered; the store is swept; other visitors come), the write is made: the
    request is answered with the cookie of the same id, the store has a session
    under that id again, and for a lifetime from then on whoever presents the
    cookie is signed in as [u]. *)
Theorem logout_is_undone {U} hmac m (next : Handler U) random lifetime vs vs' r X s0 answer s1 u network network' :
  let app := Manager.handle hmac m next in
  let before := Flight.history random lifetime app vs in
  let i := length (Flight.threads before) in
  let middle := Flight.run random lifetime app before (Flight.Arrives r :: Flight.Steps i Flight.Fine network :: vs') in
  let final := Flight.happen random lifetime app middle (Flight.Steps i Flight.Fine network') in
  let clock := Flight.clock (Flight.state middle) in
  (let! v := Requests.cookie (Manager.cookie m) (wire r) in Manager.unsign hmac m v) = Some X ->
  MemoryStore.read lifetime (Flight.clock (Flight.state before)) X (Flight.sessions (Flight.state before)) = Some s0 ->
  next r s0 = Ret (answer, s1) -> Session.id s1 = X -> Session.dirty s1 = true ->
  Guard.user_id s1 = Some u -> Guard.IDENTIFIER_KEY ∉ Session.stale_flash s1 ->
  forallb (elsewhere i) vs' = true -> 0 <= clock < 2 ^ 53 ->
  Flight.threads final !! i = Some (Flight.mkThread 0 (Ret (Response.with_cookie (Manager.cookie_for hmac m X) answer))) /\
  forall t, clock <= t < clock + lifetime ->
    exists s, MemoryStore.read lifetime t X (Flight.sessions (Flight.state final)) = Some s /\ Guard.user_id s = Some u.
Proof.
  intros app before i middle final clock Hcookie Hread Hnext HX Hd Hu Hs Hv Hclock.
  set (arrived := Flight.happen random lifetime app before (Flight.Arrives r)).
  assert (Ha : Flight.threads arrived !! i = Some (Flight.mkThread 0 (app r))).
  { cbn. apply list_lookup_middle. reflexivity. }
  destruct (close_frame r (Response.status answer) s1) as [Hid _]. rewrite HX in Hid.
  assert (Huser : Guard.user_id (Manager.close r (Response.status answer) s1) = Some u).
  { pose proof (get_close r (Response.status answer) s1 Guard.IDENTIFIER_KEY) as Hg. rewrite bool_decide_eq_false_2 in Hg by tauto.
    rewrite (bool_decide_eq_false_2 (Guard.IDENTIFIER_KEY = _)), andb_false_r in Hg by done. unfold Session.get in Hg.
    revert Hu. unfold Guard.user_id, Session.get_string. by rewrite Hg. }
  assert (Hs0 : Session.id s0 = X).
  { unfold MemoryStore.read in Hread. destruct (_ !! X); cbn in Hread; [|done]. case_match; [|done]. by injection Hread as <-. }
  pose proof (close_dirty r (Response.status answer) s1 (or_introl Hd)) as Hdirty.
  set (s2 := Manager.close r (Response.status answer) s1) in *.
  assert (Happ : exists k, app r = Do (ORead X) k /\ k (Ok (Some s0)) = Do (OWrite s2) (fun written =>
    Ret (match written with Err _ => answer | Ok _ => Response.with_cookie (Manager.cookie_for hmac m X) answer end))).
  { unfold app, Manager.handle. rewrite Hcookie. eexists. split; [reflexivity|]. cbn [bind fst snd]. rewrite Hnext. cbn [bind fst snd].
    fold s2. rewrite Hdirty, Hid, Hs0, bool_decide_eq_true_2 by done. reflexivity. }
  destruct Happ as (k & Happ & Hk).
  pose proof (step_asks random lifetime app i arrived _ network _ _ Ha Happ) as H1. cbn [Flight.perform Flight.draws Flight.reply] in H1.
  assert (Hw : Flight.state arrived = Flight.state before) by done. rewrite Hw, Hread, Hk in H1. destruct H1 as [_ H1].
  pose proof (run_elsewhere random lifetime app i vs' _ _ Hv H1) as Hm.
  match type of Hm with _ = ?th => change (Flight.threads middle !! i = th) in Hm end.
  pose proof (step_asks random lifetime app i middle _ network' _ _ Hm eq_refl) as H2. cbn [Flight.perform Flight.draws Flight.reply Flight.after] in H2.
  destruct H2 as [Hstate H2]. change (Flight.state final = Flight.mkWorld (MemoryStore.write clock s2 (Flight.sessions (Flight.state middle))) clock) in Hstate.
  split; [exact H2|]. intros t Ht. rewrite Hstate. cbn [Flight.sessions]. unfold MemoryStore.read, MemoryStore.write.
  cbn [Session.id Session.touch]. rewrite Hid, lookup_insert_eq. cbn [mbind option_bind]. rewrite from_json_to_json by (unfold storable; cbn; lia).
  cbn [Session.updated_at Session.touch]. unfold MemoryStore.is_live. rewrite (proj2 (Z.ltb_lt _ _)) by lia.
  eexists. split; [reflexivity|]. exact Huser.
Qed.

(** ** The theorems at work *)

Lemma toy_random_new i k n : (1 <= i)%nat -> hex (toy_random i k n) <> drawn_id 0 0.
Proof.
  intros Hi H. assert (Hn : n = 32%nat).
  { apply (f_equal length) in H. revert H.
    assert (Hl : forall l, length (hex l) = (2 * length l)%nat).
    { induction l as [|b l IH]; [done|]. rewrite hex_cons. cbn [length]. rewrite IH. lia. }
    unfold drawn_id. rewrite !Hl. unfold toy_random. rewrite !length_take. cbn [length]. rewrite !repeat_length. lia. }
  subst n. unfold drawn_id, toy_random in H. cbn [take] in H. rewrite !hex_cons in H. injection H as H1 H2 _ _.
  apply hex_digit_lower_inj in H1; [..|done].
  2: { clear -H1. destruct (decide (0 <= Z.shiftr (Z.of_nat i) 4 < 16)) as [|Hn]; [done|exfalso].
       pose proof (Zle_0_nat i). assert (0 <= Z.shiftr (Z.of_nat i) 4) by (by apply Z.shiftr_nonneg).
       generalize dependent (Z.shiftr (Z.of_nat i) 4). intros x H1 Hn Hx. change (hex_digit_lower (Z.shiftr (Z.of_nat 0) 4)) with 48 in H1.
       unfold hex_digit_lower in H1. destruct (Z.ltb_spec x 10); lia. }
  apply hex_digit_lower_inj in H2; [| |done].
  - rewrite Z.shiftr_div_pow2 in H1 by lia. change 15 with (2 ^ 4 - 1) in H2. rewrite !land_ones_mod in H2 by lia.
    cbn in H1. change (2 ^ 4) with 16 in *. change (Z.shiftr (Z.of_nat 0) 4) with 0 in H1. change (Z.of_nat 0 mod 16) with 0 in H2. Z.div_mod_to_equations. lia.
  - change 15 with (2 ^ 4 - 1). rewrite land_ones_mod by lia. apply Z.mod_pos_bound. lia.
Qed.

Lemma owner_found (o : option Json.Json) payload :
  (match o with Some p => owner p | None => None end) = None -> o = Some payload -> owner payload = None.
Proof. by intros H ->. Qed.

Lemma guests_stay_guests_witness :
  let planted := drawn_id 0 0 in
  let s := toy_history ([Flight.Arrives (visit (lit "/note") None)] ++ repeat (step 0) 3) in
  let later := Flight.run toy_random MemoryStore.DEFAULT_LIFETIME (Manager.handle toy_hmac manager site) s
    ([Flight.Arrives (visit (lit "/login") (Some planted))] ++ repeat (step 1) 4) in
  is_Some (Flight.sessions (Flight.state s) !! planted) /\ said later 1 = Some (lit "ann") /\
  forall payload, Flight.sessions (Flight.state later) !! planted = Some payload -> owner payload = None.
Proof.
  cbv zeta. split; [eexists; vm_compute; reflexivity|]. split; [vm_compute; reflexivity|].
  refine (proj2 (guests_stay_guests toy_hmac manager site toy_random MemoryStore.DEFAULT_LIFETIME
    ([Flight.Arrives (visit (lit "/note") None)] ++ repeat (step 0) 3)
    ([Flight.Arrives (visit (lit "/login") (Some (drawn_id 0 0)))] ++ repeat (step 1) 4) (drawn_id 0 0) site_respects _ _) _).
  - intros th Hth. apply list_elem_of_singleton in Hth as ->. eexists. reflexivity.
  - intros j k n Hj. apply toy_random_new. exact Hj.
  - intros payload. apply owner_found. vm_compute. reflexivity.
Defined.

Lemma logout_is_undone_witness :
  let old := Some (drawn_id 0 1) in
  let vs := [Flight.Arrives (visit (lit "/login") None)] ++ repeat (step 0) 4 in
  let vs' := Flight.Arrives (visit (lit "/logout") old) :: repeat (step 2) 4 in
  let goes := Flight.run toy_random MemoryStore.DEFAULT_LIFETIME (Manager.handle toy_hmac manager site) in
  let middle := goes (toy_history vs) (Flight.Arrives (visit (lit "/note") old) :: step 1 :: vs') in
  let final := Flight.happen toy_random MemoryStore.DEFAULT_LIFETIME (Manager.handle toy_hmac manager site) middle (step 1) in
  map (said middle) [0%nat; 2%nat] = [Some (lit "ann"); Some (lit "guest")] /\
  Flight.sessions (Flight.state middle) !! drawn_id 0 1 = None /\
  (exists s, MemoryStore.read MemoryStore.DEFAULT_LIFETIME 0 (drawn_id 0 1) (Flight.sessions (Flight.state final)) = Some s /\
    Guard.user_id s = Some (lit "ann")) /\
  said (goes final [Flight.Arrives (visit (lit "/") old); step 3; step 3]) 3 = Some (lit "ann").
Proof.
  cbv zeta. split; [vm_compute; reflexivity|]. split; [vm_compute; reflexivity|]. split; [|vm_compute; reflexivity].
  set (vs := [Flight.Arrives (visit (lit "/login") None)] ++ repeat (step 0) 4).
  set (vs' := Flight.Arrives (visit (lit "/logout") (Some (drawn_id 0 1))) :: repeat (step 2) 4).
  set (before := Flight.history toy_random MemoryStore.DEFAULT_LIFETIME (Manager.handle toy_hmac manager site) vs).
  assert (Hread : exists s0, MemoryStore.read MemoryStore.DEFAULT_LIFETIME (Flight.clock (Flight.state before)) (drawn_id 0 1) (Flight.sessions (Flight.state before)) = Some s0 /\
    Guard.user_id s0 = Some (lit "ann") /\ Session.id s0 = drawn_id 0 1 /\ Guard.IDENTIFIER_KEY ∉ Session.stale_flash s0).
  { eexists. split; [vm_compute; reflexivity|]. split; [vm_compute; reflexivity|]. split; [vm_compute; reflexivity|].
    apply (bool_decide_unpack _). vm_compute. reflexivity. }
  destruct Hread as (s0 & Hread & Hu & Hid & Hstale).
  set (s1 := Session.flash (lit "note") (Json.Bool true) s0).
  assert (Hu1 : Guard.user_id s1 = Some (lit "ann")) by (apply Session_user_flash; [done|exact Hu]).
  destruct (logout_is_undone toy_hmac manager site toy_random MemoryStore.DEFAULT_LIFETIME vs vs' (visit (lit "/note") (Some (drawn_id 0 1)))
    (drawn_id 0 1) s0 (Response.text (lit "ann")) s1 (lit "ann") (Err []) (Err [])) as [_ H].
  - vm_compute. reflexivity.
  - exact Hread.
  - cbv [site]. rewrite bool_decide_eq_false_2, bool_decide_eq_false_2, bool_decide_eq_true_2 by done.
    cbv [mbind changing whoami reading ret bind fst snd]. fold s1. rewrite Hu1. reflexivity.
  - exact Hid.
  - reflexivity.
  - exact Hu1.
  - exact Hstale.
  - vm_compute. reflexivity.
  - vm_compute. split; [discriminate|reflexivity].
  - destruct (H 0) as (s & Hs & Huser); [vm_compute; split; [discriminate|reflexivity]|]. exists s. split; [|exact Huser]. exact Hs.
Defined.

Lemma forms_need_their_token_witness :
  let s := Session.put Session.TOKEN_KEY (Json.String (lit "abc")) (Session.with_id (drawn_id 0 0) 0) in
  let post token := mkRequest (Server.mkRequest Method.Post (lit "/note") (lit "/note") []
    (Headers.set Csrf.TOKEN_HEADER token []) []) None in
  Csrf.handle [] site (post (lit "abc")) s = site (post (lit "abc")) s /\
  Csrf.handle [] site (post (lit "abd")) s = Ret (Csrf.rejection (post (lit "abd")), s).
Proof.
  cbv zeta. set (s := Session.put _ _ _). split.
  - match goal with |- Csrf.handle _ _ ?r _ = _ =>
      rewrite (proj1 (forms_need_their_token [] site r s eq_refl eq_refl) (lit "abc") eq_refl) end. reflexivity.
  - match goal with |- Csrf.handle _ _ ?r _ = _ =>
      rewrite (proj1 (forms_need_their_token [] site r s eq_refl eq_refl) (lit "abc") eq_refl) end. reflexivity.
Defined.

Lemma session_survives_the_browser_witness :
  let leaves (r : Request) s := Session.put (lit "seen") (Json.Bool false) (Session.flash (lit "note") (Json.Bool true) s) in
  let answers (r : Request) (s : Session.Session) := Response.text (U:=unit) (lit "noted") in
  let w := Flight.mkWorld ∅ 100 in
  let r := visit (lit "/note") None in
  let r' := visit (lit "/") (Some (drawn_id 0 0)) in
  let w' := (alone toy_random 7200 0 0 w (Manager.handle toy_hmac manager (fun r s => Ret (answers r s, leaves r s)) r)).2 in
  exists s3, (alone toy_random 7200 1 0 (Flight.mkWorld (Flight.sessions w') 101)
      (Manager.load (let! v := Requests.cookie (Manager.cookie manager) (wire r') in Manager.unsign toy_hmac manager v))).1 = (s3, true) /\
    Session.get (lit "note") s3 = Some (Json.Bool true) /\ Session.get (lit "seen") s3 = Some (Json.Bool false) /\
    Session.get Manager.PREVIOUS_URL_KEY s3 = Some (Json.String (lit "/note")) /\
    Session.get (lit "note") (Session.age_flash s3) = None.
Proof.
  cbv zeta.
  destruct (session_survives_the_browser toy_hmac manager toy_random 7200 0 (Flight.mkWorld ∅ 100)
    (fun _ _ => Response.text (U:=unit) (lit "noted"))
    (fun _ s => Session.put (lit "seen") (Json.Bool false) (Session.flash (lit "note") (Json.Bool true) s))
    (visit (lit "/note") None) 1 0 101 (visit (lit "/") (Some (drawn_id 0 0))) []) as (_ & s3 & H3 & _ & Hget & H).
  - left. vm_compute. reflexivity.
  - vm_compute. reflexivity.
  - vm_compute. discriminate.
  - vm_compute. split; [discriminate|reflexivity].
  - vm_compute. reflexivity.
  - apply (bool_decide_unpack _). vm_compute. reflexivity.
  - constructor.
  - constructor.
  - vm_compute. reflexivity.
  - exists s3. split; [exact H3|]. split; [rewrite Hget; vm_compute; reflexivity|].
    split; [rewrite Hget; vm_compute; reflexivity|]. split; [rewrite Hget; vm_compute; reflexivity|]. apply H.
    apply (bool_decide_unpack _). vm_compute. reflexivity.
Defined.

End SessionTheorems.
